(* ===== verification/_CoqProject ===== *)
-Q . S2P
Prelude.v
Bytes.v
NetCodec.v
SimQueue.v
ConfChange.v
RaftTypes.v
Raft.v
RaftInv.v
RaftOps.v
RaftReach.v
RaftSnap.v
RaftGate.v
RaftLive.v
RaftElection.v
RaftExamples.v
Hlc.v
ClockTimeline.v
SimLoop.v
SimTransport.v
Rng.v
CheckLedger.v
CheckOracles.v
CheckRaft.v
Engine.v
KvEncoding.v
EngineIface.v
KvStore.v
KvTxn.v
EngineMap.v
StoreCodec.v
StoreReplay.v
StoreTxn.v
CheckTxn.v
StoreRange.v
StoreNode.v
CheckStore.v
BankCoord.v
SimPlan.v
SimBuild.v
StoreDriver.v
BankSystem.v
BankInv.v
BankConserve.v
BankRun.v
BankHandle.v
BankSafe.v
StoreDrain.v
StoreDurable.v
StoreScenarios.v
