(* ===== verification/Prelude.v ===== *)
(** * Rift: a verification library for the distributed layer of the Rift database

    Rift is a sharded transactional key-value store in Go.  The key space is
    divided into ranges; every range is replicated by its own Raft group; every
    machine keeps the replicas it hosts in one storage engine; transactions are
    two-phase commits over locks kept in the ranges, ordered by hybrid logical
    clocks.  This library models the program from its Raft state machine up to the
    event handler of a machine, as executable functions, and proves what makes
    each part correct.

    ** How the program is put together

    A machine ([store.Node], src/store/machine.go) receives events: ticks,
    messages, completed syncs, client requests, crashes, restarts.  It routes them
    to its replicas ([store.Replica], src/store/node.go).  A replica steps its Raft
    node (src/raft/raft.go) and drains it: what must be durable goes to the engine
    (src/engine) in one synced batch, messages go out once Raft releases them, and
    committed entries are applied to the range's state machine -- the MVCC records
    of src/kv, written through the same engine.  Commands, messages and durable
    records are the byte strings of src/store/codec.go, range.go and txncmd.go.  A
    second, independent implementation of the state machine (src/store/replay.go)
    is what the project checks replicas against.

    The machines run inside a deterministic simulator: an event queue and a loop
    (src/sim/event.go, loop.go), physical clocks computed from schedules of skew
    (src/clock), a network whose losses and delays are drawn from a keyed function
    of the link and the message's ordinal (src/sim/transport.go,
    src/internal/rng/prf.go).  A run is described by a plan (src/sim/plan) that a
    generator draws from a seed (src/internal/rng), with its clocks, links, faults and
    operations.  What the machines do is reported to a ledger
    (src/raftcheck/ledger.go) that a family of oracles (src/raftcheck/oracles.go)
    judges after every event.  Its client is a transaction coordinator
    (src/sim/hunt/bank.go) that moves money between accounts and audits them.  Between
    processes the same envelopes travel as the
    frames of src/sim/codec.go and src/net.

    ** What models what

    - [Bytes]: Go byte strings, big-endian integers, bytes.Compare.
    - [ConfChange]: configurations, single-server changes, quorums and their
      encodings; [RaftTypes], [Raft]: the data and every method of src/raft/raft.go
      that changes state.  A panic is [None]; an error is a value.
    - [RaftInv], [RaftOps], [RaftReach], [RaftSnap]: the structural invariant, that
      every operation keeps it, reachable nodes, the commit rule, the snapshot
      waiting to be installed.  [RaftGate]: a node with its disk, persist before
      reply.  [RaftElection]: a cluster over an asynchronous network, election
      safety.  [RaftLive]: a voter that hears nothing campaigns.  [RaftExamples]:
      concrete nodes and three executions in which the code does not do what it
      documents.
    - [Hlc]: src/hlc/hlc.go at its widths (a 64-bit wall reading, a 32-bit counter
      that carries the node's ordinal).
    - [Engine]: src/engine/batch.go and src/engine/model (versions, durability
      watermark, crash, iterators, snapshots), refined to finite maps.
      [EngineIface]: what the layers above rely on, as a class with laws, the
      reference engine as an instance; [EngineMap]: the finite map as another, and
      that answers depend only on a range's own records.
    - [KvEncoding], [KvStore], [KvTxn]: src/kv, over any lawful engine.
    - [StoreCodec]: every encoding of src/store.  [StoreReplay]: src/store/replay.go
      and the abstract state machine of a range ([RMachine], [rm_apply]: a finite
      map, one entry at a time).  [StoreTxn]: what transaction steps do to it.
      [StoreRange]: extents, splits and range identifiers.
    - [StoreNode]: src/store/node.go, machine.go, txnapply.go, engine.go and
      src/sim/epoch.go, whole: [Handle] is the event handler, in a state monad over
      the replica and its machine whose failure is a panic; what a replica sends,
      schedules, answers and records is appended to [m_out].
    - [StoreDriver], [StoreDrain], [StoreDurable], [StoreScenarios]: what is proved
      of it, below.
    - [ClockTimeline]: src/clock, schedules with their 128-bit products, ticks,
      skew, holds and the simulated clock.  [SimQueue], [SimLoop], [SimTransport]:
      the simulator's heap, loop, network and history; what a node does with an
      event is a parameter of the loop.  [NetCodec]: frames and the client's
      requests and responses.  [Rng]: the sequential generator and its named streams.
      [SimPlan]: plans, what makes one legal, and the generator of plans.  [SimBuild]:
      the run a plan becomes, its counters and its rules.
    - [CheckLedger]: the ledger, every Record operation; [CheckOracles]: the Raft
      oracles; [CheckTxn]: the transaction oracles.  [CheckRaft] and [CheckStore]
      join them with the models of the nodes they watch: a Raft node whose driver
      reports as the harness does, and replicas whose reads are recorded.
    - [BankCoord]: the coordinator, whole: [applied] handles an answer, [perform] what
      the harness scheduled, [schedule] draws the workload; timestamps come from the
      class [TimeSource], of which the machines of the store are an instance.
      [BankSystem]: the coordinator over the ranges of [StoreTxn], with commands and
      answers in flight ([smove], [srun]).  [BankInv]: the ranges as one store, its
      invariant and what is known of commands and answers; [BankConserve]: balances as
      sums of transfers; [BankRun]: the coordinator's invariant; [BankHandle]: that its
      handlers keep it; [BankSafe]: runs.

    ** What the theorems show

    - Raft: at most one leader per term in every reachable cluster with a fixed
      configuration of voters and learners (one voter alone must be without learners);
      nothing leaves a node before the term and vote it reveals are
      durable; committed entries are stable; the commit rule; the accepted append;
      one vote per term; which calls can panic and under which conditions none does; overlapping quorums; a voter that
      hears from no leader asks every peer for its vote within its election timeout.
    - Clocks: timestamps a clock issues increase whatever the physical clock does
      while its 32-bit counter has room, and two clocks never issue the same one.  The skew computed for two schedules
      is attained, and nothing between exceeds it by more than a nanosecond; the
      tick computed is the first at which the node's clock has reached it.
    - Engine: a crash recovers exactly the durable prefix of the batches; the sorted
      slice refines a finite map.
    - MVCC and transactions: reads, prewrites and collection on every branch;
      snapshot reads are stable under any later steps; locks change hands only by
      their holders; decisions are final; restarts end.
    - Codecs: messages, keys and commands round-trip; a stream of frames is read
      back however it is cut up, up to the first above the reader's bound; a client request decodes exactly when it is the
      encoding of one.
    - Simulator: the heap refines a sorted list; events fire in order of time and,
      at one time, of scheduling, and a run ends; traffic on one link does not move
      what happens to another's.  Drawing below a bound ends and is uniform, and the
      named streams of the generator do not disturb each other.  For every seed the
      generator of plans ends with a legal plan that is what was asked for, and every
      such plan builds, with a queue of its first ticks and its faults.
    - Checkers: every part of the ledger is what the facts it was told say; the
      state-machine oracle accuses exactly the histories in which two nodes applied
      different entries at an index; the nodes of the model pass the oracles that
      watch persistence (of the messages their gate holds back) and transactional reads.
    - Store: the apply loop of the driver refines the abstract machine and agrees
      with the replay byte for byte, whatever Readies the entries arrive in and
      whatever ranges share the engine; a snapshot and the rest of the log give what
      the whole log gives; splits lose and leak nothing and tile the key space; the
      drain loop ends; the durable record a replica keeps is exactly what the engine
      reads back after any of its writes.
    - Coordinator: however commands and answers are lost, delayed and reordered, the
      coordinator does not panic, every audit it records sums to nothing over all
      accounts, and the steps it has the ranges apply are disciplined -- what the
      theorems on snapshots and the transaction oracles assume of a client.  The set of
      ranges is fixed, and the run relies on its timestamps ([mintsOk]): distinct, and
      increasing for one asker, which a node that answers for another can break.
    - Counterexamples, as theorems about concrete executions: two leaders committing
      different configuration changes at one index, a read confirmed by an old
      response, a removed node that panics, the clock's counter wrapping, collection
      dropping a committed value, a tombstone that admits a late prewrite, a
      follower read from before a restart, a rerouted transaction step that is lost, a
      commit below its start that strands its locks.

    ** Bounds and fuel

    Integers are [Z] with [u64], [u32] and [i64] written where the source converts or
    wraps; theorems that need room below the end of a 64-bit counter say so
    ([headroom], [mark_room], [fits], [disk_ok]).  Loops over slices are structural.
    Fuel is taken where the source's recursion is not structural.  It is the size of the
    data for the binary searches, the sifts of the heap, the merges and the decimal
    digits, and the count read for [takeN] of the codecs, so it cannot run out.
    [drainLoop]: [drain_terminates] shows that two iterations are enough and [drainFuel]
    is three.  [drainFrom], the walk over replicas that splits may lengthen, returns
    [None] and not a state when its fuel is too small.  [tickLoop] runs a round per
    restart, which [NextTick_first] shows to be enough.  [runLoop] reports a run still
    going ([Running]), and [readFrames] stops after the number of frames it is given.
    The draws of [Rng], and with them [Materialize], return [None] when the rejection
    loop runs out; [Uint64N_uniform] and [Materialize_legal] show that enough fuel
    exists, after which the result does not change.

    ** What is not modelled, and the plan

    Not modelled: the scenarios and the toy system of the simulator (src/sim/hunt but
    for bank.go, toy, checker), plans as JSON, the census of assertions, processes,
    sockets and load (src/net/tcp, src/node, src/cmd, src/chaos, src/soak,
    src/bench), the source analysers (src/tools), and the C++ engine behind the
    engine interface (src/engine-cpp and its bindings).  src/router and src/balancer
    hold no code.  The accessors that only report counters and the texts of
    violations are left out.

    Next: the mailbox of src/node, and cluster-level safety of the store by composing [RaftElection] with
    [StoreNode]. *)

From Stdlib Require Import Lia ZArith.
From stdpp Require Import base tactics numbers option list.

#[global] Open Scope Z_scope.

(** ** Notation and automation shared by every component *)

Declare Scope rift_scope.
Delimit Scope rift_scope with rift.

Create HintDb rift discriminated.
Create HintDb rift_u64 discriminated.

(** ** Record update

    The Go structs are mutated field by field.  [Eta R] names the constructor
    applied to all the projections of a record type, and [Field p] is the
    update of the single field read by the projection [p]; the instances are
    produced by [derive_field]. *)

Class Eta (R : Type) := eta_expand : R → R.

Class Field {R A : Type} (p : R → A) := update_field : (A → A) → R → R.

Ltac derive_field :=
  lazymatch goal with
  | |- @Field ?R ?A ?p =>
      let f := fresh "f" in
      let r := fresh "r" in
      let e := constr:(_ : Eta R) in
      intros f r;
      let b := eval hnf in (e r) in
      lazymatch b with
      | context C [p r] => let b' := context C [f (p r)] in exact b'
      end
  end.

#[warnings="-postfix-notation-not-level-1"]
Notation "r <| p := v |>" := (update_field (p := p) (λ _, v) r)
  (at level 12, left associativity, format "r  <| p  :=  v |>") : rift_scope.
#[global] Open Scope rift_scope.

(** ** Machine integers

    Go's unsigned integers are modelled by [Z] with the wrap-around written
    out at every operation that can leave the range. *)

Definition max_u64 : Z := 2 ^ 64.

Definition u64 (z : Z) : Z := z mod 2 ^ 64.
Definition u32 (z : Z) : Z := z mod 2 ^ 32.
Definition add64 (a b : Z) : Z := u64 (a + b).
Definition sub64 (a b : Z) : Z := u64 (a - b).

#[global] Arguments u64 : simpl never.
#[global] Arguments u32 : simpl never.
#[global] Arguments add64 : simpl never.
#[global] Arguments sub64 : simpl never.

(** Two's complement: an [int64] computed from an unbounded integer. *)
Definition i64 (z : Z) : Z := (z + 2 ^ 63) mod 2 ^ 64 - 2 ^ 63.

Definition is_u64 (z : Z) : Prop := 0 ≤ z < 2 ^ 64.
Definition is_u32 (z : Z) : Prop := 0 ≤ z < 2 ^ 32.
Definition is_i64 (z : Z) : Prop := - 2 ^ 63 ≤ z < 2 ^ 63.

Lemma u64_small z : is_u64 z → u64 z = z.
Proof. intros H. apply Z.mod_small, H. Qed.
Lemma u64_range z : is_u64 (u64 z).
Proof. apply Z.mod_pos_bound. lia. Qed.
Lemma u32_small z : is_u32 z → u32 z = z.
Proof. intros H. apply Z.mod_small, H. Qed.
Lemma u32_range z : is_u32 (u32 z).
Proof. apply Z.mod_pos_bound. lia. Qed.
Lemma i64_small z : is_i64 z → i64 z = z.
Proof. intros H. unfold is_i64 in H. unfold i64. rewrite Z.mod_small; lia. Qed.
Lemma i64_range z : is_i64 (i64 z).
Proof. unfold is_i64, i64. pose proof (Z.mod_pos_bound (z + 2 ^ 63) (2 ^ 64)). lia. Qed.
Lemma i64_u64 z : is_i64 z → i64 (u64 z) = z.
Proof.
  intros H. unfold i64, u64. rewrite Zplus_mod_idemp_l. apply (i64_small z H).
Qed.
Lemma u64_i64 z : is_u64 z → u64 (i64 z) = z.
Proof.
  intros H. unfold i64, u64.
  rewrite Zminus_mod_idemp_l. replace (z + 2 ^ 63 - 2 ^ 63) with z by lia.
  by apply Z.mod_small.
Qed.
Lemma add64_small a b : 0 ≤ a + b < 2 ^ 64 → add64 a b = a + b.
Proof. intros. by apply u64_small. Qed.
Lemma add64_range a b : is_u64 (add64 a b).
Proof. apply u64_range. Qed.
Lemma sub64_small a b : 0 ≤ b ≤ a → a < 2 ^ 64 → sub64 a b = a - b.
Proof. intros. apply u64_small. unfold is_u64. lia. Qed.

#[export] Hint Resolve u64_range u32_range add64_range i64_range : rift_u64.

(** Case analysis on the boolean tests of the translated code, leaving
    arithmetic hypotheses. *)
Ltac bool_hyps :=
  repeat match goal with
  | H : andb _ _ = true |- _ => apply andb_true_iff in H; destruct H
  | H : orb _ _ = false |- _ => apply orb_false_iff in H; destruct H
  | H : negb _ = true |- _ => apply negb_true_iff in H
  | H : negb _ = false |- _ => apply negb_false_iff in H
  | H : Z.ltb _ _ = true |- _ => apply Z.ltb_lt in H
  | H : Z.ltb _ _ = false |- _ => apply Z.ltb_ge in H
  | H : Z.leb _ _ = true |- _ => apply Z.leb_le in H
  | H : Z.leb _ _ = false |- _ => apply Z.leb_gt in H
  | H : Z.eqb _ _ = true |- _ => apply Z.eqb_eq in H
  | H : Z.eqb _ _ = false |- _ => apply Z.eqb_neq in H
  | H : bool_decide _ = true |- _ => apply bool_decide_eq_true in H
  | H : bool_decide _ = false |- _ => apply bool_decide_eq_false in H
  end.

(** ... splitting disjunctions too. *)
Ltac bool_cases :=
  repeat (bool_hyps;
          match goal with
          | H : orb _ _ = true |- _ => apply orb_true_iff in H; destruct H
          | H : andb _ _ = false |- _ => apply andb_false_iff in H; destruct H
          end); bool_hyps.

Ltac case_test :=
  match goal with
  | |- context [if ?b then _ else _] =>
      lazymatch type of b with
      | bool => let E := fresh "E" in destruct b eqn:E; bool_hyps
      end
  end.

Ltac case_test_in H :=
  match type of H with
  | context [if ?b then _ else _] =>
      lazymatch type of b with
      | bool => let E := fresh "E" in destruct b eqn:E; bool_hyps
      end
  end.

(** ** Options as panics

    An operation that can panic returns an [option]: [None] is a Go panic, and
    stdpp's bind notation sequences the calls. *)

(** An operation that returns a Go [error] returns a [result]. *)
Inductive result (E A : Type) : Type :=
| Ok (a : A)
| Err (e : E).
Arguments Ok {E A} a.
Arguments Err {E A} e.

(** A loop whose body may panic. *)
Fixpoint foldM {A S : Type} (f : S → A → option S) (s : S) (xs : list A) : option S :=
  match xs with
  | [] => Some s
  | x :: xs => s' ← f s x; foldM f s' xs
  end.

Lemma foldM_app {A S} (f : S → A → option S) s xs ys :
  foldM f s (xs ++ ys) = (s' ← foldM f s xs; foldM f s' ys).
Proof.
  revert s. induction xs as [|x xs IH]; intros s; [done|]. simpl.
  destruct (f s x); simpl; [apply IH|done].
Qed.

(** The invariant rule for such a loop. *)
Lemma foldM_inv {A S} (I : S → Prop) (f : S → A → option S) s xs s' :
  I s → (∀ s x s', I s → f s x = Some s' → I s') →
  foldM f s xs = Some s' → I s'.
Proof.
  intros Hs Hstep. revert s Hs. induction xs as [|x xs IH]; intros s Hs; simpl.
  - by intros [= <-].
  - destruct (f s x) eqn:E; simpl; [|done]. eauto.
Qed.

(** ... and the rule that the loop does not panic. *)
Lemma foldM_total {A S} (I : S → Prop) (f : S → A → option S) s xs :
  I s → (∀ s x, x ∈ xs → I s → ∃ s', f s x = Some s' ∧ I s') →
  ∃ s', foldM f s xs = Some s' ∧ I s'.
Proof.
  revert s. induction xs as [|x xs IH]; intros s Hs Hstep; simpl; [eauto|].
  destruct (Hstep s x) as (s1 & -> & Hs1); [left|done|]. simpl.
  apply IH; [done|]. intros. apply Hstep; [by right|done].
Qed.
