(* ===== verification/Bytes.v ===== *)
(** * Byte strings

    Go's [[]byte] values: bytes, big-endian fixed-width integers as written by
    [encoding/binary], the length-checked readers built on them, and the
    lexicographic order of [bytes.Compare]. *)

From Stdlib Require Import Lia ZArith.
From Stdlib.Strings Require Byte.
From stdpp Require Import base tactics numbers option countable list.
From S2P Require Import Prelude.

Abbreviation byte := Byte.byte.
Abbreviation bytes := (list Byte.byte).

(** ** Bytes *)

Definition b2z (b : byte) : Z := Z.of_N (Byte.to_N b).

(** The conversion [byte(v)]: the low eight bits. *)
Definition z2b (z : Z) : byte :=
  match Byte.of_N (Z.to_N (z mod 256)) with Some b => b | None => Byte.x00 end.

Lemma b2z_range b : 0 ≤ b2z b < 256.
Proof. unfold b2z. pose proof (Byte.to_N_bounded b). lia. Qed.

Lemma z2b_spec z : Byte.of_N (Z.to_N (z mod 256)) = Some (z2b z).
Proof.
  unfold z2b. destruct (Byte.of_N _) eqn:E; [done|].
  apply Byte.of_N_None_iff in E. pose proof (Z.mod_pos_bound z 256). lia.
Qed.

Lemma b2z_z2b z : b2z (z2b z) = z mod 256.
Proof.
  unfold b2z. rewrite (Byte.to_of_N _ (z2b_spec z)).
  pose proof (Z.mod_pos_bound z 256). lia.
Qed.

Lemma b2z_inj a b : b2z a = b2z b → a = b.
Proof.
  unfold b2z. intros H%N2Z.inj.
  pose proof (Byte.of_to_N a). pose proof (Byte.of_to_N b). congruence.
Qed.

Lemma z2b_b2z b : z2b (b2z b) = b.
Proof. apply b2z_inj. rewrite b2z_z2b, Z.mod_small; [done|apply b2z_range]. Qed.

#[global] Instance byte_eq_dec : EqDecision byte.
Proof.
  intros a b. destruct (decide (b2z a = b2z b)) as [E|E].
  - left. by apply b2z_inj.
  - right. congruence.
Defined.

#[global] Instance byte_countable : Countable byte.
Proof.
  refine (inj_countable Byte.to_N Byte.of_N _). intros b. apply Byte.of_to_N.
Defined.

(** Byte literals of the source: ['d'] and the like, by their code. *)
Definition byte_of_nat (n : nat) : byte := z2b (Z.of_nat n).

(** ** Big-endian integers *)

(** [n] bytes of [v], most significant first. *)
Fixpoint be_put (n : nat) (v : Z) : bytes :=
  match n with
  | O => []
  | S n => z2b (Z.shiftr v (8 * Z.of_nat n)) :: be_put n v
  end.

(** [acc<<8 | b] over the bytes, left to right. *)
Definition be_get (bs : bytes) : Z :=
  foldl (λ acc b, Z.lor (Z.shiftl acc 8) (b2z b)) 0 bs.

Lemma land_shift_byte acc b : Z.land (acc * 2 ^ 8) (b2z b) = 0.
Proof.
  apply Z.bits_inj'. intros i Hi. rewrite Z.land_spec, Z.bits_0.
  destruct (decide (i < 8)).
  - by rewrite Z.mul_pow2_bits_low.
  - apply andb_false_iff. right. apply Z.testbit_false; [lia|].
    rewrite Z.div_small; [done|]. pose proof (b2z_range b). split; [lia|].
    apply Z.lt_le_trans with (2 ^ 8); [lia|]. apply Z.pow_le_mono_r; lia.
Qed.

Lemma lor_shift_byte acc b : Z.lor (Z.shiftl acc 8) (b2z b) = acc * 256 + b2z b.
Proof.
  rewrite Z.shiftl_mul_pow2 by lia. change 256 with (2 ^ 8).
  pose proof (land_shift_byte acc b) as H.
  by rewrite (Z.add_nocarry_lxor _ _ H), (Z.lxor_lor _ _ H).
Qed.

Lemma be_get_foldl acc bs :
  foldl (λ acc b, Z.lor (Z.shiftl acc 8) (b2z b)) acc bs
  = acc * 256 ^ Z.of_nat (length bs) + be_get bs.
Proof.
  unfold be_get. revert acc. induction bs as [|b bs IH]; intros acc; simpl.
  - rewrite Z.mul_1_r. lia.
  - rewrite (IH (Z.lor _ _)), (IH (Z.lor (Z.shiftl 0 8) _)), !lor_shift_byte.
    replace (Z.of_nat (S (length bs))) with (Z.succ (Z.of_nat (length bs))) by lia.
    rewrite Z.pow_succ_r by lia. lia.
Qed.

Lemma be_get_cons b bs :
  be_get (b :: bs) = b2z b * 256 ^ Z.of_nat (length bs) + be_get bs.
Proof.
  unfold be_get at 1. simpl. rewrite be_get_foldl, lor_shift_byte. lia.
Qed.

Lemma be_get_range bs : 0 ≤ be_get bs < 256 ^ Z.of_nat (length bs).
Proof.
  induction bs as [|b bs IH]; [by compute|].
  rewrite be_get_cons. simpl.
  replace (Z.of_nat (S (length bs))) with (Z.succ (Z.of_nat (length bs))) by lia.
  rewrite Z.pow_succ_r by lia. pose proof (b2z_range b). nia.
Qed.

Lemma be_put_length n v : length (be_put n v) = n.
Proof. induction n; simpl; congruence. Qed.

Lemma shiftr_bytes v n : Z.shiftr v (8 * Z.of_nat n) = v / 256 ^ Z.of_nat n.
Proof.
  rewrite Z.shiftr_div_pow2 by lia. rewrite Z.pow_mul_r by lia. done.
Qed.

Lemma be_get_put n v : be_get (be_put n v) = v mod 256 ^ Z.of_nat n.
Proof.
  induction n as [|n IH]; [simpl; by rewrite Z.mod_1_r|].
  cbn [be_put]. rewrite be_get_cons, be_put_length, IH, b2z_z2b, shiftr_bytes.
  replace (Z.of_nat (S n)) with (Z.succ (Z.of_nat n)) by lia.
  rewrite Z.pow_succ_r, (Z.mul_comm 256) by lia.
  rewrite Z.rem_mul_r by (try apply Z.pow_nonzero; lia). lia.
Qed.

Lemma be_put_get bs : be_put (length bs) (be_get bs) = bs.
Proof.
  induction bs as [|b bs IH]; [done|]. cbn [be_put length].
  pose proof (be_get_range bs) as Hr.
  assert (Hp : 0 < 256 ^ Z.of_nat (length bs)) by (apply Z.pow_pos_nonneg; lia).
  assert (Hext : ∀ n v k, (n ≤ k)%nat →
            be_put n (v * 256 ^ Z.of_nat k + be_get bs) = be_put n (be_get bs)).
  { intros n v k. revert n. induction n as [|n IHn]; intros Hn; [done|].
    cbn [be_put]. rewrite IHn by lia. f_equal. apply b2z_inj.
    rewrite !b2z_z2b, !shiftr_bytes.
    replace (Z.of_nat k) with (Z.of_nat (k - S n) + 1 + Z.of_nat n) by lia.
    rewrite !Z.pow_add_r by lia.
    rewrite Z.mul_assoc, Z.div_add_l by (apply Z.pow_nonzero; lia).
    rewrite Z.mul_assoc. change (256 ^ 1) with 256.
    rewrite Z.add_comm. by rewrite Z_mod_plus_full. }
  rewrite be_get_cons. rewrite Hext by lia. rewrite IH. f_equal.
  rewrite shiftr_bytes, Z.div_add_l, (Z.div_small (be_get bs)) by lia.
  rewrite Z.add_0_r. apply z2b_b2z.
Qed.

Lemma be_put_mod n v : be_put n (v mod 256 ^ Z.of_nat n) = be_put n v.
Proof.
  rewrite <- be_get_put. rewrite <- (be_put_length n v) at 1. apply be_put_get.
Qed.

(** ** The order of [bytes.Compare] *)

Fixpoint bytes_cmp (a b : bytes) : comparison :=
  match a, b with
  | [], [] => Eq
  | [], _ :: _ => Lt
  | _ :: _, [] => Gt
  | x :: a, y :: b =>
      match Z.compare (b2z x) (b2z y) with
      | Eq => bytes_cmp a b
      | c => c
      end
  end.

Definition bytes_ltb (a b : bytes) : bool :=
  match bytes_cmp a b with Lt => true | _ => false end.
Definition bytes_leb (a b : bytes) : bool :=
  match bytes_cmp a b with Gt => false | _ => true end.
Definition bytes_eqb (a b : bytes) : bool := bool_decide (a = b).

Definition bytes_lt (a b : bytes) : Prop := bytes_ltb a b = true.
Definition bytes_le (a b : bytes) : Prop := bytes_leb a b = true.

Lemma bytes_cmp_refl a : bytes_cmp a a = Eq.
Proof. induction a as [|x a IH]; simpl; [done|]. by rewrite Z.compare_refl. Qed.

Lemma bytes_cmp_eq a b : bytes_cmp a b = Eq → a = b.
Proof.
  revert b. induction a as [|x a IH]; intros [|y b]; simpl; try done.
  destruct (Z.compare_spec (b2z x) (b2z y)) as [E|E|E]; try done.
  intros H. f_equal; [by apply b2z_inj|auto].
Qed.

Lemma bytes_cmp_antisym a b : bytes_cmp b a = CompOpp (bytes_cmp a b).
Proof.
  revert b. induction a as [|x a IH]; intros [|y b]; simpl; try done.
  rewrite Z.compare_antisym. destruct (Z.compare (b2z x) (b2z y)); simpl; auto.
Qed.

Lemma bytes_cmp_lt_trans a b c :
  bytes_cmp a b = Lt → bytes_cmp b c = Lt → bytes_cmp a c = Lt.
Proof.
  revert b c. induction a as [|x a IH]; intros [|y b] [|z c]; simpl; try done.
  destruct (Z.compare_spec (b2z x) (b2z y)) as [E1|E1|E1],
    (Z.compare_spec (b2z y) (b2z z)) as [E2|E2|E2]; try done; intros H1 H2;
    destruct (Z.compare_spec (b2z x) (b2z z)); try lia; try done; eauto.
Qed.

Lemma bytes_ltb_lt a b : bytes_ltb a b = true ↔ bytes_cmp a b = Lt.
Proof. unfold bytes_ltb. by destruct (bytes_cmp a b). Qed.

Lemma bytes_leb_ngt a b : bytes_leb a b = negb (bytes_ltb b a).
Proof.
  unfold bytes_leb, bytes_ltb. rewrite (bytes_cmp_antisym a b).
  by destruct (bytes_cmp a b).
Qed.

Lemma bytes_lt_irrefl a : ¬ bytes_lt a a.
Proof. unfold bytes_lt, bytes_ltb. by rewrite bytes_cmp_refl. Qed.

Lemma bytes_lt_trans a b c : bytes_lt a b → bytes_lt b c → bytes_lt a c.
Proof. unfold bytes_lt. rewrite !bytes_ltb_lt. apply bytes_cmp_lt_trans. Qed.

Lemma bytes_lt_total a b : bytes_lt a b ∨ a = b ∨ bytes_lt b a.
Proof.
  unfold bytes_lt, bytes_ltb. rewrite (bytes_cmp_antisym a b).
  destruct (bytes_cmp a b) eqn:E; simpl; auto. apply bytes_cmp_eq in E. auto.
Qed.

Lemma bytes_le_not_lt a b : bytes_le a b ↔ ¬ bytes_lt b a.
Proof.
  unfold bytes_le, bytes_lt. rewrite bytes_leb_ngt.
  destruct (bytes_ltb b a); naive_solver.
Qed.

Lemma bytes_le_lteq a b : bytes_le a b ↔ bytes_lt a b ∨ a = b.
Proof.
  rewrite bytes_le_not_lt. split.
  - destruct (bytes_lt_total a b) as [?|[?|?]]; tauto.
  - intros [H| ->]; [|apply bytes_lt_irrefl].
    intros H2. apply (bytes_lt_irrefl a). by eapply bytes_lt_trans.
Qed.

Lemma bytes_le_refl a : bytes_le a a.
Proof. apply bytes_le_lteq. auto. Qed.

Lemma bytes_le_lt_trans a b c : bytes_le a b → bytes_lt b c → bytes_lt a c.
Proof. rewrite bytes_le_lteq. intros [?| ->]; eauto using bytes_lt_trans. Qed.

Lemma bytes_lt_le_trans a b c : bytes_lt a b → bytes_le b c → bytes_lt a c.
Proof. rewrite bytes_le_lteq. intros ? [?|<-]; eauto using bytes_lt_trans. Qed.

Lemma bytes_le_trans a b c : bytes_le a b → bytes_le b c → bytes_le a c.
Proof.
  rewrite (bytes_le_lteq b c). intros ? [?| ->]; [|done].
  apply bytes_le_lteq. left. by eapply bytes_le_lt_trans.
Qed.

#[global] Instance bytes_lt_dec a b : Decision (bytes_lt a b).
Proof. unfold bytes_lt. apply _. Defined.
#[global] Instance bytes_le_dec a b : Decision (bytes_le a b).
Proof. unfold bytes_le. apply _. Defined.

#[export] Hint Resolve bytes_lt_irrefl bytes_le_refl : rift.

(** A common prefix does not change the order. *)
Lemma bytes_cmp_app p a b : bytes_cmp (p ++ a) (p ++ b) = bytes_cmp a b.
Proof. induction p as [|x p IH]; simpl; [done|]. by rewrite Z.compare_refl. Qed.

(** On strings of one length the first difference decides, whatever follows. *)
Lemma bytes_cmp_app_eqlen a b x y :
  length a = length b →
  bytes_cmp (a ++ x) (b ++ y) =
  match bytes_cmp a b with Eq => bytes_cmp x y | c => c end.
Proof.
  revert b. induction a as [|c a IH]; intros [|d b]; simpl; try done.
  intros [= Hl]. destruct (Z.compare (b2z c) (b2z d)); auto.
Qed.

(** Fixed-width big-endian order is numeric order. *)
Lemma bytes_cmp_be_get a b :
  length a = length b → bytes_cmp a b = Z.compare (be_get a) (be_get b).
Proof.
  revert b. induction a as [|x a IH]; intros [|y b]; simpl; try done.
  intros [= Hl]. rewrite !be_get_cons, (IH b Hl), Hl.
  pose proof (be_get_range a) as Ha. pose proof (be_get_range b) as Hb. rewrite Hl in Ha.
  destruct (Z.compare_spec (b2z x) (b2z y)) as [E|E|E].
  - rewrite E. by rewrite Z.add_compare_mono_l.
  - symmetry. apply Z.compare_lt_iff. nia.
  - symmetry. apply Z.compare_gt_iff. nia.
Qed.

Lemma bytes_cmp_be_put n a b :
  0 ≤ a < 256 ^ Z.of_nat n → 0 ≤ b < 256 ^ Z.of_nat n →
  bytes_cmp (be_put n a) (be_put n b) = Z.compare a b.
Proof.
  intros. rewrite bytes_cmp_be_get by (by rewrite !be_put_length).
  by rewrite !be_get_put, !Z.mod_small.
Qed.

#[global] Arguments be_put : simpl never.
#[global] Arguments be_get : simpl never.
#[global] Arguments z2b : simpl never.
#[global] Arguments b2z : simpl never.
