(* ===== verification/NetCodec.v ===== *)
(** * Frames and the client wire

    The envelope codec (sim/codec.go), the stream layer that reads and writes
    envelopes over a connection (net/frame.go) and the format of client requests
    and responses (net/clientwire.go).  A connection is the list of what the
    successive reads of it return. *)

From Stdlib Require Import Lia ZArith.
From stdpp Require Import base tactics numbers option list.
From S2P Require Import Prelude Bytes.

(** ** Envelopes *)

Definition wireVersion : Z := 1.
Definition maxBodyBytes : Z := Z.shiftl 1 24.
Definition frameHeaderBytes : nat := 1 + 4 + 4 + 8 + 2 + 4.

Inductive CodecError :=
| ErrShortFrame
| ErrWireVersion (v : Z)
| ErrBodyTooLarge (n : Z)
| ErrTrailingData (extra : Z).

Record Envelope := MkEnvelope { en_From : Z; en_To : Z; en_RangeID : Z; en_Kind : Z; en_Body : bytes }.

Definition Envelope_Size (e : Envelope) : Z := Z.of_nat frameHeaderBytes + Z.of_nat (length (en_Body e)).

Definition Encode (e : Envelope) : result CodecError bytes :=
  if Z.of_nat (length (en_Body e)) >? maxBodyBytes then Err (ErrBodyTooLarge (Z.of_nat (length (en_Body e))))
  else Ok ([z2b wireVersion] ++ be_put 4 (en_From e) ++ be_put 4 (en_To e) ++ be_put 8 (en_RangeID e) ++ be_put 2 (en_Kind e)
             ++ be_put 4 (Z.of_nat (length (en_Body e))) ++ en_Body e).

(** [binary.BigEndian.UintN(buf[off:])], the bytes being there. *)
Definition uintAt (n off : nat) (buf : bytes) : Z := be_get (take n (drop off buf)).

Definition Decode (buf : bytes) : result CodecError Envelope :=
  if Z.of_nat (length buf) <? Z.of_nat frameHeaderBytes then Err ErrShortFrame
  else if negb (uintAt 1 0 buf =? wireVersion) then Err (ErrWireVersion (uintAt 1 0 buf))
  else
    let n := uintAt 4 19 buf in
    if n >? maxBodyBytes then Err (ErrBodyTooLarge n)
    else if Z.of_nat (length buf) <? Z.of_nat frameHeaderBytes + n then Err ErrShortFrame
    else if Z.of_nat (length buf) >? Z.of_nat frameHeaderBytes + n then Err (ErrTrailingData (Z.of_nat (length buf) - Z.of_nat frameHeaderBytes - n))
    else Ok (MkEnvelope (uintAt 4 1 buf) (uintAt 4 5 buf) (uintAt 8 9 buf) (uintAt 2 17 buf)
               (if n >? 0 then take (Z.to_nat n) (drop frameHeaderBytes buf) else [])).

(** ** Streams *)

Inductive NetError :=
| EOF
| ErrUnexpectedEOF
| ErrFrameTooLarge (n : Z)
| ErrCodec (e : CodecError).

(** [io.ReadFull] of [n] bytes, [got] so far, from a reader whose next reads return
    the given chunks, then the end. *)
Fixpoint readFull (n : nat) (got : bytes) (r : list bytes) : result NetError bytes * list bytes :=
  if (n <=? length got)%nat then (Ok got, r)
  else match r with
       | [] => (Err (if bool_decide (got = []) then EOF else ErrUnexpectedEOF), [])
       | c :: r =>
           let k := (n - length got)%nat in
           if (length c <=? k)%nat then readFull n (got ++ c) r
           else (Ok (got ++ take k c), drop k c :: r)
       end.

Definition net_frameHeaderBytes : nat := 1 + 4 + 4 + 8 + 2 + 4.
Definition lengthOffset : nat := 19.
Definition net_maxBodyBytes : Z := Z.shiftl 1 22.

Definition ReadFrame (r : list bytes) : result NetError Envelope * list bytes :=
  match readFull net_frameHeaderBytes [] r with
  | (Err e, r) => (Err e, r)
  | (Ok head, r) =>
      let n := uintAt 4 lengthOffset head in
      if n >? net_maxBodyBytes then (Err (ErrFrameTooLarge n), r)
      else match (if n >? 0 then readFull (Z.to_nat n) [] r else (Ok [], r)) with
           | (Err e, r) => (Err e, r)
           | (Ok body, r) => (match Decode (head ++ body) with Ok e => Ok e | Err e => Err (ErrCodec e) end, r)
           end
  end.

Definition WriteFrame (w : bytes) (e : Envelope) : result CodecError bytes :=
  match Encode e with Err err => Err err | Ok buf => Ok (w ++ buf) end.

(** A connection's loop: the envelopes delivered, and the error that ended it; at
    most [n] of them. *)
Fixpoint readFrames (n : nat) (r : list bytes) : list Envelope * option NetError :=
  match n with
  | O => ([], None)
  | S n =>
      match ReadFrame r with
      | (Err err, _) => ([], Some err)
      | (Ok e, r) => let '(es, err) := readFrames n r in (e :: es, err)
      end
  end.

(** ** Client requests and responses *)

Definition KindRequest : Z := 40.
Definition KindResponse : Z := 41.
Definition wireOpGet : Z := 1.
Definition wireOpPut : Z := 2.
Definition StatusOK : Z := 1.
Definition StatusNotFound : Z := 2.
Definition StatusError : Z := 3.
Definition maxFieldBytes : Z := Z.shiftl 1 20.

Inductive WireError :=
| ErrShortRequest
| ErrShortResponse
| ErrBadOp (op : Z)
| ErrBadStatus (s : Z)
| ErrTrailing (extra : Z)
| ErrFieldTooLarge.

Record WireRequest := MkWireRequest { wq_Op : Z; wq_Seq : Z; wq_Key : bytes; wq_Value : bytes }.
Record WireResponse := MkWireResponse { wp_Seq : Z; wp_Status : Z; wp_Value : bytes }.

Definition goodOp (op : Z) : bool := negb (negb (op =? wireOpGet) && negb (op =? wireOpPut)).
Definition goodStatus (s : Z) : bool := negb (negb (s =? StatusOK) && negb (s =? StatusNotFound) && negb (s =? StatusError)).
Definition lenZ (b : bytes) : Z := Z.of_nat (length b).

Definition EncodeRequest (r : WireRequest) : result WireError bytes :=
  if negb (goodOp (wq_Op r)) then Err (ErrBadOp (wq_Op r))
  else if (lenZ (wq_Key r) >? maxFieldBytes) || (lenZ (wq_Value r) >? maxFieldBytes) then Err ErrFieldTooLarge
  else Ok ([z2b (wq_Op r)] ++ be_put 8 (wq_Seq r) ++ be_put 4 (lenZ (wq_Key r)) ++ wq_Key r ++ be_put 4 (lenZ (wq_Value r)) ++ wq_Value r).

Definition DecodeRequest (b : bytes) : result WireError WireRequest :=
  if lenZ b <? 17 then Err ErrShortRequest
  else
    let op := uintAt 1 0 b in
    if negb (goodOp op) then Err (ErrBadOp op)
    else
      let seq := uintAt 8 1 b in
      let kl := uintAt 4 9 b in
      if kl >? maxFieldBytes then Err ErrFieldTooLarge
      else if lenZ b <? 13 + kl + 4 then Err ErrShortRequest
      else
        let key := take (Z.to_nat kl) (drop 13 b) in
        let off := 13 + kl in
        let vl := uintAt 4 (Z.to_nat off) b in
        if vl >? maxFieldBytes then Err ErrFieldTooLarge
        else
          let off := off + 4 in
          if lenZ b <? off + vl then Err ErrShortRequest
          else
            let value := take (Z.to_nat vl) (drop (Z.to_nat off) b) in
            if lenZ b >? off + vl then Err (ErrTrailing (lenZ b - off - vl))
            else Ok (MkWireRequest op seq key value).

Definition EncodeResponse (r : WireResponse) : result WireError bytes :=
  if negb (goodStatus (wp_Status r)) then Err (ErrBadStatus (wp_Status r))
  else if lenZ (wp_Value r) >? maxFieldBytes then Err ErrFieldTooLarge
  else Ok (be_put 8 (wp_Seq r) ++ [z2b (wp_Status r)] ++ be_put 4 (lenZ (wp_Value r)) ++ wp_Value r).

Definition DecodeResponse (b : bytes) : result WireError WireResponse :=
  if lenZ b <? 13 then Err ErrShortResponse
  else
    let seq := uintAt 8 0 b in
    let status := uintAt 1 8 b in
    if negb (goodStatus status) then Err (ErrBadStatus status)
    else
      let vl := uintAt 4 9 b in
      if vl >? maxFieldBytes then Err ErrFieldTooLarge
      else if lenZ b <? 13 + vl then Err ErrShortResponse
      else if lenZ b >? 13 + vl then Err (ErrTrailing (lenZ b - 13 - vl))
      else Ok (MkWireResponse seq status (take (Z.to_nat vl) (drop 13 b))).

(** ** Fields *)

Lemma uintAt_here n off pre v rest : length pre = off → uintAt n off (pre ++ be_put n v ++ rest) = v mod 256 ^ Z.of_nat n.
Proof.
  intros <-. unfold uintAt. rewrite drop_app_length. rewrite take_app_le by (by rewrite be_put_length).
  rewrite take_ge by (by rewrite be_put_length). apply be_get_put.
Qed.
Lemma uintAt_range n off b : 0 ≤ uintAt n off b < 256 ^ Z.of_nat n.
Proof.
  unfold uintAt. pose proof (be_get_range (take n (drop off b))) as H. split; [lia|]. eapply Z.lt_le_trans; [apply H|].
  apply Z.pow_le_mono_r; [lia|]. rewrite length_take. lia.
Qed.
Lemma put_uintAt n off b : (off + n <= length b)%nat → be_put n (uintAt n off b) = take n (drop off b).
Proof.
  intros H. unfold uintAt. assert (E : length (take n (drop off b)) = n) by (rewrite length_take, length_drop; lia).
  rewrite <- E at 1. apply be_put_get.
Qed.
Lemma drop_fields n off off' (b : bytes) : off' = (off + n)%nat → drop off b = take n (drop off b) ++ drop off' b.
Proof. intros ->. rewrite <- drop_drop. by rewrite take_drop. Qed.
Lemma z2b_put v : [z2b v] = be_put 1 v.
Proof. cbn. by rewrite ?Z.shiftr_0_r. Qed.
Lemma byteAt b off : (off < length b)%nat → [z2b (uintAt 1 off b)] = take 1 (drop off b).
Proof.
  intros H. rewrite <- put_uintAt by lia. apply z2b_put.
Qed.

Record env_ok (e : Envelope) : Prop := MkEnvOk {
  eo_from : 0 ≤ en_From e < 2 ^ 32;
  eo_to : 0 ≤ en_To e < 2 ^ 32;
  eo_range : 0 ≤ en_RangeID e < 2 ^ 64;
  eo_kind : 0 ≤ en_Kind e < 2 ^ 16;
}.

Definition header (e : Envelope) : bytes :=
  be_put 1 wireVersion ++ be_put 4 (en_From e) ++ be_put 4 (en_To e) ++ be_put 8 (en_RangeID e) ++ be_put 2 (en_Kind e) ++ be_put 4 (lenZ (en_Body e)).

Lemma header_length e : length (header e) = frameHeaderBytes.
Proof. unfold header. rewrite !length_app, !be_put_length. done. Qed.

Lemma Encode_eq e : Encode e = if lenZ (en_Body e) >? maxBodyBytes then Err (ErrBodyTooLarge (lenZ (en_Body e))) else Ok (header e ++ en_Body e).
Proof. unfold Encode, header, lenZ. case_test; [done|]. by rewrite z2b_put, <- !app_assoc. Qed.

Lemma header_fields e rest :
  env_ok e → lenZ (en_Body e) < 2 ^ 32 →
  let b := header e ++ rest in
  uintAt 1 0 b = 1 ∧ uintAt 4 1 b = en_From e ∧ uintAt 4 5 b = en_To e ∧ uintAt 8 9 b = en_RangeID e ∧ uintAt 2 17 b = en_Kind e
  ∧ uintAt 4 19 b = lenZ (en_Body e).
Proof.
  intros [] Hl. assert (0 ≤ lenZ (en_Body e)) by (unfold lenZ; lia). cbv zeta. unfold header. rewrite <- !app_assoc.
  set (f1 := be_put 1 wireVersion). set (f2 := be_put 4 (en_From e)). set (f3 := be_put 4 (en_To e)). set (f4 := be_put 8 (en_RangeID e)). set (f5 := be_put 2 (en_Kind e)).
  split_and!.
  - by apply (uintAt_here 1 0 [] wireVersion).
  - unfold f2. rewrite (uintAt_here 4 1 f1) by done. rewrite Z.mod_small; [done|]. change (256 ^ Z.of_nat 4) with (2 ^ 32). lia.
  - rewrite (app_assoc f1). unfold f3. rewrite (uintAt_here 4 5 (f1 ++ f2)) by done. rewrite Z.mod_small; [done|]. change (256 ^ Z.of_nat 4) with (2 ^ 32). lia.
  - rewrite (app_assoc f1), (app_assoc (f1 ++ f2)). unfold f4. rewrite (uintAt_here 8 9) by done. rewrite Z.mod_small; [done|]. change (256 ^ Z.of_nat 8) with (2 ^ 64). lia.
  - rewrite (app_assoc f1), (app_assoc (f1 ++ f2)), (app_assoc (_ ++ f3)). unfold f5. rewrite (uintAt_here 2 17) by done. rewrite Z.mod_small; [done|]. change (256 ^ Z.of_nat 2) with (2 ^ 16). lia.
  - rewrite (app_assoc f1), (app_assoc (f1 ++ f2)), (app_assoc (_ ++ f3)), (app_assoc (_ ++ f4)). rewrite (uintAt_here 4 19) by done. rewrite Z.mod_small; [done|]. change (256 ^ Z.of_nat 4) with (2 ^ 32). lia.
Qed.

(** [Decode] accepts exactly what [Encode] produces. *)
Lemma frame_exact b e : Decode b = Ok e ↔ Encode e = Ok b ∧ env_ok e.
Proof.
  assert (Hmx : maxBodyBytes = 2 ^ 24) by done. split.
  - unfold Decode. cbv zeta. rewrite !Z.gtb_ltb. change (Z.of_nat frameHeaderBytes) with 23. set (body := if 0 <? uintAt 4 19 b then _ else _).
    repeat case_test; intros [= <-]; bool_hyps.
    pose proof (uintAt_range 4 1 b). pose proof (uintAt_range 4 5 b). pose proof (uintAt_range 8 9 b). pose proof (uintAt_range 2 17 b). pose proof (uintAt_range 4 19 b).
    assert (Hb : length (drop 23 b) = Z.to_nat (uintAt 4 19 b)) by (rewrite length_drop; lia).
    assert (Hbody : body = drop 23 b) by (unfold body; change frameHeaderBytes with 23%nat; case_test; [by rewrite take_ge by (rewrite Hb; lia)|]; symmetry; apply length_zero_iff_nil; lia).
    clearbody body. subst body. split; [|by split].
    unfold Encode. cbn [en_Body en_From en_To en_RangeID en_Kind].
    rewrite Hb, Z2Nat.id, Z.gtb_ltb by lia. rewrite (proj2 (Z.ltb_ge _ _)) by lia. f_equal.
    rewrite z2b_put. replace wireVersion with (uintAt 1 0 b). rewrite !put_uintAt by lia.
    rewrite <- (drop_fields 4 19 23), <- (drop_fields 2 17 19), <- (drop_fields 8 9 17), <- (drop_fields 4 5 9), <- (drop_fields 4 1 5) by done. symmetry. by apply (drop_fields 1 0 1).
  - intros [He Hok]. rewrite Encode_eq in He. rewrite Z.gtb_ltb in He. case_test_in He; [done|]. assert (Eb : b = header e ++ en_Body e) by congruence. subst b. clear He.
    destruct (header_fields e (en_Body e) Hok) as (F0 & F1 & F2 & F3 & F4 & F5); [lia|].
    assert (Hl : lenZ (header e ++ en_Body e) = 23 + lenZ (en_Body e)) by (unfold lenZ; rewrite length_app, header_length; unfold frameHeaderBytes; lia).
    unfold Decode. fold (lenZ (header e ++ en_Body e)). rewrite F0, F1, F2, F3, F4, F5, Hl. change (Z.of_nat frameHeaderBytes) with 23.
    assert (0 ≤ lenZ (en_Body e)) by (unfold lenZ; lia). rewrite !Z.gtb_ltb.
    repeat case_test; try lia; try done; f_equal; destruct e as [f t rg k bd]; cbn [en_From en_To en_RangeID en_Kind en_Body] in *; f_equal.
    + rewrite drop_app_length' by (by rewrite header_length). rewrite take_ge; [done|]. unfold lenZ. lia.
    + symmetry. apply length_zero_iff_nil. unfold lenZ in *. lia.
Qed.

(** ** Streams *)

Lemma readFull_spec n got r :
  (length got <= n)%nat →
  if decide (n <= length (got ++ concat r))%nat
  then ∃ r', readFull n got r = (Ok (take n (got ++ concat r)), r') ∧ concat r' = drop n (got ++ concat r)
  else readFull n got r = (Err (if bool_decide (got ++ concat r = []) then EOF else ErrUnexpectedEOF), []).
Proof.
  revert got. induction r as [|c r IH]; intros got Hg; cbn [readFull concat].
  - rewrite app_nil_r. case_decide as H.
    + replace (length got) with n by lia. rewrite Nat.leb_refl. exists []. rewrite take_ge, drop_ge by lia. done.
    + rewrite (proj2 (Nat.leb_gt _ _)) by lia. done.
  - destruct (Nat.leb_spec n (length got)) as [Hle|Hgt].
    + rewrite decide_True by (rewrite length_app; lia). exists (c :: r). replace n with (length got) by lia. by rewrite take_app_length, drop_app_length.
    + destruct (Nat.leb_spec (length c) (n - length got)) as [Hc|Hc].
      * rewrite app_assoc. apply IH. rewrite length_app. lia.
      * rewrite decide_True by (rewrite !length_app; lia). eexists. split; [f_equal; f_equal|].
        -- rewrite take_app_ge by lia. rewrite take_app_le by lia. done.
        -- cbn [concat]. rewrite drop_app_ge by lia. rewrite drop_app_le by lia. done.
Qed.

(** An envelope that goes over a connection. *)
Definition frame_ok (e : Envelope) : Prop := env_ok e ∧ lenZ (en_Body e) ≤ net_maxBodyBytes.

Lemma frame_of e f : frame_ok e → Encode e = Ok f → f = header e ++ en_Body e.
Proof.
  intros [_ Hl] He. rewrite Encode_eq, Z.gtb_ltb, (proj2 (Z.ltb_ge _ _)) in He; [congruence|].
  change maxBodyBytes with (2 ^ 24). change net_maxBodyBytes with (2 ^ 22) in Hl. lia.
Qed.

Lemma header_len_field e rest : frame_ok e → uintAt 4 lengthOffset (header e ++ rest) = lenZ (en_Body e).
Proof. intros [Hok Hl]. change net_maxBodyBytes with (2 ^ 22) in Hl. apply (header_fields e rest Hok). lia. Qed.

(** A whole frame at the head of the stream. *)
Lemma ReadFrame_whole e f r rest :
  frame_ok e → Encode e = Ok f → concat r = f ++ rest → ∃ r', ReadFrame r = (Ok e, r') ∧ concat r' = rest.
Proof.
  intros Hok He Hr. pose proof (frame_of e f Hok He) as ->. unfold ReadFrame. change net_frameHeaderBytes with frameHeaderBytes.
  pose proof (readFull_spec frameHeaderBytes [] r ltac:(cbn; lia)) as Hh. cbn [app] in Hh. rewrite Hr, <- app_assoc in Hh.
  rewrite decide_True in Hh by (rewrite length_app, header_length; lia). destruct Hh as (r1 & -> & Hr1).
  rewrite <- (header_length e) in Hr1 |- *. rewrite take_app_length. rewrite drop_app_length in Hr1.
  pose proof (header_len_field e [] Hok) as Hf. rewrite app_nil_r in Hf. cbv zeta. rewrite Hf. destruct Hok as [Hok Hl].
  assert (HD : Decode (header e ++ en_Body e) = Ok e) by (apply frame_exact; done).
  rewrite !Z.gtb_ltb. rewrite (proj2 (Z.ltb_ge _ _)) by lia.
  destruct (Z.ltb_spec 0 (lenZ (en_Body e))) as [Hpos|Hz].
  - pose proof (readFull_spec (Z.to_nat (lenZ (en_Body e))) [] r1 ltac:(cbn; lia)) as Hb. cbn [app] in Hb. rewrite Hr1 in Hb.
    unfold lenZ in Hb |- *. rewrite Nat2Z.id in Hb |- *. rewrite decide_True in Hb by (rewrite length_app; lia). destruct Hb as (r2 & -> & Hr2).
    rewrite take_app_length. rewrite HD. exists r2. split; [done|]. by rewrite drop_app_length in Hr2.
  - assert (en_Body e = []) as Hnil by (apply length_zero_iff_nil; unfold lenZ in Hz; lia). rewrite Hnil in *. rewrite HD. by exists r1.
Qed.

(** The stream ends inside a frame. *)
Lemma ReadFrame_cut e p q r :
  frame_ok e → Encode e = Ok (p ++ q) → q ≠ [] → concat r = p →
  ∃ r', ReadFrame r = (Err (if bool_decide (p = [] ∨ length p = frameHeaderBytes) then EOF else ErrUnexpectedEOF), r').
Proof.
  intros Hok He Hq Hr. pose proof (frame_of e _ Hok He) as Hf. unfold ReadFrame. change net_frameHeaderBytes with frameHeaderBytes.
  assert (Hq' : (0 < length q)%nat) by (destruct q; [done|cbn; lia]).
  assert (Hlen : (length p + length q = frameHeaderBytes + length (en_Body e))%nat) by (rewrite <- length_app, Hf, length_app, header_length; done).
  pose proof (readFull_spec frameHeaderBytes [] r ltac:(cbn; lia)) as Hh. cbn [app] in Hh. rewrite Hr in Hh. case_decide as Hd.
  - destruct Hh as (r1 & -> & Hr1).
    assert (Hp : take frameHeaderBytes p = header e ∧ drop frameHeaderBytes p ++ q = en_Body e).
    { pose proof (f_equal (take frameHeaderBytes) Hf) as H1. pose proof (f_equal (drop frameHeaderBytes) Hf) as H2.
      rewrite take_app_le, <- (header_length e), take_app_length in H1 by lia. rewrite drop_app_le, <- (header_length e), drop_app_length in H2 by lia.
      rewrite (header_length e) in H1, H2. done. }
    destruct Hp as [Hp1 Hp2]. rewrite Hp1. pose proof (header_len_field e [] Hok) as Hfl. rewrite app_nil_r in Hfl. cbv zeta. rewrite Hfl.
    destruct Hok as [_ Hl]. rewrite !Z.gtb_ltb. rewrite (proj2 (Z.ltb_ge _ _)) by lia. rewrite (proj2 (Z.ltb_lt _ _)) by (unfold lenZ; lia).
    pose proof (readFull_spec (Z.to_nat (lenZ (en_Body e))) [] r1 ltac:(cbn; lia)) as Hb. cbn [app] in Hb. rewrite Hr1 in Hb.
    rewrite decide_False in Hb by (unfold lenZ; rewrite length_drop; lia). rewrite Hb. eexists. f_equal. f_equal.
    assert (Hiff : drop frameHeaderBytes p = [] ↔ p = [] ∨ length p = frameHeaderBytes).
    { rewrite <- length_zero_iff_nil, length_drop. split; [right; lia|]. intros [->|H]; [cbn in Hd; lia|lia]. }
    by rewrite (bool_decide_ext _ _ Hiff).
  - rewrite Hh. eexists. f_equal. f_equal. assert (Hiff : p = [] ↔ p = [] ∨ length p = frameHeaderBytes) by (split; [by left|intros [?|?]; [done|lia]]).
    by rewrite (bool_decide_ext _ _ Hiff).
Qed.

(** A header is not all there. *)
Lemma ReadFrame_short p r :
  (length p < frameHeaderBytes)%nat → concat r = p → ∃ r', ReadFrame r = (Err (if bool_decide (p = []) then EOF else ErrUnexpectedEOF), r').
Proof.
  intros Hd Hr. unfold ReadFrame. change net_frameHeaderBytes with frameHeaderBytes.
  pose proof (readFull_spec frameHeaderBytes [] r ltac:(cbn; lia)) as Hh. cbn [app] in Hh. rewrite Hr, decide_False in Hh by lia. rewrite Hh. by eexists.
Qed.

(** A header that announces a body above the reader's bound. *)
Lemma ReadFrame_big e p q r tl :
  env_ok e → Encode e = Ok (p ++ q) → net_maxBodyBytes < lenZ (en_Body e) → (frameHeaderBytes <= length p)%nat → concat r = p ++ tl →
  ∃ r', ReadFrame r = (Err (ErrFrameTooLarge (lenZ (en_Body e))), r').
Proof.
  intros Hok He Hl Hp Hr. rewrite Encode_eq, Z.gtb_ltb in He. case_test_in He; [done|]. assert (Hf : p ++ q = header e ++ en_Body e) by congruence. clear He.
  unfold ReadFrame. change net_frameHeaderBytes with frameHeaderBytes.
  pose proof (readFull_spec frameHeaderBytes [] r ltac:(cbn; lia)) as Hh. cbn [app] in Hh. rewrite Hr in Hh.
  rewrite decide_True in Hh by (rewrite length_app; lia). destruct Hh as (r1 & -> & _).
  assert (Hhd : take frameHeaderBytes (p ++ tl) = header e).
  { rewrite take_app_le by lia. pose proof (f_equal (take frameHeaderBytes) Hf) as H1. rewrite take_app_le, <- (header_length e), take_app_length in H1 by lia. by rewrite (header_length e) in H1. }
  rewrite Hhd. destruct (header_fields e [] Hok) as (_ & _ & _ & _ & _ & F); [change maxBodyBytes with (2 ^ 24) in *; lia|].
  rewrite app_nil_r in F. cbv zeta. unfold lengthOffset. rewrite F, Z.gtb_ltb, (proj2 (Z.ltb_lt _ _)) by lia. by eexists.
Qed.

(** How a reader's loop ends at a frame of which [p] has arrived. *)
Definition tooBig (e : Envelope) : bool := net_maxBodyBytes <? lenZ (en_Body e).
Definition ending (e : Envelope) (p : bytes) : NetError :=
  if tooBig e && (frameHeaderBytes <=? length p)%nat then ErrFrameTooLarge (lenZ (en_Body e))
  else if bool_decide (p = [] ∨ length p = frameHeaderBytes) then EOF else ErrUnexpectedEOF.

Lemma ReadFrame_ending e p q r tl :
  env_ok e → Encode e = Ok (p ++ q) → q ≠ [] ∧ tl = [] ∨ tooBig e = true ∧ (frameHeaderBytes <= length p)%nat → concat r = p ++ tl →
  ∃ r', ReadFrame r = (Err (ending e p), r').
Proof.
  intros Hok He Hend Hr. unfold ending, tooBig in *. destruct (Z.ltb_spec net_maxBodyBytes (lenZ (en_Body e))) as [Hb|Hb]; cbn [andb].
  - destruct (Nat.leb_spec frameHeaderBytes (length p)) as [Hp|Hp]; [by eapply ReadFrame_big|].
    destruct Hend as [[_ ->]|[_ ?]]; [|lia]. rewrite app_nil_r in Hr. destruct (ReadFrame_short p r Hp Hr) as [r' ->]. eexists. f_equal. f_equal.
    assert (Hiff : p = [] ↔ p = [] ∨ length p = frameHeaderBytes) by (split; [by left|intros [?|?]; [done|lia]]). by rewrite (bool_decide_ext _ _ Hiff).
  - destruct Hend as [[Hq ->]|[? _]]; [|done]. rewrite app_nil_r in Hr. by eapply ReadFrame_cut; [split|..].
Qed.

(** C30. Framing survives the network: of any envelopes the codec encodes, sent one after
    another, and whatever the boundaries at which the stream delivers the bytes, the
    receiver gets exactly the envelopes whose last byte arrived, in order, up to the
    first whose body is above the reader's bound of 4 MiB.  There it stops with
    [ErrFrameTooLarge] as soon as the header is in, whatever follows.  Otherwise it learns
    how the stream ended: the end is reported as unexpected when bytes of a further frame
    had arrived, except when those bytes were exactly a header
    ([header_close_looks_clean]). *)
Theorem frames_stream es fs e p q tl cs n :
  Forall2 (λ e f, env_ok e ∧ tooBig e = false ∧ Encode e = Ok f) es fs → env_ok e → Encode e = Ok (p ++ q) →
  q ≠ [] ∧ tl = [] ∨ tooBig e = true ∧ (frameHeaderBytes <= length p)%nat →
  concat cs = concat fs ++ p ++ tl → (length es < n)%nat →
  readFrames n cs = (es, Some (ending e p)).
Proof.
  intros Hes Hok He Hend. revert cs n. induction Hes as [|e1 f1 es fs (Hok1 & Hs1 & He1) _ IH]; intros cs [|n] Hcs Hn; [cbn in Hn; lia| |cbn in Hn; lia|]; cbn [readFrames].
  - destruct (ReadFrame_ending e p q cs tl Hok He Hend Hcs) as [r' ->]. done.
  - cbn [concat] in Hcs. rewrite <- app_assoc in Hcs. assert (Hf1 : frame_ok e1) by (split; [done|]; apply Z.ltb_ge; exact Hs1).
    destruct (ReadFrame_whole e1 f1 cs _ Hf1 He1 Hcs) as (r' & -> & Hr'). rewrite (IH r' n Hr'); [done|cbn in Hn; lia].
Qed.

(** Where the two caps disagree: an envelope with a body above the reader's bound and
    within the codec's is written without an error, and no reader accepts it. *)
Lemma big_frame_refused e r :
  env_ok e → net_maxBodyBytes < lenZ (en_Body e) ≤ maxBodyBytes →
  ∃ f, WriteFrame [] e = Ok f ∧ (concat r = f → fst (ReadFrame r) = Err (ErrFrameTooLarge (lenZ (en_Body e)))).
Proof.
  intros Hok Hl. unfold WriteFrame. rewrite Encode_eq, Z.gtb_ltb, (proj2 (Z.ltb_ge _ _)) by lia. eexists. split; [done|]. intros Hr. cbn [app] in Hr.
  unfold ReadFrame. change net_frameHeaderBytes with frameHeaderBytes.
  pose proof (readFull_spec frameHeaderBytes [] r ltac:(cbn; lia)) as Hh. cbn [app] in Hh. rewrite Hr in Hh.
  rewrite decide_True in Hh by (rewrite length_app, header_length; lia). destruct Hh as (r1 & -> & _).
  rewrite <- (header_length e), take_app_length. destruct (header_fields e [] Hok) as (_ & _ & _ & _ & _ & F); [change maxBodyBytes with (2 ^ 24) in Hl; lia|].
  rewrite app_nil_r in F. cbv zeta. unfold lengthOffset. rewrite F, Z.gtb_ltb, (proj2 (Z.ltb_lt _ _)) by lia. done.
Qed.

(** The two caps disagree: the codec writes bodies of up to 16 MiB and the stream
    reader refuses every body above 4 MiB, so there is an envelope that is sent without
    an error and that no connection, however it is segmented, can receive. *)
Theorem sent_frame_refused :
  ∃ e f, WriteFrame [] e = Ok f ∧ ∀ r, concat r = f → fst (ReadFrame r) = Err (ErrFrameTooLarge 4194305).
Proof.
  set (e := MkEnvelope 0 1 1 5 (replicate (Z.to_nat 4194305) Byte.x00)).
  assert (Hl : lenZ (en_Body e) = 4194305) by (unfold lenZ, e; cbn [en_Body]; rewrite length_replicate, Z2Nat.id by lia; done).
  assert (Hok : env_ok e) by (split; cbn; lia).
  assert (Hb : net_maxBodyBytes < lenZ (en_Body e) ≤ maxBodyBytes) by (rewrite Hl; split; [done|intros H; discriminate H]).
  clearbody e. destruct (big_frame_refused e [] Hok Hb) as (f & Hf & _). exists e, f. split; [done|]. intros r Hr.
  destruct (big_frame_refused e r Hok Hb) as (f' & Hf' & H). rewrite Hf in Hf'. injection Hf' as <-. by rewrite (H Hr), Hl.
Qed.

(** A peer that dies between a frame's header and its body looks like one that left. *)
Definition halfFrame : bytes := match Encode (MkEnvelope 1 2 3 4 [Byte.x61]) with Ok f => take frameHeaderBytes f | Err _ => [] end.
Lemma header_close_looks_clean : length halfFrame = 23%nat ∧ ReadFrame [halfFrame] = (Err EOF, []) ∧ ReadFrame [] = (Err EOF, []).
Proof. by vm_compute. Qed.

Definition oneEnvelope : Envelope := MkEnvelope 1 2 3 4 [Byte.x61; Byte.x62].
Definition oneFrame : bytes := header oneEnvelope ++ [Byte.x61; Byte.x62].

Lemma frames_stream_witness :
  readFrames 3 [take 5 oneFrame; drop 5 oneFrame ++ take 7 oneFrame] = ([oneEnvelope], Some ErrUnexpectedEOF).
Proof.
  assert (Hok : env_ok oneEnvelope) by (split; cbn; lia).
  apply (frames_stream [oneEnvelope] [oneFrame] oneEnvelope (take 7 oneFrame) (drop 7 oneFrame) []).
  - constructor; [|constructor]. split; [exact Hok|]. split; by vm_compute.
  - exact Hok.
  - by vm_compute.
  - left. split; by vm_compute.
  - by vm_compute.
  - cbn. lia.
Defined.

(** ** The client wire *)

Definition request_ok (r : WireRequest) : Prop := 0 ≤ wq_Seq r < 2 ^ 64.
Definition response_ok (r : WireResponse) : Prop := 0 ≤ wp_Seq r < 2 ^ 64.

Lemma goodOp_spec op : goodOp op = true ↔ op = 1 ∨ op = 2.
Proof. unfold goodOp, wireOpGet, wireOpPut. lia. Qed.
Lemma goodStatus_spec s : goodStatus s = true ↔ s = 1 ∨ s = 2 ∨ s = 3.
Proof. unfold goodStatus, StatusOK, StatusNotFound, StatusError. lia. Qed.

(** A field of a string of fields. *)
Lemma take_field (pre field rest : bytes) off n : length pre = off → length field = n → take n (drop off (pre ++ field ++ rest)) = field.
Proof. intros <- <-. by rewrite drop_app_length, take_app_length. Qed.

Lemma response_exact b r : DecodeResponse b = Ok r ↔ EncodeResponse r = Ok b ∧ response_ok r.
Proof.
  assert (Hmx : maxFieldBytes = 2 ^ 20) by done. split.
  - unfold DecodeResponse. cbv zeta. rewrite !Z.gtb_ltb. repeat case_test; intros [= <-]; bool_hyps. unfold lenZ in *.
    pose proof (uintAt_range 8 0 b). pose proof (uintAt_range 4 9 b). split; [|done].
    assert (Hv : length (drop 13 b) = Z.to_nat (uintAt 4 9 b)) by (rewrite length_drop; lia).
    unfold EncodeResponse. cbn [wp_Status wp_Value wp_Seq]. replace (goodStatus (uintAt 1 8 b)) with true by (symmetry; assumption). cbn [negb].
    rewrite (take_ge (drop 13 b)) by lia. unfold lenZ. rewrite Hv, Z2Nat.id, Z.gtb_ltb by lia. rewrite (proj2 (Z.ltb_ge _ _)) by lia. f_equal.
    rewrite z2b_put, !put_uintAt by lia. rewrite <- (drop_fields 4 9 13), <- (drop_fields 1 8 9) by done. symmetry. by apply (drop_fields 8 0 8).
  - intros [He Hok]. unfold EncodeResponse in He. rewrite Z.gtb_ltb in He. repeat case_test_in He; [done|done|].
    assert (Eb : b = be_put 8 (wp_Seq r) ++ [z2b (wp_Status r)] ++ be_put 4 (lenZ (wp_Value r)) ++ wp_Value r) by congruence. clear He.
    rewrite z2b_put in Eb. unfold response_ok in Hok. destruct r as [seq st v]. cbn [wp_Seq wp_Status wp_Value] in *.
    assert (0 ≤ lenZ v) by (unfold lenZ; lia).
    assert (F1 : uintAt 8 0 b = seq) by (rewrite Eb; etransitivity; [by apply (uintAt_here 8 0 [] seq)|]; apply Z.mod_small; change (256 ^ Z.of_nat 8) with (2 ^ 64); lia).
    assert (F2 : uintAt 1 8 b = st).
    { rewrite Eb. rewrite (uintAt_here 1 8 (be_put 8 seq) st) by done. apply Z.mod_small. change (256 ^ Z.of_nat 1) with 256. apply goodStatus_spec in E. lia. }
    assert (F3 : uintAt 4 9 b = lenZ v).
    { rewrite Eb, app_assoc. rewrite (uintAt_here 4 9 (be_put 8 seq ++ be_put 1 st)) by done. apply Z.mod_small. change (256 ^ Z.of_nat 4) with (2 ^ 32). lia. }
    assert (F4 : drop 13 b = v) by (rewrite Eb, !app_assoc; by rewrite drop_app_length').
    assert (Fl : lenZ b = 13 + lenZ v) by (rewrite Eb; unfold lenZ; rewrite !length_app, !be_put_length; lia).
    unfold DecodeResponse. cbv zeta. rewrite Fl, F1, F2, F3, F4, E, !Z.gtb_ltb. cbn [negb]. repeat case_test; try lia.
    unfold lenZ. rewrite Nat2Z.id, take_ge by lia. done.
Qed.

Lemma request_exact b r : DecodeRequest b = Ok r ↔ EncodeRequest r = Ok b ∧ request_ok r.
Proof.
  assert (Hmx : maxFieldBytes = 2 ^ 20) by done. split.
  - unfold DecodeRequest. cbv zeta. rewrite !Z.gtb_ltb. repeat case_test; intros [= <-]; bool_hyps. unfold lenZ in *.
    pose proof (uintAt_range 8 1 b). pose proof (uintAt_range 4 9 b). set (kl := uintAt 4 9 b) in *. pose proof (uintAt_range 4 (Z.to_nat (13 + kl)) b). set (vl := uintAt 4 (Z.to_nat (13 + kl)) b) in *.
    split; [|done]. unfold EncodeRequest. cbn [wq_Op wq_Seq wq_Key wq_Value].
    replace (goodOp (uintAt 1 0 b)) with true by (symmetry; assumption). cbn [negb].
    assert (Hk : lenZ (take (Z.to_nat kl) (drop 13 b)) = kl) by (unfold lenZ; rewrite length_take, length_drop; lia).
    assert (Hv : lenZ (take (Z.to_nat vl) (drop (Z.to_nat (13 + kl + 4)) b)) = vl) by (unfold lenZ; rewrite length_take, length_drop; lia).
    rewrite Hk, Hv, !Z.gtb_ltb, !(proj2 (Z.ltb_ge _ _)) by lia. cbn [orb]. f_equal. rewrite (take_ge (drop (Z.to_nat (13 + kl + 4)) b)) by (rewrite length_drop; lia).
    rewrite z2b_put. unfold kl at 1, vl. rewrite !put_uintAt by lia.
    rewrite <- (drop_fields 4 (Z.to_nat (13 + kl)) (Z.to_nat (13 + kl + 4))) by lia. rewrite <- (drop_fields (Z.to_nat kl) 13 (Z.to_nat (13 + kl))) by lia.
    rewrite <- (drop_fields 4 9 13), <- (drop_fields 8 1 9) by done. symmetry. by apply (drop_fields 1 0 1).
  - intros [He Hok]. unfold EncodeRequest in He. rewrite !Z.gtb_ltb in He. repeat case_test_in He; [done|done|].
    assert (Eb : b = be_put 1 (wq_Op r) ++ be_put 8 (wq_Seq r) ++ be_put 4 (lenZ (wq_Key r)) ++ wq_Key r ++ be_put 4 (lenZ (wq_Value r)) ++ wq_Value r)
      by (rewrite <- z2b_put; congruence). clear He.
    unfold request_ok in Hok. destruct r as [op seq k v]. cbn [wq_Op wq_Seq wq_Key wq_Value] in *. bool_hyps.
    assert (0 ≤ lenZ v) by (unfold lenZ; lia). assert (0 ≤ lenZ k) by (unfold lenZ; lia).
    assert (F0 : uintAt 1 0 b = op).
    { rewrite Eb. etransitivity; [by apply (uintAt_here 1 0 [] op)|]. apply Z.mod_small. change (256 ^ Z.of_nat 1) with 256. apply goodOp_spec in E. lia. }
    assert (F1 : uintAt 8 1 b = seq) by (rewrite Eb; rewrite (uintAt_here 8 1 (be_put 1 op) seq) by done; apply Z.mod_small; change (256 ^ Z.of_nat 8) with (2 ^ 64); lia).
    assert (F2 : uintAt 4 9 b = lenZ k).
    { rewrite Eb, app_assoc. rewrite (uintAt_here 4 9 (be_put 1 op ++ be_put 8 seq)) by done. apply Z.mod_small. change (256 ^ Z.of_nat 4) with (2 ^ 32). lia. }
    assert (Hpre : length ((be_put 1 op ++ be_put 8 seq ++ be_put 4 (lenZ k)) ++ k) = Z.to_nat (13 + lenZ k)) by (rewrite !length_app, !be_put_length; unfold lenZ; lia).
    assert (Eb' : b = ((be_put 1 op ++ be_put 8 seq ++ be_put 4 (lenZ k)) ++ k) ++ be_put 4 (lenZ v) ++ v) by (rewrite Eb, <- !app_assoc; done).
    assert (F3 : uintAt 4 (Z.to_nat (13 + lenZ k)) b = lenZ v).
    { rewrite Eb', uintAt_here by done. apply Z.mod_small. change (256 ^ Z.of_nat 4) with (2 ^ 32). lia. }
    assert (F4 : take (Z.to_nat (lenZ k)) (drop 13 b) = k) by (rewrite Eb', <- (app_assoc _ k); apply take_field; [by rewrite !length_app, !be_put_length|unfold lenZ; lia]).
    assert (F5 : drop (Z.to_nat (13 + lenZ k + 4)) b = v) by (rewrite Eb', (app_assoc _ (be_put 4 _)); rewrite drop_app_length'; [done|rewrite length_app, Hpre, be_put_length; lia]).
    assert (Fl : lenZ b = 13 + lenZ k + 4 + lenZ v) by (rewrite Eb; unfold lenZ; rewrite !length_app, !be_put_length; lia).
    unfold DecodeRequest. cbv zeta. rewrite Fl, F0, F1, F2, F3, F4, F5, E, !Z.gtb_ltb. cbn [negb]. repeat case_test; try lia.
    unfold lenZ. rewrite Nat2Z.id, take_ge by lia. done.
Qed.

(** C31. The wire formats are exact: of envelopes, client requests and client responses
    alike, the decoder accepts a byte string precisely when it is what the encoder
    produces for the value the decoder returns.  So decoding inverts encoding, no two
    byte strings mean the same value, and every malformed string is refused: too
    short, too long, an unknown version, opcode or status, or a length beyond the limits. *)
Theorem wire_formats_exact b :
  (∀ e, Decode b = Ok e ↔ Encode e = Ok b ∧ env_ok e)
  ∧ (∀ r, DecodeRequest b = Ok r ↔ EncodeRequest r = Ok b ∧ request_ok r)
  ∧ (∀ r, DecodeResponse b = Ok r ↔ EncodeResponse r = Ok b ∧ response_ok r).
Proof. split_and!; intros x; [apply frame_exact|apply request_exact|apply response_exact]. Qed.
