(* ===== verification/SimQueue.v ===== *)
(** * The event queue of the simulator

    sim/event.go: events in the order of their instants, ties broken by the order in
    which they were scheduled, kept in a binary heap.  The heap does what a sorted
    multiset of events would: [pop] takes the least, and nothing is lost or invented. *)

From Stdlib Require Import Lia ZArith.
From stdpp Require Import base tactics numbers option list.
From S2P Require Import Prelude.

(** ** Events *)

Inductive Kind := KindTick | KindDeliver | KindDurable | KindCrash | KindRestart | KindClient | KindAction.
#[global] Instance Kind_eq_dec : EqDecision Kind.
Proof. solve_decision. Defined.

(** A payload is nil or a value of the program's. *)
Record SimEvent (P : Type) := MkEvent { ev_At : Z; ev_Kind : Kind; ev_Node : Z; ev_Seq : Z; ev_Payload : option P }.
Arguments MkEvent {P}.
Arguments ev_At {P}.
Arguments ev_Kind {P}.
Arguments ev_Node {P}.
Arguments ev_Seq {P}.
Arguments ev_Payload {P}.

Section Queue.
Context {P : Type}.
Implicit Types (e f : SimEvent P) (es : list (SimEvent P)) (i j : nat).

Definition before e f : bool := if negb (ev_At e =? ev_At f) then ev_At e <? ev_At f else ev_Seq e <? ev_Seq f.

Definition swap i j es : list (SimEvent P) :=
  match es !! i, es !! j with Some a, Some b => <[i := b]> (<[j := a]> es) | _, _ => es end.

(** The loop of [push]; the position falls at each turn. *)
Fixpoint siftUp (fuel : nat) i es : list (SimEvent P) :=
  match fuel with
  | O => es
  | S fuel =>
      if (i =? 0)%nat then es
      else
        let parent := ((i - 1) / 2)%nat in
        match es !! i, es !! parent with
        | Some a, Some p => if negb (before a p) then es else siftUp fuel parent (swap i parent es)
        | _, _ => es
        end
  end.
Definition push e es : list (SimEvent P) := siftUp (length es) (length es) (es ++ [e]).

Definition smaller es (c small : nat) : nat :=
  match es !! c, es !! small with Some a, Some s => if before a s then c else small | _, _ => small end.

(** The loop of [pop]; the position grows at each turn. *)
Fixpoint siftDown (fuel : nat) i es : list (SimEvent P) :=
  match fuel with
  | O => es
  | S fuel =>
      let small := smaller es (2 * i + 1) i in
      let small := smaller es (2 * i + 2) small in
      if (small =? i)%nat then es else siftDown fuel small (swap i small es)
  end.
Definition pop es : option (SimEvent P * list (SimEvent P)) :=
  match es, last es with
  | top :: _, Some l => let es' := take (length es - 1) (<[0%nat := l]> es) in Some (top, siftDown (length es') 0 es')
  | _, _ => None
  end.
Definition peek es : option (SimEvent P) := head es.

(** ** The order *)

(** At or before. *)
Definition ev_le e f : Prop := before f e = false.

Lemma before_spec e f : before e f = true ↔ ev_At e < ev_At f ∨ ev_At e = ev_At f ∧ ev_Seq e < ev_Seq f.
Proof. unfold before. destruct (Z.eqb_spec (ev_At e) (ev_At f)); cbn; lia. Qed.
Lemma ev_le_spec e f : ev_le e f ↔ ev_At e < ev_At f ∨ ev_At e = ev_At f ∧ ev_Seq e ≤ ev_Seq f.
Proof. unfold ev_le. rewrite <- not_true_iff_false, before_spec. lia. Qed.
Lemma ev_le_trans e f g : ev_le e f → ev_le f g → ev_le e g.
Proof. rewrite !ev_le_spec. lia. Qed.
Lemma before_le e f : before e f = true → ev_le e f.
Proof. rewrite before_spec, ev_le_spec. lia. Qed.
Lemma ev_le_refl e : ev_le e e.
Proof. rewrite ev_le_spec. lia. Qed.

(** The events at two positions are in order. *)
Definition ord es i j : Prop := ∀ a b, es !! i = Some a → es !! j = Some b → ev_le a b.
Definition par j : nat := ((j - 1) / 2)%nat.
Definition heap es : Prop := ∀ j, (0 < j)%nat → ord es (par j) j.

Lemma par_spec j : (0 < j)%nat → (j = 2 * par j + 1 ∨ j = 2 * par j + 2)%nat.
Proof. intros H. unfold par. pose proof (Nat.div_mod_eq (j - 1) 2). pose proof (Nat.mod_upper_bound (j - 1) 2). lia. Qed.
Lemma par_lt j : (0 < j)%nat → (par j < j)%nat.
Proof. intros H. pose proof (par_spec j H). lia. Qed.
Lemma par_child i j : (0 < j)%nat → par j = i ↔ (j = 2 * i + 1 ∨ j = 2 * i + 2)%nat.
Proof.
  intros H. pose proof (par_spec j H). split; [intros <-; lia|]. intros Hj. pose proof (par_spec j H). lia.
Qed.

(** ** Exchanging two events *)

Lemma swap_spec i j a b es : i ≠ j → es !! i = Some a → es !! j = Some b →
  swap i j es !! i = Some b ∧ swap i j es !! j = Some a ∧ (∀ k, k ≠ i → k ≠ j → swap i j es !! k = es !! k).
Proof.
  intros Hne Ha Hb. unfold swap. rewrite Ha, Hb. apply lookup_lt_Some in Ha as Hi. apply lookup_lt_Some in Hb as Hj. split_and!.
  - rewrite list_lookup_insert_eq; [done|]. by rewrite length_insert.
  - rewrite list_lookup_insert_ne by done. by rewrite list_lookup_insert_eq.
  - intros k H1 H2. by rewrite !list_lookup_insert_ne by done.
Qed.
Lemma swap_length i j es : length (swap i j es) = length es.
Proof. unfold swap. repeat case_match; rewrite ?length_insert; done. Qed.
Lemma swap_Permutation i j es : swap i j es ≡ₚ es.
Proof.
  unfold swap. destruct (es !! i) as [a|] eqn:Ha; [|done]. destruct (es !! j) as [b|] eqn:Hb; [|done].
  by apply Permutation_insert_swap.
Qed.

(** ** Sifting up *)

(** A heap but for the event at [i], which may be too early for its place. *)
Definition lifted i es : Prop :=
  (∀ j, (0 < j)%nat → j ≠ i → ord es (par j) j) ∧ (∀ j, (0 < j)%nat → (0 < i)%nat → par j = i → ord es (par i) j).

Lemma lifted_swap i a p es :
  (0 < i)%nat → es !! i = Some a → es !! par i = Some p → before a p = true → lifted i es → lifted (par i) (swap i (par i) es).
Proof.
  intros Hi Ha Hp Hap [H1 H2]. pose proof (par_lt i Hi) as Hlt.
  destruct (swap_spec i (par i) a p es ltac:(lia) Ha Hp) as (S1 & S2 & S3). split.
  - intros j Hj Hne x y Hx Hy. destruct (decide (j = i)) as [->|Hji].
    { rewrite S2 in Hx. rewrite S1 in Hy. injection Hx as <-. injection Hy as <-. by apply before_le. }
    rewrite S3 in Hy by done. destruct (decide (par j = i)) as [Hpi|Hpi].
    { rewrite Hpi, S1 in Hx. injection Hx as <-. by apply (H2 j Hj Hi Hpi). }
    destruct (decide (par j = par i)) as [Hpp|Hpp].
    { rewrite Hpp, S2 in Hx. injection Hx as <-. apply (ev_le_trans _ p); [by apply before_le|]. apply (H1 j Hj Hji); [by rewrite Hpp|done]. }
    rewrite S3 in Hx by done. by apply (H1 j Hj Hji).
  - intros j Hj Hpos Hpj x y Hx Hy. pose proof (par_lt (par i) Hpos). rewrite S3 in Hx by lia.
    assert (Hxp : ev_le x p) by (apply (H1 (par i) Hpos ltac:(lia)); done).
    destruct (decide (j = i)) as [->|Hji]; [rewrite S1 in Hy; by injection Hy as <-|].
    rewrite S3 in Hy by (pose proof (par_lt j Hj); lia). apply (ev_le_trans _ p); [done|]. apply (H1 j Hj Hji); [by rewrite Hpj|done].
Qed.

Lemma siftUp_spec fuel i es :
  (i <= fuel)%nat → (i < length es)%nat → lifted i es → heap (siftUp fuel i es) ∧ siftUp fuel i es ≡ₚ es.
Proof.
  assert (Hzero : ∀ es, lifted 0 es → heap es) by (intros es' [H1 _] j Hj; apply H1; lia).
  revert i es. induction fuel as [|fuel IH]; intros i es Hf Hl Hh; cbn [siftUp].
  { replace i with 0%nat in Hh by lia. by split; [apply Hzero|]. }
  destruct (Nat.eqb_spec i 0) as [->|Hi]; [by split; [apply Hzero|]|]. fold (par i). pose proof (par_lt i ltac:(lia)).
  destruct (lookup_lt_is_Some_2 es i Hl) as [a Ha]. destruct (lookup_lt_is_Some_2 es (par i) ltac:(lia)) as [p Hp]. rewrite Ha, Hp.
  destruct (before a p) eqn:Hap; cbn [negb].
  - destruct (IH (par i) (swap i (par i) es)) as [G1 G2]; [lia|rewrite swap_length; lia|by eapply lifted_swap; [lia|..]|].
    split; [done|]. etransitivity; [exact G2|apply swap_Permutation].
  - split; [|done]. destruct Hh as [H1 _]. intros j Hj. destruct (decide (j = i)) as [->|Hji]; [|by apply H1].
    intros x y Hx Hy. rewrite Hp in Hx. rewrite Ha in Hy. injection Hx as <-. injection Hy as <-. exact Hap.
Qed.

Lemma siftUp_perm fuel i es : siftUp fuel i es ≡ₚ es.
Proof.
  revert i es. induction fuel as [|fuel IH]; intros i es; cbn [siftUp]; [done|]. case_match; [done|].
  repeat (case_match; [|done]). case_match; [done|]. etransitivity; [apply IH|apply swap_Permutation].
Qed.
Lemma push_perm e es : push e es ≡ₚ e :: es.
Proof. unfold push. rewrite siftUp_perm. by rewrite Permutation_app_comm. Qed.

Lemma push_heap e es : heap es → heap (push e es) ∧ push e es ≡ₚ e :: es.
Proof.
  intros Hh. unfold push. destruct (siftUp_spec (length es) (length es) (es ++ [e])) as [H1 H2]; [lia|rewrite length_app; cbn; lia| |].
  - split.
    + intros j Hj Hne x y Hx Hy. apply lookup_lt_Some in Hy as Hlt. rewrite length_app in Hlt. cbn in Hlt. pose proof (par_lt j Hj).
      rewrite lookup_app_l in Hx, Hy by lia. by apply (Hh j Hj).
    + intros j Hj _ Hpj x y _ Hy. apply lookup_lt_Some in Hy. rewrite length_app in Hy. cbn in Hy. pose proof (par_lt j Hj). lia.
  - split; [done|]. etransitivity; [exact H2|]. rewrite Permutation_app_comm. done.
Qed.

(** ** Sifting down *)

(** A heap but for the event at [i], which may be too late for its place. *)
Definition sunk i es : Prop :=
  (∀ j, (0 < j)%nat → par j ≠ i → ord es (par j) j) ∧ (∀ j, (0 < j)%nat → (0 < i)%nat → par j = i → ord es (par i) j).

Lemma smaller_spec es c s : smaller es c s = s ∧ (∀ a b, es !! s = Some a → es !! c = Some b → ev_le a b)
  ∨ smaller es c s = c ∧ ∃ a b, es !! s = Some a ∧ es !! c = Some b ∧ before b a = true.
Proof.
  unfold smaller. destruct (es !! c) as [b|] eqn:Hc; [|by left]. destruct (es !! s) as [a|] eqn:Hs; [|by left].
  destruct (before b a) eqn:Hb; [right; eauto 10|left]. split; [done|]. intros x y [= <-] [= <-]. done.
Qed.

Lemma sunk_swap i s x y es :
  (0 < s)%nat → par s = i → es !! i = Some x → es !! s = Some y → before y x = true →
  (∀ j, (0 < j)%nat → par j = i → ord es s j) → sunk i es → sunk s (swap i s es).
Proof.
  intros Hs Hpar Hx Hy Hyx Hmin [H1 H2]. pose proof (par_lt s Hs) as Hlt.
  destruct (swap_spec i s x y es ltac:(lia) Hx Hy) as (S1 & S2 & S3). split.
  - intros j Hj Hne a b Ha Hb. destruct (decide (par j = i)) as [Hpi|Hpi].
    { rewrite Hpi, S1 in Ha. injection Ha as <-. destruct (decide (j = s)) as [->|Hjs]; [rewrite S2 in Hb; injection Hb as <-; by apply before_le|].
      rewrite S3 in Hb by (pose proof (par_lt j Hj); lia). by apply (Hmin j Hj Hpi). }
    rewrite S3 in Ha by done. destruct (decide (j = i)) as [->|Hji].
    { rewrite S1 in Hb. injection Hb as <-. by apply (H2 s Hs Hj Hpar). }
    destruct (decide (j = s)) as [->|Hjs]; [done|]. rewrite S3 in Hb by done. by apply (H1 j Hj Hpi).
  - intros j Hj _ Hpj a b Ha Hb. rewrite Hpar, S1 in Ha. injection Ha as <-. pose proof (par_lt j Hj). rewrite S3 in Hb by lia.
    apply (H1 j Hj ltac:(lia)); [by rewrite Hpj|done].
Qed.

Lemma sibling_min es i s b : (0 < s)%nat → es !! s = Some b → (∀ j c, (0 < j)%nat → par j = i → j ≠ s → es !! j = Some c → ev_le b c) →
  ∀ j, (0 < j)%nat → par j = i → ord es s j.
Proof.
  intros Hs Hb H j Hj Hp x y Hx Hy. rewrite Hb in Hx. injection Hx as <-.
  destruct (decide (j = s)) as [->|Hne]; [rewrite Hb in Hy; injection Hy as <-; apply ev_le_refl|by eapply H].
Qed.

Lemma siftDown_spec fuel i es :
  (length es <= i + fuel)%nat → sunk i es → heap (siftDown fuel i es) ∧ siftDown fuel i es ≡ₚ es.
Proof.
  revert i es. induction fuel as [|fuel IH]; intros i es Hf Hh; cbn [siftDown].
  { split; [|done]. intros j Hj a b Ha Hb. destruct (decide (par j = i)) as [Hp|Hp]; [|by apply (proj1 Hh j Hj Hp)].
    apply lookup_lt_Some in Ha. lia. }
  assert (Hstep : ∀ s x y, (0 < s)%nat → par s = i → es !! i = Some x → es !! s = Some y → before y x = true →
    (∀ j c, (0 < j)%nat → par j = i → j ≠ s → es !! j = Some c → ev_le y c) → heap (siftDown fuel s (swap i s es)) ∧ siftDown fuel s (swap i s es) ≡ₚ es).
  { intros s x y Hs Hp Hx Hy Hyx Hmin. pose proof (par_lt s Hs). destruct (IH s (swap i s es)) as [G1 G2]; [rewrite swap_length; lia| |].
    - apply (sunk_swap i s x y); try done. by eapply sibling_min.
    - split; [done|]. etransitivity; [exact G2|apply swap_Permutation]. }
  destruct (smaller_spec es (2 * i + 1) i) as [[-> L1]|[-> (a & b & Ha & Hb & Hba)]].
  - destruct (smaller_spec es (2 * i + 2) i) as [[-> L2]|[-> (a & b & Ha & Hb & Hba)]].
    + rewrite Nat.eqb_refl. split; [|done]. intros j Hj. destruct (decide (par j = i)) as [Hp|Hp]; [|by apply (proj1 Hh j Hj Hp)].
      rewrite Hp. apply (par_child i j Hj) in Hp as [->| ->]; [exact L1|exact L2].
    + assert (Hpar : par (2 * i + 2) = i) by (apply par_child; lia). rewrite (proj2 (Nat.eqb_neq _ _)) by lia.
      apply (Hstep (2 * i + 2)%nat a b); [lia|done|done|done|done|]. intros j c Hj Hp Hne Hc.
      apply (par_child i j Hj) in Hp as [->| ->]; [|done]. apply (ev_le_trans _ a); [by apply before_le|by apply L1].
  - assert (Hpar : par (2 * i + 1) = i) by (apply par_child; lia).
    destruct (smaller_spec es (2 * i + 2) (2 * i + 1)) as [[-> L2]|[-> (a' & b' & Ha' & Hb' & Hba')]]; rewrite (proj2 (Nat.eqb_neq _ _)) by lia.
    + apply (Hstep (2 * i + 1)%nat a b); [lia|done|done|done|done|]. intros j c Hj Hp Hne Hc.
      apply (par_child i j Hj) in Hp as [->| ->]; [done|]. by apply L2.
    + rewrite Hb in Ha'. injection Ha' as <-. assert (Hpar' : par (2 * i + 2) = i) by (apply par_child; lia).
      apply (Hstep (2 * i + 2)%nat a b'); [lia|done|done|done|rewrite before_spec in *; lia|]. intros j c Hj Hp Hne Hc.
      apply (par_child i j Hj) in Hp as [->| ->]; [|done]. rewrite Hb in Hc. injection Hc as <-. by apply before_le.
Qed.

(** ** Popping *)

Lemma heap_min es top : heap es → es !! 0%nat = Some top → ∀ e, e ∈ es → ev_le top e.
Proof.
  intros Hh Ht e [k Hk]%list_elem_of_lookup. revert e Hk. induction k as [k IH] using lt_wf_ind. intros e Hk.
  destruct (decide (k = 0%nat)) as [->|Hne]; [rewrite Ht in Hk; injection Hk as <-; apply ev_le_refl|].
  pose proof (par_lt k ltac:(lia)) as Hlt. apply lookup_lt_Some in Hk as Hl. destruct (lookup_lt_is_Some_2 es (par k) ltac:(lia)) as [p Hp].
  apply (ev_le_trans _ p); [by apply (IH (par k))|]. by apply (Hh k ltac:(lia)).
Qed.

Lemma pop_heap es : heap es →
  match pop es with
  | None => es = []
  | Some (top, es') => head es = Some top ∧ heap es' ∧ top :: es' ≡ₚ es ∧ ∀ e, e ∈ es → ev_le top e
  end.
Proof.
  intros Hh. destruct es as [|top es]; [done|]. unfold pop. destruct (last (top :: es)) as [l|] eqn:El; [|by apply last_None in El].
  set (w := take _ _).
  assert (Hw : sunk 0 w ∧ top :: w ≡ₚ top :: es).
  { subst w. destruct es as [|x es1 _] using rev_ind; set (w := take _ _).
    - change w with (@nil (SimEvent P)). split; [|done]. split; [intros j _ _ a b Ha; by rewrite lookup_nil in Ha|lia].
    - assert (x = l) as -> by (rewrite app_comm_cons, last_snoc in El; congruence).
      assert (w = l :: es1) as ->.
      { unfold w. cbn [insert list_insert]. rewrite app_comm_cons, length_app. cbn [length]. replace (S (length es1) + 1 - 1)%nat with (length (l :: es1)) by (cbn; lia).
        change (l :: es1 ++ [l]) with ((l :: es1) ++ [l]). apply take_app_length. }
      split; [split; [|lia]|by rewrite (Permutation_app_comm es1 [l])].
      intros j Hj Hp a b Ha Hb. apply lookup_lt_Some in Hb as Hlt. cbn [length] in Hlt. pose proof (par_lt j Hj).
      assert (Hsame : ∀ k c, (0 < k)%nat → (k < S (length es1))%nat → (l :: es1) !! k = Some c → (top :: es1 ++ [l]) !! k = Some c).
      { intros [|k] c Hk Hl Hc; [lia|]. change (es1 !! k = Some c) in Hc. change ((es1 ++ [l]) !! k = Some c). rewrite lookup_app_l by lia. done. }
      apply (Hh j Hj); apply Hsame; (lia || done). }
  destruct Hw as [Hs Hp]. destruct (siftDown_spec (length w) 0 w ltac:(lia) Hs) as [G1 G2].
  split_and!; [done|done|by rewrite G2|]. by apply heap_min.
Qed.

(** ** The queue *)

(** Any queue the loop can build. *)
Inductive queue : list (SimEvent P) → Prop :=
| queue_empty : queue []
| queue_push e es : queue es → queue (push e es)
| queue_pop es e es' : queue es → pop es = Some (e, es') → queue es'.

Lemma queue_heap es : queue es → heap es.
Proof.
  induction 1 as [|e es _ IH|es e es' _ IH Hp].
  - intros j _ a b Ha. by rewrite lookup_nil in Ha.
  - by apply push_heap.
  - apply pop_heap in IH. rewrite Hp in IH. apply IH.
Qed.

(** C32. The heap is a queue in the order of time: whatever was pushed and popped before,
    [push] adds the event and nothing else, and [pop] fails only on the empty queue
    and otherwise takes out, once, the event [peek] shows, which is the earliest of all
    - of those at one instant the one scheduled first. *)
Theorem queue_refines es :
  queue es →
  (∀ e, push e es ≡ₚ e :: es)
  ∧ match pop es with
    | None => es = [] ∧ peek es = None
    | Some (e, es') => peek es = Some e ∧ e :: es' ≡ₚ es ∧ ∀ f, f ∈ es → ev_At e < ev_At f ∨ ev_At e = ev_At f ∧ ev_Seq e ≤ ev_Seq f
    end.
Proof.
  intros Hq%queue_heap. split; [intros e; by apply push_heap|]. pose proof (pop_heap es Hq) as H. destruct (pop es) as [[e es']|].
  - destruct H as (H1 & _ & H3 & H4). split_and!; [done|done|]. intros f Hf. by apply ev_le_spec, H4.
  - subst es. done.
Qed.
End Queue.

Lemma queue_refines_witness :
  let a := MkEvent (P := unit) 5 KindTick 0 1 None in
  let b := MkEvent (P := unit) 3 KindDeliver 0 2 None in
  let c := MkEvent (P := unit) 3 KindTick 0 3 None in
  let q := push c (push b (push a [])) in
  pop q = Some (b, push a [c]) ∧ ∀ f, f ∈ q → ev_At b < ev_At f ∨ ev_At b = ev_At f ∧ ev_Seq b ≤ ev_Seq f.
Proof.
  cbv zeta. split; [by vm_compute|]. set (q := push _ (push _ (push _ []))).
  destruct (queue_refines q) as [_ H]; [repeat constructor|].
  assert (E : pop q = Some (MkEvent 3 KindDeliver 0 2 None, push (MkEvent 5 KindTick 0 1 None) [MkEvent 3 KindTick 0 3 None])) by (by vm_compute).
  rewrite E in H. apply H.
Defined.
