(* ===== verification/ConfChange.v ===== *)
(** * Cluster membership (raft/raft.go, the configuration half)

    [Configuration], the single-server changes [ConfChangeV2] that move it, the
    byte encodings both have in the log, on the wire and in snapshots, and the
    overlapping-quorum argument that makes one-server-at-a-time changes safe. *)

From Stdlib Require Import Lia ZArith.
From stdpp Require Import base tactics numbers option sorting gmap list.
From S2P Require Import Prelude Bytes.

(** [NodeID] is a [uint64]; zero is "no node". *)
Abbreviation NodeID := Z.

(** The closed enums of the source are [uint8]s that arrive from the wire, so
    each has a constructor for the codes outside its declared members. *)
Inductive ConfChangeType :=
| ConfChangeAddVoter
| ConfChangeAddLearner
| ConfChangeRemoveNode
| numConfChangeTypes
| ConfChangeTypeOther (code : byte).

Inductive ConfChangeTransition :=
| ConfChangeSimple
| ConfChangeJointImplicit
| ConfChangeJointExplicit
| numConfChangeTransitions
| ConfChangeTransitionOther (code : byte).

#[global] Instance ConfChangeType_eq_dec : EqDecision ConfChangeType.
Proof. solve_decision. Defined.
#[global] Instance ConfChangeTransition_eq_dec : EqDecision ConfChangeTransition.
Proof. solve_decision. Defined.

Definition ConfChangeType_code (t : ConfChangeType) : byte :=
  match t with
  | ConfChangeAddVoter => Byte.x01
  | ConfChangeAddLearner => Byte.x02
  | ConfChangeRemoveNode => Byte.x03
  | numConfChangeTypes => Byte.x04
  | ConfChangeTypeOther b => b
  end.

Definition ConfChangeType_of (b : byte) : ConfChangeType :=
  match b with
  | Byte.x01 => ConfChangeAddVoter
  | Byte.x02 => ConfChangeAddLearner
  | Byte.x03 => ConfChangeRemoveNode
  | Byte.x04 => numConfChangeTypes
  | _ => ConfChangeTypeOther b
  end.

Definition ConfChangeTransition_code (t : ConfChangeTransition) : byte :=
  match t with
  | ConfChangeSimple => Byte.x01
  | ConfChangeJointImplicit => Byte.x02
  | ConfChangeJointExplicit => Byte.x03
  | numConfChangeTransitions => Byte.x04
  | ConfChangeTransitionOther b => b
  end.

Definition ConfChangeTransition_of (b : byte) : ConfChangeTransition :=
  match b with
  | Byte.x01 => ConfChangeSimple
  | Byte.x02 => ConfChangeJointImplicit
  | Byte.x03 => ConfChangeJointExplicit
  | Byte.x04 => numConfChangeTransitions
  | _ => ConfChangeTransitionOther b
  end.

Record ConfChangeSingle := MkConfChangeSingle {
  ccs_type : ConfChangeType;
  ccs_node : NodeID;
}.

Record ConfChangeV2 := MkConfChangeV2 {
  cc_changes : list ConfChangeSingle;
  cc_transition : ConfChangeTransition;
}.

#[global] Instance ConfChangeSingle_eq_dec : EqDecision ConfChangeSingle.
Proof. solve_decision. Defined.
#[global] Instance ConfChangeV2_eq_dec : EqDecision ConfChangeV2.
Proof. solve_decision. Defined.

(** ** Configurations *)

Record Configuration := MkConfiguration {
  Voters : list NodeID;
  Learners : list NodeID;
}.

#[global] Instance Configuration_eq_dec : EqDecision Configuration.
Proof. solve_decision. Defined.

Fixpoint contains (xs : list NodeID) (n : NodeID) : bool :=
  match xs with
  | [] => false
  | x :: xs => if x =? n then true else contains xs n
  end.

(** The inner loop of the insertion sort: the sorted prefix is held reversed,
    which is the direction the loop walks it in, and [x] swaps past every
    element greater than it. *)
Fixpoint sift (rprefix : list NodeID) (x : NodeID) : list NodeID :=
  match rprefix with
  | [] => [x]
  | y :: ys => if y >? x then y :: sift ys x else x :: y :: ys
  end.

Definition sortIDs (xs : list NodeID) : list NodeID := rev (foldl sift [] xs).

Definition insertID (xs : list NodeID) (n : NodeID) : list NodeID :=
  if contains xs n then xs else sortIDs (xs ++ [n]).

Fixpoint removeID (xs : list NodeID) (n : NodeID) : list NodeID :=
  match xs with
  | [] => []
  | x :: xs => if negb (x =? n) then x :: removeID xs n else removeID xs n
  end.

Definition IsVoter (c : Configuration) (n : NodeID) : bool := contains (Voters c) n.
Definition IsLearner (c : Configuration) (n : NodeID) : bool := contains (Learners c) n.
Definition Members (c : Configuration) : list NodeID := sortIDs (Voters c ++ Learners c).

(** [Equal]: element by element, lengths first. *)
Definition Configuration_Equal (c o : Configuration) : bool :=
  if negb (length (Voters c) =? length (Voters o))%nat
     || negb (length (Learners c) =? length (Learners o))%nat then false
  else forallb (λ '(a, b), a =? b) (zip (Voters c) (Voters o))
       && forallb (λ '(a, b), a =? b) (zip (Learners c) (Learners o)).

Inductive ConfError :=
| ErrConfDecode
| ErrConfTransition (t : ConfChangeTransition)
| ErrConfServers (n : nat)
| ErrDemoteVoter (n : NodeID)
| ErrUnknownConfChange (t : ConfChangeType)
| ErrNoVoters.

(** [Configuration.apply]: one single change.  A code outside the enum falls
    through the switch and changes nothing. *)
Definition conf_apply (c : Configuration) (ch : ConfChangeSingle)
    : result ConfError Configuration :=
  let checked out :=
    if (length (Voters out) =? 0)%nat then Err ErrNoVoters else Ok out in
  match ccs_type ch with
  | ConfChangeAddVoter =>
      checked (MkConfiguration (insertID (Voters c) (ccs_node ch))
                               (removeID (Learners c) (ccs_node ch)))
  | ConfChangeAddLearner =>
      if contains (Voters c) (ccs_node ch) then Err (ErrDemoteVoter (ccs_node ch))
      else checked (MkConfiguration (Voters c) (insertID (Learners c) (ccs_node ch)))
  | ConfChangeRemoveNode =>
      checked (MkConfiguration (removeID (Voters c) (ccs_node ch))
                               (removeID (Learners c) (ccs_node ch)))
  | numConfChangeTypes => Err (ErrUnknownConfChange (ccs_type ch))
  | ConfChangeTypeOther _ => checked c
  end.

Definition ApplyConfChange := conf_apply.

(** ** Encodings *)

Definition EncodeConfChange (cc : ConfChangeV2) : bytes :=
  foldl (λ b ch, b ++ [ConfChangeType_code (ccs_type ch)] ++ be_put 8 (ccs_node ch))
    [ConfChangeTransition_code (cc_transition cc); z2b (Z.of_nat (length (cc_changes cc)))]
    (cc_changes cc).

(** The decoding loop, once the length is known to be [n*9]. *)
Fixpoint decode_changes (n : nat) (b : bytes) : list ConfChangeSingle :=
  match n, b with
  | O, _ => []
  | S n, t :: rest =>
      MkConfChangeSingle (ConfChangeType_of t) (be_get (take 8 rest))
        :: decode_changes n (drop 8 rest)
  | S _, [] => []
  end.

Definition DecodeConfChange (b : bytes) : option ConfChangeV2 :=
  match b with
  | t :: k :: rest =>
      let n := Z.to_nat (b2z k) in
      if (length rest =? n * 9)%nat
      then Some (MkConfChangeV2 (decode_changes n rest) (ConfChangeTransition_of t))
      else None
  | _ => None
  end.

Definition EncodeConfiguration (c : Configuration) : bytes :=
  foldl (λ b n, b ++ be_put 8 n)
    [z2b (Z.of_nat (length (Voters c))); z2b (Z.of_nat (length (Learners c)))]
    (Voters c ++ Learners c).

Fixpoint decode_ids (n : nat) (b : bytes) : list NodeID :=
  match n with
  | O => []
  | S n => be_get (take 8 b) :: decode_ids n (drop 8 b)
  end.

Definition DecodeConfiguration (b : bytes) : option Configuration :=
  match b with
  | bv :: bl :: rest =>
      let nv := Z.to_nat (b2z bv) in
      let nl := Z.to_nat (b2z bl) in
      if (length rest =? (nv + nl) * 8)%nat
      then Some (MkConfiguration (decode_ids nv rest) (decode_ids nl (drop (nv * 8) rest)))
      else None
  | _ => None
  end.

(** Every configuration entry goes through here, whoever appended it. *)
Definition ApplyConfEntry (c : Configuration) (data : bytes)
    : result ConfError Configuration :=
  match DecodeConfChange data with
  | None => Err ErrConfDecode
  | Some cc =>
      if negb (bool_decide (cc_transition cc = ConfChangeSimple))
      then Err (ErrConfTransition (cc_transition cc))
      else match cc_changes cc with
           | [ch] => conf_apply c ch
           | chs => Err (ErrConfServers (length chs))
           end
  end.

(** Majorities are of the voters alone. *)
Definition conf_quorum (c : Configuration) : nat := (length (Voters c) / 2 + 1)%nat.

(** ** Well-formed configurations *)

Definition ids_ok (xs : list NodeID) : Prop := StronglySorted Z.lt xs.

(** Both slices are sorted and deduplicated, and no node is in both. *)
Record conf_wf (c : Configuration) : Prop := MkConfWf {
  cw_voters : ids_ok (Voters c);
  cw_learners : ids_ok (Learners c);
  cw_disjoint : ∀ n, n ∈ Voters c → n ∉ Learners c;
}.

(** A set of distinct voters large enough to decide. *)
Definition is_quorum (c : Configuration) (q : list NodeID) : Prop :=
  NoDup q ∧ Forall (λ n, IsVoter c n = true) q ∧ (conf_quorum c ≤ length q)%nat.

(** ** The identifier lists *)

Lemma contains_elem xs n : contains xs n = true ↔ n ∈ xs.
Proof.
  induction xs as [|x xs IH]; simpl; [by rewrite elem_of_nil|].
  rewrite elem_of_cons. case_test; [naive_solver|].
  rewrite IH. split; [auto|]. intros [->|?]; [done|auto].
Qed.

Lemma contains_not_elem xs n : contains xs n = false ↔ n ∉ xs.
Proof. rewrite <- contains_elem. by destruct (contains xs n). Qed.

Lemma sift_perm ys x : sift ys x ≡ₚ x :: ys.
Proof.
  induction ys as [|y ys IH]; simpl; [done|]. case_test; [|done].
  rewrite IH. apply Permutation_swap.
Qed.

Lemma foldl_sift_perm xs acc : foldl sift acc xs ≡ₚ xs ++ acc.
Proof.
  revert acc. induction xs as [|x xs IH]; intros acc; simpl; [done|].
  rewrite IH, sift_perm. symmetry. apply Permutation_middle.
Qed.

Lemma sortIDs_perm xs : sortIDs xs ≡ₚ xs.
Proof.
  unfold sortIDs. rewrite <- Permutation_rev. by rewrite foldl_sift_perm, app_nil_r.
Qed.

Lemma elem_of_sortIDs xs n : n ∈ sortIDs xs ↔ n ∈ xs.
Proof. by rewrite sortIDs_perm. Qed.

Lemma sift_sorted ys x : StronglySorted Z.ge ys → StronglySorted Z.ge (sift ys x).
Proof.
  induction 1 as [|y ys Hys IH Hy]; simpl; [repeat constructor|].
  rewrite Z.gtb_ltb. case_test.
  - constructor; [done|]. rewrite (Forall_forall (Z.ge y)) in Hy |- *.
    intros z. rewrite sift_perm, elem_of_cons. intros [->|?]; [lia|auto].
  - constructor; [by constructor|]. constructor; [lia|].
    eapply Forall_impl; [done|]. simpl. lia.
Qed.

Lemma StronglySorted_rev {A} (R : A → A → Prop) xs :
  StronglySorted R xs → StronglySorted (flip R) (rev xs).
Proof.
  induction 1 as [|x xs Hxs IH Hx]; simpl; [constructor|].
  apply StronglySorted_app_2; [|done|repeat constructor].
  intros y z Hy%list_elem_of_In%in_rev%list_elem_of_In ->%list_elem_of_singleton.
  unfold flip. by eapply Forall_forall in Hx.
Qed.

Lemma StronglySorted_mono {A} (R S : A → A → Prop) xs :
  (∀ x y, R x y → S x y) → StronglySorted R xs → StronglySorted S xs.
Proof.
  intros HRS. induction 1; constructor; [done|]. by eapply Forall_impl; eauto.
Qed.

Lemma sortIDs_sorted xs : StronglySorted Z.le (sortIDs xs).
Proof.
  assert (H : ∀ acc, StronglySorted Z.ge acc → StronglySorted Z.ge (foldl sift acc xs)).
  { induction xs as [|x xs IH]; intros acc Hacc; simpl; [done|].
    apply IH. by apply sift_sorted. }
  specialize (H [] ltac:(constructor)). apply StronglySorted_rev in H.
  unfold sortIDs. eapply StronglySorted_mono; [|done]. unfold flip. simpl. lia.
Qed.

Lemma ids_ok_NoDup xs : ids_ok xs → NoDup xs.
Proof.
  induction 1 as [|x xs Hxs IH Hx]; constructor; [|done].
  intros Hin. eapply Forall_forall in Hx; [|done]. lia.
Qed.

Lemma sortIDs_ok xs : NoDup xs → ids_ok (sortIDs xs).
Proof.
  intros Hnd. pose proof (sortIDs_sorted xs) as Hs.
  rewrite <- sortIDs_perm in Hnd. induction Hs as [|x ys Hys IH Hx]; [constructor|].
  apply NoDup_cons in Hnd as [Hn Hnd]. constructor; [by apply IH|].
  apply Forall_forall. intros y Hy. eapply Forall_forall in Hx; [|done].
  assert (x ≠ y) by (intros ->; done). lia.
Qed.

Lemma elem_of_insertID xs n m : m ∈ insertID xs n ↔ m = n ∨ m ∈ xs.
Proof.
  unfold insertID. destruct (contains xs n) eqn:E.
  - apply contains_elem in E. naive_solver.
  - rewrite elem_of_sortIDs, elem_of_app, list_elem_of_singleton. tauto.
Qed.

Lemma insertID_ok xs n : ids_ok xs → ids_ok (insertID xs n).
Proof.
  intros H. unfold insertID. destruct (contains xs n) eqn:E; [done|].
  apply contains_not_elem in E. apply sortIDs_ok. apply NoDup_app.
  split; [by apply ids_ok_NoDup|]. split; [|apply NoDup_singleton].
  intros x Hx ->%list_elem_of_singleton. done.
Qed.

Lemma insertID_length xs n :
  length (insertID xs n) = if contains xs n then length xs else S (length xs).
Proof.
  unfold insertID. destruct (contains xs n); [done|].
  rewrite sortIDs_perm, length_app. simpl. lia.
Qed.

Lemma elem_of_removeID xs n m : m ∈ removeID xs n ↔ m ∈ xs ∧ m ≠ n.
Proof.
  induction xs as [|x xs IH]; simpl; [rewrite elem_of_nil; tauto|].
  rewrite elem_of_cons. destruct (x =? n) eqn:E; bool_hyps; simpl.
  - rewrite IH. naive_solver.
  - rewrite elem_of_cons, IH. naive_solver.
Qed.

Lemma removeID_ok xs n : ids_ok xs → ids_ok (removeID xs n).
Proof.
  induction 1 as [|x xs Hxs IH Hx]; simpl; [constructor|].
  destruct (negb (x =? n)); [|done]. constructor; [done|].
  apply Forall_forall. intros y [Hy _]%elem_of_removeID. by eapply Forall_forall in Hx.
Qed.

Lemma removeID_length xs n : ids_ok xs →
  length (removeID xs n) = if contains xs n then (length xs - 1)%nat else length xs.
Proof.
  induction 1 as [|x xs Hxs IH Hx]; simpl; [done|].
  destruct (x =? n) eqn:E; bool_hyps; simpl.
  - subst x. rewrite IH. assert (n ∉ xs) as Hn.
    { intros Hin. eapply Forall_forall in Hx; [|done]. lia. }
    apply contains_not_elem in Hn. rewrite Hn. lia.
  - rewrite IH. destruct (contains xs n) eqn:E2; [|done].
    apply contains_elem in E2. destruct xs; [by apply elem_of_nil in E2|]. simpl. lia.
Qed.

#[export] Hint Resolve insertID_ok removeID_ok ids_ok_NoDup : rift.

Lemma elem_of_Members c n : n ∈ Members c ↔ n ∈ Voters c ∨ n ∈ Learners c.
Proof. unfold Members. by rewrite elem_of_sortIDs, elem_of_app. Qed.

Lemma Members_ok c : conf_wf c → ids_ok (Members c).
Proof.
  intros [Hv Hl Hd]. apply sortIDs_ok, NoDup_app. auto with rift.
Qed.

Lemma Configuration_Equal_eq c o : Configuration_Equal c o = true ↔ c = o.
Proof.
  assert (Hz : ∀ xs ys : list Z, length xs = length ys →
             forallb (λ '(a, b), a =? b) (zip xs ys) = true → xs = ys).
  { induction xs as [|x xs IH]; intros [|y ys]; simpl; try done.
    intros [= Hl] H. bool_hyps. f_equal; auto. }
  assert (Hr : ∀ xs : list Z, forallb (λ '(a, b), a =? b) (zip xs xs) = true).
  { induction xs as [|x xs IH]; simpl; [done|]. by rewrite Z.eqb_refl. }
  unfold Configuration_Equal. split.
  - destruct c as [v l], o as [v' l']; simpl.
    destruct (length v =? length v')%nat eqn:E1; simpl; [|done].
    destruct (length l =? length l')%nat eqn:E2; simpl; [|done].
    apply Nat.eqb_eq in E1, E2. intros H. bool_hyps. f_equal; auto.
  - intros ->. rewrite !Nat.eqb_refl. simpl. by rewrite !Hr.
Qed.

(** ** What one change does *)

Definition is_node_change (t : ConfChangeType) : Prop :=
  t = ConfChangeAddVoter ∨ t = ConfChangeAddLearner ∨ t = ConfChangeRemoveNode.

(** The voters after a change are the old ones with at most one node added or
    removed: the shape the overlap argument rests on. *)
Lemma conf_apply_voters c ch c' :
  conf_apply c ch = Ok c' →
  Voters c' ≠ [] ∧
  (Voters c' = Voters c
   ∨ Voters c' = insertID (Voters c) (ccs_node ch)
   ∨ Voters c' = removeID (Voters c) (ccs_node ch)).
Proof.
  unfold conf_apply. intros H.
  destruct (ccs_type ch); try done; repeat case_test_in H; simplify_eq; simpl;
    (split; [|auto]); intros Heq; simpl in *; rewrite ?Heq in *; done.
Qed.

Lemma conf_apply_wf c ch c' : conf_wf c → conf_apply c ch = Ok c' → conf_wf c'.
Proof.
  intros [Hv Hl Hd] H. unfold conf_apply in H.
  destruct (ccs_type ch); try done; repeat case_test_in H; simplify_eq;
    split; simpl; auto with rift; intros n.
  - rewrite elem_of_insertID, elem_of_removeID. naive_solver.
  - rewrite elem_of_insertID. intros Hn [->|?]; [|by eapply Hd].
    match goal with HH : contains _ _ = false |- _ => by apply contains_not_elem in HH end.
  - rewrite !elem_of_removeID. naive_solver.
Qed.

(** Pigeonhole: two duplicate-free lists drawn from one universe, too long
    together to fit in it, share an element. *)
Lemma overlap_pigeonhole (u q1 q2 : list NodeID) :
  NoDup q1 → NoDup q2 → (∀ n, n ∈ q1 → n ∈ u) → (∀ n, n ∈ q2 → n ∈ u) →
  (length u < length q1 + length q2)%nat → ∃ n, n ∈ q1 ∧ n ∈ q2.
Proof.
  intros N1 N2 S1 S2 Hlen.
  destruct (decide (Exists (.∈ q2) q1)) as [(n & ? & ?)%Exists_exists|Hno]; [eauto|].
  assert (NoDup (q1 ++ q2)) as Hnd.
  { apply NoDup_app. split_and!; [done| |done].
    intros n Hn Hn2. apply Hno, Exists_exists. eauto. }
  assert (q1 ++ q2 ⊆+ u) as Hsub%submseteq_length.
  { apply NoDup_submseteq; [done|]. intros n. rewrite elem_of_app. naive_solver. }
  rewrite length_app in Hsub. lia.
Qed.

Lemma is_quorum_voters c q n : is_quorum c q → n ∈ q → n ∈ Voters c.
Proof.
  intros (_ & H & _) Hn. eapply Forall_forall in H; [|done]. by apply contains_elem.
Qed.

Lemma quorums_overlap_in u c c' q1 q2 :
  is_quorum c q1 → is_quorum c' q2 →
  (∀ n, n ∈ Voters c ∨ n ∈ Voters c' → n ∈ u) →
  (length u < conf_quorum c + conf_quorum c')%nat → ∃ n, n ∈ q1 ∧ n ∈ q2.
Proof.
  intros H1 H2 Hu Hlen. apply (overlap_pigeonhole u).
  - apply H1.
  - apply H2.
  - intros n Hn. apply Hu. left. by eapply is_quorum_voters.
  - intros n Hn. apply Hu. right. by eapply is_quorum_voters.
  - destruct H1 as (_&_&?), H2 as (_&_&?). lia.
Qed.

Lemma half_sum n : (n < (n / 2 + 1) + (n / 2 + 1))%nat.
Proof. pose proof (Nat.div_mod_eq n 2). pose proof (Nat.mod_upper_bound n 2). lia. Qed.
Lemma half_sum_succ n : (S n < (n / 2 + 1) + (S n / 2 + 1))%nat.
Proof.
  pose proof (Nat.div_mod_eq n 2). pose proof (Nat.mod_upper_bound n 2).
  pose proof (Nat.div_mod_eq (S n) 2). pose proof (Nat.mod_upper_bound (S n) 2). lia.
Qed.

(** Two majorities of one configuration share a voter. *)
Lemma quorums_overlap c q1 q2 :
  is_quorum c q1 → is_quorum c q2 → ∃ n, n ∈ q1 ∧ n ∈ q2.
Proof.
  intros H1 H2. apply (quorums_overlap_in (Voters c) c c q1 q2); auto.
  - intros n [?|?]; done.
  - apply half_sum.
Qed.

(** C9. The overlapping-quorum argument: whatever single change takes
    configuration [c] to [c'], any majority of [c] and any majority of [c']
    share a server. *)
Theorem single_change_quorums_overlap c ch c' q1 q2 :
  conf_wf c → conf_apply c ch = Ok c' →
  is_quorum c q1 → is_quorum c' q2 → ∃ n, n ∈ q1 ∧ n ∈ q2.
Proof.
  intros Hwf Happ H1 H2.
  destruct (conf_apply_voters _ _ _ Happ) as [Hne [E|[E|E]]].
  - eapply (quorums_overlap_in (Voters c)); [done|done|rewrite E; tauto|].
    unfold conf_quorum. rewrite E. apply half_sum.
  - eapply (quorums_overlap_in (Voters c')); [done|done| |].
    + intros n. rewrite E, elem_of_insertID. tauto.
    + unfold conf_quorum. rewrite E, insertID_length.
      destruct (contains _ _); [apply half_sum|apply half_sum_succ].
  - eapply (quorums_overlap_in (Voters c)); [done|done| |].
    + intros n. rewrite E, elem_of_removeID. tauto.
    + unfold conf_quorum. rewrite E, removeID_length by apply Hwf.
      destruct (contains _ _) eqn:Ec; [|apply half_sum].
      apply contains_elem in Ec. destruct (Voters c) as [|x xs]; [by apply elem_of_nil in Ec|].
      simpl length. replace (S (length xs) - 1)%nat with (length xs) by lia.
      pose proof (half_sum_succ (length xs)). lia.
Qed.

(** ** Encodings *)

Definition canonical_type (t : ConfChangeType) : Prop :=
  ConfChangeType_of (ConfChangeType_code t) = t.
Definition canonical_transition (t : ConfChangeTransition) : Prop :=
  ConfChangeTransition_of (ConfChangeTransition_code t) = t.

(** A change the encoding can carry: fewer than 256 servers, each an unsigned
    64-bit identifier, each type a member of the enum. *)
Definition encodable_change (ch : ConfChangeSingle) : Prop :=
  canonical_type (ccs_type ch) ∧ is_u64 (ccs_node ch).
Definition encodable_cc (cc : ConfChangeV2) : Prop :=
  canonical_transition (cc_transition cc) ∧ (length (cc_changes cc) < 256)%nat
  ∧ Forall encodable_change (cc_changes cc).
Definition encodable_conf (c : Configuration) : Prop :=
  (length (Voters c) < 256)%nat ∧ (length (Learners c) < 256)%nat
  ∧ Forall is_u64 (Voters c) ∧ Forall is_u64 (Learners c).

Lemma be_get_put_u64 n : is_u64 n → be_get (be_put 8 n) = n.
Proof. intros H. rewrite be_get_put. by apply Z.mod_small. Qed.

Lemma foldl_app_concat {A} (f : A → bytes) acc xs :
  foldl (λ b x, b ++ f x) acc xs = acc ++ concat (map f xs).
Proof.
  revert acc. induction xs as [|x xs IH]; intros acc; simpl; [by rewrite app_nil_r|].
  by rewrite IH, app_assoc.
Qed.

Definition encode_change (ch : ConfChangeSingle) : bytes :=
  ConfChangeType_code (ccs_type ch) :: be_put 8 (ccs_node ch).

Lemma concat_map_length {A} (f : A → bytes) k xs :
  (∀ x, length (f x) = k) → length (concat (map f xs)) = (length xs * k)%nat.
Proof.
  intros Hk. induction xs as [|x xs IH]; simpl; [done|]. rewrite length_app, Hk, IH. done.
Qed.

Lemma decode_encode_changes chs :
  Forall encodable_change chs →
  decode_changes (length chs) (concat (map encode_change chs)) = chs.
Proof.
  induction 1 as [|[t n] chs [Ht Hn] _ IH]; [done|].
  cbn [map concat length decode_changes encode_change app ccs_type ccs_node].
  rewrite take_app_length', drop_app_length' by (by rewrite be_put_length).
  by rewrite be_get_put_u64, Ht, IH.
Qed.

Lemma b2z_length_byte n : (n < 256)%nat → Z.to_nat (b2z (z2b (Z.of_nat n))) = n.
Proof. intros H. rewrite b2z_z2b, Z.mod_small by lia. lia. Qed.

Lemma EncodeConfChange_bytes cc :
  EncodeConfChange cc =
  ConfChangeTransition_code (cc_transition cc) :: z2b (Z.of_nat (length (cc_changes cc)))
    :: concat (map encode_change (cc_changes cc)).
Proof.
  unfold EncodeConfChange. rewrite (foldl_app_concat encode_change). done.
Qed.

(** A configuration change survives the log and the wire: decoding its
    encoding gives it back, whenever it has fewer than 256 servers. *)
Theorem DecodeConfChange_EncodeConfChange cc :
  encodable_cc cc → DecodeConfChange (EncodeConfChange cc) = Some cc.
Proof.
  intros (Ht & Hlen & Hch). rewrite EncodeConfChange_bytes. unfold DecodeConfChange.
  rewrite b2z_length_byte, (concat_map_length _ 9) by (done || intros; apply be_put_length || lia).
  rewrite Nat.eqb_refl. rewrite decode_encode_changes, Ht by done. by destruct cc.
Qed.

Lemma decode_encode_ids ns rest :
  Forall is_u64 ns →
  decode_ids (length ns) (concat (map (be_put 8) ns) ++ rest) = ns.
Proof.
  induction 1 as [|n ns Hn _ IH]; [done|].
  cbn [map concat length decode_ids]. rewrite <- app_assoc.
  rewrite take_app_length', drop_app_length' by (by rewrite be_put_length).
  by rewrite be_get_put_u64, IH.
Qed.

(** A membership survives a snapshot. *)
Lemma DecodeConfiguration_EncodeConfiguration c :
  encodable_conf c → DecodeConfiguration (EncodeConfiguration c) = Some c.
Proof.
  intros (Hv & Hl & Fv & Fl). unfold EncodeConfiguration.
  rewrite (foldl_app_concat (be_put 8)), map_app, concat_app. unfold DecodeConfiguration.
  cbn [app]. rewrite !b2z_length_byte by done.
  assert (Hk : ∀ x, length (be_put 8 x) = 8%nat) by (intros; apply be_put_length).
  rewrite length_app, !(concat_map_length _ 8) by done.
  replace (_ =? _)%nat with true by (symmetry; apply Nat.eqb_eq; lia).
  rewrite decode_encode_ids by done.
  rewrite drop_app_length' by (by rewrite (concat_map_length _ 8)).
  rewrite <- (app_nil_r (concat (map _ (Learners c)))), decode_encode_ids by done.
  by destruct c.
Qed.

(** Decoding never reads past a malformed entry: a change decodes only from
    exactly two header bytes and nine bytes per server. *)
Theorem DecodeConfChange_length b cc :
  DecodeConfChange b = Some cc →
  length b = (2 + 9 * length (cc_changes cc))%nat ∧ (length (cc_changes cc) < 256)%nat.
Proof.
  assert (Hd : ∀ n rest, length rest = (n * 9)%nat → length (decode_changes n rest) = n).
  { induction n as [|n IH]; intros [|t rest]; simpl; try done.
    intros [= H]. f_equal. apply IH. rewrite length_drop. lia. }
  unfold DecodeConfChange. destruct b as [|t [|k rest]]; try done.
  case_test; [|done]. intros [= <-]. apply Nat.eqb_eq in E. simpl.
  rewrite Hd by done. pose proof (b2z_range k). lia.
Qed.

Lemma ApplyConfEntry_voters c data c' :
  conf_wf c → ApplyConfEntry c data = Ok c' → conf_wf c' ∧ Voters c' ≠ [].
Proof.
  intros Hwf. unfold ApplyConfEntry.
  destruct (DecodeConfChange data) as [cc|]; [|done].
  case_test; [done|]. destruct (cc_changes cc) as [|ch [|]]; try done.
  intros H. split; [by eapply conf_apply_wf|]. by eapply conf_apply_voters.
Qed.

(** Every configuration an entry can produce is well formed and has a
    voter, whatever bytes the entry carries, and differs from the one before it
    by at most one voter: it is reached by a single change. *)
Theorem ApplyConfEntry_spec c data c' :
  conf_wf c → ApplyConfEntry c data = Ok c' →
  conf_wf c' ∧ Voters c' ≠ []
  ∧ ∃ cc ch, DecodeConfChange data = Some cc ∧ cc_changes cc = [ch] ∧ conf_apply c ch = Ok c'.
Proof.
  intros Hwf H. destruct (ApplyConfEntry_voters c data c' Hwf H) as [H1 H2].
  split; [done|]. split; [done|]. revert H. unfold ApplyConfEntry.
  destruct (DecodeConfChange data) as [cc|]; [|done].
  case_test; [done|]. destruct (cc_changes cc) as [|ch [|]] eqn:Ec; try done. eauto.
Qed.

(** ** The theorems at work *)

Definition conf123 : Configuration := MkConfiguration [1; 2; 3] [].
Definition addFour : ConfChangeV2 :=
  MkConfChangeV2 [MkConfChangeSingle ConfChangeAddVoter 4] ConfChangeSimple.

(** Closed side conditions of the examples. *)
Ltac ground :=
  repeat match goal with
  | |- _ ∧ _ => split
  | |- Forall _ _ => constructor
  | |- StronglySorted _ _ => constructor
  | |- NoDup _ => by apply (bool_decide_unpack _)
  end; first [reflexivity | done | by vm_compute | lia].

Lemma conf123_wf : conf_wf conf123.
Proof. split; [unfold ids_ok; cbn; ground..|]. intros n _. apply not_elem_of_nil. Qed.

Lemma single_change_quorums_overlap_witness : ∃ n, n ∈ [1; 2] ∧ n ∈ [2; 3; 4].
Proof.
  apply (single_change_quorums_overlap conf123 (MkConfChangeSingle ConfChangeAddVoter 4)
           (MkConfiguration [1; 2; 3; 4] [])); unfold is_quorum; [exact conf123_wf|ground..].
Defined.

Lemma DecodeConfChange_EncodeConfChange_witness :
  DecodeConfChange (EncodeConfChange addFour) = Some addFour.
Proof.
  apply DecodeConfChange_EncodeConfChange. unfold encodable_cc, encodable_change. cbn. ground.
Defined.

Lemma DecodeConfChange_length_witness : length (EncodeConfChange addFour) = 11%nat.
Proof. apply (DecodeConfChange_length (EncodeConfChange addFour) addFour). by vm_compute. Defined.

Lemma ApplyConfEntry_spec_witness :
  ApplyConfEntry conf123 (EncodeConfChange addFour) = Ok (MkConfiguration [1; 2; 3; 4] [])
  ∧ conf_wf (MkConfiguration [1; 2; 3; 4] []).
Proof.
  split; [reflexivity|].
  apply (ApplyConfEntry_spec conf123 (EncodeConfChange addFour)); [exact conf123_wf|reflexivity].
Defined.
