(* ===== verification/RaftTypes.v ===== *)
(** * The Raft state machine: data (raft/raft.go)

    The entries, messages, durability marks and the node state of package
    [raft], field for field.  A [uint64] of the source (terms, indices, marks,
    node identifiers) is a [Z]; arithmetic on it wraps through [add64] and
    [sub64].  Tick counters are Go [int]s that a node resets every election
    and are left unbounded. *)

From Stdlib Require Import Lia ZArith.
From stdpp Require Import base tactics numbers option list.
From S2P Require Import Prelude Bytes ConfChange.

Abbreviation Term := Z.
Abbreviation Index := Z.
(** A monotone token naming a durability point; zero is "nothing to persist". *)
Abbreviation PersistMark := Z.

Inductive Role := RoleFollower | RoleCandidate | RoleLeader.
#[global] Instance Role_eq_dec : EqDecision Role.
Proof. solve_decision. Defined.

Record ProposalID := MkProposalID { pid_Node : NodeID; pid_Seq : Z }.
#[global] Instance ProposalID_eq_dec : EqDecision ProposalID.
Proof. solve_decision. Defined.

Definition pid_Zero (p : ProposalID) : bool := (pid_Node p =? 0) && (pid_Seq p =? 0).
Definition zeroPID : ProposalID := MkProposalID 0 0.

Inductive EntryType :=
| EntryNormal
| EntryConfChange
| numEntryTypes
| EntryTypeOther (code : byte).
#[global] Instance EntryType_eq_dec : EqDecision EntryType.
Proof. solve_decision. Defined.

Record Entry := MkEntry {
  e_Type : EntryType;
  e_Term : Term;
  e_Index : Index;
  e_ID : ProposalID;
  e_Data : bytes;
}.
#[global] Instance Entry_eq_dec : EqDecision Entry.
Proof. solve_decision. Defined.

Definition is_conf_entry (e : Entry) : bool := bool_decide (e_Type e = EntryConfChange).

Inductive MessageType :=
| MsgVote
| MsgVoteResp
| MsgApp
| MsgAppResp
| MsgPreVote
| MsgPreVoteResp
| MsgSnap
| MsgTimeoutNow
| MsgReadIndex
| MsgReadIndexResp
| numMessageTypes
| MsgOther (code : byte).
#[global] Instance MessageType_eq_dec : EqDecision MessageType.
Proof. solve_decision. Defined.

Record Message := MkMessage {
  m_Type : MessageType;
  m_From : NodeID;
  m_To : NodeID;
  m_Term : Term;
  m_LastLogIndex : Index;
  m_LastLogTerm : Term;
  m_Granted : bool;
  m_Success : bool;
  m_PrevLogIndex : Index;
  m_PrevLogTerm : Term;
  m_Entries : list Entry;
  m_LeaderCommit : Index;
  m_MatchIndex : Index;
  m_Hint : Index;
  m_SnapIndex : Index;
  m_SnapTerm : Term;
  m_SnapData : bytes;
  m_SnapConf : bytes;
  m_ReadCtx : bytes;
  m_ReadIndex : Index;
}.
#[global] Instance Message_eq_dec : EqDecision Message.
Proof. solve_decision. Defined.

(** [Message{Type: t, From: from, To: to, Term: tm}], the other fields zero;
    a literal that sets more of them updates this one. *)
Definition mkmsg (t : MessageType) (from to : NodeID) (tm : Term) : Message :=
  MkMessage t from to tm 0 0 false false 0 0 [] 0 0 0 0 0 [] [] [] 0.

#[global] Instance Message_eta : Eta Message := λ m,
  MkMessage (m_Type m) (m_From m) (m_To m) (m_Term m) (m_LastLogIndex m) (m_LastLogTerm m)
    (m_Granted m) (m_Success m) (m_PrevLogIndex m) (m_PrevLogTerm m) (m_Entries m)
    (m_LeaderCommit m) (m_MatchIndex m) (m_Hint m) (m_SnapIndex m) (m_SnapTerm m)
    (m_SnapData m) (m_SnapConf m) (m_ReadCtx m) (m_ReadIndex m).
#[global] Instance upd_m_LastLogIndex : Field m_LastLogIndex := ltac:(derive_field).
#[global] Instance upd_m_LastLogTerm : Field m_LastLogTerm := ltac:(derive_field).
#[global] Instance upd_m_Granted : Field m_Granted := ltac:(derive_field).
#[global] Instance upd_m_Success : Field m_Success := ltac:(derive_field).
#[global] Instance upd_m_PrevLogIndex : Field m_PrevLogIndex := ltac:(derive_field).
#[global] Instance upd_m_PrevLogTerm : Field m_PrevLogTerm := ltac:(derive_field).
#[global] Instance upd_m_Entries : Field m_Entries := ltac:(derive_field).
#[global] Instance upd_m_LeaderCommit : Field m_LeaderCommit := ltac:(derive_field).
#[global] Instance upd_m_MatchIndex : Field m_MatchIndex := ltac:(derive_field).
#[global] Instance upd_m_Hint : Field m_Hint := ltac:(derive_field).
#[global] Instance upd_m_SnapIndex : Field m_SnapIndex := ltac:(derive_field).
#[global] Instance upd_m_SnapTerm : Field m_SnapTerm := ltac:(derive_field).
#[global] Instance upd_m_SnapData : Field m_SnapData := ltac:(derive_field).
#[global] Instance upd_m_SnapConf : Field m_SnapConf := ltac:(derive_field).
#[global] Instance upd_m_ReadCtx : Field m_ReadCtx := ltac:(derive_field).
#[global] Instance upd_m_ReadIndex : Field m_ReadIndex := ltac:(derive_field).

Record ReadState := MkReadState { rs_Index : Index; rs_Ctx : bytes }.

Record readReq := MkReadReq {
  q_index : Index;
  q_term : Term;
  q_ctx : bytes;
  q_from : NodeID;
  q_acks : list NodeID;
}.

Record HardState := MkHardState { hs_Term : Term; hs_Vote : NodeID }.
#[global] Instance HardState_eq_dec : EqDecision HardState.
Proof. solve_decision. Defined.

Record Snapshot := MkSnapshot {
  sn_Index : Index;
  sn_Term : Term;
  sn_Data : bytes;
  sn_Conf : Configuration;
}.

Record SnapshotMeta := MkSnapshotMeta {
  sm_Index : Index;
  sm_Term : Term;
  sm_Conf : Configuration;
}.

Record Ready := MkReady {
  rd_HardState : option HardState;
  rd_Entries : list Entry;
  rd_SnapshotTo : list NodeID;
  rd_Snapshot : option Snapshot;
  rd_Mark : PersistMark;
  rd_ReadStates : list ReadState;
  rd_SnapMark : PersistMark;
  rd_Messages : list Message;
  rd_Committed : list Entry;
}.

(** [Ready.Empty]. *)
Definition Ready_Empty (rd : Ready) : bool :=
  match rd_HardState rd, rd_Entries rd, rd_Committed rd, rd_Messages rd with
  | None, [], [], [] => true
  | _, _, _, _ => false
  end.

Record Config := MkConfig {
  cfg_ID : NodeID;
  cfg_Peers : list NodeID;
  cfg_ElectionTimeout : Z;
  cfg_HeartbeatTimeout : Z;
  cfg_Learners : list NodeID;
  cfg_PromotionLag : Index;
  cfg_PreVote : bool;
}.

(** What has been acknowledged durable and what has been handed over, recorded
    apart. *)
Record logTail := MkLogTail { t_persisted : Index; t_handed : Index }.

(** A withheld message and the durability points it attests to; zero is no
    constraint. *)
Record gatedMessage := MkGated {
  g_msg : Message;
  g_mark : PersistMark;
  g_snapMark : PersistMark;
  g_termMark : PersistMark;
}.

Inductive RaftError :=
| ErrNotLeader
| ErrTransferInProgress
| ErrConfChangeInFlight
| ErrLearnerLagging
| ErrZeroProposalID
| ErrJointTransition (t : ConfChangeTransition)
| ErrServerCount (n : nat)
| ErrConf (e : ConfError)
| ErrWrongAddressee
| ErrUnknownMessageType (t : MessageType)
| ErrEmptyReadCtx
| ErrAlreadyLeader
| ErrCompactNotApplied
| ErrCompactNotDurable
| ErrCompactMissing
| ErrConfCompacted
| ErrConfMissing
| ErrZeroNodeID
| ErrNoPeers
| ErrZeroPeer
| ErrPeersNotSorted
| ErrNotInPeers
| ErrTimeoutsNotPositive
| ErrHeartbeatTooSlow
| ErrConfigNoVoters
| ErrLogGap
| ErrConfInconsistent
| ErrConfRefused
| ErrGatedPending.

Record Raft := MkRaft {
  r_id : NodeID;
  r_peers : list NodeID;
  r_conf : Configuration;
  r_baseConf : Configuration;
  r_promotionLag : Index;
  r_confRefusal : option (Index * ConfError);
  r_term : Term;
  r_vote : NodeID;
  r_log : list Entry;
  r_snapIndex : Index;
  r_snapTerm : Term;
  r_snapMark : PersistMark;
  r_nextSnapMark : PersistMark;
  r_persistedSnap : PersistMark;
  r_pendingSnap : option Snapshot;
  r_role : Role;
  r_commitIndex : Index;
  r_appliedIdx : Index;
  r_leader : NodeID;
  r_nextIndex : list Index;
  r_matchIndex : list Index;
  r_votesGranted : list bool;
  r_votesDenied : list bool;
  r_termStart : Index;
  r_pendingReads : list readReq;
  r_readyReads : list ReadState;
  r_preVote : bool;
  r_preVoting : bool;
  r_preGranted : list bool;
  r_leadTransferee : NodeID;
  r_transferElapsed : Z;
  r_snapTo : list NodeID;
  r_electionElapsed : Z;
  r_heartbeatElapsed : Z;
  r_electionTimeout : Z;
  r_randomizedElectionTimeout : Z;
  r_heartbeatTimeout : Z;
  r_msgs : list Message;
  r_tail : logTail;
  r_markLastIdx : Index;
  r_lastHandedMark : PersistMark;
  r_hardStateDirty : bool;
  r_nextMark : PersistMark;
  r_persisted : PersistMark;
  r_gated : list gatedMessage;
  r_dirtyMark : PersistMark;
  r_hsMark : PersistMark;
  r_markHandedOff : bool;
}.

#[global] Instance Raft_eta : Eta Raft := λ r,
  MkRaft (r_id r) (r_peers r) (r_conf r) (r_baseConf r) (r_promotionLag r)
    (r_confRefusal r) (r_term r) (r_vote r) (r_log r) (r_snapIndex r) (r_snapTerm r)
    (r_snapMark r) (r_nextSnapMark r) (r_persistedSnap r) (r_pendingSnap r) (r_role r)
    (r_commitIndex r) (r_appliedIdx r) (r_leader r) (r_nextIndex r) (r_matchIndex r)
    (r_votesGranted r) (r_votesDenied r) (r_termStart r) (r_pendingReads r)
    (r_readyReads r) (r_preVote r) (r_preVoting r) (r_preGranted r) (r_leadTransferee r)
    (r_transferElapsed r) (r_snapTo r) (r_electionElapsed r) (r_heartbeatElapsed r)
    (r_electionTimeout r) (r_randomizedElectionTimeout r) (r_heartbeatTimeout r)
    (r_msgs r) (r_tail r) (r_markLastIdx r) (r_lastHandedMark r) (r_hardStateDirty r)
    (r_nextMark r) (r_persisted r) (r_gated r) (r_dirtyMark r) (r_hsMark r)
    (r_markHandedOff r).
#[global] Instance upd_r_peers : Field r_peers := ltac:(derive_field).
#[global] Instance upd_r_conf : Field r_conf := ltac:(derive_field).
#[global] Instance upd_r_baseConf : Field r_baseConf := ltac:(derive_field).
#[global] Instance upd_r_promotionLag : Field r_promotionLag := ltac:(derive_field).
#[global] Instance upd_r_confRefusal : Field r_confRefusal := ltac:(derive_field).
#[global] Instance upd_r_term : Field r_term := ltac:(derive_field).
#[global] Instance upd_r_vote : Field r_vote := ltac:(derive_field).
#[global] Instance upd_r_log : Field r_log := ltac:(derive_field).
#[global] Instance upd_r_snapIndex : Field r_snapIndex := ltac:(derive_field).
#[global] Instance upd_r_snapTerm : Field r_snapTerm := ltac:(derive_field).
#[global] Instance upd_r_snapMark : Field r_snapMark := ltac:(derive_field).
#[global] Instance upd_r_nextSnapMark : Field r_nextSnapMark := ltac:(derive_field).
#[global] Instance upd_r_persistedSnap : Field r_persistedSnap := ltac:(derive_field).
#[global] Instance upd_r_pendingSnap : Field r_pendingSnap := ltac:(derive_field).
#[global] Instance upd_r_role : Field r_role := ltac:(derive_field).
#[global] Instance upd_r_commitIndex : Field r_commitIndex := ltac:(derive_field).
#[global] Instance upd_r_appliedIdx : Field r_appliedIdx := ltac:(derive_field).
#[global] Instance upd_r_leader : Field r_leader := ltac:(derive_field).
#[global] Instance upd_r_nextIndex : Field r_nextIndex := ltac:(derive_field).
#[global] Instance upd_r_matchIndex : Field r_matchIndex := ltac:(derive_field).
#[global] Instance upd_r_votesGranted : Field r_votesGranted := ltac:(derive_field).
#[global] Instance upd_r_votesDenied : Field r_votesDenied := ltac:(derive_field).
#[global] Instance upd_r_termStart : Field r_termStart := ltac:(derive_field).
#[global] Instance upd_r_pendingReads : Field r_pendingReads := ltac:(derive_field).
#[global] Instance upd_r_readyReads : Field r_readyReads := ltac:(derive_field).
#[global] Instance upd_r_preVote : Field r_preVote := ltac:(derive_field).
#[global] Instance upd_r_preVoting : Field r_preVoting := ltac:(derive_field).
#[global] Instance upd_r_preGranted : Field r_preGranted := ltac:(derive_field).
#[global] Instance upd_r_leadTransferee : Field r_leadTransferee := ltac:(derive_field).
#[global] Instance upd_r_transferElapsed : Field r_transferElapsed := ltac:(derive_field).
#[global] Instance upd_r_snapTo : Field r_snapTo := ltac:(derive_field).
#[global] Instance upd_r_electionElapsed : Field r_electionElapsed := ltac:(derive_field).
#[global] Instance upd_r_heartbeatElapsed : Field r_heartbeatElapsed := ltac:(derive_field).
#[global] Instance upd_r_electionTimeout : Field r_electionTimeout := ltac:(derive_field).
#[global] Instance upd_r_randomizedElectionTimeout : Field r_randomizedElectionTimeout := ltac:(derive_field).
#[global] Instance upd_r_heartbeatTimeout : Field r_heartbeatTimeout := ltac:(derive_field).
#[global] Instance upd_r_msgs : Field r_msgs := ltac:(derive_field).
#[global] Instance upd_r_tail : Field r_tail := ltac:(derive_field).
#[global] Instance upd_r_markLastIdx : Field r_markLastIdx := ltac:(derive_field).
#[global] Instance upd_r_lastHandedMark : Field r_lastHandedMark := ltac:(derive_field).
#[global] Instance upd_r_hardStateDirty : Field r_hardStateDirty := ltac:(derive_field).
#[global] Instance upd_r_nextMark : Field r_nextMark := ltac:(derive_field).
#[global] Instance upd_r_persisted : Field r_persisted := ltac:(derive_field).
#[global] Instance upd_r_gated : Field r_gated := ltac:(derive_field).
#[global] Instance upd_r_dirtyMark : Field r_dirtyMark := ltac:(derive_field).
#[global] Instance upd_r_hsMark : Field r_hsMark := ltac:(derive_field).
#[global] Instance upd_r_markHandedOff : Field r_markHandedOff := ltac:(derive_field).
