(* ===== verification/Raft.v ===== *)
(** * The Raft state machine: operations (raft/raft.go)

    Every method of [*Raft] as a function on the node state.  A method that can
    panic returns an [option], [None] being the panic (an explicit [panic] of
    the source, or an index out of range); one that returns a Go [error]
    returns it beside the state.  Slices indexed by peer position are read
    with [!!] and written with [slice_set], whose [None] is the out-of-range
    panic. *)

From Stdlib Require Import Lia ZArith.
From stdpp Require Import base tactics numbers option list.
From S2P Require Import Prelude Bytes ConfChange RaftTypes.

(** [xs[i] = x] *)
Definition slice_set {A} (xs : list A) (i : nat) (x : A) : option (list A) :=
  if (i <? length xs)%nat then Some (<[i:=x]> xs) else None.

(** ** Log positions *)

Definition lastIndex (r : Raft) : Index :=
  match last (r_log r) with
  | None => r_snapIndex r
  | Some e => e_Index e
  end.

(** The slice position of index [i], or [None] when the log does not hold it. *)
Definition pos (r : Raft) (i : Index) : option nat :=
  if (i <=? r_snapIndex r) || (i >? lastIndex r) then None
  else Some (Z.to_nat (i - r_snapIndex r - 1)).

(** [at]; the position is in range by the contiguity of the log
    ([RaftInv.pos_lookup]). *)
Definition at_ (r : Raft) (i : Index) : option Entry :=
  p ← pos r i; r_log r !! p.

(** Panics behind the snapshot; empty past the end. *)
Definition suffixFrom (r : Raft) (i : Index) : option (list Entry) :=
  if i <=? r_snapIndex r then None
  else match pos r i with
       | None => Some []
       | Some p => Some (drop p (r_log r))
       end.

Definition termAt (r : Raft) (i : Index) : Term :=
  if i =? 0 then 0
  else if i =? r_snapIndex r then r_snapTerm r
  else match at_ r i with Some e => e_Term e | None => 0 end.

Definition lastTerm (r : Raft) : Term := termAt r (lastIndex r).

Definition matches_ (r : Raft) (idx : Index) (term : Term) : bool :=
  if idx =? 0 then r_snapIndex r =? 0
  else if idx >? lastIndex r then false
  else if idx <? r_snapIndex r then false
  else termAt r idx =? term.

Definition logIsUpToDate (r : Raft) (idx : Index) (term : Term) : bool :=
  let mine := lastTerm r in
  if negb (term =? mine) then term >? mine else idx >=? lastIndex r.

(** The newest configuration entry still in the log, or zero. *)
Definition lastConfIndex (r : Raft) : Index :=
  match last (filter (λ e, is_conf_entry e = true) (r_log r)) with
  | Some e => e_Index e
  | None => 0
  end.

(** ** Peers and quorums *)

Fixpoint index_of (xs : list NodeID) (n : NodeID) : option nat :=
  match xs with
  | [] => None
  | x :: xs => if x =? n then Some O else S <$> index_of xs n
  end.

Definition peerIdx (r : Raft) (n : NodeID) : option nat := index_of (r_peers r) n.

Definition quorum (r : Raft) : nat := conf_quorum (r_conf r).

(** Set flags of voters only; positions past the flag slice are not counted. *)
Definition countVoters (r : Raft) (flags : list bool) : nat :=
  length (filter (λ '(p, f), f && IsVoter (r_conf r) p = true) (zip (r_peers r) flags)).

Definition containsNode (ns : list NodeID) (n : NodeID) : bool := contains ns n.

(** ** Durability marks and the outbound gate *)

(** Opens (or extends) the pending durability point: a mark already handed over
    is never extended. *)
Definition dirty (r : Raft) : Raft :=
  if (r_dirtyMark r =? 0) || r_markHandedOff r then
    let nm := add64 (r_nextMark r) 1 in
    r <| r_nextMark := nm |> <| r_dirtyMark := nm |> <| r_markHandedOff := false |>
  else r.

Definition setVote (v : NodeID) (r : Raft) : Raft :=
  if negb (r_vote r =? v) then
    dirty (r <| r_vote := v |> <| r_hardStateDirty := true |>)
  else r.

Definition setTermAndVote (t : Term) (v : NodeID) (r : Raft) : Raft :=
  if negb (r_term r =? t) || negb (r_vote r =? v) then
    dirty (r <| r_term := t |> <| r_vote := v |> <| r_hardStateDirty := true |>)
  else r.

(** The mark that must be durable before this node's term may be revealed. *)
Definition termMark (r : Raft) : PersistMark :=
  let m := r_hsMark r in
  if r_hardStateDirty r && (r_dirtyMark r >? m) then r_dirtyMark r else m.

Definition sendGatedOn (mark snapMark : PersistMark) (m : Message) (r : Raft) : Raft :=
  let tm := termMark r in
  if (mark =? 0) && (snapMark =? 0) && (tm =? 0) then
    r <| r_msgs := r_msgs r ++ [m] |>
  else r <| r_gated := r_gated r ++ [MkGated m mark snapMark tm] |>.

Definition sendGated (m : Message) (r : Raft) : Raft := sendGatedOn 0 0 m r.

(** Releases at once; refuses every type without a written non-gate argument. *)
Definition send (m : Message) (r : Raft) : option Raft :=
  match m_Type m with
  | MsgPreVote | MsgPreVoteResp | MsgTimeoutNow => Some (r <| r_msgs := r_msgs r ++ [m] |>)
  | _ => None
  end.

Definition releasable (r : Raft) (g : gatedMessage) : bool :=
  (g_mark g <=? r_persisted r) && (g_termMark g <=? r_persisted r)
  && (g_snapMark g <=? r_persistedSnap r).

Definition release (r : Raft) : Raft :=
  r <| r_msgs := r_msgs r ++ (g_msg <$> filter (λ g, releasable r g = true) (r_gated r)) |>
    <| r_gated := filter (λ g, releasable r g = false) (r_gated r) |>.

Definition releaseThrough (m : PersistMark) (r : Raft) : Raft :=
  let r := if m >? r_persisted r then r <| r_persisted := m |> else r in
  let r := if negb (r_dirtyMark r =? 0) && (r_dirtyMark r <=? m)
           then r <| r_dirtyMark := 0 |> <| r_markHandedOff := false |> else r in
  release r.

Definition strike (m : PersistMark) (g : gatedMessage) : gatedMessage :=
  MkGated (g_msg g) (if g_mark g =? m then 0 else g_mark g) (g_snapMark g)
    (if g_termMark g =? m then 0 else g_termMark g).

Definition closeEmptyMark (m : PersistMark) (r : Raft) : Raft :=
  let r := if r_dirtyMark r =? m
           then r <| r_dirtyMark := 0 |> <| r_markHandedOff := false |> else r in
  release (r <| r_gated := strike m <$> r_gated r |>).

Definition persistedIndex (r : Raft) : Index := t_persisted (r_tail r).

(** The marks that must be durable before index [idx] may be attested to;
    panics when the index is neither durable nor pending. *)
Definition marksFor (r : Raft) (idx : Index) : option (PersistMark * PersistMark) :=
  if idx =? 0 then Some (0, 0)
  else if idx <=? r_snapIndex r then Some (0, r_snapMark r)
  else if idx <=? t_persisted (r_tail r) then Some (0, 0)
  else if r_dirtyMark r =? 0 then None
  else Some (r_dirtyMark r, 0).

(** ** The active configuration *)

(** The configuration after the configuration entries of [es], in order;
    entries this node will not apply are skipped and the first is latched. *)
Fixpoint replayConf (es : list Entry) (c : Configuration)
    (refusal : option (Index * ConfError)) : Configuration * option (Index * ConfError) :=
  match es with
  | [] => (c, refusal)
  | e :: es =>
      if is_conf_entry e then
        match ApplyConfEntry c (e_Data e) with
        | Ok c' => replayConf es c' refusal
        | Err err =>
            replayConf es c (match refusal with
                             | None => Some (e_Index e, err)
                             | Some _ => refusal
                             end)
        end
      else replayConf es c refusal
  end.

(** A node's old value by identity, or [d] for a node new to the peer set. *)
Definition carry {A} (oldPeers : list NodeID) (old : list A) (d : A) (p : NodeID) : A :=
  match index_of oldPeers p with
  | Some j => default d (old !! j)
  | None => d
  end.

Definition setConf (c : Configuration) (r : Raft) : Raft :=
  let ps := Members c in
  let next p := let n := carry (r_peers r) (r_nextIndex r) 0 p in
                if n =? 0 then add64 (lastIndex r) 1 else n in
  r <| r_conf := c |>
    <| r_peers := ps |>
    <| r_nextIndex := next <$> ps |>
    <| r_matchIndex := carry (r_peers r) (r_matchIndex r) 0 <$> ps |>
    <| r_votesGranted := carry (r_peers r) (r_votesGranted r) false <$> ps |>
    <| r_votesDenied := carry (r_peers r) (r_votesDenied r) false <$> ps |>
    <| r_preGranted := carry (r_peers r) (r_preGranted r) false <$> ps |>.

Definition recomputeConf (r : Raft) : Raft :=
  let '(c, refusal) := replayConf (r_log r) (r_baseConf r) (r_confRefusal r) in
  setConf c (r <| r_confRefusal := refusal |>).

(** ** Changing the log *)

(** One iteration of the append loop; panics on a gap. *)
Definition appendOne (r : Raft) (e : Entry) : option Raft :=
  if negb (e_Index e =? add64 (lastIndex r) 1) then None
  else Some (r <| r_log := r_log r ++ [e] |>).

Definition appendEntries (es : list Entry) (r : Raft) : option Raft :=
  r ← foldM appendOne r es;
  let r := if existsb is_conf_entry es then recomputeConf r else r in
  Some (dirty r).

(** A withheld append response that attests to index [i] or above. *)
Definition attests_from (i : Index) (g : gatedMessage) : bool :=
  bool_decide (m_Type (g_msg g) = MsgAppResp) && m_Success (g_msg g)
  && (m_MatchIndex (g_msg g) >=? i).

Definition truncateFrom (i : Index) (r : Raft) : option Raft :=
  if (i <? 1) || (i >? lastIndex r) then Some r
  else if r_commitIndex r >=? i then None
  else if i <=? r_snapIndex r then None
  else
    p ← pos r i;
    let cap x := if x >=? i then i - 1 else x in
    let r := r <| r_log := take p (r_log r) |>
               <| r_tail := MkLogTail (cap (t_persisted (r_tail r))) (cap (t_handed (r_tail r))) |>
               <| r_markLastIdx := cap (r_markLastIdx r) |>
               <| r_gated := filter (λ g, attests_from i g = false) (r_gated r) |> in
    Some (recomputeConf r).

(** ** Replication *)

(** raft holds no snapshot bytes: it names the follower, and assumes it lands. *)
Definition sendSnapshot (to : NodeID) (r : Raft) : option Raft :=
  if contains (r_snapTo r) to then Some r
  else
    let r := r <| r_snapTo := r_snapTo r ++ [to] |> in
    match peerIdx r to with
    | None => Some r
    | Some i => ns ← slice_set (r_nextIndex r) i (add64 (r_snapIndex r) 1);
                Some (r <| r_nextIndex := ns |>)
    end.

Definition sendAppend (to : NodeID) (r : Raft) : option Raft :=
  match peerIdx r to with
  | None => Some r
  | Some i =>
      next ← r_nextIndex r !! i;
      let next := if next <? 1 then 1 else next in
      if next <=? r_snapIndex r then sendSnapshot to r
      else
        let prev := next - 1 in
        ents ← (if next <=? lastIndex r then suffixFrom r next else Some []);
        Some (sendGated
                (mkmsg MsgApp (r_id r) to (r_term r)
                   <| m_PrevLogIndex := prev |> <| m_PrevLogTerm := termAt r prev |>
                   <| m_Entries := ents |> <| m_LeaderCommit := r_commitIndex r |>) r)
  end.

Definition broadcastAppend (r : Raft) : option Raft :=
  foldM (λ r p, if p =? r_id r then Some r else sendAppend p r) r (r_peers r).

(** ** Roles *)

Definition becomeFollower (t : Term) (v : NodeID) (r : Raft) : Raft :=
  let r := if t >? r_term r then setTermAndVote t v r else r in
  r <| r_role := RoleFollower |> <| r_heartbeatElapsed := 0 |> <| r_leadTransferee := 0 |>.

(** The term-start entry: a normal entry with no data and the zero identity. *)
Definition noopEntry (r : Raft) : Entry :=
  MkEntry EntryNormal (r_term r) (add64 (lastIndex r) 1) zeroPID [].

Definition becomeLeader (r : Raft) : option Raft :=
  let r := r <| r_role := RoleLeader |> <| r_leader := r_id r |> <| r_heartbeatElapsed := 0 |>
             <| r_leadTransferee := 0 |> <| r_preVoting := false |> in
  let r := r <| r_nextIndex := replicate (length (r_peers r)) (add64 (lastIndex r) 1) |>
             <| r_matchIndex := replicate (length (r_peers r)) 0 |> in
  i ← peerIdx r (r_id r);
  ms ← slice_set (r_matchIndex r) i (t_persisted (r_tail r));
  let r := r <| r_matchIndex := ms |> in
  let noop := noopEntry r in
  r ← appendEntries [noop] r;
  let r := r <| r_termStart := e_Index noop |> <| r_pendingReads := [] |>
             <| r_readyReads := [] |> in
  broadcastAppend r.

Definition forceCampaign (r : Raft) : option Raft :=
  let r := r <| r_preVoting := false |> <| r_role := RoleCandidate |> in
  let r := setTermAndVote (add64 (r_term r) 1) (r_id r) r in
  let r := r <| r_leader := 0 |> <| r_electionElapsed := 0 |>
             <| r_votesGranted := (λ _, false) <$> r_votesGranted r |>
             <| r_votesDenied := (λ _, false) <$> r_votesDenied r |> in
  i ← peerIdx r (r_id r);
  vs ← slice_set (r_votesGranted r) i true;
  let r := r <| r_votesGranted := vs |> in
  if (quorum r =? 1)%nat then becomeLeader r
  else
    Some (foldl (λ r p,
      if p =? r_id r then r
      else sendGated (mkmsg MsgVote (r_id r) p (r_term r)
                        <| m_LastLogIndex := lastIndex r |> <| m_LastLogTerm := lastTerm r |>) r)
      r (r_peers r)).

Definition preCampaign (r : Raft) : option Raft :=
  let r := r <| r_preVoting := true |> <| r_leader := 0 |> <| r_electionElapsed := 0 |>
             <| r_preGranted := (λ _, false) <$> r_preGranted r |> in
  i ← peerIdx r (r_id r);
  vs ← slice_set (r_preGranted r) i true;
  let r := r <| r_preGranted := vs |> in
  if (quorum r =? 1)%nat then forceCampaign (r <| r_preVoting := false |>)
  else
    foldM (λ r p,
      if p =? r_id r then Some r
      else send (mkmsg MsgPreVote (r_id r) p (add64 (r_term r) 1)
                   <| m_LastLogIndex := lastIndex r |> <| m_LastLogTerm := lastTerm r |>) r)
      r (r_peers r).

Definition campaign (r : Raft) : option Raft :=
  if r_preVote r then preCampaign r else forceCampaign r.

(** ** Commitment *)

Definition stepDownIfRemoved (r : Raft) : Raft :=
  if negb (bool_decide (r_role r = RoleLeader)) || IsVoter (r_conf r) (r_id r) then r
  else
    let l := lastConfIndex r in
    if negb (l =? 0) && (l >? r_commitIndex r) then r
    else becomeFollower (r_term r) (r_vote r) r <| r_leader := 0 |>.

(** How many voters match at [n]; the peer-indexed slices have one length. *)
Definition matchCount (r : Raft) (n : Index) : nat :=
  length (filter (λ '(p, m), IsVoter (r_conf r) p && (m >=? n) = true)
            (zip (r_peers r) (r_matchIndex r))).

(** The downward loop: [n = commitIndex + k], [k] running down to 1.  Only
    entries of the current term commit by counting. *)
Fixpoint maybeCommit_loop (k : nat) (r : Raft) : Raft :=
  match k with
  | O => r
  | S k' =>
      let n := r_commitIndex r + Z.of_nat k in
      if negb (termAt r n =? r_term r) then maybeCommit_loop k' r
      else if (quorum r <=? matchCount r n)%nat
      then stepDownIfRemoved (r <| r_commitIndex := n |>)
      else maybeCommit_loop k' r
  end.

Definition maybeCommit (r : Raft) : Raft :=
  maybeCommit_loop (Z.to_nat (lastIndex r - r_commitIndex r)) r.

(** ** Read index *)

Definition readFloor (r : Raft) : Index :=
  if r_termStart r >? r_commitIndex r then r_termStart r else r_commitIndex r.

Definition confirmOne (acc : Raft * list readReq) (q : readReq) : Raft * list readReq :=
  let '(r, kept) := acc in
  let voters := length (filter (λ n, IsVoter (r_conf r) n = true) (q_acks q)) in
  if (voters <? quorum r)%nat then (r, kept ++ [q])
  else if q_from q =? 0 then
    (r <| r_readyReads := r_readyReads r ++ [MkReadState (q_index q) (q_ctx q)] |>, kept)
  else
    (sendGated (mkmsg MsgReadIndexResp (r_id r) (q_from q) (r_term r)
                  <| m_ReadCtx := q_ctx q |> <| m_ReadIndex := q_index q |>) r, kept).

Definition maybeConfirmReads (r : Raft) : Raft :=
  match r_pendingReads r with
  | [] => r
  | qs => let '(r', kept) := foldl confirmOne (r, []) qs in
          r' <| r_pendingReads := kept |>
  end.

Definition recordRead (q : readReq) (r : Raft) : Raft :=
  let q := MkReadReq (q_index q) (q_term q) (q_ctx q) (q_from q) [r_id r] in
  maybeConfirmReads (r <| r_pendingReads := r_pendingReads r ++ [q] |>).

Definition ackRead (from : NodeID) (q : readReq) : readReq :=
  if containsNode (q_acks q) from then q
  else MkReadReq (q_index q) (q_term q) (q_ctx q) (q_from q) (q_acks q ++ [from]).

Definition confirmRead (from : NodeID) (r : Raft) : Raft :=
  let kept := ackRead from <$> filter (λ q, q_term q = r_term r) (r_pendingReads r) in
  maybeConfirmReads (r <| r_pendingReads := kept |>).

(** ** Message handlers *)

Definition stepPreVote (m : Message) (r : Raft) : option Raft :=
  let grant :=
    if m_Term m <=? r_term r then false
    else if negb (r_leader r =? 0) && (r_electionElapsed r <? r_randomizedElectionTimeout r)
    then false
    else if negb (logIsUpToDate r (m_LastLogIndex m) (m_LastLogTerm m)) then false
    else true in
  send (mkmsg MsgPreVoteResp (r_id r) (m_From m) (m_Term m) <| m_Granted := grant |>) r.

Definition stepPreVoteResp (m : Message) (r : Raft) : option Raft :=
  if negb (r_preVoting r) then Some r
  else if negb (m_Term m =? add64 (r_term r) 1) then Some r
  else match peerIdx r (m_From m) with
       | None => Some r
       | Some i =>
           if negb (m_Granted m) then Some r
           else
             vs ← slice_set (r_preGranted r) i true;
             let r := r <| r_preGranted := vs |> in
             if (quorum r <=? countVoters r (r_preGranted r))%nat
             then forceCampaign (r <| r_preVoting := false |>)
             else Some r
       end.

Definition stepTimeoutNow (m : Message) (r : Raft) : option Raft :=
  if (m_Term m <? r_term r) || bool_decide (r_role r = RoleLeader) then Some r
  else forceCampaign r.

Definition stepVote (m : Message) (r : Raft) : Raft :=
  let grant :=
    if m_Term m <? r_term r then false
    else if negb (r_vote r =? 0) && negb (r_vote r =? m_From m) then false
    else if negb (logIsUpToDate r (m_LastLogIndex m) (m_LastLogTerm m)) then false
    else true in
  let r := if grant then setVote (m_From m) r <| r_electionElapsed := 0 |> else r in
  sendGated (mkmsg MsgVoteResp (r_id r) (m_From m) (r_term r) <| m_Granted := grant |>) r.

Definition stepVoteResp (m : Message) (r : Raft) : option Raft :=
  if negb (bool_decide (r_role r = RoleCandidate)) || negb (m_Term m =? r_term r) then Some r
  else match peerIdx r (m_From m) with
       | None => Some r
       | Some i =>
           r ← (if m_Granted m
                then vs ← slice_set (r_votesGranted r) i true;
                     Some (r <| r_votesGranted := vs |>)
                else vs ← slice_set (r_votesDenied r) i true;
                     Some (r <| r_votesDenied := vs |>));
           if (quorum r <=? countVoters r (r_votesGranted r))%nat then becomeLeader r
           else if (quorum r <=? countVoters r (r_votesDenied r))%nat
           then Some (becomeFollower (r_term r) (r_vote r) r)
           else Some r
       end.

(** One iteration of the append loop of [stepApp]. *)
Definition stepApp_entry (r : Raft) (e : Entry) : option Raft :=
  if e_Index e <=? lastIndex r then
    if termAt r (e_Index e) =? e_Term e then Some r
    else r ← truncateFrom (e_Index e) r; appendEntries [e] r
  else appendEntries [e] r.

Definition stepApp (m : Message) (r : Raft) : option Raft :=
  if m_Term m <? r_term r then
    Some (sendGated (mkmsg MsgAppResp (r_id r) (m_From m) (r_term r)) r)
  else
    let r := becomeFollower (m_Term m) (r_vote r) r in
    let r := r <| r_leader := m_From m |> <| r_electionElapsed := 0 |> in
    if negb (matches_ r (m_PrevLogIndex m) (m_PrevLogTerm m)) then
      Some (sendGated (mkmsg MsgAppResp (r_id r) (m_From m) (r_term r)
                         <| m_Hint := lastIndex r |>) r)
    else
      r ← foldM stepApp_entry r (m_Entries m);
      let last := add64 (m_PrevLogIndex m) (Z.of_nat (length (m_Entries m))) in
      let r := if m_LeaderCommit m >? r_commitIndex r
               then r <| r_commitIndex := Z.min (m_LeaderCommit m) last |> else r in
      '(lm, sm) ← marksFor r last;
      Some (sendGatedOn lm sm (mkmsg MsgAppResp (r_id r) (m_From m) (r_term r)
                                 <| m_Success := true |> <| m_MatchIndex := last |>) r).

(** The next index after a rejection. *)
Definition backUp (hint next : Index) : Index :=
  let n := if add64 hint 1 <? next then add64 hint 1
           else if next >? 1 then next - 1 else next in
  if n <? 1 then 1 else n.

Definition stepAppResp (m : Message) (r : Raft) : option Raft :=
  if negb (bool_decide (r_role r = RoleLeader)) || negb (m_Term m =? r_term r) then Some r
  else match peerIdx r (m_From m) with
       | None => Some r
       | Some i =>
           if negb (m_Success m) then
             next ← r_nextIndex r !! i;
             ns ← slice_set (r_nextIndex r) i (backUp (m_Hint m) next);
             sendAppend (m_From m) (r <| r_nextIndex := ns |>)
           else
             mi ← r_matchIndex r !! i;
             let mi := if m_MatchIndex m >? mi then m_MatchIndex m else mi in
             ms ← slice_set (r_matchIndex r) i mi;
             ni ← r_nextIndex r !! i;
             let ni := if add64 mi 1 >? ni then add64 mi 1 else ni in
             ns ← slice_set (r_nextIndex r) i ni;
             let r := r <| r_matchIndex := ms |> <| r_nextIndex := ns |> in
             r ← (if (r_leadTransferee r =? m_From m) && (mi >=? lastIndex r)
                  then send (mkmsg MsgTimeoutNow (r_id r) (m_From m) (r_term r)) r
                  else Some r);
             Some (maybeCommit r)
       end.

Definition is_app_accept (g : gatedMessage) : bool :=
  bool_decide (m_Type (g_msg g) = MsgAppResp) && m_Success (g_msg g).

Definition stepSnap (m : Message) (r : Raft) : option Raft :=
  if m_Term m <? r_term r then
    Some (sendGated (mkmsg MsgAppResp (r_id r) (m_From m) (r_term r)) r)
  else
    let r := becomeFollower (m_Term m) (r_vote r) r in
    let r := r <| r_leader := m_From m |> <| r_electionElapsed := 0 |> in
    if m_SnapIndex m <=? r_commitIndex r then
      let last := lastIndex r in
      '(lm, sm) ← marksFor r last;
      Some (sendGatedOn lm sm (mkmsg MsgAppResp (r_id r) (m_From m) (r_term r)
                                 <| m_Success := true |> <| m_MatchIndex := last |>) r)
    else
      let r := r <| r_gated := filter (λ g, is_app_accept g = false) (r_gated r) |> in
      match DecodeConfiguration (m_SnapConf m) with
      | None => Some (sendGated (mkmsg MsgAppResp (r_id r) (m_From m) (r_term r)) r)
      | Some conf =>
          let r := recomputeConf (r <| r_log := [] |> <| r_baseConf := conf |>) in
          let r := r <| r_snapIndex := m_SnapIndex m |> <| r_snapTerm := m_SnapTerm m |>
                     <| r_commitIndex := m_SnapIndex m |> <| r_appliedIdx := m_SnapIndex m |>
                     <| r_tail := MkLogTail (m_SnapIndex m) (m_SnapIndex m) |>
                     <| r_markLastIdx := m_SnapIndex m |> in
          let r := dirty r in
          let sm := add64 (r_nextSnapMark r) 1 in
          let r := r <| r_nextSnapMark := sm |> <| r_snapMark := sm |>
                     <| r_pendingSnap :=
                          Some (MkSnapshot (m_SnapIndex m) (m_SnapTerm m) (m_SnapData m) conf) |> in
          Some (sendGatedOn (r_dirtyMark r) (r_snapMark r)
                  (mkmsg MsgAppResp (r_id r) (m_From m) (r_term r)
                     <| m_Success := true |> <| m_MatchIndex := m_SnapIndex m |>) r)
      end.

(** The result of an entry point that returns an error: the error, if any, and
    the state it leaves; [None] is a panic. *)
Definition outcome := option (option RaftError * Raft).
Definition done_with (r : option Raft) : outcome := (λ r, (None, r)) <$> r.
Definition refused (e : RaftError) (r : Raft) : outcome := Some (Some e, r).

Definition known_message (t : MessageType) : bool :=
  match t with numMessageTypes | MsgOther _ => false | _ => true end.

(** A higher term demotes before any handling; the pre-vote pair is exempt. *)
Definition observeTerm (m : Message) (r : Raft) : Raft :=
  if (m_Term m >? r_term r) && negb (bool_decide (m_Type m = MsgPreVote))
     && negb (bool_decide (m_Type m = MsgPreVoteResp))
  then becomeFollower (m_Term m) 0 r else r.

Definition dispatch (m : Message) (r : Raft) : option Raft :=
  match m_Type m with
  | MsgVote => Some (stepVote m r)
  | MsgVoteResp => stepVoteResp m r
  | MsgApp => stepApp m r
  | MsgAppResp =>
      r ← stepAppResp m r;
      Some (if bool_decide (r_role r = RoleLeader) && m_Success m
            then confirmRead (m_From m) r else r)
  | MsgReadIndex =>
      if bool_decide (r_role r = RoleLeader) then
        broadcastAppend (recordRead
          (MkReadReq (readFloor r) (r_term r) (m_ReadCtx m) (m_From m) []) r)
      else Some r
  | MsgReadIndexResp =>
      Some (r <| r_readyReads := r_readyReads r ++ [MkReadState (m_ReadIndex m) (m_ReadCtx m)] |>)
  | MsgPreVote => stepPreVote m r
  | MsgPreVoteResp => stepPreVoteResp m r
  | MsgSnap => stepSnap m r
  | MsgTimeoutNow => stepTimeoutNow m r
  | numMessageTypes | MsgOther _ => Some r
  end.

Definition Step (m : Message) (r : Raft) : outcome :=
  if negb (m_To m =? r_id r) then refused ErrWrongAddressee r
  else if negb (known_message (m_Type m)) then refused (ErrUnknownMessageType (m_Type m)) r
  else done_with (dispatch m (observeTerm m r)).

(** ** Time *)

Definition SetElectionTimeout (ticks : Z) (r : Raft) : Raft :=
  if ticks >? 0 then r <| r_randomizedElectionTimeout := ticks |> else r.

Definition Tick (r : Raft) : option Raft :=
  match r_role r with
  | RoleFollower | RoleCandidate =>
      let r := r <| r_electionElapsed := r_electionElapsed r + 1 |> in
      if (r_electionElapsed r >=? r_randomizedElectionTimeout r)
         && IsVoter (r_conf r) (r_id r) then campaign r else Some r
  | RoleLeader =>
      let r :=
        if negb (r_leadTransferee r =? 0) then
          let r := r <| r_transferElapsed := r_transferElapsed r + 1 |> in
          if r_transferElapsed r >=? r_electionTimeout r
          then r <| r_leadTransferee := 0 |> else r
        else r in
      let r := r <| r_heartbeatElapsed := r_heartbeatElapsed r + 1 |> in
      if r_heartbeatElapsed r >=? r_heartbeatTimeout r
      then broadcastAppend (r <| r_heartbeatElapsed := 0 |>) else Some r
  end.

(** ** Client entry points *)

Definition Propose (id : ProposalID) (data : bytes) (r : Raft) : outcome :=
  if pid_Zero id then refused ErrZeroProposalID r
  else if negb (bool_decide (r_role r = RoleLeader)) then refused ErrNotLeader r
  else if negb (r_leadTransferee r =? 0) then refused ErrTransferInProgress r
  else
    done_with (r ← appendEntries
                     [MkEntry EntryNormal (r_term r) (add64 (lastIndex r) 1) id data] r;
               broadcastAppend r).

(** A learner may be promoted only within the lag bound; the subtraction is
    unsigned. *)
Definition lagging (ch : ConfChangeSingle) (r : Raft) : option bool :=
  if bool_decide (ccs_type ch = ConfChangeAddVoter) && IsLearner (r_conf r) (ccs_node ch) then
    match peerIdx r (ccs_node ch) with
    | None => Some false
    | Some i => mi ← r_matchIndex r !! i;
                Some (sub64 (lastIndex r) mi >? r_promotionLag r)
    end
  else Some false.

Definition ProposeConfChange (id : ProposalID) (cc : ConfChangeV2) (r : Raft) : outcome :=
  if pid_Zero id then refused ErrZeroProposalID r
  else if negb (bool_decide (r_role r = RoleLeader)) then refused ErrNotLeader r
  else if negb (r_leadTransferee r =? 0) then refused ErrTransferInProgress r
  else if negb (bool_decide (cc_transition cc = ConfChangeSimple))
  then refused (ErrJointTransition (cc_transition cc)) r
  else match cc_changes cc with
  | [ch] =>
      if lastConfIndex r >? r_commitIndex r then refused ErrConfChangeInFlight r
      else
        lag ← lagging ch r;
        if (lag : bool) then refused ErrLearnerLagging r
        else match conf_apply (r_conf r) ch with
             | Err e => refused (ErrConf e) r
             | Ok _ =>
                 done_with (r ← appendEntries
                                  [MkEntry EntryConfChange (r_term r) (add64 (lastIndex r) 1)
                                     id (EncodeConfChange cc)] r;
                            broadcastAppend r)
             end
  | chs => refused (ErrServerCount (length chs)) r
  end.

Definition ReadIndex (ctx : bytes) (r : Raft) : outcome :=
  match ctx with
  | [] => refused ErrEmptyReadCtx r
  | _ =>
      match r_role r with
      | RoleLeader =>
          done_with (broadcastAppend
            (recordRead (MkReadReq (readFloor r) (r_term r) ctx 0 []) r))
      | RoleFollower =>
          if r_leader r =? 0 then refused ErrNotLeader r
          else done_with (Some (sendGated (mkmsg MsgReadIndex (r_id r) (r_leader r) (r_term r)
                                             <| m_ReadCtx := ctx |>) r))
      | RoleCandidate => refused ErrNotLeader r
      end
  end.

Definition TransferLeadership (target : NodeID) (r : Raft) : option Raft :=
  if target =? r_id r then None
  else match peerIdx r target with
  | None => Some r
  | Some i =>
      if negb (IsVoter (r_conf r) target) then Some r
      else if negb (bool_decide (r_role r = RoleLeader)) || negb (r_leadTransferee r =? 0)
      then Some r
      else
        let r := r <| r_leadTransferee := target |> <| r_transferElapsed := 0 |> in
        mi ← r_matchIndex r !! i;
        if mi >=? lastIndex r
        then send (mkmsg MsgTimeoutNow (r_id r) target (r_term r)) r
        else sendAppend target r
  end.

Definition Campaign (r : Raft) : outcome :=
  if bool_decide (r_role r = RoleLeader) then refused ErrAlreadyLeader r
  else done_with (campaign r).

(** ** Compaction *)

(** The configuration entries at or below [index] applied to [c]. *)
Fixpoint confThrough (index : Index) (es : list Entry) (c : Configuration) : Configuration :=
  match es with
  | [] => c
  | x :: es =>
      if e_Index x >? index then c
      else if negb (is_conf_entry x) then confThrough index es c
      else match ApplyConfEntry c (e_Data x) with
           | Ok c' => confThrough index es c'
           | Err _ => confThrough index es c
           end
  end.

Definition ConfigurationAt (index : Index) (r : Raft) : result RaftError Configuration :=
  if index <? r_snapIndex r then Err ErrConfCompacted
  else if index =? r_snapIndex r then Ok (r_baseConf r)
  else match at_ r index with
       | None => Err ErrConfMissing
       | Some _ => Ok (confThrough index (r_log r) (r_baseConf r))
       end.

Definition Compact (index : Index) (r : Raft)
    : result RaftError (Term * Configuration) * Raft :=
  if index <=? r_snapIndex r then (Ok (r_snapTerm r, r_baseConf r), r)
  else if index >? r_appliedIdx r then (Err ErrCompactNotApplied, r)
  else if index >? t_persisted (r_tail r) then (Err ErrCompactNotDurable, r)
  else match at_ r index, pos r index with
  | Some e, Some p =>
      match ConfigurationAt index r with
      | Err err => (Err err, r)
      | Ok conf =>
          let r := r <| r_log := drop (S p) (r_log r) |>
                     <| r_snapIndex := index |> <| r_snapTerm := e_Term e |>
                     <| r_baseConf := conf |> in
          (Ok (e_Term e, conf), recomputeConf r)
      end
  | _, _ => (Err ErrCompactMissing, r)
  end.

(** ** Draining and acknowledging *)

Definition HasReady (r : Raft) : bool :=
  r_hardStateDirty r || (t_handed (r_tail r) <? lastIndex r)
  || negb (bool_decide (length (r_msgs r) = 0%nat))
  || (r_appliedIdx r <? r_commitIndex r)
  || (match r_pendingSnap r with Some _ => true | None => false end)
  || negb (bool_decide (length (r_snapTo r) = 0%nat)).

Definition committedEntries (r : Raft) : option (list Entry) :=
  let first := add64 (r_appliedIdx r) 1 in
  mapM (at_ r) (seqZ first (Z.min (r_commitIndex r) (lastIndex r) - first + 1)).

Definition Ready_ (r : Raft) : option (Ready * Raft) :=
  let msgs := r_msgs r in
  let reads := r_readyReads r in
  let snap := r_pendingSnap r in
  let snapMark := match snap with Some _ => r_snapMark r | None => 0 end in
  let snapTo := r_snapTo r in
  let mark := r_dirtyMark r in
  let r := r <| r_readyReads := [] |> <| r_pendingSnap := None |> <| r_snapTo := [] |> in
  entries ← (if t_handed (r_tail r) <? lastIndex r
             then suffixFrom r (add64 (t_handed (r_tail r)) 1) else Some []);
  let hs := if r_hardStateDirty r then Some (MkHardState (r_term r) (r_vote r)) else None in
  let r := if r_hardStateDirty r then r <| r_hsMark := mark |> else r in
  committed ← committedEntries r;
  let handsOver := bool_decide (is_Some hs) || negb (bool_decide (entries = [])) in
  let r :=
    if handsOver then
      let r := r <| r_markHandedOff := true |> <| r_lastHandedMark := mark |> in
      match last entries with
      | None => r
      | Some e => r <| r_tail := MkLogTail (t_persisted (r_tail r)) (e_Index e) |>
                    <| r_markLastIdx := e_Index e |>
      end
    else if negb (mark =? 0) && negb (r_markHandedOff r) then closeEmptyMark mark r
    else r in
  Some (MkReady hs entries snapTo snap (if handsOver then mark else 0) reads snapMark
          msgs committed,
        r <| r_msgs := [] |> <| r_hardStateDirty := false |>).

Definition AckPersisted (m : PersistMark) (r : Raft) : option Raft :=
  if m <=? r_persisted r then Some r
  else
    let r := r <| r_persisted := m |> in
    let r := if negb (r_hsMark r =? 0) && (r_hsMark r <=? m) then r <| r_hsMark := 0 |> else r in
    let r := if negb (r_lastHandedMark r =? 0) && (m >=? r_lastHandedMark r)
                && (r_markLastIdx r >? t_persisted (r_tail r))
             then r <| r_tail := MkLogTail (r_markLastIdx r) (t_handed (r_tail r)) |> else r in
    let r := releaseThrough m r in
    if bool_decide (r_role r = RoleLeader) then
      match peerIdx r (r_id r) with
      | None => Some r
      | Some i =>
          mi ← r_matchIndex r !! i;
          if persistedIndex r >? mi then
            ms ← slice_set (r_matchIndex r) i (persistedIndex r);
            Some (maybeCommit (r <| r_matchIndex := ms |>))
          else Some r
      end
    else Some r.

Definition AckSnapshot (m : PersistMark) (r : Raft) : Raft :=
  if m <=? r_persistedSnap r then r
  else
    let r := r <| r_persistedSnap := m |> in
    let r := if negb (r_snapMark r =? 0) && (r_snapMark r <=? m)
             then r <| r_snapMark := 0 |> else r in
    release r.

Definition AckApplied (index : Index) (r : Raft) : Raft :=
  if index >? r_appliedIdx r then r <| r_appliedIdx := index |> else r.

(** ** Construction and recovery *)

Definition defaultPromotionLag : Index := 8.

(** The peer-set loop of [New]: every peer nonzero and strictly ascending. *)
Fixpoint check_peers (prev : option NodeID) (ps : list NodeID) : option RaftError :=
  match ps with
  | [] => None
  | p :: ps =>
      if p =? 0 then Some ErrZeroPeer
      else match prev with
           | Some q => if q >=? p then Some ErrPeersNotSorted else check_peers (Some p) ps
           | None => check_peers (Some p) ps
           end
  end.

Definition initialConf (cfg : Config) : Configuration :=
  foldl (λ c p, if contains (cfg_Learners cfg) p
                then MkConfiguration (Voters c) (insertID (Learners c) p)
                else MkConfiguration (insertID (Voters c) p) (Learners c))
    (MkConfiguration [] []) (cfg_Peers cfg).

Definition freshRaft (cfg : Config) (conf : Configuration) : Raft :=
  let peers := Members conf in
  let n := length peers in
  let lag := if cfg_PromotionLag cfg =? 0 then defaultPromotionLag else cfg_PromotionLag cfg in
  {| r_id := cfg_ID cfg; r_peers := peers; r_conf := conf; r_baseConf := conf;
     r_promotionLag := lag; r_confRefusal := None; r_term := 0; r_vote := 0; r_log := [];
     r_snapIndex := 0; r_snapTerm := 0; r_snapMark := 0; r_nextSnapMark := 0;
     r_persistedSnap := 0; r_pendingSnap := None; r_role := RoleFollower;
     r_commitIndex := 0; r_appliedIdx := 0; r_leader := 0;
     r_nextIndex := replicate n 0; r_matchIndex := replicate n 0;
     r_votesGranted := replicate n false; r_votesDenied := replicate n false;
     r_termStart := 0; r_pendingReads := []; r_readyReads := [];
     r_preVote := cfg_PreVote cfg; r_preVoting := false; r_preGranted := replicate n false;
     r_leadTransferee := 0; r_transferElapsed := 0; r_snapTo := [];
     r_electionElapsed := 0; r_heartbeatElapsed := 0;
     r_electionTimeout := cfg_ElectionTimeout cfg;
     r_randomizedElectionTimeout := cfg_ElectionTimeout cfg;
     r_heartbeatTimeout := cfg_HeartbeatTimeout cfg;
     r_msgs := []; r_tail := MkLogTail 0 0; r_markLastIdx := 0; r_lastHandedMark := 0;
     r_hardStateDirty := false; r_nextMark := 0; r_persisted := 0; r_gated := [];
     r_dirtyMark := 0; r_hsMark := 0; r_markHandedOff := false |}.

Definition New (cfg : Config) : result RaftError Raft :=
  if cfg_ID cfg =? 0 then Err ErrZeroNodeID
  else if bool_decide (cfg_Peers cfg = []) then Err ErrNoPeers
  else match check_peers None (cfg_Peers cfg) with
  | Some e => Err e
  | None =>
      if negb (contains (cfg_Peers cfg) (cfg_ID cfg)) then Err ErrNotInPeers
      else if (cfg_ElectionTimeout cfg <=? 0) || (cfg_HeartbeatTimeout cfg <=? 0)
      then Err ErrTimeoutsNotPositive
      else if cfg_HeartbeatTimeout cfg >=? cfg_ElectionTimeout cfg then Err ErrHeartbeatTooSlow
      else
        let conf := initialConf cfg in
        if (length (Voters conf) =? 0)%nat then Err ErrConfigNoVoters
        else Ok (freshRaft cfg conf)
  end.

(** The recovered log is a gapless run starting just above the snapshot. *)
Fixpoint gapless (next : Index) (es : list Entry) : bool :=
  match es with
  | [] => true
  | e :: es => (e_Index e =? u64 next) && gapless (next + 1) es
  end.

Definition Restore (cfg : Config) (hs : HardState) (snap : SnapshotMeta) (entries : list Entry)
    : result RaftError Raft :=
  match New cfg with
  | Err e => Err e
  | Ok r =>
      let base := if bool_decide (Voters (sm_Conf snap) = []) then r_baseConf r
                  else sm_Conf snap in
      let r := r <| r_term := hs_Term hs |> <| r_vote := hs_Vote hs |>
                 <| r_snapIndex := sm_Index snap |> <| r_snapTerm := sm_Term snap |>
                 <| r_baseConf := base |> <| r_log := entries |> in
      if negb (gapless (sm_Index snap + 1) entries) then Err ErrLogGap
      else
        let r := recomputeConf (r <| r_commitIndex := sm_Index snap |>
                                  <| r_appliedIdx := sm_Index snap |>) in
        let last := lastIndex r in
        Ok (r <| r_tail := MkLogTail last last |> <| r_markLastIdx := last |>)
  end.

(** ** Self-checks *)

Definition AssertConfConsistent (r : Raft) : option RaftError :=
  match r_confRefusal r with
  | Some _ => Some ErrConfRefused
  | None =>
      let want := fst (replayConf (r_log r) (r_baseConf r) None) in
      if Configuration_Equal (r_conf r) want then None else Some ErrConfInconsistent
  end.

Definition PendingGated (r : Raft) : nat := length (r_gated r).

Definition AssertQuiescent (r : Raft) : option RaftError :=
  if (length (r_gated r) =? 0)%nat then None else Some ErrGatedPending.
