(* ===== verification/RaftInv.v ===== *)
(** * The structural invariant of a Raft node

    What every operation of [Raft] keeps true of the node state: the log is a
    gapless run above the snapshot, the active configuration is the replay of
    the log, the peer-indexed slices have the peer set's length, and the
    durability bookkeeping (watermarks and marks) is coherent.  From it follow
    the lookups that cannot miss and the panics that cannot happen. *)

From Stdlib Require Import Lia ZArith.
From stdpp Require Import base tactics numbers option list.
From S2P Require Import Prelude Bytes ConfChange RaftTypes Raft.

(** ** The log *)

Definition log_ok (snap : Index) (es : list Entry) : Prop :=
  ∀ k e, es !! k = Some e → e_Index e = snap + Z.of_nat k + 1.

Lemma log_ok_nil s : log_ok s [].
Proof. intros k e. by rewrite lookup_nil. Qed.

Lemma log_ok_snoc s es e :
  log_ok s es → e_Index e = s + Z.of_nat (length es) + 1 → log_ok s (es ++ [e]).
Proof.
  intros H He k x. rewrite lookup_app. destruct (es !! k) eqn:E.
  - intros [= <-]. by apply H.
  - apply lookup_ge_None in E. intros Hx%list_lookup_singleton_Some.
    destruct Hx as [Hk ->]. rewrite He. lia.
Qed.

Lemma log_ok_take s es k : log_ok s es → log_ok s (take k es).
Proof. intros H i e [Hi _]%lookup_take_Some. by apply H. Qed.

Lemma log_ok_drop s es k : log_ok s es → log_ok (s + Z.of_nat k) (drop k es).
Proof. intros H i e Hi. rewrite lookup_drop in Hi. apply H in Hi. lia. Qed.

Lemma last_lookup_length {A} (xs : list A) : last xs = xs !! (length xs - 1)%nat.
Proof. rewrite last_lookup. f_equal. lia. Qed.

Section LogPositions.
Context (r : Raft) (Hlog : log_ok (r_snapIndex r) (r_log r)).

Lemma lastIndex_length : lastIndex r = r_snapIndex r + Z.of_nat (length (r_log r)).
Proof using Hlog.
  unfold lastIndex. rewrite last_lookup_length.
  destruct (r_log r !! _) as [e|] eqn:E.
  - apply Hlog in E as HE. apply lookup_lt_Some in E. lia.
  - apply lookup_ge_None in E. lia.
Qed.

Lemma pos_spec i p :
  pos r i = Some p ↔
  r_snapIndex r < i ≤ lastIndex r ∧ p = Z.to_nat (i - r_snapIndex r - 1).
Proof using.
  unfold pos. rewrite Z.gtb_ltb.
  destruct (i <=? r_snapIndex r) eqn:E1; destruct (lastIndex r <? i) eqn:E2; simpl;
    bool_hyps; split; try lia; try (intros [? ->]; f_equal; lia); try done; intros [= <-]; lia.
Qed.

(** A position the log claims to hold is in range. *)
Lemma pos_lookup i p : pos r i = Some p → is_Some (r_log r !! p).
Proof using Hlog.
  rewrite pos_spec, lastIndex_length. intros [Hi ->]. apply lookup_lt_is_Some. lia.
Qed.

Lemma at_spec i e :
  at_ r i = Some e ↔ r_snapIndex r < i ∧ r_log r !! Z.to_nat (i - r_snapIndex r - 1) = Some e.
Proof using Hlog.
  unfold at_. split.
  - destruct (pos r i) as [p|] eqn:E; simpl; [|done].
    apply pos_spec in E as [? ->]. auto with lia.
  - intros [Hi He]. assert (Hp : pos r i = Some (Z.to_nat (i - r_snapIndex r - 1))).
    { apply pos_spec. rewrite lastIndex_length. apply lookup_lt_Some in He. lia. }
    by rewrite Hp.
Qed.

Lemma at_index i e : at_ r i = Some e → e_Index e = i.
Proof using Hlog. intros [Hi He]%at_spec. apply Hlog in He. lia. Qed.

Lemma at_total i : r_snapIndex r < i ≤ lastIndex r → ∃ e, at_ r i = Some e.
Proof using Hlog.
  intros Hi. destruct (r_log r !! Z.to_nat (i - r_snapIndex r - 1)) as [e|] eqn:E.
  - exists e. apply at_spec. auto with lia.
  - apply lookup_ge_None in E. rewrite lastIndex_length in Hi. lia.
Qed.

Lemma suffixFrom_spec i :
  r_snapIndex r < i →
  suffixFrom r i = Some (drop (Z.to_nat (i - r_snapIndex r - 1)) (r_log r)).
Proof using Hlog.
  intros Hi. unfold suffixFrom. case_test; [lia|].
  destruct (pos r i) as [p|] eqn:Ep.
  - by apply pos_spec in Ep as [_ ->].
  - f_equal. symmetry. apply drop_ge.
    destruct (decide (i ≤ lastIndex r)) as [Hle|Hgt].
    + assert (Hs : pos r i = Some (Z.to_nat (i - r_snapIndex r - 1)))
        by (apply pos_spec; auto with lia). congruence.
    + rewrite lastIndex_length in Hgt. lia.
Qed.
End LogPositions.

(** ** Replaying configurations *)

Lemma replayConf_fst es c ref ref' :
  fst (replayConf es c ref) = fst (replayConf es c ref').
Proof.
  revert c ref ref'. induction es as [|e es IH]; intros c ref ref'; simpl; [done|].
  destruct (is_conf_entry e); [|apply IH].
  destruct (ApplyConfEntry c (e_Data e)); apply IH.
Qed.

(** The configuration a base and a log describe. *)
Definition confOf (es : list Entry) (base : Configuration) : Configuration :=
  fst (replayConf es base None).

Lemma confOf_app es1 es2 base : confOf (es1 ++ es2) base = confOf es2 (confOf es1 base).
Proof.
  unfold confOf. revert base. induction es1 as [|e es1 IH]; intros base; simpl; [done|].
  destruct (is_conf_entry e); [|apply IH].
  destruct (ApplyConfEntry base (e_Data e)); [apply IH|].
  rewrite (replayConf_fst _ _ _ None), IH.
  by rewrite (replayConf_fst es1 base (Some _) None).
Qed.

Lemma confOf_no_conf es base : existsb is_conf_entry es = false → confOf es base = base.
Proof.
  unfold confOf. induction es as [|e es IH]; simpl; [done|].
  intros H. bool_hyps. rewrite H. auto.
Qed.

Lemma confOf_wf es base :
  conf_wf base → Voters base ≠ [] → conf_wf (confOf es base) ∧ Voters (confOf es base) ≠ [].
Proof.
  unfold confOf. revert base. induction es as [|e es IH]; intros base Hwf Hne; simpl; [done|].
  destruct (is_conf_entry e); [|by apply IH].
  destruct (ApplyConfEntry base (e_Data e)) eqn:E.
  - apply ApplyConfEntry_voters in E as [??]; [|done]. by apply IH.
  - rewrite (replayConf_fst _ _ _ None). by apply IH.
Qed.

(** [ConfigurationAt]'s loop stops at the index; it is the replay of the prefix. *)
Lemma confThrough_take s i es base :
  log_ok s es → s < i →
  confThrough i es base = confOf (take (Z.to_nat (i - s)) es) base.
Proof.
  unfold confOf. revert s base. induction es as [|e es IH]; intros s base Hlog Hi.
  - by rewrite take_nil.
  - assert (He : e_Index e = s + 1) by (rewrite (Hlog 0%nat e); [lia|done]).
    replace (Z.to_nat (i - s)) with (S (Z.to_nat (i - (s + 1)))) by lia.
    cbn [confThrough firstn replayConf take].
    rewrite Z.gtb_ltb. case_test; [lia|].
    assert (Hlog' : log_ok (s + 1) es).
    { intros k x Hx. specialize (Hlog (S k) x Hx). lia. }
    assert (Hrec : ∀ b, confThrough i es b = fst (replayConf (take (Z.to_nat (i - (s + 1))) es) b None)).
    { intros b. destruct (decide (s + 1 < i)); [by apply IH|].
      replace (Z.to_nat (i - (s + 1))) with 0%nat by lia. simpl.
      destruct es as [|x es]; [done|]. simpl.
      assert (e_Index x = s + 1 + 1) by (rewrite (Hlog' 0%nat x); [lia|done]).
      rewrite Z.gtb_ltb. case_test; [done|lia]. }
    destruct (is_conf_entry e); simpl; [|apply Hrec].
    destruct (ApplyConfEntry base (e_Data e)); [apply Hrec|].
    rewrite Hrec. apply replayConf_fst.
Qed.

(** ** The invariant *)

(** Log, watermarks and commit index. *)
Record log_shape (r : Raft) : Prop := MkLogShape {
  ls_snap : 0 ≤ r_snapIndex r;
  ls_log : log_ok (r_snapIndex r) (r_log r);
  ls_last : lastIndex r < 2 ^ 64;
  ls_base : conf_wf (r_baseConf r);
  ls_base_voters : Voters (r_baseConf r) ≠ [];
  ls_commit : r_snapIndex r ≤ r_commitIndex r ≤ lastIndex r;
  ls_applied : r_snapIndex r ≤ r_appliedIdx r ≤ r_commitIndex r;
  ls_tail : r_snapIndex r ≤ t_persisted (r_tail r) ≤ t_handed (r_tail r);
  ls_handed : t_handed (r_tail r) ≤ lastIndex r;
  ls_markLast : r_markLastIdx r = t_handed (r_tail r);
}.

(** The configuration is a function of the log, and the peer-indexed slices
    follow it. *)
Record peer_shape (r : Raft) : Prop := MkPeerShape {
  ps_conf : r_conf r = confOf (r_log r) (r_baseConf r);
  ps_peers : r_peers r = Members (r_conf r);
  ps_next : length (r_nextIndex r) = length (r_peers r);
  ps_match : length (r_matchIndex r) = length (r_peers r);
  ps_granted : length (r_votesGranted r) = length (r_peers r);
  ps_denied : length (r_votesDenied r) = length (r_peers r);
  ps_pre : length (r_preGranted r) = length (r_peers r);
}.

(** Marks: which numbers are in play, whatever the log and hard state say. *)
Record marks_weak (r : Raft) : Prop := MkMarksWeak {
  mk_range : 0 ≤ r_dirtyMark r ≤ r_nextMark r;
  mk_last : 0 ≤ r_lastHandedMark r ≤ r_nextMark r;
  mk_bound : r_nextMark r < 2 ^ 64;
  mk_fresh : r_dirtyMark r ≠ 0 → r_markHandedOff r = false →
             r_lastHandedMark r < r_dirtyMark r;
  mk_handed : r_markHandedOff r = true →
              r_dirtyMark r = r_lastHandedMark r ∧ r_dirtyMark r ≠ 0;
  mk_acked : 0 ≤ r_persisted r ≤ r_lastHandedMark r;
  mk_hs : 0 ≤ r_hsMark r ≤ r_lastHandedMark r;
  mk_hs_live : r_hsMark r ≠ 0 → r_persisted r < r_hsMark r;
}.

(** Every piece of state that is not durable is covered by a mark: what has not
    been handed over by an open one, what has not been acknowledged by the
    current one; and an open mark that covers nothing has nothing to wait for. *)
Record marks_ok (r : Raft) : Prop := MkMarksOk {
  mk_weak : marks_weak r;
  mk_open : t_handed (r_tail r) < lastIndex r ∨ r_hardStateDirty r = true →
            r_dirtyMark r ≠ 0 ∧ r_markHandedOff r = false;
  mk_cover : t_persisted (r_tail r) < lastIndex r → r_dirtyMark r ≠ 0;
  mk_empty : r_dirtyMark r ≠ 0 → r_markHandedOff r = false →
             t_handed (r_tail r) = lastIndex r → r_hardStateDirty r = false →
             t_persisted (r_tail r) = lastIndex r;
}.

Record inv (r : Raft) : Prop := MkInv {
  inv_log : log_shape r;
  inv_peer : peer_shape r;
  inv_marks : marks_ok r;
}.

(** Room for the next mark: the counter is not at the end of its range, or the
    mark already open absorbs the next mutation. *)
Definition mark_room (r : Raft) : Prop :=
  r_nextMark r + 1 < 2 ^ 64 ∨ (r_dirtyMark r ≠ 0 ∧ r_markHandedOff r = false).

Record good (r : Raft) : Prop := MkGood { good_inv : inv r; good_room : mark_room r }.

(** Everything the invariant reads: an operation that leaves it alone keeps the
    invariant. *)
Definition core (r : Raft) :=
  ((r_log r, r_snapIndex r, r_baseConf r, r_conf r, r_peers r),
   (length (r_nextIndex r), length (r_matchIndex r), length (r_votesGranted r),
    length (r_votesDenied r), length (r_preGranted r)),
   (r_commitIndex r, r_appliedIdx r, r_tail r, r_markLastIdx r),
   (r_lastHandedMark r, r_hardStateDirty r, r_nextMark r, r_persisted r,
    r_dirtyMark r, r_hsMark r, r_markHandedOff r)).

Lemma lastIndex_ext r r' :
  r_log r' = r_log r → r_snapIndex r' = r_snapIndex r → lastIndex r' = lastIndex r.
Proof. intros H1 H2. unfold lastIndex. by rewrite H1, H2. Qed.

Lemma inv_core r r' : core r' = core r → inv r → inv r'.
Proof.
  intros Hc. unfold core in Hc. injection Hc as E1 E2 E3 E4 E5 E6 E7 E8 E9 E10 E11 E12 E13 E14
    E15 E16 E17 E18 E19 E20 E21.
  pose proof (lastIndex_ext r r' E1 E2) as EL.
  intros [[] [] [[] ? ? ?]].
  split; [|constructor; congruence|split; [split|..]]; rewrite ?EL, ?E1, ?E2, ?E3, ?E4, ?E5, ?E13,
    ?E14, ?E15, ?E16, ?E17, ?E18, ?E19, ?E20, ?E21; auto.
  split; rewrite ?EL, ?E1, ?E2, ?E3, ?E11, ?E12, ?E13, ?E14; auto.
Qed.

(** ** Operations that leave the core alone *)

Lemma slice_set_length {A} (xs ys : list A) i x :
  slice_set xs i x = Some ys → length ys = length xs.
Proof. unfold slice_set. case_test; [|done]. intros [= <-]. apply length_insert. Qed.

Lemma slice_set_total {A} (xs : list A) i x :
  (i < length xs)%nat → ∃ ys, slice_set xs i x = Some ys.
Proof. intros H. unfold slice_set. apply Nat.ltb_lt in H. rewrite H. eauto. Qed.

Lemma core_sendGatedOn a b m r : core (sendGatedOn a b m r) = core r.
Proof. unfold sendGatedOn. by case_test. Qed.
Lemma core_sendGated m r : core (sendGated m r) = core r.
Proof. apply core_sendGatedOn. Qed.
Lemma core_release r : core (release r) = core r.
Proof. done. Qed.
Lemma core_send m r r' : send m r = Some r' → core r' = core r.
Proof. unfold send. destruct (m_Type m); try done; by intros [= <-]. Qed.

Lemma core_next_set r i x ns :
  slice_set (r_nextIndex r) i x = Some ns → core (r <| r_nextIndex := ns |>) = core r.
Proof. intros H%slice_set_length. unfold core. cbn. by rewrite H. Qed.

Lemma core_sendSnapshot to r r' : sendSnapshot to r = Some r' → core r' = core r.
Proof.
  unfold sendSnapshot. case_test; [by intros [= <-]|].
  destruct (peerIdx _ to); [|by intros [= <-]].
  intros (ns & Hns & [= <-])%bind_Some. by rewrite (core_next_set _ _ _ _ Hns).
Qed.

Lemma core_sendAppend to r r' : sendAppend to r = Some r' → core r' = core r.
Proof.
  unfold sendAppend. destruct (peerIdx r to); [|by intros [= <-]].
  intros (next & Hnext & H)%bind_Some. repeat case_test_in H;
    first [by eapply core_sendSnapshot
          |apply bind_Some in H as (es & _ & [= <-]); apply core_sendGated].
Qed.

Lemma core_foldM {A} (f : Raft → A → option Raft) r xs r' :
  (∀ r x r', f r x = Some r' → core r' = core r) → foldM f r xs = Some r' → core r' = core r.
Proof.
  intros Hf. eapply (foldM_inv (λ s, core s = core r)); [done|].
  intros s x s' Hs Hx. by rewrite (Hf _ _ _ Hx).
Qed.

Lemma core_broadcastAppend r r' : broadcastAppend r = Some r' → core r' = core r.
Proof.
  apply core_foldM. intros s p s'. case_test; [by intros [= <-]|apply core_sendAppend].
Qed.

Lemma core_foldl {A} (f : Raft → A → Raft) r xs :
  (∀ r x, core (f r x) = core r) → core (foldl f r xs) = core r.
Proof.
  intros Hf. revert r. induction xs as [|x xs IH]; intros r; simpl; [done|].
  by rewrite IH, Hf.
Qed.

Lemma core_maybeConfirmReads r : core (maybeConfirmReads r) = core r.
Proof.
  assert (H : ∀ qs acc, core (fst (foldl confirmOne acc qs)) = core (fst acc)).
  { induction qs as [|q qs IH]; intros [s kept]; simpl; [done|].
    rewrite IH. unfold confirmOne. repeat case_test; simpl; try done.
    apply core_sendGated. }
  unfold maybeConfirmReads. destruct (r_pendingReads r) as [|q qs]; [done|].
  specialize (H (q :: qs) (r, [])).
  destruct (foldl confirmOne (r, []) (q :: qs)) as [r' kept]. exact H.
Qed.

Lemma core_recordRead q r : core (recordRead q r) = core r.
Proof. unfold recordRead. by rewrite core_maybeConfirmReads. Qed.
Lemma core_confirmRead n r : core (confirmRead n r) = core r.
Proof. unfold confirmRead. by rewrite core_maybeConfirmReads. Qed.

(** ** Marks *)

Lemma good_core r r' : core r' = core r → good r → good r'.
Proof.
  intros Hc [Hi Hr]. split; [by eapply inv_core|].
  unfold core in Hc. injection Hc. unfold mark_room in *. intros. intuition congruence.
Qed.

Lemma dirty_weak r : marks_weak r → mark_room r → marks_weak (dirty r).
Proof.
  intros Hw Hroom. pose proof Hw as [].
  unfold dirty. destruct ((r_dirtyMark r =? 0) || r_markHandedOff r) eqn:E; [|done].
  assert (r_nextMark r + 1 < 2 ^ 64).
  { destruct Hroom as [?|[Hd Hh]]; [done|]. rewrite Hh, orb_false_r in E. by bool_hyps. }
  rewrite (add64_small _ 1) by lia. split; cbn; try lia; done.
Qed.

Lemma dirty_open r :
  marks_weak r → mark_room r → r_dirtyMark (dirty r) ≠ 0 ∧ r_markHandedOff (dirty r) = false.
Proof.
  intros [] Hroom. unfold dirty.
  destruct ((r_dirtyMark r =? 0) || r_markHandedOff r) eqn:E; [|by bool_hyps].
  destruct Hroom as [?|[Hd Hh]].
  - rewrite (add64_small _ 1) by lia. cbn. auto with lia.
  - rewrite Hh, orb_false_r in E. by bool_hyps.
Qed.

Lemma dirty_room r : marks_weak r → mark_room r → mark_room (dirty r).
Proof. intros. right. by apply dirty_open. Qed.

(** The fields [dirty] leaves alone. *)
Lemma dirty_frame r :
  r_log (dirty r) = r_log r ∧ r_snapIndex (dirty r) = r_snapIndex r
  ∧ r_tail (dirty r) = r_tail r ∧ r_hardStateDirty (dirty r) = r_hardStateDirty r.
Proof. unfold dirty. by case_test. Qed.

Lemma dirty_marks_ok r :
  marks_weak r → mark_room r →
  (r_hardStateDirty r = true ∨ t_handed (r_tail r) < lastIndex r
   ∨ t_persisted (r_tail r) = lastIndex r) →
  marks_ok (dirty r).
Proof.
  intros Hw Hroom Hcov. destruct (dirty_open r Hw Hroom) as [Hd Hh].
  destruct (dirty_frame r) as (El & Es & Et & Eh).
  pose proof (lastIndex_ext r (dirty r) El Es) as EL.
  split; [by apply dirty_weak|auto|auto|].
  rewrite Et, Eh, EL. intros _ _ Heq Hhs. destruct Hcov as [?|[?|?]]; [congruence|lia|done].
Qed.

Lemma dirty_log_shape r : log_shape r → log_shape (dirty r).
Proof. intros []. unfold dirty. case_test; by split. Qed.
Lemma dirty_peer_shape r : peer_shape r → peer_shape (dirty r).
Proof. intros []. unfold dirty. case_test; by split. Qed.

Lemma good_set_hs t v r :
  good r → good (dirty (r <| r_term := t |> <| r_vote := v |> <| r_hardStateDirty := true |>)).
Proof.
  intros [[[] [] [[] ? ? ?]] Hroom]. set (r' := r <| r_term := t |> <| r_vote := v |>
    <| r_hardStateDirty := true |>).
  assert (Hw : marks_weak r') by by split.
  split; [split|].
  - apply dirty_log_shape. by split.
  - apply dirty_peer_shape. by split.
  - apply dirty_marks_ok; [done|done|by left].
  - by apply dirty_room.
Qed.

Lemma good_setTermAndVote t v r : good r → good (setTermAndVote t v r).
Proof. intros. unfold setTermAndVote. case_test; [by apply good_set_hs|done]. Qed.

Lemma good_setVote v r : good r → good (setVote v r).
Proof.
  intros Hi. unfold setVote. case_test; [|done].
  pose proof (good_set_hs (r_term r) v r Hi) as H. eapply good_core; [|exact H].
  unfold core, dirty. cbn. by destruct ((r_dirtyMark r =? 0) || r_markHandedOff r).
Qed.

Lemma good_becomeFollower t v r : good r → good (becomeFollower t v r).
Proof.
  intros. unfold becomeFollower. case_test; [|by apply (good_core r)].
  by apply (good_core (setTermAndVote t v r)); [|apply good_setTermAndVote].
Qed.

(** ** Changing the log *)

Lemma peer_shape_setConf c r :
  c = confOf (r_log r) (r_baseConf r) → peer_shape (setConf c r).
Proof. intros ->. split; cbn; rewrite ?length_fmap; done. Qed.

Lemma peer_shape_recomputeConf r : peer_shape (recomputeConf r).
Proof.
  unfold recomputeConf. destruct (replayConf _ _ _) as [c ref] eqn:E.
  apply peer_shape_setConf. cbn. unfold confOf.
  rewrite (replayConf_fst _ _ None (r_confRefusal r)). by rewrite E.
Qed.

(** The fields of the log and of the marks that recomputing leaves alone. *)
Lemma recomputeConf_frame r :
  let r' := recomputeConf r in
  (r_log r', r_snapIndex r', r_baseConf r', r_commitIndex r', r_appliedIdx r', r_tail r',
   r_markLastIdx r') =
  (r_log r, r_snapIndex r, r_baseConf r, r_commitIndex r, r_appliedIdx r, r_tail r,
   r_markLastIdx r) ∧
  (r_lastHandedMark r', r_hardStateDirty r', r_nextMark r', r_persisted r', r_dirtyMark r',
   r_hsMark r', r_markHandedOff r', r_term r', r_vote r', r_id r') =
  (r_lastHandedMark r, r_hardStateDirty r, r_nextMark r, r_persisted r, r_dirtyMark r,
   r_hsMark r, r_markHandedOff r, r_term r, r_vote r, r_id r).
Proof. unfold recomputeConf. by destruct (replayConf _ _ _) as [c ref]. Qed.

Lemma recomputeConf_log_shape r : log_shape r → log_shape (recomputeConf r).
Proof.
  intros []. pose proof (recomputeConf_frame r) as [H1 _].
  injection H1 as E1 E2 E3 E4 E5 E6 E7.
  pose proof (lastIndex_ext r (recomputeConf r) E1 E2) as EL.
  split; rewrite ?EL, ?E1, ?E2, ?E3, ?E4, ?E5, ?E6, ?E7; done.
Qed.

Lemma recomputeConf_weak r : marks_weak r → marks_weak (recomputeConf r).
Proof.
  intros []. pose proof (recomputeConf_frame r) as [_ H].
  injection H as E1 E2 E3 E4 E5 E6 E7 _ _ _.
  split; rewrite ?E1, ?E2, ?E3, ?E4, ?E5, ?E6, ?E7; done.
Qed.

Lemma appendOne_spec r e r' :
  appendOne r e = Some r' →
  e_Index e = add64 (lastIndex r) 1 ∧ r' = r <| r_log := r_log r ++ [e] |>.
Proof. unfold appendOne. case_test; [done|]. intros [= <-]. auto. Qed.

(** What survives between the append and the bookkeeping that follows it. *)
Record pre_append (r : Raft) : Prop := MkPreAppend {
  pa_log : log_shape r;
  pa_peer : peer_shape r;
  pa_weak : marks_weak r;
  pa_room : mark_room r;
}.

Lemma good_pre_append r : good r → pre_append r.
Proof. intros [[Hl Hp [Hw _ _ _]] ?]. by split. Qed.

Lemma log_shape_snoc r e :
  log_shape r → lastIndex r + 1 < 2 ^ 64 → e_Index e = add64 (lastIndex r) 1 →
  log_shape (r <| r_log := r_log r ++ [e] |>)
  ∧ lastIndex (r <| r_log := r_log r ++ [e] |>) = lastIndex r + 1.
Proof.
  intros [] Hroom He. pose proof (lastIndex_length r ls_log0) as HL.
  rewrite add64_small in He by lia.
  assert (Hlog : log_ok (r_snapIndex r) (r_log r ++ [e])) by (apply log_ok_snoc; [done|lia]).
  assert (HL' : lastIndex (r <| r_log := r_log r ++ [e] |>) = lastIndex r + 1).
  { rewrite lastIndex_length by exact Hlog. cbn. rewrite length_app. simpl. lia. }
  split; [|done]. split; rewrite ?HL'; cbn; auto; lia.
Qed.

(** One appended entry: the state after the whole of [appendEntries [e]]. *)
Lemma appendEntries_one r e :
  pre_append r → lastIndex r + 1 < 2 ^ 64 → e_Index e = add64 (lastIndex r) 1 →
  ∃ r', appendEntries [e] r = Some r' ∧ good r' ∧ lastIndex r' = lastIndex r + 1
        ∧ r_log r' = r_log r ++ [e] ∧ r_snapIndex r' = r_snapIndex r
        ∧ r_commitIndex r' = r_commitIndex r.
Proof.
  intros [Hl Hp Hw Hm] Hroom He. unfold appendEntries. cbn [foldM].
  unfold appendOne. rewrite He, Z.eqb_refl. cbn [negb mbind option_bind].
  destruct (log_shape_snoc r e Hl Hroom He) as [Hl' HL'].
  set (r1 := r <| r_log := r_log r ++ [e] |>) in *.
  assert (Hw1 : marks_weak r1) by (destruct Hw; by split).
  set (r2 := if existsb is_conf_entry [e] then recomputeConf r1 else r1).
  assert (H2 : log_shape r2 ∧ peer_shape r2 ∧ marks_weak r2 ∧ mark_room r2
               ∧ r_log r2 = r_log r1 ∧ r_snapIndex r2 = r_snapIndex r1
               ∧ r_tail r2 = r_tail r1 ∧ r_commitIndex r2 = r_commitIndex r1).
  { unfold r2. destruct (existsb is_conf_entry [e]) eqn:Ec.
    - pose proof (recomputeConf_frame r1) as [F1 F2].
      injection F1 as F11 F12 F13 F14 F15 F16 F17. injection F2 as F21 F22 F23 F24 F25 F26 F27 _ _ _.
      split_and!; auto using recomputeConf_log_shape, peer_shape_recomputeConf, recomputeConf_weak.
      unfold mark_room in *. rewrite F23, F25, F27. done.
    - split_and!; try done. destruct Hp. split; try done. cbn.
      by rewrite confOf_app, (confOf_no_conf [e]). }
  destruct H2 as (Hl2 & Hp2 & Hw2 & Hn2 & El2 & Es2 & Et2 & Ec2).
  pose proof (lastIndex_ext r1 r2 El2 Es2) as EL2.
  destruct (dirty_frame r2) as (El & Es & _ & _).
  exists (dirty r2). split; [done|]. split_and!.
  - split; [|by apply dirty_room].
    split; [by apply dirty_log_shape|by apply dirty_peer_shape|].
    apply dirty_marks_ok; [done|done|]. right; left. rewrite Et2, EL2, HL'.
    destruct Hl. cbn. lia.
  - rewrite (lastIndex_ext r2 (dirty r2)), EL2 by done. done.
  - by rewrite El, El2.
  - by rewrite Es, Es2.
  - unfold dirty. case_test; cbn; done.
Qed.

Lemma truncateFrom_spec r i :
  pre_append r → r_snapIndex r < i ≤ lastIndex r → r_commitIndex r < i →
  ∃ r', truncateFrom i r = Some r' ∧ pre_append r' ∧ lastIndex r' = i - 1
        ∧ r_log r' = take (Z.to_nat (i - r_snapIndex r - 1)) (r_log r)
        ∧ r_snapIndex r' = r_snapIndex r ∧ r_commitIndex r' = r_commitIndex r.
Proof.
  intros [Hl Hp Hw Hm] Hi Hc. pose proof Hl as [].
  unfold truncateFrom. rewrite Z.gtb_ltb, Z.geb_leb.
  replace ((i <? 1) || (lastIndex r <? i)) with false by lia.
  replace (i <=? r_commitIndex r) with false by lia.
  replace (i <=? r_snapIndex r) with false by lia.
  assert (Hpos : pos r i = Some (Z.to_nat (i - r_snapIndex r - 1))) by (apply pos_spec; auto).
  rewrite Hpos. cbn [mbind option_bind].
  set (k := Z.to_nat (i - r_snapIndex r - 1)). set (r1 := r <| r_log := _ |> <| r_tail := _ |>
    <| r_markLastIdx := _ |> <| r_gated := _ |>).
  assert (Hlog : log_ok (r_snapIndex r) (take k (r_log r))) by (by apply log_ok_take).
  assert (HL : lastIndex r1 = i - 1).
  { rewrite lastIndex_length by exact Hlog. cbn. rewrite length_take.
    rewrite lastIndex_length in Hi by done. unfold k. lia. }
  assert (Hl1 : log_shape r1).
  { split; rewrite ?HL; cbn; auto; try lia; repeat case_test; rewrite ?ls_markLast0 in *; lia. }
  assert (Hw1 : marks_weak r1) by (destruct Hw; by split).
  pose proof (recomputeConf_frame r1) as [F1 F2].
  injection F1 as F11 F12 F13 F14 F15 F16 F17. injection F2 as F21 F22 F23 F24 F25 F26 F27 _ _ _.
  exists (recomputeConf r1). split; [done|]. split_and!.
  - split; auto using recomputeConf_log_shape, peer_shape_recomputeConf, recomputeConf_weak.
    unfold mark_room in *. by rewrite F23, F25, F27.
  - rewrite (lastIndex_ext r1 (recomputeConf r1)) by done. done.
  - by rewrite F11.
  - by rewrite F12.
  - by rewrite F14.
Qed.

(** A truncation that returns did not cut a committed entry. *)
Lemma truncateFrom_committed r i r' :
  truncateFrom i r = Some r' → 1 ≤ i ≤ lastIndex r →
  r_commitIndex r < i ∧ r_snapIndex r < i.
Proof.
  unfold truncateFrom. rewrite Z.gtb_ltb, Z.geb_leb. intros H Hi.
  repeat case_test_in H; bool_cases; try done; lia.
Qed.

(** The entries at or below index [i]. *)
Definition upto (r : Raft) (i : Index) : list Entry :=
  take (Z.to_nat (i - r_snapIndex r)) (r_log r).

(** One entry of an append: already held at the same term, or the log becomes
    its prefix below the entry followed by the entry -- and then nothing
    committed was cut. *)
Lemma stepApp_entry_spec s e s' :
  good s → r_snapIndex s < e_Index e ≤ lastIndex s + 1 → e_Index e < 2 ^ 64 →
  stepApp_entry s e = Some s' →
  (s' = s ∧ e_Index e ≤ lastIndex s ∧ termAt s (e_Index e) = e_Term e)
  ∨ (good s' ∧ r_commitIndex s < e_Index e ∧ lastIndex s' = e_Index e
     ∧ r_log s' = upto s (e_Index e - 1) ++ [e]
     ∧ r_snapIndex s' = r_snapIndex s ∧ r_commitIndex s' = r_commitIndex s).
Proof.
  intros Hg Hi Hb. pose proof Hg as [[Hl _ _] _]. pose proof Hl as [].
  unfold stepApp_entry. case_test; [case_test|].
  - intros [= <-]. auto.
  - intros (s1 & H1 & H2)%bind_Some. right.
    destruct (truncateFrom_committed _ _ _ H1) as [Hc Hs]; [lia|].
    destruct (truncateFrom_spec s (e_Index e)) as (s1' & H1' & Hpa & HL1 & Hlog1 & Hs1 & Hc1);
      [by apply good_pre_append|lia|lia|].
    rewrite H1 in H1'. injection H1' as <-.
    destruct (appendEntries_one s1 e) as (s2 & H2' & Hg2 & HL2 & Hlog2 & Hs2 & Hc2);
      [done|lia|rewrite add64_small; lia|]. simplify_eq.
    split_and!; try done; try lia.
    + rewrite Hlog2, Hlog1. unfold upto.
      by replace (e_Index e - 1 - r_snapIndex s) with (e_Index e - r_snapIndex s - 1) by lia.
  - intros H. right.
    destruct (appendEntries_one s e) as (s2 & H2' & Hg2 & HL2 & Hlog2 & Hs2 & Hc2);
      [by apply good_pre_append|lia|rewrite add64_small; lia|]. simplify_eq.
    split_and!; try done; try lia. rewrite Hlog2. f_equal. unfold upto.
    rewrite take_ge; [done|]. rewrite lastIndex_length in E by done. lia.
Qed.

Lemma upto_upto s s' i j :
  r_snapIndex s' = r_snapIndex s → j ≤ i → r_snapIndex s ≤ j →
  log_ok (r_snapIndex s) (r_log s) → i ≤ lastIndex s →
  (∃ tl, r_log s' = upto s i ++ tl) → upto s' j = upto s j.
Proof.
  intros Hs Hji Hj Hlog Hi [tl Htl]. unfold upto in *. rewrite Hs, Htl.
  rewrite lastIndex_length in Hi by done.
  rewrite take_app_le by (rewrite length_take; lia).
  rewrite take_take. f_equal. lia.
Qed.

Lemma stepApp_entry_good s e s' :
  good s → r_snapIndex s < e_Index e ≤ lastIndex s + 1 → e_Index e < 2 ^ 64 →
  stepApp_entry s e = Some s' →
  good s' ∧ e_Index e ≤ lastIndex s' ∧ r_snapIndex s' = r_snapIndex s
  ∧ r_commitIndex s' = r_commitIndex s
  ∧ termAt s' (e_Index e) = e_Term e
  ∧ (∀ j, r_snapIndex s ≤ j < e_Index e → upto s' j = upto s j)
  ∧ upto s' (r_commitIndex s) = upto s (r_commitIndex s).
Proof.
  intros Hg Hi Hb H. pose proof Hg as [[Hl _ _] _]. pose proof Hl as [].
  destruct (stepApp_entry_spec s e s' Hg Hi Hb H) as
    [(-> & HL & Ht)|(Hg' & Hc & HL & Hlog & Hs & Hcm)]; [by split_and!|].
  split_and!; try done; try lia.
  - unfold termAt. case_test; [lia|]. case_test; [lia|].
    destruct (at_ s' (e_Index e)) as [x|] eqn:Ex.
    + apply at_spec in Ex as [_ Hx]; [|apply Hg'].
      rewrite Hlog, Hs in Hx. rewrite lookup_app_r in Hx.
      * apply list_lookup_singleton_Some in Hx as [_ ->]. done.
      * unfold upto. rewrite length_take. lia.
    + destruct (at_total s' ltac:(apply Hg') (e_Index e)) as [x Hx]; [lia|congruence].
  - intros j Hj. eapply (upto_upto s s' (e_Index e - 1)); try done; try lia. by exists [e].
  - eapply (upto_upto s s' (e_Index e - 1)); try done; try lia. by exists [e].
Qed.

(** ** Accepting an append *)

Lemma at_upto s i e :
  log_ok (r_snapIndex s) (r_log s) → r_snapIndex s < i →
  at_ s i = Some e ↔ upto s i !! Z.to_nat (i - r_snapIndex s - 1) = Some e.
Proof.
  intros Hlog Hi. rewrite at_spec by done. unfold upto. rewrite lookup_take.
  case_decide; [tauto|lia].
Qed.

Lemma termAt_upto s s' i :
  log_ok (r_snapIndex s) (r_log s) → log_ok (r_snapIndex s') (r_log s') →
  r_snapIndex s' = r_snapIndex s → r_snapIndex s < i → 0 < i →
  upto s' i = upto s i → termAt s' i = termAt s i.
Proof.
  intros H H' Hs Hi H0 Hu. unfold termAt. rewrite Hs.
  replace (i =? 0) with false by lia. replace (i =? r_snapIndex s) with false by lia.
  assert (Hat : at_ s' i = at_ s i); [|by rewrite Hat].
  apply option_eq. intros e. rewrite !at_upto by (done || lia). by rewrite Hs, Hu.
Qed.

(** What the append loop establishes, entry by entry. *)
Lemma stepApp_loop es prev s s' :
  good s → log_ok prev es → r_snapIndex s ≤ prev ≤ lastIndex s →
  prev + Z.of_nat (length es) < 2 ^ 64 →
  foldM stepApp_entry s es = Some s' →
  good s' ∧ prev + Z.of_nat (length es) ≤ lastIndex s' ∧ r_snapIndex s' = r_snapIndex s
  ∧ r_commitIndex s' = r_commitIndex s
  ∧ (∀ e, e ∈ es → termAt s' (e_Index e) = e_Term e)
  ∧ upto s' prev = upto s prev ∧ upto s' (r_commitIndex s) = upto s (r_commitIndex s).
Proof.
  revert prev s. induction es as [|e es IH]; intros prev s Hg Hes Hprev Hlen; cbn [foldM].
  { intros [= <-]. split_and!; try done; [simpl; lia|]. intros e. by rewrite elem_of_nil. }
  intros (s1 & H1 & H2)%bind_Some. simpl in Hlen.
  assert (He : e_Index e = prev + 1) by (rewrite (Hes 0%nat e); [lia|done]).
  destruct Hg as [Hinv Hr]. pose proof Hinv as [[] _ _].
  destruct (stepApp_entry_good s e s1) as (Hg1 & HL1 & Hs1 & Hc1 & Ht1 & Hu1 & Huc1);
    [by split|lia|lia|done|].
  assert (Hes' : log_ok (prev + 1) es).
  { intros k x Hx. specialize (Hes (S k) x Hx). lia. }
  destruct (IH (prev + 1) s1) as (Hg' & HL' & Hs' & Hc' & Ht' & Hu' & Huc');
    [done|done|lia|lia|done|].
  split_and!; try done; try congruence; simpl; try lia.
  - intros x [->|Hx]%elem_of_cons; [|by apply Ht'].
    rewrite <- Ht1. apply termAt_upto; try apply Hg1; try apply Hg'; try lia.
    rewrite He, Hu'. done.
  - rewrite <- (Hu1 prev) by lia. pose proof Hg1 as [[[] _ _] _].
    eapply (upto_upto s1 s' (prev + 1)); try done; try lia.
    exists (drop (Z.to_nat (prev + 1 - r_snapIndex s1)) (r_log s')).
    rewrite <- Hu'. unfold upto. rewrite Hs'. symmetry. apply take_drop.
Qed.

Lemma stepApp_entry_total s e :
  good s → r_snapIndex s < e_Index e ≤ lastIndex s + 1 → e_Index e < 2 ^ 64 →
  (e_Index e ≤ r_commitIndex s → termAt s (e_Index e) = e_Term e) →
  ∃ s', stepApp_entry s e = Some s'.
Proof.
  intros Hg Hi Hb Hcom. pose proof Hg as [[[] _ _] _]. unfold stepApp_entry.
  case_test; [case_test; [eauto|]|].
  - destruct (truncateFrom_spec s (e_Index e)) as (s1 & -> & Hpa & HL1 & _);
      [by apply good_pre_append|lia|lia|]. cbn [mbind option_bind].
    destruct (appendEntries_one s1 e) as (s2 & -> & _); eauto; [lia|]. rewrite add64_small; lia.
  - destruct (appendEntries_one s e) as (s2 & -> & _);
      [by apply good_pre_append|lia|rewrite add64_small; lia|eauto].
Qed.

(** The committed entries of the log agree with the ones an append carries:
    what the election restriction guarantees of a legitimate leader. *)
Definition agrees_committed (es : list Entry) (s : Raft) : Prop :=
  ∀ e, e ∈ es → e_Index e ≤ r_commitIndex s → termAt s (e_Index e) = e_Term e.

Lemma stepApp_loop_total es prev s :
  good s → log_ok prev es → r_snapIndex s ≤ prev ≤ lastIndex s →
  prev + Z.of_nat (length es) < 2 ^ 64 → agrees_committed es s →
  ∃ s', foldM stepApp_entry s es = Some s'.
Proof.
  revert prev s. induction es as [|e es IH]; intros prev s Hg Hes Hprev Hlen Hag; cbn [foldM];
    [eauto|]. simpl in Hlen.
  assert (He : e_Index e = prev + 1) by (rewrite (Hes 0%nat e); [lia|done]).
  pose proof Hg as [[[] _ _] _].
  destruct (stepApp_entry_total s e) as [s1 H1];
    [done|lia|lia|apply Hag; left|]. rewrite H1. cbn [mbind option_bind].
  destruct (stepApp_entry_good s e s1) as (Hg1 & HL1 & Hs1 & Hc1 & Ht1 & Hu1 & Huc1);
    [done|lia|lia|done|].
  assert (Hes' : log_ok (prev + 1) es).
  { intros k x Hx. specialize (Hes (S k) x Hx). lia. }
  apply (IH (prev + 1)); [done|done|lia|lia|].
  intros x Hx Hle. rewrite Hc1 in Hle. rewrite <- (Hag x); [|by right|done].
  apply list_elem_of_lookup in Hx as [k Hk]. apply Hes' in Hk.
  apply termAt_upto; try apply Hg1; try done; try lia.
  destruct (stepApp_entry_spec s e s1 Hg) as [(-> & _)|(_ & Hc & _)]; try done; lia.
Qed.

(** What a change of hard state leaves alone. *)
Definition hs_frame (r r' : Raft) : Prop :=
  r_id r' = r_id r ∧ r_log r' = r_log r ∧ r_snapIndex r' = r_snapIndex r
  ∧ r_snapTerm r' = r_snapTerm r ∧ r_snapMark r' = r_snapMark r
  ∧ r_commitIndex r' = r_commitIndex r ∧ r_tail r' = r_tail r ∧ r_conf r' = r_conf r
  ∧ r_peers r' = r_peers r ∧ r_gated r' = r_gated r ∧ r_msgs r' = r_msgs r.

Lemma hs_frame_setTermAndVote t v r : hs_frame r (setTermAndVote t v r).
Proof. unfold setTermAndVote, dirty, hs_frame. repeat case_test; done. Qed.
Lemma hs_frame_becomeFollower t v r : hs_frame r (becomeFollower t v r).
Proof.
  unfold becomeFollower. case_test; [|done].
  pose proof (hs_frame_setTermAndVote t v r) as H. unfold hs_frame in *. by cbn.
Qed.

Lemma matches_ext r r' i t :
  r_log r' = r_log r → r_snapIndex r' = r_snapIndex r → r_snapTerm r' = r_snapTerm r →
  matches_ r' i t = matches_ r i t.
Proof.
  intros H1 H2 H3. unfold matches_, termAt, at_, pos.
  by rewrite (lastIndex_ext r r' H1 H2), H1, H2, H3.
Qed.

Lemma matches_range r i t :
  matches_ r i t = true → 0 ≤ i → 0 ≤ r_snapIndex r → r_snapIndex r ≤ lastIndex r →
  r_snapIndex r ≤ i ≤ lastIndex r.
Proof.
  unfold matches_. rewrite Z.gtb_ltb. repeat case_test; intros; bool_hyps; try done; lia.
Qed.

(** An append request as a leader builds it: its entries run gaplessly from just
    above the previous index, and it does not claim commitment past them. *)
Record app_ok (m : Message) : Prop := MkAppOk {
  ao_prev : 0 ≤ m_PrevLogIndex m;
  ao_run : log_ok (m_PrevLogIndex m) (m_Entries m);
  ao_bound : m_PrevLogIndex m + Z.of_nat (length (m_Entries m)) < 2 ^ 64;
  ao_commit : m_LeaderCommit m ≤ m_PrevLogIndex m + Z.of_nat (length (m_Entries m));
}.

Definition app_last (m : Message) : Index :=
  m_PrevLogIndex m + Z.of_nat (length (m_Entries m)).

(** The marks an index needs are always known. *)
Lemma marksFor_total r i : inv r → i ≤ lastIndex r → ∃ ms, marksFor r i = Some ms.
Proof.
  intros [[] _ []] Hi. unfold marksFor. repeat case_test; eauto.
  exfalso. apply mk_cover0; [lia|done].
Qed.

Lemma inv_set_commit r c :
  inv r → r_commitIndex r ≤ c ≤ lastIndex r → inv (r <| r_commitIndex := c |>).
Proof.
  intros [[] [] [[] ? ? ?]] Hc. split; [|by split|split; [by split|done..]].
  split; try done; cbn; try lia.
  change (lastIndex (r <| r_commitIndex := c |>)) with (lastIndex r). lia.
Qed.

Lemma good_set_commit r c :
  good r → r_commitIndex r ≤ c ≤ lastIndex r → good (r <| r_commitIndex := c |>).
Proof. intros [Hi Hr] Hc. split; [by apply inv_set_commit|done]. Qed.

Lemma good_reset_follower m r :
  good r → good (r <| r_leader := m |> <| r_electionElapsed := 0 |>).
Proof. by apply good_core. Qed.

(** The state in which [stepApp] starts examining an append it does not reject
    by term. *)
Definition appFollower (m : Message) (r : Raft) : Raft :=
  becomeFollower (m_Term m) (r_vote r) r <| r_leader := m_From m |> <| r_electionElapsed := 0 |>.

Lemma appFollower_good m r : good r → good (appFollower m r).
Proof. intros. unfold appFollower. by apply good_reset_follower, good_becomeFollower. Qed.

Lemma appFollower_frame m r : hs_frame r (appFollower m r).
Proof.
  unfold appFollower. pose proof (hs_frame_becomeFollower (m_Term m) (r_vote r) r) as H.
  unfold hs_frame in *. by cbn.
Qed.

Lemma agrees_committed_ext es s s' :
  r_log s' = r_log s → r_snapIndex s' = r_snapIndex s → r_snapTerm s' = r_snapTerm s →
  r_commitIndex s' = r_commitIndex s → agrees_committed es s → agrees_committed es s'.
Proof.
  intros H1 H2 H3 H4 Ha e He Hc. rewrite H4 in Hc. rewrite <- (Ha e He Hc).
  unfold termAt, at_, pos. by rewrite (lastIndex_ext s s' H1 H2), H1, H2, H3.
Qed.

(** [stepApp] past its term check. *)
Lemma stepApp_unfold m r :
  r_term r ≤ m_Term m →
  stepApp m r =
  let f := appFollower m r in
  if negb (matches_ r (m_PrevLogIndex m) (m_PrevLogTerm m)) then
    Some (sendGated (mkmsg MsgAppResp (r_id f) (m_From m) (r_term f)
                       <| m_Hint := lastIndex f |>) f)
  else
    s ← foldM stepApp_entry f (m_Entries m);
    let last := add64 (m_PrevLogIndex m) (Z.of_nat (length (m_Entries m))) in
    let s := if m_LeaderCommit m >? r_commitIndex s
             then s <| r_commitIndex := Z.min (m_LeaderCommit m) last |> else s in
    '(lm, sm) ← marksFor s last;
    Some (sendGatedOn lm sm (mkmsg MsgAppResp (r_id s) (m_From m) (r_term s)
                               <| m_Success := true |> <| m_MatchIndex := last |>) s).
Proof.
  intros Ht. destruct (appFollower_frame m r) as (_ & F1 & F2 & F3 & _).
  unfold stepApp. replace (m_Term m <? r_term r) with false by lia.
  cbv zeta. fold (appFollower m r). by rewrite (matches_ext r (appFollower m r) _ _ F1 F2 F3).
Qed.

(** The end of [stepApp], once its loop has returned. *)
Lemma stepApp_finish m r s :
  good s → app_ok m → app_last m ≤ lastIndex s → r_term r ≤ m_Term m →
  matches_ r (m_PrevLogIndex m) (m_PrevLogTerm m) = true →
  foldM stepApp_entry (appFollower m r) (m_Entries m) = Some s →
  ∃ r', stepApp m r = Some r' ∧ good r'
        ∧ r_log r' = r_log s ∧ r_snapIndex r' = r_snapIndex s ∧ r_snapTerm r' = r_snapTerm s
        ∧ r_commitIndex r' = Z.max (r_commitIndex s) (m_LeaderCommit m).
Proof.
  intros Hg [] HL Ht Hm Hloop. pose proof Hg as [[[] _ _] _].
  rewrite stepApp_unfold by done. cbv zeta. rewrite Hm, Hloop. cbn [negb mbind option_bind].
  rewrite add64_small by lia. rewrite Z.min_l, Z.gtb_ltb by done.
  set (s1 := if r_commitIndex s <? m_LeaderCommit m
             then s <| r_commitIndex := m_LeaderCommit m |> else s).
  assert (H1 : good s1 ∧ r_log s1 = r_log s ∧ r_snapIndex s1 = r_snapIndex s
               ∧ r_snapTerm s1 = r_snapTerm s
               ∧ r_commitIndex s1 = Z.max (r_commitIndex s) (m_LeaderCommit m)).
  { unfold s1, app_last in *. case_test; split_and!; try done; cbn; try lia.
    apply good_set_commit; [done|lia]. }
  destruct H1 as (Hg1 & E1 & E2 & E3 & E4).
  destruct (marksFor_total s1 (app_last m)) as [[lm sm] Hmk]; [apply Hg1| |].
  { by rewrite (lastIndex_ext s s1 E1 E2). }
  unfold app_last in Hmk. rewrite Hmk. cbn [mbind option_bind].
  eexists. split; [done|]. split; [eapply good_core; [apply core_sendGatedOn|done]|].
  unfold sendGatedOn. case_test; cbn; done.
Qed.

Lemma stepApp_accepted m r :
  good r → app_ok m → r_term r ≤ m_Term m →
  matches_ r (m_PrevLogIndex m) (m_PrevLogTerm m) = true →
  agrees_committed (m_Entries m) r →
  ∃ r', stepApp m r = Some r' ∧ good r'
        ∧ (∀ e, e ∈ m_Entries m → termAt r' (e_Index e) = e_Term e)
        ∧ upto r' (m_PrevLogIndex m) = upto r (m_PrevLogIndex m)
        ∧ upto r' (r_commitIndex r) = upto r (r_commitIndex r)
        ∧ r_commitIndex r' = Z.max (r_commitIndex r) (m_LeaderCommit m)
        ∧ app_last m ≤ lastIndex r'.
Proof.
  intros Hg Ha Ht Hm Hag. pose proof Ha as [].
  destruct (appFollower_frame m r) as (_ & F1 & F2 & F3 & _ & F4 & _).
  pose proof (appFollower_good m r Hg) as Hg0. pose proof Hg0 as [[[] _ _] _].
  pose proof (lastIndex_ext r (appFollower m r) F1 F2) as FL.
  apply matches_range in Hm as Hr; [|lia..]. rewrite <- F2, <- FL in Hr.
  destruct (stepApp_loop_total (m_Entries m) (m_PrevLogIndex m) (appFollower m r)) as [s Hs];
    [done|done|lia|done|by eapply agrees_committed_ext|].
  destruct (stepApp_loop (m_Entries m) (m_PrevLogIndex m) (appFollower m r) s)
    as (Hgs & HLs & Hss & Hcs & Hts & Hus & Hucs); [done|done|lia|done|done|].
  destruct (stepApp_finish m r s) as (r' & Hr' & Hg' & E1 & E2 & E3 & E4); try done.
  exists r'. split; [done|].
  assert (Hup : ∀ i, upto r' i = upto s i) by (intros; unfold upto; by rewrite E1, E2).
  assert (Hup0 : ∀ i, upto (appFollower m r) i = upto r i)
    by (intros; unfold upto; by rewrite F1, F2).
  split_and!; try done.
  - intros e He. rewrite <- (Hts e He). unfold termAt, at_, pos.
    by rewrite (lastIndex_ext s r' E1 E2), E1, E2, E3.
  - by rewrite Hup, Hus, Hup0.
  - rewrite <- F4. rewrite Hup, Hucs. by rewrite Hup0.
  - congruence.
  - by rewrite (lastIndex_ext s r' E1 E2).
Qed.

(** C7. Accepting an append: a node that shares the previous entry with the
    sender and whose committed entries the message does not contradict never
    panics, keeps its invariant, ends up holding every entry sent at its index
    and term, changes nothing at or below the previous index or its own commit
    index, and advances its commit index to the leader's, never back. *)
Theorem stepApp_accept m r :
  good r → app_ok m → r_term r ≤ m_Term m →
  matches_ r (m_PrevLogIndex m) (m_PrevLogTerm m) = true →
  agrees_committed (m_Entries m) r →
  ∃ r', stepApp m r = Some r' ∧ good r'
        ∧ (∀ e, e ∈ m_Entries m → termAt r' (e_Index e) = e_Term e)
        ∧ upto r' (m_PrevLogIndex m) = upto r (m_PrevLogIndex m)
        ∧ upto r' (r_commitIndex r) = upto r (r_commitIndex r)
        ∧ r_commitIndex r' = Z.max (r_commitIndex r) (m_LeaderCommit m)
        ∧ app_last m ≤ lastIndex r'.
Proof. apply stepApp_accepted. Qed.

(** Whatever the message and the outcome, an append that returns keeps the
    invariant and cuts nothing committed. *)
Lemma stepApp_good m r r' :
  good r → app_ok m → stepApp m r = Some r' →
  good r' ∧ r_commitIndex r ≤ r_commitIndex r' ∧ r_snapIndex r' = r_snapIndex r
  ∧ upto r' (r_commitIndex r) = upto r (r_commitIndex r).
Proof.
  intros Hg Ha H. destruct (decide (m_Term m < r_term r)) as [Ht|Ht].
  { unfold stepApp in H. replace (m_Term m <? r_term r) with true in H by lia.
    injection H as <-. split; [eapply good_core; [apply core_sendGated|done]|].
    unfold sendGated, sendGatedOn, upto. by case_test. }
  destruct (appFollower_frame m r) as (_ & F1 & F2 & F3 & _ & F4 & _).
  pose proof (appFollower_good m r Hg) as Hg0.
  destruct (matches_ r (m_PrevLogIndex m) (m_PrevLogTerm m)) eqn:Hm.
  - pose proof Ha as []. pose proof Hg0 as [[[] _ _] _].
    pose proof (lastIndex_ext r (appFollower m r) F1 F2) as FL.
    apply matches_range in Hm as Hr; [|lia..]. rewrite <- F2, <- FL in Hr.
    destruct (foldM stepApp_entry (appFollower m r) (m_Entries m)) as [s|] eqn:Hs.
    + destruct (stepApp_loop (m_Entries m) (m_PrevLogIndex m) (appFollower m r) s)
        as (Hgs & HLs & Hss & Hcs & Hts & Hus & Hucs); [done|done|lia|done|done|].
      destruct (stepApp_finish m r s) as (r1 & Hr1 & Hg1 & E1 & E2 & E3 & E4); try done; [lia|].
      rewrite H in Hr1. injection Hr1 as <-. split_and!; [done|lia|congruence|].
      unfold upto in *. by rewrite E1, E2, <- F4, Hucs, F1, F2.
    + rewrite stepApp_unfold in H by lia. cbv zeta in H. by rewrite Hm, Hs in H.
  - rewrite stepApp_unfold in H by lia. cbv zeta in H. rewrite Hm in H.
    revert F1 F2 F3 F4 Hg0 H. generalize (appFollower m r). intros f F1 F2 F3 F4 Hg0 H.
    apply (inj Some) in H. rewrite <- H. clear H.
    split; [eapply good_core; [apply core_sendGated|done]|].
    unfold sendGated, sendGatedOn, upto. case_test; cbn; rewrite F1, F2, F4; auto with lia.
Qed.
