(* ===== verification/RaftOps.v ===== *)
(** * Every operation keeps the invariant

    For each method of [*Raft]: it keeps the structural invariant of [RaftInv],
    never moves the commit or the snapshot index back, and never changes an
    entry that was committed ([kept]); and the panics it can reach are the ones
    named here.  The file ends with the operations put together as a step
    relation and the invariant of every reachable node. *)

From Stdlib Require Import Lia ZArith.
From stdpp Require Import base tactics numbers option list.
From S2P Require Import Prelude Bytes ConfChange RaftTypes Raft RaftInv.

(** ** What an operation may not do *)

Record ext (r r' : Raft) : Prop := MkExt {
  ext_commit : r_commitIndex r ≤ r_commitIndex r';
  ext_snap : r_snapIndex r ≤ r_snapIndex r';
  ext_at : ∀ i, r_snapIndex r' < i ≤ r_commitIndex r → at_ r' i = at_ r i;
}.

#[global] Instance ext_preorder : PreOrder ext.
Proof.
  split.
  - intros r. by split.
  - intros r1 r2 r3 [] []. split; [lia|lia|]. intros i Hi.
    rewrite ext_at1 by lia. apply ext_at0. lia.
Qed.

Record kept (r r' : Raft) : Prop := MkKept { kept_good : good r'; kept_ext : ext r r' }.

Lemma kept_trans r1 r2 r3 : kept r1 r2 → kept r2 r3 → kept r1 r3.
Proof. intros [? H1] [? H2]. split; [done|]. by etrans. Qed.

Lemma kept_refl r : good r → kept r r.
Proof. by split. Qed.

Lemma ext_log r r' :
  r_log r' = r_log r → r_snapIndex r' = r_snapIndex r → r_commitIndex r ≤ r_commitIndex r' →
  ext r r'.
Proof.
  intros H1 H2 H3. split; [done|lia|]. intros i _. unfold at_, pos.
  by rewrite (lastIndex_ext r r'), H1, H2.
Qed.

Lemma core_log r r' :
  core r' = core r →
  r_log r' = r_log r ∧ r_snapIndex r' = r_snapIndex r ∧ r_commitIndex r' = r_commitIndex r
  ∧ r_peers r' = r_peers r ∧ r_conf r' = r_conf r.
Proof. unfold core. intros [=]. done. Qed.

Lemma kept_core r r' : good r → core r' = core r → kept r r'.
Proof.
  intros Hg Hc. split; [by eapply good_core|].
  apply core_log in Hc as (? & ? & ? & _). apply ext_log; [done..|lia].
Qed.

Lemma kept_hs r r' : good r' → hs_frame r r' → kept r r'.
Proof.
  intros Hg (_ & ? & ? & _ & _ & ? & _). split; [done|]. apply ext_log; [done..|lia].
Qed.

Lemma kept_becomeFollower t v r : good r → kept r (becomeFollower t v r).
Proof.
  intros. apply kept_hs; [by apply good_becomeFollower|apply hs_frame_becomeFollower].
Qed.

Lemma kept_setTermAndVote t v r : good r → kept r (setTermAndVote t v r).
Proof.
  intros. apply kept_hs; [by apply good_setTermAndVote|apply hs_frame_setTermAndVote].
Qed.

Lemma hs_frame_setVote v r : hs_frame r (setVote v r).
Proof. unfold setVote, dirty, hs_frame. repeat case_test; done. Qed.

Lemma kept_setVote v r : good r → kept r (setVote v r).
Proof. intros. apply kept_hs; [by apply good_setVote|apply hs_frame_setVote]. Qed.

#[export] Hint Resolve kept_refl kept_becomeFollower kept_setTermAndVote kept_setVote : rift.

(** ** Peers *)

Lemma index_of_spec xs n : n ∈ xs ↔ is_Some (index_of xs n).
Proof.
  induction xs as [|x xs IH]; simpl.
  - rewrite elem_of_nil. split; [done|]. by intros [].
  - rewrite elem_of_cons. destruct (x =? n) eqn:E; bool_hyps.
    + split; [eauto|]. auto.
    + rewrite fmap_is_Some, <- IH. naive_solver.
Qed.

Lemma index_of_lookup xs n i : index_of xs n = Some i → xs !! i = Some n.
Proof.
  revert i. induction xs as [|x xs IH]; intros i; simpl; [done|].
  destruct (x =? n) eqn:E; bool_hyps.
  - intros [= <-]. by subst.
  - intros (j & Hj & ->)%fmap_Some. by apply IH.
Qed.

Lemma index_of_lt xs n i : index_of xs n = Some i → (i < length xs)%nat.
Proof. intros H%index_of_lookup. by eapply lookup_lt_Some. Qed.

(** A node of its own configuration. *)
Definition member (r : Raft) : Prop := r_id r ∈ r_peers r.

Lemma peer_slot {A} (xs : list A) r n i :
  peerIdx r n = Some i → length xs = length (r_peers r) → ∃ x, xs !! i = Some x.
Proof. intros Hi%index_of_lt Hl. apply lookup_lt_is_Some. lia. Qed.

Lemma peer_set {A} (xs : list A) x r n i :
  peerIdx r n = Some i → length xs = length (r_peers r) → ∃ ys, slice_set xs i x = Some ys.
Proof. intros Hi%index_of_lt Hl. apply slice_set_total. lia. Qed.

(** ** Replication *)

Lemma sendSnapshot_total to r :
  length (r_nextIndex r) = length (r_peers r) → ∃ r', sendSnapshot to r = Some r'.
Proof.
  intros Hl. unfold sendSnapshot. case_test; [eauto|].
  destruct (peerIdx _ to) as [i|] eqn:Ei; [|eauto]. cbn.
  destruct (peer_set (r_nextIndex r) (add64 (r_snapIndex r) 1) _ to i Ei Hl) as [ns ->].
  cbn. eauto.
Qed.

Lemma sendAppend_total to r : good r → ∃ r', sendAppend to r = Some r'.
Proof.
  intros [[[] [] _] _]. unfold sendAppend.
  destruct (peerIdx r to) as [i|] eqn:Ei; [|eauto].
  destruct (peer_slot (r_nextIndex r) r to i Ei ps_next) as [n ->]. cbn [mbind option_bind].
  set (n' := if n <? 1 then 1 else n).
  destruct (n' <=? r_snapIndex r) eqn:E; [by apply sendSnapshot_total|]. bool_hyps.
  case_test; [|cbn; eauto]. rewrite suffixFrom_spec by (done || lia). cbn. eauto.
Qed.

Lemma kept_sendAppend to r r' : good r → sendAppend to r = Some r' → kept r r'.
Proof. intros Hg H%core_sendAppend. by apply kept_core. Qed.

Lemma kept_broadcastAppend r r' : good r → broadcastAppend r = Some r' → kept r r'.
Proof. intros Hg H%core_broadcastAppend. by apply kept_core. Qed.

Lemma broadcastAppend_total r : good r → ∃ r', broadcastAppend r = Some r'.
Proof.
  intros Hg. destruct (foldM_total good
    (λ r p, if p =? r_id r then Some r else sendAppend p r) r (r_peers r) Hg) as (r' & H & _).
  - intros s p _ Hs. case_test; [eauto|].
    destruct (sendAppend_total p s Hs) as [s' Hs'].
    exists s'. split; [done|]. by eapply kept_sendAppend.
  - eauto.
Qed.

Lemma kept_sendGatedOn a b m r : good r → kept r (sendGatedOn a b m r).
Proof. intros. apply kept_core, core_sendGatedOn. done. Qed.
Lemma kept_sendGated m r : good r → kept r (sendGated m r).
Proof. apply kept_sendGatedOn. Qed.
#[export] Hint Resolve kept_sendGatedOn kept_sendGated : rift.

(** ** Commitment *)

Lemma core_becomeFollower_same v r : core (becomeFollower (r_term r) v r) = core r.
Proof. unfold becomeFollower. by rewrite Z.gtb_ltb, Z.ltb_irrefl. Qed.

Lemma core_stepDownIfRemoved r : core (stepDownIfRemoved r) = core r.
Proof.
  unfold stepDownIfRemoved. repeat case_test; try done.
  change (core (becomeFollower (r_term r) (r_vote r) r) = core r).
  apply core_becomeFollower_same.
Qed.

Lemma kept_set_commit c r :
  good r → r_commitIndex r ≤ c ≤ lastIndex r → kept r (r <| r_commitIndex := c |>).
Proof. intros Hg Hc. split; [by apply good_set_commit|]. apply ext_log; [done..|cbn; lia]. Qed.

(** Counting commits: the commit index moves up within the log, and nothing
    else the invariant reads changes. *)
Lemma maybeCommit_loop_core k r :
  ∃ c, r_commitIndex r ≤ c ≤ r_commitIndex r + Z.of_nat k
       ∧ core (maybeCommit_loop k r) = core (r <| r_commitIndex := c |>).
Proof.
  assert (Hsame : core r = core (r <| r_commitIndex := r_commitIndex r |>)) by done.
  induction k as [|k IH]; cbn [maybeCommit_loop]; [exists (r_commitIndex r); auto with lia|].
  destruct IH as (c & Hc & IH).
  assert (Hgo : ∃ c, r_commitIndex r ≤ c ≤ r_commitIndex r + Z.of_nat (S k)
     ∧ core (maybeCommit_loop k r) = core (r <| r_commitIndex := c |>)) by (exists c; auto with lia).
  do 2 (case_test; try done).
  exists (r_commitIndex r + Z.of_nat (S k)). split; [lia|]. apply core_stepDownIfRemoved.
Qed.

Lemma maybeCommit_core r :
  r_commitIndex r ≤ lastIndex r →
  ∃ c, r_commitIndex r ≤ c ≤ lastIndex r
       ∧ core (maybeCommit r) = core (r <| r_commitIndex := c |>).
Proof.
  intros H. destruct (maybeCommit_loop_core (Z.to_nat (lastIndex r - r_commitIndex r)) r)
    as (c & Hc & ?). exists c. split; [lia|done].
Qed.

Lemma kept_maybeCommit r : good r → kept r (maybeCommit r).
Proof.
  intros Hg. pose proof Hg as [[[] _ _] _]. destruct (maybeCommit_core r) as (c & Hc & Heq); [lia|].
  eapply kept_trans; [by apply (kept_set_commit c)|]. apply kept_core; [|done].
  by apply good_set_commit.
Qed.

(** ** Leadership *)

Lemma kept_append e r :
  good r → lastIndex r + 1 < 2 ^ 64 → e_Index e = add64 (lastIndex r) 1 →
  ∃ r', appendEntries [e] r = Some r' ∧ kept r r' ∧ r_log r' = r_log r ++ [e]
        ∧ lastIndex r' = lastIndex r + 1 ∧ r_commitIndex r' = r_commitIndex r.
Proof.
  intros Hg Hb He. pose proof Hg as [[[] _ _] _].
  destruct (appendEntries_one r e) as (r' & H & Hg' & HL & Hlog & Hs & Hc);
    [by apply good_pre_append|done|done|].
  exists r'. split_and!; try done. split; [done|]. split; [lia|lia|].
  intros i Hi. apply option_eq. intros x. rewrite !at_spec by (done || apply Hg').
  rewrite Hs, Hlog, lookup_app_l; [done|].
  rewrite lastIndex_length in * by done. lia.
Qed.

(** The fields [becomeLeader] sets before it appends. *)
Lemma core_leader_fields r a b b' c :
  length a = length (r_peers r) → length b' = length (r_peers r) → peer_shape r →
  core (r <| r_role := RoleLeader |> <| r_leader := c |> <| r_heartbeatElapsed := 0 |>
          <| r_leadTransferee := 0 |> <| r_preVoting := false |>
          <| r_nextIndex := a |> <| r_matchIndex := b |> <| r_matchIndex := b' |>) = core r.
Proof. intros Ha Hb []. unfold core. cbn. by rewrite Ha, Hb, ps_next, ps_match. Qed.

Lemma becomeLeader_spec r :
  good r → member r → lastIndex r + 1 < 2 ^ 64 →
  ∃ r', becomeLeader r = Some r' ∧ kept r r'.
Proof.
  intros Hg Hm Hb. pose proof Hg as [[_ Hp _] _]. unfold becomeLeader. cbv zeta.
  set (r1 := r <| r_role := _ |> <| r_leader := _ |> <| r_heartbeatElapsed := _ |>
    <| r_leadTransferee := _ |> <| r_preVoting := _ |>).
  set (r2 := r1 <| r_nextIndex := _ |> <| r_matchIndex := _ |>).
  apply index_of_spec in Hm as [i Hi].
  change (peerIdx r2 (r_id r2)) with (index_of (r_peers r) (r_id r)). rewrite Hi.
  cbn [mbind option_bind].
  destruct (peer_set (r_matchIndex r2) (t_persisted (r_tail r2)) r (r_id r) i) as [ms Hms];
    [done|cbn; apply length_replicate|]. rewrite Hms. cbn [mbind option_bind].
  assert (Hc : core (r2 <| r_matchIndex := ms |>) = core r).
  { apply slice_set_length in Hms. cbn in Hms. rewrite length_replicate in Hms.
    unfold r2, r1. apply core_leader_fields; [apply length_replicate|done|done]. }
  revert Hc. generalize (r2 <| r_matchIndex := ms |>). intros r3 Hc. clear Hms ms.
  assert (Hg3 : good r3) by by eapply good_core.
  pose proof (core_log _ _ Hc) as (E1 & E2 & E3 & _).
  destruct (kept_append (noopEntry r3) r3) as (r4 & H4 & Hk4 & _);
    [done|by rewrite (lastIndex_ext r r3)|done|].
  rewrite H4. cbn [mbind option_bind].
  set (r5 := r4 <| r_termStart := _ |> <| r_pendingReads := _ |> <| r_readyReads := _ |>).
  assert (Hk5 : kept r4 r5) by (apply kept_core; [apply Hk4|done]).
  destruct (broadcastAppend_total r5) as [r6 H6]; [apply Hk5|].
  exists r6. split; [done|].
  eapply kept_trans; [by apply kept_core|]. eapply kept_trans; [exact Hk4|].
  eapply kept_trans; [exact Hk5|]. by eapply kept_broadcastAppend; [apply Hk5|].
Qed.

(** A loop of sends that leave the core alone. *)
Lemma core_sends r xs (f : Raft → NodeID → Message) :
  core (foldl (λ r p, if p =? r_id r then r else sendGated (f r p) r) r xs) = core r.
Proof. apply core_foldl. intros s x. case_test; [done|apply core_sendGated]. Qed.

Lemma core_vote_fields r vg vd c e :
  length vg = length (r_votesGranted r) → length vd = length (r_votesDenied r) →
  core (r <| r_leader := c |> <| r_electionElapsed := e |>
          <| r_votesGranted := vg |> <| r_votesDenied := vd |>) = core r.
Proof. intros H1 H2. unfold core. cbn. by rewrite H1, H2. Qed.

Lemma core_granted r vg :
  length vg = length (r_votesGranted r) → core (r <| r_votesGranted := vg |>) = core r.
Proof. intros H1. unfold core. cbn. by rewrite H1. Qed.
Lemma core_denied r vg :
  length vg = length (r_votesDenied r) → core (r <| r_votesDenied := vg |>) = core r.
Proof. intros H1. unfold core. cbn. by rewrite H1. Qed.
Lemma core_preGranted r vg :
  length vg = length (r_preGranted r) → core (r <| r_preGranted := vg |>) = core r.
Proof. intros H1. unfold core. cbn. by rewrite H1. Qed.
Lemma core_nextIndex r ns :
  length ns = length (r_nextIndex r) → core (r <| r_nextIndex := ns |>) = core r.
Proof. intros H1. unfold core. cbn. by rewrite H1. Qed.
Lemma core_progress r ms ns :
  length ms = length (r_matchIndex r) → length ns = length (r_nextIndex r) →
  core (r <| r_matchIndex := ms |> <| r_nextIndex := ns |>) = core r.
Proof. intros H1 H2. unfold core. cbn. by rewrite H1, H2. Qed.
Lemma core_matchIndex r ms :
  length ms = length (r_matchIndex r) → core (r <| r_matchIndex := ms |>) = core r.
Proof. intros H1. unfold core. cbn. by rewrite H1. Qed.

Lemma core_member r r' : core r' = core r → r_id r' = r_id r → member r → member r'.
Proof. intros (_ & _ & _ & E & _)%core_log Hid. unfold member. by rewrite E, Hid. Qed.

(** ** Elections *)

(** The state of a candidate before it counts its own vote. *)
Definition candidacy (r : Raft) : Raft :=
  setTermAndVote (add64 (r_term r) 1) (r_id r)
    (r <| r_preVoting := false |> <| r_role := RoleCandidate |>).

Lemma kept_candidacy r : good r → kept r (candidacy r).
Proof.
  intros Hg. unfold candidacy.
  set (r1 := r <| r_preVoting := _ |> <| r_role := _ |>).
  assert (kept r r1) by (by apply kept_core).
  eapply kept_trans; [done|]. apply kept_setTermAndVote. by eapply kept_good.
Qed.

Lemma candidacy_frame r : hs_frame r (candidacy r).
Proof.
  unfold candidacy. set (r1 := r <| r_preVoting := _ |> <| r_role := _ |>).
  change (hs_frame r1 (setTermAndVote (add64 (r_term r) 1) (r_id r) r1)).
  apply hs_frame_setTermAndVote.
Qed.

Lemma forceCampaign_spec r :
  good r → member r → lastIndex r + 1 < 2 ^ 64 →
  ∃ r', forceCampaign r = Some r' ∧ kept r r'.
Proof.
  intros Hg Hm Hb. pose proof (kept_candidacy r Hg) as Hk.
  destruct (candidacy_frame r) as (Fi & Fl & Fs & _ & _ & _ & _ & _ & Fp & _).
  unfold forceCampaign. cbv zeta. fold (candidacy r).
  assert (Hm1 : member (candidacy r)) by (unfold member; by rewrite Fp, Fi).
  assert (Hb1 : lastIndex (candidacy r) + 1 < 2 ^ 64) by by rewrite (lastIndex_ext r).
  change (setTermAndVote _ _ _) with (candidacy r).
  revert Hk Hm1 Hb1. generalize (candidacy r). intros c Hk Hm1 Hb1. clear Fi Fl Fs Fp.
  pose proof (kept_good _ _ Hk) as Hgc. pose proof Hgc as [[_ [] _] _].
  set (r2 := c <| r_leader := _ |> <| r_electionElapsed := _ |> <| r_votesGranted := _ |>
    <| r_votesDenied := _ |>).
  assert (Hc2 : core r2 = core c) by (apply core_vote_fields; apply length_fmap).
  apply index_of_spec in Hm1 as [i Hi]. change (peerIdx r2 (r_id r2)) with (peerIdx c (r_id c)).
  unfold peerIdx at 1. rewrite Hi. cbn [mbind option_bind].
  destruct (peer_set (r_votesGranted r2) true c (r_id c) i) as [vs Hvs];
    [done|cbn; by rewrite length_fmap|]. rewrite Hvs. cbn [mbind option_bind].
  assert (Hc3 : core (r2 <| r_votesGranted := vs |>) = core c).
  { rewrite core_granted by by eapply slice_set_length. done. }
  assert (Hm3 : member (r2 <| r_votesGranted := vs |>)).
  { apply index_of_spec. exists i. exact Hi. }
  revert Hc3 Hm3. generalize (r2 <| r_votesGranted := vs |>). intros r3 Hc3 Hm3.
  assert (Hk3 : kept r r3).
  { eapply kept_trans; [done|]. by apply kept_core. }
  pose proof (core_log _ _ Hc3) as (E1 & E2 & _).
  case_test.
  - destruct (becomeLeader_spec r3) as (r4 & H4 & Hk4);
      [apply Hk3|done|by rewrite (lastIndex_ext c)|].
    exists r4. split; [done|]. by eapply kept_trans.
  - eexists. split; [done|]. eapply kept_trans; [done|].
    apply kept_core; [apply Hk3|]. apply core_sends.
Qed.

(** Campaigning returns exactly when the node is in its own configuration. *)
Lemma forceCampaign_member r r' : forceCampaign r = Some r' → member r.
Proof.
  unfold forceCampaign. cbv zeta. intros (i & Hi & _)%bind_Some.
  apply index_of_spec. exists i. revert Hi. cbn.
  pose proof (candidacy_frame r) as (Fi & _ & _ & _ & _ & _ & _ & _ & Fp & _).
  unfold candidacy in Fi, Fp. by rewrite Fi, Fp.
Qed.

Lemma kept_forceCampaign r r' :
  good r → lastIndex r + 1 < 2 ^ 64 → forceCampaign r = Some r' → kept r r'.
Proof.
  intros Hg Hb H. apply forceCampaign_member in H as Hm.
  destruct (forceCampaign_spec r Hg Hm Hb) as (r1 & H1 & Hk).
  rewrite H in H1. by apply (inj Some) in H1 as ->.
Qed.

Lemma core_pre_fields r pg b c e :
  length pg = length (r_preGranted r) →
  core (r <| r_preVoting := b |> <| r_leader := c |> <| r_electionElapsed := e |>
          <| r_preGranted := pg |>) = core r.
Proof. intros H1. unfold core. cbn. by rewrite H1. Qed.

Lemma core_preSends r xs (f : Raft → NodeID → Message) :
  (∀ r p, m_Type (f r p) = MsgPreVote) →
  ∃ r', foldM (λ r p, if p =? r_id r then Some r else send (f r p) r) r xs = Some r'
        ∧ core r' = core r.
Proof.
  intros Hf. apply (foldM_total (λ s, core s = core r)); [done|]. intros s p _ Hs.
  case_test; [eauto|]. unfold send. rewrite Hf. eexists. by split.
Qed.

Lemma preCampaign_spec r :
  good r → member r → lastIndex r + 1 < 2 ^ 64 →
  ∃ r', preCampaign r = Some r' ∧ kept r r'.
Proof.
  intros Hg Hm Hb. pose proof Hg as [[_ [] _] _]. unfold preCampaign. cbv zeta.
  set (r1 := r <| r_preVoting := _ |> <| r_leader := _ |> <| r_electionElapsed := _ |>
    <| r_preGranted := _ |>).
  assert (Hc1 : core r1 = core r) by (apply core_pre_fields, length_fmap).
  apply index_of_spec in Hm as [i Hi].
  change (peerIdx r1 (r_id r1)) with (index_of (r_peers r) (r_id r)). rewrite Hi.
  cbn [mbind option_bind].
  destruct (peer_set (r_preGranted r1) true r (r_id r) i) as [vs Hvs];
    [done|cbn; by rewrite length_fmap|]. rewrite Hvs. cbn [mbind option_bind].
  assert (Hc2 : core (r1 <| r_preGranted := vs |>) = core r).
  { rewrite core_preGranted by by eapply slice_set_length. done. }
  assert (Hm2 : member (r1 <| r_preGranted := vs |>)).
  { apply index_of_spec. exists i. exact Hi. }
  revert Hc2 Hm2. generalize (r1 <| r_preGranted := vs |>). intros r2 Hc2 Hm2.
  pose proof (core_log _ _ Hc2) as (E1 & E2 & _).
  case_test.
  - assert (Hk : kept r (r2 <| r_preVoting := false |>)) by by apply kept_core.
    destruct (forceCampaign_spec (r2 <| r_preVoting := false |>)) as (r3 & H3 & Hk3);
      [apply Hk|done| |].
    { by rewrite (lastIndex_ext r). }
    exists r3. split; [done|]. by eapply kept_trans.
  - destruct (core_preSends r2 (r_peers r2) (λ r p, mkmsg MsgPreVote (r_id r) p
      (add64 (r_term r) 1) <| m_LastLogIndex := lastIndex r |> <| m_LastLogTerm := lastTerm r |>))
      as (r3 & H3 & Hc3); [done|].
    exists r3. split; [done|]. apply kept_core; [done|congruence].
Qed.

Lemma preCampaign_member r r' : preCampaign r = Some r' → member r.
Proof. unfold preCampaign. intros (i & Hi & _)%bind_Some. apply index_of_spec. by exists i. Qed.

Lemma campaign_spec r :
  good r → member r → lastIndex r + 1 < 2 ^ 64 → ∃ r', campaign r = Some r' ∧ kept r r'.
Proof.
  intros. unfold campaign. case_test; [by apply preCampaign_spec|by apply forceCampaign_spec].
Qed.

Lemma campaign_member r r' : campaign r = Some r' → member r.
Proof. unfold campaign. case_test; [apply preCampaign_member|apply forceCampaign_member]. Qed.

Lemma kept_campaign r r' :
  good r → lastIndex r + 1 < 2 ^ 64 → campaign r = Some r' → kept r r'.
Proof.
  intros Hg Hb H. apply campaign_member in H as Hm.
  destruct (campaign_spec r Hg Hm Hb) as (r1 & H1 & Hk).
  rewrite H in H1. by apply (inj Some) in H1 as ->.
Qed.

Lemma stepPreVote_spec m r : good r → ∃ r', stepPreVote m r = Some r' ∧ kept r r'.
Proof. intros Hg. eexists. split; [done|]. by apply kept_core. Qed.

Lemma kept_stepVote m r : good r → kept r (stepVote m r).
Proof.
  intros Hg. unfold stepVote. set (grant := if _ <? _ then _ else _).
  set (r1 := if grant then _ else _).
  assert (Hk : kept r r1).
  { unfold r1. destruct grant; [|by apply kept_refl].
    eapply kept_trans; [by apply (kept_setVote (m_From m))|].
    apply kept_core; [|done]. by apply good_setVote. }
  eapply kept_trans; [done|]. apply kept_sendGated, Hk.
Qed.

Lemma stepPreVoteResp_spec m r :
  good r → lastIndex r + 1 < 2 ^ 64 → member r →
  ∃ r', stepPreVoteResp m r = Some r' ∧ kept r r'.
Proof.
  intros Hg Hb Hm. pose proof Hg as [[_ [] _] _]. unfold stepPreVoteResp.
  do 2 (case_test; [eauto with rift|]).
  destruct (peerIdx r (m_From m)) as [i|] eqn:Ei; [|eauto with rift].
  case_test; [eauto with rift|].
  destruct (peer_set (r_preGranted r) true r _ i Ei) as [vs Hvs]; [done|].
  rewrite Hvs. cbn [mbind option_bind]. cbv zeta. apply slice_set_length in Hvs.
  pose proof (core_preGranted r vs Hvs) as Hc.
  case_test; [|eexists; split; [done|by apply kept_core]].
  set (r2 := r <| r_preGranted := vs |> <| r_preVoting := false |>).
  assert (Hk : kept r r2) by by apply kept_core.
  destruct (forceCampaign_spec r2) as (r3 & H3 & Hk3); [apply Hk|done|done|].
  exists r3. split; [done|]. by eapply kept_trans.
Qed.

(** The handlers that may campaign return only for a member. *)
Lemma kept_stepPreVoteResp m r r' :
  good r → lastIndex r + 1 < 2 ^ 64 → stepPreVoteResp m r = Some r' → kept r r'.
Proof.
  intros Hg Hb H. destruct (decide (member r)) as [Hm|Hm].
  { destruct (stepPreVoteResp_spec m r Hg Hb Hm) as (r1 & H1 & Hk).
    rewrite H in H1. by apply (inj Some) in H1 as ->. }
  revert H. pose proof Hg as [[_ [] _] _]. unfold stepPreVoteResp.
  do 2 (case_test; [intros H; apply (inj Some) in H as <-; auto with rift|]).
  destruct (peerIdx r (m_From m)) as [i|]; [|intros [= <-]; auto with rift].
  case_test; [intros [= <-]; auto with rift|].
  intros (vs & Hvs & H)%bind_Some. apply slice_set_length in Hvs.
  cbv zeta in H. case_test_in H.
  - apply forceCampaign_member in H. done.
  - apply (inj Some) in H as <-. apply kept_core; [done|]. by apply core_preGranted.
Qed.

Lemma kept_stepTimeoutNow m r r' :
  good r → lastIndex r + 1 < 2 ^ 64 → stepTimeoutNow m r = Some r' → kept r r'.
Proof.
  intros Hg Hb. unfold stepTimeoutNow. case_test; [intros [= <-]; auto with rift|].
  by apply kept_forceCampaign.
Qed.

Lemma becomeLeader_member r r' : becomeLeader r = Some r' → member r.
Proof.
  unfold becomeLeader. cbv zeta. intros (i & Hi & _)%bind_Some.
  apply index_of_spec. by exists i.
Qed.

Lemma kept_becomeLeader r r' :
  good r → lastIndex r + 1 < 2 ^ 64 → becomeLeader r = Some r' → kept r r'.
Proof.
  intros Hg Hb H. apply becomeLeader_member in H as Hm.
  destruct (becomeLeader_spec r Hg Hm Hb) as (r1 & H1 & Hk).
  rewrite H in H1. by apply (inj Some) in H1 as ->.
Qed.

(** The bookkeeping of one vote response. *)
Definition countVote (m : Message) (i : nat) (r : Raft) : option Raft :=
  if m_Granted m
  then vs ← slice_set (r_votesGranted r) i true; Some (r <| r_votesGranted := vs |>)
  else vs ← slice_set (r_votesDenied r) i true; Some (r <| r_votesDenied := vs |>).

Lemma core_countVote m i r r' :
  countVote m i r = Some r' → core r' = core r ∧ r_id r' = r_id r ∧ r_term r' = r_term r
  ∧ r_vote r' = r_vote r ∧ r_role r' = r_role r.
Proof.
  unfold countVote. case_test; intros (vs & Hvs & H)%bind_Some; apply (inj Some) in H as <-;
    apply slice_set_length in Hvs; (split; [|done]);
    [by apply core_granted|by apply core_denied].
Qed.

Lemma countVote_total m r i n :
  good r → peerIdx r n = Some i → ∃ r', countVote m i r = Some r'.
Proof.
  intros [[_ [] _] _] Hi. unfold countVote. case_test.
  - destruct (peer_set (r_votesGranted r) true r n i) as [vs ->]; cbn; eauto.
  - destruct (peer_set (r_votesDenied r) true r n i) as [vs ->]; cbn; eauto.
Qed.

Lemma kept_stepVoteResp m r r' :
  good r → lastIndex r + 1 < 2 ^ 64 → stepVoteResp m r = Some r' → kept r r'.
Proof.
  intros Hg Hb. unfold stepVoteResp. case_test; [intros [= <-]; auto with rift|].
  destruct (peerIdx r (m_From m)) as [i|] eqn:Ei; [|intros [= <-]; auto with rift].
  fold (countVote m i r). intros (r1 & H1 & Heq)%bind_Some.
  apply core_countVote in H1 as [Hc _]. assert (Hk : kept r r1) by by apply kept_core.
  pose proof (core_log _ _ Hc) as (E1 & E2 & _).
  eapply kept_trans; [done|]. repeat case_test_in Heq; try (apply (inj Some) in Heq as <-).
  - eapply kept_becomeLeader; [apply Hk|by rewrite (lastIndex_ext r)|done].
  - apply kept_becomeFollower, Hk.
  - apply kept_refl, Hk.
Qed.

Lemma stepVoteResp_total m r :
  good r → lastIndex r + 1 < 2 ^ 64 → member r → ∃ r', stepVoteResp m r = Some r'.
Proof.
  intros Hg Hb Hm. unfold stepVoteResp. case_test; [eauto|].
  destruct (peerIdx r (m_From m)) as [i|] eqn:Ei; [|eauto]. fold (countVote m i r).
  destruct (countVote_total m r i _ Hg Ei) as [r1 H1]. rewrite H1. cbn [mbind option_bind].
  apply core_countVote in H1 as (Hc & Hid & _). pose proof (core_log _ _ Hc) as (E1 & E2 & _).
  repeat case_test; eauto.
  destruct (becomeLeader_spec r1) as (r2 & H2 & _); eauto.
  - by eapply good_core.
  - by eapply core_member.
  - by rewrite (lastIndex_ext r).
Qed.

(** The leader's response to an accepted append, before it recounts. *)
Lemma stepAppResp_spec m r :
  good r → ∃ r', stepAppResp m r = Some r' ∧ kept r r'.
Proof.
  intros Hg. pose proof Hg as [[_ [] _] _]. unfold stepAppResp.
  case_test; [eauto with rift|].
  destruct (peerIdx r (m_From m)) as [i|] eqn:Ei; [|eauto with rift].
  destruct (peer_slot (r_nextIndex r) r _ i Ei) as [next Hnext]; [done|].
  destruct (peer_slot (r_matchIndex r) r _ i Ei) as [mi Hmi]; [done|].
  case_test.
  - rewrite Hnext. cbn [mbind option_bind].
    destruct (peer_set (r_nextIndex r) (backUp (m_Hint m) next) r _ i Ei) as [ns Hns]; [done|].
    rewrite Hns. cbn [mbind option_bind]. apply slice_set_length, core_nextIndex in Hns.
    assert (Hk : kept r (r <| r_nextIndex := ns |>)) by by apply kept_core.
    destruct (sendAppend_total (m_From m) (r <| r_nextIndex := ns |>)) as [r1 H1]; [apply Hk|].
    exists r1. split; [done|]. eapply kept_trans; [done|].
    by eapply kept_sendAppend; [apply Hk|].
  - rewrite Hmi. cbn [mbind option_bind]. cbv zeta.
    set (mi' := if m_MatchIndex m >? mi then _ else _). clearbody mi'.
    destruct (peer_set (r_matchIndex r) mi' r _ i Ei) as [ms Hms]; [done|].
    rewrite Hms, Hnext. cbn [mbind option_bind].
    set (ni := if _ >? next then _ else _). clearbody ni.
    destruct (peer_set (r_nextIndex r) ni r _ i Ei) as [ns Hns]; [done|].
    rewrite Hns. cbn [mbind option_bind]. apply slice_set_length in Hms, Hns.
    pose proof (core_progress r ms ns Hms Hns) as Hc.
    revert Hc. generalize (r <| r_matchIndex := ms |> <| r_nextIndex := ns |>). intros r1 Hc.
    assert (H2 : ∃ r2, (if (r_leadTransferee r1 =? m_From m) && (mi' >=? lastIndex r1)
                        then send (mkmsg MsgTimeoutNow (r_id r1) (m_From m) (r_term r1)) r1
                        else Some r1) = Some r2 ∧ core r2 = core r1).
    { case_test; eexists; by split. }
    destruct H2 as (r2 & -> & Hc2). cbn [mbind option_bind].
    eexists. split; [done|].
    assert (Hk : kept r r2) by (apply kept_core; [done|congruence]).
    eapply kept_trans; [done|]. apply kept_maybeCommit, Hk.
Qed.

(** ** Snapshots *)

(** A snapshot message as a driver builds it: an index, and the encoding of a
    well-formed configuration with a voter. *)
Record snap_ok (m : Message) : Prop := MkSnapOk {
  so_index : 0 ≤ m_SnapIndex m < 2 ^ 64;
  so_conf : ∀ c, DecodeConfiguration (m_SnapConf m) = Some c → conf_wf c ∧ Voters c ≠ [];
}.

(** The state a node jumps to when it installs a snapshot, before it opens the
    mark that covers the jump. *)
Definition jumped (m : Message) (conf : Configuration) (r : Raft) : Raft :=
  recomputeConf (r <| r_log := [] |> <| r_baseConf := conf |>)
    <| r_snapIndex := m_SnapIndex m |> <| r_snapTerm := m_SnapTerm m |>
    <| r_commitIndex := m_SnapIndex m |> <| r_appliedIdx := m_SnapIndex m |>
    <| r_tail := MkLogTail (m_SnapIndex m) (m_SnapIndex m) |>
    <| r_markLastIdx := m_SnapIndex m |>.

Lemma peer_shape_jump r i t c a tl ml :
  peer_shape r →
  peer_shape (r <| r_snapIndex := i |> <| r_snapTerm := t |> <| r_commitIndex := c |>
                <| r_appliedIdx := a |> <| r_tail := tl |> <| r_markLastIdx := ml |>).
Proof. intros []. by split. Qed.

Lemma jumped_good m conf r :
  good r → 0 ≤ m_SnapIndex m < 2 ^ 64 → conf_wf conf → Voters conf ≠ [] →
  good (dirty (jumped m conf r)).
Proof.
  intros [[[] _ [Hw _ _ _]] Hroom] Hm Hwf Hne.
  assert (Hw' : marks_weak (jumped m conf r)) by (destruct Hw; by split).
  split; [split|].
  - apply dirty_log_shape. split; unfold lastIndex; cbn; try lia; try done.
  - apply dirty_peer_shape, peer_shape_jump, peer_shape_recomputeConf.
  - apply dirty_marks_ok; [done|done|]. by right; right.
  - by apply dirty_room.
Qed.

Lemma kept_stepSnap m r r' :
  good r → snap_ok m → stepSnap m r = Some r' → kept r r'.
Proof.
  intros Hg [Hi Hconf]. unfold stepSnap.
  case_test; [intros H; apply (inj Some) in H as <-; auto with rift|].
  cbv zeta. fold (appFollower m r).
  assert (Hk : kept r (appFollower m r)).
  { apply kept_hs; [by apply appFollower_good|apply appFollower_frame]. }
  intros H. eapply kept_trans; [done|]. revert Hk H. generalize (appFollower m r).
  intros f Hk H. pose proof (kept_good _ _ Hk) as Hgf. case_test_in H.
  { apply bind_Some in H as ([lm sm] & _ & H). apply (inj Some) in H as <-. auto with rift. }
  set (f1 := f <| r_gated := _ |>) in H.
  assert (Hk1 : kept f f1) by by apply kept_core.
  assert (Hci : r_commitIndex f1 < m_SnapIndex m) by exact E0.
  assert (Hsi : r_snapIndex f1 ≤ r_commitIndex f1) by apply Hk1.
  clearbody f1. eapply kept_trans; [done|].
  destruct (DecodeConfiguration (m_SnapConf m)) as [conf|] eqn:Ed.
  - destruct (Hconf conf eq_refl) as [Hwf Hne]. fold (jumped m conf f1) in H.
    pose proof (jumped_good m conf f1 (kept_good _ _ Hk1) Hi Hwf Hne) as Hgj.
    assert (Hs : r_snapIndex (dirty (jumped m conf f1)) = m_SnapIndex m
                 ∧ r_commitIndex (dirty (jumped m conf f1)) = m_SnapIndex m).
    { unfold dirty. by case_test. }
    assert (Hkj : kept f1 (dirty (jumped m conf f1))).
    { split; [done|]. destruct Hs as [Hs1 Hs2]. split; [lia|lia|]. intros i Hii. lia. }
    revert H Hkj. generalize (dirty (jumped m conf f1)). intros j H Hkj.
    apply (inj Some) in H as <-. eapply kept_trans; [done|].
    apply kept_core; [apply Hkj|]. by rewrite core_sendGatedOn.
  - apply (inj Some) in H as <-. apply kept_sendGated, Hk1.
Qed.

(** ** Step *)

(** What a message must satisfy for a node to handle it: only the two kinds
    that rewrite the log carry a contract. *)
Definition msg_ok (m : Message) : Prop :=
  match m_Type m with
  | MsgApp => app_ok m
  | MsgSnap => snap_ok m
  | _ => True
  end.

Lemma kept_observeTerm m r : good r → kept r (observeTerm m r).
Proof. intros. unfold observeTerm. case_test; auto with rift. Qed.

Lemma observeTerm_frame m r : hs_frame r (observeTerm m r).
Proof. unfold observeTerm. case_test; [apply hs_frame_becomeFollower|done]. Qed.

Lemma kept_confirmRead n r : good r → kept r (confirmRead n r).
Proof. intros. apply kept_core; [done|]. apply core_confirmRead. Qed.
Lemma kept_recordRead n r : good r → kept r (recordRead n r).
Proof. intros. apply kept_core; [done|]. apply core_recordRead. Qed.
#[export] Hint Resolve kept_confirmRead kept_recordRead kept_stepVote : rift.

Lemma ext_upto r r' :
  good r → good r' → r_snapIndex r' = r_snapIndex r → r_commitIndex r ≤ r_commitIndex r' →
  upto r' (r_commitIndex r) = upto r (r_commitIndex r) → ext r r'.
Proof.
  intros [[[] _ _] _] [[[] _ _] _] Hs Hc Hu. split; [done|lia|]. intros i Hi.
  apply option_eq. intros e. rewrite !at_spec by done. rewrite Hs.
  unfold upto in Hu. rewrite Hs in Hu.
  assert (Hk : ∀ xs : list Entry, xs !! Z.to_nat (i - r_snapIndex r - 1) =
    take (Z.to_nat (r_commitIndex r - r_snapIndex r)) xs !! Z.to_nat (i - r_snapIndex r - 1)).
  { intros xs. rewrite lookup_take. case_decide; [done|lia]. }
  rewrite (Hk (r_log r')), (Hk (r_log r)), Hu. rewrite Hs in Hi. intuition lia.
Qed.

Lemma kept_stepApp m r r' : good r → app_ok m → stepApp m r = Some r' → kept r r'.
Proof.
  intros Hg Ha H. destruct (stepApp_good m r r' Hg Ha H) as (Hg' & Hc & Hs & Hu).
  split; [done|]. by apply ext_upto.
Qed.

Lemma kept_dispatch m r r' :
  good r → lastIndex r + 1 < 2 ^ 64 → msg_ok m → dispatch m r = Some r' → kept r r'.
Proof.
  intros Hg Hb Hm. unfold dispatch, msg_ok in *.
  destruct (m_Type m); try (intros [= <-]; auto with rift; fail).
  - by apply kept_stepVoteResp.
  - by apply kept_stepApp.
  - intros (r1 & H1 & H)%bind_Some. destruct (stepAppResp_spec m r Hg) as (r1' & H1' & Hk).
    rewrite H1 in H1'. apply (inj Some) in H1' as <-. apply (inj Some) in H as <-.
    eapply kept_trans; [done|]. case_test; [apply kept_confirmRead|apply kept_refl]; apply Hk.
  - intros H. by destruct (stepPreVote_spec m r Hg) as (r1 & [= <-]%(eq_trans (eq_sym H)) & ?).
  - by apply kept_stepPreVoteResp.
  - by apply kept_stepSnap.
  - by apply kept_stepTimeoutNow.
  - case_test; [|intros [= <-]; auto with rift]. intros H.
    set (q := MkReadReq _ _ _ _ _) in H.
    pose proof (kept_recordRead q r Hg) as Hk.
    eapply kept_trans; [done|]. eapply kept_broadcastAppend; [apply Hk|done].
  - intros H. apply (inj Some) in H as <-. by apply kept_core.
Qed.

Lemma kept_Step m r e r' :
  good r → lastIndex r + 1 < 2 ^ 64 → msg_ok m → Step m r = Some (e, r') → kept r r'.
Proof.
  intros Hg Hb Hm. unfold Step, refused, done_with.
  do 2 (case_test; [intros [= _ <-]; auto with rift|]).
  intros (r1 & H1 & [= _ ->])%fmap_Some.
  pose proof (kept_observeTerm m r Hg) as Hk. destruct (observeTerm_frame m r) as (_ & F1 & F2 & _).
  eapply kept_trans; [done|]. eapply kept_dispatch; [apply Hk| |done|done].
  by rewrite (lastIndex_ext r).
Qed.

(** ** Time and client entry points *)

Lemma IsVoter_member r : good r → IsVoter (r_conf r) (r_id r) = true → member r.
Proof.
  intros [[_ [] _] _] H. unfold member. rewrite ps_peers. apply elem_of_Members. left.
  by apply contains_elem.
Qed.

Lemma Tick_spec r :
  good r → lastIndex r + 1 < 2 ^ 64 → ∃ r', Tick r = Some r' ∧ kept r r'.
Proof.
  intros Hg Hb. unfold Tick.
  assert (Hcamp : ∃ r', (let s := r <| r_electionElapsed := r_electionElapsed r + 1 |> in
    if (r_electionElapsed s >=? r_randomizedElectionTimeout s) && IsVoter (r_conf s) (r_id s)
    then campaign s else Some s) = Some r' ∧ kept r r').
  { set (s := r <| r_electionElapsed := _ |>). assert (Hk : kept r s) by by apply kept_core.
    cbv zeta. case_test; [|eauto].
    destruct (campaign_spec s) as (r1 & H1 & Hk1); [apply Hk| |done|].
    - apply IsVoter_member; [apply Hk|done].
    - exists r1. split; [done|]. by eapply kept_trans. }
  destruct (r_role r); [exact Hcamp|exact Hcamp|].
  set (s := if negb _ then _ else _).
  assert (Hc : core s = core r) by (unfold s; repeat case_test; done).
  clearbody s. cbv zeta. case_test; [|eexists; split; [done|by apply kept_core]].
  set (s1 := s <| r_heartbeatElapsed := _ |> <| r_heartbeatElapsed := _ |>).
  assert (Hk : kept r s1) by by apply kept_core.
  destruct (broadcastAppend_total s1) as [r1 H1]; [apply Hk|].
  exists r1. split; [done|]. eapply kept_trans; [done|]. by eapply kept_broadcastAppend; [apply Hk|].
Qed.

(** Appending an entry and broadcasting it. *)
Lemma propose_spec e r :
  good r → lastIndex r + 1 < 2 ^ 64 → e_Index e = add64 (lastIndex r) 1 →
  ∃ r', (r1 ← appendEntries [e] r; broadcastAppend r1) = Some r' ∧ kept r r'.
Proof.
  intros Hg Hb He. destruct (kept_append e r Hg Hb He) as (r1 & -> & Hk & _).
  cbn [mbind option_bind]. destruct (broadcastAppend_total r1) as [r2 H2]; [apply Hk|].
  exists r2. split; [done|]. eapply kept_trans; [done|]. by eapply kept_broadcastAppend; [apply Hk|].
Qed.

Lemma Propose_spec id data r :
  good r → lastIndex r + 1 < 2 ^ 64 →
  ∃ e r', Propose id data r = Some (e, r') ∧ kept r r'.
Proof.
  intros Hg Hb. unfold Propose, refused, done_with. do 3 (case_test; [eauto with rift|]).
  destruct (propose_spec (MkEntry EntryNormal (r_term r) (add64 (lastIndex r) 1) id data) r)
    as (r' & -> & Hk); eauto.
Qed.

Lemma lagging_total ch r : good r → ∃ b, lagging ch r = Some b.
Proof.
  intros [[_ [] _] _]. unfold lagging. case_test; [|eauto].
  destruct (peerIdx r (ccs_node ch)) as [i|] eqn:Ei; [|eauto].
  destruct (peer_slot (r_matchIndex r) r _ i Ei) as [x ->]; cbn; eauto.
Qed.

Lemma ProposeConfChange_spec id cc r :
  good r → lastIndex r + 1 < 2 ^ 64 →
  ∃ e r', ProposeConfChange id cc r = Some (e, r') ∧ kept r r'.
Proof.
  intros Hg Hb. unfold ProposeConfChange, refused, done_with.
  do 4 (case_test; [eauto with rift|]).
  destruct (cc_changes cc) as [|ch [|? ?]]; eauto with rift.
  case_test; [eauto with rift|].
  destruct (lagging_total ch r Hg) as [lag ->]. cbn [mbind option_bind].
  case_test; [eauto with rift|]. destruct (conf_apply (r_conf r) ch) eqn:E5; eauto with rift.
  destruct (propose_spec (MkEntry EntryConfChange (r_term r) (add64 (lastIndex r) 1) id
    (EncodeConfChange cc)) r) as (r' & -> & Hk); eauto.
Qed.

Lemma ReadIndex_spec ctx r :
  good r → ∃ e r', ReadIndex ctx r = Some (e, r') ∧ kept r r'.
Proof.
  intros Hg. unfold ReadIndex, refused, done_with.
  destruct ctx as [|b ctx]; [eauto with rift|].
  destruct (r_role r); eauto with rift.
  - case_test; [eauto with rift|]. eexists _, _. split; [done|]. auto with rift.
  - set (q := MkReadReq _ _ _ _ _). pose proof (kept_recordRead q r Hg) as Hk.
    destruct (broadcastAppend_total (recordRead q r)) as [r1 H1]; [apply Hk|].
    rewrite H1. cbn. eexists _, _. split; [done|]. eapply kept_trans; [done|].
    by eapply kept_broadcastAppend; [apply Hk|].
Qed.

(** Transferring to oneself panics; every other target is handled. *)
Lemma TransferLeadership_spec target r :
  good r → target ≠ r_id r → ∃ r', TransferLeadership target r = Some r' ∧ kept r r'.
Proof.
  intros Hg Ht. pose proof Hg as [[_ [] _] _]. unfold TransferLeadership.
  case_test; [done|]. destruct (peerIdx r target) as [i|] eqn:Ei; [|eauto with rift].
  do 2 (case_test; [eauto with rift|]). cbv zeta.
  set (r1 := r <| r_leadTransferee := _ |> <| r_transferElapsed := _ |>).
  assert (Hk : kept r r1) by by apply kept_core.
  destruct (peer_slot (r_matchIndex r1) r _ i Ei) as [x ->]; [done|]. cbn [mbind option_bind].
  case_test.
  - eexists. split; [done|]. eapply kept_trans; [done|]. apply kept_core; [apply Hk|done].
  - destruct (sendAppend_total target r1) as [r2 H2]; [apply Hk|].
    exists r2. split; [done|]. eapply kept_trans; [done|]. by eapply kept_sendAppend; [apply Hk|].
Qed.

Lemma kept_Campaign r e r' :
  good r → lastIndex r + 1 < 2 ^ 64 → Campaign r = Some (e, r') → kept r r'.
Proof.
  intros Hg Hb. unfold Campaign, refused, done_with.
  case_test; [intros [= _ <-]; auto with rift|].
  intros (r1 & H1 & [= _ ->])%fmap_Some. by apply kept_campaign.
Qed.

(** ** Compaction *)

Lemma setConf_frame c r : r_log (setConf c r) = r_log r ∧ r_conf (setConf c r) = c.
Proof. done. Qed.

Lemma recomputeConf_conf r : r_conf (recomputeConf r) = confOf (r_log r) (r_baseConf r).
Proof.
  destruct (peer_shape_recomputeConf r). pose proof (recomputeConf_frame r) as [H _].
  injection H as E1 _ E3 _ _ _ _. by rewrite ps_conf, E1, E3.
Qed.

(** The state [Compact] builds before it replays the configuration. *)
Definition cutBelow (p : nat) (i : Index) (t : Term) (c : Configuration) (r : Raft) : Raft :=
  r <| r_log := drop (S p) (r_log r) |> <| r_snapIndex := i |> <| r_snapTerm := t |>
    <| r_baseConf := c |>.

Lemma confOf_cut p es base : confOf (drop p es) (confOf (take p es) base) = confOf es base.
Proof. by rewrite <- confOf_app, take_drop. Qed.

Lemma cutBelow_last p i t c r :
  log_ok (r_snapIndex r) (r_log r) → pos r i = Some p →
  log_ok i (drop (S p) (r_log r)) ∧ lastIndex (cutBelow p i t c r) = lastIndex r.
Proof.
  intros Hlog [Hi ->]%pos_spec. set (p := Z.to_nat _).
  assert (Hlog' : log_ok i (drop (S p) (r_log r))).
  { replace i with (r_snapIndex r + Z.of_nat (S p)) by (unfold p; lia). by apply log_ok_drop. }
  split; [done|]. rewrite lastIndex_length by exact Hlog'. cbn.
  rewrite lastIndex_length in * by done. rewrite length_drop. lia.
Qed.

Lemma ConfigurationAt_prefix i r c :
  log_ok (r_snapIndex r) (r_log r) → ConfigurationAt i r = Ok c →
  c = confOf (upto r i) (r_baseConf r).
Proof.
  intros Hlog. unfold ConfigurationAt, upto. repeat case_test; try done.
  - intros [= <-]. subst. by rewrite Z.sub_diag.
  - destruct (at_ r i); [|done]. intros [= <-]. apply confThrough_take; [done|lia].
Qed.

Lemma cutBelow_inv p i t r :
  inv r → pos r i = Some p → i ≤ r_appliedIdx r → i ≤ t_persisted (r_tail r) →
  inv (recomputeConf (cutBelow p i t (confOf (upto r i) (r_baseConf r)) r)).
Proof.
  intros [Hl Hp Hm] Hpos Ha Ht. pose proof Hl as []. pose proof Hm as [Hw Ho Hc He].
  destruct (cutBelow_last p i t (confOf (upto r i) (r_baseConf r)) r ls_log Hpos) as [Hlog HL].
  destruct (confOf_wf (upto r i) (r_baseConf r)) as [Hwf Hne]; [done|done|].
  apply pos_spec in Hpos as [Hi _].
  set (c := confOf _ _) in *. set (r1 := cutBelow p i t c r) in *.
  pose proof (recomputeConf_frame r1) as [F1 F2].
  pose proof F1 as [= F11 F12 F13 F14 F15 F16 F17].
  pose proof F2 as [= F21 F22 F23 F24 F25 F26 F27 _ _ _].
  pose proof (lastIndex_ext r1 (recomputeConf r1) F11 F12) as FL.
  split.
  - apply recomputeConf_log_shape. split; rewrite ?HL; cbn; auto; lia.
  - apply peer_shape_recomputeConf.
  - split; [apply recomputeConf_weak; destruct Hw; by split|..];
      rewrite ?FL, ?HL, ?F16, ?F22, ?F25, ?F27; done.
Qed.

Lemma Compact_cuts i r t c r' :
  inv r → r_snapIndex r < i → Compact i r = (Ok (t, c), r') →
  i ≤ r_appliedIdx r ∧ i ≤ t_persisted (r_tail r)
  ∧ inv r' ∧ r_snapIndex r' = i ∧ r_snapTerm r' = t ∧ t = termAt r i
  ∧ r_baseConf r' = c ∧ c = confOf (upto r i) (r_baseConf r) ∧ r_conf r' = r_conf r
  ∧ lastIndex r' = lastIndex r ∧ r_commitIndex r' = r_commitIndex r
  ∧ ∀ j, i < j → at_ r' j = at_ r j.
Proof.
  intros Hinv Hi. pose proof Hinv as [[] [] _]. unfold Compact. rewrite !Z.gtb_ltb.
  do 3 (case_test; [done || lia|]).
  destruct (at_ r i) as [e|] eqn:Ee; [|done]. destruct (pos r i) as [p|] eqn:Ep; [|done].
  destruct (ConfigurationAt i r) as [conf|] eqn:Ec; [|done]. intros [= <- <- <-].
  apply ConfigurationAt_prefix in Ec as ->; [|done].
  fold (cutBelow p i (e_Term e) (confOf (upto r i) (r_baseConf r)) r).
  destruct (cutBelow_last p i (e_Term e) (confOf (upto r i) (r_baseConf r)) r ls_log Ep)
    as [Hlog HL].
  pose proof (cutBelow_inv p i (e_Term e) r Hinv Ep) as Hinv'.
  apply pos_spec in Ep as Hp. destruct Hp as [_ Hpe].
  set (r1 := cutBelow _ _ _ _ _) in *. pose proof (recomputeConf_frame r1) as [F1 _].
  pose proof F1 as [= F11 F12 F13 F14 _ _ _].
  split_and!; try done; try lia; try (apply Hinv'; lia).
  - unfold recomputeConf. by destruct (replayConf _ _ _).
  - unfold termAt. repeat case_test; [lia|lia|]. by rewrite Ee.
  - rewrite recomputeConf_conf, ps_conf. unfold r1, cutBelow, upto. cbn.
    replace (Z.to_nat (i - r_snapIndex r)) with (S p) by lia. apply confOf_cut.
  - by rewrite (lastIndex_ext r1 (recomputeConf r1)).
  - intros j Hj. apply option_eq. intros x.
    rewrite !at_spec by (done || by rewrite F11, F12). rewrite F11, F12. unfold r1, cutBelow.
    cbn [r_log r_snapIndex update_field]. cbn. rewrite lookup_drop.
    replace (S p + Z.to_nat (j - i - 1))%nat with (Z.to_nat (j - r_snapIndex r - 1)) by lia.
    intuition lia.
Qed.

(** Compaction is invisible to the protocol: a [Compact] that discards a
    prefix leaves the snapshot point at the index asked for with the term the
    entry had and the configuration in force there, keeps the node's invariant,
    its active configuration, its last index and every entry above the point,
    and refuses any index that is not both applied and durable. *)
Theorem Compact_spec i r t c r' :
  inv r → r_snapIndex r < i → Compact i r = (Ok (t, c), r') →
  i ≤ r_appliedIdx r ∧ i ≤ t_persisted (r_tail r)
  ∧ inv r' ∧ r_snapIndex r' = i ∧ r_snapTerm r' = t ∧ t = termAt r i
  ∧ r_baseConf r' = c ∧ c = confOf (upto r i) (r_baseConf r) ∧ r_conf r' = r_conf r
  ∧ lastIndex r' = lastIndex r ∧ r_commitIndex r' = r_commitIndex r
  ∧ ∀ j, i < j → at_ r' j = at_ r j.
Proof. apply Compact_cuts. Qed.

(** What the operations that close a mark keep: all but the room for the next
    one. *)
Record keptInv (r r' : Raft) : Prop := MkKeptInv { ki_inv : inv r'; ki_ext : ext r r' }.

Lemma kept_keptInv r r' : kept r r' → keptInv r r'.
Proof. intros [[] ?]. by split. Qed.

Lemma keptInv_Compact i r res r' : inv r → Compact i r = (res, r') → keptInv r r'.
Proof.
  intros Hinv H. pose proof Hinv as [[] _ _].
  destruct (decide (r_snapIndex r < i)) as [Hi|Hi].
  - destruct res as [[t c]|e].
    + destruct (Compact_cuts i r t c r' Hinv Hi H) as (Ha & ? & ? & Hs & _ & _ & _ & _ & _ & HL & Hc & Hat).
      split; [done|]. split; [lia|lia|]. intros j Hj. apply Hat. lia.
    + assert (r' = r) as ->; [|by split]. revert H. unfold Compact.
      repeat case_test; try (intros [=]; done).
      destruct (at_ r i); [|by intros [=]]. destruct (pos r i); [|by intros [=]].
      destruct (ConfigurationAt i r); by intros [=].
  - revert H. unfold Compact. case_test; [|lia]. intros [= _ <-]. by split.
Qed.

(** ** Draining *)

Lemma seqZ_at_total r a n :
  log_ok (r_snapIndex r) (r_log r) → r_snapIndex r < a → a + n - 1 ≤ lastIndex r →
  ∃ es, mapM (at_ r) (seqZ a n) = Some es.
Proof.
  intros Hlog Ha Hn. apply mapM_is_Some_2. apply Forall_forall. intros i Hi%elem_of_seqZ.
  destruct (at_total r Hlog i) as [e He]; [lia|eauto].
Qed.

Lemma committedEntries_spec r :
  inv r → lastIndex r + 1 < 2 ^ 64 →
  ∃ es, committedEntries r = Some es
        ∧ es = drop (Z.to_nat (r_appliedIdx r - r_snapIndex r)) (upto r (r_commitIndex r)).
Proof.
  intros [[] _ _] Hb. unfold committedEntries. rewrite add64_small by lia.
  rewrite Z.min_l by lia.
  destruct (seqZ_at_total r (r_appliedIdx r + 1)
    (r_commitIndex r - (r_appliedIdx r + 1) + 1)) as [es Hes]; [done|lia|lia|].
  exists es. split; [done|]. apply mapM_Some in Hes. pose proof (Forall2_length _ _ _ Hes) as Hn.
  rewrite length_seqZ in Hn.
  apply (list_eq_same_length _ _ (length es)); [|done|].
  { unfold upto. rewrite length_drop, length_take. rewrite lastIndex_length in * by done. lia. }
  intros k x y Hk Hx Hy. destruct (Forall2_lookup_r _ _ _ _ _ Hes Hx) as (i & Hi & Hat).
  apply lookup_seqZ in Hi as [-> _]. apply at_spec in Hat as [_ Hat]; [|done].
  unfold upto in Hy. rewrite lookup_drop, lookup_take in Hy. case_decide; [|lia].
  replace (Z.to_nat (r_appliedIdx r - r_snapIndex r) + k)%nat with
    (Z.to_nat (r_appliedIdx r + 1 + Z.of_nat k - r_snapIndex r - 1)) in Hy by lia.
  congruence.
Qed.

(** The log entries not yet handed over. *)
Definition unhanded (r : Raft) : list Entry :=
  drop (Z.to_nat (t_handed (r_tail r) - r_snapIndex r)) (r_log r).

Lemma unhanded_spec r :
  inv r → lastIndex r + 1 < 2 ^ 64 →
  (if t_handed (r_tail r) <? lastIndex r
   then suffixFrom r (add64 (t_handed (r_tail r)) 1) else Some []) = Some (unhanded r)
  ∧ (unhanded r = [] ↔ t_handed (r_tail r) = lastIndex r)
  ∧ (∀ e, last (unhanded r) = Some e → e_Index e = lastIndex r).
Proof.
  intros [[] _ _] Hb. pose proof (lastIndex_length r ls_log) as HL. unfold unhanded.
  assert (Hnil : drop (Z.to_nat (t_handed (r_tail r) - r_snapIndex r)) (r_log r) = []
                 ↔ t_handed (r_tail r) = lastIndex r).
  { rewrite <- length_zero_iff_nil, length_drop. lia. }
  split_and!; [|done|].
  - case_test; [|f_equal; symmetry; apply Hnil; lia].
    rewrite add64_small by lia. rewrite suffixFrom_spec by (done || lia). do 2 f_equal. lia.
  - intros e. rewrite last_lookup_length, lookup_drop, length_drop.
    intros He. apply ls_log in He as HE. apply lookup_lt_Some in He. lia.
Qed.

(** The bookkeeping of a hand-over. *)
Definition handOver (r : Raft) : Raft :=
  r <| r_hsMark := if r_hardStateDirty r then r_dirtyMark r else r_hsMark r |>
    <| r_markHandedOff := true |> <| r_lastHandedMark := r_dirtyMark r |>
    <| r_tail := MkLogTail (t_persisted (r_tail r)) (lastIndex r) |>
    <| r_markLastIdx := lastIndex r |> <| r_hardStateDirty := false |>.

Lemma handOver_inv r :
  inv r → t_handed (r_tail r) < lastIndex r ∨ r_hardStateDirty r = true → inv (handOver r).
Proof.
  intros [[] [] [Hw Ho Hc He]] Hor. destruct (Ho Hor) as [Hd Hh]. pose proof Hw as [].
  assert (HL : lastIndex (handOver r) = lastIndex r) by done.
  split; [|by split|split; [split|..]]; rewrite ?HL.
  - split; rewrite ?HL; cbn; try done; lia.
  - cbn. auto with lia.
  - cbn. lia.
  - done.
  - cbn. done.
  - cbn. auto.
  - cbn. specialize (mk_fresh Hd Hh). lia.
  - cbn. specialize (mk_fresh Hd Hh). case_test; lia.
  - cbn. specialize (mk_fresh Hd Hh). case_test; [lia|done].
  - cbn. intros [?|?]; [lia|done].
  - cbn. auto.
  - cbn. done.
Qed.

(** An open mark that covers nothing is closed. *)
Lemma closeEmpty_inv r :
  inv r → t_handed (r_tail r) = lastIndex r → r_hardStateDirty r = false →
  r_dirtyMark r ≠ 0 → r_markHandedOff r = false →
  inv (r <| r_dirtyMark := 0 |> <| r_markHandedOff := false |>).
Proof.
  intros [[] [] [Hw Ho Hc He]] Hh Hs Hd Hm. pose proof Hw as [].
  set (r' := r <| r_dirtyMark := 0 |> <| r_markHandedOff := _ |>).
  assert (HL : lastIndex r' = lastIndex r) by done. specialize (He Hd Hm Hh Hs).
  split; [by split|by split|split; [split|..]]; rewrite ?HL; cbn; try done; try lia.
  - intros [?|?]; [lia|congruence].
Qed.

(** Something has to be written before the next hand-over. *)
Definition hands (r : Raft) : bool :=
  r_hardStateDirty r || (t_handed (r_tail r) <? lastIndex r).

Definition afterReady (r : Raft) : Raft :=
  if hands r then handOver r
  else if negb (r_dirtyMark r =? 0) && negb (r_markHandedOff r)
  then closeEmptyMark (r_dirtyMark r) r else r.

(** Everything a hand-over holds, and the state it leaves. *)
Definition theReady (r : Raft) : Ready :=
  MkReady (if r_hardStateDirty r then Some (MkHardState (r_term r) (r_vote r)) else None)
    (unhanded r) (r_snapTo r) (r_pendingSnap r) (if hands r then r_dirtyMark r else 0)
    (r_readyReads r) (match r_pendingSnap r with Some _ => r_snapMark r | None => 0 end)
    (r_msgs r)
    (drop (Z.to_nat (r_appliedIdx r - r_snapIndex r)) (upto r (r_commitIndex r))).

Lemma hands_spec r :
  inv r → lastIndex r + 1 < 2 ^ 64 →
  bool_decide (is_Some (if r_hardStateDirty r then Some (MkHardState (r_term r) (r_vote r)) else None))
  || negb (bool_decide (unhanded r = [])) = hands r.
Proof.
  intros Hinv Hb. destruct (unhanded_spec r Hinv Hb) as (_ & Hnil & _). destruct Hinv as [[] _ _].
  unfold hands. f_equal; [by destruct (r_hardStateDirty r)|].
  apply eq_true_iff_eq. rewrite negb_true_iff, bool_decide_eq_false, Hnil, Z.ltb_lt. lia.
Qed.

Lemma Ready_unfold r :
  inv r → lastIndex r + 1 < 2 ^ 64 →
  Ready_ r = Some (theReady r,
    afterReady r <| r_readyReads := [] |> <| r_pendingSnap := None |> <| r_snapTo := [] |>
      <| r_msgs := [] |> <| r_hardStateDirty := false |>).
Proof.
  intros Hinv Hb. unfold Ready_. cbv zeta.
  set (r0 := r <| r_readyReads := [] |> <| r_pendingSnap := None |> <| r_snapTo := [] |>).
  destruct (unhanded_spec r Hinv Hb) as (Hu & Hnil & Hlast).
  change (if t_handed (r_tail r0) <? lastIndex r0
          then suffixFrom r0 (add64 (t_handed (r_tail r0)) 1) else Some [])
    with (if t_handed (r_tail r) <? lastIndex r
          then suffixFrom r (add64 (t_handed (r_tail r)) 1) else Some []).
  rewrite Hu. cbn [mbind option_bind].
  set (r1 := if r_hardStateDirty r0 then r0 <| r_hsMark := _ |> else r0).
  assert (Hcm : committedEntries r1 = committedEntries r).
  { unfold r1. change (r_hardStateDirty r0) with (r_hardStateDirty r).
    by destruct (r_hardStateDirty r). }
  destruct (committedEntries_spec r Hinv Hb) as (es & Hes & ->).
  rewrite Hcm, Hes. cbn [mbind option_bind].
  change (r_hardStateDirty r0) with (r_hardStateDirty r).
  change (r_term r0) with (r_term r). change (r_vote r0) with (r_vote r).
  rewrite (hands_spec r Hinv Hb). f_equal. unfold theReady. f_equal.
  unfold afterReady. destruct (hands r) eqn:Eh.
  - destruct (last (unhanded r)) as [e|] eqn:El.
    + rewrite (Hlast e eq_refl). unfold r1. change (r_hardStateDirty r0) with (r_hardStateDirty r).
      by destruct r, r_hardStateDirty.
    + apply last_None in El. apply Hnil in El as HE. pose proof Hinv as [[] _ _].
      unfold hands in Eh. rewrite HE, Z.ltb_irrefl, orb_false_r in Eh.
      unfold r1, handOver. change (r_hardStateDirty r0) with (r_hardStateDirty r).
      rewrite Eh.
      assert (Htl : MkLogTail (t_persisted (r_tail r)) (lastIndex r) = r_tail r)
        by (rewrite <- HE; by destruct (r_tail r)).
      assert (Hml : lastIndex r = r_markLastIdx r) by congruence.
      rewrite Htl, Hml. by destruct r.
  - unfold hands in Eh. apply orb_false_iff in Eh as [Eh _].
    unfold r1. change (r_hardStateDirty r0) with (r_hardStateDirty r). rewrite Eh.
    change (r_markHandedOff r0) with (r_markHandedOff r).
    case_test; [|done]. unfold closeEmptyMark. change (r_dirtyMark r0) with (r_dirtyMark r).
    rewrite Z.eqb_refl. done.
Qed.

Lemma inv_drained r a b c d :
  inv r → inv (r <| r_readyReads := a |> <| r_pendingSnap := b |> <| r_snapTo := c |>
                 <| r_msgs := d |>).
Proof. by apply inv_core. Qed.

Lemma inv_hs_clean r : r_hardStateDirty r = false → inv r → inv (r <| r_hardStateDirty := false |>).
Proof. intros H. apply inv_core. unfold core. by rewrite <- H. Qed.

Lemma afterReady_inv r :
  inv r → inv (afterReady r) ∧ r_hardStateDirty (afterReady r) = false ∧ ext r (afterReady r)
  ∧ t_handed (r_tail (afterReady r)) = lastIndex r.
Proof.
  intros Hinv. pose proof Hinv as [[] _ _]. unfold afterReady. destruct (hands r) eqn:Eh.
  - split; [|split; [done|split; [by apply ext_log|done]]]. apply handOver_inv; [done|].
    unfold hands in Eh. bool_cases; auto.
  - unfold hands in Eh. bool_hyps. case_test; [|split_and!; try done; lia].
    unfold closeEmptyMark, release. rewrite Z.eqb_refl. split; [|split; [done|split]].
    + eapply inv_core; [|apply (closeEmpty_inv r)]; try done. lia.
    + by apply ext_log.
    + cbn. lia.
Qed.

Lemma Ready_drains r :
  inv r → lastIndex r + 1 < 2 ^ 64 →
  ∃ rd r', Ready_ r = Some (rd, r') ∧ inv r' ∧ ext r r'
    ∧ rd_HardState rd = (if r_hardStateDirty r then Some (MkHardState (r_term r) (r_vote r)) else None)
    ∧ rd_Entries rd = drop (Z.to_nat (t_handed (r_tail r) - r_snapIndex r)) (r_log r)
    ∧ rd_Committed rd =
        drop (Z.to_nat (r_appliedIdx r - r_snapIndex r)) (upto r (r_commitIndex r))
    ∧ rd_Messages rd = r_msgs r
    ∧ (rd_Mark rd ≠ 0 ↔ rd_HardState rd ≠ None ∨ rd_Entries rd ≠ [])
    ∧ r_hardStateDirty r' = false ∧ t_handed (r_tail r') = lastIndex r'.
Proof.
  intros Hinv Hb. rewrite (Ready_unfold r Hinv Hb).
  destruct (afterReady_inv r Hinv) as (Hi' & Hd & He & Hh).
  destruct (unhanded_spec r Hinv Hb) as (_ & Hnil & _).
  eexists _, _. split; [done|]. split_and!; try done.
  - apply inv_hs_clean; [done|]. by apply inv_drained.
  - etrans; [done|]. by apply ext_log.
  - cbn [theReady rd_Mark rd_HardState rd_Entries].
    destruct (hands r) eqn:Eh; unfold hands in Eh.
    + assert (Hor : t_handed (r_tail r) < lastIndex r ∨ r_hardStateDirty r = true)
        by (bool_cases; auto).
      destruct Hinv as [_ _ [_ Ho _ _]]. destruct (Ho Hor) as [Hm _].
      split; [intros _|done]. rewrite Hnil. destruct Hor as [?| ->]; [right; lia|by left].
    + bool_hyps. split; [done|]. rewrite Hnil. destruct Hinv as [[] _ _].
      destruct (r_hardStateDirty r); [done|]. intros [?|?]; [done|lia].
  - cbn. rewrite Hh. unfold afterReady. repeat case_test; try done.
    unfold closeEmptyMark. by rewrite Z.eqb_refl.
Qed.

(** Draining a node: [Ready] never panics, hands over exactly the hard
    state if it changed, the log entries not handed over before and the
    committed entries not yet applied, in order; it carries a mark precisely
    when there is something to write, leaves nothing to hand over, and keeps
    the node's invariant and its committed entries. *)
Theorem Ready_spec r :
  inv r → lastIndex r + 1 < 2 ^ 64 →
  ∃ rd r', Ready_ r = Some (rd, r') ∧ inv r' ∧ ext r r'
    ∧ rd_HardState rd = (if r_hardStateDirty r then Some (MkHardState (r_term r) (r_vote r)) else None)
    ∧ rd_Entries rd = drop (Z.to_nat (t_handed (r_tail r) - r_snapIndex r)) (r_log r)
    ∧ rd_Committed rd =
        drop (Z.to_nat (r_appliedIdx r - r_snapIndex r)) (upto r (r_commitIndex r))
    ∧ rd_Messages rd = r_msgs r
    ∧ (rd_Mark rd ≠ 0 ↔ rd_HardState rd ≠ None ∨ rd_Entries rd ≠ [])
    ∧ r_hardStateDirty r' = false ∧ t_handed (r_tail r') = lastIndex r'.
Proof. apply Ready_drains. Qed.

(** ** Acknowledgements *)

(** The durability bookkeeping of an acknowledgement, before the leader
    recounts. *)
Definition acked (m : PersistMark) (r : Raft) : Raft :=
  let r := r <| r_persisted := m |> in
  let r := if negb (r_hsMark r =? 0) && (r_hsMark r <=? m) then r <| r_hsMark := 0 |> else r in
  let r := if negb (r_lastHandedMark r =? 0) && (m >=? r_lastHandedMark r)
              && (r_markLastIdx r >? t_persisted (r_tail r))
           then r <| r_tail := MkLogTail (r_markLastIdx r) (t_handed (r_tail r)) |> else r in
  releaseThrough m r.

(** [acked], field by field. *)
Lemma acked_core m r :
  core (acked m r) = core
    (r <| r_persisted := m |>
       <| r_hsMark := if negb (r_hsMark r =? 0) && (r_hsMark r <=? m) then 0 else r_hsMark r |>
       <| r_tail := MkLogTail
            (if negb (r_lastHandedMark r =? 0) && (m >=? r_lastHandedMark r)
                && (r_markLastIdx r >? t_persisted (r_tail r))
             then r_markLastIdx r else t_persisted (r_tail r)) (t_handed (r_tail r)) |>
       <| r_dirtyMark := if negb (r_dirtyMark r =? 0) && (r_dirtyMark r <=? m)
                         then 0 else r_dirtyMark r |>
       <| r_markHandedOff := if negb (r_dirtyMark r =? 0) && (r_dirtyMark r <=? m)
                             then false else r_markHandedOff r |>).
Proof.
  unfold acked, releaseThrough. rewrite core_release. cbv zeta.
  destruct (negb (r_hsMark r =? 0) && (r_hsMark r <=? m)) eqn:E1;
  destruct (negb (r_lastHandedMark r =? 0) && (m >=? r_lastHandedMark r)
            && (r_markLastIdx r >? t_persisted (r_tail r))) eqn:E2;
  destruct (negb (r_dirtyMark r =? 0) && (r_dirtyMark r <=? m)) eqn:E3;
  unfold core; cbn; rewrite ?E1; cbn; rewrite ?E2; cbn; rewrite ?E3; rewrite Z.gtb_ltb, Z.ltb_irrefl;
  cbn; rewrite ?E3; cbn; destruct (r_tail r); reflexivity.
Qed.

Lemma acked_inv m r :
  inv r → r_persisted r < m ≤ r_lastHandedMark r → inv (acked m r) ∧ ext r (acked m r).
Proof.
  intros [[] [] [[] Ho Hc He]] Hm.
  assert (Hcl : r_dirtyMark r ≠ 0 → r_dirtyMark r ≤ m →
                r_markHandedOff r = true ∧ m = r_lastHandedMark r
                ∧ t_handed (r_tail r) = lastIndex r ∧ r_hardStateDirty r = false).
  { intros Hd Hle. destruct (r_markHandedOff r) eqn:Eh; [|specialize (mk_fresh Hd eq_refl); lia].
    destruct (mk_handed eq_refl) as [Hd' _]. split_and!; [done|lia|..].
    - destruct (decide (t_handed (r_tail r) < lastIndex r)) as [Hlt|]; [|lia].
      by destruct (Ho (or_introl Hlt)) as [_ ?].
    - destruct (r_hardStateDirty r) eqn:Ed; [|done]. by destruct (Ho (or_intror eq_refl)) as [_ ?]. }
  assert (Hext : ext r (acked m r)).
  { pose proof (core_log _ _ (acked_core m r)) as (E1 & E2 & E3 & _). apply ext_log; [done..|].
    rewrite E3. cbn. lia. }
  split; [|done]. eapply inv_core; [apply acked_core|]. rewrite Z.gtb_ltb, Z.geb_leb.
  set (r' := r <| r_persisted := m |>
    <| r_hsMark := _ |> <| r_tail := _ |> <| r_dirtyMark := _ |> <| r_markHandedOff := _ |>).
  assert (HL : lastIndex r' = lastIndex r) by done.
  split; [|by split|split; [split|..]]; rewrite ?HL.
  - split; rewrite ?HL; cbn; try done; repeat case_test; lia.
  - cbn. case_test; lia.
  - cbn. lia.
  - done.
  - cbn. case_test; [done|auto].
  - cbn. case_test; [done|auto].
  - cbn. lia.
  - cbn. case_test; lia.
  - cbn. case_test; [done|]. intros Hn. bool_cases; lia.
  - cbn. case_test; [|done]. destruct Hcl as (_ & _ & ? & ?); [done..|]. intros [?|?]; [lia|congruence].
  - cbn. destruct (negb (r_dirtyMark r =? 0) && (r_dirtyMark r <=? m)) eqn:Ed; bool_hyps.
    + destruct Hcl as (_ & -> & ? & ?); [done..|]. rewrite ls_markLast. case_test; [lia|].
      bool_cases; lia.
    + intros Hlt. apply Hc. case_test_in Hlt; lia.
  - cbn. case_test; [done|]. intros. rewrite He by done. case_test; [|done]. bool_hyps. lia.
Qed.

Lemma keptInv_maybeCommit r : inv r → keptInv r (maybeCommit r).
Proof.
  intros Hi. pose proof Hi as [[] _ _]. destruct (maybeCommit_core r) as (c & Hc & Heq); [lia|].
  split; [eapply inv_core; [done|by apply inv_set_commit]|].
  apply core_log in Heq as (E1 & E2 & E3 & _). apply ext_log; [done..|]. rewrite E3. cbn. lia.
Qed.

(** An acknowledgement names a mark that was handed over. *)
Lemma AckPersisted_spec m r :
  inv r → m ≤ r_lastHandedMark r → ∃ r', AckPersisted m r = Some r' ∧ keptInv r r'.
Proof.
  intros Hinv Hm. unfold AckPersisted.
  destruct (m <=? r_persisted r) eqn:E; bool_hyps; [eexists; split; [done|by split]|].
  cbv zeta.
  destruct (acked_inv m r Hinv) as [Hi He]; [lia|].
  change (releaseThrough m _) with (acked m r).
  revert Hi He. generalize (acked m r). intros a Hi He. pose proof Hi as [_ [] _].
  assert (Hk : ∀ r', keptInv a r' → keptInv r r').
  { intros r' []. split; [done|]. by etrans. }
  case_test; [|eexists; split; [done|by split]].
  destruct (peerIdx a (r_id a)) as [i|] eqn:Ei; [|eexists; split; [done|by split]].
  destruct (peer_slot (r_matchIndex a) a _ i Ei) as [x ->]; [done|]. cbn [mbind option_bind].
  case_test; [|eexists; split; [done|by split]].
  destruct (peer_set (r_matchIndex a) (persistedIndex a) a _ i Ei) as [ms Hms]; [done|].
  rewrite Hms. cbn [mbind option_bind]. eexists. split; [done|]. apply Hk.
  apply slice_set_length, core_matchIndex in Hms.
  revert Hms. generalize (a <| r_matchIndex := ms |>). intros b Hc.
  assert (Hib : inv b) by by eapply inv_core.
  assert (Heb : ext a b).
  { apply core_log in Hc as (? & ? & ? & _). apply ext_log; [done..|lia]. }
  assert (H : keptInv b (maybeCommit b)); [by apply keptInv_maybeCommit|].
  destruct H. split; [done|]. by etrans.
Qed.

Lemma keptInv_AckSnapshot m r : inv r → keptInv r (AckSnapshot m r).
Proof.
  intros Hi. assert (Hc : core (AckSnapshot m r) = core r).
  { unfold AckSnapshot. repeat case_test; done. }
  split; [by eapply inv_core|]. apply core_log in Hc as (? & ? & ? & _). apply ext_log; [done..|lia].
Qed.

Lemma keptInv_AckApplied i r : inv r → i ≤ r_commitIndex r → keptInv r (AckApplied i r).
Proof.
  intros Hi Hc. unfold AckApplied. rewrite Z.gtb_ltb. case_test; [|by split].
  split; [|by apply ext_log]. destruct Hi as [[] [] [[] ? ? ?]].
  split; [|by split|split; [by split|done..]]. split; try done; cbn; lia.
Qed.

(** ** Construction and recovery *)

Lemma initialConf_wf cfg : conf_wf (initialConf cfg).
Proof.
  unfold initialConf.
  assert (H : ∀ ps c, conf_wf c → (∀ n, n ∈ Voters c → contains (cfg_Learners cfg) n = false) →
    (∀ n, n ∈ Learners c → contains (cfg_Learners cfg) n = true) →
    conf_wf (foldl (λ c p, if contains (cfg_Learners cfg) p
      then MkConfiguration (Voters c) (insertID (Learners c) p)
      else MkConfiguration (insertID (Voters c) p) (Learners c)) c ps)).
  { induction ps as [|p ps IH]; intros c [] Hv Hl; [done|]. cbn [foldl].
    destruct (contains (cfg_Learners cfg) p) eqn:E; apply IH; cbn.
    - split; cbn; [done|by apply insertID_ok|]. intros n Hn [->|?]%elem_of_insertID.
      + apply Hv in Hn. congruence.
      + by eapply cw_disjoint.
    - done.
    - intros n [->|?]%elem_of_insertID; auto.
    - split; cbn; [by apply insertID_ok|done|]. intros n [->|?]%elem_of_insertID Hn.
      + apply Hl in Hn. congruence.
      + by eapply cw_disjoint.
    - intros n [->|?]%elem_of_insertID; auto.
    - done. }
  apply H; cbn; [split; cbn; try constructor|..]; intros n Hn; by apply elem_of_nil in Hn.
Qed.

Lemma New_inv cfg r : New cfg = Ok r → inv r ∧ r = freshRaft cfg (initialConf cfg)
  ∧ Voters (initialConf cfg) ≠ [].
Proof.
  unfold New. do 2 (case_test; [done|]). destruct (check_peers _ _); [done|].
  repeat case_test; try done. intros [= <-].
  assert (Hne : Voters (initialConf cfg) ≠ []) by by destruct (Voters (initialConf cfg)).
  split_and!; [|done|done].
  assert (Hlog : log_ok 0 []) by apply log_ok_nil.
  split; [split|split|split; [split|..]]; try done; cbn; try lia; try apply length_replicate.
  - apply initialConf_wf.
Qed.

Lemma gapless_log_ok next es :
  0 ≤ next → next + Z.of_nat (length es) ≤ 2 ^ 64 → gapless next es = true →
  log_ok (next - 1) es.
Proof.
  revert next. induction es as [|e es IH]; intros next Hn Hb H; [apply log_ok_nil|].
  cbn [gapless length] in *. bool_hyps. rewrite u64_small in H by (unfold is_u64; lia).
  apply IH in H0; [|lia|lia]. intros [|k] x Hx; cbn in Hx.
  - simplify_eq. lia.
  - apply H0 in Hx. lia.
Qed.

(** A log read back from disk: nothing in flight, everything durable. *)
Record recovered (r : Raft) : Prop := MkRecovered {
  rc_snap : 0 ≤ r_snapIndex r;
  rc_log : log_ok (r_snapIndex r) (r_log r);
  rc_last : lastIndex r < 2 ^ 64;
  rc_base : conf_wf (r_baseConf r) ∧ Voters (r_baseConf r) ≠ [];
  rc_commit : r_commitIndex r = r_snapIndex r ∧ r_appliedIdx r = r_snapIndex r;
  rc_marks : r_dirtyMark r = 0 ∧ r_nextMark r = 0 ∧ r_lastHandedMark r = 0 ∧ r_persisted r = 0
             ∧ r_hsMark r = 0 ∧ r_markHandedOff r = false ∧ r_hardStateDirty r = false;
}.

Lemma recovered_inv r :
  recovered r →
  let r' := recomputeConf r in
  inv (r' <| r_tail := MkLogTail (lastIndex r') (lastIndex r') |> <| r_markLastIdx := lastIndex r' |>).
Proof.
  intros [Hs Hlog HL [Hb1 Hb2] [Hc1 Hc2] (M1 & M2 & M3 & M4 & M5 & M6 & M7)]. cbv zeta.
  pose proof (recomputeConf_frame r) as [[= F1 F2 F3 F4 F5 F6 F7] [= G1 G2 G3 G4 G5 G6 G7 _ _ _]].
  pose proof (peer_shape_recomputeConf r) as [].
  pose proof (lastIndex_ext r (recomputeConf r) F1 F2) as FL.
  pose proof (lastIndex_length r Hlog).
  set (r' := recomputeConf r) in *. clearbody r'.
  set (r2 := r' <| r_tail := _ |> <| r_markLastIdx := _ |>).
  assert (HL2 : lastIndex r2 = lastIndex r') by done.
  split; [split|by split|split; [split|..]]; rewrite ?HL2; cbn; try congruence; try lia.
  - by rewrite F1, F2.
  - intros [?|?]; [lia|congruence].
Qed.

Lemma Restore_inv cfg hs snap es r :
  0 ≤ sm_Index snap → sm_Index snap + Z.of_nat (length es) < 2 ^ 64 →
  conf_wf (sm_Conf snap) → Restore cfg hs snap es = Ok r →
  inv r ∧ r_term r = hs_Term hs ∧ r_vote r = hs_Vote hs ∧ r_log r = es
  ∧ r_snapIndex r = sm_Index snap ∧ r_snapTerm r = sm_Term snap
  ∧ t_persisted (r_tail r) = lastIndex r ∧ r_commitIndex r = sm_Index snap.
Proof.
  intros Hs Hb Hwf. unfold Restore. destruct (New cfg) as [r0|] eqn:E0; [|done].
  apply New_inv in E0 as (_ & -> & Hne). cbv zeta. case_test; [done|].
  apply gapless_log_ok in E; [|lia|lia]. replace (sm_Index snap + 1 - 1) with (sm_Index snap) in E by lia.
  set (base := if bool_decide _ then _ else _).
  assert (Hbase : conf_wf base ∧ Voters base ≠ []).
  { unfold base. destruct (bool_decide_reflect (Voters (sm_Conf snap) = [])); [|done].
    split; [apply initialConf_wf|done]. }
  clearbody base.
  set (r1 := freshRaft cfg (initialConf cfg) <| r_term := _ |> <| r_vote := _ |>
    <| r_snapIndex := _ |> <| r_snapTerm := _ |> <| r_baseConf := base |> <| r_log := _ |>
    <| r_commitIndex := _ |> <| r_appliedIdx := _ |>).
  assert (Hrec : recovered r1).
  { split; try done. rewrite lastIndex_length by done. exact Hb. }
  apply recovered_inv in Hrec as Hi. cbv zeta in Hi.
  intros H. assert (H' : recomputeConf r1
    <| r_tail := MkLogTail (lastIndex (recomputeConf r1)) (lastIndex (recomputeConf r1)) |>
    <| r_markLastIdx := lastIndex (recomputeConf r1) |> = r) by congruence.
  rewrite <- H'. clear H H' r. split; [done|].
  unfold recomputeConf. by destruct (replayConf _ _ _).
Qed.
