(* ===== verification/RaftReach.v ===== *)
(** * Reachable nodes

    The entry points of [raft.Raft] put together as the operations of one
    machine: a node is built by [New] or [Restore] and then driven by any
    sequence of calls, in any order, that respects the driver's contract
    ([op_ok]).  The invariant of [RaftInv] holds of every reachable node, no
    call rewrites a committed entry, and the calls that can panic are named.
    The second half states when an entry commits. *)

From Stdlib Require Import Lia ZArith.
From stdpp Require Import base tactics numbers option list.
From S2P Require Import Prelude Bytes ConfChange RaftTypes Raft RaftInv RaftOps.

(** ** The machine *)

Inductive op :=
| OpStep (m : Message)
| OpTick
| OpSetElectionTimeout (ticks : Z)
| OpPropose (id : ProposalID) (data : bytes)
| OpProposeConfChange (id : ProposalID) (cc : ConfChangeV2)
| OpReadIndex (ctx : bytes)
| OpTransferLeadership (target : NodeID)
| OpCampaign
| OpCompact (index : Index)
| OpReady
| OpAckPersisted (mark : PersistMark)
| OpAckSnapshot (mark : PersistMark)
| OpAckApplied (index : Index).

(** One call; [None] is a panic, a refused call leaves the state it returns. *)
Definition run (o : op) (r : Raft) : option Raft :=
  match o with
  | OpStep m => snd <$> Step m r
  | OpTick => Tick r
  | OpSetElectionTimeout t => Some (SetElectionTimeout t r)
  | OpPropose id data => snd <$> Propose id data r
  | OpProposeConfChange id cc => snd <$> ProposeConfChange id cc r
  | OpReadIndex ctx => snd <$> ReadIndex ctx r
  | OpTransferLeadership t => TransferLeadership t r
  | OpCampaign => snd <$> Campaign r
  | OpCompact i => Some (snd (Compact i r))
  | OpReady => snd <$> Ready_ r
  | OpAckPersisted m => AckPersisted m r
  | OpAckSnapshot m => Some (AckSnapshot m r)
  | OpAckApplied i => Some (AckApplied i r)
  end.

(** What the driver owes: messages a node or a driver built, acknowledgements
    of marks that were handed over and of entries that were committed. *)
Definition op_ok (o : op) (r : Raft) : Prop :=
  match o with
  | OpStep m => msg_ok m
  | OpAckPersisted m => m ≤ r_lastHandedMark r
  | OpAckApplied i => i ≤ r_commitIndex r
  | _ => True
  end.

(** The 64-bit counters are not at the end of their range. *)
Definition headroom (r : Raft) : Prop :=
  r_nextMark r + 1 < 2 ^ 64 ∧ lastIndex r + 1 < 2 ^ 64.

Lemma good_of_inv r : inv r → headroom r → good r.
Proof. intros Hi [Hm _]. split; [done|]. by left. Qed.

Lemma run_keptInv o r r' :
  inv r → headroom r → op_ok o r → run o r = Some r' → keptInv r r'.
Proof.
  intros Hi Hh Ho. pose proof (good_of_inv r Hi Hh) as Hg. destruct Hh as [_ Hb].
  destruct o as [m| |t|id data|id cc|ctx|t| |i| |m|m|i]; cbn [run op_ok] in *.
  - intros ([e r1] & H & ->)%fmap_Some. by eapply kept_keptInv, kept_Step.
  - intros H. destruct (Tick_spec r Hg Hb) as (r1 & H1 & Hk). rewrite H in H1.
    apply (inj Some) in H1 as <-. by apply kept_keptInv.
  - intros [= <-]. apply kept_keptInv. unfold SetElectionTimeout.
    case_test; [by apply kept_core|by apply kept_refl].
  - destruct (Propose_spec id data r Hg Hb) as (e & r1 & H1 & Hk). rewrite H1. intros [= <-].
    by apply kept_keptInv.
  - destruct (ProposeConfChange_spec id cc r Hg Hb) as (e & r1 & H1 & Hk). rewrite H1.
    intros [= <-]. by apply kept_keptInv.
  - destruct (ReadIndex_spec ctx r Hg) as (e & r1 & H1 & Hk). rewrite H1. intros [= <-].
    by apply kept_keptInv.
  - intros H. destruct (decide (t = r_id r)) as [->|Ht].
    { unfold TransferLeadership in H. by rewrite Z.eqb_refl in H. }
    destruct (TransferLeadership_spec t r Hg Ht) as (r1 & H1 & Hk). rewrite H in H1.
    apply (inj Some) in H1 as <-. by apply kept_keptInv.
  - intros ([e r1] & H & ->)%fmap_Some. by eapply kept_keptInv, kept_Campaign.
  - intros [= <-]. destruct (Compact i r) as [res r1] eqn:E. by eapply keptInv_Compact.
  - destruct (Ready_drains r Hi Hb) as (rd & r1 & H1 & Hi1 & He1 & _). rewrite H1.
    intros [= <-]. by split.
  - intros H. destruct (AckPersisted_spec m r Hi Ho) as (r1 & H1 & Hk). congruence.
  - intros [= <-]. by apply keptInv_AckSnapshot.
  - intros [= <-]. by apply keptInv_AckApplied.
Qed.

(** A node as it is built, and driven from there. *)
Inductive reachable : Raft → Prop :=
| reach_new cfg r : New cfg = Ok r → reachable r
| reach_restore cfg hs snap es r :
    0 ≤ sm_Index snap → sm_Index snap + Z.of_nat (length es) < 2 ^ 64 →
    conf_wf (sm_Conf snap) → Restore cfg hs snap es = Ok r → reachable r
| reach_run o r r' :
    reachable r → headroom r → op_ok o r → run o r = Some r' → reachable r'.

Lemma reachable_inv_lemma r : reachable r → inv r.
Proof.
  induction 1 as [cfg r H|cfg hs snap es r H1 H2 H3 H|o r r' _ IH Hh Ho H].
  - by apply New_inv in H as [? _].
  - by apply Restore_inv in H as [? _].
  - by eapply ki_inv, run_keptInv.
Qed.

(** C6. The structural invariant holds of every reachable node: its log is
    gapless above its snapshot, snapshot <= applied <= commit <= last and
    snapshot <= persisted <= handed over <= last, the active configuration is
    the replay of the log over the snapshot's, every peer-indexed slice has the
    peer set's length, and every piece of state that is not durable is covered
    by a durability mark. *)
Theorem reachable_inv r : reachable r → inv r.
Proof. apply reachable_inv_lemma. Qed.

(** C4. Nothing committed is ever undone: whatever the call, a reachable node's
    commit and snapshot indices never move back, and every committed entry it
    still holds afterwards is the entry it held before. *)
Theorem committed_entries_stable o r r' :
  reachable r → headroom r → op_ok o r → run o r = Some r' →
  r_commitIndex r ≤ r_commitIndex r' ∧ r_snapIndex r ≤ r_snapIndex r'
  ∧ ∀ i, r_snapIndex r' < i ≤ r_commitIndex r → at_ r' i = at_ r i ∧ is_Some (at_ r i).
Proof.
  intros Hr Hh Ho H. apply reachable_inv_lemma in Hr as Hi. pose proof Hi as [[] _ _].
  destruct (run_keptInv o r r' Hi Hh Ho H) as [_ []]. split_and!; [done|done|].
  intros i Hii. split; [by apply ext_at|].
  destruct (at_total r ls_log i) as [e He]; [lia|]. by exists e.
Qed.

(** The self-check on the configuration cannot fire: in every reachable
    node the cached active configuration equals the one recomputed from the
    log, so [AssertConfConsistent] reports at most a refused entry. *)
Theorem AssertConfConsistent_reachable r :
  reachable r → AssertConfConsistent r ≠ Some ErrConfInconsistent.
Proof.
  intros [_ [] _]%reachable_inv_lemma. unfold AssertConfConsistent.
  destruct (r_confRefusal r); [done|]. cbv zeta.
  assert (Heq : Configuration_Equal (r_conf r) (fst (replayConf (r_log r) (r_baseConf r) None)) = true)
    by by apply Configuration_Equal_eq.
  by rewrite Heq.
Qed.

(** ** The calls that can panic *)

Lemma stepSnap_total m r : good r → ∃ r', stepSnap m r = Some r'.
Proof.
  intros Hg. unfold stepSnap. case_test; [eauto|]. cbv zeta. fold (appFollower m r).
  pose proof (appFollower_good m r Hg) as Hgf. revert Hgf. generalize (appFollower m r).
  intros f Hgf. case_test; [|destruct (DecodeConfiguration _); eauto].
  destruct (marksFor_total f (lastIndex f)) as [[lm sm] ->]; [apply Hgf|lia|]. cbn. eauto.
Qed.

Lemma stepApp_total m r :
  good r → app_ok m → agrees_committed (m_Entries m) r → ∃ r', stepApp m r = Some r'.
Proof.
  intros Hg Ha Hag. destruct (decide (m_Term m < r_term r)) as [Ht|Ht].
  { unfold stepApp. replace (m_Term m <? r_term r) with true by lia. eauto. }
  destruct (matches_ r (m_PrevLogIndex m) (m_PrevLogTerm m)) eqn:Hm.
  - destruct (stepApp_accepted m r) as (r' & H & _); [done..|lia|done|done|]. eauto.
  - rewrite stepApp_unfold by lia. cbv zeta. rewrite Hm. cbn. eauto.
Qed.

Lemma dispatch_total m r :
  good r → lastIndex r + 1 < 2 ^ 64 → member r → msg_ok m →
  (m_Type m = MsgApp → agrees_committed (m_Entries m) r) → ∃ r', dispatch m r = Some r'.
Proof.
  intros Hg Hb Hm Hok Hag. unfold dispatch, msg_ok in *. destruct (m_Type m) eqn:Et; eauto.
  - by apply stepVoteResp_total.
  - apply stepApp_total; auto.
  - destruct (stepAppResp_spec m r Hg) as (r1 & -> & _). cbn. eauto.
  - destruct (stepPreVoteResp_spec m r) as (r1 & -> & _); eauto.
  - by apply stepSnap_total.
  - unfold stepTimeoutNow. case_test; [eauto|].
    destruct (forceCampaign_spec r) as (r1 & -> & _); eauto.
  - case_test; [|eauto]. set (q := MkReadReq _ _ _ _ _). apply broadcastAppend_total.
    by apply kept_recordRead.
Qed.

(** What the protocol owes: an append does not contradict committed entries
    (the election restriction), and a leader does not transfer to itself. *)
Definition op_safe (o : op) (r : Raft) : Prop :=
  match o with
  | OpStep m => m_Type m = MsgApp → agrees_committed (m_Entries m) r
  | OpTransferLeadership t => t ≠ r_id r
  | _ => True
  end.

Lemma Step_total m r :
  good r → lastIndex r + 1 < 2 ^ 64 → member r → msg_ok m →
  (m_Type m = MsgApp → agrees_committed (m_Entries m) r) → ∃ e r', Step m r = Some (e, r').
Proof.
  intros Hg Hb Hm Hok Hag. unfold Step, refused, done_with. do 2 (case_test; [eauto|]).
  destruct (observeTerm_frame m r) as (F0 & F1 & F2 & F3 & _ & F4 & _ & _ & F5 & _).
  destruct (dispatch_total m (observeTerm m r)) as [r' ->]; cbn; eauto.
  - by apply kept_observeTerm.
  - by rewrite (lastIndex_ext r).
  - unfold member. by rewrite F0, F5.
  - intros Ht. by eapply agrees_committed_ext; [..|apply Hag].
Qed.

(** C8. The panics of the state machine: a reachable node that is in its own
    configuration, and whose 64-bit counters are not at their end, answers every call
    the driver may make ([op_ok]), as long as an append does not contradict what it has
    committed and a transfer names another node ([op_safe]).  The conditions are needed:
    a node outside its configuration panics ([removed_node_panics]), a leader panics on
    a transfer to itself and a follower on an append that would rewrite what it has
    committed, both by design of the source. *)
Theorem run_total o r :
  reachable r → headroom r → op_ok o r → op_safe o r → member r → ∃ r', run o r = Some r'.
Proof.
  intros Hr Hh Ho Hs Hm. apply reachable_inv_lemma in Hr as Hi.
  pose proof (good_of_inv r Hi Hh) as Hg. destruct Hh as [_ Hb].
  destruct o as [m| |t|id data|id cc|ctx|t| |i| |m|m|i]; cbn [run op_ok op_safe] in *; eauto.
  - destruct (Step_total m r) as (e & r' & ->); cbn; eauto.
  - destruct (Tick_spec r Hg Hb) as (r1 & -> & _). eauto.
  - destruct (Propose_spec id data r Hg Hb) as (e & r1 & -> & _). cbn. eauto.
  - destruct (ProposeConfChange_spec id cc r Hg Hb) as (e & r1 & -> & _). cbn. eauto.
  - destruct (ReadIndex_spec ctx r Hg) as (e & r1 & -> & _). cbn. eauto.
  - destruct (TransferLeadership_spec t r Hg Hs) as (r1 & -> & _). eauto.
  - unfold Campaign, refused, done_with. case_test; [eauto|].
    destruct (campaign_spec r) as (r1 & -> & _); cbn; eauto.
  - destruct (Ready_drains r Hi Hb) as (rd & r1 & -> & _). cbn. eauto.
  - destruct (AckPersisted_spec m r Hi Ho) as (r1 & -> & _). eauto.
Qed.

(** ** When an entry commits *)

(** The match index recorded for a node. *)
Definition matchOf (r : Raft) (p : NodeID) : option Index :=
  i ← peerIdx r p; r_matchIndex r !! i.

Lemma index_of_inv xs n i : NoDup xs → xs !! i = Some n → index_of xs n = Some i.
Proof.
  revert i. induction xs as [|x xs IH]; intros i Hnd Hi; [by rewrite lookup_nil in Hi|].
  apply NoDup_cons in Hnd as [Hx Hnd]. destruct i as [|i]; cbn in *.
  - simplify_eq. by rewrite Z.eqb_refl.
  - destruct (x =? n) eqn:E; bool_hyps; [subst; by apply list_elem_of_lookup_2 in Hi|].
    by rewrite (IH i).
Qed.

Lemma zip_filter_sublist {A B} (P : A * B → Prop) `{∀ x, Decision (P x)} (xs : list A) (ys : list B) :
  (filter P (zip xs ys)).*1 `sublist_of` xs.
Proof.
  revert ys. induction xs as [|x xs IH]; intros [|y ys]; try apply sublist_nil_l.
  change (zip (x :: xs) (y :: ys)) with ((x, y) :: zip xs ys). rewrite filter_cons.
  case_decide; [by apply sublist_skip|by apply sublist_cons].
Qed.

(** The voters that match at [n]. *)
Definition matchers (r : Raft) (n : Index) : list NodeID :=
  (filter (λ '(p, m), IsVoter (r_conf r) p && (m >=? n) = true)
     (zip (r_peers r) (r_matchIndex r))).*1.

Lemma matchers_length r n : length (matchers r n) = matchCount r n.
Proof. apply length_fmap. Qed.

Lemma peers_nodup r : inv r → NoDup (r_peers r).
Proof.
  intros [[] [] _]. rewrite ps_peers. apply ids_ok_NoDup, Members_ok. rewrite ps_conf.
  by apply confOf_wf.
Qed.

Lemma elem_of_matchers r n p :
  inv r → p ∈ matchers r n ↔
  IsVoter (r_conf r) p = true ∧ ∃ m, matchOf r p = Some m ∧ n ≤ m.
Proof.
  intros Hi. pose proof (peers_nodup r Hi) as Hnd. unfold matchers, matchOf.
  rewrite list_elem_of_fmap. split.
  - intros ([p' m] & -> & [Hf Hz]%list_elem_of_filter). rewrite Z.geb_leb in Hf. bool_hyps. cbn.
    split; [done|]. exists m. split; [|done].
    apply list_elem_of_lookup in Hz as [i Hz]. apply lookup_zip_with_Some in Hz as (? & ? & [= -> ->] & Hp & Hm).
    unfold peerIdx. by rewrite (index_of_inv _ _ _ Hnd Hp).
  - intros (Hv & m & (i & Hp & Hm)%bind_Some & Hle). exists (p, m). split; [done|].
    apply list_elem_of_filter. rewrite Z.geb_leb. split; [by rewrite Hv, (proj2 (Z.leb_le _ _))|].
    apply (list_elem_of_lookup_2 _ i). apply lookup_zip_with_Some. exists p, m.
    split_and!; [done| |done]. by apply index_of_lookup.
Qed.

(** An index this leader may commit by counting: an entry of its own term that
    a majority of the voters of the active configuration match. *)
Definition committable (r : Raft) (n : Index) : Prop :=
  termAt r n = r_term r ∧
  ∃ q, is_quorum (r_conf r) q ∧ ∀ p, p ∈ q → ∃ m, matchOf r p = Some m ∧ n ≤ m.

Lemma committable_test r n :
  inv r → committable r n ↔ termAt r n = r_term r ∧ (quorum r ≤ matchCount r n)%nat.
Proof.
  intros Hi. unfold committable. f_equiv. split.
  - intros (q & (Hnd & Hv & Hq) & Hm). rewrite <- matchers_length. unfold quorum.
    etrans; [done|]. apply submseteq_length, NoDup_submseteq; [done|]. intros p Hp.
    apply elem_of_matchers; [done|]. split; [by eapply Forall_forall in Hv|by apply Hm].
  - intros Hc. exists (matchers r n). split; [split_and!|].
    + eapply sublist_NoDup; [by apply (peers_nodup r)|apply zip_filter_sublist].
    + apply Forall_forall. intros p Hp. by apply elem_of_matchers in Hp as [? _].
    + by rewrite matchers_length.
    + intros p Hp. by apply elem_of_matchers in Hp as [_ ?].
Qed.

Lemma stepDownIfRemoved_commit r : r_commitIndex (stepDownIfRemoved r) = r_commitIndex r.
Proof. apply core_log, core_stepDownIfRemoved. Qed.

Lemma maybeCommit_loop_spec k r :
  inv r → let c := r_commitIndex (maybeCommit_loop k r) in
  (c = r_commitIndex r ∨ (r_commitIndex r < c ≤ r_commitIndex r + Z.of_nat k ∧ committable r c))
  ∧ ∀ n, c < n ≤ r_commitIndex r + Z.of_nat k → ¬ committable r n.
Proof.
  intros Hi. cbv zeta. induction k as [|k IH]; cbn [maybeCommit_loop].
  { split; [by left|]. intros n Hn. lia. }
  assert (Hskip : ¬ committable r (r_commitIndex r + Z.of_nat (S k)) →
    let c := r_commitIndex (maybeCommit_loop k r) in
    (c = r_commitIndex r ∨ (r_commitIndex r < c ≤ r_commitIndex r + Z.of_nat (S k) ∧ committable r c))
    ∧ ∀ n, c < n ≤ r_commitIndex r + Z.of_nat (S k) → ¬ committable r n).
  { intros Hno. destruct IH as [IH1 IH2]. split; [intuition lia|]. intros n Hn.
    destruct (decide (n = r_commitIndex r + Z.of_nat (S k))) as [->|]; [done|apply IH2; lia]. }
  rewrite committable_test in Hskip by done.
  case_test; [apply Hskip; intros [? _]; lia|].
  destruct (quorum r <=? matchCount r _)%nat eqn:Eq; [apply Nat.leb_le in Eq|apply Nat.leb_gt in Eq].
  - rewrite stepDownIfRemoved_commit. cbn [r_commitIndex update_field]. cbn. split.
    + right. split; [lia|]. by apply committable_test.
    + intros n Hn. lia.
  - apply Hskip. intros [_ ?]. lia.
Qed.

(** C5. The commit rule: recounting moves the commit index exactly to the
    highest index whose entry is of the leader's own term and is matched by a
    majority of the voters of the active configuration, if there is one above
    it, and leaves it alone otherwise.  An entry of an earlier term is never
    committed by counting. *)
Theorem maybeCommit_spec r :
  inv r → let c := r_commitIndex (maybeCommit r) in
  (c = r_commitIndex r ∨ (r_commitIndex r < c ≤ lastIndex r ∧ committable r c))
  ∧ ∀ n, c < n ≤ lastIndex r → ¬ committable r n.
Proof.
  intros Hi. pose proof Hi as [[] _ _]. unfold maybeCommit.
  pose proof (maybeCommit_loop_spec (Z.to_nat (lastIndex r - r_commitIndex r)) r Hi) as H.
  by replace (r_commitIndex r + Z.of_nat (Z.to_nat (lastIndex r - r_commitIndex r)))
    with (lastIndex r) in H by lia.
Qed.
