(* ===== verification/RaftSnap.v ===== *)
(** * The snapshot waiting to be installed

    [Raft.pendingSnap] is set by [stepSnap] alone and cleared by [Ready]; a node
    jumps to the snapshot the moment it accepts it, so in every reachable node
    the one waiting is at or below the commit index.  The file follows every
    other operation of raft/raft.go through to the field it leaves alone. *)

From Stdlib Require Import Lia ZArith.
From stdpp Require Import base tactics numbers option gmap list.
From S2P Require Import Prelude Bytes ConfChange RaftTypes Raft RaftInv RaftOps RaftReach.

Definition waits (s : option RaftTypes.Snapshot) (x : option Raft) : Prop := ∀ r, x = Some r → r_pendingSnap r = s.

Lemma waits_some s r : r_pendingSnap r = s → waits s (Some r).
Proof. by intros H ? [= <-]. Qed.
Lemma waits_none s : waits s None.
Proof. done. Qed.
Lemma waits_bind {A} s (x : option A) f : (∀ a, waits s (f a)) → waits s (x ≫= f).
Proof. intros Hf. destruct x; [apply Hf|done]. Qed.
Lemma waits_raft s (x : option Raft) f : waits s x → (∀ r, r_pendingSnap r = s → waits s (f r)) → waits s (x ≫= f).
Proof. intros Hx Hf. destruct x as [r|]; [by apply Hf, Hx|done]. Qed.
Lemma waits_fold {A} s (f : Raft → A → option Raft) xs r :
  (∀ r x, r_pendingSnap r = s → waits s (f r x)) → r_pendingSnap r = s → waits s (foldM f r xs).
Proof.
  intros Hf. revert r. induction xs as [|x xs IH]; intros r Hr; cbn [foldM]; [by apply waits_some|].
  apply waits_raft; [by apply Hf|done].
Qed.

Lemma dirty_waits r : r_pendingSnap (dirty r) = r_pendingSnap r.
Proof. unfold dirty. by case_test. Qed.
Lemma setTermAndVote_waits t v r : r_pendingSnap (setTermAndVote t v r) = r_pendingSnap r.
Proof. unfold setTermAndVote. case_test; [by rewrite dirty_waits|done]. Qed.
Lemma setVote_waits v r : r_pendingSnap (setVote v r) = r_pendingSnap r.
Proof. unfold setVote. case_test; [by rewrite dirty_waits|done]. Qed.
Lemma sendGatedOn_waits a b m r : r_pendingSnap (sendGatedOn a b m r) = r_pendingSnap r.
Proof. unfold sendGatedOn. by case_test. Qed.
Lemma sendGated_waits m r : r_pendingSnap (sendGated m r) = r_pendingSnap r.
Proof. apply sendGatedOn_waits. Qed.
Lemma becomeFollower_waits t v r : r_pendingSnap (becomeFollower t v r) = r_pendingSnap r.
Proof. unfold becomeFollower. case_test; [|done]. by rewrite <- (setTermAndVote_waits t v r). Qed.
Lemma recomputeConf_waits r : r_pendingSnap (recomputeConf r) = r_pendingSnap r.
Proof. unfold recomputeConf. by destruct (replayConf _ _ _). Qed.
Lemma stepDownIfRemoved_waits r : r_pendingSnap (stepDownIfRemoved r) = r_pendingSnap r.
Proof. unfold stepDownIfRemoved. repeat case_test; try done. by rewrite <- (becomeFollower_waits (r_term r) (r_vote r) r). Qed.
Lemma maybeCommit_waits r : r_pendingSnap (maybeCommit r) = r_pendingSnap r.
Proof.
  unfold maybeCommit. generalize (Z.to_nat (lastIndex r - r_commitIndex r)). intros k. revert r.
  induction k as [|k IH]; intros r; [done|]. cbn [maybeCommit_loop]. repeat case_test; [done| |done].
  by rewrite stepDownIfRemoved_waits.
Qed.
Lemma confirmOne_waits qs acc : r_pendingSnap (fst (foldl confirmOne acc qs)) = r_pendingSnap (fst acc).
Proof.
  revert acc. induction qs as [|q qs IH]; intros [r kept]; [done|]. cbn [foldl]. rewrite IH.
  unfold confirmOne. repeat case_test; [done|done|cbn [fst]; by rewrite sendGated_waits].
Qed.
Lemma maybeConfirmReads_waits r : r_pendingSnap (maybeConfirmReads r) = r_pendingSnap r.
Proof.
  unfold maybeConfirmReads. destruct (r_pendingReads r) as [|q qs]; [done|].
  pose proof (confirmOne_waits (q :: qs) (r, [])) as H. destruct (foldl _ _ _) as [r' kept]. exact H.
Qed.
Lemma release_waits r : r_pendingSnap (release r) = r_pendingSnap r.
Proof. done. Qed.

#[local] Hint Rewrite dirty_waits setTermAndVote_waits setVote_waits sendGatedOn_waits sendGated_waits becomeFollower_waits
  recomputeConf_waits stepDownIfRemoved_waits maybeCommit_waits maybeConfirmReads_waits : waits.

(** Follow the code of an operation that never touches the pending snapshot. *)
Ltac waits_step :=
  cbv zeta;
  repeat first
    [ match goal with
      | H : ?g |- ?g => exact H
      | |- waits _ None => apply waits_none
      | |- waits _ (Some _) => apply waits_some
      | |- waits _ (foldM _ _ _) => apply waits_fold; [intros|]
      | |- waits _ (@mbind _ _ _ Raft _ _) => apply waits_raft; [|intros]
      | |- waits _ (@mbind _ _ _ _ _ _) => apply waits_bind; intros
      | |- waits _ (match ?x with _ => _ end) => destruct x
      | |- r_pendingSnap (_ <| _ := _ |>) = _ => progress cbn
      | |- _ = _ => progress autorewrite with waits
      | |- r_pendingSnap (match ?x with _ => _ end) = _ => destruct x
      | |- _ = _ => done
      end ].
Section Waits.
Context (s : option RaftTypes.Snapshot).
Implicit Type (r : Raft).
Lemma send_waits m r : r_pendingSnap r = s → waits s (send m r).
Proof. intros Hr. unfold send. waits_step. Qed.
Lemma appendOne_waits e r : r_pendingSnap r = s → waits s (appendOne r e).
Proof. intros Hr. unfold appendOne. waits_step. Qed.
Lemma appendEntries_waits es r : r_pendingSnap r = s → waits s (appendEntries es r).
Proof. intros Hr. unfold appendEntries, appendOne. waits_step. Qed.
Lemma truncateFrom_waits i r : r_pendingSnap r = s → waits s (truncateFrom i r).
Proof. intros Hr. unfold truncateFrom. waits_step. Qed.
Lemma sendAppend_waits to r : r_pendingSnap r = s → waits s (sendAppend to r).
Proof. intros Hr. unfold sendAppend, sendSnapshot. waits_step. Qed.
Lemma broadcastAppend_waits r : r_pendingSnap r = s → waits s (broadcastAppend r).
Proof. intros Hr. unfold broadcastAppend. apply waits_fold; [|done]. intros r' p Hp. case_test; [by apply waits_some|by apply sendAppend_waits]. Qed.

Ltac waits_ops :=
  repeat first [ match goal with
                 | |- waits _ (send _ _) => apply send_waits
                 | |- waits _ (appendEntries _ _) => apply appendEntries_waits
                 | |- waits _ (truncateFrom _ _) => apply truncateFrom_waits
                 | |- waits _ (sendAppend _ _) => apply sendAppend_waits
                 | |- waits _ (broadcastAppend _) => apply broadcastAppend_waits
                 end | progress waits_step ].

Lemma becomeLeader_waits r : r_pendingSnap r = s → waits s (becomeLeader r).
Proof. intros Hr. unfold becomeLeader. waits_ops. Qed.
Lemma forceCampaign_waits r : r_pendingSnap r = s → waits s (forceCampaign r).
Proof.
  intros Hr. unfold forceCampaign. cbv zeta. do 2 (apply waits_bind; intros ?).
  destruct (_ =? 1)%nat; [apply becomeLeader_waits; waits_step|]. apply waits_some.
  set (r0 := _ <| r_votesGranted := _ |>). assert (Hs : r_pendingSnap r0 = s) by (unfold r0; waits_step).
  revert Hs. generalize (r_peers r0). intros ps. generalize r0. clear r0. induction ps as [|p ps IH]; intros r0 Hs; [done|].
  cbn [foldl]. apply IH. case_test; [done|]. waits_step.
Qed.
Lemma preCampaign_waits r : r_pendingSnap r = s → waits s (preCampaign r).
Proof.
  intros Hr. unfold preCampaign. cbv zeta. do 2 (apply waits_bind; intros ?).
  destruct (_ =? 1)%nat; [apply forceCampaign_waits; waits_step|]. waits_ops.
Qed.
Lemma campaign_waits r : r_pendingSnap r = s → waits s (campaign r).
Proof. intros Hr. unfold campaign. case_test; [by apply preCampaign_waits|by apply forceCampaign_waits]. Qed.
Lemma stepApp_waits m r : r_pendingSnap r = s → waits s (stepApp m r).
Proof. intros Hr. unfold stepApp, stepApp_entry. waits_ops. Qed.
Lemma stepAppResp_waits m r : r_pendingSnap r = s → waits s (stepAppResp m r).
Proof. intros Hr. unfold stepAppResp. waits_ops. Qed.

Lemma AckPersisted_waits m r : r_pendingSnap r = s → waits s (AckPersisted m r).
Proof. intros Hr. unfold AckPersisted, releaseThrough, release. waits_ops. Qed.
Lemma Tick_waits r : r_pendingSnap r = s → waits s (Tick r).
Proof.
  intros Hr. unfold Tick. cbv zeta. destruct (r_role r).
  1,2: case_test; [by apply campaign_waits|waits_step].
  waits_ops.
Qed.
Lemma TransferLeadership_waits t r : r_pendingSnap r = s → waits s (TransferLeadership t r).
Proof. intros Hr. unfold TransferLeadership. waits_ops. Qed.

(** Every message but a snapshot. *)
Lemma dispatch_waits m r : m_Type m ≠ MsgSnap → r_pendingSnap r = s → waits s (dispatch m r).
Proof.
  intros Ht Hr. unfold dispatch, stepVote, stepVoteResp, stepPreVote, stepPreVoteResp, stepTimeoutNow, confirmRead, recordRead.
  destruct (m_Type m); try done;
    repeat first [ apply forceCampaign_waits | apply becomeLeader_waits | apply stepApp_waits | apply stepAppResp_waits
                 | progress waits_ops ].
Qed.

Lemma done_waits (x : option Raft) e r' : waits s x → done_with x = Some (e, r') → r_pendingSnap r' = s.
Proof. intros Hx. unfold done_with. destruct x as [r|]; [|done]. intros [= _ <-]. by apply Hx. Qed.
Lemma propose_waits es r e r' :
  r_pendingSnap r = s → done_with (r ← appendEntries es r; broadcastAppend r) = Some (e, r') → r_pendingSnap r' = s.
Proof. intros Hr. apply done_waits. waits_ops. Qed.
End Waits.

(** The snapshot waiting to be installed is one the node has already jumped to. *)
Definition snap_fits (r : Raft) : Prop := ∀ sn, r_pendingSnap r = Some sn → sn_Index sn ≤ r_commitIndex r.

Lemma snap_fits_kept r r' : snap_fits r → ext r r' → r_pendingSnap r' = r_pendingSnap r → snap_fits r'.
Proof. intros Hs [Hc _ _] He sn. rewrite He. intros H. apply Hs in H. lia. Qed.
Lemma snap_fits_waits r x r' : snap_fits r → ext r r' → waits (r_pendingSnap r) x → x = Some r' → snap_fits r'.
Proof. intros Hs He Hx Hr. eapply snap_fits_kept; [done..|]. by apply Hx. Qed.

Lemma stepSnap_fits m r r' : stepSnap m r = Some r' → r_pendingSnap r' = r_pendingSnap r ∨ snap_fits r'.
Proof.
  unfold stepSnap. case_test; [intros H; apply (inj Some) in H as <-; left; apply sendGated_waits|].
  cbv zeta. fold (appFollower m r).
  assert (Hw : r_pendingSnap (appFollower m r) = r_pendingSnap r) by (unfold appFollower; waits_step).
  rewrite <- Hw. generalize (appFollower m r). clear. intros f. case_test.
  { destruct (marksFor _ _) as [[lm sm]|]; [|done]. intros H. apply (inj Some) in H as <-. left. apply sendGatedOn_waits. }
  set (f1 := f <| r_gated := _ |>). assert (Hf : r_pendingSnap f1 = r_pendingSnap f) by done. rewrite <- Hf. clearbody f1.
  destruct (DecodeConfiguration _) as [conf|]; [|intros H; apply (inj Some) in H as <-; left; apply sendGated_waits].
  fold (jumped m conf f1). assert (Hc : r_commitIndex (dirty (jumped m conf f1)) = m_SnapIndex m) by (unfold dirty; by case_test).
  revert Hc. generalize (dirty (jumped m conf f1)). intros d Hc H. apply (inj Some) in H as <-. right. intros sn.
  rewrite sendGatedOn_waits. intros [= <-]. unfold sendGatedOn. case_test; cbn; lia.
Qed.

Lemma Step_fits m r e r' : snap_fits r → ext r r' → Step m r = Some (e, r') → snap_fits r'.
Proof.
  intros Hs He. unfold Step, refused. do 2 (case_test; [by intros [= _ <-]|]).
  assert (Ho : r_pendingSnap (observeTerm m r) = r_pendingSnap r).
  { unfold observeTerm. case_test; [apply becomeFollower_waits|done]. }
  destruct (decide (m_Type m = MsgSnap)) as [Em|Em].
  - unfold dispatch. rewrite Em. unfold done_with. destruct (stepSnap m (observeTerm m r)) as [r1|] eqn:Er; [|done].
    intros [= _ <-]. destruct (stepSnap_fits _ _ _ Er) as [Hw|]; [|done]. eapply snap_fits_kept; [done..|]. congruence.
  - intros H. eapply snap_fits_kept; [done..|]. eapply done_waits; [|done]. by apply dispatch_waits.
Qed.

Lemma run_fits o r r' : snap_fits r → ext r r' → run o r = Some r' → snap_fits r'.
Proof.
  intros Hs He. assert (Hk : r_pendingSnap r' = r_pendingSnap r → snap_fits r') by (by apply snap_fits_kept).
  destruct o as [m| |t|id data|id cc|ctx|t| |i| |m|m|i]; cbn [run].
  - intros ([e r1] & H & ->)%fmap_Some. by eapply Step_fits.
  - intros H. apply Hk. by eapply Tick_waits.
  - intros [= <-]. apply Hk. unfold SetElectionTimeout. by case_test.
  - intros ([e r1] & H & ->)%fmap_Some. apply Hk. revert H. unfold Propose, refused.
    do 3 (case_test; [by intros [= _ <-]|]). by apply propose_waits.
  - intros ([e r1] & H & ->)%fmap_Some. apply Hk. revert H. unfold ProposeConfChange, refused.
    do 4 (case_test; [by intros [= _ <-]|]). destruct (cc_changes cc) as [|ch []]; [by intros [= _ <-]| |by intros [= _ <-]].
    case_test; [by intros [= _ <-]|]. destruct (lagging ch r) as [[]|]; [by intros [= _ <-]| |done]. cbn [mbind option_bind].
    destruct (conf_apply _ _); [|by intros [= _ <-]]. by apply propose_waits.
  - intros ([e r1] & H & ->)%fmap_Some. apply Hk. revert H. unfold ReadIndex, refused.
    destruct ctx as [|b ctx]; [by intros [= _ <-]|]. destruct (r_role r).
    + case_test; [by intros [= _ <-]|]. intros [= _ <-]. apply sendGated_waits.
    + by intros [= _ <-].
    + apply done_waits, broadcastAppend_waits. unfold recordRead. by rewrite maybeConfirmReads_waits.
  - intros H. apply Hk. by eapply TransferLeadership_waits.
  - intros ([e r1] & H & ->)%fmap_Some. apply Hk. revert H. unfold Campaign, refused. case_test; [by intros [= _ <-]|].
    by apply done_waits, campaign_waits.
  - intros [= <-]. apply Hk. unfold Compact. do 3 (case_test; [done|]). destruct (at_ r i); [|done]. destruct (pos r i); [|done].
    destruct (ConfigurationAt i r); [|done]. cbn [snd]. by rewrite recomputeConf_waits.
  - intros ([rd r1] & H & ->)%fmap_Some. intros sn. revert H. unfold Ready_. cbv zeta.
    destruct (if t_handed _ <? _ then _ else _); [|done]. cbn [mbind option_bind]. destruct (committedEntries _); [|done].
    cbn [mbind option_bind]. intros [= _ <-]. unfold closeEmptyMark. repeat case_match; done.
  - intros H. apply Hk. by eapply AckPersisted_waits.
  - intros [= <-]. apply Hk. unfold AckSnapshot, release. repeat case_test; done.
  - intros [= <-]. apply Hk. unfold AckApplied. by case_test.
Qed.

Lemma reachable_fits r : reachable r → snap_fits r.
Proof.
  induction 1 as [cfg r H|cfg hs snap es r H1 H2 H3 H|o r r' Hr IH Hh Ho H].
  - by apply New_inv in H as (_ & -> & _).
  - revert H. unfold Restore. destruct (Raft.New cfg) as [r0|] eqn:E0; [|done]. apply New_inv in E0 as (_ & -> & _).
    case_test; [done|]. set (f := _ <| r_appliedIdx := _ |>). assert (Hf : r_pendingSnap (recomputeConf f) = None) by by rewrite recomputeConf_waits.
    revert Hf. generalize (recomputeConf f). intros g Hg [= <-] sn. cbn. by rewrite Hg.
  - eapply run_fits; [done| |done]. by eapply ki_ext, run_keptInv, H; [apply reachable_inv_lemma|..].
Qed.
