(* ===== verification/RaftGate.v ===== *)
(** * Persist before reply

    The outbound gate of [raft.go], composed with the driver's disk: a node
    hands hard-state writes over under durability marks, the driver completes
    them in order, and a message that reveals the node's term or vote leaves
    the node only when the disk holds that term and vote.

    The node's handlers are reduced to a handful of primitive actions on the
    fields the gate reads ([act]); the invariant is proved once per action and
    once per operation that drains or acknowledges. *)

From Stdlib Require Import Lia ZArith.
From Stdlib Require Import Sorted.
From stdpp Require Import base tactics numbers option relations sorting list.
From S2P Require Import Prelude Bytes ConfChange RaftTypes Raft RaftInv RaftOps RaftReach.

(** ** Hard states in order *)

(** A later hard state: a higher term, or the same term with the vote kept. *)
Definition hsle (a b : HardState) : Prop :=
  hs_Term a ≤ hs_Term b
  ∧ (hs_Term a = hs_Term b → hs_Vote a ≠ 0 → hs_Vote b = hs_Vote a).

#[global] Instance hsle_preorder : PreOrder hsle.
Proof.
  split.
  - intros [t v]. by split.
  - intros [t1 v1] [t2 v2] [t3 v3] [H1 H2] [H3 H4]. cbn in *. split; cbn; [lia|].
    intros -> Hv. rewrite <- (H2 ltac:(lia) Hv). apply H4; [lia|].
    by rewrite (H2 ltac:(lia) Hv).
Qed.

Definition curHS (r : Raft) : HardState := MkHardState (r_term r) (r_vote r).

(** A granted vote. *)
Definition is_grant (m : Message) : bool :=
  bool_decide (m_Type m = MsgVoteResp) && m_Granted m.

(** The hard state a message reveals: its term, and the vote it grants or asks
    for. *)
Definition attested (m : Message) : HardState :=
  MkHardState (m_Term m)
    (if is_grant m then m_To m
     else if bool_decide (m_Type m = MsgVote) then m_From m else 0).

(** Messages with no constraint of their own: they do not speak for the
    sender's hard state. *)
Definition ungated (m : Message) : bool :=
  match m_Type m with MsgPreVote | MsgPreVoteResp | MsgTimeoutNow => true | _ => false end.

(** ** Primitive actions *)

(** The fields the gate reads or writes. *)
Definition gcore (r : Raft) :=
  ((r_id r, r_term r, r_vote r, r_hardStateDirty r, r_dirtyMark r, r_nextMark r, r_hsMark r),
   (r_markHandedOff r, r_persisted r, r_persistedSnap r, r_lastHandedMark r, r_msgs r, r_gated r)).

(** A message that says exactly what its sender holds. *)
Record exact (m : Message) (r : Raft) : Prop := MkExact {
  ex_from : m_From m = r_id r;
  ex_term : m_Term m = r_term r;
  ex_grant : is_grant m = true → m_To m = r_vote r;
  ex_vote : m_Type m = MsgVote → r_vote r = r_id r;
}.

Inductive act (r r' : Raft) : Prop :=
| act_frame : gcore r' = gcore r → act r r'
| act_hs t v :
    hsle (curHS r) (MkHardState t v) →
    gcore r' = gcore (dirty (r <| r_term := t |> <| r_vote := v |> <| r_hardStateDirty := true |>)) →
    act r r'
| act_dirty : gcore r' = gcore (dirty r) → act r r'
| act_gated a b m : exact m r → gcore r' = gcore (sendGatedOn a b m r) → act r r'
| act_send m : ungated m = true → m_From m = r_id r →
    gcore r' = gcore (r <| r_msgs := r_msgs r ++ [m] |>) → act r r'
| act_drop (keep : gatedMessage → bool) :
    gcore r' = gcore (r <| r_gated := filter (λ g, keep g = true) (r_gated r) |>) → act r r'.

Definition acts : relation Raft := rtc act.

Lemma acts_frame r r' : gcore r' = gcore r → acts r r'.
Proof. intros. by apply rtc_once, act_frame. Qed.

Lemma acts_then r r1 r' : acts r r1 → gcore r' = gcore r1 → acts r r'.
Proof. intros H1 H2. etrans; [exact H1|]. by apply acts_frame. Qed.

Lemma acts_gated a b m r : exact m r → acts r (sendGatedOn a b m r).
Proof. intros. by apply rtc_once, (act_gated _ _ a b m). Qed.

Lemma acts_sendGated m r : exact m r → acts r (sendGated m r).
Proof. apply acts_gated. Qed.

Lemma acts_send m r r' : m_From m = r_id r → send m r = Some r' → acts r r'.
Proof.
  intros Hf H. apply rtc_once, (act_send _ _ m); [|done|]; revert H; unfold send, ungated.
  - by destruct (m_Type m).
  - destruct (m_Type m); try done; by intros [= <-].
Qed.

Lemma acts_dirty r : acts r (dirty r).
Proof. by apply rtc_once, act_dirty. Qed.

Lemma acts_hs t v r :
  hsle (curHS r) (MkHardState t v) →
  acts r (dirty (r <| r_term := t |> <| r_vote := v |> <| r_hardStateDirty := true |>)).
Proof. intros. by apply rtc_once, (act_hs _ _ t v). Qed.

Lemma acts_setTermAndVote t v r :
  hsle (curHS r) (MkHardState t v) → acts r (setTermAndVote t v r).
Proof. intros. unfold setTermAndVote. case_test; [by apply acts_hs|done]. Qed.

Lemma acts_setVote v r : r_vote r = 0 ∨ r_vote r = v → acts r (setVote v r).
Proof.
  intros Hv. unfold setVote. case_test; [|done].
  eapply acts_then; [apply (acts_hs (r_term r) v)|].
  - split; cbn; [lia|]. naive_solver.
  - unfold gcore, dirty. cbn. by destruct ((r_dirtyMark r =? 0) || r_markHandedOff r).
Qed.

Lemma acts_becomeFollower t v r : acts r (becomeFollower t v r).
Proof.
  unfold becomeFollower. rewrite Z.gtb_ltb. case_test; [|by apply acts_frame].
  eapply acts_then; [apply (acts_setTermAndVote t v)|done]. split; cbn; [lia|lia].
Qed.

Lemma gcore_becomeFollower_same v r : gcore (becomeFollower (r_term r) v r) = gcore r.
Proof. unfold becomeFollower. by rewrite Z.gtb_ltb, Z.ltb_irrefl. Qed.

(** ** Every handler is a sequence of primitive actions *)

Ltac solve_exact := split; cbn; try done; intros; bool_hyps; try congruence.

Lemma acts_foldM {A} (f : Raft → A → option Raft) r xs r' :
  (∀ s x s', f s x = Some s' → acts s s') → foldM f r xs = Some r' → acts r r'.
Proof.
  intros Hf. eapply (foldM_inv (λ s, acts r s)); [done|].
  intros s x s' Hs Hx. etrans; [exact Hs|]. by eapply Hf.
Qed.

Lemma acts_foldl {A} (f : Raft → A → Raft) r xs :
  (∀ s x, acts s (f s x)) → acts r (foldl f r xs).
Proof.
  intros Hf. revert r. induction xs as [|x xs IH]; intros r; cbn; [done|].
  etrans; [apply Hf|apply IH].
Qed.

Lemma gcore_recomputeConf r : gcore (recomputeConf r) = gcore r.
Proof. unfold recomputeConf. by destruct (replayConf _ _ _). Qed.

Lemma acts_appendEntries es r r' : appendEntries es r = Some r' → acts r r'.
Proof.
  unfold appendEntries. intros (r1 & H1 & H)%bind_Some. cbv zeta in H.
  assert (Hf : gcore r1 = gcore r).
  { revert H1. eapply (foldM_inv (λ s, gcore s = gcore r)); [done|].
    intros s e s' Hs [_ ->]%appendOne_spec. by rewrite <- Hs. }
  set (r2 := if existsb is_conf_entry es then _ else _) in H.
  assert (Hf2 : gcore r2 = gcore r1).
  { unfold r2. case_test; [apply gcore_recomputeConf|done]. }
  clearbody r2. apply (inj Some) in H as <-.
  etrans; [by apply (acts_frame r r2); rewrite Hf2|]. apply acts_dirty.
Qed.

Lemma acts_drop keep r r' :
  gcore r' = gcore (r <| r_gated := filter (λ g, keep g = true) (r_gated r) |>) → acts r r'.
Proof. intros. by apply rtc_once, (act_drop _ _ keep). Qed.

Lemma filter_negb {A} (p : A → bool) (xs : list A) :
  filter (λ x, p x = false) xs = filter (λ x, negb (p x) = true) xs.
Proof. apply list_filter_iff. intros x. by rewrite negb_true_iff. Qed.

Lemma acts_truncateFrom i r r' : truncateFrom i r = Some r' → acts r r'.
Proof.
  unfold truncateFrom. case_test; [by intros [= <-]|]. do 2 (case_test; [done|]).
  intros (p & _ & H')%bind_Some. cbv zeta in H'. apply (inj Some) in H' as <-.
  eapply (acts_drop (λ g, negb (attests_from i g))).
  rewrite gcore_recomputeConf. unfold gcore. cbn. by rewrite filter_negb.
Qed.

Lemma acts_sendAppend to r r' : sendAppend to r = Some r' → acts r r'.
Proof.
  assert (Hs : ∀ r', sendSnapshot to r = Some r' → acts r r').
  { intros s. unfold sendSnapshot. case_test; [by intros [= <-]|].
    destruct (peerIdx _ to); [|intros H; apply (inj Some) in H as <-; by apply acts_frame].
    intros (ns & _ & H)%bind_Some. apply (inj Some) in H as <-. by apply acts_frame. }
  unfold sendAppend. destruct (peerIdx r to); [|by intros [= <-]].
  intros (next & _ & H)%bind_Some. cbv zeta in H.
  destruct (_ <=? r_snapIndex r); [by apply Hs|].
  apply bind_Some in H as (es & _ & H). apply (inj Some) in H as <-.
  apply acts_sendGated. solve_exact.
Qed.

Lemma acts_broadcastAppend r r' : broadcastAppend r = Some r' → acts r r'.
Proof.
  apply acts_foldM. intros s p s'. case_test; [by intros [= <-]|apply acts_sendAppend].
Qed.

Lemma acts_becomeLeader r r' : becomeLeader r = Some r' → acts r r'.
Proof.
  unfold becomeLeader. cbv zeta. intros (i & _ & H)%bind_Some.
  apply bind_Some in H as (ms & _ & H). apply bind_Some in H as (r1 & H1 & H).
  apply acts_appendEntries in H1. apply acts_broadcastAppend in H.
  etrans; [|exact H]. eapply (acts_then _ r1); [|done]. etrans; [|exact H1]. by apply acts_frame.
Qed.

Lemma acts_candidacy r : r_term r + 1 < 2 ^ 64 → 0 ≤ r_term r → acts r (candidacy r).
Proof.
  intros Ht H0. unfold candidacy.
  set (r1 := r <| r_preVoting := _ |> <| r_role := _ |>).
  etrans; [by apply (acts_frame r r1)|]. apply acts_setTermAndVote.
  rewrite add64_small by lia. split; cbn; lia.
Qed.

Lemma candidacy_hs r :
  r_vote (candidacy r) = r_id r ∧ r_term (candidacy r) = add64 (r_term r) 1
  ∧ r_id (candidacy r) = r_id r.
Proof.
  unfold candidacy, setTermAndVote. cbn.
  destruct (negb (r_term r =? add64 (r_term r) 1) || negb (r_vote r =? r_id r)) eqn:E.
  - unfold dirty. cbn. by case_test.
  - bool_hyps. by cbn.
Qed.

(** A state that keeps its identity, term and vote. *)
Definition same_hs (r r' : Raft) : Prop :=
  r_id r' = r_id r ∧ r_term r' = r_term r ∧ r_vote r' = r_vote r.

Lemma acts_sendVotes r xs :
  r_vote r = r_id r →
  acts r (foldl (λ r p,
      if p =? r_id r then r
      else sendGated (mkmsg MsgVote (r_id r) p (r_term r)
                        <| m_LastLogIndex := lastIndex r |> <| m_LastLogTerm := lastTerm r |>) r)
      r xs).
Proof.
  revert r. induction xs as [|x xs IH]; intros r Hv; cbn [foldl]; [done|].
  case_test; [by apply IH|].
  etrans; [|apply IH].
  - apply acts_sendGated. solve_exact.
  - unfold sendGated, sendGatedOn. by case_test.
Qed.

Lemma acts_forceCampaign r r' :
  r_term r + 1 < 2 ^ 64 → 0 ≤ r_term r → forceCampaign r = Some r' → acts r r'.
Proof.
  intros Ht H0. unfold forceCampaign. cbv zeta.
  change (setTermAndVote _ _ _) with (candidacy r).
  destruct (candidacy_hs r) as (Hv & _ & Hid). pose proof (acts_candidacy r Ht H0) as Ha.
  assert (Hvi : r_vote (candidacy r) = r_id (candidacy r)) by congruence.
  revert Hvi Ha. generalize (candidacy r). intros c Hvi Ha.
  intros (i & _ & H)%bind_Some. apply bind_Some in H as (vs & _ & H).
  set (c1 := c <| r_leader := _ |> <| r_electionElapsed := _ |> <| r_votesGranted := _ |>
    <| r_votesDenied := _ |> <| r_votesGranted := vs |>) in H.
  assert (Ha1 : acts r c1) by (by eapply acts_then).
  assert (Hv1 : r_vote c1 = r_id c1) by exact Hvi. clearbody c1.
  etrans; [exact Ha1|]. case_test_in H; [by apply acts_becomeLeader|].
  apply (inj Some) in H as <-. by apply acts_sendVotes.
Qed.

Lemma acts_preCampaign r r' :
  r_term r + 1 < 2 ^ 64 → 0 ≤ r_term r → preCampaign r = Some r' → acts r r'.
Proof.
  intros Ht H0. unfold preCampaign. cbv zeta. intros (i & _ & H)%bind_Some.
  apply bind_Some in H as (vs & _ & H).
  set (c := r <| r_preVoting := _ |> <| r_leader := _ |> <| r_electionElapsed := _ |>
    <| r_preGranted := _ |> <| r_preGranted := vs |>) in H.
  assert (Ha : acts r c) by by apply acts_frame.
  etrans; [exact Ha|]. case_test_in H.
  - apply acts_forceCampaign in H; [|done|done]. etrans; [|exact H]. by apply acts_frame.
  - revert H. apply acts_foldM. intros s p s'. case_test; [by intros [= <-]|]. by apply acts_send.
Qed.

Lemma acts_campaign r r' :
  r_term r + 1 < 2 ^ 64 → 0 ≤ r_term r → campaign r = Some r' → acts r r'.
Proof. unfold campaign. case_test; [apply acts_preCampaign|apply acts_forceCampaign]. Qed.

Lemma acts_sendGatedOn_eq a b m r r' :
  exact m r → Some (sendGatedOn a b m r) = Some r' → acts r r'.
Proof. intros He H. apply (inj Some) in H as <-. by apply acts_gated. Qed.

Lemma acts_maybeConfirmReads r : acts r (maybeConfirmReads r).
Proof.
  assert (H : ∀ qs acc, acts (fst acc) (fst (foldl confirmOne acc qs))).
  { induction qs as [|q qs IH]; intros [s kept]; cbn [foldl]; [done|].
    etrans; [|apply IH]. unfold confirmOne. repeat case_test; cbn [fst]; try done.
    - by apply acts_frame.
    - apply acts_sendGated. solve_exact. }
  unfold maybeConfirmReads. destruct (r_pendingReads r) as [|q qs]; [done|].
  specialize (H (q :: qs) (r, [])).
  destruct (foldl confirmOne (r, []) (q :: qs)) as [r1 kept]. by eapply acts_then.
Qed.

Lemma acts_recordRead q r : acts r (recordRead q r).
Proof. unfold recordRead. etrans; [|apply acts_maybeConfirmReads]. by apply acts_frame. Qed.
Lemma acts_confirmRead n r : acts r (confirmRead n r).
Proof. unfold confirmRead. etrans; [|apply acts_maybeConfirmReads]. by apply acts_frame. Qed.

Lemma gcore_stepDownIfRemoved r : gcore (stepDownIfRemoved r) = gcore r.
Proof.
  unfold stepDownIfRemoved. repeat case_test; try done.
  change (gcore (becomeFollower (r_term r) (r_vote r) r) = gcore r).
  apply gcore_becomeFollower_same.
Qed.

Lemma gcore_maybeCommit r : gcore (maybeCommit r) = gcore r.
Proof.
  unfold maybeCommit. generalize (Z.to_nat (lastIndex r - r_commitIndex r)).
  induction n as [|k IH]; cbn [maybeCommit_loop]; [done|].
  do 2 (case_test; try done). by rewrite gcore_stepDownIfRemoved.
Qed.

Lemma acts_stepVote m r : acts r (stepVote m r).
Proof.
  unfold stepVote. cbv zeta. set (grant := if m_Term m <? r_term r then _ else _).
  destruct grant eqn:Eg; [|apply acts_sendGated; solve_exact].
  assert (Hv : r_vote r = 0 ∨ r_vote r = m_From m).
  { unfold grant in Eg. repeat case_test_in Eg; try done. bool_cases; auto. }
  set (r1 := setVote (m_From m) r <| r_electionElapsed := 0 |>).
  assert (Ha : acts r r1) by (eapply acts_then; [by apply (acts_setVote (m_From m))|done]).
  assert (Hv1 : r_vote r1 = m_From m).
  { unfold r1, setVote. case_test; [unfold dirty; by case_test|done]. }
  clearbody r1. etrans; [exact Ha|]. apply acts_sendGated. solve_exact.
Qed.

Lemma acts_stepVoteResp m r r' : stepVoteResp m r = Some r' → acts r r'.
Proof.
  unfold stepVoteResp. case_test; [by intros [= <-]|].
  destruct (peerIdx r (m_From m)) as [i|]; [|by intros [= <-]].
  fold (countVote m i r). intros (r1 & H1 & Heq)%bind_Some.
  assert (Ha : gcore r1 = gcore r).
  { revert H1. unfold countVote. case_test; intros (vs & _ & Hx)%bind_Some;
      by apply (inj Some) in Hx as <-. }
  etrans; [by apply (acts_frame r r1)|]. repeat case_test_in Heq.
  - by apply acts_becomeLeader.
  - apply (inj Some) in Heq as <-. apply acts_becomeFollower.
  - by apply (inj Some) in Heq as <-.
Qed.

Lemma acts_appFollower m r : acts r (appFollower m r).
Proof.
  unfold appFollower.
  eapply (acts_then _ (becomeFollower (m_Term m) (r_vote r) r)); [|done].
  apply acts_becomeFollower.
Qed.

Lemma acts_stepApp m r r' : stepApp m r = Some r' → acts r r'.
Proof.
  destruct (decide (m_Term m < r_term r)) as [Ht|Ht].
  { unfold stepApp. replace (m_Term m <? r_term r) with true by lia.
    apply acts_sendGatedOn_eq. solve_exact. }
  rewrite stepApp_unfold by lia. cbv zeta. pose proof (acts_appFollower m r) as Ha.
  revert Ha. generalize (appFollower m r). intros f Ha H. etrans; [exact Ha|]. case_test_in H.
  { revert H. apply acts_sendGatedOn_eq. solve_exact. }
  apply bind_Some in H as (s & Hs & H). cbv zeta in H.
  set (s1 := if _ >? r_commitIndex s then _ else _) in H.
  assert (Hs1 : gcore s1 = gcore s) by (unfold s1; by case_test). clearbody s1.
  apply bind_Some in H as ([lm sm] & _ & H).
  assert (Hl : acts s1 r') by (revert H; apply acts_sendGatedOn_eq; solve_exact).
  etrans; [|exact Hl]. eapply (acts_then _ s); [|done]. revert Hs. apply acts_foldM. intros x e x'.
  unfold stepApp_entry. repeat case_test; [by intros [= <-]| |apply acts_appendEntries].
  intros (y & H1%acts_truncateFrom & H2%acts_appendEntries)%bind_Some. by etrans.
Qed.

Lemma acts_stepAppResp m r r' : stepAppResp m r = Some r' → acts r r'.
Proof.
  unfold stepAppResp. case_test; [by intros [= <-]|].
  destruct (peerIdx r (m_From m)) as [i|]; [|by intros [= <-]]. case_test.
  - intros (next & _ & Hx)%bind_Some. apply bind_Some in Hx as (ns & _ & Hx).
    apply acts_sendAppend in Hx. etrans; [|exact Hx]. by apply acts_frame.
  - intros (mi & _ & Hx)%bind_Some. apply bind_Some in Hx as (ms & _ & Hx).
    apply bind_Some in Hx as (ni & _ & Hx). apply bind_Some in Hx as (ns & _ & Hx).
    apply bind_Some in Hx as (r1 & Hs1 & Hx). apply (inj Some) in Hx as <-.
    eapply acts_then; [|apply gcore_maybeCommit]. revert Hs1.
    set (r2 := r <| r_matchIndex := ms |> <| r_nextIndex := ns |>).
    assert (Ha : acts r r2) by by apply acts_frame. clearbody r2.
    case_test; [|intros [= <-]; exact Ha]. intros Hs1. etrans; [exact Ha|].
    by apply acts_send in Hs1.
Qed.

Lemma gcore_jump r i t c a tl ml :
  gcore (r <| r_snapIndex := i |> <| r_snapTerm := t |> <| r_commitIndex := c |>
           <| r_appliedIdx := a |> <| r_tail := tl |> <| r_markLastIdx := ml |>) = gcore r.
Proof. done. Qed.

Lemma acts_stepSnap m r r' : stepSnap m r = Some r' → acts r r'.
Proof.
  unfold stepSnap. case_test; [apply acts_sendGatedOn_eq; solve_exact|].
  cbv zeta. fold (appFollower m r). pose proof (acts_appFollower m r) as Ha.
  revert Ha. generalize (appFollower m r). intros f Ha H. etrans; [exact Ha|]. case_test_in H.
  { apply bind_Some in H as ([lm sm] & _ & H). revert H. apply acts_sendGatedOn_eq. solve_exact. }
  set (f1 := f <| r_gated := _ |>) in H.
  assert (Ha1 : acts f f1).
  { apply (acts_drop (λ g, negb (is_app_accept g))). unfold f1. by rewrite filter_negb. }
  clearbody f1. etrans; [exact Ha1|]. destruct (DecodeConfiguration (m_SnapConf m)) as [conf|].
  - fold (jumped m conf f1) in H.
    assert (Haj : acts f1 (dirty (jumped m conf f1))).
    { etrans; [|apply acts_dirty]. apply acts_frame.
      unfold jumped. by rewrite gcore_jump, gcore_recomputeConf. }
    revert H Haj. generalize (dirty (jumped m conf f1)). intros j H Haj. etrans; [exact Haj|].
    set (j1 := j <| r_nextSnapMark := _ |> <| r_snapMark := _ |> <| r_pendingSnap := _ |>) in H.
    assert (Hj : acts j j1) by by apply acts_frame. clearbody j1. etrans; [exact Hj|].
    revert H. apply acts_sendGatedOn_eq. solve_exact.
  - revert H. apply acts_sendGatedOn_eq. solve_exact.
Qed.

(** Terms are not at the end of their range. *)
Definition term_room (t : Term) : Prop := 0 ≤ t ∧ t + 1 < 2 ^ 64.

Lemma observeTerm_term m r : r_term (observeTerm m r) = r_term r ∨ r_term (observeTerm m r) = m_Term m.
Proof.
  unfold observeTerm, becomeFollower, setTermAndVote, dirty. repeat case_test; cbn; auto.
Qed.

Lemma acts_dispatch m r r' : term_room (r_term r) → dispatch m r = Some r' → acts r r'.
Proof.
  intros [H0 Ht]. unfold dispatch. destruct (m_Type m); try (by intros [= <-]).
  - intros [= <-]. apply acts_stepVote.
  - apply acts_stepVoteResp.
  - apply acts_stepApp.
  - intros (r1 & H1%acts_stepAppResp & H)%bind_Some. apply (inj Some) in H as <-.
    etrans; [exact H1|]. case_test; [apply acts_confirmRead|done].
  - intros H. by apply acts_send in H.
  - unfold stepPreVoteResp. do 2 (case_test; [by intros [= <-]|]).
    destruct (peerIdx r (m_From m)) as [i|]; [|by intros [= <-]]. case_test; [by intros [= <-]|].
    intros (vs & _ & H)%bind_Some. cbv zeta in H. case_test_in H.
    + apply acts_forceCampaign in H; [|done|done]. etrans; [|exact H]. by apply acts_frame.
    + apply (inj Some) in H as <-. by apply acts_frame.
  - apply acts_stepSnap.
  - unfold stepTimeoutNow. case_test; [by intros [= <-]|]. by apply acts_forceCampaign.
  - case_test; [|by intros [= <-]]. intros H%acts_broadcastAppend. etrans; [|exact H].
    apply acts_recordRead.
  - intros H. apply (inj Some) in H as <-. by apply acts_frame.
Qed.

Lemma acts_observeTerm m r : acts r (observeTerm m r).
Proof. unfold observeTerm. case_test; [apply acts_becomeFollower|done]. Qed.

(** The calls that neither drain nor acknowledge. *)
Definition inner_op (o : op) : bool :=
  match o with OpReady | OpAckPersisted _ | OpAckSnapshot _ => false | _ => true end.

Definition op_term (o : op) : Term := match o with OpStep m => m_Term m | _ => 0 end.

Lemma acts_Step m r r' :
  term_room (r_term r) → term_room (m_Term m) → snd <$> Step m r = Some r' → acts r r'.
Proof.
  intros Ht Htm ([e r1] & H & ->)%fmap_Some. revert H. unfold Step, refused, done_with.
  do 2 (case_test; [by intros [= _ <-]|]). intros (r2 & H2 & [= _ ->])%fmap_Some.
  apply acts_dispatch in H2; [|by destruct (observeTerm_term m r) as [-> | ->]].
  etrans; [apply acts_observeTerm|exact H2].
Qed.

Lemma acts_propose e r r' :
  (r1 ← appendEntries [e] r; broadcastAppend r1) = Some r' → acts r r'.
Proof.
  intros (r1 & H1%acts_appendEntries & H2%acts_broadcastAppend)%bind_Some. by etrans.
Qed.

Lemma acts_client o r r' :
  match o with
  | OpPropose _ _ | OpProposeConfChange _ _ | OpReadIndex _ => True
  | _ => False
  end → run o r = Some r' → acts r r'.
Proof.
  destruct o as [| | |id data|id cc|ctx| | | | | | |]; try done; cbn [run]; intros _;
    intros ([e r1] & H & ->)%fmap_Some; revert H; cbn [snd].
  - unfold Propose, refused, done_with. do 3 (case_test; [by intros [= _ <-]|]).
    intros (r2 & H2 & [= _ ->])%fmap_Some. by eapply acts_propose.
  - unfold ProposeConfChange, refused, done_with. do 4 (case_test; [by intros [= _ <-]|]).
    destruct (cc_changes cc) as [|ch [|? ?]]; try (by intros [= _ <-]).
    case_test; [by intros [= _ <-]|]. intros (lag & _ & H)%bind_Some.
    case_test_in H; [by injection H as _ <-|]. destruct (conf_apply _ ch); [|by injection H as _ <-].
    apply fmap_Some in H as (r2 & H2 & [= _ ->]). by eapply acts_propose.
  - unfold ReadIndex, refused, done_with. destruct ctx as [|b ctx]; [by intros [= _ <-]|].
    destruct (r_role r); [|by intros [= _ <-]|].
    + case_test; [by intros [= _ <-]|]. intros (r2 & [= <-] & [= _ ->])%fmap_Some.
      apply acts_sendGated. solve_exact.
    + intros (r2 & H2%acts_broadcastAppend & [= _ ->])%fmap_Some. etrans; [|exact H2].
      apply acts_recordRead.
Qed.

Lemma acts_Tick r r' : term_room (r_term r) → Tick r = Some r' → acts r r'.
Proof.
  intros [H0 Ht]. unfold Tick.
  set (s := r <| r_electionElapsed := _ |>). assert (Hs : acts r s) by by apply acts_frame.
  assert (Hcamp : (if (r_electionElapsed s >=? r_randomizedElectionTimeout s)
     && IsVoter (r_conf s) (r_id s) then campaign s else Some s) = Some r' → acts r r').
  { case_test; [|by intros [= <-]]. intros Hx%acts_campaign; [|done..]. by etrans. }
  destruct (r_role r); [exact Hcamp|exact Hcamp|]. clear Hcamp Hs s.
  set (s := if negb _ then _ else _).
  assert (Hc : gcore s = gcore r) by (unfold s; repeat case_test; done). clearbody s.
  cbv zeta. case_test.
  - intros H%acts_broadcastAppend. etrans; [|exact H]. by apply acts_frame.
  - intros [= <-]. by apply acts_frame.
Qed.

Lemma gcore_Compact i r : gcore (snd (Compact i r)) = gcore r.
Proof.
  unfold Compact. do 3 (case_test; [done|]).
  destruct (at_ r i), (pos r i); try done. destruct (ConfigurationAt i r); [|done].
  cbn [snd]. by rewrite gcore_recomputeConf.
Qed.

Lemma acts_run o r r' :
  inner_op o = true → term_room (r_term r) → term_room (op_term o) →
  run o r = Some r' → acts r r'.
Proof.
  intros Hin Ht Hto H. destruct o as [m| |t|id data|id cc|ctx|t| |i| |m|m|i]; try done;
    try (by eapply acts_client; [|exact H]); cbn [run op_term] in *.
  - by eapply acts_Step.
  - by apply acts_Tick.
  - apply (inj Some) in H as <-. unfold SetElectionTimeout. case_test; [by apply acts_frame|done].
  - revert H. unfold TransferLeadership. case_test; [done|].
    destruct (peerIdx r t) as [i|]; [|by intros [= <-]]. do 2 (case_test; [by intros [= <-]|]).
    intros (mi & _ & Hx)%bind_Some.
    set (s := r <| r_leadTransferee := _ |> <| r_transferElapsed := _ |>) in Hx.
    assert (Ha : acts r s) by by apply acts_frame. etrans; [exact Ha|].
    case_test_in Hx; [by apply acts_send in Hx|by apply acts_sendAppend in Hx].
  - apply fmap_Some in H as ([e r1] & H & ->). revert H. unfold Campaign, refused, done_with.
    case_test; [by intros [= _ <-]|]. intros (r2 & H2 & [= _ ->])%fmap_Some.
    destruct Ht. by apply acts_campaign.
  - apply (inj Some) in H as <-. apply acts_frame, gcore_Compact.
  - apply (inj Some) in H as <-. unfold AckApplied. case_test; [by apply acts_frame|done].
Qed.

(** ** Votes *)

Lemma dirty_hs r : curHS (dirty r) = curHS r ∧ r_id (dirty r) = r_id r.
Proof. unfold dirty. by case_test. Qed.

Lemma gcore_hs r r' : gcore r' = gcore r → curHS r' = curHS r ∧ r_id r' = r_id r.
Proof. unfold gcore, curHS. by intros [=->->->]. Qed.

Lemma act_hsle r r' : act r r' → hsle (curHS r) (curHS r') ∧ r_id r' = r_id r.
Proof.
  intros [H|t v Hle H|H|a b m _ H|m _ _ H|keep H]; apply gcore_hs in H as [-> ->]; try done.
  - destruct (dirty_hs (r <| r_term := t |> <| r_vote := v |> <| r_hardStateDirty := true |>))
      as [-> ->]. done.
  - by destruct (dirty_hs r) as [-> ->].
  - unfold sendGatedOn. by case_test.
Qed.

Lemma acts_hsle r r' : acts r r' → hsle (curHS r) (curHS r') ∧ r_id r' = r_id r.
Proof.
  induction 1 as [|r r1 r' H _ [IH1 IH2]]; [done|]. apply act_hsle in H as [H1 H2].
  split; [by etrans|congruence].
Qed.

Lemma ack_hs o r r' :
  match o with OpAckPersisted _ | OpAckSnapshot _ => True | _ => False end →
  run o r = Some r' → curHS r' = curHS r ∧ r_id r' = r_id r.
Proof.
  intros Hin. destruct o; try done; cbn [run].
  - unfold AckPersisted. case_test; [by intros [= <-]|]. cbv zeta.
    change (releaseThrough mark _) with (acked mark r).
    assert (Ha : curHS (acked mark r) = curHS r ∧ r_id (acked mark r) = r_id r).
    { unfold acked, releaseThrough. cbv zeta. by repeat case_test. }
    revert Ha. generalize (acked mark r). intros a [Ha1 Ha2]. rewrite <- Ha1, <- Ha2.
    case_test; [|by intros [= <-]]. destruct (peerIdx a (r_id a)); [|by intros [= <-]].
    intros (mi & _ & H)%bind_Some. case_test_in H; [|by injection H as <-].
    apply bind_Some in H as (ms & _ & H). apply (inj Some) in H as <-.
    apply (gcore_hs a). by rewrite gcore_maybeCommit.
  - intros [= <-]. unfold AckSnapshot. by repeat case_test.
Qed.

Lemma drain_hs o r r' :
  inner_op o = false → inv r → headroom r → run o r = Some r' →
  curHS r' = curHS r ∧ r_id r' = r_id r.
Proof.
  intros Hin Hi [_ Hb]. destruct o; try done; try by apply ack_hs. cbn [run].
  rewrite (Ready_unfold r Hi Hb). intros [= <-]. unfold afterReady.
  repeat case_test; try done. unfold closeEmptyMark. by rewrite Z.eqb_refl.
Qed.

(** One vote per term: no call lowers a node's term, and within a term a
    vote once cast is never changed or withdrawn. *)
Theorem vote_once o r r' :
  reachable r → headroom r → term_room (r_term r) → term_room (op_term o) →
  run o r = Some r' →
  r_term r ≤ r_term r' ∧ (r_term r' = r_term r → r_vote r ≠ 0 → r_vote r' = r_vote r).
Proof.
  intros Hr Hh Ht Hto H. assert (Hle : hsle (curHS r) (curHS r')).
  { destruct (inner_op o) eqn:Ein.
    - eapply acts_hsle, acts_run; done.
    - destruct (drain_hs o r r') as [-> _]; try done. by apply reachable_inv_lemma. }
  destruct Hle as [H1 H2]. split; [done|]. intros Heq. by apply H2.
Qed.

(** ** The disk *)

(** A write in flight: its mark, and the hard state it carries, if any. *)
Abbreviation write := (prod PersistMark (option HardState)).

(** The hard state on disk once the writes with marks up to [k] completed. *)
Definition hsAfter (D : HardState) (ws : list write) (k : PersistMark) : HardState :=
  foldl (λ h w, if fst w <=? k then default h (snd w) else h) D ws.

(** ... and once all of them have. *)
Definition latest (D : HardState) (ws : list write) : HardState :=
  foldl (λ h w, default h (snd w)) D ws.

(** The mark of the last write that carries a hard state. *)
Definition hsMarkOf (ws : list write) : PersistMark :=
  foldl (λ k w, match snd w with Some _ => fst w | None => k end) 0 ws.

(** The disk, then each write, then the memory hold later and later states. *)
Fixpoint chain (D : HardState) (ws : list write) (cur : HardState) : Prop :=
  match ws with
  | [] => hsle D cur
  | w :: ws => hsle D (default D (snd w)) ∧ chain (default D (snd w)) ws cur
  end.

Lemma chain_latest D ws cur : chain D ws cur → hsle D (latest D ws) ∧ hsle (latest D ws) cur.
Proof.
  revert D. induction ws as [|w ws IH]; intros D; cbn; [done|].
  intros [H1 [H2 H3]%IH]. split; [by etrans|done].
Qed.

Lemma chain_after k ws a b cur :
  chain b ws cur → hsle a b → hsle (hsAfter a ws k) (latest b ws).
Proof.
  unfold hsAfter, latest. revert a b. induction ws as [|[m [h|]] ws IH]; intros a b; cbn; [done| |].
  - intros [H1 H2] Hab. apply IH; [done|]. case_test; [done|]. by etrans.
  - intros [H1 H2] Hab. apply IH; [done|]. by case_test.
Qed.

Lemma chain_app D ws1 ws2 cur : chain D (ws1 ++ ws2) cur → chain (latest D ws1) ws2 cur.
Proof. revert D. induction ws1 as [|w ws1 IH]; intros D; cbn; [done|]. intros [_ H]. by apply IH. Qed.

Lemma chain_le D ws cur cur' : chain D ws cur → hsle cur cur' → chain D ws cur'.
Proof.
  revert D. induction ws as [|w ws IH]; intros D; cbn; [by intros; etrans|].
  intros [H1 H2] Hle. split; [done|]. by apply IH.
Qed.

Lemma chain_snoc D ws m o cur :
  chain D ws cur → (∀ h, o = Some h → h = cur) → chain D (ws ++ [(m, o)]) cur.
Proof.
  revert D. induction ws as [|w ws IH]; intros D; cbn.
  - intros H Ho. destruct o as [h|]; cbn; [|done]. by rewrite (Ho h eq_refl).
  - intros [H1 H2] Ho. split; [done|]. by apply IH.
Qed.

Lemma chain_prefix D ws1 ws2 cur : chain D (ws1 ++ ws2) cur → chain D ws1 cur.
Proof.
  revert D. induction ws1 as [|w ws1 IH]; intros D; cbn.
  - intros [H1 H2]%chain_latest. by etrans.
  - intros [H1 H2]. split; [done|]. by apply IH.
Qed.

Lemma hsAfter_all D ws k : Forall (λ w, fst w ≤ k) ws → hsAfter D ws k = latest D ws.
Proof.
  unfold hsAfter, latest. intros H. revert D. induction H as [|w ws Hw _ IH]; intros D; cbn; [done|].
  rewrite (proj2 (Z.leb_le _ _) Hw). apply IH.
Qed.

Lemma hsAfter_none D ws k : Forall (λ w, k < fst w) ws → hsAfter D ws k = D.
Proof.
  unfold hsAfter. intros H. revert D. induction H as [|w ws Hw _ IH]; intros D; cbn; [done|].
  rewrite (proj2 (Z.leb_gt _ _) Hw). apply IH.
Qed.

Lemma hsAfter_app D ws1 ws2 k : hsAfter D (ws1 ++ ws2) k = hsAfter (hsAfter D ws1 k) ws2 k.
Proof. apply foldl_app. Qed.

Lemma latest_app D ws1 ws2 : latest D (ws1 ++ ws2) = latest (latest D ws1) ws2.
Proof. apply foldl_app. Qed.

Lemma hsMarkOf_snoc ws m o :
  hsMarkOf (ws ++ [(m, o)]) = match o with Some _ => m | None => hsMarkOf ws end.
Proof. unfold hsMarkOf. rewrite foldl_app. by destruct o. Qed.

Definition sorted_marks (ws : list write) : Prop := StronglySorted Z.lt (fst <$> ws).

Lemma sorted_marks_app ws1 ws2 :
  sorted_marks (ws1 ++ ws2) ↔
  (∀ w1 w2, w1 ∈ ws1 → w2 ∈ ws2 → fst w1 < fst w2) ∧ sorted_marks ws1 ∧ sorted_marks ws2.
Proof.
  unfold sorted_marks. rewrite fmap_app, StronglySorted_app.
  split; intros (H1 & H2 & H3); split_and!; try done.
  - intros w1 w2 Hw1 Hw2. apply H1; by apply list_elem_of_fmap_2.
  - intros x1 x2 (w1 & -> & ?)%list_elem_of_fmap (w2 & -> & ?)%list_elem_of_fmap. by apply H1.
Qed.

Lemma sorted_marks_last ws m o :
  sorted_marks (ws ++ [(m, o)]) → Forall (λ w, fst w ≤ m) (ws ++ [(m, o)]).
Proof.
  intros (H & _ & _)%sorted_marks_app. apply Forall_app. split; [|by constructor].
  apply Forall_forall. intros w Hw. specialize (H w (m, o) Hw ltac:(by left)). cbn in H. lia.
Qed.

Lemma hsAfter_hsMark D ws : sorted_marks ws → hsAfter D ws (hsMarkOf ws) = latest D ws.
Proof.
  induction ws as [|[m o] ws IH] using rev_ind; [done|]. intros Hs.
  rewrite hsMarkOf_snoc. destruct o as [h|].
  - apply hsAfter_all, (sorted_marks_last _ _ _ Hs).
  - apply sorted_marks_app in Hs as (_ & Hs & _). rewrite hsAfter_app, latest_app, IH by done.
    unfold hsAfter, latest. cbn. by case_test.
Qed.

Lemma hsMarkOf_zero D ws :
  Forall (λ w, 0 < fst w) ws → hsMarkOf ws = 0 → latest D ws = D.
Proof.
  induction ws as [|[m o] ws IH] using rev_ind; [done|]. rewrite hsMarkOf_snoc, latest_app.
  intros [H1 H2]%Forall_app. destruct o as [h|].
  - inversion H2; subst. cbn in *. lia.
  - intros Hz. rewrite IH by done. done.
Qed.

Lemma hsMarkOf_in ws : hsMarkOf ws = 0 ∨ ∃ w, w ∈ ws ∧ fst w = hsMarkOf ws.
Proof.
  induction ws as [|[m o] ws IH] using rev_ind; [by left|]. rewrite hsMarkOf_snoc.
  destruct o as [h|].
  - right. exists (m, Some h). split; [|done]. apply elem_of_app. right. by left.
  - destruct IH as [?|(w & Hw & ?)]; [by left|]. right. exists w. split; [|done].
    apply elem_of_app. by left.
Qed.

(** ** The gate invariant *)

(** A withheld message waits for the write that makes what it reveals durable. *)
Definition waits (D : HardState) (ws : list write) (r : Raft) (g : gatedMessage) : Prop :=
  (g_termMark g ≤ r_lastHandedMark r
   ∧ hsle (attested (g_msg g)) (hsAfter D ws (g_termMark g)))
  ∨ (r_hardStateDirty r = true ∧ g_termMark g = r_dirtyMark r
     ∧ hsle (attested (g_msg g)) (curHS r)).

Record gate (D : HardState) (ws : list write) (r : Raft) : Prop := MkGate {
  ga_weak : marks_weak r;
  ga_open : r_hardStateDirty r = true → r_dirtyMark r ≠ 0 ∧ r_markHandedOff r = false;
  ga_marks : Forall (λ w, r_persisted r < fst w ≤ r_lastHandedMark r) ws;
  ga_sorted : sorted_marks ws;
  ga_chain : chain D ws (curHS r);
  ga_clean : r_hardStateDirty r = false → latest D ws = curHS r;
  ga_hsMark : r_hsMark r = hsMarkOf ws;
  ga_msgs : ∀ m, m ∈ r_msgs r → ungated m = false → hsle (attested m) D;
  ga_gated : ∀ g, g ∈ r_gated r → waits D ws r g;
}.

Lemma gate_ext D ws r r' : gcore r' = gcore r → gate D ws r → gate D ws r'.
Proof.
  intros Hg. pose proof (gcore_hs r r' Hg) as [Hcur _]. unfold gcore in Hg.
  injection Hg as E1 E2 E3 E4 E5 E6 E7 E8 E9 E10 E11 E12 E13.
  intros [[] Ho Hm Hs Hc Hl Hh Hms Hga].
  split; rewrite ?Hcur, ?E4, ?E5, ?E7, ?E8, ?E9, ?E11, ?E12; try done.
  - split; rewrite ?E5, ?E6, ?E7, ?E8, ?E9, ?E11; done.
  - intros g. rewrite E13. intros Hin%Hga. unfold waits. by rewrite Hcur, E4, E5, E11.
Qed.

Lemma exact_attested m r : exact m r → hsle (attested m) (curHS r).
Proof.
  intros [Ef Et Eg Ev]. unfold attested. split; cbn; [lia|]. intros _ Hv. destruct (is_grant m).
  - symmetry. auto.
  - destruct (bool_decide_reflect (m_Type m = MsgVote)); [|done]. by rewrite Ev, Ef.
Qed.

Lemma room_ext r r' : gcore r' = gcore r → mark_room r → mark_room r'.
Proof. unfold gcore, mark_room. intros [=]. intuition congruence. Qed.

(** Moving the gate's own fields: opening a mark, with or without a new hard
    state. *)
Lemma gate_dirty D ws r :
  gate D ws r → mark_room r → gate D ws (dirty r) ∧ mark_room (dirty r).
Proof.
  intros Hg Hroom. pose proof Hg as [Hw Ho Hm Hs Hc Hl Hh Hms Hga].
  split; [|by apply dirty_room].
  destruct (r_hardStateDirty r) eqn:Ed.
  { destruct (Ho eq_refl) as [Hd Hh']. unfold dirty.
    rewrite (proj2 (Z.eqb_neq _ _) Hd), Hh'. done. }
  pose proof (dirty_weak r Hw Hroom) as Hw'.
  split; try done; unfold dirty in *; case_test; try done; cbn in *; try congruence; try (by auto).
  - intros g Hin. destruct (Hga g Hin) as [?|[? _]]; [by left|congruence].
Qed.

Lemma gate_hs D ws t v r :
  gate D ws r → mark_room r → hsle (curHS r) (MkHardState t v) →
  let r' := dirty (r <| r_term := t |> <| r_vote := v |> <| r_hardStateDirty := true |>) in
  gate D ws r' ∧ mark_room r'.
Proof.
  intros Hg Hroom Hle. pose proof Hg as [Hw Ho Hm Hs Hc Hl Hh Hms Hga]. cbv zeta.
  set (r1 := r <| r_term := t |> <| r_vote := v |> <| r_hardStateDirty := true |>).
  assert (Hw1 : marks_weak r1) by (destruct Hw; by split).
  pose proof (dirty_weak r1 Hw1 Hroom) as Hw'. destruct (dirty_open r1 Hw1 Hroom) as [Hd' Hh'].
  assert (Hf : r_persisted (dirty r1) = r_persisted r ∧ r_lastHandedMark (dirty r1) = r_lastHandedMark r
    ∧ r_hsMark (dirty r1) = r_hsMark r ∧ r_msgs (dirty r1) = r_msgs r
    ∧ r_gated (dirty r1) = r_gated r ∧ r_hardStateDirty (dirty r1) = true
    ∧ curHS (dirty r1) = MkHardState t v) by (unfold dirty; by case_test).
  destruct Hf as (F1 & F2 & F3 & F4 & F5 & F6 & F7).
  split; [|by apply (dirty_room r1)].
  split; rewrite ?F1, ?F2, ?F3, ?F4, ?F6, ?F7; try done.
  - by eapply chain_le.
  - intros g. rewrite F5. intros [[? ?]|(Hd & Ht & Ha)]%Hga.
    + left. by rewrite F2.
    + right. rewrite F6, F7. split_and!; [done| |by etrans].
      destruct (Ho Hd) as [Hd1 Hh1]. unfold dirty. cbn.
      by rewrite (proj2 (Z.eqb_neq _ _) Hd1), Hh1.
Qed.

(** What the term mark stands for at the moment a message is sent. *)
Lemma termMark_waits D ws r m a b :
  gate D ws r → exact m r → waits D ws r (MkGated m a b (termMark r)).
Proof.
  intros [Hw Ho Hm Hs Hc Hl Hh Hms Hga] He%exact_attested. pose proof Hw as [].
  unfold waits, termMark. cbn. rewrite Z.gtb_ltb.
  destruct (r_hardStateDirty r) eqn:Ed; cbn [andb].
  - destruct (Ho eq_refl) as [Hd Hh']. specialize (mk_fresh Hd Hh').
    replace (r_hsMark r <? r_dirtyMark r) with true by lia. auto.
  - left. split; [lia|]. by rewrite Hh, hsAfter_hsMark, Hl.
Qed.

Lemma ws_positive D ws r : gate D ws r → Forall (λ w, 0 < fst w) ws.
Proof.
  intros [[] _ Hm _ _ _ _ _ _]. eapply Forall_impl; [done|]. cbn. intros w Hw. lia.
Qed.

(** With no mark to wait for, the disk already holds the current hard state. *)
Lemma termMark_zero D ws r : gate D ws r → termMark r = 0 → curHS r = D.
Proof.
  intros Hg. pose proof (ws_positive D ws r Hg) as Hpos.
  destruct Hg as [Hw Ho Hm Hs Hc Hl Hh Hms Hga]. pose proof Hw as [].
  unfold termMark. rewrite Z.gtb_ltb. destruct (r_hardStateDirty r) eqn:Ed; cbn [andb].
  - destruct (Ho eq_refl) as [Hd Hh']. specialize (mk_fresh Hd Hh').
    replace (r_hsMark r <? r_dirtyMark r) with true by lia. done.
  - intros Hz. rewrite <- Hl by done. apply hsMarkOf_zero; [done|congruence].
Qed.

Lemma gate_gated D ws a b m r :
  gate D ws r → exact m r → gate D ws (sendGatedOn a b m r).
Proof.
  intros Hg He. pose proof (termMark_waits D ws r m a b Hg He) as Hwait.
  pose proof Hg as [Hw Ho Hm Hs Hc Hl Hh Hms Hga].
  unfold sendGatedOn. cbv zeta.
  destruct ((a =? 0) && (b =? 0) && (termMark r =? 0)) eqn:E.
  - assert (Hz : termMark r = 0) by (bool_hyps; done).
    pose proof (termMark_zero D ws r Hg Hz) as HD.
    split; try done; [destruct Hw; by split|].
    intros x [Hx|Hx]%elem_of_app Hu; [by apply Hms|]. apply list_elem_of_singleton in Hx as ->.
    rewrite <- HD. by apply exact_attested.
  - split; try done; [destruct Hw; by split|].
    intros g [Hg'|Hg']%elem_of_app; [by apply Hga|]. apply list_elem_of_singleton in Hg' as ->.
    exact Hwait.
Qed.

Lemma gate_send D ws m r :
  gate D ws r → ungated m = true → gate D ws (r <| r_msgs := r_msgs r ++ [m] |>).
Proof.
  intros [Hw Ho Hm Hs Hc Hl Hh Hms Hga] Hu. split; try done; [destruct Hw; by split|].
  intros x [Hx|Hx]%elem_of_app; [by apply Hms|]. apply list_elem_of_singleton in Hx as ->.
  congruence.
Qed.

Lemma gate_drop D ws keep r :
  gate D ws r → gate D ws (r <| r_gated := filter (λ g, keep g = true) (r_gated r) |>).
Proof.
  intros [Hw Ho Hm Hs Hc Hl Hh Hms Hga]. split; try done; [destruct Hw; by split|].
  intros g [_ Hg]%list_elem_of_filter. by apply Hga.
Qed.

Lemma gate_act D ws r r' :
  act r r' → gate D ws r → mark_room r → gate D ws r' ∧ mark_room r'.
Proof.
  intros [H|t v Hle H|H|a b m He H|m Hu _ H|keep H] Hg Hr;
    (split; [eapply gate_ext|eapply room_ext]; [exact H|..]); try done.
  - apply (proj1 (gate_hs D ws t v r Hg Hr Hle)).
  - apply (proj2 (gate_hs D ws t v r Hg Hr Hle)).
  - apply (proj1 (gate_dirty D ws r Hg Hr)).
  - apply (proj2 (gate_dirty D ws r Hg Hr)).
  - by apply gate_gated.
  - unfold sendGatedOn. by case_test.
  - by apply gate_send.
  - by apply gate_drop.
Qed.

Lemma gate_acts D ws r r' :
  acts r r' → gate D ws r → mark_room r → gate D ws r'.
Proof.
  intros H. revert D ws. induction H as [|r r1 r' H _ IH]; intros D ws Hg Hr; [done|].
  destruct (gate_act D ws r r1 H Hg Hr). by apply IH.
Qed.

(** ** Draining and acknowledging *)

Lemma released_durable D ws r g :
  gate D ws r → g ∈ r_gated r → g_termMark g ≤ r_persisted r → hsle (attested (g_msg g)) D.
Proof.
  intros [Hw Ho Hm Hs Hc Hl Hh Hms Hga] Hg Hle. pose proof Hw as [].
  destruct (Hga g Hg) as [[_ Ha]|(Hd & Ht & _)].
  - rewrite hsAfter_none in Ha; [done|]. eapply Forall_impl; [done|]. cbn. intros w Hw'. lia.
  - destruct (Ho Hd) as [Hd1 Hh1]. specialize (mk_fresh Hd1 Hh1). lia.
Qed.

Lemma gate_release D ws r : gate D ws r → gate D ws (release r).
Proof.
  intros Hg. pose proof Hg as [Hw Ho Hm Hs Hc Hl Hh Hms Hga].
  split; try done; [destruct Hw; by split|..].
  - intros m [Hx|Hx]%elem_of_app Hu; [by apply Hms|].
    apply list_elem_of_fmap in Hx as (g & -> & [Hr Hin]%list_elem_of_filter).
    unfold releasable in Hr. bool_hyps. by eapply released_durable.
  - intros g [_ Hin]%list_elem_of_filter. by apply Hga.
Qed.

Lemma gate_AckSnapshot D ws m r : gate D ws r → gate D ws (AckSnapshot m r).
Proof.
  intros [Hw Ho Hm Hs Hc Hl Hh Hms Hga]. unfold AckSnapshot.
  case_test; [done|]. apply gate_release.
  destruct (negb _ && _); (split; [destruct Hw; by split|done..]).
Qed.

(** Striking an empty mark does not touch what any message waits for. *)
Lemma strike_waits D ws r g :
  gate D ws r → r_hardStateDirty r = false → r_dirtyMark r ≠ 0 → r_markHandedOff r = false →
  waits D ws r g → g_termMark (strike (r_dirtyMark r) g) = g_termMark g.
Proof.
  intros Hg Hd Hn Hh [[Hle _]|[? _]]; [|congruence]. destruct Hg as [[] _ _ _ _ _ _ _ _].
  specialize (mk_fresh Hn Hh). cbn. case_test; [lia|done].
Qed.

Lemma gate_closeEmptyMark D ws r :
  gate D ws r → r_hardStateDirty r = false → r_dirtyMark r ≠ 0 → r_markHandedOff r = false →
  gate D ws (closeEmptyMark (r_dirtyMark r) r).
Proof.
  intros Hg Hd Hn Hhf. pose proof Hg as [Hw Ho Hm Hs Hc Hl Hh Hms Hga]. pose proof Hw as [].
  unfold closeEmptyMark. rewrite Z.eqb_refl. apply gate_release.
  split; try done.
  - split; try done; cbn; lia.
  - cbn. congruence.
  - cbn. intros g (g0 & -> & Hin)%list_elem_of_fmap. specialize (Hga g0 Hin).
    pose proof (strike_waits D ws r g0 Hg Hd Hn Hhf Hga) as Hst.
    destruct Hga as [[Hle Ha]|[? _]]; [|congruence]. left. rewrite Hst. done.
Qed.

(** The write a hand-over starts. *)
Definition handed (r : Raft) (ws : list write) : list write :=
  if hands r
  then ws ++ [(r_dirtyMark r, if r_hardStateDirty r then Some (curHS r) else None)] else ws.

Lemma gate_handOver D ws r :
  inv r → gate D ws r → hands r = true →
  gate D (ws ++ [(r_dirtyMark r, if r_hardStateDirty r then Some (curHS r) else None)]) (handOver r).
Proof.
  intros Hi Hg Hhd.
  assert (Hor : t_handed (r_tail r) < lastIndex r ∨ r_hardStateDirty r = true)
    by (unfold hands in Hhd; bool_cases; auto).
  destruct (inv_marks _ (handOver_inv r Hi Hor)) as [Hw' _ _ _].
  destruct Hi as [_ _ [Hw Hop _ _]]. destruct (Hop Hor) as [Hn Hhf]. pose proof Hw as [].
  specialize (mk_fresh Hn Hhf). destruct Hg as [_ Ho Hm Hs Hc Hl Hh Hms Hga].
  set (o := if r_hardStateDirty r then Some (curHS r) else None).
  assert (Hlat : latest D (ws ++ [(r_dirtyMark r, o)]) = curHS r).
  { rewrite latest_app. unfold o. cbn. destruct (r_hardStateDirty r); [done|auto]. }
  assert (Hsort : sorted_marks (ws ++ [(r_dirtyMark r, o)])).
  { apply sorted_marks_app. split_and!; [|done|by repeat constructor].
    intros w1 w2 Hw1 ->%list_elem_of_singleton. cbn.
    eapply Forall_forall in Hm; [|exact Hw1]. cbn in Hm. lia. }
  split; try done.
  - apply Forall_app. split; [|constructor; [cbn; lia|done]].
    eapply Forall_impl; [exact Hm|]. cbn. intros w ?. lia.
  - apply chain_snoc; [done|]. unfold o. intros h. destruct (r_hardStateDirty r); [by intros [= <-]|done].
  - rewrite hsMarkOf_snoc. unfold o, handOver. cbn. by destruct (r_hardStateDirty r).
  - intros g Hin. left. cbn. destruct (Hga g Hin) as [[Hle Ha]|(Hd & -> & Ha)].
    + split; [lia|]. rewrite hsAfter_app. unfold hsAfter at 1. cbn.
      replace (r_dirtyMark r <=? g_termMark g) with false by lia. done.
    + split; [done|]. rewrite hsAfter_all, Hlat; [done|]. by apply sorted_marks_last.
Qed.

Lemma gate_drained D ws r a b c :
  gate D ws r → r_hardStateDirty r = false →
  gate D ws (r <| r_readyReads := a |> <| r_pendingSnap := b |> <| r_snapTo := c |>
               <| r_msgs := [] |> <| r_hardStateDirty := false |>).
Proof.
  intros [Hw Ho Hm Hs Hc Hl Hh Hms Hga] Hd. split; try done; [destruct Hw; by split|auto|..].
  - intros m Hx. by apply elem_of_nil in Hx.
  - intros g [?|[? _]]%Hga; [by left|congruence].
Qed.

Lemma gate_Ready D ws r rd r' :
  inv r → lastIndex r + 1 < 2 ^ 64 → gate D ws r → Ready_ r = Some (rd, r') →
  gate D (handed r ws) r'.
Proof.
  intros Hi Hb Hg. rewrite (Ready_unfold r Hi Hb). intros [= _ <-].
  destruct (afterReady_inv r Hi) as (_ & Hd & _). apply gate_drained; [|done].
  unfold afterReady, handed in *. destruct (hands r) eqn:Eh; [by apply gate_handOver|].
  unfold hands in Eh. bool_hyps. case_test; [|done]. by apply gate_closeEmptyMark.
Qed.

Lemma gcore_release r r' : gcore r' = gcore r → gcore (release r') = gcore (release r).
Proof.
  unfold gcore. intros [= E1 E2 E3 E4 E5 E6 E7 E8 E9 E10 E11 E12 E13].
  assert (Hr : ∀ b (gs : list gatedMessage), filter (λ g, releasable r' g = b) gs = filter (λ g, releasable r g = b) gs).
  { intros b gs. apply list_filter_iff. intros g. unfold releasable. by rewrite E9, E10. }
  unfold release. cbn. by rewrite !Hr, E1, E2, E3, E4, E5, E6, E7, E8, E9, E10, E11, E12, E13.
Qed.

(** [acked], on the fields the gate reads, before it releases. *)
Definition ackedMarks (m : PersistMark) (r : Raft) : Raft :=
  r <| r_persisted := m |>
    <| r_hsMark := if negb (r_hsMark r =? 0) && (r_hsMark r <=? m) then 0 else r_hsMark r |>
    <| r_dirtyMark := if negb (r_dirtyMark r =? 0) && (r_dirtyMark r <=? m)
                      then 0 else r_dirtyMark r |>
    <| r_markHandedOff := if negb (r_dirtyMark r =? 0) && (r_dirtyMark r <=? m)
                          then false else r_markHandedOff r |>.

Lemma acked_gcore m r : gcore (acked m r) = gcore (release (ackedMarks m r)).
Proof.
  unfold acked, releaseThrough, ackedMarks. cbv zeta.
  set (b1 := negb (r_hsMark r =? 0) && (r_hsMark r <=? m)).
  set (b3 := negb (r_dirtyMark r =? 0) && (r_dirtyMark r <=? m)).
  set (r1 := r <| r_persisted := m |>).
  set (r2 := if negb (r_hsMark r1 =? 0) && _ then _ else r1).
  assert (H2 : r2 = r1 <| r_hsMark := if b1 then 0 else r_hsMark r |>).
  { unfold r2. change (negb (r_hsMark r1 =? 0) && (r_hsMark r1 <=? m)) with b1.
    destruct b1; [done|]. by destruct r. }
  set (r3 := if _ && (r_markLastIdx r2 >? _) then _ else r2).
  assert (H3 : gcore r3 = gcore r2) by (unfold r3; by case_test).
  assert (Hp : r_persisted r3 = m) by (unfold gcore in H3; injection H3; rewrite H2; done).
  rewrite Hp, Z.gtb_ltb, Z.ltb_irrefl.
  assert (Hd : r_dirtyMark r3 = r_dirtyMark r) by (unfold gcore in H3; injection H3; rewrite H2; done).
  rewrite Hd. fold b3. apply gcore_release.
  rewrite H2 in H3. unfold gcore in *. injection H3 as E1 E2 E3 E4 E5 E6 E7 E8 E9 E10 E11 E12 E13.
  destruct b3; cbn; by rewrite E1, E2, E3, E4, ?E5, E6, E7, ?E8, E9, E10, E11, E12, E13.
Qed.

Lemma hsMarkOf_app ws1 ws2 :
  Forall (λ w, 0 < fst w) ws2 →
  hsMarkOf (ws1 ++ ws2) = if hsMarkOf ws2 =? 0 then hsMarkOf ws1 else hsMarkOf ws2.
Proof.
  induction ws2 as [|[m o] ws2 IH] using rev_ind; [by rewrite app_nil_r|].
  intros [H1 H2]%Forall_app. rewrite (assoc_L app), !hsMarkOf_snoc. destruct o as [h|]; [|by apply IH].
  inversion H2 as [|? ? Hm]; subst. cbn in Hm. case_test; [lia|done].
Qed.

Lemma hsMarkOf_le ws m : 0 ≤ m → Forall (λ w, fst w ≤ m) ws → hsMarkOf ws ≤ m.
Proof.
  intros H0 Hf. destruct (hsMarkOf_in ws) as [->|(w & Hw & <-)]; [done|].
  by eapply Forall_forall in Hf.
Qed.

(** Acknowledging the writes up to [w] leaves the mark of the last later write
    that carries a hard state. *)
Lemma hsMarkOf_suffix pre w post :
  sorted_marks (pre ++ w :: post) → Forall (λ w, 0 < fst w) (pre ++ w :: post) →
  (if negb (hsMarkOf (pre ++ w :: post) =? 0) && (hsMarkOf (pre ++ w :: post) <=? fst w)
   then 0 else hsMarkOf (pre ++ w :: post)) = hsMarkOf post.
Proof.
  destruct w as [m o]. cbn [fst]. replace (pre ++ (m, o) :: post) with ((pre ++ [(m, o)]) ++ post)
    by by rewrite <- (assoc_L app).
  intros (Hlt & Hs & _)%sorted_marks_app [Hp1 Hp2]%Forall_app. rewrite hsMarkOf_app by done.
  assert (Hle : hsMarkOf (pre ++ [(m, o)]) ≤ m).
  { apply hsMarkOf_le; [|by apply sorted_marks_last].
    apply Forall_app in Hp1 as [_ Hp1]. inversion Hp1; subst. cbn in *. lia. }
  destruct (hsMarkOf_in post) as [Hz|(w & Hw & Hwm)].
  - rewrite Hz, Z.eqb_refl. case_test; [done|]. bool_cases; lia.
  - assert (m < hsMarkOf post).
    { rewrite <- Hwm. apply (Hlt (m, o) w); [|done]. apply elem_of_app. right. by left. }
    destruct (hsMarkOf post =? 0) eqn:Ez; bool_hyps; [case_test; [done|bool_cases; lia]|].
    case_test; [bool_hyps; lia|done].
Qed.

Lemma gate_ackedMarks D pre w post r :
  gate D (pre ++ w :: post) r → gate (latest D (pre ++ [w])) post (ackedMarks (fst w) r).
Proof.
  intros Hg. pose proof (ws_positive _ _ _ Hg) as Hpos.
  pose proof Hg as [Hw Ho Hm Hs Hc Hl Hh Hms Hga]. pose proof Hw as [].
  destruct w as [m o]. cbn [fst].
  assert (Hsplit : pre ++ (m, o) :: post = (pre ++ [(m, o)]) ++ post) by by rewrite <- (assoc_L app).
  assert (Hmr : r_persisted r < m ≤ r_lastHandedMark r).
  { apply (proj1 (Forall_forall _ _) Hm (m, o)). apply elem_of_app. right. left. }
  assert (Hpost : Forall (λ w, m < fst w) post).
  { rewrite Hsplit in Hs. apply sorted_marks_app in Hs as (Hlt & _). apply Forall_forall.
    intros x Hx. apply (Hlt (m, o) x); [|done]. apply elem_of_app. right. by left. }
  assert (Hpre : Forall (λ w, fst w ≤ m) (pre ++ [(m, o)])).
  { rewrite Hsplit in Hs. apply sorted_marks_app in Hs as (_ & Hs & _). by apply sorted_marks_last. }
  assert (Hfresh : r_hardStateDirty r = true → r_dirtyMark r ≠ 0 ∧ r_markHandedOff r = false ∧ m < r_dirtyMark r).
  { intros [Hn Hf]%Ho. specialize (mk_fresh Hn Hf). auto with lia. }
  assert (HDle : hsle D (latest D (pre ++ [(m, o)]))).
  { rewrite Hsplit in Hc. apply chain_prefix in Hc. by apply chain_latest in Hc as [? _]. }
  pose proof (hsMarkOf_suffix pre (m, o) post Hs Hpos) as Hsuf. cbn [fst] in Hsuf. rewrite <- Hh in Hsuf.
  split; try done.
  - split; cbn; try lia.
    + case_test; lia.
    + case_test; [done|done].
    + case_test; [done|auto].
    + case_test; lia.
    + case_test; [done|]. intros Hn. bool_cases; lia.
  - cbn. intros (Hn & Hf & Hlt)%Hfresh. case_test; [bool_hyps; lia|done].
  - cbn. apply Forall_forall. intros x Hx. eapply Forall_forall in Hpost; [|done].
    rewrite Hsplit in Hm. apply Forall_app in Hm as [_ Hm]. eapply Forall_forall in Hm; [|done].
    cbn in *. lia.
  - rewrite Hsplit in Hs. by apply sorted_marks_app in Hs as (_ & _ & ?).
  - rewrite Hsplit in Hc. by apply chain_app.
  - intros Hd. rewrite Hsplit in Hl. rewrite latest_app in Hl. by apply Hl.
  - intros x Hx Hu. etrans; [by apply Hms|done].
  - intros g Hin. destruct (Hga g Hin) as [[Hle Ha]|(Hd & Ht & Ha)].
    + left. split; [done|]. etrans; [exact Ha|]. rewrite Hsplit in Hc |- *. rewrite hsAfter_app.
      destruct (decide (m ≤ g_termMark g)) as [Hge|Hlt].
      * rewrite (hsAfter_all D (pre ++ [(m, o)])); [done|].
        eapply Forall_impl; [exact Hpre|]. cbn. intros x ?. lia.
      * rewrite !hsAfter_none with (ws := post) by
          (eapply Forall_impl; [exact Hpost|]; cbn; intros x ?; lia).
        eapply chain_after; [by eapply chain_prefix|done].
    + destruct (Hfresh Hd) as (Hn & Hf & Hlt). right. cbn. split_and!; [done| |done].
      case_test; [bool_hyps; lia|done].
Qed.

Lemma gate_AckPersisted D pre w post r r' :
  gate D (pre ++ w :: post) r → AckPersisted (fst w) r = Some r' →
  gate (latest D (pre ++ [w])) post r'.
Proof.
  intros Hg. assert (Hlt : r_persisted r < fst w).
  { destruct Hg as [_ _ Hm _ _ _ _ _ _].
    apply (proj1 (Forall_forall _ _) Hm w). apply elem_of_app. right. left. }
  pose proof (gate_release _ _ _ (gate_ackedMarks _ _ _ _ _ Hg)) as Hg'.
  eapply gate_ext in Hg'; [|apply acked_gcore]. unfold AckPersisted. cbv zeta.
  replace (fst w <=? r_persisted r) with false by lia.
  change (releaseThrough (fst w) _) with (acked (fst w) r).
  revert Hg'. generalize (acked (fst w) r). intros a Ha.
  case_test; [|by intros [= <-]]. destruct (peerIdx a (r_id a)); [|by intros [= <-]].
  intros (mi & _ & H)%bind_Some. case_test_in H; [|by injection H as <-].
  apply bind_Some in H as (ms & _ & H). apply (inj Some) in H as <-.
  eapply gate_ext; [|exact Ha]. by rewrite gcore_maybeCommit.
Qed.

(** ** A node and its disk *)

Record dnode := MkDnode {
  dn_raft : Raft;
  dn_disk : HardState;
  dn_writes : list write;
}.

(** The message a call delivers, if it is a delivery. *)
Definition delivered (o : op) : option Message :=
  match o with OpStep m => Some m | _ => None end.

(** One step of a node under its driver, with the message it consumes and the
    messages that leave it.  The
    driver writes what [Ready] hands over, completes writes in order and
    acknowledges any completed one, and may stop at any point: what a restart
    recovers is the disk after some prefix of the writes in flight. *)
Inductive dstep : dnode → option Message → list Message → dnode → Prop :=
| ds_run o r D ws r' :
    inner_op o = true → op_ok o r → headroom r →
    term_room (r_term r) → term_room (op_term o) → run o r = Some r' →
    dstep (MkDnode r D ws) (delivered o) [] (MkDnode r' D ws)
| ds_ready r D ws rd r' :
    headroom r → Ready_ r = Some (rd, r') →
    dstep (MkDnode r D ws) None (rd_Messages rd)
      (MkDnode r' D (if rd_Mark rd =? 0 then ws else ws ++ [(rd_Mark rd, rd_HardState rd)]))
| ds_ack r D pre w post r' :
    AckPersisted (fst w) r = Some r' →
    dstep (MkDnode r D (pre ++ w :: post)) None [] (MkDnode r' (latest D (pre ++ [w])) post)
| ds_ackSnapshot m r D ws :
    dstep (MkDnode r D ws) None [] (MkDnode (AckSnapshot m r) D ws)
| ds_restart cfg snap es r D pre post r' :
    cfg_ID cfg = r_id r →
    0 ≤ sm_Index snap → sm_Index snap + Z.of_nat (length es) < 2 ^ 64 →
    conf_wf (sm_Conf snap) → Restore cfg (latest D pre) snap es = Ok r' →
    dstep (MkDnode r D (pre ++ post)) None [] (MkDnode r' (latest D pre) []).

Inductive dreach : dnode → Prop :=
| dr_new cfg r : New cfg = Ok r → dreach (MkDnode r (MkHardState 0 0) [])
| dr_step d i ms d' : dreach d → dstep d i ms d' → dreach d'.

Lemma fresh_gate D r :
  marks_weak r → r_hardStateDirty r = false → r_hsMark r = 0 → r_msgs r = [] → r_gated r = [] →
  curHS r = D → gate D [] r.
Proof.
  intros Hw Hd Hh Hm Hg <-. split; try done; try congruence.
  - constructor.
  - intros m. rewrite Hm. by intros ?%elem_of_nil.
  - intros g. rewrite Hg. by intros ?%elem_of_nil.
Qed.

Lemma Restore_gate cfg hs snap es r :
  inv r → Restore cfg hs snap es = Ok r → gate hs [] r ∧ r_id r = cfg_ID cfg.
Proof.
  intros Hi. unfold Restore. destruct (New cfg) as [r0|] eqn:E0; [|done].
  apply New_inv in E0 as (_ & -> & _). cbv zeta. case_test; [done|]. intros H.
  set (r1 := freshRaft cfg (initialConf cfg) <| r_term := _ |> <| r_vote := _ |>
    <| r_snapIndex := _ |> <| r_snapTerm := _ |> <| r_baseConf := _ |> <| r_log := _ |>
    <| r_commitIndex := _ |> <| r_appliedIdx := _ |>) in H.
  assert (Hgc : gcore r = gcore r1).
  { set (r2 := recomputeConf r1) in H. assert (H2 : gcore r2 = gcore r1) by apply gcore_recomputeConf.
    clearbody r2. rewrite <- H2. assert (Hr : r2 <| r_tail := MkLogTail (lastIndex r2) (lastIndex r2) |>
      <| r_markLastIdx := lastIndex r2 |> = r) by congruence. rewrite <- Hr. done. }
  destruct Hi as [_ _ [Hw _ _ _]]. pose proof (gcore_hs _ _ Hgc) as [Hcur Hid].
  unfold gcore in Hgc. injection Hgc as E1 E2 E3 E4 E5 E6 E7 E8 E9 E10 E11 E12 E13.
  split; [|done]. apply fresh_gate; try done. rewrite Hcur. by destruct hs.
Qed.

Lemma dreach_gate d :
  dreach d → inv (dn_raft d) ∧ gate (dn_disk d) (dn_writes d) (dn_raft d).
Proof.
  induction 1 as [cfg r H|d i ms d' _ [IHi IHg] Hst].
  { apply New_inv in H as (Hi & -> & _). split; [done|]. cbn.
    apply fresh_gate; try done. }
  destruct Hst as [o r D ws r' Hin Ho Hh Ht Hto H|r D ws rd r' [Hm Hb] H|r D pre w post r' H|m r D ws
    |cfg snap es r D pre post r' _ H1 H2 H3 H]; cbn in *.
  - split; [by eapply ki_inv, run_keptInv|].
    eapply gate_acts; [by eapply acts_run|done|]. left. apply Hh.
  - pose proof (gate_Ready _ _ _ _ _ IHi Hb IHg H) as Hg'. revert H.
    destruct (Ready_drains r IHi Hb) as (rd' & r1 & H1 & Hi1 & _ & _). rewrite H1. intros [= -> ->].
    split; [done|]. rewrite (Ready_unfold r IHi Hb) in H1. injection H1 as <- _.
    unfold handed in Hg'. cbn [theReady rd_Mark rd_HardState]. destruct (hands r) eqn:Eh; [|done].
    destruct (r_dirtyMark r =? 0) eqn:Ez; [|done]. bool_hyps.
    destruct IHi as [_ _ [_ Hop _ _]]. unfold hands in Eh.
    destruct Hop as [? _]; [bool_cases; auto|done].
  - assert (Hm : fst w ≤ r_lastHandedMark r).
    { destruct IHg as [_ _ Hm _ _ _ _ _ _].
      apply (proj1 (Forall_forall _ _) Hm w). apply elem_of_app. right. left. }
    destruct (AckPersisted_spec (fst w) r IHi Hm) as (r1 & H1 & Hk).
    rewrite H in H1. apply (inj Some) in H1 as <-. split; [apply Hk|]. by eapply gate_AckPersisted.
  - split; [by apply keptInv_AckSnapshot|by apply gate_AckSnapshot].
  - apply Restore_inv in H as Hr; [|done..]. destruct Hr as [Hi _]. split; [done|].
    by eapply Restore_gate.
Qed.

(** What a released message reveals is on the disk. *)
Lemma released_attested d i ms d' m :
  dreach d → dstep d i ms d' → m ∈ ms → ungated m = false → hsle (attested m) (dn_disk d).
Proof.
  intros Hr Hst Hm Hu. apply dreach_gate in Hr as [Hi Hg].
  destruct Hst as [| r D ws rd r' [_ Hb] H| | |]; try (by apply elem_of_nil in Hm). cbn in *.
  rewrite (Ready_unfold r Hi Hb) in H. injection H as <- _. cbn in Hm.
  destruct Hg as [_ _ _ _ _ _ _ Hms _]. exact (Hms m Hm Hu).
Qed.

(** C2. Persist before reply: whatever the interleaving of calls, completed
    writes and restarts, a message that leaves a node speaks for no term above
    the one on its disk, and if it grants a vote, or asks for one, in the term
    on its disk then that vote is on its disk.  The pre-vote pair and
    [MsgTimeoutNow], which do not speak for the sender's hard state, are the
    only exceptions. *)
Theorem persist_before_reply d i ms d' m :
  dreach d → dstep d i ms d' → m ∈ ms → ungated m = false →
  m_Term m ≤ hs_Term (dn_disk d)
  ∧ (m_Term m = hs_Term (dn_disk d) →
     (is_grant m = true → m_To m ≠ 0 → hs_Vote (dn_disk d) = m_To m)
     ∧ (m_Type m = MsgVote → m_From m ≠ 0 → hs_Vote (dn_disk d) = m_From m)).
Proof.
  intros Hr Hst Hm Hu. destruct (released_attested d i ms d' m Hr Hst Hm Hu) as [H1 H2]. split; [done|].
  unfold attested in H2. cbn in H2. intros Heq. specialize (H2 Heq). split.
  - intros Hgr Ht. rewrite Hgr in H2. by apply H2.
  - intros Ht Hf. unfold is_grant in H2. rewrite Ht in H2. cbn in H2. by apply H2.
Qed.

(** What is on disk only moves forward: no step, a restart included, takes
    the durable term back or changes a durable vote within its term. *)
Theorem disk_monotone d i ms d' :
  dreach d → dstep d i ms d' →
  hs_Term (dn_disk d) ≤ hs_Term (dn_disk d')
  ∧ (hs_Term (dn_disk d') = hs_Term (dn_disk d) → hs_Vote (dn_disk d) ≠ 0 →
     hs_Vote (dn_disk d') = hs_Vote (dn_disk d)).
Proof.
  intros Hr Hst. apply dreach_gate in Hr as [Hi Hg].
  assert (Hle : hsle (dn_disk d) (dn_disk d')).
  { destruct Hst as [| |r D pre w post r' H| |cfg snap es r D pre post r' _ H1 H2 H3 H]; cbn in *; try done.
    - destruct Hg as [_ _ _ _ Hc _ _ _ _].
      replace (pre ++ w :: post) with ((pre ++ [w]) ++ post) in Hc by by rewrite <- (assoc_L app).
      apply chain_prefix, chain_latest in Hc. apply Hc.
    - destruct Hg as [_ _ _ _ Hc _ _ _ _]. apply chain_prefix, chain_latest in Hc. apply Hc. }
  destruct Hle as [H1 H2]. split; [done|]. intros Heq. by apply H2.
Qed.
