(* ===== verification/RaftLive.v ===== *)
(** * Progress of a node

    What a node does when the rest of the cluster says nothing: it stands for election
    within its timeout, and its requests leave it as soon as its disk has answered. *)

From Stdlib Require Import Lia ZArith.
From stdpp Require Import base tactics numbers option relations list.
From S2P Require Import Prelude Bytes ConfChange RaftTypes Raft RaftInv RaftOps RaftReach RaftGate.

(** ** Waiting *)

Fixpoint ticks (n : nat) (r : Raft) : option Raft :=
  match n with O => Some r | S n => r ← Tick r; ticks n r end.

(** The ticks until the timeout, one at least. *)
Definition patience (r : Raft) : nat := Z.to_nat (Z.max 1 (r_randomizedElectionTimeout r - r_electionElapsed r)).

Definition waited (n : nat) (r : Raft) : Raft := r <| r_electionElapsed := r_electionElapsed r + Z.of_nat n |>.

Lemma Tick_sleeps r :
  r_role r ≠ RoleLeader → IsVoter (r_conf r) (r_id r) = true →
  Tick r = if (patience r <=? 1)%nat then campaign (waited 1 r) else Some (waited 1 r).
Proof.
  intros Hr Hv.
  assert (Hb : (r_electionElapsed r + 1 >=? r_randomizedElectionTimeout r) = (patience r <=? 1)%nat).
  { apply eq_true_iff_eq. unfold patience. rewrite Z.geb_le, Nat.leb_le. lia. }
  rewrite <- Hb. unfold Tick. destruct (r_role r); [| |done]; cbv zeta;
    change (IsVoter (r_conf (r <| r_electionElapsed := _ |>)) _) with (IsVoter (r_conf r) (r_id r)); by rewrite Hv, andb_true_r.
Qed.

Lemma ticks_wait n r :
  r_role r ≠ RoleLeader → IsVoter (r_conf r) (r_id r) = true → patience r = S n → ticks (S n) r = campaign (waited (S n) r).
Proof.
  revert r. induction n as [|n IH]; intros r Hr Hv Hp; change (ticks (S ?n) r) with (r ← Tick r; ticks n r); rewrite Tick_sleeps by done; rewrite Hp.
  - cbn. by destruct (campaign _).
  - change (S (S n) <=? 1)%nat with false. cbn [mbind option_bind].
    rewrite IH; [|done|done|unfold patience, waited in *; cbn -[Z.of_nat Z.max Z.sub]; lia].
    f_equal. unfold waited. replace (r_electionElapsed r + Z.of_nat (S (S n))) with (r_electionElapsed r + Z.of_nat 1 + Z.of_nat (S n)) by lia. done.
Qed.

(** ** Standing for election *)

(** The requests of a candidate are all withheld under its open mark. *)
Definition voteRequest (r : Raft) (p : NodeID) : Message :=
  mkmsg MsgVote (r_id r) p (r_term r) <| m_LastLogIndex := lastIndex r |> <| m_LastLogTerm := lastTerm r |>.
Definition preVoteRequest (r : Raft) (p : NodeID) : Message :=
  mkmsg MsgPreVote (r_id r) p (add64 (r_term r) 1) <| m_LastLogIndex := lastIndex r |> <| m_LastLogTerm := lastTerm r |>.

Lemma votes_withheld r xs :
  termMark r ≠ 0 →
  foldl (λ r p, if p =? r_id r then r else sendGated (voteRequest r p) r) r xs
  = r <| r_gated := r_gated r ++ ((λ p, MkGated (voteRequest r p) 0 0 (termMark r)) <$> filter (λ p, p ≠ r_id r) xs) |>.
Proof.
  intros Ht. revert r Ht. induction xs as [|x xs IH]; intros r Ht; cbn [foldl].
  - destruct r; cbn. by rewrite app_nil_r.
  - destruct (Z.eqb_spec x (r_id r)) as [->|Hne]; [rewrite filter_cons_False by auto; by apply IH|].
    rewrite filter_cons_True by done. unfold sendGated, sendGatedOn. cbv zeta. rewrite (proj2 (Z.eqb_neq _ _) Ht). rewrite andb_false_r.
    rewrite IH by done. destruct r; cbn. by rewrite <- app_assoc.
Qed.

Lemma preVotes_sent r xs :
  foldM (λ r p, if p =? r_id r then Some r else send (preVoteRequest r p) r) r xs
  = Some (r <| r_msgs := r_msgs r ++ (preVoteRequest r <$> filter (λ p, p ≠ r_id r) xs) |>).
Proof.
  revert r. induction xs as [|x xs IH]; intros r; cbn [foldM].
  - destruct r; cbn. by rewrite app_nil_r.
  - destruct (Z.eqb_spec x (r_id r)) as [->|Hne]; [rewrite filter_cons_False by auto; cbn [mbind option_bind]; by apply IH|].
    rewrite filter_cons_True by done. change (send (preVoteRequest r x) r) with (Some (r <| r_msgs := r_msgs r ++ [preVoteRequest r x] |>)).
    cbn [mbind option_bind]. rewrite IH. destruct r; cbn. by rewrite <- app_assoc.
Qed.

(** A candidate that has to ask. *)
Lemma forceCampaign_asks r r' :
  good r → term_room (r_term r) → (quorum r =? 1)%nat = false → forceCampaign r = Some r' →
  r_role r' = RoleCandidate ∧ r_term r' = r_term r + 1 ∧ r_vote r' = r_id r ∧ r_hardStateDirty r' = true
  ∧ r_persistedSnap r' = r_persistedSnap r ∧ lastIndex r' = lastIndex r
  ∧ ∀ p, p ∈ r_peers r → p ≠ r_id r →
    ∃ g, g ∈ r_gated r' ∧ g_mark g = 0 ∧ g_snapMark g = 0 ∧ g_termMark g = r_dirtyMark r'
         ∧ m_Type (g_msg g) = MsgVote ∧ m_To (g_msg g) = p ∧ m_Term (g_msg g) = r_term r + 1.
Proof.
  intros Hg [H0 Ht] Hq. unfold forceCampaign. cbv zeta. change (setTermAndVote _ _ _) with (candidacy r).
  pose proof (kept_good _ _ (kept_candidacy r Hg)) as [[_ _ [[] Hop _ _]] _].
  destruct (candidacy_frame r) as (Fi & Fl & Fs & _ & _ & _ & _ & Fc & Fp & _). destruct (candidacy_hs r) as (Hv & Htm & _).
  rewrite add64_small in Htm by lia.
  assert (Hd : r_hardStateDirty (candidacy r) = true ∧ r_role (candidacy r) = RoleCandidate ∧ r_persistedSnap (candidacy r) = r_persistedSnap r).
  { unfold candidacy, setTermAndVote. cbn. rewrite add64_small by lia. replace (r_term r =? r_term r + 1) with false by lia. cbn. unfold dirty. by case_test. }
  destruct Hd as (Hd & Hrole & Hps). destruct (Hop (or_intror Hd)) as [Hdm Hho]. specialize (mk_fresh Hdm Hho).
  assert (Htk : termMark (candidacy r) = r_dirtyMark (candidacy r)).
  { unfold termMark. rewrite Hd. replace (r_dirtyMark (candidacy r) >? r_hsMark (candidacy r)) with true by lia. done. }
  unfold quorum in Hq. rewrite <- Fc in Hq. rewrite <- Fi, <- Fp. rewrite <- Hps, <- Htm, <- (lastIndex_ext r (candidacy r) Fl Fs). rewrite <- Fi in Hv.
  revert Hd Hrole Hv Hdm Htk Hq. clear. generalize (candidacy r). intros c Hd Hrole Hv Hdm Htk Hq.
  intros (i & _ & H)%bind_Some. apply bind_Some in H as (vs & _ & H).
  set (c1 := c <| r_leader := _ |> <| r_electionElapsed := _ |> <| r_votesGranted := _ |> <| r_votesDenied := _ |> <| r_votesGranted := vs |>) in H.
  change (quorum c1) with (conf_quorum (r_conf c)) in H. rewrite Hq in H. apply (inj Some) in H.
  pose proof (votes_withheld c1 (r_peers c1)) as Hw. rewrite <- H. unfold voteRequest in Hw. rewrite Hw by (change (termMark c1) with (termMark c); congruence).
  change (termMark c1) with (termMark c). split_and!; try done. intros p Hp Hne. rewrite Htk.
  exists (MkGated (voteRequest c1 p) 0 0 (r_dirtyMark c)). split; [|done].
  cbn [r_gated]. apply elem_of_app. right. apply list_elem_of_fmap. exists p. split; [reflexivity|]. by apply list_elem_of_filter.
Qed.

(** ** The gate opens *)

Lemma release_releases r g :
  g ∈ r_gated r → g_mark g ≤ r_persisted r → g_termMark g ≤ r_persisted r → g_snapMark g ≤ r_persistedSnap r → g_msg g ∈ r_msgs (release r).
Proof.
  intros Hg H1 H2 H3. unfold release. cbn [r_msgs]. apply elem_of_app. right. apply list_elem_of_fmap. exists g. split; [done|].
  apply list_elem_of_filter. split; [|done]. unfold releasable. lia.
Qed.

Lemma gcore_msgs a b : gcore a = gcore b → r_msgs a = r_msgs b.
Proof. by intros [=]. Qed.
Lemma gcore_snap a b : gcore a = gcore b → r_persistedSnap a = r_persistedSnap b.
Proof. by intros [=]. Qed.

(** What the leader does with its own acknowledgement. *)
Definition recount (r : Raft) : option Raft :=
  if bool_decide (r_role r = RoleLeader) then
    match peerIdx r (r_id r) with
    | None => Some r
    | Some i =>
        mi ← r_matchIndex r !! i;
        if persistedIndex r >? mi then
          ms ← slice_set (r_matchIndex r) i (persistedIndex r);
          Some (maybeCommit (r <| r_matchIndex := ms |>))
        else Some r
    end
  else Some r.

Lemma AckPersisted_acked m r : r_persisted r < m → AckPersisted m r = recount (acked m r).
Proof. intros H. unfold AckPersisted, acked, recount. rewrite (proj2 (Z.leb_gt _ _) H). cbv zeta. reflexivity. Qed.

Lemma acked_releases m r g :
  r_persisted r < m → g ∈ r_gated r → g_mark g ≤ m → g_termMark g ≤ m → g_snapMark g ≤ r_persistedSnap r →
  g_msg g ∈ r_msgs (acked m r).
Proof.
  intros Hm Hg H1 H2 H3. assert (E : r_msgs (acked m r) = r_msgs (release (ackedMarks m r))) by apply gcore_msgs, acked_gcore.
  rewrite E. by apply release_releases.
Qed.

(** What a hand-over with a hard state leaves for the acknowledgement to release. *)
Lemma sync_releases r :
  inv r → lastIndex r + 1 < 2 ^ 64 → r_hardStateDirty r = true → r_role r ≠ RoleLeader → 0 ≤ r_persistedSnap r →
  ∃ rd r2 r3 rd' r4, Ready_ r = Some (rd, r2) ∧ AckPersisted (rd_Mark rd) r2 = Some r3 ∧ Ready_ r3 = Some (rd', r4)
    ∧ rd_HardState rd = Some (curHS r)
    ∧ ∀ g, g ∈ r_gated r → g_mark g = 0 → g_snapMark g = 0 → g_termMark g = r_dirtyMark r → g_msg g ∈ rd_Messages rd'.
Proof.
  intros Hi Hb Hd Hrole Hps. pose proof Hi as [_ _ [[] Hop _ _]]. destruct (Hop (or_intror Hd)) as [Hdm Hho]. specialize (mk_fresh Hdm Hho).
  destruct (Ready_drains r Hi Hb) as (rd & r2 & HR & Hi2 & _ & Hhs & _). rewrite Hd in Hhs.
  assert (HR' := HR). rewrite (Ready_unfold r Hi Hb) in HR'. unfold afterReady, hands in HR'. rewrite Hd in HR'. cbn [orb] in HR'. injection HR' as <- E2.
  assert (Hmk : rd_Mark (theReady r) = r_dirtyMark r) by (unfold theReady, hands; by rewrite Hd).
  assert (F : r_persisted r2 = r_persisted r ∧ r_gated r2 = r_gated r ∧ r_persistedSnap r2 = r_persistedSnap r ∧ r_lastHandedMark r2 = r_dirtyMark r
              ∧ r_role r2 = r_role r ∧ lastIndex r2 = lastIndex r) by (by rewrite <- E2).
  clear E2. destruct F as (Fp & Fg & Fs & Fl & Fr & FL).
  assert (HA : AckPersisted (r_dirtyMark r) r2 = Some (acked (r_dirtyMark r) r2)).
  { rewrite AckPersisted_acked by lia. unfold recount.
    assert (Ea : r_role (acked (r_dirtyMark r) r2) = r_role r) by (rewrite <- Fr; unfold acked, releaseThrough; cbv zeta; by repeat case_test).
    by rewrite Ea, bool_decide_eq_false_2. }
  destruct (acked_inv (r_dirtyMark r) r2 Hi2) as [Hi3 _]; [lia|].
  destruct (core_log _ _ (acked_core (r_dirtyMark r) r2)) as (E1 & E2 & _).
  destruct (Ready_drains (acked (r_dirtyMark r) r2) Hi3) as (rd' & r4 & HR4 & _ & _ & _ & _ & _ & Hmsgs & _); [by rewrite (lastIndex_ext r2), FL|].
  exists (theReady r), r2, (acked (r_dirtyMark r) r2), rd', r4. rewrite Hmk. split_and!; try done.
  intros g Hg G1 G2 G3. rewrite Hmsgs. apply acked_releases; [lia|by rewrite Fg|lia|lia|lia].
Qed.

Lemma AckPersisted_gcore m r r' : AckPersisted m r = Some r' → gcore r' = gcore r ∨ gcore r' = gcore (release (ackedMarks m r)).
Proof.
  destruct (Z.leb_spec m (r_persisted r)) as [Hle|Hlt].
  { unfold AckPersisted. rewrite (proj2 (Z.leb_le _ _) Hle). intros [= <-]. by left. }
  rewrite AckPersisted_acked by done. rewrite <- acked_gcore. generalize (acked m r). unfold recount. intros a H. right. case_test_in H; [|by injection H as <-]. destruct (peerIdx a (r_id a)); [|by injection H as <-].
  apply bind_Some in H as (mi & _ & H). case_test_in H; [|by injection H as <-].
  apply bind_Some in H as (ms & _ & H). apply (inj Some) in H as <-. by rewrite gcore_maybeCommit.
Qed.

Lemma Restore_snap cfg hs snap es r : Restore cfg hs snap es = Ok r → r_persistedSnap r = 0.
Proof.
  unfold Restore. destruct (New cfg) as [r0|] eqn:E0; [|done]. apply New_inv in E0 as (_ & -> & _). cbv zeta. case_test; [done|]. intros [= <-]. cbn.
  by rewrite (gcore_snap _ _ (gcore_recomputeConf _)).
Qed.

(** The acknowledged snapshot mark is never negative. *)
Lemma acts_snap r r' : acts r r' → r_persistedSnap r' = r_persistedSnap r.
Proof.
  induction 1 as [|r r1 r' H _ IH]; [done|]. rewrite IH. destruct H as [H|t v _ H|H|a b m _ H|m _ _ H|keep H]; apply gcore_snap in H; rewrite H; try done.
  - unfold dirty. by case_test.
  - unfold dirty. by case_test.
  - unfold sendGatedOn. by case_test.
Qed.

Lemma dreach_snap d : dreach d → 0 ≤ r_persistedSnap (dn_raft d).
Proof.
  induction 1 as [cfg r H|d i ms d' Hr IH Hst]; [apply New_inv in H as (_ & -> & _); done|].
  pose proof (dreach_gate _ Hr) as [Hi _].
  destruct Hst as [o r D ws r' Hin Ho Hh Ht Hto H|r D ws rd r' [Hm Hb] H|r D pre w post r' H|m r D ws|cfg snap es r D pre post r' _ H1 H2 H3 H]; cbn in *.
  - erewrite acts_snap; [exact IH|]. by eapply acts_run.
  - rewrite (Ready_unfold r Hi Hb) in H. injection H as _ <-. cbn. unfold afterReady. repeat case_test; try done. unfold closeEmptyMark. by rewrite Z.eqb_refl.
  - pose proof (AckPersisted_gcore _ _ _ H) as [Hc|Hc]; rewrite (gcore_snap _ _ Hc); done.
  - unfold AckSnapshot. case_test; [done|]. cbv zeta. repeat case_test; cbn; lia.
  - rewrite (Restore_snap _ _ _ _ _ H). done.
Qed.

(** ** Standing alone *)

Lemma sendAppend_role to r r' : sendAppend to r = Some r' → r_role r' = r_role r ∧ r_term r' = r_term r ∧ r_id r' = r_id r.
Proof.
  unfold sendAppend. destruct (peerIdx r to) as [i|]; [|by intros [= <-]]. intros (next & _ & H)%bind_Some. cbv zeta in H. revert H. generalize (if next <? 1 then 1 else next). intros nx H.
  case_test_in H.
  - unfold sendSnapshot in H. case_test_in H; [by injection H as <-|]. cbv zeta in H. destruct (peerIdx _ _); [|by injection H as <-].
    apply bind_Some in H as (ns & _ & H). by injection H as <-.
  - apply bind_Some in H as (es & _ & H). injection H as <-. unfold sendGated, sendGatedOn. by case_test.
Qed.

Lemma broadcastAppend_role r r' : broadcastAppend r = Some r' → r_role r' = r_role r ∧ r_term r' = r_term r.
Proof.
  unfold broadcastAppend. apply (foldM_inv (λ s, r_role s = r_role r ∧ r_term s = r_term r)); [done|]. intros s p s' [S1 S2].
  case_test; [by intros [= <-]|]. intros (-> & -> & _)%sendAppend_role. done.
Qed.

Lemma appendNoop_role t r r' : appendEntries [noopEntry t] r = Some r' → r_role r' = r_role r ∧ r_term r' = r_term r.
Proof.
  unfold appendEntries. cbn [foldM]. intros (x & Hx & Hr)%bind_Some. apply bind_Some in Hx as (y & Hy & [= <-]).
  unfold appendOne in Hy. case_test_in Hy; [done|]. injection Hy as <-.
  change (existsb is_conf_entry [noopEntry t]) with false in Hr. injection Hr as <-. unfold dirty. by case_test.
Qed.

Lemma becomeLeader_leads r r' : becomeLeader r = Some r' → r_role r' = RoleLeader ∧ r_term r' = r_term r.
Proof.
  unfold becomeLeader. intros (i & _ & H)%bind_Some. apply bind_Some in H as (ms & _ & H). apply bind_Some in H as (r1 & H1 & H).
  apply appendNoop_role in H1 as [E1 E2]. apply broadcastAppend_role in H as [E3 E4]. rewrite E3, E4. cbn [r_role r_term] in E1, E2. split; [exact E1|exact E2].
Qed.

Lemma forceCampaign_alone r r' :
  term_room (r_term r) → (quorum r =? 1)%nat = true → forceCampaign r = Some r' → r_role r' = RoleLeader ∧ r_term r' = r_term r + 1.
Proof.
  intros [H0 Ht] Hq. unfold forceCampaign. cbv zeta. change (setTermAndVote _ _ _) with (candidacy r).
  destruct (candidacy_frame r) as (_ & _ & _ & _ & _ & _ & _ & Fc & _). destruct (candidacy_hs r) as (_ & Htm & _).
  rewrite add64_small in Htm by lia. unfold quorum in Hq. rewrite <- Fc in Hq. rewrite <- Htm. revert Hq. clear. generalize (candidacy r). intros c Hq.
  intros (i & _ & H)%bind_Some. apply bind_Some in H as (vs & _ & H).
  set (c1 := c <| r_leader := _ |> <| r_electionElapsed := _ |> <| r_votesGranted := _ |> <| r_votesDenied := _ |> <| r_votesGranted := vs |>) in H.
  change (quorum c1) with (conf_quorum (r_conf c)) in H. rewrite Hq in H. by apply becomeLeader_leads in H.
Qed.

(** A node that asks before it raises its term. *)
Lemma preCampaign_asks r r' :
  term_room (r_term r) → preCampaign r = Some r' →
  if (quorum r =? 1)%nat then r_role r' = RoleLeader ∧ r_term r' = r_term r + 1
  else r_preVoting r' = true ∧ lastIndex r' = lastIndex r
       ∧ ∀ p, p ∈ r_peers r → p ≠ r_id r → ∃ m, m ∈ r_msgs r' ∧ m_Type m = MsgPreVote ∧ m_To m = p ∧ m_Term m = r_term r + 1.
Proof.
  intros Ht. unfold preCampaign. cbv zeta. intros (i & _ & H)%bind_Some. apply bind_Some in H as (vs & _ & H).
  set (c := r <| r_preVoting := _ |> <| r_leader := _ |> <| r_electionElapsed := _ |> <| r_preGranted := _ |> <| r_preGranted := vs |>) in H.
  change (quorum c) with (quorum r) in H. destruct (quorum r =? 1)%nat eqn:Eq.
  - by apply forceCampaign_alone in H.
  - pose proof (preVotes_sent c (r_peers c)) as Hs. unfold preVoteRequest in Hs. rewrite Hs in H. injection H as <-.
    split_and!; [done|done|]. intros p Hp Hne. exists (preVoteRequest c p). destruct Ht as [? ?].
    split_and!; [|done|done|cbn; by rewrite add64_small by lia].
    cbn [r_msgs]. apply elem_of_app. right. apply list_elem_of_fmap. exists p. split; [reflexivity|]. by apply list_elem_of_filter.
Qed.

(** C13. A silent cluster does not stay leaderless for want of trying: a node that is a
    voter and does not lead, whatever happened to it before, campaigns at the tick that
    fills its election timeout if nothing reaches it until then.  Alone in its quorum it
    leads the next term; with pre-vote it has asked every other member about the next
    term in the very next hand-over; without, it is a candidate of the next term, and
    one hand-over, one completed write and one more hand-over later - the disk being
    all it waits for - its request to every other member is on its way. *)
Theorem silent_node_campaigns d :
  let r := dn_raft d in
  dreach d → headroom r → term_room (r_term r) →
  r_role r ≠ RoleLeader → IsVoter (r_conf r) (r_id r) = true →
  ∃ r1, ticks (patience r) r = Some r1 ∧
    if (quorum r =? 1)%nat then r_role r1 = RoleLeader ∧ r_term r1 = r_term r + 1
    else if r_preVote r then
      r_preVoting r1 = true ∧ ∃ rd r2, Ready_ r1 = Some (rd, r2)
        ∧ ∀ p, p ∈ r_peers r → p ≠ r_id r → ∃ m, m ∈ rd_Messages rd ∧ m_Type m = MsgPreVote ∧ m_To m = p ∧ m_Term m = r_term r + 1
    else
      r_role r1 = RoleCandidate ∧ r_term r1 = r_term r + 1 ∧ r_vote r1 = r_id r
      ∧ ∃ rd r2 r3 rd' r4, Ready_ r1 = Some (rd, r2) ∧ AckPersisted (rd_Mark rd) r2 = Some r3 ∧ Ready_ r3 = Some (rd', r4)
        ∧ ∀ p, p ∈ r_peers r → p ≠ r_id r → ∃ m, m ∈ rd_Messages rd' ∧ m_Type m = MsgVote ∧ m_To m = p ∧ m_Term m = r_term r + 1.
Proof.
  intros r Hd [Hm Hb] Ht Hrole Hv. pose proof (dreach_gate d Hd) as [Hi _]. pose proof (dreach_snap d Hd) as Hps.
  change (dn_raft d) with r in Hi, Hps. clearbody r. clear Hd.
  assert (Hp : ∃ n, patience r = S n) by (exists (pred (patience r)); unfold patience; lia). destruct Hp as [n Hn].
  rewrite Hn, ticks_wait by done. set (w := waited (S n) r). assert (Hg : good w) by (apply (good_core r); [done|split; [done|by left]]).
  destruct (campaign_spec w) as (r1 & H1 & Hk); [done|by apply IsVoter_member|done|].
  exists r1. split; [done|].
  change (r_term r) with (r_term w) in *. change (quorum r) with (quorum w). change (r_preVote r) with (r_preVote w).
  change (r_peers r) with (r_peers w). change (r_id r) with (r_id w). change (r_persistedSnap r) with (r_persistedSnap w) in Hps.
  unfold campaign in H1. pose proof (kept_good _ _ Hk) as [Hi1 _].
  destruct (r_preVote w).
  - apply preCampaign_asks in H1; [|done]. destruct (quorum w =? 1)%nat; [done|]. destruct H1 as (Hpv & HL & Hask). split; [done|].
    destruct (Ready_drains r1 Hi1) as (rd & r2 & HR & _ & _ & _ & _ & _ & Hmsgs & _); [by rewrite HL|]. exists rd, r2. split; [done|]. by rewrite Hmsgs.
  - destruct (quorum w =? 1)%nat eqn:Eq; [by apply forceCampaign_alone|].
    apply forceCampaign_asks in H1 as (R & T & V & D & S & L & G); [|done..]. split_and!; try done.
    destruct (sync_releases r1) as (rd & r2 & r3 & rd' & r4 & A1 & A2 & A3 & _ & A5); [done|by rewrite L|done|by rewrite R|by rewrite S|].
    exists rd, r2, r3, rd', r4. split_and!; try done. intros p Hp Hne. destruct (G p Hp Hne) as (g & Hin & G1 & G2 & G3 & G4). exists (g_msg g). split; [by apply A5|done].
Qed.

Definition quietCfg : Config := MkConfig 1 [1; 2; 3] 10 3 [] 8 false.
Definition quietNode : Raft := freshRaft quietCfg (initialConf quietCfg).

Lemma silent_node_campaigns_witness :
  patience quietNode = 10%nat
  ∧ ∃ r1, ticks 10 quietNode = Some r1 ∧ r_role r1 = RoleCandidate
    ∧ ∃ rd r2 r3 rd' r4, Ready_ r1 = Some (rd, r2) ∧ AckPersisted (rd_Mark rd) r2 = Some r3 ∧ Ready_ r3 = Some (rd', r4)
      ∧ ∃ m, m ∈ rd_Messages rd' ∧ m_Type m = MsgVote ∧ m_To m = 3 ∧ m_Term m = 1.
Proof.
  split; [by vm_compute|].
  destruct (silent_node_campaigns (MkDnode quietNode (MkHardState 0 0) [])) as (r1 & H1 & H2).
  - apply (dr_new quietCfg). by vm_compute.
  - split; by vm_compute.
  - split; by vm_compute.
  - by vm_compute.
  - by vm_compute.
  - exists r1. split; [exact H1|]. cbn [dn_raft] in H2. replace (quorum quietNode =? 1)%nat with false in H2 by (by vm_compute).
    change (r_preVote quietNode) with false in H2. destruct H2 as (R & _ & _ & rd & r2 & r3 & rd' & r4 & A1 & A2 & A3 & A4). split; [exact R|].
    exists rd, r2, r3, rd', r4. split_and!; [exact A1|exact A2|exact A3|].
    apply (A4 3); [|by vm_compute]. change (r_peers quietNode) with [1; 2; 3]. right. right. left.
Defined.
