(* ===== verification/RaftElection.v ===== *)
(** * Election safety

    Nodes, their disks and an asynchronous network: messages are delayed,
    reordered, duplicated and lost, writes complete late, nodes stop and
    restart from what their disks hold.  While the configuration does not
    change, no term has two leaders. *)

From Stdlib Require Import Lia ZArith.
From stdpp Require Import base tactics numbers option relations gmap list.
From S2P Require Import Prelude Bytes ConfChange RaftTypes Raft RaftInv RaftOps RaftReach RaftGate.

(** ** Votes a node has counted *)

Definition flagged (r : Raft) (p : NodeID) : Prop :=
  ∃ i, r_peers r !! i = Some p ∧ r_votesGranted r !! i = Some true.

(** A step that elects nobody: the node follows, or keeps its role, term and
    vote and counts no new vote. *)
Definition quiet (r r' : Raft) : Prop :=
  r_id r' = r_id r ∧
  (r_role r' = RoleFollower
   ∨ (r_role r' = r_role r ∧ r_term r' = r_term r ∧ r_vote r' = r_vote r
      ∧ ∀ p, flagged r' p → flagged r p)).

#[global] Instance quiet_preorder : PreOrder quiet.
Proof.
  split.
  - intros r. split; [done|]. right. auto.
  - intros r1 r2 r3 [I1 H1] [I2 H2]. split; [congruence|].
    destruct H2 as [?|(R2 & T2 & V2 & F2)]; [by left|].
    destruct H1 as [?|(R1 & T1 & V1 & F1)]; [left; congruence|].
    right. split_and!; try congruence. auto.
Qed.

(** The fields an election reads. *)
Definition vcore (r : Raft) :=
  (r_id r, r_role r, r_term r, r_vote r, r_peers r, r_votesGranted r).

Lemma quiet_frame r r' : vcore r' = vcore r → quiet r r'.
Proof.
  unfold vcore. intros [= E1 E2 E3 E4 E5 E6]. split; [done|]. right. split_and!; try done.
  intros p. unfold flagged. by rewrite E5, E6.
Qed.

Lemma quiet_follows r r' : r_id r' = r_id r → r_role r' = RoleFollower → quiet r r'.
Proof. intros. split; auto. Qed.

Lemma flagged_setConf c r p : flagged (setConf c r) p → flagged r p.
Proof.
  intros (i & Hp & Hv). cbn in Hp, Hv.
  rewrite list_lookup_fmap, Hp in Hv. cbn in Hv. apply (inj Some) in Hv.
  unfold carry in Hv. destruct (index_of (r_peers r) p) as [j|] eqn:Ej; [|done].
  exists j. split; [by apply index_of_lookup|].
  destruct (r_votesGranted r !! j) as [[]|]; done.
Qed.

Lemma quiet_recomputeConf r : quiet r (recomputeConf r).
Proof.
  unfold recomputeConf. destruct (replayConf _ _ _) as [c ref]. split; [done|]. right.
  split_and!; try done. intros p Hp%flagged_setConf. exact Hp.
Qed.

Lemma quiet_dirty r : quiet r (dirty r).
Proof. apply quiet_frame. unfold dirty. by case_test. Qed.

Lemma quiet_sendGatedOn a b m r : quiet r (sendGatedOn a b m r).
Proof. apply quiet_frame. unfold sendGatedOn. by case_test. Qed.

Lemma quiet_sendGatedOn_eq a b m r r' : Some (sendGatedOn a b m r) = Some r' → quiet r r'.
Proof. intros H. apply (inj Some) in H as <-. apply quiet_sendGatedOn. Qed.

Lemma quiet_send m r r' : send m r = Some r' → quiet r r'.
Proof. intros H. apply quiet_frame. revert H. unfold send. destruct (m_Type m); try done; by intros [= <-]. Qed.

Lemma quiet_foldM {A} (f : Raft → A → option Raft) r xs r' :
  (∀ s x s', f s x = Some s' → quiet s s') → foldM f r xs = Some r' → quiet r r'.
Proof.
  intros Hf. eapply (foldM_inv (λ s, quiet r s)); [done|].
  intros s x s' Hs Hx. etrans; [exact Hs|]. by eapply Hf.
Qed.

Lemma quiet_appendEntries es r r' : appendEntries es r = Some r' → quiet r r'.
Proof.
  unfold appendEntries. intros (r1 & H1 & H)%bind_Some. cbv zeta in H.
  assert (Hf : quiet r r1).
  { revert H1. apply quiet_foldM. intros s e s' [_ ->]%appendOne_spec. by apply quiet_frame. }
  apply (inj Some) in H as <-. etrans; [exact Hf|]. etrans; [|apply quiet_dirty].
  case_test; [apply quiet_recomputeConf|done].
Qed.

Lemma quiet_truncateFrom i r r' : truncateFrom i r = Some r' → quiet r r'.
Proof.
  unfold truncateFrom. case_test; [by intros [= <-]|]. do 2 (case_test; [done|]).
  intros (p & _ & H')%bind_Some. cbv zeta in H'. apply (inj Some) in H' as <-.
  etrans; [|apply quiet_recomputeConf]. by apply quiet_frame.
Qed.

Lemma quiet_sendAppend to r r' : sendAppend to r = Some r' → quiet r r'.
Proof.
  assert (Hs : ∀ r', sendSnapshot to r = Some r' → quiet r r').
  { intros s. unfold sendSnapshot. case_test; [by intros [= <-]|].
    destruct (peerIdx _ to); [|intros H; apply (inj Some) in H as <-; by apply quiet_frame].
    intros (ns & _ & H)%bind_Some. apply (inj Some) in H as <-. by apply quiet_frame. }
  unfold sendAppend. destruct (peerIdx r to); [|by intros [= <-]].
  intros (next & _ & H)%bind_Some. cbv zeta in H.
  destruct (_ <=? r_snapIndex r); [by apply Hs|].
  apply bind_Some in H as (es & _ & H). revert H. apply quiet_sendGatedOn_eq.
Qed.

Lemma quiet_broadcastAppend r r' : broadcastAppend r = Some r' → quiet r r'.
Proof.
  apply quiet_foldM. intros s p s'. case_test; [by intros [= <-]|apply quiet_sendAppend].
Qed.

Lemma quiet_maybeConfirmReads r : quiet r (maybeConfirmReads r).
Proof.
  assert (H : ∀ qs acc, quiet (fst acc) (fst (foldl confirmOne acc qs))).
  { induction qs as [|q qs IH]; intros [s kept]; cbn [foldl]; [done|].
    etrans; [|apply IH]. unfold confirmOne. repeat case_test; cbn [fst]; try done.
    - by apply quiet_frame.
    - apply quiet_sendGatedOn. }
  unfold maybeConfirmReads. destruct (r_pendingReads r) as [|q qs]; [done|].
  specialize (H (q :: qs) (r, [])).
  destruct (foldl confirmOne (r, []) (q :: qs)) as [r1 kept]. cbn in H.
  etrans; [exact H|]. by apply quiet_frame.
Qed.

Lemma quiet_recordRead q r : quiet r (recordRead q r).
Proof. unfold recordRead. etrans; [|apply quiet_maybeConfirmReads]. by apply quiet_frame. Qed.
Lemma quiet_confirmRead n r : quiet r (confirmRead n r).
Proof. unfold confirmRead. etrans; [|apply quiet_maybeConfirmReads]. by apply quiet_frame. Qed.

Lemma becomeFollower_follows t v r :
  r_id (becomeFollower t v r) = r_id r ∧ r_role (becomeFollower t v r) = RoleFollower.
Proof. unfold becomeFollower, setTermAndVote, dirty. by repeat case_test. Qed.

Lemma quiet_becomeFollower t v r : quiet r (becomeFollower t v r).
Proof. destruct (becomeFollower_follows t v r). by apply quiet_follows. Qed.

Lemma quiet_appFollower m r : quiet r (appFollower m r).
Proof.
  destruct (becomeFollower_follows (m_Term m) (r_vote r) r). by apply quiet_follows.
Qed.

Lemma quiet_stepDownIfRemoved r : quiet r (stepDownIfRemoved r).
Proof.
  unfold stepDownIfRemoved. repeat case_test; try done.
  destruct (becomeFollower_follows (r_term r) (r_vote r) r). by apply quiet_follows.
Qed.

Lemma quiet_maybeCommit r : quiet r (maybeCommit r).
Proof.
  unfold maybeCommit. generalize (Z.to_nat (lastIndex r - r_commitIndex r)).
  induction n as [|k IH]; cbn [maybeCommit_loop]; [done|].
  do 2 (case_test; try done). etrans; [|apply quiet_stepDownIfRemoved]. by apply quiet_frame.
Qed.

Lemma vcore_jump r i t c a tl ml :
  vcore (r <| r_snapIndex := i |> <| r_snapTerm := t |> <| r_commitIndex := c |>
           <| r_appliedIdx := a |> <| r_tail := tl |> <| r_markLastIdx := ml |>) = vcore r.
Proof. done. Qed.

(** ** Being elected *)

(** A node whose campaign is decided by votes: a voter, or a learner where one vote is
    not a majority.  (A learner beside a single voter makes itself leader.) *)
Definition mayCampaign (C : Configuration) (n : NodeID) : Prop := IsVoter C n = true ∨ conf_quorum C ≠ 1%nat.

Section Elected.
Context (C : Configuration) (G : NodeID → Term → Prop).

(** A candidate has voted for itself and has counted only its own vote and
    votes granted to it in its term ([G]); a leader has done so for a
    majority of the configuration. *)
Record elected (r : Raft) : Prop := MkElected {
  el_id : r_id r ≠ 0;
  el_vote : r_role r ≠ RoleFollower → r_vote r = r_id r;
  el_cand : r_role r = RoleCandidate → ∀ p, flagged r p → p = r_id r ∨ G p (r_term r);
  el_lead : r_role r = RoleLeader →
            ∃ q, is_quorum C q ∧ ∀ p, p ∈ q → p = r_id r ∨ G p (r_term r);
}.

Lemma elected_quiet r r' : quiet r r' → elected r → elected r'.
Proof using.
  intros [Hid H] [E1 E2 E3 E4]. destruct H as [Hf|(R & T & V & F)].
  - split; congruence || (rewrite Hf; done).
  - split; rewrite ?Hid, ?R, ?T, ?V; auto.
Qed.

(** Enough flags make a quorum. *)
Lemma flags_quorum r :
  inv r → r_conf r = C → (quorum r ≤ countVoters r (r_votesGranted r))%nat →
  ∃ q, is_quorum C q ∧ ∀ p, p ∈ q → flagged r p.
Proof using.
  intros Hi HC Hq.
  exists (filter (λ '(p, f), f && IsVoter (r_conf r) p = true) (zip (r_peers r) (r_votesGranted r))).*1.
  assert (Hin : ∀ p, p ∈ (filter (λ '(p, f), f && IsVoter (r_conf r) p = true)
    (zip (r_peers r) (r_votesGranted r))).*1 → IsVoter C p = true ∧ flagged r p).
  { intros p ([p' f] & -> & [Hf Hz]%list_elem_of_filter)%list_elem_of_fmap. rewrite HC in Hf.
    bool_hyps. split; [done|]. apply list_elem_of_lookup in Hz as [i Hz].
    apply lookup_zip_with_Some in Hz as (? & ? & [= -> ->] & Hp & Hm). exists i. by subst. }
  split; [|intros p Hp; by apply Hin]. split_and!.
  - eapply sublist_NoDup; [by apply (peers_nodup r)|apply zip_filter_sublist].
  - apply Forall_forall. intros p Hp. by apply Hin.
  - rewrite length_fmap, <- HC. exact Hq.
Qed.

Lemma becomeLeader_elected r r' :
  r_id r ≠ 0 → r_vote r = r_id r →
  (∃ q, is_quorum C q ∧ ∀ p, p ∈ q → p = r_id r ∨ G p (r_term r)) →
  becomeLeader r = Some r' → elected r'.
Proof using.
  intros Hid Hv Hq. unfold becomeLeader. cbv zeta. intros (i & _ & H)%bind_Some.
  apply bind_Some in H as (ms & _ & H). apply bind_Some in H as (r1 & H1 & H).
  apply quiet_appendEntries in H1. apply quiet_broadcastAppend in H.
  eapply elected_quiet; [exact H|]. eapply elected_quiet; [by apply (quiet_frame r1)|].
  eapply elected_quiet; [exact H1|]. split; cbn; done.
Qed.

Lemma forceCampaign_elected r r' :
  inv r → r_conf r = C → mayCampaign C (r_id r) → r_id r ≠ 0 →
  forceCampaign r = Some r' → elected r'.
Proof using.
  intros Hi HC HvC Hid. unfold forceCampaign. cbv zeta.
  change (setTermAndVote _ _ _) with (candidacy r).
  destruct (candidacy_hs r) as (Hv & _ & Hid').
  destruct (candidacy_frame r) as (_ & _ & _ & _ & _ & _ & _ & Fc & Fp & _).
  assert (Hrole : r_role (candidacy r) = RoleCandidate)
    by (unfold candidacy, setTermAndVote, dirty; repeat case_test; done).
  pose proof (peers_nodup r Hi) as Hnd. rewrite <- Fp in Hnd. rewrite <- Fc in HC.
  revert Hv Hid' Hrole Hnd HC. generalize (candidacy r). intros c Hv Hid' Hrole Hnd HC.
  intros (i & Hpi & H)%bind_Some. apply bind_Some in H as (vs & Hvs & H).
  set (c1 := c <| r_leader := _ |> <| r_electionElapsed := _ |> <| r_votesGranted := _ |>
    <| r_votesDenied := _ |> <| r_votesGranted := vs |>) in H.
  assert (Hc1 : elected c1).
  { split; try done; [cbn; congruence|cbn; congruence| |cbn; congruence].
    intros _ p (j & Hp & Hj). left. cbn in Hp, Hj, Hpi, Hvs |- *.
    unfold slice_set in Hvs. case_test_in Hvs; [|done]. apply (inj Some) in Hvs as <-.
    destruct (decide (i = j)) as [<-|Hne].
    - apply index_of_lookup in Hpi. congruence.
    - rewrite list_lookup_insert_ne, list_lookup_fmap in Hj by done.
      by destruct (r_votesGranted c !! j). }
  assert (E1 : r_id c1 = r_id r) by exact Hid'. assert (E2 : r_vote c1 = r_id r) by exact Hv.
  assert (E3 : r_conf c1 = C) by exact HC. clearbody c1. case_test_in H.
  - apply becomeLeader_elected in H; [done|congruence|congruence|].
    exists [r_id r]. split.
    + apply Nat.eqb_eq in E. unfold quorum in E. rewrite E3 in E. destruct HvC as [HvC|]; [|done].
      split_and!; [apply NoDup_singleton|by repeat constructor|]. rewrite E. done.
    + intros p ->%list_elem_of_singleton. left. congruence.
  - apply (inj Some) in H as <-. eapply elected_quiet; [|exact Hc1].
    generalize (r_peers c1). clear -c1. intros xs. revert c1.
    induction xs as [|x xs IH]; intros s; cbn [foldl]; [done|].
    etrans; [|apply IH]. case_test; [done|apply quiet_sendGatedOn].
Qed.

Lemma preCampaign_elected r r' :
  inv r → r_conf r = C → mayCampaign C (r_id r) → elected r →
  preCampaign r = Some r' → elected r'.
Proof using.
  intros Hi HC HvC He. unfold preCampaign. cbv zeta. intros (i & _ & H)%bind_Some.
  apply bind_Some in H as (vs & Hvs & H).
  set (c := r <| r_preVoting := _ |> <| r_leader := _ |> <| r_electionElapsed := _ |>
    <| r_preGranted := _ |> <| r_preGranted := vs |>) in H.
  assert (Hic : inv c).
  { apply slice_set_length in Hvs. cbn in Hvs. rewrite length_fmap in Hvs.
    eapply inv_core; [|exact Hi]. unfold c. rewrite core_preGranted; [|cbn; by rewrite length_fmap].
    apply core_pre_fields, length_fmap. }
  case_test_in H.
  - eapply (forceCampaign_elected (c <| r_preVoting := false |>)); try done; [|apply He].
    by eapply (inv_core c).
  - eapply elected_quiet; [|exact He].
    etrans; [by apply (quiet_frame r c)|]. revert H. apply quiet_foldM. intros s p s'.
    case_test; [by intros [= <-]|apply quiet_send].
Qed.

Lemma campaign_elected r r' :
  inv r → r_conf r = C → mayCampaign C (r_id r) → elected r →
  campaign r = Some r' → elected r'.
Proof using.
  intros Hi HC HvC He. unfold campaign. case_test; [by apply preCampaign_elected|].
  apply forceCampaign_elected; try done. apply He.
Qed.

Lemma stepVote_elected m r : elected r → elected (stepVote m r).
Proof using.
  intros He. pose proof He as [E1 E2 _ _]. unfold stepVote. cbv zeta.
  set (grant := if m_Term m <? r_term r then _ else _).
  eapply elected_quiet; [apply quiet_sendGatedOn|]. destruct grant eqn:Eg; [|done].
  assert (Hv : r_vote r = 0 ∨ r_vote r = m_From m).
  { unfold grant in Eg. repeat case_test_in Eg; try done. bool_cases; auto. }
  eapply elected_quiet; [|exact He]. etrans; [|by apply (quiet_frame (setVote (m_From m) r))].
  destruct (decide (r_role r = RoleFollower)) as [Hf|Hf].
  - apply quiet_follows; unfold setVote, dirty; by repeat case_test.
  - specialize (E2 Hf). destruct Hv as [Hv|Hv]; [congruence|].
    unfold setVote. rewrite Hv, Z.eqb_refl. done.
Qed.

(** Counting one response flags at most its sender. *)
Lemma countVote_flagged m i r r' p :
  peerIdx r (m_From m) = Some i → countVote m i r = Some r' →
  flagged r' p → flagged r p ∨ (p = m_From m ∧ m_Granted m = true).
Proof using.
  intros Hi. unfold countVote. case_test; intros (vs & Hvs & H)%bind_Some;
    apply (inj Some) in H as <-; [|by left].
  intros (j & Hp & Hj). cbn in Hp, Hj. unfold slice_set in Hvs. case_test_in Hvs; [|done].
  apply (inj Some) in Hvs as <-. destruct (decide (i = j)) as [<-|Hne].
  - right. split; [|done]. apply index_of_lookup in Hi. congruence.
  - left. exists j. by rewrite list_lookup_insert_ne in Hj by done.
Qed.

Lemma stepVoteResp_elected m r r' :
  m_Type m = MsgVoteResp → inv r → r_conf r = C → elected r →
  (is_grant m = true → G (m_From m) (m_Term m)) →
  stepVoteResp m r = Some r' → elected r'.
Proof using.
  intros Hty Hi HC He HG. unfold stepVoteResp. case_test; [by intros [= <-]|].
  destruct (peerIdx r (m_From m)) as [i|] eqn:Ei; [|by intros [= <-]].
  fold (countVote m i r). intros (r1 & H1 & Heq)%bind_Some.
  bool_hyps. pose proof (countVote_flagged m i r r1) as Hfl.
  destruct (core_countVote m i r r1 H1) as (Hc & Hid & Ht & Hv & Hro).
  assert (Hconf : r_conf r1 = C) by (apply core_log in Hc as (_ & _ & _ & _ & ?); congruence).
  pose proof He as [E1 E2 E3 E4].
  assert (Hnf : r_role r ≠ RoleFollower) by congruence.
  assert (He1 : elected r1).
  { split; rewrite ?Hid, ?Ht, ?Hv, ?Hro; auto.
    intros Hcand p Hp. destruct (Hfl p Ei H1 Hp) as [?|[-> Hgr]]; [by apply E3|]. right.
    replace (r_term r) with (m_Term m) by congruence. apply HG. unfold is_grant.
    by rewrite Hty, Hgr, bool_decide_eq_true_2. }
  assert (Hi1 : inv r1) by by eapply inv_core.
  repeat case_test_in Heq.
  - eapply becomeLeader_elected; [..|exact Heq]; [apply He1|by apply He1; rewrite Hro|].
    destruct (flags_quorum r1) as (q & Hq & Hf); [done|done|by apply Nat.leb_le|].
    exists q. split; [done|]. intros p Hp. apply (el_cand _ He1); [congruence|by apply Hf].
  - apply (inj Some) in Heq as <-. eapply elected_quiet; [apply quiet_becomeFollower|done].
  - by apply (inj Some) in Heq as <-.
Qed.

Lemma quiet_stepApp m r r' : stepApp m r = Some r' → quiet r r'.
Proof using.
  destruct (decide (m_Term m < r_term r)) as [Ht|Ht].
  { unfold stepApp. replace (m_Term m <? r_term r) with true by lia.
    apply quiet_sendGatedOn_eq. }
  rewrite stepApp_unfold by lia. cbv zeta. pose proof (quiet_appFollower m r) as Ha.
  revert Ha. generalize (appFollower m r). intros f Ha H. etrans; [exact Ha|]. case_test_in H.
  { revert H. apply quiet_sendGatedOn_eq. }
  apply bind_Some in H as (s & Hs & H). cbv zeta in H.
  set (s1 := if _ >? r_commitIndex s then _ else _) in H.
  assert (Hs1 : quiet s s1) by (unfold s1; case_test; [by apply quiet_frame|done]). clearbody s1.
  apply bind_Some in H as ([lm sm] & _ & H). apply quiet_sendGatedOn_eq in H.
  etrans; [|exact H]. etrans; [|exact Hs1]. revert Hs. apply quiet_foldM. intros x e x'.
  unfold stepApp_entry. repeat case_test; [by intros [= <-]| |apply quiet_appendEntries].
  intros (y & H1%quiet_truncateFrom & H2%quiet_appendEntries)%bind_Some. by etrans.
Qed.

Lemma quiet_stepAppResp m r r' : stepAppResp m r = Some r' → quiet r r'.
Proof using.
  unfold stepAppResp. case_test; [by intros [= <-]|].
  destruct (peerIdx r (m_From m)) as [i|]; [|by intros [= <-]]. case_test.
  - intros (next & _ & Hx)%bind_Some. apply bind_Some in Hx as (ns & _ & Hx).
    apply quiet_sendAppend in Hx. etrans; [|exact Hx]. by apply quiet_frame.
  - intros (mi & _ & Hx)%bind_Some. apply bind_Some in Hx as (ms & _ & Hx).
    apply bind_Some in Hx as (ni & _ & Hx). apply bind_Some in Hx as (ns & _ & Hx).
    apply bind_Some in Hx as (r1 & Hs1 & Hx). apply (inj Some) in Hx as <-.
    etrans; [|apply quiet_maybeCommit]. revert Hs1.
    set (r2 := r <| r_matchIndex := ms |> <| r_nextIndex := ns |>).
    assert (Ha : quiet r r2) by by apply quiet_frame. clearbody r2.
    case_test; [|intros [= <-]; exact Ha]. intros Hs1%quiet_send. by etrans.
Qed.

Lemma quiet_stepSnap m r r' : stepSnap m r = Some r' → quiet r r'.
Proof using.
  unfold stepSnap. case_test; [apply quiet_sendGatedOn_eq|].
  cbv zeta. fold (appFollower m r). pose proof (quiet_appFollower m r) as Ha.
  revert Ha. generalize (appFollower m r). intros f Ha H. etrans; [exact Ha|]. case_test_in H.
  { apply bind_Some in H as ([lm sm] & _ & H). revert H. apply quiet_sendGatedOn_eq. }
  set (f1 := f <| r_gated := _ |>) in H. assert (Ha1 : quiet f f1) by by apply quiet_frame.
  clearbody f1. etrans; [exact Ha1|]. destruct (DecodeConfiguration (m_SnapConf m)) as [conf|].
  - fold (jumped m conf f1) in H.
    assert (Haj : quiet f1 (dirty (jumped m conf f1))).
    { etrans; [|apply quiet_dirty]. unfold jumped.
      etrans; [|apply quiet_frame, vcore_jump]. etrans; [|apply quiet_recomputeConf].
      by apply quiet_frame. }
    revert H Haj. generalize (dirty (jumped m conf f1)). intros j H Haj. etrans; [exact Haj|].
    set (j1 := j <| r_nextSnapMark := _ |> <| r_snapMark := _ |> <| r_pendingSnap := _ |>) in H.
    assert (Hj : quiet j j1) by by apply quiet_frame. clearbody j1. etrans; [exact Hj|].
    revert H. apply quiet_sendGatedOn_eq.
  - revert H. apply quiet_sendGatedOn_eq.
Qed.

Lemma dispatch_elected m r r' :
  inv r → r_conf r = C → mayCampaign C (r_id r) → elected r →
  (is_grant m = true → G (m_From m) (m_Term m)) → dispatch m r = Some r' → elected r'.
Proof using.
  intros Hi HC HvC He HG. unfold dispatch.
  destruct (m_Type m) eqn:Ety; try (by intros [= <-]).
  - intros H. apply (inj Some) in H as <-. by apply stepVote_elected.
  - by apply stepVoteResp_elected.
  - intros H%quiet_stepApp. by eapply elected_quiet.
  - intros (r1 & H1%quiet_stepAppResp & H)%bind_Some. apply (inj Some) in H as <-.
    eapply elected_quiet; [|exact He]. etrans; [exact H1|].
    case_test; [apply quiet_confirmRead|done].
  - intros H%quiet_send. by eapply elected_quiet.
  - unfold stepPreVoteResp. do 2 (case_test; [by intros [= <-]|]).
    destruct (peerIdx r (m_From m)) as [i|]; [|by intros [= <-]]. case_test; [by intros [= <-]|].
    intros (vs & Hvs & H)%bind_Some. cbv zeta in H.
    apply slice_set_length, core_preGranted in Hvs. case_test_in H.
    + eapply forceCampaign_elected; [..|exact H]; try done; [by eapply inv_core|apply He].
    + apply (inj Some) in H as <-. eapply elected_quiet; [|exact He]. by apply quiet_frame.
  - intros H%quiet_stepSnap. by eapply elected_quiet.
  - unfold stepTimeoutNow. case_test; [by intros [= <-]|].
    apply forceCampaign_elected; try done. apply He.
  - case_test; [|by intros [= <-]]. intros H%quiet_broadcastAppend.
    eapply elected_quiet; [|exact He]. etrans; [|exact H]. apply quiet_recordRead.
  - intros H. apply (inj Some) in H as <-. eapply elected_quiet; [|exact He]. by apply quiet_frame.
Qed.

Lemma Step_elected m r r' :
  good r → r_conf r = C → mayCampaign C (r_id r) → elected r →
  (is_grant m = true → m_To m = r_id r → G (m_From m) (m_Term m)) →
  snd <$> Step m r = Some r' → elected r'.
Proof using.
  intros Hg HC HvC He HG ([e r1] & H & ->)%fmap_Some. revert H.
  unfold Step, refused, done_with. do 2 (case_test; [by intros [= _ <-]|]).
  intros (r2 & H2 & [= _ ->])%fmap_Some. cbn [snd].
  destruct (observeTerm_frame m r) as (F0 & _ & _ & _ & _ & _ & _ & Fc & _).
  pose proof (kept_observeTerm m r Hg) as Hk.
  eapply dispatch_elected; [..|exact H2].
  - apply Hk.
  - congruence.
  - by rewrite F0.
  - eapply elected_quiet; [|exact He]. unfold observeTerm. case_test; [apply quiet_becomeFollower|done].
  - intros Hgr. by apply HG.
Qed.

Lemma quiet_propose e r r' :
  (r1 ← appendEntries [e] r; broadcastAppend r1) = Some r' → quiet r r'.
Proof using.
  intros (r1 & H1%quiet_appendEntries & H2%quiet_broadcastAppend)%bind_Some. by etrans.
Qed.

Lemma quiet_client o r r' :
  match o with
  | OpPropose _ _ | OpProposeConfChange _ _ | OpReadIndex _ => True
  | _ => False
  end → run o r = Some r' → quiet r r'.
Proof using.
  destruct o as [| | |id data|id cc|ctx| | | | | | |]; try done; cbn [run]; intros _;
    intros ([e r1] & H & ->)%fmap_Some; revert H; cbn [snd].
  - unfold Propose, refused, done_with. do 3 (case_test; [by intros [= _ <-]|]).
    intros (r2 & H2 & [= _ ->])%fmap_Some. by eapply quiet_propose.
  - unfold ProposeConfChange, refused, done_with. do 4 (case_test; [by intros [= _ <-]|]).
    destruct (cc_changes cc) as [|ch [|? ?]]; try (by intros [= _ <-]).
    case_test; [by intros [= _ <-]|]. intros (lag & _ & H)%bind_Some.
    case_test_in H; [by injection H as _ <-|]. destruct (conf_apply _ ch); [|by injection H as _ <-].
    apply fmap_Some in H as (r2 & H2 & [= _ ->]). by eapply quiet_propose.
  - unfold ReadIndex, refused, done_with. destruct ctx as [|b ctx]; [by intros [= _ <-]|].
    destruct (r_role r); [|by intros [= _ <-]|].
    + case_test; [by intros [= _ <-]|]. intros (r2 & [= <-] & [= _ ->])%fmap_Some.
      apply quiet_sendGatedOn.
    + intros (r2 & H2%quiet_broadcastAppend & [= _ ->])%fmap_Some. etrans; [|exact H2].
      apply quiet_recordRead.
Qed.

Lemma quiet_acked m r : quiet r (acked m r).
Proof using. apply quiet_frame. unfold acked, releaseThrough. cbv zeta. by repeat case_test. Qed.

Lemma quiet_ack o r r' :
  match o with OpAckPersisted _ | OpAckSnapshot _ => True | _ => False end →
  run o r = Some r' → quiet r r'.
Proof using.
  intros Hin. destruct o; try done; cbn [run].
  - unfold AckPersisted. case_test; [by intros [= <-]|]. cbv zeta.
    change (releaseThrough mark _) with (acked mark r). pose proof (quiet_acked mark r) as Ha.
    revert Ha. generalize (acked mark r). intros a Ha H. etrans; [exact Ha|]. revert H.
    case_test; [|by intros [= <-]]. destruct (peerIdx a (r_id a)); [|by intros [= <-]].
    intros (mi & _ & H)%bind_Some. case_test_in H; [|by injection H as <-].
    apply bind_Some in H as (ms & _ & H). apply (inj Some) in H as <-.
    etrans; [|apply quiet_maybeCommit]. by apply quiet_frame.
  - intros [= <-]. apply quiet_frame. unfold AckSnapshot. by repeat case_test.
Qed.

Lemma quiet_drain o r r' :
  inner_op o = false → inv r → lastIndex r + 1 < 2 ^ 64 → run o r = Some r' → quiet r r'.
Proof using.
  intros Hin Hi Hb. destruct o; try done; try by apply quiet_ack. cbn [run].
  rewrite (Ready_unfold r Hi Hb). intros [= <-]. apply quiet_frame. unfold afterReady.
  repeat case_test; try done. unfold closeEmptyMark. by rewrite Z.eqb_refl.
Qed.

Lemma quiet_Compact i r : quiet r (snd (Compact i r)).
Proof using.
  unfold Compact. do 3 (case_test; [done|]).
  destruct (at_ r i), (pos r i); try done. destruct (ConfigurationAt i r); [|done].
  cbn [snd]. etrans; [|apply quiet_recomputeConf]. by apply quiet_frame.
Qed.

Lemma Tick_elected r r' :
  inv r → r_conf r = C → mayCampaign C (r_id r) → elected r → Tick r = Some r' → elected r'.
Proof using.
  intros Hi HC HvC He. unfold Tick. set (s := r <| r_electionElapsed := _ |>).
  assert (Hs : elected s) by (eapply elected_quiet; [by apply (quiet_frame r s)|done]).
  assert (His : inv s) by by eapply (inv_core r).
  assert (Hcamp : (if (r_electionElapsed s >=? r_randomizedElectionTimeout s)
     && IsVoter (r_conf s) (r_id s) then campaign s else Some s) = Some r' → elected r').
  { case_test; [|by intros [= <-]]. by apply campaign_elected. }
  destruct (r_role r); [exact Hcamp|exact Hcamp|]. clear Hcamp Hs His s.
  set (s := if negb _ then _ else _).
  assert (Hc : quiet r s) by (apply quiet_frame; unfold s; repeat case_test; done). clearbody s.
  cbv zeta. intros H. eapply elected_quiet; [|exact He]. etrans; [exact Hc|]. revert H.
  case_test.
  - intros H%quiet_broadcastAppend. etrans; [|exact H]. by apply quiet_frame.
  - intros [= <-]. by apply quiet_frame.
Qed.

Lemma run_elected o r r' :
  inv r → headroom r → r_conf r = C → mayCampaign C (r_id r) → elected r →
  (∀ m, delivered o = Some m → is_grant m = true → m_To m = r_id r → G (m_From m) (m_Term m)) →
  run o r = Some r' → elected r'.
Proof using.
  intros Hi Hh HC HvC He HG H. pose proof (good_of_inv r Hi Hh) as Hg. destruct Hh as [_ Hb].
  destruct (inner_op o) eqn:Ein.
  2:{ eapply elected_quiet; [|exact He]. by eapply quiet_drain. }
  destruct o as [m| |t|id data|id cc|ctx|t| |i| |m|m|i]; try done;
    try (eapply elected_quiet; [by eapply quiet_client; [|exact H]|exact He]);
    cbn [run delivered] in *.
  - eapply Step_elected; [..|exact H]; try done. intros. by apply HG.
  - by eapply Tick_elected.
  - apply (inj Some) in H as <-. eapply elected_quiet; [|exact He].
    apply quiet_frame. unfold SetElectionTimeout. by case_test.
  - eapply elected_quiet; [|exact He]. revert H. unfold TransferLeadership. case_test; [done|].
    destruct (peerIdx r t) as [i|]; [|by intros [= <-]]. do 2 (case_test; [by intros [= <-]|]).
    intros (mi & _ & Hx)%bind_Some.
    set (s := r <| r_leadTransferee := _ |> <| r_transferElapsed := _ |>) in Hx.
    assert (Ha : quiet r s) by by apply quiet_frame. etrans; [exact Ha|].
    case_test_in Hx; [by apply quiet_send in Hx|by apply quiet_sendAppend in Hx].
  - apply fmap_Some in H as ([e r1] & H & ->). revert H. unfold Campaign, refused, done_with.
    case_test; [by intros [= _ <-]|]. intros (r2 & H2 & [= _ ->])%fmap_Some.
    by eapply campaign_elected.
  - apply (inj Some) in H as <-. eapply elected_quiet; [apply quiet_Compact|exact He].
  - apply (inj Some) in H as <-. eapply elected_quiet; [|exact He].
    apply quiet_frame. unfold AckApplied. by case_test.
Qed.
End Elected.

(** ** Granted votes, in the network and in the node *)

Definition outs (r : Raft) : list Message := r_msgs r ++ (g_msg <$> r_gated r).

Section Ledger.
Context (N : list Message).

(** Every vote a node granted agrees with what it remembers, and no two of
    one term name two candidates. *)
Record ledger (r : Raft) : Prop := MkLedger {
  lg_le : ∀ m, m ∈ N ++ outs r → is_grant m = true → m_From m = r_id r →
          hsle (attested m) (curHS r);
  lg_fun : ∀ m1 m2, m1 ∈ N ++ outs r → m2 ∈ N ++ outs r →
           is_grant m1 = true → is_grant m2 = true →
           m_From m1 = r_id r → m_From m2 = r_id r → m_Term m1 = m_Term m2 →
           m_To m1 ≠ 0 → m_To m2 ≠ 0 → m_To m1 = m_To m2;
  lg_from : ∀ m, m ∈ outs r → m_From m = r_id r;
}.

Lemma ledger_shrink r r' :
  (∀ m, m ∈ outs r' → m ∈ outs r) → hsle (curHS r) (curHS r') → r_id r' = r_id r →
  ledger r → ledger r'.
Proof using.
  intros Ho Hle Hid [L1 L2 L3].
  assert (Hin : ∀ m, m ∈ N ++ outs r' → m ∈ N ++ outs r).
  { intros m. rewrite !elem_of_app. intros [?|?]; auto. }
  split; rewrite ?Hid; auto.
  intros m Hm Hg Hf. etrans; [by apply L1; auto|done].
Qed.

(** A new message that says exactly what its sender holds agrees with all. *)
Lemma ledger_new r r' m :
  (∀ x, x ∈ outs r' → x ∈ outs r ∨ x = m) → exact m r → curHS r' = curHS r → r_id r' = r_id r →
  ledger r → ledger r'.
Proof using.
  intros Ho He Hcur Hid [L1 L2 L3].
  assert (Hin : ∀ x, x ∈ N ++ outs r' → x ∈ N ++ outs r ∨ x = m).
  { intros x. rewrite !elem_of_app. intros [?|?%Ho]; intuition. }
  assert (Hag : ∀ x, x ∈ N ++ outs r → is_grant x = true → m_From x = r_id r →
    is_grant m = true → m_Term x = m_Term m → m_To x ≠ 0 → m_To m = m_To x).
  { intros x Hx Hg Hf Hgm Ht Hn. destruct (L1 x Hx Hg Hf) as [_ Hv]. destruct He as [_ Et Eg _].
    unfold attested in Hv. rewrite Hg in Hv. cbn in Hv. rewrite (Eg Hgm). apply Hv; [congruence|done]. }
  split; rewrite ?Hcur, ?Hid.
  - intros x [Hx| ->]%Hin Hg Hf; [by apply L1|by apply exact_attested].
  - intros m1 m2 [H1| ->]%Hin [H2| ->]%Hin G1 G2 F1 F2 Ht N1 N2.
    + by apply L2.
    + symmetry. by apply Hag.
    + by apply Hag.
    + done.
  - intros x [Hx| ->]%Ho; [by apply L3|apply He].
Qed.

Lemma outs_ext r r' : gcore r' = gcore r → outs r' = outs r.
Proof using. unfold gcore, outs. intros [=]. congruence. Qed.

Lemma ledger_act r r' : act r r' → ledger r → ledger r'.
Proof using.
  intros Ha HL. pose proof (act_hsle r r' Ha) as [Hle Hid].
  destruct Ha as [H|t v _ H|H|a b m He H|m Hu Hf H|keep H]; pose proof (outs_ext _ _ H) as Ho.
  - eapply ledger_shrink; [|done..]. by rewrite Ho.
  - eapply ledger_shrink; [|done..]. rewrite Ho. unfold dirty. by case_test.
  - eapply ledger_shrink; [|done..]. rewrite Ho. unfold dirty. by case_test.
  - eapply (ledger_new r r' m); [|done| |done|done].
    + rewrite Ho. intros x. unfold sendGatedOn, outs. case_test; cbn;
        rewrite ?fmap_app, ?elem_of_app; cbn; rewrite ?list_elem_of_singleton; intuition.
    + apply gcore_hs in H as [-> _]. unfold sendGatedOn. by case_test.
  - assert (Hng : is_grant m = false).
    { unfold ungated, is_grant in *. by destruct (m_Type m). }
    destruct HL as [L1 L2 L3].
    assert (Hin : ∀ x, x ∈ outs r' → x ∈ outs r ∨ x = m).
    { rewrite Ho. intros x. unfold outs. cbn. rewrite !elem_of_app, list_elem_of_singleton. intuition. }
    assert (HinN : ∀ x, x ∈ N ++ outs r' → is_grant x = true → x ∈ N ++ outs r).
    { intros x. rewrite !elem_of_app. intros [?|[?| ->]%Hin]; auto. congruence. }
    split; rewrite ?Hid.
    + intros x Hx Hg Hfx. etrans; [by apply L1; auto|done].
    + intros m1 m2 Hm1 Hm2 G1 G2. apply L2; auto.
    + intros x [Hx| ->]%Hin; auto.
  - eapply ledger_shrink; [|done..]. rewrite Ho. intros x. unfold outs. cbn.
    rewrite !elem_of_app. intros [?|(g & -> & [_ Hg]%list_elem_of_filter)%list_elem_of_fmap]; [by left|].
    right. by apply list_elem_of_fmap_2.
Qed.

Lemma ledger_acts r r' : acts r r' → ledger r → ledger r'.
Proof using. induction 1; eauto using ledger_act. Qed.
End Ledger.

Lemma outs_release r m : m ∈ outs (release r) → m ∈ outs r.
Proof.
  unfold outs, release. cbn. rewrite !elem_of_app.
  intros [[?|(g & -> & [_ ?]%list_elem_of_filter)%list_elem_of_fmap]
         |(g & -> & [_ ?]%list_elem_of_filter)%list_elem_of_fmap]; [by left|right..];
    by apply list_elem_of_fmap_2.
Qed.

Lemma outs_Ready r rd r' m :
  inv r → lastIndex r + 1 < 2 ^ 64 → Ready_ r = Some (rd, r') →
  m ∈ rd_Messages rd ∨ m ∈ outs r' → m ∈ outs r.
Proof.
  intros Hi Hb. rewrite (Ready_unfold r Hi Hb). intros [= <- <-] [Hm|Hm].
  { apply elem_of_app. by left. }
  unfold outs in Hm. cbn in Hm. apply list_elem_of_fmap in Hm as (g & -> & Hg).
  apply elem_of_app. right. revert Hg. unfold afterReady.
  case_test; [intros Hg; by apply list_elem_of_fmap_2|].
  case_test; [|intros Hg; by apply list_elem_of_fmap_2].
  unfold closeEmptyMark. rewrite Z.eqb_refl. cbn.
  intros [_ (g0 & -> & Hg)%list_elem_of_fmap]%list_elem_of_filter.
  change (g_msg (strike (r_dirtyMark r) g0)) with (g_msg g0). by apply list_elem_of_fmap_2.
Qed.

Lemma outs_AckPersisted mk r r' m : AckPersisted mk r = Some r' → m ∈ outs r' → m ∈ outs r.
Proof.
  unfold AckPersisted. case_test; [by intros [= <-]|]. cbv zeta.
  change (releaseThrough mk _) with (acked mk r).
  assert (Ha : m ∈ outs (acked mk r) → m ∈ outs r).
  { rewrite (outs_ext (release (ackedMarks mk r)) (acked mk r)) by apply acked_gcore. apply outs_release. }
  revert Ha. generalize (acked mk r). intros a Ha H Hm. apply Ha. revert H.
  case_test; [|by intros [= <-]]. destruct (peerIdx a (r_id a)); [|by intros [= <-]].
  intros (mi & _ & H)%bind_Some. case_test_in H; [|by injection H as <-].
  apply bind_Some in H as (ms & _ & H). apply (inj Some) in H as <-.
  by rewrite (outs_ext (a <| r_matchIndex := ms |>)) in Hm by apply gcore_maybeCommit.
Qed.

Lemma outs_AckSnapshot mk r m : m ∈ outs (AckSnapshot mk r) → m ∈ outs r.
Proof. unfold AckSnapshot. case_test; [done|]. intros Hm%outs_release. revert Hm. by case_test. Qed.

(** ** The cluster *)

Record cluster := MkCluster {
  cl_nodes : gmap NodeID dnode;
  cl_net : list Message;
}.

(** Everything ever sent stays deliverable, any number of times and in any
    order; a snapshot is built by a driver and may arrive at any time.  The
    configuration stays [C]. *)
Inductive cstep (C : Configuration) : cluster → cluster → Prop :=
| cs_node ns net n d i ms d' :
    ns !! n = Some d → dstep d i ms d' →
    (∀ m, i = Some m → m ∈ net ∨ m_Type m = MsgSnap) →
    r_conf (dn_raft d') = C →
    cstep C (MkCluster ns net) (MkCluster (<[n:=d']> ns) (net ++ ms)).

(** A cluster of voters and learners of [C], each just built; a configuration with one
    voter has no learner in the cluster. *)
Definition cinit (C : Configuration) (cl : cluster) : Prop :=
  cl_net cl = [] ∧ ∀ n d, cl_nodes cl !! n = Some d →
    mayCampaign C n ∧ ∃ cfg r, New cfg = Ok r ∧ cfg_ID cfg = n ∧ r_conf r = C
                                  ∧ d = MkDnode r (MkHardState 0 0) [].

Definition creach (C : Configuration) (cl : cluster) : Prop :=
  ∃ cl0, cinit C cl0 ∧ rtc (cstep C) cl0 cl.

(** Node [p] has sent node [n] its vote for term [t]. *)
Definition granted (net : list Message) (n p : NodeID) (t : Term) : Prop :=
  ∃ m, m ∈ net ∧ is_grant m = true ∧ m_From m = p ∧ m_To m = n ∧ m_Term m = t.

Record nodeOk (C : Configuration) (net : list Message) (n : NodeID) (d : dnode) : Prop := MkNodeOk {
  no_reach : dreach d;
  no_id : r_id (dn_raft d) = n;
  no_conf : r_conf (dn_raft d) = C;
  no_may : mayCampaign C n;
  no_elected : elected C (granted net n) (dn_raft d);
  no_ledger : ledger net (dn_raft d);
  no_sent : ∀ m, m ∈ net → m_From m = n → ungated m = false → hsle (attested m) (dn_disk d);
}.

Record cinv (C : Configuration) (cl : cluster) : Prop := MkCinv {
  ci_nodes : ∀ n d, cl_nodes cl !! n = Some d → nodeOk C (cl_net cl) n d;
  ci_from : ∀ m, m ∈ cl_net cl → is_Some (cl_nodes cl !! m_From m);
}.

Lemma elected_mono C (G G' : NodeID → Term → Prop) r :
  (∀ p t, G p t → G' p t) → elected C G r → elected C G' r.
Proof.
  intros HG [E1 E2 E3 E4]. split; try done.
  - intros Hc p Hp. destruct (E3 Hc p Hp); auto.
  - intros Hl. destruct (E4 Hl) as (q & Hq & Hp). exists q. split; [done|].
    intros p Hin. destruct (Hp p Hin); auto.
Qed.

Lemma granted_app net ms n p t : granted net n p t → granted (net ++ ms) n p t.
Proof. intros (m & Hm & ?). exists m. split; [apply elem_of_app; by left|done]. Qed.

(** Messages another node sends do not concern this one. *)
Lemma nodeOk_net C net ms n d :
  (∀ m, m ∈ ms → m_From m ≠ n) → nodeOk C net n d → nodeOk C (net ++ ms) n d.
Proof.
  intros Hms [Hr Hid HC Hv He [L1 L2 L3] Hs].
  assert (Hin : ∀ m, m ∈ (net ++ ms) ++ outs (dn_raft d) → m_From m = n →
                     m ∈ net ++ outs (dn_raft d)).
  { intros m. rewrite !elem_of_app. intros [[?|Hm]|?] Hf; auto. by apply Hms in Hm. }
  split; try done.
  - eapply elected_mono; [|exact He]. intros p t. apply granted_app.
  - split; try done.
    + intros m Hm Hg Hf. apply L1; [|done|done]. apply Hin; congruence.
    + intros m1 m2 H1 H2 G1 G2 F1 F2. apply L2; try done; apply Hin; congruence.
  - intros m [Hm|Hm]%elem_of_app Hf; [by apply Hs|by apply Hms in Hm].
Qed.

Lemma run_outs_ledger net o r r' :
  inner_op o = true → term_room (r_term r) → term_room (op_term o) → run o r = Some r' →
  ledger net r → ledger net r'.
Proof. intros. eapply ledger_acts; [by eapply acts_run|done]. Qed.

Lemma disk_cur d : dreach d → hsle (dn_disk d) (curHS (dn_raft d)).
Proof.
  intros [_ [_ _ _ _ Hc _ _ _ _]]%dreach_gate. apply chain_latest in Hc as [H1 H2]. by etrans.
Qed.

Lemma Restore_quiet cfg hs snap es r :
  Restore cfg hs snap es = Ok r →
  r_role r = RoleFollower ∧ r_id r = cfg_ID cfg ∧ outs r = [] ∧ curHS r = hs ∧ cfg_ID cfg ≠ 0.
Proof.
  unfold Restore. destruct (New cfg) as [r0|] eqn:E0; [|done].
  assert (Hid : cfg_ID cfg ≠ 0) by (revert E0; unfold New; case_test; [done|by intros _]).
  apply New_inv in E0 as (_ & -> & _). cbv zeta. case_test; [done|].
  unfold recomputeConf. destruct (replayConf _ _ _) as [c ref]. intros [= <-].
  split_and!; try done. by destruct hs.
Qed.

(** The ledger read off a smaller set of messages. *)
Lemma ledger_move net net' r r' :
  (∀ m, m ∈ net' ++ outs r' → m ∈ net ++ outs r) → (∀ m, m ∈ outs r' → m ∈ outs r) →
  curHS r' = curHS r → r_id r' = r_id r → ledger net r → ledger net' r'.
Proof. intros H1 H2 Hc Hid [L1 L2 L3]. split; rewrite ?Hc, ?Hid; auto. Qed.

Lemma elected_follower C G r : r_role r = RoleFollower → r_id r ≠ 0 → elected C G r.
Proof. intros Hr Hid. split; [done|congruence..]. Qed.

Section NodeStep.
Context (C : Configuration) (net : list Message) (n : NodeID).

Lemma nodeOk_run o r D ws r' :
  nodeOk C net n (MkDnode r D ws) → dstep (MkDnode r D ws) (delivered o) [] (MkDnode r' D ws) →
  inner_op o = true → headroom r → term_room (r_term r) → term_room (op_term o) →
  run o r = Some r' → (∀ m, delivered o = Some m → m ∈ net ∨ m_Type m = MsgSnap) →
  r_conf r' = C → nodeOk C net n (MkDnode r' D ws).
Proof using.
  intros [Hr Hid HC Hv He HL Hs] Hst Hin Hh Ht Hto H Hd HC'. cbn in *.
  pose proof (dreach_gate _ Hr) as [Hi Hg]. cbn in *.
  destruct (acts_hsle r r') as [_ Hid']; [by eapply acts_run|].
  split; cbn; try done; [by eapply dr_step|congruence| |by eapply run_outs_ledger].
  eapply run_elected; [..|exact H]; try done; [by rewrite Hid|].
  intros m Hm Hgr Hto'. destruct (Hd m Hm) as [Hnet|Hsn].
  - exists m. split_and!; try done. congruence.
  - unfold is_grant in Hgr. by rewrite Hsn in Hgr.
Qed.

Lemma nodeOk_ready r D ws rd r' ws' :
  nodeOk C net n (MkDnode r D ws) →
  dstep (MkDnode r D ws) None (rd_Messages rd) (MkDnode r' D ws') →
  headroom r → Ready_ r = Some (rd, r') → r_conf r' = C →
  nodeOk C (net ++ rd_Messages rd) n (MkDnode r' D ws')
  ∧ ∀ m, m ∈ rd_Messages rd → m_From m = n.
Proof using.
  intros [Hr Hid HC Hv He HL Hs] Hst [Hm Hb] H HC'. cbn in *.
  pose proof (dreach_gate _ Hr) as [Hi Hg]. cbn in *.
  assert (Hrun : run OpReady r = Some r') by (cbn; by rewrite H).
  destruct (drain_hs OpReady r r') as [Hcur Hid']; [done|done|by split|done|].
  pose proof (λ m, outs_Ready r rd r' m Hi Hb H) as Ho.
  assert (Hfrom : ∀ m, m ∈ rd_Messages rd → m_From m = n).
  { intros m Hin. rewrite <- Hid. apply (lg_from _ _ HL). apply Ho. by left. }
  split; [|done]. split; cbn; try done; [by eapply dr_step|congruence|..].
  - eapply elected_mono; [intros p t; apply granted_app|].
    eapply elected_quiet; [by eapply (quiet_drain OpReady)|done].
  - eapply ledger_move; [| |done|done|exact HL].
    + intros m. rewrite !elem_of_app. intros [[?|?]|?]; auto.
    + intros m Hin. apply Ho. by right.
  - intros m [Hin|Hin]%elem_of_app Hf Hu; [by apply Hs|].
    destruct Hg as [_ _ _ _ _ _ _ Hms _]. apply Hms; [|done].
    rewrite (Ready_unfold r Hi Hb) in H. by injection H as <- _.
Qed.

Lemma nodeOk_ack r D ws r' D' ws' o :
  nodeOk C net n (MkDnode r D ws) → dstep (MkDnode r D ws) None [] (MkDnode r' D' ws') →
  inner_op o = false → run o r = Some r' → hsle D D' → r_conf r' = C →
  (match o with OpReady => False | _ => True end) →
  nodeOk C net n (MkDnode r' D' ws').
Proof using.
  intros [Hr Hid HC Hv He HL Hs] Hst Hin H Hle HC' Hno. cbn in *.
  pose proof (dreach_gate _ Hr) as [Hi Hg]. cbn in *.
  assert (Hfacts : quiet r r' ∧ curHS r' = curHS r ∧ r_id r' = r_id r
                   ∧ (∀ m, m ∈ outs r' → m ∈ outs r)).
  { destruct o; try done; cbn in H.
    - split_and!; [by eapply (quiet_ack (OpAckPersisted mark))|..].
      + by eapply (ack_hs (OpAckPersisted mark)).
      + by eapply (ack_hs (OpAckPersisted mark)).
      + intros m. by eapply outs_AckPersisted.
    - apply (inj Some) in H as <-. split_and!.
      + by eapply (quiet_ack (OpAckSnapshot mark)).
      + by eapply (ack_hs (OpAckSnapshot mark)).
      + by eapply (ack_hs (OpAckSnapshot mark)).
      + intros m. apply outs_AckSnapshot. }
  destruct Hfacts as (Hq & Hcur & Hid' & Ho).
  split; cbn; try done; [by eapply dr_step|congruence|by eapply elected_quiet| |].
  - eapply ledger_shrink; [exact Ho|by rewrite Hcur|done|done].
  - intros m Hin' Hf Hu. etrans; [by apply Hs|done].
Qed.

Lemma nodeOk_restart cfg snap es r D ws r' D' :
  nodeOk C net n (MkDnode r D ws) → dstep (MkDnode r D ws) None [] (MkDnode r' D' []) →
  cfg_ID cfg = r_id r → Restore cfg D' snap es = Ok r' → hsle D D' → r_conf r' = C →
  nodeOk C net n (MkDnode r' D' []).
Proof using.
  intros [Hr Hid HC Hv He HL Hs] Hst Hcfg H Hle HC'. cbn in *.
  destruct (Restore_quiet _ _ _ _ _ H) as (Hro & Hid' & Ho & Hcur & Hnz).
  assert (Hidn : r_id r' = n) by congruence.
  split; cbn; try done; [by eapply dr_step|apply elected_follower; congruence| |].
  - destruct HL as [L1 L2 L3]. split; rewrite ?Ho, ?app_nil_r.
    + intros m Hm Hg Hf. rewrite Hcur. etrans; [|exact Hle]. apply Hs; [done|congruence|].
      unfold is_grant, ungated in *. by destruct (m_Type m).
    + intros m1 m2 H1 H2 G1 G2 F1 F2. apply L2; try done; try congruence; apply elem_of_app; by left.
    + by intros m ?%elem_of_nil.
  - intros m Hin' Hf Hu. etrans; [by apply Hs|done].
Qed.
End NodeStep.

(** One step of one node. *)
Lemma nodeOk_step C net n d i ms d' :
  nodeOk C net n d → dstep d i ms d' →
  (∀ m, i = Some m → m ∈ net ∨ m_Type m = MsgSnap) → r_conf (dn_raft d') = C →
  nodeOk C (net ++ ms) n d' ∧ ∀ m, m ∈ ms → m_From m = n.
Proof.
  intros Hn Hst Hd HC. pose proof (dreach_gate _ (no_reach _ _ _ _ Hn)) as [_ Hg].
  pose proof Hst as Hst'.
  destruct Hst as [o r D ws r' Hin Ho Hh Ht Hto H|r D ws rd r' Hh H|r D pre w post r' H|m r D ws
    |cfg snap es r D pre post r' Hc H1 H2 H3 H]; cbn in HC, Hg |- *; rewrite ?app_nil_r.
  - split; [by eapply nodeOk_run|]. by intros m ?%elem_of_nil.
  - by eapply nodeOk_ready.
  - split; [|by intros m ?%elem_of_nil].
    eapply (nodeOk_ack _ _ _ _ _ _ _ _ _ (OpAckPersisted (fst w))); try done.
    destruct Hg as [_ _ _ _ Hch _ _ _ _].
    replace (pre ++ w :: post) with ((pre ++ [w]) ++ post) in Hch by by rewrite <- (assoc_L app).
    apply chain_prefix, chain_latest in Hch. apply Hch.
  - split; [|by intros x ?%elem_of_nil].
    by eapply (nodeOk_ack _ _ _ _ _ _ _ _ _ (OpAckSnapshot m)).
  - split; [|by intros x ?%elem_of_nil]. eapply nodeOk_restart; try done.
    destruct Hg as [_ _ _ _ Hch _ _ _ _]. apply chain_prefix, chain_latest in Hch. apply Hch.
Qed.

Lemma cinv_step C cl cl' : cinv C cl → cstep C cl cl' → cinv C cl'.
Proof.
  intros [Hn Hf] Hst. destruct Hst as [ns net n d i ms d' Hd Hst Hdel HC]. cbn in *.
  destruct (nodeOk_step C net n d i ms d' (Hn n d Hd) Hst Hdel HC) as [Hok Hfrom].
  split; cbn.
  - intros n' d'' Hl. destruct (decide (n = n')) as [<-|Hne].
    + rewrite lookup_insert_eq in Hl. by simplify_eq.
    + rewrite lookup_insert_ne in Hl by done. apply nodeOk_net; [|by apply Hn].
      intros m Hm%Hfrom. congruence.
  - intros m [Hm|Hm]%elem_of_app; rewrite lookup_insert_is_Some'; [right; by apply Hf|left].
    symmetry. by apply Hfrom.
Qed.

Lemma cinv_init C cl : cinit C cl → cinv C cl.
Proof.
  intros [Hnet Hn]. split; [|rewrite Hnet; by intros m ?%elem_of_nil].
  intros n d (Hv & cfg & r & HN & Hid & HC & ->)%Hn.
  rewrite Hnet. assert (Hnz : cfg_ID cfg ≠ 0) by (revert HN; unfold New; case_test; [done|by intros _]).
  pose proof (dr_new cfg r HN) as Hr.
  apply New_inv in HN as (_ & -> & _). split; cbn; try done.
  - split; cbn; [by intros m ?%elem_of_nil|by intros m1 m2 ?%elem_of_nil|by intros m ?%elem_of_nil].
  - by intros m ?%elem_of_nil.
Qed.

Lemma creach_cinv C cl : creach C cl → cinv C cl.
Proof.
  intros (cl0 & H0%cinv_init & Hs). induction Hs as [|cl0 cl1 cl2 H01 _ IH]; [done|].
  apply IH. by eapply cinv_step.
Qed.

(** The vote behind a leader's quorum member. *)
Lemma leader_support C net n d :
  nodeOk C net n d → r_role (dn_raft d) = RoleLeader →
  ∃ q, is_quorum C q ∧ ∀ p, p ∈ q → p = n ∨ granted net n p (r_term (dn_raft d)).
Proof. intros [_ Hid _ _ [_ _ _ E4] _ _] Hl. rewrite Hid in E4. by apply E4. Qed.

(** A vote a leader itself granted in its term was for itself. *)
Lemma leader_own_vote C net a b d :
  nodeOk C net a d → r_role (dn_raft d) = RoleLeader → b ≠ 0 →
  granted net b a (r_term (dn_raft d)) → b = a.
Proof.
  intros [_ Hid _ _ [_ E2 _ _] [L1 _ _] _] Hl Hb (m & Hm & Hg & Hf & Ht & Htm).
  destruct (L1 m) as [_ Hv]; [apply elem_of_app; by left|done|congruence|].
  unfold attested in Hv. rewrite Hg in Hv. cbn in Hv.
  rewrite E2 in Hv by congruence. rewrite <- Ht, <- Hid. symmetry. apply Hv; [done|congruence].
Qed.

(** C1. Election safety: in every reachable state of a cluster of voters and learners
    whose configuration does not change, whatever messages were delayed, reordered,
    duplicated or lost and whichever nodes stopped and restarted from their
    disks, two leaders of the same term are the same node.  A configuration with one
    voter has to be without learners: there a learner told to campaign makes itself
    leader ([learner_elects_itself]). *)
Theorem election_safety C cl a b da db :
  creach C cl →
  cl_nodes cl !! a = Some da → cl_nodes cl !! b = Some db →
  r_role (dn_raft da) = RoleLeader → r_role (dn_raft db) = RoleLeader →
  r_term (dn_raft da) = r_term (dn_raft db) → a = b.
Proof.
  intros [Hn Hfrom]%creach_cinv Ha Hb La Lb Ht. apply Hn in Ha as Oa, Hb as Ob.
  destruct (leader_support _ _ _ _ Oa La) as (qa & Hqa & Sa).
  destruct (leader_support _ _ _ _ Ob Lb) as (qb & Hqb & Sb).
  destruct (quorums_overlap C qa qb Hqa Hqb) as (p & Hpa & Hpb).
  assert (Na : a ≠ 0) by (rewrite <- (no_id _ _ _ _ Oa); apply (no_elected _ _ _ _ Oa)).
  assert (Nb : b ≠ 0) by (rewrite <- (no_id _ _ _ _ Ob); apply (no_elected _ _ _ _ Ob)).
  specialize (Sa p Hpa). specialize (Sb p Hpb). destruct Sa as [Ea|Ga], Sb as [E|Gb].
  - congruence.
  - symmetry. rewrite <- Ht, Ea in Gb. by eapply (leader_own_vote C (cl_net cl) a b da).
  - subst p. rewrite Ht in Ga. by eapply (leader_own_vote C (cl_net cl) b a db).
  - destruct Ga as (m1 & M1 & G1 & F1 & T1 & Te1), Gb as (m2 & M2 & G2 & F2 & T2 & Te2).
    destruct (Hfrom m1 M1) as [dp Hp]. rewrite F1 in Hp. apply Hn in Hp as [_ Hid _ _ _ [_ L2 _] _].
    rewrite <- T1, <- T2. apply L2; try done; try congruence; apply elem_of_app; by left.
Qed.
