(* ===== verification/RaftExamples.v ===== *)
(** * Concrete nodes

    Small executions of the model: the inputs on which the theorems of the Raft
    files are applied, and the behaviours of the code that differ from what its
    comments say. *)

From Stdlib Require Import Lia ZArith.
From stdpp Require Import base tactics numbers option relations gmap list.
From S2P Require Import Prelude Bytes ConfChange RaftTypes Raft RaftInv RaftOps RaftReach RaftGate RaftElection.

(** ** Building nodes *)

Definition cfg (id : NodeID) (peers learners : list NodeID) : Config :=
  MkConfig id peers 3 1 learners 0 false.

Definition built (c : Config) : Raft :=
  match New c with Ok r => r | Err _ => freshRaft c (MkConfiguration [] []) end.

(** The state after a call that does not panic. *)
Definition after (o : op) (r : Raft) : Raft := default r (run o r).
Definition afters (os : list op) (r : Raft) : Raft := foldl (λ r o, after o r) r os.

Definition node3 (id : NodeID) : Raft := built (cfg id [1; 2; 3] []).

Definition voteReq (from to : NodeID) (t : Term) : Message := mkmsg MsgVote from to t.

(** ** A removed node that is told to campaign *)

Definition pid1 : ProposalID := MkProposalID 1 1.

(** Node 1 appends the entry that removes it, as a follower of node 2, and then
    a delayed order to campaign arrives. *)
Definition removeSelf : Message :=
  mkmsg MsgApp 2 1 1
    <| m_Entries := [MkEntry EntryConfChange 1 1 pid1
         (EncodeConfChange (MkConfChangeV2 [MkConfChangeSingle ConfChangeRemoveNode 1] ConfChangeSimple))] |>.

Definition removedNode : Raft := after (OpStep removeSelf) (node3 1).

Example removedNode_conf : r_conf removedNode = MkConfiguration [2; 3] [].
Proof. vm_compute. reflexivity. Qed.

(** A node outside its own configuration panics on a late order to campaign:
    [forceCampaign] indexes the vote slice at [peerIdx(self)], which is -1. *)
Theorem removed_node_panics : Step (mkmsg MsgTimeoutNow 2 1 1) removedNode = None.
Proof. vm_compute. reflexivity. Qed.

(** ** A learner that campaigns *)

Definition conf1L : list NodeID := [1; 2].
Definition voter1 : Raft := afters [OpTick; OpTick; OpTick] (built (cfg 1 [1; 2] [2])).
Definition learner2 : Raft := after OpCampaign (built (cfg 2 [1; 2] [2])).

(** In a configuration with one voter, a learner told to campaign makes itself
    leader of the term the voter leads: the single-node shortcut of
    [forceCampaign] does not ask whether the node may vote. *)
Theorem learner_elects_itself :
  r_conf voter1 = MkConfiguration [1] [2] ∧ r_conf learner2 = MkConfiguration [1] [2]
  ∧ r_role voter1 = RoleLeader ∧ r_role learner2 = RoleLeader ∧ r_term voter1 = r_term learner2.
Proof. vm_compute. auto. Qed.

(** ** Scripted executions

    A few nodes and the list of everything they have sent.  After every call a
    node is drained, its writes complete and are acknowledged, and it is drained
    again, so each node behaves as under a driver with an instant disk. *)

Record world := MkWorld { w_nodes : list Raft; w_net : list Message }.

Definition drain1 (r : Raft) : Raft * list Message :=
  match Ready_ r with
  | Some (rd, r) =>
      (if rd_Mark rd =? 0 then r else default r (AckPersisted (rd_Mark rd) r), rd_Messages rd)
  | None => (r, [])
  end.

Definition drain (r : Raft) : Raft * list Message :=
  let '(r, ms1) := drain1 r in let '(r, ms2) := drain1 r in (r, ms1 ++ ms2).

Inductive action := Call (n : nat) (o : op) | Deliver (k : nat).

Definition act1 (w : world) (a : action) : world :=
  let go n o :=
    match w_nodes w !! n with
    | Some r => let '(r', ms) := drain (after o r) in
                MkWorld (<[n:=r']> (w_nodes w)) (w_net w ++ ms)
    | None => w
    end in
  match a with
  | Call n o => go n o
  | Deliver k =>
      match w_net w !! k with
      | Some m => go (Z.to_nat (m_To m - 1)) (OpStep m)
      | None => w
      end
  end.

Definition script (w : world) (acts : list action) : world := foldl act1 w acts.

Definition world3 : world := MkWorld [node3 1; node3 2; node3 3] [].

(** Short views for reading a script. *)
Definition view (m : Message) := (m_Type m, m_From m, m_To m, m_Term m, m_Success m, m_Granted m).

Definition ticks (n : nat) : list action := [Call n OpTick; Call n OpTick; Call n OpTick].

(** ** A read confirmed by an old response

    Node 1 leads term 1; node 2 answers its first append, and that answer is
    delayed.  Nodes 2 and 3 elect node 2 for term 2, which commits a client
    write at index 3.  Only then is node 1, still a leader of term 1 as far as
    it knows, asked for a read index, and only then does the old answer arrive. *)
Definition readWorld : world :=
  script world3
    (ticks 0 ++ [Deliver 0; Deliver 2; Deliver 3] ++ ticks 1
     ++ [Deliver 7; Deliver 8; Deliver 10; Deliver 11; Deliver 12; Deliver 13;
         Call 1 (OpPropose (MkProposalID 2 1) [Byte.x2a]); Deliver 15; Deliver 16]).

(** The old answer, and node 1 after the read request and the answer. *)
Definition oldAnswer : option Message := w_net readWorld !! 5%nat.
Definition reader : option Raft :=
  m ← oldAnswer; r ← w_nodes readWorld !! 0%nat;
  Some (afters [OpReadIndex [Byte.x01]; OpStep m] r).

(** The write at index 3 was committed before the read was asked for, and the
    read is confirmed at index 1. *)
Theorem read_confirmed_by_old_response :
  (r_commitIndex <$> w_nodes readWorld !! 1%nat) = Some 3
  ∧ (e_Data <$> (w_nodes readWorld !! 1%nat ≫= λ r, at_ r 3)) = Some [Byte.x2a]
  ∧ (m_Term <$> oldAnswer) = Some 1
  ∧ (r_readyReads <$> reader) = Some [MkReadState 1 [Byte.x01]].
Proof. vm_compute. auto. Qed.

(** A response of an older term confirms a read too, which the comment on
    [confirmRead] rules out. *)
Definition leader2 : Raft :=
  afters [OpTick; OpTick; OpTick; OpTick; OpTick; OpTick;
          OpStep (mkmsg MsgVoteResp 2 1 2 <| m_Granted := true |>);
          OpReadIndex [Byte.x01];
          OpStep (mkmsg MsgAppResp 2 1 1 <| m_Success := true |> <| m_MatchIndex := 0 |>)] (node3 1).

Theorem older_term_confirms_read :
  r_role leader2 = RoleLeader ∧ r_term leader2 = 2
  ∧ r_readyReads leader2 = [MkReadState 1 [Byte.x01]].
Proof. vm_compute. auto. Qed.

(** ** Two membership changes and two committed histories

    Voters 1 to 4.  Node 1 leads term 1 and appends the addition of node 5,
    which nobody receives.  Node 2 leads term 2, having committed nothing of its
    own term, and removes node 1 with the votes of 2 and 3.  Node 1 is then
    elected for term 3 by 1, 4 and 5, and commits its own entries. *)
Definition change (t : ConfChangeType) (n : NodeID) : op :=
  OpProposeConfChange pid1 (MkConfChangeV2 [MkConfChangeSingle t n] ConfChangeSimple).

Definition node4 (id : NodeID) : Raft := built (cfg id [1; 2; 3; 4] []).

Definition memberWorld : world :=
  script (MkWorld [node4 1; node4 2; node4 3; node4 4; built (cfg 5 [1; 2; 3; 4; 5] [5])] [])
    (ticks 0 ++ [Deliver 0; Deliver 1; Deliver 3; Deliver 4; Call 0 (change ConfChangeAddVoter 5)]
     ++ ticks 1 ++ [Deliver 13; Deliver 14; Deliver 15; Deliver 16;
                    Call 1 (change ConfChangeRemoveNode 1); Deliver 20; Deliver 22]
     ++ [Deliver 12] ++ ticks 0 ++ [Deliver 26; Deliver 27; Deliver 28; Deliver 29]
     ++ [Deliver 32; Deliver 33; Deliver 34; Deliver 35; Deliver 36; Deliver 37; Deliver 38;
         Deliver 39]).

(** Nodes 1 and 2 have both committed index 2, with different entries. *)
Theorem committed_entries_diverge :
  ∃ r1 r2 e1 e2,
    w_nodes memberWorld !! 0%nat = Some r1 ∧ w_nodes memberWorld !! 1%nat = Some r2
    ∧ at_ r1 2 = Some e1 ∧ at_ r2 2 = Some e2
    ∧ 2 ≤ r_commitIndex r1 ∧ 2 ≤ r_commitIndex r2 ∧ e_Term e1 = 1 ∧ e_Term e2 = 2.
Proof.
  assert (H : (λ r, (e_Term <$> at_ r 2, r_commitIndex r)) <$> take 2 (w_nodes memberWorld)
              = [(Some 1, 3); (Some 2, 2)]) by (vm_compute; reflexivity).
  destruct (w_nodes memberWorld) as [|r1 [|r2 rs]]; cbn in H; try done. injection H as H1 C1 H2 C2.
  apply fmap_Some in H1 as (e1 & A1 & T1), H2 as (e2 & A2 & T2).
  exists r1, r2, e1, e2. rewrite C1, C2. split_and!; done || lia.
Qed.

(** ** Nodes and clusters, run

    An executable driver for [dstep] and [cstep]: calls whose side conditions
    are decided, a drain, or the completion of the oldest write. *)

Inductive daction := DRun (o : op) | DReady | DAck.

Definition plain_op (o : op) : bool :=
  inner_op o && match o with
                | OpStep m => match m_Type m with MsgApp | MsgSnap => false | _ => true end
                | OpAckPersisted _ | OpAckApplied _ => false
                | _ => true
                end.

Definition roomy (r : Raft) : bool :=
  (r_nextMark r + 1 <? 2 ^ 64) && (lastIndex r + 1 <? 2 ^ 64) && (0 <=? r_term r)
  && (r_term r + 1 <? 2 ^ 64).

Definition drun (a : daction) (d : dnode) : option (option Message * list Message * dnode) :=
  let '(MkDnode r D ws) := d in
  match a with
  | DRun o =>
      if plain_op o && roomy r && (0 <=? op_term o) && (op_term o + 1 <? 2 ^ 64)
      then r' ← run o r; Some (delivered o, [], MkDnode r' D ws) else None
  | DReady =>
      if roomy r then
        '(rd, r') ← Ready_ r;
        Some (None, rd_Messages rd,
              MkDnode r' D (if rd_Mark rd =? 0 then ws else ws ++ [(rd_Mark rd, rd_HardState rd)]))
      else None
  | DAck =>
      match ws with
      | w :: post => r' ← AckPersisted (fst w) r; Some (None, [], MkDnode r' (latest D ([] ++ [w])) post)
      | [] => None
      end
  end.

Lemma plain_op_ok o r : plain_op o = true → inner_op o = true ∧ op_ok o r.
Proof.
  unfold plain_op. intros [H1 H2]%andb_true_iff. split; [done|].
  destruct o; try done. cbn. unfold msg_ok. by destruct (m_Type m).
Qed.

Lemma drun_sound a d i ms d' : drun a d = Some (i, ms, d') → dstep d i ms d'.
Proof.
  destruct d as [r D ws], a as [o| |]; cbn -[latest plain_op roomy].
  - destruct (plain_op o) eqn:Ep; [|done]. destruct (roomy r) eqn:Er; [|done].
    destruct (0 <=? op_term o) eqn:E1; [|done]. destruct (op_term o + 1 <? 2 ^ 64) eqn:E2; [|done].
    cbn [andb]. bool_hyps. intros (r' & H & [= <- <- <-])%bind_Some. apply (plain_op_ok o r) in Ep as [H1 H2].
    unfold roomy in Er. bool_hyps. by apply ds_run.
  - destruct (roomy r) eqn:Er; [|done]. intros ([rd r'] & H & [= <- <- <-])%bind_Some.
    unfold roomy in Er. bool_hyps. by apply ds_ready.
  - destruct ws as [|w post]; [done|]. intros (r' & H & [= <- <- <-])%bind_Some.
    by apply (ds_ack r D [] w post r').
Qed.

(** A cluster step: node [n] acts; a delivery takes a message off the network. *)
Definition crun (cl : cluster) (na : NodeID * daction) : option cluster :=
  let '(n, a) := na in
  d ← cl_nodes cl !! n;
  '(i, ms, d') ← drun a d;
  if match i with Some m => bool_decide (m ∈ cl_net cl) | None => true end
  then Some (MkCluster (<[n:=d']> (cl_nodes cl)) (cl_net cl ++ ms)) else None.

Lemma crun_sound C cl n a cl' d :
  crun cl (n, a) = Some cl' → cl_nodes cl' !! n = Some d → r_conf (dn_raft d) = C → cstep C cl cl'.
Proof.
  destruct cl as [ns net]. unfold crun. cbn [cl_nodes cl_net].
  intros (d0 & H0 & ([[i ms] d'] & H1 & H2)%bind_Some)%bind_Some Hd HC.
  apply drun_sound in H1. destruct i as [m|].
  - destruct (bool_decide (m ∈ net)) eqn:Em; [|done]. apply bool_decide_eq_true in Em.
    apply (inj Some) in H2 as <-. cbn in Hd. rewrite lookup_insert_eq in Hd.
    apply (inj Some) in Hd as ->. eapply cs_node; try done. intros ? [= <-]. by left.
  - apply (inj Some) in H2 as <-. cbn in Hd. rewrite lookup_insert_eq in Hd.
    apply (inj Some) in Hd as ->. by eapply cs_node.
Qed.

(** A whole script, checking the configuration at every step. *)
Fixpoint cscript (C : Configuration) (cl : cluster) (acts : list (NodeID * daction)) : option cluster :=
  match acts with
  | [] => Some cl
  | na :: acts =>
      cl' ← crun cl na;
      d ← cl_nodes cl' !! fst na;
      if bool_decide (r_conf (dn_raft d) = C) then cscript C cl' acts else None
  end.

Lemma cscript_sound C acts cl cl' : cscript C cl acts = Some cl' → rtc (cstep C) cl cl'.
Proof.
  revert cl. induction acts as [|[n a] acts IH]; intros cl; cbn -[crun].
  { intros [= ->]. apply rtc_refl. }
  intros (cl1 & H1 & (d & H2 & H3)%bind_Some)%bind_Some.
  destruct (bool_decide (r_conf (dn_raft d) = C)) eqn:E; [|done]. apply bool_decide_eq_true in E.
  eapply rtc_l; [by eapply crun_sound|by apply IH].
Qed.

(** Three voters; node 1 times out, persists its candidacy, asks for votes, node
    2 persists and sends its vote, and node 1 becomes leader. *)
Definition C3 : Configuration := MkConfiguration [1; 2; 3] [].
Definition fresh (id : NodeID) : dnode := MkDnode (node3 id) (MkHardState 0 0) [].
Definition cluster3 : cluster := MkCluster {[1 := fresh 1; 2 := fresh 2; 3 := fresh 3]} [].

Definition grantVote (from to : NodeID) (t : Term) : Message :=
  mkmsg MsgVoteResp from to t <| m_Granted := true |>.

Definition electionScript : list (NodeID * daction) :=
  [(1, DRun OpTick); (1, DRun OpTick); (1, DRun OpTick); (1, DReady); (1, DAck); (1, DReady);
   (2, DRun (OpStep (voteReq 1 2 1))); (2, DReady); (2, DAck); (2, DReady);
   (1, DRun (OpStep (grantVote 2 1 1)))].

Definition electedCluster : option cluster := cscript C3 cluster3 electionScript.

Lemma cluster3_init : cinit C3 cluster3.
Proof.
  split; [done|]. intros n d. unfold cluster3. cbn [cl_nodes].
  intros [[<- <-]|[_ [[<- <-]|[_ [<- <-]%lookup_singleton_Some]]%lookup_insert_Some]]%lookup_insert_Some;
    (split; [by left|]).
  - by exists (cfg 1 [1; 2; 3] []), (node3 1).
  - by exists (cfg 2 [1; 2; 3] []), (node3 2).
  - by exists (cfg 3 [1; 2; 3] []), (node3 3).
Qed.

Definition leader1 : dnode :=
  default (fresh 1) (electedCluster ≫= λ cl, cl_nodes cl !! 1).

(** Node 1 leads term 1, and no other node does. *)
Lemma election_safety_witness :
  r_role (dn_raft leader1) = RoleLeader ∧ r_term (dn_raft leader1) = 1 ∧ (1 : NodeID) = 1.
Proof.
  split; [by vm_compute|]. split; [by vm_compute|].
  assert (H : ∃ cl, electedCluster = Some cl ∧ cl_nodes cl !! 1 = Some leader1).
  { unfold leader1. destruct electedCluster as [cl|] eqn:E; [|by vm_compute in E].
    exists cl. split; [done|]. cbn. destruct (cl_nodes cl !! 1) eqn:E1; [done|].
    assert (Hs : is_Some (electedCluster ≫= λ cl, cl_nodes cl !! 1)) by (by vm_compute; eauto).
    rewrite E in Hs. cbn in Hs. rewrite E1 in Hs. by destruct Hs. }
  destruct H as (cl & H1 & H2).
  apply (election_safety C3 cl 1 1 leader1 leader1); [|exact H2|exact H2|by vm_compute..].
  exists cluster3. split; [exact cluster3_init|]. exact (cscript_sound _ electionScript _ _ H1).
Defined.

(** ** Single nodes, run *)

Fixpoint dscript (d : dnode) (acts : list daction) : option dnode :=
  match acts with
  | [] => Some d
  | a :: acts => '(_, _, d') ← drun a d; dscript d' acts
  end.

Lemma dscript_reach d acts d' : dreach d → dscript d acts = Some d' → dreach d'.
Proof.
  revert d. induction acts as [|a acts IH]; intros d Hd; cbn -[drun]; [by intros [= <-]|].
  intros ([[i ms] d1] & H1 & H2)%bind_Some. eapply IH; [|exact H2].
  eapply dr_step; [exact Hd|]. by eapply drun_sound.
Qed.

(** Node 2 has been asked for its vote and has the vote on disk. *)
Definition voterActs : list daction := [DRun (OpStep (voteReq 1 2 1)); DReady; DAck].
Definition voter2 : dnode := default (fresh 2) (dscript (fresh 2) voterActs).
Definition voter2sent : dnode :=
  match drun DReady voter2 with Some (_, _, d) => d | None => voter2 end.

Lemma voter2_reach : dreach voter2.
Proof.
  apply (dscript_reach (fresh 2) voterActs); [|by vm_compute].
  by apply (dr_new (cfg 2 [1; 2; 3] [])).
Qed.

Lemma voter2_step : dstep voter2 None [grantVote 2 1 1] voter2sent.
Proof. apply (drun_sound DReady). by vm_compute. Qed.

(** The vote leaves node 2 once it is on disk. *)
Lemma persist_before_reply_witness :
  is_grant (grantVote 2 1 1) = true ∧ hs_Vote (dn_disk voter2) = 1.
Proof.
  split; [reflexivity|].
  apply (persist_before_reply voter2 None [grantVote 2 1 1] voter2sent (grantVote 2 1 1)).
  - exact voter2_reach.
  - exact voter2_step.
  - by left.
  - reflexivity.
  - by vm_compute.
  - reflexivity.
  - discriminate.
Defined.

Lemma disk_monotone_witness : hs_Term (dn_disk voter2) ≤ hs_Term (dn_disk voter2sent).
Proof. exact (proj1 (disk_monotone voter2 None _ voter2sent voter2_reach voter2_step)). Defined.

(** A one-voter group: node 1 elects itself, writes its first entry, commits and
    applies it. *)
Definition op_okb (o : op) (r : Raft) : bool :=
  match o with
  | OpStep m => match m_Type m with MsgApp | MsgSnap => false | _ => true end
  | OpAckPersisted m => m <=? r_lastHandedMark r
  | OpAckApplied i => i <=? r_commitIndex r
  | _ => true
  end.

Lemma op_okb_ok o r : op_okb o r = true → op_ok o r.
Proof.
  destruct o; cbn; try done; [|lia..]. unfold msg_ok. by destruct (m_Type m).
Qed.

Fixpoint rscript (r : Raft) (os : list op) : option Raft :=
  match os with
  | [] => Some r
  | o :: os => if roomy r && op_okb o r then r' ← run o r; rscript r' os else None
  end.

Lemma roomy_room r : roomy r = true → headroom r ∧ term_room (r_term r).
Proof. unfold roomy, headroom, term_room. intros. bool_hyps. lia. Qed.

Lemma rscript_reach r os r' : reachable r → rscript r os = Some r' → reachable r'.
Proof.
  revert r. induction os as [|o os IH]; intros r Hr; cbn -[run roomy]; [by intros [= <-]|].
  destruct (roomy r) eqn:E1; [|done]. destruct (op_okb o r) eqn:E2; [|done]. cbn [andb].
  intros (r1 & H1 & H2)%bind_Some. eapply IH; [|exact H2].
  eapply reach_run; [exact Hr|by apply roomy_room|by apply op_okb_ok|exact H1].
Qed.

Definition soloActs : list op :=
  [OpTick; OpTick; OpTick; OpReady; OpAckPersisted 1; OpReady; OpAckApplied 1].
Definition solo : Raft := default (built (cfg 1 [1] [])) (rscript (built (cfg 1 [1] [])) soloActs).

Example solo_applied :
  (r_role solo, r_term solo, lastIndex solo, r_commitIndex solo, r_appliedIdx solo) = (RoleLeader, 1, 1, 1, 1).
Proof. by vm_compute. Qed.

Lemma solo_reachable : reachable solo.
Proof.
  apply (rscript_reach (built (cfg 1 [1] [])) soloActs); [|by vm_compute].
  by apply (reach_new (cfg 1 [1] [])).
Qed.

Lemma solo_room : headroom solo ∧ term_room (r_term solo).
Proof. apply roomy_room. by vm_compute. Qed.

Lemma reachable_inv_witness : inv solo.
Proof. apply (reachable_inv solo). exact solo_reachable. Defined.

Lemma solo_inv : inv solo.
Proof. apply reachable_inv_lemma. exact solo_reachable. Qed.

(** The committed first entry survives another proposal. *)
Definition soloPropose : op := OpPropose pid1 [Byte.x2a].
Definition solo2 : Raft := after soloPropose solo.

Lemma solo2_run : run soloPropose solo = Some solo2.
Proof. by vm_compute. Qed.

Lemma committed_entries_stable_witness : at_ solo2 1 = at_ solo 1.
Proof.
  apply (committed_entries_stable soloPropose solo solo2); [| | |exact solo2_run|].
  - exact solo_reachable.
  - exact (proj1 solo_room).
  - exact I.
  - by vm_compute.
Defined.

Lemma AssertConfConsistent_reachable_witness : AssertConfConsistent solo ≠ Some ErrConfInconsistent.
Proof. apply (AssertConfConsistent_reachable solo). exact solo_reachable. Defined.

Lemma run_total_witness : ∃ r', run soloPropose solo = Some r'.
Proof.
  apply (run_total soloPropose solo).
  - exact solo_reachable.
  - exact (proj1 solo_room).
  - exact I.
  - exact I.
  - unfold member. apply (bool_decide_unpack _). by vm_compute.
Defined.

Lemma solo2_inv : inv solo2.
Proof.
  apply reachable_inv_lemma.
  apply (reach_run soloPropose solo); [exact solo_reachable|exact (proj1 solo_room)|exact I|exact solo2_run].
Qed.

(** The proposal is not on disk yet, so it does not commit. *)
Lemma maybeCommit_spec_witness : r_commitIndex (maybeCommit solo2) = 1 ∧ ¬ committable solo2 2.
Proof.
  split; [by vm_compute|]. apply (proj2 (maybeCommit_spec solo2 solo2_inv) 2). by vm_compute.
Defined.

Lemma Ready_spec_witness : ∃ rd r', Ready_ solo2 = Some (rd, r') ∧ length (rd_Entries rd) = 1%nat.
Proof.
  destruct (Ready_spec solo2) as (rd & r' & H & _ & _ & _ & He & _).
  - exact solo2_inv.
  - by vm_compute.
  - exists rd, r'. split; [exact H|]. rewrite He. by vm_compute.
Defined.

Definition compacted : Raft := snd (Compact 1 solo).

Lemma Compact_spec_witness : r_snapIndex compacted = 1 ∧ r_snapTerm compacted = 1.
Proof.
  destruct (Compact_spec 1 solo 1 (MkConfiguration [1] []) compacted) as (_ & _ & _ & H1 & H2 & _).
  - exact solo_inv.
  - by vm_compute.
  - by vm_compute.
  - split; [exact H1|exact H2].
Defined.

Lemma vote_once_witness : r_term (node3 2) ≤ r_term (after (OpStep (voteReq 1 2 1)) (node3 2)).
Proof.
  apply (vote_once (OpStep (voteReq 1 2 1)) (node3 2)).
  - by apply (reach_new (cfg 2 [1; 2; 3] [])).
  - apply roomy_room. by vm_compute.
  - apply roomy_room. by vm_compute.
  - by vm_compute.
  - by vm_compute.
Defined.

(** Node 1 accepts the first entry of node 2's term. *)
Definition firstApp : Message :=
  mkmsg MsgApp 2 1 1 <| m_Entries := [MkEntry EntryNormal 1 1 pid1 [Byte.x2a]] |> <| m_LeaderCommit := 1 |>.

Lemma firstApp_ok : app_ok firstApp.
Proof. split; try by vm_compute. intros i e He. destruct i as [|i]; cbn in He; by simplify_eq. Qed.

Lemma stepApp_accept_witness :
  ∃ r', stepApp firstApp (node3 1) = Some r' ∧ termAt r' 1 = 1 ∧ r_commitIndex r' = 1.
Proof.
  destruct (stepApp_accept firstApp (node3 1)) as (r' & H & _ & He & _ & _ & Hc & _).
  - apply good_of_inv; [|apply roomy_room; by vm_compute].
    apply reachable_inv_lemma. by apply (reach_new (cfg 1 [1; 2; 3] [])).
  - exact firstApp_ok.
  - by vm_compute.
  - by vm_compute.
  - intros e He Hle. cbn in He. apply list_elem_of_singleton in He as ->. by vm_compute in Hle.
  - exists r'. split; [exact H|]. rewrite Hc. split; [|reflexivity].
    apply (He (MkEntry EntryNormal 1 1 pid1 [Byte.x2a])). by left.
Defined.
