(* ===== verification/Hlc.v ===== *)
(** * The hybrid logical clock (hlc/hlc.go)

    A physical reading and a logical counter whose low bits carry the minting
    node's ordinal.  The physical clock is a parameter of each call: the reading
    taken there and the bound on disagreement. *)

From Stdlib Require Import Lia ZArith.
From stdpp Require Import base tactics numbers option list.
From S2P Require Import Prelude.

(** ** Timestamps *)

Record Timestamp := MkTimestamp { Wall : Z; Logical : Z }.
#[global] Instance Timestamp_eq_dec : EqDecision Timestamp.
Proof. solve_decision. Defined.

(** [Wall] is an [int64], [Logical] a [uint32]. *)
Definition ts_ok (t : Timestamp) : Prop := is_i64 (Wall t) ∧ is_u32 (Logical t).

Definition Timestamp_IsSet (t : Timestamp) : bool := negb (Wall t =? 0) || negb (Logical t =? 0).

Definition Less (t u : Timestamp) : bool :=
  if negb (Wall t =? Wall u) then Wall t <? Wall u else Logical t <? Logical u.

Definition LessEq (t u : Timestamp) : bool := negb (Less u t).

Definition Timestamp_Equal (t u : Timestamp) : bool := bool_decide (t = u).

Definition maxLogical : Z := 2 ^ 32 - 1.

Definition Next (t : Timestamp) : Timestamp :=
  if Logical t =? maxLogical then MkTimestamp (i64 (Wall t + 1)) 0
  else MkTimestamp (Wall t) (u32 (Logical t + 1)).

Definition Max (a b : Timestamp) : Timestamp := if Less a b then b else a.

(** ** Tags *)

Definition IDBits : Z := 8.
Definition MaxNodeID : Z := Z.shiftl 1 IDBits - 1.
Definition logicalStep : Z := Z.shiftl 1 IDBits.
Definition logicalMask : Z := logicalStep - 1.

Definition nextTagged (after : Timestamp) (id : Z) : Timestamp :=
  let base := Z.ldiff (Logical after) logicalMask in
  let cand := Z.lor base id in
  if cand >? Logical after then MkTimestamp (Wall after) cand
  else MkTimestamp (Wall after) (u32 (base + logicalStep + id)).

Definition NodeOf (t : Timestamp) : Z := Z.land (Logical t) logicalMask.

(** ** The clock *)

Record Clock := MkClock {
  c_last : Timestamp;
  c_id : Z;
  c_updatesRefused : Z;
  c_physRegressions : Z;
}.

#[global] Instance Clock_eta : Eta Clock := λ c,
  MkClock (c_last c) (c_id c) (c_updatesRefused c) (c_physRegressions c).
#[global] Instance upd_c_last : Field c_last := ltac:(derive_field).
#[global] Instance upd_c_updatesRefused : Field c_updatesRefused := ltac:(derive_field).
#[global] Instance upd_c_physRegressions : Field c_physRegressions := ltac:(derive_field).

Inductive HlcError :=
| ErrNoPhysicalClock
| ErrOrdinalTooBig
| ErrUnsetSeed
| ErrBeyondEnvelope (peer phys : Timestamp) (bound : Z).

Definition zeroTimestamp : Timestamp := MkTimestamp 0 0.

(** [phys] says whether a physical clock was supplied. *)
Definition New (phys : bool) (node : Z) : result HlcError Clock :=
  if negb phys then Err ErrNoPhysicalClock
  else if node >? MaxNodeID then Err ErrOrdinalTooBig
  else Ok (MkClock zeroTimestamp node 0 0).

Definition NewAt (phys : bool) (node : Z) (seed : Timestamp) : result HlcError Clock :=
  match New phys node with
  | Err e => Err e
  | Ok c => if negb (Timestamp_IsSet seed) then Err ErrUnsetSeed
            else Ok (c <| c_last := nextTagged seed (c_id c) |>)
  end.

(** [physWall] is the one physical reading taken by the call. *)
Definition Now (physWall : Z) (c : Clock) : Timestamp * Clock :=
  if Wall (c_last c) <? physWall then
    let t := MkTimestamp physWall (c_id c) in (t, c <| c_last := t |>)
  else
    let t := nextTagged (c_last c) (c_id c) in
    (t, c <| c_physRegressions := c_physRegressions c + 1 |> <| c_last := t |>).

(** [Wall.Sub]: an [int64] subtraction. *)
Definition Wall_Sub (t u : Z) : Z := i64 (t - u).

Definition Update (physWall maxOffset : Z) (m : Timestamp) (c : Clock)
    : option HlcError * Clock :=
  if Wall_Sub (Wall m) physWall >? maxOffset then
    (Some (ErrBeyondEnvelope m (MkTimestamp physWall 0) maxOffset),
     c <| c_updatesRefused := c_updatesRefused c + 1 |>)
  else
    let lb := Max (c_last c) m in
    (None, if Wall lb <? physWall then c <| c_last := MkTimestamp physWall (c_id c) |>
           else c <| c_last := nextTagged lb (c_id c) |>).

(** ** The order *)

(** The order as a proposition. *)
Definition ts_lt (t u : Timestamp) : Prop :=
  Wall t < Wall u ∨ (Wall t = Wall u ∧ Logical t < Logical u).
Definition ts_le (t u : Timestamp) : Prop := ts_lt t u ∨ t = u.

Lemma Less_spec t u : Less t u = true ↔ ts_lt t u.
Proof. unfold Less, ts_lt. case_test; rewrite Z.ltb_lt; lia. Qed.

#[global] Instance ts_lt_dec t u : Decision (ts_lt t u).
Proof. refine (cast_if (decide (Less t u = true))); abstract by rewrite <- Less_spec. Defined.

#[global] Instance ts_lt_strict : StrictOrder ts_lt.
Proof.
  split.
  - intros [w l]. unfold complement, ts_lt. cbn. lia.
  - intros [] [] []. unfold ts_lt. cbn. lia.
Qed.

Lemma ts_trichotomy t u : ts_lt t u ∨ t = u ∨ ts_lt u t.
Proof.
  destruct t as [w l], u as [w' l']. unfold ts_lt. cbn.
  destruct (Z.lt_trichotomy w w') as [?|[->|?]]; auto.
  destruct (Z.lt_trichotomy l l') as [?|[->|?]]; auto.
Qed.

Lemma LessEq_spec t u : LessEq t u = true ↔ ts_le t u.
Proof.
  unfold LessEq, ts_le. rewrite negb_true_iff, <- not_true_iff_false, Less_spec.
  destruct (ts_trichotomy t u) as [H|[->|H]].
  - split; [auto|]. intros _ H'. by apply (irreflexivity ts_lt t); etrans.
  - split; [auto|]. intros _. apply irreflexivity, _.
  - split; [intros Hn; by destruct (Hn H)|].
    intros [H'| ->] _; [|by apply (irreflexivity ts_lt u)]. by apply (irreflexivity ts_lt t); etrans.
Qed.

Lemma Max_spec a b : ts_le a (Max a b) ∧ ts_le b (Max a b) ∧ (Max a b = a ∨ Max a b = b).
Proof.
  unfold Max, ts_le. destruct (Less a b) eqn:E; [apply Less_spec in E; auto|].
  apply not_true_iff_false in E. rewrite Less_spec in E.
  destruct (ts_trichotomy a b) as [?|[->|?]]; auto. done.
Qed.

(** ** Tags, arithmetically *)

Definition ordinal (id : Z) : Prop := 0 ≤ id ≤ MaxNodeID.

Lemma mask_ones : logicalMask = Z.ones 8.
Proof. reflexivity. Qed.

Lemma base_spec l : Z.ldiff l logicalMask = l - l mod 256.
Proof.
  rewrite mask_ones, Z.ldiff_ones_r, Z.shiftl_mul_pow2, Z.shiftr_div_pow2 by lia.
  change (2 ^ 8) with 256. pose proof (Z.div_mod l 256). lia.
Qed.

Lemma tag_lor l id : ordinal id → Z.lor (Z.ldiff l logicalMask) id = l - l mod 256 + id.
Proof.
  intros Hid. rewrite <- base_spec, <- Z.add_lor_land.
  assert (Hz : Z.land (Z.ldiff l logicalMask) id = 0); [|lia].
  replace id with (Z.land id logicalMask).
  - apply Z.bits_inj'. intros n Hn. rewrite !Z.land_spec, Z.ldiff_spec, Z.bits_0.
    destruct (Z.testbit l n), (Z.testbit logicalMask n), (Z.testbit id n); done.
  - rewrite mask_ones, Z.land_ones by lia. apply Z.mod_small. unfold ordinal, MaxNodeID in Hid.
    change (Z.shiftl 1 IDBits) with 256 in Hid. change (2 ^ 8) with 256. lia.
Qed.

Lemma NodeOf_spec t : NodeOf t = Logical t mod 256.
Proof. unfold NodeOf. rewrite mask_ones, Z.land_ones by lia. done. Qed.

(** The counter has not run out at this wall reading. *)
Definition tag_room (t : Timestamp) : Prop := Logical t + 2 * logicalStep ≤ 2 ^ 32.

Lemma nextTagged_eq t id :
  ts_ok t → tag_room t → ordinal id →
  nextTagged t id = MkTimestamp (Wall t)
    (let base := Logical t - Logical t mod 256 in
     if base + id >? Logical t then base + id else base + 256 + id).
Proof.
  intros [_ Hl] Hroom Hid. unfold nextTagged. cbv zeta. rewrite tag_lor, base_spec by done.
  rewrite !Z.gtb_ltb. case_test; [done|]. f_equal. unfold tag_room in Hroom.
  change logicalStep with 256 in *. unfold ordinal, MaxNodeID in Hid.
  change (Z.shiftl 1 IDBits) with 256 in Hid. unfold is_u32 in Hl.
  pose proof (Z.mod_pos_bound (Logical t) 256). apply u32_small. unfold is_u32. lia.
Qed.

Lemma nextTagged_least_lemma t id :
  ts_ok t → tag_room t → ordinal id →
  ts_lt t (nextTagged t id) ∧ Wall (nextTagged t id) = Wall t
  ∧ NodeOf (nextTagged t id) = id ∧ ts_ok (nextTagged t id)
  ∧ ∀ u, ts_lt t u → Wall u = Wall t → NodeOf u = id → ts_le (nextTagged t id) u.
Proof.
  intros Hok Hroom Hid. rewrite nextTagged_eq by done. destruct Hok as [Hw Hl].
  unfold tag_room in Hroom. change logicalStep with 256 in Hroom.
  unfold ordinal, MaxNodeID in Hid. change (Z.shiftl 1 IDBits) with 256 in Hid. unfold is_u32 in Hl.
  destruct t as [w l]. cbn in *. rewrite Z.gtb_ltb.
  pose proof (Z.mod_pos_bound l 256 ltac:(lia)) as Hm. pose proof (Z.div_mod l 256 ltac:(lia)) as Hd.
  set (q := l / 256) in *. set (x := l mod 256) in *.
  replace (l - x) with (q * 256) by lia.
  assert (Hmod : ∀ k, (k * 256 + id) mod 256 = id).
  { intros k. rewrite Z.add_comm, Z.mod_add by lia. apply Z.mod_small. lia. }
  split_and!.
  - right. cbn. split; [done|]. case_test; lia.
  - done.
  - rewrite NodeOf_spec. cbn. case_test; [apply Hmod|].
    replace (q * 256 + 256 + id) with ((q + 1) * 256 + id) by lia. apply Hmod.
  - split; cbn; [done|]. unfold is_u32. case_test; lia.
  - intros [w' l'] Hlt Hwu Hn. cbn in Hwu. subst w'. rewrite NodeOf_spec in Hn. cbn in Hn.
    destruct Hlt as [?|[_ Hlt]]; cbn in *; [lia|]. pose proof (Z.div_mod l' 256 ltac:(lia)) as Hd'.
    set (q' := l' / 256) in *.
    assert (Hle : (if l <? q * 256 + id then q * 256 + id else q * 256 + 256 + id) ≤ l').
    { case_test; nia. }
    destruct (Z.eq_dec (if l <? q * 256 + id then q * 256 + id else q * 256 + 256 + id) l') as [->|Hne];
      [by right|]. left. right. cbn. split; [done|lia].
Qed.

(** The tagging rule: above any timestamp whose counter has room,
    [nextTagged] is the least timestamp of the same wall reading that carries
    the node's ordinal and is strictly later. *)
Theorem nextTagged_least t id :
  ts_ok t → tag_room t → ordinal id →
  ts_lt t (nextTagged t id) ∧ Wall (nextTagged t id) = Wall t
  ∧ NodeOf (nextTagged t id) = id ∧ ts_ok (nextTagged t id)
  ∧ ∀ u, ts_lt t u → Wall u = Wall t → NodeOf u = id → ts_le (nextTagged t id) u.
Proof. apply nextTagged_least_lemma. Qed.

(** Where the counter has no room the rule wraps below the timestamp it must
    exceed, where [Next] carries into the wall reading. *)
Theorem nextTagged_wraps :
  let t := MkTimestamp 1 maxLogical in
  Less t (nextTagged t 7) = false ∧ Less t (Next t) = true.
Proof. vm_compute. auto. Qed.

Lemma Next_succ t :
  ts_ok t → Wall t < 2 ^ 63 - 1 →
  ts_lt t (Next t) ∧ ts_ok (Next t)
  ∧ ∀ u, ts_ok u → ts_lt t u → ts_le (Next t) u.
Proof.
  intros [Hw Hl] Hroom. destruct t as [w l]. unfold is_i64, is_u32 in *. cbn in *.
  unfold Next, maxLogical. cbn. destruct (l =? 2 ^ 32 - 1) eqn:E; bool_hyps.
  - rewrite i64_small by (unfold is_i64; lia). split_and!.
    + left. cbn. lia.
    + split; cbn; unfold is_i64, is_u32; lia.
    + intros [w' l'] [Hw' Hl'] [?|[? ?]]; cbn in *; unfold is_u32 in Hl'; [|lia].
      destruct (decide (w' = w + 1 ∧ l' = 0)) as [[-> ->]|Hn]; [by right|left].
      unfold ts_lt. cbn. lia.
  - rewrite u32_small by (unfold is_u32; lia). split_and!.
    + right. cbn. lia.
    + split; cbn; unfold is_i64, is_u32; lia.
    + intros [w' l'] _ [?|[? ?]]; cbn in *; [left; left; cbn; lia|].
      destruct (decide (l' = l + 1)) as [->|Hn]; [right; by subst|left]. right. cbn. lia.
Qed.

(** [Next] is the successor in the order of timestamps: strictly later, and
    nothing lies between; the carry into the wall reading included. *)
Theorem Next_successor t :
  ts_ok t → Wall t < 2 ^ 63 - 1 →
  ts_lt t (Next t) ∧ ts_ok (Next t)
  ∧ ∀ u, ts_ok u → ts_lt t u → ts_le (Next t) u.
Proof. apply Next_succ. Qed.

(** ** One call *)

Record clock_ok (c : Clock) : Prop := MkClockOk {
  co_last : ts_ok (c_last c);
  co_id : ordinal (c_id c);
}.

Lemma NodeOf_own w id : ordinal id → NodeOf (MkTimestamp w id) = id.
Proof.
  intros Hid. rewrite NodeOf_spec. cbn. unfold ordinal, MaxNodeID in Hid.
  change (Z.shiftl 1 IDBits) with 256 in Hid. apply Z.mod_small. lia.
Qed.

Lemma own_ok w id : is_i64 w → ordinal id → ts_ok (MkTimestamp w id).
Proof.
  intros Hw Hid. split; [done|]. cbn. unfold ordinal, MaxNodeID in Hid.
  change (Z.shiftl 1 IDBits) with 256 in Hid. unfold is_u32. lia.
Qed.

Lemma ts_le_lt_trans t u v : ts_le t u → ts_lt u v → ts_lt t v.
Proof. intros [?| ->] ?; [by etrans|done]. Qed.

Lemma Now_spec phys c :
  clock_ok c → is_i64 phys → tag_room (c_last c) →
  let '(t, c') := Now phys c in
  c_last c' = t ∧ ts_lt (c_last c) t ∧ NodeOf t = c_id c ∧ clock_ok c' ∧ c_id c' = c_id c
  ∧ phys ≤ Wall t ∧ Wall t = Z.max (Wall (c_last c)) phys.
Proof.
  intros [Hok Hid] Hp Hroom. unfold Now. destruct (Wall (c_last c) <? phys) eqn:E; bool_hyps.
  - split_and!; try done; cbn; try lia; [by left|by apply NodeOf_own|].
    split; cbn; [by apply own_ok|done].
  - destruct (nextTagged_least_lemma (c_last c) (c_id c) Hok Hroom Hid) as (Hlt & Hw & Hn & Ho & _).
    split_and!; try done; rewrite ?Hw; try lia.
Qed.

Lemma Update_spec phys off m c :
  clock_ok c → ts_ok m → is_i64 phys → is_i64 (Wall m - phys) →
  tag_room (c_last c) → tag_room m →
  let '(err, c') := Update phys off m c in
  clock_ok c' ∧ c_id c' = c_id c ∧
  if off <? Wall m - phys
  then is_Some err ∧ c_last c' = c_last c
  else err = None ∧ ts_lt (c_last c) (c_last c') ∧ ts_lt m (c_last c')
       ∧ NodeOf (c_last c') = c_id c
       ∧ Wall (c_last c') = Z.max (Z.max (Wall (c_last c)) (Wall m)) phys.
Proof.
  intros [Hok Hid] Hm Hp Hsub Hroom Hroomm. unfold Update, Wall_Sub.
  rewrite i64_small, Z.gtb_ltb by done. destruct (off <? Wall m - phys) eqn:E; bool_hyps.
  { split_and!; try done; eauto. }
  cbv zeta. pose proof (Max_spec (c_last c) m) as HM. revert HM.
  generalize (Max (c_last c) m). intros lb (H1 & H2 & H3).
  assert (Hlb : ts_ok lb ∧ tag_room lb) by (destruct H3 as [->| ->]; done).
  assert (Hwl : Wall lb = Z.max (Wall (c_last c)) (Wall m)).
  { unfold ts_le, ts_lt in *. destruct H3 as [H3|H3]; rewrite H3 in *;
      repeat match goal with H : _ ∨ _ |- _ => destruct H end; subst; try lia; congruence || lia. }
  destruct (Wall lb <? phys) eqn:Ew; bool_hyps; cbn.
  - split; [split; [by apply own_ok|done]|]. split; [done|]. split; [done|].
    assert (Hlt : ts_lt lb (MkTimestamp phys (c_id c))) by by left.
    split_and!; try (by eapply ts_le_lt_trans); [by apply NodeOf_own|cbn; lia].
  - destruct Hlb as [Hlo Hlr].
    destruct (nextTagged_least_lemma lb (c_id c) Hlo Hlr Hid) as (Hlt & Hw & Hn & Ho & _).
    split; [by split|]. split; [done|]. split; [done|]. rewrite Hw.
    split_and!; try (by eapply ts_le_lt_trans); [done|lia].
Qed.

(** ** Histories *)

Inductive event := Issued (t : Timestamp) | Absorbed (m : Timestamp).
Definition ev_ts (e : event) : Timestamp := match e with Issued t | Absorbed t => t end.

(** What a clock issues and absorbs over any sequence of calls whose physical
    readings stay at or below [P], whatever order they come in. *)
Inductive trace (P off : Z) (c0 : Clock) : list event → Clock → Prop :=
| tr_start : trace P off c0 [] c0
| tr_now h c phys t c' :
    trace P off c0 h c → is_i64 phys → phys ≤ P → tag_room (c_last c) →
    Now phys c = (t, c') → trace P off c0 (h ++ [Issued t]) c'
| tr_update h c phys m c' :
    trace P off c0 h c → is_i64 phys → phys ≤ P → ts_ok m → is_i64 (Wall m - phys) →
    tag_room (c_last c) → tag_room m →
    Update phys off m c = (None, c') → trace P off c0 (h ++ [Absorbed m]) c'
| tr_refused h c phys m e c' :
    trace P off c0 h c → Update phys off m c = (Some e, c') → trace P off c0 h c'.

Lemma refused_last phys off m c e c' :
  Update phys off m c = (Some e, c') → c_last c' = c_last c ∧ c_id c' = c_id c.
Proof. unfold Update. case_test; [by intros [= _ <-]|]. by intros [=]. Qed.

Definition ordered (h : list event) : Prop :=
  ∀ i j e t, (i < j)%nat → h !! i = Some e → h !! j = Some (Issued t) → ts_lt (ev_ts e) t.

Lemma ordered_snoc h e :
  ordered h → (∀ t, e = Issued t → Forall (λ x, ts_lt (ev_ts x) t) h) → ordered (h ++ [e]).
Proof.
  intros Ho He i j x t Hij Hi Hj. rewrite lookup_app in Hj.
  destruct (h !! j) as [y|] eqn:Ej.
  - apply lookup_lt_Some in Ej as Hlt. rewrite lookup_app_l in Hi by lia. injection Hj as ->.
    by apply (Ho i j).
  - apply lookup_ge_None in Ej. apply list_lookup_singleton_Some in Hj as [Hk ->].
    rewrite lookup_app_l in Hi by lia. specialize (He t eq_refl).
    by eapply Forall_lookup_1 in He; [|exact Hi].
Qed.

Lemma trace_inv P off c0 h c :
  clock_ok c0 → trace P off c0 h c →
  clock_ok c ∧ c_id c = c_id c0 ∧ ordered h ∧ Forall (λ e, ts_le (ev_ts e) (c_last c)) h
  ∧ (∀ t, Issued t ∈ h → NodeOf t = c_id c0)
  ∧ Wall (c_last c) ≤ Z.max (Wall (c_last c0)) (P + Z.max 0 off).
Proof.
  intros H0 Ht. induction Ht as [|h c phys t c' Ht IH Hp HP Hr HN|h c phys m c' Ht IH Hp HP Hm Hs Hr Hrm HU
    |h c phys m e c' Ht IH HU].
  - split; [done|]. split; [done|]. split; [intros i j e t _ Hi; by rewrite lookup_nil in Hi|].
    split; [constructor|]. split; [|lia]. intros t Hin. by apply elem_of_nil in Hin.
  - destruct IH as (Hc & Hid & Ho & Hle & Hn & Hw). pose proof (Now_spec phys c Hc Hp Hr) as HS.
    rewrite HN in HS. destruct HS as (Hl & Hlt & Hnode & Hc' & Hid' & _ & Hwt).
    assert (Hall : Forall (λ x, ts_lt (ev_ts x) t) h).
    { eapply Forall_impl; [exact Hle|]. intros x Hx. cbn in Hx. by eapply ts_le_lt_trans. }
    split_and!; [done|congruence| | | |].
    + apply ordered_snoc; [done|]. by intros ? [= <-].
    + apply Forall_app. split; [|constructor; [right; by rewrite Hl|constructor]].
      eapply Forall_impl; [exact Hall|]. intros x Hx. left. by rewrite Hl.
    + intros u [Hu|Hu%list_elem_of_singleton]%elem_of_app; [by apply Hn|]. injection Hu as ->. congruence.
    + rewrite Hl, Hwt. lia.
  - destruct IH as (Hc & Hid & Ho & Hle & Hn & Hw).
    pose proof (Update_spec phys off m c Hc Hm Hp Hs Hr Hrm) as HS. rewrite HU in HS.
    destruct HS as (Hc' & Hid' & HS). destruct (off <? Wall m - phys) eqn:E; bool_hyps.
    { by destruct HS as [[] _]. }
    destruct HS as (_ & Hlt & Hmlt & Hnode & Hwt).
    split_and!; [done|congruence| | | |].
    + apply ordered_snoc; [done|]. by intros ? [=].
    + apply Forall_app. split; [|constructor; [by left|constructor]].
      eapply Forall_impl; [exact Hle|]. intros x Hx. cbn in Hx. left. by eapply ts_le_lt_trans.
    + intros u [Hu|Hu%list_elem_of_singleton]%elem_of_app; [by apply Hn|done].
    + rewrite Hwt. lia.
  - destruct IH as (Hc & Hid & Ho & Hle & Hn & Hw). apply refused_last in HU as [Hl Hi].
    destruct Hc as [Hc1 Hc2]. rewrite Hl, Hi. split_and!; try done. split; congruence.
Qed.

(** C12. The promise of a timestamp source: whatever the physical readings do --
    backwards steps included -- every timestamp a clock issues is strictly later
    than every one it issued or absorbed before, as long as at every call the 32-bit
    counters it builds on have room for two more steps ([tag_room]; without it the
    counter wraps, [nextTagged_wraps]) and a peer's wall reading differs from the
    physical one by less than 2^63. *)
Theorem clock_monotone P off c0 h c i j e t :
  clock_ok c0 → trace P off c0 h c → (i < j)%nat →
  h !! i = Some e → h !! j = Some (Issued t) → ts_lt (ev_ts e) t.
Proof. intros H0 Ht. apply trace_inv in Ht as (_ & _ & Ho & _); [|done]. by apply Ho. Qed.

(** Two clocks with different ordinals never issue the same timestamp. *)
Theorem clocks_disjoint P1 off1 c1 h1 c1' P2 off2 c2 h2 c2' t1 t2 :
  clock_ok c1 → clock_ok c2 → c_id c1 ≠ c_id c2 →
  trace P1 off1 c1 h1 c1' → trace P2 off2 c2 h2 c2' →
  Issued t1 ∈ h1 → Issued t2 ∈ h2 → t1 ≠ t2.
Proof.
  intros H1 H2 Hne T1 T2 I1 I2 ->. apply trace_inv in T1 as (_ & _ & _ & _ & N1 & _); [|done].
  apply trace_inv in T2 as (_ & _ & _ & _ & N2 & _); [|done]. apply Hne.
  by rewrite <- (N1 t2 I1), <- (N2 t2 I2).
Qed.

(** The envelope: however many peer timestamps a clock absorbs, its wall
    reading never runs more than the bound ahead of the highest physical reading
    it has taken (or of where it started). *)
Theorem clock_envelope P off c0 h c :
  clock_ok c0 → 0 ≤ off → trace P off c0 h c →
  Wall (c_last c) ≤ Z.max (Wall (c_last c0)) (P + off).
Proof. intros H0 Hoff Ht. apply trace_inv in Ht as (_ & _ & _ & _ & _ & Hw); [|done]. lia. Qed.

(** ** The theorems at work *)

Lemma nextTagged_least_witness :
  nextTagged (MkTimestamp 100 258) 2 = MkTimestamp 100 514
  ∧ ts_lt (MkTimestamp 100 258) (nextTagged (MkTimestamp 100 258) 2).
Proof.
  split; [reflexivity|].
  apply (nextTagged_least (MkTimestamp 100 258) 2); by vm_compute.
Defined.

Lemma Next_successor_witness :
  Next (MkTimestamp 7 maxLogical) = MkTimestamp 8 0
  ∧ ts_lt (MkTimestamp 7 maxLogical) (Next (MkTimestamp 7 maxLogical)).
Proof. split; [reflexivity|]. apply (Next_successor (MkTimestamp 7 maxLogical)); by vm_compute. Defined.

(** Node 1 reads its clock, the physical clock steps back, it absorbs a peer's
    timestamp and reads again. *)
Definition clock1 : Clock := MkClock zeroTimestamp 1 0 0.
Definition clock2 : Clock := MkClock zeroTimestamp 2 0 0.
Definition clock1_a : Clock := snd (Now 100 clock1).
Definition clock1_b : Clock := snd (Update 90 50 (MkTimestamp 120 2) clock1_a).
Definition clock1_c : Clock := snd (Now 95 clock1_b).
Definition history1 : list event :=
  [Issued (MkTimestamp 100 1); Absorbed (MkTimestamp 120 2); Issued (MkTimestamp 120 513)].

Lemma trace1 : trace 100 50 clock1 history1 clock1_c.
Proof.
  change history1 with (([Issued (MkTimestamp 100 1)] ++ [Absorbed (MkTimestamp 120 2)])
                        ++ [Issued (MkTimestamp 120 513)]).
  eapply (tr_now _ _ _ _ clock1_b 95); try by vm_compute.
  eapply (tr_update _ _ _ _ clock1_a 90); try by vm_compute.
  eapply (tr_now _ _ _ [] clock1 100); try by vm_compute. constructor.
Qed.

Lemma clock1_ok : clock_ok clock1.
Proof. split; by vm_compute. Qed.

Lemma clock_monotone_witness : ts_lt (MkTimestamp 120 2) (MkTimestamp 120 513).
Proof.
  apply (clock_monotone 100 50 clock1 history1 clock1_c 1 2 (Absorbed (MkTimestamp 120 2)));
    [exact clock1_ok|exact trace1|lia|reflexivity|reflexivity].
Defined.

Lemma clocks_disjoint_witness : MkTimestamp 100 1 ≠ MkTimestamp 100 2.
Proof.
  apply (clocks_disjoint 100 50 clock1 history1 clock1_c 100 50 clock2
           ([] ++ [Issued (MkTimestamp 100 2)]) (snd (Now 100 clock2))).
  - exact clock1_ok.
  - split; by vm_compute.
  - done.
  - exact trace1.
  - eapply (tr_now _ _ _ [] clock2 100); try by vm_compute. constructor.
  - by left.
  - by left.
Defined.

Lemma clock_envelope_witness : Wall (c_last clock1_c) = 120 ∧ Wall (c_last clock1_c) ≤ 150.
Proof.
  split; [reflexivity|]. apply (clock_envelope 100 50 clock1 history1 clock1_c);
    [exact clock1_ok|lia|exact trace1].
Defined.
