(* ===== verification/ClockTimeline.v ===== *)
(** * The physical clocks of a run (clock/clock.go, timeline.go, skew.go, hold.go, sim.go)

    A node's clock as a function of global virtual time: a piecewise-linear
    oscillator, steps of the wall reading, restarts; the inverse that schedules
    ticks; the checker that measures how far two clocks drift apart; and the
    compilation of an authored hold into segments or steps.  All arithmetic is
    64-bit: sums wrap, and [mulDiv] panics ([None]) when its quotient does not fit.
    The hybrid clock of [Hlc] reads these. *)

From Stdlib Require Import Lia ZArith.
From stdpp Require Import base tactics numbers option list sets.
From S2P Require Import Prelude.

(** ** Data *)

(** Parts per billion, the unit of a slope. *)
Definition ppb : Z := 1000000000.

Record Segment := MkSegment { sg_Start : Z; sg_Off : Z; sg_SlopePPB : Z }.
(** A correction of the wall reading alone. *)
Record WallStep := MkWallStep { ws_At : Z; ws_Delta : Z }.

Record Timeline := MkTimeline {
  tl_Skew : list Segment;
  tl_Steps : list WallStep;
  tl_Boots : list Z;
  tl_Epoch : Z;
}.

Definition DefaultEpoch : Z := 1600000000000000000.

Inductive ClockError :=
| errNoSegments | errFirstStart | errZeroEpoch | errBackwards (i : nat) | errUnsortedSegment (i : nat)
| errDiscontinuous (i : nat) | errUnsortedStep (i : nat) | errUnsortedBoot (i : nat)
| errNegativeOffset
| errRealizeUnset | errEmptyWindow | errNegativeRamp | errRampBeforeZero | errSegmentCollision (at_ : Z)
| errDrifting (at_ : Z) | errStepCollision (at_ : Z) | errZeroRamp | errTooSteep.

(** ** Exact products *)

Definition absU64 (v : Z) (neg : bool) : Z * bool := if v <? 0 then (u64 (i64 (- v)), negb neg) else (u64 v, neg).

Definition mulDiv (a b d : Z) : option Z :=
  if d =? 0 then None
  else
    let '(ua, neg) := absU64 a false in
    let '(ub, neg) := absU64 b neg in
    let '(ud, neg) := absU64 d neg in
    let hi := ua * ub / 2 ^ 64 in
    if hi >=? ud then None
    else
      let q := ua * ub / ud in
      Some (if neg : bool then i64 (- i64 q) else i64 q).

Definition mulDivCeil (a b d : Z) : option Z :=
  if (a <? 0) || (b <? 0) || (d <=? 0) then None
  else if a * b / 2 ^ 64 >=? d then None
  else
    let q := a * b / d in
    let q := if negb (a * b mod d =? 0) then u64 (q + 1) else q in
    Some (i64 q).

Definition abs64 (v : Z) : Z := if v <? 0 then i64 (- v) else v.

(** ** Readings *)

Definition offsetIn (seg : Segment) (t : Z) : option Z :=
  m ← mulDiv (sg_SlopePPB seg) (i64 (t - sg_Start seg)) ppb;
  Some (i64 (sg_Off seg + m)).

(** The last segment that starts at or before [t], from [cur] on. *)
Fixpoint segmentAt (t : Z) (cur : Segment) (ss : list Segment) : Segment :=
  match ss with
  | [] => cur
  | s :: ss => if sg_Start s >? t then cur else segmentAt t s ss
  end.

Definition skewAt (tl : Timeline) (t : Z) : option Z :=
  match tl_Skew tl with
  | [] => None
  | s :: _ => offsetIn (segmentAt t s (tl_Skew tl)) t
  end.

Definition osc (tl : Timeline) (t : Z) : option Z := s ← skewAt tl t; Some (i64 (t + s)).

Fixpoint bootFrom (start t : Z) (bs : list Z) : Z :=
  match bs with
  | [] => start
  | b :: bs => if b >? t then start else bootFrom b t bs
  end.
Definition BootAt (tl : Timeline) (t : Z) : Z := bootFrom 0 t (tl_Boots tl).

Definition timeline_Mono (tl : Timeline) (t : Z) : option Z :=
  a ← osc tl t; b ← osc tl (BootAt tl t); Some (i64 (a - b)).

Fixpoint sumSteps (t : Z) (inclusive : bool) (sum : Z) (ss : list WallStep) : Z :=
  match ss with
  | [] => sum
  | s :: ss =>
      if (ws_At s >? t) || (negb inclusive && (ws_At s =? t)) then sum
      else sumSteps t inclusive (i64 (sum + ws_Delta s)) ss
  end.
Definition stepsThrough (tl : Timeline) (t : Z) (inclusive : bool) : Z := sumSteps t inclusive 0 (tl_Steps tl).

Definition timeline_Wall (tl : Timeline) (t : Z) : option Z :=
  o ← osc tl t; Some (i64 (i64 (tl_Epoch tl + o) + stepsThrough tl t true)).
Definition WallLimit (tl : Timeline) (t : Z) : option Z :=
  o ← osc tl t; Some (i64 (i64 (tl_Epoch tl + o) + stepsThrough tl t false)).

(** ** Validation *)

(** Each segment against the one before it; [i] is its position. *)
Fixpoint validateSkew (i : nat) (prev : option Segment) (ss : list Segment) : option (option ClockError) :=
  match ss with
  | [] => Some None
  | s :: ss =>
      if sg_SlopePPB s <=? - ppb then Some (Some (errBackwards i))
      else match prev with
      | None => validateSkew (S i) (Some s) ss
      | Some p =>
          if sg_Start s <=? sg_Start p then Some (Some (errUnsortedSegment i))
          else
            want ← offsetIn p (sg_Start s);
            if negb (want =? sg_Off s) then Some (Some (errDiscontinuous i)) else validateSkew (S i) (Some s) ss
      end
  end.

(** The first position at which consecutive values are out of order. *)
Fixpoint unsorted (bad : Z → Z → bool) (i : nat) (xs : list Z) : option nat :=
  match xs with
  | x :: (y :: _) as rest => if bad y x then Some (S i) else unsorted bad (S i) rest
  | _ => None
  end.

Definition Validate (tl : Timeline) : option (option ClockError) :=
  match tl_Skew tl with
  | [] => Some (Some errNoSegments)
  | s0 :: _ =>
      if negb (sg_Start s0 =? 0) then Some (Some errFirstStart)
      else if tl_Epoch tl =? 0 then Some (Some errZeroEpoch)
      else
        e ← validateSkew 0 None (tl_Skew tl);
        match e with
        | Some e => Some (Some e)
        | None =>
            match unsorted Z.ltb 0 (ws_At <$> tl_Steps tl) with
            | Some i => Some (Some (errUnsortedStep i))
            | None =>
                match unsorted Z.leb 0 (tl_Boots tl) with
                | Some i => Some (Some (errUnsortedBoot i))
                | None => Some None
                end
            end
        end
  end.

(** ** Ticks *)

(** The loop of [solveOsc]: the segment, and the one after it. *)
Fixpoint solveIn (target : Z) (ss : list Segment) : option Z :=
  match ss with
  | [] => None
  | seg :: rest =>
      let rel := i64 (i64 (target - sg_Start seg) - sg_Off seg) in
      if rel <? 0 then Some (sg_Start seg)
      else
        dt ← mulDivCeil rel ppb (i64 (ppb + sg_SlopePPB seg));
        let at_ := i64 (sg_Start seg + dt) in
        match rest with
        | [] => Some at_
        | next :: _ => if at_ <? sg_Start next then Some at_ else solveIn target rest
        end
  end.
Definition solveOsc (tl : Timeline) (target : Z) : option Z := solveIn target (tl_Skew tl).

Fixpoint bootAfter (t : Z) (bs : list Z) : option Z :=
  match bs with
  | [] => None
  | b :: bs => if b >? t then Some b else bootAfter t bs
  end.
Definition nextBootAfter (tl : Timeline) (t : Z) : option Z := bootAfter t (tl_Boots tl).

(** The loop of [NextTick]: an iteration ends it, or starts again at a later
    boot.  The inner [None] is a loop cut short by its fuel. *)
Fixpoint tickLoop (fuel : nat) (tl : Timeline) (t iv : Z) : option (option (Z * Z)) :=
  match fuel with
  | O => Some None
  | S fuel =>
      let boot := BootAt tl t in
      mono ← timeline_Mono tl t;
      base ← osc tl boot;
      let ordinal := i64 (Z.quot mono iv + 1) in
      at_ ← solveOsc tl (i64 (base + i64 (ordinal * iv)));
      '(at_, ordinal) ← (if at_ <=? t
                         then at_ ← solveOsc tl (i64 (base + i64 (i64 (ordinal + 1) * iv))); Some (at_, i64 (ordinal + 1))
                         else Some (at_, ordinal));
      match nextBootAfter tl t with
      | None => Some (Some (at_, ordinal))
      | Some next => if at_ <? next then Some (Some (at_, ordinal)) else tickLoop fuel tl next iv
      end
  end.
Definition NextTick (tl : Timeline) (t interval : Z) : option (option (Z * Z)) :=
  if interval <=? 0 then None else tickLoop (S (length (tl_Boots tl))) tl t interval.

(** ** Skew *)

Definition Breakpoints (tl : Timeline) (from to : Z) : list Z :=
  from :: filter (λ x, from < x < to) (sg_Start <$> tl_Skew tl)
    ++ filter (λ x, from < x < to) (ws_At <$> tl_Steps tl) ++ [to].

(** The body of the merge appends unless the last point is the same. *)
Definition addPoint (out : list Z) (next : Z) : list Z :=
  match last out with
  | Some l => if l =? next then out else out ++ [next]
  | None => [next]
  end.

Fixpoint mergeFrom (fuel : nat) (out x y : list Z) : list Z :=
  match fuel with
  | O => out
  | S fuel =>
      match x, y with
      | [], [] => out
      | a :: x', [] => mergeFrom fuel (addPoint out a) x' []
      | [], b :: y' => mergeFrom fuel (addPoint out b) [] y'
      | a :: x', b :: y' => if a <=? b then mergeFrom fuel (addPoint out a) x' y else mergeFrom fuel (addPoint out b) x y'
      end
  end.
Definition mergePoints (x y : list Z) : list Z := mergeFrom (length x + length y) [] x y.

Definition consider (d t : Z) (best : Z * Z) : Z * Z :=
  let d := if d <? 0 then i64 (- d) else d in
  if d >? fst best then (d, t) else best.

Definition skewPoint (a b : Timeline) (from : Z) (best : Z * Z) (t : Z) : option (Z * Z) :=
  wa ← timeline_Wall a t;
  wb ← timeline_Wall b t;
  let best := consider (i64 (wa - wb)) t best in
  if t >? from then
    la ← WallLimit a t;
    lb ← WallLimit b t;
    Some (consider (i64 (la - lb)) t best)
  else Some best.

Definition MaxSkew (a b : Timeline) (from to : Z) : option (Z * Z) :=
  foldM (skewPoint a b from) (-1, 0) (mergePoints (Breakpoints a from to) (Breakpoints b from to)).

Record SkewReport := MkSkewReport { sr_Max : Z; sr_At : Z; sr_Bound : Z; sr_Exceeded : bool }.
Definition skew_Check (a b : Timeline) (from to maxOffset : Z) : option SkewReport :=
  '(max, at_) ← MaxSkew a b from to;
  Some (MkSkewReport max at_ maxOffset (max >? maxOffset)).

(** ** Holds *)

Inductive Realization := RealizeUnset | SlewHold | StepHold.
#[global] Instance Realization_eq_dec : EqDecision Realization.
Proof. solve_decision. Defined.

Record Hold := MkHold {
  h_A : Z; h_B : Z; h_AtPPB : Z; h_From : Z; h_To : Z; h_Ramp : Z; h_Realize : Realization; h_Envelope : bool;
}.

(** The segment in force at [from]; one that starts inside the window is an
    error. *)
Fixpoint forceIn (from to : Z) (cur : Segment) (ss : list Segment) : result ClockError Segment :=
  match ss with
  | [] => Ok cur
  | s :: ss =>
      if sg_Start s <=? from then forceIn from to s ss
      else if sg_Start s <=? to then Err (errSegmentCollision (sg_Start s))
      else forceIn from to cur ss
  end.

Definition baseOffsetFor (base : Timeline) (from to : Z) : option (result ClockError Z) :=
  match tl_Skew base with
  | [] => None
  | s0 :: _ =>
      match forceIn from to s0 (tl_Skew base) with
      | Err e => Some (Err e)
      | Ok seg =>
          if negb (sg_SlopePPB seg =? 0) then Some (Err (errDrifting (sg_Start seg)))
          else match List.find (λ s, (from <=? ws_At s) && (ws_At s <=? to)) (tl_Steps base) with
          | Some s => Some (Err (errStepCollision (ws_At s)))
          | None => off ← offsetIn seg from; Some (Ok off)
          end
      end
  end.

Fixpoint insertStep (steps : list WallStep) (s : WallStep) : list WallStep :=
  match steps with
  | [] => [s]
  | x :: xs => if ws_At x <=? ws_At s then x :: insertStep xs s else s :: x :: xs
  end.

Definition validated (out : Timeline) (r : Realization) : option (result ClockError (Timeline * Realization)) :=
  e ← Validate out;
  Some (match e with Some e => Err e | None => Ok (out, r) end).

(** A ramp that begins where the last segment begins replaces it. *)
Definition dropTied (ss : list Segment) (start : Z) : list Segment :=
  match last ss with
  | Some s => if sg_Start s =? start then removelast ss else ss
  | None => ss
  end.

Definition Compile (h : Hold) (base : Timeline) (maxOffset : Z) : option (result ClockError (Timeline * Realization)) :=
  if bool_decide (h_Realize h = RealizeUnset) then Some (Err errRealizeUnset)
  else if h_From h >=? h_To h then Some (Err errEmptyWindow)
  else if h_Ramp h <? 0 then Some (Err errNegativeRamp)
  else
    let start := i64 (h_From h - h_Ramp h) in
    if start <? 0 then Some (Err errRampBeforeZero)
    else
      off ← baseOffsetFor base start (i64 (h_To h + h_Ramp h));
      match off with
      | Err e => Some (Err e)
      | Ok baseOff =>
          target ← mulDiv maxOffset (h_AtPPB h) ppb;
          if bool_decide (h_Realize h = StepHold) then
            let steps := insertStep (tl_Steps base) (MkWallStep (h_From h) target) in
            let steps := insertStep steps (MkWallStep (h_To h) (i64 (- target))) in
            validated (MkTimeline (tl_Skew base) steps (tl_Boots base) (tl_Epoch base)) StepHold
          else if h_Ramp h <=? 0 then Some (Err errZeroRamp)
          else if abs64 target >=? h_Ramp h then Some (Err errTooSteep)
          else
            rate ← mulDiv target ppb (h_Ramp h);
            let ramp := [MkSegment start baseOff rate;
                         MkSegment (h_From h) (i64 (baseOff + target)) 0;
                         MkSegment (h_To h) (i64 (baseOff + target)) (i64 (- rate));
                         MkSegment (i64 (h_To h + h_Ramp h)) baseOff 0] in
            validated (MkTimeline (dropTied (tl_Skew base) start ++ ramp) (tl_Steps base) (tl_Boots base) (tl_Epoch base)) SlewHold
      end.

(** ** The simulated clock *)

Record Sim := MkSim { si_tl : Timeline; si_now : Z; si_maxOffset : Z }.

Definition NewSim (tl : Timeline) (maxOffset : Z) : option (result ClockError Sim) :=
  e ← Validate tl;
  Some (match e with
        | Some e => Err e
        | None => if maxOffset <? 0 then Err errNegativeOffset else Ok (MkSim tl 0 maxOffset)
        end).
Definition Sim_Advance (t : Z) (s : Sim) : option Sim :=
  if t <? si_now s then None else Some (MkSim (si_tl s) t (si_maxOffset s)).
Definition Sim_Mono (s : Sim) : option Z := timeline_Mono (si_tl s) (si_now s).
Definition Sim_Wall (s : Sim) : option Z := timeline_Wall (si_tl s) (si_now s).
Definition Sim_NextTick (interval : Z) (s : Sim) : option (option (Z * Z)) := NextTick (si_tl s) (si_now s) interval.

Definition Flat : Timeline := MkTimeline [MkSegment 0 0 0] [] [] DefaultEpoch.
Definition Drifting (ppm : Z) : Timeline := MkTimeline [MkSegment 0 0 (i64 (ppm * 1000))] [] [] DefaultEpoch.

Definition AssertUniformMaxOffset (offsets : list Z) : bool :=
  match offsets with [] => true | want :: rest => forallb (λ got, got =? want) rest end.

(** ** The arithmetic without its width *)

Definition offZ (seg : Segment) (t : Z) : Z := sg_Off seg + Z.quot (sg_SlopePPB seg * (t - sg_Start seg)) ppb.
Definition oscZ (seg : Segment) (t : Z) : Z := t + offZ seg t.

Lemma i64_abs v : is_i64 v → u64 (i64 (Z.abs v)) = Z.abs v.
Proof.
  unfold is_i64. intros Hv. destruct (decide (Z.abs v = 2 ^ 63)) as [->|]; [by vm_compute|].
  rewrite i64_small by (unfold is_i64; lia). apply u64_small. unfold is_u64. lia.
Qed.

Lemma absU64_spec v neg : is_i64 v → absU64 v neg = (Z.abs v, xorb neg (v <? 0)).
Proof.
  intros Hv. unfold absU64. case_test.
  - replace (- v) with (Z.abs v) by lia. rewrite i64_abs by done. by destruct neg.
  - rewrite u64_small by (unfold is_u64, is_i64 in *; lia). rewrite Z.abs_eq, xorb_false_r by lia. done.
Qed.

Lemma mulDiv_exact a b d :
  is_i64 a → is_i64 b → is_i64 d → 0 < d → Z.abs (a * b) < 2 ^ 63 * d → mulDiv a b d = Some (Z.quot (a * b) d).
Proof.
  intros Ha Hb Hd Hpos Hfit. unfold mulDiv. rewrite !absU64_spec by done.
  case_test; [lia|]. assert (Hnd : (d <? 0) = false) by (apply Z.ltb_ge; lia). rewrite Hnd, (Z.abs_eq d) by lia. rewrite <- Z.abs_mul, xorb_false_r.
  assert (Hhi : Z.abs (a * b) / 2 ^ 64 < d) by (apply Z.div_lt_upper_bound; lia).
  rewrite Z.geb_leb. case_test; [lia|].
  assert (Hq : 0 ≤ Z.abs (a * b) / d < 2 ^ 63) by (split; [apply Z.div_pos; lia|apply Z.div_lt_upper_bound; lia]).
  rewrite (i64_small (Z.abs (a * b) / d)) by (unfold is_i64; lia). f_equal. cbn [xorb].
  assert (Hqd : Z.quot (Z.abs (a * b)) d = Z.abs (a * b) / d) by (apply Z.quot_div_nonneg; lia).
  destruct (a <? 0) eqn:E1, (b <? 0) eqn:E2; cbn [xorb]; bool_hyps.
  - rewrite <- Hqd, Z.abs_eq; [done|nia].
  - rewrite i64_small by (unfold is_i64; lia). rewrite <- Hqd, Z.abs_neq by nia. rewrite Z.quot_opp_l by lia. lia.
  - rewrite i64_small by (unfold is_i64; lia). rewrite <- Hqd, Z.abs_neq by nia. rewrite Z.quot_opp_l by lia. lia.
  - rewrite <- Hqd, Z.abs_eq; [done|nia].
Qed.

(** *** One segment *)

(** How far a slope carries: never backwards, and never further than doubling. *)
Lemma carry_bounds s dt : - ppb < s ≤ ppb → 0 ≤ dt → - dt ≤ Z.quot (s * dt) ppb ≤ dt.
Proof.
  intros Hs Hd. unfold ppb in *. destruct (decide (0 ≤ s)) as [H|H].
  - rewrite Z.quot_div_nonneg by nia. split; [|apply Z.div_le_upper_bound; nia].
    assert (0 ≤ s * dt / 1000000000) by (apply Z.div_pos; nia). lia.
  - replace (s * dt) with (- (- s * dt)) by lia. rewrite Z.quot_opp_l, Z.quot_div_nonneg by nia.
    assert (0 ≤ - s * dt / 1000000000) by (apply Z.div_pos; nia).
    assert (- s * dt / 1000000000 ≤ dt) by (apply Z.div_le_upper_bound; nia). lia.
Qed.

Lemma carry_mono s d d' :
  - ppb < s → 0 ≤ d ≤ d' → d + Z.quot (s * d) ppb ≤ d' + Z.quot (s * d') ppb.
Proof.
  intros Hs Hd. unfold ppb in *. destruct (decide (0 ≤ s)) as [H|H].
  - rewrite !Z.quot_div_nonneg by nia. assert (s * d / 1000000000 ≤ s * d' / 1000000000) by (apply Z.div_le_mono; nia). lia.
  - replace (s * d) with (- (- s * d)) by lia. replace (s * d') with (- (- s * d')) by lia.
    rewrite !Z.quot_opp_l, !Z.quot_div_nonneg by nia.
    assert (- s * d' / 1000000000 ≤ (- s * d + (d' - d) * 1000000000) / 1000000000) by (apply Z.div_le_mono; nia).
    rewrite Z.div_add in H0 by lia. lia.
Qed.

Lemma oscZ_mono seg t t' : - ppb < sg_SlopePPB seg → sg_Start seg ≤ t ≤ t' → oscZ seg t ≤ oscZ seg t'.
Proof.
  intros Hs Ht. unfold oscZ, offZ. pose proof (carry_mono _ (t - sg_Start seg) (t' - sg_Start seg) Hs). lia.
Qed.

Lemma offZ_start seg : offZ seg (sg_Start seg) = sg_Off seg.
Proof. unfold offZ. rewrite Z.sub_diag, Z.mul_0_r, Z.quot_0_l by (unfold ppb; lia). lia. Qed.

(** *** Chains of segments *)

Fixpoint chained (cur : Segment) (ss : list Segment) : Prop :=
  - ppb < sg_SlopePPB cur
  ∧ match ss with
    | [] => True
    | s :: ss => sg_Start cur < sg_Start s ∧ offZ cur (sg_Start s) = sg_Off s ∧ chained s ss
    end.

Definition skewZ (cur : Segment) (ss : list Segment) (t : Z) : Z := offZ (segmentAt t cur ss) t.

Lemma segmentAt_start t cur ss : sg_Start cur ≤ t → sg_Start (segmentAt t cur ss) ≤ t.
Proof.
  revert cur. induction ss as [|s ss IH]; intros cur Hc; cbn [segmentAt]; [done|]. rewrite Z.gtb_ltb. case_test; [done|]. apply IH. lia.
Qed.
Lemma segmentAt_in t cur ss : segmentAt t cur ss ∈ cur :: ss.
Proof.
  revert cur. induction ss as [|s ss IH]; intros cur; cbn [segmentAt]; [left|]. case_test; [left|]. right. apply IH.
Qed.

(** The oscillator never falls below where the segment in force began. *)
Lemma skewZ_above cur ss t : chained cur ss → sg_Start cur ≤ t → sg_Start cur + sg_Off cur ≤ t + skewZ cur ss t.
Proof.
  revert cur. unfold skewZ. induction ss as [|s ss IH]; intros cur Hc Ht; cbn [segmentAt].
  - destruct Hc as [Hs _]. pose proof (oscZ_mono cur (sg_Start cur) t Hs). unfold oscZ in *. rewrite offZ_start in *. lia.
  - destruct Hc as (Hs & Hlt & Hoff & Hc). rewrite Z.gtb_ltb. case_test.
    + pose proof (oscZ_mono cur (sg_Start cur) t Hs). unfold oscZ in *. rewrite offZ_start in *. lia.
    + assert (sg_Start s + sg_Off s ≤ t + offZ (segmentAt t s ss) t) by (apply IH; [done|lia]).
      pose proof (oscZ_mono cur (sg_Start cur) (sg_Start s) Hs). unfold oscZ in *. rewrite offZ_start, Hoff in *. lia.
Qed.

Lemma skewZ_mono cur ss t t' :
  chained cur ss → sg_Start cur ≤ t ≤ t' → t + skewZ cur ss t ≤ t' + skewZ cur ss t'.
Proof.
  revert cur. unfold skewZ. induction ss as [|s ss IH]; intros cur Hc Ht; cbn [segmentAt].
  - apply oscZ_mono; [apply Hc|lia].
  - destruct Hc as (Hs & Hlt & Hoff & Hc). rewrite !Z.gtb_ltb. do 2 case_test.
    + apply oscZ_mono; [done|lia].
    + pose proof (oscZ_mono cur t (sg_Start s) Hs). pose proof (skewZ_above s ss t' Hc). unfold oscZ, skewZ in *. rewrite Hoff in *. lia.
    + lia.
    + apply IH; [done|lia].
Qed.

(** Between two points with no segment start strictly inside, one segment rules,
    up to and including the second point. *)
Lemma segmentAt_same cur ss p u :
  sg_Start cur ≤ p ≤ u → (∀ s, s ∈ ss → ¬ p < sg_Start s ≤ u) → segmentAt u cur ss = segmentAt p cur ss.
Proof.
  revert cur. induction ss as [|s ss IH]; intros cur Hp Hn; cbn [segmentAt]; [done|].
  pose proof (Hn s ltac:(left)). rewrite !Z.gtb_ltb. do 2 case_test; try lia; [done|].
  apply IH; [lia|]. intros x Hx. apply Hn. by right.
Qed.

Lemma skewZ_extends cur ss p q :
  chained cur ss → sg_Start cur ≤ p < q → (∀ s, s ∈ ss → ¬ p < sg_Start s < q) →
  skewZ cur ss q = offZ (segmentAt p cur ss) q.
Proof.
  revert cur. unfold skewZ. induction ss as [|s ss IH]; intros cur Hc Hp Hn; cbn [segmentAt]; [done|].
  destruct Hc as (Hs & Hlt & Hoff & Hc). pose proof (Hn s ltac:(left)). rewrite !Z.gtb_ltb.
  destruct (Z.ltb_spec q (sg_Start s)), (Z.ltb_spec p (sg_Start s)); [done|lia| |].
  - assert (sg_Start s = q) by lia. subst q. rewrite Hoff.
    assert (Hsame : segmentAt (sg_Start s) s ss = s).
    { destruct ss as [|x ss]; [done|]. cbn [segmentAt]. rewrite Z.gtb_ltb. destruct Hc as (_ & Hx & _). case_test; [done|lia]. }
    rewrite Hsame. apply offZ_start.
  - apply IH; [done|lia|]. intros x Hx. apply Hn. by right.
Qed.

(** ** Sane timelines

    The bounds under which no reading wraps: about nine years of nanoseconds, and
    an oscillator that runs at most twice as fast as real time. *)

Definition horizon : Z := 2 ^ 58.

Definition stepWeight (ss : list WallStep) : Z := foldr (λ s w, Z.abs (ws_Delta s) + w) 0 ss.

Definition seg_sane (s : Segment) : Prop :=
  Z.abs (sg_Off s) ≤ horizon ∧ sg_SlopePPB s ≤ ppb ∧ is_i64 (sg_SlopePPB s) ∧ sg_Start s ≤ horizon.

Record sane (tl : Timeline) : Prop := MkSane {
  sn_valid : Validate tl = Some None;
  sn_segs : Forall seg_sane (tl_Skew tl);
  sn_steps : stepWeight (tl_Steps tl) ≤ horizon;
  sn_epoch : Z.abs (tl_Epoch tl) ≤ 2 ^ 61;
}.

Lemma offsetIn_eq seg t :
  seg_sane seg → - ppb < sg_SlopePPB seg → 0 ≤ sg_Start seg ≤ t → t ≤ horizon → offsetIn seg t = Some (offZ seg t).
Proof.
  intros (Ho & Hs & Hi & _) Hs' Ht Hh. unfold offsetIn, offZ. unfold horizon in *.
  pose proof (carry_bounds (sg_SlopePPB seg) (t - sg_Start seg)) as Hc.
  rewrite (i64_small (t - sg_Start seg)) by (unfold is_i64; lia).
  rewrite mulDiv_exact; [|done|unfold is_i64; lia|unfold is_i64, ppb; lia|unfold ppb; lia|unfold ppb in *; nia].
  cbn [mbind option_bind]. rewrite i64_small; [done|]. unfold is_i64. lia.
Qed.

Lemma offZ_bound seg t :
  seg_sane seg → - ppb < sg_SlopePPB seg → 0 ≤ sg_Start seg ≤ t → t ≤ horizon → Z.abs (offZ seg t) ≤ 2 * horizon.
Proof.
  intros (Ho & Hs & _ & _) Hs' Ht Hh. unfold offZ. pose proof (carry_bounds (sg_SlopePPB seg) (t - sg_Start seg)). lia.
Qed.

Lemma validateSkew_chained i cur ss :
  seg_sane cur → Forall seg_sane ss → 0 ≤ sg_Start cur → - ppb < sg_SlopePPB cur →
  validateSkew i (Some cur) ss = Some None → chained cur ss.
Proof.
  intros Hc Hss. revert i cur Hc. induction Hss as [|s ss Hs Hss IH]; intros i cur Hc H0 Hsl; cbn [validateSkew]; [by split|].
  case_test; [done|]. case_test; [done|].
  rewrite offsetIn_eq; [|done|done|lia|apply Hs]. cbn [mbind option_bind].
  case_test; [done|]. intros H. split; [done|]. split; [lia|]. split; [done|]. eapply IH; [done|lia|lia|exact H].
Qed.

(** What a validated timeline is. *)
Lemma sane_chained tl :
  sane tl → ∃ s ss, tl_Skew tl = s :: ss ∧ sg_Start s = 0 ∧ chained s ss ∧ Forall seg_sane (s :: ss).
Proof.
  intros [Hv Hss _ _]. unfold Validate in Hv. destruct (tl_Skew tl) as [|s ss]; [done|]. exists s, ss.
  destruct (Z.eqb_spec (sg_Start s) 0) as [H0|]; [|done]. cbn [negb] in Hv. destruct (tl_Epoch tl =? 0); [done|].
  split_and!; [done|done| |done]. cbn [validateSkew] in Hv. apply Forall_cons in Hss as [Hs Hss].
  destruct (Z.leb_spec (sg_SlopePPB s) (- ppb)); [done|].
  destruct (validateSkew 1 (Some s) ss) as [[e|]|] eqn:E; [done| |done].
  eapply validateSkew_chained; [done|done|lia|lia|exact E].
Qed.

Lemma chained_slope cur ss x : chained cur ss → x ∈ cur :: ss → - ppb < sg_SlopePPB x ∧ sg_Start cur ≤ sg_Start x.
Proof.
  revert cur. induction ss as [|s ss IH]; intros cur Hc Hx.
  - apply list_elem_of_singleton in Hx as ->. split; [apply Hc|lia].
  - destruct Hc as (Hs & Hlt & _ & Hc). apply elem_of_cons in Hx as [->|Hx]; [split; [done|lia]|].
    destruct (IH s Hc Hx). split; [done|lia].
Qed.

(** The readings, below the horizon. *)
Section Readings.
Context (tl : Timeline) (s : Segment) (ss : list Segment).
Context (Hsk : tl_Skew tl = s :: ss) (H0 : sg_Start s = 0) (Hc : chained s ss) (Hok : Forall seg_sane (s :: ss)).

Definition rules (t : Z) : Segment := segmentAt t s ss.

Lemma rules_sane t : 0 ≤ t → seg_sane (rules t) ∧ - ppb < sg_SlopePPB (rules t) ∧ 0 ≤ sg_Start (rules t) ≤ t.
Proof.
  intros Ht. pose proof (segmentAt_in t s ss) as Hin. rewrite Forall_forall in Hok.
  destruct (chained_slope s ss (rules t) Hc Hin). split; [by apply Hok|]. split; [done|].
  split; [lia|]. apply segmentAt_start. lia.
Qed.

Lemma skewAt_eq t : 0 ≤ t ≤ horizon → skewAt tl t = Some (skewZ s ss t).
Proof.
  intros Ht. unfold skewAt. rewrite Hsk. cbn [segmentAt]. rewrite Z.gtb_ltb. case_test; [lia|].
  destruct (rules_sane t) as (? & ? & ?); [lia|]. unfold rules in *. apply offsetIn_eq; [done|done|lia|lia].
Qed.

Lemma skew_bound t : 0 ≤ t ≤ horizon → Z.abs (skewZ s ss t) ≤ 2 * horizon.
Proof. intros Ht. destruct (rules_sane t) as (? & ? & ?); [lia|]. apply offZ_bound; [done|done|unfold rules in *; lia|lia]. Qed.

Lemma osc_eq t : 0 ≤ t ≤ horizon → osc tl t = Some (t + skewZ s ss t).
Proof.
  intros Ht. unfold osc. rewrite skewAt_eq by done. cbn [mbind option_bind]. pose proof (skew_bound t Ht).
  rewrite i64_small; [done|]. unfold is_i64, horizon in *. lia.
Qed.
End Readings.

(** The steps, without the width. *)
Fixpoint stepsZ (t : Z) (inclusive : bool) (ss : list WallStep) : Z :=
  match ss with
  | [] => 0
  | s :: ss => if (ws_At s >? t) || (negb inclusive && (ws_At s =? t)) then 0 else ws_Delta s + stepsZ t inclusive ss
  end.

Lemma stepsZ_bound t incl ss : Z.abs (stepsZ t incl ss) ≤ stepWeight ss.
Proof.
  induction ss as [|s ss IH]; cbn [stepsZ stepWeight foldr]; [lia|]. fold (stepWeight ss). case_test; [|lia].
  assert (0 ≤ stepWeight ss); [|lia]. clear. induction ss as [|x ss IH]; cbn; [lia|]. fold (stepWeight ss). lia.
Qed.

Lemma stepWeight_pos ss : 0 ≤ stepWeight ss.
Proof. pose proof (stepsZ_bound 0 true ss). lia. Qed.

Lemma sumSteps_eq t incl sum ss :
  Z.abs sum + stepWeight ss < 2 ^ 63 → sumSteps t incl sum ss = sum + stepsZ t incl ss.
Proof.
  revert sum. induction ss as [|s ss IH]; intros sum Hb; cbn [sumSteps stepsZ]; [lia|]. cbn [stepWeight foldr] in Hb. fold (stepWeight ss) in Hb.
  pose proof (stepWeight_pos ss). case_test; [lia|]. rewrite i64_small by (unfold is_i64; lia). rewrite IH by lia. lia.
Qed.

Lemma steps_same ss p u :
  p ≤ u → (∀ s, s ∈ ss → ¬ p < ws_At s ≤ u) → stepsZ u true ss = stepsZ p true ss.
Proof.
  intros Hp. induction ss as [|s ss IH]; intros Hn; [done|]. cbn [stepsZ negb andb]. rewrite !orb_false_r, !Z.gtb_ltb.
  pose proof (Hn s ltac:(left)). destruct (Z.ltb_spec u (ws_At s)), (Z.ltb_spec p (ws_At s)); try lia.
  f_equal. apply IH. intros x Hx. apply Hn. by right.
Qed.
Lemma steps_limit ss p q :
  p < q → (∀ s, s ∈ ss → ¬ p < ws_At s < q) → stepsZ q false ss = stepsZ p true ss.
Proof.
  intros Hp. induction ss as [|s ss IH]; intros Hn; [done|]. cbn [stepsZ negb andb]. rewrite !orb_false_r, !Z.gtb_ltb.
  pose proof (Hn s ltac:(left)).
  destruct (Z.ltb_spec q (ws_At s)), (Z.eqb_spec (ws_At s) q), (Z.ltb_spec p (ws_At s)); cbn [orb]; try lia.
  f_equal. apply IH. intros x Hx. apply Hn. by right.
Qed.

(** ** Clocks that do not go backwards *)

Lemma bootFrom_spec start t bs :
  Forall (λ b, 0 ≤ b) bs → 0 ≤ start ≤ t → 0 ≤ bootFrom start t bs ≤ t.
Proof.
  intros Hb. revert start. induction Hb as [|b bs Hb Hbs IH]; intros start Hs; cbn [bootFrom]; [done|].
  rewrite Z.gtb_ltb. case_test; [done|]. apply IH. lia.
Qed.

(** A wall reading: oscillator, epoch and the steps taken. *)
Definition wallZ (tl : Timeline) (s : Segment) (ss : list Segment) (incl : bool) (t : Z) : Z :=
  tl_Epoch tl + (t + skewZ s ss t) + stepsZ t incl (tl_Steps tl).

Lemma wall_sum e o w d k :
  Z.abs e ≤ 2 ^ 61 → Z.abs o ≤ 3 * horizon → Z.abs d ≤ w → w ≤ horizon →
  k = i64 (i64 (e + o) + d) → k = e + o + d.
Proof.
  unfold horizon. intros He Ho Hd Hw ->. rewrite (i64_small (e + o)) by (unfold is_i64; lia). apply i64_small. unfold is_i64. lia.
Qed.

Section Walls.
Context (tl : Timeline) (s : Segment) (ss : list Segment).
Context (Hsane : sane tl) (Hsk : tl_Skew tl = s :: ss) (H0 : sg_Start s = 0) (Hc : chained s ss) (Hok : Forall seg_sane (s :: ss)).

Lemma wall_reading incl t k :
  0 ≤ t ≤ horizon → k = i64 (i64 (tl_Epoch tl + (t + skewZ s ss t)) + stepsThrough tl t incl) → k = wallZ tl s ss incl t.
Proof.
  intros Ht. destruct Hsane as [_ _ Hw He]. pose proof (skew_bound s ss H0 Hc Hok t Ht). pose proof (stepsZ_bound t incl (tl_Steps tl)).
  unfold stepsThrough. rewrite sumSteps_eq by (unfold horizon in *; lia). rewrite Z.add_0_l. intros Hk.
  eapply wall_sum in Hk; [exact Hk|done|lia|done|done].
Qed.

Lemma Wall_eq t : 0 ≤ t ≤ horizon → timeline_Wall tl t = Some (wallZ tl s ss true t).
Proof.
  intros Ht. unfold timeline_Wall. rewrite (osc_eq tl s ss Hsk H0 Hc Hok t Ht). cbn [mbind option_bind]. f_equal. by apply wall_reading.
Qed.
Lemma WallLimit_eq t : 0 ≤ t ≤ horizon → WallLimit tl t = Some (wallZ tl s ss false t).
Proof.
  intros Ht. unfold WallLimit. rewrite (osc_eq tl s ss Hsk H0 Hc Hok t Ht). cbn [mbind option_bind]. f_equal. by apply wall_reading.
Qed.

Lemma wallZ_bound incl t : 0 ≤ t ≤ horizon → Z.abs (wallZ tl s ss incl t) ≤ 2 ^ 61 + 4 * horizon.
Proof.
  intros Ht. destruct Hsane as [_ _ Hw He]. pose proof (skew_bound s ss H0 Hc Hok t Ht). pose proof (stepsZ_bound t incl (tl_Steps tl)).
  unfold wallZ. lia.
Qed.

Lemma Mono_eq t :
  0 ≤ BootAt tl t ≤ t → t ≤ horizon →
  timeline_Mono tl t = Some (t + skewZ s ss t - (BootAt tl t + skewZ s ss (BootAt tl t))).
Proof.
  intros Hb Ht. unfold timeline_Mono. pose proof (skew_bound s ss H0 Hc Hok t ltac:(lia)).
  pose proof (skew_bound s ss H0 Hc Hok (BootAt tl t) ltac:(lia)).
  rewrite (osc_eq tl s ss Hsk H0 Hc Hok t) by lia. rewrite (osc_eq tl s ss Hsk H0 Hc Hok (BootAt tl t)) by lia.
  cbn [mbind option_bind]. rewrite i64_small; [done|]. unfold is_i64, horizon in *. lia.
Qed.
End Walls.

(** The oscillator never runs backwards: on a sane timeline every reading
    below the horizon is defined; the oscillator is monotone in global time, the
    monotonic reading starts at zero with each boot and never decreases within
    one, and the wall reading decreases only across a step. *)
Theorem readings_monotone tl t t' :
  sane tl → Forall (λ b, 0 ≤ b) (tl_Boots tl) → 0 ≤ t ≤ t' → t' ≤ horizon →
  ∃ o o' m m' w w',
    osc tl t = Some o ∧ osc tl t' = Some o' ∧ o ≤ o'
    ∧ timeline_Mono tl t = Some m ∧ timeline_Mono tl t' = Some m' ∧ 0 ≤ m
    ∧ (BootAt tl t = BootAt tl t' → m ≤ m') ∧ (BootAt tl t = t → m = 0)
    ∧ timeline_Wall tl t = Some w ∧ timeline_Wall tl t' = Some w'
    ∧ ((∀ s, s ∈ tl_Steps tl → ¬ t < ws_At s ≤ t') → w ≤ w').
Proof.
  intros Hs Hb Ht Hh. destruct (sane_chained tl Hs) as (s & ss & Hsk & H0 & Hc & Hok).
  pose proof (bootFrom_spec 0 t (tl_Boots tl) Hb ltac:(lia)) as Hb1. pose proof (bootFrom_spec 0 t' (tl_Boots tl) Hb ltac:(lia)) as Hb2.
  fold (BootAt tl t) in Hb1. fold (BootAt tl t') in Hb2.
  pose proof (skewZ_mono s ss t t' Hc ltac:(lia)). pose proof (skewZ_mono s ss (BootAt tl t) t Hc ltac:(lia)).
  eexists _, _, _, _, _, _.
  split; [apply (osc_eq tl s ss Hsk H0 Hc Hok); lia|]. split; [apply (osc_eq tl s ss Hsk H0 Hc Hok); lia|]. split; [lia|].
  split; [apply (Mono_eq tl s ss Hsk H0 Hc Hok); lia|]. split; [apply (Mono_eq tl s ss Hsk H0 Hc Hok); lia|]. split; [lia|].
  split; [intros ->; lia|]. split; [intros ->; lia|].
  split; [apply (Wall_eq tl s ss Hs Hsk H0 Hc Hok); lia|]. split; [apply (Wall_eq tl s ss Hs Hsk H0 Hc Hok); lia|].
  intros Hn. unfold wallZ. rewrite (steps_same (tl_Steps tl) t t') by (lia || done). lia.
Qed.

(** ** What the skew checker measures *)

Lemma elem_of_addPoint t out next : t ∈ addPoint out next ↔ t ∈ out ∨ t = next.
Proof.
  unfold addPoint. destruct (last out) as [l|] eqn:El.
  - case_test; [|rewrite elem_of_app, list_elem_of_singleton; done]. subst l. split; [by left|]. intros [?| ->]; [done|].
    apply last_Some in El as [l' ->]. rewrite elem_of_app, list_elem_of_singleton. by right.
  - apply last_None in El as ->. rewrite list_elem_of_singleton. set_solver.
Qed.

Lemma elem_of_mergeFrom t fuel out x y :
  (length x + length y ≤ fuel)%nat → t ∈ mergeFrom fuel out x y ↔ t ∈ out ∨ t ∈ x ∨ t ∈ y.
Proof.
  revert out x y. induction fuel as [|fuel IH]; intros out x y Hf.
  - destruct x, y; cbn in Hf; [|lia..]. cbn. set_solver.
  - destruct x as [|a x], y as [|b y]; cbn [mergeFrom]; [set_solver|..].
    + rewrite IH by (cbn in *; lia). rewrite elem_of_addPoint. set_solver.
    + rewrite IH by (cbn in *; lia). rewrite elem_of_addPoint. set_solver.
    + case_test; rewrite IH by (cbn in *; lia); rewrite elem_of_addPoint; set_solver.
Qed.

Lemma elem_of_mergePoints t x y : t ∈ mergePoints x y ↔ t ∈ x ∨ t ∈ y.
Proof. unfold mergePoints. rewrite elem_of_mergeFrom by lia. set_solver. Qed.

(** The neighbours of a point among others. *)
Lemma greatest_below (l : list Z) lo t :
  lo ≤ t → ∃ p, p ∈ lo :: l ∧ lo ≤ p ≤ t ∧ ∀ x, x ∈ l → x ≤ t → x ≤ p.
Proof.
  intros Ht. induction l as [|a l (p & Hp & Hr & Hmax)]; [exists lo; set_solver by lia|].
  destruct (decide (p ≤ a ≤ t)).
  - exists a. split; [set_solver|]. split; [lia|]. intros x [->|Hx]%elem_of_cons Hxt; [lia|]. specialize (Hmax x Hx Hxt). lia.
  - exists p. split; [set_solver|]. split; [lia|]. intros x [->|Hx]%elem_of_cons Hxt; [lia|]. by apply Hmax.
Qed.
Lemma least_above (l : list Z) hi t :
  t < hi → ∃ q, q ∈ hi :: l ∧ t < q ≤ hi ∧ ∀ x, x ∈ l → t < x → q ≤ x.
Proof.
  intros Ht. induction l as [|a l (p & Hp & Hr & Hmax)]; [exists hi; set_solver by lia|].
  destruct (decide (t < a ≤ p)).
  - exists a. split; [set_solver|]. split; [lia|]. intros x [->|Hx]%elem_of_cons Hxt; [lia|]. specialize (Hmax x Hx Hxt). lia.
  - exists p. split; [set_solver|]. split; [lia|]. intros x [->|Hx]%elem_of_cons Hxt; [lia|]. by apply Hmax.
Qed.

(** *** Two truncated lines *)

(** A truncated product is within one unit of its line, on the side of zero. *)
Lemma trunc_line s d :
  0 ≤ d → ∃ r, s * d = ppb * Z.quot (s * d) ppb + r
    ∧ (0 ≤ s → 0 ≤ r < ppb) ∧ (s ≤ 0 → - ppb < r ≤ 0) ∧ (s = 0 → r = 0).
Proof.
  intros Hd. exists (Z.rem (s * d) ppb). unfold ppb. split; [apply Z.quot_rem'|].
  split_and!; intros Hs.
  - apply Z.rem_bound_pos; nia.
  - replace (s * d) with (- (- s * d)) by lia. rewrite Z.rem_opp_l by lia.
    pose proof (Z.rem_bound_pos (- s * d) 1000000000 ltac:(nia) ltac:(lia)). lia.
  - subst s. by rewrite Z.mul_0_l.
Qed.

(** The difference of two truncated lines over a span lies within one unit of its
    values at the ends. *)
Lemma span_difference s1 d1 s2 d2 k n :
  0 ≤ d1 → 0 ≤ d2 → 0 ≤ k ≤ n →
  let F x := Z.quot (s1 * (d1 + x)) ppb - Z.quot (s2 * (d2 + x)) ppb in
  (F k ≤ F 0 + 1 ∨ F k ≤ F n + 1) ∧ (F 0 - 1 ≤ F k ∨ F n - 1 ≤ F k).
Proof.
  intros H1 H2 Hk F. subst F. cbv beta.
  destruct (trunc_line s1 (d1 + 0)) as (a0 & A0 & P0 & N0 & _); [lia|].
  destruct (trunc_line s1 (d1 + k)) as (ak & Ak & Pk & Nk & _); [lia|].
  destruct (trunc_line s1 (d1 + n)) as (an & An & Pn & Nn & _); [lia|].
  destruct (trunc_line s2 (d2 + 0)) as (b0 & B0 & Q0 & M0 & _); [lia|].
  destruct (trunc_line s2 (d2 + k)) as (bk & Bk & Qk & Mk & _); [lia|].
  destruct (trunc_line s2 (d2 + n)) as (bn & Bn & Qn & Mn & _); [lia|].
  set (x0 := Z.quot (s1 * (d1 + 0)) ppb) in *. set (xk := Z.quot (s1 * (d1 + k)) ppb) in *. set (xn := Z.quot (s1 * (d1 + n)) ppb) in *.
  set (y0 := Z.quot (s2 * (d2 + 0)) ppb) in *. set (yk := Z.quot (s2 * (d2 + k)) ppb) in *. set (yn := Z.quot (s2 * (d2 + n)) ppb) in *.
  clearbody x0 xk xn y0 yk yn.
  assert (Hup : (s1 - s2) * k ≤ 0 ∨ (s1 - s2) * k ≤ (s1 - s2) * n) by (clear -Hk; destruct (decide (s1 ≤ s2)); [left|right]; nia).
  assert (Hdn : 0 ≤ (s1 - s2) * k ∨ (s1 - s2) * n ≤ (s1 - s2) * k) by (clear -Hk; destruct (decide (s1 ≤ s2)); [right|left]; nia).
  unfold ppb in *.
  assert (Hside : (0 ≤ s1 ∨ s1 ≤ 0) ∧ (0 ≤ s2 ∨ s2 ≤ 0)) by lia.
  split.
  - destruct Hup; [left|right]; destruct Hside as [[?|?] [?|?]];
      repeat match goal with H : ?A → _, H' : ?A |- _ => specialize (H H') end; lia.
  - destruct Hdn; [left|right]; destruct Hside as [[?|?] [?|?]];
      repeat match goal with H : ?A → _, H' : ?A |- _ => specialize (H H') end; lia.
Qed.

(** *** Two clocks *)

(** A timeline with its segments exposed. *)
Record parts (tl : Timeline) (s : Segment) (ss : list Segment) : Prop := MkParts {
  pt_sane : sane tl;
  pt_skew : tl_Skew tl = s :: ss;
  pt_zero : sg_Start s = 0;
  pt_chain : chained s ss;
  pt_segs : Forall seg_sane (s :: ss);
}.

Lemma sane_parts tl : sane tl → ∃ s ss, parts tl s ss.
Proof. intros H. destruct (sane_chained tl H) as (s & ss & ? & ? & ? & ?). by exists s, ss. Qed.

(** No breakpoint strictly between two points. *)
Definition quiet (tl : Timeline) (p q : Z) : Prop :=
  (∀ x, x ∈ sg_Start <$> tl_Skew tl → ¬ p < x < q) ∧ (∀ x, x ∈ ws_At <$> tl_Steps tl → ¬ p < x < q).

Lemma quiet_wall tl s ss p q :
  parts tl s ss → 0 ≤ p < q → quiet tl p q →
  let line u := tl_Epoch tl + (u + offZ (segmentAt p s ss) u) + stepsZ p true (tl_Steps tl) in
  (∀ u, p ≤ u < q → wallZ tl s ss true u = line u) ∧ wallZ tl s ss false q = line q.
Proof.
  intros [_ Hsk H0 Hc _] Hp [Hq1 Hq2] line. subst line. cbv beta.
  assert (Hn1 : ∀ x, x ∈ ss → ¬ p < sg_Start x < q).
  { intros x Hx. apply Hq1. rewrite Hsk. apply list_elem_of_fmap_2. by right. }
  assert (Hn2 : ∀ x, x ∈ tl_Steps tl → ¬ p < ws_At x < q) by (intros x Hx; apply Hq2, list_elem_of_fmap_2, Hx).
  unfold wallZ. split.
  - intros u Hu. rewrite (steps_same _ p u) by (lia || intros x Hx ?; apply (Hn2 x Hx); lia). unfold skewZ.
    rewrite (segmentAt_same s ss p u) by (lia || intros x Hx ?; apply (Hn1 x Hx); lia). done.
  - rewrite (steps_limit _ p q) by (lia || done). rewrite (skewZ_extends s ss p q) by (lia || done). done.
Qed.

Section Pair.
Context (a b : Timeline) (s1 s2 : Segment) (ss1 ss2 : list Segment).
Context (Ha : parts a s1 ss1) (Hb : parts b s2 ss2).

(** How far apart the walls are at a point, or just before it. *)
Definition gapZ (incl : bool) (t : Z) : Z := wallZ a s1 ss1 incl t - wallZ b s2 ss2 incl t.

Lemma gap_between p t q :
  0 ≤ p ≤ t → t < q → quiet a p q → quiet b p q →
  Z.abs (gapZ true t) ≤ Z.max (Z.abs (gapZ true p)) (Z.abs (gapZ false q)) + 1.
Proof.
  intros Hp Hq Qa Qb.
  destruct (quiet_wall a s1 ss1 p q Ha ltac:(lia) Qa) as [Wa La]. destruct (quiet_wall b s2 ss2 p q Hb ltac:(lia) Qb) as [Wb Lb].
  unfold gapZ. rewrite La, Lb, !Wa, !Wb by lia. unfold offZ.
  pose proof (segmentAt_start p s1 ss1 ltac:(rewrite (pt_zero _ _ _ Ha); lia)).
  pose proof (segmentAt_start p s2 ss2 ltac:(rewrite (pt_zero _ _ _ Hb); lia)).
  set (g1 := segmentAt p s1 ss1) in *. set (g2 := segmentAt p s2 ss2) in *.
  destruct (span_difference (sg_SlopePPB g1) (p - sg_Start g1) (sg_SlopePPB g2) (p - sg_Start g2) (t - p) (q - p)) as [Hu Hd]; [lia..|].
  replace (p - sg_Start g1 + 0) with (p - sg_Start g1) in * by lia. replace (p - sg_Start g2 + 0) with (p - sg_Start g2) in * by lia.
  replace (p - sg_Start g1 + (t - p)) with (t - sg_Start g1) in * by lia. replace (p - sg_Start g2 + (t - p)) with (t - sg_Start g2) in * by lia.
  replace (p - sg_Start g1 + (q - p)) with (q - sg_Start g1) in * by lia. replace (p - sg_Start g2 + (q - p)) with (q - sg_Start g2) in * by lia.
  lia.
Qed.

(** Two clocks that only step keep their distance between breakpoints. *)
Lemma gap_flat p t q :
  Forall (λ s, sg_SlopePPB s = 0) (tl_Skew a) → Forall (λ s, sg_SlopePPB s = 0) (tl_Skew b) →
  0 ≤ p ≤ t → t < q → quiet a p q → quiet b p q → gapZ true t = gapZ true p.
Proof.
  intros Fa Fb Hp Hq Qa Qb.
  destruct (quiet_wall a s1 ss1 p q Ha ltac:(lia) Qa) as [Wa _]. destruct (quiet_wall b s2 ss2 p q Hb ltac:(lia) Qb) as [Wb _].
  unfold gapZ. rewrite !Wa, !Wb by lia. unfold offZ. rewrite (pt_skew _ _ _ Ha) in Fa. rewrite (pt_skew _ _ _ Hb) in Fb.
  rewrite Forall_forall in Fa, Fb. rewrite (Fa _ (segmentAt_in p s1 ss1)), (Fb _ (segmentAt_in p s2 ss2)), !Z.mul_0_l. lia.
Qed.

(** *** The scan *)

Definition considered (from : Z) (t d : Z) : Prop :=
  d = Z.abs (gapZ true t) ∨ from < t ∧ d = Z.abs (gapZ false t).

Lemma consider_spec d t best : Z.abs d < 2 ^ 63 → consider d t best = if Z.abs d >? fst best then (Z.abs d, t) else best.
Proof.
  intros Hd. unfold consider. destruct (Z.ltb_spec d 0).
  - rewrite i64_small by (unfold is_i64; lia). replace (Z.abs d) with (- d) by lia. done.
  - replace (Z.abs d) with d by lia. done.
Qed.

Lemma gap_fits incl t : 0 ≤ t ≤ horizon → Z.abs (gapZ incl t) < 2 ^ 63 ∧ i64 (gapZ incl t) = gapZ incl t.
Proof.
  intros Ht. destruct Ha as [P1 P2 P3 P4 P5], Hb as [R1 R2 R3 R4 R5].
  pose proof (wallZ_bound a s1 ss1 P1 P3 P4 P5 incl t Ht). pose proof (wallZ_bound b s2 ss2 R1 R3 R4 R5 incl t Ht).
  unfold gapZ, horizon in *. split; [lia|]. apply i64_small. unfold is_i64. lia.
Qed.

Lemma skewPoint_spec from best t :
  0 ≤ t ≤ horizon →
  ∃ best', skewPoint a b from best t = Some best' ∧ fst best ≤ fst best' ∧ (∀ d, considered from t d → d ≤ fst best')
    ∧ (best' = best ∨ snd best' = t ∧ considered from t (fst best')).
Proof.
  intros Ht. destruct Ha as [P1 P2 P3 P4 P5] eqn:EH, Hb as [R1 R2 R3 R4 R5]. unfold skewPoint.
  rewrite (Wall_eq a s1 ss1), (Wall_eq b s2 ss2), (WallLimit_eq a s1 ss1), (WallLimit_eq b s2 ss2) by done.
  cbn [mbind option_bind]. fold (gapZ true t) (gapZ false t).
  destruct (gap_fits true t Ht) as [F1 ->], (gap_fits false t Ht) as [F2 ->]. rewrite (consider_spec (gapZ true t)) by done.
  unfold considered.
  destruct (Z.gtb_spec t from) as [Hf|Hf].
  - rewrite consider_spec by done. eexists. split; [done|].
    destruct (Z.gtb_spec (Z.abs (gapZ true t)) (fst best)) as [G1|G1]; cbn [fst];
      destruct (Z.gtb_spec (Z.abs (gapZ false t)) (Z.abs (gapZ true t))) as [G2|G2];
      destruct (Z.gtb_spec (Z.abs (gapZ false t)) (fst best)) as [G3|G3]; cbn [fst snd];
      (split; [lia|]; split; [intros d [->|[_ ->]]; lia|]);
      first [by left | right; split; [done|]; first [by left | by right]].
  - eexists. split; [done|].
    destruct (Z.gtb_spec (Z.abs (gapZ true t)) (fst best)) as [G1|G1]; cbn [fst snd];
      (split; [lia|]; split; [intros d [->|[? ->]]; lia|]); first [by left | right; split; [done|by left]].
Qed.

Lemma skewScan_spec from pts best :
  Forall (λ t, 0 ≤ t ≤ horizon) pts →
  ∃ best', foldM (skewPoint a b from) best pts = Some best' ∧ fst best ≤ fst best'
    ∧ (∀ t d, t ∈ pts → considered from t d → d ≤ fst best')
    ∧ (best' = best ∨ snd best' ∈ pts ∧ considered from (snd best') (fst best')).
Proof.
  intros Hp. revert best. induction Hp as [|t pts Ht Hp IH]; intros best; cbn [foldM].
  - exists best. split_and!; [done|lia|by intros ?? ?%elem_of_nil|by left].
  - destruct (skewPoint_spec from best t Ht) as (b1 & -> & L1 & C1 & A1). cbn [mbind option_bind].
    destruct (IH b1) as (b2 & -> & L2 & C2 & A2). exists b2. split; [done|]. split; [lia|]. split.
    + intros u d [->|Hu]%elem_of_cons Hc; [|by eapply C2]. specialize (C1 d Hc). lia.
    + destruct A2 as [->|[A2 A3]]; [|right; split; [by right|done]]. destruct A1 as [->|[A1 A3]]; [by left|].
      right. rewrite A1 in *. split; [left|done].
Qed.
End Pair.

Lemma elem_of_Breakpoints tl from to x :
  x ∈ Breakpoints tl from to ↔
  x = from ∨ x = to ∨ from < x < to ∧ (x ∈ sg_Start <$> tl_Skew tl ∨ x ∈ ws_At <$> tl_Steps tl).
Proof.
  unfold Breakpoints. rewrite elem_of_cons, !elem_of_app, !list_elem_of_filter, list_elem_of_singleton. tauto.
Qed.

(** The points considered leave no breakpoint between two neighbours. *)
Lemma points_quiet a b from to p t q :
  let pts := mergePoints (Breakpoints a from to) (Breakpoints b from to) in
  from ≤ p ≤ t → t < q ≤ to → (∀ x, x ∈ pts → x ≤ t → x ≤ p) → (∀ x, x ∈ pts → t < x → q ≤ x) →
  quiet a p q ∧ quiet b p q.
Proof.
  intros pts Hp Hq Hlo Hhi.
  assert (Hno : ∀ x, x ∈ pts → ¬ p < x < q).
  { intros x Hx ?. destruct (decide (x ≤ t)); [specialize (Hlo x Hx)|specialize (Hhi x Hx)]; lia. }
  split; split; intros x Hx Hr; apply (Hno x); [|done| |done| |done| |done]; unfold pts;
    rewrite elem_of_mergePoints, !elem_of_Breakpoints; [left|left|right|right]; right; right; (split; [lia|tauto]).
Qed.

(** C35. The skew checker's answer: for sane timelines and a window below the
    horizon, [MaxSkew] returns a distance that the two walls (or their limits from
    the left) attain at a point of the window, and nowhere in the window are the
    walls further apart than one nanosecond more; clocks that only step are never
    further apart than the answer.  (The nanosecond is real: [MaxSkew_misses_one].) *)
Theorem MaxSkew_within_one a b from to :
  sane a → sane b → 0 ≤ from ≤ to → to ≤ horizon →
  ∃ max at_,
    MaxSkew a b from to = Some (max, at_) ∧ from ≤ at_ ≤ to
    ∧ (∃ wa wb,
         (timeline_Wall a at_ = Some wa ∧ timeline_Wall b at_ = Some wb
          ∨ from < at_ ∧ WallLimit a at_ = Some wa ∧ WallLimit b at_ = Some wb) ∧ max = Z.abs (wa - wb))
    ∧ ∀ t, from ≤ t ≤ to → ∃ wa wb,
        timeline_Wall a t = Some wa ∧ timeline_Wall b t = Some wb ∧ Z.abs (wa - wb) ≤ max + 1
        ∧ (Forall (λ s, sg_SlopePPB s = 0) (tl_Skew a) → Forall (λ s, sg_SlopePPB s = 0) (tl_Skew b) → Z.abs (wa - wb) ≤ max).
Proof.
  intros Hsa Hsb Hft Hth. destruct (sane_parts a Hsa) as (s1 & ss1 & Pa), (sane_parts b Hsb) as (s2 & ss2 & Pb).
  pose proof Pa as [P1 P2 P3 P4 P5]. pose proof Pb as [R1 R2 R3 R4 R5].
  unfold MaxSkew. set (pts := mergePoints _ _).
  assert (Hin : ∀ x, x ∈ pts → from ≤ x ≤ to) by (intros x; unfold pts; rewrite elem_of_mergePoints, !elem_of_Breakpoints; lia).
  assert (Hfrom : from ∈ pts ∧ to ∈ pts) by (unfold pts; rewrite !elem_of_mergePoints, !elem_of_Breakpoints; naive_solver).
  destruct (skewScan_spec a b s1 s2 ss1 ss2 Pa Pb from pts (-1, 0)) as ([max at_] & Hscan & _ & Hall & Hatt).
  { apply Forall_forall. intros x Hx. specialize (Hin x Hx). lia. }
  exists max, at_. cbn [fst snd] in *.
  assert (Hpos : Z.abs (gapZ a b s1 s2 ss1 ss2 true from) ≤ max) by exact (Hall from _ (proj1 Hfrom) (or_introl eq_refl)).
  destruct Hatt as [[= -> ->]|[Hat Hmax]]; [lia|]. specialize (Hin at_ Hat) as Hatr.
  split; [done|]. split; [done|]. split.
  - destruct Hmax as [->|[Hf ->]]; do 2 eexists; (split; [|reflexivity]).
    + left. rewrite (Wall_eq a s1 ss1), (Wall_eq b s2 ss2) by (done || lia). done.
    + right. rewrite (WallLimit_eq a s1 ss1), (WallLimit_eq b s2 ss2) by (done || lia). done.
  - intros t Ht. rewrite (Wall_eq a s1 ss1), (Wall_eq b s2 ss2) by (done || lia). do 2 eexists. split; [done|]. split; [done|].
    fold (gapZ a b s1 s2 ss1 ss2 true t).
    destruct (decide (t = to)) as [->|Hne].
    { pose proof (Hall to _ (proj2 Hfrom) (or_introl eq_refl)). split; [lia|done]. }
    destruct (greatest_below pts from t) as (p & Hp & Hpr & Hlo); [lia|].
    destruct (least_above pts to t) as (q & Hq & Hqr & Hhi); [lia|].
    assert (Hp' : p ∈ pts) by (apply elem_of_cons in Hp as [->|]; [apply Hfrom|done]).
    assert (Hq' : q ∈ pts) by (apply elem_of_cons in Hq as [->|]; [apply Hfrom|done]).
    destruct (points_quiet a b from to p t q Hpr Hqr Hlo Hhi) as [Qa Qb].
    pose proof (Hall p _ Hp' (or_introl eq_refl)) as Gp.
    pose proof (Hall q _ Hq' (or_intror (conj (ltac:(lia) : from < q) eq_refl))) as Gq.
    split.
    + pose proof (gap_between a b s1 s2 ss1 ss2 Pa Pb p t q ltac:(lia) ltac:(lia) Qa Qb). lia.
    + intros Fa Fb. rewrite (gap_flat a b s1 s2 ss1 ss2 Pa Pb p t q Fa Fb) by (lia || done). done.
Qed.

(** Two sane clocks, a nanosecond apart at a time the checker reports none. *)
Definition half : Timeline := MkTimeline [MkSegment 0 0 500000000] [] [] DefaultEpoch.
Definition nearHalf : Timeline := MkTimeline [MkSegment 0 0 499000000] [] [] DefaultEpoch.

Lemma sane_one s e : Validate (MkTimeline [s] [] [] e) = Some None → seg_sane s → Z.abs e ≤ 2 ^ 61 → sane (MkTimeline [s] [] [] e).
Proof. intros Hv Hs He. split; [done|by apply Forall_singleton|unfold horizon; cbn; lia|done]. Qed.

Lemma half_sane : sane half.
Proof. apply sane_one; [by vm_compute| |vm_compute; discriminate]. repeat split; vm_compute; discriminate. Qed.
Lemma nearHalf_sane : sane nearHalf.
Proof. apply sane_one; [by vm_compute| |vm_compute; discriminate]. repeat split; vm_compute; discriminate. Qed.

Lemma MaxSkew_misses_one :
  MaxSkew half nearHalf 0 3 = Some (0, 0)
  ∧ timeline_Wall half 2 = Some (DefaultEpoch + 3) ∧ timeline_Wall nearHalf 2 = Some (DefaultEpoch + 2).
Proof. by vm_compute. Qed.

Lemma MaxSkew_within_one_witness :
  ∃ max at_, MaxSkew half nearHalf 0 3 = Some (max, at_) ∧ 0 ≤ at_ ≤ 3.
Proof.
  destruct (MaxSkew_within_one half nearHalf 0 3 half_sane nearHalf_sane) as (max & at_ & H & Hr & _);
    [lia|unfold horizon; lia|]. exists max, at_. exact (conj H Hr).
Defined.

Lemma readings_monotone_witness :
  ∃ o o', osc half 1 = Some o ∧ osc half 2 = Some o' ∧ o ≤ o'.
Proof.
  destruct (readings_monotone half 1 2 half_sane) as (o & o' & _ & _ & _ & _ & H1 & H2 & H3 & _);
    [constructor|lia|unfold horizon; lia|]. exists o, o'. exact (conj H1 (conj H2 H3)).
Defined.

(** ** Ticks *)

(** The inverse of one segment: [dt] is the first nanosecond whose exact line has
    covered [rel]; the truncated oscillator has, too. *)
Lemma ceil_reaches s rel dt :
  - ppb < s → 0 ≤ rel → dt = rel * ppb / (ppb + s) + (if rel * ppb mod (ppb + s) =? 0 then 0 else 1) →
  0 ≤ dt ∧ rel ≤ dt + Z.quot (s * dt) ppb ∧ (0 ≤ s → ∀ d, 0 ≤ d < dt → d + Z.quot (s * d) ppb < rel).
Proof.
  intros Hs Hr Hdt. unfold ppb in *. set (D := 1000000000 + s) in *.
  pose proof (Z.div_mod (rel * 1000000000) D ltac:(lia)) as Hdm. pose proof (Z.mod_pos_bound (rel * 1000000000) D ltac:(lia)) as Hm.
  assert (H0 : 0 ≤ rel * 1000000000 / D) by (apply Z.div_pos; lia).
  set (q := rel * 1000000000 / D) in *. set (r := rel * 1000000000 mod D) in *. clearbody q r.
  assert (Hd : 0 ≤ dt) by (destruct (Z.eqb_spec r 0); lia).
  assert (Hcov : rel * 1000000000 ≤ dt * D) by (destruct (Z.eqb_spec r 0); nia).
  split; [done|]. split.
  - destruct (trunc_line s dt Hd) as (x & Hx & Hp & Hn & _). unfold ppb in *. destruct (decide (0 ≤ s)); nia.
  - intros Hs0 d Hdd. destruct (trunc_line s d ltac:(lia)) as (x & Hx & Hp & _ & _). unfold ppb in *. specialize (Hp Hs0).
    assert (d * D < rel * 1000000000) by (destruct (Z.eqb_spec r 0); nia). nia.
Qed.

Definition steady (s : Segment) : Prop := - 500000000 ≤ sg_SlopePPB s.

Lemma mulDivCeil_eq rel s :
  0 ≤ rel ≤ 6 * horizon → - 500000000 ≤ s ≤ ppb →
  mulDivCeil rel ppb (i64 (ppb + s)) = Some (rel * ppb / (ppb + s) + (if rel * ppb mod (ppb + s) =? 0 then 0 else 1))
  ∧ rel * ppb / (ppb + s) ≤ 12 * horizon.
Proof.
  unfold ppb. intros Hr Hs. rewrite i64_small by (unfold is_i64; lia). unfold mulDivCeil, horizon in *.
  assert (Hq : 0 ≤ rel * 1000000000 / (1000000000 + s) ≤ 12 * 2 ^ 58).
  { split; [apply Z.div_pos; lia|]. apply Z.div_le_upper_bound; [lia|]. nia. }
  assert (Hg : rel * 1000000000 / 2 ^ 64 < 1000000000 + s) by (apply Z.div_lt_upper_bound; lia).
  split; [|lia].
  destruct (Z.ltb_spec rel 0); [lia|]. destruct (Z.leb_spec (1000000000 + s) 0); [lia|]. cbn [orb Z.ltb Z.compare].
  rewrite Z.geb_leb. destruct (Z.leb_spec (1000000000 + s) (rel * 1000000000 / 2 ^ 64)); [lia|].
  set (q := rel * 1000000000 / (1000000000 + s)) in *. clearbody q.
  destruct (rel * 1000000000 mod (1000000000 + s) =? 0); cbn [negb].
  - rewrite i64_small by (unfold is_i64; lia). f_equal. lia.
  - rewrite u64_small by (unfold is_u64; lia). rewrite i64_small by (unfold is_i64; lia). done.
Qed.

Lemma skewZ_first cur ss t :
  match ss with [] => True | s :: _ => t < sg_Start s end → skewZ cur ss t = offZ cur t.
Proof. unfold skewZ. destruct ss as [|s ss]; cbn [segmentAt]; [done|]. intros H. destruct (Z.gtb_spec (sg_Start s) t); [done|lia]. Qed.
Lemma skewZ_later cur s ss t : sg_Start s ≤ t → skewZ cur (s :: ss) t = skewZ s ss t.
Proof. unfold skewZ. cbn [segmentAt]. intros H. destruct (Z.gtb_spec (sg_Start s) t); [lia|done]. Qed.

Lemma solveIn_step target seg rest :
  solveIn target (seg :: rest) =
  let rel := i64 (i64 (target - sg_Start seg) - sg_Off seg) in
  if rel <? 0 then Some (sg_Start seg)
  else
    dt ← mulDivCeil rel ppb (i64 (ppb + sg_SlopePPB seg));
    let at_ := i64 (sg_Start seg + dt) in
    match rest with [] => Some at_ | next :: _ => if at_ <? sg_Start next then Some at_ else solveIn target rest end.
Proof. done. Qed.

(** The whole inverse. *)
Lemma solveIn_spec target cur ss :
  chained cur ss → Forall seg_sane (cur :: ss) → Forall steady (cur :: ss) → 0 ≤ sg_Start cur → Z.abs target ≤ 4 * horizon →
  ∃ at_, solveIn target (cur :: ss) = Some at_ ∧ sg_Start cur ≤ at_ ∧ target ≤ at_ + skewZ cur ss at_
    ∧ (Forall (λ s, 0 ≤ sg_SlopePPB s) (cur :: ss) → ∀ t, sg_Start cur ≤ t < at_ → t + skewZ cur ss t < target).
Proof.
  intros Hc Hok Hst H0 Ht. revert cur Hc Hok Hst H0. induction ss as [|s ss IH]; intros cur Hc Hok Hst H0.
  all: pose proof (Forall_inv Hok) as (Ho & Hs & _ & Hh); pose proof (Forall_inv Hst) as Hsd; unfold steady in Hsd.
  all: assert (Hcs : - ppb < sg_SlopePPB cur) by (destruct Hc; done).
  all: rewrite solveIn_step; cbv zeta; unfold horizon in *; rewrite (i64_small (target - sg_Start cur)) by (unfold is_i64; lia).
  all: rewrite (i64_small (target - sg_Start cur - sg_Off cur)) by (unfold is_i64; lia).
  all: set (rel := target - sg_Start cur - sg_Off cur).
  all: destruct (Z.ltb_spec rel 0) as [Hneg|Hrel].
  1, 3: exists (sg_Start cur); split; [done|]; split; [lia|]; split; [|lia].
  1, 2: pose proof (skewZ_above cur _ (sg_Start cur) Hc ltac:(lia)); lia.
  all: destruct (mulDivCeil_eq rel (sg_SlopePPB cur)) as [-> Hq]; [unfold horizon; lia|lia|]; unfold horizon in *; cbn [mbind option_bind].
  all: set (dt := rel * ppb / (ppb + sg_SlopePPB cur) + _).
  all: destruct (ceil_reaches (sg_SlopePPB cur) rel dt Hcs Hrel eq_refl) as (Hd0 & Hreach & Hfirst).
  all: assert (Hd1 : dt ≤ 12 * 2 ^ 58 + 1) by (unfold dt; destruct (_ =? 0); lia).
  all: rewrite (i64_small (sg_Start cur + dt)) by (unfold is_i64; lia).
  all: assert (Hearly : 0 ≤ sg_SlopePPB cur → ∀ t, sg_Start cur ≤ t < sg_Start cur + dt → t + offZ cur t < target).
  1, 3: intros Hp t Htt; unfold offZ; pose proof (Hfirst Hp (t - sg_Start cur) ltac:(lia)); lia.
  - exists (sg_Start cur + dt). split; [done|]. split; [lia|]. split.
    + rewrite skewZ_first by done. unfold offZ. replace (sg_Start cur + dt - sg_Start cur) with dt by lia. lia.
    + intros Hp t Htt. rewrite skewZ_first by done. apply Hearly; [by apply Forall_inv in Hp|done].
  - destruct Hc as (_ & Hlt & Hoff & Hc'). destruct (Z.ltb_spec (sg_Start cur + dt) (sg_Start s)) as [Hin|Hout].
    + exists (sg_Start cur + dt). split; [done|]. split; [lia|]. split.
      * rewrite skewZ_first by lia. unfold offZ. replace (sg_Start cur + dt - sg_Start cur) with dt by lia. lia.
      * intros Hp t Htt. rewrite skewZ_first by lia. apply Hearly; [by apply Forall_inv in Hp|done].
    + destruct (IH s Hc') as (at_ & -> & Hge & Hr & Hf); [by inversion Hok|by inversion Hst|lia|].
      exists at_. split; [done|]. split; [lia|]. split; [by rewrite skewZ_later|].
      intros Hp t Htt. destruct (decide (sg_Start s ≤ t)).
      * rewrite skewZ_later by done. apply Hf; [by inversion Hp|lia].
      * rewrite skewZ_first by lia. apply Hearly; [by apply Forall_inv in Hp|lia].
Qed.

(** *** Boots *)

Lemma bootFrom_same bs start t u :
  t ≤ u → (∀ b, bootAfter t bs = Some b → u < b) → bootFrom start u bs = bootFrom start t bs.
Proof.
  intros Htu. revert start. induction bs as [|b bs IH]; intros start Hn; cbn [bootFrom bootAfter] in *; [done|].
  revert Hn. destruct (Z.gtb_spec b t), (Z.gtb_spec b u); try lia; intros Hn; [specialize (Hn b eq_refl); lia|]. by apply IH.
Qed.

Lemma bootAfter_later t bs b : bootAfter t bs = Some b → t < b ∧ b ∈ bs.
Proof.
  induction bs as [|x bs IH]; cbn [bootAfter]; [done|]. destruct (Z.gtb_spec x t).
  - intros [= ->]. split; [lia|left].
  - intros H'. destruct (IH H'). split; [done|by right].
Qed.

(** Boots that increase strictly: a restart is the boot in force at its time. *)
Lemma unsorted_tail i x xs : unsorted Z.leb i (x :: xs) = None → unsorted Z.leb (S i) xs = None.
Proof. destruct xs as [|y xs]; cbn [unsorted]; [done|]. by destruct (y <=? x). Qed.

Lemma bootFrom_stops i x xs : unsorted Z.leb i (x :: xs) = None → bootFrom x x xs = x.
Proof.
  destruct xs as [|y xs]; cbn [unsorted bootFrom]; [done|]. destruct (Z.leb_spec y x); [done|]. intros _. destruct (Z.gtb_spec y x); [done|lia].
Qed.

Lemma bootFrom_boot i bs start t b :
  unsorted Z.leb i bs = None → bootAfter t bs = Some b → bootFrom start b bs = b.
Proof.
  revert i start. induction bs as [|x bs IH]; intros i start Hs Hb; cbn [bootAfter bootFrom] in *; [done|].
  revert Hb. destruct (Z.gtb_spec x t); intros Hb.
  - injection Hb as ->. destruct (Z.gtb_spec b b); [lia|]. by eapply bootFrom_stops.
  - pose proof (bootAfter_later t bs b Hb). destruct (Z.gtb_spec x b); [lia|]. eapply IH; [by eapply unsorted_tail|done].
Qed.

(** The restarts still to come. *)
Definition pendingBoots (t : Z) (bs : list Z) : nat := length (filter (λ b, t < b) bs).

Lemma pendingBoots_drop t b bs : bootAfter t bs = Some b → (pendingBoots b bs < pendingBoots t bs)%nat.
Proof.
  intros Hb. destruct (bootAfter_later t bs b Hb) as [Hlt Hin]. clear Hb. unfold pendingBoots in *.
  assert (Hmono : ∀ l, (pendingBoots b l ≤ pendingBoots t l)%nat).
  { unfold pendingBoots. induction l as [|x l IH]; [done|]. rewrite !filter_cons. do 2 case_decide; cbn [length]; lia. }
  apply list_elem_of_split in Hin as (l1 & l2 & ->). rewrite !filter_app, !length_app, !filter_cons.
  rewrite decide_False by lia. rewrite decide_True by done. cbn [length]. pose proof (Hmono l1). unfold pendingBoots in *. pose proof (Hmono l2). lia.
Qed.

Lemma sane_boots tl : sane tl → unsorted Z.leb 0 (tl_Boots tl) = None.
Proof.
  intros [Hv _ _ _]. unfold Validate in Hv. destruct (tl_Skew tl) as [|s ss]; [done|].
  destruct (negb _); [done|]. destruct (tl_Epoch tl =? 0); [done|]. destruct (validateSkew 0 None (s :: ss)) as [[?|]|]; [done| |done].
  cbn [mbind option_bind] in Hv. destruct (unsorted Z.ltb _ _); [done|]. by destruct (unsorted Z.leb _ _).
Qed.

(** *** The next tick *)

Section Ticks.
Context (tl : Timeline) (s : Segment) (ss : list Segment) (iv : Z).
Context (Hp : parts tl s ss) (Hst : Forall steady (s :: ss)) (Hboots : Forall (λ b, 0 ≤ b ≤ horizon) (tl_Boots tl)).
Context (Hiv : 0 < iv ≤ horizon).

(** The oscillator since the boot in force. *)
Definition monoZ (t : Z) : Z := t + skewZ s ss t - (BootAt tl t + skewZ s ss (BootAt tl t)).

Lemma BootAt_range t : 0 ≤ t → 0 ≤ BootAt tl t ≤ t.
Proof. intros Ht. apply bootFrom_spec; [|lia]. eapply Forall_impl; [exact Hboots|]. cbv beta. lia. Qed.

(** A tick of the boot in force at [t], the first after it. *)
Definition tickOf (t at_ k : Z) : Prop :=
  t < at_ ∧ 1 ≤ k ∧ (k - 1) * iv ≤ monoZ t < k * iv
  ∧ k * iv ≤ at_ + skewZ s ss at_ - (BootAt tl t + skewZ s ss (BootAt tl t))
  ∧ (Forall (λ x, 0 ≤ sg_SlopePPB x) (s :: ss) →
     ∀ u, t ≤ u < at_ → u + skewZ s ss u - (BootAt tl t + skewZ s ss (BootAt tl t)) < k * iv).

Lemma tickLoop_step fuel t :
  0 ≤ t ≤ horizon →
  ∃ at_ k, tickOf t at_ k
    ∧ tickLoop (S fuel) tl t iv =
        match nextBootAfter tl t with
        | None => Some (Some (at_, k))
        | Some next => if at_ <? next then Some (Some (at_, k)) else tickLoop fuel tl next iv
        end.
Proof.
  intros Ht. destruct Hp as [Hsane Hsk H0 Hc Hok]. pose proof (BootAt_range t ltac:(lia)) as Hb.
  pose proof (skewZ_mono s ss (BootAt tl t) t Hc ltac:(lia)) as Hm.
  pose proof (skew_bound s ss H0 Hc Hok t Ht) as B1. pose proof (skew_bound s ss H0 Hc Hok (BootAt tl t) ltac:(lia)) as B2.
  cbn [tickLoop]. rewrite (Mono_eq tl s ss Hsk H0 Hc Hok t Hb ltac:(lia)), (osc_eq tl s ss Hsk H0 Hc Hok (BootAt tl t)) by lia.
  cbn [mbind option_bind]. fold (monoZ t). assert (Hmz : 0 ≤ monoZ t ≤ 6 * horizon) by (unfold monoZ; lia).
  set (base := BootAt tl t + skewZ s ss (BootAt tl t)) in *.
  rewrite Z.quot_div_nonneg by lia. pose proof (Z.div_mod (monoZ t) iv ltac:(lia)). pose proof (Z.mod_pos_bound (monoZ t) iv ltac:(lia)).
  assert (0 ≤ monoZ t / iv ≤ monoZ t) by (split; [apply Z.div_pos; lia|apply Z.div_le_upper_bound; nia]).
  set (k := monoZ t / iv + 1) in *. assert (Hk : (k - 1) * iv ≤ monoZ t < k * iv) by (unfold k; nia).
  unfold horizon in *. rewrite (i64_small k) by (unfold is_i64; lia). rewrite (i64_small (k * iv)) by (unfold is_i64; lia).
  assert (Hkt : k * iv ≤ t + skewZ s ss t - base + iv) by (unfold monoZ in *; fold base in Hk; lia).
  rewrite (i64_small (base + k * iv)) by (unfold is_i64; lia).
  unfold solveOsc. rewrite Hsk.
  destruct (solveIn_spec (base + k * iv) s ss Hc Hok Hst) as (at_ & -> & Hge & Hr & Hf); [lia|unfold horizon; lia|].
  cbn [mbind option_bind].
  assert (Hlt : t < at_).
  { destruct (decide (at_ ≤ t)); [|lia]. pose proof (skewZ_mono s ss at_ t Hc ltac:(lia)).
    assert (t + skewZ s ss t < base + k * iv); [|lia]. unfold monoZ in *. fold base in Hk. lia. }
  destruct (Z.leb_spec at_ t); [lia|]. exists at_, k. split; [|done]. unfold tickOf. fold base.
  split; [done|]. split; [lia|]. split; [done|]. split; [lia|]. intros Hpos u Hu. specialize (Hf Hpos u ltac:(lia)). lia.
Qed.

(** The loop's answer, measured from where its last round began. *)
Lemma tickLoop_spec fuel t :
  (pendingBoots t (tl_Boots tl) < fuel)%nat → 0 ≤ t ≤ horizon →
  ∃ at_ k t0, tickLoop fuel tl t iv = Some (Some (at_, k)) ∧ t0 = Z.max t (BootAt tl at_) ∧ tickOf t0 at_ k ∧ t0 ≤ horizon
    ∧ ∀ u, t0 ≤ u ≤ at_ → BootAt tl u = BootAt tl t0.
Proof.
  revert t. induction fuel as [|fuel IH]; intros t Hf Ht; [lia|].
  destruct (tickLoop_step fuel t Ht) as (at_ & k & Htick & ->). unfold nextBootAfter. pose proof Htick as (Hlt & _).
  assert (Hsame : (∀ b, bootAfter t (tl_Boots tl) = Some b → at_ < b) → ∀ u, t ≤ u ≤ at_ → BootAt tl u = BootAt tl t).
  { intros H u Hu. apply bootFrom_same; [lia|]. intros b Hb. specialize (H b Hb). lia. }
  pose proof (BootAt_range t ltac:(lia)).
  destruct (bootAfter t (tl_Boots tl)) as [next|] eqn:En.
  - destruct (Z.ltb_spec at_ next).
    + specialize (Hsame ltac:(intros b [= <-]; done)). exists at_, k, t. rewrite (Hsame at_) by lia. split_and!; [done|lia|done|lia|done].
    + pose proof (pendingBoots_drop t next (tl_Boots tl) En). destruct (bootAfter_later _ _ _ En) as [Hn Hin].
      rewrite Forall_forall in Hboots. specialize (Hboots next Hin).
      destruct (IH next ltac:(lia) ltac:(lia)) as (at' & k' & t0 & -> & Ht0 & Hk' & Hh & Hb'). exists at', k', t0.
      assert (BootAt tl next = next) by (eapply bootFrom_boot; [apply sane_boots; apply Hp|done]).
      split; [done|]. split; [|done].
      assert (next ≤ BootAt tl at'); [|lia]. destruct (decide (t0 = next)) as [Heq|]; [|lia]. pose proof (Hb' at' ltac:(destruct Hk'; lia)). rewrite Heq in *. lia.
  - specialize (Hsame ltac:(done)). exists at_, k, t. rewrite (Hsame at_) by lia. split_and!; [done|lia|done|lia|done].
Qed.
End Ticks.

Lemma NextTick_later tl t iv :
  sane tl → Forall steady (tl_Skew tl) → Forall (λ b, 0 ≤ b ≤ horizon) (tl_Boots tl) → 0 < iv ≤ horizon → 0 ≤ t ≤ horizon →
  ∃ at_ k, NextTick tl t iv = Some (Some (at_, k)) ∧ t < at_.
Proof.
  intros Hs Hst Hb Hiv Ht. destruct (sane_parts tl Hs) as (s & ss & Hp). pose proof Hp as [_ Hsk _ _ _]. rewrite Hsk in *.
  assert (Hf : (pendingBoots t (tl_Boots tl) < S (length (tl_Boots tl)))%nat) by (unfold pendingBoots; pose proof (length_filter (λ b, t < b) (tl_Boots tl)); lia).
  destruct (tickLoop_spec tl s ss iv Hp Hst Hb Hiv _ t Hf Ht) as (at_ & k & t0 & Hloop & Ht0 & (Hlt & _) & _).
  exists at_, k. unfold NextTick. destruct (Z.leb_spec iv 0); [lia|]. split; [done|lia].
Qed.

(** C36. Ticks: on a sane timeline whose segments run at least at half speed,
    [NextTick] ends within a round per restart, and its answer is strictly after
    [t]: with [t0] the later of [t] and the boot in force at the tick, the tick's
    ordinal [k] is the first multiple of the interval above the monotonic reading
    at [t0], the reading has reached it at the tick, and, when no segment runs
    slow, has not reached it at any time before.  (When one does, the tick may come
    late: [NextTick_skips].) *)
Theorem NextTick_first tl t iv :
  sane tl → Forall steady (tl_Skew tl) → Forall (λ b, 0 ≤ b ≤ horizon) (tl_Boots tl) → 0 < iv ≤ horizon → 0 ≤ t ≤ horizon →
  ∃ at_ k t0 m0,
    NextTick tl t iv = Some (Some (at_, k)) ∧ t < at_ ∧ 1 ≤ k ∧ t0 = Z.max t (BootAt tl at_)
    ∧ timeline_Mono tl t0 = Some m0 ∧ (k - 1) * iv ≤ m0 < k * iv
    ∧ (at_ ≤ horizon → ∃ m, timeline_Mono tl at_ = Some m ∧ k * iv ≤ m)
    ∧ (Forall (λ s, 0 ≤ sg_SlopePPB s) (tl_Skew tl) →
       ∀ u, t0 ≤ u < at_ → u ≤ horizon → ∃ m, timeline_Mono tl u = Some m ∧ m < k * iv).
Proof.
  intros Hs Hst Hb Hiv Ht. destruct (sane_parts tl Hs) as (s & ss & Hp). pose proof Hp as [_ Hsk H0 Hc Hok]. rewrite Hsk in *.
  assert (Hf : (pendingBoots t (tl_Boots tl) < S (length (tl_Boots tl)))%nat) by (unfold pendingBoots; pose proof (length_filter (λ b, t < b) (tl_Boots tl)); lia).
  destruct (tickLoop_spec tl s ss iv Hp Hst Hb Hiv _ t Hf Ht) as (at_ & k & t0 & Hloop & Ht0 & (Hlt & Hk & Hm & Hr & Hf0) & Hh & Hsame).
  exists at_, k, t0, (monoZ tl s ss t0). unfold NextTick. destruct (Z.leb_spec iv 0); [lia|].
  assert (Hmono : ∀ u, t0 ≤ u ≤ at_ → u ≤ horizon → timeline_Mono tl u = Some (monoZ tl s ss u)).
  { intros u Hu Huh. apply (Mono_eq tl s ss Hsk H0 Hc Hok); [apply BootAt_range; [done|lia]|lia]. }
  split; [done|]. split; [lia|]. split; [done|]. split; [done|]. split; [apply Hmono; lia|]. split; [done|]. split.
  - intros Hah. exists (monoZ tl s ss at_). split; [apply Hmono; lia|]. unfold monoZ. rewrite Hsame by lia. done.
  - intros Hpos u Hu Huh. exists (monoZ tl s ss u). split; [apply Hmono; lia|]. unfold monoZ. rewrite Hsame by lia. by apply Hf0.
Qed.

(** A clock at half speed reads 1 at time 1, a nanosecond before the tick said to be
    the first at which it does; a caller that asks at time 1 is given the second. *)
Definition slowHalf : Timeline := MkTimeline [MkSegment 0 0 (-500000000)] [] [] DefaultEpoch.

Lemma NextTick_skips :
  osc slowHalf 1 = Some 1 ∧ solveOsc slowHalf 1 = Some 2
  ∧ NextTick slowHalf 0 1 = Some (Some (2, 1)) ∧ NextTick slowHalf 1 1 = Some (Some (4, 2)).
Proof. by vm_compute. Qed.

Lemma NextTick_first_witness : ∃ at_ k, NextTick half 1 1000 = Some (Some (at_, k)) ∧ 1 < at_.
Proof.
  destruct (NextTick_first half 1 1000 half_sane) as (at_ & k & _ & _ & H & Hlt & _);
    [apply Forall_singleton; unfold steady; cbn; lia|constructor|unfold horizon; lia|unfold horizon; lia|].
  exists at_, k. exact (conj H Hlt).
Defined.

(** ** Holds *)

Fixpoint ordered (ss : list WallStep) : Prop :=
  match ss with x :: (y :: _) as rest => ws_At x ≤ ws_At y ∧ ordered rest | _ => True end.

Lemma unsorted_ordered i ss : unsorted Z.ltb i (ws_At <$> ss) = None → ordered ss.
Proof.
  revert i. induction ss as [|x ss IH]; intros i Hu; [done|]. destruct ss as [|y ss]; [done|]. cbn [fmap list_fmap unsorted] in Hu.
  destruct (Z.ltb_spec (ws_At y) (ws_At x)); [done|]. split; [lia|]. by apply (IH (S i)).
Qed.

(** A step later than the time read is not taken, nor is any after it. *)
Lemma stepsZ_later t incl x ss : ordered (x :: ss) → t < ws_At x → stepsZ t incl ss = 0.
Proof.
  destruct ss as [|y ss]; [done|]. intros [H _] Ht. cbn [stepsZ]. destruct (Z.gtb_spec (ws_At y) t); [done|lia].
Qed.

Lemma insertStep_sum t ss s :
  ordered ss → stepsZ t true (insertStep ss s) = stepsZ t true ss + (if ws_At s <=? t then ws_Delta s else 0).
Proof.
  induction ss as [|x ss IH]; intros Ho; cbn [insertStep].
  - cbn [stepsZ negb andb]. rewrite orb_false_r, Z.gtb_ltb, Z.ltb_antisym. destruct (ws_At s <=? t); cbn [negb]; lia.
  - assert (Ho' : ordered ss) by (destruct ss; [done|]; apply Ho). destruct (Z.leb_spec (ws_At x) (ws_At s)) as [Hx|Hx].
    + cbn [stepsZ negb andb]. rewrite orb_false_r. destruct (Z.gtb_spec (ws_At x) t) as [Hxt|Hxt]; [|rewrite (IH Ho'); lia].
      destruct (Z.leb_spec (ws_At s) t); lia.
    + cbn [stepsZ negb andb]. rewrite !orb_false_r. destruct (Z.gtb_spec (ws_At s) t), (Z.leb_spec (ws_At s) t); try lia.
      destruct (Z.gtb_spec (ws_At x) t); lia.
Qed.

Lemma insertStep_ordered ss s : ordered ss → ordered (insertStep ss s).
Proof.
  induction ss as [|x ss IH]; intros Ho; cbn [insertStep]; [done|].
  assert (Ho' : ordered ss) by (destruct ss; [done|]; apply Ho). destruct (Z.leb_spec (ws_At x) (ws_At s)); [|split; [lia|done]].
  specialize (IH Ho'). destruct ss as [|y ss]; cbn [insertStep] in *; [split; [lia|done]|].
  destruct (ws_At y <=? ws_At s); (split; [|done]); [apply Ho|lia].
Qed.

Lemma valid_ordered tl : Validate tl = Some None → ordered (tl_Steps tl).
Proof.
  intros Hv. unfold Validate in Hv. destruct (tl_Skew tl) as [|s ss]; [done|].
  destruct (negb _); [done|]. destruct (tl_Epoch tl =? 0); [done|]. destruct (validateSkew 0 None (s :: ss)) as [[?|]|]; [done| |done].
  cbn [mbind option_bind] in Hv. destruct (unsorted Z.ltb _ _) eqn:E; [done|]. by eapply unsorted_ordered.
Qed.

(** *** The segments of a slew *)

(** Segments at or before a time do not matter once a later one starts. *)
Lemma segmentAt_app t cur pre x post :
  sg_Start cur ≤ t → Forall (λ y, sg_Start y ≤ t) pre → sg_Start x ≤ t → segmentAt t cur (pre ++ x :: post) = segmentAt t x post.
Proof.
  intros Hc Hpre Hx. revert cur Hc. induction Hpre as [|y pre Hy Hpre IH]; intros cur Hc; cbn [app segmentAt].
  - destruct (Z.gtb_spec (sg_Start x) t); [lia|done].
  - destruct (Z.gtb_spec (sg_Start y) t); [lia|]. by apply IH.
Qed.
Lemma segmentAt_before t cur pre x post :
  t < sg_Start x → segmentAt t cur (pre ++ x :: post) = segmentAt t cur pre.
Proof.
  revert cur. induction pre as [|y pre IH]; intros cur Ht; cbn [app segmentAt].
  - destruct (Z.gtb_spec (sg_Start x) t); [done|lia].
  - destruct (sg_Start y >? t); [done|]. by apply IH.
Qed.

(** In a chain, what comes before a segment starts before it. *)
Lemma chained_before cur pre x post :
  chained cur (pre ++ x :: post) → Forall (λ y, sg_Start y < sg_Start x) (cur :: pre) ∧ chained x post.
Proof.
  revert cur. induction pre as [|y pre IH]; intros cur; cbn [app chained].
  - intros (_ & Hlt & _ & Hc). split; [by apply Forall_singleton|done].
  - intros (_ & Hlt & _ & Hc). destruct (IH y Hc) as [Hf Hx]. split; [|done]. constructor; [|done]. apply Forall_inv in Hf. lia.
Qed.

(** When every segment starts by [from], the one in force there is the last. *)
Lemma forceIn_last from to cur ss seg :
  Forall (λ s, sg_Start s ≤ from) ss → forceIn from to cur ss = Ok seg → seg = segmentAt from cur ss.
Proof.
  intros Hf. revert cur. induction Hf as [|s ss Hs Hf IH]; intros cur; cbn [forceIn segmentAt]; [by intros [= ->]|].
  destruct (Z.leb_spec (sg_Start s) from); [|lia]. destruct (Z.gtb_spec (sg_Start s) from); [lia|]. apply IH.
Qed.

Lemma skewZ_whole h ss t : sg_Start h ≤ t → skewZ h ss t = offZ (segmentAt t h (h :: ss)) t.
Proof. intros H. unfold skewZ. cbn [segmentAt]. destruct (Z.gtb_spec (sg_Start h) t); [lia|done]. Qed.

Lemma offZ_flat s t : sg_SlopePPB s = 0 → offZ s t = sg_Off s.
Proof. intros H. unfold offZ. rewrite H, Z.mul_0_l, Z.quot_0_l by (unfold ppb; lia). lia. Qed.

(** A ramp stays between its ends. *)
Lemma ramp_between r d n : 0 ≤ d ≤ n → 
  Z.min 0 (Z.quot (r * n) ppb) ≤ Z.quot (r * d) ppb ≤ Z.max 0 (Z.quot (r * n) ppb).
Proof.
  intros Hd. assert (Hp : 0 < ppb) by (unfold ppb; lia). destruct (decide (0 ≤ r)) as [Hr|Hr].
  - pose proof (Z.quot_le_mono 0 (r * d) ppb Hp ltac:(nia)). pose proof (Z.quot_le_mono (r * d) (r * n) ppb Hp ltac:(nia)).
    rewrite Z.quot_0_l in * by lia. lia.
  - pose proof (Z.quot_le_mono (r * d) 0 ppb Hp ltac:(nia)). pose proof (Z.quot_le_mono (r * n) (r * d) ppb Hp ltac:(nia)).
    rewrite Z.quot_0_l in * by lia. lia.
Qed.

(** The four segments of a slew. *)
Definition slew (start from to ramp off target rate : Z) : list Segment :=
  [MkSegment start off rate; MkSegment from (off + target) 0; MkSegment to (off + target) (- rate); MkSegment (to + ramp) off 0].

Lemma slew_offset start from to ramp off target rate t :
  let r0 := MkSegment start off rate in
  start + ramp = from → from < to → 0 < ramp → start ≤ t →
  chained r0 (drop 1 (slew start from to ramp off target rate)) →
  let d := skewZ r0 (drop 1 (slew start from to ramp off target rate)) t - off in
  (from ≤ t < to → d = target) ∧ (to + ramp ≤ t → d = 0) ∧ Z.min 0 target ≤ d ≤ Z.max 0 target.
Proof.
  intros r0 Hs Hft Hr Ht Hc d. subst d r0. cbn [slew drop chained sg_Start sg_Off sg_SlopePPB] in Hc.
  destruct Hc as (_ & _ & Hup & _ & _ & _ & _ & _ & Hdown & _). unfold offZ in Hup, Hdown. cbn [sg_Start sg_Off sg_SlopePPB] in *.
  replace (from - start) with ramp in Hup by lia. replace (to + ramp - to) with ramp in Hdown by lia.
  unfold skewZ, slew, drop. cbn [segmentAt sg_Start].
  destruct (Z.gtb_spec from t); [|destruct (Z.gtb_spec to t); [|destruct (Z.gtb_spec (to + ramp) t)]];
    unfold offZ; cbn [sg_Start sg_Off sg_SlopePPB].
  - pose proof (ramp_between rate (t - start) ramp ltac:(lia)). lia.
  - rewrite Z.mul_0_l, Z.quot_0_l by (unfold ppb; lia). lia.
  - pose proof (ramp_between (- rate) (t - to) ramp ltac:(lia)). lia.
  - rewrite Z.mul_0_l, Z.quot_0_l by (unfold ppb; lia). lia.
Qed.

(** What a hold does to a wall reading: [d] is held minus base. *)
Definition holds (h : Hold) (target t d : Z) : Prop :=
  (h_From h ≤ t < h_To h → d = target) ∧ (t < h_From h - h_Ramp h ∨ h_To h + h_Ramp h ≤ t → d = 0)
  ∧ Z.min 0 target ≤ d ≤ Z.max 0 target.

Lemma step_holds base h target t :
  ordered (tl_Steps base) → h_From h < h_To h → 0 ≤ h_Ramp h →
  let steps := insertStep (insertStep (tl_Steps base) (MkWallStep (h_From h) target)) (MkWallStep (h_To h) (- target)) in
  holds h target t (stepsZ t true steps - stepsZ t true (tl_Steps base)).
Proof.
  intros Ho Hft Hr steps. subst steps. rewrite !insertStep_sum by (try apply insertStep_ordered; done). cbn [ws_At ws_Delta].
  unfold holds. destruct (Z.leb_spec (h_From h) t), (Z.leb_spec (h_To h) t); lia.
Qed.

Lemma dropTied_cases ss start :
  ∃ pre, dropTied ss start = pre ∧ (ss = pre ∨ ∃ x, ss = pre ++ [x] ∧ sg_Start x = start).
Proof.
  eexists. split; [done|]. unfold dropTied. destruct (last ss) as [x|] eqn:El; [|by left]. apply last_Some in El as [l ->].
  destruct (Z.eqb_spec (sg_Start x) start); [right|by left]. exists x. rewrite removelast_last. done.
Qed.

Lemma slew_holds base s ss out hd hs h target rate off seg :
  parts base s ss → parts out hd hs → h_From h < h_To h → 0 < h_Ramp h → 0 ≤ h_From h - h_Ramp h →
  tl_Skew out = dropTied (tl_Skew base) (h_From h - h_Ramp h)
                  ++ slew (h_From h - h_Ramp h) (h_From h) (h_To h) (h_Ramp h) off target rate →
  forceIn (h_From h - h_Ramp h) (h_To h + h_Ramp h) s (tl_Skew base) = Ok seg → sg_SlopePPB seg = 0 → off = sg_Off seg →
  ∀ t, 0 ≤ t → holds h target t (skewZ hd hs t - skewZ s ss t).
Proof.
  intros [_ Hsk H0 _ _] [_ Hsk' H0' Hc' _] Hft Hr Hst Hout Hforce Hflat -> t Ht. set (start := h_From h - h_Ramp h) in *.
  destruct (dropTied_cases (tl_Skew base) start) as (pre & Hpre & Hbase). rewrite Hpre in Hout.
  set (r0 := MkSegment start (sg_Off seg) rate).
  set (rest := drop 1 (slew start (h_From h) (h_To h) (h_Ramp h) (sg_Off seg) target rate)).
  change (slew start _ _ _ _ _ _) with (r0 :: rest) in Hout. rewrite Hsk' in Hout.
  assert (Hb : Forall (λ y, sg_Start y < start) pre ∧ chained r0 rest).
  { destruct pre as [|p pre]; cbn [app] in Hout; injection Hout as -> ->; [split; [done|exact Hc']|].
    by apply (chained_before p pre r0 rest). }
  destruct Hb as [Hlow Hc0].
  assert (Hle : Forall (λ y, sg_Start y ≤ start) (tl_Skew base)).
  { assert (Forall (λ y, sg_Start y ≤ start) pre) by (eapply Forall_impl; [exact Hlow|]; cbv beta; lia).
    destruct Hbase as [->|(x & -> & Hx)]; [done|]. apply Forall_app. split; [done|]. apply Forall_singleton. lia. }
  pose proof (forceIn_last _ _ _ _ _ Hle Hforce) as Hseg.
  rewrite !skewZ_whole by lia. rewrite <- Hsk, <- Hsk', Hsk', Hout. unfold holds. fold start.
  destruct (decide (t < start)) as [Hlt|Hge].
  - rewrite segmentAt_before by done. assert (Heq : segmentAt t s (tl_Skew base) = segmentAt t hd pre); [|rewrite Heq; lia].
    assert (Hhd : ∀ x l, tl_Skew base = pre ++ l → pre = x :: drop 1 pre → s = hd).
    { intros x l Hl Hx. rewrite Hl, Hx in Hsk. rewrite Hx in Hout. cbn [app] in Hsk, Hout. congruence. }
    destruct pre as [|p pre].
    { exfalso. destruct Hbase as [Hn|(x & Hn & Hx)]; rewrite Hn in Hsk; [done|]. injection Hsk as -> <-. lia. }
    destruct Hbase as [Hn|(x & Hn & Hx)]; rewrite Hn.
    + rewrite (Hhd p [] ltac:(by rewrite app_nil_r) eq_refl). done.
    + rewrite (Hhd p [x] Hn eq_refl). apply segmentAt_before. lia.
  - assert (Hle' : Forall (λ y, sg_Start y ≤ t) pre) by (eapply Forall_impl; [exact Hlow|]; cbv beta; lia).
    rewrite (segmentAt_app t hd pre r0 rest) by (done || cbn [sg_Start r0]; lia).
    assert (Heq : segmentAt t s (tl_Skew base) = seg).
    { rewrite Hseg. apply segmentAt_same; [lia|]. intros x Hx. rewrite Forall_forall in Hle. specialize (Hle x Hx). lia. }
    rewrite Heq, (offZ_flat seg) by done. fold (skewZ r0 rest t).
    pose proof (slew_offset start (h_From h) (h_To h) (h_Ramp h) (sg_Off seg) target rate t) as Hd. cbv zeta in Hd. fold r0 rest in Hd.
    destruct Hd as (D1 & D2 & D3); [lia|done|done|lia|done|]. lia.
Qed.

Lemma validated_inv tl r out r' : validated tl r = Some (Ok (out, r')) → Validate tl = Some None ∧ out = tl ∧ r' = r.
Proof. unfold validated. destruct (Validate tl) as [[e|]|]; cbn; [done| |done]. intros [= <- <-]. done. Qed.

Lemma baseOffsetFor_inv base s ss from to off :
  parts base s ss → 0 ≤ from ≤ horizon → baseOffsetFor base from to = Some (Ok off) →
  ∃ seg, forceIn from to s (tl_Skew base) = Ok seg ∧ sg_SlopePPB seg = 0 ∧ off = sg_Off seg ∧ Z.abs off ≤ horizon.
Proof.
  intros [_ Hsk H0 Hc Hok] Hf. unfold baseOffsetFor. rewrite Hsk. destruct (forceIn from to s (s :: ss)) as [seg|e] eqn:Ef; [|done].
  destruct (Z.eqb_spec (sg_SlopePPB seg) 0) as [Hz|]; [|done]. cbn [negb].
  destruct (List.find _ _); [done|]. intros Ho. exists seg. split; [done|]. split; [done|].
  assert (Hin : ∀ cur l, forceIn from to cur l = Ok seg → seg ∈ cur :: l ∧ (sg_Start cur ≤ from → sg_Start seg ≤ from)).
  { intros cur l. revert cur. induction l as [|x l IH]; intros cur; cbn [forceIn]; [intros [= ->]; split; [left|done]|].
    destruct (Z.leb_spec (sg_Start x) from); [|destruct (sg_Start x <=? to); [done|]]; intros H'; destruct (IH _ H') as [I1 I2];
      (split; [set_solver|]); [intros; by apply I2|done]. }
  destruct (Hin s (s :: ss) Ef) as [Hmem Hstart].
  assert (Hmem' : seg ∈ s :: ss) by set_solver. destruct (chained_slope s ss seg Hc Hmem').
  rewrite Forall_forall in Hok. pose proof (Hok seg Hmem') as Hseg.
  rewrite offsetIn_eq in Ho; [|done|done|lia|lia]. cbn [mbind option_bind] in Ho. rewrite offZ_flat in Ho by done.
  injection Ho as <-. split; [done|]. apply Hseg.
Qed.

(** A correction narrower than its ramp is a slope below one. *)
Lemma rate_bound target ramp rate :
  mulDiv target ppb ramp = Some rate → 0 < ramp ≤ horizon → Z.abs target ≤ horizon → abs64 target < ramp → Z.abs rate ≤ ppb.
Proof.
  intros Hr Hp Ht Ha. unfold horizon, ppb in *.
  assert (Hab : Z.abs target < ramp).
  { unfold abs64 in Ha. destruct (Z.ltb_spec target 0); [rewrite i64_small in Ha by (unfold is_i64; lia)|]; lia. }
  rewrite mulDiv_exact in Hr; [|unfold is_i64; lia..|lia|lia]. injection Hr as <-.
  rewrite <- Z.quot_abs by lia. rewrite Z.quot_div_nonneg by lia. apply Z.div_le_upper_bound; lia.
Qed.

(** A compiled hold does what it says: when [Compile] accepts a hold on a sane
    base, and the result is sane, the wall of the held clock is ahead of the base
    by exactly [maxOffset * AtPPB / 1e9] (truncated) from [From] until [To], equal
    to it outside the ramps, and in between on the way from one to the other;
    a step leaves the oscillator as it was. *)
Theorem Compile_holds h base maxOffset out r t :
  sane base → sane out → is_i64 maxOffset → is_i64 (h_AtPPB h) → Z.abs (maxOffset * h_AtPPB h) ≤ horizon * ppb →
  0 ≤ h_From h → h_To h + h_Ramp h ≤ horizon → 0 ≤ t ≤ horizon →
  Compile h base maxOffset = Some (Ok (out, r)) →
  ∃ wb wo, r = h_Realize h ∧ timeline_Wall base t = Some wb ∧ timeline_Wall out t = Some wo
    ∧ holds h (Z.quot (maxOffset * h_AtPPB h) ppb) t (wo - wb)
    ∧ (r = StepHold → osc out t = osc base t).
Proof.
  intros Hsb Hso Hm Ha Hfit Hf Ht Htt.  unfold Compile.
  destruct (sane_parts base Hsb) as (s & ss & Pb), (sane_parts out Hso) as (hd & hs & Po).
  pose proof Pb as [_ B2 B3 B4 B5]. pose proof Po as [_ O2 O3 O4 O5].
  case_bool_decide as Hr0; [done|]. rewrite Z.geb_leb. destruct (Z.leb_spec (h_To h) (h_From h)) as [|Hft]; [done|].
  destruct (Z.ltb_spec (h_Ramp h) 0) as [|Hramp]; [done|]. unfold horizon in *.
  rewrite (i64_small (h_From h - h_Ramp h)), (i64_small (h_To h + h_Ramp h)) by (unfold is_i64; lia).
  destruct (Z.ltb_spec (h_From h - h_Ramp h) 0) as [|Hstart]; [done|].
  destruct (baseOffsetFor base _ _) as [[off|e]|] eqn:Eo; cbn [mbind option_bind]; [|done|done].
  destruct (baseOffsetFor_inv base s ss (h_From h - h_Ramp h) (h_To h + h_Ramp h) off Pb ltac:(unfold horizon; lia) Eo) as (seg & Hforce & Hflat & Hoff & Hob).
  rewrite mulDiv_exact; [|done|done|unfold is_i64, ppb; lia|unfold ppb; lia|unfold ppb in *; lia].
  cbn [mbind option_bind]. set (target := Z.quot (maxOffset * h_AtPPB h) ppb).
  assert (Htg : Z.abs target ≤ 2 ^ 58).
  { unfold target. rewrite <- Z.quot_abs by (unfold ppb; lia). rewrite Z.quot_div_nonneg by (unfold ppb; lia).
    apply Z.div_le_upper_bound; unfold ppb in *; lia. }
  intros Hcomp. exists (wallZ base s ss true t), (wallZ out hd hs true t). revert Hcomp.
  rewrite (Wall_eq base s ss), (Wall_eq out hd hs) by done.
  case_bool_decide as Hstep.
  - rewrite (i64_small (- target)) by (unfold is_i64; lia). intros (Hv & Hout & ->)%validated_inv.
    split; [done|]. split; [done|]. split; [done|]. rewrite Hout in O2. cbn [tl_Skew] in O2. rewrite B2 in O2. injection O2 as <- <-. split.
    + replace (wallZ out s ss true t - wallZ base s ss true t) with (stepsZ t true (tl_Steps out) - stepsZ t true (tl_Steps base))
        by (unfold wallZ; assert (tl_Epoch out = tl_Epoch base) by (by rewrite Hout); lia).
      rewrite Hout. apply step_holds; [apply valid_ordered, Hsb|done|done].
    + intros _. rewrite (osc_eq base s ss), (osc_eq out s ss) by (rewrite ?Hout; done). done.
  - destruct (Z.leb_spec (h_Ramp h) 0) as [|Hr]; [done|]. rewrite Z.geb_leb. destruct (Z.leb_spec (h_Ramp h) (abs64 target)) as [|Hsteep]; [done|].
    destruct (mulDiv target ppb (h_Ramp h)) as [rate|] eqn:Er; cbn [mbind option_bind]; [|done].
    intros (Hv & Hout & ->)%validated_inv.
    assert (Hreal : SlewHold = h_Realize h) by (destruct (h_Realize h); done).
    split; [done|]. split; [done|]. split; [done|]. split; [|done].
    rewrite (i64_small (off + target)) in Hout by (unfold is_i64, horizon in *; lia).
    replace (wallZ out hd hs true t - wallZ base s ss true t) with (skewZ hd hs t - skewZ s ss t)
      by (unfold wallZ; assert (tl_Epoch out = tl_Epoch base ∧ tl_Steps out = tl_Steps base) as [? Hsteps] by (by rewrite Hout); rewrite Hsteps; lia).
    assert (Hrate : Z.abs rate ≤ ppb) by (eapply rate_bound; [exact Er|unfold horizon; lia|exact Htg|exact Hsteep]).
    rewrite (i64_small (- rate)) in Hout by (unfold is_i64, ppb in *; lia).
    eapply (slew_holds base s ss out hd hs h target rate off seg); [done|done|done|done|done| |done|done|done|lia].
    rewrite Hout. done.
Qed.

(** A slew the error message allows (490ms over a ramp of 600ms) whose rate is not a
    whole number of parts per billion: the truncated ramp ends a nanosecond short, and
    the result is rejected as discontinuous. *)
Lemma Compile_rejects_inexact :
  Compile (MkHold 0 1 980000000 2000000000 3000000000 600000000 SlewHold false) Flat 500000000 = Some (Err (errDiscontinuous 2)).
Proof. by vm_compute. Qed.

(** A hold at 98% of the offset, stepped and slewed. *)
Definition aHold (r : Realization) : Hold := MkHold 0 1 980000000 2000000000 3000000000 1000000000 r false.
Definition heldFlat : Timeline :=
  MkTimeline (MkSegment 0 0 0 :: slew 1000000000 2000000000 3000000000 1000000000 0 490000000 490000000) [] [] DefaultEpoch.

Lemma Flat_sane : sane Flat.
Proof. apply sane_one; [by vm_compute| |vm_compute; discriminate]. repeat split; vm_compute; discriminate. Qed.
Lemma heldFlat_sane : sane heldFlat.
Proof.
  split; [by vm_compute| |vm_compute; discriminate|vm_compute; discriminate].
  repeat (apply Forall_cons; split; [repeat split; vm_compute; discriminate|]). constructor.
Qed.

Lemma Compile_holds_witness :
  ∃ wb wo, timeline_Wall Flat 2500000000 = Some wb ∧ timeline_Wall heldFlat 2500000000 = Some wo
    ∧ holds (aHold SlewHold) (Z.quot (500000000 * 980000000) ppb) 2500000000 (wo - wb).
Proof.
  destruct (Compile_holds (aHold SlewHold) Flat 500000000 heldFlat SlewHold 2500000000 Flat_sane heldFlat_sane)
    as (wb & wo & _ & H1 & H2 & H3 & _).
  - vm_compute. split; [discriminate|done].
  - vm_compute. split; [discriminate|done].
  - vm_compute. discriminate.
  - vm_compute. discriminate.
  - vm_compute. discriminate.
  - vm_compute. split; discriminate.
  - vm_compute. done.
  - exists wb, wo. exact (conj H1 (conj H2 H3)).
Defined.
