(* ===== verification/SimLoop.v ===== *)
(** * The event loop of the simulator

    sim/loop.go: virtual time, the queue of what will happen, the nodes that are down,
    the clocks the ticks come from, and what one step does with them.  The nodes, the
    network and everything else the loop calls are a parameter: a world [W] and what
    handling an event, running an action and judging a step do to it. *)

From Stdlib Require Import Lia ZArith Sorted.
From stdpp Require Import base tactics numbers option sorting list.
From S2P Require Import Prelude ClockTimeline SimQueue.

(** ** The loop *)

Inductive OutcomeKind := OutcomeDeadline | OutcomeQuiescent | OutcomeHalted | OutcomeStepLimit.
Definition CountsTowardSoakHours (k : OutcomeKind) : bool :=
  match k with OutcomeDeadline => true | OutcomeQuiescent | OutcomeHalted | OutcomeStepLimit => false end.

Inductive LoopError := errNoNodes | errClockCount | errTickInterval | errMaxOffset.

(** What a node may ask of the future. *)
Record request (P : Type) := MkReq { rq_At : Z; rq_Kind : Kind; rq_Node : Z; rq_Payload : option P }.
Arguments MkReq {P}.
Arguments rq_At {P}.
Arguments rq_Kind {P}.
Arguments rq_Node {P}.
Arguments rq_Payload {P}.

Section Loop.
Context {P W V : Type}.

(** The run's shape, and the code the loop calls: [handle] and [act] give the new world
    and the events scheduled meanwhile, in order, and may panic; an oracle says which
    events it looks at and what it finds after one. *)
Record LoopConfig := MkLoopConfig {
  lc_TickInterval : Z;
  lc_Until : Z;
  lc_MaxSteps : Z;
  lc_handle : SimEvent P → Z → W → option (W * list (request P));
  lc_act : P → Z → W → option (W * list (request P));
  lc_oracles : list ((Kind → bool) * (W → SimEvent P → option V));
}.

Record Loop := MkLoop {
  lo_q : list (SimEvent P);
  lo_now : Z;
  lo_seq : Z;
  lo_steps : Z;
  lo_census : Kind → Z;
  lo_closed : bool;
  lo_halted : option (V * Z * Z);   (* the violation, its instant and its step *)
  lo_down : list bool;
  lo_clocks : list Sim;
  lo_world : W;
}.

#[global] Instance Loop_eta : Eta Loop := λ l,
  MkLoop (lo_q l) (lo_now l) (lo_seq l) (lo_steps l) (lo_census l) (lo_closed l) (lo_halted l) (lo_down l) (lo_clocks l) (lo_world l).
#[global] Instance upd_lo_q : Field lo_q := ltac:(derive_field).
#[global] Instance upd_lo_now : Field lo_now := ltac:(derive_field).
#[global] Instance upd_lo_seq : Field lo_seq := ltac:(derive_field).
#[global] Instance upd_lo_steps : Field lo_steps := ltac:(derive_field).
#[global] Instance upd_lo_census : Field lo_census := ltac:(derive_field).
#[global] Instance upd_lo_closed : Field lo_closed := ltac:(derive_field).
#[global] Instance upd_lo_halted : Field lo_halted := ltac:(derive_field).
#[global] Instance upd_lo_down : Field lo_down := ltac:(derive_field).
#[global] Instance upd_lo_clocks : Field lo_clocks := ltac:(derive_field).
#[global] Instance upd_lo_world : Field lo_world := ltac:(derive_field).

Context (cfg : LoopConfig).

(** [Loop.At]; scheduling into the past or for an unknown node panics. *)
Definition At (r : request P) (l : Loop) : option Loop :=
  if rq_At r <? lo_now l then None
  else if negb ((0 <=? rq_Node r) && (rq_Node r <? Z.of_nat (length (lo_down l)))) then None
  else
    let seq := add64 (lo_seq l) 1 in
    Some (l <| lo_seq := seq |> <| lo_q := push (MkEvent (rq_At r) (rq_Kind r) (rq_Node r) seq (rq_Payload r)) (lo_q l) |>).

Definition AtAll (rs : list (request P)) (l : Loop) : option Loop := foldM (λ l r, At r l) l rs.

Definition After (d : Z) (k : Kind) (node : Z) (p : option P) (l : Loop) : option Loop := At (MkReq (i64 (lo_now l + d)) k node p) l.
Definition Do (at_ : Z) (fn : P) (l : Loop) : option Loop := At (MkReq at_ KindAction 0 (Some fn)) l.
Definition Loop_Crash (at_ node : Z) (l : Loop) : option Loop := At (MkReq at_ KindCrash node None) l.
Definition Loop_Restart (at_ node : Z) (l : Loop) : option Loop := At (MkReq at_ KindRestart node None) l.

(** The node's next tick, taken from its own clock. *)
Definition scheduleTick (node : Z) (l : Loop) : option Loop :=
  c ← lo_clocks l !! Z.to_nat node;
  r ← Sim_NextTick (lc_TickInterval cfg) c;
  '(at_, _) ← r;
  At (MkReq at_ KindTick node None) l.

Definition NewLoop (nodes : nat) (clocks : list Sim) (w : W) : option (result LoopError Loop) :=
  if (nodes =? 0)%nat then Some (Err errNoNodes)
  else if negb (length clocks =? nodes)%nat then Some (Err errClockCount)
  else if lc_TickInterval cfg <=? 0 then Some (Err errTickInterval)
  else if negb (AssertUniformMaxOffset (si_maxOffset <$> clocks)) then Some (Err errMaxOffset)
  else
    l ← foldM (λ l i, scheduleTick (Z.of_nat i) l)
          (MkLoop [] 0 0 0 (λ _, 0) false None (replicate nodes false) clocks w) (seq 0 nodes);
    Some (Ok l).

(** Crash and restart, before anybody else hears of them. *)
Definition markDown (ev : SimEvent P) (l : Loop) : option Loop :=
  match ev_Kind ev with
  | KindCrash => Some (l <| lo_down := <[Z.to_nat (ev_Node ev) := true]> (lo_down l) |>)
  | KindRestart => scheduleTick (ev_Node ev) (l <| lo_down := <[Z.to_nat (ev_Node ev) := false]> (lo_down l) |>)
  | _ => Some l
  end.

Fixpoint judge (os : list ((Kind → bool) * (W → SimEvent P → option V))) (ev : SimEvent P) (l : Loop) : Loop :=
  match os with
  | [] => l
  | (interested, onStep) :: os =>
      if negb (interested (ev_Kind ev)) then judge os ev l
      else match onStep (lo_world l) ev with
           | Some v => l <| lo_halted := Some (v, lo_now l, lo_steps l) |>
           | None => judge os ev l
           end
  end.

(** An event of a node that is up, or one that says it goes down or comes up. *)
Definition reaches (ev : SimEvent P) (l : Loop) : bool :=
  negb (default false (lo_down l !! Z.to_nat (ev_Node ev))) || bool_decide (ev_Kind ev = KindRestart) || bool_decide (ev_Kind ev = KindCrash).

Definition dispatch (ev : SimEvent P) (l : Loop) : option Loop :=
  if bool_decide (ev_Kind ev = KindAction) then
    match ev_Payload ev with
    | None => Some l
    | Some p => '(w, rs) ← lc_act cfg p (lo_now l) (lo_world l); AtAll rs (l <| lo_world := w |>)
    end
  else if negb (reaches ev l) then Some l
  else
    '(w, rs) ← lc_handle cfg ev (lo_now l) (lo_world l);
    l ← AtAll rs (l <| lo_world := w |>);
    l ← (if bool_decide (ev_Kind ev = KindTick) then scheduleTick (ev_Node ev) l else Some l);
    Some (judge (lc_oracles cfg) ev l).

(** [Loop.step]: the event that fires, if there is one, and the loop after it. *)
Definition step (l : Loop) : option (option (SimEvent P) * Loop) :=
  match pop (lo_q l) with
  | None => Some (None, l)
  | Some (ev, q) =>
      if ev_At ev <? lo_now l then None
      else
        let l := l <| lo_q := q |> <| lo_now := ev_At ev |> <| lo_steps := add64 (lo_steps l) 1 |>
                   <| lo_census := λ k, if decide (k = ev_Kind ev) then add64 (lo_census l k) 1 else lo_census l k |> in
        cs ← mapM (Sim_Advance (lo_now l)) (lo_clocks l);
        l ← markDown ev (l <| lo_clocks := cs |>);
        l ← dispatch ev l;
        Some (Some ev, l)
  end.

Record Outcome := MkOutcome { oc_Kind : OutcomeKind; oc_At : Z; oc_Steps : Z; oc_Census : Kind → Z }.
Definition outcome (k : OutcomeKind) (l : Loop) : Outcome := MkOutcome k (lo_now l) (lo_steps l) (lo_census l).

(** A run ends, panics, is refused, or has not ended after [fuel] turns. *)
Inductive RunResult :=
| Ended (o : Outcome) (l : Loop)
| Panicked
| Refused
| Running (l : Loop).

Fixpoint runLoop (fuel : nat) (l : Loop) : RunResult :=
  match fuel with
  | O => Running l
  | S fuel =>
      match peek (lo_q l) with
      | None => let l := l <| lo_closed := true |> in Ended (outcome OutcomeQuiescent l) l
      | Some next =>
          if negb (lc_Until cfg =? 0) && (ev_At next >? lc_Until cfg) then
            let l := l <| lo_closed := true |> <| lo_now := lc_Until cfg |> in Ended (outcome OutcomeDeadline l) l
          else if negb (lc_MaxSteps cfg =? 0) && (lo_steps l >=? lc_MaxSteps cfg) then
            let l := l <| lo_closed := true |> in Ended (outcome OutcomeStepLimit l) l
          else
            match step l with
            | None => Panicked
            | Some (_, l) =>
                match lo_halted l with
                | Some _ => let l := l <| lo_closed := true |> in Ended (outcome OutcomeHalted l) l
                | None => runLoop fuel l
                end
            end
      end
  end.
Definition Run (fuel : nat) (l : Loop) : RunResult := if lo_closed l then Refused else runLoop fuel l.

(** ** What scheduling does *)

(** [k] events were scheduled, none of them into the past; nothing else of the queue,
    the time, the nodes or the clocks changed.  Unless the counter wrapped, the new events
    are numbered above the old count, all differently. *)
Record scheduled (k : nat) (l l' : Loop) : Prop := MkScheduled {
  sc_now : lo_now l' = lo_now l;
  sc_steps : lo_steps l' = lo_steps l;
  sc_clocks : lo_clocks l' = lo_clocks l;
  sc_heap : heap (lo_q l) → heap (lo_q l');
  sc_seq : lo_seq l' = if (k =? 0)%nat then lo_seq l else u64 (lo_seq l + Z.of_nat k);
  sc_new : ∃ new, lo_q l' ≡ₚ new ++ lo_q l ∧ length new = k
    ∧ Forall (λ e, lo_now l ≤ ev_At e) new
    ∧ (0 ≤ lo_seq l → lo_seq l + Z.of_nat k < 2 ^ 64 →
         Forall (λ e, lo_seq l < ev_Seq e ≤ lo_seq l + Z.of_nat k) new ∧ NoDup (ev_Seq <$> new));
}.

Lemma scheduled_none l l' :
  lo_q l' = lo_q l → lo_now l' = lo_now l → lo_steps l' = lo_steps l → lo_clocks l' = lo_clocks l → lo_seq l' = lo_seq l → scheduled 0 l l'.
Proof.
  intros Hq Hn Hs Hc Hsq. split; [done|done|done|by rewrite Hq|done|]. exists []. rewrite Hq. split_and!; [done|done|constructor|]. intros _ _. split; [constructor|apply NoDup_nil_2].
Qed.

Lemma scheduled_trans k k' l l1 l2 : scheduled k l l1 → scheduled k' l1 l2 → scheduled (k + k') l l2.
Proof.
  intros [N1 S1 C1 H1 Q1 (new1 & P1 & L1 & A1 & U1)] [N2 S2 C2 H2 Q2 (new2 & P2 & L2 & A2 & U2)]. split; [congruence|congruence|congruence|by auto| |].
  - destruct k as [|k]; [rewrite Q2, Q1; done|]. replace (S k + k' =? 0)%nat with false by done. cbn [Nat.eqb] in Q1. rewrite Q2, Q1.
    destruct (Nat.eqb_spec k' 0) as [->|]; [by rewrite Nat.add_0_r|]. unfold u64. rewrite Zplus_mod_idemp_l. f_equal. lia.
  - exists (new2 ++ new1). split_and!; [|rewrite length_app; lia| |].
    + rewrite P2, P1. by rewrite app_assoc.
    + rewrite N1 in A2. by apply Forall_app.
    + intros Hpos Hroom. destruct (U1 Hpos ltac:(lia)) as [F1 D1].
      assert (E1 : lo_seq l1 = lo_seq l + Z.of_nat k).
      { rewrite Q1. destruct (Nat.eqb_spec k 0) as [->|]; [lia|]. apply u64_small. unfold is_u64. lia. }
      destruct (U2 ltac:(lia) ltac:(lia)) as [F2 D2]. rewrite E1 in F2. split.
      * apply Forall_app. split; [eapply Forall_impl; [exact F2|]; cbn; lia|eapply Forall_impl; [exact F1|]; cbn; lia].
      * rewrite fmap_app. apply NoDup_app. split_and!; [done| |done]. intros s Hs2 Hs1.
        apply list_elem_of_fmap in Hs2 as (e2 & -> & He2). apply list_elem_of_fmap in Hs1 as (e1 & E & He1).
        rewrite Forall_forall in F1, F2. specialize (F1 e1 He1). specialize (F2 e2 He2). cbn in F1, F2. lia.
Qed.

Lemma At_scheduled r l l' : At r l = Some l' → scheduled 1 l l'.
Proof.
  unfold At. destruct (Z.ltb_spec (rq_At r) (lo_now l)) as [|Hat]; [done|]. case_test; [done|]. intros [= <-]. split; [done|done|done| | |].
  - intros Hh. cbn [lo_q]. by apply push_heap.
  - done.
  - exists [MkEvent (rq_At r) (rq_Kind r) (rq_Node r) (add64 (lo_seq l) 1) (rq_Payload r)]. split_and!; [apply push_perm|done|by apply Forall_singleton|].
    intros Hpos Hroom. rewrite add64_small by lia. split; [apply Forall_singleton; cbn; lia|apply NoDup_singleton].
Qed.

Lemma AtAll_scheduled rs l l' : AtAll rs l = Some l' → scheduled (length rs) l l'.
Proof.
  unfold AtAll. revert l. induction rs as [|r rs IH]; intros l; cbn [foldM]; [intros [= <-]; by apply scheduled_none|].
  intros (l1 & H1 & H)%bind_Some. apply At_scheduled in H1. apply IH in H. change (length (r :: rs)) with (1 + length rs)%nat. by eapply scheduled_trans.
Qed.
Lemma scheduleTick_scheduled node l l' : scheduleTick node l = Some l' → scheduled 1 l l'.
Proof.
  unfold scheduleTick. intros (c & _ & H)%bind_Some. apply bind_Some in H as (r & _ & H). apply bind_Some in H as ([at_ o] & _ & H). by apply At_scheduled in H.
Qed.
Lemma judge_scheduled os ev l : scheduled 0 l (judge os ev l).
Proof. induction os as [|[i o] os IH]; cbn [judge]; [by apply scheduled_none|]. case_match; [done|]. case_match; [by apply scheduled_none|done]. Qed.

Lemma scheduled_from k l0 l l' :
  lo_q l = lo_q l0 → lo_now l = lo_now l0 → lo_steps l = lo_steps l0 → lo_clocks l = lo_clocks l0 → lo_seq l = lo_seq l0 → scheduled k l l' → scheduled k l0 l'.
Proof. intros Hq Hn Hs Hc Hsq H. change k with (0 + k)%nat. eapply scheduled_trans; [|exact H]. by apply scheduled_none. Qed.

Lemma markDown_scheduled ev l l' : markDown ev l = Some l' → ∃ k, scheduled k l l'.
Proof.
  unfold markDown. destruct (ev_Kind ev); try (intros [= <-]; exists 0%nat; by apply scheduled_none).
  intros H%scheduleTick_scheduled. exists 1%nat. by eapply scheduled_from; [..|exact H].
Qed.

Lemma dispatch_scheduled ev l l' : dispatch ev l = Some l' → ∃ k, scheduled k l l'.
Proof.
  unfold dispatch. destruct (bool_decide (ev_Kind ev = KindAction)).
  - destruct (ev_Payload ev) as [p|]; [|intros [= <-]; exists 0%nat; by apply scheduled_none].
    intros ([w rs] & _ & H)%bind_Some. apply AtAll_scheduled in H as Hk. eexists. by eapply scheduled_from; [..|exact Hk].
  - destruct (negb (reaches ev l)); [intros [= <-]; exists 0%nat; by apply scheduled_none|].
    intros ([w rs] & _ & H)%bind_Some. apply bind_Some in H as (l1 & H1 & H). apply bind_Some in H as (l2 & H2 & [= <-]).
    apply AtAll_scheduled in H1 as Hk.
    assert (H2' : ∃ k2, scheduled k2 l1 l2).
    { destruct (bool_decide (ev_Kind ev = KindTick)); [apply scheduleTick_scheduled in H2; by exists 1%nat|injection H2 as <-; exists 0%nat; by apply scheduled_none]. }
    destruct H2' as [k2 Hk2]. exists (length rs + k2 + 0)%nat. eapply scheduled_trans; [|apply judge_scheduled]. eapply scheduled_trans; [|exact Hk2].
    by eapply scheduled_from; [..|exact Hk].
Qed.

(** One step: the earliest event leaves, others may come. *)
Lemma step_scheduled l ev l' :
  step l = Some (Some ev, l') →
  ∃ q cs k l1, pop (lo_q l) = Some (ev, q) ∧ lo_now l ≤ ev_At ev ∧ mapM (Sim_Advance (ev_At ev)) (lo_clocks l) = Some cs
    ∧ lo_q l1 = q ∧ lo_now l1 = ev_At ev ∧ lo_steps l1 = add64 (lo_steps l) 1 ∧ lo_clocks l1 = cs ∧ lo_seq l1 = lo_seq l ∧ scheduled k l1 l'.
Proof.
  unfold step. destruct (pop (lo_q l)) as [[e q]|]; [|done]. destruct (Z.ltb_spec (ev_At e) (lo_now l)) as [|Hat]; [done|]. cbv zeta.
  intros (cs & Hcs & H)%bind_Some. apply bind_Some in H as (l2 & H2 & H). apply bind_Some in H as (l3 & H3 & [= -> ->]).
  apply markDown_scheduled in H2 as [k2 K2]. apply dispatch_scheduled in H3 as [k3 K3].
  eexists q, cs, (k2 + k3)%nat, _. split_and!; [done|done|exact Hcs|..|eapply scheduled_trans; [exact K2|exact K3]]; done.
Qed.

(** ** Runs *)

(** The event counter did not wrap in a step: it grew by the number of events that came. *)
Definition unwrapped (l l' : Loop) : Prop := lo_seq l' = lo_seq l + Z.of_nat (length (lo_q l')) + 1 - Z.of_nat (length (lo_q l)).

Inductive fires (l0 : Loop) : list (SimEvent P) → Loop → Prop :=
| fires_none : fires l0 [] l0
| fires_more evs l ev l' : fires l0 evs l → step l = Some (Some ev, l') → unwrapped l l' → fires l0 (evs ++ [ev]) l'.

(** What is pending, and what has fired. *)
Record timely (evs : list (SimEvent P)) (l : Loop) : Prop := MkTimely {
  ti_heap : heap (lo_q l);
  ti_seq : 0 ≤ lo_seq l < 2 ^ 64;
  ti_pending : Forall (λ e, lo_now l ≤ ev_At e ∧ ev_Seq e ≤ lo_seq l) (lo_q l);
  ti_distinct : NoDup (ev_Seq <$> lo_q l);
  ti_clocks : Forall (λ c, si_now c ≤ lo_now l) (lo_clocks l);
  ti_fired : Forall (λ e, ev_At e ≤ lo_now l ∧ ev_Seq e ≤ lo_seq l) evs;
  ti_sorted : StronglySorted (λ e f, before e f = true) evs;
  ti_after : ∀ e f, e ∈ evs → f ∈ lo_q l → before e f = true;
  ti_last : ∀ e, last evs = Some e → lo_now l = ev_At e;
}.

Lemma timely_scheduled k evs l l' :
  scheduled k l l' → lo_seq l + Z.of_nat k < 2 ^ 64 → timely evs l → timely evs l'.
Proof.
  intros [N S C H Q (new & Pm & L & A & U)] Hroom [T1 T2 T3 T4 T5 T6 T7 T8 T9]. destruct (U ltac:(lia) Hroom) as [F D].
  assert (E : lo_seq l' = lo_seq l + Z.of_nat k).
  { rewrite Q. destruct (Nat.eqb_spec k 0) as [->|]; [lia|]. apply u64_small. unfold is_u64. lia. }
  rewrite Forall_forall in F, A, T3, T6. split; rewrite ?N, ?E, ?C; [by apply H|lia| | |done| |done| |done].
  - rewrite Pm. apply Forall_app. split; apply Forall_forall; intros e He; [|specialize (T3 e He); cbn in T3; lia]. specialize (F e He). specialize (A e He). cbn in F, A. lia.
  - rewrite Pm, fmap_app. apply NoDup_app. split_and!; [done| |done]. intros s Hs1 Hs2.
    apply list_elem_of_fmap in Hs1 as (e1 & -> & He1). apply list_elem_of_fmap in Hs2 as (e2 & Es & He2).
    specialize (F e1 He1). specialize (T3 e2 He2). cbn in F, T3. lia.
  - apply Forall_forall. intros e He. specialize (T6 e He). cbn in T6. lia.
  - intros e f He Hf. rewrite Pm in Hf. apply elem_of_app in Hf as [Hf|Hf]; [|by apply T8].
    specialize (F f Hf). specialize (A f Hf). specialize (T6 e He). cbn in F, A, T6. apply before_spec. lia.
Qed.

Lemma mapM_Advance t cs : Forall (λ c, si_now c ≤ t) cs → ∃ cs', mapM (Sim_Advance t) cs = Some cs' ∧ Forall (λ c, si_now c ≤ t) cs'.
Proof.
  induction 1 as [|c cs Hc _ (cs' & E & F)]; [by exists []|].
  change (mapM (Sim_Advance t) (c :: cs)) with (y ← Sim_Advance t c; k ← mapM (Sim_Advance t) cs; Some (y :: k)).
  assert (Ec : Sim_Advance t c = Some (MkSim (si_tl c) t (si_maxOffset c))) by (unfold Sim_Advance; by rewrite (proj2 (Z.ltb_ge _ _))).
  rewrite Ec. cbn [mbind option_bind]. rewrite E. cbn. eexists. split; [done|]. constructor; [cbn; lia|done].
Qed.

Lemma timely_step evs l ev l' : timely evs l → step l = Some (Some ev, l') → unwrapped l l' → timely (evs ++ [ev]) l'.
Proof.
  intros T Hst Hun. apply step_scheduled in Hst as (q & cs & k & l1 & Hp & Hat & Hcs & E1 & E2 & E3 & E4 & E5 & K).
  pose proof T as [T1 T2 T3 T4 T5 T6 T7 T8 T9]. pose proof (pop_heap _ T1) as Hpop. rewrite Hp in Hpop. destruct Hpop as (_ & G1 & G2 & G3).
  assert (Hk : lo_seq l + Z.of_nat k < 2 ^ 64).
  { destruct K as [_ _ _ _ Q (new & Pm & L & _)]. unfold unwrapped in Hun. pose proof (Permutation_length Pm) as HL. rewrite length_app, E1 in HL.
    pose proof (Permutation_length G2) as HL2. cbn in HL2. rewrite Q, E5 in Hun. destruct (Nat.eqb_spec k 0); [lia|].
    pose proof (u64_range (lo_seq l + Z.of_nat k)) as Hr. unfold is_u64 in Hr. lia. }
  apply (timely_scheduled k _ l1); [done|by rewrite E5|].
  assert (Hev : ev ∈ lo_q l) by (rewrite <- G2; left). rewrite Forall_forall in T3, T6.
  assert (Hq : ∀ f, f ∈ q → f ∈ lo_q l ∧ before ev f = true).
  { intros f Hf. assert (Hf' : f ∈ lo_q l) by (rewrite <- G2; by right). split; [done|]. specialize (G3 f Hf'). apply ev_le_spec in G3. apply before_spec.
    assert (ev_Seq ev ≠ ev_Seq f); [|lia]. intros Es. rewrite <- G2 in T4. cbn [fmap list_fmap] in T4. apply NoDup_cons in T4 as [Hn _].
    apply Hn. rewrite Es. apply list_elem_of_fmap. by exists f. }
  destruct (mapM_Advance (ev_At ev) (lo_clocks l)) as (cs' & E & F); [eapply Forall_impl; [exact T5|]; cbn; lia|]. rewrite E in Hcs. injection Hcs as ->.
  pose proof (T3 ev Hev) as T3e. cbn in T3e.
  split; rewrite ?E1, ?E2, ?E5, ?E4; [done|done| | |done| | | |].
  - apply Forall_forall. intros f Hf. destruct (Hq f Hf) as [Hf' Hb]. specialize (T3 f Hf'). cbn in T3. apply before_spec in Hb. lia.
  - rewrite <- G2 in T4. cbn [fmap list_fmap] in T4. by apply NoDup_cons in T4 as [_ ?].
  - apply Forall_app. split; [apply Forall_forall; intros e He; specialize (T6 e He); cbn in T6; lia|]. apply Forall_singleton. lia.
  - apply StronglySorted_app_2; [|done|by repeat constructor]. intros e f He Hf%list_elem_of_singleton. subst f. by apply T8.
  - intros e f He Hf. destruct (Hq f Hf) as [Hf' Hb]. apply elem_of_app in He as [He|He%list_elem_of_singleton]; [by apply T8|by subst e].
  - intros e He. rewrite last_snoc in He. by injection He as <-.
Qed.

Lemma NewLoop_timely nodes clocks w l :
  NewLoop nodes clocks w = Some (Ok l) → Forall (λ c, si_now c = 0) clocks → Z.of_nat nodes < 2 ^ 64 → timely [] l ∧ lo_seq l = Z.of_nat nodes.
Proof.
  unfold NewLoop. repeat (case_match; [done|]). intros (l1 & Hf & [= <-])%bind_Some Hc Hn.
  set (l0 := MkLoop [] 0 0 0 _ _ _ _ _ _) in Hf.
  assert (K : ∀ xs a b, foldM (λ l i, scheduleTick (Z.of_nat i) l) a xs = Some b → scheduled (length xs) a b).
  { induction xs as [|x xs IH]; intros a b; cbn [foldM]; [intros [= <-]; by apply scheduled_none|]. intros (c & Hx & Hr)%bind_Some.
    change (length (x :: xs)) with (1 + length xs)%nat. eapply scheduled_trans; [by eapply scheduleTick_scheduled|by apply IH]. }
  apply K in Hf. rewrite length_seq in Hf. split.
  - apply (timely_scheduled nodes [] l0); [done|cbn; lia|]. split; cbn [lo_q lo_seq lo_now lo_clocks l0]; try by constructor.
    + intros j _ a b Ha. by rewrite lookup_nil in Ha.
    + eapply Forall_impl; [exact Hc|]. cbn. lia.
    + intros e f He. by apply elem_of_nil in He.
    + done.
  - destruct Hf as [_ _ _ _ Q _]. rewrite Q. destruct (Nat.eqb_spec nodes 0) as [->|]; [done|]. cbn [lo_seq l0]. apply u64_small. unfold is_u64. lia.
Qed.

(** C33. Virtual time is an order: from a new loop with whatever the harness schedules
    into it, and whatever the nodes, the actions and the oracles do, the events of a
    run fire in strictly increasing order of instant and, within an instant, of
    scheduling; the time is that of the last event; and the next event is never in the
    past of the loop or of any clock, so neither of the two panics for time moving
    backwards can be reached.  (Provided the 64-bit counter of events does not wrap.) *)
Theorem loop_ordered nodes clocks w l0 rs l1 evs l :
  NewLoop nodes clocks w = Some (Ok l0) → Forall (λ c, si_now c = 0) clocks → Z.of_nat nodes + Z.of_nat (length rs) < 2 ^ 64 →
  AtAll rs l0 = Some l1 → fires l1 evs l →
  StronglySorted (λ e f, before e f = true) evs
  ∧ (∀ e, last evs = Some e → lo_now l = ev_At e)
  ∧ match pop (lo_q l) with
    | None => lo_q l = []
    | Some (ev, _) => lo_now l ≤ ev_At ev ∧ is_Some (mapM (Sim_Advance (ev_At ev)) (lo_clocks l)) ∧ ∀ e, e ∈ evs → before e ev = true
    end.
Proof.
  intros Hnew Hc Hroom Hat Hf. apply NewLoop_timely in Hnew as [T0 Es]; [|done|lia]. apply AtAll_scheduled in Hat.
  apply (timely_scheduled (length rs) [] l0 l1 Hat) in T0; [|lia].
  assert (T : timely evs l) by (induction Hf as [|evs l ev l' _ IH Hst Hun]; [done|by eapply timely_step]).
  destruct T as [T1 _ T3 _ T5 _ T7 T8 T9]. split_and!; [done|done|]. pose proof (pop_heap _ T1) as Hp. destruct (pop (lo_q l)) as [[ev q]|]; [|done].
  destruct Hp as (_ & _ & Hp & _). assert (Hev : ev ∈ lo_q l) by (rewrite <- Hp; left). rewrite Forall_forall in T3. destruct (T3 ev Hev) as [Hle _].
  split_and!; [done| |intros e He; by apply T8]. destruct (mapM_Advance (ev_At ev) (lo_clocks l)) as (cs & -> & _); [eapply Forall_impl; [exact T5|]; cbn; lia|by eexists].
Qed.

(** A bounded run ends: with a step limit, and whatever the nodes schedule, [Run]
    ends, or panics in something it called, within as many turns as steps are left; and
    the outcome tells how: at the deadline with work still pending beyond it, with
    nothing left to do, with an oracle's violation, or at the limit exactly. *)
Theorem Run_terminates l fuel :
  heap (lo_q l) → 0 ≤ lo_steps l → 0 < lc_MaxSteps cfg < 2 ^ 64 → lo_halted l = None → lo_closed l = false →
  Z.of_nat fuel > Z.max 0 (lc_MaxSteps cfg - lo_steps l) →
  match Run fuel l with
  | Ended o l' =>
      lo_closed l' = true ∧ oc_At o = lo_now l'
      ∧ match oc_Kind o with
        | OutcomeDeadline => lo_now l' = lc_Until cfg ∧ ∃ e, peek (lo_q l') = Some e ∧ lc_Until cfg < ev_At e
        | OutcomeQuiescent => lo_q l' = []
        | OutcomeHalted => is_Some (lo_halted l')
        | OutcomeStepLimit => lc_MaxSteps cfg ≤ oc_Steps o
        end
  | Panicked => True
  | Refused | Running _ => False
  end.
Proof.
  intros Hh H0 Hm Hhalt Hcl Hfuel. unfold Run. rewrite Hcl. clear Hcl. revert l Hh H0 Hhalt Hfuel.
  induction fuel as [|fuel IH]; intros l Hh H0 Hhalt Hfuel; [lia|]. cbn [runLoop].
  destruct (peek (lo_q l)) as [next|] eqn:Ep.
  2:{ cbn. split_and!; [done|done|]. unfold peek in Ep. by destruct (lo_q l). }
  destruct (negb (lc_Until cfg =? 0) && (ev_At next >? lc_Until cfg)) eqn:Ed.
  { cbn. split_and!; [done|done|done|]. exists next. split; [done|]. bool_hyps. lia. }
  destruct (negb (lc_MaxSteps cfg =? 0) && (lo_steps l >=? lc_MaxSteps cfg)) eqn:El.
  { cbn. split_and!; [done|done|]. bool_hyps. lia. }
  assert (Hlt : lo_steps l < lc_MaxSteps cfg) by (destruct (Z.geb_spec (lo_steps l) (lc_MaxSteps cfg)); [|lia]; destruct (Z.eqb_spec (lc_MaxSteps cfg) 0); [lia|done]).
  destruct (step l) as [[[ev|] l']|] eqn:Es; [|exfalso|done].
  2:{ unfold step in Es. pose proof (pop_heap _ Hh) as Hp. destruct (pop (lo_q l)) as [[e q]|]; [|by rewrite Hp in Ep].
      case_match; [done|]. cbv zeta in Es. apply bind_Some in Es as (? & _ & Es). apply bind_Some in Es as (? & _ & Es). by apply bind_Some in Es as (? & _ & [=]). }
  apply step_scheduled in Es as (q & cs & k & l1 & Hp & _ & _ & E1 & _ & E3 & _ & _ & K).
  pose proof (pop_heap _ Hh) as Hpp. rewrite Hp in Hpp. destruct Hpp as (_ & G1 & _).
  destruct (lo_halted l') as [v|] eqn:Ev; [cbn; rewrite Ev; by split_and!|].
  destruct K as [_ S _ H _ _]. rewrite E3, add64_small in S by lia. apply IH; [apply H; by rewrite E1|lia|done|lia].
Qed.
End Loop.

(** ** A node that is restarted between two ticks *)

(** A world that notes the instants of the ticks its one node hears; no oracles. *)
Definition tickCfg : LoopConfig (P := unit) (W := list Z) (V := unit) :=
  MkLoopConfig 10 100 20
    (λ ev _ w, Some (if bool_decide (ev_Kind ev = KindTick) then w ++ [ev_At ev] else w, []))
    (λ _ _ w, Some (w, [])) [].
(** Its clock boots at 15. *)
Definition tickClock : Sim := MkSim (MkTimeline [MkSegment 0 0 0] [] [15] 0) 0 0.
Definition fallLoop : option (Loop (P := unit) (W := list Z) (V := unit)) := match NewLoop tickCfg 1 [tickClock] [] with Some (Ok l) => Some l | _ => None end.
Definition crashAndRestart : list (request unit) := [MkReq 12 KindCrash 0 None; MkReq 15 KindRestart 0 None].
Definition longerOutage : list (request unit) := [MkReq 5 KindCrash 0 None; MkReq 15 KindRestart 0 None].

Definition heard (rs : list (request unit)) (fuel : nat) : option (list Z) :=
  l ← fallLoop; l ← AtAll rs l; match runLoop tickCfg fuel l with Ended _ l | Running l => Some (lo_world l) | _ => None end.

(** Ticks double: a node that crashes and is restarted before its pending tick keeps
    that tick and is given another, and from then on hears every tick twice; one whose
    pending tick came while it was down hears each once. *)
Theorem restart_doubles_ticks :
  heard crashAndRestart 11 = Some [10; 25; 25; 35; 35; 45; 45; 55; 55]
  ∧ heard longerOutage 8 = Some [25; 35; 45; 55; 65].
Proof. by vm_compute. Qed.

Definition tickLoop0 : Loop (P := unit) (W := list Z) (V := unit) :=
  MkLoop (push (MkEvent 10 KindTick 0 1 None) []) 0 1 0 (λ _, 0) false None [false] [tickClock] [].

Lemma loop_ordered_witness :
  ∃ ev l, step tickCfg tickLoop0 = Some (Some ev, l) ∧ StronglySorted (λ e f, before e f = true) [ev] ∧ lo_now l = 10.
Proof.
  destruct (step tickCfg tickLoop0) as [[[ev|] l]|] eqn:E; [|exfalso; vm_compute in E; discriminate E..].
  exists ev, l. split; [reflexivity|].
  assert (H : fires tickCfg tickLoop0 [ev] l).
  { apply (fires_more tickCfg tickLoop0 [] tickLoop0); [constructor|exact E|]. vm_compute in E. injection E as _ <-. by vm_compute. }
  assert (Hs : lo_now l = 10) by (vm_compute in E; injection E as _ <-; done).
  split; [|exact Hs]. apply (loop_ordered tickCfg 1 [tickClock] [] tickLoop0 [] tickLoop0 [ev] l).
  - vm_compute. reflexivity.
  - constructor; [reflexivity|constructor].
  - vm_compute. reflexivity.
  - reflexivity.
  - exact H.
Defined.

Lemma Run_terminates_witness :
  match Run tickCfg 21 tickLoop0 with Ended o l => oc_Kind o = OutcomeDeadline ∧ lo_closed l = true | _ => False end.
Proof.
  assert (E : match Run tickCfg 21 tickLoop0 with Ended o _ => oc_Kind o = OutcomeDeadline | _ => False end) by (vm_compute; reflexivity).
  pose proof (Run_terminates tickCfg tickLoop0 21) as H. revert E H. generalize (Run tickCfg 21 tickLoop0). intros [o l| | |l]; [|intros []..]. intros E H.
  split; [exact E|]. apply H.
  - intros [|[|j]] Hj a b; [lia| |]; cbn; discriminate.
  - discriminate.
  - split; reflexivity.
  - reflexivity.
  - reflexivity.
  - reflexivity.
Defined.
