(* ===== verification/SimTransport.v ===== *)
(** * The simulated network and its dice

    internal/rng's keyed function and sim/transport.go: every drop, duplicate and delay
    of a message is a function of the key, the directed link and the message's ordinal
    on it, and of nothing else.  sim/history.go, the record of what clients asked and
    were told, closes the file. *)

From Stdlib Require Import Lia ZArith.
From stdpp Require Import base tactics numbers option countable gmap sorting list.
From S2P Require Import Prelude Bytes NetCodec SimQueue SimLoop.

(** ** The keyed function *)

Definition golden : Z := 0x9e3779b97f4a7c15.
Definition mul64 (a b : Z) : Z := u64 (a * b).

Definition mix (z : Z) : Z :=
  let z := Z.lxor z (Z.shiftr z 30) in
  let z := mul64 z 0xbf58476d1ce4e5b9 in
  let z := Z.lxor z (Z.shiftr z 27) in
  let z := mul64 z 0x94d049bb133111eb in
  Z.lxor z (Z.shiftr z 31).

Record Key := MkKey { key_Hi : Z; key_Lo : Z }.

Definition PRF (k : Key) (d a b c : Z) : Z :=
  let h := mix (Z.lxor (key_Lo k) (mul64 (add64 d 1) golden)) in
  let h := mix (Z.lxor (Z.lxor h (key_Hi k)) a) in
  let h := mix (Z.lxor h b) in
  mix (Z.lxor h c).

(** The high word of the product; a range of nothing panics. *)
Definition Key_Uint64N (k : Key) (d a b c n : Z) : option Z :=
  if n =? 0 then None else Some (Z.shiftr (PRF k d a b c * n) 64).

Definition Key_Between (k : Key) (d a b c lo hi : Z) : option Z :=
  if hi <=? lo then None else v ← Key_Uint64N k d a b c (hi - lo); Some (add64 lo v).

(** ** Links *)

Record LinkParams := MkLink { lp_DropPerMille : Z; lp_DupPerMille : Z; lp_LatMin : Z; lp_LatMax : Z; lp_TailPerMille : Z; lp_TailMax : Z }.
Definition DefaultLink : LinkParams := MkLink 10 2 200000 3000000 5 80000000.

Definition linkID : Type := Z * Z.
Definition perMilleDomain : Z := 1.
Definition dupDomain : Z := 2.
Definition latDomain : Z := 3.
Definition tailDomain : Z := 4.
Definition tailLenDomain : Z := 5.

(** What the run's counters are told. *)
Inductive Injector := InjSent | InjDrop | InjDuplicate | InjTailLatency | InjPartition | InjPartitionDrop.

Record SimTransport := MkTransport {
  tp_key : Key;
  tp_links : gmap linkID LinkParams;
  tp_def : LinkParams;
  tp_ordinal : gmap linkID Z;
  tp_cut : gset linkID;
}.

#[global] Instance SimTransport_eta : Eta SimTransport := λ t, MkTransport (tp_key t) (tp_links t) (tp_def t) (tp_ordinal t) (tp_cut t).
#[global] Instance upd_tp_links : Field tp_links := ltac:(derive_field).
#[global] Instance upd_tp_def : Field tp_def := ltac:(derive_field).
#[global] Instance upd_tp_ordinal : Field tp_ordinal := ltac:(derive_field).
#[global] Instance upd_tp_cut : Field tp_cut := ltac:(derive_field).

Definition NewSimTransport (k : Key) : SimTransport := MkTransport k ∅ DefaultLink ∅ ∅.
Definition SetLink (from to : Z) (p : LinkParams) (t : SimTransport) : SimTransport := t <| tp_links := <[(from, to) := p]> (tp_links t) |>.
Definition SetDefaultLink (p : LinkParams) (t : SimTransport) : SimTransport := t <| tp_def := p |>.
Definition Cut (from to : Z) (t : SimTransport) : SimTransport * list Injector :=
  if bool_decide ((from, to) ∈ tp_cut t) then (t, []) else (t <| tp_cut := {[(from, to)]} ∪ tp_cut t |>, [InjPartition]).
Definition Heal (from to : Z) (t : SimTransport) : SimTransport := t <| tp_cut := tp_cut t ∖ {[(from, to)]} |>.
Definition CutBoth (a b : Z) (t : SimTransport) : SimTransport * list Injector :=
  let '(t, i) := Cut a b t in let '(t, j) := Cut b a t in (t, i ++ j).
Definition HealBoth (a b : Z) (t : SimTransport) : SimTransport := Heal b a (Heal a b t).

(** ** Sending *)

Section Dice.
Context (k : Key).

Definition dice (d a b c perMille : Z) : option bool :=
  if perMille =? 0 then Some false
  else if perMille >=? 1000 then Some true
  else v ← Key_Uint64N k d a b c 1000; Some (v <? perMille).

Definition latency (from to ord copyIdx : Z) (p : LinkParams) : option (Z * list Injector) :=
  let span := i64 (lp_LatMax p - lp_LatMin p) in
  let span := if span <? 0 then 0 else span in
  let c := add64 (mul64 ord 2) copyIdx in
  base ← (if span >? 0 then (λ v, i64 (lp_LatMin p + i64 v)) <$> Key_Uint64N k latDomain from to c (u64 span) else Some (lp_LatMin p));
  late ← dice tailDomain from to c (lp_TailPerMille p);
  if (late : bool) then
    base ← (if lp_TailMax p >? 0 then (λ v, i64 (base + i64 v)) <$> Key_Uint64N k tailLenDomain from to c (u64 (lp_TailMax p)) else Some base);
    Some (base, [InjTailLatency])
  else Some (base, []).

Definition deliverCopy (frame : bytes) (e : Envelope) (p : LinkParams) (ord copyIdx now : Z) : option (request bytes * list Injector) :=
  '(lat, inj) ← latency (en_From e) (en_To e) ord copyIdx p;
  Some (MkReq (i64 (now + lat)) KindDeliver (en_To e) (Some frame), inj).

(** What becomes of the message with this ordinal on its link. *)
Definition transmit (p : LinkParams) (frame : bytes) (e : Envelope) (ord now : Z) : option (list (request bytes) * list Injector) :=
  lost ← dice perMilleDomain (en_From e) (en_To e) ord (lp_DropPerMille p);
  if (lost : bool) then Some ([], [InjDrop])
  else
    '(r, inj) ← deliverCopy frame e p ord 0 now;
    dup ← dice dupDomain (en_From e) (en_To e) ord (lp_DupPerMille p);
    if (dup : bool) then '(r', inj') ← deliverCopy frame e p ord 1 now; Some ([r; r'], inj ++ [InjDuplicate] ++ inj')
    else Some ([r], inj).
End Dice.

(** [SimTransport.Send] at an instant: what it schedules.  An envelope that does not
    encode panics. *)
Definition Send (now : Z) (e : Envelope) (t : SimTransport) : option (SimTransport * list (request bytes) * list Injector) :=
  let id : linkID := (en_From e, en_To e) in
  let ord := add64 (default 0 (tp_ordinal t !! id)) 1 in
  let t := t <| tp_ordinal := <[id := ord]> (tp_ordinal t) |> in
  match Encode e with
  | Err _ => None
  | Ok frame =>
      if bool_decide (id ∈ tp_cut t) then Some (t, [], [InjSent; InjPartitionDrop])
      else
        '(rs, inj) ← transmit (tp_key t) (default (tp_def t) (tp_links t !! id)) frame e ord now;
        Some (t, rs, InjSent :: inj)
  end.

(** Sends in order, each with its instant; what each scheduled. *)
Fixpoint SendAll (xs : list (Z * Envelope)) (t : SimTransport) : option (list (linkID * list (request bytes))) :=
  match xs with
  | [] => Some []
  | (now, e) :: xs =>
      '(t, rs, _) ← Send now e t;
      out ← SendAll xs t;
      Some (((en_From e, en_To e), rs) :: out)
  end.

(** ** The dice do not collide *)

Lemma xorshift_inj k z w : 0 < k → 0 ≤ z < 2 ^ 64 → 0 ≤ w < 2 ^ 64 → Z.lxor z (Z.shiftr z k) = Z.lxor w (Z.shiftr w k) → z = w.
Proof.
  intros Hk Hz Hw He.
  assert (Hhigh : ∀ v i, 0 ≤ v < 2 ^ 64 → 64 ≤ i → Z.testbit v i = false).
  { intros v i [Hv1 Hv2] Hi. destruct (decide (v = 0)) as [->|]; [apply Z.bits_0|]. apply Z.bits_above_log2; [lia|].
    assert (Z.log2 v < 64) by (apply Z.log2_lt_pow2; lia). lia. }
  assert (Hbits : ∀ n i, 0 ≤ i → 64 - i ≤ Z.of_nat n → Z.testbit z i = Z.testbit w i).
  { induction n as [|n IH]; intros i Hi Hn; [rewrite !Hhigh by lia; done|].
    pose proof (f_equal (λ v, Z.testbit v i) He) as Hb. cbv beta in Hb. rewrite !Z.lxor_spec, !Z.shiftr_spec in Hb by lia.
    rewrite (IH (i + k)) in Hb by lia. by destruct (Z.testbit z i), (Z.testbit w i), (Z.testbit w (i + k)). }
  apply Z.bits_inj'. intros i Hi. apply (Hbits 64%nat); lia.
Qed.

Lemma lxor_range a b : 0 ≤ a < 2 ^ 64 → 0 ≤ b < 2 ^ 64 → 0 ≤ Z.lxor a b < 2 ^ 64.
Proof.
  intros Ha Hb. assert (H0 : 0 ≤ Z.lxor a b) by (apply Z.lxor_nonneg; lia). split; [done|].
  destruct (decide (Z.lxor a b = 0)) as [->|Hn]; [lia|]. apply Z.log2_lt_pow2; [lia|].
  assert (Hl : ∀ v, 0 ≤ v < 2 ^ 64 → Z.log2 v < 64) by (intros v Hv; destruct (decide (v = 0)) as [->|]; [done|apply Z.log2_lt_pow2; lia]).
  eapply Z.le_lt_trans; [apply Z.log2_lxor; lia|]. apply Z.max_lub_lt; by apply Hl.
Qed.
Lemma xorshift_range k z : 0 < k → 0 ≤ z < 2 ^ 64 → 0 ≤ Z.lxor z (Z.shiftr z k) < 2 ^ 64.
Proof.
  intros Hk Hz. apply lxor_range; [done|]. rewrite Z.shiftr_div_pow2 by lia. assert (0 < 2 ^ k) by (apply Z.pow_pos_nonneg; lia).
  split; [apply Z.div_pos; lia|]. apply Z.div_lt_upper_bound; [done|]. nia.
Qed.

Lemma mul64_inj c c' a b : u64 (c * c') = 1 → 0 ≤ a < 2 ^ 64 → 0 ≤ b < 2 ^ 64 → mul64 a c = mul64 b c → a = b.
Proof.
  intros Hc Ha Hb He. assert (H : ∀ v, 0 ≤ v < 2 ^ 64 → u64 (mul64 v c * c') = v).
  { intros v Hv. unfold mul64, u64 in *. rewrite Zmult_mod_idemp_l. replace (v * c * c') with (v * (c * c')) by lia.
    rewrite <- Zmult_mod_idemp_r, Hc, Z.mul_1_r. by apply Z.mod_small. }
  rewrite <- (H a Ha), <- (H b Hb), He. done.
Qed.

Lemma mul64_range a b : 0 ≤ mul64 a b < 2 ^ 64.
Proof. apply u64_range. Qed.
Lemma lxor_inj a b c : Z.lxor c a = Z.lxor c b → a = b.
Proof.
  intros H. apply (f_equal (Z.lxor c)) in H. by rewrite <- !Z.lxor_assoc, Z.lxor_nilpotent, !Z.lxor_0_l in H.
Qed.
Lemma lxor_inj_l a b c : Z.lxor a c = Z.lxor b c → a = b.
Proof. rewrite !(Z.lxor_comm _ c). apply lxor_inj. Qed.

Lemma mix_range z : 0 ≤ z < 2 ^ 64 → 0 ≤ mix z < 2 ^ 64.
Proof. intros Hz. unfold mix. cbv zeta. apply xorshift_range; [lia|apply mul64_range]. Qed.

Lemma mix_inj z w : 0 ≤ z < 2 ^ 64 → 0 ≤ w < 2 ^ 64 → mix z = mix w → z = w.
Proof.
  intros Hz Hw H. unfold mix in H. cbv zeta in H. apply xorshift_inj in H; [|lia|apply mul64_range..].
  apply (mul64_inj _ 0x319642b2d24d8ec3) in H; [|by vm_compute|apply xorshift_range; [lia|apply mul64_range]..].
  apply xorshift_inj in H; [|lia|apply mul64_range..].
  apply (mul64_inj _ 0x96de1b173f119089) in H; [|by vm_compute|by apply xorshift_range..].
  by apply xorshift_inj in H.
Qed.

Record key_wf (k : Key) : Prop := MkKeyWf { kw_hi : 0 ≤ key_Hi k < 2 ^ 64; kw_lo : 0 ≤ key_Lo k < 2 ^ 64 }.

Opaque mix.

Definition word (v : Z) : Prop := 0 ≤ v < 2 ^ 64.

Section Identities.
Context (k : Key) (Hk : key_wf k).

Lemma start_word d : 0 ≤ d < 2 ^ 32 → word (mix (Z.lxor (key_Lo k) (mul64 (add64 d 1) golden))).
Proof using Hk. intros Hd. apply mix_range, lxor_range; [apply Hk|apply mul64_range]. Qed.
Lemma turn_word h x : word h → word x → word (mix (Z.lxor h x)).
Proof using. intros Hh Hx. by apply mix_range, lxor_range. Qed.
Lemma turn_inj h x y : word h → word x → word y → mix (Z.lxor h x) = mix (Z.lxor h y) → x = y.
Proof using. intros Hh Hx Hy H. apply mix_inj in H; [by apply lxor_inj in H|by apply lxor_range..]. Qed.
Lemma turn_inj_l h h' x : word h → word h' → word x → mix (Z.lxor h x) = mix (Z.lxor h' x) → h = h'.
Proof using. intros Hh Hx Hy H. apply mix_inj in H; [by apply lxor_inj_l in H|by apply lxor_range..]. Qed.

Lemma turns_separate hi s s' a a' b b' c c' :
  word hi → word s → word s' → word a → word a' → word b → word b' → word c → word c' →
  mix (Z.lxor (mix (Z.lxor (mix (Z.lxor (Z.lxor s hi) a)) b)) c) = mix (Z.lxor (mix (Z.lxor (mix (Z.lxor (Z.lxor s' hi) a')) b')) c') →
  (a = a' → b = b' → c = c' → s = s') ∧ (s = s' → b = b' → c = c' → a = a')
  ∧ (s = s' → a = a' → c = c' → b = b') ∧ (s = s' → a = a' → b = b' → c = c').
Proof using.
  intros Hh Hs Hs' Ha Ha' Hb Hb' Hc Hc' H.
  assert (X : word (Z.lxor s hi)) by (by apply lxor_range). assert (X' : word (Z.lxor s' hi)) by (by apply lxor_range).
  pose proof (turn_word _ _ X Ha) as Y. pose proof (turn_word _ _ X' Ha') as Y'. pose proof (turn_word _ _ Y Hb) as Z1. pose proof (turn_word _ _ Y' Hb') as Z2.
  split_and!; [intros <- <- <-|intros <- <- <-|intros <- <- <-|intros <- <- <-].
  - apply (turn_inj_l _ _ _ Z1 Z2 Hc), (turn_inj_l _ _ _ Y Y' Hb), (turn_inj_l _ _ _ X X' Ha) in H. by apply lxor_inj_l in H.
  - apply (turn_inj_l _ _ _ Z1 Z2 Hc), (turn_inj_l _ _ _ Y Y' Hb) in H. exact (turn_inj _ _ _ X Ha Ha' H).
  - apply (turn_inj_l _ _ _ Z1 Z2 Hc) in H. exact (turn_inj _ _ _ Y Hb Hb' H).
  - exact (turn_inj _ _ _ Z1 Hc Hc' H).
Qed.

Lemma start_inj d d' :
  0 ≤ d < 2 ^ 32 → 0 ≤ d' < 2 ^ 32 →
  mix (Z.lxor (key_Lo k) (mul64 (add64 d 1) golden)) = mix (Z.lxor (key_Lo k) (mul64 (add64 d' 1) golden)) → d = d'.
Proof using Hk.
  intros Hd Hd' H. apply mix_inj in H; [|apply lxor_range; [apply Hk|apply mul64_range]..]. apply lxor_inj in H.
  apply (mul64_inj _ 0xf1de83e19937733d) in H; [|by vm_compute|apply u64_range..]. rewrite !add64_small in H by lia. lia.
Qed.

(** Two identities that differ in one component are never given the same value. *)
Lemma PRF_separates d d' a a' b b' c c' :
  0 ≤ d < 2 ^ 32 → 0 ≤ d' < 2 ^ 32 → word a → word a' → word b → word b' → word c → word c' →
  PRF k d a b c = PRF k d' a' b' c' →
  (a = a' → b = b' → c = c' → d = d') ∧ (d = d' → b = b' → c = c' → a = a')
  ∧ (d = d' → a = a' → c = c' → b = b') ∧ (d = d' → a = a' → b = b' → c = c').
Proof using Hk.
  intros Hd Hd' Ha Ha' Hb Hb' Hc Hc' H. unfold PRF in H. cbv zeta in H.
  apply turns_separate in H as (S & A & B & C); [|apply Hk|by apply start_word|by apply start_word|done..].
  split_and!; [intros; by apply start_inj, S|intros -> ??; by apply A|intros -> ??; by apply B|intros -> ??; by apply C].
Qed.

Lemma PRF_word d a b c : 0 ≤ d < 2 ^ 32 → word a → word b → word c → word (PRF k d a b c).
Proof using Hk.
  intros Hd Ha Hb Hc. unfold PRF. cbv zeta. apply turn_word; [|done]. apply turn_word; [|done]. apply turn_word; [|done].
  apply lxor_range; [by apply start_word|apply Hk].
Qed.

Lemma Key_Uint64N_range d a b c n : 0 ≤ d < 2 ^ 32 → word a → word b → word c → 0 < n → ∃ v, Key_Uint64N k d a b c n = Some v ∧ 0 ≤ v < n.
Proof using Hk.
  intros Hd Ha Hb Hc Hn. unfold Key_Uint64N. rewrite (proj2 (Z.eqb_neq _ _)) by lia. eexists. split; [done|].
  pose proof (PRF_word d a b c Hd Ha Hb Hc) as Hw. unfold word in Hw. rewrite Z.shiftr_div_pow2 by lia. split; [apply Z.div_pos; lia|].
  apply Z.div_lt_upper_bound; [lia|]. nia.
Qed.
End Identities.
Transparent mix.

(** ** One link at a time *)

(** Two networks that agree about a link: the same key, and on the link the same
    parameters, the same partition and the same count of messages. *)
Record agree (id : linkID) (t t' : SimTransport) : Prop := MkAgree {
  ag_key : tp_key t = tp_key t';
  ag_link : default (tp_def t) (tp_links t !! id) = default (tp_def t') (tp_links t' !! id);
  ag_ordinal : default 0 (tp_ordinal t !! id) = default 0 (tp_ordinal t' !! id);
  ag_cut : id ∈ tp_cut t ↔ id ∈ tp_cut t';
}.

Definition linkOf (x : Z * Envelope) : linkID := (en_From (snd x), en_To (snd x)).

(** One more message on the link. *)
Definition counted (id : linkID) (t : SimTransport) : SimTransport :=
  t <| tp_ordinal := <[id := add64 (default 0 (tp_ordinal t !! id)) 1]> (tp_ordinal t) |>.

Lemma counted_ordinal id t : tp_ordinal (counted id t) = <[id := add64 (default 0 (tp_ordinal t !! id)) 1]> (tp_ordinal t).
Proof. done. Qed.
Lemma agree_counted id id' t t' : agree id t t' → agree id (counted id' t) (counted id' t').
Proof.
  intros [A1 A2 A3 A4]. split; [done|done| |done]. rewrite !counted_ordinal.
  destruct (decide (id' = id)) as [->|]; [rewrite !lookup_insert_eq; cbn; by rewrite A3|by rewrite !lookup_insert_ne].
Qed.
Lemma agree_elsewhere id id' t t' : id' ≠ id → agree id t t' → agree id (counted id' t) t'.
Proof. intros Hne [A1 A2 A3 A4]. split; [done|done| |done]. by rewrite counted_ordinal, lookup_insert_ne. Qed.

Lemma Send_eq now e t :
  Send now e t =
  let id : linkID := (en_From e, en_To e) in
  match Encode e with
  | Err _ => None
  | Ok frame =>
      if bool_decide (id ∈ tp_cut t) then Some (counted id t, [], [InjSent; InjPartitionDrop])
      else
        '(rs, inj) ← transmit (tp_key t) (default (tp_def t) (tp_links t !! id)) frame e (add64 (default 0 (tp_ordinal t !! id)) 1) now;
        Some (counted id t, rs, InjSent :: inj)
  end.
Proof. reflexivity. Qed.

Lemma Send_counted now e t t1 rs inj : Send now e t = Some (t1, rs, inj) → t1 = counted (en_From e, en_To e) t.
Proof.
  rewrite Send_eq. cbv zeta. destruct (Encode e) as [f|]; [|done]. case_match; [by intros [= <- _ _]|]. intros ([rs0 inj0] & _ & [= <- _ _])%bind_Some. done.
Qed.

(** A message on the link fares the same in both. *)
Lemma Send_same now e t t' t1 rs inj :
  agree (en_From e, en_To e) t t' → Send now e t = Some (t1, rs, inj) → Send now e t' = Some (counted (en_From e, en_To e) t', rs, inj).
Proof.
  intros [A1 A2 A3 A4]. rewrite !Send_eq. cbv zeta. destruct (Encode e) as [f|]; [|done]. rewrite A1, A2, A3, (bool_decide_ext _ _ A4).
  destruct (bool_decide _); [by intros [= _ <- <-]|]. intros ([rs0 inj0] & T & [= _ <- <-])%bind_Some. by rewrite T.
Qed.

(** What happens to the link is what happens to its messages alone. *)
Lemma SendAll_link id xs t t' out :
  agree id t t' → SendAll xs t = Some out → SendAll (filter (λ x, linkOf x = id) xs) t' = Some (filter (λ o, fst o = id) out).
Proof.
  revert t t' out. induction xs as [|[now e] xs IH]; intros t t' out Ha H; cbn [SendAll] in H; [by injection H as <-|].
  apply bind_Some in H as ([[t1 rs] inj] & Hs & H). apply bind_Some in H as (out1 & Ho & [= <-]). pose proof (Send_counted _ _ _ _ _ _ Hs) as ->.
  destruct (decide (linkOf (now, e) = id)) as [Hid|Hid].
  - rewrite !filter_cons_True by exact Hid. cbn [SendAll]. subst id. change (linkOf (now, e)) with (en_From e, en_To e) in *. rewrite (Send_same _ _ _ _ _ _ _ Ha Hs). cbn [mbind option_bind].
    by rewrite (IH _ (counted (en_From e, en_To e) t') out1 (agree_counted _ _ _ _ Ha) Ho).
  - rewrite !filter_cons_False by exact Hid. apply (IH (counted (en_From e, en_To e) t)); [by apply agree_elsewhere|done].
Qed.

(** C34. A link's dice are its own: take any two networks that agree about one directed
    link and any two runs of sends in which that link carries the same messages at the
    same instants.  Whatever else is sent - more messages, fewer, on other links,
    through other partitions - each message of the link is dropped, duplicated and
    delayed exactly alike in both. *)
Theorem link_unperturbed id xs ys t t' out out' :
  agree id t t' → filter (λ x, linkOf x = id) xs = filter (λ x, linkOf x = id) ys →
  SendAll xs t = Some out → SendAll ys t' = Some out' →
  filter (λ o, fst o = id) out = filter (λ o, fst o = id) out'.
Proof.
  intros Ha Hf H H'. pose proof (SendAll_link id xs t t' out Ha H) as E. pose proof (SendAll_link id ys t' t' out' ltac:(by split) H') as E'.
  rewrite Hf, E' in E. by injection E.
Qed.

(** Delays: a message that is not in the tail takes at least [LatMin] and less than
    [LatMax] - never [LatMax] itself - and the tail adds less than [TailMax]. *)
Lemma latency_range k from to ord copyIdx p :
  key_wf k → word from → word to → 0 ≤ lp_LatMin p < lp_LatMax p → 0 ≤ lp_TailMax p → lp_LatMax p + lp_TailMax p < 2 ^ 63 →
  ∃ lat inj, latency k from to ord copyIdx p = Some (lat, inj)
    ∧ lp_LatMin p ≤ lat ∧ (inj = [] → lat < lp_LatMax p) ∧ (inj ≠ [] → lat < lp_LatMax p + lp_TailMax p).
Proof.
  intros Hk Hf Ht Hl Htl Hs. unfold latency. cbv zeta. rewrite i64_small by (unfold is_i64; lia). replace (lp_LatMax p - lp_LatMin p <? 0) with false by lia. replace (lp_LatMax p - lp_LatMin p >? 0) with true by lia. rewrite Z.gtb_ltb.
  set (c := add64 _ _). assert (Hc : word c) by apply u64_range.
  destruct (Key_Uint64N_range k Hk latDomain from to c (u64 (lp_LatMax p - lp_LatMin p))) as (v & -> & Hv); [unfold latDomain; lia|done|done|done|rewrite u64_small by (unfold is_u64; lia); lia|].
  rewrite u64_small in Hv by (unfold is_u64; lia). cbn [fmap option_fmap option_map mbind option_bind].
  rewrite (i64_small v), (i64_small (lp_LatMin p + v)) by (unfold is_i64; lia).
  assert (Hd : ∃ b, dice k tailDomain from to c (lp_TailPerMille p) = Some b).
  { unfold dice. case_match; [eauto|]. case_match; [eauto|].
    destruct (Key_Uint64N_range k Hk tailDomain from to c 1000) as (x & -> & _); [unfold tailDomain; lia|done|done|done|lia|]. cbn. eauto. }
  destruct Hd as [[] ->]; cbn [mbind option_bind].
  - destruct (Z.ltb_spec 0 (lp_TailMax p)) as [Hp|Hp].
    + destruct (Key_Uint64N_range k Hk tailLenDomain from to c (u64 (lp_TailMax p))) as (x & -> & Hx); [unfold tailLenDomain; lia|done|done|done|rewrite u64_small by (unfold is_u64; lia); lia|].
      rewrite u64_small in Hx by (unfold is_u64; lia). cbn [fmap option_fmap option_map mbind option_bind]. rewrite (i64_small x), i64_small by (unfold is_i64; lia).
      do 2 eexists. split_and!; [done|lia|done|lia].
    + cbn [mbind option_bind]. do 2 eexists. split_and!; [done|lia|done|lia].
  - do 2 eexists. split_and!; [done|lia|lia|done].
Qed.

(** A network with one message before another on another link. *)
Definition aMessage (to : Z) : Envelope := MkEnvelope 0 to 1 5 [Byte.x61].
Definition aNetwork : SimTransport := NewSimTransport (MkKey 1 2).
Definition outcomeOf (xs : list (Z * Envelope)) : list (linkID * list (request bytes)) := default [] (SendAll xs aNetwork).

Lemma link_unperturbed_witness :
  length (outcomeOf [(5, aMessage 2); (7, aMessage 1)]) = 2%nat
  ∧ filter (λ o, fst o = (0, 1)) (outcomeOf [(5, aMessage 2); (7, aMessage 1)]) = filter (λ o, fst o = (0, 1)) (outcomeOf [(7, aMessage 1)]).
Proof.
  assert (E : SendAll [(5, aMessage 2); (7, aMessage 1)] aNetwork = Some (outcomeOf [(5, aMessage 2); (7, aMessage 1)])) by (vm_compute; reflexivity).
  assert (E' : SendAll [(7, aMessage 1)] aNetwork = Some (outcomeOf [(7, aMessage 1)])) by (vm_compute; reflexivity).
  split; [vm_compute; reflexivity|].
  apply (link_unperturbed (0, 1) [(5, aMessage 2); (7, aMessage 1)] [(7, aMessage 1)] aNetwork aNetwork _ _ ltac:(split; reflexivity) ltac:(vm_compute; reflexivity) E E').
Defined.

(** ** Client histories *)

Inductive ResponseKind := RespUnset | RespOK | RespError | RespTimeout.
#[global] Instance ResponseKind_eq_dec : EqDecision ResponseKind.
Proof. solve_decision. Defined.

Record HistoryEvent := MkHist {
  he_Call : Z; he_Return : Z; he_Client : Z; he_Seq : Z; he_Key : bytes; he_Op : bytes; he_Value : bytes; he_Outcome : ResponseKind;
}.
Definition InFlight (e : HistoryEvent) : bool := he_Return e =? 0.

Definition Begin (at_ client seq : Z) (op key value : bytes) (h : list HistoryEvent) : nat * list HistoryEvent :=
  (length h, h ++ [MkHist at_ 0 client seq key op value RespUnset]).

Definition opGetName : bytes := [Byte.x67; Byte.x65; Byte.x74].

(** An index out of range, or an end before the call, panics. *)
Definition End_ (i : nat) (at_ : Z) (kind : ResponseKind) (value : bytes) (h : list HistoryEvent) : option (list HistoryEvent) :=
  e ← h !! i;
  if at_ <? he_Call e then None
  else
    let v := if bool_decide (kind = RespOK) && bool_decide (he_Op e = opGetName) then value else he_Value e in
    Some (<[i := MkHist (he_Call e) at_ (he_Client e) (he_Seq e) (he_Key e) (he_Op e) v kind]> h).

Definition Decided (h : list HistoryEvent) : nat := length (filter (λ e, InFlight e = false) h).

(** The events of each key, in order, the keys sorted. *)
Definition keysOf (h : list HistoryEvent) : list bytes := merge_sort bytes_le (remove_dups (he_Key <$> h)).
Definition ByKey (h : list HistoryEvent) : list (bytes * list HistoryEvent) := (λ k, (k, filter (λ e, he_Key e = k) h)) <$> keysOf h.

Inductive HistoryError := errNoOutcome (i : nat) | errNegativeCall (i : nat).
Fixpoint validateFrom (i : nat) (h : list HistoryEvent) : option HistoryError :=
  match h with
  | [] => None
  | e :: h =>
      if negb (InFlight e) && bool_decide (he_Outcome e = RespUnset) then Some (errNoOutcome i)
      else if he_Call e <? 0 then Some (errNegativeCall i)
      else validateFrom (S i) h
  end.
Definition History_Validate (h : list HistoryEvent) : option HistoryError := validateFrom 0 h.

Definition event_ok (e : HistoryEvent) : Prop := (InFlight e = false → he_Outcome e ≠ RespUnset) ∧ 0 ≤ he_Call e.

Lemma Validate_spec h : History_Validate h = None ↔ Forall event_ok h.
Proof.
  unfold History_Validate. generalize 0%nat. induction h as [|e h IH]; intros i; cbn [validateFrom]; [by split|]. rewrite Forall_cons, <- (IH (S i)). unfold event_ok.
  destruct (InFlight e); cbn [negb andb]; [|case_bool_decide as Ho; [naive_solver|]];
    destruct (Z.ltb_spec (he_Call e) 0) as [Hc|Hc]; naive_solver lia.
Qed.

(** A history built by its operations, with outcomes given, is one [Validate] accepts; an
    operation that has ended keeps its place, its call and its question. *)
Lemma End_keeps i at_ kind v h h' :
  End_ i at_ kind v h = Some h' → kind ≠ RespUnset → History_Validate h = None →
  History_Validate h' = None ∧ length h' = length h ∧ ∀ j, he_Key <$> (h' !! j) = he_Key <$> (h !! j).
Proof.
  unfold End_. intros (e & He & H)%bind_Some Hk Hv. case_match; [done|]. injection H as <-. rewrite Validate_spec in Hv |- *. split_and!.
  - apply Forall_insert; [done|]. rewrite Forall_forall in Hv. destruct (Hv e) as [_ Hc]; [by eapply list_elem_of_lookup_2|]. by split.
  - apply length_insert.
  - intros j. destruct (decide (i = j)) as [<-|]; [|by rewrite list_lookup_insert_ne]. rewrite list_lookup_insert_eq by (by eapply lookup_lt_Some). by rewrite He.
Qed.
