(* ===== verification/Rng.v ===== *)
(** * The sequential generator

    src/internal/rng: the generator plans are made with -- a 128-bit linear congruential
    state under a permutation of its words ([PCG]), exact uniform draws by rejection,
    shuffles, named sub-streams -- and the text of keys.  The keyed function is in
    [SimTransport].  Rejection loops take fuel; [Uint64N_uniform] shows that every
    stream reaches a draw that is accepted, because its states are visited in one cycle. *)

From Stdlib Require Import Lia ZArith Znumtheory.
From stdpp Require Import base tactics numbers option gmap list.
From S2P Require Import Prelude Bytes NetCodec SimQueue SimLoop SimTransport.

(** ** Streams *)

Definition cheapMultiplier : Z := 0xda942042e4dd58b5.

Record PCG := MkPCG { pc_hi : Z; pc_lo : Z; pc_incHi : Z; pc_incLo : Z; pc_key : Key }.

(** [bits.Mul64] and [bits.Add64]. *)
Definition Mul64 (a b : Z) : Z * Z := (Z.shiftr (a * b) 64, u64 (a * b)).
Definition Add64 (a b carry : Z) : Z * Z := (u64 (a + b + carry), Z.shiftr (a + b + carry) 64).

Definition step (p : PCG) : PCG :=
  let '(carry, lo) := Mul64 (pc_lo p) cheapMultiplier in
  let hi := add64 (mul64 (pc_hi p) cheapMultiplier) carry in
  let '(lo, c) := Add64 lo (pc_incLo p) 0 in
  let '(hi, _) := Add64 hi (pc_incHi p) c in
  MkPCG hi lo (pc_incHi p) (pc_incLo p) (pc_key p).

Definition NewFromKey (k : Key) : PCG :=
  let s0 := mix (key_Lo k) in
  let s1 := mix (Z.lxor (key_Hi k) s0) in
  let s2 := mix (Z.lxor s0 s1) in
  let s3 := mix (Z.lxor s1 s2) in
  step (MkPCG s0 s1 s2 (Z.lor s3 1) k).
Definition New (seed : Z) : PCG := NewFromKey (MkKey (mix (Z.lxor seed golden)) (mix seed)).

(** The value of a state, before it advances. *)
Definition permute (hi lo : Z) : Z :=
  let lo := Z.lor lo 1 in
  let hi := Z.lxor hi (Z.shiftr hi 32) in
  let hi := mul64 hi cheapMultiplier in
  let hi := Z.lxor hi (Z.shiftr hi 48) in
  mul64 hi lo.
Definition Uint64 (p : PCG) : Z * PCG := (permute (pc_hi p) (pc_lo p), step p).

(** *** Uniform draws *)

Fixpoint redraw (fuel : nat) (n threshold hi lo : Z) (p : PCG) : option (Z * PCG) :=
  if lo <? threshold then
    match fuel with
    | O => None
    | S fuel => let '(x, p) := Uint64 p in let '(hi, lo) := Mul64 x n in redraw fuel n threshold hi lo p
    end
  else Some (hi, p).
(** A range of nothing panics. *)
Definition Uint64N (fuel : nat) (n : Z) (p : PCG) : option (Z * PCG) :=
  if n =? 0 then None
  else
    let '(x, p) := Uint64 p in
    let '(hi, lo) := Mul64 x n in
    if lo <? n then redraw fuel n (u64 (- n) mod n) hi lo p else Some (hi, p).
Definition IntN (fuel : nat) (n : Z) (p : PCG) : option (Z * PCG) := if n <=? 0 then None else Uint64N fuel (u64 n) p.

(** *** Shuffles

    What is shuffled is changed by [swap]. *)
Fixpoint shuffleFrom {S : Type} (fuel : nat) (swap : nat → nat → S → S) (i : nat) (p : PCG) (s : S) : option (S * PCG) :=
  match i with
  | O => Some (s, p)
  | Datatypes.S i' => '(j, p) ← Uint64N fuel (Z.of_nat i + 1) p; shuffleFrom fuel swap i' p (swap i (Z.to_nat j) s)
  end.
Definition Shuffle {S : Type} (fuel : nat) (n : Z) (swap : nat → nat → S → S) (p : PCG) (s : S) : option (S * PCG) :=
  if n <? 0 then None else shuffleFrom fuel swap (Z.to_nat (n - 1)) p s.

(** Out of range it panics in the source; [Perm] stays in range. *)
Definition exchange {A : Type} (i j : nat) (l : list A) : list A :=
  match l !! i, l !! j with Some x, Some y => <[i := y]> (<[j := x]> l) | _, _ => l end.
Definition Perm (fuel : nat) (n : Z) (p : PCG) : option (list Z * PCG) :=
  if n <? 0 then None else Shuffle fuel n exchange p (seqZ 0 n).

(** *** Sub-streams *)

Definition fnv1a64 (s : bytes) : Z := foldl (λ h b, mul64 (Z.lxor h (b2z b)) 0x100000001b3) 0xcbf29ce484222325 s.
Definition deriveKey (parent : Key) (name : bytes) : Key :=
  let h := fnv1a64 name in
  MkKey (mix (Z.lxor (key_Hi parent) (mix (add64 h golden)))) (mix (Z.lxor (key_Lo parent) h)).
Definition DeriveKey (p : PCG) (name : bytes) : Key := deriveKey (pc_key p) name.

(** A family of streams by their names from the root; a stream derived is the one
    derived before under that name. *)
Abbreviation streams := (gmap (list bytes) PCG).
Definition Derive (path : list bytes) (name : bytes) (s : streams) : option (list bytes * streams) :=
  p ← s !! path;
  match s !! (path ++ [name]) with
  | Some _ => Some (path ++ [name], s)
  | None => Some (path ++ [name], <[path ++ [name] := NewFromKey (DeriveKey p name)]> s)
  end.
(** The next value of a stream of the family. *)
Definition drawAt (path : list bytes) (s : streams) : option (Z * streams) :=
  p ← s !! path; let '(x, p) := Uint64 p in Some (x, <[path := p]> s).

(** *** Keys as text *)

Definition hexDigit (d : Z) : byte := z2b (if d <? 10 then 48 + d else 87 + d).
Definition hexValue (b : byte) : option Z :=
  let v := b2z b in
  if (48 <=? v) && (v <=? 57) then Some (v - 48)
  else if (97 <=? v) && (v <=? 102) then Some (v - 87)
  else if (65 <=? v) && (v <=? 70) then Some (v - 55)
  else None.
(** [hex.EncodeToString] and [hex.DecodeString]. *)
Definition hexEncode (b : bytes) : bytes := b ≫= λ x, [hexDigit (Z.shiftr (b2z x) 4); hexDigit (Z.land (b2z x) 15)].
Fixpoint hexDecode (s : bytes) : option bytes :=
  match s with
  | [] => Some []
  | [_] => None
  | a :: b :: s => x ← hexValue a; y ← hexValue b; r ← hexDecode s; Some (z2b (Z.lor (Z.shiftl x 4) y) :: r)
  end.
Definition Key_String (k : Key) : bytes := hexEncode (be_put 8 (key_Hi k) ++ be_put 8 (key_Lo k)).
Definition ParseKey (s : bytes) : option Key :=
  b ← hexDecode s;
  if negb (Z.of_nat (length b) =? 16) then None
  else Some (MkKey (be_get (take 8 b)) (be_get (take 8 (drop 8 b)))).

(** *** The vectors the program is pinned to *)

Fixpoint drawn (n : nat) (p : PCG) : list Z :=
  match n with O => [] | S n => let '(x, p) := Uint64 p in x :: drawn n p end.
Example drawn_0 : drawn 8 (New 0) = [0x8534ef6575032ad4; 0xa0536012a784ee61; 0x9453376cd6fd78e9; 0x7041e922873f57b7; 0x6238266310e6cd23; 0x24e507ff07ebe04c; 0xb4bd8dc8c8d00024; 0x9a886a0c7ca0cb30].
Proof. by vm_compute. Qed.
Example drawn_top : drawn 8 (New (2 ^ 64 - 1)) = [0x59d689767c3a60af; 0xdba9109c1fbce6df; 0x22d4b7dcb4b5fddc; 0x89fab962977391b4; 0xb37532507db231c1; 0xe5a199330d50f036; 0xe3ecbf4359174f95; 0x2368267ac16ab607].
Proof. by vm_compute. Qed.
Example perm_7 : fst <$> Perm 10 10 (New 7) = Some [2; 3; 0; 9; 5; 8; 4; 1; 7; 6].
Proof. by vm_compute. Qed.

(** ** The states are one cycle *)

Lemma odd_cancel j z x : z mod 2 = 1 → (2 ^ Z.of_nat j | z * x) → (2 ^ Z.of_nat j | x).
Proof.
  intros Hz. revert x. induction j as [|j IH]; intros x Hd; [rewrite Z.pow_0_r; apply Z.divide_1_l|].
  rewrite Nat2Z.inj_succ, Z.pow_succ_r in * by lia.
  destruct (proj1 (Z.divide_prime_mul z x 2 Z.prime_2)) as [[u Hu]|[u Hu]].
  - eapply Z.divide_trans; [|exact Hd]. apply Z.divide_factor_l.
  - pose proof (Z.div_mod z 2 ltac:(lia)). lia.
  - subst x. rewrite (Z.mul_comm u 2). apply Z.mul_divide_mono_l. apply IH.
    replace (z * (u * 2)) with (2 * (z * u)) in Hd by lia. apply Z.mul_divide_cancel_l in Hd; [done|lia].
Qed.

Section Geo.
Context (a : Z) (Ha : a mod 4 = 1).

Fixpoint geo (n : nat) : Z := match n with O => 0 | S n => 1 + a * geo n end.

Lemma geo_pow n : (a - 1) * geo n = a ^ Z.of_nat n - 1.
Proof using. induction n as [|n IH]; [cbn [geo]; rewrite Z.pow_0_r; lia|]. cbn [geo]. rewrite Nat2Z.inj_succ, Z.pow_succ_r by lia. nia. Qed.
Lemma geo_add m n : geo (m + n) = geo m + a ^ Z.of_nat m * geo n.
Proof using.
  induction m as [|m IH]; cbn [geo Nat.add]; [rewrite Z.pow_0_r; lia|]. rewrite IH, Nat2Z.inj_succ, Z.pow_succ_r by lia. nia.
Qed.
Lemma pow_one n : a ^ Z.of_nat n mod 4 = 1.
Proof using Ha. induction n as [|n IH]; [done|]. rewrite Nat2Z.inj_succ, Z.pow_succ_r, Z.mul_mod, Ha, IH by lia. done. Qed.
Lemma geo_parity n : geo n mod 2 = Z.of_nat n mod 2.
Proof using Ha.
  assert (Ha2 : a mod 2 = 1) by (rewrite (Z.div_mod a 4), Ha by lia; replace (4 * (a / 4) + 1) with (1 + 2 * (a / 4) * 2) by lia; by rewrite Z.mod_add).
  induction n as [|n IH]; [done|]. cbn [geo]. rewrite Z.add_mod, Z.mul_mod, Ha2, IH by lia.
  rewrite Z.mul_1_l, Zmod_mod, <- Z.add_mod by lia. f_equal. lia.
Qed.

(** A sum divisible by a power of two has a number of terms divisible by it. *)
Lemma geo_divides j n : (2 ^ Z.of_nat j | geo n) → (2 ^ Z.of_nat j | Z.of_nat n).
Proof using Ha.
  revert n. induction j as [|j IH]; intros n Hd; [rewrite Z.pow_0_r; apply Z.divide_1_l|].
  rewrite Nat2Z.inj_succ, Z.pow_succ_r in * by lia.
  assert (Hev : Z.of_nat n mod 2 = 0).
  { rewrite <- geo_parity. apply Z.mod_divide; [lia|]. eapply Z.divide_trans; [|exact Hd]. apply Z.divide_factor_l. }
  destruct (Zmod_divides (Z.of_nat n) 2 ltac:(lia)) as [Hq _]. destruct (Hq Hev) as [m Hm]. set (h := Z.to_nat m).
  assert (Hn : n = (h + h)%nat) by lia. rewrite Hn in Hd |- *. rewrite geo_add in Hd.
  assert (Hodd : ∃ u, 1 + a ^ Z.of_nat h = 2 * (2 * u + 1)).
  { exists (a ^ Z.of_nat h / 4). pose proof (Z.div_mod (a ^ Z.of_nat h) 4 ltac:(lia)). rewrite pow_one in *. lia. }
  destruct Hodd as [u Hu]. replace (geo h + a ^ Z.of_nat h * geo h) with (2 * ((2 * u + 1) * geo h)) in Hd by nia.
  apply Z.mul_divide_cancel_l in Hd; [|lia].
  assert (Hg : (2 ^ Z.of_nat j | geo h)).
  { apply (odd_cancel _ (2 * u + 1)); [|done]. rewrite (Z.add_comm _ 1), (Z.mul_comm 2). by rewrite Z.mod_add. }
  destruct (IH h Hg) as [v Hv]. exists v. lia.
Qed.
End Geo.

Section Cycle.
Context (a c : Z) (k : nat) (Ha : a mod 4 = 1) (Hc : c mod 2 = 1).
Abbreviation M := (2 ^ Z.of_nat k).

Definition lcg (x : Z) : Z := (a * x + c) mod M.

Lemma lcg_range x : 0 ≤ lcg x < M.
Proof. apply Z.mod_pos_bound, Z.pow_pos_nonneg; lia. Qed.
Lemma lcg_iter n x : (M | Nat.iter n lcg x - (x + geo a n * ((a - 1) * x + c))).
Proof.
  induction n as [|n IH]; [cbn; exists 0; lia|]. cbn [geo]. change (Nat.iter (S n) lcg x) with (lcg (Nat.iter n lcg x)). set (y := Nat.iter n lcg x) in *. destruct IH as [u Hu].
  assert (0 < M) by (apply Z.pow_pos_nonneg; lia). pose proof (Z.div_mod (a * y + c) M ltac:(lia)) as Hd. fold (lcg y) in Hd.
  set (q := (a * y + c) / M) in *. exists (a * u - q). replace (lcg y) with (a * y + c - M * q) by lia. clearbody q y. clear Hd.
  replace y with (u * M + (x + geo a n * ((a - 1) * x + c))) by lia. ring.
Qed.

(** Two states of one stream as far apart as the modulus at most differ. *)
Lemma lcg_inj i j x : 0 ≤ x < M → (i < j)%nat → Z.of_nat j < M + Z.of_nat i → Nat.iter i lcg x ≠ Nat.iter j lcg x.
Proof.
  intros Hx Hij Hj He. set (y := Nat.iter i lcg x) in *. set (n := (j - i)%nat).
  assert (Hy : Nat.iter n lcg y = y) by (unfold y at 1; rewrite <- Nat.iter_add; replace (n + i)%nat with j by lia; by symmetry).
  destruct (lcg_iter n y) as [u Hu]. rewrite Hy in Hu.
  assert (Hd : (M | geo a n)).
  { apply (odd_cancel _ ((a - 1) * y + c)); [|exists (- u); nia]. pose proof (Z.div_mod a 4 ltac:(lia)).
    rewrite Z.add_mod, Hc by lia. replace (a - 1) with (4 * (a / 4)) by lia. replace (4 * (a / 4) * y) with (2 * (a / 4) * y * 2) by ring. by rewrite Z.mod_mul. }
  apply geo_divides in Hd as [v Hv]; [|done]. unfold n in Hv. rewrite Nat2Z.inj_sub in Hv by lia.
  destruct (Z.lt_trichotomy v 0) as [?|[->|?]]; [nia|lia|]. assert (1 * M ≤ v * M) by (apply Z.mul_le_mono_nonneg_r; lia). lia.
Qed.

(** Every state is reached from every other. *)
Lemma lcg_reaches x y : 0 ≤ x < M → 0 ≤ y < M → ∃ n, Nat.iter n lcg x = y.
Proof.
  intros Hx Hy. set (l := (λ n, Nat.iter n lcg x) <$> seq 0 (Z.to_nat M)).
  assert (Hr : ∀ n, 0 ≤ Nat.iter n lcg x < M) by (intros [|n]; [done|apply lcg_range]).
  assert (Hnd : NoDup l).
  { apply NoDup_fmap_2_strong; [|apply NoDup_seq]. intros i j Hi%elem_of_seq Hj%elem_of_seq He.
    destruct (Nat.lt_trichotomy i j) as [?|[?|?]]; [|done|]; exfalso.
    - apply (lcg_inj i j x); [done|done|lia|done].
    - apply (lcg_inj j i x); [done|done|lia|done]. }
  assert (Hp : l ≡ₚ seqZ 0 M).
  { apply submseteq_length_Permutation; [|unfold l; by rewrite length_fmap, length_seq, length_seqZ]. apply NoDup_submseteq; [done|].
    intros z (n & -> & _)%list_elem_of_fmap. apply elem_of_seqZ. specialize (Hr n). lia. }
  assert (Hin : y ∈ l) by (rewrite Hp; apply elem_of_seqZ; lia). apply list_elem_of_fmap in Hin as (n & -> & _). eauto.
Qed.
End Cycle.

(** ** A stream runs through all of them *)

Definition state (p : PCG) : Z := pc_hi p * 2 ^ 64 + pc_lo p.
Definition increment (p : PCG) : Z := pc_incHi p * 2 ^ 64 + pc_incLo p.
Record pcg_wf (p : PCG) : Prop := MkPcgWf {
  pw_hi : word (pc_hi p); pw_lo : word (pc_lo p); pw_incHi : word (pc_incHi p); pw_incLo : word (pc_incLo p); pw_odd : pc_incLo p mod 2 = 1;
}.

Lemma split_word z : u64 z = z - 2 ^ 64 * Z.shiftr z 64.
Proof. rewrite Z.shiftr_div_pow2 by lia. unfold u64. pose proof (Z.div_mod z (2 ^ 64) ltac:(lia)). lia. Qed.

Lemma step_wf p : pcg_wf p → pcg_wf (step p).
Proof. intros [? ? ? ? ?]. unfold step, Mul64, Add64. split; cbn; try done; apply u64_range. Qed.
Lemma step_state p : pcg_wf p → state (step p) = lcg cheapMultiplier (increment p) 128 (state p) ∧ increment (step p) = increment p.
Proof.
  intros Hp. pose proof (step_wf p Hp) as [H1 H2 _ _ _]. split; [|done]. unfold lcg. change (2 ^ Z.of_nat 128) with (2 ^ 64 * 2 ^ 64). unfold word in *.
  apply (Z.mod_unique _ _ (Z.shiftr (pc_hi p * cheapMultiplier) 64 + Z.shiftr (mul64 (pc_hi p) cheapMultiplier + fst (Mul64 (pc_lo p) cheapMultiplier)) 64
      + snd (Add64 (add64 (mul64 (pc_hi p) cheapMultiplier) (fst (Mul64 (pc_lo p) cheapMultiplier))) (pc_incHi p) (snd (Add64 (snd (Mul64 (pc_lo p) cheapMultiplier)) (pc_incLo p) 0))))).
  - left. unfold state. nia.
  - unfold state, increment, step, Mul64, Add64, add64, mul64. cbn [fst snd pc_hi pc_lo]. rewrite !split_word. ring.
Qed.

Lemma iter_wf n p : pcg_wf p → pcg_wf (Nat.iter n step p).
Proof. intros Hp. induction n as [|n IH]; [done|]. by apply step_wf. Qed.
Lemma iter_state n p : pcg_wf p → state (Nat.iter n step p) = Nat.iter n (lcg cheapMultiplier (increment p) 128) (state p) ∧ increment (Nat.iter n step p) = increment p.
Proof.
  intros Hp. induction n as [|n [IH1 IH2]]; [done|]. change (Nat.iter (S n) ?f ?x) with (f (Nat.iter n f x)).
  destruct (step_state _ (iter_wf n p Hp)) as [-> ->]. by rewrite IH1, IH2.
Qed.

(** Every pair of words is a state of every stream. *)
Lemma stream_reaches p hi lo : pcg_wf p → word hi → word lo → ∃ n, pc_hi (Nat.iter n step p) = hi ∧ pc_lo (Nat.iter n step p) = lo.
Proof.
  intros Hp Hhi Hlo. pose proof Hp as [H1 H2 H3 H4 H5]. unfold word in *.
  destruct (lcg_reaches cheapMultiplier (increment p) 128) with (x := state p) (y := hi * 2 ^ 64 + lo) as [n Hn]; [done| | | |].
  - unfold increment. rewrite Z.add_mod, Z.mul_mod, H5 by lia. change (2 ^ 64 mod 2) with 0. by rewrite Z.mul_0_r.
  - change (2 ^ Z.of_nat 128) with (2 ^ 64 * 2 ^ 64). unfold state. nia.
  - change (2 ^ Z.of_nat 128) with (2 ^ 64 * 2 ^ 64). nia.
  - exists n. destruct (iter_state n p Hp) as [Hs _]. rewrite Hn in Hs. destruct (iter_wf n p Hp) as [I1 I2 _ _ _]. unfold state, word in *. lia.
Qed.

(** And so every word is a value. *)
Lemma unxorshift k z : 32 ≤ k → word z → Z.lxor (Z.lxor z (Z.shiftr z k)) (Z.shiftr (Z.lxor z (Z.shiftr z k)) k) = z.
Proof.
  intros Hk Hz. rewrite Z.shiftr_lxor, Z.shiftr_shiftr by lia.
  assert (Z.shiftr z (k + k) = 0) as ->.
  { unfold word in Hz. rewrite Z.shiftr_div_pow2 by lia. apply Z.div_small. split; [lia|]. eapply Z.lt_le_trans; [apply Hz|]. apply Z.pow_le_mono_r; lia. }
  by rewrite Z.lxor_0_r, Z.lxor_assoc, Z.lxor_nilpotent, Z.lxor_0_r.
Qed.
Lemma permute_onto x : word x → ∃ hi, word hi ∧ permute hi 1 = x.
Proof.
  intros Hx. set (y := Z.lxor x (Z.shiftr x 48)). set (h := mul64 y 0x8b838d0354ead59d). exists (Z.lxor h (Z.shiftr h 32)).
  assert (Hy : word y) by (by apply xorshift_range). assert (Hh : word h) by apply mul64_range.
  split; [by apply xorshift_range|]. unfold permute. rewrite unxorshift by (done || lia).
  assert (He : mul64 h cheapMultiplier = y).
  { unfold h, mul64, u64. rewrite Zmult_mod_idemp_l. rewrite <- Z.mul_assoc, <- Zmult_mod_idemp_r.
    change ((0x8b838d0354ead59d * cheapMultiplier) mod 2 ^ 64) with 1. rewrite Z.mul_1_r. by apply Z.mod_small. }
  rewrite He. unfold y. rewrite unxorshift by (done || lia). change (Z.lor 1 1) with 1. unfold mul64. rewrite Z.mul_1_r. by apply Z.mod_small.
Qed.
Lemma stream_gives p x : pcg_wf p → word x → ∃ n, fst (Uint64 (Nat.iter n step p)) = x.
Proof.
  intros Hp Hx. destruct (permute_onto x Hx) as (hi & Hhi & He). destruct (stream_reaches p hi 1 Hp Hhi) as (n & E1 & E2); [by split|].
  exists n. unfold Uint64. cbn [fst]. by rewrite E1, E2.
Qed.

(** ** Uniform draws *)

(** What one value of the stream makes of a draw below [n]: a result, or another try. *)
Definition round (n x : Z) : option Z := if u64 (x * n) <? 2 ^ 64 mod n then None else Some (Z.shiftr (x * n) 64).

Section Draw.
Context (n : Z) (Hn : 0 < n < 2 ^ 64).

Lemma threshold_eq : u64 (- n) mod n = 2 ^ 64 mod n.
Proof using Hn.
  assert (u64 (- n) = 2 ^ 64 - n) as -> by (unfold u64; symmetry; apply (Z.mod_unique _ _ (-1)); lia).
  replace (2 ^ 64 - n) with (2 ^ 64 + (-1) * n) by lia. by rewrite Z.mod_add by lia.
Qed.

Lemma redraw_round fuel x p :
  redraw fuel n (2 ^ 64 mod n) (Z.shiftr (x * n) 64) (u64 (x * n)) p
  = match round n x with Some v => Some (v, p) | None => match fuel with O => None | S f => Uint64N f n p end end.
Proof using Hn.
  unfold round. destruct fuel as [|f]; cbn [redraw]; destruct (_ <? _) eqn:E; try done.
  unfold Uint64N. destruct (Z.eqb_spec n 0); [lia|]. destruct (Uint64 p) as [y p']. unfold Mul64. cbn [fst snd]. rewrite threshold_eq.
  destruct (Z.ltb_spec (u64 (y * n)) n) as [|Hge]; [done|]. pose proof (Z.mod_pos_bound (2 ^ 64) n ltac:(lia)).
  destruct f; cbn [redraw]; destruct (Z.ltb_spec (u64 (y * n)) (2 ^ 64 mod n)); (lia || done).
Qed.
(** The result is that of the first value that gives one. *)
Lemma Uint64N_first fuel p :
  Uint64N fuel n p = match round n (fst (Uint64 p)) with Some v => Some (v, step p) | None => match fuel with O => None | S f => Uint64N f n (step p) end end.
Proof using Hn.
  rewrite <- redraw_round. unfold Uint64N. destruct (Z.eqb_spec n 0); [lia|]. unfold Uint64, Mul64. cbn [fst snd]. rewrite threshold_eq.
  destruct (Z.ltb_spec (u64 (permute (pc_hi p) (pc_lo p) * n)) n) as [|Hge]; [done|]. pose proof (Z.mod_pos_bound (2 ^ 64) n ltac:(lia)).
  destruct fuel; cbn [redraw]; destruct (Z.ltb_spec (u64 (permute (pc_hi p) (pc_lo p) * n)) (2 ^ 64 mod n)); (lia || done).
Qed.

Lemma round_one : round n 1 = Some 0.
Proof using Hn.
  unfold round. rewrite Z.mul_1_l. pose proof (Z.mod_pos_bound (2 ^ 64) n ltac:(lia)). unfold u64. rewrite Z.mod_small by lia.
  destruct (Z.ltb_spec n (2 ^ 64 mod n)); [lia|]. rewrite Z.shiftr_div_pow2, Z.div_small by lia. done.
Qed.
Lemma round_range x v : word x → round n x = Some v → 0 ≤ v < n.
Proof using Hn.
  unfold round, word. intros Hx. destruct (_ <? _); [done|]. intros [= <-]. rewrite Z.shiftr_div_pow2 by lia.
  split; [apply Z.div_pos; nia|apply Z.div_lt_upper_bound; nia].
Qed.
Lemma Uint64_word p : word (fst (Uint64 p)).
Proof. apply mul64_range. Qed.

(** Enough fuel gives a result, below [n], which more fuel does not change. *)
Lemma draw_ends p : pcg_wf p → ∃ fuel v p', (∀ f, (fuel ≤ f)%nat → Uint64N f n p = Some (v, p')) ∧ 0 ≤ v < n ∧ pcg_wf p'.
Proof using Hn.
  intros Hp. destruct (stream_gives p 1 Hp) as [k Hk]; [done|].
  assert (Hend : ∀ k p, pcg_wf p → fst (Uint64 (Nat.iter k step p)) = 1 → ∃ v p', (∀ f, (k ≤ f)%nat → Uint64N f n p = Some (v, p')) ∧ 0 ≤ v < n ∧ pcg_wf p').
  { clear p Hp k Hk. induction k as [|k IH]; intros p Hp Hk.
    - exists 0, (step p). split_and!; [|lia|lia|by apply step_wf]. intros f _. change (Nat.iter 0 step p) with p in Hk. by rewrite Uint64N_first, Hk, round_one.
    - destruct (round n (fst (Uint64 p))) as [v|] eqn:E.
      + exists v, (step p). pose proof (round_range _ _ (Uint64_word p) E). split_and!; [|lia|lia|by apply step_wf]. intros f _. by rewrite Uint64N_first, E.
      + destruct (IH (step p)) as (v & p' & Hf & Hv); [by apply step_wf|by rewrite <- Nat.iter_succ_r|]. exists v, p'. split; [|done].
        intros [|f] Hle; [lia|]. rewrite Uint64N_first, E. apply Hf. lia. }
  destruct (Hend k p Hp Hk) as (v & p' & Hf & Hv). by exists k, v, p'.
Qed.

(** The values that give [v] are an interval, as long for one [v] as for another. *)
Lemma round_interval v : 0 ≤ v < n →
  let first := (v * 2 ^ 64 + 2 ^ 64 mod n + n - 1) / n in
  0 ≤ first ∧ first + 2 ^ 64 / n ≤ 2 ^ 64 ∧ ∀ x, word x → round n x = Some v ↔ first ≤ x < first + 2 ^ 64 / n.
Proof using Hn.
  intros Hv first. set (t := 2 ^ 64 mod n) in *. set (q := 2 ^ 64 / n) in *.
  assert (Hq : 2 ^ 64 = q * n + t) by (unfold q, t; pose proof (Z.div_mod (2 ^ 64) n ltac:(lia)); lia).
  assert (Ht : 0 ≤ t < n) by (apply Z.mod_pos_bound; lia). assert (Hq0 : 0 ≤ q) by (apply Z.div_pos; lia).
  pose proof (Z.div_mod (v * 2 ^ 64 + t + n - 1) n ltac:(lia)) as Hd. pose proof (Z.mod_pos_bound (v * 2 ^ 64 + t + n - 1) n ltac:(lia)) as Hr.
  fold first in Hd. set (s := (v * 2 ^ 64 + t + n - 1) mod n) in *.
  assert (Hlow : v * 2 ^ 64 + t ≤ n * first < v * 2 ^ 64 + t + n) by lia.
  split_and!; [nia|nia|]. intros x Hx. unfold round, word in *. fold t.
  assert (Hx' : x * n = Z.shiftr (x * n) 64 * 2 ^ 64 + u64 (x * n)) by (rewrite split_word; lia). pose proof (u64_range (x * n)) as Hu. unfold is_u64 in Hu.
  set (hi := Z.shiftr (x * n) 64) in *. set (lo := u64 (x * n)) in *. clearbody hi lo first s t q.
  split.
  - destruct (Z.ltb_spec lo t); [done|]. intros [= ->]. split; nia.
  - intros [Hl Hh]. assert (v * 2 ^ 64 + t ≤ x * n) by nia. assert (x * n < (v + 1) * 2 ^ 64) by nia.
    assert (hi = v) as -> by nia. destruct (Z.ltb_spec lo t); [nia|done].
Qed.

Lemma interval_count (P : Z → Prop) `{∀ x, Decision (P x)} first len top :
  0 ≤ first → 0 ≤ len → first + len ≤ top → (∀ x, 0 ≤ x < top → P x ↔ first ≤ x < first + len) →
  length (filter P (seqZ 0 top)) = Z.to_nat len.
Proof using.
  intros H1 Hl H2 HP. rewrite <- (length_seqZ first len). apply Permutation_length, NoDup_Permutation; [apply NoDup_filter, NoDup_seqZ|apply NoDup_seqZ|].
  intros x. rewrite list_elem_of_filter, !elem_of_seqZ. split.
  - intros [Hx Hr]. apply HP in Hx; lia.
  - intros Hx. split; [apply HP; lia|lia].
Qed.
End Draw.

(** C37. Draws below a bound are exactly uniform, and end.  Every stream, whatever its
    position, gives a result after finitely many values; the result is the one the first
    acceptable value determines; and of the 2^64 values the generator can give, each
    result below [n] is determined by exactly as many as any other, a whole n-th of them
    rounded down. *)
Theorem Uint64N_uniform n p :
  0 < n < 2 ^ 64 → pcg_wf p →
  (∃ fuel v p', Uint64N fuel n p = Some (v, p') ∧ 0 ≤ v < n ∧ pcg_wf p')
  ∧ (∀ fuel, Uint64N fuel n p
             = match round n (fst (Uint64 p)) with Some v => Some (v, step p) | None => match fuel with O => None | S f => Uint64N f n (step p) end end)
  ∧ ∀ v, 0 ≤ v < n → length (filter (λ x, round n x = Some v) (seqZ 0 (2 ^ 64))) = Z.to_nat (2 ^ 64 / n).
Proof.
  intros Hn Hp. split_and!.
  - destruct (draw_ends n Hn p Hp) as (fuel & v & p' & Hf & Hv & Hw). exists fuel, v, p'. split; [by apply Hf|done].
  - intros fuel. by apply Uint64N_first.
  - intros v Hv. destruct (round_interval n Hn v Hv) as (H1 & H2 & H3). eapply interval_count; [exact H1|apply Z.div_pos; lia|exact H2|exact H3].
Qed.

(** ** Streams of the program are such *)

Lemma lor_one s : word s → word (Z.lor s 1) ∧ Z.lor s 1 mod 2 = 1.
Proof.
  unfold word. intros Hs. split.
  - split; [apply Z.lor_nonneg; lia|]. destruct (decide (s = 0)) as [->|]; [by vm_compute|]. apply Z.log2_lt_pow2; [|rewrite Z.log2_lor by lia].
    + assert (0 ≤ Z.lor s 1) by (apply Z.lor_nonneg; lia). assert (Z.lor s 1 ≠ 0) by (rewrite Z.lor_eq_0_iff; lia). lia.
    + apply Z.max_lub_lt; [apply Z.log2_lt_pow2; lia|by vm_compute].
  - rewrite <- Z.bit0_mod, Z.lor_spec. change (Z.testbit 1 0) with true. by rewrite orb_true_r.
Qed.
Lemma NewFromKey_wf k : key_wf k → pcg_wf (NewFromKey k).
Proof.
  intros [Hh Hl]. apply step_wf. assert (Hs0 : word (mix (key_Lo k))) by by apply mix_range.
  set (s0 := mix (key_Lo k)) in *. assert (Hs1 : word (mix (Z.lxor (key_Hi k) s0))) by by apply mix_range, lxor_range. set (s1 := mix (Z.lxor (key_Hi k) s0)) in *.
  assert (Hs2 : word (mix (Z.lxor s0 s1))) by by apply mix_range, lxor_range. set (s2 := mix (Z.lxor s0 s1)) in *.
  assert (Hs3 : word (mix (Z.lxor s1 s2))) by by apply mix_range, lxor_range. destruct (lor_one _ Hs3). by split.
Qed.
Lemma New_wf seed : word seed → pcg_wf (New seed).
Proof. intros Hs. apply NewFromKey_wf. split; cbn; apply mix_range; [|done]. apply lxor_range; [done|by vm_compute]. Qed.
Lemma deriveKey_wf k name : key_wf k → key_wf (deriveKey k name).
Proof.
  intros [Hh Hl]. assert (Hf : word (fnv1a64 name)).
  { unfold fnv1a64. destruct name as [|b name _] using rev_ind; [by vm_compute|]. rewrite foldl_app. apply mul64_range. }
  split; cbn; apply mix_range, lxor_range; try done. apply mix_range, u64_range.
Qed.

Lemma Uint64N_uniform_witness :
  (∃ fuel v p', Uint64N fuel 10 (New 0) = Some (v, p') ∧ 0 ≤ v < 10)
  ∧ length (filter (λ x, round 10 x = Some 3) (seqZ 0 (2 ^ 64))) = Z.to_nat (2 ^ 64 / 10).
Proof.
  assert (Hv : 0 ≤ 3 < 10) by lia. assert (Hn : 0 < 10 < 2 ^ 64) by lia. assert (Hp : pcg_wf (New 0)) by (apply New_wf; unfold word; lia).
  destruct (Uint64N_uniform 10 (New 0) Hn Hp) as ((fuel & v & p' & H1 & H2 & _) & _ & H3).
  refine (conj (ex_intro _ fuel (ex_intro _ v (ex_intro _ p' (conj H1 H2)))) (H3 3 Hv)).
Defined.

(** ** Permutations *)

Lemma exchange_perm {A} i j (l : list A) : exchange i j l ≡ₚ l.
Proof.
  unfold exchange. destruct (l !! i) as [x|] eqn:Hi; [|done]. destruct (l !! j) as [y|] eqn:Hj; [|done].
  destruct (decide (i = j)) as [->|Hne]; [rewrite list_insert_insert_eq; rewrite Hi in Hj; injection Hj as ->; by rewrite list_insert_id|].
  assert (Hins : ∀ (k : nat) u v (m : list A), m !! k = Some u → u :: <[k := v]> m ≡ₚ v :: m).
  { clear. intros k u v m Hk. pose proof (lookup_lt_Some _ _ _ Hk). rewrite insert_take_drop by done.
    etrans; [apply Permutation_skip; symmetry; apply Permutation_middle|]. etrans; [apply Permutation_swap|]. apply Permutation_skip.
    etrans; [apply Permutation_middle|]. by rewrite take_drop_middle. }
  assert (Hx : <[j := x]> l !! i = Some x) by by rewrite list_lookup_insert_ne.
  apply (Permutation_cons_inv (a := x)). etrans; [apply (Hins i x y _ Hx)|]. apply (Hins j y x _ Hj).
Qed.

Lemma shuffle_ends {S} (swap : nat → nat → S → S) i p (s : S) (R : S → Prop) :
  pcg_wf p → Z.of_nat i + 1 < 2 ^ 64 → R s → (∀ i' j s', (j ≤ i' ≤ i)%nat → R s' → R (swap i' j s')) →
  ∃ fuel s' p', (∀ f, (fuel ≤ f)%nat → shuffleFrom f swap i p s = Some (s', p')) ∧ R s' ∧ pcg_wf p'.
Proof.
  revert p s. induction i as [|i IH]; intros p s Hp Hi Hs HR; [exists O, s, p; by split_and!|].
  destruct (draw_ends (Z.of_nat (Datatypes.S i) + 1) ltac:(lia) p Hp) as (f1 & j & p1 & H1 & Hj & Hp1).
  destruct (IH p1 (swap (Datatypes.S i) (Z.to_nat j) s) Hp1 ltac:(lia)) as (f2 & s' & p' & H2 & Hs' & Hp'); [apply HR; [lia|done]|intros i' j' s0 Hle; apply HR; lia|].
  exists (Nat.max f1 f2), s', p'. split_and!; [|done..]. intros f Hf. cbn [shuffleFrom]. rewrite H1 by lia. cbn. apply H2. lia.
Qed.

(** [Perm] ends with a permutation of the first [n] numbers, from any stream. *)
Theorem Perm_permutes n p : 0 ≤ n < 2 ^ 63 → pcg_wf p → ∃ fuel l p', Perm fuel n p = Some (l, p') ∧ l ≡ₚ seqZ 0 n ∧ pcg_wf p'.
Proof.
  intros Hn Hp. destruct (shuffle_ends exchange (Z.to_nat (n - 1)) p (seqZ 0 n) (λ l, l ≡ₚ seqZ 0 n)) as (fuel & l & p' & Hf & Hl & Hp'); [done|lia|done| |].
  - intros i j l _ Hl. by rewrite exchange_perm.
  - exists fuel, l, p'. split_and!; [|done..]. unfold Perm, Shuffle. destruct (Z.ltb_spec n 0); [lia|]. by apply Hf.
Qed.
Lemma Perm_permutes_witness : ∃ fuel l p', Perm fuel 10 (New 7) = Some (l, p') ∧ l ≡ₚ seqZ 0 10.
Proof.
  assert (Hn : 0 ≤ 10 < 2 ^ 63) by lia. assert (Hp : pcg_wf (New 7)) by (apply New_wf; unfold word; lia).
  destruct (Perm_permutes 10 (New 7) Hn Hp) as (f & l & p' & H1 & H2 & _). exact (ex_intro _ f (ex_intro _ l (ex_intro _ p' (conj H1 H2)))).
Defined.

(** ** Sub-streams do not perturb one another *)

Inductive use := UDerive (path : list bytes) (name : bytes) | UDraw (path : list bytes).
#[global] Instance use_eq_dec : EqDecision use.
Proof. solve_decision. Defined.
Definition useOne (s : streams) (u : use) : option streams :=
  match u with
  | UDerive path name => snd <$> Derive path name s
  | UDraw path => snd <$> drawAt path s
  end.
Definition uses (us : list use) (s : streams) : option streams := foldM useOne s us.
(** A root alone. *)
Definition family (k : Key) : streams := ({[ [] := NewFromKey k ]} : gmap (list bytes) PCG).
(** How often a stream was drawn from. *)
Definition drawsOf (path : list bytes) (us : list use) : nat := length (filter (λ u, u = UDraw path) us).

Lemma NewFromKey_key k : pc_key (NewFromKey k) = k.
Proof. done. Qed.

Opaque NewFromKey step deriveKey.
(** C27. A named stream depends on its name and on how often it was itself drawn from:
    whatever other streams were derived and drawn from, before or after, and however
    often it was derived again, it stands where its key and its own draws put it. *)
Theorem streams_independent k us s path p :
  uses us (family k) = Some s → s !! path = Some p →
  p = Nat.iter (drawsOf path us) step (NewFromKey (foldl deriveKey k path)).
Proof.
  assert (Hkey : ∀ n p, pc_key (Nat.iter n step p) = pc_key p) by (intros n q; induction n as [|n IH]; [done|exact IH]).
  assert (Hfresh : ∀ us path, (∀ s, uses us (family k) = Some s → s !! path = None) → is_Some (uses us (family k)) → drawsOf path us = O).
  { clear. intros us path. induction us as [|u us IH] using rev_ind; [done|]. unfold uses in *. rewrite foldM_app. cbn.
    destruct (foldM useOne _ us) as [s1|] eqn:E1; cbn; [|intros _ [? ?]; done]. unfold drawsOf in *. rewrite filter_app, length_app.
    intros Hn [s2 Hs2]. cbn in Hs2. destruct (useOne s1 u) as [s2'|] eqn:E2; [|done]. specialize (Hn s2' eq_refl).
    assert (H1 : s1 !! path = None).
    { destruct u as [q name|q]; cbn in E2; unfold Derive, drawAt in E2; destruct (s1 !! q) as [x|] eqn:Eq; try done; cbn in E2.
      - destruct (s1 !! (q ++ [name])) eqn:Eqn; injection E2 as <-; [done|]. by apply lookup_insert_None in Hn as [? _].
      - injection E2 as <-. by apply lookup_insert_None in Hn as [? _]. }
    rewrite IH; [|by intros ? [= <-]|eauto]. rewrite filter_cons, filter_nil. destruct u as [q name|q]; [by rewrite decide_False|].
    destruct (decide (UDraw q = UDraw path)) as [[= ->]|]; [|done]. cbn in E2. unfold drawAt in E2. by rewrite H1 in E2. }
  revert s p. revert path. induction us as [|u us IH] using rev_ind; intros path s p.
  - intros Hs Hp. injection Hs as <-. unfold family in Hp. apply lookup_singleton_Some in Hp as [<- <-]. done.
  - unfold uses. rewrite foldM_app. fold (uses us (family k)). destruct (uses us _) as [s1|] eqn:E1; [|done]. cbn [foldM mbind option_bind].
    destruct (useOne s1 u) as [s2|] eqn:E2; [|done]. intros [= <-] Hp. unfold drawsOf. rewrite filter_app, length_app, filter_cons, filter_nil.
    change (length (filter (λ u, u = UDraw path) us)) with (drawsOf path us). destruct u as [q name|q]; unfold useOne, Derive, drawAt, Uint64 in E2; destruct (s1 !! q) as [x|] eqn:Eq; try done;
      cbn [mbind option_bind fmap option_fmap option_map snd] in E2.
    + rewrite decide_False by done. rewrite Nat.add_0_r. destruct (s1 !! (q ++ [name])) eqn:Eqn; cbn [fmap option_fmap option_map snd] in E2; injection E2 as <-.
      { exact (IH path s1 p eq_refl Hp). }
      rewrite lookup_insert_Some in Hp. destruct Hp as [[<- <-]|[_ Hp]]; [|exact (IH path s1 p eq_refl Hp)].
      rewrite (Hfresh us (q ++ [name])); [|intros s0 Hs0; rewrite E1 in Hs0; by injection Hs0 as <-|rewrite E1; eauto].
      rewrite foldl_app. unfold DeriveKey. rewrite (IH q s1 x eq_refl Eq), Hkey, NewFromKey_key. reflexivity.
    + injection E2 as <-. rewrite lookup_insert_Some in Hp. destruct Hp as [[<- <-]|[Hne Hp]].
      * rewrite decide_True by done. cbn [length]. rewrite Nat.add_1_r. rewrite (IH q s1 x eq_refl Eq). reflexivity.
      * rewrite decide_False by congruence. rewrite Nat.add_0_r. exact (IH path s1 p eq_refl Hp).
Qed.
Transparent NewFromKey step deriveKey.

Definition someUses : list use := [UDerive [] [z2b 1]; UDraw [[z2b 1]]; UDerive [] [z2b 2]; UDraw [[z2b 2]]; UDraw []; UDerive [] [z2b 1]; UDraw [[z2b 1]]].
Lemma found_in {A} (x : A) (o : option A) : (match o with Some _ => true | None => false end) = true → o = Some (default x o).
Proof. by destruct o. Qed.
Definition someEnd : streams := default ∅ (uses someUses (family (MkKey 1 2))).
Lemma streams_independent_witness :
  drawsOf [[z2b 1]] someUses = 2%nat
  ∧ default (New 0) (someEnd !! [[z2b 1]]) = Nat.iter (drawsOf [[z2b 1]] someUses) step (NewFromKey (foldl deriveKey (MkKey 1 2) [[z2b 1]])).
Proof.
  split; [by vm_compute|].
  refine (streams_independent (MkKey 1 2) someUses someEnd [[z2b 1]] (default (New 0) (someEnd !! [[z2b 1]])) _ _); apply found_in; vm_compute; reflexivity.
Defined.

(** ** Keys round-trip *)

Lemma hexValue_digit d : 0 ≤ d < 16 → hexValue (hexDigit d) = Some d.
Proof.
  intros Hd. assert (Hin : d ∈ seqZ 0 16) by (apply elem_of_seqZ; lia). clear Hd.
  assert (Hall : forallb (λ d, bool_decide (hexValue (hexDigit d) = Some d)) (seqZ 0 16) = true) by by vm_compute.
  rewrite forallb_forall in Hall. specialize (Hall d). rewrite <- list_elem_of_In in Hall. specialize (Hall Hin). by apply bool_decide_eq_true in Hall.
Qed.
Lemma hexDecode_encode b : hexDecode (hexEncode b) = Some b.
Proof.
  induction b as [|x b IH]; [done|]. unfold hexEncode in *. rewrite bind_cons. cbn [app hexDecode].
  pose proof (b2z_range x) as Hx. assert (Hhi : Z.shiftr (b2z x) 4 = b2z x / 16) by (by rewrite Z.shiftr_div_pow2).
  assert (Hlo : Z.land (b2z x) 15 = b2z x mod 16) by (by change 15 with (Z.ones 4); rewrite Z.land_ones).
  rewrite (hexValue_digit (Z.shiftr (b2z x) 4)) by (rewrite Hhi; split; [apply Z.div_pos; lia|apply Z.div_lt_upper_bound; lia]).
  rewrite (hexValue_digit (Z.land (b2z x) 15)) by (rewrite Hlo; apply Z.mod_pos_bound; lia).
  cbn [mbind option_bind]. rewrite IH. cbn [mbind option_bind]. do 2 f_equal.
  assert (Z.lor (Z.shiftl (Z.shiftr (b2z x) 4) 4) (Z.land (b2z x) 15) = b2z x) as ->; [|apply z2b_b2z].
  apply Z.bits_inj'. intros i Hi. rewrite Z.lor_spec, Z.land_spec. destruct (Z.ltb_spec i 4).
  - rewrite Z.shiftl_spec_low by lia. change 15 with (Z.ones 4). rewrite Z.ones_spec_low by lia. by rewrite andb_true_r.
  - rewrite Z.shiftl_spec_high, Z.shiftr_spec by lia. change 15 with (Z.ones 4). rewrite Z.ones_spec_high by lia. rewrite andb_false_r, orb_false_r. f_equal. lia.
Qed.
Lemma ParseKey_String k : key_wf k → ParseKey (Key_String k) = Some k.
Proof.
  intros [Hh Hl]. unfold ParseKey, Key_String. rewrite hexDecode_encode. cbn [mbind option_bind]. rewrite length_app, !be_put_length. cbn [negb Z.of_nat Z.eqb].
  rewrite take_app_length' by by rewrite be_put_length. rewrite drop_app_length' by by rewrite be_put_length. rewrite take_ge by by rewrite be_put_length.
  rewrite !be_get_put. change (256 ^ Z.of_nat 8) with (2 ^ 64). rewrite !Z.mod_small by done. by destruct k.
Qed.
