(* ===== verification/CheckLedger.v ===== *)
(** * The harness's ledger (raftcheck/ledger.go)

    What a run is judged by: per range, what every node made durable, sent, received,
    applied and snapshotted, and the entries known committed because some node applied
    them; and for the whole cluster the answers given to clients, the transactions
    issued and the moves ordered.  Facts are only ever added.  A ledger that was not
    asked for is Go's nil pointer, [None] of [option Ledger]; an index out of the node
    range is a panic.  [provenance.Observed] is a type-level tag and is erased.  The
    oracles of [CheckOracles] read this and nothing else. *)

From Stdlib Require Import Lia ZArith Sorted.
From stdpp Require Import base tactics numbers option list sets gmap.
From S2P Require Import Prelude Bytes ConfChange RaftTypes Hlc.

(** ** Records *)

Record WriteRecord := MkWriteRecord { wr_Range : Z; wr_Node : nat; wr_Index : Index; wr_Key : bytes; wr_AckedAt : Z }.

Record ReadRecord := MkReadRecord {
  rr_Range : Z; rr_Node : nat; rr_Index : Index; rr_Key : bytes; rr_At : Timestamp; rr_Value : bytes; rr_Found : bool; rr_Refused : bool;
  rr_AppliedAt : Index; rr_IssuedAt : Z; rr_OffLog : bool; rr_When : Z;
}.

Record TxnRecord := MkTxnRec {
  tr_ID : Z; tr_StartTS : Timestamp; tr_CommitTS : Timestamp; tr_Primary : bytes; tr_Keys : list bytes; tr_Began : Z; tr_Decided : Z;
  tr_Reached : bool; tr_Restarts : Z;
}.
#[global] Instance TxnRecord_eta : Eta TxnRecord := λ t,
  MkTxnRec (tr_ID t) (tr_StartTS t) (tr_CommitTS t) (tr_Primary t) (tr_Keys t) (tr_Began t) (tr_Decided t) (tr_Reached t) (tr_Restarts t).
#[global] Instance upd_tr_StartTS : Field tr_StartTS := ltac:(derive_field).
#[global] Instance upd_tr_CommitTS : Field tr_CommitTS := ltac:(derive_field).
#[global] Instance upd_tr_Decided : Field tr_Decided := ltac:(derive_field).
#[global] Instance upd_tr_Reached : Field tr_Reached := ltac:(derive_field).
#[global] Instance upd_tr_Restarts : Field tr_Restarts := ltac:(derive_field).

Record TxnReadRecord := MkTxnRead {
  xr_Range : Z; xr_Node : nat; xr_Index : Index; xr_Key : bytes; xr_At : Timestamp; xr_StartTS : Timestamp; xr_Value : bytes; xr_Found : bool;
  xr_Locked : bool; xr_LockPrimary : bytes; xr_LockStartTS : Timestamp; xr_Uncertain : bool; xr_CommitTS : Timestamp;
  xr_RestartAt : Timestamp; xr_Ceiling : Timestamp; xr_Refused : bool; xr_When : Z;
}.

Record AuditRecord := MkAudit { ar_ReadTS : Timestamp; ar_Total : Z; ar_Accounts : Z; ar_When : Z }.
Record ConfOrder := MkConfOrder { co_Node : Z; co_At : Z }.
Record MoveRecord := MkMove { mv_Range : Z; mv_From : NodeID; mv_To : NodeID; mv_At : Z }.

Record hsRecord := MkHs { hr_node : nat; hr_hs : HardState; hr_at : Z }.
Record leaderRecord := MkLeader { lr_term : Term; lr_node : nat; lr_at : Z; lr_log : list Entry; lr_snap : SnapshotMeta }.
Record commitRecord := MkCommit { cr_entry : Entry; cr_node : nat; cr_at : Z }.
Record sentRecord := MkSent {
  st_node : nat; st_msg : Message; st_durableTerm : Term; st_durableVote : NodeID; st_durableLast : Index; st_at : Z;
}.
Record SnapshotRecord := MkSnapRec { sp_Index : Index; sp_Term : Term; sp_Digest : Z; sp_Taken : bool }.
Record snapRecord := MkSnap { sr_node : nat; sr_rec : SnapshotRecord; sr_at : Z }.
Record DurableState := MkDurable { ds_HardState : HardState; ds_Snapshot : SnapshotMeta; ds_Log : list Entry }.
Record TxnCommitRecord := MkTxnCommit { tc_ID : Z; tc_CommitTS : Timestamp; tc_At : Z }.
Record TxnRestartRecord := MkTxnRestart { ta_ID : Z; ta_StartTS : Timestamp; ta_At : Z }.

(** One range.  [rl_base] and [rl_birthConf] are nil, the empty string, until the
    range's birth state is recorded. *)
Record rangeLedger := MkRangeLedger {
  rl_id : Z; rl_base : bytes; rl_birthConf : bytes; rl_durableHS : list hsRecord; rl_durableLog : list (list Entry);
  rl_durableSnap : list SnapshotMeta; rl_ledIn : list leaderRecord; rl_committed : list commitRecord; rl_applied : list (list Entry);
  rl_sent : list sentRecord; rl_recv : list sentRecord; rl_snaps : list snapRecord; rl_nodes : nat;
}.
#[global] Instance rangeLedger_eta : Eta rangeLedger := λ l,
  MkRangeLedger (rl_id l) (rl_base l) (rl_birthConf l) (rl_durableHS l) (rl_durableLog l) (rl_durableSnap l) (rl_ledIn l) (rl_committed l)
    (rl_applied l) (rl_sent l) (rl_recv l) (rl_snaps l) (rl_nodes l).
#[global] Instance upd_rl_base : Field rl_base := ltac:(derive_field).
#[global] Instance upd_rl_birthConf : Field rl_birthConf := ltac:(derive_field).
#[global] Instance upd_rl_durableHS : Field rl_durableHS := ltac:(derive_field).
#[global] Instance upd_rl_durableLog : Field rl_durableLog := ltac:(derive_field).
#[global] Instance upd_rl_durableSnap : Field rl_durableSnap := ltac:(derive_field).
#[global] Instance upd_rl_ledIn : Field rl_ledIn := ltac:(derive_field).
#[global] Instance upd_rl_committed : Field rl_committed := ltac:(derive_field).
#[global] Instance upd_rl_applied : Field rl_applied := ltac:(derive_field).
#[global] Instance upd_rl_sent : Field rl_sent := ltac:(derive_field).
#[global] Instance upd_rl_recv : Field rl_recv := ltac:(derive_field).
#[global] Instance upd_rl_snaps : Field rl_snaps := ltac:(derive_field).

Record Ledger := MkLedger {
  lg_ranges : list rangeLedger; lg_nodes : nat; lg_rev : Z; lg_reads : list ReadRecord; lg_writes : list WriteRecord;
  lg_txnReads : list TxnReadRecord; lg_audits : list AuditRecord; lg_confOrders : list ConfOrder; lg_txns : list TxnRecord;
  lg_txnRestarts : Z; lg_moves : list MoveRecord;
}.
#[global] Instance Ledger_eta : Eta Ledger := λ l,
  MkLedger (lg_ranges l) (lg_nodes l) (lg_rev l) (lg_reads l) (lg_writes l) (lg_txnReads l) (lg_audits l) (lg_confOrders l) (lg_txns l)
    (lg_txnRestarts l) (lg_moves l).
#[global] Instance upd_lg_ranges : Field lg_ranges := ltac:(derive_field).
#[global] Instance upd_lg_rev : Field lg_rev := ltac:(derive_field).
#[global] Instance upd_lg_reads : Field lg_reads := ltac:(derive_field).
#[global] Instance upd_lg_writes : Field lg_writes := ltac:(derive_field).
#[global] Instance upd_lg_txnReads : Field lg_txnReads := ltac:(derive_field).
#[global] Instance upd_lg_audits : Field lg_audits := ltac:(derive_field).
#[global] Instance upd_lg_confOrders : Field lg_confOrders := ltac:(derive_field).
#[global] Instance upd_lg_txns : Field lg_txns := ltac:(derive_field).
#[global] Instance upd_lg_txnRestarts : Field lg_txnRestarts := ltac:(derive_field).
#[global] Instance upd_lg_moves : Field lg_moves := ltac:(derive_field).

Definition NewLedger (n : nat) : Ledger := MkLedger [] n 0 [] [] [] [] [] [] 0 [].

(** ** One range *)

Definition zeroMeta : SnapshotMeta := MkSnapshotMeta 0 0 (MkConfiguration [] []).

Definition newRange (id : Z) (nodes : nat) : rangeLedger :=
  MkRangeLedger id [] [] [] (replicate nodes []) (replicate nodes zeroMeta) [] [] (replicate nodes []) [] [] [] nodes.

Definition lastIndexOf (es : list Entry) : Index := match last es with Some e => e_Index e | None => 0 end.

Definition durableHardState (l : rangeLedger) (node : nat) : HardState :=
  foldl (λ hs r, if (hr_node r =? node)%nat then hr_hs r else hs) (MkHardState 0 0) (rl_durableHS l).

Definition durableLast (l : rangeLedger) (node : nat) : option Index :=
  snap ← rl_durableSnap l !! node;
  log ← rl_durableLog l !! node;
  Some (if lastIndexOf log >? sm_Index snap then lastIndexOf log else sm_Index snap).

Definition isCommitted (i : Index) (l : rangeLedger) : bool := existsb (λ c, e_Index (cr_entry c) =? i) (rl_committed l).
Definition Committed (l : rangeLedger) : list Entry := cr_entry <$> rl_committed l.

(** The committed entries by index; a repeated index would be overwritten. *)
Definition byIndex (es : list Entry) : gmap Z Entry := foldl (λ m e, <[e_Index e := e]> m) ∅ es.

Definition committedPrefix (l : rangeLedger) (through : Index) : option (list Entry) :=
  if through =? 0 then Some []
  else
    let m := byIndex (filter (λ e, e_Index e ≤ through) (Committed l)) in
    mapM (λ i, m !! i) (seqZ 1 through).

Definition noteLeader (term : Term) (node : nat) (at_ : Z) (l : rangeLedger) : option rangeLedger :=
  if existsb (λ r, (lr_term r =? term) && (lr_node r =? node)%nat) (rl_ledIn l) then Some l
  else
    log ← rl_durableLog l !! node;
    snap ← rl_durableSnap l !! node;
    Some (l <| rl_ledIn := rl_ledIn l ++ [MkLeader term node at_ log snap] |>).

Definition range_RecordDurable (node : nat) (st : DurableState) (at_ : Z) (l : rangeLedger) : option rangeLedger :=
  _ ← rl_durableLog l !! node;
  _ ← rl_durableSnap l !! node;
  Some (l <| rl_durableHS := rl_durableHS l ++ [MkHs node (ds_HardState st) at_] |>
          <| rl_durableLog := <[node := ds_Log st]> (rl_durableLog l) |>
          <| rl_durableSnap := <[node := ds_Snapshot st]> (rl_durableSnap l) |>).

Definition range_RecordSent (node : nat) (m : Message) (at_ : Z) (l : rangeLedger) : option rangeLedger :=
  let hs := durableHardState l node in
  lst ← durableLast l node;
  let l := l <| rl_sent := rl_sent l ++ [MkSent node m (hs_Term hs) (hs_Vote hs) lst at_] |> in
  if bool_decide (m_Type m = MsgApp) then noteLeader (m_Term m) node at_ l else Some l.

Definition range_RecordReceived (node : nat) (m : Message) (at_ : Z) (l : rangeLedger) : rangeLedger :=
  l <| rl_recv := rl_recv l ++ [MkSent node m 0 0 0 at_] |>.

Definition noteCommitted (node : nat) (at_ : Z) (l : rangeLedger) (e : Entry) : rangeLedger :=
  if isCommitted (e_Index e) l then l else l <| rl_committed := rl_committed l ++ [MkCommit e node at_] |>.

Definition range_RecordApplied (node : nat) (entries : list Entry) (at_ : Z) (l : rangeLedger) : option rangeLedger :=
  prev ← rl_applied l !! node;
  Some (foldl (noteCommitted node at_) (l <| rl_applied := <[node := prev ++ entries]> (rl_applied l) |>) entries).

Definition range_RecordSnapshot (node : nat) (r : SnapshotRecord) (at_ : Z) (l : rangeLedger) : rangeLedger :=
  l <| rl_snaps := rl_snaps l ++ [MkSnap node r at_] |>.

Definition range_RecordRangeBase (data conf : bytes) (l : rangeLedger) : rangeLedger :=
  match rl_base l with [] => l <| rl_base := data |> <| rl_birthConf := conf |> | _ => l end.

(** *** What a range's log says *)

Definition confOf (rec : commitRecord) (since until : Z) : option ConfChangeV2 :=
  if negb (is_conf_entry (cr_entry rec)) || (cr_at rec <? since) || (cr_at rec >=? until) then None
  else DecodeConfChange (e_Data (cr_entry rec)).

Definition firstConfChange (since until : Z) (kind : ConfChangeType) (node : NodeID) (l : rangeLedger) : option Index :=
  foldl (λ best rec,
    match confOf rec since until with
    | Some cc =>
        match cc_changes cc with
        | [ch] =>
            if negb (bool_decide (ccs_type ch = kind)) || negb (ccs_node ch =? node) then best
            else match best with
                 | Some b => if e_Index (cr_entry rec) <? b then Some (e_Index (cr_entry rec)) else best
                 | None => Some (e_Index (cr_entry rec))
                 end
        | _ => best
        end
    | None => best
    end) None (rl_committed l).

Definition foreignConfChange (since until : Z) (from to : NodeID) (l : rangeLedger) : bool :=
  existsb (λ rec,
    match confOf rec since until with
    | Some cc => existsb (λ ch, negb (ccs_node ch =? from) && negb (ccs_node ch =? to)) (cc_changes cc)
    | None => false
    end) (rl_committed l).

Fixpoint insertEntry (e : Entry) (es : list Entry) : list Entry :=
  match es with [] => [e] | x :: xs => if e_Index x <=? e_Index e then x :: insertEntry e xs else e :: x :: xs end.
(** [sort.Slice] by index; no two committed entries share one. *)
Definition sortEntries (es : list Entry) : list Entry := foldl (λ acc e, insertEntry e acc) [] es.

Definition CommittedConfig (l : rangeLedger) : option Configuration :=
  conf ← DecodeConfiguration (rl_birthConf l);
  Some (foldl (λ conf e,
    if negb (is_conf_entry e) then conf
    else match ApplyConfEntry conf (e_Data e) with Ok next => next | Err _ => conf end) conf (sortEntries (Committed l))).

Definition SnapshotsTaken (l : rangeLedger) : nat := length (filter (λ s, sp_Taken (sr_rec s) = true) (rl_snaps l)).
Definition SnapshotsInstalled (l : rangeLedger) : nat := (length (rl_snaps l) - SnapshotsTaken l)%nat.
Definition InstallsBy (node : nat) (l : rangeLedger) : list Index :=
  (λ s, sp_Index (sr_rec s)) <$> filter (λ s, sr_node s = node ∧ sp_Taken (sr_rec s) = false) (rl_snaps l).

(** *** Transfers of leadership *)

Record TransferRecord := MkTransfer {
  tf_From : NodeID; tf_To : NodeID; tf_At : Z; tf_Campaigned : Z; tf_Won : Z; tf_PreVotedAt : Z; tf_PreVoted : bool;
}.
#[global] Instance TransferRecord_eta : Eta TransferRecord := λ t,
  MkTransfer (tf_From t) (tf_To t) (tf_At t) (tf_Campaigned t) (tf_Won t) (tf_PreVotedAt t) (tf_PreVoted t).
#[global] Instance upd_tf_Campaigned : Field tf_Campaigned := ltac:(derive_field).
#[global] Instance upd_tf_Won : Field tf_Won := ltac:(derive_field).
#[global] Instance upd_tf_PreVotedAt : Field tf_PreVotedAt := ltac:(derive_field).
#[global] Instance upd_tf_PreVoted : Field tf_PreVoted := ltac:(derive_field).

Definition transferSent (d : sentRecord) (t : TransferRecord) (x : sentRecord) : TransferRecord :=
  if (st_at x <? st_at d) || negb (m_From (st_msg x) =? tf_To t) then t
  else match m_Type (st_msg x) with
  | MsgPreVote => if tf_Campaigned t =? 0 then t <| tf_PreVoted := true |> <| tf_PreVotedAt := st_at x |> else t
  | MsgVote => if tf_Campaigned t =? 0 then t <| tf_Campaigned := st_at x |> else t
  | MsgApp => if negb (tf_Campaigned t =? 0) && (tf_Won t =? 0) then t <| tf_Won := st_at x |> else t
  | _ => t
  end.
Definition range_Transfers (l : rangeLedger) : list TransferRecord :=
  (λ d, foldl (transferSent d) (MkTransfer (m_From (st_msg d)) (m_To (st_msg d)) (st_at d) 0 0 0 false) (rl_sent l))
    <$> filter (λ d, m_Type (st_msg d) = MsgTimeoutNow) (rl_recv l).

(** *** The election census *)

Record Census := MkCensus { cn_Terms : Term; cn_ElectionsStart : Z; cn_ElectionsWon : Z; cn_SplitVotes : Z; cn_Leaders : Z }.

(** The maps of the loop: the terms campaigned in, with their candidates, and the
    terms led in.  [startedIn] holds the same terms as [candidates]. *)
Record censusMaps := MkCensusMaps { cm_terms : Term; cm_candidates : gmap Z (gset nat); cm_wonIn : gset Z }.

Definition censusStep (c : censusMaps) (s : sentRecord) : censusMaps :=
  let t := m_Term (st_msg s) in
  let c := if t >? cm_terms c then MkCensusMaps t (cm_candidates c) (cm_wonIn c) else c in
  match m_Type (st_msg s) with
  | MsgVote => MkCensusMaps (cm_terms c) (<[t := {[st_node s]} ∪ default ∅ (cm_candidates c !! t)]> (cm_candidates c)) (cm_wonIn c)
  | MsgApp => MkCensusMaps (cm_terms c) (cm_candidates c) ({[t]} ∪ cm_wonIn c)
  | _ => c
  end.
Definition range_Census (l : rangeLedger) : Census :=
  let c := foldl censusStep (MkCensusMaps 0 ∅ ∅) (rl_sent l) in
  MkCensus (cm_terms c) (Z.of_nat (size (cm_candidates c))) (Z.of_nat (size (cm_wonIn c)))
    (Z.of_nat (size (filter (λ tc, (1 < size tc.2)%nat) (cm_candidates c)))) (Z.of_nat (length (rl_ledIn l))).

(** ** The cluster *)

Definition rangeByID (id : Z) (l : Ledger) : option rangeLedger := List.find (λ r, rl_id r =? id) (lg_ranges l).

(** A new range is appended and moved towards the front past greater ids; the list
    is walked from its end. *)
Fixpoint settle (r : rangeLedger) (back : list rangeLedger) : list rangeLedger :=
  match back with
  | [] => [r]
  | x :: back => if rl_id x >? rl_id r then x :: settle r back else r :: x :: back
  end.
Definition insertRange (r : rangeLedger) (rs : list rangeLedger) : list rangeLedger := rev (settle r (rev rs)).

(** The range with this id, made if it is not there, replaced by its update. *)
Fixpoint putRange (r : rangeLedger) (rs : list rangeLedger) : list rangeLedger :=
  match rs with [] => [] | x :: rs => if rl_id x =? rl_id r then r :: rs else x :: putRange r rs end.
Definition forRange (id : Z) (l : Ledger) : rangeLedger * Ledger :=
  match rangeByID id l with
  | Some r => (r, l)
  | None => let r := newRange id (lg_nodes l) in (r, l <| lg_ranges := insertRange r (lg_ranges l) |>)
  end.
Definition onRange (id : Z) (f : rangeLedger → option rangeLedger) (l : Ledger) : option Ledger :=
  let l := l <| lg_rev := add64 (lg_rev l) 1 |> in
  let '(r, l) := forRange id l in
  r ← f r;
  Some (l <| lg_ranges := putRange r (lg_ranges l) |>).

Definition RecordDurable (id : Z) (node : nat) (st : DurableState) (at_ : Z) : Ledger → option Ledger :=
  onRange id (range_RecordDurable node st at_).
Definition RecordSent (id : Z) (node : nat) (m : Message) (at_ : Z) : Ledger → option Ledger :=
  onRange id (range_RecordSent node m at_).
Definition RecordReceived (id : Z) (node : nat) (m : Message) (at_ : Z) : Ledger → option Ledger :=
  onRange id (λ r, Some (range_RecordReceived node m at_ r)).
Definition RecordApplied (id : Z) (node : nat) (entries : list Entry) (at_ : Z) : Ledger → option Ledger :=
  onRange id (range_RecordApplied node entries at_).
Definition RecordSnapshot (id : Z) (node : nat) (s : SnapshotRecord) (at_ : Z) : Ledger → option Ledger :=
  onRange id (λ r, Some (range_RecordSnapshot node s at_ r)).
Definition RecordRangeBase (id : Z) (data conf : bytes) : Ledger → option Ledger :=
  onRange id (λ r, Some (range_RecordRangeBase data conf r)).

Definition bump (l : Ledger) : Ledger := l <| lg_rev := add64 (lg_rev l) 1 |>.
Definition RecordMove (m : MoveRecord) (l : Ledger) : Ledger := bump l <| lg_moves := lg_moves l ++ [m] |>.
Definition RecordTxnBegin (t : TxnRecord) (l : Ledger) : Ledger := bump l <| lg_txns := lg_txns l ++ [t] |>.
Definition RecordRead (r : ReadRecord) (l : Ledger) : Ledger := bump l <| lg_reads := lg_reads l ++ [r] |>.
(** A write does not move the revision. *)
Definition RecordWrite (w : WriteRecord) (l : Ledger) : Ledger := l <| lg_writes := lg_writes l ++ [w] |>.
Definition RecordTxnRead (r : TxnReadRecord) (l : Ledger) : Ledger := bump l <| lg_txnReads := lg_txnReads l ++ [r] |>.
Definition RecordAudit (a : AuditRecord) (l : Ledger) : Ledger := bump l <| lg_audits := lg_audits l ++ [a] |>.
Definition RecordConfOrder (o : ConfOrder) (l : Ledger) : Ledger := bump l <| lg_confOrders := lg_confOrders l ++ [o] |>.

(** The first transaction with this id, updated. *)
Fixpoint onTxn (id : Z) (f : TxnRecord → TxnRecord) (ts : list TxnRecord) : list TxnRecord :=
  match ts with [] => [] | t :: ts => if tr_ID t =? id then f t :: ts else t :: onTxn id f ts end.
Definition RecordTxnCommit (c : TxnCommitRecord) (l : Ledger) : Ledger :=
  bump l <| lg_txns := onTxn (tc_ID c) (λ t, t <| tr_CommitTS := tc_CommitTS c |> <| tr_Decided := tc_At c |> <| tr_Reached := true |>) (lg_txns l) |>.
Definition RecordTxnRestart (c : TxnRestartRecord) (l : Ledger) : Ledger :=
  bump l <| lg_txnRestarts := lg_txnRestarts l + 1 |>
         <| lg_txns := onTxn (ta_ID c) (λ t, t <| tr_StartTS := ta_StartTS c |> <| tr_Restarts := tr_Restarts t + 1 |>) (lg_txns l) |>.

(** The nil ledger records nothing. *)
Definition observed (f : Ledger → option Ledger) (l : option Ledger) : option (option Ledger) :=
  match l with None => Some None | Some l => l' ← f l; Some (Some l') end.
Definition Ranges (l : option Ledger) : list rangeLedger := match l with None => [] | Some l => lg_ranges l end.

Definition ReadsRefused (l : Ledger) : nat := length (filter (λ r, rr_Refused r = true) (lg_reads l)).
Definition churnTouched (n from to : Z) (l : Ledger) : bool :=
  existsb (λ o, (co_Node o =? n) && (from <=? co_At o) && (co_At o <=? to)) (lg_confOrders l).

(** [int64] above every instant: [^uint64(0) >> 1]. *)
Definition forever : Z := 2 ^ 63 - 1.
Definition moveEnds (i : nat) (l : Ledger) : option Z :=
  m ← lg_moves l !! i;
  Some (match List.find (λ x, mv_Range x =? mv_Range m) (drop (S i) (lg_moves l)) with Some x => mv_At x | None => forever end).

(** The moves of which something holds in their range and window. *)
Definition movesWhere (p : rangeLedger → MoveRecord → Z → bool) (l : Ledger) : nat :=
  length (filter (λ i,
    match lg_moves l !! i, moveEnds i l with
    | Some m, Some until => match rangeByID (mv_Range m) l with Some rl => p rl m until | None => false end
    | _, _ => false
    end = true) (seq 0 (length (lg_moves l)))).
Definition MovesCompleted (l : option Ledger) : nat :=
  match l with
  | None => 0%nat
  | Some l => movesWhere (λ rl m until, bool_decide (is_Some (firstConfChange (mv_At m) until ConfChangeRemoveNode (mv_From m) rl))) l
  end.
Definition MovesRacingUnrelatedChanges (l : option Ledger) : nat :=
  match l with None => 0%nat | Some l => movesWhere (λ rl m until, foreignConfChange (mv_At m) until (mv_From m) (mv_To m) rl) l end.

Definition addCensus (out c : Census) : Census :=
  MkCensus (if cn_Terms c >? cn_Terms out then cn_Terms c else cn_Terms out) (cn_ElectionsStart out + cn_ElectionsStart c)
    (cn_ElectionsWon out + cn_ElectionsWon c) (cn_SplitVotes out + cn_SplitVotes c) (cn_Leaders out + cn_Leaders c).
Definition ledger_Census (l : option Ledger) : Census := foldl (λ out r, addCensus out (range_Census r)) (MkCensus 0 0 0 0 0) (Ranges l).
Definition ledger_Transfers (l : Ledger) : list TransferRecord := lg_ranges l ≫= range_Transfers.
Definition ledger_SnapshotsTaken (l : Ledger) : nat := sum_list (SnapshotsTaken <$> lg_ranges l).
Definition ledger_SnapshotsInstalled (l : Ledger) : nat := sum_list (SnapshotsInstalled <$> lg_ranges l).

(** ** Facts

    A run of the harness is a sequence of recorded facts. *)

Inductive fact :=
| FDurable (id : Z) (node : nat) (st : DurableState) (at_ : Z)
| FSent (id : Z) (node : nat) (m : Message) (at_ : Z)
| FReceived (id : Z) (node : nat) (m : Message) (at_ : Z)
| FApplied (id : Z) (node : nat) (entries : list Entry) (at_ : Z)
| FSnapshot (id : Z) (node : nat) (s : SnapshotRecord) (at_ : Z)
| FRangeBase (id : Z) (data conf : bytes)
| FMove (m : MoveRecord)
| FTxnBegin (t : TxnRecord)
| FTxnCommit (c : TxnCommitRecord)
| FTxnRestart (c : TxnRestartRecord)
| FRead (r : ReadRecord)
| FWrite (w : WriteRecord)
| FTxnRead (r : TxnReadRecord)
| FAudit (a : AuditRecord)
| FConfOrder (o : ConfOrder).

(** What a fact does to a range of its own, or to the rest of the ledger. *)
Definition onRangeFact (id : Z) (f : fact) : option (rangeLedger → option rangeLedger) :=
  match f with
  | FDurable i node st at_ => if i =? id then Some (range_RecordDurable node st at_) else None
  | FSent i node m at_ => if i =? id then Some (range_RecordSent node m at_) else None
  | FReceived i node m at_ => if i =? id then Some (λ r, Some (range_RecordReceived node m at_ r)) else None
  | FApplied i node es at_ => if i =? id then Some (range_RecordApplied node es at_) else None
  | FSnapshot i node s at_ => if i =? id then Some (λ r, Some (range_RecordSnapshot node s at_ r)) else None
  | FRangeBase i data conf => if i =? id then Some (λ r, Some (range_RecordRangeBase data conf r)) else None
  | _ => None
  end.

Definition record (f : fact) (l : Ledger) : option Ledger :=
  match f with
  | FDurable id node st at_ => RecordDurable id node st at_ l
  | FSent id node m at_ => RecordSent id node m at_ l
  | FReceived id node m at_ => RecordReceived id node m at_ l
  | FApplied id node es at_ => RecordApplied id node es at_ l
  | FSnapshot id node s at_ => RecordSnapshot id node s at_ l
  | FRangeBase id data conf => RecordRangeBase id data conf l
  | FMove m => Some (RecordMove m l)
  | FTxnBegin t => Some (RecordTxnBegin t l)
  | FTxnCommit c => Some (RecordTxnCommit c l)
  | FTxnRestart c => Some (RecordTxnRestart c l)
  | FRead r => Some (RecordRead r l)
  | FWrite w => Some (RecordWrite w l)
  | FTxnRead r => Some (RecordTxnRead r l)
  | FAudit a => Some (RecordAudit a l)
  | FConfOrder o => Some (RecordConfOrder o l)
  end.
Definition recordAll (n : nat) (fs : list fact) : option Ledger := foldM (λ l f, record f l) (NewLedger n) fs.

(** *** Ranges in the ledger *)

(** The range with an id; one that was never mentioned has nothing recorded. *)
Definition getRange (id : Z) (l : Ledger) : rangeLedger := default (newRange id (lg_nodes l)) (rangeByID id l).

Definition idsSorted (rs : list rangeLedger) : Prop := StronglySorted Z.lt (rl_id <$> rs).

(** An operation on a range that leaves its identity alone. *)
Definition keeps (f : rangeLedger → option rangeLedger) : Prop :=
  ∀ r r', f r = Some r' → rl_id r' = rl_id r ∧ rl_nodes r' = rl_nodes r.

Lemma noteCommitted_keeps node at_ es r :
  rl_id (foldl (noteCommitted node at_) r es) = rl_id r ∧ rl_nodes (foldl (noteCommitted node at_) r es) = rl_nodes r.
Proof.
  revert r. induction es as [|e es IH]; intros r; cbn [foldl]; [done|]. destruct (IH (noteCommitted node at_ r e)) as [-> ->].
  unfold noteCommitted. by destruct (isCommitted _ _).
Qed.

Lemma onRangeFact_keeps id f g : onRangeFact id f = Some g → keeps g.
Proof.
  destruct f; cbn [onRangeFact]; try done; (destruct (_ =? id); [|done]); intros [= <-] r r'.
  - unfold range_RecordDurable. destruct (rl_durableLog r !! node); [|done]. destruct (rl_durableSnap r !! node); [|done].
    by intros [= <-].
  - unfold range_RecordSent, noteLeader. destruct (durableLast r node); [|done]. cbn [mbind option_bind]. case_bool_decide; [|by intros [= <-]].
    cbn [rl_ledIn rl_durableLog rl_durableSnap update_field upd_rl_sent]. destruct (existsb _ _); [by intros [= <-]|].
    destruct (rl_durableLog r !! node); [|done]. destruct (rl_durableSnap r !! node); [|done]. by intros [= <-].
  - by intros [= <-].
  - unfold range_RecordApplied. destruct (rl_applied r !! node); [|done]. cbn [mbind option_bind]. intros [= <-].
    by rewrite !(proj1 (noteCommitted_keeps _ _ _ _)), !(proj2 (noteCommitted_keeps _ _ _ _)).
  - by intros [= <-].
  - unfold range_RecordRangeBase. intros [= <-]. by destruct (rl_base r).
Qed.

Lemma find_id id rs : idsSorted rs → ∀ r, List.find (λ r, rl_id r =? id) rs = Some r ↔ r ∈ rs ∧ rl_id r = id.
Proof.
  unfold idsSorted. induction rs as [|x rs IH]; intros Hs r; cbn [List.find]; [by split; [|intros [?%elem_of_nil _]]|].
  cbn [fmap list_fmap] in Hs. apply StronglySorted_inv in Hs as [Hs Hx]. destruct (Z.eqb_spec (rl_id x) id) as [He|He].
  - split; [intros [= <-]; split; [left|done]|]. intros [[->|Hr]%elem_of_cons Hid]; [done|]. exfalso.
    rewrite Forall_fmap, Forall_forall in Hx. specialize (Hx r Hr). cbn in Hx. lia.
  - rewrite (IH Hs). split; [intros [Hr Hid]; split; [by right|done]|]. intros [[->|Hr]%elem_of_cons Hid]; done.
Qed.

Lemma putRange_elem r rs x :
  idsSorted rs → (∃ y, y ∈ rs ∧ rl_id y = rl_id r) → x ∈ putRange r rs ↔ x = r ∨ x ∈ rs ∧ rl_id x ≠ rl_id r.
Proof.
  unfold idsSorted. induction rs as [|z rs IH]; intros Hs Hex; [by destruct Hex as (y & ?%elem_of_nil & _)|].
  cbn [fmap list_fmap] in Hs. apply StronglySorted_inv in Hs as [Hs Hz]. rewrite Forall_fmap, Forall_forall in Hz. cbn [putRange].
  destruct (Z.eqb_spec (rl_id z) (rl_id r)) as [He|He].
  - rewrite !elem_of_cons. split.
    + intros [->|Hx]; [by left|]. right. split; [by right|]. specialize (Hz x Hx). cbn in Hz. lia.
    + intros [->|[[->|Hx] Hne]]; [by left|done|by right].
  - rewrite !elem_of_cons, IH; [|done|].
    + split; [intros [->|[->|[Hx Hne]]]; [right; split; [by left|done]|by left|right; split; [by right|done]]|].
      intros [->|[[->|Hx] Hne]]; [right; by left|by left|right; by right].
    + destruct Hex as (y & [->|Hy]%elem_of_cons & Hid); [done|]. by exists y.
Qed.
Lemma putRange_ids r rs : rl_id <$> putRange r rs = rl_id <$> rs.
Proof.
  induction rs as [|z rs IH]; [done|]. cbn [putRange]. destruct (Z.eqb_spec (rl_id z) (rl_id r)) as [He|He]; cbn [fmap list_fmap]; [by rewrite He|].
  by f_equal.
Qed.

Lemma in_rev_elem {A} (x : A) xs : x ∈ rev xs ↔ x ∈ xs.
Proof. rewrite !list_elem_of_In. symmetry. apply in_rev. Qed.

Lemma settle_elem r back x : x ∈ settle r back ↔ x = r ∨ x ∈ back.
Proof.
  induction back as [|y back IH]; cbn [settle]; [rewrite list_elem_of_singleton; set_solver|].
  case_test; rewrite !elem_of_cons; [rewrite IH|]; tauto.
Qed.
Lemma settle_sorted r back :
  StronglySorted (flip Z.lt) (rl_id <$> back) → (∀ x, x ∈ back → rl_id x ≠ rl_id r) → StronglySorted (flip Z.lt) (rl_id <$> settle r back).
Proof.
  induction back as [|y back IH]; intros Hs Hn; cbn [settle]; [by repeat constructor|].
  cbn [fmap list_fmap] in Hs. apply StronglySorted_inv in Hs as [Hs Hy]. rewrite Forall_fmap, Forall_forall in Hy.
  pose proof (Hn y ltac:(left)). rewrite Z.gtb_ltb. destruct (Z.ltb_spec (rl_id r) (rl_id y)); cbn [fmap list_fmap].
  - constructor; [apply IH; [done|]; intros x Hx; apply Hn; by right|]. rewrite Forall_fmap, Forall_forall. intros x Hx.
    apply settle_elem in Hx as [->|Hx]; [unfold flip; cbn; lia|by apply Hy].
  - constructor; [constructor; [done|by rewrite Forall_fmap, Forall_forall]|]. constructor; [unfold flip; lia|].
    rewrite Forall_fmap, Forall_forall. intros x Hx. specialize (Hy x Hx). unfold flip in *. cbn in *. lia.
Qed.

Lemma map_rev_fmap {A B} (f : A → B) xs : f <$> rev xs = rev (f <$> xs).
Proof. apply map_rev. Qed.
Lemma insertRange_elem r rs x : x ∈ insertRange r rs ↔ x = r ∨ x ∈ rs.
Proof. unfold insertRange. rewrite in_rev_elem, settle_elem, in_rev_elem. done. Qed.
Lemma insertRange_sorted r rs : idsSorted rs → (∀ x, x ∈ rs → rl_id x ≠ rl_id r) → idsSorted (insertRange r rs).
Proof.
  unfold idsSorted, insertRange. intros Hs Hn. rewrite map_rev_fmap.
  assert (Hr : StronglySorted (flip Z.lt) (rl_id <$> rev rs)).
  { rewrite map_rev_fmap. by apply StronglySorted_rev. }
  pose proof (settle_sorted r (rev rs) Hr) as Hs'. specialize (Hs' ltac:(intros x Hx; apply Hn; by rewrite <- in_rev_elem)).
  exact (StronglySorted_rev _ _ Hs').
Qed.

(** The ranges of a ledger: sorted by id, all of its width. *)
Record rangesOK (l : Ledger) : Prop := MkRangesOK {
  ro_sorted : idsSorted (lg_ranges l);
  ro_nodes : ∀ r, r ∈ lg_ranges l → rl_nodes r = lg_nodes l;
}.

Lemma getRange_elem l r : rangesOK l → r ∈ lg_ranges l → getRange (rl_id r) l = r.
Proof. intros [Hs _] Hr. unfold getRange, rangeByID. by rewrite (proj2 (find_id (rl_id r) _ Hs r) (conj Hr eq_refl)). Qed.

Lemma getRange_cases l id : rangesOK l →
  (getRange id l ∈ lg_ranges l ∧ rangeByID id l = Some (getRange id l) ∨ getRange id l = newRange id (lg_nodes l) ∧ rangeByID id l = None)
  ∧ rl_id (getRange id l) = id ∧ rl_nodes (getRange id l) = lg_nodes l.
Proof.
  intros [Hs Hn]. unfold getRange. destruct (rangeByID id l) as [r|] eqn:E; cbn [default]; [|split; [by right|done]].
  pose proof E as [Hr Hid]%(find_id id _ Hs). split; [by left|]. split; [done|]. by apply Hn.
Qed.

Lemma getRange_of l id r :
  rangesOK l → r ∈ lg_ranges l → rl_id r = id → getRange id l = r.
Proof. intros Hok Hr <-. by apply getRange_elem. Qed.

Lemma forRange_spec id l :
  rangesOK l →
  ∃ l1, forRange id l = (getRange id l, l1) ∧ rangesOK l1 ∧ lg_nodes l1 = lg_nodes l ∧ getRange id l ∈ lg_ranges l1
    ∧ ∀ x, x ∈ lg_ranges l1 ↔ x = getRange id l ∨ x ∈ lg_ranges l.
Proof.
  intros Hok. pose proof Hok as [Hs Hn]. unfold forRange, getRange. destruct (rangeByID id l) as [r|] eqn:E; cbn [default].
  - apply (find_id id _ Hs) in E as [Hr Hid]. exists l. split_and!; try done. intros x. split; [by right|]. by intros [->|?].
  - assert (Hno : ∀ x, x ∈ lg_ranges l → rl_id x ≠ id).
    { intros x Hx Hid. unfold rangeByID in E. assert (Hf : List.find (λ r, rl_id r =? id) (lg_ranges l) = Some x) by by apply find_id.
      rewrite Hf in E. done. }
    eexists. split; [done|]. split; [split|].
    + cbn. by apply insertRange_sorted.
    + cbn. intros x [->|Hx]%insertRange_elem; [done|by apply Hn].
    + split; [done|]. cbn. split; [apply insertRange_elem; by left|]. intros x. apply insertRange_elem.
Qed.

Lemma onRange_spec id f l l' :
  rangesOK l → keeps f → onRange id f l = Some l' →
  ∃ r', f (getRange id l) = Some r' ∧ rangesOK l' ∧ lg_nodes l' = lg_nodes l ∧ getRange id l' = r'
    ∧ ∀ id', id' ≠ id → getRange id' l' = getRange id' l.
Proof.
  intros Hok Hk. unfold onRange. set (l0 := l <| lg_rev := _ |>).
  assert (Hok0 : rangesOK l0) by (destruct Hok; split; done). assert (Hget : ∀ i, getRange i l0 = getRange i l) by done.
  destruct (forRange_spec id l0 Hok0) as (l1 & -> & Hok1 & Hn1 & Hin & Hel). rewrite Hget in *.
  destruct (f (getRange id l)) as [r'|] eqn:Ef; cbn [mbind option_bind]; [|done]. intros [= Hl2]. exists r'. split; [done|].
  assert (Hr2 : lg_ranges l' = putRange r' (lg_ranges l1)) by by subst l'. assert (Hn2 : lg_nodes l' = lg_nodes l) by (by subst l'). clear Hl2.
  destruct (Hk _ _ Ef) as [Hid Hno]. pose proof (getRange_cases l id Hok) as (_ & Hid0 & Hnodes). rewrite Hid0 in Hid.
  destruct Hok1 as [Hs1 Hns1].
  assert (Hex : ∃ y, y ∈ lg_ranges l1 ∧ rl_id y = rl_id r') by (exists (getRange id l); split; [done|congruence]).
  assert (Hput : ∀ x, x ∈ putRange r' (lg_ranges l1) ↔ x = r' ∨ x ∈ lg_ranges l1 ∧ rl_id x ≠ rl_id r') by (intros x; by apply putRange_elem).
  rewrite <- Hr2 in Hput.
  assert (Hok' : rangesOK l').
  { split; [unfold idsSorted; rewrite Hr2; by rewrite putRange_ids|].
    intros x [->|[Hx _]]%Hput; [rewrite Hno, Hnodes, Hn2; done|rewrite Hn2; transitivity (lg_nodes l1); [by apply Hns1|done]]. }
  split; [done|]. split; [done|]. split; [apply getRange_of; [done| |done]; apply Hput; by left|].
  intros id' Hne. destruct (getRange_cases l id' Hok) as ([[Hr Hf]|[Hr Hf]] & Hid' & _).
  - apply getRange_of; [done| |done]. apply Hput. right. split; [apply Hel; by right|congruence].
  - rewrite Hr. destruct (getRange_cases _ id' Hok') as ([[Hx Hf']|[Hx Hf']] & Hidx & _); [exfalso|by rewrite Hx, Hn2].
    apply Hput in Hx as [Hx|[Hx _]]; [congruence|]. apply Hel in Hx as [Hx|Hx]; [congruence|].
    assert (Hsome : rangeByID id' l = Some (getRange id' l')); [|congruence]. unfold rangeByID. apply find_id; [apply Hok|done].
Qed.

Lemma record_spec f l l' :
  rangesOK l → record f l = Some l' →
  rangesOK l' ∧ lg_nodes l' = lg_nodes l
  ∧ ∀ id, match onRangeFact id f with
          | Some g => g (getRange id l) = Some (getRange id l')
          | None => getRange id l' = getRange id l
          end.
Proof.
  intros Hok.
  assert (Hrange : ∀ i g, keeps g → onRange i g l = Some l' →
    (∀ id, onRangeFact id f = if i =? id then Some g else None) →
    rangesOK l' ∧ lg_nodes l' = lg_nodes l
    ∧ ∀ id, match onRangeFact id f with Some g => g (getRange id l) = Some (getRange id l') | None => getRange id l' = getRange id l end).
  { intros i g Hk Hr Hf. destruct (onRange_spec i g l l' Hok Hk Hr) as (r' & Hg & Hok' & Hn & Hget & Hoth). split; [done|]. split; [done|].
    intros id. rewrite Hf. destruct (Z.eqb_spec i id) as [<-|Hne]; [by rewrite Hget|]. by apply Hoth. }
  assert (Hkeep : ∀ i g, onRangeFact i f = Some g → keeps g) by (intros i g; apply onRangeFact_keeps).
  destruct f as [i ? ? ?|i ? ? ?|i ? ? ?|i ? ? ?|i ? ? ?|i ? ?|?|?|?|?|?|?|?|?|?]; cbn [record].
  1-6: intros Hr; eapply (Hrange i); [eapply (Hkeep i); cbn [onRangeFact]; rewrite Z.eqb_refl; reflexivity|exact Hr|done].
  all: intros [= <-]; cbn [onRangeFact]; destruct Hok; done.
Qed.

Lemma recordAll_snoc n fs f l' :
  recordAll n (fs ++ [f]) = Some l' → ∃ l, recordAll n fs = Some l ∧ record f l = Some l'.
Proof.
  unfold recordAll. rewrite foldM_app. destruct (foldM _ _ fs) as [l|]; cbn [mbind option_bind foldM]; [|done].
  destruct (record f l) as [x|] eqn:E; cbn [mbind option_bind]; [|done]. intros [= <-]. by exists l.
Qed.

(** ** What a range's part of the ledger says of the facts recorded *)

Definition sentIn (id : Z) (fs : list fact) : list (nat * Message * Z) :=
  omap (λ f, match f with FSent i node m at_ => if i =? id then Some (node, m, at_) else None | _ => None end) fs.
Definition appliedIn (id : Z) (node : nat) (fs : list fact) : list Entry :=
  fs ≫= λ f, match f with FApplied i nd es _ => if (i =? id) && (nd =? node)%nat then es else [] | _ => [] end.

Record rangeInv (n : nat) (id : Z) (fs : list fact) (r : rangeLedger) : Prop := MkRangeInv {
  ri_logs : length (rl_durableLog r) = n;
  ri_metas : length (rl_durableSnap r) = n;
  ri_sent : (λ s, (st_node s, st_msg s, st_at s)) <$> rl_sent r = sentIn id fs;
  ri_applied : rl_applied r = (λ node, appliedIn id node fs) <$> seq 0 n;
  ri_committed : NoDup ((λ c, e_Index (cr_entry c)) <$> rl_committed r);
  ri_witnessed : ∀ c, c ∈ rl_committed r → (cr_node c < n)%nat ∧ cr_entry c ∈ appliedIn id (cr_node c) fs;
  ri_complete : ∀ node e, (node < n)%nat → e ∈ appliedIn id node fs → ∃ c, c ∈ rl_committed r ∧ e_Index (cr_entry c) = e_Index e;
  ri_led : NoDup ((λ x, (lr_term x, lr_node x)) <$> rl_ledIn r);
  ri_leaders : ∀ term node,
    (∃ x, x ∈ rl_ledIn r ∧ lr_term x = term ∧ lr_node x = node) ↔ ∃ m at_, (node, m, at_) ∈ sentIn id fs ∧ m_Type m = MsgApp ∧ m_Term m = term;
}.

Lemma sentIn_snoc id fs f :
  sentIn id (fs ++ [f]) =
  sentIn id fs ++ match f with FSent i node m at_ => if i =? id then [(node, m, at_)] else [] | _ => [] end.
Proof. unfold sentIn. rewrite omap_app. f_equal. destruct f; cbn; try done. by destruct (_ =? _). Qed.
Lemma appliedIn_snoc id node fs f :
  appliedIn id node (fs ++ [f]) =
  appliedIn id node fs ++ match f with FApplied i nd es _ => if (i =? id) && (nd =? node)%nat then es else [] | _ => [] end.
Proof. unfold appliedIn. rewrite bind_app. f_equal. destruct f; cbn; try done. by rewrite app_nil_r. Qed.

Lemma rangeInv_new n id : rangeInv n id [] (newRange id n).
Proof.
  split; cbn; try done; try apply length_replicate; try constructor; try set_solver.
  - clear. induction n as [|n IH] using nat_ind; [done|]. rewrite seq_S, fmap_app, <- IH, replicate_S_end. done.
Qed.

(** Facts that leave the streams of a range alone. *)
Lemma rangeInv_other n id fs f r r' :
  rangeInv n id fs r → sentIn id (fs ++ [f]) = sentIn id fs → (∀ node, appliedIn id node (fs ++ [f]) = appliedIn id node fs) →
  length (rl_durableLog r') = length (rl_durableLog r) → length (rl_durableSnap r') = length (rl_durableSnap r) →
  rl_sent r' = rl_sent r → rl_applied r' = rl_applied r → rl_committed r' = rl_committed r → rl_ledIn r' = rl_ledIn r →
  rangeInv n id (fs ++ [f]) r'.
Proof.
  intros [I1 I2 I3 I4 I5 I6 I7 I8 I9] Hs Ha H1 H2 H3 H4 H5 H6. split; rewrite ?H1, ?H2, ?H3, ?H4, ?H5, ?H6, ?Hs; try done.
  - rewrite I4. apply list_fmap_ext. intros i node _. by rewrite Ha.
  - intros c Hc. rewrite Ha. by apply I6.
  - intros node e. rewrite Ha. apply I7.
Qed.

Lemma isCommitted_spec i r : isCommitted i r = true ↔ ∃ c, c ∈ rl_committed r ∧ e_Index (cr_entry c) = i.
Proof.
  unfold isCommitted. rewrite existsb_exists. split; intros (c & Hc & He); exists c; rewrite list_elem_of_In in *; (split; [done|]); lia.
Qed.

(** The committed records after a batch of entries is applied. *)
Lemma noteCommitted_fold node at_ es r :
  let r' := foldl (noteCommitted node at_) r es in
  (∃ new, rl_committed r' = rl_committed r ++ new ∧ ∀ c, c ∈ new → cr_node c = node ∧ cr_entry c ∈ es)
  ∧ (NoDup ((λ c, e_Index (cr_entry c)) <$> rl_committed r) → NoDup ((λ c, e_Index (cr_entry c)) <$> rl_committed r'))
  ∧ (∀ e, e ∈ es → ∃ c, c ∈ rl_committed r' ∧ e_Index (cr_entry c) = e_Index e)
  ∧ rl_durableLog r' = rl_durableLog r ∧ rl_durableSnap r' = rl_durableSnap r ∧ rl_sent r' = rl_sent r ∧ rl_applied r' = rl_applied r
  ∧ rl_ledIn r' = rl_ledIn r.
Proof.
  revert r. induction es as [|e es IH]; intros r r'; subst r'; cbn [foldl].
  { split_and!; try done; [|by intros e ?%elem_of_nil]. exists []. rewrite app_nil_r. split; [done|]. by intros c ?%elem_of_nil. }
  destruct (IH (noteCommitted node at_ r e)) as ((new & Hnew & Hin) & Hnd & Hall & R1 & R2 & R3 & R4 & R5).
  rewrite R1, R2, R3, R4, R5. unfold noteCommitted in *. destruct (isCommitted (e_Index e) r) eqn:Ec.
  - pose proof (proj1 (isCommitted_spec _ _) Ec) as (c & Hc & He). split; [|split; [done|split; [|done]]].
    + exists new. split; [done|]. intros x Hx. destruct (Hin x Hx). split; [done|by right].
    + intros x [->|Hx]%elem_of_cons; [|by apply Hall]. exists c. split; [|done]. rewrite Hnew. set_solver.
  - cbn [rl_committed update_field upd_rl_committed] in *. split; [|split; [|split; [|done]]].
    + exists (MkCommit e node at_ :: new). split; [by rewrite Hnew, <- app_assoc|]. intros x [->|Hx]%elem_of_cons; [split; [done|left]|].
      destruct (Hin x Hx). split; [done|by right].
    + intros Hn. apply Hnd. rewrite fmap_app. apply NoDup_app. split; [done|]. split; [|apply NoDup_singleton].
      intros i Hi Hi'. cbn in Hi'. apply list_elem_of_singleton in Hi' as ->. apply list_elem_of_fmap in Hi as (c & Hi & Hc).
      assert (isCommitted (e_Index e) r = true); [|congruence]. apply isCommitted_spec. by exists c.
    + intros x [->|Hx]%elem_of_cons; [|by apply Hall]. exists (MkCommit e node at_). split; [|done]. rewrite Hnew. set_solver.
Qed.

Lemma rangeInv_applied n id fs r r' node es at_ :
  rangeInv n id fs r → range_RecordApplied node es at_ r = Some r' → rangeInv n id (fs ++ [FApplied id node es at_]) r'.
Proof.
  intros [I1 I2 I3 I4 I5 I6 I7 I8 I9]. unfold range_RecordApplied. destruct (rl_applied r !! node) as [prev|] eqn:Ep; [|done].
  cbn [mbind option_bind]. intros [= <-].
  assert (Hnode : (node < n)%nat) by (apply lookup_lt_Some in Ep; rewrite I4, length_fmap, length_seq in Ep; done).
  assert (Hprev : prev = appliedIn id node fs).
  { rewrite I4, list_lookup_fmap, lookup_seq_lt in Ep by done. by injection Ep. }
  set (r0 := r <| rl_applied := _ |>). destruct (noteCommitted_fold node at_ es r0) as ((new & Hnew & Hin) & Hnd & Hall & R1 & R2 & R3 & R4 & R5).
  set (r' := foldl _ r0 es) in *. change (rl_committed r0) with (rl_committed r) in *.
  change (rl_durableLog r0) with (rl_durableLog r) in R1. change (rl_durableSnap r0) with (rl_durableSnap r) in R2.
  change (rl_sent r0) with (rl_sent r) in R3. change (rl_ledIn r0) with (rl_ledIn r) in R5.
  assert (Ha : ∀ nd, appliedIn id nd (fs ++ [FApplied id node es at_]) = appliedIn id nd fs ++ if (node =? nd)%nat then es else [])
    by (intros nd; rewrite appliedIn_snoc, Z.eqb_refl; done).
  split; rewrite ?R1, ?R2, ?R3, ?R4, ?R5; try done.
  - rewrite I3, sentIn_snoc, app_nil_r. done.
  - cbn [r0 rl_applied update_field upd_rl_applied]. apply list_eq. intros i. destruct (decide (i < n)%nat) as [Hi|Hi].
    + rewrite list_lookup_fmap, lookup_seq_lt by done. cbn. rewrite Ha. destruct (Nat.eqb_spec node i) as [<-|Hne].
      * rewrite list_lookup_insert_eq by (apply lookup_lt_Some in Ep; done). by rewrite Hprev.
      * rewrite list_lookup_insert_ne by done. rewrite I4, list_lookup_fmap, lookup_seq_lt by done. cbn. by rewrite app_nil_r.
    + rewrite !lookup_ge_None_2; [done|rewrite length_fmap, length_seq; lia|rewrite length_insert, I4, length_fmap, length_seq; lia].
  - by apply Hnd.
  - intros c. rewrite Hnew, elem_of_app. intros [Hc|Hc].
    + destruct (I6 c Hc). split; [done|]. rewrite Ha. set_solver.
    + destruct (Hin c Hc) as [-> He]. split; [done|]. rewrite Ha, Nat.eqb_refl. set_solver.
  - intros nd e Hnd'. rewrite Ha, elem_of_app. intros [He|He].
    + destruct (I7 nd e Hnd' He) as (c & Hc & Hi). exists c. split; [|done]. rewrite Hnew. set_solver.
    + destruct (node =? nd)%nat; [|by apply elem_of_nil in He]. by apply Hall.
  - intros term nd. rewrite sentIn_snoc, app_nil_r. apply I9.
Qed.

Lemma noteLeader_spec term node at_ r r' :
  noteLeader term node at_ r = Some r' →
  rl_durableLog r' = rl_durableLog r ∧ rl_durableSnap r' = rl_durableSnap r ∧ rl_sent r' = rl_sent r ∧ rl_applied r' = rl_applied r
  ∧ rl_committed r' = rl_committed r
  ∧ (NoDup ((λ x, (lr_term x, lr_node x)) <$> rl_ledIn r) → NoDup ((λ x, (lr_term x, lr_node x)) <$> rl_ledIn r'))
  ∧ ∀ t nd, (∃ x, x ∈ rl_ledIn r' ∧ lr_term x = t ∧ lr_node x = nd) ↔
            (∃ x, x ∈ rl_ledIn r ∧ lr_term x = t ∧ lr_node x = nd) ∨ t = term ∧ nd = node.
Proof.
  unfold noteLeader. destruct (existsb _ _) eqn:Ex.
  - intros [= <-]. split_and!; try done. intros t nd. split; [by left|]. intros [?|[-> ->]]; [done|].
    apply existsb_exists in Ex as (x & Hx & He). apply andb_true_iff in He as [?%Z.eqb_eq ?%Nat.eqb_eq]. exists x. by rewrite list_elem_of_In.
  - destruct (rl_durableLog r !! node) as [log|]; [|done]. destruct (rl_durableSnap r !! node) as [snap|]; [|done].
    cbn [mbind option_bind]. intros [= <-]. cbn [rl_ledIn update_field upd_rl_ledIn]. split_and!; try done.
    + intros Hn. rewrite fmap_app. apply NoDup_app. split; [done|]. split; [|apply NoDup_singleton].
      intros p Hp Hp'. cbn in Hp'. apply list_elem_of_singleton in Hp' as ->. apply list_elem_of_fmap in Hp as (x & [= -> ->] & Hx).
      assert (existsb (λ r0, (lr_term r0 =? lr_term x) && (lr_node r0 =? lr_node x)%nat) (rl_ledIn r) = true); [|congruence].
      apply existsb_exists. exists x. rewrite <- list_elem_of_In, Z.eqb_refl, Nat.eqb_refl. done.
    + intros t nd. setoid_rewrite elem_of_app. setoid_rewrite list_elem_of_singleton. split.
      * intros (x & [Hx|Hx] & <- & <-); [left; by exists x|right; by subst x].
      * intros [(x & Hx & H1 & H2)|[-> ->]]; [exists x; split_and!; [by left|done|done]|]. eexists. split; [by right|done].
Qed.

Lemma rangeInv_sent n id fs r r' node m at_ :
  rangeInv n id fs r → range_RecordSent node m at_ r = Some r' → rangeInv n id (fs ++ [FSent id node m at_]) r'.
Proof.
  intros [I1 I2 I3 I4 I5 I6 I7 I8 I9]. unfold range_RecordSent. destruct (durableLast r node) as [lst|]; [|done]. cbn [mbind option_bind].
  set (r0 := r <| rl_sent := _ |>).
  assert (Hs : sentIn id (fs ++ [FSent id node m at_]) = sentIn id fs ++ [(node, m, at_)]) by (by rewrite sentIn_snoc, Z.eqb_refl).
  assert (Ha : ∀ nd, appliedIn id nd (fs ++ [FSent id node m at_]) = appliedIn id nd fs) by (intros nd; by rewrite appliedIn_snoc, app_nil_r).
  assert (Happ : rl_applied r = (λ nd, appliedIn id nd (fs ++ [FSent id node m at_])) <$> seq 0 n).
  { rewrite I4. apply list_fmap_ext. intros i nd _. by rewrite Ha. }
  assert (Hsent : (λ s, (st_node s, st_msg s, st_at s)) <$> rl_sent r0 = sentIn id fs ++ [(node, m, at_)])
    by (cbn [r0 rl_sent update_field upd_rl_sent]; rewrite fmap_app, I3; done).
  assert (Hled : ∀ (P : nat → Message → Prop) nd, (∃ m' at', (nd, m', at') ∈ sentIn id fs ++ [(node, m, at_)] ∧ P nd m') ↔
    (∃ m' at', (nd, m', at') ∈ sentIn id fs ∧ P nd m') ∨ nd = node ∧ P nd m).
  { intros P nd. setoid_rewrite elem_of_app. setoid_rewrite list_elem_of_singleton. split.
    - intros (m' & at' & [H|[= -> -> ->]] & HP); [left; by exists m', at'|by right].
    - intros [(m' & at' & H & HP)|[-> HP]]; [exists m', at'; split; [by left|done]|exists m, at_; split; [by right|done]]. }
  case_bool_decide as Ht.
  - intros Hn. destruct (noteLeader_spec _ _ _ _ _ Hn) as (R1 & R2 & R3 & R4 & R5 & Rnd & Rl).
    split; rewrite ?R1, ?R2, ?R3, ?R4, ?R5, ?Hs; try done.
    + intros c Hc. rewrite Ha. by apply I6.
    + intros nd e. rewrite Ha. apply I7.
    + by apply Rnd.
    + intros term nd. rewrite Rl, (Hled (λ _ m', m_Type m' = MsgApp ∧ m_Term m' = term)). change (rl_ledIn r0) with (rl_ledIn r). rewrite I9.
      split; (intros [?|?]; [by left|right; naive_solver]).
  - intros [= <-]. split; rewrite ?Hs; try done.
    + intros c Hc. rewrite Ha. by apply I6.
    + intros nd e. rewrite Ha. apply I7.
    + intros term nd. rewrite (Hled (λ _ m', m_Type m' = MsgApp ∧ m_Term m' = term)). change (rl_ledIn r0) with (rl_ledIn r). rewrite I9.
      split; [by left|]. intros [?|(_ & ? & _)]; done.
Qed.

Lemma rangeInv_step n id fs f r r' g :
  rangeInv n id fs r → onRangeFact id f = Some g → g r = Some r' → rangeInv n id (fs ++ [f]) r'.
Proof.
  intros Hinv. destruct f; cbn [onRangeFact]; try done; (destruct (Z.eqb_spec id0 id) as [->|]; [|done]); intros [= <-] Hr.
  - unfold range_RecordDurable in Hr. destruct (rl_durableLog r !! node); [|done]. destruct (rl_durableSnap r !! node); [|done].
    injection Hr as <-. eapply rangeInv_other; try done; rewrite ?sentIn_snoc, ?app_nil_r; try done; cbn; rewrite ?length_insert; try done.
    intros nd. by rewrite appliedIn_snoc, app_nil_r.
  - by eapply rangeInv_sent.
  - injection Hr as <-. eapply rangeInv_other; try done; rewrite ?sentIn_snoc, ?app_nil_r; try done. intros nd. by rewrite appliedIn_snoc, app_nil_r.
  - by eapply rangeInv_applied.
  - injection Hr as <-. eapply rangeInv_other; try done; rewrite ?sentIn_snoc, ?app_nil_r; try done. intros nd. by rewrite appliedIn_snoc, app_nil_r.
  - injection Hr as <-. unfold range_RecordRangeBase. destruct (rl_base r); (eapply rangeInv_other; try done; rewrite ?sentIn_snoc, ?app_nil_r; try done;
      intros nd; by rewrite appliedIn_snoc, app_nil_r).
Qed.

Lemma rangeInv_skip n id fs f r : rangeInv n id fs r → onRangeFact id f = None → rangeInv n id (fs ++ [f]) r.
Proof.
  intros Hinv Hf. eapply rangeInv_other; try done.
  - rewrite sentIn_snoc. destruct f; rewrite ?app_nil_r; try done. cbn [onRangeFact] in Hf. destruct (_ =? _); [done|]. by rewrite app_nil_r.
  - intros nd. rewrite appliedIn_snoc. destruct f; rewrite ?app_nil_r; try done. cbn [onRangeFact] in Hf.
    destruct (_ =? _); [done|]. by rewrite app_nil_r.
Qed.

Lemma recordAll_inv n fs l : recordAll n fs = Some l → rangesOK l ∧ lg_nodes l = n ∧ ∀ id, rangeInv n id fs (getRange id l).
Proof.
  revert l. induction fs as [|f fs IH] using rev_ind; intros l'.
  - intros [= <-]. split; [split; [constructor|by intros r ?%elem_of_nil]|]. split; [done|]. intros id. apply rangeInv_new.
  - intros (l & Hl & Hr)%recordAll_snoc. destruct (IH l Hl) as (Hok & Hn & Hinv).
    destruct (record_spec f l l' Hok Hr) as (Hok' & Hn' & Hget). split; [done|]. split; [congruence|]. intros id. specialize (Hget id).
    destruct (onRangeFact id f) as [g|] eqn:Ef; [by eapply rangeInv_step|]. rewrite Hget. by apply rangeInv_skip.
Qed.

Lemma byIndex_snoc es e : byIndex (es ++ [e]) = <[e_Index e := e]> (byIndex es).
Proof. unfold byIndex. by rewrite foldl_app. Qed.
Lemma byIndex_Some es i e : byIndex es !! i = Some e → e ∈ es ∧ e_Index e = i.
Proof.
  induction es as [|x es IH] using rev_ind; [by change (byIndex []) with (∅ : gmap Z Entry); rewrite lookup_empty|]. rewrite byIndex_snoc.
  intros [[<- <-]|[Hne He]]%lookup_insert_Some; [split; [set_solver|done]|]. destruct (IH He). split; [set_solver|done].
Qed.
Lemma byIndex_None es i : byIndex es !! i = None ↔ ∀ e, e ∈ es → e_Index e ≠ i.
Proof.
  induction es as [|x es IH] using rev_ind; [change (byIndex []) with (∅ : gmap Z Entry); rewrite lookup_empty; set_solver|]. rewrite byIndex_snoc, lookup_insert_None, IH. set_solver.
Qed.

Lemma committedPrefix_spec r through :
  0 ≤ through →
  match committedPrefix r through with
  | Some es => length es = Z.to_nat through
      ∧ ∀ i e, es !! i = Some e → e_Index e = Z.of_nat i + 1 ∧ e ∈ Committed r
  | None => ∃ i, 1 ≤ i ≤ through ∧ ∀ e, e ∈ Committed r → e_Index e ≠ i
  end.
Proof.
  intros Ht. unfold committedPrefix. destruct (Z.eqb_spec through 0) as [->|Hne]; [by split|].
  set (m := byIndex _). destruct (mapM (λ i, m !! i) (seqZ 1 through)) as [es|] eqn:E.
  - apply mapM_Some in E. split; [apply Forall2_length in E; rewrite length_seqZ in E; lia|]. intros i e He.
    destruct (Forall2_lookup_r _ _ _ _ _ E He) as (k & Hk & Hm). apply lookup_seqZ in Hk as [-> _].
    apply byIndex_Some in Hm as [[_ Hm]%list_elem_of_filter Hi]. split; [lia|done].
  - apply mapM_None in E as (i & Hi & Hm)%Exists_exists. apply elem_of_seqZ in Hi. exists i. split; [lia|].
    intros e He Hie. eapply byIndex_None in Hm; [|apply list_elem_of_filter; split; [|exact He]; lia]. done.
Qed.

(** ** The transcript

    What the ledger should hold of a range, read off the facts alone.  [along g fs]
    lists what [g] makes of every fact, given the facts before it. *)
Fixpoint alongFrom {A} (g : list fact → fact → list A) (past fs : list fact) : list A :=
  match fs with [] => [] | f :: fs => g past f ++ alongFrom g (past ++ [f]) fs end.
Definition along {A} (g : list fact → fact → list A) (fs : list fact) : list A := alongFrom g [] fs.

Lemma along_snoc {A} (g : list fact → fact → list A) fs f : along g (fs ++ [f]) = along g fs ++ g fs f.
Proof.
  unfold along. assert (H : ∀ past, alongFrom g past (fs ++ [f]) = alongFrom g past fs ++ g (past ++ fs) f); [|exact (H [])].
  induction fs as [|x fs IH]; intros past; cbn; [by rewrite !app_nil_r|]. rewrite IH, <- !app_assoc. done.
Qed.

(** A node's last durable state. *)
Definition lastDurable (id : Z) (node : nat) (fs : list fact) : option DurableState :=
  last (omap (λ f, match f with FDurable i nd st _ => if (i =? id) && (nd =? node)%nat then Some st else None | _ => None end) fs).
Definition hsIn (id : Z) (fs : list fact) : list hsRecord :=
  omap (λ f, match f with FDurable i node st at_ => if i =? id then Some (MkHs node (ds_HardState st) at_) else None | _ => None end) fs.
Definition hardIn (id : Z) (node : nat) (fs : list fact) : HardState := default (MkHardState 0 0) (ds_HardState <$> lastDurable id node fs).
Definition logIn (id : Z) (node : nat) (fs : list fact) : list Entry := default [] (ds_Log <$> lastDurable id node fs).
Definition metaIn (id : Z) (node : nat) (fs : list fact) : SnapshotMeta := default zeroMeta (ds_Snapshot <$> lastDurable id node fs).
Definition receivedIn (id : Z) (fs : list fact) : list sentRecord :=
  omap (λ f, match f with FReceived i node m at_ => if i =? id then Some (MkSent node m 0 0 0 at_) else None | _ => None end) fs.
Definition snapshotsIn (id : Z) (fs : list fact) : list snapRecord :=
  omap (λ f, match f with FSnapshot i node s at_ => if i =? id then Some (MkSnap node s at_) else None | _ => None end) fs.
(** The first birth state that is not empty, or the last one given. *)
Definition birthIn (id : Z) (fs : list fact) : bytes * bytes :=
  let births := omap (λ f, match f with FRangeBase i data conf => if i =? id then Some (data, conf) else None | _ => None end) fs in
  match List.find (λ b, negb (bool_decide (fst b = []))) births with Some b => b | None => default ([], []) (last births) end.
(** A message sent, with what its sender had made durable when it was. *)
Definition sentStamp (id : Z) (past : list fact) (f : fact) : list sentRecord :=
  match f with
  | FSent i node m at_ =>
      if i =? id then
        [MkSent node m (hs_Term (hardIn id node past)) (hs_Vote (hardIn id node past)) (Z.max (lastIndexOf (logIn id node past)) (sm_Index (metaIn id node past))) at_]
      else []
  | _ => []
  end.
(** A node's first append of a term, with what the node had made durable by then. *)
Definition ledBefore (id : Z) (term : Term) (node : nat) (past : list fact) : bool :=
  existsb (λ f, match f with FSent i nd m _ => (i =? id) && bool_decide (m_Type m = MsgApp) && ((m_Term m =? term) && (nd =? node)%nat) | _ => false end) past.
Definition leadStamp (id : Z) (past : list fact) (f : fact) : list leaderRecord :=
  match f with
  | FSent i node m at_ =>
      if (i =? id) && bool_decide (m_Type m = MsgApp) && negb (ledBefore id (m_Term m) node past)
      then [MkLeader (m_Term m) node at_ (logIn id node past) (metaIn id node past)] else []
  | _ => []
  end.
(** The first application of each index. *)
Definition entriesIn (id : Z) (fs : list fact) : list Entry :=
  fs ≫= λ f, match f with FApplied i _ es _ => if i =? id then es else [] | _ => [] end.
Fixpoint firsts (node : nat) (at_ : Z) (seen : list Index) (es : list Entry) : list commitRecord :=
  match es with
  | [] => []
  | e :: es => if bool_decide (e_Index e ∈ seen) then firsts node at_ seen es else MkCommit e node at_ :: firsts node at_ (e_Index e :: seen) es
  end.
Definition commitStamp (id : Z) (past : list fact) (f : fact) : list commitRecord :=
  match f with FApplied i node es at_ => if i =? id then firsts node at_ (e_Index <$> entriesIn id past) es else [] | _ => [] end.

Definition transcript (n : nat) (id : Z) (fs : list fact) : rangeLedger :=
  MkRangeLedger id (fst (birthIn id fs)) (snd (birthIn id fs)) (hsIn id fs) ((λ node, logIn id node fs) <$> seq 0 n)
    ((λ node, metaIn id node fs) <$> seq 0 n) (along (leadStamp id) fs) (along (commitStamp id) fs) ((λ node, appliedIn id node fs) <$> seq 0 n)
    (along (sentStamp id) fs) (receivedIn id fs) (snapshotsIn id fs) n.

(** A fact that a ledger of [n] nodes can take. *)
Definition within (n : nat) (f : fact) : Prop :=
  match f with FDurable _ node _ _ | FSent _ node _ _ | FApplied _ node _ _ => (node < n)%nat | _ => True end.

Lemma lastDurable_snoc id node fs f :
  lastDurable id node (fs ++ [f]) = match f with FDurable i nd st _ => if (i =? id) && (nd =? node)%nat then Some st else lastDurable id node fs | _ => lastDurable id node fs end.
Proof.
  unfold lastDurable. rewrite omap_app. destruct f; cbn; rewrite ?app_nil_r; try done. destruct (_ && _); [by rewrite last_snoc|by rewrite app_nil_r].
Qed.
Lemma perNode_lookup {A} (g : nat → A) n node : (node < n)%nat → (g <$> seq 0 n) !! node = Some (g node).
Proof. intros Hn. rewrite list_lookup_fmap, lookup_seq_lt by done. done. Qed.
Lemma perNode_insert {A} (g h : nat → A) n node x :
  (node < n)%nat → h node = x → (∀ nd, nd ≠ node → h nd = g nd) → <[node := x]> (g <$> seq 0 n) = h <$> seq 0 n.
Proof.
  intros Hn Hx Hg. apply list_eq. intros i. destruct (decide (i < n)%nat) as [Hi|Hi].
  - rewrite (perNode_lookup h) by done. destruct (decide (i = node)) as [->|Hne]; [rewrite list_lookup_insert_eq by (by rewrite length_fmap, length_seq); by rewrite Hx|].
    rewrite list_lookup_insert_ne by done. rewrite perNode_lookup by done. by rewrite Hg.
  - rewrite !lookup_ge_None_2; [done|rewrite length_fmap, length_seq; lia|rewrite length_insert, length_fmap, length_seq; lia].
Qed.
Lemma perNode_same {A} (g h : nat → A) n : (∀ nd, h nd = g nd) → h <$> seq 0 n = g <$> seq 0 n.
Proof. intros Hg. apply list_fmap_ext. intros i nd _. apply Hg. Qed.

Lemma hardIn_durable n id node fs : durableHardState (transcript n id fs) node = hardIn id node fs.
Proof.
  unfold durableHardState, transcript. cbn [rl_durableHS]. induction fs as [|f fs IH] using rev_ind; [done|].
  unfold hsIn in *. rewrite omap_app, foldl_app, IH. unfold hardIn. rewrite lastDurable_snoc. destruct f; try done. cbn. destruct (id0 =? id); cbn; [|done]. by destruct (_ =? _)%nat.
Qed.
Lemma ledBefore_spec id term node fs :
  existsb (λ r, (lr_term r =? term) && (lr_node r =? node)%nat) (along (leadStamp id) fs) = ledBefore id term node fs.
Proof.
  induction fs as [|f fs IH] using rev_ind; [done|]. rewrite along_snoc, existsb_app, IH. unfold ledBefore at 2. rewrite existsb_app. fold (ledBefore id term node fs).
  destruct f as [| i nd m at_ | | | | | | | | | | | | |]; try done. cbn. destruct (i =? id); [|done]. cbn. destruct (bool_decide _); [|done]. cbn.
  destruct (ledBefore id (m_Term m) nd fs) eqn:E; cbn; [|done].
  destruct (Z.eqb_spec (m_Term m) term) as [<-|]; [|done]. cbn. destruct (Nat.eqb_spec nd node) as [->|]; [by rewrite E|done].
Qed.
Lemma entriesIn_snoc id fs f :
  entriesIn id (fs ++ [f]) = entriesIn id fs ++ match f with FApplied i _ es _ => if i =? id then es else [] | _ => [] end.
Proof. unfold entriesIn. by rewrite bind_app, bind_singleton. Qed.
Lemma firsts_index node at_ seen es i : i ∈ (λ c, e_Index (cr_entry c)) <$> firsts node at_ seen es ↔ i ∈ e_Index <$> es ∧ i ∉ seen.
Proof.
  revert seen. induction es as [|e es IH]; intros seen; cbn [firsts fmap list_fmap]; [by rewrite elem_of_nil; split; [|intros []]|].
  destruct (bool_decide_reflect (e_Index e ∈ seen)) as [He|He]; cbn [fmap list_fmap cr_entry]; rewrite ?elem_of_cons, IH, ?elem_of_cons; [naive_solver|].
  destruct (decide (i = e_Index e)) as [->|]; naive_solver.
Qed.
Lemma committedIn_index id fs i : i ∈ (λ c, e_Index (cr_entry c)) <$> along (commitStamp id) fs ↔ i ∈ e_Index <$> entriesIn id fs.
Proof.
  induction fs as [|f fs IH] using rev_ind; [done|]. rewrite along_snoc, entriesIn_snoc, !fmap_app, !elem_of_app, IH.
  destruct f as [| | |id' node es at_| | | | | | | | | | |]; try done. cbn [commitStamp]. destruct (id' =? id); [|done]. rewrite firsts_index.
  destruct (decide (i ∈ e_Index <$> entriesIn id fs)); tauto.
Qed.
Lemma noteCommitted_firsts node at_ es r seen :
  (∀ i, isCommitted i r = true ↔ i ∈ seen) →
  foldl (noteCommitted node at_) r es = r <| rl_committed := rl_committed r ++ firsts node at_ seen es |>.
Proof.
  revert r seen. induction es as [|e es IH]; intros r seen Hseen; cbn [foldl firsts]; [destruct r; cbn; by rewrite app_nil_r|]. unfold noteCommitted at 2.
  destruct (isCommitted (e_Index e) r) eqn:Ec.
  - rewrite bool_decide_true by by apply Hseen. by apply IH.
  - rewrite bool_decide_false by (rewrite <- Hseen, Ec; done). rewrite (IH _ (e_Index e :: seen)).
    + cbn. by rewrite <- app_assoc.
    + intros i. rewrite elem_of_cons, <- Hseen, !isCommitted_spec. cbn [rl_committed update_field upd_rl_committed]. setoid_rewrite elem_of_app. setoid_rewrite list_elem_of_singleton.
      split; [intros (c & [Hc| ->] & <-); [right; eauto|by left]|]. intros [->|(c & ? & ?)]; [eexists; split; [by right|done]|exists c; auto].
Qed.
Lemma find_app {A} (p : A → bool) xs ys : List.find p (xs ++ ys) = match List.find p xs with Some x => Some x | None => List.find p ys end.
Proof. induction xs as [|x xs IH]; [done|]. cbn. by destruct (p x). Qed.
Lemma birthIn_snoc id fs f :
  birthIn id (fs ++ [f]) = match f with FRangeBase i data conf => if (i =? id) && bool_decide (fst (birthIn id fs) = []) then (data, conf) else birthIn id fs | _ => birthIn id fs end.
Proof.
  unfold birthIn. rewrite omap_app. set (bs := omap _ fs). destruct f as [| | | | |i data conf| | | | | | | | |]; cbn [omap list_omap]; rewrite ?app_nil_r; try done.
  destruct (i =? id); cbn [app andb]; rewrite ?app_nil_r; [|done].
  assert (Hempty : List.find (λ b, negb (bool_decide (fst b = []))) bs = None → fst (default ([], []) (last bs)) = []).
  { intros Hn. destruct (last bs) as [b|] eqn:El; [|done]. apply last_Some_elem_of, list_elem_of_In in El. pose proof (List.find_none _ _ Hn b El) as Hb. cbn in Hb.
    apply negb_false_iff, bool_decide_eq_true in Hb. done. }
  rewrite find_app. destruct (List.find _ bs) as [b|] eqn:Ef.
  - apply List.find_some in Ef as [_ Hb]. apply negb_true_iff, bool_decide_eq_false in Hb. by rewrite bool_decide_false.
  - rewrite bool_decide_true by by apply Hempty. cbn. rewrite last_snoc. by destruct (bool_decide (data = [])).
Qed.

Lemma transcript_same n id fs f : onRangeFact id f = None → transcript n id (fs ++ [f]) = transcript n id fs.
Proof.
  intros Hf. unfold transcript. rewrite birthIn_snoc, !along_snoc.
  assert (Hd : ∀ nd, lastDurable id nd (fs ++ [f]) = lastDurable id nd fs).
  { intros nd. rewrite lastDurable_snoc. destruct f; try done. cbn in Hf. by destruct (_ =? _). }
  assert (Hlog : ∀ nd, logIn id nd (fs ++ [f]) = logIn id nd fs) by (intros nd; unfold logIn; by rewrite Hd).
  assert (Hmeta : ∀ nd, metaIn id nd (fs ++ [f]) = metaIn id nd fs) by (intros nd; unfold metaIn; by rewrite Hd).
  assert (Happ : ∀ nd, appliedIn id nd (fs ++ [f]) = appliedIn id nd fs).
  { intros nd. rewrite appliedIn_snoc. destruct f; rewrite ?app_nil_r; try done. cbn in Hf. destruct (_ =? _); [done|]. by rewrite app_nil_r. }
  rewrite (perNode_same _ _ n Hlog), (perNode_same _ _ n Hmeta), (perNode_same _ _ n Happ).
  unfold hsIn, receivedIn, snapshotsIn. rewrite !omap_app. destruct f; cbn in *; rewrite ?app_nil_r; try done; destruct (_ =? _); try done; cbn; by rewrite ?app_nil_r.
Qed.

Ltac opened :=
  unfold update_field, upd_rl_base, upd_rl_birthConf, upd_rl_durableHS, upd_rl_durableLog, upd_rl_durableSnap, upd_rl_ledIn, upd_rl_committed, upd_rl_applied,
    upd_rl_sent, upd_rl_recv, upd_rl_snaps, rangeLedger_eta in *;
  cbn [rl_id rl_base rl_birthConf rl_durableHS rl_durableLog rl_durableSnap rl_ledIn rl_committed rl_applied rl_sent rl_recv rl_snaps rl_nodes] in *.
Ltac spread := rewrite ?birthIn_snoc, ?along_snoc; unfold hsIn, receivedIn, snapshotsIn; rewrite ?omap_app; cbn [omap list_omap leadStamp commitStamp sentStamp].
Lemma logIn_snoc id nd fs f :
  logIn id nd (fs ++ [f]) = match f with FDurable i nd' st _ => if (i =? id) && (nd' =? nd)%nat then ds_Log st else logIn id nd fs | _ => logIn id nd fs end.
Proof. unfold logIn. rewrite lastDurable_snoc. destruct f; try done. by destruct (_ && _). Qed.
Lemma metaIn_snoc id nd fs f :
  metaIn id nd (fs ++ [f]) = match f with FDurable i nd' st _ => if (i =? id) && (nd' =? nd)%nat then ds_Snapshot st else metaIn id nd fs | _ => metaIn id nd fs end.
Proof. unfold metaIn. rewrite lastDurable_snoc. destruct f; try done. by destruct (_ && _). Qed.
Lemma transcript_step n id fs f g :
  within n f → onRangeFact id f = Some g → g (transcript n id fs) = Some (transcript n id (fs ++ [f])).
Proof.
  intros Hw. destruct f as [i node st at_|i node m at_|i node m at_|i node es at_|i node s at_|i data conf| | | | | | | | |]; cbn [onRangeFact]; try done;
    (destruct (Z.eqb_spec i id) as [->|]; [|done]); intros [= <-]; cbn in Hw.
  - unfold range_RecordDurable, transcript. opened. rewrite !perNode_lookup by done. cbn [mbind option_bind]. f_equal.
    assert (Hd : ∀ nd, lastDurable id nd (fs ++ [FDurable id node st at_]) = if (node =? nd)%nat then Some st else lastDurable id nd fs)
      by (intros nd; by rewrite lastDurable_snoc, Z.eqb_refl).
    spread. rewrite Z.eqb_refl, !app_nil_r. f_equal.
    + apply perNode_insert; [done| |]; intros; unfold logIn; rewrite Hd; [by rewrite Nat.eqb_refl|by destruct (Nat.eqb_spec node nd)].
    + apply perNode_insert; [done| |]; intros; unfold metaIn; rewrite Hd; [by rewrite Nat.eqb_refl|by destruct (Nat.eqb_spec node nd)].
    + apply perNode_same. intros nd. by rewrite appliedIn_snoc, app_nil_r.
  - unfold range_RecordSent, durableLast, noteLeader. rewrite hardIn_durable. unfold transcript. opened. rewrite !perNode_lookup by done. cbn [mbind option_bind].
    assert (Hmax : (if lastIndexOf (logIn id node fs) >? sm_Index (metaIn id node fs) then lastIndexOf (logIn id node fs) else sm_Index (metaIn id node fs))
      = Z.max (lastIndexOf (logIn id node fs)) (sm_Index (metaIn id node fs))) by (destruct (Z.gtb_spec (lastIndexOf (logIn id node fs)) (sm_Index (metaIn id node fs))); lia).
    rewrite Hmax. spread. rewrite ?app_nil_r, Z.eqb_refl. cbn [andb].
    rewrite (perNode_same _ _ n (λ nd, logIn_snoc id nd fs (FSent id node m at_))), (perNode_same _ _ n (λ nd, metaIn_snoc id nd fs (FSent id node m at_))).
    assert (Happ : ∀ nd, appliedIn id nd (fs ++ [FSent id node m at_]) = appliedIn id nd fs) by (intros nd; by rewrite appliedIn_snoc, app_nil_r). rewrite (perNode_same _ _ n Happ).
    destruct (bool_decide (m_Type m = MsgApp)); opened; cbn [andb]; [|by rewrite app_nil_r]. rewrite ledBefore_spec.
    destruct (ledBefore id (m_Term m) node fs); cbn [negb]; [by rewrite app_nil_r|done].
  - f_equal. unfold range_RecordReceived, transcript. opened. spread. rewrite ?app_nil_r, Z.eqb_refl.
    f_equal; symmetry; apply perNode_same; intros nd; [apply (logIn_snoc id nd fs (FReceived id node m at_))|apply (metaIn_snoc id nd fs (FReceived id node m at_))|by rewrite appliedIn_snoc, app_nil_r].
  - unfold range_RecordApplied. change (rl_applied (transcript n id fs)) with ((λ nd, appliedIn id nd fs) <$> seq 0 n). rewrite perNode_lookup by done. cbn [mbind option_bind]. f_equal.
    rewrite (noteCommitted_firsts _ _ _ _ (e_Index <$> entriesIn id fs)).
    2:{ intros j. rewrite <- committedIn_index, isCommitted_spec, list_elem_of_fmap. opened. unfold transcript. opened. naive_solver. }
    unfold transcript. opened. spread. rewrite ?app_nil_r, Z.eqb_refl.
    f_equal; [symmetry; apply perNode_same; intros nd; apply (logIn_snoc id nd fs (FApplied id node es at_))|symmetry; apply perNode_same; intros nd; apply (metaIn_snoc id nd fs (FApplied id node es at_))|].
    apply perNode_insert; [done| |]; intros; rewrite appliedIn_snoc, Z.eqb_refl; [by rewrite Nat.eqb_refl|]. destruct (Nat.eqb_spec node nd); [done|]. by rewrite app_nil_r.
  - f_equal. unfold range_RecordSnapshot, transcript. opened. spread. rewrite ?app_nil_r, Z.eqb_refl.
    f_equal; symmetry; apply perNode_same; intros nd; [apply (logIn_snoc id nd fs (FSnapshot id node s at_))|apply (metaIn_snoc id nd fs (FSnapshot id node s at_))|by rewrite appliedIn_snoc, app_nil_r].
  - f_equal. unfold range_RecordRangeBase, transcript. opened. spread. rewrite ?app_nil_r, Z.eqb_refl. cbn [andb].
    rewrite (perNode_same _ _ n (λ nd, logIn_snoc id nd fs (FRangeBase id data conf))), (perNode_same _ _ n (λ nd, metaIn_snoc id nd fs (FRangeBase id data conf))).
    assert (Happ : ∀ nd, appliedIn id nd (fs ++ [FRangeBase id data conf]) = appliedIn id nd fs) by (intros nd; by rewrite appliedIn_snoc, app_nil_r). rewrite (perNode_same _ _ n Happ).
    destruct (fst (birthIn id fs)) eqn:Eb; opened; [done|]. rewrite bool_decide_false by done. by rewrite Eb.
Qed.

(** Of the cluster: what was answered to clients, ordered and moved, in order; every
    transaction begun, with what was reported of it later -- to the first of its number. *)
Definition settled (t : TxnRecord) (f : fact) : TxnRecord :=
  match f with
  | FTxnCommit c => if tc_ID c =? tr_ID t then t <| tr_CommitTS := tc_CommitTS c |> <| tr_Decided := tc_At c |> <| tr_Reached := true |> else t
  | FTxnRestart c => if ta_ID c =? tr_ID t then t <| tr_StartTS := ta_StartTS c |> <| tr_Restarts := tr_Restarts t + 1 |> else t
  | _ => t
  end.
Fixpoint txnsIn (begun : list Z) (fs : list fact) : list TxnRecord :=
  match fs with
  | [] => []
  | FTxnBegin t :: fs => (if bool_decide (tr_ID t ∈ begun) then t else foldl settled t fs) :: txnsIn (tr_ID t :: begun) fs
  | _ :: fs => txnsIn begun fs
  end.
Record clusterHolds (n : nat) (fs : list fact) (l : Ledger) : Prop := MkClusterHolds {
  ch_reads : lg_reads l = omap (λ f, match f with FRead r => Some r | _ => None end) fs;
  ch_writes : lg_writes l = omap (λ f, match f with FWrite w => Some w | _ => None end) fs;
  ch_txnReads : lg_txnReads l = omap (λ f, match f with FTxnRead r => Some r | _ => None end) fs;
  ch_audits : lg_audits l = omap (λ f, match f with FAudit a => Some a | _ => None end) fs;
  ch_orders : lg_confOrders l = omap (λ f, match f with FConfOrder o => Some o | _ => None end) fs;
  ch_moves : lg_moves l = omap (λ f, match f with FMove m => Some m | _ => None end) fs;
  ch_txns : lg_txns l = txnsIn [] fs;
  ch_restarts : lg_txnRestarts l = Z.of_nat (length (omap (λ f, match f with FTxnRestart c => Some c | _ => None end) fs));
  ch_nodes : lg_nodes l = n;
}.

Definition aboutTxn (f : fact) : option Z := match f with FTxnCommit c => Some (tc_ID c) | FTxnRestart c => Some (ta_ID c) | _ => None end.
Lemma settled_id t f : tr_ID (settled t f) = tr_ID t.
Proof. destruct f; try done; cbn; by destruct (_ =? _). Qed.
Lemma settled_all_id t fs : tr_ID (foldl settled t fs) = tr_ID t.
Proof. revert t. induction fs as [|f fs IH]; intros t; [done|]. cbn. by rewrite IH, settled_id. Qed.
Lemma settled_other t f : aboutTxn f ≠ Some (tr_ID t) → settled t f = t.
Proof. intros H. destruct f; try done; cbn in *; destruct (Z.eqb_spec (tc_ID c) (tr_ID t)) || destruct (Z.eqb_spec (ta_ID c) (tr_ID t)); congruence. Qed.

Lemma txnsIn_snoc begun fs f :
  txnsIn begun (fs ++ [f]) = match f with
    | FTxnBegin t => txnsIn begun fs ++ [t]
    | _ => match aboutTxn f with
           | Some id => if bool_decide (id ∈ begun) then txnsIn begun fs else onTxn id (λ t, settled t f) (txnsIn begun fs)
           | None => txnsIn begun fs
           end
    end.
Proof.
  revert begun. induction fs as [|g fs IH]; intros begun.
  - destruct f; cbn; try done; by case_bool_decide.
  - destruct g; cbn [app txnsIn]; try by rewrite IH. rewrite IH, foldl_app. cbn [foldl].
    assert (Hn : aboutTxn f = None → settled (foldl settled t fs) f = foldl settled t fs) by (intros Hn; apply settled_other; by rewrite Hn).
    destruct (aboutTxn f) as [id|] eqn:Ef; [|rewrite Hn by done; by destruct f]. assert (Hf : ∀ (A : Type) (x : TxnRecord → A) (y : A), match f with FTxnBegin t => x t | _ => y end = y) by (by destruct f).
    rewrite !Hf. destruct (decide (id = tr_ID t)) as [->|Hne].
    + rewrite (bool_decide_true (tr_ID t ∈ tr_ID t :: begun)) by set_solver. case_bool_decide; [done|]. cbn [onTxn]. by rewrite settled_all_id, Z.eqb_refl.
    + rewrite (settled_other _ f) by (rewrite settled_all_id; congruence). assert (Hin : bool_decide (id ∈ tr_ID t :: begun) = bool_decide (id ∈ begun)) by (apply bool_decide_ext; set_solver).
      rewrite Hin. destruct (bool_decide (id ∈ begun)); [done|]. cbn [onTxn]. assert (tr_ID (if bool_decide (tr_ID t ∈ begun) then t else foldl settled t fs) =? id = false) as ->; [|done].
      apply Z.eqb_neq. intros He. apply Hne. rewrite <- He. destruct (bool_decide (tr_ID t ∈ begun)); by rewrite ?settled_all_id.
Qed.
Lemma onTxn_ext id g h ts : (∀ t, tr_ID t = id → g t = h t) → onTxn id g ts = onTxn id h ts.
Proof. intros H. induction ts as [|t ts IH]; [done|]. cbn. destruct (Z.eqb_spec (tr_ID t) id); [by rewrite H|by rewrite IH]. Qed.

Lemma onRange_cluster id g l l' :
  onRange id g l = Some l' →
  lg_reads l' = lg_reads l ∧ lg_writes l' = lg_writes l ∧ lg_txnReads l' = lg_txnReads l ∧ lg_audits l' = lg_audits l ∧ lg_confOrders l' = lg_confOrders l
  ∧ lg_moves l' = lg_moves l ∧ lg_txns l' = lg_txns l ∧ lg_txnRestarts l' = lg_txnRestarts l ∧ lg_nodes l' = lg_nodes l.
Proof. unfold onRange, forRange. destruct (rangeByID _ _) as [r|]; cbn [mbind option_bind]; (destruct (g _) as [r'|]; [|done]); cbn [mbind option_bind]; by intros [= <-]. Qed.

Lemma clusterHolds_step n fs f l l' : clusterHolds n fs l → record f l = Some l' → clusterHolds n (fs ++ [f]) l'.
Proof.
  intros [H1 H2 H3 H4 H5 H6 H7 H8 H9] Hr.
  destruct f; cbn [record] in Hr;
    lazymatch type of Hr with
    | Some _ = _ => injection Hr as <-
    | _ => apply onRange_cluster in Hr as (R1 & R2 & R3 & R4 & R5 & R6 & R7 & R8 & R9)
    end;
    (split; rewrite ?omap_app, ?filter_app, ?length_app, ?txnsIn_snoc, ?R1, ?R2, ?R3, ?R4, ?R5, ?R6, ?R7, ?R8, ?R9, ?H1, ?H2, ?H3, ?H4, ?H5, ?H6, ?H7, ?H8, ?H9; cbn;
     rewrite ?app_nil_r, ?H1, ?H2, ?H3, ?H4, ?H5, ?H6, ?H7, ?H8; try done; try lia).
  all: apply onTxn_ext; intros t Ht; cbn; by rewrite Ht, Z.eqb_refl.
Qed.

Lemma record_total n fs f l : within n f → rangesOK l → lg_nodes l = n → (∀ id, getRange id l = transcript n id fs) → ∃ l', record f l = Some l'.
Proof.
  intros Hw Hok Hn Ht.
  assert (Hone : ∀ id g, onRangeFact id f = Some g → ∃ l', onRange id g l = Some l').
  { intros id g Hg. unfold onRange. set (l0 := l <| lg_rev := _ |>). assert (Hok0 : rangesOK l0) by (destruct Hok; split; done).
    destruct (forRange_spec id l0 Hok0) as (l1 & -> & _). change (getRange id l0) with (getRange id l). rewrite Ht. rewrite (transcript_step n id fs f g Hw Hg). cbn. eauto. }
  destruct f; cbn [record]; try (by eexists); (eapply (Hone id); cbn [onRangeFact]; by rewrite Z.eqb_refl).
Qed.
Lemma recordAll_transcript n fs :
  Forall (within n) fs → ∃ l, recordAll n fs = Some l ∧ rangesOK l ∧ (∀ id, getRange id l = transcript n id fs) ∧ clusterHolds n fs l.
Proof.
  induction fs as [|f fs IH] using rev_ind; intros Hw.
  - exists (NewLedger n). split; [done|]. split; [split; [constructor|by intros r ?%elem_of_nil]|]. split; [|by split]. intros id. unfold getRange, transcript, newRange. cbn.
    f_equal; [apply list_eq|apply list_eq|apply list_eq]; intros i; rewrite list_lookup_fmap;
      (destruct (decide (i < n)%nat); [by rewrite lookup_replicate_2, lookup_seq_lt by done|by rewrite !lookup_ge_None_2 by (rewrite ?length_replicate, ?length_seq; lia)]).
  - apply Forall_app in Hw as [Hw Hf]. rewrite Forall_singleton in Hf. destruct (IH Hw) as (l & Hl & Hok & Ht & Hc). destruct (record_total n fs f l Hf Hok (ch_nodes _ _ _ Hc) Ht) as [l' Hr].
    exists l'. split; [unfold recordAll in *; rewrite foldM_app, Hl; cbn; by rewrite Hr|]. destruct (record_spec f l l' Hok Hr) as (Hok' & _ & Hget). split; [done|].
    split; [|by eapply clusterHolds_step]. intros id. specialize (Hget id). rewrite Ht in Hget.
    destruct (onRangeFact id f) as [g|] eqn:Eg; [rewrite (transcript_step n id fs f g Hf Eg) in Hget; by injection Hget|]. by rewrite Hget, transcript_same.
Qed.

(** C16. The ledger is the transcript of the run.  Whatever facts about nodes it knows are
    recorded, in whatever order and for however many ranges, recording them succeeds; the
    ranges stay sorted and distinct, and every part of what the ledger holds of a range is
    what the facts of that range say ([transcript]): the durable states in order and each
    node's last one, the messages received, the messages sent each with what its sender
    had made durable by then, each leader of a term at its first append with its durable
    log, each node's applied entries, one committed record per index taken from the first
    application of it, the snapshots, and the birth state.  What was answered to clients,
    ordered, moved and reported of transactions is held too ([clusterHolds]).  The
    committed prefix through an index is given exactly when every index in it has been
    applied by some node. *)
Theorem ledger_transcript n fs :
  Forall (within n) fs →
  ∃ l, recordAll n fs = Some l ∧ idsSorted (lg_ranges l) ∧ clusterHolds n fs l
  ∧ ∀ id, getRange id l = transcript n id fs
    ∧ ∀ through, 0 ≤ through →
        match committedPrefix (getRange id l) through with
        | Some es => length es = Z.to_nat through
            ∧ ∀ i e, es !! i = Some e → e_Index e = Z.of_nat i + 1 ∧ ∃ node, (node < n)%nat ∧ e ∈ appliedIn id node fs
        | None => ∃ i, 1 ≤ i ≤ through ∧ ∀ node e, (node < n)%nat → e ∈ appliedIn id node fs → e_Index e ≠ i
        end.
Proof.
  intros Hw. destruct (recordAll_transcript n fs Hw) as (l & Hl & [Hs _] & Ht & Hc). exists l. split; [done|]. split; [done|]. split; [done|]. intros id. split; [done|].
  destruct (recordAll_inv n fs l Hl) as (_ & _ & Hinv).
  intros through Hth. pose proof (Hinv id) as [_ _ _ _ _ Hwit Hcomp _ _]. pose proof (committedPrefix_spec (getRange id l) through Hth) as Hp.
  destruct (committedPrefix _ _) as [es|].
  - destruct Hp as [Hlen He]. split; [done|]. intros i e Hi. destruct (He i e Hi) as [Hx Hce]. split; [done|].
    apply list_elem_of_fmap in Hce as (c & -> & Hc'). destruct (Hwit c Hc'). by exists (cr_node c).
  - destruct Hp as (i & Hi & Hno). exists i. split; [done|]. intros node e Hn He Hie. destruct (Hcomp node e Hn He) as (c & Hc' & Hce).
    apply (Hno (cr_entry c)); [by apply list_elem_of_fmap_2|congruence].
Qed.

(** Two nodes of two ranges. *)
Definition anEntry (i : Index) : Entry := MkEntry EntryNormal 1 i zeroPID [].
Definition someFacts : list fact :=
  [FSent 2 0 (mkmsg MsgApp 1 2 0) 5; FApplied 1 0 [anEntry 1; anEntry 2] 6; FApplied 1 1 [anEntry 1] 7; FWrite (MkWriteRecord 1 0 2 [] 8)].
Definition moreFacts : list fact :=
  FDurable 1 0 (MkDurable (MkHardState 3 1) zeroMeta [anEntry 1]) 2 :: FReceived 1 1 (mkmsg MsgVote 0 1 3) 3 :: FSent 1 0 (mkmsg MsgApp 0 1 3) 4 :: someFacts.

Lemma ledger_transcript_witness :
  Forall (within 2) moreFacts
  ∧ ∃ l, recordAll 2 moreFacts = Some l ∧ getRange 1 l = transcript 2 1 moreFacts
      ∧ rl_recv (transcript 2 1 moreFacts) = [MkSent 1 (mkmsg MsgVote 0 1 3) 0 0 0 3]
      ∧ rl_sent (transcript 2 1 moreFacts) = [MkSent 0 (mkmsg MsgApp 0 1 3) 3 1 1 4]
      ∧ rl_ledIn (transcript 2 1 moreFacts) = [MkLeader (m_Term (mkmsg MsgApp 0 1 3)) 0 4 [anEntry 1] zeroMeta]
      ∧ Committed (transcript 2 1 moreFacts) = [anEntry 1; anEntry 2].
Proof.
  assert (Hw : Forall (within 2) moreFacts) by (repeat constructor; cbn; lia). split; [exact Hw|].
  destruct (ledger_transcript 2 moreFacts Hw) as (l & Hl & _ & _ & Ht). exists l. split; [exact Hl|]. split; [exact (proj1 (Ht 1))|].
  vm_compute. repeat split.
Defined.

(** A write alone does not move the revision. *)
Lemma write_keeps_revision w l : lg_rev (RecordWrite w l) = lg_rev l.
Proof. done. Qed.
