(* ===== verification/CheckOracles.v ===== *)
(** * The Raft oracles (raftcheck/oracles.go, first half)

    The checkers that watch a run and halt it at the first violation: election safety,
    log matching, leader completeness, state machine safety, persist before reply,
    apply continuity, split partition, rebalance safety, snapshot equivalence and one
    server at a time.  Each reads the ledger and keeps what it has already read; the
    messages they format are the constructors of [Violation].  What the harness hands
    them (how a split or a snapshot is modelled) is a parameter. *)

From Stdlib Require Import Lia ZArith.
From stdpp Require Import base tactics numbers option list sets gmap.
From S2P Require Import Prelude Bytes ConfChange RaftTypes Hlc CheckLedger.

(** ** Verdicts *)

Inductive Violation :=
| TwoLeaders (term : Term) (a b : nat)
| LogsDiffer (a b : nat) (agree differ : Index)
| LeaderWithout (index : Index) (term : Term) (node : nat) (led : Term)
| AppliedDifferent (a b : nat) (index : Index)
| UnaskedPreVote (node : nat) (term : Term)
| SpentPreVote (node : nat) (term durable : Term)
| TermNotDurable (node : nat) (term durable : Term)
| VoteNotDurable (node : nat)
| AckNotDurable (node : nat) (index durable : Index)
| RebuiltDifferent (node : nat) (index : Index)
| RestartedNowhere (node : nat) (index : Index)
| JumpedGap (node : nat) (prev index : Index)
| NeverCreated (range : Z)
| RefusedSplitBorn (index : Index) (child : Z)
| SplitNotBorn (index : Index) (child : Z)
| BornWithoutExtent (index : Index) (child : Z)
| BornElsewhere (index : Index) (child : Z)
| RemovedUnreplaced (range : Z) (from to : NodeID) (removed : Index)
| RemovedFirst (range : Z) (from to : NodeID) (removed added : Index)
| SnapshotDiffers (node : nat) (taken : bool) (index : Index) (digest log : Z)
| UndecodableConf (node : nat) (index : Index)
| JointConf (node : nat) (index : Index)
| ManyServers (node : nat) (index : Index) (count : nat).

(** The first thing found. *)
Fixpoint firstSome {A V : Type} (f : A → option V) (xs : list A) : option V :=
  match xs with [] => None | x :: xs => match f x with Some v => Some v | None => firstSome f xs end end.

(** [for i := hi; i > lo; i--] *)
Definition downFrom (hi lo : Z) : list Z := rev (seqZ (lo + 1) (hi - lo)).

Definition sameContent (a b : Entry) : bool := (e_Term a =? e_Term b) && bool_decide (e_Data a = e_Data b).

(** *** What every oracle keeps *)

Record base := MkBase { bs_seenRev : Z; bs_primed : bool }.
Definition newBase : base := MkBase 0 false.

(** Whether the ledger has changed since this oracle last looked. *)
Definition stale (l : Ledger) (b : base) : bool * base :=
  if bs_primed b && (bs_seenRev b =? lg_rev l) then (false, b) else (true, MkBase (lg_rev l) true).

(** Every range in turn, until one has something wrong with it. *)
Fixpoint eachRange {S : Type} (check : Z → rangeLedger → S → option (option Violation * S)) (rs : list rangeLedger) (s : S)
    : option (option (Z * Violation) * S) :=
  match rs with
  | [] => Some (None, s)
  | r :: rs =>
      '(v, s) ← check (rl_id r) r s;
      match v with Some v => Some (Some (rl_id r, v), s) | None => eachRange check rs s end
  end.

Definition onStep {S : Type} (check : Z → rangeLedger → S → option (option Violation * S)) (l : Ledger) (bs : base * S)
    : option (option (Z * Violation) * (base * S)) :=
  let '(go, b) := stale l (fst bs) in
  if go then '(v, s) ← eachRange check (lg_ranges l) (snd bs); Some (v, (b, s)) else Some (None, bs).

(** ** Election safety *)

Fixpoint twoLeaders (led : list leaderRecord) : option Violation :=
  match led with
  | [] => None
  | a :: led =>
      match List.find (λ b, (lr_term a =? lr_term b) && negb (lr_node a =? lr_node b)%nat) led with
      | Some b => Some (TwoLeaders (lr_term a) (lr_node a) (lr_node b))
      | None => twoLeaders led
      end
  end.
Definition ElectionSafety_check (_ : Z) (l : rangeLedger) (s : unit) : option (option Violation * unit) := Some (twoLeaders (rl_ledIn l), s).

(** ** Log matching *)

Definition compareLogs (l : rangeLedger) (a b : nat) (la lb : list Entry) : option (option Violation) :=
  let ma := byIndex la in
  let mb := byIndex lb in
  let hi := if lastIndexOf lb <? lastIndexOf la then lastIndexOf lb else lastIndexOf la in
  sa ← rl_durableSnap l !! a;
  sb ← rl_durableSnap l !! b;
  let lo := if sm_Index sb >? sm_Index sa then sm_Index sb else sm_Index sa in
  Some (match List.find (λ i, match ma !! i, mb !! i with Some ea, Some eb => e_Term ea =? e_Term eb | _, _ => false end) (downFrom hi lo) with
        | None => None
        | Some i =>
            firstSome (λ k,
              match ma !! k, mb !! k with
              | Some xa, Some xb => if sameContent xa xb then None else Some (LogsDiffer a b i k)
              | _, _ => None
              end) (downFrom (i - 1) lo)
        end).

Fixpoint firstM {A V : Type} (f : A → option (option V)) (xs : list A) : option (option V) :=
  match xs with [] => Some None | x :: xs => v ← f x; match v with Some v => Some (Some v) | None => firstM f xs end end.

Definition LogMatching_check (_ : Z) (l : rangeLedger) (s : unit) : option (option Violation * unit) :=
  let logs := rl_durableLog l in
  v ← firstM (λ a,
    firstM (λ b, la ← logs !! a; lb ← logs !! b; compareLogs l a b la lb) (seq (S a) (length logs - S a))) (seq 0 (length logs));
  Some (v, s).

(** ** Leader completeness *)

Definition hasEntry (log : list Entry) (e : Entry) : bool := existsb (λ x, (e_Index x =? e_Index e) && sameContent x e) log.

Definition LeaderCompleteness_check (_ : Z) (l : rangeLedger) (s : unit) : option (option Violation * unit) :=
  Some (firstSome (λ c,
    firstSome (λ ld,
      if lr_term ld <=? e_Term (cr_entry c) then None
      else if lr_at ld <? cr_at c then None
      else if negb (hasEntry (lr_log ld) (cr_entry c)) && (sm_Index (lr_snap ld) <? e_Index (cr_entry c))
      then Some (LeaderWithout (e_Index (cr_entry c)) (e_Term (cr_entry c)) (lr_node ld) (lr_term ld))
      else None) (rl_ledIn l)) (rl_committed l), s).

(** ** State machine safety *)

Record appliedBy := MkAppliedBy { ab_node : nat; ab_entry : Entry }.
Record smsState := MkSms { sms_first : gmap Z appliedBy; sms_cursor : list nat }.

(** The rest of one node's stream, from its cursor. *)
Fixpoint smsConsume (node : nat) (es : list Entry) (first : gmap Z appliedBy) (cur : nat) : option Violation * (gmap Z appliedBy * nat) :=
  match es with
  | [] => (None, (first, cur))
  | e :: es =>
      match first !! e_Index e with
      | None => smsConsume node es (<[e_Index e := MkAppliedBy node e]> first) (S cur)
      | Some prior =>
          if (ab_node prior =? node)%nat then smsConsume node es first (S cur)
          else if negb (sameContent (ab_entry prior) e) then (Some (AppliedDifferent (ab_node prior) node (e_Index e)), (first, cur))
          else smsConsume node es first (S cur)
      end
  end.

Fixpoint smsNodes (l : rangeLedger) (nodes : list nat) (st : smsState) : option (option Violation * smsState) :=
  match nodes with
  | [] => Some (None, st)
  | node :: nodes =>
      stream ← rl_applied l !! node;
      cur ← sms_cursor st !! node;
      let '(v, (first, cur)) := smsConsume node (drop cur stream) (sms_first st) cur in
      let st := MkSms first (<[node := cur]> (sms_cursor st)) in
      match v with Some v => Some (Some v, st) | None => smsNodes l nodes st end
  end.

Definition newSms (nodes : nat) : smsState := MkSms ∅ (replicate nodes 0%nat).
Definition StateMachineSafety_check (id : Z) (l : rangeLedger) (per : gmap Z smsState) : option (option Violation * gmap Z smsState) :=
  '(v, st) ← smsNodes l (seq 0 (rl_nodes l)) (default (newSms (rl_nodes l)) (per !! id));
  Some (v, <[id := st]> per).

(** ** Persist before reply *)

Record pbrState := MkPbr { pbr_cursor : nat; pbr_preVotes : gset (Z * Z * Z) }.

(** One released message against the sender's durable state. *)
Definition pbrMessage (s : sentRecord) (preVotes : gset (Z * Z * Z)) : option Violation :=
  let m := st_msg s in
  match m_Type m with
  | MsgPreVoteResp => if bool_decide ((m_To m, m_From m, m_Term m) ∈ preVotes) then None else Some (UnaskedPreVote (st_node s) (m_Term m))
  | MsgPreVote => if m_Term m <=? st_durableTerm s then Some (SpentPreVote (st_node s) (m_Term m) (st_durableTerm s)) else None
  | _ =>
      if m_Term m >? st_durableTerm s then Some (TermNotDurable (st_node s) (m_Term m) (st_durableTerm s))
      else if bool_decide (m_Type m = MsgVoteResp) && m_Granted m && (st_durableVote s =? 0) then Some (VoteNotDurable (st_node s))
      else if bool_decide (m_Type m = MsgAppResp) && m_Success m && (m_MatchIndex m >? st_durableLast s)
      then Some (AckNotDurable (st_node s) (m_MatchIndex m) (st_durableLast s))
      else None
  end.
Definition notePreVote (s : sentRecord) (preVotes : gset (Z * Z * Z)) : gset (Z * Z * Z) :=
  if bool_decide (m_Type (st_msg s) = MsgPreVote) then {[(m_From (st_msg s), m_To (st_msg s), m_Term (st_msg s))]} ∪ preVotes else preVotes.

Fixpoint pbrConsume (ss : list sentRecord) (st : pbrState) : option Violation * pbrState :=
  match ss with
  | [] => (None, st)
  | s :: ss =>
      let pv := notePreVote s (pbr_preVotes st) in
      match pbrMessage s pv with
      | Some v => (Some v, MkPbr (pbr_cursor st) pv)
      | None => pbrConsume ss (MkPbr (S (pbr_cursor st)) pv)
      end
  end.
Definition PersistBeforeReply_check (id : Z) (l : rangeLedger) (per : gmap Z pbrState) : option (option Violation * gmap Z pbrState) :=
  let st := default (MkPbr 0 ∅) (per !! id) in
  let '(v, st) := pbrConsume (drop (pbr_cursor st) (rl_sent l)) st in
  Some (v, <[id := st]> per).

(** ** Apply continuity *)

Record acNode := MkAcNode { ac_seen : gmap Z Entry; ac_prev : Index; ac_started : bool; ac_cursor : nat }.

Definition restartsAtRecoverable (l : rangeLedger) (node : nat) (i : Index) : bool :=
  (i =? 1) || existsb (λ s, (sr_node s =? node)%nat && (sp_Index (sr_rec s) =? sub64 i 1)) (rl_snaps l).
Definition jumpedByInstall (l : rangeLedger) (node : nat) (prev next : Index) : bool :=
  existsb (λ s, (sr_node s =? node)%nat && negb (sp_Taken (sr_rec s)) && (sp_Index (sr_rec s) >=? prev) && (sp_Index (sr_rec s) =? sub64 next 1))
    (rl_snaps l).

(** Where the stream stands after an entry: the ordinary case, a rebuild, a jump. *)
Definition acPlace (l : rangeLedger) (node : nat) (prev : Index) (started : bool) (i : Index) : option Violation :=
  if negb started || (i =? add64 prev 1) then None
  else if i <=? prev then if restartsAtRecoverable l node i then None else Some (RestartedNowhere node i)
  else if jumpedByInstall l node prev i then None else Some (JumpedGap node prev i).

(** [prev] and [started] are the loop's; the state keeps its own until the end. *)
Fixpoint acConsume (l : rangeLedger) (node : nat) (es : list Entry) (prev : Index) (started : bool) (st : acNode) : option Violation * acNode :=
  match es with
  | [] => (None, MkAcNode (ac_seen st) prev started (ac_cursor st))
  | e :: es =>
      if match ac_seen st !! e_Index e with Some old => negb (sameContent old e) | None => false end
      then (Some (RebuiltDifferent node (e_Index e)), st)
      else
        let seen := <[e_Index e := e]> (ac_seen st) in
        match acPlace l node prev started (e_Index e) with
        | Some v => (Some v, MkAcNode seen (ac_prev st) (ac_started st) (ac_cursor st))
        | None => acConsume l node es (e_Index e) true (MkAcNode seen (ac_prev st) (ac_started st) (S (ac_cursor st)))
        end
  end.
Fixpoint acNodes (l : rangeLedger) (nodes : list nat) (st : list acNode) : option (option Violation * list acNode) :=
  match nodes with
  | [] => Some (None, st)
  | node :: nodes =>
      stream ← rl_applied l !! node;
      s ← st !! node;
      let '(v, s) := acConsume l node (drop (ac_cursor s) stream) (ac_prev s) (ac_started s) s in
      match v with Some v => Some (Some v, <[node := s]> st) | None => acNodes l nodes (<[node := s]> st) end
  end.
Definition ApplyContinuity_check (id : Z) (l : rangeLedger) (per : gmap Z (list acNode)) : option (option Violation * gmap Z (list acNode)) :=
  '(v, st) ← acNodes l (seq 0 (rl_nodes l)) (default (replicate (rl_nodes l) (MkAcNode ∅ 0 false 0)) (per !! id));
  Some (v, <[id := st]> per).

(** ** Split partition *)

Record SplitStep := MkSplitStep {
  ss_Index : Index; ss_Applied : bool; ss_Child : Z; ss_ChildStart : bytes; ss_ChildEnd : bytes; ss_ChildEpoch : Z;
}.

Definition firstRange : Z := 1.

(** What the harness's model reads in a log and in a birth state. *)
Section Splits.
Context (splits : bytes → list Entry → list SplitStep) (extent : bytes → option (bytes * bytes * Z)).

Definition created (l : Ledger) : gset Z :=
  list_to_set (ss_Child <$> filter (λ st, ss_Applied st = true) (lg_ranges l ≫= λ rl, splits (rl_base rl) (Committed rl))).

Definition everyRangeWasBorn (l : Ledger) : option Violation :=
  firstSome (λ rl,
    if (rl_id rl =? firstRange) || bool_decide (rl_base rl = []) || bool_decide (rl_id rl ∈ created l) then None else Some (NeverCreated (rl_id rl)))
    (lg_ranges l).

Definition splitStep (l : Ledger) (st : SplitStep) : option Violation :=
  let born := match rangeByID (ss_Child st) l with Some c => negb (bool_decide (rl_base c = [])) | None => false end in
  if negb (ss_Applied st) then if born then Some (RefusedSplitBorn (ss_Index st) (ss_Child st)) else None
  else if negb born then Some (SplitNotBorn (ss_Index st) (ss_Child st))
  else match extent (match rangeByID (ss_Child st) l with Some c => rl_base c | None => [] end) with
  | None => Some (BornWithoutExtent (ss_Index st) (ss_Child st))
  | Some (start, end_, epoch) =>
      if negb (bool_decide (start = ss_ChildStart st)) || negb (bool_decide (end_ = ss_ChildEnd st)) || negb (epoch =? ss_ChildEpoch st)
      then Some (BornElsewhere (ss_Index st) (ss_Child st))
      else None
  end.

Definition SplitPartition_check (l : Ledger) (id : Z) (rl : rangeLedger) (s : unit) : option (option Violation * unit) :=
  Some (firstSome (splitStep l) (splits (rl_base rl) (Committed rl)), s).
Definition SplitPartition_OnStep (l : Ledger) (b : base) : option (option Violation * base) :=
  let '(go, b) := stale l b in
  if negb go then Some (None, b)
  else match everyRangeWasBorn l with
  | Some v => Some (Some v, b)
  | None => '(v, _) ← eachRange (SplitPartition_check l) (lg_ranges l) tt; Some (match v with Some (_, v) => Some v | None => None end, b)
  end.
End Splits.

(** ** Rebalance safety *)

(** One ordered move: a verdict, nothing to say, or a removal that either driver
    could have caused. *)
Inductive moveVerdict := MoveFine | MoveUnattributable | MoveWrong (v : Violation).

Definition judgeMove (l : Ledger) (m : MoveRecord) (until : Z) : moveVerdict :=
  match rangeByID (mv_Range m) l with
  | None => MoveFine
  | Some rl =>
      match firstConfChange (mv_At m) until ConfChangeRemoveNode (mv_From m) rl with
      | None => MoveFine
      | Some removed =>
          if churnTouched (i64 (mv_From m)) (mv_At m) until l then MoveUnattributable
          else match firstConfChange (mv_At m) until ConfChangeAddVoter (mv_To m) rl with
          | None => MoveWrong (RemovedUnreplaced (mv_Range m) (mv_From m) (mv_To m) removed)
          | Some added => if added >? removed then MoveWrong (RemovedFirst (mv_Range m) (mv_From m) (mv_To m) removed added) else MoveFine
          end
      end
  end.
Fixpoint judgeMoves (l : Ledger) (idx : list nat) (unattributable : gset nat) : option (option Violation * gset nat) :=
  match idx with
  | [] => Some (None, unattributable)
  | i :: idx =>
      m ← lg_moves l !! i;
      until ← moveEnds i l;
      match judgeMove l m until with
      | MoveFine => judgeMoves l idx unattributable
      | MoveUnattributable => judgeMoves l idx ({[i]} ∪ unattributable)
      | MoveWrong v => Some (Some v, unattributable)
      end
  end.
Definition RebalanceSafety_OnStep (l : Ledger) (bs : base * gset nat) : option (option Violation * (base * gset nat)) :=
  let '(go, b) := stale l (fst bs) in
  if negb go then Some (None, bs)
  else '(v, u) ← judgeMoves l (seq 0 (length (lg_moves l))) (snd bs); Some (v, (b, u)).
Definition Unattributable (bs : base * gset nat) : nat := size (snd bs).

(** ** Snapshot equivalence *)

Fixpoint insertSnap (s : snapRecord) (ss : list snapRecord) : list snapRecord :=
  match ss with
  | [] => [s]
  | x :: xs => if sp_Index (sr_rec x) <=? sp_Index (sr_rec s) then x :: insertSnap s xs else s :: x :: xs
  end.
Definition sortSnaps (ss : list snapRecord) : list snapRecord := foldl (λ acc s, insertSnap s acc) [] ss.

(** The harness's replay of a range's log: a cursor that moves forward. *)
Section SnapshotState.
Context {StateCursor : Type} (state : bytes → StateCursor) (DigestThrough : list Entry → StateCursor → Z * StateCursor).

Record seState := MkSe { se_cursors : gmap Z StateCursor; se_digests : gmap (Z * Z) Z; se_done : gset (Z * nat * Z * Z) }.

Fixpoint seConsume (id : Z) (l : rangeLedger) (ss : list snapRecord) (st : seState) : option Violation * seState :=
  match ss with
  | [] => (None, st)
  | s :: ss =>
      let i := sp_Index (sr_rec s) in
      let k := (id, sr_node s, i, sp_Digest (sr_rec s)) in
      if bool_decide (k ∈ se_done st) then seConsume id l ss st
      else match committedPrefix l i with
      | None => seConsume id l ss st
      | Some prefix =>
          let '(got, st) :=
            match se_digests st !! (id, i) with
            | Some got => (got, st)
            | None =>
                let '(got, cur) := DigestThrough prefix (default (state (rl_base l)) (se_cursors st !! id)) in
                (got, MkSe (<[id := cur]> (se_cursors st)) (<[(id, i) := got]> (se_digests st)) (se_done st))
            end in
          let st := MkSe (se_cursors st) (se_digests st) ({[k]} ∪ se_done st) in
          if negb (got =? sp_Digest (sr_rec s)) then (Some (SnapshotDiffers (sr_node s) (sp_Taken (sr_rec s)) i (sp_Digest (sr_rec s)) got), st)
          else seConsume id l ss st
      end
  end.
Definition SnapshotEquivalence_check (id : Z) (l : rangeLedger) (st : seState) : option (option Violation * seState) :=
  Some (seConsume id l (sortSnaps (rl_snaps l)) st).
End SnapshotState.

(** ** One server at a time *)

Definition confEntry (node : nat) (e : Entry) : option Violation :=
  if negb (is_conf_entry e) then None
  else match DecodeConfChange (e_Data e) with
  | None => Some (UndecodableConf node (e_Index e))
  | Some cc =>
      if negb (bool_decide (cc_transition cc = ConfChangeSimple)) then Some (JointConf node (e_Index e))
      else if negb (length (cc_changes cc) =? 1)%nat then Some (ManyServers node (e_Index e) (length (cc_changes cc)))
      else None
  end.
Definition SingleServerChange_check (_ : Z) (l : rangeLedger) (s : unit) : option (option Violation * unit) :=
  v ← firstM (λ node,
    applied ← rl_applied l !! node;
    log ← rl_durableLog l !! node;
    Some (firstSome (confEntry node) (applied ++ log))) (seq 0 (rl_nodes l));
  Some (v, s).

(** ** Watching a run *)

(** The oracle looks after every fact recorded, until it objects. *)
Fixpoint watch {S : Type} (check : Z → rangeLedger → S → option (option Violation * S)) (fs : list fact) (l : Ledger) (bs : base * S)
    : option (option (Z * Violation) * (Ledger * (base * S))) :=
  match fs with
  | [] => Some (None, (l, bs))
  | f :: fs =>
      l ← record f l;
      '(v, bs) ← onStep check l bs;
      match v with Some v => Some (Some v, (l, bs)) | None => watch check fs l bs end
  end.

Lemma sameContent_sym a b : sameContent a b = sameContent b a.
Proof. unfold sameContent. rewrite Z.eqb_sym. f_equal. apply bool_decide_ext. by split; intros ->. Qed.
Lemma sameContent_trans a b c : sameContent a b = true → sameContent b c = true → sameContent a c = true.
Proof. unfold sameContent. intros H1 H2. bool_hyps. rewrite andb_true_iff, Z.eqb_eq, bool_decide_eq_true. split; congruence. Qed.

Lemma firstSome_None {A V} (f : A → option V) xs : firstSome f xs = None ↔ ∀ x, x ∈ xs → f x = None.
Proof.
  induction xs as [|x xs IH]; cbn [firstSome]; [split; [by intros _ ? ?%elem_of_nil|done]|]. destruct (f x) eqn:E.
  - split; [done|]. intros H. rewrite (H x) in E; [done|left].
  - rewrite IH. split; [intros H y [->|Hy]%elem_of_cons; auto|]. intros H y Hy. apply H. by right.
Qed.

(** ** Election safety *)

Lemma twoLeaders_None led :
  twoLeaders led = None ↔ ∀ a b, a ∈ led → b ∈ led → lr_term a = lr_term b → lr_node a = lr_node b.
Proof.
  induction led as [|x led IH]; cbn [twoLeaders]; [split; [by intros _ ? ? ?%elem_of_nil|done]|].
  destruct (List.find _ led) as [y|] eqn:E.
  - apply List.find_some in E as [Hy E]. bool_hyps. apply Nat.eqb_neq in H0. split; [done|]. intros Hall. exfalso. apply H0, Hall; [left| |done].
    right. by apply list_elem_of_In.
  - pose proof (List.find_none _ _ E) as Hno. rewrite IH.
    assert (Hx : ∀ b, b ∈ led → lr_term x = lr_term b → lr_node x = lr_node b).
    { intros b Hb Ht. specialize (Hno b (proj1 (list_elem_of_In _ _) Hb)). cbv beta in Hno. rewrite Ht, Z.eqb_refl in Hno. cbn [andb] in Hno.
      by apply negb_false_iff, Nat.eqb_eq in Hno. }
    split.
    + intros Hall a b [->|Ha]%elem_of_cons [->|Hb]%elem_of_cons Ht; [done|by apply Hx|symmetry; by apply Hx|by apply Hall].
    + intros Hall a b Ha Hb. apply Hall; by right.
Qed.

(** An oracle that keeps nothing passes a ledger when it passes every range. *)
Lemma eachRange_stateless (p : rangeLedger → option Violation) rs :
  let check := λ (_ : Z) r (s : unit), Some (p r, s) in
  ∃ v, eachRange check rs tt = Some (v, tt) ∧ (v = None ↔ ∀ r, r ∈ rs → p r = None).
Proof.
  intros check. induction rs as [|r rs (v & Hv & IH)]; cbn [eachRange].
  - exists None. split; [done|]. split; [by intros _ ? ?%elem_of_nil|done].
  - unfold check at 1. cbn [mbind option_bind]. destruct (p r) as [x|] eqn:E.
    + exists (Some (rl_id r, x)). split; [cbn; by rewrite E|]. split; [done|]. intros H. rewrite (H r) in E; [done|left].
    + exists v. split; [cbn; by rewrite E|]. rewrite IH. split; [intros H y [->|Hy]%elem_of_cons; auto|]. intros H y Hy. apply H. by right.
Qed.

(** All ranges of a ledger, by id. *)
Lemma all_ranges (P : rangeLedger → Prop) l :
  rangesOK l → (∀ id, P (newRange id (lg_nodes l))) → (∀ r, r ∈ lg_ranges l → P r) ↔ ∀ id, P (getRange id l).
Proof.
  intros Hok Hnew. split.
  - intros H id. destruct (getRange_cases l id Hok) as ([[Hr _]|[-> _]] & _); [by apply H|done].
  - intros H r Hr. rewrite <- (getRange_elem l r Hok Hr). apply H.
Qed.

(** The election oracle says what it means: an oracle that has not yet seen this
    revision of the ledger objects exactly when, in some range, two different nodes
    have sent an append bearing the same term. *)
Theorem election_oracle_exact n fs l b :
  recordAll n fs = Some l → bs_primed b && (bs_seenRev b =? lg_rev l) = false →
  ∃ v b', onStep ElectionSafety_check l (b, tt) = Some (v, (b', tt))
    ∧ (v = None ↔ ∀ id n1 n2 m1 m2 t1 t2,
         (n1, m1, t1) ∈ sentIn id fs → (n2, m2, t2) ∈ sentIn id fs → m_Type m1 = MsgApp → m_Type m2 = MsgApp → m_Term m1 = m_Term m2 → n1 = n2).
Proof.
  intros Hl Hb. destruct (recordAll_inv n fs l Hl) as (Hok & Hn & Hinv). unfold onStep, stale. cbn [fst snd]. rewrite Hb.
  destruct (eachRange_stateless (λ r, twoLeaders (rl_ledIn r)) (lg_ranges l)) as (v & Hv & Hiff). unfold ElectionSafety_check. rewrite Hv.
  cbn [mbind option_bind]. do 2 eexists. split; [done|]. rewrite Hiff, (all_ranges (λ r, twoLeaders (rl_ledIn r) = None) l Hok) by done.
  setoid_rewrite twoLeaders_None. split.
  - intros H id n1 n2 m1 m2 t1 t2 H1 H2 A1 A2 Ht. pose proof (ri_leaders _ _ _ _ (Hinv id)) as Hled.
    destruct (proj2 (Hled (m_Term m1) n1)) as (x & Hx & X1 & <-); [by exists m1, t1|].
    destruct (proj2 (Hled (m_Term m2) n2)) as (y & Hy & Y1 & <-); [by exists m2, t2|]. apply (H id); [done|done|congruence].
  - intros H id x y Hx Hy Ht. pose proof (ri_leaders _ _ _ _ (Hinv id)) as Hled.
    destruct (proj1 (Hled (lr_term x) (lr_node x))) as (m1 & t1 & S1 & A1 & T1); [by exists x|].
    destruct (proj1 (Hled (lr_term y) (lr_node y))) as (m2 & t2 & S2 & A2 & T2); [by exists y|].
    eapply (H id); [exact S1|exact S2|done|done|congruence].
Qed.

Lemma election_oracle_exact_witness :
  ∃ l v b', recordAll 2 someFacts = Some l ∧ onStep ElectionSafety_check l (newBase, tt) = Some (v, (b', tt)) ∧ v = None.
Proof.
  destruct (recordAll 2 someFacts) as [l|] eqn:E; [|vm_compute in E; discriminate].
  destruct (election_oracle_exact 2 someFacts l newBase E eq_refl) as (v & b' & H & Hiff). exists l, v, b'.
  split; [reflexivity|]. split; [exact H|]. apply Hiff. intros id n1 n2 m1 m2 t1 t2 H1 H2 _ _ _. unfold sentIn, someFacts in H1, H2.
  cbn [omap list_omap] in H1, H2. destruct (2 =? id); [|by apply elem_of_nil in H1]. apply list_elem_of_singleton in H1, H2. congruence.
Defined.

(** ** State machine safety *)

(** What the map of first appliers says of the entries read so far. *)
Definition firstOK (first : gmap Z appliedBy) (C : nat → Entry → Prop) : Prop :=
  (∀ i ab, first !! i = Some ab → C (ab_node ab) (ab_entry ab) ∧ e_Index (ab_entry ab) = i)
  ∧ ∀ node e, C node e → ∃ ab, first !! e_Index e = Some ab ∧ (ab_node ab = node ∨ sameContent (ab_entry ab) e = true).

Lemma firstOK_ext first C C' : (∀ node e, C node e ↔ C' node e) → firstOK first C → firstOK first C'.
Proof.
  intros H [H1 H2]. split; [intros i ab Hi; destruct (H1 i ab Hi); split; [by apply H|done]|]. intros node e Hc. by apply H2, H.
Qed.

(** Two nodes that applied different entries at one index. *)
Definition conflict (C C' : nat → Entry → Prop) : Prop :=
  ∃ n1 n2 e1 e2, C n1 e1 ∧ C' n2 e2 ∧ n1 ≠ n2 ∧ e_Index e1 = e_Index e2 ∧ sameContent e1 e2 = false.

Lemma smsConsume_spec node es first cur (C : nat → Entry → Prop) :
  firstOK first C →
  match smsConsume node es first cur with
  | (None, (first', cur')) => cur' = (cur + length es)%nat ∧ firstOK first' (λ nd e, C nd e ∨ nd = node ∧ e ∈ es)
  | (Some _, _) => conflict C (λ nd e, nd = node ∧ e ∈ es)
  end.
Proof.
  revert first cur C. induction es as [|e es IH]; intros first cur C [H1 H2]; cbn [smsConsume].
  { split; [cbn; lia|]. eapply firstOK_ext; [|by split]. intros nd e. rewrite elem_of_nil. tauto. }
  assert (Hstep : ∀ first', firstOK first' (λ nd x, C nd x ∨ nd = node ∧ x = e) →
    match smsConsume node es first' (S cur) with
    | (None, (first', cur')) => cur' = (cur + length (e :: es))%nat ∧ firstOK first' (λ nd x, C nd x ∨ nd = node ∧ x ∈ e :: es)
    | (Some _, _) => conflict C (λ nd x, nd = node ∧ x ∈ e :: es)
    end).
  { intros first' Hf. specialize (IH first' (S cur) _ Hf). destruct (smsConsume node es first' (S cur)) as [[v|] [f2 c2]].
    - destruct IH as (n1 & n2 & e1 & e2 & Hc & [-> He] & Hne & Hi & Hs). destruct Hc as [Hc|[-> _]]; [|done].
      exists n1, node, e1, e2. split_and!; try done. by right.
    - destruct IH as [-> Hf2]. split; [cbn [length]; lia|]. eapply firstOK_ext; [|exact Hf2]. intros nd x. cbv beta. rewrite elem_of_cons. tauto. }
  destruct (first !! e_Index e) as [prior|] eqn:Ef.
  - destruct (H1 _ _ Ef) as [Hp Hpi].
    assert (Hkeep : ab_node prior = node ∨ sameContent (ab_entry prior) e = true → firstOK first (λ nd x, C nd x ∨ nd = node ∧ x = e)).
    { intros Hok. split; [intros i ab Hi; destruct (H1 i ab Hi); split; [by left|done]|]. intros nd x [Hc|[-> ->]]; [by apply H2|by exists prior]. }
    destruct (Nat.eqb_spec (ab_node prior) node); [by apply Hstep, Hkeep; left|].
    destruct (sameContent (ab_entry prior) e) eqn:Es; cbn [negb]; [by apply Hstep, Hkeep; right|].
    exists (ab_node prior), node, (ab_entry prior), e. split_and!; try done. left.
  - apply Hstep. split.
    + intros i ab [[<- <-]|[Hne Hi]]%lookup_insert_Some; [split; [by right|done]|]. destruct (H1 i ab Hi). split; [by left|done].
    + intros nd x [Hc|[-> ->]].
      * destruct (H2 nd x Hc) as (ab & Hab & Ho). exists ab. split; [|done]. rewrite lookup_insert_ne; [done|]. congruence.
      * eexists. rewrite lookup_insert_eq. split; [done|by left].
Qed.

(** The streams of a range, and what has been read of them. *)
Definition readSoFar (streams : list (list Entry)) (cursors : list nat) (node : nat) (e : Entry) : Prop :=
  ∃ s c, streams !! node = Some s ∧ cursors !! node = Some c ∧ e ∈ take c s.
Definition inStreams (streams : list (list Entry)) (node : nat) (e : Entry) : Prop := ∃ s, streams !! node = Some s ∧ e ∈ s.

Definition smsOK (streams : list (list Entry)) (st : smsState) : Prop :=
  length (sms_cursor st) = length streams
  ∧ (∀ nd c s, sms_cursor st !! nd = Some c → streams !! nd = Some s → (c ≤ length s)%nat)
  ∧ firstOK (sms_first st) (readSoFar streams (sms_cursor st)).

Lemma readSoFar_in streams cursors node e : readSoFar streams cursors node e → inStreams streams node e.
Proof. intros (s & c & Hs & _ & He). exists s. split; [done|]. rewrite <- (take_drop c s), elem_of_app. by left. Qed.

Lemma smsNodes_spec l nodes st :
  smsOK (rl_applied l) st → Forall (λ nd, (nd < length (rl_applied l))%nat) nodes →
  ∃ v st', smsNodes l nodes st = Some (v, st') ∧
    match v with
    | None => smsOK (rl_applied l) st' ∧ (∀ nd e, inStreams (rl_applied l) nd e → (nd ∈ nodes ∨ readSoFar (rl_applied l) (sms_cursor st) nd e) →
                readSoFar (rl_applied l) (sms_cursor st') nd e)
    | Some _ => conflict (inStreams (rl_applied l)) (inStreams (rl_applied l))
    end.
Proof.
  intros Hok Hn. revert st Hok. induction Hn as [|nd nodes Hnd Hn IH]; intros st (Hlen & Hcur & Hf); cbn [smsNodes].
  { exists None, st. split; [done|]. split; [done|]. intros nd e _ [?%elem_of_nil|?]; done. }
  destruct (rl_applied l !! nd) as [s|] eqn:Es; [|apply lookup_ge_None in Es; lia].
  destruct (sms_cursor st !! nd) as [c|] eqn:Ec; [|apply lookup_ge_None in Ec; lia]. cbn [mbind option_bind].
  pose proof (smsConsume_spec nd (drop c s) (sms_first st) c _ Hf) as Hcon. destruct (smsConsume nd (drop c s) (sms_first st) c) as [[v|] [first' cur']].
  { eexists _, _. split; [done|]. destruct Hcon as (n1 & n2 & e1 & e2 & H1 & [-> H2] & Hne & Hi & Hs). exists n1, nd, e1, e2.
    split_and!; try done; [by eapply readSoFar_in|]. exists s. split; [done|]. rewrite <- (take_drop c s), elem_of_app. by right. }
  destruct Hcon as [-> Hf']. set (cs := <[nd := _]> (sms_cursor st)).
  assert (Hread : ∀ x e, readSoFar (rl_applied l) cs x e ↔ readSoFar (rl_applied l) (sms_cursor st) x e ∨ x = nd ∧ e ∈ drop c s).
  { intros x e. unfold readSoFar, cs. destruct (decide (x = nd)) as [->|Hne].
    - rewrite Es, Ec, list_lookup_insert_eq by (apply lookup_lt_Some in Ec; done). split.
      + intros (s' & c' & [= <-] & [= <-] & He). rewrite take_ge in He by (rewrite length_drop; lia).
        rewrite <- (take_drop c s), elem_of_app in He. destruct He; [left; by exists s, c|by right].
      + intros H. exists s, (c + length (drop c s))%nat. split; [done|]. split; [done|]. rewrite take_ge by (rewrite length_drop; lia).
        rewrite <- (take_drop c s), elem_of_app. destruct H as [(s' & c' & [= <-] & [= <-] & He)|[_ He]]; [by left|by right].
    - rewrite list_lookup_insert_ne by done. split; [by left|]. by intros [?|[? _]]. }
  destruct (IH (MkSms first' cs)) as (v & st' & Hrun & Hres).
  { split; [cbn; unfold cs; by rewrite length_insert|]. split; cbn [sms_cursor sms_first].
    { intros x c' s' Hc' Hs'. unfold cs in Hc'. apply list_lookup_insert_Some in Hc' as [(<- & <- & _)|[Hne Hc']]; [|by eapply Hcur].
      rewrite Es in Hs'. injection Hs' as <-. specialize (Hcur nd c s Ec Es). rewrite length_drop. lia. }
    eapply firstOK_ext; [|exact Hf']. intros x e. symmetry. apply Hread. }
  exists v, st'. split; [done|]. destruct v as [v|]; [done|]. destruct Hres as [Hok' Hall]. split; [done|]. intros x e Hin Hor.
  apply Hall; [done|]. cbn [sms_cursor]. destruct Hor as [[->|Hx]%elem_of_cons|Hx]; [right|by left|right; apply Hread; by left].
  apply Hread. destruct Hin as (s' & Hs' & He). rewrite Es in Hs'. injection Hs' as <-. rewrite <- (take_drop c s), elem_of_app in He.
  destruct He as [He|He]; [left; by exists s, c|by right].
Qed.

(** Streams only grow. *)
Definition grown (streams streams' : list (list Entry)) : Prop := Forall2 (λ s s', s `prefix_of` s') streams streams'.

Lemma smsOK_grown streams streams' st : grown streams streams' → smsOK streams st → smsOK streams' st.
Proof.
  intros Hg (Hlen & Hcur & Hf). split; [by rewrite Hlen, (Forall2_length _ _ _ Hg)|]. split.
  - intros nd c s' Hc Hs'. destruct (Forall2_lookup_r _ _ _ _ _ Hg Hs') as (s & Hs & [x ->]). specialize (Hcur nd c s Hc Hs). rewrite length_app. lia.
  - eapply firstOK_ext; [|exact Hf]. intros nd e. unfold readSoFar. split.
    + intros (s & c & Hs & Hc & He). destruct (Forall2_lookup_l _ _ _ _ _ Hg Hs) as (s' & Hs' & [x ->]). exists (s ++ x), c.
      split_and!; try done. rewrite take_app_le by (by eapply Hcur). done.
    + intros (s' & c & Hs' & Hc & He). destruct (Forall2_lookup_r _ _ _ _ _ Hg Hs') as (s & Hs & [x ->]). exists s, c. split_and!; try done.
      rewrite take_app_le in He by (by eapply Hcur). done.
Qed.

Lemma inStreams_grown streams streams' nd e : grown streams streams' → inStreams streams nd e → inStreams streams' nd e.
Proof.
  intros Hg (s & Hs & He). destruct (Forall2_lookup_l _ _ _ _ _ Hg Hs) as (s' & Hs' & [x ->]). exists (s ++ x). split; [done|]. set_solver.
Qed.

(** No node has applied two different entries at one index. *)
Definition selfConsistent (streams : list (list Entry)) : Prop :=
  ∀ nd e e', inStreams streams nd e → inStreams streams nd e' → e_Index e = e_Index e' → sameContent e e' = true.

Lemma all_read_agree streams st :
  smsOK streams st → selfConsistent streams → (∀ nd e, inStreams streams nd e → readSoFar streams (sms_cursor st) nd e) →
  ¬ conflict (inStreams streams) (inStreams streams).
Proof.
  intros (_ & _ & H1 & H2) Hself Hall (n1 & n2 & e1 & e2 & I1 & I2 & _ & Hi & Hs).
  assert (Hab : ∀ nd e, inStreams streams nd e → ∃ ab, sms_first st !! e_Index e = Some ab ∧ sameContent (ab_entry ab) e = true).
  { intros nd e Hin. destruct (H2 nd e (Hall nd e Hin)) as (ab & Hab & Ho). exists ab. split; [done|]. destruct Ho as [<-|Ho]; [|done].
    destruct (H1 _ _ Hab) as [Hr Hie]. eapply Hself; [by eapply readSoFar_in|exact Hin|done]. }
  destruct (Hab n1 e1 I1) as (ab & A1 & S1), (Hab n2 e2 I2) as (ab' & A2 & S2). rewrite Hi, A2 in A1. injection A1 as ->.
  rewrite sameContent_sym in S1. rewrite (sameContent_trans _ _ _ S1 S2) in Hs. done.
Qed.

(** One look at every range. *)
Lemma sms_look rs per :
  (∀ r, r ∈ rs → rl_nodes r = length (rl_applied r) ∧ selfConsistent (rl_applied r)) →
  (∀ r st, r ∈ rs → per !! rl_id r = Some st → smsOK (rl_applied r) st) → NoDup (rl_id <$> rs) →
  ∃ v per', eachRange StateMachineSafety_check rs per = Some (v, per')
    ∧ (∀ id, id ∉ rl_id <$> rs → per' !! id = per !! id)
    ∧ match v with
      | None => (∀ r st, r ∈ rs → per' !! rl_id r = Some st → smsOK (rl_applied r) st)
          ∧ ∀ r, r ∈ rs → ¬ conflict (inStreams (rl_applied r)) (inStreams (rl_applied r))
      | Some _ => ∃ r, r ∈ rs ∧ conflict (inStreams (rl_applied r)) (inStreams (rl_applied r))
      end.
Proof.
  revert per. induction rs as [|r rs IH]; intros per Hr Hper Hnd; cbn [eachRange].
  { exists None, per. split; [done|]. split; [done|]. split; [by intros ? ? ?%elem_of_nil|by intros ? ?%elem_of_nil]. }
  cbn [fmap list_fmap] in Hnd. apply NoDup_cons in Hnd as [Hni Hnd]. destruct (Hr r ltac:(left)) as [Hn Hself].
  assert (Hst : smsOK (rl_applied r) (default (newSms (rl_nodes r)) (per !! rl_id r))).
  { destruct (per !! rl_id r) as [st|] eqn:E; cbn [default]; [by apply Hper; [left|]|]. rewrite Hn. split; [cbn; apply length_replicate|]. split.
    - intros nd c s Hc _. cbn in Hc. apply lookup_replicate in Hc as [-> _]. lia.
    - split; cbn; [intros i ab; by rewrite lookup_empty|]. intros nd e (s & c & _ & Hc & He). apply lookup_replicate in Hc as [-> _].
      by apply elem_of_nil in He. }
  destruct (smsNodes_spec r (seq 0 (rl_nodes r)) _ Hst) as (v & st' & Hrun0 & Hres).
  { apply Forall_forall. intros nd Hin. apply elem_of_seq in Hin. lia. }
  assert (Hchk : StateMachineSafety_check (rl_id r) r per = Some (v, <[rl_id r := st']> per)) by (unfold StateMachineSafety_check; by rewrite Hrun0).
  rewrite Hchk. cbn [mbind option_bind]. destruct v as [v|].
  { eexists _, _. split; [done|]. split; [|exists r; split; [left|done]]. intros id Hid. rewrite lookup_insert_ne; [done|set_solver]. }
  destruct Hres as [Hok' Hall].
  destruct (IH (<[rl_id r := st']> per)) as (v & per' & Hrun & Hkeep & Hres); [intros x Hx; apply Hr; by right| |done|].
  { intros x st Hx. rewrite lookup_insert_ne; [apply Hper; by right|]. intros Heq. apply Hni. rewrite Heq. by apply list_elem_of_fmap_2. }
  exists v, per'. split; [done|]. split.
  { intros id Hid. rewrite Hkeep by set_solver. rewrite lookup_insert_ne; [done|set_solver]. }
  assert (Hagree : ¬ conflict (inStreams (rl_applied r)) (inStreams (rl_applied r))).
  { eapply all_read_agree; [exact Hok'|done|]. intros nd e Hin. apply Hall; [done|left]. destruct Hin as (s & Hs & _).
    apply lookup_lt_Some in Hs. apply elem_of_seq. lia. }
  destruct v as [v|]; [destruct Hres as (x & Hx & Hc); exists x; split; [by right|done]|]. destruct Hres as [R1 R2]. split.
  - intros x st [->|Hx]%elem_of_cons; [|by apply R1]. rewrite Hkeep by done. rewrite lookup_insert_eq. by intros [= <-].
  - intros x [->|Hx]%elem_of_cons; [done|by apply R2].
Qed.

(** *** An oracle that keeps what it has read

    [Ok fs s]: the state [s] is right about the facts it has seen, a part of [fs];
    [Good fs]: there is nothing to object to in [fs], given [Pre fs].  If one look
    decides [Good], so does watching a whole run. *)
Section Watch.
Context {S : Type} (n : nat) (check : Z → rangeLedger → S → option (option Violation * S)).
Context (Pre Good : list fact → Prop) (Ok : list fact → S → Prop).
Context (look : ∀ fs l s, recordAll n fs = Some l → Pre fs → Ok fs s →
  ∃ v s', eachRange check (lg_ranges l) s = Some (v, s') ∧ match v with None => Ok fs s' ∧ Good fs | Some _ => ¬ Good fs end).
Context (Pre_prefix : ∀ fs f, Pre (fs ++ [f]) → Pre fs) (Good_prefix : ∀ fs f, Good (fs ++ [f]) → Good fs).
Context (Ok_grows : ∀ fs f s, Ok fs s → Ok (fs ++ [f]) s) (Good_write : ∀ fs w, Good fs → Good (fs ++ [FWrite w])).

(** A fact that does not move the revision is a write. *)
Lemma record_rev f l l' : record f l = Some l' → lg_rev l' = lg_rev l → ∃ w, f = FWrite w.
Proof.
  assert (Hne : ∀ r, add64 r 1 ≠ r).
  { intros r Hr. pose proof (add64_range r 1) as Hu. rewrite Hr in Hu. unfold is_u64 in Hu. unfold add64, u64 in Hr.
    destruct (decide (r = 2 ^ 64 - 1)) as [->|]; [done|]. rewrite Z.mod_small in Hr; lia. }
  assert (Hrange : ∀ i g, onRange i g l = Some l' → lg_rev l' = lg_rev l → False).
  { intros i g. unfold onRange, forRange. destruct (rangeByID _ _); cbn [fst snd]; (destruct (g _); cbn [mbind option_bind]; [|done]);
      intros [= <-]; cbn; apply Hne. }
  destruct f; cbn [record]; intros Hr Hv; try (exfalso; by eapply Hrange); try (injection Hr as <-; exfalso; exact (Hne (lg_rev l) Hv)). by eexists.
Qed.

Lemma Good_part fs gs : Good (fs ++ gs) → Good fs.
Proof. induction gs as [|g gs IH] using rev_ind; [by rewrite app_nil_r|]. rewrite app_assoc. intros H%Good_prefix. by apply IH. Qed.
Lemma Pre_part fs gs : Pre (fs ++ gs) → Pre fs.
Proof. induction gs as [|g gs IH] using rev_ind; [by rewrite app_nil_r|]. rewrite app_assoc. intros H%Pre_prefix. by apply IH. Qed.

Lemma watch_from gs fs l lend b s :
  recordAll n fs = Some l → foldM (λ l f, record f l) l gs = Some lend → Pre (fs ++ gs) → Good fs → Ok fs s →
  (bs_primed b = true → bs_seenRev b = lg_rev l) →
  ∃ v x, watch check gs l (b, s) = Some (v, x) ∧ (v = None ↔ Good (fs ++ gs)).
Proof.
  revert fs l b s. induction gs as [|f gs IH]; intros fs l b s Hl Hend Hpre Hgood Hok Hb; cbn [watch foldM] in *.
  { eexists _, _. split; [done|]. by rewrite app_nil_r. }
  destruct (record f l) as [l'|] eqn:Er; cbn [mbind option_bind] in *; [|done].
  assert (Hl' : recordAll n (fs ++ [f]) = Some l') by (unfold recordAll in *; rewrite foldM_app, Hl; cbn; by rewrite Er).
  rewrite (cons_middle f fs gs), app_assoc in Hpre |- *. unfold onStep, stale. cbn [fst snd].
  assert (Hok' : Ok (fs ++ [f]) s) by by apply Ok_grows.
  destruct (bs_primed b && (bs_seenRev b =? lg_rev l')) eqn:Es; cbn [mbind option_bind].
  - bool_hyps. destruct (record_rev f l l' Er) as (w & ->); [rewrite <- (Hb H); done|].
    destruct (IH (fs ++ [FWrite w]) l' b s) as (v & x & Hw & Hiff); try done; [by apply Good_write|]. by exists v, x.
  - destruct (look (fs ++ [f]) l' s Hl' (Pre_part _ _ Hpre) Hok') as (v & s' & -> & Hv). cbn [mbind option_bind].
    destruct v as [v|]; [|destruct Hv as [Hok2 Hg2]; by eapply IH]. eexists _, _. split; [done|]. split; [done|].
    intros Hg. exfalso. by apply Hv, (Good_part _ gs).
Qed.

Lemma watch_decides fs l s :
  recordAll n fs = Some l → Pre fs → Good [] → Ok [] s →
  ∃ v x, watch check fs (NewLedger n) (newBase, s) = Some (v, x) ∧ (v = None ↔ Good fs).
Proof. intros Hl Hp Hg Hok. by apply (watch_from fs [] (NewLedger n) l newBase s). Qed.
End Watch.

(** *** Incremental against pairwise *)

Definition streamsIn (n : nat) (id : Z) (fs : list fact) : list (list Entry) := (λ node, appliedIn id node fs) <$> seq 0 n.

Lemma streamsIn_grown n id fs f : grown (streamsIn n id fs) (streamsIn n id (fs ++ [f])).
Proof.
  unfold grown, streamsIn. apply Forall2_fmap_2. apply Forall_Forall2_diag, Forall_forall. intros nd _. rewrite appliedIn_snoc. by eexists.
Qed.

(** Different nodes applied the same entry at every index, in every range. *)
Definition applyAgree (n : nat) (fs : list fact) : Prop := ∀ id, ¬ conflict (inStreams (streamsIn n id fs)) (inStreams (streamsIn n id fs)).

Lemma applyAgree_prefix n fs f : applyAgree n (fs ++ [f]) → applyAgree n fs.
Proof.
  intros H id (n1 & n2 & e1 & e2 & I1 & I2 & Hrest). apply (H id). exists n1, n2, e1, e2.
  split_and!; try apply Hrest; eapply inStreams_grown; try done; apply streamsIn_grown.
Qed.

(** C17. State machine safety, watched as the run goes: although each entry is compared
    once, with the first node to have applied its index, the oracle objects exactly when
    two different nodes have applied different entries at one index, provided no node
    has itself applied two different entries at one index.  (Without that proviso it
    can be silent: [reapplied_entry_missed].) *)
Theorem state_machine_oracle_exact n fs l :
  recordAll n fs = Some l → (∀ id, selfConsistent (streamsIn n id fs)) →
  ∃ v x, watch StateMachineSafety_check fs (NewLedger n) (newBase, ∅) = Some (v, x) ∧ (v = None ↔ applyAgree n fs).
Proof.
  intros Hl Hself.
  apply (watch_decides n StateMachineSafety_check (λ fs, ∀ id, selfConsistent (streamsIn n id fs)) (applyAgree n)
           (λ fs per, ∀ id st, per !! id = Some st → smsOK (streamsIn n id fs) st)) with (l := l).
  - intros gs lg per Hlg Hpre Hok. destruct (recordAll_inv n gs lg Hlg) as ([Hs Hns] & Hn & Hinv).
    assert (Hst : ∀ r, r ∈ lg_ranges lg → rl_applied r = streamsIn n (rl_id r) gs).
    { intros r Hr. rewrite <- (getRange_elem lg r (MkRangesOK _ Hs Hns) Hr) at 1. apply Hinv. }
    destruct (sms_look (lg_ranges lg) per) as (v & per' & Hrun & Hkeep & Hres).
    + intros r Hr. rewrite (Hst r Hr). split; [|apply Hpre]. unfold streamsIn. rewrite length_fmap, length_seq, <- Hn. by apply Hns.
    + intros r st Hr Hp. rewrite (Hst r Hr). by apply Hok.
    + unfold idsSorted in Hs. clear -Hs. induction Hs as [|i ids Hs IH Hi]; constructor; [|done]. intros Hin. rewrite Forall_forall in Hi.
      specialize (Hi i Hin). lia.
    + exists v, per'. split; [done|]. destruct v as [[id v]|].
      * destruct Hres as (r & Hr & Hc). rewrite (Hst r Hr) in Hc. intros Hg. by apply (Hg (rl_id r)).
      * destruct Hres as [R1 R2]. split.
        -- intros id st Hp. destruct (decide (id ∈ rl_id <$> lg_ranges lg)) as [Hin|Hin].
           ++ apply list_elem_of_fmap in Hin as (r & -> & Hr). rewrite <- (Hst r Hr). by apply R1.
           ++ rewrite Hkeep in Hp by done. by apply Hok.
        -- intros id. destruct (getRange_cases lg id (MkRangesOK _ Hs Hns)) as ([[Hr _]|[Hr _]] & Hid & _).
           ++ rewrite <- Hid, <- (Hst _ Hr). by apply R2.
           ++ pose proof (ri_applied _ _ _ _ (Hinv id)) as Ha. rewrite Hr in Ha. unfold streamsIn. rewrite <- Ha. cbn [newRange rl_applied].
              intros (n1 & n2 & e1 & e2 & (s & Hs' & He) & _). apply lookup_replicate in Hs' as [-> _]. by apply elem_of_nil in He.
  - intros gs f H id nd e e' H1 H2. apply (H id nd); eapply inStreams_grown; try done; apply streamsIn_grown.
  - apply applyAgree_prefix.
  - intros gs f per H id st Hp. eapply smsOK_grown; [apply streamsIn_grown|by apply H].
  - intros gs w H id. specialize (H id). unfold streamsIn in *. erewrite list_fmap_ext; [exact H|]. intros i nd _. cbv beta.
    by rewrite appliedIn_snoc, app_nil_r.
  - done.
  - exact Hself.
  - intros id (n1 & n2 & e1 & e2 & (s & Hs & He) & _). unfold streamsIn in Hs. rewrite list_lookup_fmap in Hs.
    destruct (seq 0 n !! n1); [|done]. injection Hs as <-. by apply elem_of_nil in He.
  - intros id st. by rewrite lookup_empty.
Qed.

(** A node that applies an index twice, differently, and a second node that applies it
    as the first did at first: the pair differs and is not compared. *)
Definition withData (d : byte) : Entry := MkEntry EntryNormal 1 1 zeroPID [d].
Definition reapplied : list fact :=
  [FApplied 1 0 [withData Byte.x00] 1; FApplied 1 0 [withData Byte.x01] 2; FApplied 1 1 [withData Byte.x00] 3].

Lemma reapplied_entry_missed :
  (∃ x, watch StateMachineSafety_check reapplied (NewLedger 2) (newBase, ∅) = Some (None, x)) ∧ ¬ applyAgree 2 reapplied.
Proof.
  split; [eexists; vm_compute; reflexivity|]. intros H. apply (H 1). exists 0%nat, 1%nat, (withData Byte.x01), (withData Byte.x00).
  split_and!; [| |done|done|done].
  - exists [withData Byte.x00; withData Byte.x01]. split; [done|]. right. left.
  - exists [withData Byte.x00]. split; [done|]. left.
Qed.

Definition agreed : list fact := [FApplied 1 0 [withData Byte.x00] 1; FWrite (MkWriteRecord 1 0 1 [] 2); FApplied 1 1 [withData Byte.x00] 3].

Lemma agreed_streams id nd e : inStreams (streamsIn 2 id agreed) nd e → e = withData Byte.x00.
Proof.
  intros (s & Hs & He). unfold streamsIn in Hs. rewrite list_lookup_fmap in Hs. destruct (seq 0 2 !! nd) as [k|]; [|done]. injection Hs as <-.
  unfold appliedIn, agreed in He. cbn [mbind list_bind] in He. repeat rewrite elem_of_app in He.
  destruct (_ && _) in He; destruct (_ && _) in He; set_solver.
Qed.

Lemma state_machine_oracle_exact_witness :
  ∃ v x, watch StateMachineSafety_check agreed (NewLedger 2) (newBase, ∅) = Some (v, x) ∧ v = None.
Proof.
  destruct (recordAll 2 agreed) as [l|] eqn:E; [|vm_compute in E; discriminate].
  destruct (state_machine_oracle_exact 2 agreed l E) as (v & x & H & Hiff).
  - intros id nd e e' H1 H2 _. rewrite (agreed_streams id nd e H1), (agreed_streams id nd e' H2). reflexivity.
  - exists v, x. split; [exact H|]. apply Hiff. intros id (n1 & n2 & e1 & e2 & H1 & H2 & _ & _ & Hs).
    rewrite (agreed_streams id n1 e1 H1), (agreed_streams id n2 e2 H2) in Hs. discriminate.
Defined.

(** ** Log matching *)

Lemma elem_of_downFrom k hi lo : k ∈ downFrom hi lo ↔ lo < k ≤ hi.
Proof. unfold downFrom. rewrite in_rev_elem, elem_of_seqZ. lia. Qed.

Lemma downFrom_cons hi lo : lo < hi → downFrom hi lo = hi :: downFrom (hi - 1) lo.
Proof.
  intros H. unfold downFrom. replace (hi - lo) with ((hi - 1 - lo) + 1) by lia. rewrite seqZ_app by lia. rewrite rev_app_distr.
  replace (lo + 1 + (hi - 1 - lo)) with hi by lia. done.
Qed.

(** The downward search stops at the greatest index that qualifies. *)
Lemma find_down (p : Z → bool) hi lo :
  match List.find p (downFrom hi lo) with
  | Some i => lo < i ≤ hi ∧ p i = true ∧ ∀ j, i < j ≤ hi → p j = false
  | None => ∀ j, lo < j ≤ hi → p j = false
  end.
Proof.
  remember (Z.to_nat (hi - lo)) as d eqn:Hd. revert hi Hd. induction d as [|d IH]; intros hi Hd.
  { unfold downFrom, seqZ. rewrite <- Hd. cbn. lia. }
  rewrite downFrom_cons by lia. cbn [List.find]. destruct (p hi) eqn:E; [split; [lia|]; split; [done|lia]|].
  specialize (IH (hi - 1) ltac:(lia)). destruct (List.find p _) as [i|].
  - destruct IH as (Hi & Hp & Hj). split; [lia|]. split; [done|]. intros j Hj'. destruct (decide (j = hi)) as [->|]; [done|]. apply Hj. lia.
  - intros j Hj. destruct (decide (j = hi)) as [->|]; [done|]. apply IH. lia.
Qed.

(** The entries two logs both hold above their snapshots. *)
Definition shared (l : rangeLedger) (a b : nat) (i : Index) (ea eb : Entry) : Prop :=
  ∃ la lb sa sb, rl_durableLog l !! a = Some la ∧ rl_durableLog l !! b = Some lb
    ∧ rl_durableSnap l !! a = Some sa ∧ rl_durableSnap l !! b = Some sb
    ∧ sm_Index sa < i ∧ sm_Index sb < i ∧ byIndex la !! i = Some ea ∧ byIndex lb !! i = Some eb.

(** A log is no longer than its last entry says. *)
Definition bounded (log : list Entry) : Prop := ∀ e, e ∈ log → e_Index e ≤ lastIndexOf log.

Lemma compareLogs_spec l a b la lb :
  rl_durableLog l !! a = Some la → rl_durableLog l !! b = Some lb → bounded la → bounded lb →
  is_Some (rl_durableSnap l !! a) → is_Some (rl_durableSnap l !! b) →
  ∃ v, compareLogs l a b la lb = Some v
    ∧ (v = None ↔ ∀ i ea eb k xa xb, shared l a b i ea eb → e_Term ea = e_Term eb → k < i → shared l a b k xa xb → sameContent xa xb = true).
Proof.
  intros Ha Hb Ba Bb [sa Sa] [sb Sb]. unfold compareLogs. rewrite Sa, Sb. cbn [mbind option_bind].
  set (hi := if lastIndexOf lb <? lastIndexOf la then lastIndexOf lb else lastIndexOf la).
  set (lo := if sm_Index sb >? sm_Index sa then sm_Index sb else sm_Index sa).
  set (p := λ i, match byIndex la !! i, byIndex lb !! i with Some ea, Some eb => e_Term ea =? e_Term eb | _, _ => false end).
  eexists. split; [done|].
  assert (Hlo : ∀ i, lo < i ↔ sm_Index sa < i ∧ sm_Index sb < i) by (intros i; unfold lo; destruct (Z.gtb_spec (sm_Index sb) (sm_Index sa)); lia).
  assert (Hsh : ∀ i ea eb, shared l a b i ea eb ↔ lo < i ≤ hi ∧ byIndex la !! i = Some ea ∧ byIndex lb !! i = Some eb).
  { intros i ea eb. split.
    - intros (la' & lb' & sa' & sb' & H1 & H2 & H3 & H4 & H5 & H6 & H7 & H8). rewrite Ha in H1. rewrite Hb in H2. rewrite Sa in H3. rewrite Sb in H4.
      simplify_eq. split; [|done]. split; [apply Hlo; done|]. apply byIndex_Some in H7 as [M1 <-], H8 as [M2 Hi].
      specialize (Ba _ M1). specialize (Bb _ M2). unfold hi. case_test; lia.
    - intros ([H1 _] & H2 & H3). apply Hlo in H1 as [? ?]. by exists la, lb, sa, sb. }
  pose proof (find_down p hi lo) as Hf. destruct (List.find p (downFrom hi lo)) as [top|].
  - destruct Hf as (Htop & Hpt & Habove). rewrite firstSome_None. split.
    + intros Hall i ea eb k xa xb Hi Ht Hki Hk. apply Hsh in Hi as (Hi & I1 & I2), Hk as (Hk & K1 & K2).
      assert (Hit : i ≤ top).
      { destruct (decide (i ≤ top)); [done|]. specialize (Habove i ltac:(lia)). unfold p in Habove. rewrite I1, I2, Ht, Z.eqb_refl in Habove. done. }
      specialize (Hall k (proj2 (elem_of_downFrom k (top - 1) lo) ltac:(lia))). cbv beta in Hall. rewrite K1, K2 in Hall.
      by destruct (sameContent xa xb).
    + intros Hall k Hk%elem_of_downFrom. destruct (byIndex la !! k) as [xa|] eqn:K1; [|done]. destruct (byIndex lb !! k) as [xb|] eqn:K2; [|done].
      unfold p in Hpt. destruct (byIndex la !! top) as [ea|] eqn:T1; [|done]. destruct (byIndex lb !! top) as [eb|] eqn:T2; [|done].
      apply Z.eqb_eq in Hpt. rewrite (Hall top ea eb k xa xb); [done|apply Hsh; done|done|lia|apply Hsh; split; [lia|done]].
  - split; [|done]. intros _ i ea eb k xa xb Hi Ht _ _. exfalso. apply Hsh in Hi as (Hi & I1 & I2). specialize (Hf i Hi). unfold p in Hf.
    rewrite I1, I2, Ht, Z.eqb_refl in Hf. done.
Qed.

Lemma firstM_None {A V} (f : A → option (option V)) xs :
  (∀ x, x ∈ xs → is_Some (f x)) → ∃ v, firstM f xs = Some v ∧ (v = None ↔ ∀ x, x ∈ xs → f x = Some None).
Proof.
  induction xs as [|x xs IH]; intros Ht; cbn [firstM]; [exists None; split; [done|]; split; [by intros _ ? ?%elem_of_nil|done]|].
  destruct (Ht x ltac:(left)) as [[v|] Hx]; rewrite Hx; cbn [mbind option_bind].
  - exists (Some v). split; [done|]. split; [done|]. intros H. rewrite (H x ltac:(left)) in Hx. done.
  - destruct IH as (v & Hv & Hiff); [intros y Hy; apply Ht; by right|]. exists v. split; [done|]. rewrite Hiff.
    split; [intros H y [->|Hy]%elem_of_cons; auto|]. intros H y Hy. apply H. by right.
Qed.

(** The log matching oracle: on durable logs no longer than their last entries say,
    it passes a range exactly when any two nodes whose logs agree on the term of an
    entry hold the same term and data in every entry strictly before it, above both
    snapshots.  So it never accuses logs that match, and misses at most the data of
    the last entry they agree on ([last_entry_unchecked]). *)
Theorem log_matching_oracle_exact id l :
  length (rl_durableSnap l) = length (rl_durableLog l) → Forall bounded (rl_durableLog l) →
  ∃ v, LogMatching_check id l tt = Some (v, tt)
    ∧ (v = None ↔ ∀ a b i ea eb k xa xb, (a < b)%nat → shared l a b i ea eb → e_Term ea = e_Term eb → k < i → shared l a b k xa xb →
         sameContent xa xb = true).
Proof.
  intros Hlen Hb. rewrite Forall_lookup in Hb. unfold LogMatching_check. set (logs := rl_durableLog l) in *.
  set (inner := λ a b, la ← logs !! a; lb ← logs !! b; compareLogs l a b la lb).
  assert (Hpair : ∀ a b, (a < length logs)%nat → (b < length logs)%nat → ∃ v, inner a b = Some v ∧ (v = None ↔
    ∀ i ea eb k xa xb, shared l a b i ea eb → e_Term ea = e_Term eb → k < i → shared l a b k xa xb → sameContent xa xb = true)).
  { intros a b Ha Hb'. destruct (lookup_lt_is_Some_2 logs a Ha) as [la La], (lookup_lt_is_Some_2 logs b Hb') as [lb Lb]. unfold inner. rewrite La, Lb.
    cbn [mbind option_bind]. apply compareLogs_spec; [done|done|by eapply Hb|by eapply Hb|..]; apply lookup_lt_is_Some_2; lia. }
  assert (Hin : ∀ a b, b ∈ seq (S a) (length logs - S a) ↔ (a < b < length logs)%nat) by (intros a b; rewrite elem_of_seq; lia).
  assert (Hrow : ∀ a, (a < length logs)%nat → ∃ v, firstM (inner a) (seq (S a) (length logs - S a)) = Some v ∧ (v = None ↔
    ∀ b, (a < b < length logs)%nat → inner a b = Some None)).
  { intros a Ha. destruct (firstM_None (inner a) (seq (S a) (length logs - S a))) as (v & Hv & Hiff).
    - intros b Hb'%Hin. destruct (Hpair a b) as (v & -> & _); [lia|lia|done].
    - exists v. split; [done|]. rewrite Hiff. by setoid_rewrite Hin. }
  destruct (firstM_None (λ a, firstM (inner a) (seq (S a) (length logs - S a))) (seq 0 (length logs))) as (v & Hv & Hiff).
  { intros a Ha%elem_of_seq. destruct (Hrow a) as (v & -> & _); [lia|done]. }
  change (λ a, firstM (λ b, la ← logs !! a; lb ← logs !! b; compareLogs l a b la lb) (seq (S a) (length logs - S a)))
    with (λ a, firstM (inner a) (seq (S a) (length logs - S a))). rewrite Hv. cbn [mbind option_bind]. exists v. split; [done|]. rewrite Hiff. split.
  - intros Hall a b i ea eb k xa xb Hab Hi. pose proof Hi as (la & lb & _ & _ & La & Lb & _).
    apply lookup_lt_Some in La, Lb. fold logs in La, Lb. destruct (Hrow a La) as (w & Hw & Hrest). rewrite (Hall a) in Hw by (apply elem_of_seq; lia). injection Hw as <-.
    destruct (Hpair a b La Lb) as (u & Hu & Huiff). rewrite (proj1 Hrest eq_refl b ltac:(lia)) in Hu. injection Hu as <-.
    intros Ht Hki Hk. eapply (proj1 Huiff eq_refl); [exact Hi|done|exact Hki|exact Hk].
  - intros Hall a Ha%elem_of_seq. destruct (Hrow a ltac:(lia)) as (w & Hw & Hrest). rewrite Hw. f_equal. apply Hrest. intros b Hb'.
    destruct (Hpair a b ltac:(lia) ltac:(lia)) as (u & Hu & Huiff). rewrite Hu. f_equal. apply Huiff. intros i ea eb k xa xb Hi Ht Hki Hk.
    eapply (Hall a b); [lia|exact Hi|done|exact Hki|exact Hk].
Qed.

(** Two logs of one entry, same index and term, different data: silence. *)
Definition lastDiffers : rangeLedger :=
  MkRangeLedger 1 [] [] [] [[withData Byte.x00]; [withData Byte.x01]] [zeroMeta; zeroMeta] [] [] [[]; []] [] [] [] 2.

Lemma last_entry_unchecked :
  LogMatching_check 1 lastDiffers tt = Some (None, tt) ∧ shared lastDiffers 0 1 1 (withData Byte.x00) (withData Byte.x01)
  ∧ sameContent (withData Byte.x00) (withData Byte.x01) = false.
Proof.
  split; [by vm_compute|]. split; [|done]. exists [withData Byte.x00], [withData Byte.x01], zeroMeta, zeroMeta. done.
Qed.

Lemma log_matching_oracle_exact_witness : ∃ v, LogMatching_check 1 lastDiffers tt = Some (v, tt).
Proof.
  destruct (log_matching_oracle_exact 1 lastDiffers) as (v & H & _); [reflexivity| |exists v; exact H].
  repeat constructor; intros e He; apply list_elem_of_singleton in He as ->; cbn; lia.
Defined.
