(* ===== verification/CheckRaft.v ===== *)
(** * A Raft node under its oracle

    The node and disk of [RaftGate], run by a driver that records what it sends and
    what it makes durable in the ledger of [CheckLedger], judged by the persist-before-
    reply oracle of [CheckOracles].  What the gate promises is what the oracle checks,
    but for one case: a vote granted in a term the node has since left. *)

From Stdlib Require Import Lia ZArith.
From stdpp Require Import base tactics numbers option list sets gmap.
From S2P Require Import Prelude Bytes ConfChange RaftTypes Raft RaftInv RaftOps RaftReach RaftGate RaftExamples Hlc CheckLedger CheckOracles.

(** ** The recorded run *)

(** A node [k] of range [id] and the facts its driver records: each message as it is
    released, and the durable state whenever the disk has moved.  (The driver makes a
    write durable and records it in one event, so a restart finds nothing more.) *)
Inductive harness (id : Z) (k : nat) : dnode → list fact → Prop :=
| hn_new cfg r : Raft.New cfg = Ok r → harness id k (MkDnode r (MkHardState 0 0) []) []
| hn_step d fs i ms d' st at_ :
    harness id k d fs → dstep d i ms d' → ds_HardState st = dn_disk d' →
    harness id k d'
      (fs ++ ((λ m, FSent id k m at_) <$> ms) ++ (if bool_decide (dn_disk d' = dn_disk d) then [] else [FDurable id k st at_])).

Lemma harness_reach id k d fs : harness id k d fs → dreach d.
Proof. induction 1; [by eapply dr_new|by eapply dr_step]. Qed.

(** What the ledger has of the node: the disk's hard state, and messages that reveal no
    more than was on the disk when they were sent. *)
Definition gateRecord (k : nat) (D : HardState) (r : rangeLedger) : Prop :=
  durableHardState r k = D
  ∧ ∀ s, s ∈ rl_sent r → ungated (st_msg s) = false → hsle (attested (st_msg s)) (MkHardState (st_durableTerm s) (st_durableVote s)).

Lemma recorded_sent k D r m at_ r' :
  gateRecord k D r → (ungated m = false → hsle (attested m) D) → range_RecordSent k m at_ r = Some r' → gateRecord k D r'.
Proof.
  intros [Hd Hs] Hm. unfold range_RecordSent. destruct (durableLast r k) as [lst|]; [|done]. cbn [mbind option_bind].
  set (r0 := r <| rl_sent := _ |>).
  assert (H0 : gateRecord k D r0).
  { split; [exact Hd|]. cbn [r0 rl_sent update_field upd_rl_sent]. intros s [Hin|Hin]%elem_of_app; [by apply Hs|].
    apply list_elem_of_singleton in Hin as ->. cbn. rewrite Hd. destruct D. exact Hm. }
  case_bool_decide; [|by intros [= <-]]. intros Hn. destruct (noteLeader_spec _ _ _ _ _ Hn) as (_ & _ & Hsent & _). destruct H0 as [H1 H2].
  split; [|rewrite Hsent; exact H2]. unfold noteLeader in Hn. destruct (existsb _ _); [by injection Hn as <-|].
  destruct (rl_durableLog r0 !! k); [|done]. cbn [mbind option_bind] in Hn. destruct (rl_durableSnap r0 !! k); [|done]. by injection Hn as <-.
Qed.

Lemma recorded_durable k D r st at_ r' :
  gateRecord k D r → range_RecordDurable k st at_ r = Some r' → gateRecord k (ds_HardState st) r'.
Proof.
  intros [Hd Hs]. unfold range_RecordDurable. destruct (rl_durableLog r !! k); [|done]. destruct (rl_durableSnap r !! k); [|done].
  cbn [mbind option_bind]. intros [= <-]. split; [|exact Hs]. unfold durableHardState. cbn [rl_durableHS update_field upd_rl_durableHS upd_rl_durableLog upd_rl_durableSnap].
  rewrite foldl_app. cbn [foldl hr_node hr_hs]. by rewrite Nat.eqb_refl.
Qed.

Lemma recordAll_app n fs gs l :
  recordAll n (fs ++ gs) = Some l → ∃ l0, recordAll n fs = Some l0 ∧ foldM (λ l f, record f l) l0 gs = Some l.
Proof. unfold recordAll. rewrite foldM_app. destruct (foldM _ _ fs) as [l0|]; [|done]. intros H. by exists l0. Qed.

Lemma recorded_sends n id k D at_ ms fs l0 l :
  recordAll n fs = Some l0 → gateRecord k D (getRange id l0) → (∀ m, m ∈ ms → ungated m = false → hsle (attested m) D) →
  foldM (λ l f, record f l) l0 ((λ m, FSent id k m at_) <$> ms) = Some l →
  ∃ gs, recordAll n gs = Some l ∧ gateRecord k D (getRange id l).
Proof.
  revert fs l0. induction ms as [|m ms IH]; intros fs l0 Hl Hg Hm; cbn [fmap list_fmap foldM]; [intros [= <-]; by exists fs|].
  destruct (record (FSent id k m at_) l0) as [l1|] eqn:Er; cbn [mbind option_bind]; [|done].
  destruct (recordAll_inv n fs l0 Hl) as (Hok & _ & _). destruct (record_spec _ _ _ Hok Er) as (_ & _ & Hget). specialize (Hget id).
  cbn [onRangeFact] in Hget. rewrite Z.eqb_refl in Hget. apply (IH (fs ++ [FSent id k m at_])).
  - unfold recordAll in *. rewrite foldM_app, Hl. cbn [mbind option_bind foldM]. by rewrite Er.
  - eapply recorded_sent; [exact Hg|apply Hm; left|exact Hget].
  - intros x Hx. apply Hm. by right.
Qed.

Lemma harness_gate n id k d fs l :
  harness id k d fs → recordAll n fs = Some l → gateRecord k (dn_disk d) (getRange id l).
Proof.
  intros Hh. revert l. induction Hh as [cfg r H|d fs i ms d' st at_ Hh IH Hst Hds]; intros l Hl.
  { injection Hl as <-. split; [done|]. by intros s ?%elem_of_nil. }
  apply recordAll_app in Hl as (l0 & H0 & Hl). rewrite foldM_app in Hl.
  destruct (foldM _ l0 _) as [l1|] eqn:E1; [|done]. cbn [mbind option_bind] in Hl.
  destruct (recorded_sends n id k (dn_disk d) at_ ms fs l0 l1 H0 (IH l0 H0)) as (gs & Hgs & Hg); [|done|].
  { intros m Hm Hu. eapply released_attested; [by eapply harness_reach|exact Hst|done|done]. }
  case_bool_decide as Hd; [injection Hl as <-; by rewrite Hd|].
  cbn [foldM] in Hl. destruct (record (FDurable id k st at_) l1) as [l2|] eqn:Er; [|done]. injection Hl as <-.
  destruct (recordAll_inv n gs l1 Hgs) as (Hok & _ & _). destruct (record_spec _ _ _ Hok Er) as (_ & _ & Hget). specialize (Hget id).
  cbn [onRangeFact] in Hget. rewrite Z.eqb_refl in Hget. rewrite <- Hds. by eapply recorded_durable.
Qed.

(** C15. The gate keeps the oracle quiet about the messages it gates: of a node driven by
    [Ready] and [AckPersisted], through restarts, whose messages and durable states are
    recorded as they happen, and of every message but the three types that are sent past
    the gate -- pre-votes, their answers and the order to campaign, [MsgTimeoutNow] --
    the persist-before-reply oracle never says that it speaks for a term that is not
    durable, nor that a vote it grants in the durable term is missing.  What it may still
    say is that a vote granted in a term already left is missing
    ([late_grant_accused]), or that an acknowledged index is not durable, which is not
    judged here. *)
Theorem gate_passes_oracle n id k d fs l s pv :
  harness id k d fs → recordAll n fs = Some l → s ∈ rl_sent (getRange id l) → ungated (st_msg s) = false → m_To (st_msg s) ≠ 0 →
  match pbrMessage s pv with
  | None | Some (AckNotDurable _ _ _) => True
  | Some (VoteNotDurable _) => m_Term (st_msg s) < st_durableTerm s
  | Some _ => False
  end.
Proof.
  intros Hh Hl Hs Hu Hto. destruct (harness_gate n id k d fs l Hh Hl) as [_ Hg]. specialize (Hg s Hs Hu) as [Ht Hv].
  unfold attested, is_grant in Ht, Hv. cbn [hs_Term hs_Vote] in Ht, Hv. unfold pbrMessage. unfold ungated in Hu.
  assert (Hle : (m_Term (st_msg s) >? st_durableTerm s) = false) by (rewrite Z.gtb_ltb; apply Z.ltb_ge; lia). rewrite Hle.
  destruct (m_Type (st_msg s)) eqn:Et; try done.
  - change (bool_decide (MsgVoteResp = MsgVoteResp)) with true in *. change (bool_decide (MsgVoteResp = MsgAppResp)) with false. cbn [andb] in *.
    destruct (m_Granted (st_msg s)); cbn [andb]; [|done]. destruct (Z.eqb_spec (st_durableVote s) 0) as [Hz|]; [|done].
    destruct (decide (m_Term (st_msg s) = st_durableTerm s)) as [Heq|]; [|lia]. specialize (Hv Heq Hto). congruence.
  - change (bool_decide (MsgAppResp = MsgVoteResp)) with false. change (bool_decide (MsgAppResp = MsgAppResp)) with true. cbn [andb].
    destruct (m_Success (st_msg s)); cbn [andb]; [|exact I]. destruct (m_MatchIndex (st_msg s) >? st_durableLast s); exact I.
Qed.

(** ** Runs, executed *)

Definition durableOf (hs : HardState) : DurableState := MkDurable hs zeroMeta [].

Fixpoint hscript (id : Z) (k : nat) (d : dnode) (fs : list fact) (acts : list daction) : option (dnode * list fact) :=
  match acts with
  | [] => Some (d, fs)
  | a :: acts =>
      '(_, ms, d') ← drun a d;
      hscript id k d' (fs ++ ((λ m, FSent id k m 0) <$> ms) ++ (if bool_decide (dn_disk d' = dn_disk d) then [] else [FDurable id k (durableOf (dn_disk d')) 0])) acts
  end.

Lemma hscript_sound id k d fs acts d' fs' : harness id k d fs → hscript id k d fs acts = Some (d', fs') → harness id k d' fs'.
Proof.
  revert d fs. induction acts as [|a acts IH]; intros d fs Hd; cbn -[drun]; [by intros [= <- <-]|].
  intros ([[i ms] d1] & H1 & H2)%bind_Some. eapply IH; [|exact H2]. eapply hn_step; [exact Hd|by eapply drun_sound|done].
Qed.

(** Node 1 grants its vote in term 5 and, while that write is in flight, learns of
    term 6; both writes become durable together, and then the vote leaves. *)
Definition lateGrant : list daction :=
  [DRun (OpStep (voteReq 2 1 5)); DReady; DRun (OpStep (mkmsg MsgAppResp 3 1 6)); DReady; DAck; DAck; DReady].
Definition lateRun : dnode * list fact := default (fresh 1, []) (hscript 1 0 (fresh 1) [] lateGrant).

Lemma lateRun_harness : harness 1 0 (fst lateRun) (snd lateRun).
Proof.
  apply (hscript_sound 1 0 (fresh 1) [] lateGrant); [by apply (hn_new 1 0 (cfg 1 [1; 2; 3] []))|]. unfold lateRun.
  destruct (hscript 1 0 (fresh 1) [] lateGrant) as [[d fs]|] eqn:E; [done|]. by vm_compute in E.
Qed.

(** The oracle accuses a correct node: the run above, in which every message waits
    for its write, is reported as a vote granted with none durable, although the durable
    term is already past the vote's. *)
Theorem late_grant_accused :
  snd lateRun = [FDurable 1 0 (durableOf (MkHardState 5 2)) 0; FDurable 1 0 (durableOf (MkHardState 6 0)) 0;
                 FSent 1 0 (mkmsg MsgVoteResp 1 2 5 <| m_Granted := true |>) 0]
  ∧ match watch PersistBeforeReply_check (snd lateRun) (NewLedger 1) (newBase, ∅) with
    | Some (Some (1, VoteNotDurable 0), _) => True
    | _ => False
    end.
Proof. split; by vm_compute. Qed.

Lemma gate_passes_oracle_witness :
  ∃ l s, recordAll 1 (snd lateRun) = Some l ∧ s ∈ rl_sent (getRange 1 l) ∧ pbrMessage s ∅ = Some (VoteNotDurable 0) ∧ m_Term (st_msg s) < st_durableTerm s.
Proof.
  destruct (recordAll 1 (snd lateRun)) as [l|] eqn:E; [|vm_compute in E; discriminate].
  set (s := MkSent 0 (mkmsg MsgVoteResp 1 2 5 <| m_Granted := true |>) 6 0 0 0). exists l, s.
  assert (Hs : s ∈ rl_sent (getRange 1 l)).
  { vm_compute in E. apply (inj Some) in E. subst l. vm_compute. left. }
  split; [reflexivity|]. split; [exact Hs|]. split; [reflexivity|].
  exact (gate_passes_oracle 1 1 0 (fst lateRun) (snd lateRun) l s ∅ lateRun_harness E Hs eq_refl ltac:(discriminate)).
Defined.
