(* ===== verification/Engine.v ===== *)
(** * The storage engine (engine/batch.go, engine/model)

    The reference engine: immutable sorted versions, a durable one and every
    one applied since, searched by binary search.  Slices that the source tests
    against [nil] are [option]s.  [None] is a panic. *)

From Stdlib Require Import Lia ZArith Sorted.
From stdpp Require Import base tactics numbers option sorting gmap list.
From S2P Require Import Prelude Bytes.

(** ** Batches *)

Inductive Op :=
| OpSet (key value : bytes)
| OpDelete (key : bytes)
| OpDeleteRange (start end_ : option bytes)
| OpUnknown (kind : byte).

(** A batch is its operations, in order. *)
Abbreviation Batch := (list Op).

Definition NewBatch : Batch := [].
Definition Batch_Set (key value : bytes) (b : Batch) : Batch := b ++ [OpSet key value].
Definition Batch_Delete (key : bytes) (b : Batch) : Batch := b ++ [OpDelete key].
Definition Batch_DeleteRange (start end_ : option bytes) (b : Batch) : Batch :=
  b ++ [OpDeleteRange start end_].
Definition Batch_Empty (b : Batch) : bool := match b with [] => true | _ => false end.

Definition InRange (key : bytes) (start end_ : option bytes) : bool :=
  match start with Some s => negb (bytes_ltb key s) | None => true end
  && match end_ with Some e => bytes_ltb key e | None => true end.

(** ** Sorted slices *)

Abbreviation entry := (prod bytes bytes).

(** [sort.Search]: the smallest index at which a monotone test holds. *)
Fixpoint search_loop (fuel : nat) (f : nat → bool) (i j : nat) : nat :=
  match fuel with
  | O => i
  | S fuel =>
      if (i <? j)%nat then
        let h := ((i + j) / 2)%nat in
        if f h then search_loop fuel f i h else search_loop fuel f (h + 1) j
      else i
  end.

Definition sortSearch (n : nat) (f : nat → bool) : nat := search_loop n f 0 n.

(** The first position whose key is at or after [key]. *)
Definition lowerBound (es : list entry) (key : bytes) : nat :=
  sortSearch (length es) (λ i, match es !! i with
                               | Some e => bytes_leb key (fst e)
                               | None => false
                               end).

Definition found (es : list entry) (i : nat) (key : bytes) : bool :=
  match es !! i with Some e => bytes_eqb (fst e) key | None => false end.

Definition search (es : list entry) (key : bytes) : nat * bool :=
  let i := lowerBound es key in (i, found es i key).

Definition set_ (es : list entry) (key value : bytes) : list entry :=
  let '(i, hit) := search es key in
  if hit then match es !! i with
              | Some e => <[i := (fst e, value)]> es
              | None => es
              end
  else take i es ++ (key, value) :: drop i es.

Definition del (es : list entry) (key : bytes) : list entry :=
  let '(i, hit) := search es key in
  if hit then take i es ++ drop (S i) es else es.

Definition boundLo (es : list entry) (start : option bytes) : nat :=
  match start with Some s => lowerBound es s | None => 0 end.
Definition boundHi (es : list entry) (end_ : option bytes) : nat :=
  match end_ with Some e => lowerBound es e | None => length es end.

Definition delRange (es : list entry) (start end_ : option bytes) : list entry :=
  let lo := boundLo es start in
  let hi := boundHi es end_ in
  if (hi <=? lo)%nat then es else take lo es ++ drop hi es.

(** ** Versions *)

Record version := MkVersion { v_entries : list entry; v_seq : Z }.

Definition version_get (v : version) (key : bytes) : option bytes :=
  let i := lowerBound (v_entries v) key in
  match v_entries v !! i with
  | Some e => if bytes_eqb (fst e) key then Some (snd e) else None
  | None => None
  end.

Definition applyOp (es : list entry) (o : Op) : option (list entry) :=
  match o with
  | OpSet k v => Some (set_ es k v)
  | OpDelete k => Some (del es k)
  | OpDeleteRange s e => Some (delRange es s e)
  | OpUnknown _ => None
  end.

Definition applyTo (old : version) (b : Batch) (seq : Z) : option version :=
  es ← foldM applyOp (v_entries old) b; Some (MkVersion es seq).

(** ** The database *)

Record DB := MkDB {
  d_durable : version;
  d_pending : list version;
  d_seq : Z;
  d_closed : bool;
  d_onDurable : nat;           (* how many callbacks are registered *)
  d_openSnapshots : Z;
  d_openIters : Z;
}.

#[global] Instance DB_eta : Eta DB := λ d,
  MkDB (d_durable d) (d_pending d) (d_seq d) (d_closed d) (d_onDurable d) (d_openSnapshots d)
    (d_openIters d).
#[global] Instance upd_d_durable : Field d_durable := ltac:(derive_field).
#[global] Instance upd_d_pending : Field d_pending := ltac:(derive_field).
#[global] Instance upd_d_seq : Field d_seq := ltac:(derive_field).
#[global] Instance upd_d_closed : Field d_closed := ltac:(derive_field).
#[global] Instance upd_d_onDurable : Field d_onDurable := ltac:(derive_field).
#[global] Instance upd_d_openSnapshots : Field d_openSnapshots := ltac:(derive_field).
#[global] Instance upd_d_openIters : Field d_openIters := ltac:(derive_field).

Inductive EngineError :=
| ErrNotFound
| ErrClosed
| ErrOpenHandles (iters snapshots : Z).

Definition New : DB := MkDB (MkVersion [] 0) [] 0 false 0 0 0.

Definition visible (d : DB) : version :=
  match last (d_pending d) with Some v => v | None => d_durable d end.

(** [sync] asks about persistence only; the model's owner advances the
    watermark, so it changes nothing here. *)
Definition Apply (b : option Batch) (sync : bool) (d : DB) : option (result EngineError Z * DB) :=
  if d_closed d then Some (Err ErrClosed, d)
  else
    let d := d <| d_seq := add64 (d_seq d) 1 |> in
    let prev := visible d in
    match b with
    | None | Some [] =>
        Some (Ok (d_seq d), d <| d_pending := d_pending d ++ [MkVersion (v_entries prev) (d_seq d)] |>)
    | Some b =>
        v ← applyTo prev b (d_seq d);
        Some (Ok (d_seq d), d <| d_pending := d_pending d ++ [v] |>)
    end.

Definition DurableSeq (d : DB) : Z := v_seq (d_durable d).

Definition OnDurable (f : bool) (d : DB) : DB :=
  if f then d <| d_onDurable := S (d_onDurable d) |> else d.

(** The loop of [AdvanceDurable]: pending versions at or below [seq] become
    the durable one, in order. *)
Fixpoint advance (seq : Z) (durable : version) (pending : list version) : version * list version :=
  match pending with
  | v :: rest => if v_seq v <=? seq then advance seq v rest else (durable, pending)
  | [] => (durable, [])
  end.

(** The new state and the arguments of the callbacks, in registration order. *)
Definition AdvanceDurable (seq : Z) (d : DB) : option (DB * list Z) :=
  if seq >? d_seq d then None
  else
    let '(dur, pend) := advance seq (d_durable d) (d_pending d) in
    let advanced := match d_pending d with v :: _ => v_seq v <=? seq | [] => false end in
    let d := d <| d_durable := dur |> <| d_pending := pend |> in
    Some (d, if advanced then replicate (d_onDurable d) (v_seq dur) else []).

Definition Crash (d : DB) : DB :=
  d <| d_pending := [] |> <| d_seq := v_seq (d_durable d) |> <| d_openSnapshots := 0 |>
    <| d_openIters := 0 |>.

Definition Get (key : bytes) (d : DB) : result EngineError bytes :=
  match version_get (visible d) key with Some v => Ok v | None => Err ErrNotFound end.

Definition ApproximateDiskBytes (start end_ : option bytes) (d : DB) : Z :=
  foldl (λ total e, if InRange (fst e) start end_
                    then add64 total (Z.of_nat (length (fst e) + length (snd e))) else total)
    0 (v_entries (visible d)).

Definition Close (d : DB) : option EngineError * DB :=
  if d_closed d then (Some ErrClosed, d)
  else
    let d := d <| d_closed := true |> in
    (if negb (d_openIters d =? 0) || negb (d_openSnapshots d =? 0)
     then Some (ErrOpenHandles (d_openIters d) (d_openSnapshots d)) else None, d).

Definition VisibleSeq (d : DB) : Z := v_seq (visible d).

(** ** Snapshots *)

Record snapshot := MkSnapshot { s_version : version; s_closed : bool }.

Definition NewSnapshot (d : DB) : snapshot * DB :=
  (MkSnapshot (visible d) false, d <| d_openSnapshots := d_openSnapshots d + 1 |>).

Definition snapshot_Get (key : bytes) (s : snapshot) : result EngineError bytes :=
  if s_closed s then Err ErrClosed
  else match version_get (s_version s) key with Some v => Ok v | None => Err ErrNotFound end.

Definition snapshot_Close (s : snapshot) (d : DB) : option EngineError * snapshot * DB :=
  if s_closed s then (Some ErrClosed, s, d)
  else (None, MkSnapshot (s_version s) true, d <| d_openSnapshots := d_openSnapshots d - 1 |>).

(** ** Iterators *)

Record iter := MkIter {
  it_v : list entry;
  it_lo : option bytes;
  it_hi : option bytes;
  it_pos : Z;
  it_valid : bool;
  it_close : bool;             (* the close callback has not run *)
}.

Definition newIter (v : version) (lo hi : option bytes) : iter :=
  MkIter (v_entries v) lo hi (-1) false true.

Definition NewIter (lo hi : option bytes) (d : DB) : iter * DB :=
  (newIter (visible d) lo hi, d <| d_openIters := d_openIters d + 1 |>).

Definition snapshot_NewIter (lo hi : option bytes) (s : snapshot) (d : DB) : iter * DB :=
  (newIter (s_version s) lo hi, d <| d_openIters := d_openIters d + 1 |>).

Definition bounds (it : iter) : nat * nat :=
  let lo := boundLo (it_v it) (it_lo it) in
  let hi := boundHi (it_v it) (it_hi it) in
  (lo, if (hi <? lo)%nat then lo else hi).

Definition settle (i : Z) (it : iter) : bool * iter :=
  let '(lo, hi) := bounds it in
  let ok := (Z.of_nat lo <=? i) && (i <? Z.of_nat hi) in
  (ok, MkIter (it_v it) (it_lo it) (it_hi it) i ok (it_close it)).

Definition SeekGE (key : bytes) (it : iter) : bool * iter :=
  let '(lo, _) := bounds it in
  let target := match it_lo it with
                | Some l => if bytes_ltb key l then l else key
                | None => key
                end in
  let i := lowerBound (it_v it) target in
  settle (Z.of_nat (if (i <? lo)%nat then lo else i)) it.

Definition SeekLT (key : bytes) (it : iter) : bool * iter :=
  settle (Z.of_nat (lowerBound (it_v it) key) - 1) it.

Definition First (it : iter) : bool * iter := settle (Z.of_nat (fst (bounds it))) it.
Definition Last (it : iter) : bool * iter := settle (Z.of_nat (snd (bounds it)) - 1) it.

Definition iter_Next (it : iter) : bool * iter :=
  if negb (it_valid it) then (false, it) else settle (it_pos it + 1) it.
Definition Prev (it : iter) : bool * iter :=
  if negb (it_valid it) then (false, it) else settle (it_pos it - 1) it.

(** [Key] and [Value]; [None] is [nil], which an invalid position returns. *)
Definition current (it : iter) : option entry :=
  if it_valid it then it_v it !! Z.to_nat (it_pos it) else None.

Definition iter_Close (it : iter) (d : DB) : iter * DB :=
  (MkIter (it_v it) (it_lo it) (it_hi it) (it_pos it) false false,
   if it_close it then d <| d_openIters := d_openIters d - 1 |> else d).

(** The loop a client runs, [for ok := it.First(); ok; ok = it.Next()],
    collecting the pairs. *)
Fixpoint scan_from (fuel : nat) (it : iter) : list entry :=
  match fuel with
  | O => []
  | S fuel =>
      match current it with
      | Some e => e :: scan_from fuel (snd (iter_Next it))
      | None => []
      end
  end.

Definition scan (it : iter) : list entry := scan_from (S (length (it_v it))) (snd (First it)).

(** ** Binary search *)

Section BinarySearch.
Context (f : nat → bool) (n : nat).
Context (Hmono : ∀ a b, (a ≤ b < n)%nat → f a = true → f b = true).

Lemma search_loop_spec fuel i j :
  (i ≤ j ≤ n)%nat → (j - i ≤ fuel)%nat →
  (∀ a, (a < i)%nat → f a = false) → (∀ b, (j ≤ b < n)%nat → f b = true) →
  let k := search_loop fuel f i j in
  (k ≤ n)%nat ∧ (∀ a, (a < k)%nat → f a = false) ∧ (∀ b, (k ≤ b < n)%nat → f b = true).
Proof using Hmono.
  revert i j. induction fuel as [|fuel IH]; intros i j Hij Hf Hlo Hhi; cbn [search_loop].
  { assert (i = j) as -> by lia. split_and!; [lia|done|done]. }
  destruct (Nat.ltb_spec i j) as [Hlt|Hge].
  - assert (Hh : (i ≤ (i + j) / 2 < j)%nat).
    { pose proof (Nat.div_mod_eq (i + j) 2). pose proof (Nat.mod_upper_bound (i + j) 2). lia. }
    destruct (f ((i + j) / 2)%nat) eqn:Eh; apply IH; try lia; try done.
    + intros b Hb. eapply Hmono; [|exact Eh]. lia.
    + intros a Ha. destruct (f a) eqn:Ea; [|done].
      rewrite (Hmono a ((i + j) / 2)) in Eh; [done|lia|done].
  - assert (i = j) as -> by lia. split_and!; [lia|done|done].
Qed.

(** [sort.Search] finds the first index at which the test holds. *)
Lemma sortSearch_spec :
  let k := sortSearch n f in
  (k ≤ n)%nat ∧ (∀ a, (a < k)%nat → f a = false) ∧ (∀ b, (k ≤ b < n)%nat → f b = true).
Proof using Hmono. apply search_loop_spec; [lia|lia|intros; lia|intros; lia]. Qed.
End BinarySearch.

(** ** Sorted entries *)

Definition sorted_entries (es : list entry) : Prop := StronglySorted bytes_lt (es.*1).

#[global] Instance bytes_lt_transitive : Transitive bytes_lt.
Proof. intros a b c. apply bytes_lt_trans. Qed.

Lemma sorted_lookup es i j a b :
  sorted_entries es → (i < j)%nat → es !! i = Some a → es !! j = Some b →
  bytes_lt (fst a) (fst b).
Proof.
  intros Hs Hij Ha Hb. eapply (StronglySorted_app_1_elem_of bytes_lt (take j (es.*1)) (drop j (es.*1))).
  - by rewrite take_drop.
  - apply (list_elem_of_lookup_2 _ i). rewrite lookup_take_lt, list_lookup_fmap, Ha by done. done.
  - apply (list_elem_of_lookup_2 _ 0). rewrite lookup_drop, Nat.add_0_r, list_lookup_fmap, Hb. done.
Qed.

Lemma lowerBound_spec es k :
  sorted_entries es →
  (lowerBound es k ≤ length es)%nat
  ∧ Forall (λ e, bytes_lt (fst e) k) (take (lowerBound es k) es)
  ∧ Forall (λ e, bytes_le k (fst e)) (drop (lowerBound es k) es).
Proof.
  intros Hs. unfold lowerBound.
  set (f := λ i, match es !! i with Some e => bytes_leb k (fst e) | None => false end).
  destruct (sortSearch_spec f (length es)) as (H1 & H2 & H3).
  { intros a b Hab. unfold f. destruct (es !! a) as [x|] eqn:Ea; [|done].
    destruct (es !! b) as [y|] eqn:Eb; [|apply lookup_ge_None in Eb; lia].
    intros Hx. destruct (decide (a = b)) as [->|Hne]; [congruence|].
    apply (bytes_le_trans _ (fst x)); [done|]. apply bytes_le_lteq. left.
    eapply sorted_lookup; [done| |exact Ea|exact Eb]. lia. }
  set (k0 := sortSearch (length es) f) in *. clearbody k0. unfold f in H2, H3.
  split_and!; [done|..].
  - apply Forall_lookup. intros i x Hx. apply lookup_take_Some in Hx as [Hx Hi].
    specialize (H2 i Hi). rewrite Hx in H2.
    unfold bytes_lt. rewrite bytes_leb_ngt in H2. by apply negb_false_iff.
  - apply Forall_lookup. intros i x Hx. rewrite lookup_drop in Hx.
    apply lookup_lt_Some in Hx as Hlt. specialize (H3 (k0 + i)%nat).
    rewrite Hx in H3. apply H3. lia.
Qed.

Lemma sorted_app es1 es2 :
  sorted_entries (es1 ++ es2) ↔
  (∀ a b, a ∈ es1 → b ∈ es2 → bytes_lt (fst a) (fst b)) ∧ sorted_entries es1 ∧ sorted_entries es2.
Proof.
  unfold sorted_entries. rewrite fmap_app, StronglySorted_app. f_equiv. split.
  - intros H a b Ha Hb. apply H; by apply list_elem_of_fmap_2.
  - intros H x y (a & -> & Ha)%list_elem_of_fmap (b & -> & Hb)%list_elem_of_fmap. by apply H.
Qed.

Lemma sorted_cons e es :
  sorted_entries (e :: es) ↔ Forall (λ x, bytes_lt (fst e) (fst x)) es ∧ sorted_entries es.
Proof. unfold sorted_entries. cbn. by rewrite StronglySorted_cons, Forall_fmap. Qed.

(** A search splits the entries around the key. *)
Lemma search_split es k i hit :
  sorted_entries es → search es k = (i, hit) →
  ∃ L M R, es = L ++ M ++ R ∧ length L = i
    ∧ Forall (λ e, bytes_lt (fst e) k) L ∧ Forall (λ e, bytes_lt k (fst e)) R
    ∧ (if hit then ∃ v, M = [(k, v)] else M = []).
Proof.
  intros Hs. unfold search. intros [= Hi Hhit].
  destruct (lowerBound_spec es k Hs) as (H1 & H2 & H3). rewrite Hi in *.
  rewrite <- (take_drop i es) in Hs. apply sorted_app in Hs as (_ & _ & Hd).
  unfold found in Hhit. destruct (drop i es) as [|e R] eqn:Ed.
  - exists (take i es), [], []. rewrite <- (take_drop i es) at 1. rewrite Ed.
    split_and!; [done|rewrite length_take; lia|done|done|].
    assert (Hn : es !! i = None).
    { rewrite <- (Nat.add_0_r i), <- lookup_drop, Ed. done. }
    rewrite Hn in Hhit. by subst hit.
  - assert (He : es !! i = Some e).
    { rewrite <- (Nat.add_0_r i), <- lookup_drop, Ed. done. }
    rewrite He in Hhit. apply sorted_cons in Hd as [HeR _]. apply Forall_cons in H3 as [Hke _]. subst hit.
    destruct (bytes_eqb (fst e) k) eqn:Eq.
    + unfold bytes_eqb in Eq. bool_hyps. destruct e as [k' v]. cbn in Eq. subst k'.
      exists (take i es), [(k, v)], R. rewrite <- (take_drop i es) at 1. rewrite Ed.
      split_and!; [done|rewrite length_take; lia|done|done|eauto].
    + unfold bytes_eqb in Eq. bool_hyps. exists (take i es), [], (e :: R).
      rewrite <- (take_drop i es) at 1. rewrite Ed.
      assert (Hlt : bytes_lt k (fst e)).
      { apply bytes_le_lteq in Hke as [?|?]; [done|congruence]. }
      split_and!; [done|rewrite length_take; lia|done| |done].
      constructor; [done|]. eapply Forall_impl; [exact HeR|]. intros x Hx. by eapply bytes_lt_trans.
Qed.

(** The entries as a map. *)
Definition emap (es : list entry) : gmap bytes bytes := list_to_map es.

Lemma sorted_nodup es : sorted_entries es → NoDup es.*1.
Proof.
  unfold sorted_entries. induction (es.*1) as [|k ks IH]; intros H; constructor.
  - apply StronglySorted_cons in H as [H _]. intros Hin.
    eapply Forall_forall in H; [|exact Hin]. by apply bytes_lt_irrefl in H.
  - apply IH. by apply StronglySorted_cons in H as [_ ?].
Qed.

Lemma emap_lookup es k v : sorted_entries es → emap es !! k = Some v ↔ (k, v) ∈ es.
Proof. intros Hs%sorted_nodup. symmetry. by apply elem_of_list_to_map. Qed.

Lemma keys_lt_fresh es k : Forall (λ e, bytes_lt (fst e) k) es → emap es !! k = None.
Proof.
  intros H. apply not_elem_of_list_to_map. intros (e & -> & He)%list_elem_of_fmap.
  eapply Forall_forall in H; [|exact He]. by apply bytes_lt_irrefl in H.
Qed.
Lemma keys_gt_fresh es k : Forall (λ e, bytes_lt k (fst e)) es → emap es !! k = None.
Proof.
  intros H. apply not_elem_of_list_to_map. intros (e & -> & He)%list_elem_of_fmap.
  eapply Forall_forall in H; [|exact He]. by apply bytes_lt_irrefl in H.
Qed.

Lemma emap_app es1 es2 : emap (es1 ++ es2) = emap es1 ∪ emap es2.
Proof. apply list_to_map_app. Qed.

(** ** What the slice operations do to the map *)

(** The abstract operation: what one batch entry means. *)
Definition spec_op (m : gmap bytes bytes) (o : Op) : gmap bytes bytes :=
  match o with
  | OpSet k v => <[k:=v]> m
  | OpDelete k => delete k m
  | OpDeleteRange s e => filter (λ kv, InRange (fst kv) s e = false) m
  | OpUnknown _ => m
  end.

Lemma emap_insert_mid L k v R :
  Forall (λ e, bytes_lt (fst e) k) L → emap (L ++ (k, v) :: R) = <[k:=v]> (emap (L ++ R)).
Proof.
  intros HL. rewrite !emap_app. change (emap ((k, v) :: R)) with (<[k:=v]> (emap R)).
  symmetry. apply insert_union_r. by apply keys_lt_fresh.
Qed.

Lemma sorted_insert_mid L k v R :
  Forall (λ e, bytes_lt (fst e) k) L → Forall (λ e, bytes_lt k (fst e)) R →
  sorted_entries L → sorted_entries R → sorted_entries (L ++ (k, v) :: R).
Proof.
  intros HL HR HsL HsR. apply sorted_app. split_and!; [|done|by apply sorted_cons].
  rewrite Forall_forall in HL, HR. intros a b Ha [->|Hb]%elem_of_cons; cbn; [by apply HL|].
  eapply bytes_lt_trans; [by apply HL|by apply HR].
Qed.

Lemma set_spec es k v :
  sorted_entries es → sorted_entries (set_ es k v) ∧ emap (set_ es k v) = <[k:=v]> (emap es).
Proof.
  intros Hs. unfold set_. destruct (search es k) as [i hit] eqn:E.
  destruct (search_split es k i hit Hs E) as (L & M & R & -> & Hl & HL & HR & HM).
  apply sorted_app in Hs as (Hab & HsL & (_ & HsM & HsR)%sorted_app).
  destruct hit.
  - destruct HM as [v0 ->].
    assert (Hi : (L ++ [(k, v0)] ++ R) !! i = Some (k, v0)).
    { rewrite lookup_app_r by lia. replace (i - length L)%nat with 0%nat by lia. done. }
    rewrite Hi. cbn [fst].
    assert (Hins : <[i:=(k, v)]> (L ++ [(k, v0)] ++ R) = L ++ (k, v) :: R).
    { rewrite insert_app_r_alt by lia. replace (i - length L)%nat with 0%nat by lia. done. }
    rewrite Hins. split; [by apply sorted_insert_mid|].
    rewrite (emap_insert_mid L k v R HL). change ([(k, v0)] ++ R) with ((k, v0) :: R).
    rewrite (emap_insert_mid L k v0 R HL). by rewrite insert_insert_eq.
  - subst M. cbn [app]. rewrite take_app_length', drop_app_length' by done.
    split; [by apply sorted_insert_mid|by apply emap_insert_mid].
Qed.

Lemma emap_fresh_mid L k R :
  Forall (λ e, bytes_lt (fst e) k) L → Forall (λ e, bytes_lt k (fst e)) R →
  emap (L ++ R) !! k = None.
Proof.
  intros HL HR. rewrite emap_app. apply lookup_union_None.
  split; [by apply keys_lt_fresh|by apply keys_gt_fresh].
Qed.

Lemma del_spec es k :
  sorted_entries es → sorted_entries (del es k) ∧ emap (del es k) = delete k (emap es).
Proof.
  intros Hs. unfold del. destruct (search es k) as [i hit] eqn:E.
  destruct (search_split es k i hit Hs E) as (L & M & R & -> & Hl & HL & HR & HM).
  pose proof Hs as (Hab & HsL & (_ & HsM & HsR)%sorted_app)%sorted_app. destruct hit.
  - destruct HM as [v0 ->]. rewrite take_app_length' by done.
    assert (Hd : drop (S i) (L ++ [(k, v0)] ++ R) = R).
    { rewrite drop_app_ge by lia. replace (S i - length L)%nat with 1%nat by lia. done. }
    rewrite Hd. split.
    + apply sorted_app. split_and!; [|done|done]. intros a b Ha Hb. apply Hab; [done|].
      apply elem_of_app. by right.
    + change ([(k, v0)] ++ R) with ((k, v0) :: R). rewrite (emap_insert_mid L k v0 R HL).
      rewrite delete_insert_id; [done|]. by apply emap_fresh_mid.
  - subst M. cbn [app] in *. split; [done|]. symmetry. apply delete_id. by apply emap_fresh_mid.
Qed.

Lemma filter_all {A} (P : A → Prop) `{∀ x, Decision (P x)} xs : Forall P xs → filter P xs = xs.
Proof. induction 1; [done|]. rewrite filter_cons_True by done. by f_equal. Qed.
Lemma filter_none {A} (P : A → Prop) `{∀ x, Decision (P x)} xs :
  Forall (λ x, ¬ P x) xs → filter P xs = [].
Proof. induction 1; [done|]. by rewrite filter_cons_False. Qed.

(** The positions of the two ends of a range. *)
Lemma boundLo_spec es s :
  sorted_entries es →
  (boundLo es s ≤ length es)%nat
  ∧ Forall (λ e, match s with Some s => bytes_ltb (fst e) s | None => false end = true)
      (take (boundLo es s) es)
  ∧ Forall (λ e, match s with Some s => bytes_ltb (fst e) s | None => false end = false)
      (drop (boundLo es s) es).
Proof.
  intros Hs. destruct s as [s|]; cbn.
  - destruct (lowerBound_spec es s Hs) as (H1 & H2 & H3). split_and!; [done|done|].
    eapply Forall_impl; [exact H3|]. cbn. intros e He. apply bytes_le_not_lt in He.
    by apply not_true_is_false.
  - split_and!; [lia|constructor|]. by apply Forall_true.
Qed.

Lemma boundHi_spec es e :
  sorted_entries es →
  (boundHi es e ≤ length es)%nat
  ∧ Forall (λ x, match e with Some e => bytes_ltb (fst x) e | None => true end = true)
      (take (boundHi es e) es)
  ∧ Forall (λ x, match e with Some e => bytes_ltb (fst x) e | None => true end = false)
      (drop (boundHi es e) es).
Proof.
  intros Hs. destruct e as [e|]; cbn.
  - apply (boundLo_spec es (Some e) Hs).
  - rewrite take_ge, drop_all by done. split_and!; [done|by apply Forall_true|constructor].
Qed.

(** The entries of a range are the ones between the two positions. *)
Lemma range_slice es s e :
  sorted_entries es →
  filter (λ x, InRange (fst x) s e = true) es =
  take (boundHi es e - boundLo es s) (drop (boundLo es s) es).
Proof.
  intros Hs. destruct (boundLo_spec es s Hs) as (L1 & L2 & L3).
  destruct (boundHi_spec es e Hs) as (H1 & H2 & H3).
  set (lo := boundLo es s) in *. set (hi := boundHi es e) in *.
  rewrite <- (take_drop lo es) at 1. rewrite filter_app, (filter_none _ (take lo es)); cbn [app].
  2:{ eapply Forall_impl; [exact L2|]. intros x Hx Hr. unfold InRange in Hr.
      destruct s; [by rewrite Hx in Hr|done]. }
  rewrite <- (take_drop (hi - lo) (drop lo es)) at 1. rewrite filter_app, filter_all, filter_none.
  - apply app_nil_r.
  - rewrite drop_drop. destruct (decide (lo ≤ hi)%nat).
    + replace (lo + (hi - lo))%nat with hi by lia. eapply Forall_impl; [exact H3|].
      intros x Hx Hr. unfold InRange in Hr. destruct e; [|done]. rewrite Hx in Hr.
      by rewrite andb_false_r in Hr.
    + replace (lo + (hi - lo))%nat with lo by lia. apply Forall_lookup. intros i x Hx Hr.
      rewrite lookup_drop in Hx. eapply (Forall_lookup_1 _ _ (lo + i - hi)) in H3.
      2:{ rewrite lookup_drop. replace (hi + (lo + i - hi))%nat with (lo + i)%nat by lia. exact Hx. }
      unfold InRange in Hr. destruct e; [|done]. rewrite H3 in Hr. by rewrite andb_false_r in Hr.
  - apply Forall_lookup. intros i x Hx. apply lookup_take_Some in Hx as [Hx Hi].
    rewrite lookup_drop in Hx. unfold InRange. apply andb_true_iff. split.
    + eapply (Forall_lookup_1 _ _ i) in L3; [|by rewrite lookup_drop]. destruct s; [|done]. by rewrite L3.
    + eapply (Forall_lookup_1 _ _ (lo + i)) in H2; [exact H2|]. rewrite lookup_take_lt by lia. done.
Qed.

Lemma delRange_filter es s e :
  sorted_entries es → delRange es s e = filter (λ x, InRange (fst x) s e = false) es.
Proof.
  intros Hs. pose proof (range_slice es s e Hs) as Hr.
  destruct (boundLo_spec es s Hs) as (L1 & L2 & L3).
  destruct (boundHi_spec es e Hs) as (H1 & H2 & H3). unfold delRange.
  set (lo := boundLo es s) in *. set (hi := boundHi es e) in *.
  destruct (Nat.leb_spec hi lo) as [Hle|Hlt].
  - symmetry. apply filter_all. apply Forall_forall. intros x Hx.
    destruct (InRange (fst x) s e) eqn:Ex; [|done]. exfalso.
    assert (Hin : x ∈ filter (λ x, InRange (fst x) s e = true) es) by by apply list_elem_of_filter.
    rewrite Hr in Hin. replace (hi - lo)%nat with 0%nat in Hin by lia.
    by apply not_elem_of_nil in Hin.
  - rewrite <- (take_drop lo es) at 3. rewrite <- (take_drop (hi - lo) (drop lo es)).
    rewrite !filter_app, <- Hr, drop_drop. replace (lo + (hi - lo))%nat with hi by lia.
    rewrite filter_all, filter_none, (filter_all _ (drop hi es)); [done|..].
    + eapply Forall_impl; [exact H3|]. intros x Hx. unfold InRange. destruct e; [|done].
      by rewrite Hx, andb_false_r.
    + apply Forall_forall. intros x [Hx _]%list_elem_of_filter. congruence.
    + eapply Forall_impl; [exact L2|]. intros x Hx. unfold InRange. destruct s; [|done].
      by rewrite Hx.
Qed.

Lemma sorted_filter (P : entry → Prop) `{∀ x, Decision (P x)} es :
  sorted_entries es → sorted_entries (filter P es).
Proof.
  induction es as [|e es IH]; [done|]. intros [He Hs]%sorted_cons.
  rewrite filter_cons. case_decide; [|by apply IH]. apply sorted_cons. split; [|by apply IH].
  apply Forall_forall. intros x [_ Hx]%list_elem_of_filter. by eapply Forall_forall in He.
Qed.

Lemma delRange_spec es s e :
  sorted_entries es →
  sorted_entries (delRange es s e)
  ∧ emap (delRange es s e) = filter (λ kv, InRange (fst kv) s e = false) (emap es).
Proof.
  intros Hs. rewrite delRange_filter by done.
  pose proof (sorted_filter (λ x, InRange (fst x) s e = false) es Hs) as Hs'. split; [done|].
  apply map_eq. intros k. apply option_eq. intros v.
  rewrite emap_lookup, map_lookup_filter_Some, emap_lookup by done.
  rewrite list_elem_of_filter. cbn. tauto.
Qed.

(** Every known operation keeps the entries sorted and does what it means. *)
Lemma applyOp_spec es o es' :
  sorted_entries es → applyOp es o = Some es' →
  sorted_entries es' ∧ emap es' = spec_op (emap es) o.
Proof.
  intros Hs. destruct o; cbn; [intros [= <-]..|done].
  - by apply set_spec.
  - by apply del_spec.
  - by apply delRange_spec.
Qed.

Definition known_op (o : Op) : bool := match o with OpUnknown _ => false | _ => true end.

Lemma applyTo_spec old b seq :
  sorted_entries (v_entries old) → Forall (λ o, known_op o = true) b →
  ∃ v, applyTo old b seq = Some v ∧ v_seq v = seq ∧ sorted_entries (v_entries v)
       ∧ emap (v_entries v) = foldl spec_op (emap (v_entries old)) b.
Proof.
  intros Hs Hb. unfold applyTo.
  enough (∃ es, foldM applyOp (v_entries old) b = Some es ∧ sorted_entries es
                ∧ emap es = foldl spec_op (emap (v_entries old)) b) as (es & -> & ? & ?).
  { eexists. split; [done|]. done. }
  generalize dependent (v_entries old). clear old. induction Hb as [|o b Ho _ IH]; intros es Hs; [eauto|].
  cbn [foldM foldl]. destruct (applyOp es o) as [es1|] eqn:E; [|by destruct o].
  destruct (applyOp_spec es o es1 Hs E) as [Hs1 Hm1]. cbn [mbind option_bind].
  rewrite <- Hm1. by apply IH.
Qed.

(** C11. A batch does to the engine's sorted slice exactly what its operations,
    in order, do to a finite map: last write wins, a delete removes, a range
    delete removes every key in the half-open range, the ones written earlier
    in the same batch included; and the slice stays sorted with no key twice. *)
Theorem applyTo_refines old b seq :
  sorted_entries (v_entries old) → Forall (λ o, known_op o = true) b →
  ∃ v, applyTo old b seq = Some v ∧ v_seq v = seq ∧ sorted_entries (v_entries v)
       ∧ emap (v_entries v) = foldl spec_op (emap (v_entries old)) b.
Proof. apply applyTo_spec. Qed.

Lemma version_get_spec v key :
  sorted_entries (v_entries v) → version_get v key = emap (v_entries v) !! key.
Proof.
  intros Hs. unfold version_get. pose proof (search_split (v_entries v) key _ _ Hs eq_refl) as
    (L & M & R & Heq & Hl & HL & HR & HM).
  unfold found in HM. destruct (v_entries v !! lowerBound (v_entries v) key) as [[k x]|] eqn:E.
  - cbn [fst snd] in *. destruct (bytes_eqb k key) eqn:Ek.
    + unfold bytes_eqb in Ek. bool_hyps. subst k. symmetry. apply emap_lookup; [done|].
      by eapply list_elem_of_lookup_2.
    + subst M. cbn [app] in Heq. rewrite Heq. symmetry. by apply emap_fresh_mid.
  - subst M. cbn [app] in Heq. rewrite Heq. symmetry. by apply emap_fresh_mid.
Qed.

(** Point reads: looking a key up by binary search in a version is looking
    it up in the map the version stands for. *)
Theorem version_get_refines v key :
  sorted_entries (v_entries v) → version_get v key = emap (v_entries v) !! key.
Proof. apply version_get_spec. Qed.

(** ** Durability *)

(** The batches applied since the beginning; a [nil] batch writes nothing. *)
Definition history := list (option Batch).
Definition spec_batch (m : gmap bytes bytes) (b : option Batch) : gmap bytes bytes :=
  foldl spec_op m (default [] b).
Definition state_after (H : history) : gmap bytes bytes := foldl spec_batch ∅ H.

(** The version that is the state after the first [n] batches. *)
Record version_ok (H : history) (n : nat) (v : version) : Prop := MkVersionOk {
  vk_seq : v_seq v = Z.of_nat n;
  vk_sorted : sorted_entries (v_entries v);
  vk_map : emap (v_entries v) = state_after (take n H);
}.

(** The durable version is the state after the first [w] batches, and every
    later state up to the last is retained. *)
Record db_ok (H : history) (w : nat) (d : DB) : Prop := MkDbOk {
  dk_seq : d_seq d = Z.of_nat (length H);
  dk_len : (w + length (d_pending d) = length H)%nat;
  dk_durable : version_ok H w (d_durable d);
  dk_pending : ∀ i v, d_pending d !! i = Some v → version_ok H (w + i + 1) v;
}.

Lemma visible_ok H w d : db_ok H w d → version_ok H (length H) (visible d).
Proof.
  intros [Hs Hl Hd Hp]. unfold visible. rewrite last_lookup.
  destruct (d_pending d) as [|v vs] eqn:E; cbn in *.
  - by replace (length H) with w by lia.
  - destruct ((v :: vs) !! length vs) as [x|] eqn:Ex.
    + apply Hp in Ex. by replace (w + length vs + 1)%nat with (length H) in Ex by lia.
    + apply lookup_ge_None in Ex. cbn in Ex. lia.
Qed.

Lemma version_ok_extend H n v b : (n ≤ length H)%nat → version_ok H n v → version_ok (H ++ [b]) n v.
Proof. intros Hn []. split; [done|done|]. by rewrite take_app_le. Qed.

Lemma db_ok_push H w d b v :
  db_ok H w d → Z.of_nat (length H) + 1 < 2 ^ 64 → v_seq v = Z.of_nat (length H) + 1 →
  sorted_entries (v_entries v) → emap (v_entries v) = spec_batch (state_after H) b →
  db_ok (H ++ [b]) w (d <| d_seq := add64 (d_seq d) 1 |> <| d_pending := d_pending d ++ [v] |>).
Proof.
  intros [Hs Hl Hd Hp] Hb Hv Hso Hm. split; cbn.
  - rewrite Hs, add64_small by lia. rewrite length_app. cbn. lia.
  - rewrite !length_app. cbn. lia.
  - apply version_ok_extend; [lia|done].
  - intros i x Hx. apply lookup_app_Some in Hx as [Hx|[Hge Hx]].
    + apply lookup_lt_Some in Hx as Hlt. apply version_ok_extend; [lia|by apply Hp].
    + apply list_lookup_singleton_Some in Hx as [Hi ->]. split; [lia|done|].
      rewrite Hm, take_ge by (rewrite length_app; cbn; lia). unfold state_after.
      by rewrite foldl_app.
Qed.

Definition known_batch (b : option Batch) : Prop := Forall (λ o, known_op o = true) (default [] b).

Lemma Apply_ok H w d b sync :
  db_ok H w d → d_closed d = false → known_batch b → Z.of_nat (length H) + 1 < 2 ^ 64 →
  ∃ d', Apply b sync d = Some (Ok (Z.of_nat (length H) + 1), d')
        ∧ db_ok (H ++ [b]) w d' ∧ d_closed d' = false.
Proof.
  intros Hok Hc Hk Hb. pose proof (visible_ok H w d Hok) as [Hvs Hvo Hvm].
  rewrite take_ge in Hvm by done. unfold Apply. rewrite Hc. cbv zeta.
  change (visible (d <| d_seq := add64 (d_seq d) 1 |>)) with (visible d).
  assert (Hseq : add64 (d_seq d) 1 = Z.of_nat (length H) + 1).
  { destruct Hok as [-> _ _ _]. apply add64_small. lia. }
  change (d_seq (d <| d_seq := add64 (d_seq d) 1 |>)) with (add64 (d_seq d) 1).
  change (d_pending (d <| d_seq := add64 (d_seq d) 1 |>)) with (d_pending d).
  rewrite <- Hseq. destruct b as [[|o ops]|].
  2:{ destruct (applyTo_spec (visible d) (o :: ops) (add64 (d_seq d) 1) Hvo Hk) as (v & -> & V1 & V2 & V3).
      cbn [mbind option_bind]. eexists. split; [done|]. split; [|done].
      apply db_ok_push; try done; [congruence|]. by rewrite V3, Hvm. }
  all: eexists; split; [done|]; split; [|done]; by apply db_ok_push.
Qed.

Lemma advance_ok H seq w dur pend :
  0 ≤ seq → version_ok H w dur →
  (∀ i v, pend !! i = Some v → version_ok H (w + i + 1) v) →
  let '(dur', pend') := advance seq dur pend in
  let w' := Nat.max w (Nat.min (Z.to_nat seq) (w + length pend)) in
  version_ok H w' dur' ∧ (w' + length pend' = w + length pend)%nat
  ∧ ∀ i v, pend' !! i = Some v → version_ok H (w' + i + 1) v.
Proof.
  intros H0. revert w dur. induction pend as [|p pend IH]; intros w dur Hd Hp; cbn [advance].
  { cbn. replace (Nat.max w (Nat.min (Z.to_nat seq) (w + 0))) with w by lia.
    split_and!; [done|lia|done]. }
  pose proof (Hp 0%nat p eq_refl) as Hp0. rewrite Nat.add_0_r in Hp0.
  destruct (v_seq p <=? seq) eqn:E; bool_hyps; rewrite (vk_seq _ _ _ Hp0) in E.
  - specialize (IH (w + 1)%nat p Hp0). destruct (advance seq p pend) as [dur' pend'].
    destruct IH as (A & B & C).
    { intros i v Hv. specialize (Hp (S i) v Hv). by replace (w + 1 + i + 1)%nat with (w + S i + 1)%nat by lia. }
    cbn [length].
    replace (Nat.max w (Nat.min (Z.to_nat seq) (w + S (length pend)))) with
      (Nat.max (w + 1) (Nat.min (Z.to_nat seq) (w + 1 + length pend))) by lia.
    split_and!; [done|lia|done].
  - cbn [length]. replace (Nat.max w (Nat.min (Z.to_nat seq) (w + S (length pend)))) with w by lia.
    split_and!; done.
Qed.

Lemma AdvanceDurable_ok H w d seq :
  db_ok H w d → 0 ≤ seq ≤ d_seq d →
  ∃ d' calls, AdvanceDurable seq d = Some (d', calls)
    ∧ db_ok H (Nat.max w (Z.to_nat seq)) d' ∧ d_closed d' = d_closed d.
Proof.
  intros [Hs Hl Hd Hp] Hseq. unfold AdvanceDurable. rewrite Z.gtb_ltb.
  case_test; [lia|]. pose proof (advance_ok H seq w (d_durable d) (d_pending d) ltac:(lia) Hd Hp) as Ha.
  destruct (advance seq (d_durable d) (d_pending d)) as [dur pend]. cbv zeta in Ha.
  replace (Nat.max w (Nat.min (Z.to_nat seq) (w + length (d_pending d))))
    with (Nat.max w (Z.to_nat seq)) in Ha by lia.
  destruct Ha as (A & B & C). eexists _, _. split; [done|]. split; [|done].
  split; cbn; [done|lia|done|done].
Qed.

Lemma Crash_ok H w d : db_ok H w d → db_ok (take w H) w (Crash d).
Proof.
  intros [Hs Hl Hd Hp]. assert (Hw : (w ≤ length H)%nat) by lia. destruct Hd as [D1 D2 D3].
  split; cbn.
  - rewrite length_take. lia.
  - rewrite length_take. lia.
  - split; [done|done|]. by rewrite take_take, Nat.min_id.
  - intros i v Hi. by rewrite lookup_nil in Hi.
Qed.

(** An engine and the batches it has applied and not lost. *)
Inductive db_reach : history → DB → Prop :=
| db_new : db_reach [] New
| db_apply H d b sync r d' :
    db_reach H d → d_closed d = false → known_batch b → Z.of_nat (length H) + 1 < 2 ^ 64 →
    Apply b sync d = Some (r, d') → db_reach (H ++ [b]) d'
| db_advance H d seq d' calls :
    db_reach H d → 0 ≤ seq → AdvanceDurable seq d = Some (d', calls) → db_reach H d'
| db_crash H d :
    db_reach H d → db_reach (take (Z.to_nat (DurableSeq d)) H) (Crash d)
| db_snapshot H d : db_reach H d → db_reach H (snd (NewSnapshot d))
| db_iter H d lo hi : db_reach H d → db_reach H (snd (NewIter lo hi d)).

Lemma db_ok_new : db_ok [] 0 New.
Proof.
  split; [done|done| |intros i v Hi; cbn in Hi; by rewrite lookup_nil in Hi].
  split; try done. constructor.
Qed.

Lemma AdvanceDurable_panics seq d d' calls :
  AdvanceDurable seq d = Some (d', calls) → seq ≤ d_seq d.
Proof. unfold AdvanceDurable. rewrite Z.gtb_ltb. case_test; [done|]. lia. Qed.

Lemma db_reach_ok H d : db_reach H d → ∃ w, db_ok H w d ∧ DurableSeq d = Z.of_nat w.
Proof.
  intros Hr. assert (Hw : ∃ w, db_ok H w d).
  2:{ destruct Hw as [w Hw]. exists w. split; [done|]. apply Hw. }
  induction Hr as [|H d b sync r d' _ [w IH] Hc Hk Hb Ha|H d seq d' calls _ [w IH] H0 Ha
    |H d _ [w IH]|H d _ [w IH]|H d lo hi _ [w IH]].
  - exists 0%nat. apply db_ok_new.
  - destruct (Apply_ok H w d b sync IH Hc Hk Hb) as (d1 & H1 & Hok & _). exists w. congruence.
  - apply AdvanceDurable_panics in Ha as Hle.
    destruct (AdvanceDurable_ok H w d seq IH ltac:(lia)) as (d1 & c1 & H1 & Hok & _). eexists. rewrite Ha in H1. by simplify_eq.
  - exists w. assert (Hs : DurableSeq d = Z.of_nat w) by apply IH. rewrite Hs, Nat2Z.id. by apply Crash_ok.
  - exists w. destruct IH as [A B C D]. by split.
  - exists w. destruct IH as [A B C D]. by split.
Qed.

(** Reads see every applied batch: in any reachable engine, [Get] answers
    from the finite map that applying the batches in order produces, durable or
    not. *)
Theorem Get_refines H d key :
  db_reach H d →
  Get key d = match state_after H !! key with Some v => Ok v | None => Err ErrNotFound end.
Proof.
  intros (w & Hok & _)%db_reach_ok. destruct (visible_ok H w d Hok) as [_ Hs Hm].
  unfold Get. rewrite version_get_spec, Hm by done. by rewrite take_ge.
Qed.

(** C10. The durability contract: for a reachable engine whose watermark is [w],
    a crash recovers exactly the state produced by the first [w] batches, in
    order, and nothing else -- whichever applied sequence [w] is. *)
Theorem crash_recovers_durable H d key :
  db_reach H d →
  Get key (Crash d)
  = match state_after (take (Z.to_nat (DurableSeq d)) H) !! key with
    | Some v => Ok v
    | None => Err ErrNotFound
    end
  ∧ DurableSeq (Crash d) = DurableSeq d ∧ VisibleSeq (Crash d) = DurableSeq d.
Proof.
  intros (w & Hok & Hw)%db_reach_ok. rewrite Hw, Nat2Z.id.
  pose proof (Crash_ok H w d Hok) as Hc. destruct (visible_ok _ _ _ Hc) as [_ Hs Hm].
  split; [|done]. unfold Get. rewrite version_get_spec, Hm by done. by rewrite take_ge.
Qed.

(** The watermark moves only forward and only over applied batches:
    advancing to an applied sequence makes exactly that prefix durable, and
    loses nothing that is visible. *)
Theorem AdvanceDurable_spec H d seq :
  db_reach H d → 0 ≤ seq ≤ d_seq d →
  ∃ d' calls, AdvanceDurable seq d = Some (d', calls)
    ∧ DurableSeq d' = Z.max (DurableSeq d) seq
    ∧ VisibleSeq d' = VisibleSeq d ∧ (∀ key, Get key d' = Get key d)
    ∧ calls = (if DurableSeq d <? seq then replicate (d_onDurable d) seq else []).
Proof.
  intros Hr Hseq. pose proof Hr as (w & Hok & Hw)%db_reach_ok.
  destruct (AdvanceDurable_ok H w d seq Hok Hseq) as (d' & calls & Ha & Hok' & _).
  assert (Hr' : db_reach H d') by (apply (db_advance H d seq d' calls); [done|lia|done]).
  assert (Hw' : DurableSeq d' = Z.max (DurableSeq d) seq).
  { unfold DurableSeq at 1. rewrite (vk_seq _ _ _ (dk_durable _ _ _ Hok')), Hw. lia. }
  exists d', calls. split_and!; [done|done| | |].
  - unfold VisibleSeq. rewrite (vk_seq _ _ _ (visible_ok _ _ _ Hok)).
    by rewrite (vk_seq _ _ _ (visible_ok _ _ _ Hok')).
  - intros key. destruct (visible_ok _ _ _ Hok) as [_ S1 M1].
    destruct (visible_ok _ _ _ Hok') as [_ S2 M2]. unfold Get.
    by rewrite !version_get_spec, M1, M2 by done.
  - revert Ha. unfold AdvanceDurable. rewrite Z.gtb_ltb. case_test; [done|].
    destruct (advance seq (d_durable d) (d_pending d)) as [dur pend] eqn:Ea. intros [= <- <-].
    cbn in Hw'. destruct (d_pending d) as [|v vs] eqn:Ep.
    + cbn in Ea. injection Ea as <- <-. unfold DurableSeq in *. cbn in Hw'. case_test; [lia|done].
    + pose proof (dk_pending _ _ _ Hok 0%nat v) as Hv. rewrite Ep in Hv. specialize (Hv eq_refl).
      rewrite (vk_seq _ _ _ Hv). unfold DurableSeq in *. cbn in Hw' |- *.
      destruct (Z.of_nat (w + 0 + 1) <=? seq) eqn:E1; bool_hyps; case_test; try lia; [|done].
      f_equal. lia.
Qed.

(** ** Iterators *)

(** Positions an iterator may hold. *)
Lemma bounds_spec it :
  sorted_entries (it_v it) →
  let '(lo, hi) := bounds it in
  (lo ≤ hi ≤ length (it_v it))%nat
  ∧ take (hi - lo) (drop lo (it_v it))
    = filter (λ x, InRange (fst x) (it_lo it) (it_hi it) = true) (it_v it).
Proof.
  intros Hs. unfold bounds. cbv zeta. rewrite range_slice by done.
  destruct (boundLo_spec (it_v it) (it_lo it) Hs) as (L1 & _).
  destruct (boundHi_spec (it_v it) (it_hi it) Hs) as (H1 & _).
  destruct (Nat.ltb_spec (boundHi (it_v it) (it_hi it)) (boundLo (it_v it) (it_lo it))).
  - split; [lia|]. f_equal. lia.
  - split; [lia|done].
Qed.

Lemma scan_from_spec fuel it :
  sorted_entries (it_v it) →
  let '(lo, hi) := bounds it in
  it_valid it = (Z.of_nat lo <=? it_pos it) && (it_pos it <? Z.of_nat hi) →
  Z.of_nat lo ≤ it_pos it → (hi - Z.to_nat (it_pos it) < fuel)%nat →
  scan_from fuel it = take (hi - Z.to_nat (it_pos it)) (drop (Z.to_nat (it_pos it)) (it_v it)).
Proof.
  revert it. induction fuel as [|fuel IH]; intros it Hs; destruct (bounds it) as [lo hi] eqn:Eb;
    intros Hv Hlo Hf; [lia|]. cbn [scan_from]. unfold current.
  pose proof (bounds_spec it Hs) as Hb. rewrite Eb in Hb. destruct Hb as [Hbl _].
  rewrite Hv. destruct ((Z.of_nat lo <=? it_pos it) && (it_pos it <? Z.of_nat hi)) eqn:Ev.
  - bool_hyps. destruct (it_v it !! Z.to_nat (it_pos it)) as [e|] eqn:Ee;
      [|apply lookup_ge_None in Ee; lia].
    set (it' := snd (iter_Next it)).
    assert (Hit : it' = MkIter (it_v it) (it_lo it) (it_hi it) (it_pos it + 1)
      ((Z.of_nat lo <=? it_pos it + 1) && (it_pos it + 1 <? Z.of_nat hi)) (it_close it)).
    { unfold it', iter_Next, settle. rewrite Hv. cbn [negb]. by rewrite Eb. }
    assert (Eb' : bounds it' = (lo, hi)) by by rewrite Hit.
    specialize (IH it'). rewrite Eb' in IH.
    rewrite IH; rewrite Hit; cbn; [|done|done|lia|lia].
    replace (Z.to_nat (it_pos it + 1)) with (S (Z.to_nat (it_pos it))) by lia.
    replace (hi - Z.to_nat (it_pos it))%nat with (S (hi - S (Z.to_nat (it_pos it)))) by lia.
    by rewrite (drop_S _ _ _ Ee).
  - replace (hi - Z.to_nat (it_pos it))%nat with 0%nat; [done|].
    apply andb_false_iff in Ev as [Ev|Ev]; bool_hyps; lia.
Qed.

Lemma scan_filter it :
  sorted_entries (it_v it) →
  scan it = filter (λ x, InRange (fst x) (it_lo it) (it_hi it) = true) (it_v it).
Proof.
  intros Hs. pose proof (bounds_spec it Hs) as Hb. unfold scan, First, settle.
  destruct (bounds it) as [lo hi] eqn:Eb. cbn [fst snd]. destruct Hb as [Hl <-].
  set (it0 := MkIter _ _ _ _ _ _). assert (Eb0 : bounds it0 = (lo, hi)) by exact Eb.
  pose proof (scan_from_spec (S (length (it_v it))) it0 Hs) as Hsc. rewrite Eb0 in Hsc.
  rewrite Hsc; cbn; [|done|lia|lia]. by rewrite Nat2Z.id.
Qed.

(** A full forward scan yields exactly the entries of the bounds, once each
    and in key order, and ends. *)
Theorem scan_spec it :
  sorted_entries (it_v it) →
  scan it = filter (λ x, InRange (fst x) (it_lo it) (it_hi it) = true) (it_v it).
Proof. apply scan_filter. Qed.

(** ** The theorems at work *)

Definition keyA : bytes := [Byte.x61].
Definition keyB : bytes := [Byte.x62].
Definition val1 : bytes := [Byte.x31].
Definition val2 : bytes := [Byte.x32].

Definition batch1 : Batch := [OpSet keyB val1; OpSet keyA val1; OpSet keyB val2].
Definition batch2 : Batch := [OpDelete keyA].

(** Two batches applied, the first of them durable. *)
Definition db1 : DB := MkDB (MkVersion [] 0) [MkVersion [(keyA, val1); (keyB, val2)] 1] 1 false 0 0 0.
Definition db2 : DB :=
  MkDB (MkVersion [] 0) [MkVersion [(keyA, val1); (keyB, val2)] 1; MkVersion [(keyB, val2)] 2] 2 false 0 0 0.
Definition db3 : DB :=
  MkDB (MkVersion [(keyA, val1); (keyB, val2)] 1) [MkVersion [(keyB, val2)] 2] 2 false 0 0 0.

Lemma db2_reach : db_reach [Some batch1; Some batch2] db2.
Proof.
  eapply (db_apply [Some batch1] db1 (Some batch2) true); try by vm_compute.
  2: by repeat constructor.
  eapply (db_apply [] New (Some batch1) false); try by vm_compute.
  - apply db_new.
  - by repeat constructor.
Qed.

Lemma db3_reach : db_reach [Some batch1; Some batch2] db3.
Proof. by apply (db_advance _ db2 1 db3 []); [exact db2_reach|lia|]. Qed.

Lemma applyTo_refines_witness :
  ∃ v, applyTo (MkVersion [] 0) batch1 1 = Some v ∧ v_seq v = 1 ∧ sorted_entries (v_entries v)
       ∧ emap (v_entries v) = foldl spec_op (emap []) batch1.
Proof. apply (applyTo_refines (MkVersion [] 0) batch1 1); [constructor|by repeat constructor]. Defined.

Lemma version_get_refines_witness :
  version_get (MkVersion [(keyA, val1); (keyB, val2)] 1) keyB
  = emap [(keyA, val1); (keyB, val2)] !! keyB.
Proof.
  apply (version_get_refines (MkVersion [(keyA, val1); (keyB, val2)] 1) keyB).
  unfold sorted_entries. cbn. by repeat constructor.
Defined.

Lemma Get_refines_witness :
  Get keyA db3 = match state_after [Some batch1; Some batch2] !! keyA with
                 | Some v => Ok v
                 | None => Err ErrNotFound
                 end.
Proof. apply (Get_refines _ db3 keyA). exact db3_reach. Defined.

(** The second batch is lost and the key it deleted is back. *)
Lemma crash_recovers_durable_witness :
  Get keyA (Crash db3) = Ok val1 ∧ Get keyA db3 = Err ErrNotFound.
Proof.
  split; [|reflexivity].
  exact (proj1 (crash_recovers_durable [Some batch1; Some batch2] db3 keyA db3_reach)).
Defined.

Lemma AdvanceDurable_spec_witness :
  ∃ d' calls, AdvanceDurable 2 db3 = Some (d', calls) ∧ DurableSeq d' = 2.
Proof.
  destruct (AdvanceDurable_spec [Some batch1; Some batch2] db3 2 db3_reach)
    as (d' & calls & H1 & H2 & _); [cbn; lia|]. exists d', calls. by rewrite H2.
Defined.

Lemma scan_spec_witness :
  scan (newIter (MkVersion [(keyA, val1); (keyB, val2)] 1) (Some keyB) None) = [(keyB, val2)].
Proof.
  apply (scan_spec (newIter (MkVersion [(keyA, val1); (keyB, val2)] 1) (Some keyB) None)).
  unfold sorted_entries. cbn. by repeat constructor.
Defined.
