(* ===== verification/KvEncoding.v ===== *)
(** * The MVCC key encoding (kv/encoding.go, kv/wall.go)

    Engine keys of the five record kinds: a namespace, a kind byte, the length
    of the user key as four big-endian bytes, the user key, and for three of the
    kinds a timestamp written inverted.  The theorems are the ones the layout is
    chosen for: every key decodes to what was encoded and to nothing else, byte
    order within one key is reverse timestamp order, and the range a scan of one
    key uses holds the records of that key and no other. *)

From Stdlib Require Import Lia ZArith.
From stdpp Require Import base tactics numbers option list.
From S2P Require Import Prelude Bytes Hlc Engine.

(** ** The record kinds *)

Definition dataPrefix : byte := Byte.x64.
Definition lockPrefix : byte := Byte.x6c.
Definition writePrefix : byte := Byte.x77.
Definition txnPrefix : byte := Byte.x74.
Definition readPrefix : byte := Byte.x72.

Definition lenBytes : nat := 4.
Definition wallBytes : nat := 8.
Definition logicalBytes : nat := 4.
Definition tsBytes : nat := wallBytes + logicalBytes.

#[global] Arguments lenBytes : simpl never.
#[global] Arguments wallBytes : simpl never.
#[global] Arguments logicalBytes : simpl never.
#[global] Arguments tsBytes : simpl never.

(** The complements [^x] of the two widths, and [int64] of a decoded word. *)
Definition not64 (z : Z) : Z := u64 (Z.lnot z).
Definition not32 (z : Z) : Z := u32 (Z.lnot z).
Definition hlcWall (v : Z) : Z := i64 v.

(** ** Encoding *)

Definition metaKey (ns : bytes) (kind : byte) (key : bytes) : bytes :=
  ((ns ++ [kind]) ++ be_put lenBytes (u32 (Z.of_nat (length key)))) ++ key.

Definition appendInvertedTS (b : bytes) (ts : Timestamp) : bytes :=
  (b ++ be_put wallBytes (not64 (u64 (Wall ts)))) ++ be_put logicalBytes (not32 (Logical ts)).

Definition EncodeKey (ns key : bytes) (ts : Timestamp) : bytes :=
  let b := ns ++ [dataPrefix] in
  let b := b ++ be_put lenBytes (u32 (Z.of_nat (length key))) in
  let b := b ++ key in
  appendInvertedTS b ts.

Definition KeyPrefix (ns key : bytes) : bytes :=
  let b := ns ++ [dataPrefix] in
  let b := b ++ be_put lenBytes (u32 (Z.of_nat (length key))) in
  b ++ key.

Definition LockKey (ns key : bytes) : bytes := metaKey ns lockPrefix key.
Definition TxnKey (ns key : bytes) (startTS : Timestamp) : bytes :=
  appendInvertedTS (metaKey ns txnPrefix key) startTS.
Definition WriteKey (ns key : bytes) (commitTS : Timestamp) : bytes :=
  appendInvertedTS (metaKey ns writePrefix key) commitTS.
Definition WritePrefix (ns key : bytes) : bytes := metaKey ns writePrefix key.
Definition ReadMarkKey (ns key : bytes) (readTS : Timestamp) : bytes :=
  appendInvertedTS (metaKey ns readPrefix key) readTS.
Definition ReadMarkPrefix (ns key : bytes) : bytes := metaKey ns readPrefix key.
Definition MetaKey (ns key : bytes) : bytes := metaKey ns Byte.x6d key.

(** ** Decoding *)

(** [b] starts with the namespace and the kind byte and is long enough for the
    length word: the test shared by the decoders. *)
Definition kindAt (ns : bytes) (kind : byte) (b : bytes) : bool :=
  negb ((length b <? length ns + 1 + lenBytes)%nat
        || negb (bytes_eqb (take (length ns) b) ns)
        || negb (bool_decide (b !! length ns = Some kind))).

Definition decodeTS (raw : bytes) : Timestamp :=
  MkTimestamp (hlcWall (not64 (be_get (take wallBytes raw)))) (not32 (be_get (drop wallBytes raw))).

Definition DecodeKey (ns b : bytes) : option (bytes * Timestamp) :=
  if negb (kindAt ns dataPrefix b) then None
  else
    let b := drop (length ns) b in
    let n := be_get (take lenBytes (drop 1 b)) in
    if negb (Z.of_nat (length b) =? Z.of_nat (1 + lenBytes) + n + Z.of_nat tsBytes) then None
    else
      let n := Z.to_nat n in
      let key := take n (drop (1 + lenBytes) b) in
      let raw := drop (1 + lenBytes + n) b in
      Some (key, decodeTS raw).

Definition takeMetaKey (ns : bytes) (kind : byte) (b : bytes) : option (bytes * bytes) :=
  if negb (kindAt ns kind b) then None
  else
    let b := drop (length ns + 1) b in
    let n := be_get (take lenBytes b) in
    let b := drop lenBytes b in
    if Z.of_nat (length b) <? n then None
    else Some (take (Z.to_nat n) b, drop (Z.to_nat n) b).

Definition DecodeWriteKey (ns b : bytes) : option (bytes * Timestamp) :=
  '(key, rest) ← takeMetaKey ns writePrefix b;
  if negb (length rest =? tsBytes)%nat then None else Some (key, decodeTS rest).

Definition DecodeReadMarkKey (ns b : bytes) : option (bytes * Timestamp) :=
  '(key, rest) ← takeMetaKey ns readPrefix b;
  if negb (length rest =? tsBytes)%nat then None else Some (key, decodeTS rest).

Definition TimestampOf (ns key : bytes) : option Timestamp :=
  match DecodeKey ns key with
  | Some (_, ts) => Some ts
  | None =>
      match DecodeWriteKey ns key with
      | Some (_, ts) => Some ts
      | None => snd <$> DecodeReadMarkKey ns key
      end
  end.

(** [KindOf] and [DecodeAnyKey] (kv/txn.go), which dispatch on the kind byte. *)
Definition KindOf (ns engineKey : bytes) : option byte :=
  if (length engineKey <=? length ns)%nat || negb (bytes_eqb (take (length ns) engineKey) ns)
  then None else engineKey !! length ns.

Definition DecodeAnyKey (ns engineKey : bytes) : option bytes :=
  kind ← KindOf ns engineKey; fst <$> takeMetaKey ns kind engineKey.

(** ** The upper end of a prefix (kv/store.go) *)

(** The loop, over the bytes from the last to the first. *)
Fixpoint prefixEnd_loop (rev_p : bytes) : option bytes :=
  match rev_p with
  | [] => None
  | b :: rest =>
      if negb (bool_decide (b = Byte.xff)) then Some (rev (z2b (b2z b + 1) :: rest))
      else prefixEnd_loop rest
  end.

Definition prefixEnd (p : bytes) : option bytes := prefixEnd_loop (rev p).

(** ** Complements *)

Lemma not64_spec z : is_u64 z → not64 z = 2 ^ 64 - 1 - z.
Proof.
  intros H. unfold not64, u64, Z.lnot, is_u64 in *.
  symmetry. apply (Z.mod_unique _ _ (-1)); lia.
Qed.
Lemma not32_spec z : is_u32 z → not32 z = 2 ^ 32 - 1 - z.
Proof.
  intros H. unfold not32, u32, Z.lnot, is_u32 in *.
  symmetry. apply (Z.mod_unique _ _ (-1)); lia.
Qed.
Lemma not64_range z : is_u64 (not64 z).
Proof. apply u64_range. Qed.
Lemma not32_range z : is_u32 (not32 z).
Proof. apply u32_range. Qed.
Lemma not64_invol z : is_u64 z → not64 (not64 z) = z.
Proof. intros H. rewrite !not64_spec; unfold is_u64 in *; rewrite ?not64_spec by done; lia. Qed.
Lemma not32_invol z : is_u32 z → not32 (not32 z) = z.
Proof. intros H. rewrite !not32_spec; unfold is_u32 in *; rewrite ?not32_spec by done; lia. Qed.

Lemma be_get_put_u32 z : is_u32 z → be_get (be_put 4 z) = z.
Proof. intros H. rewrite be_get_put. by apply Z.mod_small. Qed.
Lemma be_get_put_u64' z : is_u64 z → be_get (be_put 8 z) = z.
Proof. intros H. rewrite be_get_put. by apply Z.mod_small. Qed.

(** ** Timestamps *)

Definition encodeTS (ts : Timestamp) : bytes :=
  be_put wallBytes (not64 (u64 (Wall ts))) ++ be_put logicalBytes (not32 (Logical ts)).

Lemma appendInvertedTS_app b ts : appendInvertedTS b ts = b ++ encodeTS ts.
Proof. unfold appendInvertedTS, encodeTS. by rewrite <- app_assoc. Qed.

Lemma encodeTS_length ts : length (encodeTS ts) = tsBytes.
Proof. unfold encodeTS. by rewrite length_app, !be_put_length. Qed.

Lemma decodeTS_encodeTS ts : ts_ok ts → decodeTS (encodeTS ts) = ts.
Proof.
  intros [Hw Hl]. unfold decodeTS, encodeTS.
  rewrite take_app_length', drop_app_length' by (by rewrite be_put_length).
  unfold wallBytes, logicalBytes.
  rewrite be_get_put_u64', be_get_put_u32, not64_invol, not32_invol by auto using not64_range, not32_range, u64_range.
  unfold hlcWall. rewrite i64_u64 by done. by destruct ts.
Qed.

Lemma decodeTS_ok raw : ts_ok (decodeTS raw).
Proof. split; [apply i64_range|apply not32_range]. Qed.

Lemma encodeTS_decodeTS raw : length raw = tsBytes → encodeTS (decodeTS raw) = raw.
Proof.
  intros Hl. unfold decodeTS, encodeTS, hlcWall. cbn [Wall Logical].
  assert (H1 : length (take wallBytes raw) = 8%nat) by (rewrite length_take, Hl; done).
  assert (H2 : length (drop wallBytes raw) = 4%nat) by (rewrite length_drop, Hl; done).
  pose proof (be_get_range (take wallBytes raw)) as R1. rewrite H1 in R1.
  pose proof (be_get_range (drop wallBytes raw)) as R2. rewrite H2 in R2.
  rewrite u64_i64 by apply not64_range. rewrite not64_invol, not32_invol by done.
  pose proof (be_put_get (take wallBytes raw)) as P1. rewrite H1 in P1.
  pose proof (be_put_get (drop wallBytes raw)) as P2. rewrite H2 in P2.
  unfold wallBytes, logicalBytes in *. rewrite P1, P2. apply take_drop.
Qed.

(** ** The layout *)

Definition key_ok (key : bytes) : Prop := Z.of_nat (length key) < 2 ^ 32.

(** What follows the kind byte: the length word, the user key and the rest. *)
Definition body (key rest : bytes) : bytes := be_put lenBytes (Z.of_nat (length key)) ++ key ++ rest.

Lemma metaKey_body ns kind key rest :
  key_ok key → metaKey ns kind key ++ rest = ns ++ kind :: body key rest.
Proof.
  intros Hk. unfold metaKey, body. rewrite u32_small by (unfold is_u32, key_ok in *; lia).
  by rewrite <- !app_assoc.
Qed.

Lemma EncodeKey_meta ns key ts : EncodeKey ns key ts = metaKey ns dataPrefix key ++ encodeTS ts.
Proof. unfold EncodeKey. by rewrite appendInvertedTS_app. Qed.
Lemma KeyPrefix_meta ns key : KeyPrefix ns key = metaKey ns dataPrefix key.
Proof. reflexivity. Qed.

Lemma kindAt_spec ns kind b :
  kindAt ns kind b = true ↔ ∃ c, b = ns ++ kind :: c ∧ (lenBytes ≤ length c)%nat.
Proof.
  unfold kindAt, bytes_eqb. rewrite negb_true_iff, !orb_false_iff, !negb_false_iff, Nat.ltb_ge,
    !bool_decide_eq_true. split.
  - intros [[Hl Hp] Hk]. exists (drop (S (length ns)) b). split; [|rewrite length_drop; lia].
    rewrite <- (take_drop (length ns) b) at 1. rewrite Hp. f_equal. by apply drop_S.
  - intros (c & -> & Hc). rewrite length_app. cbn [length]. split_and!; [lia|by rewrite take_app_length|].
    by rewrite lookup_app_r, Nat.sub_diag by lia.
Qed.

(** The length word and what it delimits. *)
Lemma body_split c :
  (lenBytes ≤ length c)%nat → be_get (take lenBytes c) ≤ Z.of_nat (length (drop lenBytes c)) →
  ∃ key rest, c = body key rest ∧ key_ok key
    ∧ Z.of_nat (length key) = be_get (take lenBytes c).
Proof.
  intros Hl Hle. set (n := be_get (take lenBytes c)) in *.
  assert (Hlen : length (take lenBytes c) = 4%nat) by (rewrite length_take; unfold lenBytes in *; lia).
  pose proof (be_get_range (take lenBytes c)) as Hr. rewrite Hlen in Hr. fold n in Hr.
  exists (take (Z.to_nat n) (drop lenBytes c)), (drop (Z.to_nat n) (drop lenBytes c)).
  assert (Hk : Z.of_nat (length (take (Z.to_nat n) (drop lenBytes c))) = n) by (rewrite length_take; lia).
  split; [|split; [unfold key_ok; lia|done]].
  unfold body. rewrite Hk, take_drop. pose proof (be_put_get (take lenBytes c)) as HP.
  rewrite Hlen in HP. fold n in HP. unfold lenBytes in *. by rewrite HP, take_drop.
Qed.

Lemma body_take key rest : key_ok key → be_get (take lenBytes (body key rest)) = Z.of_nat (length key).
Proof.
  intros Hk. unfold body. rewrite take_app_length' by (by rewrite be_put_length).
  apply be_get_put_u32. unfold is_u32, key_ok in *. lia.
Qed.
Lemma body_drop key rest : drop lenBytes (body key rest) = key ++ rest.
Proof. unfold body. by rewrite drop_app_length' by (by rewrite be_put_length). Qed.
Lemma body_length key rest : length (body key rest) = (lenBytes + length key + length rest)%nat.
Proof. unfold body. rewrite !length_app, be_put_length. lia. Qed.

Lemma body_inj k1 r1 k2 r2 : key_ok k1 → key_ok k2 → body k1 r1 = body k2 r2 → k1 = k2 ∧ r1 = r2.
Proof.
  intros H1 H2 He. assert (Hl : length k1 = length k2).
  { apply Nat2Z.inj. rewrite <- (body_take k1 r1), <- (body_take k2 r2) by done. by rewrite He. }
  apply (f_equal (drop lenBytes)) in He. rewrite !body_drop in He. by apply app_inj_1.
Qed.

(** The generic decoder is exactly the inverse of the generic encoder. *)
Lemma takeMetaKey_spec ns kind b key rest :
  takeMetaKey ns kind b = Some (key, rest) ↔ key_ok key ∧ b = metaKey ns kind key ++ rest.
Proof.
  unfold takeMetaKey. destruct (kindAt ns kind b) eqn:Ek; cbn [negb].
  - apply kindAt_spec in Ek as (c & -> & Hc).
    assert (Hd : drop (length ns + 1) (ns ++ kind :: c) = c).
    { rewrite drop_app_ge by lia. by replace (length ns + 1 - length ns)%nat with 1%nat by lia. }
    rewrite Hd. cbv zeta. destruct (Z.ltb_spec (Z.of_nat (length (drop lenBytes c))) (be_get (take lenBytes c))) as [Hlt|Hge].
    + split; [done|]. intros [Hk He]. rewrite metaKey_body in He by done.
      apply app_inv_head in He. injection He as ->. rewrite body_take, body_drop, length_app in Hlt by done. lia.
    + destruct (body_split c Hc Hge) as (k & r & -> & Hk & Hn). rewrite <- Hn, body_drop, Nat2Z.id.
      rewrite take_app_length, drop_app_length. split.
      * intros [= <- <-]. split; [done|]. by rewrite metaKey_body.
      * intros [Hk' He]. rewrite metaKey_body in He by done. apply app_inv_head in He.
        apply (f_equal tail) in He. cbn [tail] in He. by apply body_inj in He as [-> ->].
  - split; [done|]. intros [Hk ->]. rewrite metaKey_body in Ek by done.
    apply not_true_iff_false in Ek. destruct Ek. apply kindAt_spec. eexists. split; [done|].
    rewrite body_length. lia.
Qed.

(** The data decoder reads the same layout and demands the exact length. *)
Lemma DecodeKey_take ns b :
  DecodeKey ns b =
  ('(key, rest) ← takeMetaKey ns dataPrefix b;
   if negb (length rest =? tsBytes)%nat then None else Some (key, decodeTS rest)).
Proof.
  unfold DecodeKey, takeMetaKey. destruct (kindAt ns dataPrefix b) eqn:Ek; [|done]. cbn [negb].
  apply kindAt_spec in Ek as (c & -> & Hc). rewrite drop_app_length.
  assert (Hd : drop (length ns + 1) (ns ++ dataPrefix :: c) = c).
  { rewrite drop_app_ge by lia. by replace (length ns + 1 - length ns)%nat with 1%nat by lia. }
  rewrite Hd. cbv zeta. change (drop 1 (dataPrefix :: c)) with c.
  set (n := be_get (take lenBytes c)). pose proof (be_get_range (take lenBytes c)) as Hr. fold n in Hr.
  change (drop (1 + lenBytes) (dataPrefix :: c)) with (drop lenBytes c).
  change (drop (1 + lenBytes + Z.to_nat n) (dataPrefix :: c)) with (drop (lenBytes + Z.to_nat n) c).
  rewrite <- drop_drop. cbn [length]. rewrite !length_drop.
  destruct (Z.ltb_spec (Z.of_nat (length c - lenBytes)) n) as [Hlt|Hge]; cbn [mbind option_bind].
  - case_test; [done|]. unfold lenBytes, tsBytes in *. lia.
  - rewrite length_drop, length_drop.
    destruct (Nat.eqb_spec (length c - lenBytes - Z.to_nat n) tsBytes) as [He|He]; cbn [negb].
    + case_test; [unfold lenBytes, tsBytes, wallBytes, logicalBytes in *; lia|done].
    + case_test; [done|]. unfold lenBytes, tsBytes, wallBytes, logicalBytes in *. lia.
Qed.

(** The decoder of any kind that carries a timestamp. *)
Definition decodeStamped (ns : bytes) (kind : byte) (b : bytes) : option (bytes * Timestamp) :=
  '(key, rest) ← takeMetaKey ns kind b;
  if negb (length rest =? tsBytes)%nat then None else Some (key, decodeTS rest).

Lemma decodeStamped_iff ns kind b key ts :
  decodeStamped ns kind b = Some (key, ts)
  ↔ key_ok key ∧ ts_ok ts ∧ b = appendInvertedTS (metaKey ns kind key) ts.
Proof.
  unfold decodeStamped. rewrite bind_Some, appendInvertedTS_app. split.
  - intros ([k rest] & (Hk & ->)%takeMetaKey_spec & Hd). cbn in Hd.
    destruct (Nat.eqb_spec (length rest) tsBytes) as [Hl|]; [|done]. cbn in Hd. injection Hd as <- <-.
    split; [done|]. split; [apply decodeTS_ok|]. by rewrite encodeTS_decodeTS.
  - intros (Hk & Ht & ->). exists (key, encodeTS ts). split; [by apply takeMetaKey_spec|]. cbn.
    by rewrite encodeTS_length, Nat.eqb_refl, decodeTS_encodeTS.
Qed.

Lemma DecodeKey_stamped ns b : DecodeKey ns b = decodeStamped ns dataPrefix b.
Proof. apply DecodeKey_take. Qed.

Lemma DecodeKey_some ns b key ts :
  DecodeKey ns b = Some (key, ts) ↔ key_ok key ∧ ts_ok ts ∧ b = EncodeKey ns key ts.
Proof. rewrite DecodeKey_stamped. apply decodeStamped_iff. Qed.
Lemma DecodeWriteKey_some ns b key ts :
  DecodeWriteKey ns b = Some (key, ts) ↔ key_ok key ∧ ts_ok ts ∧ b = WriteKey ns key ts.
Proof. apply decodeStamped_iff. Qed.
Lemma DecodeReadMarkKey_some ns b key ts :
  DecodeReadMarkKey ns b = Some (key, ts) ↔ key_ok key ∧ ts_ok ts ∧ b = ReadMarkKey ns key ts.
Proof. apply decodeStamped_iff. Qed.

(** The encodings are exact: an engine key decodes to a user key and a
    timestamp precisely when it is their encoding, for data versions, commit
    records and read marks alike.  So every encoding round-trips, two pairs
    never share an engine key, and nothing else decodes. *)
Theorem keys_roundtrip ns b key ts :
  (DecodeKey ns b = Some (key, ts) ↔ key_ok key ∧ ts_ok ts ∧ b = EncodeKey ns key ts)
  ∧ (DecodeWriteKey ns b = Some (key, ts) ↔ key_ok key ∧ ts_ok ts ∧ b = WriteKey ns key ts)
  ∧ (DecodeReadMarkKey ns b = Some (key, ts) ↔ key_ok key ∧ ts_ok ts ∧ b = ReadMarkKey ns key ts).
Proof. split_and!; [apply DecodeKey_some|apply DecodeWriteKey_some|apply DecodeReadMarkKey_some]. Qed.

(** ** Order within a key *)

(** A wall reading as clocks issue them. *)
Definition wall_ok (ts : Timestamp) : Prop := ts_ok ts ∧ 0 ≤ Wall ts.

Lemma encodeTS_cmp t u :
  wall_ok t → wall_ok u →
  bytes_cmp (encodeTS t) (encodeTS u)
  = match Z.compare (Wall u) (Wall t) with Eq => Z.compare (Logical u) (Logical t) | c => c end.
Proof.
  intros [[Tw Tl] T0] [[Uw Ul] U0]. unfold encodeTS. unfold is_i64, is_u32 in *.
  rewrite bytes_cmp_app_eqlen by (by rewrite !be_put_length). unfold wallBytes, logicalBytes.
  rewrite !bytes_cmp_be_put by (apply not64_range || apply not32_range).
  rewrite !(u64_small (Wall _)), !not64_spec, !not32_spec by (unfold is_u64, is_u32; lia).
  destruct (Z.compare_spec (Wall u) (Wall t)) as [E|E|E];
    destruct (Z.compare_spec (2 ^ 64 - 1 - Wall t) (2 ^ 64 - 1 - Wall u)) as [F|F|F]; try lia; try done.
  destruct (Z.compare_spec (Logical u) (Logical t)) as [G|G|G];
    destruct (Z.compare_spec (2 ^ 32 - 1 - Logical t) (2 ^ 32 - 1 - Logical u)) as [I|I|I]; done || lia.
Qed.

Lemma stamped_ltb p t u :
  wall_ok t → wall_ok u →
  bytes_ltb (appendInvertedTS p t) (appendInvertedTS p u) = Less u t.
Proof.
  intros Ht Hu. unfold bytes_ltb. rewrite !appendInvertedTS_app, bytes_cmp_app, encodeTS_cmp by done.
  unfold Less. destruct (Z.compare_spec (Wall u) (Wall t)) as [E|E|E].
  - rewrite E, Z.eqb_refl. cbn. destruct (Z.compare_spec (Logical u) (Logical t)); symmetry;
      [apply Z.ltb_ge|apply Z.ltb_lt|apply Z.ltb_ge]; lia.
  - destruct (Z.eqb_spec (Wall u) (Wall t)); [lia|]. symmetry. by apply Z.ltb_lt.
  - destruct (Z.eqb_spec (Wall u) (Wall t)); [lia|]. symmetry. apply Z.ltb_ge. lia.
Qed.

(** Byte order within one user key is reverse timestamp order, for data
    versions, commit records, transaction records and read marks: the newest
    record of a key comes first.  (The wall readings are not negative; the
    inversion is of the unsigned word.) *)
Theorem newest_first ns key t u :
  wall_ok t → wall_ok u →
  bytes_ltb (EncodeKey ns key t) (EncodeKey ns key u) = Less u t
  ∧ bytes_ltb (WriteKey ns key t) (WriteKey ns key u) = Less u t
  ∧ bytes_ltb (TxnKey ns key t) (TxnKey ns key u) = Less u t
  ∧ bytes_ltb (ReadMarkKey ns key t) (ReadMarkKey ns key u) = Less u t.
Proof. intros. split_and!; by apply stamped_ltb. Qed.

(** ** Prefix ranges *)

Lemma prefixEnd_loop_app r b :
  prefixEnd_loop (r ++ [b])
  = match prefixEnd_loop r with
    | Some e => Some (b :: e)
    | None => if bool_decide (b = Byte.xff) then None else Some [z2b (b2z b + 1)]
    end.
Proof.
  induction r as [|x r IH]; cbn [prefixEnd_loop app].
  - destruct (bool_decide (b = Byte.xff)); done.
  - destruct (bool_decide (x = Byte.xff)); [done|]. cbn [negb]. f_equal.
    cbn [rev]. by rewrite rev_app_distr.
Qed.

(** The same function from the front. *)
Lemma prefixEnd_cons b p :
  prefixEnd (b :: p)
  = match prefixEnd p with
    | Some e => Some (b :: e)
    | None => if bool_decide (b = Byte.xff) then None else Some [z2b (b2z b + 1)]
    end.
Proof. unfold prefixEnd. cbn [rev]. apply prefixEnd_loop_app. Qed.

Lemma b2z_succ b : b ≠ Byte.xff → b2z (z2b (b2z b + 1)) = b2z b + 1.
Proof.
  intros Hb. pose proof (b2z_range b). rewrite b2z_z2b. apply Z.mod_small.
  assert (b2z b ≠ 255); [|lia]. intros He. apply Hb, b2z_inj. by rewrite He.
Qed.

Lemma InRange_cons b p x end_ :
  InRange (b :: x) (Some (b :: p)) (Some (b :: end_)) = InRange x (Some p) (Some end_).
Proof. unfold InRange, bytes_ltb. cbn. by rewrite Z.compare_refl. Qed.

Lemma prefixEnd_in x p : InRange x (Some p) (prefixEnd p) = true ↔ p `prefix_of` x.
Proof.
  revert x. induction p as [|b p IH]; intros x.
  { cbn. split; [intros _; apply prefix_nil|]. intros _. unfold InRange, bytes_ltb. by destruct x. }
  rewrite prefixEnd_cons. destruct x as [|c x].
  { split; [|intros [? [=]]]. unfold InRange. by cbn. }
  destruct (Z.lt_trichotomy (b2z c) (b2z b)) as [Hlt|[Heq|Hgt]].
  - split.
    + unfold InRange, bytes_ltb at 1. cbn. rewrite (proj2 (Z.compare_lt_iff _ _) Hlt). done.
    + intros Hp%prefix_cons_inv_1. subst. lia.
  - apply b2z_inj in Heq as ->. 
    assert (Hp : b :: p `prefix_of` b :: x ↔ p `prefix_of` x)
      by (split; [apply prefix_cons_inv_2|apply prefix_cons]). rewrite Hp, <- IH.
    destruct (prefixEnd p) as [e|]; [by rewrite InRange_cons|].
    case_bool_decide as Hb; unfold InRange, bytes_ltb; cbn; rewrite Z.compare_refl; [done|].
    rewrite b2z_succ by done. by rewrite (proj2 (Z.compare_lt_iff (b2z b) (b2z b + 1))) by lia.
  - split; [|intros Hp%prefix_cons_inv_1; subst; lia].
    unfold InRange, bytes_ltb. destruct (prefixEnd p) as [e|]; cbn.
    + rewrite (proj2 (Z.compare_gt_iff _ _) Hgt). done.
    + case_bool_decide as Hb.
      * subst b. pose proof (b2z_range c). change (b2z Byte.xff) with 255 in Hgt. lia.
      * cbn. rewrite b2z_succ by done. rewrite (proj2 (Z.compare_gt_iff _ _) Hgt).
        destruct (Z.compare_spec (b2z c) (b2z b + 1)); [by destruct x|lia|done].
Qed.

(** The bounds of a prefix scan are exact, whatever the prefix: an engine
    key lies between a prefix and its end precisely when it starts with the
    prefix.  (The end of a run of [0xFF] bytes is unbounded.) *)
Theorem prefixEnd_exact x p : InRange x (Some p) (prefixEnd p) = true ↔ p `prefix_of` x.
Proof. apply prefixEnd_in. Qed.

(** Nothing but the key's own records starts with its prefix. *)
Lemma metaKey_prefix ns kind kind' key key' rest :
  key_ok key → key_ok key' →
  metaKey ns kind key `prefix_of` metaKey ns kind' key' ++ rest ↔ kind = kind' ∧ key = key'.
Proof.
  intros Hk Hk'. split.
  - intros [r Hr]. rewrite !metaKey_body in Hr by done. apply app_inv_head in Hr.
    apply (f_equal head) in Hr as Hh. apply (f_equal tail) in Hr. cbn [tail head] in *.
    apply body_inj in Hr as [-> _]; [|done|done]. by injection Hh as ->.
  - intros [-> ->]. by exists rest.
Qed.

Lemma prefix_record ns kind kind' key key' rest :
  key_ok key → key_ok key' →
  InRange (metaKey ns kind' key' ++ rest) (Some (metaKey ns kind key)) (prefixEnd (metaKey ns kind key)) = true
  ↔ kind = kind' ∧ key = key'.
Proof. intros. rewrite prefixEnd_in. by apply metaKey_prefix. Qed.

(** The range a read of one key scans holds every version of that key and
    no version of any other, whatever bytes the keys contain; likewise for
    commit records and read marks, and the ranges of different kinds are
    disjoint. *)
Theorem key_ranges_exact ns key key' ts :
  key_ok key → key_ok key' →
  let within x p := InRange x (Some p) (prefixEnd p) = true in
  (within (EncodeKey ns key' ts) (KeyPrefix ns key) ↔ key = key')
  ∧ (within (WriteKey ns key' ts) (WritePrefix ns key) ↔ key = key')
  ∧ (within (ReadMarkKey ns key' ts) (ReadMarkPrefix ns key) ↔ key = key')
  ∧ ¬ within (WriteKey ns key' ts) (KeyPrefix ns key)
  ∧ ¬ within (ReadMarkKey ns key' ts) (KeyPrefix ns key)
  ∧ ¬ within (LockKey ns key') (KeyPrefix ns key)
  ∧ ¬ within (EncodeKey ns key' ts) (WritePrefix ns key).
Proof.
  intros Hk Hk'. cbv zeta. rewrite EncodeKey_meta, KeyPrefix_meta.
  unfold WriteKey, ReadMarkKey, LockKey, WritePrefix, ReadMarkPrefix. rewrite !appendInvertedTS_app.
  rewrite <- (app_nil_r (metaKey ns lockPrefix key')), !prefix_record by done.
  split_and!; first [by intros [? _] | split; [by intros [_ ?]|by intros ->]].
Qed.

(** ** Timestamps of records *)

Lemma takeMetaKey_kind ns kind kind' key rest :
  key_ok key → kind ≠ kind' → takeMetaKey ns kind (metaKey ns kind' key ++ rest) = None.
Proof.
  intros Hk Hne. destruct (takeMetaKey ns kind _) as [[k r]|] eqn:E; [|done].
  apply takeMetaKey_spec in E as [Hk' E]. rewrite !metaKey_body in E by done.
  apply app_inv_head in E. apply (f_equal head) in E. cbn in E. by simplify_eq.
Qed.

Lemma decodeStamped_kind ns kind kind' key rest :
  key_ok key → kind ≠ kind' → decodeStamped ns kind (metaKey ns kind' key ++ rest) = None.
Proof. intros. unfold decodeStamped. by rewrite takeMetaKey_kind. Qed.

(** [TimestampOf] reads the timestamp of the three kinds that carry one in
    their key, and reports none for locks and transaction records. *)
Theorem TimestampOf_kinds ns key ts :
  key_ok key → ts_ok ts →
  TimestampOf ns (EncodeKey ns key ts) = Some ts
  ∧ TimestampOf ns (WriteKey ns key ts) = Some ts
  ∧ TimestampOf ns (ReadMarkKey ns key ts) = Some ts
  ∧ TimestampOf ns (LockKey ns key) = None
  ∧ TimestampOf ns (TxnKey ns key ts) = None.
Proof.
  intros Hk Ht. unfold TimestampOf.
  assert (Hs : ∀ kind, decodeStamped ns kind (metaKey ns kind key ++ encodeTS ts) = Some (key, ts)).
  { intros kind. apply decodeStamped_iff. by rewrite appendInvertedTS_app. }
  rewrite !DecodeKey_stamped, EncodeKey_meta. unfold WriteKey, ReadMarkKey, LockKey, TxnKey.
  rewrite !appendInvertedTS_app, <- (app_nil_r (metaKey ns lockPrefix key)).
  change DecodeWriteKey with (λ ns, decodeStamped ns writePrefix).
  change DecodeReadMarkKey with (λ ns, decodeStamped ns readPrefix). cbv beta.
  split_and!; rewrite ?Hs; [done|..]; rewrite !decodeStamped_kind by done; by rewrite ?Hs.
Qed.

(** ** The theorems at work *)

Definition ns0 : bytes := [Byte.x01].
Definition k0 : bytes := [Byte.x61].
(** A user key that contains another key's whole encoding. *)
Definition k1 : bytes := [Byte.x61; Byte.x64; Byte.x00; Byte.xff].
Definition ts5 : Timestamp := MkTimestamp 5 1.
Definition ts9 : Timestamp := MkTimestamp 9 0.

Lemma ts5_ok : wall_ok ts5.
Proof. by vm_compute. Qed.
Lemma ts9_ok : wall_ok ts9.
Proof. by vm_compute. Qed.

Lemma newest_first_witness : bytes_ltb (EncodeKey ns0 k0 ts9) (EncodeKey ns0 k0 ts5) = true.
Proof. apply (newest_first ns0 k0 ts9 ts5 ts9_ok ts5_ok). Defined.

Lemma key_ranges_exact_witness :
  InRange (EncodeKey ns0 k1 ts5) (Some (KeyPrefix ns0 k0)) (prefixEnd (KeyPrefix ns0 k0)) = false.
Proof.
  apply not_true_iff_false. destruct (key_ranges_exact ns0 k0 k1 ts5) as [H _]; [by vm_compute..|].
  intros Hr. apply H in Hr. discriminate Hr.
Defined.

Lemma TimestampOf_kinds_witness : TimestampOf ns0 (WriteKey ns0 k1 ts9) = Some ts9.
Proof. apply (TimestampOf_kinds ns0 k1 ts9); by vm_compute. Defined.
