(* ===== verification/EngineIface.v ===== *)
(** * What the storage engine promises (engine/engine.go)

    The part of [engine.Engine] and [engine.Iterator] the MVCC layer reads
    through, as a class of operations with the laws the callers rely on, and the
    reference engine as an instance.  An iterator's use is one of two shapes:
    [First] followed by [Next] until it is exhausted, and a single [SeekGE]; each
    is one operation here, returning what the iterator visited together with its
    [Error].  Every caller closes its iterator before it returns, which
    [iter_open_close] shows leaves the engine as it was. *)

From Stdlib Require Import Lia ZArith.
From stdpp Require Import base tactics numbers option gmap list.
From S2P Require Import Prelude Bytes Engine.

Class EngineReads (E : Type) := {
  eng_get : bytes → E → result EngineError bytes;
  (** [NewIter] with these bounds, then [First] and [Next] to the end. *)
  eng_scan : option bytes → option bytes → E → list entry * option EngineError;
  (** [NewIter] with these bounds, then [SeekGE]: the pair it lands on. *)
  eng_seek : option bytes → option bytes → bytes → E → option entry * option EngineError;
}.

Class EngineLaws (E : Type) `{EngineReads E} := {
  eng_wf : E → Prop;
  contents : E → gmap bytes bytes;
  eng_get_law e k :
    eng_wf e →
    eng_get k e = match contents e !! k with Some v => Ok v | None => Err ErrNotFound end;
  eng_scan_law e lo hi :
    eng_wf e →
    ∃ es, eng_scan lo hi e = (es, None) ∧ sorted_entries es
      ∧ ∀ k v, (k, v) ∈ es ↔ contents e !! k = Some v ∧ InRange k lo hi = true;
  eng_seek_law e lo hi k :
    eng_wf e →
    eng_seek lo hi k e = (head (filter (λ x, bytes_le k (fst x)) (fst (eng_scan lo hi e))), None);
}.

(** ** The reference engine *)

Definition db_scan (lo hi : option bytes) (d : DB) : list entry * option EngineError :=
  (scan (fst (NewIter lo hi d)), None).

Definition db_seek (lo hi : option bytes) (k : bytes) (d : DB) : option entry * option EngineError :=
  (current (snd (SeekGE k (fst (NewIter lo hi d)))), None).

#[global] Instance DB_reads : EngineReads DB :=
  {| eng_get := Get; eng_scan := db_scan; eng_seek := db_seek |}.

(** Opening an iterator and closing it leaves the engine unchanged, and the
    answer of the calls in between does not depend on the handle count. *)
Lemma iter_open_close lo hi d it :
  it_close it = true → snd (iter_Close it (snd (NewIter lo hi d))) = d.
Proof.
  intros Hc. unfold iter_Close. rewrite Hc. destruct d. unfold NewIter. cbn. unfold update_field. cbn.
  unfold upd_d_openIters. cbn. f_equal. lia.
Qed.

Lemma elem_of_sorted_filter es k v lo hi :
  sorted_entries es →
  (k, v) ∈ filter (λ x, InRange (fst x) lo hi = true) es
  ↔ emap es !! k = Some v ∧ InRange k lo hi = true.
Proof. intros Hs. rewrite list_elem_of_filter, emap_lookup by done. cbn. tauto. Qed.

(** The greater of a lower bound and a seek key. *)
Definition seekFrom (lo : option bytes) (k : bytes) : bytes :=
  match lo with Some l => if bytes_ltb k l then l else k | None => k end.

Lemma InRange_seekFrom x lo hi k :
  InRange x (Some (seekFrom lo k)) hi = true ↔ bytes_le k x ∧ InRange x lo hi = true.
Proof.
  unfold InRange. rewrite !andb_true_iff, negb_true_iff, <- not_true_iff_false.
  change (bytes_ltb x (seekFrom lo k) = true) with (bytes_lt x (seekFrom lo k)).
  rewrite <- bytes_le_not_lt. unfold seekFrom. destruct lo as [l|]; [|tauto].
  rewrite negb_true_iff, <- not_true_iff_false. change (bytes_ltb x l = true) with (bytes_lt x l).
  rewrite <- bytes_le_not_lt. destruct (bytes_ltb k l) eqn:E.
  - split; [|tauto]. intros [H1 H2]. split_and!; [|done|done].
    apply bytes_le_lteq. left. by eapply bytes_lt_le_trans.
  - apply not_true_iff_false, bytes_le_not_lt in E. split; [|tauto]. intros [H1 H2].
    split_and!; [done| |done]. by eapply bytes_le_trans.
Qed.

Lemma head_take_drop {A} (xs : list A) i j : (i < j)%nat → head (take (j - i) (drop i xs)) = xs !! i.
Proof.
  intros Hij. destruct (drop i xs) as [|x r] eqn:Ed.
  - rewrite take_nil. cbn. symmetry. apply lookup_ge_None. apply (f_equal length) in Ed.
    rewrite length_drop in Ed. cbn in Ed. lia.
  - destruct (j - i)%nat eqn:E; [lia|]. cbn. rewrite <- (Nat.add_0_r i), <- lookup_drop, Ed. done.
Qed.

Lemma seek_filter lo hi k es :
  sorted_entries es →
  current (snd (SeekGE k (MkIter es lo hi (-1) false true)))
  = head (filter (λ x, InRange (fst x) (Some (seekFrom lo k)) hi = true) es).
Proof.
  intros Hs. rewrite range_slice by done. unfold SeekGE, settle, bounds. cbn [it_v it_lo it_hi].
  cbv zeta. fold (seekFrom lo k). change (boundLo es (Some (seekFrom lo k))) with (lowerBound es (seekFrom lo k)).
  set (i := lowerBound es (seekFrom lo k)). set (h := boundHi es hi). set (l := boundLo es lo).
  assert (Hli : (l ≤ i)%nat).
  { unfold l, i, seekFrom. destruct lo as [lo|]; [cbn|cbn; lia]. destruct (bytes_ltb k lo) eqn:E; [lia|].
    apply not_true_iff_false, bytes_le_not_lt in E.
    destruct (lowerBound_spec es lo Hs) as (L1 & L2 & L3), (lowerBound_spec es k Hs) as (K1 & K2 & K3).
    destruct (decide (lowerBound es lo ≤ lowerBound es k)%nat) as [|Hn]; [done|].
    destruct (lookup_lt_is_Some_2 es (lowerBound es k)) as [x Hx]; [lia|].
    eapply (Forall_lookup_1 _ _ (lowerBound es k)) in L2; [|rewrite lookup_take_lt by lia; exact Hx].
    eapply (Forall_lookup_1 _ _ 0) in K3; [|by rewrite lookup_drop, Nat.add_0_r].
    exfalso. apply (bytes_lt_irrefl k). eapply bytes_le_lt_trans; [exact K3|].
    by eapply bytes_lt_le_trans. }
  replace (if (i <? l)%nat then l else i) with i by (destruct (Nat.ltb_spec i l); lia).
  unfold current. cbn [it_valid it_pos it_v snd]. rewrite Nat2Z.id.
  destruct (Nat.ltb_spec h l) as [Hhl|Hhl].
  - replace (h - i)%nat with 0%nat by lia. cbn. case_test; [lia|done].
  - destruct (decide (i < h)%nat) as [Hlt|Hge].
    + rewrite head_take_drop by done. case_test; [done|].
      apply andb_false_iff in E as [E|E]; bool_hyps; lia.
    + replace (h - i)%nat with 0%nat by lia. cbn. case_test; [lia|done].
Qed.

#[global] Program Instance DB_laws : EngineLaws DB := {|
  eng_wf := λ d, sorted_entries (v_entries (visible d)) ∧ d_closed d = false;
  contents := λ d, emap (v_entries (visible d));
|}.
Next Obligation. intros d k [Hs _]. cbn. unfold Get. by rewrite version_get_spec. Qed.
Next Obligation.
  intros d lo hi [Hs _]. cbn -[scan] in *. unfold db_scan, NewIter. cbn [fst].
  rewrite scan_filter by done. cbn [it_v it_lo it_hi newIter].
  eexists. split; [reflexivity|]. split; [by apply sorted_filter|]. intros k v. by apply elem_of_sorted_filter.
Qed.
Next Obligation.
  intros d lo hi k [Hs _]. cbn -[scan SeekGE] in *. unfold db_scan, db_seek, NewIter, newIter. cbn [fst].
  rewrite seek_filter, scan_filter by done. cbn [it_v it_lo it_hi]. f_equal.
  rewrite list_filter_filter. f_equal. apply list_filter_iff. intros x. by rewrite InRange_seekFrom.
Qed.

(** Any engine reached by applying, advancing and crashing is well formed until
    it is closed. *)
Lemma db_reach_wf H d : db_reach H d → d_closed d = false → eng_wf d ∧ contents d = state_after H.
Proof.
  intros (w & Hok & _)%db_reach_ok Hc. destruct (visible_ok _ _ _ Hok) as [_ Hs Hm].
  split; [done|]. cbn. rewrite Hm. by rewrite take_ge.
Qed.

(** ** Writing *)

(** Applying a batch: what the store above does when it flushes. *)
Class EngineWrites (E : Type) `{EngineLaws E} := {
  eng_apply : Batch → E → E;
  eng_apply_law e b :
    eng_wf e → Forall (λ o, known_op o = true) b →
    eng_wf (eng_apply b e) ∧ contents (eng_apply b e) = foldl spec_op (contents e) b;
}.

Definition db_apply_batch (b : Batch) (d : DB) : DB :=
  match Apply (Some b) false d with Some (_, d) => d | None => d end.

#[global] Program Instance DB_writes : EngineWrites DB := {| eng_apply := db_apply_batch |}.
Next Obligation.
  intros d b [Hs Hc] Hk. cbn -[Apply visible]. unfold db_apply_batch, Apply. rewrite Hc.
  destruct b as [|o b].
  - cbn -[visible]. unfold visible at 1 3. cbn. rewrite last_snoc. cbn. done.
  - set (d1 := d <| d_seq := add64 (d_seq d) 1 |>). assert (Hv : visible d1 = visible d) by done.
    assert (Hc1 : d_closed d1 = false) by done. clearbody d1. cbv zeta. rewrite Hv.
    destruct (applyTo_spec (visible d) (o :: b) (d_seq d1) Hs Hk) as (v & Ha & _ & Hsv & Hm).
    rewrite Ha. cbn [mbind option_bind].
    assert (Hv1 : visible (d1 <| d_pending := d_pending d1 ++ [v] |>) = v).
    { unfold visible. cbn. by rewrite last_snoc. }
    rewrite Hv1. done.
Qed.
