(* ===== verification/KvStore.v ===== *)
(** * The MVCC store (kv/store.go)

    Versions keyed by timestamp over an engine, reads at a timestamp, and a
    garbage-collection mark below which reads are refused.  The engine is any
    instance of [EngineReads]; a store's own state is its namespace, its mark and
    its counters.  Writes are staged into a batch, which the caller applies. *)

From Stdlib Require Import Lia ZArith.
From stdpp Require Import base tactics numbers option gmap list.
From S2P Require Import Prelude Bytes Hlc Engine KvEncoding EngineIface.

(** A prewritten intent (kv/txn.go). *)
Record Lock := MkLock { l_Primary : bytes; l_StartTS : Timestamp; l_Deadline : Timestamp }.

Inductive KvError :=
| ErrUnsetTimestamp
| ErrBelowGCMark (at_ mark : Timestamp)
| ErrVersionOrder (at_ got : Timestamp)
| ErrEngine (e : EngineError)
| ErrNoEngine
| ErrWriteConflict (key : bytes) (other start : Timestamp)
| ErrKeyIsLocked (key : bytes) (holder : Timestamp)
| ErrTxnAlreadyDecided (primary : bytes)
| ErrCommitBeforeStart (commit start : Timestamp)
| ErrNoCommitTS
| ErrMissingVersion (key : bytes) (commit start : Timestamp)
| UncertaintyError (key : bytes) (readTS commitTS : Timestamp)
| LockedError (key : bytes) (lock : Lock).

Record Store := MkStore {
  s_ns : bytes;
  s_gcMark : Timestamp;
  s_foreignLocksKept : Z;
  s_reads : Z;
  s_readsRefused : Z;
  s_prewrites : Z;
  s_commits : Z;
  s_rollbacks : Z;
  s_readsBlocked : Z;
  s_uncertaintyRestarts : Z;
  s_rollForwards : Z;
  s_rollBacks : Z;
  s_versionsWrote : Z;
  s_versionsGCd : Z;
  s_readMarks : Z;
  s_readConflicts : Z;
}.

#[global] Instance Store_eta : Eta Store := λ s,
  MkStore (s_ns s) (s_gcMark s) (s_foreignLocksKept s) (s_reads s) (s_readsRefused s) (s_prewrites s)
    (s_commits s) (s_rollbacks s) (s_readsBlocked s) (s_uncertaintyRestarts s) (s_rollForwards s)
    (s_rollBacks s) (s_versionsWrote s) (s_versionsGCd s) (s_readMarks s) (s_readConflicts s).
#[global] Instance upd_s_gcMark : Field s_gcMark := ltac:(derive_field).
#[global] Instance upd_s_foreignLocksKept : Field s_foreignLocksKept := ltac:(derive_field).
#[global] Instance upd_s_reads : Field s_reads := ltac:(derive_field).
#[global] Instance upd_s_readsRefused : Field s_readsRefused := ltac:(derive_field).
#[global] Instance upd_s_prewrites : Field s_prewrites := ltac:(derive_field).
#[global] Instance upd_s_commits : Field s_commits := ltac:(derive_field).
#[global] Instance upd_s_rollbacks : Field s_rollbacks := ltac:(derive_field).
#[global] Instance upd_s_readsBlocked : Field s_readsBlocked := ltac:(derive_field).
#[global] Instance upd_s_uncertaintyRestarts : Field s_uncertaintyRestarts := ltac:(derive_field).
#[global] Instance upd_s_rollForwards : Field s_rollForwards := ltac:(derive_field).
#[global] Instance upd_s_rollBacks : Field s_rollBacks := ltac:(derive_field).
#[global] Instance upd_s_versionsWrote : Field s_versionsWrote := ltac:(derive_field).
#[global] Instance upd_s_versionsGCd : Field s_versionsGCd := ltac:(derive_field).
#[global] Instance upd_s_readMarks : Field s_readMarks := ltac:(derive_field).
#[global] Instance upd_s_readConflicts : Field s_readConflicts := ltac:(derive_field).

(** [db] says whether an engine was supplied. *)
Definition NewStore (db : bool) (ns : bytes) : result KvError Store :=
  if db then Ok (MkStore ns zeroTimestamp 0 0 0 0 0 0 0 0 0 0 0 0 0 0) else Err ErrNoEngine.

(** The idiom [return x, it.Error()]. *)
Definition orError {A} (err : option EngineError) (a : A) : result KvError A :=
  match err with Some e => Err (ErrEngine e) | None => Ok a end.

Definition PutInto (key : bytes) (ts : Timestamp) (value : bytes) (b : Batch) (s : Store)
    : result KvError () * Batch * Store :=
  if negb (Timestamp_IsSet ts) then (Err ErrUnsetTimestamp, b, s)
  else if LessEq ts (s_gcMark s) then (Err (ErrBelowGCMark ts (s_gcMark s)), b, s)
  else (Ok (), Batch_Set (EncodeKey (s_ns s) key ts) value b,
        s <| s_versionsWrote := s_versionsWrote s + 1 |>).

Definition GCMark (s : Store) : Timestamp := s_gcMark s.
Definition SetGCMark (ts : Timestamp) (s : Store) : Store := s <| s_gcMark := ts |>.

Record Version := MkKvVersion { v_Key : bytes; v_At : Timestamp; v_Value : bytes }.
Record KvRecord := MkRecord { rec_Key : bytes; rec_Value : bytes }.

Definition owns (engineKey : bytes) (s : Store) : bool :=
  if (length engineKey <=? length (s_ns s))%nat
     || negb (bytes_eqb (take (length (s_ns s)) engineKey) (s_ns s)) then false
  else match engineKey !! length (s_ns s) with
       | Some k => existsb (λ p, bool_decide (k = p))
                     [dataPrefix; lockPrefix; writePrefix; txnPrefix; readPrefix]
       | None => false
       end.

Definition UserKeyOf (engineKey : bytes) (s : Store) : option bytes :=
  if negb (owns engineKey s) then None
  else kind ← engineKey !! length (s_ns s); fst <$> takeMetaKey (s_ns s) kind engineKey.

Definition IngestInto (vs : list Version) (mark : Timestamp) (b : Batch) (s : Store) : Batch * Store :=
  let lo := s_ns s ++ [dataPrefix] in
  let b := Batch_DeleteRange (Some lo) (prefixEnd lo) b in
  let b := foldl (λ b v, Batch_Set (EncodeKey (s_ns s) (v_Key v) (v_At v)) (v_Value v) b) b vs in
  (b, s <| s_gcMark := mark |>).

Definition IngestRecordsInto (rs : list KvRecord) (mark : Timestamp) (b : Batch) (s : Store)
    : Batch * Store :=
  let b := foldl (λ b kind, let lo := s_ns s ++ [kind] in Batch_DeleteRange (Some lo) (prefixEnd lo) b)
             b [dataPrefix; lockPrefix; writePrefix; txnPrefix; readPrefix] in
  let b := foldl (λ b r, Batch_Set (rec_Key r) (rec_Value r) b) b rs in
  (b, s <| s_gcMark := mark |>).

(** ** Operations that read the engine *)

Section Reads.
Context {E : Type} `{EngineReads E}.

Definition ReadAt (db : E) (key : bytes) (ts : Timestamp) (s : Store)
    : result KvError (option bytes) * Store :=
  if negb (Timestamp_IsSet ts) then (Err ErrUnsetTimestamp, s)
  else
    let s := s <| s_reads := s_reads s + 1 |> in
    if LessEq ts (s_gcMark s) then
      (Err (ErrBelowGCMark ts (s_gcMark s)), s <| s_readsRefused := s_readsRefused s + 1 |>)
    else
      let prefix := KeyPrefix (s_ns s) key in
      let '(cur, err) := eng_seek (Some prefix) (prefixEnd prefix) (EncodeKey (s_ns s) key ts) db in
      match cur with
      | None => (orError err None, s)
      | Some (k, v) =>
          match DecodeKey (s_ns s) k with
          | None => (orError err None, s)
          | Some (gotKey, gotTS) =>
              if negb (bytes_eqb gotKey key) then (orError err None, s)
              else if Less ts gotTS then (Err (ErrVersionOrder ts gotTS), s)
              else (orError err (Some v), s)
          end
      end.

Definition ReadLatest (db : E) (key : bytes) (s : Store) : result KvError (option bytes) * Store :=
  let s := s <| s_reads := s_reads s + 1 |> in
  let prefix := KeyPrefix (s_ns s) key in
  let '(cur, err) := eng_seek (Some prefix) (prefixEnd prefix) prefix db in
  match cur with
  | None => (orError err None, s)
  | Some (k, v) =>
      match DecodeKey (s_ns s) k with
      | None => (orError err None, s)
      | Some (gotKey, _) =>
          if negb (bytes_eqb gotKey key) then (orError err None, s) else (orError err (Some v), s)
      end
  end.

(** The state of the collection loop: the key it is in, whether that key's
    newest old version has been seen, the batch and how many it deleted. *)
Record gcState := MkGc { gc_cur : bytes; gc_kept : bool; gc_batch : Batch; gc_removed : Z }.

Definition gcStep (ns : bytes) (to : Timestamp) (g : gcState) (x : entry) : gcState :=
  match DecodeKey ns (fst x) with
  | None => g
  | Some (key, ts) =>
      let g := if negb (bytes_eqb key (gc_cur g))
               then MkGc key false (gc_batch g) (gc_removed g) else g in
      if LessEq to ts then g
      else if negb (gc_kept g) then MkGc (gc_cur g) true (gc_batch g) (gc_removed g)
      else MkGc (gc_cur g) true (Batch_Delete (fst x) (gc_batch g)) (gc_removed g + 1)
  end.

Definition AdvanceGCInto (db : E) (to : Timestamp) (b : Batch) (s : Store)
    : result KvError Z * Batch * Store :=
  if negb (Timestamp_IsSet to) then (Err ErrUnsetTimestamp, b, s)
  else if LessEq to (s_gcMark s) then (Ok 0, b, s)
  else
    let lo := s_ns s ++ [dataPrefix] in
    let '(es, err) := eng_scan (Some lo) (prefixEnd lo) db in
    let g := foldl (gcStep (s_ns s) to) (MkGc [] false b 0) es in
    match err with
    | Some e => (Err (ErrEngine e), gc_batch g, s)
    | None => (Ok (gc_removed g), gc_batch g,
               s <| s_gcMark := to |> <| s_versionsGCd := s_versionsGCd s + gc_removed g |>)
    end.

Definition Versions (db : E) (s : Store) : result KvError (list Version) :=
  let lo := s_ns s ++ [dataPrefix] in
  let '(es, err) := eng_scan (Some lo) (prefixEnd lo) db in
  orError err (omap (λ x, match DecodeKey (s_ns s) (fst x) with
                          | Some (key, ts) => Some (MkKvVersion key ts (snd x))
                          | None => None
                          end) es).

Definition Keys (db : E) (s : Store) : result KvError (list bytes) :=
  match Versions db s with
  | Err e => Err e
  | Ok vs =>
      Ok (foldl (λ out v, match last out with
                          | Some k => if bytes_eqb k (v_Key v) then out else out ++ [v_Key v]
                          | None => out ++ [v_Key v]
                          end) [] vs)
  end.

Definition Records (db : E) (s : Store) : result KvError (list KvRecord) :=
  let '(es, err) := eng_scan (Some (s_ns s)) (prefixEnd (s_ns s)) db in
  orError err ((λ x, MkRecord (fst x) (snd x)) <$> filter (λ x, owns (fst x) s = true) es).
End Reads.

(** ** Chains: the records of one key and one kind, newest first *)

(** Every record of a kind under the namespace is the encoding of a user key and
    a timestamp. *)
Definition chain_ok (ns : bytes) (kind : byte) (m : gmap bytes bytes) : Prop :=
  ∀ b v, m !! b = Some v → (ns ++ [kind]) `prefix_of` b →
    ∃ key ts, key_ok key ∧ wall_ok ts ∧ b = appendInvertedTS (metaKey ns kind key) ts.

Definition stamped (ns : bytes) (kind : byte) (key : bytes) (ts : Timestamp) : bytes :=
  appendInvertedTS (metaKey ns kind key) ts.

Lemma stamped_inj ns kind key key' t t' :
  key_ok key → key_ok key' → ts_ok t → ts_ok t' →
  stamped ns kind key t = stamped ns kind key' t' → key = key' ∧ t = t'.
Proof.
  intros Hk Hk' Ht Ht' He.
  assert (H1 : decodeStamped ns kind (stamped ns kind key t) = Some (key, t)) by by apply decodeStamped_iff.
  assert (H2 : decodeStamped ns kind (stamped ns kind key' t') = Some (key', t')) by by apply decodeStamped_iff.
  rewrite He, H2 in H1. by injection H1 as -> ->.
Qed.

Lemma metaKey_kind_prefix ns kind key rest : (ns ++ [kind]) `prefix_of` metaKey ns kind key ++ rest.
Proof. unfold metaKey. exists (be_put lenBytes (u32 (Z.of_nat (length key))) ++ key ++ rest). by rewrite <- !app_assoc. Qed.

Lemma stamped_le ns kind key t u :
  wall_ok t → wall_ok u → bytes_le (stamped ns kind key t) (stamped ns kind key u) ↔ ts_le u t.
Proof.
  intros Ht Hu. unfold bytes_le, stamped. rewrite bytes_leb_ngt, (stamped_ltb _ u t) by done.
  rewrite <- LessEq_spec. done.
Qed.

Lemma stamped_lt ns kind key t u :
  wall_ok t → wall_ok u → bytes_lt (stamped ns kind key t) (stamped ns kind key u) ↔ ts_lt u t.
Proof. intros Ht Hu. unfold bytes_lt, stamped. by rewrite (stamped_ltb _ t u), Less_spec. Qed.

(** The first entry of a sorted list that passes a test. *)
Lemma head_filter_sorted (P : entry → Prop) `{∀ x, Decision (P x)} es :
  sorted_entries es →
  match head (filter P es) with
  | Some x => x ∈ es ∧ P x ∧ ∀ y, y ∈ es → P y → x = y ∨ bytes_lt (fst x) (fst y)
  | None => ∀ y, y ∈ es → ¬ P y
  end.
Proof.
  intros Hs. apply (sorted_filter P) in Hs as Hf.
  destruct (filter P es) as [|x xs] eqn:Ef; cbn.
  - intros y Hy Hp. assert (Hin : y ∈ filter P es) by by apply list_elem_of_filter.
    rewrite Ef in Hin. by apply elem_of_nil in Hin.
  - assert (Hin : x ∈ filter P es) by (rewrite Ef; left). apply list_elem_of_filter in Hin as [Hp Hin].
    split; [done|]. split; [done|]. intros y Hy HPy.
    assert (Hyf : y ∈ filter P es) by by apply list_elem_of_filter.
    rewrite Ef in Hyf. apply elem_of_cons in Hyf as [->|Hyf]; [by left|right].
    apply sorted_cons in Hf as [Hall _]. by eapply Forall_forall in Hall.
Qed.

Section Chains.
Context {E : Type} `{EngineLaws E}.

(** The entries a scan of one key's chain visits. *)
Lemma chain_scan ns kind key db :
  eng_wf db → chain_ok ns kind (contents db) → key_ok key →
  let p := metaKey ns kind key in
  ∃ es, eng_scan (Some p) (prefixEnd p) db = (es, None) ∧ sorted_entries es
    ∧ (∀ x, x ∈ es → ∃ t, wall_ok t ∧ fst x = stamped ns kind key t)
    ∧ (∀ t v, (stamped ns kind key t, v) ∈ es ↔ contents db !! stamped ns kind key t = Some v).
Proof.
  intros Hwf Hc Hk p. destruct (eng_scan_law db (Some p) (prefixEnd p) Hwf) as (es & He & Hs & Hin).
  exists es. split_and!; [done|done| |].
  - intros [b v] Hx. apply Hin in Hx as [Hm Hr]. apply prefixEnd_in in Hr. unfold p in Hr.
    destruct (Hc b v Hm) as (key' & t & Hk' & Ht & ->).
    { etrans; [|exact Hr]. rewrite <- (app_nil_r (metaKey ns kind key)). apply metaKey_kind_prefix. }
    exists t. split; [done|]. cbn [fst]. unfold stamped. rewrite appendInvertedTS_app in Hr.
    apply metaKey_prefix in Hr as [_ ->]; done.
  - intros t v. rewrite Hin. split; [by intros [? _]|]. intros Hm. split; [done|].
    apply prefixEnd_in. unfold stamped, p. rewrite appendInvertedTS_app. by exists (encodeTS t).
Qed.

(** The record of a chain that is newest at or before [ts]. *)
Definition newest_at (ns : bytes) (kind : byte) (key : bytes) (ts : Timestamp) (m : gmap bytes bytes)
    (r : option (Timestamp * bytes)) : Prop :=
  match r with
  | Some (t, v) =>
      wall_ok t ∧ ts_le t ts ∧ m !! stamped ns kind key t = Some v
      ∧ ∀ t', wall_ok t' → ts_le t' ts → is_Some (m !! stamped ns kind key t') → ts_le t' t
  | None => ∀ t', wall_ok t' → ts_le t' ts → m !! stamped ns kind key t' = None
  end.

Lemma newest_at_fun ns kind key ts m r r' :
  newest_at ns kind key ts m r → newest_at ns kind key ts m r' → r = r'.
Proof.
  destruct r as [[t v]|], r' as [[t' v']|]; cbn; try done.
  - intros (W & L & M & N) (W' & L' & M' & N').
    assert (t = t') as <-.
    { specialize (N t' W' L' ltac:(eauto)). specialize (N' t W L ltac:(eauto)).
      destruct N as [N|N], N' as [N'|N']; try congruence.
      exfalso. apply (irreflexivity ts_lt t). by etrans. }
    congruence.
  - intros (W & L & M & N) N'. rewrite (N' t W L) in M. done.
  - intros N (W & L & M & _). rewrite (N t' W L) in M. done.
Qed.

(** A seek to the encoding of [(key, ts)] lands on that record. *)
Lemma chain_seek ns kind key ts db :
  eng_wf db → chain_ok ns kind (contents db) → key_ok key → wall_ok ts →
  let p := metaKey ns kind key in
  ∃ r, newest_at ns kind key ts (contents db) r
    ∧ eng_seek (Some p) (prefixEnd p) (stamped ns kind key ts) db
      = ((λ '(t, v), (stamped ns kind key t, v)) <$> r, None).
Proof.
  intros Hwf Hc Hk Hts p. rewrite eng_seek_law by done.
  destruct (chain_scan ns kind key db Hwf Hc Hk) as (es & He & Hs & Hkey & Hin).
  unfold p. rewrite He. cbn [fst].
  pose proof (head_filter_sorted (λ x, bytes_le (stamped ns kind key ts) (fst x)) es Hs) as Hh.
  destruct (head _) as [[b v]|].
  - destruct Hh as (Hx & Hle & Hmin). destruct (Hkey _ Hx) as (t & Ht & Hb). cbn [fst] in *. subst b.
    exists (Some (t, v)). split; [|done]. apply stamped_le in Hle; [|done|done].
    apply Hin in Hx. split_and!; [done|done|done|]. intros t' Ht' Hle' [v' Hv'].
    apply Hin in Hv'. specialize (Hmin (stamped ns kind key t', v') Hv'). cbn [fst] in Hmin.
    destruct Hmin as [Heq|Hlt]; [by apply stamped_le| |left; by eapply stamped_lt].
    right. injection Heq as Heq _. apply stamped_inj in Heq as [_ ->]; try done; [apply Ht|apply Ht'].
  - exists None. split; [|done]. intros t' Ht' Hle'.
    destruct (contents db !! stamped ns kind key t') as [v'|] eqn:Em; [|done].
    apply Hin in Em. destruct (Hh _ Em). cbn [fst]. by apply stamped_le.
Qed.
End Chains.

(** ** Reads *)

Lemma DecodeKey_EncodeKey ns key t : key_ok key → ts_ok t → DecodeKey ns (EncodeKey ns key t) = Some (key, t).
Proof. intros. by apply DecodeKey_some. Qed.

(** The greatest timestamp of the two widths. *)
Definition maxTS : Timestamp := MkTimestamp (2 ^ 63 - 1) maxLogical.

Lemma ts_le_max t : ts_ok t → ts_le t maxTS.
Proof.
  intros [Hw Hl]. destruct t as [w l]. unfold is_i64, is_u32 in *. cbn in *.
  destruct (decide (w = 2 ^ 63 - 1)) as [->|]; [|left; left; cbn; lia].
  destruct (decide (l = maxLogical)) as [->|]; [by right|]. left. right. cbn. unfold maxLogical in *. lia.
Qed.

Section ReadSpecs.
Context {E : Type} `{EngineLaws E}.

(** A read at a timestamp, on every branch: the zero timestamp is refused, a
    timestamp at or below the mark is refused with the mark, and any other read
    returns exactly the newest version of the key at or before it, or nothing
    when there is none; the internal ordering check never fires. *)
Theorem ReadAt_spec db key ts s :
  eng_wf db → chain_ok (s_ns s) dataPrefix (contents db) → key_ok key → wall_ok ts →
  ∃ r, newest_at (s_ns s) dataPrefix key ts (contents db) r
    ∧ fst (ReadAt db key ts s)
      = if negb (Timestamp_IsSet ts) then Err ErrUnsetTimestamp
        else if LessEq ts (s_gcMark s) then Err (ErrBelowGCMark ts (s_gcMark s))
        else Ok (snd <$> r).
Proof.
  intros Hwf Hc Hk Hts. destruct (chain_seek _ _ key ts db Hwf Hc Hk Hts) as (r & Hr & Hseek).
  exists r. split; [done|]. unfold ReadAt. case_test; [done|]. cbv zeta.
  set (s1 := s <| s_reads := s_reads s + 1 |>).
  assert (Hm : s_gcMark s1 = s_gcMark s) by done. assert (Hn : s_ns s1 = s_ns s) by done.
  clearbody s1. rewrite Hm, Hn. case_test; [done|].
  rewrite KeyPrefix_meta. change (EncodeKey (s_ns s) key ts) with (stamped (s_ns s) dataPrefix key ts).
  rewrite Hseek. destruct r as [[t v]|]; [|done]. cbn [fmap option_fmap option_map].
  destruct Hr as (Ht & Hle & _ & _).
  change (stamped (s_ns s) dataPrefix key t) with (EncodeKey (s_ns s) key t).
  rewrite DecodeKey_EncodeKey by (done || apply Ht).
  unfold bytes_eqb. rewrite bool_decide_eq_true_2 by done. cbn [negb].
  apply LessEq_spec in Hle. unfold LessEq in Hle. apply negb_true_iff in Hle. by rewrite Hle.
Qed.

Lemma prefix_le p x : p `prefix_of` x → bytes_le p x.
Proof.
  intros [r ->]. unfold bytes_le, bytes_leb. rewrite <- (app_nil_r p) at 1.
  rewrite bytes_cmp_app. by destruct r.
Qed.

(** A read of the latest value needs no timestamp: it returns the version of
    the key with the greatest timestamp, whatever the mark, or nothing when the
    key has no version. *)
Theorem ReadLatest_spec db key s :
  eng_wf db → chain_ok (s_ns s) dataPrefix (contents db) → key_ok key →
  ∃ r, newest_at (s_ns s) dataPrefix key maxTS (contents db) r
    ∧ fst (ReadLatest db key s) = Ok (snd <$> r).
Proof.
  intros Hwf Hc Hk. assert (Hmax : wall_ok maxTS) by by vm_compute.
  destruct (chain_seek _ _ key maxTS db Hwf Hc Hk Hmax) as (r & Hr & Hseek).
  exists r. split; [done|]. unfold ReadLatest. cbv zeta.
  set (s1 := s <| s_reads := s_reads s + 1 |>). assert (Hn : s_ns s1 = s_ns s) by done.
  clearbody s1. rewrite Hn, KeyPrefix_meta. set (p := metaKey (s_ns s) dataPrefix key) in *.
  assert (Hsame : eng_seek (Some p) (prefixEnd p) p db
                  = eng_seek (Some p) (prefixEnd p) (stamped (s_ns s) dataPrefix key maxTS) db).
  { rewrite !eng_seek_law by done. destruct (chain_scan _ _ key db Hwf Hc Hk) as (es & He & Hs & Hkey & Hin).
    fold p in He. rewrite He. cbn [fst]. f_equal. f_equal.
    rewrite (filter_all (λ x, bytes_le p (fst x))), (filter_all (λ x, bytes_le _ (fst x))); [done|..];
      apply Forall_forall; intros x Hx; destruct (Hkey x Hx) as (t & Ht & ->).
    - apply stamped_le; [done|done|]. apply ts_le_max, Ht.
    - apply prefix_le. unfold stamped, p. rewrite appendInvertedTS_app. by exists (encodeTS t). }
  rewrite Hsame, Hseek. destruct r as [[t v]|]; [|done]. cbn [fmap option_fmap option_map].
  destruct Hr as (Ht & _).
  change (stamped (s_ns s) dataPrefix key t) with (EncodeKey (s_ns s) key t).
  rewrite DecodeKey_EncodeKey by (done || apply Ht).
  unfold bytes_eqb. by rewrite bool_decide_eq_true_2 by done.
Qed.
End ReadSpecs.

(** ** Garbage collection *)

(** The keys the collection loop deletes, in order. *)
Fixpoint gcDels (ns : bytes) (to : Timestamp) (cur : bytes) (kept : bool) (es : list entry) : list bytes :=
  match es with
  | [] => []
  | x :: es =>
      match DecodeKey ns (fst x) with
      | None => gcDels ns to cur kept es
      | Some (key, ts) =>
          let kept := if bytes_eqb key cur then kept else false in
          if LessEq to ts then gcDels ns to key kept es
          else if kept then fst x :: gcDels ns to key true es
          else gcDels ns to key true es
      end
  end.

Lemma gcStep_fold ns to es g :
  let g' := foldl (gcStep ns to) g es in
  let ds := gcDels ns to (gc_cur g) (gc_kept g) es in
  gc_batch g' = gc_batch g ++ (OpDelete <$> ds) ∧ gc_removed g' = gc_removed g + Z.of_nat (length ds).
Proof.
  revert g. induction es as [|x es IH]; intros [cur kept b n]; cbn [foldl].
  { cbn. rewrite app_nil_r. split; [done|lia]. }
  cbn [gcDels gc_cur gc_kept]. unfold gcStep at 2 4. destruct (DecodeKey ns (fst x)) as [[key ts]|]; [|apply IH].
  cbv zeta. cbn [gc_cur]. unfold bytes_eqb. case_bool_decide as Hk; cbn [negb gc_cur gc_kept gc_batch gc_removed].
  - subst cur. case_test; [apply IH|]. destruct kept; cbn [negb]; [|apply IH].
    edestruct IH as [H1 H2]. rewrite H1, H2. cbn [gc_cur gc_kept gc_batch gc_removed fmap list_fmap length].
    unfold Batch_Delete. rewrite <- app_assoc. split; [done|lia].
  - case_test; apply IH.
Qed.

(** The versions of one key are contiguous in byte order. *)
Lemma chain_convex ns kind key key' t t1 t2 b :
  key_ok key → key_ok key' →
  b = stamped ns kind key' t → bytes_lt (stamped ns kind key t1) b → bytes_lt b (stamped ns kind key t2) →
  key' = key.
Proof.
  intros Hk Hk' -> H1 H2. set (p := metaKey ns kind key).
  assert (Hr : ∀ t, InRange (stamped ns kind key t) (Some p) (prefixEnd p) = true).
  { intros u. apply prefixEnd_in. unfold stamped, p. rewrite appendInvertedTS_app. by exists (encodeTS u). }
  assert (Hin : InRange (stamped ns kind key' t) (Some p) (prefixEnd p) = true).
  { pose proof (Hr t1) as R1. pose proof (Hr t2) as R2. unfold InRange in *.
    apply andb_true_iff in R1 as [L1 _], R2 as [_ U2]. apply andb_true_iff. split.
    - apply negb_true_iff, not_true_iff_false in L1. apply negb_true_iff, not_true_iff_false.
      intros Hlt. apply L1. by eapply bytes_lt_trans.
    - destruct (prefixEnd p); [|done]. by eapply bytes_lt_trans. }
  apply prefixEnd_in in Hin. unfold stamped, p in Hin. rewrite appendInvertedTS_app in Hin.
  by apply metaKey_prefix in Hin as [_ ->].
Qed.

(** Every entry is a version. *)
Definition versions (ns : bytes) (es : list entry) : Prop :=
  ∀ x, x ∈ es → ∃ key t, key_ok key ∧ wall_ok t ∧ fst x = stamped ns dataPrefix key t.

(** [key] has a version between [t] and [to] among the entries. *)
Definition superseded (ns : bytes) (to : Timestamp) (es : list entry) (key : bytes) (t : Timestamp) : Prop :=
  ∃ t' v', wall_ok t' ∧ ts_lt t t' ∧ ts_lt t' to ∧ (stamped ns dataPrefix key t', v') ∈ es.

Lemma LessEq_false to t : LessEq to t = false ↔ ts_lt t to.
Proof. unfold LessEq. by rewrite negb_false_iff, Less_spec. Qed.

(** What the loop deletes when it has [es] left, is in key [cur], and has or has
    not kept an old version of it. *)
Definition collected (ns : bytes) (to : Timestamp) (cur : bytes) (kept : bool) (es : list entry)
    (key : bytes) (t : Timestamp) : Prop :=
  (∃ v, (stamped ns dataPrefix key t, v) ∈ es) ∧ ts_lt t to
  ∧ ((key = cur ∧ kept = true) ∨ superseded ns to es key t).

(** What having kept an old version of [cur] says about the entries left. *)
Definition behind (ns : bytes) (to : Timestamp) (cur : bytes) (es : list entry) : Prop :=
  ∃ t0, key_ok cur ∧ wall_ok t0 ∧ ts_lt t0 to
        ∧ ∀ x, x ∈ es → bytes_lt (stamped ns dataPrefix cur t0) (fst x).

Lemma behind_tail ns to cur x es : behind ns to cur (x :: es) → behind ns to cur es.
Proof. intros (t0 & H1 & H2 & H3 & H4). exists t0. split_and!; try done. intros y Hy. apply H4. by right. Qed.

Section GcHead.
Context (ns : bytes) (to : Timestamp) (v : bytes) (es : list entry) (k1 : bytes) (t1 : Timestamp).
Context (Hk1 : key_ok k1) (Ht1 : wall_ok t1).
Context (Hall : ∀ x, x ∈ es → bytes_lt (stamped ns dataPrefix k1 t1) (fst x)).

Let head_ : entry := (stamped ns dataPrefix k1 t1, v).

Lemma gc_head_elem k u w :
  key_ok k → wall_ok u → (stamped ns dataPrefix k u, w) ∈ head_ :: es →
  (k = k1 ∧ u = t1) ∨ (stamped ns dataPrefix k u, w) ∈ es.
Proof using Hk1 Ht1.
  intros Hku Hu [[= He _]|Hin]%elem_of_cons; [left|by right].
  apply stamped_inj in He as [-> ->]; try done; [apply Hu|apply Ht1].
Qed.

(** Entries of the head's key further down are older. *)
Lemma gc_head_older u w : wall_ok u → (stamped ns dataPrefix k1 u, w) ∈ es → ts_lt u t1.
Proof using Ht1 Hall. intros Hu Hin. apply Hall in Hin. cbn [fst] in Hin. by apply stamped_lt in Hin. Qed.

(** A key that was entered before the head's does not come back. *)
Lemma gc_head_gone cur u w :
  behind ns to cur (head_ :: es) → k1 ≠ cur → (stamped ns dataPrefix cur u, w) ∈ es → False.
Proof using Hk1 Hall.
  intros (t0 & Hkc & _ & _ & Hlt) Hne Hin. apply Hne.
  eapply (chain_convex ns dataPrefix cur k1 t1 t0 u (stamped ns dataPrefix k1 t1)); try done.
  - apply (Hlt head_). left.
  - apply (Hall _ Hin).
Qed.

Lemma superseded_cons k u :
  key_ok k →
  superseded ns to (head_ :: es) k u ↔ superseded ns to es k u ∨ (k = k1 ∧ ts_lt u t1 ∧ ts_lt t1 to).
Proof using Hk1 Ht1.
  intros Hk. split.
  - intros (t' & w' & H1 & H2 & H3 & H4). apply gc_head_elem in H4 as [[-> ->]|H4]; [by right| |done|done].
    left. by exists t', w'.
  - intros [(t' & w & H1 & H2 & H3 & H4)|(-> & H1 & H2)].
    + exists t', w. split_and!; try done. by right.
    + exists t1, v. split_and!; try done. left.
Qed.

Context (cur : bytes) (kept : bool) (Hkept : kept = true → behind ns to cur (head_ :: es)).
Context (key : bytes) (t : Timestamp) (Hk : key_ok key) (Ht : wall_ok t).

(** The head is at or above the target: it stays. *)
Lemma collected_live :
  ¬ ts_lt t1 to →
  collected ns to cur kept (head_ :: es) key t
  ↔ collected ns to k1 (if bytes_eqb k1 cur then kept else false) es key t.
Proof using Hk1 Ht1 Hall Hkept Hk Ht.
  intros Hto. unfold collected. rewrite superseded_cons by done. unfold bytes_eqb. split.
  - intros ([w Hw] & Hlt & Hr). apply gc_head_elem in Hw as [[-> ->]|Hw]; [done| |done|done].
    split; [eauto|]. split; [done|]. destruct Hr as [[-> Hkt]|[?|(_ & _ & ?)]]; [left|by right|done].
    case_bool_decide as He; [done|]. exfalso. by eapply gc_head_gone; [apply Hkept| |].
  - intros ([w Hw] & Hlt & Hr). split; [exists w; by right|]. split; [done|].
    destruct Hr as [[-> Hkt]|Hr]; [left; by case_bool_decide|auto].
Qed.

(** The head is old and an old version of its key was kept: it goes. *)
Lemma collected_older :
  ts_lt t1 to → k1 = cur → kept = true →
  collected ns to cur kept (head_ :: es) key t
  ↔ stamped ns dataPrefix key t = fst head_ ∨ collected ns to k1 true es key t.
Proof using Hk1 Ht1 Hk Ht.
  intros Hto Hcur Hkt. unfold collected. rewrite superseded_cons by done. cbn [fst head_]. split.
  - intros ([w Hw] & Hlt & Hr). apply gc_head_elem in Hw as [[-> ->]|Hw]; [by left| |done|done]. right.
    split; [eauto|]. split; [done|]. destruct Hr as [[-> _]|[?|(-> & _ & _)]]; auto.
  - intros [He|([w Hw] & Hlt & Hr)].
    + apply stamped_inj in He as [-> ->]; [|done|done|apply Ht|apply Ht1].
      split; [exists v; left|]. split; [done|by left].
    + split; [exists w; by right|]. split; [done|]. destruct Hr as [[-> _]|?]; [by left|auto].
Qed.

(** The head is the newest old version of its key: it stays and is the last. *)
Lemma collected_first :
  ts_lt t1 to → ¬ (k1 = cur ∧ kept = true) →
  collected ns to cur kept (head_ :: es) key t ↔ collected ns to k1 true es key t.
Proof using Hk1 Ht1 Hall Hkept Hk Ht.
  intros Hto Hno. unfold collected. rewrite superseded_cons by done. split.
  - intros ([w Hw] & Hlt & Hr). apply gc_head_elem in Hw as [[-> ->]|Hw]; [exfalso| |done|done].
    { destruct Hr as [?|[(t' & w' & H1 & H2 & H3 & H4)|(_ & H1 & _)]]; [done| |by apply (irreflexivity ts_lt t1)].
      apply (irreflexivity ts_lt t1). etrans; [exact H2|]. by eapply gc_head_older. }
    split; [eauto|]. split; [done|]. destruct Hr as [[-> Hkt]|[?|(-> & _)]]; [|by right|by left].
    destruct (decide (k1 = cur)) as [->|Hne]; [by destruct Hno|]. exfalso. by eapply gc_head_gone; [apply Hkept| |].
  - intros ([w Hw] & Hlt & Hr). split; [exists w; by right|]. split; [done|]. right.
    destruct Hr as [[-> _]|?]; [|by left]. right. split_and!; [done| |done]. by eapply gc_head_older.
Qed.
End GcHead.

Lemma gcDels_spec ns to cur kept es :
  sorted_entries es → versions ns es → (kept = true → behind ns to cur es) →
  ∀ key t, key_ok key → wall_ok t →
    stamped ns dataPrefix key t ∈ gcDels ns to cur kept es ↔ collected ns to cur kept es key t.
Proof.
  revert cur kept. induction es as [|[b v] es IH]; intros cur kept Hs Hv Hkept key t Hk Ht.
  { cbn. rewrite elem_of_nil. split; [done|]. intros [[v Hn] _]. by apply elem_of_nil in Hn. }
  apply sorted_cons in Hs as [Hall Hs]. rewrite Forall_forall in Hall.
  destruct (Hv (b, v) ltac:(left)) as (k1 & t1 & Hk1 & Ht1 & Hb). cbn [fst] in Hb, Hall. subst b.
  assert (Hv' : versions ns es) by (intros x Hx; apply Hv; by right).
  cbn [gcDels fst]. change (stamped ns dataPrefix k1 t1) with (EncodeKey ns k1 t1) at 1.
  rewrite DecodeKey_EncodeKey by (done || apply Ht1). cbv zeta.
  destruct (LessEq to t1) eqn:Eto.
  - rewrite (collected_live ns to v es k1 t1) by (done || (intros Hn%LessEq_false; congruence)).
    apply IH; try done. unfold bytes_eqb. case_bool_decide as He; [|done]. subst cur.
    intros Hkt. by eapply behind_tail, Hkept.
  - apply LessEq_false in Eto. assert (Hb1 : behind ns to k1 es) by by exists t1.
    unfold bytes_eqb. destruct (decide (k1 = cur ∧ kept = true)) as [[Hc Hkt]|Hno].
    + rewrite (collected_older ns to v es k1 t1) by done. rewrite bool_decide_eq_true_2, Hkt by done.
      cbn [fst]. by rewrite elem_of_cons, IH.
    + rewrite (collected_first ns to v es k1 t1) by done.
      replace (if bool_decide (k1 = cur) then kept else false) with false
        by (case_bool_decide; destruct kept; naive_solver). by apply IH.
Qed.

Lemma deletes_lookup ds m k :
  foldl spec_op m (OpDelete <$> ds) !! k = if bool_decide (k ∈ ds) then None else m !! k.
Proof.
  revert m. induction ds as [|d ds IH]; intros m; cbn; [done|]. rewrite IH.
  case_bool_decide as H1; case_bool_decide as H2; try done.
  - destruct H2. by right.
  - apply elem_of_cons in H2 as [->|?]; [|done]. apply lookup_delete_eq.
  - apply lookup_delete_ne. intros ->. apply H2. left.
Qed.

Section GcSpec.
Context {E : Type} `{EngineLaws E}.

(** What the loop deletes, in terms of the engine's contents. *)
Lemma gc_deletes ns to db :
  eng_wf db → chain_ok ns dataPrefix (contents db) →
  let lo := ns ++ [dataPrefix] in
  ∃ es, eng_scan (Some lo) (prefixEnd lo) db = (es, None)
    ∧ ∀ key t, key_ok key → wall_ok t →
      stamped ns dataPrefix key t ∈ gcDels ns to [] false es
      ↔ is_Some (contents db !! stamped ns dataPrefix key t) ∧ ts_lt t to
        ∧ ∃ t', wall_ok t' ∧ ts_lt t t' ∧ ts_lt t' to
                ∧ is_Some (contents db !! stamped ns dataPrefix key t').
Proof.
  intros Hwf Hc lo. destruct (eng_scan_law db (Some lo) (prefixEnd lo) Hwf) as (es & He & Hs & Hin).
  exists es. split; [done|]. intros key t Hk Ht.
  assert (Hv : versions ns es).
  { intros [b v] Hx. apply Hin in Hx as [Hm Hr]. apply prefixEnd_in in Hr.
    destruct (Hc b v Hm Hr) as (key' & t' & ? & ? & ->). by exists key', t'. }
  assert (Hmem : ∀ k u v, (stamped ns dataPrefix k u, v) ∈ es
                          ↔ contents db !! stamped ns dataPrefix k u = Some v).
  { intros k u v. rewrite Hin. split; [by intros [? _]|]. intros Hm. split; [done|].
    apply prefixEnd_in. unfold stamped. rewrite appendInvertedTS_app. apply metaKey_kind_prefix. }
  rewrite gcDels_spec by done. unfold collected, superseded, is_Some. setoid_rewrite Hmem. naive_solver.
Qed.

(** Garbage collection never changes an answer that may still be given.
    Collecting up to [to] moves the mark there, reports how many versions it
    deletes, deletes nothing but versions below [to], and leaves every read at
    [to] or above -- so every read the mark still allows -- exactly the version
    it had; and it is effective: no key is left with two versions below [to]. *)
Theorem AdvanceGCInto_spec db to b s :
  eng_wf db → chain_ok (s_ns s) dataPrefix (contents db) →
  Timestamp_IsSet to = true → ts_lt (s_gcMark s) to →
  ∃ ds s', AdvanceGCInto db to b s = (Ok (Z.of_nat (length ds)), b ++ (OpDelete <$> ds), s')
    ∧ s_gcMark s' = to
    ∧ let m := contents db in
      let m' := foldl spec_op m (OpDelete <$> ds) in
      (∀ key t, key_ok key → wall_ok t → stamped (s_ns s) dataPrefix key t ∈ ds → ts_lt t to)
      ∧ (∀ key ts r, key_ok key → ts_le to ts →
           newest_at (s_ns s) dataPrefix key ts m r → newest_at (s_ns s) dataPrefix key ts m' r)
      ∧ (∀ key t t', key_ok key → wall_ok t → wall_ok t' → ts_lt t to → ts_lt t' to →
           is_Some (m' !! stamped (s_ns s) dataPrefix key t) →
           is_Some (m' !! stamped (s_ns s) dataPrefix key t') → t = t').
Proof.
  intros Hwf Hc Hset Hmark. destruct (gc_deletes (s_ns s) to db Hwf Hc) as (es & He & Hd).
  set (ds := gcDels (s_ns s) to [] false es) in *.
  destruct (gcStep_fold (s_ns s) to es (MkGc [] false b 0)) as [Hb Hn].
  cbn [gc_cur gc_kept gc_batch gc_removed] in Hb, Hn. fold ds in Hb, Hn.
  exists ds. eexists. split_and!.
  { unfold AdvanceGCInto. rewrite Hset. cbn [negb]. apply LessEq_false in Hmark. rewrite Hmark.
    cbv zeta. rewrite He, Hb, Hn. done. }
  { done. }
  cbv zeta. split_and!.
  - intros key t Hk Ht Hin. by apply Hd in Hin as (_ & ? & _).
  - intros key ts r Hk Hle. destruct r as [[t v]|]; cbn.
    + intros (W & L & M & N). split_and!; [done|done| |].
      * rewrite deletes_lookup. case_bool_decide as Hin; [|done]. exfalso.
        apply Hd in Hin as (_ & _ & t' & W' & Hlt & Hto & Hsome); [|done|done].
        assert (Hts : ts_le t' ts) by (left; destruct Hle as [?| ->]; [by etrans|done]).
        destruct (N t' W' Hts Hsome) as [Hn'| ->]; [|by apply (irreflexivity ts_lt t)].
        apply (irreflexivity ts_lt t). by etrans.
      * intros t' W' L'. rewrite deletes_lookup. case_bool_decide; [by intros [? [=]]|]. by apply N.
    + intros N t' W' L'. rewrite deletes_lookup. case_bool_decide; [done|]. by apply N.
  - intros key t t' Hk W W' Hlt Hlt'. rewrite !deletes_lookup.
    case_bool_decide as H1; [by intros [? [=]]|]. case_bool_decide as H2; [by intros _ [? [=]]|].
    intros S1 S2. destruct (ts_trichotomy t t') as [Hc1|[->|Hc2]]; [|done|].
    + destruct H1. apply Hd; [done|done|]. split_and!; [done|done|]. by exists t'.
    + destruct H2. apply Hd; [done|done|]. split_and!; [done|done|]. by exists t.
Qed.
End GcSpec.

(** ** The whole state machine: records, snapshots and ingestion *)

Definition kinds : list byte := [dataPrefix; lockPrefix; writePrefix; txnPrefix; readPrefix].

Lemma kind_prefix_iff (ns : bytes) (kind : byte) (k : bytes) :
  (ns ++ [kind]) `prefix_of` k ↔
  (length ns < length k)%nat ∧ take (length ns) k = ns ∧ k !! length ns = Some kind.
Proof.
  split.
  - intros [r ->]. rewrite <- app_assoc, !length_app. cbn. split; [lia|].
    rewrite take_app_length. split; [done|]. by rewrite lookup_app_r, Nat.sub_diag by lia.
  - intros (Hl & Ht & Hk). exists (drop (S (length ns)) k). rewrite <- app_assoc. cbn.
    rewrite <- (take_drop (length ns) k) at 1. rewrite Ht. f_equal. by apply drop_S.
Qed.

Lemma owns_spec k s : owns k s = true ↔ ∃ kind, kind ∈ kinds ∧ (s_ns s ++ [kind]) `prefix_of` k.
Proof.
  unfold owns. setoid_rewrite kind_prefix_iff. unfold bytes_eqb.
  destruct (Nat.leb_spec (length k) (length (s_ns s))); cbn [orb].
  { split; [done|]. intros (kind & _ & Hl & _). lia. }
  case_bool_decide as Ht; cbn [negb].
  - destruct (k !! length (s_ns s)) as [c|]; [|split; [done|by intros (? & _ & _ & _ & ?)]].
    rewrite existsb_exists. setoid_rewrite bool_decide_eq_true. setoid_rewrite <- list_elem_of_In.
    split; [intros (x & Hx & ->); exists x; done|]. intros (x & Hx & _ & _ & [= ->]). by exists x.
  - split; [done|]. by intros (? & _ & _ & ? & _).
Qed.

Definition recordOf (x : entry) : KvRecord := MkRecord (fst x) (snd x).

Lemma sets_lookup es m k :
  sorted_entries es →
  foldl spec_op m ((λ x, OpSet (fst x) (snd x)) <$> es) !! k
  = match emap es !! k with Some v => Some v | None => m !! k end.
Proof.
  intros Hs%sorted_nodup. revert m. induction es as [|[k0 v0] es IH]; intros m; [done|].
  apply NoDup_cons in Hs as [Hn Hs]. cbn. rewrite (IH Hs). fold (emap es).
  destruct (decide (k0 = k)) as [->|Hne].
  - rewrite !lookup_insert_eq. cbn [fst] in Hn. unfold emap. by rewrite (not_elem_of_list_to_map_1 _ _ Hn).
  - by rewrite !lookup_insert_ne.
Qed.

Lemma clear_lookup ns ks m k :
  foldl spec_op m ((λ kind, OpDeleteRange (Some (ns ++ [kind])) (prefixEnd (ns ++ [kind]))) <$> ks) !! k
  = if bool_decide (Exists (λ kind, (ns ++ [kind]) `prefix_of` k) ks) then None else m !! k.
Proof.
  revert m. induction ks as [|kind ks IH]; intros m; [done|]. cbn [fmap list_fmap foldl]. rewrite IH. cbn [spec_op].
  case_bool_decide as H1; case_bool_decide as H2; try done.
  - destruct H2. by right.
  - apply map_lookup_filter_None. apply Exists_cons in H2 as [H2|]; [|done]. right.
    intros v _. cbn. apply prefixEnd_in in H2. by rewrite H2.
  - rewrite Exists_cons in H2. destruct (m !! k) as [v|] eqn:Em.
    + apply map_lookup_filter_Some. split; [done|]. cbn. apply not_true_iff_false. rewrite prefixEnd_in. tauto.
    + apply map_lookup_filter_None. by left.
Qed.

Lemma foldl_batch {A} (f : A → Op) xs b : foldl (λ b x, b ++ [f x]) b xs = b ++ (f <$> xs).
Proof.
  revert b. induction xs as [|x xs IH]; intros b; cbn; [by rewrite app_nil_r|].
  by rewrite IH, <- app_assoc.
Qed.

Section Ingest.
Context {E : Type} `{EngineLaws E}.

Lemma Records_entries db s :
  eng_wf db →
  ∃ es, Records db s = Ok (recordOf <$> es) ∧ sorted_entries es
    ∧ ∀ k, emap es !! k = if owns k s then contents db !! k else None.
Proof.
  intros Hwf. destruct (eng_scan_law db (Some (s_ns s)) (prefixEnd (s_ns s)) Hwf) as (es & He & Hs & Hin).
  exists (filter (λ x, owns (fst x) s = true) es). unfold Records. rewrite He.
  split; [done|]. assert (Hf : sorted_entries (filter (λ x, owns (fst x) s = true) es)) by by apply sorted_filter.
  split; [done|]. intros k. apply option_eq. intros v.
  rewrite emap_lookup, list_elem_of_filter, Hin by done. cbn [fst]. destruct (owns k s) eqn:Eo.
  - split; [by intros (_ & ? & _)|]. intros Hm. split_and!; [done|done|].
    apply prefixEnd_in. apply owns_spec in Eo as (kind & _ & Hp). etrans; [|exact Hp]. by exists [kind].
  - split; [by intros [? _]|done].
Qed.

(** What ingesting sorted records does to a map: the keys the store owns become
    exactly the records, the others stay. *)
Lemma ingest_lookup es mark m0 s k :
  sorted_entries es →
  let '(b, s') := IngestRecordsInto (recordOf <$> es) mark NewBatch s in
  s_gcMark s' = mark ∧ s_ns s' = s_ns s ∧ Forall (λ o, known_op o = true) b
  ∧ foldl spec_op m0 b !! k
    = match emap es !! k with Some v => Some v | None => if owns k s then None else m0 !! k end.
Proof.
  intros Hs. unfold IngestRecordsInto, Batch_DeleteRange, Batch_Set, NewBatch. cbv zeta.
  rewrite (foldl_batch (λ r, OpSet (rec_Key r) (rec_Value r))).
  rewrite (foldl_batch (λ kind, OpDeleteRange (Some (s_ns s ++ [kind])) (prefixEnd (s_ns s ++ [kind])))).
  split; [done|]. split; [done|]. split.
  { apply Forall_app. split; [by repeat constructor|]. apply Forall_fmap, Forall_forall. done. }
  cbn [app]. rewrite foldl_app, <- list_fmap_compose.
  change ((λ r, OpSet (rec_Key r) (rec_Value r)) ∘ recordOf) with (λ x : entry, OpSet (fst x) (snd x)).
  rewrite sets_lookup, clear_lookup by done. destruct (emap es !! k); [done|].
  destruct (owns k s) eqn:Eo.
  - rewrite bool_decide_eq_true_2; [done|].
    apply owns_spec in Eo as (kind & Hk & Hp). apply Exists_exists. by exists kind.
  - rewrite bool_decide_eq_false_2; [done|]. intros (kind & Hk & Hp)%Exists_exists.
    apply not_true_iff_false in Eo. apply Eo, owns_spec. by exists kind.
Qed.

(** A snapshot carries the whole state machine and nothing else: ingesting
    one store's records into any engine leaves every key the state machine owns
    exactly as it was in the first, in one batch, and leaves every other key
    alone; and the mark is adopted. *)
Theorem snapshot_roundtrip db s rs mark m0 s0 :
  eng_wf db → Records db s = Ok rs → s_ns s0 = s_ns s →
  let '(b, s') := IngestRecordsInto rs mark NewBatch s0 in
  s_gcMark s' = mark
  ∧ ∀ k, foldl spec_op m0 b !! k = if owns k s then contents db !! k else m0 !! k.
Proof.
  intros Hwf Hr Hns. destruct (Records_entries db s Hwf) as (es & He & Hs & Hm).
  rewrite Hr in He. injection He as ->.
  pose proof (λ k, ingest_lookup es mark m0 s0 k Hs) as Hl. specialize (Hl []) as Hl0.
  destruct (IngestRecordsInto _ _ _ _) as [b s']. split; [apply Hl0|]. intros k.
  destruct (Hl k) as (_ & _ & _ & ->). rewrite Hm. unfold owns. rewrite Hns. fold (owns k s).
  destruct (owns k s); [by destruct (contents db !! k)|done].
Qed.
End Ingest.

(** ** The distinct keys *)

Definition versionOf (ns : bytes) (x : entry) : option Version :=
  match DecodeKey ns (fst x) with
  | Some (key, ts) => Some (MkKvVersion key ts (snd x))
  | None => None
  end.

Definition addKey (out : list bytes) (v : Version) : list bytes :=
  match last out with
  | Some k => if bytes_eqb k (v_Key v) then out else out ++ [v_Key v]
  | None => out ++ [v_Key v]
  end.

(** The loop of [Keys] over the versions of sorted entries. *)
Lemma keys_loop ns es :
  sorted_entries es → versions ns es →
  let out := foldl addKey [] (omap (versionOf ns) es) in
  NoDup out
  ∧ (∀ k, k ∈ out ↔ ∃ x t, x ∈ es ∧ key_ok k ∧ wall_ok t ∧ fst x = stamped ns dataPrefix k t)
  ∧ match last es with
    | Some x => ∃ k t, last out = Some k ∧ key_ok k ∧ wall_ok t ∧ fst x = stamped ns dataPrefix k t
    | None => out = []
    end.
Proof.
  induction es as [|x es IH] using rev_ind; intros Hs Hv.
  { cbn. split; [constructor|]. split; [|done]. intros k. split; [intros Hk; by apply elem_of_nil in Hk|].
    intros (x & t & Hx & _). by apply elem_of_nil in Hx. }
  pose proof Hs as (Hlt & Hs1 & _)%sorted_app.
  destruct IH as (Hn & Hk & Hl); [done|intros y Hy; apply Hv, elem_of_app; by left|].
  destruct (Hv x) as (key & t & Hkey & Ht & Hx); [apply elem_of_app; right; left|].
  rewrite omap_app, foldl_app. set (out := foldl addKey [] (omap (versionOf ns) es)) in *.
  assert (Hone : omap (versionOf ns) [x] = [MkKvVersion key t (snd x)]).
  { cbn. unfold versionOf. rewrite Hx. change (stamped ns dataPrefix key t) with (EncodeKey ns key t).
    by rewrite DecodeKey_EncodeKey by (done || apply Ht). }
  rewrite Hone. cbn [foldl]. unfold addKey. cbn [v_Key]. rewrite last_snoc.
  assert (Hmem : ∀ k, k ∈ out ++ [key] ↔ ∃ y u, y ∈ es ++ [x] ∧ key_ok k ∧ wall_ok u ∧ fst y = stamped ns dataPrefix k u).
  { intros k. rewrite elem_of_app, list_elem_of_singleton, Hk. split.
    - intros [(y & u & Hy & ?)| ->]; [exists y, u; split; [apply elem_of_app; by left|done]|].
      exists x, t. split; [apply elem_of_app; right; left|done].
    - intros (y & u & [Hy|Hy%list_elem_of_singleton]%elem_of_app & Hky & Hu & He); [left; by exists y, u|].
      subst y. right. rewrite Hx in He. apply stamped_inj in He as [-> _]; try done; [apply Ht|apply Hu]. }
  destruct (last es) as [z|] eqn:El.
  - destruct Hl as (kz & tz & Hlo & Hkz & Htz & Hz). rewrite Hlo. unfold bytes_eqb.
    assert (Hzin : z ∈ es) by by apply last_Some_elem_of.
    case_bool_decide as Heq.
    + subst kz. split; [done|]. split; [|by exists key, t]. intros k. rewrite <- Hmem, elem_of_app, list_elem_of_singleton.
      split; [auto|]. intros [?| ->]; [done|]. by eapply last_Some_elem_of.
    + split; [|split; [done|exists key, t; by rewrite last_snoc]]. apply NoDup_app. split; [done|].
      split; [|apply NoDup_singleton]. intros k Hin ->%list_elem_of_singleton. apply Hk in Hin as (y & u & Hy & _ & Hu & Hyk).
      apply Heq. destruct (decide (y = z)) as [->|Hne].
      { rewrite Hyk in Hz. apply stamped_inj in Hz as [-> _]; try done; [apply Hu|apply Htz]. }
      eapply (chain_convex ns dataPrefix key kz tz u t (fst z)); try done.
      * rewrite <- Hyk. apply last_Some in El as [l' ->]. apply elem_of_app in Hy as [Hy|Hy%list_elem_of_singleton]; [|done].
        apply sorted_app in Hs1 as (Hzl & _ & _). apply Hzl; [done|left].
      * rewrite <- Hx. apply (Hlt z x); [done|left].
  - apply last_None in El. subst es. rewrite Hl. cbn. split; [apply NoDup_singleton|]. 
    split; [|exists key, t; done]. intros k. rewrite <- (Hmem k), Hl. done.
Qed.

Section KeysSpec.
Context {E : Type} `{EngineLaws E}.

(** The keys a split chooses its median from: every user key that has a
    version, each exactly once, however many versions it has. *)
Theorem Keys_spec db s :
  eng_wf db → chain_ok (s_ns s) dataPrefix (contents db) →
  ∃ ks, Keys db s = Ok ks ∧ NoDup ks
    ∧ ∀ key, key ∈ ks ↔ key_ok key
        ∧ ∃ t, wall_ok t ∧ is_Some (contents db !! stamped (s_ns s) dataPrefix key t).
Proof.
  intros Hwf Hc. set (lo := s_ns s ++ [dataPrefix]).
  destruct (eng_scan_law db (Some lo) (prefixEnd lo) Hwf) as (es & He & Hs & Hin).
  assert (Hv : versions (s_ns s) es).
  { intros [b v] Hx. apply Hin in Hx as [Hm Hr]. apply prefixEnd_in in Hr.
    destruct (Hc b v Hm Hr) as (key' & t' & ? & ? & ->). by exists key', t'. }
  destruct (keys_loop (s_ns s) es Hs Hv) as (Hn & Hk & _).
  exists (foldl addKey [] (omap (versionOf (s_ns s)) es)).
  split; [unfold Keys, Versions; fold lo; by rewrite He|]. split; [done|]. intros key. rewrite Hk. split.
  - intros ([b v] & t & Hx & Hky & Ht & Hb). split; [done|]. exists t. split; [done|]. cbn in Hb. subst b.
    apply Hin in Hx as [Hm _]. eauto.
  - intros (Hky & t & Ht & v & Hm). exists (stamped (s_ns s) dataPrefix key t, v), t. split_and!; try done.
    apply Hin. split; [done|]. apply prefixEnd_in. unfold stamped, lo. rewrite appendInvertedTS_app.
    apply metaKey_kind_prefix.
Qed.
End KeysSpec.

(** ** The theorems at work *)

(** Two versions of one key and one of another, durable. *)
Definition entriesK : list entry :=
  [(EncodeKey ns0 k0 ts9, val2); (EncodeKey ns0 k0 ts5, val1); (EncodeKey ns0 k1 ts5, val1)].
Definition dbK : DB := MkDB (MkVersion entriesK 1) [] 1 false 0 0 0.
Definition storeK : Store := MkStore ns0 zeroTimestamp 0 0 0 0 0 0 0 0 0 0 0 0 0 0.

Lemma dbK_wf : eng_wf dbK.
Proof. cbn. unfold sorted_entries. cbn. by repeat constructor. Qed.

Lemma dbK_chain : chain_ok (s_ns storeK) dataPrefix (contents dbK).
Proof.
  intros b v Hb _. apply (emap_lookup entriesK) in Hb; [|exact (proj1 dbK_wf)].
  repeat (apply elem_of_cons in Hb as [[= -> ->]|Hb]); [..|by apply elem_of_nil in Hb].
  - by exists k0, ts9.
  - by exists k0, ts5.
  - by exists k1, ts5.
Qed.

Lemma ReadAt_spec_witness :
  fst (ReadAt dbK k0 (MkTimestamp 8 0) storeK) = Ok (Some val1)
  ∧ ∃ r, newest_at ns0 dataPrefix k0 (MkTimestamp 8 0) (contents dbK) r.
Proof.
  split; [by vm_compute|].
  destruct (ReadAt_spec dbK k0 (MkTimestamp 8 0) storeK) as (r & Hr & _);
    [exact dbK_wf|exact dbK_chain|by vm_compute|by vm_compute|]. by exists r.
Defined.

Lemma ReadLatest_spec_witness :
  fst (ReadLatest dbK k0 storeK) = Ok (Some val2)
  ∧ ∃ r, newest_at ns0 dataPrefix k0 maxTS (contents dbK) r.
Proof.
  split; [by vm_compute|].
  destruct (ReadLatest_spec dbK k0 storeK) as (r & Hr & _);
    [exact dbK_wf|exact dbK_chain|by vm_compute|]. by exists r.
Defined.

(** Collecting up to 10 drops the older of the two versions. *)
Lemma AdvanceGCInto_spec_witness :
  ∃ ds s', AdvanceGCInto dbK (MkTimestamp 10 0) NewBatch storeK
           = (Ok (Z.of_nat (length ds)), NewBatch ++ (OpDelete <$> ds), s')
    ∧ s_gcMark s' = MkTimestamp 10 0.
Proof.
  destruct (AdvanceGCInto_spec dbK (MkTimestamp 10 0) NewBatch storeK) as (ds & s' & H1 & H2 & _);
    [exact dbK_wf|exact dbK_chain|reflexivity|by left|]. exact (ex_intro _ ds (ex_intro _ s' (conj H1 H2))).
Defined.

Example gc_drops_one :
  fst (AdvanceGCInto dbK (MkTimestamp 10 0) NewBatch storeK) = (Ok 1, [OpDelete (EncodeKey ns0 k0 ts5)]).
Proof. by vm_compute. Qed.

Lemma snapshot_roundtrip_witness :
  let '(b, s') := IngestRecordsInto (recordOf <$> entriesK) ts5 NewBatch storeK in
  s_gcMark s' = ts5
  ∧ ∀ k, foldl spec_op ∅ b !! k = if owns k storeK then contents dbK !! k else (∅ : gmap bytes bytes) !! k.
Proof.
  apply (snapshot_roundtrip dbK storeK (recordOf <$> entriesK) ts5 ∅ storeK);
    [exact dbK_wf|by vm_compute|reflexivity].
Defined.

Lemma Keys_spec_witness : ∃ ks, Keys dbK storeK = Ok ks ∧ NoDup ks.
Proof.
  destruct (Keys_spec dbK storeK) as (ks & H1 & H2 & _); [exact dbK_wf|exact dbK_chain|].
  exact (ex_intro _ ks (conj H1 H2)).
Defined.
