(* ===== verification/KvTxn.v ===== *)
(** * Transactions (kv/txn.go, kv/read.go, kv/resolve.go)

    The Percolator records -- locks, commit records, transaction records and read
    marks -- and the operations of the store on them.  A staging operation takes
    and returns the batch; an operation that fails returns the batch as the code
    leaves it. *)

From Stdlib Require Import Lia ZArith.
From stdpp Require Import base tactics numbers option gmap list.
From S2P Require Import Prelude Bytes Hlc Engine KvEncoding EngineIface KvStore.

(** ** Records and their encodings *)

Inductive TxnStatus := TxnPending | TxnCommitted | TxnRolledBack | TxnStatusOther (b : byte).

#[global] Instance TxnStatus_eq_dec : EqDecision TxnStatus.
Proof. solve_decision. Defined.

Definition TxnStatus_code (s : TxnStatus) : byte :=
  match s with
  | TxnPending => Byte.x00
  | TxnCommitted => Byte.x01
  | TxnRolledBack => Byte.x02
  | TxnStatusOther b => b
  end.

Definition TxnStatus_of (b : byte) : TxnStatus :=
  match b with
  | Byte.x00 => TxnPending
  | Byte.x01 => TxnCommitted
  | Byte.x02 => TxnRolledBack
  | b => TxnStatusOther b
  end.

Record TxnRecord := MkTxnRecord { r_Status : TxnStatus; r_StartTS : Timestamp; r_CommitTS : Timestamp }.

Definition putTS (b : bytes) (t : Timestamp) : bytes :=
  (b ++ be_put wallBytes (u64 (Wall t))) ++ be_put logicalBytes (Logical t).

Definition takeTS (b : bytes) : option (Timestamp * bytes) :=
  if (length b <? tsBytes)%nat then None
  else Some (MkTimestamp (i64 (be_get (take wallBytes b))) (be_get (take logicalBytes (drop wallBytes b))),
             drop tsBytes b).

Definition encodeLock (l : Lock) : bytes :=
  let b := putTS [] (l_StartTS l) in
  let b := putTS b (l_Deadline l) in
  let b := b ++ be_put 4 (u32 (Z.of_nat (length (l_Primary l)))) in
  b ++ l_Primary l.

Definition decodeLock (b : bytes) : option Lock :=
  '(start, b) ← takeTS b;
  '(deadline, b) ← takeTS b;
  if (length b <? 4)%nat then None
  else
    let n := be_get (take 4 b) in
    let b := drop 4 b in
    if negb (Z.of_nat (length b) =? n) then None else Some (MkLock b start deadline).

Definition encodeWrite (startTS : Timestamp) (rollback : bool) : bytes :=
  let b := putTS [] startTS in
  if rollback then b ++ [Byte.x01] else b ++ [Byte.x00].

Definition decodeWrite (b : bytes) : option (Timestamp * bool) :=
  '(st, rest) ← takeTS b;
  match rest with
  | [c] => Some (st, bool_decide (c = Byte.x01))
  | _ => None
  end.

Definition encodeTxn (r : TxnRecord) : bytes :=
  let b := [TxnStatus_code (r_Status r)] in
  let b := putTS b (r_StartTS r) in
  putTS b (r_CommitTS r).

Definition decodeTxn (b : bytes) : option TxnRecord :=
  match b with
  | [] => None
  | c :: b =>
      '(start, b) ← takeTS b;
      '(commit, _) ← takeTS b;
      Some (MkTxnRecord (TxnStatus_of c) start commit)
  end.

Definition DecodeLockValue := decodeLock.
Definition DecodeWriteValue := decodeWrite.
Definition DecodeTxnValue := decodeTxn.

Inductive Resolution := ResolveWait | ResolveForward | ResolveBack.

(** The top of a transaction's uncertainty interval; [Wall.Add] wraps. *)
Definition UncertaintyCeiling (readTS : Timestamp) (maxOffset : Z) : Timestamp :=
  MkTimestamp (i64 (Wall readTS + maxOffset)) 0.

(** Where a transaction restarts after an [UncertaintyError]. *)
Definition RestartAt (commitTS : Timestamp) : Timestamp := Next commitTS.

(** ** Operations *)

Section Txn.
Context {E : Type} `{EngineReads E}.

Definition Store_Lock (db : E) (key : bytes) (s : Store) : result KvError (option Lock) :=
  match eng_get (LockKey (s_ns s) key) db with
  | Ok v => Ok (decodeLock v)
  | Err ErrNotFound => Ok None
  | Err e => Err (ErrEngine e)
  end.

Definition Store_Txn (db : E) (primary : bytes) (startTS : Timestamp) (s : Store)
    : result KvError (option TxnRecord) :=
  match eng_get (TxnKey (s_ns s) primary startTS) db with
  | Ok v => Ok (decodeTxn v)
  | Err ErrNotFound => Ok None
  | Err e => Err (ErrEngine e)
  end.

(** [First] on the chain of commit records. *)
Definition newestCommit (db : E) (key : bytes) (s : Store) : result KvError (option (Timestamp * Timestamp)) :=
  let prefix := WritePrefix (s_ns s) key in
  let '(es, err) := eng_scan (Some prefix) (prefixEnd prefix) db in
  match head es with
  | None => orError err None
  | Some (k, v) =>
      match DecodeWriteKey (s_ns s) k with
      | None => orError err None
      | Some (gotKey, c) =>
          if negb (bytes_eqb gotKey key) then orError err None
          else match decodeWrite v with
               | None => orError err None
               | Some (st, _) => orError err (Some (c, st))
               end
      end
  end.

Definition ReadMark (db : E) (key : bytes) (s : Store) : result KvError (option Timestamp) :=
  let prefix := ReadMarkPrefix (s_ns s) key in
  let '(es, err) := eng_scan (Some prefix) (prefixEnd prefix) db in
  match head es with
  | None => orError err None
  | Some (k, _) =>
      match DecodeReadMarkKey (s_ns s) k with
      | None => orError err None
      | Some (gotKey, ts) =>
          if negb (bytes_eqb gotKey key) then orError err None else orError err (Some ts)
      end
  end.

Definition refuseIfReadAbove (db : E) (key : bytes) (startTS : Timestamp) (s : Store)
    : result KvError () * Store :=
  match ReadMark db key s with
  | Err e => (Err e, s)
  | Ok None => (Ok (), s)
  | Ok (Some mark) =>
      if negb (Less startTS mark) then (Ok (), s)
      else (Err (ErrWriteConflict key mark startTS), s <| s_readConflicts := s_readConflicts s + 1 |>)
  end.

Definition PrewriteInto (db : E) (key : bytes) (l : Lock) (value : bytes) (b : Batch) (s : Store)
    : result KvError () * Batch * Store :=
  if negb (Timestamp_IsSet (l_StartTS l)) then (Err ErrUnsetTimestamp, b, s)
  else if LessEq (l_StartTS l) (s_gcMark s) then (Err (ErrBelowGCMark (l_StartTS l) (s_gcMark s)), b, s)
  else match Store_Lock db key s with
  | Err e => (Err e, b, s)
  | Ok (Some cur) => (Err (ErrKeyIsLocked key (l_StartTS cur)), b, s)
  | Ok None =>
      match newestCommit db key s with
      | Err e => (Err e, b, s)
      | Ok c =>
          let conflict := match c with
                          | Some (commit, _) => if Less (l_StartTS l) commit then Some commit else None
                          | None => None
                          end in
          match conflict with
          | Some commit => (Err (ErrWriteConflict key commit (l_StartTS l)), b, s)
          | None =>
              match refuseIfReadAbove db key (l_StartTS l) s with
              | (Err e, s) => (Err e, b, s)
              | (Ok _, s) =>
                  let b := Batch_Set (LockKey (s_ns s) key) (encodeLock l) b in
                  let b := Batch_Set (EncodeKey (s_ns s) key (l_StartTS l)) value b in
                  (Ok (), b, s <| s_prewrites := s_prewrites s + 1 |>)
              end
          end
      end
  end.

Definition releaseLockOf (db : E) (key : bytes) (startTS : Timestamp) (b : Batch) (s : Store)
    : result KvError () * Batch * Store :=
  match Store_Lock db key s with
  | Err e => (Err e, b, s)
  | Ok None => (Ok (), b, s <| s_foreignLocksKept := s_foreignLocksKept s + 1 |>)
  | Ok (Some l) =>
      if negb (Timestamp_Equal (l_StartTS l) startTS)
      then (Ok (), b, s <| s_foreignLocksKept := s_foreignLocksKept s + 1 |>)
      else (Ok (), Batch_Delete (LockKey (s_ns s) key) b, s)
  end.

Definition CommitInto (db : E) (key : bytes) (startTS commitTS : Timestamp) (b : Batch) (s : Store)
    : result KvError () * Batch * Store :=
  if negb (Timestamp_IsSet startTS) || negb (Timestamp_IsSet commitTS) then (Err ErrUnsetTimestamp, b, s)
  else if Less commitTS startTS then (Err (ErrCommitBeforeStart commitTS startTS), b, s)
  else
    let b := Batch_Set (WriteKey (s_ns s) key commitTS) (encodeWrite startTS false) b in
    match releaseLockOf db key startTS b s with
    | (Err e, b, s) => (Err e, b, s)
    | (Ok _, b, s) => (Ok (), b, s <| s_commits := s_commits s + 1 |>)
    end.

Definition RollbackInto (db : E) (key : bytes) (startTS : Timestamp) (b : Batch) (s : Store)
    : result KvError () * Batch * Store :=
  if negb (Timestamp_IsSet startTS) then (Err ErrUnsetTimestamp, b, s)
  else
    let b := Batch_Set (WriteKey (s_ns s) key startTS) (encodeWrite startTS true) b in
    match releaseLockOf db key startTS b s with
    | (Err e, b, s) => (Err e, b, s)
    | (Ok _, b, s) =>
        (Ok (), Batch_Delete (EncodeKey (s_ns s) key startTS) b, s <| s_rollbacks := s_rollbacks s + 1 |>)
    end.

Definition PutTxnInto (db : E) (primary : bytes) (r : TxnRecord) (b : Batch) (s : Store)
    : result KvError () * Batch :=
  if negb (Timestamp_IsSet (r_StartTS r)) then (Err ErrUnsetTimestamp, b)
  else if bool_decide (r_Status r = TxnCommitted) && negb (Timestamp_IsSet (r_CommitTS r))
  then (Err ErrNoCommitTS, b)
  else match Store_Txn db primary (r_StartTS r) s with
       | Err e => (Err e, b)
       | Ok (Some _) => (Err (ErrTxnAlreadyDecided primary), b)
       | Ok None => (Ok (), Batch_Set (TxnKey (s_ns s) primary (r_StartTS r)) (encodeTxn r) b)
       end.

Definition NoteReadInto (db : E) (key : bytes) (readTS : Timestamp) (b : Batch) (s : Store)
    : result KvError () * Batch * Store :=
  if negb (Timestamp_IsSet readTS) then (Err ErrUnsetTimestamp, b, s)
  else match ReadMark db key s with
       | Err e => (Err e, b, s)
       | Ok cur =>
           if match cur with Some c => LessEq readTS c | None => false end then (Ok (), b, s)
           else
             let b := match cur with
                      | Some c => Batch_Delete (ReadMarkKey (s_ns s) key c) b
                      | None => b
                      end in
             (Ok (), Batch_Set (ReadMarkKey (s_ns s) key readTS) [] b,
              s <| s_readMarks := s_readMarks s + 1 |>)
       end.

(** The walk down the commit records of a snapshot read. *)
Fixpoint getTxn_loop (db : E) (key : bytes) (readTS ceiling : Timestamp) (err : option EngineError)
    (es : list entry) (s : Store) : result KvError (option bytes) * Store :=
  match es with
  | [] => (orError err None, s)
  | (k, v) :: es =>
      match DecodeWriteKey (s_ns s) k with
      | None => (orError err None, s)
      | Some (gotKey, commitTS) =>
          if negb (bytes_eqb gotKey key) then (orError err None, s)
          else match decodeWrite v with
          | None => getTxn_loop db key readTS ceiling err es s
          | Some (startTS, rollback) =>
              if Less readTS commitTS then
                if negb rollback && LessEq commitTS ceiling
                then (Err (UncertaintyError key readTS commitTS),
                      s <| s_uncertaintyRestarts := s_uncertaintyRestarts s + 1 |>)
                else getTxn_loop db key readTS ceiling err es s
              else if rollback then getTxn_loop db key readTS ceiling err es s
              else match eng_get (EncodeKey (s_ns s) key startTS) db with
                   | Ok v => (Ok (Some v), s)
                   | Err ErrNotFound => (Err (ErrMissingVersion key commitTS startTS), s)
                   | Err e => (Err (ErrEngine e), s)
                   end
          end
      end
  end.

Definition GetTxn (db : E) (key : bytes) (readTS ceiling : Timestamp) (s : Store)
    : result KvError (option bytes) * Store :=
  if negb (Timestamp_IsSet readTS) then (Err ErrUnsetTimestamp, s)
  else
    let s := s <| s_reads := s_reads s + 1 |> in
    if LessEq readTS (s_gcMark s) then
      (Err (ErrBelowGCMark readTS (s_gcMark s)), s <| s_readsRefused := s_readsRefused s + 1 |>)
    else
      match Store_Lock db key s with
      | Err e => (Err e, s)
      | Ok lk =>
          match match lk with Some l => if LessEq (l_StartTS l) readTS then Some l else None | None => None end with
          | Some l => (Err (LockedError key l), s <| s_readsBlocked := s_readsBlocked s + 1 |>)
          | None =>
              let prefix := WritePrefix (s_ns s) key in
              let '(es, err) := eng_scan (Some prefix) (prefixEnd prefix) db in
              getTxn_loop db key readTS ceiling err es s
          end
      end.

Definition ResolveLock (db : E) (l : Lock) (readTS : Timestamp) (primaryOnThisRange : bool) (s : Store)
    : result KvError (Resolution * Timestamp) :=
  if negb primaryOnThisRange then Ok (ResolveWait, zeroTimestamp)
  else match Store_Txn db (l_Primary l) (l_StartTS l) s with
       | Err e => Err e
       | Ok (Some rec) =>
           if bool_decide (r_Status rec = TxnCommitted) then Ok (ResolveForward, r_CommitTS rec)
           else Ok (ResolveBack, zeroTimestamp)
       | Ok None =>
           if LessEq readTS (l_Deadline l) then Ok (ResolveWait, zeroTimestamp)
           else Ok (ResolveBack, zeroTimestamp)
       end.

Definition ApplyResolutionInto (db : E) (key : bytes) (l : Lock) (r : Resolution) (commitTS : Timestamp)
    (b : Batch) (s : Store) : result KvError () * Batch * Store :=
  match r with
  | ResolveForward =>
      CommitInto db key (l_StartTS l) commitTS b (s <| s_rollForwards := s_rollForwards s + 1 |>)
  | ResolveBack => RollbackInto db key (l_StartTS l) b (s <| s_rollBacks := s_rollBacks s + 1 |>)
  | ResolveWait => (Ok (), b, s)
  end.
End Txn.

(** ** The value encodings *)

Lemma putTS_app b t : putTS b t = b ++ putTS [] t.
Proof. unfold putTS. by rewrite <- !app_assoc. Qed.

Lemma putTS_length t : length (putTS [] t) = tsBytes.
Proof. unfold putTS. by rewrite !length_app, !be_put_length. Qed.

Lemma takeTS_putTS t rest : ts_ok t → takeTS (putTS [] t ++ rest) = Some (t, rest).
Proof.
  intros [Hw Hl]. unfold takeTS. rewrite length_app, putTS_length.
  destruct (Nat.ltb_spec (tsBytes + length rest) tsBytes); [lia|].
  rewrite (drop_app_length' (putTS [] t) rest tsBytes) by (by rewrite putTS_length).
  unfold putTS. cbn [app]. rewrite <- app_assoc, take_app_length', drop_app_length' by (by rewrite be_put_length).
  rewrite take_app_length' by (by rewrite be_put_length). unfold wallBytes, logicalBytes.
  rewrite be_get_put_u64', be_get_put_u32, i64_u64 by (done || apply u64_range). by destruct t.
Qed.

Lemma takeTS_some b t rest : takeTS b = Some (t, rest) → ts_ok t ∧ b = putTS [] t ++ rest.
Proof.
  unfold takeTS. destruct (Nat.ltb_spec (length b) tsBytes) as [|Hl]; [done|]. intros [= <- <-].
  assert (H1 : length (take wallBytes b) = 8%nat) by (rewrite length_take; unfold tsBytes, wallBytes, logicalBytes in *; lia).
  assert (H2 : length (take logicalBytes (drop wallBytes b)) = 4%nat)
    by (rewrite length_take, length_drop; unfold tsBytes, wallBytes, logicalBytes in *; lia).
  pose proof (be_get_range (take wallBytes b)) as R1. rewrite H1 in R1.
  pose proof (be_get_range (take logicalBytes (drop wallBytes b))) as R2. rewrite H2 in R2.
  split; [split; [apply i64_range|exact R2]|].
  unfold putTS. cbn [app Wall Logical]. rewrite u64_i64 by exact R1.
  pose proof (be_put_get (take wallBytes b)) as P1. rewrite H1 in P1.
  pose proof (be_put_get (take logicalBytes (drop wallBytes b))) as P2. rewrite H2 in P2.
  unfold wallBytes, logicalBytes in *. rewrite P1, P2.
  change (drop tsBytes b) with (drop (8 + 4) b). rewrite <- drop_drop, <- app_assoc, take_drop.
  by rewrite take_drop.
Qed.

Definition lock_ok (l : Lock) : Prop := ts_ok (l_StartTS l) ∧ ts_ok (l_Deadline l) ∧ key_ok (l_Primary l).

Definition status_ok (s : TxnStatus) : Prop := TxnStatus_of (TxnStatus_code s) = s.

Definition txn_ok (r : TxnRecord) : Prop :=
  status_ok (r_Status r) ∧ ts_ok (r_StartTS r) ∧ ts_ok (r_CommitTS r).

Lemma decodeLock_encodeLock l : lock_ok l → decodeLock (encodeLock l) = Some l.
Proof.
  intros (Hs & Hd & Hk). unfold encodeLock, decodeLock. rewrite putTS_app, <- !app_assoc.
  rewrite takeTS_putTS by done. cbn [mbind option_bind].
  rewrite takeTS_putTS by done. cbn [mbind option_bind].
  rewrite length_app, be_put_length. destruct (Nat.ltb_spec (4 + length (l_Primary l)) 4); [lia|].
  rewrite take_app_length', drop_app_length' by (by rewrite be_put_length).
  rewrite u32_small, be_get_put_u32 by (unfold is_u32, key_ok in *; lia).
  rewrite Z.eqb_refl. by destruct l.
Qed.

Lemma decodeWrite_encodeWrite t rb : ts_ok t → decodeWrite (encodeWrite t rb) = Some (t, rb).
Proof.
  intros Ht. unfold encodeWrite, decodeWrite. destruct rb; by rewrite takeTS_putTS.
Qed.

Lemma decodeTxn_encodeTxn r : txn_ok r → decodeTxn (encodeTxn r) = Some r.
Proof.
  intros (Hc & Hs & Ht). unfold encodeTxn, decodeTxn. rewrite putTS_app, (putTS_app [_]), <- !app_assoc.
  cbn [app]. rewrite takeTS_putTS by done. cbn [mbind option_bind].
  rewrite <- (app_nil_r (putTS [] (r_CommitTS r))), takeTS_putTS by done. cbn [mbind option_bind].
  rewrite Hc. by destruct r.
Qed.

(** The records survive the engine: a lock, a commit record and a
    transaction record decode to what was encoded. *)
Theorem records_roundtrip l t rb r :
  lock_ok l → ts_ok t → txn_ok r →
  decodeLock (encodeLock l) = Some l ∧ decodeWrite (encodeWrite t rb) = Some (t, rb)
  ∧ decodeTxn (encodeTxn r) = Some r.
Proof.
  intros. split_and!; [by apply decodeLock_encodeLock|by apply decodeWrite_encodeWrite|by apply decodeTxn_encodeTxn].
Qed.

(** ** Logical record keys

    The five kinds of record as one data type; the engine key of a record
    determines it, so distinct records never share an engine key. *)

Inductive rkey :=
| KData (key : bytes) (ts : Timestamp)
| KLock (key : bytes)
| KWrite (key : bytes) (ts : Timestamp)
| KTxn (key : bytes) (ts : Timestamp)
| KRead (key : bytes) (ts : Timestamp).

#[global] Instance rkey_eq_dec : EqDecision rkey.
Proof. solve_decision. Defined.

Definition enc (ns : bytes) (r : rkey) : bytes :=
  match r with
  | KData k t => EncodeKey ns k t
  | KLock k => LockKey ns k
  | KWrite k t => WriteKey ns k t
  | KTxn k t => TxnKey ns k t
  | KRead k t => ReadMarkKey ns k t
  end.

Definition rkey_key (r : rkey) : bytes :=
  match r with KData k _ | KLock k | KWrite k _ | KTxn k _ | KRead k _ => k end.
Definition rkey_kind (r : rkey) : byte :=
  match r with
  | KData _ _ => dataPrefix
  | KLock _ => lockPrefix
  | KWrite _ _ => writePrefix
  | KTxn _ _ => txnPrefix
  | KRead _ _ => readPrefix
  end.
Definition rkey_rest (r : rkey) : bytes :=
  match r with KLock _ => [] | KData _ t | KWrite _ t | KTxn _ t | KRead _ t => encodeTS t end.
Definition rkey_ok (r : rkey) : Prop :=
  key_ok (rkey_key r)
  ∧ match r with KLock _ => True | KData _ t | KWrite _ t | KTxn _ t | KRead _ t => ts_ok t end.

Lemma enc_meta ns r : enc ns r = metaKey ns (rkey_kind r) (rkey_key r) ++ rkey_rest r.
Proof.
  destruct r; cbn; rewrite ?EncodeKey_meta; unfold LockKey, WriteKey, TxnKey, ReadMarkKey;
    rewrite ?appendInvertedTS_app, ?app_nil_r; done.
Qed.

Lemma encodeTS_inj t u : ts_ok t → ts_ok u → encodeTS t = encodeTS u → t = u.
Proof. intros Ht Hu He. by rewrite <- (decodeTS_encodeTS t), <- (decodeTS_encodeTS u), He. Qed.

Lemma enc_inj (ns : bytes) a b : rkey_ok a → rkey_ok b → enc ns a = enc ns b → a = b.
Proof.
  intros [Ka Ta] [Kb Tb]. rewrite !enc_meta, !metaKey_body by done. intros He%app_inv_head.
  apply (f_equal head) in He as Hh. apply (f_equal tail) in He. cbn [head tail] in *.
  apply body_inj in He as [Hk Hr]; [|done|done]. injection Hh as Hkind.
  destruct a, b; cbn in *; try done; subst; try done; f_equal; by apply encodeTS_inj.
Qed.

Lemma lookup_insert_rkey (ns : bytes) (m : gmap bytes bytes) a b v :
  rkey_ok a → rkey_ok b → <[enc ns a:=v]> m !! enc ns b = if decide (a = b) then Some v else m !! enc ns b.
Proof.
  intros Ha Hb. destruct (decide (a = b)) as [->|Hne]; [apply lookup_insert_eq|].
  apply lookup_insert_ne. intros He. by apply Hne, (enc_inj ns).
Qed.

Lemma lookup_delete_rkey (ns : bytes) (m : gmap bytes bytes) a b :
  rkey_ok a → rkey_ok b → delete (enc ns a) m !! enc ns b = if decide (a = b) then None else m !! enc ns b.
Proof.
  intros Ha Hb. destruct (decide (a = b)) as [->|Hne]; [apply lookup_delete_eq|].
  apply lookup_delete_ne. intros He. by apply Hne, (enc_inj ns).
Qed.

(** ** What the records of a namespace say *)

Definition lock_of (ns : bytes) (m : gmap bytes bytes) (key : bytes) : option Lock :=
  m !! enc ns (KLock key) ≫= decodeLock.
Definition txn_of (ns : bytes) (m : gmap bytes bytes) (primary : bytes) (start : Timestamp) : option TxnRecord :=
  m !! enc ns (KTxn primary start) ≫= decodeTxn.
Definition write_of (ns : bytes) (m : gmap bytes bytes) (key : bytes) (c : Timestamp)
    : option (Timestamp * bool) :=
  m !! enc ns (KWrite key c) ≫= decodeWrite.

(** A commit of [key] at [c] that makes the version at [st] visible. *)
Definition real (ns : bytes) (m : gmap bytes bytes) (key : bytes) (c st : Timestamp) : Prop :=
  wall_ok c ∧ write_of ns m key c = Some (st, false).

(** The newest commit at or before [ts], and what a snapshot at [ts] sees. *)
Definition latest_commit (ns : bytes) (m : gmap bytes bytes) (key : bytes) (ts c st : Timestamp) : Prop :=
  real ns m key c st ∧ ts_le c ts ∧ ∀ c' st', real ns m key c' st' → ts_le c' ts → ts_le c' c.

Inductive snapshot_view (ns : bytes) (m : gmap bytes bytes) (key : bytes) (ts : Timestamp) : option bytes → Prop :=
| view_some c st v :
    latest_commit ns m key ts c st → m !! enc ns (KData key st) = Some v →
    snapshot_view ns m key ts (Some v)
| view_none :
    (∀ c st, real ns m key c st → ¬ ts_le c ts) → snapshot_view ns m key ts None.

Lemma ts_le_antisym t u : ts_le t u → ts_le u t → t = u.
Proof.
  intros [H1|H1] [H2|H2]; try congruence. exfalso. apply (irreflexivity ts_lt t). by etrans.
Qed.

Lemma snapshot_view_fun ns m key ts r r' :
  snapshot_view ns m key ts r → snapshot_view ns m key ts r' → r = r'.
Proof.
  intros [c st v (R & L & N) Hv|N] [c' st' v' (R' & L' & N') Hv'|N']; [| | |done].
  - assert (c = c') as <- by (apply ts_le_antisym; eauto).
    destruct R as [_ R], R' as [_ R']. rewrite R in R'. injection R' as <-. congruence.
  - by destruct (N' c st R).
  - by destruct (N c' st' R').
Qed.

(** ** Reads, against the engine's laws *)

Section TxnReads.
Context {E : Type} `{EngineLaws E}.

Lemma Store_Lock_eq db key s : eng_wf db → Store_Lock db key s = Ok (lock_of (s_ns s) (contents db) key).
Proof.
  intros Hwf. unfold Store_Lock, lock_of. rewrite eng_get_law by done. cbn [enc].
  by destruct (contents db !! LockKey (s_ns s) key).
Qed.

Lemma Store_Txn_eq db primary start s :
  eng_wf db → Store_Txn db primary start s = Ok (txn_of (s_ns s) (contents db) primary start).
Proof.
  intros Hwf. unfold Store_Txn, txn_of. rewrite eng_get_law by done. cbn [enc].
  by destruct (contents db !! TxnKey (s_ns s) primary start).
Qed.

(** [First] on a chain lands on its newest record. *)
Lemma chain_first ns kind key db :
  eng_wf db → chain_ok ns kind (contents db) → key_ok key →
  let p := metaKey ns kind key in
  ∃ es r, eng_scan (Some p) (prefixEnd p) db = (es, None)
    ∧ newest_at ns kind key maxTS (contents db) r
    ∧ head es = (λ '(t, v), (stamped ns kind key t, v)) <$> r.
Proof.
  intros Hwf Hc Hk p. assert (Hmax : wall_ok maxTS) by by vm_compute.
  destruct (chain_scan ns kind key db Hwf Hc Hk) as (es & He & Hs & Hkey & Hin).
  destruct (chain_seek ns kind key maxTS db Hwf Hc Hk Hmax) as (r & Hr & Hseek).
  exists es, r. fold p in He, Hseek. split; [done|]. split; [done|].
  rewrite eng_seek_law, He in Hseek by done. cbn [fst] in Hseek. injection Hseek as <-.
  rewrite (filter_all (λ x, bytes_le _ (fst x))); [done|]. apply Forall_forall. intros x Hx.
  destruct (Hkey x Hx) as (t & Ht & ->). apply stamped_le; [done|done|]. apply ts_le_max, Ht.
Qed.

Lemma ReadMark_eq db key s :
  eng_wf db → chain_ok (s_ns s) readPrefix (contents db) → key_ok key →
  ∃ r, newest_at (s_ns s) readPrefix key maxTS (contents db) r ∧ ReadMark db key s = Ok (fst <$> r).
Proof.
  intros Hwf Hc Hk. destruct (chain_first _ _ key db Hwf Hc Hk) as (es & r & He & Hr & Hh).
  exists r. split; [done|]. unfold ReadMark, ReadMarkPrefix. rewrite He, Hh.
  destruct r as [[t v]|]; [|done]. cbn [fmap option_fmap option_map]. destruct Hr as ([Ht _] & _).
  change (stamped (s_ns s) readPrefix key t) with (ReadMarkKey (s_ns s) key t).
  rewrite (proj2 (DecodeReadMarkKey_some (s_ns s) _ key t)) by done.
  unfold bytes_eqb. by rewrite bool_decide_eq_true_2.
Qed.

Lemma newestCommit_eq db key s :
  eng_wf db → chain_ok (s_ns s) writePrefix (contents db) → key_ok key →
  ∃ r, newest_at (s_ns s) writePrefix key maxTS (contents db) r
    ∧ newestCommit db key s = Ok ('(c, v) ← r; '(st, _) ← decodeWrite v; Some (c, st)).
Proof.
  intros Hwf Hc Hk. destruct (chain_first _ _ key db Hwf Hc Hk) as (es & r & He & Hr & Hh).
  exists r. split; [done|]. unfold newestCommit, WritePrefix. rewrite He, Hh.
  destruct r as [[t v]|]; [|done]. cbn [fmap option_fmap option_map mbind option_bind].
  destruct Hr as ([Ht _] & _).
  change (stamped (s_ns s) writePrefix key t) with (WriteKey (s_ns s) key t).
  rewrite (proj2 (DecodeWriteKey_some (s_ns s) _ key t)) by done.
  unfold bytes_eqb. rewrite bool_decide_eq_true_2 by done. cbn [negb].
  by destruct (decodeWrite v) as [[st rb]|].
Qed.

(** ** Snapshot reads *)

(** A real commit among the entries of a chain. *)
Definition real_in (ns key : bytes) (es : list entry) (c st : Timestamp) : Prop :=
  wall_ok c ∧ ∃ v, (stamped ns writePrefix key c, v) ∈ es ∧ decodeWrite v = Some (st, false).

(** What the walk finds: the newest commit inside the window, else the newest
    one at or below the read. *)
Inductive walk (ns key : bytes) (es : list entry) (m : gmap bytes bytes) (readTS ceiling : Timestamp)
    : result KvError (option bytes) → Prop :=
| walk_uncertain c st :
    real_in ns key es c st → ts_lt readTS c → ts_le c ceiling →
    (∀ c' st', real_in ns key es c' st' → ts_le c' ceiling → ts_le c' c) →
    walk ns key es m readTS ceiling (Err (UncertaintyError key readTS c))
| walk_found c st v :
    real_in ns key es c st → ts_le c readTS →
    (∀ c' st', real_in ns key es c' st' → ts_le c' ceiling ∨ ts_le c' readTS → ts_le c' c) →
    m !! enc ns (KData key st) = Some v →
    walk ns key es m readTS ceiling (Ok (Some v))
| walk_missing c st :
    real_in ns key es c st → ts_le c readTS →
    (∀ c' st', real_in ns key es c' st' → ts_le c' ceiling ∨ ts_le c' readTS → ts_le c' c) →
    m !! enc ns (KData key st) = None →
    walk ns key es m readTS ceiling (Err (ErrMissingVersion key c st))
| walk_nothing :
    (∀ c st, real_in ns key es c st → ¬ ts_le c ceiling ∧ ¬ ts_le c readTS) →
    walk ns key es m readTS ceiling (Ok None).

(** Passing over a record that is not a commit in the window or below it. *)
Lemma walk_skip ns key t v es m readTS ceiling res :
  key_ok key → wall_ok t →
  (∀ st, decodeWrite v = Some (st, false) → ¬ ts_le t ceiling ∧ ¬ ts_le t readTS) →
  walk ns key es m readTS ceiling res →
  walk ns key ((stamped ns writePrefix key t, v) :: es) m readTS ceiling res.
Proof.
  intros Hk Ht Hno Hw.
  assert (Hin : ∀ c st, real_in ns key es c st → real_in ns key ((stamped ns writePrefix key t, v) :: es) c st).
  { intros c st (Hc & w & Hx & Hd). split; [done|]. exists w. split; [by right|done]. }
  assert (Hout : ∀ c st, real_in ns key ((stamped ns writePrefix key t, v) :: es) c st →
            real_in ns key es c st ∨ (¬ ts_le c ceiling ∧ ¬ ts_le c readTS)).
  { intros c st (Hc & w & Hx & Hd). apply elem_of_cons in Hx as [[= He ->]|Hx].
    - right. apply stamped_inj in He as [_ ->]; [by eapply Hno|done|done|apply Hc|apply Ht].
    - left. split; eauto. }
  destruct Hw as [c st R L1 L2 N|c st w R L N Hv|c st R L N Hv|N].
  - eapply walk_uncertain; eauto. intros c' st' [R'|[R' _]]%Hout Hle; [eauto|done].
  - eapply walk_found; eauto. intros c' st' [R'|[? ?]]%Hout [Hle|Hle]; eauto; done.
  - eapply walk_missing; eauto. intros c' st' [R'|[? ?]]%Hout [Hle|Hle]; eauto; done.
  - apply walk_nothing. intros c st [R|?]%Hout; [by eapply N|done].
Qed.

(** The head of a chain is its newest record. *)
Lemma real_in_newest ns key t v es c st :
  key_ok key → wall_ok t →
  sorted_entries ((stamped ns writePrefix key t, v) :: es) →
  real_in ns key ((stamped ns writePrefix key t, v) :: es) c st → ts_le c t.
Proof.
  intros Hk Ht [Hall _]%sorted_cons (Hc & w & Hx & _). rewrite Forall_forall in Hall.
  apply elem_of_cons in Hx as [[= He _]|Hx].
  - apply stamped_inj in He as [_ ->]; [by right|done|done|apply Hc|apply Ht].
  - left. apply Hall in Hx. cbn [fst] in Hx. by apply stamped_lt in Hx.
Qed.

Lemma getTxn_loop_walk db key readTS ceiling es s :
  eng_wf db → key_ok key → sorted_entries es →
  (∀ x, x ∈ es → ∃ t, wall_ok t ∧ fst x = stamped (s_ns s) writePrefix key t) →
  walk (s_ns s) key es (contents db) readTS ceiling
    (fst (getTxn_loop db key readTS ceiling None es s)).
Proof.
  intros Hwf Hk. induction es as [|[b v] es IH]; intros Hs Hkey; cbn [getTxn_loop].
  { apply walk_nothing. intros c st (_ & w & Hx & _). by apply elem_of_nil in Hx. }
  destruct (Hkey (b, v)) as (t & Ht & Hb); [left|]. cbn [fst] in Hb. subst b.
  rewrite (proj2 (DecodeWriteKey_some (s_ns s) (stamped (s_ns s) writePrefix key t) key t)) by (split_and!; try done; apply Ht).
  unfold bytes_eqb. rewrite bool_decide_eq_true_2 by done. cbn [negb].
  pose proof Hs as [_ Hs']%sorted_cons.
  specialize (IH Hs' ltac:(intros x Hx; apply Hkey; by right)).
  destruct (decodeWrite v) as [[st rb]|] eqn:Ed; [|apply walk_skip; [done|done|congruence|done]].
  assert (Hnew : ∀ c' st', real_in (s_ns s) key ((stamped (s_ns s) writePrefix key t, v) :: es) c' st' → ts_le c' t)
    by (intros c' st'; by apply real_in_newest).
  assert (Hself : rb = false → real_in (s_ns s) key ((stamped (s_ns s) writePrefix key t, v) :: es) t st).
  { intros ->. split; [done|]. exists v. split; [left|done]. }
  destruct (Less readTS t) eqn:El.
  - apply Less_spec in El. assert (Hnr : ¬ ts_le t readTS).
    { intros [?| ->]; [|by apply (irreflexivity ts_lt readTS)]. apply (irreflexivity ts_lt t). by etrans. }
    destruct rb; cbn [negb andb]; [apply walk_skip; [done|done|congruence|done]|].
    destruct (LessEq t ceiling) eqn:Ec.
    + apply LessEq_spec in Ec. eapply walk_uncertain; eauto.
    + apply walk_skip; [done|done| |done]. intros _ _. split; [|done]. intros Hc%LessEq_spec. congruence.
  - assert (Hle : ts_le t readTS) by (apply LessEq_spec; unfold LessEq; by rewrite El).
    destruct rb; [apply walk_skip; [done|done|congruence|done]|].
    rewrite eng_get_law by done. change (EncodeKey (s_ns s) key st) with (enc (s_ns s) (KData key st)).
    destruct (contents db !! enc (s_ns s) (KData key st)) as [w|] eqn:Em; cbn [fst].
    + eapply walk_found; eauto.
    + eapply walk_missing; eauto.
Qed.

(** What a snapshot read may answer. *)
Inductive txn_answer (ns : bytes) (m : gmap bytes bytes) (mark : Timestamp) (key : bytes)
    (readTS ceiling : Timestamp) : result KvError (option bytes) → Prop :=
| ans_unset : Timestamp_IsSet readTS = false → txn_answer ns m mark key readTS ceiling (Err ErrUnsetTimestamp)
| ans_below :
    Timestamp_IsSet readTS = true → ts_le readTS mark →
    txn_answer ns m mark key readTS ceiling (Err (ErrBelowGCMark readTS mark))
| ans_locked l :
    Timestamp_IsSet readTS = true → ts_lt mark readTS →
    lock_of ns m key = Some l → ts_le (l_StartTS l) readTS →
    txn_answer ns m mark key readTS ceiling (Err (LockedError key l))
| ans_walk res :
    Timestamp_IsSet readTS = true → ts_lt mark readTS →
    (∀ l, lock_of ns m key = Some l → ts_lt readTS (l_StartTS l)) →
    match res with
    | Ok r => snapshot_view ns m key readTS r ∧ ∀ c st, real ns m key c st → ts_le c ceiling → ts_le c readTS
    | Err (UncertaintyError k r c) =>
        k = key ∧ r = readTS ∧ ts_lt readTS c ∧ ts_le c ceiling ∧ (∃ st, real ns m key c st)
        ∧ ∀ c' st', real ns m key c' st' → ts_le c' ceiling → ts_le c' c
    | Err (ErrMissingVersion k c st) =>
        k = key ∧ latest_commit ns m key readTS c st ∧ m !! enc ns (KData key st) = None
    | Err _ => False
    end →
    txn_answer ns m mark key readTS ceiling res.

(** The result of the walk over a whole chain. *)
Lemma walk_result ns key es m readTS ceiling res :
  (∀ t v, (stamped ns writePrefix key t, v) ∈ es ↔ m !! stamped ns writePrefix key t = Some v) →
  walk ns key es m readTS ceiling res →
  match res with
  | Ok r => snapshot_view ns m key readTS r ∧ ∀ c st, real ns m key c st → ts_le c ceiling → ts_le c readTS
  | Err (UncertaintyError k r c) =>
      k = key ∧ r = readTS ∧ ts_lt readTS c ∧ ts_le c ceiling ∧ (∃ st, real ns m key c st)
      ∧ ∀ c' st', real ns m key c' st' → ts_le c' ceiling → ts_le c' c
  | Err (ErrMissingVersion k c st) =>
      k = key ∧ latest_commit ns m key readTS c st ∧ m !! enc ns (KData key st) = None
  | Err _ => False
  end.
Proof.
  intros Hin Hw.
  assert (Hreal : ∀ c st, real_in ns key es c st ↔ real ns m key c st).
  { intros c st. unfold real_in, real, write_of. split.
    - intros (Hc & v & Hx & Hd). split; [done|]. apply Hin in Hx.
      change (enc ns (KWrite key c)) with (stamped ns writePrefix key c). by rewrite Hx.
    - intros (Hc & Hd). split; [done|].
      change (enc ns (KWrite key c)) with (stamped ns writePrefix key c) in Hd.
      apply bind_Some in Hd as (v & Hm & Hd). exists v. split; [by apply Hin|done]. }
  assert (Hlat : ∀ c st, real_in ns key es c st → ts_le c readTS →
            (∀ c' st', real_in ns key es c' st' → ts_le c' ceiling ∨ ts_le c' readTS → ts_le c' c) →
            latest_commit ns m key readTS c st).
  { intros c st R L N. split; [by apply Hreal|]. split; [done|]. intros c' st' R'%Hreal L'. eauto. }
  destruct Hw as [c st R L1 L2 N|c st v R L N Hv|c st R L N Hv|N].
  - split_and!; try done; [exists st; by apply Hreal|]. intros c' st' R'%Hreal. eauto.
  - split; [by eapply view_some; [apply Hlat|]|]. intros c' st' R'%Hreal L'.
    assert (Hle : ts_le c' c) by eauto. destruct Hle as [Hle| ->]; [left|done].
    destruct L as [L| ->]; [by etrans|done].
  - split_and!; [done|by apply Hlat|done].
  - split; [apply view_none; intros c st R%Hreal; by apply N in R as [_ ?]|].
    intros c st R%Hreal L. by apply N in R as [? _].
Qed.

Lemma GetTxn_answer db key readTS ceiling s :
  eng_wf db → chain_ok (s_ns s) writePrefix (contents db) → key_ok key →
  txn_answer (s_ns s) (contents db) (s_gcMark s) key readTS ceiling (fst (GetTxn db key readTS ceiling s)).
Proof.
  intros Hwf Hc Hk. unfold GetTxn. case_test; [by apply ans_unset|]. cbv zeta.
  set (s1 := s <| s_reads := s_reads s + 1 |>). assert (Hm : s_gcMark s1 = s_gcMark s) by done.
  assert (Hn : s_ns s1 = s_ns s) by done. clearbody s1. rewrite <- Hm, <- Hn in *. clear Hm Hn.
  destruct (LessEq readTS (s_gcMark s1)) eqn:El; [apply ans_below; [done|by apply LessEq_spec]|].
  apply LessEq_false in El. rewrite Store_Lock_eq by done.
  destruct (chain_scan _ _ key db Hwf Hc Hk) as (es & He & Hs & Hkey & Hin).
  assert (Hwalk : (∀ l, lock_of (s_ns s1) (contents db) key = Some l → ts_lt readTS (l_StartTS l)) →
    txn_answer (s_ns s1) (contents db) (s_gcMark s1) key readTS ceiling
      (fst (getTxn_loop db key readTS ceiling None es s1))).
  { intros Hl. apply ans_walk; [done|done|done|]. eapply walk_result; [exact Hin|].
    by apply getTxn_loop_walk. }
  unfold WritePrefix. rewrite He. destruct (lock_of (s_ns s1) (contents db) key) as [l|] eqn:Elk; [|by apply Hwalk].
  destruct (LessEq (l_StartTS l) readTS) eqn:Els.
  - by apply ans_locked; [..|apply LessEq_spec].
  - apply Hwalk. intros l' [= <-]. by apply LessEq_false.
Qed.

End TxnReads.

(** ** Restarts end *)

(** Timestamps as numbers. *)
Definition ts_num (t : Timestamp) : Z := Wall t * 2 ^ 32 + Logical t.

Lemma ts_num_lt t u : ts_ok t → ts_ok u → ts_lt t u → ts_num t < ts_num u.
Proof.
  intros [_ Ht] [_ Hu] Hlt. unfold ts_num, is_u32 in *. destruct Hlt as [?|[? ?]]; nia.
Qed.
Lemma ts_num_le t u : ts_ok t → ts_ok u → ts_le t u → ts_num t ≤ ts_num u.
Proof. intros Ht Hu [H| ->]; [|lia]. apply ts_num_lt in H; [lia|done|done]. Qed.

Section Restarts.
Context {E : Type} `{EngineReads E}.

Lemma orError_uncertain {A} err (a : A) k r c : orError err a ≠ Err (UncertaintyError k r c).
Proof. by destruct err. Qed.

Lemma loop_uncertain db key readTS ceiling err es s k r c :
  fst (getTxn_loop db key readTS ceiling err es s) = Err (UncertaintyError k r c) →
  ts_ok c ∧ ts_lt readTS c ∧ ts_le c ceiling.
Proof.
  induction es as [|[b v] es IH]; cbn [getTxn_loop]; [by intros ?%orError_uncertain|].
  destruct (DecodeWriteKey (s_ns s) b) as [[got t]|] eqn:Eb; [|by intros ?%orError_uncertain].
  apply DecodeWriteKey_some in Eb as (_ & Ht & _).
  case_test; [by intros ?%orError_uncertain|]. destruct (decodeWrite v) as [[st rb]|]; [|done].
  destruct (Less readTS t) eqn:El; [|destruct rb; [done|]; by destruct (eng_get _ _) as [|[]]].
  destruct (negb rb && LessEq t ceiling) eqn:Ec; [|done]. apply andb_true_iff in Ec as [_ Ec].
  intros [= _ _ <-]. split; [done|]. by rewrite <- Less_spec, <- LessEq_spec.
Qed.

Lemma GetTxn_uncertain db key readTS ceiling s k r c :
  fst (GetTxn db key readTS ceiling s) = Err (UncertaintyError k r c) →
  ts_ok c ∧ ts_lt readTS c ∧ ts_le c ceiling.
Proof.
  unfold GetTxn. case_test; [done|]. cbv zeta. case_test; [done|].
  destruct (Store_Lock db key _) as [lk|e] eqn:El.
  - destruct lk as [l|]; [destruct (LessEq (l_StartTS l) readTS); [done|]|];
      destruct (eng_scan _ _ db) as [es err]; apply loop_uncertain.
  - revert El. unfold Store_Lock. destruct (eng_get _ db) as [v|[]]; by intros [= <-].
Qed.

(** One restart: a read at [t], of whatever key and in whatever state of the store, met a
    commit inside the window of the first snapshot, and the transaction takes a new
    snapshot [t'], at the timestamp it is told to restart at or anywhere above it. *)
Definition restart (ceiling t' t : Timestamp) : Prop :=
  ts_ok t ∧ ∃ db key s c, fst (GetTxn db key t ceiling s) = Err (UncertaintyError key t c) ∧ ts_ok t' ∧ ts_le (RestartAt c) t'.

Lemma restart_shrinks ceiling t' t :
  ts_ok ceiling → Wall ceiling < 2 ^ 63 - 1 → restart ceiling t' t →
  ts_num t < ts_num t' ∧ ts_num t < ts_num ceiling.
Proof.
  intros Hc Hroom (Ht & db & key & s & c & Hg & Ht' & Hup). apply GetTxn_uncertain in Hg as (Hok & Hlt & Hle).
  pose proof (ts_num_lt t c Ht Hok Hlt) as H1. pose proof (ts_num_le c ceiling Hok Hc Hle) as H2.
  assert (Hw : Wall c < 2 ^ 63 - 1).
  { destruct Hle as [[Hl|[Hl _]]| ->]; lia. }
  destruct (Next_succ c Hok Hw) as (Hn & Hnok & _). unfold RestartAt in Hup.
  pose proof (ts_num_lt c (Next c) Hok Hnok Hn). pose proof (ts_num_le (Next c) t' Hnok Ht' Hup). lia.
Qed.

(** C26. With the ceiling fixed at a transaction's first snapshot, and below the end of
    64-bit time, its restarts end: whichever keys it reads and whatever other transactions commit in between,
    there is no infinite sequence of snapshots each taken at or above the restart
    timestamp of an uncertain commit that a read at the one before met. *)
Theorem restarts_terminate ceiling :
  ts_ok ceiling → Wall ceiling < 2 ^ 63 - 1 → well_founded (restart ceiling).
Proof.
  intros Hc Hroom. apply (well_founded_lt_compat _ (λ t, Z.to_nat (ts_num ceiling - ts_num t))).
  intros t' t Hr. apply restart_shrinks in Hr; [|done|done]. lia.
Qed.
End Restarts.

(** ** What the staging operations stage *)

(** Only counters move. *)
Definition counters_only (s s' : Store) : Prop := s_ns s' = s_ns s ∧ s_gcMark s' = s_gcMark s.

Definition release_ops (ns : bytes) (m : gmap bytes bytes) (key : bytes) (start : Timestamp) : list Op :=
  match lock_of ns m key with
  | Some l => if decide (l_StartTS l = start) then [OpDelete (enc ns (KLock key))] else []
  | None => []
  end.

(** Every record of the commit chain has a value that decodes. *)
Definition writes_ok (ns : bytes) (m : gmap bytes bytes) : Prop :=
  ∀ key c, key_ok key → wall_ok c → is_Some (m !! enc ns (KWrite key c)) → is_Some (write_of ns m key c).

(** The state of a range's records. *)
Record records_ok (ns : bytes) (m : gmap bytes bytes) : Prop := MkRecordsOk {
  ro_writes : chain_ok ns writePrefix m;
  ro_reads : chain_ok ns readPrefix m;
  ro_values : writes_ok ns m;
}.

(** No record of the key's commit chain, and no read mark of it, is above a
    timestamp. *)
Definition no_commit_above (ns : bytes) (m : gmap bytes bytes) (key : bytes) (t : Timestamp) : Prop :=
  ∀ c, wall_ok c → is_Some (m !! enc ns (KWrite key c)) → ts_le c t.
Definition no_read_above (ns : bytes) (m : gmap bytes bytes) (key : bytes) (t : Timestamp) : Prop :=
  ∀ u, wall_ok u → is_Some (m !! enc ns (KRead key u)) → ts_le u t.

Section Staging.
Context {E : Type} `{EngineLaws E}.
Context (db : E) (Hwf : eng_wf db).

Lemma releaseLockOf_eq key start b s :
  ∃ s', releaseLockOf db key start b s = (Ok (), b ++ release_ops (s_ns s) (contents db) key start, s')
        ∧ counters_only s s'.
Proof using Hwf.
  unfold releaseLockOf, release_ops. rewrite Store_Lock_eq by done.
  destruct (lock_of (s_ns s) (contents db) key) as [l|]; [|rewrite app_nil_r; by eexists].
  unfold Timestamp_Equal. case_bool_decide as Hd; cbn [negb].
  - rewrite decide_True by done. by eexists.
  - rewrite decide_False, app_nil_r by done. by eexists.
Qed.

Lemma CommitInto_eq key start commit b s :
  Timestamp_IsSet start = true → Timestamp_IsSet commit = true → ts_le start commit →
  ∃ s', CommitInto db key start commit b s
        = (Ok (), b ++ OpSet (enc (s_ns s) (KWrite key commit)) (encodeWrite start false)
                    :: release_ops (s_ns s) (contents db) key start, s')
        ∧ counters_only s s'.
Proof using Hwf.
  intros Hs Hc Hle. unfold CommitInto. rewrite Hs, Hc. cbn [negb orb].
  apply LessEq_spec in Hle. unfold LessEq in Hle. apply negb_true_iff in Hle. rewrite Hle. cbv zeta.
  destruct (releaseLockOf_eq key start (Batch_Set (WriteKey (s_ns s) key commit) (encodeWrite start false) b) s)
    as (s' & -> & Hs'). eexists. split; [unfold Batch_Set; by rewrite <- app_assoc|exact Hs'].
Qed.

Lemma RollbackInto_eq key start b s :
  Timestamp_IsSet start = true →
  ∃ s', RollbackInto db key start b s
        = (Ok (), b ++ (OpSet (enc (s_ns s) (KWrite key start)) (encodeWrite start true)
                    :: release_ops (s_ns s) (contents db) key start)
                    ++ [OpDelete (enc (s_ns s) (KData key start))], s')
        ∧ counters_only s s'.
Proof using Hwf.
  intros Hs. unfold RollbackInto. rewrite Hs. cbn [negb]. cbv zeta.
  destruct (releaseLockOf_eq key start (Batch_Set (WriteKey (s_ns s) key start) (encodeWrite start true) b) s)
    as (s' & -> & Hs'). rewrite (proj1 Hs'). eexists.
  split; [unfold Batch_Set, Batch_Delete; by rewrite <- !app_assoc|exact Hs'].
Qed.

Lemma PutTxnInto_eq primary r b s :
  Timestamp_IsSet (r_StartTS r) = true → (r_Status r = TxnCommitted → Timestamp_IsSet (r_CommitTS r) = true) →
  PutTxnInto db primary r b s
  = match txn_of (s_ns s) (contents db) primary (r_StartTS r) with
    | Some _ => (Err (ErrTxnAlreadyDecided primary), b)
    | None => (Ok (), b ++ [OpSet (enc (s_ns s) (KTxn primary (r_StartTS r))) (encodeTxn r)])
    end.
Proof using Hwf.
  intros Hs Hc. unfold PutTxnInto. rewrite Hs. cbn [negb].
  destruct (bool_decide (r_Status r = TxnCommitted) && negb (Timestamp_IsSet (r_CommitTS r))) eqn:Et.
  { apply andb_true_iff in Et as [Et Ec]. bool_hyps. rewrite (Hc Et) in Ec. done. }
  rewrite Store_Txn_eq by done. by destruct (txn_of _ _ _ _).
Qed.

Lemma NoteReadInto_eq key readTS b s :
  Timestamp_IsSet readTS = true → chain_ok (s_ns s) readPrefix (contents db) → key_ok key →
  ∃ r s', newest_at (s_ns s) readPrefix key maxTS (contents db) r ∧ counters_only s s'
    ∧ NoteReadInto db key readTS b s
      = (Ok (), b ++ match r with
                     | Some (c, _) =>
                         if LessEq readTS c then []
                         else [OpDelete (enc (s_ns s) (KRead key c)); OpSet (enc (s_ns s) (KRead key readTS)) []]
                     | None => [OpSet (enc (s_ns s) (KRead key readTS)) []]
                     end, s').
Proof using Hwf.
  intros Hs Hc Hk. destruct (ReadMark_eq db key s Hwf Hc Hk) as (r & Hr & Hm). exists r.
  unfold NoteReadInto. rewrite Hs, Hm. cbn [negb].
  destruct r as [[c v]|]; cbn [fmap option_fmap option_map fst].
  - destruct (LessEq readTS c); eexists; (split; [done|]); (split; [|unfold Batch_Set, Batch_Delete;
      by rewrite ?app_nil_r, <- ?app_assoc]); done.
  - eexists. split; [done|]. split; [|reflexivity]. by split.
Qed.

(** A bound on a whole chain is a bound on its newest record. *)
Lemma chain_bound ns kind key m r t :
  newest_at ns kind key maxTS m r →
  (∀ c, wall_ok c → is_Some (m !! stamped ns kind key c) → ts_le c t)
  ↔ match r with Some (c, _) => Less t c = false | None => True end.
Proof.
  destruct r as [[c v]|]; cbn [newest_at].
  - intros (Hc & _ & Hm & Hn). rewrite <- negb_true_iff. fold (LessEq c t). rewrite LessEq_spec.
    split; [intros Hall; apply Hall; [done|by eexists]|].
    intros Hle c' Hc' Hs. assert (ts_le c' c) as [Hl| ->] by (apply Hn; [done|apply ts_le_max, Hc'|done]); [|done].
    left. destruct Hle as [Hle| ->]; [by etrans|done].
  - intros Hn. split; [done|]. intros _ c Hc [v Hv]. rewrite Hn in Hv; [done|done|apply ts_le_max, Hc].
Qed.

Lemma newestCommit_guard key t s :
  records_ok (s_ns s) (contents db) → key_ok key →
  ∃ r, newestCommit db key s = Ok r
    ∧ (no_commit_above (s_ns s) (contents db) key t
       ↔ match r with Some (c, _) => Less t c = false | None => True end).
Proof using Hwf.
  intros [Hw _ Hv] Hk. destruct (newestCommit_eq db key s Hwf Hw Hk) as (r & Hn & ->).
  eexists. split; [reflexivity|]. pose proof (chain_bound _ _ _ _ _ t Hn) as Hb.
  etrans; [exact Hb|]. destruct r as [[c v]|]; [|done]. destruct Hn as (Hc & _ & Hm & _).
  destruct (Hv key c Hk Hc) as [[st rb] Hd]; [by exists v|].
  unfold write_of in Hd. cbn [enc] in Hd. unfold stamped, WriteKey in *. rewrite Hm in Hd.
  cbn [mbind option_bind] in *. by rewrite Hd.
Qed.

Lemma refuseIfReadAbove_guard key t s :
  records_ok (s_ns s) (contents db) → key_ok key →
  ∃ r s', refuseIfReadAbove db key t s = (r, s') ∧ counters_only s s'
    ∧ match r with
      | Ok _ => no_read_above (s_ns s) (contents db) key t
      | Err _ => ¬ no_read_above (s_ns s) (contents db) key t
      end.
Proof using Hwf.
  intros [_ Hr _] Hk. destruct (ReadMark_eq db key s Hwf Hr Hk) as (q & Hq & Hm).
  pose proof (chain_bound _ _ _ _ _ t Hq) as Hb. unfold refuseIfReadAbove. rewrite Hm.
  destruct q as [[u w]|]; cbn [fmap option_fmap option_map fst];
    [|eexists _, _; split; [reflexivity|]; split; [done|exact (proj2 Hb I)]].
  destruct (Less t u) eqn:El; cbn [negb]; eexists _, _; (split; [reflexivity|]); (split; [done|]).
  - intros Hn. by apply (proj1 Hb) in Hn.
  - exact (proj2 Hb eq_refl).
Qed.

(** The three guards of a prewrite, and the two refusals before them. *)
Definition can_prewrite (s : Store) (m : gmap bytes bytes) (key : bytes) (start : Timestamp) : Prop :=
  Timestamp_IsSet start = true ∧ ts_lt (s_gcMark s) start ∧ lock_of (s_ns s) m key = None
  ∧ no_commit_above (s_ns s) m key start ∧ no_read_above (s_ns s) m key start.

Definition prewrite_ops (ns key : bytes) (l : Lock) (value : bytes) : list Op :=
  [OpSet (enc ns (KLock key)) (encodeLock l); OpSet (enc ns (KData key (l_StartTS l))) value].

Lemma PrewriteInto_eq key l value b s :
  records_ok (s_ns s) (contents db) → key_ok key →
  ∃ s', counters_only s s'
    ∧ ((can_prewrite s (contents db) key (l_StartTS l)
        ∧ PrewriteInto db key l value b s = (Ok (), b ++ prewrite_ops (s_ns s) key l value, s'))
       ∨ (¬ can_prewrite s (contents db) key (l_StartTS l)
          ∧ ∃ e, PrewriteInto db key l value b s = (Err e, b, s'))).
Proof using Hwf.
  intros Hro Hk. unfold PrewriteInto, can_prewrite.
  destruct (Timestamp_IsSet (l_StartTS l)) eqn:Eset; cbn [negb];
    [|exists s; split; [done|]; right; split; [by intros [? _]|by eexists]].
  destruct (LessEq (l_StartTS l) (s_gcMark s)) eqn:Egc.
  { exists s. split; [done|]. right. split; [|by eexists]. intros (_ & Hlt & _).
    apply LessEq_false in Hlt. congruence. }
  apply LessEq_false in Egc. rewrite Store_Lock_eq by done.
  destruct (lock_of (s_ns s) (contents db) key) as [cur|];
    [exists s; split; [done|]; right; split; [by intros (_ & _ & ? & _)|by eexists]|].
  destruct (newestCommit_guard key (l_StartTS l) s Hro Hk) as (r & -> & Hb).
  destruct (refuseIfReadAbove_guard key (l_StartTS l) s Hro Hk) as (q & s' & Href & Hs' & Hq). cbv zeta.
  setoid_rewrite Hb. destruct r as [[c st]|]; [destruct (Less (l_StartTS l) c) eqn:Elc|].
  1: { exists s. split; [done|]. right. split; [by intros (_ & _ & _ & ? & _)|by eexists]. }
  all: rewrite Href; destruct q as [[]|e];
    [|exists s'; split; [done|]; right; split; [by intros (_ & _ & _ & _ & ?)|by eexists]].
  all: eexists; (split; [|left; split; [done|]; unfold Batch_Set; rewrite <- app_assoc, (proj1 Hs'); reflexivity]);
    exact Hs'.
Qed.
End Staging.

(** A prewrite succeeds exactly when its guards hold -- the timestamp is set
    and above the mark, the key is not locked, and neither a commit record nor a
    read mark of the key is above the start -- and then stages the lock and the
    value; otherwise it fails and the batch is as it was.  On any engine. *)
Theorem PrewriteInto_spec {E} `{EngineLaws E} (db : E) key l value b s :
  eng_wf db → records_ok (s_ns s) (contents db) → key_ok key →
  ∃ s', counters_only s s'
    ∧ ((can_prewrite s (contents db) key (l_StartTS l)
        ∧ PrewriteInto db key l value b s = (Ok (), b ++ prewrite_ops (s_ns s) key l value, s'))
       ∨ (¬ can_prewrite s (contents db) key (l_StartTS l)
          ∧ ∃ e, PrewriteInto db key l value b s = (Err e, b, s'))).
Proof. intros Hwf Hro Hk. by apply PrewriteInto_eq. Qed.

(** ** Witnesses *)

Definition lockX : Lock := MkLock k1 ts5 ts9.

Lemma dbK_writes kind : kind ≠ dataPrefix → chain_ok (s_ns storeK) kind (contents dbK).
Proof.
  intros Hkind b v Hb Hp. apply (emap_lookup entriesK) in Hb; [|exact (proj1 dbK_wf)].
  repeat (apply elem_of_cons in Hb as [[= -> ->]|Hb]); [..|by apply elem_of_nil in Hb];
    destruct Hp as [z Hz]; apply (f_equal (lookup 1%nat)) in Hz; cbn in Hz; injection Hz as Hz; by destruct Hkind.
Qed.

Lemma dbK_records : records_ok (s_ns storeK) (contents dbK).
Proof.
  split; [by apply dbK_writes..|]. intros key c Hk Hc [v Hv]. exfalso.
  destruct (dbK_writes writePrefix) with (b := enc ns0 (KWrite key c)) (v := v) as (k & t & _ & _ & _); [done|done| |].
  - cbn [enc]. unfold WriteKey. rewrite appendInvertedTS_app. apply metaKey_kind_prefix.
  - apply (emap_lookup entriesK) in Hv; [|exact (proj1 dbK_wf)].
    repeat (apply elem_of_cons in Hv as [[= He _]|Hv]); [..|by apply elem_of_nil in Hv];
      (apply (f_equal (lookup 1%nat)) in He; by cbn in He).
Qed.

Lemma records_roundtrip_witness :
  decodeLock (encodeLock lockX) = Some lockX ∧ decodeWrite (encodeWrite ts5 false) = Some (ts5, false)
  ∧ decodeTxn (encodeTxn (MkTxnRecord TxnCommitted ts5 ts9)) = Some (MkTxnRecord TxnCommitted ts5 ts9).
Proof.
  apply (records_roundtrip lockX ts5 false (MkTxnRecord TxnCommitted ts5 ts9)); repeat split; by vm_compute.
Defined.

(** A transaction that began at 5 committed one key at 9. *)
Definition entriesR : list entry := [(EncodeKey ns0 k0 ts5, val1); (WriteKey ns0 k0 ts9, encodeWrite ts5 false)].
Definition dbR : DB := MkDB (MkVersion entriesR 1) [] 1 false 0 0 0.
Lemma dbR_wf : eng_wf dbR.
Proof. cbn. unfold sorted_entries. cbn. by repeat constructor. Qed.
Lemma dbR_writes : chain_ok (s_ns storeK) writePrefix (contents dbR).
Proof.
  intros b v Hb Hp. apply (emap_lookup entriesR) in Hb; [|exact (proj1 dbR_wf)].
  apply elem_of_cons in Hb as [[= -> ->]|Hb].
  { exfalso. destruct Hp as [z Hz]. apply (f_equal (lookup 1%nat)) in Hz. cbn in Hz. by injection Hz. }
  apply elem_of_cons in Hb as [[= -> ->]|Hb]; [|by apply elem_of_nil in Hb]. by exists k0, ts9.
Qed.


(** The read at 8 is restarted, and a node mints 20 for it. *)
Lemma restarts_terminate_witness : restart ts9 (MkTimestamp 20 0) (MkTimestamp 8 0) ∧ well_founded (restart (E := DB) ts9).
Proof.
  split.
  - split; [split; by vm_compute|]. exists dbR, k0, storeK, ts9. split; [by vm_compute|]. split; [split; by vm_compute|]. left. left. by vm_compute.
  - apply (restarts_terminate ts9); [split; by vm_compute|by vm_compute].
Defined.

Lemma PrewriteInto_spec_witness :
  ∃ s', counters_only storeK s'
    ∧ ((can_prewrite storeK (contents dbK) k0 ts5
        ∧ PrewriteInto dbK k0 lockX val1 NewBatch storeK = (Ok (), NewBatch ++ prewrite_ops ns0 k0 lockX val1, s'))
       ∨ (¬ can_prewrite storeK (contents dbK) k0 ts5
          ∧ ∃ e, PrewriteInto dbK k0 lockX val1 NewBatch storeK = (Err e, NewBatch, s'))).
Proof. apply (PrewriteInto_spec dbK k0 lockX val1 NewBatch storeK); [exact dbK_wf|exact dbK_records|by vm_compute]. Defined.

Example prewrite_succeeds :
  fst (PrewriteInto dbK k0 lockX val1 NewBatch storeK) = (Ok (), prewrite_ops ns0 k0 lockX val1).
Proof. by vm_compute. Qed.
