(* ===== verification/EngineMap.v ===== *)
(** * The canonical engine: a finite map

    Every lawful engine answers reads as the map of its contents would.  The map
    itself is therefore an instance of the reading interface, and an operation
    that only reads through the interface gives the same answer on any engine as
    on its contents: the answer is a function of the applied state. *)

From Stdlib Require Import Lia ZArith.
From stdpp Require Import base tactics numbers option gmap list sorting.
From S2P Require Import Prelude Bytes Hlc Engine KvEncoding EngineIface KvStore KvTxn.

Definition entry_le (x y : entry) : Prop := bytes_le (fst x) (fst y).
#[global] Instance entry_le_dec : RelDecision entry_le.
Proof. intros x y. unfold entry_le. apply _. Defined.
#[global] Instance entry_le_total : Total entry_le.
Proof.
  intros x y. unfold entry_le. rewrite !bytes_le_lteq.
  destruct (bytes_lt_total (fst x) (fst y)) as [|[|]]; auto.
Qed.
#[global] Instance entry_le_trans : Transitive entry_le.
Proof. intros x y z. unfold entry_le. apply bytes_le_trans. Qed.

(** The pairs of a map in key order. *)
Definition map_entries (m : gmap bytes bytes) : list entry := merge_sort entry_le (map_to_list m).

#[global] Instance Map_reads : EngineReads (gmap bytes bytes) := {|
  eng_get k m := match m !! k with Some v => Ok v | None => Err ErrNotFound end;
  eng_scan lo hi m := (filter (λ x, InRange (fst x) lo hi = true) (map_entries m), None);
  eng_seek lo hi k m :=
    (head (filter (λ x, bytes_le k (fst x)) (filter (λ x, InRange (fst x) lo hi = true) (map_entries m))), None);
|}.

Lemma map_entries_perm m : map_entries m ≡ₚ map_to_list m.
Proof. apply merge_sort_Permutation. Qed.

Lemma map_entries_elem m k v : (k, v) ∈ map_entries m ↔ m !! k = Some v.
Proof. by rewrite map_entries_perm, elem_of_map_to_list. Qed.

Lemma map_entries_sorted m : sorted_entries (map_entries m).
Proof.
  assert (Hs : StronglySorted entry_le (map_entries m)) by apply (StronglySorted_merge_sort entry_le).
  assert (Hn : NoDup (map_entries m).*1) by (rewrite map_entries_perm; apply NoDup_fst_map_to_list).
  unfold sorted_entries. induction Hs as [|x xs Hs IH Hf]; [constructor|].
  cbn in *. apply NoDup_cons in Hn as [Hx Hn]. constructor; [by apply IH|].
  apply Forall_fmap, Forall_forall. intros y Hy. rewrite Forall_forall in Hf. specialize (Hf y Hy).
  unfold entry_le in Hf. apply bytes_le_lteq in Hf as [|He]; [done|].
  destruct Hx. rewrite He. by apply list_elem_of_fmap_2.
Qed.

#[global] Program Instance Map_laws : EngineLaws (gmap bytes bytes) := {|
  eng_wf := λ _, True;
  contents := λ m, m;
|}.
Next Obligation. done. Qed.
Next Obligation.
  intros m lo hi _. cbn. eexists. split; [reflexivity|]. split; [apply sorted_filter, map_entries_sorted|].
  intros k v. rewrite list_elem_of_filter, map_entries_elem. tauto.
Qed.
Next Obligation. done. Qed.

Lemma map_wf (m : gmap bytes bytes) : eng_wf m.
Proof. done. Qed.

#[global] Program Instance Map_writes : EngineWrites (gmap bytes bytes) := {|
  eng_apply b m := foldl spec_op m b;
|}.
Next Obligation. done. Qed.

(** Sorted lists of pairs with the same elements are equal. *)
Lemma sorted_unique es es' :
  sorted_entries es → sorted_entries es' → (∀ x, x ∈ es ↔ x ∈ es') → es = es'.
Proof.
  revert es'. induction es as [|x es IH]; intros [|y es'] Hs Hs' Hin; [done| | |].
  - exfalso. assert (Hy : y ∈ []) by (apply Hin; left). by apply elem_of_nil in Hy.
  - exfalso. assert (Hx : x ∈ []) by (apply Hin; left). by apply elem_of_nil in Hx.
  - apply sorted_cons in Hs as [Hx Hs], Hs' as [Hy Hs']. rewrite Forall_forall in Hx, Hy.
    assert (x = y) as <-.
    { assert (Hxy : x ∈ y :: es') by (apply Hin; left). assert (Hyx : y ∈ x :: es) by (apply Hin; left).
      apply elem_of_cons in Hxy as [|Hxy]; [done|]. apply elem_of_cons in Hyx as [|Hyx]; [done|].
      exfalso. apply (bytes_lt_irrefl (fst x)). eapply bytes_lt_trans; [by apply Hx|by apply Hy]. }
    f_equal. apply IH; [done|done|]. intros z. split; intros Hz.
    + assert (Hz' : z ∈ x :: es') by (apply Hin; by right). apply elem_of_cons in Hz' as [->|]; [|done].
      exfalso. by apply (bytes_lt_irrefl (fst x)), Hx.
    + assert (Hz' : z ∈ x :: es) by (apply Hin; by right). apply elem_of_cons in Hz' as [->|]; [|done].
      exfalso. by apply (bytes_lt_irrefl (fst x)), Hy.
Qed.

(** ** Answers are functions of a range's records *)

(** An engine key of a namespace. *)
Definition in_ns (ns k : bytes) : Prop := ∃ kind, kind ∈ kinds ∧ (ns ++ [kind]) `prefix_of` k.

Lemma in_ns_owns k s : in_ns (s_ns s) k ↔ owns k s = true.
Proof. by rewrite owns_spec. Qed.

Lemma in_ns_enc ns r : in_ns ns (enc ns r).
Proof.
  exists (rkey_kind r). split; [destruct r; cbn; set_solver|]. rewrite enc_meta. apply metaKey_kind_prefix.
Qed.

(** A range of engine keys inside the namespace. *)
Definition inside (ns : bytes) (lo hi : option bytes) : Prop := ∀ x, InRange x lo hi = true → in_ns ns x.

Lemma inside_meta ns kind key : kind ∈ kinds → inside ns (Some (metaKey ns kind key)) (prefixEnd (metaKey ns kind key)).
Proof.
  intros Hk x [r ->]%prefixEnd_in. exists kind. split; [done|]. apply metaKey_kind_prefix.
Qed.
Lemma inside_kind ns kind : kind ∈ kinds → inside ns (Some (ns ++ [kind])) (prefixEnd (ns ++ [kind])).
Proof. intros Hk x Hx%prefixEnd_in. by exists kind. Qed.

(** Two engines that hold the same records of a namespace, as its readers see
    them. *)
Record agree {E1 E2} `{EngineReads E1} `{EngineReads E2} (ns : bytes) (db1 : E1) (db2 : E2) : Prop := MkAgree {
  ag_get k : in_ns ns k → eng_get k db1 = eng_get k db2;
  ag_scan lo hi : inside ns lo hi → eng_scan lo hi db1 = eng_scan lo hi db2;
  ag_seek lo hi k : inside ns lo hi → eng_seek lo hi k db1 = eng_seek lo hi k db2;
  ag_records s : s_ns s = ns → Records db1 s = Records db2 s;
}.

(** The records of a namespace. *)
Definition mine (ns : bytes) (m : gmap bytes bytes) : gmap bytes bytes :=
  filter (λ x, owns (fst x) (MkStore ns zeroTimestamp 0 0 0 0 0 0 0 0 0 0 0 0 0 0) = true) m.

Lemma mine_lookup (ns : bytes) (m : gmap bytes bytes) (k : bytes) (s : Store) : s_ns s = ns → mine ns m !! k = if owns k s then m !! k else None.
Proof.
  intros <-. unfold mine. destruct (owns k s) eqn:Eo.
  - destruct (m !! k) as [v|] eqn:Em; [apply map_lookup_filter_Some; done|apply map_lookup_filter_None; by left].
  - apply map_lookup_filter_None. right. intros v _. cbn [fst]. intros Ho. unfold owns in Ho, Eo. cbn [s_ns] in Ho. congruence.
Qed.

Section Canonical.
Context {E : Type} `{EngineLaws E} (db : E) (Hwf : eng_wf db).

Lemma scan_unique {E'} `{EngineLaws E'} (db' : E') lo hi :
  eng_wf db' →
  (∀ k, InRange k lo hi = true → contents db !! k = contents db' !! k) → eng_scan lo hi db = eng_scan lo hi db'.
Proof using Hwf.
  intros Hwf' Hsame. destruct (eng_scan_law db lo hi Hwf) as (es & He & Hs & Hin).
  destruct (eng_scan_law db' lo hi Hwf') as (es' & He' & Hs' & Hin').
  rewrite He, He'. f_equal. apply sorted_unique; [done|done|]. intros [k v]. rewrite Hin, Hin'.
  split; intros [Hk Hr]; (split; [|done]); [by rewrite <- Hsame|by rewrite Hsame].
Qed.

(** Engines with the same records of the namespace agree on it. *)
Lemma agree_of {E'} `{EngineLaws E'} (db' : E') ns :
  eng_wf db' → (∀ k, in_ns ns k → contents db !! k = contents db' !! k) → agree ns db db'.
Proof using Hwf.
  intros Hwf' Hsame. assert (Hscan : ∀ lo hi, inside ns lo hi → eng_scan lo hi db = eng_scan lo hi db').
  { intros lo hi Hin. apply scan_unique; [done|]. intros k Hk. by apply Hsame, Hin. }
  split; [| |intros lo hi k Hin; rewrite !eng_seek_law, (Hscan lo hi) by done; done|].
  - intros k Hk. rewrite !eng_get_law by done. by rewrite Hsame.
  - done.
  - intros s Hs. destruct (Records_entries db s Hwf) as (es & He & Hso & Hm).
    destruct (Records_entries db' s Hwf') as (es' & He' & Hso' & Hm'). rewrite He, He'. do 2 f_equal.
    apply sorted_unique; [done|done|]. intros [k v]. rewrite <- !emap_lookup, Hm, Hm' by done.
    destruct (owns k s) eqn:Eo; [|done]. rewrite Hsame; [done|]. rewrite <- Hs. by apply in_ns_owns.
Qed.
End Canonical.

Lemma agree_contents {E} `{EngineLaws E} (db : E) ns : eng_wf db → agree ns db (contents db).
Proof. intros Hwf. apply (agree_of db Hwf (contents db)); [apply map_wf|done]. Qed.

Lemma agree_mine (ns : bytes) (m : gmap bytes bytes) : agree ns m (mine ns m).
Proof.
  apply (agree_of m (map_wf m) (mine ns m)); [apply map_wf|]. intros k Hk. cbn [contents Map_laws].
  rewrite (mine_lookup ns m k (MkStore ns zeroTimestamp 0 0 0 0 0 0 0 0 0 0 0 0 0 0)) by done.
  rewrite (proj1 (in_ns_owns k (MkStore ns zeroTimestamp 0 0 0 0 0 0 0 0 0 0 0 0 0 0))) by done. done.
Qed.

Ltac in_kinds := unfold kinds; rewrite ?elem_of_cons; tauto.

Section Agree.
Context {E1 E2 : Type} `{EngineReads E1} `{EngineReads E2} (db1 : E1) (db2 : E2).
Context (s : Store) (Ha : agree (s_ns s) db1 db2).

Lemma get_agree r : eng_get (enc (s_ns s) r) db1 = eng_get (enc (s_ns s) r) db2.
Proof using Ha. apply (ag_get _ _ _ Ha), in_ns_enc. Qed.
Lemma scan_agree kind key :
  kind ∈ kinds →
  eng_scan (Some (metaKey (s_ns s) kind key)) (prefixEnd (metaKey (s_ns s) kind key)) db1
  = eng_scan (Some (metaKey (s_ns s) kind key)) (prefixEnd (metaKey (s_ns s) kind key)) db2.
Proof using Ha. intros Hk. apply (ag_scan _ _ _ Ha). by apply inside_meta. Qed.

Lemma Store_Lock_agree key : Store_Lock db1 key s = Store_Lock db2 key s.
Proof using Ha. unfold Store_Lock. change (LockKey (s_ns s) key) with (enc (s_ns s) (KLock key)). by rewrite get_agree. Qed.
Lemma Store_Txn_agree p t : Store_Txn db1 p t s = Store_Txn db2 p t s.
Proof using Ha. unfold Store_Txn. change (TxnKey (s_ns s) p t) with (enc (s_ns s) (KTxn p t)). by rewrite get_agree. Qed.
Lemma newestCommit_agree key : newestCommit db1 key s = newestCommit db2 key s.
Proof using Ha. unfold newestCommit, WritePrefix. rewrite scan_agree by in_kinds. done. Qed.
Lemma ReadMark_agree key : ReadMark db1 key s = ReadMark db2 key s.
Proof using Ha. unfold ReadMark, ReadMarkPrefix. rewrite scan_agree by in_kinds. done. Qed.
Lemma refuse_agree key t : refuseIfReadAbove db1 key t s = refuseIfReadAbove db2 key t s.
Proof using Ha. unfold refuseIfReadAbove. by rewrite ReadMark_agree. Qed.
Lemma Prewrite_agree key l v b : PrewriteInto db1 key l v b s = PrewriteInto db2 key l v b s.
Proof using Ha. unfold PrewriteInto. by rewrite Store_Lock_agree, newestCommit_agree, refuse_agree. Qed.
Lemma release_agree key t b : releaseLockOf db1 key t b s = releaseLockOf db2 key t b s.
Proof using Ha. unfold releaseLockOf. by rewrite Store_Lock_agree. Qed.
Lemma Commit_agree key t c b : CommitInto db1 key t c b s = CommitInto db2 key t c b s.
Proof using Ha. unfold CommitInto. cbv zeta. by rewrite release_agree. Qed.
Lemma Rollback_agree key t b : RollbackInto db1 key t b s = RollbackInto db2 key t b s.
Proof using Ha. unfold RollbackInto. cbv zeta. by rewrite release_agree. Qed.
Lemma PutTxn_agree p r b : PutTxnInto db1 p r b s = PutTxnInto db2 p r b s.
Proof using Ha. unfold PutTxnInto. by rewrite Store_Txn_agree. Qed.
Lemma NoteRead_agree key t b : NoteReadInto db1 key t b s = NoteReadInto db2 key t b s.
Proof using Ha. unfold NoteReadInto. by rewrite ReadMark_agree. Qed.
Lemma ResolveLock_agree l t p : ResolveLock db1 l t p s = ResolveLock db2 l t p s.
Proof using Ha. unfold ResolveLock. by rewrite Store_Txn_agree. Qed.
Lemma AdvanceGC_agree t b : AdvanceGCInto db1 t b s = AdvanceGCInto db2 t b s.
Proof using Ha. unfold AdvanceGCInto. cbv zeta. rewrite (ag_scan _ _ _ Ha); [done|]. apply inside_kind. in_kinds. Qed.
Lemma Versions_agree : Versions db1 s = Versions db2 s.
Proof using Ha. unfold Versions. cbv zeta. rewrite (ag_scan _ _ _ Ha); [done|]. apply inside_kind. in_kinds. Qed.
Lemma Keys_agree : Keys db1 s = Keys db2 s.
Proof using Ha. unfold Keys. by rewrite Versions_agree. Qed.
Lemma Records_agree : Records db1 s = Records db2 s.
Proof using Ha. by apply (ag_records _ _ _ Ha). Qed.
Lemma ReadAt_agree key t : ReadAt db1 key t s = ReadAt db2 key t s.
Proof using Ha.
  unfold ReadAt. cbv zeta. rewrite KeyPrefix_meta. rewrite (ag_seek _ _ _ Ha); [done|]. apply inside_meta. in_kinds.
Qed.
Lemma getTxn_loop_agree key t c err es :
  getTxn_loop db1 key t c err es s = getTxn_loop db2 key t c err es s.
Proof using Ha.
  induction es as [|[k v] es IH]; cbn [getTxn_loop]; [done|].
  destruct (DecodeWriteKey (s_ns s) k) as [[? ?]|]; [|done]. rewrite IH.
  destruct (negb _); [done|]. destruct (decodeWrite v) as [[st ?]|]; [|done].
  change (EncodeKey (s_ns s) key st) with (enc (s_ns s) (KData key st)). by rewrite get_agree.
Qed.
End Agree.

(** ... with the counters an operation updates before it reads. *)
Lemma ApplyResolution_agree {E1 E2} `{EngineReads E1} `{EngineReads E2} (db1 : E1) (db2 : E2) key l r c b s :
  agree (s_ns s) db1 db2 → ApplyResolutionInto db1 key l r c b s = ApplyResolutionInto db2 key l r c b s.
Proof. intros Ha. destruct r; cbn [ApplyResolutionInto]; [done|by apply Commit_agree|by apply Rollback_agree]. Qed.

Lemma GetTxn_agree {E1 E2} `{EngineReads E1} `{EngineReads E2} (db1 : E1) (db2 : E2) key t c s :
  agree (s_ns s) db1 db2 → GetTxn db1 key t c s = GetTxn db2 key t c s.
Proof.
  intros Ha. unfold GetTxn. cbv zeta. set (s1 := s <| s_reads := s_reads s + 1 |>).
  assert (Ha1 : agree (s_ns s1) db1 db2) by exact Ha. clearbody s1.
  rewrite (Store_Lock_agree db1 db2 s1 Ha1). unfold WritePrefix. rewrite (scan_agree db1 db2 s1 Ha1) by in_kinds.
  destruct (negb _); [done|]. destruct (LessEq _ _); [done|].
  destruct (Store_Lock _ _ _) as [lk|]; [|done]. destruct (match lk with Some _ => _ | None => _ end); [done|].
  destruct (eng_scan _ _ _). by apply getTxn_loop_agree.
Qed.
