(* ===== verification/StoreCodec.v ===== *)
(** * Wire and storage encodings of the range store
    (store/codec.go, store/range.go, store/txncmd.go, and the frame and key
    functions of store/machine.go and store/node.go)

    Big-endian fixed-width integers and length-prefixed byte strings, and the
    records built from them.  A decoder is an [option]: [None] is the [false] the
    source returns.  A Go [string] is its bytes. *)

From Stdlib Require Import Lia ZArith.
From stdpp Require Import base tactics numbers option gmap list.
From S2P Require Import Prelude Bytes ConfChange RaftTypes Hlc Engine KvEncoding KvStore KvTxn.

(** ** The primitives *)

Definition putU64 (b : bytes) (v : Z) : bytes := b ++ be_put 8 v.

Definition takeU64 (b : bytes) : option (Z * bytes) :=
  if (length b <? 8)%nat then None else Some (be_get (take 8 b), drop 8 b).

Definition putBytes (b v : bytes) : bytes := (b ++ be_put 4 (u32 (Z.of_nat (length v)))) ++ v.

Definition takeBytes (b : bytes) : option (bytes * bytes) :=
  if (length b <? 4)%nat then None
  else
    let n := be_get (take 4 b) in
    let b := drop 4 b in
    if Z.of_nat (length b) <? n then None else Some (take (Z.to_nat n) b, drop (Z.to_nat n) b).

(** A counted loop over a decoder that consumes at least one byte or fails: [for
    range n].  The fuel is the number of bytes left, so it runs out only where
    the decoder would fail on the empty string. *)
Fixpoint takeN {A} (f : bytes → option (A * bytes)) (fuel : nat) (n : Z) (b : bytes) : option (list A * bytes) :=
  if n <=? 0 then Some ([], b)
  else match fuel with
       | O => None
       | S fuel => '(x, b) ← f b; '(xs, b) ← takeN f fuel (n - 1) b; Some (x :: xs, b)
       end.

(** The two 8-byte words of a timestamp in the store's encodings: [Logical] is
    widened to 64 bits on the way out and truncated on the way in. *)
Definition putTS64 (b : bytes) (t : Timestamp) : bytes := putU64 (putU64 b (u64 (Wall t))) (Logical t).

Definition takeTS64 (b : bytes) : option (Timestamp * bytes) :=
  '(w, b) ← takeU64 b; '(l, b) ← takeU64 b; Some (MkTimestamp (i64 w) (u32 l), b).

(** ** Raft records *)

Definition EntryType_code (t : EntryType) : byte :=
  match t with
  | EntryNormal => Byte.x01
  | EntryConfChange => Byte.x02
  | numEntryTypes => Byte.x03
  | EntryTypeOther c => c
  end.

Definition EntryType_of (b : byte) : EntryType :=
  match b with
  | Byte.x01 => EntryNormal
  | Byte.x02 => EntryConfChange
  | Byte.x03 => numEntryTypes
  | b => EntryTypeOther b
  end.

Definition MessageType_code (t : MessageType) : byte :=
  match t with
  | MsgVote => Byte.x01
  | MsgVoteResp => Byte.x02
  | MsgApp => Byte.x03
  | MsgAppResp => Byte.x04
  | MsgPreVote => Byte.x05
  | MsgPreVoteResp => Byte.x06
  | MsgSnap => Byte.x07
  | MsgTimeoutNow => Byte.x08
  | MsgReadIndex => Byte.x09
  | MsgReadIndexResp => Byte.x0a
  | numMessageTypes => Byte.x0b
  | MsgOther c => c
  end.

Definition MessageType_of (b : byte) : MessageType :=
  match b with
  | Byte.x01 => MsgVote
  | Byte.x02 => MsgVoteResp
  | Byte.x03 => MsgApp
  | Byte.x04 => MsgAppResp
  | Byte.x05 => MsgPreVote
  | Byte.x06 => MsgPreVoteResp
  | Byte.x07 => MsgSnap
  | Byte.x08 => MsgTimeoutNow
  | Byte.x09 => MsgReadIndex
  | Byte.x0a => MsgReadIndexResp
  | Byte.x0b => numMessageTypes
  | b => MsgOther b
  end.

Definition encodeHardState (hs : HardState) : bytes := putU64 (putU64 [] (hs_Term hs)) (hs_Vote hs).

Definition decodeHardState (b : bytes) : HardState :=
  match takeU64 b with
  | None => MkHardState 0 0
  | Some (t, b) => match takeU64 b with None => MkHardState 0 0 | Some (v, _) => MkHardState t v end
  end.

Definition encodeEntry (e : Entry) : bytes :=
  let b := [EntryType_code (e_Type e)] in
  let b := putU64 b (e_Term e) in
  let b := putU64 b (e_Index e) in
  let b := putU64 b (pid_Node (e_ID e)) in
  let b := putU64 b (pid_Seq (e_ID e)) in
  putBytes b (e_Data e).

Definition decodeEntry (b : bytes) : option Entry :=
  match b with
  | [] => None
  | et :: b =>
      '(t, b) ← takeU64 b;
      '(i, b) ← takeU64 b;
      '(pn, b) ← takeU64 b;
      '(ps, b) ← takeU64 b;
      '(d, _) ← takeBytes b;
      Some (MkEntry (EntryType_of et) t i (MkProposalID pn ps) d)
  end.

Definition encodeSnapshot (meta : SnapshotMeta) (data : bytes) : bytes :=
  let b := putU64 [] (sm_Index meta) in
  let b := putU64 b (sm_Term meta) in
  let b := putBytes b (EncodeConfiguration (sm_Conf meta)) in
  putBytes b data.

Definition decodeSnapshot (b : bytes) : option (SnapshotMeta * bytes) :=
  '(idx, b) ← takeU64 b;
  '(term, b) ← takeU64 b;
  '(confRaw, b) ← takeBytes b;
  conf ← DecodeConfiguration confRaw;
  '(data, _) ← takeBytes b;
  Some (MkSnapshotMeta idx term conf, data).

Definition encodeMessage (m : Message) : bytes :=
  let b := [MessageType_code (m_Type m)] in
  let b := putU64 b (m_From m) in
  let b := putU64 b (m_To m) in
  let b := putU64 b (m_Term m) in
  let b := putU64 b (m_LastLogIndex m) in
  let b := putU64 b (m_LastLogTerm m) in
  let b := putU64 b (m_PrevLogIndex m) in
  let b := putU64 b (m_PrevLogTerm m) in
  let b := putU64 b (m_LeaderCommit m) in
  let b := putU64 b (m_MatchIndex m) in
  let b := putU64 b (m_Hint m) in
  let b := putU64 b (m_SnapIndex m) in
  let b := putU64 b (m_SnapTerm m) in
  let b := putBytes b (m_SnapData m) in
  let b := putBytes b (m_SnapConf m) in
  let b := putBytes b (m_ReadCtx m) in
  let b := putU64 b (m_ReadIndex m) in
  let flags := 0 in
  let flags := if m_Granted m then Z.lor flags 1 else flags in
  let flags := if m_Success m then Z.lor flags 2 else flags in
  let b := b ++ [z2b flags] in
  let b := b ++ be_put 4 (u32 (Z.of_nat (length (m_Entries m)))) in
  foldl (λ b e, putBytes b (encodeEntry e)) b (m_Entries m).

Definition takeEntry (b : bytes) : option (Entry * bytes) :=
  '(raw, rest) ← takeBytes b; e ← decodeEntry raw; Some (e, rest).

Definition decodeMessage (b : bytes) : option Message :=
  match b with
  | [] => None
  | ty :: b =>
      '(vals, b) ← takeN takeU64 12 12 b;
      let at_ i := nth i vals 0 in
      '(sd, b) ← takeBytes b;
      '(sc, b) ← takeBytes b;
      '(rc, b) ← takeBytes b;
      '(ri, b) ← takeU64 b;
      match b with
      | [] => None
      | fl :: b =>
          if (length b <? 4)%nat then None
          else
            let n := be_get (take 4 b) in
            let b := drop 4 b in
            '(es, _) ← takeN takeEntry (length b) n b;
            Some (MkMessage (MessageType_of ty) (at_ 0%nat) (at_ 1%nat) (at_ 2%nat) (at_ 3%nat) (at_ 4%nat)
                    (negb (Z.land (b2z fl) 1 =? 0)) (negb (Z.land (b2z fl) 2 =? 0))
                    (at_ 5%nat) (at_ 6%nat) es (at_ 7%nat) (at_ 8%nat) (at_ 9%nat) (at_ 10%nat) (at_ 11%nat)
                    sd sc rc ri)
      end
  end.

Definition encodeReadCtx (node : NodeID) (seq : Z) : bytes := putU64 (putU64 [] node) seq.

(** ** Ranges *)

(** [End] is [None] where the source has [nil]: unbounded. *)
Record RangeDescriptor := MkDesc { d_ID : Z; d_Start : bytes; d_End : option bytes; d_Epoch : Z }.

#[global] Instance RangeDescriptor_eq_dec : EqDecision RangeDescriptor.
Proof. solve_decision. Defined.

Definition Contains (d : RangeDescriptor) (key : bytes) : bool :=
  if bytes_ltb key (d_Start d) then false
  else match d_End d with None => true | Some e => bytes_ltb key e end.

(** [append([]byte(nil), x...)] of an empty slice is [nil]. *)
Definition Clone (d : RangeDescriptor) : RangeDescriptor :=
  MkDesc (d_ID d) (d_Start d) (match d_End d with Some [] => None | e => e end) (d_Epoch d).

Record SplitSpec := MkSplit { sp_Key : bytes; sp_Left : RangeDescriptor; sp_Right : RangeDescriptor }.

Definition encodeDescInto (b : bytes) (d : RangeDescriptor) : bytes :=
  let b := putU64 b (d_ID d) in
  let b := putU64 b (d_Epoch d) in
  let b := putBytes b (d_Start d) in
  match d_End d with
  | None => b ++ [Byte.x00]
  | Some e => putBytes (b ++ [Byte.x01]) e
  end.

Definition decodeDescFrom (b : bytes) : option (RangeDescriptor * bytes) :=
  '(id, b) ← takeU64 b;
  '(epoch, b) ← takeU64 b;
  '(start, b) ← takeBytes b;
  match b with
  | [] => None
  | c :: b =>
      if bool_decide (c = Byte.x01) then
        '(e, b) ← takeBytes b; Some (MkDesc id start (Some e) epoch, b)
      else Some (MkDesc id start None epoch, b)
  end.

Definition encodeDesc (d : RangeDescriptor) : bytes := encodeDescInto [] d.
Definition decodeDesc (b : bytes) : option RangeDescriptor := fst <$> decodeDescFrom b.

Definition encodeSplit (s : SplitSpec) : bytes :=
  encodeDescInto (encodeDescInto (putBytes [] (sp_Key s)) (sp_Left s)) (sp_Right s).

Definition decodeSplit (b : bytes) : option SplitSpec :=
  '(key, b) ← takeBytes b;
  '(l, b) ← decodeDescFrom b;
  '(r, _) ← decodeDescFrom b;
  Some (MkSplit key l r).

Definition splitKeyFor (keys : list bytes) : option bytes :=
  if (length keys <? 2)%nat then None else keys !! (length keys / 2)%nat.

Definition splitMarker : byte := Byte.xff.
Definition isSplitCommand (data : bytes) : bool :=
  match data with c :: _ => bool_decide (c = splitMarker) | [] => false end.
Definition encodeSplitCommand (s : SplitSpec) : bytes := splitMarker :: encodeSplit s.
Definition decodeSplitCommand (data : bytes) : option SplitSpec :=
  if isSplitCommand data then decodeSplit (tail data) else None.

Definition FirstRange : Z := 1.
Definition FirstRangeDescriptor : RangeDescriptor := MkDesc FirstRange [] None 1.
Definition hasRange (ds : list RangeDescriptor) (id : Z) : bool := existsb (λ d, d_ID d =? id) ds.

(** ** The state machine *)

Definition encodeMachine (desc : RangeDescriptor) (mark : Timestamp) (rs : list KvRecord) : bytes :=
  let b := putBytes [] (encodeDesc desc) in
  let b := putTS64 b mark in
  let b := putU64 b (Z.of_nat (length rs)) in
  foldl (λ b r, putBytes (putBytes b (rec_Key r)) (rec_Value r)) b rs.

Definition takeRecord (b : bytes) : option (KvRecord * bytes) :=
  '(k, b) ← takeBytes b; '(v, b) ← takeBytes b; Some (MkRecord k v, b).

(** The greatest capacity [make([]kv.Record, 0, n)] accepts: a record is two
    slice headers, 48 bytes, and an allocation is at most 2^48 bytes. *)
Definition makeLimit : Z := 2 ^ 48 / 48.

(** The outer [None] is the panic of [make] on a count it cannot allocate. *)
Definition decodeMachine (b : bytes) : option (option (RangeDescriptor * Timestamp * list KvRecord)) :=
  match
    '(descRaw, b) ← takeBytes b;
    desc ← decodeDesc descRaw;
    '(mark, b) ← takeTS64 b;
    '(n, b) ← takeU64 b;
    Some (desc, mark, n, b)
  with
  | None => Some None
  | Some (desc, mark, n, b) =>
      if makeLimit <? n then None
      else Some ('(rs, _) ← takeN takeRecord (length b) n b; Some (desc, mark, rs))
  end.

(** ** Client commands *)

(** The bytes of ["gc"], ["put"] and ["get"]. *)
Definition opGC : bytes := [Byte.x67; Byte.x63].
Definition opPut : bytes := [Byte.x70; Byte.x75; Byte.x74].
Definition opGet : bytes := [Byte.x67; Byte.x65; Byte.x74].

Definition encodeCmd (op key value : bytes) (at_ : Timestamp) : bytes :=
  putTS64 (putBytes (putBytes (putBytes [] op) key) value) at_.

Definition decodeCmd (b : bytes) : bytes * bytes * bytes * Timestamp :=
  default ([], [], [], zeroTimestamp)
    ('(o, b) ← takeBytes b;
     '(k, b) ← takeBytes b;
     '(v, b) ← takeBytes b;
     '(t, _) ← takeTS64 b;
     Some (o, k, v, t)).

Inductive TxnOp :=
| OpPrewrite | OpCommitKey | OpRollbackKey | OpPutTxnRecord | OpTxnGet | OpResolveStatus | OpApplyResolution
| TxnOpOther (b : byte).

#[global] Instance TxnOp_eq_dec : EqDecision TxnOp.
Proof. solve_decision. Defined.

Definition TxnOp_code (o : TxnOp) : byte :=
  match o with
  | OpPrewrite => Byte.x01
  | OpCommitKey => Byte.x02
  | OpRollbackKey => Byte.x03
  | OpPutTxnRecord => Byte.x04
  | OpTxnGet => Byte.x05
  | OpResolveStatus => Byte.x06
  | OpApplyResolution => Byte.x07
  | TxnOpOther b => b
  end.

Definition TxnOp_of (b : byte) : TxnOp :=
  match b with
  | Byte.x01 => OpPrewrite
  | Byte.x02 => OpCommitKey
  | Byte.x03 => OpRollbackKey
  | Byte.x04 => OpPutTxnRecord
  | Byte.x05 => OpTxnGet
  | Byte.x06 => OpResolveStatus
  | Byte.x07 => OpApplyResolution
  | b => TxnOpOther b
  end.

Record TxnCommand := MkTxnCommand {
  tc_Op : TxnOp;
  tc_Key : bytes;
  tc_Value : bytes;
  tc_Primary : bytes;
  tc_StartTS : Timestamp;
  tc_CommitTS : Timestamp;
  tc_Deadline : Timestamp;
  tc_Status : TxnStatus;
  tc_ReadTS : Timestamp;
  tc_Origin : Z;
  tc_ExpireAt : Timestamp;
  tc_MaxTS : Timestamp;
}.

Definition txnMarker : byte := Byte.xfe.
Definition isTxnCommand (data : bytes) : bool :=
  match data with c :: _ => bool_decide (c = txnMarker) | [] => false end.

Definition encodeTxnCommand (c : TxnCommand) : bytes :=
  let b := [txnMarker; TxnOp_code (tc_Op c); TxnStatus_code (tc_Status c)] in
  let b := putU64 b (tc_Origin c) in
  let b := putBytes b (tc_Key c) in
  let b := putBytes b (tc_Value c) in
  let b := putBytes b (tc_Primary c) in
  foldl putTS64 b [tc_StartTS c; tc_CommitTS c; tc_Deadline c; tc_ReadTS c; tc_MaxTS c; tc_ExpireAt c].

Definition decodeTxnCommand (data : bytes) : option TxnCommand :=
  if negb (isTxnCommand data) || (length data <? 3)%nat then None
  else match data with
  | _ :: op :: st :: b =>
      '(origin, b) ← takeU64 b;
      '(key, b) ← takeBytes b;
      '(value, b) ← takeBytes b;
      '(primary, b) ← takeBytes b;
      '(start, b) ← takeTS64 b;
      '(commit, b) ← takeTS64 b;
      '(deadline, b) ← takeTS64 b;
      '(read, b) ← takeTS64 b;
      '(max, b) ← takeTS64 b;
      '(expire, b) ← takeTS64 b;
      Some (MkTxnCommand (TxnOp_of op) key value primary start commit deadline (TxnStatus_of st)
              read origin expire max)
  | _ => None
  end.

(** ** Frames and engine keys *)

Definition putRange (id : Z) (at_ : Timestamp) (body : bytes) : bytes :=
  (be_put 8 id ++ be_put 8 (u64 (Wall at_)) ++ be_put 4 (Logical at_)) ++ body.

Definition takeRange (b : bytes) : option (Z * Timestamp * bytes) :=
  if (length b <? 20)%nat then None
  else Some (be_get (take 8 b),
             MkTimestamp (i64 (be_get (take 8 (drop 8 b)))) (be_get (take 4 (drop 16 b))),
             drop 20 b).

Definition rangePrefix (id : Z) : bytes := [Byte.x72; Byte.x2f] ++ be_put 8 id.
Definition keyHardStateOf (id : Z) : bytes := rangePrefix id ++ [Byte.x2f; Byte.x68; Byte.x73].
Definition keySnapshotOf (id : Z) : bytes := rangePrefix id ++ [Byte.x2f; Byte.x73; Byte.x6e; Byte.x61; Byte.x70].
Definition keyDescOf (id : Z) : bytes := rangePrefix id ++ [Byte.x2f; Byte.x64; Byte.x65; Byte.x73; Byte.x63].
Definition logPrefixOf (id : Z) : bytes := rangePrefix id ++ [Byte.x2f; Byte.x65; Byte.x2f].
Definition logUpperOf (id : Z) : bytes := rangePrefix id ++ [Byte.x2f; Byte.x65; Byte.x30].
Definition logKeyOf (id i : Z) : bytes := logPrefixOf id ++ be_put 8 i.

Definition reNamespace (r : KvRecord) (from to : bytes) : KvRecord :=
  if (length (rec_Key r) <? length from)%nat then r
  else MkRecord (to ++ drop (length from) (rec_Key r)) (rec_Value r).

(** ** Round trips *)

Definition enc8 (v : Z) : bytes := be_put 8 v.
Definition encB (v : bytes) : bytes := be_put 4 (u32 (Z.of_nat (length v))) ++ v.
Definition encT (t : Timestamp) : bytes := enc8 (u64 (Wall t)) ++ enc8 (Logical t).

Lemma putU64_enc b v : putU64 b v = b ++ enc8 v.
Proof. done. Qed.
Lemma putBytes_enc b v : putBytes b v = b ++ encB v.
Proof. unfold putBytes, encB. by rewrite <- app_assoc. Qed.
Lemma putTS64_enc b t : putTS64 b t = b ++ encT t.
Proof. unfold putTS64, putU64, encT, enc8. by rewrite <- app_assoc. Qed.

Lemma takeU64_enc v rest : is_u64 v → takeU64 (enc8 v ++ rest) = Some (v, rest).
Proof.
  intros Hv. unfold takeU64, enc8. rewrite length_app, be_put_length.
  destruct (Nat.ltb_spec (8 + length rest) 8); [lia|].
  rewrite take_app_length', drop_app_length' by (by rewrite be_put_length). by rewrite be_get_put_u64'.
Qed.

Lemma takeBytes_enc v rest : key_ok v → takeBytes (encB v ++ rest) = Some (v, rest).
Proof.
  unfold key_ok. intros Hv. unfold takeBytes, encB. rewrite <- app_assoc, length_app, be_put_length.
  destruct (Nat.ltb_spec (4 + length (v ++ rest)) 4); [lia|].
  rewrite take_app_length', drop_app_length' by (by rewrite be_put_length). cbv zeta.
  rewrite u32_small, be_get_put_u32 by (unfold is_u32; lia). rewrite length_app, Nat2Z.id.
  destruct (Z.ltb_spec (Z.of_nat (length v + length rest)) (Z.of_nat (length v))); [lia|].
  by rewrite take_app_length, drop_app_length.
Qed.

Lemma takeTS64_enc t rest : ts_ok t → takeTS64 (encT t ++ rest) = Some (t, rest).
Proof.
  intros [Hw Hl]. unfold takeTS64, encT. rewrite <- app_assoc.
  rewrite takeU64_enc by apply u64_range. cbn [mbind option_bind].
  rewrite takeU64_enc by (unfold is_u64, is_u32 in *; lia). cbn [mbind option_bind].
  rewrite i64_u64, u32_small by done. by destruct t.
Qed.

Lemma takeBytes_some b v rest : takeBytes b = Some (v, rest) → key_ok v ∧ b = encB v ++ rest.
Proof.
  unfold takeBytes. destruct (Nat.ltb_spec (length b) 4); [done|]. cbv zeta.
  case_test; [done|]. intros [= <- <-].
  pose proof (be_get_range (take 4 b)) as Hr. rewrite length_take, Nat.min_l in Hr by lia.
  change (256 ^ Z.of_nat 4) with (2 ^ 32) in Hr.
  assert (Hlen : length (take (Z.to_nat (be_get (take 4 b))) (drop 4 b)) = Z.to_nat (be_get (take 4 b)))
    by (rewrite length_take; lia).
  unfold key_ok, encB. rewrite Hlen. split; [lia|]. rewrite Z2Nat.id, u32_small by (unfold is_u32; lia).
  pose proof (be_put_get (take 4 b)) as Hp. rewrite length_take, Nat.min_l in Hp by lia. rewrite Hp.
  by rewrite <- app_assoc, take_drop, take_drop.
Qed.

(** Loops over a decoder. *)
Lemma takeN_enc {A} (f : bytes → option (A * bytes)) (g : A → bytes) (P : A → Prop) xs rest fuel :
  (∀ x r, P x → f (g x ++ r) = Some (x, r)) → Forall P xs → (length xs ≤ fuel)%nat →
  takeN f fuel (Z.of_nat (length xs)) (concat (g <$> xs) ++ rest) = Some (xs, rest).
Proof.
  intros Hf Hp. revert fuel. induction Hp as [|x xs Hx Hp IH]; intros fuel Hfuel; [by destruct fuel|].
  destruct fuel as [|fuel]; cbn [length] in Hfuel; [lia|]. cbn [takeN length fmap list_fmap concat].
  destruct (Z.leb_spec (Z.of_nat (S (length xs))) 0); [lia|].
  rewrite <- app_assoc, Hf by done. cbn [mbind option_bind].
  replace (Z.of_nat (S (length xs)) - 1) with (Z.of_nat (length xs)) by lia.
  rewrite IH by lia. done.
Qed.

(** The loop is the source's loop: it takes one item and goes on, whatever the
    fuel, as long as there is fuel for every byte left. *)
Lemma takeN_step {A} (f : bytes → option (A * bytes)) n b :
  (∀ b x r, f b = Some (x, r) → (length r < length b)%nat) →
  takeN f (length b) n b
  = if n <=? 0 then Some ([], b)
    else '(x, b) ← f b; '(xs, b) ← takeN f (length b) (n - 1) b; Some (x :: xs, b).
Proof.
  intros Hf.
  assert (Hirr : ∀ k1 k2 n b, (length b ≤ k1)%nat → (length b ≤ k2)%nat → takeN f k1 n b = takeN f k2 n b).
  { induction k1 as [|k1 IH]; intros k2 n' b' H1 H2; (destruct k2 as [|k2]; [|]); cbn [takeN]; case_test; try done.
    - destruct (f b') as [[x r]|] eqn:Ef; [|done]. apply Hf in Ef. lia.
    - destruct (f b') as [[x r]|] eqn:Ef; [|done]. apply Hf in Ef. lia.
    - destruct (f b') as [[x r]|] eqn:Ef; [|done]. apply Hf in Ef. cbn [mbind option_bind].
      by rewrite (IH k2) by lia. }
  destruct (length b) as [|k] eqn:Eb; cbn [takeN]; case_test; try done.
  - destruct (f b) as [[x r]|] eqn:Ef; [|done]. apply Hf in Ef. lia.
  - destruct (f b) as [[x r]|] eqn:Ef; [|done]. apply Hf in Ef. cbn [mbind option_bind].
    by rewrite (Hirr k (length r)) by lia.
Qed.

Lemma concat_length_ge {A} (g : A → bytes) (xs : list A) rest :
  (∀ x, x ∈ xs → (1 ≤ length (g x))%nat) → (length xs ≤ length (concat (g <$> xs) ++ rest))%nat.
Proof.
  intros Hg. rewrite length_app. induction xs as [|x xs IH]; cbn; [lia|]. rewrite length_app.
  specialize (Hg x ltac:(left)) as H1. assert (length xs ≤ length (concat (g <$> xs)) + length rest)%nat; [|lia].
  apply IH. intros y Hy. apply Hg. by right.
Qed.

Lemma foldl_enc {A} (h : bytes → A → bytes) (g : A → bytes) b xs :
  (∀ b x, h b x = b ++ g x) → foldl h b xs = b ++ concat (g <$> xs).
Proof.
  intros Hh. revert b. induction xs as [|x xs IH]; intros b; cbn; [by rewrite app_nil_r|].
  by rewrite IH, Hh, <- app_assoc.
Qed.

(** Normal form of an encoding, and one decoding step. *)
Ltac enc_norm := rewrite ?putTS64_enc, ?putBytes_enc, ?putU64_enc, <- ?app_assoc; cbn [app].
Ltac dec_step :=
  first [ rewrite takeU64_enc by done | rewrite takeBytes_enc by done | rewrite takeTS64_enc by done ];
  cbn [mbind option_bind].
Ltac dec_all := repeat dec_step.
(** The last item of an encoding has nothing after it. *)
Ltac pad x := rewrite <- (app_nil_r x).

Definition entry_ok (e : Entry) : Prop :=
  EntryType_of (EntryType_code (e_Type e)) = e_Type e ∧ is_u64 (e_Term e) ∧ is_u64 (e_Index e)
  ∧ is_u64 (pid_Node (e_ID e)) ∧ is_u64 (pid_Seq (e_ID e)) ∧ Z.of_nat (length (e_Data e)) + 37 < 2 ^ 32.

Definition hs_ok (hs : HardState) : Prop := is_u64 (hs_Term hs) ∧ is_u64 (hs_Vote hs).

Lemma decodeHardState_encode hs : hs_ok hs → decodeHardState (encodeHardState hs) = hs.
Proof.
  intros [Ht Hv]. unfold encodeHardState, decodeHardState. enc_norm. dec_step.
  pad (enc8 (hs_Vote hs)). rewrite takeU64_enc by done. by destruct hs.
Qed.

Lemma encodeEntry_norm e :
  encodeEntry e = EntryType_code (e_Type e) :: enc8 (e_Term e) ++ enc8 (e_Index e) ++ enc8 (pid_Node (e_ID e))
                    ++ enc8 (pid_Seq (e_ID e)) ++ encB (e_Data e).
Proof. unfold encodeEntry. cbv zeta. enc_norm. done. Qed.

Lemma encodeEntry_length e : length (encodeEntry e) = (37 + length (e_Data e))%nat.
Proof. rewrite encodeEntry_norm. unfold enc8, encB. cbn [length]. rewrite !length_app, !be_put_length. lia. Qed.

Lemma decodeEntry_encode e : entry_ok e → decodeEntry (encodeEntry e) = Some e.
Proof.
  intros (Hty & Ht & Hi & Hn & Hq & Hd). rewrite encodeEntry_norm. unfold decodeEntry. dec_all.
  pad (encB (e_Data e)). rewrite takeBytes_enc by (unfold key_ok; lia). cbn [mbind option_bind].
  rewrite Hty. by destruct e as [? ? ? []].
Qed.

Lemma takeEntry_enc e rest : entry_ok e → takeEntry (encB (encodeEntry e) ++ rest) = Some (e, rest).
Proof.
  intros He. unfold takeEntry. rewrite takeBytes_enc.
  - cbn [mbind option_bind]. by rewrite decodeEntry_encode.
  - unfold key_ok. rewrite encodeEntry_length. destruct He as (_ & _ & _ & _ & _ & ?). lia.
Qed.

(** What fits the message codec. *)
Record message_ok (m : Message) : Prop := MkMessageOk {
  mo_type : MessageType_of (MessageType_code (m_Type m)) = m_Type m;
  mo_words : Forall is_u64 [m_From m; m_To m; m_Term m; m_LastLogIndex m; m_LastLogTerm m; m_PrevLogIndex m;
                            m_PrevLogTerm m; m_LeaderCommit m; m_MatchIndex m; m_Hint m; m_SnapIndex m; m_SnapTerm m];
  mo_read : is_u64 (m_ReadIndex m);
  mo_bytes : key_ok (m_SnapData m) ∧ key_ok (m_SnapConf m) ∧ key_ok (m_ReadCtx m);
  mo_count : Z.of_nat (length (m_Entries m)) < 2 ^ 32;
  mo_entries : Forall entry_ok (m_Entries m);
}.

Definition flagsOf (g s : bool) : byte :=
  z2b (let f := if g then Z.lor 0 1 else 0 in if s then Z.lor f 2 else f).

Lemma flagsOf_bits g s :
  negb (Z.land (b2z (flagsOf g s)) 1 =? 0) = g ∧ negb (Z.land (b2z (flagsOf g s)) 2 =? 0) = s.
Proof. by destruct g, s. Qed.

Lemma encodeMessage_norm m :
  encodeMessage m =
  MessageType_code (m_Type m)
    :: concat (enc8 <$> [m_From m; m_To m; m_Term m; m_LastLogIndex m; m_LastLogTerm m; m_PrevLogIndex m;
                         m_PrevLogTerm m; m_LeaderCommit m; m_MatchIndex m; m_Hint m; m_SnapIndex m; m_SnapTerm m])
    ++ encB (m_SnapData m) ++ encB (m_SnapConf m) ++ encB (m_ReadCtx m) ++ enc8 (m_ReadIndex m)
    ++ [flagsOf (m_Granted m) (m_Success m)] ++ be_put 4 (u32 (Z.of_nat (length (m_Entries m))))
    ++ concat ((λ e, encB (encodeEntry e)) <$> m_Entries m).
Proof.
  unfold encodeMessage. cbv zeta.
  rewrite (foldl_enc _ (λ e, encB (encodeEntry e))) by (intros; apply putBytes_enc). cbn [fmap list_fmap concat]. enc_norm. done.
Qed.

Lemma decodeMessage_encode m : message_ok m → decodeMessage (encodeMessage m) = Some m.
Proof.
  intros [Hty Hw Hri (Hsd & Hsc & Hrc) Hcnt Hes]. rewrite encodeMessage_norm. unfold decodeMessage.
  match goal with |- context [enc8 <$> ?ws] =>
    change (takeN takeU64 12 12) with (takeN takeU64 12 (Z.of_nat (length ws)));
    rewrite (takeN_enc takeU64 enc8 is_u64 ws _ 12) by (done || (intros; by apply takeU64_enc))
  end.
  cbn [mbind option_bind nth]. dec_all. cbn [app]. rewrite length_app, be_put_length.
  destruct (Nat.ltb_spec (4 + length (concat ((λ e, encB (encodeEntry e)) <$> m_Entries m))) 4); [lia|].
  rewrite take_app_length', drop_app_length' by (by rewrite be_put_length). cbv zeta.
  rewrite u32_small, be_get_put_u32 by (unfold is_u32; lia).
  pad (concat ((λ e, encB (encodeEntry e)) <$> m_Entries m)).
  rewrite (takeN_enc takeEntry (λ e, encB (encodeEntry e)) entry_ok); [|intros; by apply takeEntry_enc|done|].
  - cbn [mbind option_bind]. destruct (flagsOf_bits (m_Granted m) (m_Success m)) as [-> ->]. rewrite Hty.
    by destruct m.
  - apply concat_length_ge. intros e _. unfold encB. rewrite length_app, be_put_length. lia.
Qed.

Lemma encodeDescInto_enc b d : encodeDescInto b d = b ++ encodeDesc d.
Proof.
  unfold encodeDesc, encodeDescInto. destruct (d_End d) as [e|]; rewrite ?putBytes_enc, ?putU64_enc, <- ?app_assoc; done.
Qed.

Definition desc_ok (d : RangeDescriptor) : Prop :=
  is_u64 (d_ID d) ∧ is_u64 (d_Epoch d)
  ∧ Z.of_nat (length (d_Start d) + length (default [] (d_End d))) + 25 < 2 ^ 32.

Lemma encodeDesc_length d : desc_ok d → key_ok (encodeDesc d).
Proof.
  intros (_ & _ & Hl). unfold key_ok, encodeDesc, encodeDescInto. revert Hl.
  destruct (d_End d) as [e|]; intros Hl; rewrite ?putBytes_enc, ?putU64_enc; unfold encB, enc8;
    rewrite !length_app, ?be_put_length; cbn [length default id] in *; lia.
Qed.

Lemma decodeDescFrom_enc d rest : desc_ok d → decodeDescFrom (encodeDesc d ++ rest) = Some (d, rest).
Proof.
  intros (Hi & He & Hl). unfold decodeDescFrom, encodeDesc, encodeDescInto.
  assert (Hs : key_ok (d_Start d)) by (unfold key_ok; lia). revert Hl.
  destruct (d_End d) as [e|] eqn:Ee; intros Hl; enc_norm; dec_all; cbn [app].
  - rewrite bool_decide_eq_true_2 by done.
    assert (He' : key_ok e) by (unfold key_ok; cbn [default id] in Hl; lia).
    dec_all. destruct d; cbn in *; by subst.
  - rewrite bool_decide_eq_false_2 by done. destruct d; cbn in *; by subst.
Qed.

Lemma decodeDesc_encode d : desc_ok d → decodeDesc (encodeDesc d) = Some d.
Proof. intros Hd. unfold decodeDesc. pad (encodeDesc d). by rewrite decodeDescFrom_enc. Qed.

Definition split_ok (s : SplitSpec) : Prop := key_ok (sp_Key s) ∧ desc_ok (sp_Left s) ∧ desc_ok (sp_Right s).

Lemma decodeSplit_encode s : split_ok s → decodeSplit (encodeSplit s) = Some s.
Proof.
  intros (Hk & Hl & Hr). unfold decodeSplit, encodeSplit.
  rewrite !encodeDescInto_enc. enc_norm. dec_all.
  rewrite decodeDescFrom_enc by done. cbn [mbind option_bind].
  pad (encodeDesc (sp_Right s)). rewrite decodeDescFrom_enc by done. by destruct s.
Qed.

Lemma decodeSplitCommand_encode s : split_ok s → decodeSplitCommand (encodeSplitCommand s) = Some s.
Proof. intros Hs. unfold decodeSplitCommand, encodeSplitCommand. cbn. by apply decodeSplit_encode. Qed.

Definition meta_ok (m : SnapshotMeta) : Prop :=
  is_u64 (sm_Index m) ∧ is_u64 (sm_Term m) ∧ encodable_conf (sm_Conf m).

Lemma EncodeConfiguration_length c : encodable_conf c → key_ok (EncodeConfiguration c).
Proof.
  intros (Hv & Hl & _). unfold key_ok, EncodeConfiguration.
  rewrite (foldl_app_concat (be_put 8)), map_app, concat_app. cbn [app length].
  rewrite length_app, !(concat_map_length _ 8) by (intros; apply be_put_length). lia.
Qed.

Lemma decodeSnapshot_encode meta data :
  meta_ok meta → key_ok data → decodeSnapshot (encodeSnapshot meta data) = Some (meta, data).
Proof.
  intros (Hi & Ht & Hc) Hd. unfold decodeSnapshot, encodeSnapshot. cbv zeta.
  pose proof (EncodeConfiguration_length _ Hc) as Hcl. enc_norm. dec_all.
  rewrite DecodeConfiguration_EncodeConfiguration by done. cbn [mbind option_bind].
  pad (encB data). dec_all. by destruct meta.
Qed.

Definition record_ok (r : KvRecord) : Prop := key_ok (rec_Key r) ∧ key_ok (rec_Value r).

Lemma takeRecord_enc r rest : record_ok r → takeRecord ((encB (rec_Key r) ++ encB (rec_Value r)) ++ rest) = Some (r, rest).
Proof. intros [Hk Hv]. unfold takeRecord. rewrite <- app_assoc. dec_all. by destruct r. Qed.

Record machine_ok (desc : RangeDescriptor) (mark : Timestamp) (rs : list KvRecord) : Prop := MkMachineOk {
  mc_desc : desc_ok desc;
  mc_mark : ts_ok mark;
  mc_count : Z.of_nat (length rs) ≤ makeLimit;
  mc_records : Forall record_ok rs;
}.

Lemma decodeMachine_encode desc mark rs :
  machine_ok desc mark rs → decodeMachine (encodeMachine desc mark rs) = Some (Some (desc, mark, rs)).
Proof.
  intros [Hd Hm Hn Hr]. unfold encodeMachine, decodeMachine. cbv zeta.
  assert (Hlim : makeLimit < 2 ^ 64) by done. assert (Hn64 : is_u64 (Z.of_nat (length rs))) by (unfold is_u64; lia).
  pose proof (encodeDesc_length _ Hd) as Hdl.
  rewrite (foldl_enc _ (λ r, encB (rec_Key r) ++ encB (rec_Value r)))
    by (intros; rewrite !putBytes_enc; by rewrite <- app_assoc).
  enc_norm. dec_step. rewrite decodeDesc_encode by done. cbn [mbind option_bind]. dec_all.
  destruct (Z.ltb_spec makeLimit (Z.of_nat (length rs))); [lia|].
  pad (concat ((λ r, encB (rec_Key r) ++ encB (rec_Value r)) <$> rs)).
  rewrite (takeN_enc takeRecord _ record_ok); [done|intros; by apply takeRecord_enc|done|].
  apply concat_length_ge. intros r _. unfold encB. rewrite !length_app, !be_put_length. lia.
Qed.

Lemma decodeCmd_encode op key value at_ :
  key_ok op → key_ok key → key_ok value → ts_ok at_ → decodeCmd (encodeCmd op key value at_) = (op, key, value, at_).
Proof. intros. unfold decodeCmd, encodeCmd. enc_norm. pad (encT at_). dec_all. done. Qed.

Record txncmd_ok (c : TxnCommand) : Prop := MkTxnCmdOk {
  co_op : TxnOp_of (TxnOp_code (tc_Op c)) = tc_Op c;
  co_status : status_ok (tc_Status c);
  co_origin : is_u64 (tc_Origin c);
  co_key : key_ok (tc_Key c);
  co_value : key_ok (tc_Value c);
  co_primary : key_ok (tc_Primary c);
  co_ts : Forall ts_ok [tc_StartTS c; tc_CommitTS c; tc_Deadline c; tc_ReadTS c; tc_MaxTS c; tc_ExpireAt c];
}.

Lemma decodeTxnCommand_encode c : txncmd_ok c → decodeTxnCommand (encodeTxnCommand c) = Some c.
Proof.
  intros [Hop Hst Ho Hk Hv Hp Hts]. rewrite !Forall_cons in Hts. destruct Hts as (H1 & H2 & H3 & H4 & H5 & H6 & _).
  unfold encodeTxnCommand, decodeTxnCommand. cbv zeta. cbn [foldl]. enc_norm. cbn -[encT enc8 encB].
  dec_all. pad (encT (tc_ExpireAt c)). dec_all. rewrite Hop, Hst. by destruct c.
Qed.

Lemma takeRange_put id at_ body :
  is_u64 id → ts_ok at_ → takeRange (putRange id at_ body) = Some (id, at_, body).
Proof.
  intros Hid [Hw Hl]. unfold takeRange, putRange. rewrite !length_app, !be_put_length.
  destruct (Nat.ltb_spec (8 + (8 + 4) + length body) 20); [lia|].
  rewrite (drop_app_length' _ body 20) by (by rewrite !length_app, !be_put_length).
  rewrite <- !app_assoc, take_app_length', drop_app_length' by (by rewrite be_put_length).
  rewrite take_app_length' by (by rewrite be_put_length).
  change (drop 16 ?x) with (drop (8 + 8) x). rewrite <- drop_drop, !drop_app_length' by (by rewrite be_put_length).
  rewrite take_app_length' by (by rewrite be_put_length).
  rewrite !be_get_put_u64', be_get_put_u32, i64_u64 by (done || apply u64_range). by destruct at_.
Qed.

(** A client command is never taken for a transaction step or a split: its first
    byte is the top of a length. *)
Lemma encodeCmd_plain op key value at_ :
  Z.of_nat (length op) < 2 ^ 24 →
  isTxnCommand (encodeCmd op key value at_) = false ∧ isSplitCommand (encodeCmd op key value at_) = false.
Proof.
  intros Hop. assert (Hb : ∃ r, be_put 4 (u32 (Z.of_nat (length op))) = Byte.x00 :: r).
  { rewrite u32_small by (unfold is_u32; lia). unfold be_put. eexists. f_equal.
    rewrite shiftr_bytes, Z.div_small by (cbn; lia). done. }
  destruct Hb as [r Hr]. unfold encodeCmd. enc_norm. unfold encB at 1. rewrite Hr.
  unfold encB at 3. by rewrite Hr.
Qed.

(** ** What the encodings promise *)

(** A message survives the wire: whatever a replica frames -- the range, its
    timestamp and the raft message -- is what the receiving machine takes out of
    the frame. *)
Theorem wire_roundtrip id at_ m :
  is_u64 id → ts_ok at_ → message_ok m →
  ('(i, t, body) ← takeRange (putRange id at_ (encodeMessage m)); m ← decodeMessage body; Some (i, t, m))
  = Some (id, at_, m).
Proof. intros. rewrite takeRange_put by done. cbn [mbind option_bind]. by rewrite decodeMessage_encode. Qed.

(** What a replica writes to its engine is what recovery reads back: the hard
    state, a log entry, and a snapshot with the state machine inside it. *)
Theorem storage_roundtrip hs e meta desc mark rs :
  hs_ok hs → entry_ok e → meta_ok meta → machine_ok desc mark rs → key_ok (encodeMachine desc mark rs) →
  decodeHardState (encodeHardState hs) = hs
  ∧ decodeEntry (encodeEntry e) = Some e
  ∧ ('(m, data) ← decodeSnapshot (encodeSnapshot meta (encodeMachine desc mark rs));
     r ← decodeMachine data; Some (m, r)) = Some (meta, Some (desc, mark, rs)).
Proof.
  intros Hhs He Hm Hmc Hl. split_and!; [by apply decodeHardState_encode|by apply decodeEntry_encode|].
  rewrite decodeSnapshot_encode by done. cbn [mbind option_bind]. by rewrite decodeMachine_encode.
Qed.

(** A command survives the log, and the three kinds of command cannot be
    taken for one another: a transaction step, a split and a client command each
    decode to what was proposed, and the test that dispatches on the first byte
    tells them apart. *)
Theorem commands_roundtrip c s op key value at_ :
  txncmd_ok c → split_ok s → Z.of_nat (length op) < 2 ^ 24 → key_ok key → key_ok value → ts_ok at_ →
  (decodeTxnCommand (encodeTxnCommand c) = Some c
   ∧ isTxnCommand (encodeTxnCommand c) = true ∧ isSplitCommand (encodeTxnCommand c) = false)
  ∧ (decodeSplitCommand (encodeSplitCommand s) = Some s
     ∧ isTxnCommand (encodeSplitCommand s) = false ∧ isSplitCommand (encodeSplitCommand s) = true)
  ∧ (decodeCmd (encodeCmd op key value at_) = (op, key, value, at_)
     ∧ isTxnCommand (encodeCmd op key value at_) = false ∧ isSplitCommand (encodeCmd op key value at_) = false).
Proof.
  intros Hc Hs Hop Hk Hv Ht.
  assert (Hm : ∃ r, encodeTxnCommand c = txnMarker :: r).
  { unfold encodeTxnCommand. cbv zeta. cbn [foldl]. enc_norm. by eexists. }
  split_and!; [by apply decodeTxnCommand_encode| | |by apply decodeSplitCommand_encode|done|done| | |].
  - destruct Hm as [r ->]. done.
  - destruct Hm as [r ->]. done.
  - apply decodeCmd_encode; [unfold key_ok; lia|done..].
  - by apply encodeCmd_plain.
  - by apply encodeCmd_plain.
Qed.

(** A state machine whose count of records cannot be allocated makes the decoder
    panic rather than report that it cannot decode. *)
Definition hugeMachine : bytes :=
  putU64 (putTS64 (putBytes [] (encodeDesc FirstRangeDescriptor)) zeroTimestamp) (2 ^ 64 - 1).
Example decodeMachine_panics : decodeMachine hugeMachine = None.
Proof. by vm_compute. Qed.

(** ** Engine keys *)

Lemma rangePrefix_length id : length (rangePrefix id) = 10%nat.
Proof. unfold rangePrefix. by rewrite length_app, be_put_length. Qed.

Lemma rangePrefix_inj id id' a b :
  is_u64 id → is_u64 id' → rangePrefix id ++ a = rangePrefix id' ++ b → id = id' ∧ a = b.
Proof.
  intros Hi Hi' He. apply app_inj_1 in He as [He ->]; [|by rewrite !rangePrefix_length].
  split; [|done]. unfold rangePrefix in He. apply app_inv_head in He.
  by rewrite <- (be_get_put_u64' id), <- (be_get_put_u64' id'), He.
Qed.

(** What a machine stores for a range. *)
Inductive ekey := EHardState (id : Z) | ESnapshot (id : Z) | EDesc (id : Z) | ELog (id i : Z) | EMvcc (id : Z) (r : rkey).

Definition ekey_enc (k : ekey) : bytes :=
  match k with
  | EHardState id => keyHardStateOf id
  | ESnapshot id => keySnapshotOf id
  | EDesc id => keyDescOf id
  | ELog id i => logKeyOf id i
  | EMvcc id r => enc (rangePrefix id) r
  end.

Definition ekey_ok (k : ekey) : Prop :=
  match k with
  | EHardState id | ESnapshot id | EDesc id => is_u64 id
  | ELog id i => is_u64 id ∧ is_u64 i
  | EMvcc id r => is_u64 id ∧ rkey_ok r
  end.

Lemma enc_kind ns r : ∃ rest, enc ns r = ns ++ rkey_kind r :: rest.
Proof. rewrite enc_meta. unfold metaKey. eexists. rewrite <- !app_assoc. cbn [app]. reflexivity. Qed.

Lemma ekey_inj a b : ekey_ok a → ekey_ok b → ekey_enc a = ekey_enc b → a = b.
Proof.
  assert (Hmv : ∀ id r id' rest, is_u64 id → is_u64 id' →
            enc (rangePrefix id) r = rangePrefix id' ++ Byte.x2f :: rest → False).
  { intros id r id' rest Hi Hi' He. destruct (enc_kind (rangePrefix id) r) as [q Hq]. rewrite Hq in He.
    apply rangePrefix_inj in He as [_ [= He _]]; [|done|done]. by destruct r. }
  destruct a as [i|i|i|i n|i r], b as [j|j|j|j k|j q]; cbn [ekey_ok ekey_enc]; intros Ha Hb He;
    unfold keyHardStateOf, keySnapshotOf, keyDescOf, logKeyOf, logPrefixOf in He; rewrite <- ?app_assoc in He;
    repeat match goal with H : _ ∧ _ |- _ => destruct H end;
    try (exfalso; eapply Hmv; [| |exact (eq_sym He)]; done); try (exfalso; eapply Hmv; [| |exact He]; done);
    try (apply rangePrefix_inj in He as [-> He]; [|done|done]; try done).
  - apply app_inv_head in He. by rewrite <- (be_get_put_u64' n), <- (be_get_put_u64' k), He.
  - destruct (enc_kind (rangePrefix i) r) as [x Hx], (enc_kind (rangePrefix j) q) as [y Hy].
    assert (i = j) as ->.
    { rewrite Hx, Hy in He. by apply rangePrefix_inj in He as [-> _]. }
    f_equal. by apply (enc_inj (rangePrefix j)).
Qed.

(** The keys of a machine's engine do not collide: the hard state, the
    snapshot, the descriptor, each log entry and each record of each range has an
    engine key of its own, whatever bytes user keys contain. *)
Theorem engine_keys_disjoint a b : ekey_ok a → ekey_ok b → ekey_enc a = ekey_enc b → a = b.
Proof. apply ekey_inj. Qed.

(** The bounds of a log scan are exactly the log's keys. *)
Lemma logUpper_prefixEnd id : prefixEnd (logPrefixOf id) = Some (logUpperOf id).
Proof.
  unfold logPrefixOf, logUpperOf. induction (rangePrefix id) as [|b p IH]; [by vm_compute|].
  cbn [app]. by rewrite prefixEnd_cons, IH.
Qed.

(** ** Witnesses *)

Definition entryX : Entry := MkEntry EntryNormal 3 7 (MkProposalID 1 9) [Byte.x2a].
Definition msgX : Message :=
  mkmsg MsgApp 1 2 3 <| m_Success := true |> <| m_Entries := [entryX; entryX] |> <| m_SnapData := [Byte.x01] |>
    <| m_ReadCtx := encodeReadCtx 1 5 |> <| m_ReadIndex := 6 |>.
Definition recX : KvRecord := MkRecord (EncodeKey (rangePrefix 1) k0 ts5) val1.
Definition metaX : SnapshotMeta := MkSnapshotMeta 7 3 (MkConfiguration [1; 2; 3] []).
Definition splitX : SplitSpec := MkSplit k1 (MkDesc 1 [] (Some k1) 2) (MkDesc 2 k1 None 1).
Definition txnX : TxnCommand :=
  MkTxnCommand OpPrewrite k0 val1 k1 ts5 zeroTimestamp ts9 TxnPending zeroTimestamp 4 zeroTimestamp zeroTimestamp.

Ltac codec_ok := repeat first [ split | apply Forall_cons | apply Forall_nil | done | vm_compute; congruence ].

Lemma msgX_ok : message_ok msgX.
Proof. by codec_ok. Qed.
Lemma txnX_ok : txncmd_ok txnX.
Proof. by codec_ok. Qed.
Lemma splitX_ok : split_ok splitX.
Proof. by codec_ok. Qed.
Lemma machineX_ok : machine_ok FirstRangeDescriptor ts5 [recX].
Proof. by codec_ok. Qed.
Lemma metaX_ok : meta_ok metaX.
Proof. unfold meta_ok, encodable_conf. cbn. codec_ok; lia. Qed.

Lemma wire_roundtrip_witness :
  ('(i, t, body) ← takeRange (putRange 2 ts5 (encodeMessage msgX)); m ← decodeMessage body; Some (i, t, m))
  = Some (2, ts5, msgX).
Proof. by apply (wire_roundtrip 2 ts5 msgX); [|by vm_compute|exact msgX_ok]. Defined.

Lemma storage_roundtrip_witness :
  decodeHardState (encodeHardState (MkHardState 3 1)) = MkHardState 3 1
  ∧ decodeEntry (encodeEntry entryX) = Some entryX.
Proof.
  destruct (storage_roundtrip (MkHardState 3 1) entryX metaX FirstRangeDescriptor ts5 [recX]) as (H1 & H2 & _);
    [by codec_ok|by codec_ok|exact metaX_ok|exact machineX_ok|by vm_compute|]. exact (conj H1 H2).
Defined.

Lemma commands_roundtrip_witness :
  decodeTxnCommand (encodeTxnCommand txnX) = Some txnX
  ∧ decodeCmd (encodeCmd opPut k0 val1 ts5) = (opPut, k0, val1, ts5).
Proof.
  destruct (commands_roundtrip txnX splitX opPut k0 val1 ts5) as ((H1 & _) & _ & (H2 & _));
    [exact txnX_ok|exact splitX_ok|done|by vm_compute|by vm_compute|by vm_compute|]. exact (conj H1 H2).
Defined.

Lemma engine_keys_disjoint_witness : ESnapshot 3 = ESnapshot 3.
Proof. by apply (engine_keys_disjoint (ESnapshot 3) (ESnapshot 3)). Defined.
