(* ===== verification/StoreReplay.v ===== *)
(** * The replicated state machine of a range (store/replay.go)

    [applyTxnTo], the apply path of a transaction step that the driver and the
    replay share, and [Replay], which rebuilds a range's state machine from its
    birth payload and its committed log in an engine of its own.  A panic is
    [None]. *)

From Stdlib Require Import Lia ZArith.
From stdpp Require Import base tactics numbers option gmap list.
From S2P Require Import Prelude Bytes ConfChange RaftTypes Hlc Engine KvEncoding EngineIface KvStore KvTxn EngineMap StoreCodec.

Section ApplyTxn.
Context {E : Type} `{EngineReads E}.

(** The extent is a parameter of the source's function that it does not use. *)
Definition applyTxnTo (db : E) (c : TxnCommand) (desc : RangeDescriptor) (b : Batch) (s : Store) : Batch * Store :=
  match tc_Op c with
  | OpPrewrite =>
      let '(_, b, s) := PrewriteInto db (tc_Key c) (MkLock (tc_Primary c) (tc_StartTS c) (tc_Deadline c))
                          (tc_Value c) b s in (b, s)
  | OpCommitKey => let '(_, b, s) := CommitInto db (tc_Key c) (tc_StartTS c) (tc_CommitTS c) b s in (b, s)
  | OpRollbackKey => let '(_, b, s) := RollbackInto db (tc_Key c) (tc_StartTS c) b s in (b, s)
  | OpPutTxnRecord =>
      let '(_, b) := PutTxnInto db (tc_Key c) (MkTxnRecord (tc_Status c) (tc_StartTS c) (tc_CommitTS c)) b s in (b, s)
  | OpTxnGet => let '(_, b, s) := NoteReadInto db (tc_Key c) (tc_ReadTS c) b s in (b, s)
  | OpResolveStatus =>
      let l := MkLock (tc_Key c) (tc_StartTS c) (tc_Deadline c) in
      match ResolveLock db l (tc_ExpireAt c) true s with
      | Ok (ResolveBack, _) =>
          match Store_Txn db (tc_Key c) (tc_StartTS c) s with
          | Ok None =>
              let '(_, b) := PutTxnInto db (tc_Key c) (MkTxnRecord TxnRolledBack (tc_StartTS c) zeroTimestamp) b s in (b, s)
          | _ => (b, s)
          end
      | _ => (b, s)
      end
  | OpApplyResolution =>
      match Store_Lock db (tc_Key c) s with
      | Ok (Some l) =>
          if negb (bool_decide (l_StartTS l = tc_StartTS c)) then (b, s)
          else
            let r := if bool_decide (tc_Status c = TxnRolledBack) then ResolveBack else ResolveForward in
            let '(_, b, s) := ApplyResolutionInto db (tc_Key c) l r (tc_CommitTS c) b s in (b, s)
      | _ => (b, s)
      end
  | TxnOpOther _ => (b, s)
  end.
End ApplyTxn.

Record Replay := MkReplay {
  rp_desc : RangeDescriptor;
  rp_s : Store;
  rp_db : DB;
  rp_b : Batch;
  rp_next : nat;
  rp_noopReachedSwitch : Z;
}.

#[global] Instance Replay_eta : Eta Replay := λ r,
  MkReplay (rp_desc r) (rp_s r) (rp_db r) (rp_b r) (rp_next r) (rp_noopReachedSwitch r).
#[global] Instance upd_rp_desc : Field rp_desc := ltac:(derive_field).
#[global] Instance upd_rp_s : Field rp_s := ltac:(derive_field).
#[global] Instance upd_rp_db : Field rp_db := ltac:(derive_field).
#[global] Instance upd_rp_b : Field rp_b := ltac:(derive_field).
#[global] Instance upd_rp_next : Field rp_next := ltac:(derive_field).
#[global] Instance upd_rp_noop : Field rp_noopReachedSwitch := ltac:(derive_field).

(** [None] is a panic, [Some None] the [false] of the source. *)
Definition NewReplay (base : bytes) : option (option Replay) :=
  d ← decodeMachine base;
  match d with
  | None => Some None
  | Some (desc, mark, recs) =>
      let db := Engine.New in
      match NewStore true (rangePrefix (d_ID desc)) with
      | Err _ => Some None
      | Ok s =>
          let '(seed, s) := IngestRecordsInto recs mark NewBatch s in
          '(res, db) ← Apply (Some seed) false db;
          match res with
          | Err _ => Some None
          | Ok _ => Some (Some (MkReplay desc s db NewBatch 0 0))
          end
      end
  end.

Definition flush (r : Replay) : option Replay :=
  if Batch_Empty (rp_b r) then Some r
  else
    '(res, db) ← Apply (Some (rp_b r)) false (rp_db r);
    match res with
    | Err _ => None
    | Ok _ => Some (r <| rp_db := db |> <| rp_b := [] |>)
    end.

(** The test of a split against the extent it was computed from. *)
Definition splitApplies (spec : SplitSpec) (desc : RangeDescriptor) : bool :=
  (d_Epoch (sp_Left spec) =? add64 (d_Epoch desc) 1)
  && bytes_eqb (d_Start (sp_Left spec)) (d_Start desc)
  && bytes_eqb (default [] (d_End (sp_Right spec))) (default [] (d_End desc)).

(** The records of a split that stay: those whose user key the left half covers. *)
Definition keptBy (left : RangeDescriptor) (s : Store) (recs : list KvRecord) : list KvRecord :=
  filter (λ rec, match UserKeyOf (rec_Key rec) s with Some k => Contains left k | None => false end = true) recs.

Definition applyOne (e : Entry) (r : Replay) : option Replay :=
  let noop := (length (e_Data e) =? 0)%nat && pid_Zero (e_ID e) in
  if (length (e_Data e) =? 0)%nat then Some r
  else
    let r := if noop then r <| rp_noopReachedSwitch := rp_noopReachedSwitch r + 1 |> else r in
    if isTxnCommand (e_Data e) then
      match decodeTxnCommand (e_Data e) with
      | None => Some r
      | Some c =>
          if negb (Contains (rp_desc r) (tc_Key c)) then Some r
          else
            r ← flush r;
            let '(b, s) := applyTxnTo (rp_db r) c (rp_desc r) (rp_b r) (rp_s r) in
            flush (r <| rp_b := b |> <| rp_s := s |>)
      end
    else if isSplitCommand (e_Data e) then
      match decodeSplitCommand (e_Data e) with
      | None => Some r
      | Some spec =>
          if negb (splitApplies spec (rp_desc r)) then Some r
          else
            r ← flush r;
            match Records (rp_db r) (rp_s r) with
            | Err _ => Some r
            | Ok all =>
                let kept := keptBy (sp_Left spec) (rp_s r) all in
                let '(b, s) := IngestRecordsInto kept (GCMark (rp_s r)) (rp_b r) (rp_s r) in
                r ← flush (r <| rp_b := b |> <| rp_s := s |>);
                Some (r <| rp_desc := sp_Left spec |>)
            end
      end
    else
      let '(op, k, v, at_) := decodeCmd (e_Data e) in
      if bool_decide (op = opGC) then
        r ← flush r;
        let '(res, b, s) := AdvanceGCInto (rp_db r) at_ (rp_b r) (rp_s r) in
        match res with
        | Ok _ => flush (r <| rp_b := b |> <| rp_s := s |>)
        | Err _ => Some (r <| rp_b := [] |> <| rp_s := s |>)
        end
      else if bool_decide (op = opPut) then
        if Contains (rp_desc r) k then
          let '(_, b, s) := PutInto k at_ v (rp_b r) (rp_s r) in
          Some (r <| rp_b := b |> <| rp_s := s |>)
        else Some r
      else Some r.

Definition Replay_Apply (entries : list Entry) (r : Replay) : option Replay :=
  r ← foldM (λ r e, applyOne e r) r (drop (rp_next r) entries);
  let r := if (rp_next r <? length entries)%nat then r <| rp_next := length entries |> else r in
  flush r.

Definition State (r : Replay) : option (RangeDescriptor * Timestamp * option (list KvRecord)) :=
  r ← flush r;
  Some (rp_desc r, GCMark (rp_s r), match Records (rp_db r) (rp_s r) with Ok out => Some out | Err _ => None end).

Definition ReplayMachine (base : bytes) (entries : list Entry)
    : option (option (RangeDescriptor * Timestamp * option (list KvRecord))) :=
  r ← NewReplay base;
  match r with
  | None => Some None
  | Some r => r ← Replay_Apply entries r; st ← State r; Some (Some st)
  end.

(** ** The abstract state machine

    The state is the extent, the mark and a map; a command is a function of it.
    Nothing in it mentions an engine, a batch, when the batch is applied, or a
    counter. *)

Record RM := MkRM { rm_ns : bytes; rm_desc : RangeDescriptor; rm_mark : Timestamp; rm_kv : gmap bytes bytes }.

(** A store with its counters at zero. *)
Definition plain (ns : bytes) (mark : Timestamp) : Store := MkStore ns mark 0 0 0 0 0 0 0 0 0 0 0 0 0 0.

Definition rm_store (st : RM) : Store := plain (rm_ns st) (rm_mark st).

(** What an engine key keeps when the range shrinks to [left]. *)
Definition stays (left : RangeDescriptor) (s : Store) (k : bytes) : bool :=
  negb (owns k s) || match UserKeyOf k s with Some u => Contains left u | None => false end.

Definition rm_step (st : RM) (e : Entry) : RM :=
  let s := rm_store st in
  let '(MkRM ns desc mark kv) := st in
  if (length (e_Data e) =? 0)%nat then st
  else if isTxnCommand (e_Data e) then
    match decodeTxnCommand (e_Data e) with
    | Some c => if Contains desc (tc_Key c)
                then MkRM ns desc mark (foldl spec_op kv (fst (applyTxnTo kv c desc [] s)))
                else st
    | None => st
    end
  else if isSplitCommand (e_Data e) then
    match decodeSplitCommand (e_Data e) with
    | Some spec => if splitApplies spec desc
                   then MkRM ns (sp_Left spec) mark (filter (λ x, stays (sp_Left spec) s (fst x) = true) kv)
                   else st
    | None => st
    end
  else
    let '(op, k, v, at_) := decodeCmd (e_Data e) in
    if bool_decide (op = opGC) then
      let '(_, b, s') := AdvanceGCInto kv at_ [] s in MkRM ns desc (s_gcMark s') (foldl spec_op kv b)
    else if bool_decide (op = opPut) && Contains desc k then
      let '(_, b, _) := PutInto k at_ v [] s in MkRM ns desc mark (foldl spec_op kv b)
    else st.

Definition rm_apply (es : list Entry) (st : RM) : RM := foldl rm_step st es.

(** The state machine a replay is at. *)
Definition rm_of (r : Replay) : RM :=
  MkRM (s_ns (rp_s r)) (rp_desc r) (s_gcMark (rp_s r)) (foldl spec_op (contents (rp_db r)) (rp_b r)).

Definition known_ops (b : Batch) : Prop := Forall (λ o, known_op o = true) b.

Record replay_ok (r : Replay) : Prop := MkReplayOk {
  ro_wf : eng_wf (rp_db r);
  ro_known : known_ops (rp_b r);
}.

(** ** Counters do not matter, and only the range's own records are staged *)

(** An operation stays inside the namespace. *)
Definition ok_op (ns : bytes) (o : Op) : Prop :=
  match o with
  | OpSet k _ | OpDelete k => in_ns ns k
  | OpDeleteRange lo hi => inside ns lo hi
  | OpUnknown _ => False
  end.
Definition ok_ops (ns : bytes) (b : Batch) : Prop := Forall (ok_op ns) b.

Lemma ok_known ns b : ok_ops ns b → known_ops b.
Proof. intros Hb. apply (Forall_impl _ _ _ Hb). by intros []. Qed.

Lemma in_ns_lock ns key : in_ns ns (LockKey ns key).
Proof. exact (in_ns_enc ns (KLock key)). Qed.
Lemma in_ns_write ns key t : in_ns ns (WriteKey ns key t).
Proof. exact (in_ns_enc ns (KWrite key t)). Qed.
Lemma in_ns_txn ns key t : in_ns ns (TxnKey ns key t).
Proof. exact (in_ns_enc ns (KTxn key t)). Qed.
Lemma in_ns_read ns key t : in_ns ns (ReadMarkKey ns key t).
Proof. exact (in_ns_enc ns (KRead key t)). Qed.
Lemma in_ns_data ns key t : in_ns ns (EncodeKey ns key t).
Proof. exact (in_ns_enc ns (KData key t)). Qed.

Lemma ok_nil ns : ok_ops ns [].
Proof. constructor. Qed.
Lemma ok_set ns k v b : in_ns ns k → ok_ops ns b → ok_ops ns (Batch_Set k v b).
Proof. intros Hk Hb. apply Forall_app. split; [done|]. by constructor. Qed.
Lemma ok_delete ns k b : in_ns ns k → ok_ops ns b → ok_ops ns (Batch_Delete k b).
Proof. intros Hk Hb. apply Forall_app. split; [done|]. by constructor. Qed.
#[global] Hint Resolve in_ns_lock in_ns_write in_ns_txn in_ns_read in_ns_data ok_nil ok_set ok_delete : rift.

(** Split every test of the staging code. *)
Ltac split_code :=
  repeat match goal with
  | |- context [match ?x with _ => _ end] => lazymatch x with context [match _ with _ => _ end] => fail | _ => destruct x eqn:? end
  end.

(** An operation that stages into a batch: what it stages depends on the
    namespace and the mark only, it changes neither, and it writes only inside
    the namespace. *)
Definition stages {A} (op : Batch → Store → A * Batch * Store) : Prop :=
  ∀ b s s0, counters_only s s0 →
    fst (op b s) = fst (op b s0) ∧ counters_only s (snd (op b s)) ∧ (ok_ops (s_ns s) b → ok_ops (s_ns s) (snd (fst (op b s)))).

Section Stages.
Context {E : Type} `{EngineReads E} (db : E).

Lemma Store_Lock_ns s s0 key : s_ns s0 = s_ns s → Store_Lock db key s0 = Store_Lock db key s.
Proof. intros Hn. unfold Store_Lock. by rewrite Hn. Qed.
Lemma Store_Txn_ns s s0 p t : s_ns s0 = s_ns s → Store_Txn db p t s0 = Store_Txn db p t s.
Proof. intros Hn. unfold Store_Txn. by rewrite Hn. Qed.
Lemma newestCommit_ns s s0 key : s_ns s0 = s_ns s → newestCommit db key s0 = newestCommit db key s.
Proof. intros Hn. unfold newestCommit. by rewrite Hn. Qed.
Lemma ReadMark_ns s s0 key : s_ns s0 = s_ns s → ReadMark db key s0 = ReadMark db key s.
Proof. intros Hn. unfold ReadMark. by rewrite Hn. Qed.

Ltac stages_tac :=
  let b := fresh "b" in let s := fresh "s" in let s0 := fresh "s0" in
  let Hn := fresh "Hn" in let Hm := fresh "Hm" in
  intros b s s0 [Hn Hm];
  unfold PrewriteInto, CommitInto, RollbackInto, NoteReadInto, releaseLockOf, refuseIfReadAbove, PutInto;
  cbv zeta; rewrite ?(Store_Lock_ns s s0), ?(newestCommit_ns s s0), ?(ReadMark_ns s s0), ?Hn, ?Hm by done;
  split_code; simplify_eq; cbn -[encodeLock encodeWrite EncodeKey WriteKey LockKey ReadMarkKey]; (split_and!; [by rewrite ?Hn, ?Hm|done..|auto with rift]).

Lemma release_stages key t : stages (releaseLockOf db key t).
Proof. stages_tac. Qed.
Lemma prewrite_stages key l v : stages (PrewriteInto db key l v).
Proof. stages_tac. Qed.
Lemma noteread_stages key t : stages (NoteReadInto db key t).
Proof. stages_tac. Qed.
Lemma put_stages key t v : stages (PutInto key t v).
Proof. stages_tac. Qed.
Lemma commit_stages key t c : stages (CommitInto db key t c).
Proof. stages_tac. Qed.
Lemma rollback_stages key t : stages (RollbackInto db key t).
Proof. stages_tac. Qed.

Lemma resolution_stages key l r c : stages (ApplyResolutionInto db key l r c).
Proof.
  intros b s s0 [Hn Hm]. destruct r; cbn [ApplyResolutionInto]; [by cbn|..].
  - destruct (commit_stages key (l_StartTS l) c b (s <| s_rollForwards := s_rollForwards s + 1 |>)
                (s0 <| s_rollForwards := s_rollForwards s0 + 1 |>)) as (H1 & [H2 H2'] & H3); [by split|]. by split_and!.
  - destruct (rollback_stages key (l_StartTS l) b (s <| s_rollBacks := s_rollBacks s + 1 |>)
                (s0 <| s_rollBacks := s_rollBacks s0 + 1 |>)) as (H1 & [H2 H2'] & H3); [by split|]. by split_and!.
Qed.

(** The same without the answer. *)
Definition stages' (f : Batch → Store → Batch * Store) : Prop :=
  ∀ b s s0, counters_only s s0 →
    fst (f b s) = fst (f b s0) ∧ counters_only s (snd (f b s)) ∧ (ok_ops (s_ns s) b → ok_ops (s_ns s) (fst (f b s))).

Lemma stages_drop {A} (op : Batch → Store → A * Batch * Store) :
  stages op → stages' (λ b s, let '(_, b, s) := op b s in (b, s)).
Proof.
  intros Hop b s s0 Hc. destruct (Hop b s s0 Hc) as (H1 & H2 & H3). cbv beta.
  destruct (op b s) as [[a1 b1] s1], (op b s0) as [[a2 b2] s2]. cbn in *. by simplify_eq.
Qed.

Lemma stages_id : stages' (λ b s, (b, s)).
Proof. done. Qed.

Lemma puttxn_stages p r : stages' (λ b s, let '(_, b) := PutTxnInto db p r b s in (b, s)).
Proof.
  intros b s s0 [Hn Hm]. cbv beta. unfold PutTxnInto. rewrite (Store_Txn_ns s s0), Hn by done.
  split_code; simplify_eq; cbn -[encodeTxn]; (split_and!; [done..|auto with rift]).
Qed.

(** A transaction step. *)
Lemma applyTxnTo_stages c desc : stages' (applyTxnTo db c desc).
Proof.
  intros b s s0 Hc. pose proof Hc as [Hn _]. unfold applyTxnTo. destruct (tc_Op c); [..|exact (stages_id b s s0 Hc)].
  - exact (stages_drop _ (prewrite_stages _ _ _) b s s0 Hc).
  - exact (stages_drop _ (commit_stages _ _ _) b s s0 Hc).
  - exact (stages_drop _ (rollback_stages _ _) b s s0 Hc).
  - exact (puttxn_stages _ _ b s s0 Hc).
  - exact (stages_drop _ (noteread_stages _ _) b s s0 Hc).
  - cbv zeta. unfold ResolveLock. cbn [negb]. rewrite !(Store_Txn_ns s s0) by done. cbn [l_Primary l_StartTS l_Deadline].
    destruct (Store_Txn db (tc_Key c) (tc_StartTS c) s) as [[rec|]|].
    + destruct (bool_decide _); exact (stages_id b s s0 Hc).
    + destruct (LessEq _ _); [exact (stages_id b s s0 Hc)|exact (puttxn_stages _ _ b s s0 Hc)].
    + exact (stages_id b s s0 Hc).
  - rewrite (Store_Lock_ns s s0) by done.
    destruct (Store_Lock db (tc_Key c) s) as [[l|]|]; [|exact (stages_id b s s0 Hc)|exact (stages_id b s s0 Hc)].
    destruct (negb _); [exact (stages_id b s s0 Hc)|].
    exact (stages_drop _ (resolution_stages _ _ _ _) b s s0 Hc).
Qed.

Lemma gcStep_ok ns to es g : ok_ops ns (gc_batch g) → ok_ops ns (gc_batch (foldl (gcStep ns to) g es)).
Proof.
  revert g. induction es as [|x es IH]; intros g Hg; [done|]. cbn [foldl]. apply IH. unfold gcStep.
  destruct (DecodeKey ns (fst x)) as [[key ts]|] eqn:Ed; [|done]. apply DecodeKey_some in Ed as (_ & _ & ->). cbv zeta.
  split_code; cbn [gc_batch]; auto with rift.
Qed.

(** Collection: what it stages depends on the namespace and the mark, and so does
    the mark it leaves. *)
Lemma gc_stages to b s s0 :
  counters_only s s0 →
  fst (AdvanceGCInto db to b s) = fst (AdvanceGCInto db to b s0)
  ∧ counters_only (snd (AdvanceGCInto db to b s)) (snd (AdvanceGCInto db to b s0))
  ∧ s_ns (snd (AdvanceGCInto db to b s)) = s_ns s
  ∧ (ok_ops (s_ns s) b → ok_ops (s_ns s) (snd (fst (AdvanceGCInto db to b s)))).
Proof.
  intros [Hn Hm]. unfold AdvanceGCInto. rewrite Hn, Hm. destruct (negb _); [by cbn|]. destruct (LessEq _ _); [by cbn|].
  cbv zeta. destruct (eng_scan _ _ db) as [es err].
  pose proof (gcStep_ok (s_ns s) to es (MkGc [] false b 0)) as Hk. cbn [gc_batch] in Hk.
  destruct err; cbn; by split_and!.
Qed.
End Stages.

(** ** The replay refines the abstract machine *)

Lemma Apply_law d b :
  eng_wf d → known_ops b →
  ∃ q d', Apply (Some b) false d = Some (Ok q, d') ∧ eng_wf d' ∧ contents d' = foldl spec_op (contents d) b.
Proof.
  intros Hwf Hk. destruct (eng_apply_law d b Hwf Hk) as [Hw Hc]. cbn [eng_apply DB_writes] in *. revert Hw Hc.
  unfold db_apply_batch. destruct Hwf as [Hs Hcl]. unfold Apply. rewrite Hcl. destruct b as [|o b]; [eauto|].
  set (d1 := d <| d_seq := add64 (d_seq d) 1 |>).
  destruct (applyTo_spec (visible d1) (o :: b) (d_seq d1)) as (v & -> & _); [exact Hs|exact Hk|].
  cbn [mbind option_bind]. eauto.
Qed.

Lemma flush_ok r :
  replay_ok r →
  ∃ r', flush r = Some r' ∧ replay_ok r' ∧ rp_b r' = [] ∧ rm_of r' = rm_of r
    ∧ rp_desc r' = rp_desc r ∧ rp_s r' = rp_s r ∧ rp_next r' = rp_next r
    ∧ rp_noopReachedSwitch r' = rp_noopReachedSwitch r.
Proof.
  intros [Hw Hk]. unfold flush. destruct (rp_b r) as [|o b] eqn:Eb.
  { exists r. unfold Batch_Empty. split_and!; try done. by split; rewrite ?Eb. }
  cbn [Batch_Empty]. destruct (Apply_law (rp_db r) (o :: b) Hw Hk) as (q & d' & -> & Hw' & Hc').
  cbn [mbind option_bind]. eexists. split; [reflexivity|]. split; [split; [done|constructor]|].
  split; [done|]. split; [|done]. unfold rm_of. rewrite Eb. cbn -[contents foldl]. f_equal. exact Hc'.
Qed.

Lemma stays_filter (left : RangeDescriptor) (s : Store) (m : gmap bytes bytes) es :
  sorted_entries es → (∀ k, emap es !! k = if owns k s then m !! k else None) →
  let kept := filter (λ x, match UserKeyOf (fst x) s with Some k => Contains left k | None => false end = true) es in
  keptBy left s (recordOf <$> es) = recordOf <$> kept ∧ sorted_entries kept
  ∧ ∀ k, match emap kept !! k with Some v => Some v | None => if owns k s then None else m !! k end
         = filter (λ x : entry, stays left s (fst x) = true) m !! k.
Proof.
  intros Hs Hm kept. split; [|split].
  - unfold keptBy, kept. clear. induction es as [|x es IH]; [done|]. cbn [fmap list_fmap].
    rewrite !filter_cons. cbn [rec_Key recordOf]. destruct (decide _); cbn; by rewrite IH.
  - by apply sorted_filter.
  - assert (Hsk : sorted_entries kept) by by apply sorted_filter. intros k. symmetry.
    destruct (emap kept !! k) as [v|] eqn:Ek.
    + apply emap_lookup in Ek; [|done]. apply list_elem_of_filter in Ek as [Hu Hin]. cbn [fst] in Hu.
      apply emap_lookup in Hin; [|done]. rewrite Hm in Hin. destruct (owns k s) eqn:Eo; [|done].
      apply map_lookup_filter_Some. split; [done|]. cbn. unfold stays. rewrite Eo. done.
    + destruct (owns k s) eqn:Eo.
      * apply map_lookup_filter_None. destruct (m !! k) as [v|] eqn:Em; [right|by left]. intros w [= <-].
        cbn. unfold stays. rewrite Eo. cbn. intros Hu.
        assert (Hin : (k, v) ∈ kept).
        { apply list_elem_of_filter. split; [done|]. apply emap_lookup; [done|]. by rewrite Hm, Eo. }
        apply emap_lookup in Hin; [|done]. congruence.
      * destruct (m !! k) as [v|] eqn:Em.
        -- apply map_lookup_filter_Some. split; [done|]. cbn. unfold stays. by rewrite Eo.
        -- apply map_lookup_filter_None. by left.
Qed.

Lemma counters_plain s : counters_only s (plain (s_ns s) (s_gcMark s)).
Proof. done. Qed.

(** A transaction step gives the same answer on any two engines that hold the
    same records of the range. *)
Lemma applyTxnTo_agree {E1 E2} `{EngineReads E1} `{EngineReads E2} (db1 : E1) (db2 : E2) c desc b s :
  agree (s_ns s) db1 db2 → applyTxnTo db1 c desc b s = applyTxnTo db2 c desc b s.
Proof.
  intros Ha. unfold applyTxnTo. destruct (tc_Op c); try done.
  - by rewrite (Prewrite_agree db1 db2 s Ha).
  - by rewrite (Commit_agree db1 db2 s Ha).
  - by rewrite (Rollback_agree db1 db2 s Ha).
  - by rewrite (PutTxn_agree db1 db2 s Ha).
  - by rewrite (NoteRead_agree db1 db2 s Ha).
  - cbv zeta. by rewrite (ResolveLock_agree db1 db2 s Ha), (Store_Txn_agree db1 db2 s Ha), (PutTxn_agree db1 db2 s Ha).
  - rewrite (Store_Lock_agree db1 db2 s Ha). destruct (Store_Lock _ _ _) as [[l|]|]; [|done|done].
    cbv zeta. by rewrite (ApplyResolution_agree db1 db2).
Qed.

(** Staging into a flushed replay and flushing again. *)
Lemma stage_flush r b s :
  replay_ok r → rp_b r = [] → known_ops b →
  ∃ r', flush (r <| rp_b := b |> <| rp_s := s |>) = Some r' ∧ replay_ok r' ∧ rp_b r' = []
    ∧ rm_of r' = MkRM (s_ns s) (rp_desc r) (s_gcMark s) (foldl spec_op (rm_kv (rm_of r)) b)
    ∧ rp_desc r' = rp_desc r ∧ rp_next r' = rp_next r ∧ rp_noopReachedSwitch r' = rp_noopReachedSwitch r.
Proof.
  intros [Hw Hk] Hb Hkb. destruct (flush_ok (r <| rp_b := b |> <| rp_s := s |>)) as (r' & H1 & H2 & H3 & H4 & H5 & _ & H6 & H7).
  { by split. }
  exists r'. split_and!; [done|done|done| |done|done|done]. rewrite H4. unfold rm_of. rewrite Hb. done.
Qed.

(** A refused collection stages nothing. *)
Lemma gc_refused (kv : gmap bytes bytes) to s0 e b s : AdvanceGCInto kv to [] s0 = (Err e, b, s) → b = [] ∧ s = s0.
Proof.
  unfold AdvanceGCInto. destruct (negb _); [by intros [= _ <- <-]|]. destruct (LessEq _ _); [done|].
  cbv zeta. cbn [eng_scan Map_reads]. done.
Qed.

(** The three kinds of command that run on a flushed replay. *)
Section Flushed.
Context (r : Replay) (Hok : replay_ok r) (Hb : rp_b r = []).

Let kv : gmap bytes bytes := contents (rp_db r).

Lemma flushed_kv : rm_of r = MkRM (s_ns (rp_s r)) (rp_desc r) (s_gcMark (rp_s r)) kv.
Proof using Hb. unfold rm_of. by rewrite Hb. Qed.

(** What is kept of the replay's own bookkeeping. *)
Definition same_cursor (r' : Replay) : Prop :=
  rp_next r' = rp_next r ∧ rp_noopReachedSwitch r' = rp_noopReachedSwitch r.

Lemma txn_flushed c :
  ∃ r', (let '(b, s) := applyTxnTo (rp_db r) c (rp_desc r) (rp_b r) (rp_s r) in
         flush (r <| rp_b := b |> <| rp_s := s |>)) = Some r' ∧ replay_ok r' ∧ same_cursor r'
    ∧ rm_of r' = MkRM (s_ns (rp_s r)) (rp_desc r) (s_gcMark (rp_s r))
                   (foldl spec_op kv (fst (applyTxnTo kv c (rp_desc r) [] (rm_store (rm_of r))))).
Proof using Hok Hb.
  rewrite (applyTxnTo_agree _ kv) by (apply agree_contents, Hok). rewrite Hb.
  destruct (applyTxnTo_stages kv c (rp_desc r) [] (rp_s r) _ (counters_plain _)) as (He & [Hn Hg] & Hkn).
  destruct (applyTxnTo kv c _ [] (rp_s r)) as [b s]. cbn [fst snd] in *.
  destruct (stage_flush r b s Hok Hb (ok_known _ _ (Hkn (ok_nil _)))) as (r' & -> & Hok' & _ & Hm' & _ & Hn' & Hp').
  exists r'. split_and!; [done|done|done|]. rewrite Hm', Hn, Hg, flushed_kv. cbn [rm_kv]. by rewrite He.
Qed.

Lemma split_flushed left :
  ∃ r', match Records (rp_db r) (rp_s r) with
        | Err _ => Some r
        | Ok all =>
            let kept := keptBy left (rp_s r) all in
            let '(b, s) := IngestRecordsInto kept (GCMark (rp_s r)) (rp_b r) (rp_s r) in
            r ← flush (r <| rp_b := b |> <| rp_s := s |>);
            Some (r <| rp_desc := left |>)
        end = Some r' ∧ replay_ok r' ∧ same_cursor r'
    ∧ rm_of r' = MkRM (s_ns (rp_s r)) left (s_gcMark (rp_s r)) (filter (λ x, stays left (rp_s r) (fst x) = true) kv).
Proof using Hok Hb.
  destruct (Records_entries (rp_db r) (rp_s r) ltac:(apply Hok)) as (es & -> & Hses & Hmes).
  destruct (stays_filter left (rp_s r) _ es Hses Hmes) as (Hkept & Hsk & Hlook). cbv zeta. rewrite Hkept, Hb.
  match goal with |- context [IngestRecordsInto (recordOf <$> ?kept) ?mk _ _] =>
    pose proof (λ k, ingest_lookup kept mk kv (rp_s r) k Hsk) as Hing end.
  unfold NewBatch, GCMark in *. destruct (IngestRecordsInto _ _ [] (rp_s r)) as [b s].
  destruct (Hing []) as (Hg & Hn & Hkn & _).
  destruct (stage_flush r b s Hok Hb Hkn) as (r' & -> & [Hw' Hk'] & Hb' & Hm' & _ & Hn' & Hp').
  cbn [mbind option_bind]. eexists. split; [reflexivity|]. split; [by split|]. split; [by split|].
  rewrite flushed_kv in Hm'.
  assert (Hshape : rm_of (r' <| rp_desc := left |>) = MkRM (rm_ns (rm_of r')) left (rm_mark (rm_of r')) (rm_kv (rm_of r')))
    by done.
  rewrite Hshape, Hm'. cbn [rm_ns rm_mark rm_kv]. rewrite Hn, Hg. f_equal. apply map_eq. intros k.
  destruct (Hing k) as (_ & _ & _ & ->). apply Hlook.
Qed.

Lemma gc_flushed at_ :
  ∃ r', (let '(res, b, s) := AdvanceGCInto (rp_db r) at_ (rp_b r) (rp_s r) in
         match res with
         | Ok _ => flush (r <| rp_b := b |> <| rp_s := s |>)
         | Err _ => Some (r <| rp_b := [] |> <| rp_s := s |>)
         end) = Some r' ∧ replay_ok r' ∧ same_cursor r'
    ∧ rm_of r' = let '(_, b, s) := AdvanceGCInto kv at_ [] (rm_store (rm_of r)) in
                 MkRM (s_ns (rp_s r)) (rp_desc r) (s_gcMark s) (foldl spec_op kv b).
Proof using Hok Hb.
  rewrite (AdvanceGC_agree _ kv) by (apply agree_contents, Hok). rewrite Hb.
  change (rm_store (rm_of r)) with (plain (s_ns (rp_s r)) (s_gcMark (rp_s r))).
  destruct (gc_stages kv at_ [] (rp_s r) _ (counters_plain _)) as (He & [Hn Hg] & Hns & Hkn).
  pose proof (gc_refused kv at_ (rp_s r)) as Herr.
  destruct (AdvanceGCInto kv at_ [] (rp_s r)) as [[res b] s].
  destruct (AdvanceGCInto kv at_ [] (plain _ _)) as [[res0 b0] s0]. cbn [fst snd] in *. injection He as <- <-.
  destruct res as [z|err].
  - destruct (stage_flush r b s Hok Hb (ok_known _ _ (Hkn (ok_nil _)))) as (r' & -> & Hok' & _ & Hm' & _ & Hn' & Hp').
    exists r'. split_and!; [done|done|done|]. rewrite Hm', flushed_kv, Hns, Hg. done.
  - destruct (Herr _ _ _ eq_refl) as [-> ->]. eexists. split; [reflexivity|].
    split; [split; [apply Hok|constructor]|]. split; [done|]. rewrite Hg. done.
Qed.
End Flushed.

(** A put is staged and stays in the batch. *)
Lemma put_staged k at_ v r :
  replay_ok r →
  let '(_, b, s) := PutInto k at_ v (rp_b r) (rp_s r) in
  let r' := r <| rp_b := b |> <| rp_s := s |> in
  replay_ok r' ∧ same_cursor r r'
  ∧ rm_of r' = let '(_, b, _) := PutInto k at_ v [] (rm_store (rm_of r)) in
               MkRM (s_ns (rp_s r)) (rp_desc r) (s_gcMark (rp_s r)) (foldl spec_op (rm_kv (rm_of r)) b).
Proof.
  intros [Hw Hk]. unfold PutInto. change (s_gcMark (rm_store (rm_of r))) with (s_gcMark (rp_s r)).
  destruct (negb _); [by split; [split|]|]. destruct (LessEq _ _); [by split; [split|]|].
  cbn zeta. split; [split; [done|apply Forall_app; split; [done|by constructor]]|]. split; [done|].
  unfold rm_of, Batch_Set. cbn -[contents foldl]. by rewrite foldl_app.
Qed.

(** One entry. *)
Lemma applyOne_ok e r :
  replay_ok r →
  ∃ r', applyOne e r = Some r' ∧ replay_ok r' ∧ same_cursor r r' ∧ rm_of r' = rm_step (rm_of r) e.
Proof.
  intros Hok. unfold applyOne. cbv zeta.
  destruct (length (e_Data e) =? 0)%nat eqn:Elen; cbn [andb].
  { exists r. split_and!; [done|done|done|]. unfold rm_step. rewrite Elen. by destruct (rm_of r). }
  destruct (flush_ok r Hok) as (r1 & Hf & Hok1 & Hb1 & Hm1 & Hd1 & Hs1 & Hn1 & Hp1).
  assert (Hcur : ∀ r', same_cursor r1 r' → same_cursor r r') by (intros r' [? ?]; split; congruence).
  assert (Hself : rm_step (rm_of r) e = rm_of r →
            ∃ r', Some r = Some r' ∧ replay_ok r' ∧ same_cursor r r' ∧ rm_of r' = rm_step (rm_of r) e)
    by (intros Hst; exists r; by rewrite Hst).
  revert Hself. rewrite <- Hm1, (flushed_kv r1 Hb1). unfold rm_step. rewrite Elen, <- Hd1.
  destruct (isTxnCommand (e_Data e)).
  { destruct (decodeTxnCommand (e_Data e)) as [c|]; [|by auto].
    destruct (Contains (rp_desc r1) (tc_Key c)); cbn [negb]; [|by auto]. intros _.
    rewrite Hf. cbn [mbind option_bind]. destruct (txn_flushed r1 Hok1 Hb1 c) as (r' & -> & ? & ? & Hm').
    exists r'. rewrite Hm', (flushed_kv r1 Hb1). by auto. }
  destruct (isSplitCommand (e_Data e)).
  { destruct (decodeSplitCommand (e_Data e)) as [spec|]; [|by auto].
    destruct (splitApplies spec (rp_desc r1)); cbn [negb]; [|by auto]. intros _.
    rewrite Hf. cbn [mbind option_bind]. destruct (split_flushed r1 Hok1 Hb1 (sp_Left spec)) as (r' & Hr' & ? & ? & Hm').
    exists r'. cbv zeta in Hr'. rewrite Hr', Hm'. by auto. }
  destruct (decodeCmd (e_Data e)) as [[[op k] v] at_].
  destruct (bool_decide (op = opGC)).
  { intros _. rewrite Hf. cbn [mbind option_bind]. destruct (gc_flushed r1 Hok1 Hb1 at_) as (r' & -> & ? & ? & Hm').
    exists r'. rewrite Hm', (flushed_kv r1 Hb1). by auto. }
  destruct (bool_decide (op = opPut)); cbn [andb]; [|by auto].
  destruct (Contains (rp_desc r1) k); [|by auto]. intros _.
  pose proof (put_staged k at_ v r Hok) as Hput. destruct (PutInto k at_ v (rp_b r) (rp_s r)) as [[res b] s].
  destruct Hput as (? & ? & Hm'). eexists. split; [reflexivity|]. split_and!; [done|done|].
  rewrite Hm', <- Hm1, (flushed_kv r1 Hb1), Hd1. cbn [rm_kv]. by rewrite <- Hs1.
Qed.

Lemma entries_ok es r :
  replay_ok r →
  ∃ r', foldM (λ r e, applyOne e r) r es = Some r' ∧ replay_ok r' ∧ same_cursor r r' ∧ rm_of r' = rm_apply es (rm_of r).
Proof.
  revert r. induction es as [|e es IH]; intros r Hok; [by exists r|]. cbn [foldM].
  destruct (applyOne_ok e r Hok) as (r1 & -> & Hok1 & [Hn1 Hp1] & Hm1). cbn [mbind option_bind].
  destruct (IH r1 Hok1) as (r2 & -> & Hok2 & [Hn2 Hp2] & Hm2). exists r2.
  split_and!; [done|done|split; congruence|]. by rewrite Hm2, Hm1.
Qed.

Lemma Replay_Apply_ok es r :
  replay_ok r →
  ∃ r', Replay_Apply es r = Some r' ∧ replay_ok r' ∧ rm_of r' = rm_apply (drop (rp_next r) es) (rm_of r)
    ∧ rp_next r' = Nat.max (rp_next r) (length es) ∧ rp_noopReachedSwitch r' = rp_noopReachedSwitch r.
Proof.
  intros Hok. unfold Replay_Apply.
  destruct (entries_ok (drop (rp_next r) es) r Hok) as (r1 & -> & Hok1 & [Hn1 Hp1] & Hm1). cbn [mbind option_bind].
  assert (∃ r2, (if (rp_next r1 <? length es)%nat then r1 <| rp_next := length es |> else r1) = r2 ∧ replay_ok r2
            ∧ rm_of r2 = rm_of r1 ∧ rp_next r2 = Nat.max (rp_next r) (length es)
            ∧ rp_noopReachedSwitch r2 = rp_noopReachedSwitch r1) as (r2 & Heq & Hok2 & Hm2 & Hn2 & Hp2).
  { eexists. split; [reflexivity|]. rewrite Hn1. destruct Hok1. destruct (Nat.ltb_spec (rp_next r) (length es)); split_and!; try done; cbn; lia. }
  cbv zeta. rewrite Heq. destruct (flush_ok r2 Hok2) as (r3 & -> & Hok3 & _ & Hm3 & _ & _ & Hn3 & Hp3).
  exists r3. split_and!; [done|done|congruence|congruence|congruence].
Qed.

(** The snapshot of an abstract state: its records in key order. *)
Definition rm_records (st : RM) : list KvRecord :=
  recordOf <$> filter (λ x, owns (fst x) (rm_store st) = true)
    (filter (λ x, InRange (fst x) (Some (rm_ns st)) (prefixEnd (rm_ns st)) = true) (map_entries (rm_kv st))).

Lemma State_ok r :
  replay_ok r → State r = Some (rm_desc (rm_of r), rm_mark (rm_of r), Some (rm_records (rm_of r))).
Proof.
  intros Hok. unfold State. destruct (flush_ok r Hok) as (r1 & -> & [Hw1 _] & Hb1 & Hm1 & Hd1 & Hs1 & _).
  cbn [mbind option_bind]. rewrite (Records_agree _ (contents (rp_db r1))) by by apply agree_contents. rewrite <- Hm1, (flushed_kv r1 Hb1), Hd1, Hs1. done.
Qed.

(** ** Starting a replay *)

(** The state a payload describes. *)
Definition rm_init (desc : RangeDescriptor) (mark : Timestamp) (recs : list KvRecord) : RM :=
  let ns := rangePrefix (d_ID desc) in
  MkRM ns desc mark (foldl spec_op ∅ (fst (IngestRecordsInto recs mark NewBatch (plain ns zeroTimestamp)))).

Definition base_ok (desc : RangeDescriptor) (recs : list KvRecord) : Prop :=
  Forall (λ r, in_ns (rangePrefix (d_ID desc)) (rec_Key r)) recs.

Lemma ingest_ok recs mark s :
  ok_ops (s_ns s) (fst (IngestRecordsInto recs mark NewBatch s))
  ↔ Forall (λ r, in_ns (s_ns s) (rec_Key r)) recs.
Proof.
  unfold IngestRecordsInto, Batch_DeleteRange, Batch_Set, NewBatch. cbv zeta. cbn [fst].
  rewrite (foldl_batch (λ r, OpSet (rec_Key r) (rec_Value r))).
  rewrite (foldl_batch (λ kind, OpDeleteRange (Some (s_ns s ++ [kind])) (prefixEnd (s_ns s ++ [kind])))).
  unfold ok_ops. rewrite Forall_app, !Forall_fmap. split; [by intros [_ ?]|]. intros Hr. split; [|done].
  cbn [app]. apply Forall_fmap, Forall_forall. intros kind Hkind. by apply inside_kind.
Qed.

Lemma ingest_known recs mark s : known_ops (fst (IngestRecordsInto recs mark NewBatch s)).
Proof.
  unfold IngestRecordsInto, Batch_DeleteRange, Batch_Set, NewBatch. cbv zeta. cbn [fst].
  rewrite (foldl_batch (λ r, OpSet (rec_Key r) (rec_Value r))).
  rewrite (foldl_batch (λ kind, OpDeleteRange (Some (s_ns s ++ [kind])) (prefixEnd (s_ns s ++ [kind])))).
  apply Forall_app. split; [by repeat constructor|]. apply Forall_fmap, Forall_forall. done.
Qed.

Lemma new_wf : eng_wf Engine.New.
Proof. split; [constructor|done]. Qed.

Lemma NewReplay_ok base desc mark recs :
  decodeMachine base = Some (Some (desc, mark, recs)) →
  ∃ r, NewReplay base = Some (Some r) ∧ replay_ok r ∧ rm_of r = rm_init desc mark recs
    ∧ rp_next r = 0%nat ∧ rp_noopReachedSwitch r = 0.
Proof.
  intros Hd. unfold NewReplay. rewrite Hd. cbn [mbind option_bind NewStore].
  pose proof (ingest_known recs mark (plain (rangePrefix (d_ID desc)) zeroTimestamp)) as Hk. unfold rm_init. cbv zeta.
  change (MkStore (rangePrefix (d_ID desc)) zeroTimestamp 0 0 0 0 0 0 0 0 0 0 0 0 0 0)
    with (plain (rangePrefix (d_ID desc)) zeroTimestamp).
  assert (Hs : s_ns (snd (IngestRecordsInto recs mark NewBatch (plain (rangePrefix (d_ID desc)) zeroTimestamp)))
               = rangePrefix (d_ID desc)
             ∧ s_gcMark (snd (IngestRecordsInto recs mark NewBatch (plain (rangePrefix (d_ID desc)) zeroTimestamp))) = mark)
    by done.
  destruct (IngestRecordsInto _ _ _ _) as [b s]. cbn [fst snd] in *. destruct Hs as [Hn Hg].
  destruct (Apply_law Engine.New b new_wf Hk) as (q & d' & -> & Hw' & Hc'). cbn [mbind option_bind].
  eexists. split; [reflexivity|]. split; [split; [done|constructor]|]. split; [|done].
  unfold rm_of. cbn [rp_s rp_desc rp_db rp_b foldl]. by rewrite Hn, Hg, Hc'.
Qed.

Lemma ReplayMachine_eq base desc mark recs es :
  decodeMachine base = Some (Some (desc, mark, recs)) →
  let st := rm_apply es (rm_init desc mark recs) in
  ReplayMachine base es = Some (Some (rm_desc st, rm_mark st, Some (rm_records st))).
Proof.
  intros Hd. destruct (NewReplay_ok _ _ _ _ Hd) as (r & Hr & Hok & Hm & Hn & _). unfold ReplayMachine.
  rewrite Hr. cbn [mbind option_bind]. destruct (Replay_Apply_ok es r Hok) as (r' & -> & Hok' & Hm' & _).
  cbn [mbind option_bind]. rewrite State_ok by done. by rewrite Hm', Hn, Hm.
Qed.

(** The replay refines the abstract state machine: from any payload that
    decodes, over any log, it never panics and ends in exactly the extent, the
    mark and the records of the abstract machine -- in whatever order and however
    often its batch was flushed into the engine on the way. *)
Theorem replay_refines base desc mark recs es :
  decodeMachine base = Some (Some (desc, mark, recs)) →
  let st := rm_apply es (rm_init desc mark recs) in
  ReplayMachine base es = Some (Some (rm_desc st, rm_mark st, Some (rm_records st))).
Proof. apply ReplayMachine_eq. Qed.

(** A replay may be advanced in any number of calls: handing it a growing
    prefix leaves it in the state one call on the whole log gives, and no
    term-start no-op ever reaches the command switch. *)
Theorem replay_resumable base r p q :
  NewReplay base = Some (Some r) →
  ∃ r1 r2 r3, Replay_Apply p r = Some r1 ∧ Replay_Apply (p ++ q) r1 = Some r2 ∧ Replay_Apply (p ++ q) r = Some r3
    ∧ State r2 = State r3 ∧ rp_next r2 = length (p ++ q)
    ∧ rp_noopReachedSwitch r2 = 0.
Proof.
  intros Hr. assert (∃ desc mark recs, decodeMachine base = Some (Some (desc, mark, recs))) as (desc & mark & recs & Hd).
  { revert Hr. unfold NewReplay. destruct (decodeMachine base) as [[[[desc mark] recs]|]|]; [eauto|done|done]. }
  destruct (NewReplay_ok _ _ _ _ Hd) as (r0 & Hr0 & Hok & _ & Hn & Hp). rewrite Hr in Hr0. injection Hr0 as <-.
  destruct (Replay_Apply_ok p r Hok) as (r1 & Ha1 & Hok1 & Hm1 & Hn1 & Hp1).
  destruct (Replay_Apply_ok (p ++ q) r1 Hok1) as (r2 & Ha2 & Hok2 & Hm2 & Hn2 & Hp2).
  destruct (Replay_Apply_ok (p ++ q) r Hok) as (r3 & Ha3 & Hok3 & Hm3 & _).
  exists r1, r2, r3. split_and!; [done|done|done| | |congruence].
  - rewrite !State_ok by done. enough (rm_of r2 = rm_of r3) as -> by done.
    rewrite Hm2, Hm1, Hm3, Hn1, Hn. cbn [Nat.max]. rewrite drop_app_length, !drop_0. unfold rm_apply. by rewrite foldl_app.
  - rewrite Hn2, Hn1, Hn, length_app. cbn. lia.
Qed.

(** ** A snapshot is a payload *)

(** The machine holds nothing outside its namespace. *)
Definition rm_owned (st : RM) : Prop := ∀ k, is_Some (rm_kv st !! k) → in_ns (rm_ns st) k.

Lemma ops_owned ns b m :
  ok_ops ns b → (∀ k, is_Some (m !! k) → in_ns ns k) → ∀ k, is_Some (foldl spec_op m b !! k) → in_ns ns k.
Proof.
  intros Hb. revert m. induction Hb as [|o b Ho _ IH]; intros m Hm; [done|]. cbn [foldl]. apply IH. intros k.
  destruct o as [k' v|k'|lo hi|]; cbn [spec_op]; [| | |done].
  - destruct (decide (k' = k)) as [->|Hne]; [done|]. rewrite lookup_insert_ne by done. apply Hm.
  - intros [v Hv]. apply lookup_delete_Some in Hv as [_ Hv]. eauto.
  - intros [v Hv]. apply map_lookup_filter_Some in Hv as [Hv _]. eauto.
Qed.

Lemma rm_step_owned st e : rm_owned st → rm_owned (rm_step st e) ∧ rm_ns (rm_step st e) = rm_ns st.
Proof.
  destruct st as [ns desc mark kv]. unfold rm_owned, rm_step. cbn [rm_kv rm_ns]. intros Hown.
  destruct (_ =? _)%nat; [done|]. destruct (isTxnCommand _).
  { destruct (decodeTxnCommand _) as [c|]; [|done]. destruct (Contains _ _); [|done]. split; [|done].
    cbn [rm_kv rm_ns]. apply ops_owned; [|done].
    destruct (applyTxnTo_stages kv c desc [] (plain ns mark) _ (counters_plain _)) as (_ & _ & Hk). apply Hk, ok_nil. }
  destruct (isSplitCommand _).
  { destruct (decodeSplitCommand _) as [spec|]; [|done]. destruct (splitApplies _ _); [|done]. split; [|done].
    cbn [rm_kv rm_ns]. intros k [v Hv]. apply map_lookup_filter_Some in Hv as [Hv _]. eauto. }
  destruct (decodeCmd _) as [[[op k] v] at_]. destruct (bool_decide _).
  { destruct (gc_stages kv at_ [] (plain ns mark) _ (counters_plain _)) as (_ & _ & _ & Hk).
    change (rm_store (MkRM ns desc mark kv)) with (plain ns mark).
    destruct (AdvanceGCInto kv at_ [] (plain ns mark)) as [[res b] s]. split; [|done]. cbn [rm_kv rm_ns].
    apply ops_owned; [apply Hk, ok_nil|done]. }
  destruct (_ && _); [|done].
  destruct (put_stages k at_ v [] (plain ns mark) _ (counters_plain _)) as (_ & _ & Hk).
  change (rm_store (MkRM ns desc mark kv)) with (plain ns mark).
  destruct (PutInto k at_ v [] (plain ns mark)) as [[res b] s]. split; [|done]. cbn [rm_kv rm_ns].
  apply ops_owned; [apply Hk, ok_nil|done].
Qed.

Lemma rm_apply_owned es st : rm_owned st → rm_owned (rm_apply es st) ∧ rm_ns (rm_apply es st) = rm_ns st.
Proof.
  unfold rm_apply. revert st. induction es as [|e es IH]; intros st Hown; [done|]. cbn [foldl].
  destruct (rm_step_owned st e Hown) as [H1 H2]. destruct (IH _ H1) as [H3 H4]. split; [done|congruence].
Qed.

Lemma rm_init_owned desc mark recs : base_ok desc recs → rm_owned (rm_init desc mark recs).
Proof.
  intros Hb. unfold rm_owned, rm_init. cbn [rm_kv rm_ns]. apply ops_owned; [|by intros k [v Hv]; rewrite lookup_empty in Hv].
  by apply (ingest_ok recs mark (plain (rangePrefix (d_ID desc)) zeroTimestamp)).
Qed.

(** The payload of a state gives the state back. *)
Lemma rm_init_records st :
  rm_owned st → rm_ns st = rangePrefix (d_ID (rm_desc st)) →
  rm_init (rm_desc st) (rm_mark st) (rm_records st) = st.
Proof.
  intros Hown Hns. unfold rm_init. rewrite <- Hns. destruct st as [ns desc mark kv]. cbn [rm_ns rm_desc rm_mark] in *. cbv zeta.
  f_equal. apply map_eq. intros k.
  destruct (Records_entries kv (plain ns mark) (map_wf kv)) as (es & He & Hs & Hm).
  assert (Hr : rm_records (MkRM ns desc mark kv) = recordOf <$> es).
  { unfold rm_records. cbn [rm_kv rm_ns]. unfold Records in He. cbn in He. by injection He. }
  rewrite Hr. pose proof (ingest_lookup es mark ∅ (plain ns zeroTimestamp) k Hs) as Hing.
  destruct (IngestRecordsInto _ _ _ _) as [b s]. cbn [fst]. destruct Hing as (_ & _ & _ & ->).
  rewrite Hm. destruct (owns k (plain ns mark)) eqn:Eo.
  - destruct (kv !! k) eqn:Ek; cbn [contents Map_laws]; rewrite Ek; [done|]. rewrite lookup_empty. by destruct (owns _ _).
  - rewrite lookup_empty. destruct (kv !! k) as [v|] eqn:Ek; [|by destruct (owns _ _)].
    exfalso. apply not_true_iff_false in Eo. apply Eo. apply (in_ns_owns k (plain ns mark)). apply Hown. by exists v.
Qed.

(** Snapshot equivalence: replaying the rest of the log from the payload of a
    state reached at a prefix gives what replaying the whole log from birth
    gives -- extent, mark and every record -- whenever the payload fits its
    encoding.  Compaction loses nothing. *)
Theorem snapshot_equivalence base desc mark recs p q d mk rs :
  decodeMachine base = Some (Some (desc, mark, recs)) → base_ok desc recs →
  ReplayMachine base p = Some (Some (d, mk, Some rs)) → d_ID d = d_ID desc → machine_ok d mk rs →
  ReplayMachine (encodeMachine d mk rs) q = ReplayMachine base (p ++ q).
Proof.
  intros Hd Hb Hp Hid Hmo. rewrite (ReplayMachine_eq _ _ _ _ p Hd) in Hp.
  rewrite (ReplayMachine_eq _ _ _ _ (p ++ q) Hd). cbv zeta in Hp.
  destruct (rm_apply_owned p _ (rm_init_owned desc mark recs Hb)) as [Hown Hns].
  set (st := rm_apply p (rm_init desc mark recs)) in *. injection Hp as <- <- <-.
  rewrite (ReplayMachine_eq _ _ _ _ q (decodeMachine_encode _ _ _ Hmo)), rm_init_records; [|done|].
  - assert (Ha : rm_apply (p ++ q) (rm_init desc mark recs) = rm_apply q st)
      by (unfold st, rm_apply; by rewrite foldl_app).
    cbv zeta. by rewrite Ha.
  - by rewrite Hns, Hid.
Qed.

(** ** Witnesses *)

Definition base0 : bytes := encodeMachine FirstRangeDescriptor zeroTimestamp [recX].
Definition putE : Entry := MkEntry EntryNormal 1 1 (MkProposalID 1 1) (encodeCmd opPut k0 val2 ts9).
Definition noopE : Entry := MkEntry EntryNormal 2 2 zeroPID [].
Definition txnXE : Entry := MkEntry EntryNormal 2 3 (MkProposalID 1 2) (encodeTxnCommand txnX).
Definition splitE : Entry := MkEntry EntryNormal 2 4 (MkProposalID 1 3) (encodeSplitCommand splitX).

Lemma base0_decodes : decodeMachine base0 = Some (Some (FirstRangeDescriptor, zeroTimestamp, [recX])).
Proof. by vm_compute. Qed.

Lemma replay_refines_witness :
  let st := rm_apply [putE; noopE; txnXE; splitE] (rm_init FirstRangeDescriptor zeroTimestamp [recX]) in
  ReplayMachine base0 [putE; noopE; txnXE; splitE] = Some (Some (rm_desc st, rm_mark st, Some (rm_records st))).
Proof. apply (replay_refines base0 FirstRangeDescriptor zeroTimestamp [recX] [putE; noopE; txnXE; splitE] base0_decodes). Defined.

(** After a put, a no-op, a prewrite and a split at [k1], three records are left:
    the version at 5, which the prewrite wrote again, the put's, and the lock. *)
Example replay_runs :
  match ReplayMachine base0 [putE; noopE; txnXE; splitE] with
  | Some (Some (d, _, Some rs)) => d_End d = Some k1 ∧ length rs = 3%nat
  | _ => False
  end.
Proof. by vm_compute. Qed.

Lemma replay_resumable_witness :
  ∃ r r1 r2 r3, NewReplay base0 = Some (Some r)
    ∧ Replay_Apply [putE] r = Some r1 ∧ Replay_Apply ([putE] ++ [txnXE]) r1 = Some r2
    ∧ Replay_Apply ([putE] ++ [txnXE]) r = Some r3 ∧ State r2 = State r3.
Proof.
  destruct (NewReplay_ok base0 _ _ _ base0_decodes) as (r & Hr & _).
  destruct (replay_resumable base0 r [putE] [txnXE] Hr) as (r1 & r2 & r3 & H1 & H2 & H3 & H4 & _).
  exact (ex_intro _ r (ex_intro _ r1 (ex_intro _ r2 (ex_intro _ r3 (conj Hr (conj H1 (conj H2 (conj H3 H4)))))))).
Defined.

(** The state after the put: the inherited version and the new one. *)
Definition recP : KvRecord := MkRecord (EncodeKey (rangePrefix 1) k0 ts9) val2.

Lemma snapshot_equivalence_witness :
  ReplayMachine (encodeMachine FirstRangeDescriptor zeroTimestamp [recP; recX]) [txnXE]
  = ReplayMachine base0 ([putE] ++ [txnXE]).
Proof.
  apply (snapshot_equivalence base0 FirstRangeDescriptor zeroTimestamp [recX] [putE] [txnXE]
           FirstRangeDescriptor zeroTimestamp [recP; recX]); [exact base0_decodes| |by vm_compute|reflexivity|].
  - constructor; [exact (in_ns_enc (rangePrefix 1) (KData k0 ts5))|constructor].
  - by codec_ok.
Defined.
