(* ===== verification/StoreTxn.v ===== *)
(** * Transactions in the state machine

    What a sequence of transaction steps does to a range's records: which records
    a step may write, who may release a lock, that a decision is final, and that
    an answered snapshot read keeps its answer. *)

From Stdlib Require Import Lia ZArith.
From stdpp Require Import base tactics numbers option gmap list.
From S2P Require Import Prelude Bytes ConfChange RaftTypes Hlc Engine KvEncoding EngineIface KvStore KvTxn EngineMap StoreCodec StoreReplay.

(** ** One step *)

(** A transaction step applied to the records of a range. *)
Definition txn_ops (ns : bytes) (mark : Timestamp) (desc : RangeDescriptor) (m : gmap bytes bytes) (c : TxnCommand) : Batch :=
  fst (applyTxnTo m c desc [] (plain ns mark)).

Definition txn_step (ns : bytes) (mark : Timestamp) (desc : RangeDescriptor) (m : gmap bytes bytes) (c : TxnCommand) : gmap bytes bytes :=
  foldl spec_op m (txn_ops ns mark desc m c).

(** A commit or a rollback of one key: asked for directly, or as the verdict of a
    resolution on a key whose lock the transaction still holds. *)
Definition commits_key (ns : bytes) (m : gmap bytes bytes) (c : TxnCommand) : Prop :=
  tc_Op c = OpCommitKey
  ∨ (tc_Op c = OpApplyResolution ∧ tc_Status c ≠ TxnRolledBack
     ∧ ∃ l, lock_of ns m (tc_Key c) = Some l ∧ l_StartTS l = tc_StartTS c).
Definition rolls_back_key (ns : bytes) (m : gmap bytes bytes) (c : TxnCommand) : Prop :=
  tc_Op c = OpRollbackKey
  ∨ (tc_Op c = OpApplyResolution ∧ tc_Status c = TxnRolledBack
     ∧ ∃ l, lock_of ns m (tc_Key c) = Some l ∧ l_StartTS l = tc_StartTS c).

(** The record a decision writes: the coordinator's, or the rollback of a resolution. *)
Definition decides (c : TxnCommand) (r : TxnRecord) : Prop :=
  tc_Op c = OpPutTxnRecord ∧ r = MkTxnRecord (tc_Status c) (tc_StartTS c) (tc_CommitTS c)
  ∨ tc_Op c = OpResolveStatus ∧ r = MkTxnRecord TxnRolledBack (tc_StartTS c) zeroTimestamp.

(** Every batch a step can stage. *)
Inductive effect (ns : bytes) (mark : Timestamp) (m : gmap bytes bytes) (c : TxnCommand) : Batch → Prop :=
| ef_none : effect ns mark m c []
| ef_prewrite :
    tc_Op c = OpPrewrite → can_prewrite (plain ns mark) m (tc_Key c) (tc_StartTS c) →
    effect ns mark m c (prewrite_ops ns (tc_Key c) (MkLock (tc_Primary c) (tc_StartTS c) (tc_Deadline c)) (tc_Value c))
| ef_commit :
    commits_key ns m c → ts_le (tc_StartTS c) (tc_CommitTS c) →
    effect ns mark m c
      (OpSet (enc ns (KWrite (tc_Key c) (tc_CommitTS c))) (encodeWrite (tc_StartTS c) false)
       :: release_ops ns m (tc_Key c) (tc_StartTS c))
| ef_rollback :
    rolls_back_key ns m c →
    effect ns mark m c
      (OpSet (enc ns (KWrite (tc_Key c) (tc_StartTS c))) (encodeWrite (tc_StartTS c) true)
       :: release_ops ns m (tc_Key c) (tc_StartTS c) ++ [OpDelete (enc ns (KData (tc_Key c) (tc_StartTS c)))])
| ef_decide r :
    txn_of ns m (tc_Key c) (tc_StartTS c) = None → decides c r →
    effect ns mark m c [OpSet (enc ns (KTxn (tc_Key c) (tc_StartTS c))) (encodeTxn r)]
| ef_mark r :
    tc_Op c = OpTxnGet → newest_at ns readPrefix (tc_Key c) maxTS m r →
    match r with Some (u, _) => ts_lt u (tc_ReadTS c) | None => True end →
    effect ns mark m c
      (match r with Some (u, _) => [OpDelete (enc ns (KRead (tc_Key c) u))] | None => [] end
       ++ [OpSet (enc ns (KRead (tc_Key c) (tc_ReadTS c))) []]).

Section Effects.
Context (ns : bytes) (mark : Timestamp) (desc : RangeDescriptor) (m : gmap bytes bytes) (c : TxnCommand).
Context (Hro : records_ok ns m) (Hk : key_ok (tc_Key c)).

Let s : Store := plain ns mark.

Lemma commit_effect s' :
  s_ns s' = ns → commits_key ns m c →
  effect ns mark m c (snd (fst (CommitInto m (tc_Key c) (tc_StartTS c) (tc_CommitTS c) [] s'))).
Proof.
  intros Hn Hc. unfold CommitInto. destruct (negb _ || negb _) eqn:Es; [apply ef_none|].
  destruct (Less _ _) eqn:El; [apply ef_none|]. bool_hyps.
  assert (Hle : ts_le (tc_StartTS c) (tc_CommitTS c)) by (apply LessEq_spec; unfold LessEq; by rewrite El).
  cbv zeta. destruct (releaseLockOf_eq m (map_wf m) (tc_Key c) (tc_StartTS c)
    (Batch_Set (WriteKey (s_ns s') (tc_Key c) (tc_CommitTS c)) (encodeWrite (tc_StartTS c) false) []) s') as (s2 & -> & _).
  rewrite Hn. by apply ef_commit.
Qed.

Lemma rollback_effect s' :
  s_ns s' = ns → rolls_back_key ns m c →
  effect ns mark m c (snd (fst (RollbackInto m (tc_Key c) (tc_StartTS c) [] s'))).
Proof.
  intros Hn Hc. unfold RollbackInto. destruct (negb _) eqn:Es; [apply ef_none|]. cbv zeta.
  destruct (releaseLockOf_eq m (map_wf m) (tc_Key c) (tc_StartTS c)
    (Batch_Set (WriteKey (s_ns s') (tc_Key c) (tc_StartTS c)) (encodeWrite (tc_StartTS c) true) []) s') as (s2 & -> & Hc2 & _).
  cbn [fst snd]. rewrite Hc2, Hn. unfold Batch_Delete, Batch_Set. cbn [app]. by apply ef_rollback.
Qed.

Lemma decide_effect r s' :
  s_ns s' = ns → decides c r →
  effect ns mark m c (snd (PutTxnInto m (tc_Key c) r [] s')).
Proof.
  intros Hn Hd. assert (Hr : r_StartTS r = tc_StartTS c) by (by destruct Hd as [[_ ->]|[_ ->]]).
  unfold PutTxnInto. destruct (negb _); [apply ef_none|]. destruct (_ && _); [apply ef_none|].
  rewrite (Store_Txn_eq m) by apply map_wf. cbn [contents Map_laws]. rewrite Hn, Hr.
  destruct (txn_of ns m (tc_Key c) (tc_StartTS c)) eqn:Et; [apply ef_none|]. by apply ef_decide.
Qed.

Lemma applyTxnTo_effect : effect ns mark m c (txn_ops ns mark desc m c).
Proof using Hro Hk.
  unfold txn_ops, applyTxnTo. destruct (tc_Op c) eqn:Eo; [..|apply ef_none].
  - destruct (PrewriteInto_eq m (map_wf m) (tc_Key c) (MkLock (tc_Primary c) (tc_StartTS c) (tc_Deadline c))
      (tc_Value c) [] s) as (s' & _ & [[Hcan He]|[_ [e He]]]); [done|done| |]; fold s; rewrite He; cbn [fst].
    + by apply ef_prewrite.
    + apply ef_none.
  - pose proof (commit_effect s eq_refl) as He. fold s. destruct (CommitInto _ _ _ _ _ _) as [[? ?] ?].
    apply He. by left.
  - pose proof (rollback_effect s eq_refl) as He. fold s. destruct (RollbackInto _ _ _ _ _) as [[? ?] ?].
    apply He. by left.
  - fold s. pose proof (decide_effect (MkTxnRecord (tc_Status c) (tc_StartTS c) (tc_CommitTS c)) s eq_refl (or_introl (conj Eo eq_refl))) as He.
    by destruct (PutTxnInto _ _ _ _ _).
  - unfold NoteReadInto. destruct (negb _) eqn:Es; [apply ef_none|]. bool_hyps.
    destruct (ReadMark_eq m (tc_Key c) s (map_wf m) (ro_reads _ _ Hro) Hk) as (r & Hr & Hm). fold s. rewrite Hm.
    destruct r as [[u v]|]; cbn [fmap option_fmap option_map fst].
    + destruct (LessEq (tc_ReadTS c) u) eqn:El; [apply ef_none|]. apply LessEq_false in El.
      exact (ef_mark ns mark m c (Some (u, v)) Eo Hr El).
    + exact (ef_mark ns mark m c None Eo Hr I).
  - cbv zeta. fold s. destruct (ResolveLock _ _ _ _ _) as [[[] ?]|]; try apply ef_none.
    destruct (Store_Txn _ _ _ _) as [[]|]; try apply ef_none.
    pose proof (decide_effect (MkTxnRecord TxnRolledBack (tc_StartTS c) zeroTimestamp) s eq_refl (or_intror (conj Eo eq_refl))) as He.
    by destruct (PutTxnInto _ _ _ _ _).
  - fold s. rewrite (Store_Lock_eq m) by apply map_wf. cbn [contents Map_laws]. change (s_ns s) with ns.
    destruct (lock_of ns m (tc_Key c)) as [l|] eqn:El; [|apply ef_none].
    case_bool_decide as Hst; cbn [negb]; [|apply ef_none]. cbv zeta. unfold ApplyResolutionInto. rewrite Hst.
    case_bool_decide as Hrb.
    + pose proof (rollback_effect (s <| s_rollBacks := s_rollBacks s + 1 |>) eq_refl) as He.
      destruct (RollbackInto _ _ _ _ _) as [[? ?] ?]. apply He. right. eauto.
    + pose proof (commit_effect (s <| s_rollForwards := s_rollForwards s + 1 |>) eq_refl) as He.
      destruct (CommitInto _ _ _ _ _ _) as [[? ?] ?]. apply He. right. eauto.
Qed.
End Effects.

(** ** What a step leaves *)

(** A command the types and clocks of the program can produce. *)
Record cmd_ok (c : TxnCommand) : Prop := MkCmdOk {
  ck_key : key_ok (tc_Key c);
  ck_primary : key_ok (tc_Primary c);
  ck_start : wall_ok (tc_StartTS c);
  ck_commit : wall_ok (tc_CommitTS c);
  ck_deadline : wall_ok (tc_Deadline c);
  ck_read : wall_ok (tc_ReadTS c);
}.

(** The transaction at [start] holds the lock of [key]. *)
Definition holds (ns : bytes) (m : gmap bytes bytes) (key : bytes) (start : Timestamp) : bool :=
  match lock_of ns m key with Some l => bool_decide (l_StartTS l = start) | None => false end.

Lemma decide_swap {A B} `{EqDecision A} (a b : A) (x y : B) :
  (if decide (a = b) then x else y) = if decide (b = a) then x else y.
Proof. repeat destruct (decide _); congruence. Qed.

Lemma release_lookup ns m0 m key start rk :
  key_ok key → rkey_ok rk →
  foldl spec_op m (release_ops ns m0 key start) !! enc ns rk
  = if bool_decide (rk = KLock key) && holds ns m0 key start then None else m !! enc ns rk.
Proof.
  intros Hk Hrk. unfold release_ops, holds. destruct (lock_of ns m0 key) as [l|]; [|by rewrite andb_false_r].
  destruct (decide (l_StartTS l = start)) as [Hs|Hs].
  - rewrite (bool_decide_eq_true_2 (l_StartTS l = start)), andb_true_r by done. cbn [foldl spec_op].
    rewrite lookup_delete_rkey by (done || by split). destruct (decide (KLock key = rk)) as [<-|Hne].
    + by rewrite bool_decide_eq_true_2.
    + by rewrite bool_decide_eq_false_2 by congruence.
  - rewrite (bool_decide_eq_false_2 (l_StartTS l = start)) by done. by rewrite andb_false_r.
Qed.

(** The value of a record after a step, record by record. *)
Definition after (ns : bytes) (m : gmap bytes bytes) (ops : Batch) (rk : rkey) : option bytes :=
  foldl spec_op m ops !! enc ns rk.

Section After.
Context (ns : bytes) (mark : Timestamp) (m : gmap bytes bytes) (c : TxnCommand) (Hc : cmd_ok c).

Lemma rk_ok_stamp (f : bytes → Timestamp → rkey) t :
  f = KData ∨ f = KWrite ∨ f = KTxn ∨ f = KRead → wall_ok t → rkey_ok (f (tc_Key c) t).
Proof using Hc. destruct Hc. intros [->|[->|[->| ->]]] [Ht _]; by split. Qed.

Lemma rk_ok_lock : rkey_ok (KLock (tc_Key c)).
Proof using Hc. destruct Hc. by split. Qed.

Lemma after_prewrite rk :
  rkey_ok rk →
  after ns m (prewrite_ops ns (tc_Key c) (MkLock (tc_Primary c) (tc_StartTS c) (tc_Deadline c)) (tc_Value c)) rk
  = if decide (rk = KData (tc_Key c) (tc_StartTS c)) then Some (tc_Value c)
    else if decide (rk = KLock (tc_Key c)) then Some (encodeLock (MkLock (tc_Primary c) (tc_StartTS c) (tc_Deadline c)))
    else m !! enc ns rk.
Proof using Hc.
  intros Hrk. unfold after, prewrite_ops. cbn [foldl spec_op l_StartTS].
  rewrite lookup_insert_rkey; [|apply rk_ok_stamp; [auto|apply Hc]|done].
  rewrite lookup_insert_rkey by (done || apply rk_ok_lock).
  repeat destruct (decide _); congruence.
Qed.

Lemma after_commit rk :
  rkey_ok rk →
  after ns m (OpSet (enc ns (KWrite (tc_Key c) (tc_CommitTS c))) (encodeWrite (tc_StartTS c) false)
              :: release_ops ns m (tc_Key c) (tc_StartTS c)) rk
  = if decide (rk = KWrite (tc_Key c) (tc_CommitTS c)) then Some (encodeWrite (tc_StartTS c) false)
    else if bool_decide (rk = KLock (tc_Key c)) && holds ns m (tc_Key c) (tc_StartTS c) then None
    else m !! enc ns rk.
Proof using Hc.
  intros Hrk. unfold after. cbn [foldl spec_op]. rewrite release_lookup by (done || apply Hc).
  rewrite lookup_insert_rkey; [|apply rk_ok_stamp; [auto|apply Hc]|done].
  rewrite decide_swap. destruct (decide (rk = KWrite _ _)) as [->|]; [by rewrite bool_decide_eq_false_2|done].
Qed.

Lemma after_rollback rk :
  rkey_ok rk →
  after ns m (OpSet (enc ns (KWrite (tc_Key c) (tc_StartTS c))) (encodeWrite (tc_StartTS c) true)
              :: release_ops ns m (tc_Key c) (tc_StartTS c) ++ [OpDelete (enc ns (KData (tc_Key c) (tc_StartTS c)))]) rk
  = if decide (rk = KData (tc_Key c) (tc_StartTS c)) then None
    else if decide (rk = KWrite (tc_Key c) (tc_StartTS c)) then Some (encodeWrite (tc_StartTS c) true)
    else if bool_decide (rk = KLock (tc_Key c)) && holds ns m (tc_Key c) (tc_StartTS c) then None
    else m !! enc ns rk.
Proof using Hc.
  intros Hrk. unfold after. cbn [foldl]. rewrite foldl_app. cbn [foldl spec_op].
  rewrite lookup_delete_rkey; [|apply rk_ok_stamp; [auto|apply Hc]|done].
  rewrite release_lookup by (done || apply Hc).
  rewrite lookup_insert_rkey; [|apply rk_ok_stamp; [auto|apply Hc]|done].
  rewrite decide_swap. destruct (decide (rk = KData _ _)); [done|].
  rewrite decide_swap. destruct (decide (rk = KWrite _ _)) as [->|]; [by rewrite bool_decide_eq_false_2|done].
Qed.

Lemma after_decide r rk :
  rkey_ok rk →
  after ns m [OpSet (enc ns (KTxn (tc_Key c) (tc_StartTS c))) (encodeTxn r)] rk
  = if decide (rk = KTxn (tc_Key c) (tc_StartTS c)) then Some (encodeTxn r) else m !! enc ns rk.
Proof using Hc.
  intros Hrk. unfold after. cbn [foldl spec_op].
  rewrite lookup_insert_rkey; [|apply rk_ok_stamp; [auto|apply Hc]|done]. repeat destruct (decide _); congruence.
Qed.

Lemma after_mark r rk :
  newest_at ns readPrefix (tc_Key c) maxTS m r → rkey_ok rk →
  after ns m (match r with Some (u, _) => [OpDelete (enc ns (KRead (tc_Key c) u))] | None => [] end
              ++ [OpSet (enc ns (KRead (tc_Key c) (tc_ReadTS c))) []]) rk
  = if decide (rk = KRead (tc_Key c) (tc_ReadTS c)) then Some []
    else if decide (Some rk = (λ x, KRead (tc_Key c) (fst x)) <$> r) then None
    else m !! enc ns rk.
Proof using Hc.
  intros Hr Hrk. unfold after. rewrite foldl_app. cbn [foldl spec_op].
  rewrite lookup_insert_rkey; [|apply rk_ok_stamp; [auto|apply Hc]|done].
  rewrite decide_swap. destruct (decide (rk = KRead _ _)); [done|].
  destruct r as [[u v]|]; cbn [foldl spec_op fmap option_fmap option_map fst]; [|by rewrite decide_False].
  destruct Hr as (Hu & _). rewrite lookup_delete_rkey; [|apply rk_ok_stamp; [auto|exact Hu]|done].
  repeat destruct (decide _); congruence.
Qed.
End After.

(** ** Locks, decisions and commits *)

Section Step.
Context (ns : bytes) (mark : Timestamp) (m : gmap bytes bytes) (c : TxnCommand) (ops : Batch).
Context (Hc : cmd_ok c) (He : effect ns mark m c ops).

Let m' : gmap bytes bytes := foldl spec_op m ops.

(** Case analysis on the step, with the record looked up rewritten. *)
Ltac step_cases :=
  destruct He as [|Hop Hcan|Hcom Hle|Hrb|r Hnone Hst|r Hop Hnew Hlt];
  [ change (foldl spec_op m []) with m
  | rewrite ?(after_prewrite ns m c Hc) by done
  | rewrite ?(after_commit ns m c Hc) by done
  | rewrite ?(after_rollback ns m c Hc) by done
  | rewrite ?(after_decide ns m c Hc) by done
  | rewrite ?(after_mark ns m c Hc r) by done ].

Lemma lock_step k :
  key_ok k →
  lock_of ns m' k = lock_of ns m k
  ∨ (k = tc_Key c ∧ tc_Op c = OpPrewrite ∧ can_prewrite (plain ns mark) m k (tc_StartTS c)
     ∧ lock_of ns m' k = Some (MkLock (tc_Primary c) (tc_StartTS c) (tc_Deadline c)))
  ∨ (k = tc_Key c ∧ (commits_key ns m c ∨ rolls_back_key ns m c) ∧ holds ns m k (tc_StartTS c) = true
     ∧ lock_of ns m' k = None).
Proof using Hc He.
  intros Hk. assert (Hrk : rkey_ok (KLock k)) by by split.
  change (lock_of ns m' k) with (after ns m ops (KLock k) ≫= decodeLock).
  change (lock_of ns m k) with (m !! enc ns (KLock k) ≫= decodeLock).
  step_cases; [by left|..].
  - rewrite decide_False by done. destruct (decide (KLock k = KLock (tc_Key c))) as [[= ->]|]; [|by left].
    right. left. split_and!; try done. cbn [mbind option_bind]. apply decodeLock_encodeLock.
    destruct Hc as [? ? [? _] _ [? _] _]. by split_and!.
  - rewrite decide_False by done. case_bool_decide as Hkk; [injection Hkk as ->|by left]. cbn [andb].
    destruct (holds _ _ _ _) eqn:Eh; [right; right|by left]. split_and!; auto.
  - rewrite !decide_False by done. case_bool_decide as Hkk; [injection Hkk as ->|by left]. cbn [andb].
    destruct (holds _ _ _ _) eqn:Eh; [right; right|by left]. split_and!; auto.
  - rewrite decide_False by done. by left.
  - rewrite !decide_False; [by left|by destruct r|done].
Qed.

Lemma txn_step_of p t :
  key_ok p → wall_ok t →
  (txn_of ns m p t = None ∧ p = tc_Key c ∧ t = tc_StartTS c) ∨ txn_of ns m' p t = txn_of ns m p t.
Proof using Hc He.
  intros Hp [Ht _]. assert (Hrk : rkey_ok (KTxn p t)) by by split.
  change (txn_of ns m' p t) with (after ns m ops (KTxn p t) ≫= decodeTxn).
  change (txn_of ns m p t) with (m !! enc ns (KTxn p t) ≫= decodeTxn).
  step_cases; rewrite ?decide_False by done; try by right.
  - destruct (decide (KTxn p t = KTxn (tc_Key c) (tc_StartTS c))) as [[= -> ->]|Hne]; [left|by right]. done.
  - rewrite decide_False by by destruct r. by right.
Qed.

(** A new record is the decision of this command. *)
Lemma txn_new p t :
  key_ok p → wall_ok t → txn_of ns m p t = None → is_Some (txn_of ns m' p t) →
  p = tc_Key c ∧ t = tc_StartTS c ∧ ∃ r, decides c r ∧ txn_of ns m' p t = decodeTxn (encodeTxn r).
Proof using Hc He.
  intros Hp [Ht _] Hn. assert (Hrk : rkey_ok (KTxn p t)) by by split.
  change (txn_of ns m' p t) with (after ns m ops (KTxn p t) ≫= decodeTxn).
  change (txn_of ns m p t) with (m !! enc ns (KTxn p t) ≫= decodeTxn) in Hn. revert Hn.
  step_cases; rewrite ?(decide_False (P := KTxn p t = KData _ _)), ?(decide_False (P := KTxn p t = KLock _)),
    ?(decide_False (P := KTxn p t = KRead _ _)), ?(decide_False (P := KTxn p t = KWrite _ _)), ?bool_decide_eq_false_2 by done;
    cbn [andb]; try (intros Hn [? ?]; congruence).
  - unfold after. cbn [foldl]. intros Hn [? ?]. congruence.
  - destruct (decide (KTxn p t = KTxn (tc_Key c) (tc_StartTS c))) as [[= -> ->]|Hne]; [eauto|intros Hn [? ?]; congruence].
  - rewrite decide_False by by destruct r. intros Hn [? ?]. congruence.
Qed.

(** Commit records: what a step may add, overwrite or turn into a tombstone. *)
Lemma write_step k t :
  key_ok k → wall_ok t →
  m' !! enc ns (KWrite k t) = m !! enc ns (KWrite k t)
  ∨ (k = tc_Key c ∧ t = tc_CommitTS c ∧ commits_key ns m c ∧ ts_le (tc_StartTS c) t
     ∧ write_of ns m' k t = Some (tc_StartTS c, false))
  ∨ (k = tc_Key c ∧ t = tc_StartTS c ∧ rolls_back_key ns m c ∧ write_of ns m' k t = Some (tc_StartTS c, true)).
Proof using Hc He.
  intros Hk [Ht _]. assert (Hrk : rkey_ok (KWrite k t)) by by split.
  change (write_of ns m' k t) with (after ns m ops (KWrite k t) ≫= decodeWrite).
  change (m' !! enc ns (KWrite k t)) with (after ns m ops (KWrite k t)).
  destruct Hc as [_ _ [Hs _] _ _ _].
  step_cases; rewrite ?(decide_False (P := KWrite k t = KData _ _)), ?(decide_False (P := KWrite k t = KLock _)),
    ?(decide_False (P := KWrite k t = KRead _ _)), ?(decide_False (P := KWrite k t = KTxn _ _)) by done; try by left.
  - destruct (decide (KWrite k t = KWrite (tc_Key c) (tc_CommitTS c))) as [[= -> ->]|Hne]; [right; left|by left].
    cbn [mbind option_bind]. by rewrite decodeWrite_encodeWrite.
  - destruct (decide (KWrite k t = KWrite (tc_Key c) (tc_StartTS c))) as [[= -> ->]|Hne]; [right; right|by left].
    cbn [mbind option_bind]. by rewrite decodeWrite_encodeWrite.
  - rewrite decide_False by by destruct r. by left.
Qed.

(** Values. *)
Lemma data_step k t :
  key_ok k → wall_ok t →
  m' !! enc ns (KData k t) = m !! enc ns (KData k t)
  ∨ (k = tc_Key c ∧ t = tc_StartTS c
     ∧ ((tc_Op c = OpPrewrite ∧ can_prewrite (plain ns mark) m k t) ∨ rolls_back_key ns m c)).
Proof using Hc He.
  intros Hk [Ht _]. assert (Hrk : rkey_ok (KData k t)) by by split.
  change (m' !! enc ns (KData k t)) with (after ns m ops (KData k t)).
  step_cases; rewrite ?(decide_False (P := KData k t = KLock _)), ?(decide_False (P := KData k t = KWrite _ _)),
    ?(decide_False (P := KData k t = KRead _ _)), ?(decide_False (P := KData k t = KTxn _ _)) by done; try by left.
  - destruct (decide (KData k t = KData (tc_Key c) (tc_StartTS c))) as [[= -> ->]|Hne]; [right|by left]. auto.
  - destruct (decide (KData k t = KData (tc_Key c) (tc_StartTS c))) as [[= -> ->]|Hne]; [right|by left]. auto.
  - rewrite decide_False by by destruct r. by left.
Qed.

(** The highest read mark of a key never goes down. *)
Lemma mark_step k u :
  key_ok k → wall_ok u → is_Some (m !! enc ns (KRead k u)) →
  ∃ u', wall_ok u' ∧ ts_le u u' ∧ is_Some (m' !! enc ns (KRead k u')).
Proof using Hc He.
  intros Hk Hu Hm. assert (Hrk : rkey_ok (KRead k u)) by (destruct Hu; by split).
  assert (Hsame : m' !! enc ns (KRead k u) = m !! enc ns (KRead k u) →
            ∃ u', wall_ok u' ∧ ts_le u u' ∧ is_Some (m' !! enc ns (KRead k u')))
    by (intros Hs; exists u; rewrite Hs; split_and!; [done|by right|done]).
  revert Hsame. change (m' !! enc ns (KRead k u)) with (after ns m ops (KRead k u)).
  step_cases; rewrite ?(decide_False (P := KRead k u = KLock _)), ?(decide_False (P := KRead k u = KWrite _ _)),
    ?(decide_False (P := KRead k u = KData _ _)), ?(decide_False (P := KRead k u = KTxn _ _)) by done;
    try (intros Hsame; by apply Hsame).
  intros _. exists (if decide (k = tc_Key c) then tc_ReadTS c else u). subst m'.
  destruct (decide (k = tc_Key c)) as [->|Hne].
  - change (is_Some (m !! stamped ns readPrefix (tc_Key c) u)) in Hm. split; [apply Hc|]. split.
    + destruct r as [[w v]|]; cbn [newest_at] in Hnew;
        [|by rewrite (Hnew u Hu (ts_le_max u (proj1 Hu))) in Hm; destruct Hm].
      destruct Hnew as (_ & _ & _ & Hmax). left. specialize (Hmax u Hu (ts_le_max u (proj1 Hu)) Hm).
      destruct Hmax as [Hmax| ->]; [by etrans|done].
    + match goal with |- is_Some (foldl spec_op m ?o !! _) =>
        change (is_Some (after ns m o (KRead (tc_Key c) (tc_ReadTS c)))) end.
      rewrite (after_mark ns m c Hc r); [by rewrite decide_True by done|done|].
      apply (rk_ok_stamp c Hc); [auto|apply Hc].
  - split; [done|]. split; [by right|].
    match goal with |- is_Some (foldl spec_op m ?o !! _) => change (is_Some (after ns m o (KRead k u))) end.
    rewrite (after_mark ns m c Hc r), !decide_False; [done| |congruence|done|done].
    destruct r; [cbn; congruence|done].
Qed.

Lemma effect_ops_wf : Forall (λ o, match o with
                                   | OpSet k _ => ∃ rk, k = enc ns rk ∧ rkey_ok rk
                                       ∧ match rk with KLock _ => True | KData _ t | KWrite _ t | KTxn _ t | KRead _ t => wall_ok t end
                                   | OpDelete _ => True
                                   | _ => False
                                   end) ops.
Proof using Hc He.
  assert (Hs : ∀ f t, f = KData ∨ f = KWrite ∨ f = KTxn ∨ f = KRead → wall_ok t →
            ∃ rk, enc ns (f (tc_Key c) t) = enc ns rk ∧ rkey_ok rk
              ∧ match rk with KLock _ => True | KData _ t | KWrite _ t | KTxn _ t | KRead _ t => wall_ok t end).
  { intros f t Hf Ht. exists (f (tc_Key c) t). split; [done|]. split; [by apply (rk_ok_stamp c Hc)|].
    by destruct Hf as [->|[->|[->| ->]]]. }
  assert (Hrel : ∀ P, P (OpDelete (enc ns (KLock (tc_Key c)))) → Forall P (release_ops ns m (tc_Key c) (tc_StartTS c))).
  { intros P HP. unfold release_ops. destruct (lock_of _ _ _); [|constructor].
    destruct (decide _); [by repeat constructor|constructor]. }
  destruct He as [|Hop Hcan|Hcom Hle|Hrb|r Hnone Hst|r Hop Hnew Hlt]; unfold prewrite_ops.
  - constructor.
  - constructor; [exists (KLock (tc_Key c)); split; [done|]; split; [apply (rk_ok_lock c Hc)|done]|].
    constructor; [apply (Hs KData); [auto|apply Hc]|constructor].
  - constructor; [apply (Hs KWrite); [auto|apply Hc]|by apply Hrel].
  - constructor; [apply (Hs KWrite); [auto|apply Hc]|]. apply Forall_app. split; [by apply Hrel|by repeat constructor].
  - constructor; [apply (Hs KTxn); [auto|apply Hc]|constructor].
  - apply Forall_app. split; [destruct r as [[]|]; by repeat constructor|].
    constructor; [apply (Hs KRead); [auto|apply Hc]|constructor].
Qed.

Lemma chain_step kind : kind ≠ lockPrefix → chain_ok ns kind m → chain_ok ns kind m'.
Proof using Hc He.
  intros Hkind. pose proof effect_ops_wf as Hw. unfold m'. clear He m'. revert m.
  induction Hw as [|o os Ho _ IH]; intros m0 Hch; [done|]. cbn [foldl]. apply IH.
  intros b v Hb Hp. destruct o as [k w|k|lo hi|]; cbn [spec_op] in Hb; [| |done|done].
  - destruct (decide (k = b)) as [->|Hne]; [|rewrite lookup_insert_ne in Hb by done; by eapply Hch].
    destruct Ho as (rk & -> & [Hkey _] & Hwall). destruct (enc_kind ns rk) as [rest Hrest].
    assert (kind = rkey_kind rk) as ->.
    { rewrite Hrest in Hp. destruct Hp as [z Hz]. rewrite <- app_assoc in Hz. apply app_inv_head in Hz. by injection Hz. }
    destruct rk as [k t|k|k t|k t|k t]; cbn [rkey_key rkey_kind] in *; [| done | | |];
      exists k, t; (split; [done|]); (split; [done|]); done.
  - apply lookup_delete_Some in Hb as [_ Hb]. by eapply Hch.
Qed.

Lemma records_step : records_ok ns m → records_ok ns m'.
Proof using Hc He.
  intros [Hw Hr Hv]. split; [by apply chain_step|by apply chain_step|]. intros k t Hk Ht Hs.
  destruct (write_step k t Hk Ht) as [Hsame|[(_ & _ & _ & _ & Hd)|(_ & _ & _ & Hd)]]; [|by rewrite Hd..].
  unfold write_of. rewrite Hsame in *. by apply Hv.
Qed.
End Step.

(** ** Runs *)

Section Runs.
Context (ns : bytes) (mark : Timestamp) (desc : RangeDescriptor).

Definition txn_run (m : gmap bytes bytes) (cs : list TxnCommand) : gmap bytes bytes :=
  foldl (txn_step ns mark desc) m cs.

(** What the coordinators and resolvers of the system keep to, and the apply path
    does not check: a key is committed above its start and by the transaction
    that holds its lock, or again with the record it already has; a transaction
    that committed a key is not rolled back, and no transaction starts at a
    timestamp another one committed the key at. *)
Definition disciplined (m : gmap bytes bytes) (c : TxnCommand) : Prop :=
  (commits_key ns m c →
     ts_lt (tc_StartTS c) (tc_CommitTS c)
     ∧ (holds ns m (tc_Key c) (tc_StartTS c) = true
        ∨ write_of ns m (tc_Key c) (tc_CommitTS c) = Some (tc_StartTS c, false)))
  ∧ (rolls_back_key ns m c →
     ∀ t st, real ns m (tc_Key c) t st → t ≠ tc_StartTS c ∧ st ≠ tc_StartTS c).

Fixpoint disciplined_run (m : gmap bytes bytes) (cs : list TxnCommand) : Prop :=
  match cs with
  | [] => True
  | c :: cs => cmd_ok c ∧ disciplined m c ∧ disciplined_run (txn_step ns mark desc m c) cs
  end.

(** A read of [key] at [T] was answered with [r]. *)
Record answered (m : gmap bytes bytes) (key : bytes) (T : Timestamp) (r : option bytes) : Prop := MkAnswered {
  an_view : snapshot_view ns m key T r;
  an_mark : ∃ u, wall_ok u ∧ ts_le T u ∧ is_Some (m !! enc ns (KRead key u));
  an_lock : ∀ l, lock_of ns m key = Some l → ts_le T (l_StartTS l);
  an_order : ∀ t st, real ns m key t st → ts_lt st t ∧ wall_ok st;
}.

Lemma ts_le_trans a b d : ts_le a b → ts_le b d → ts_le a d.
Proof. intros [H1| ->] [H2| ->]; [left; by etrans|by left|by left|by right]. Qed.
Lemma ts_lt_le_trans a b d : ts_lt a b → ts_le b d → ts_lt a d.
Proof. intros H1 [H2| ->]; [by etrans|done]. Qed.
Lemma ts_le_lt a b d : ts_le a b → ts_lt b d → ts_lt a d.
Proof. intros [H1| ->] H2; [by etrans|done]. Qed.
Lemma ts_lt_not_le a b : ts_lt a b → ¬ ts_le b a.
Proof. intros H1 H2. apply (irreflexivity ts_lt a). by eapply ts_lt_le_trans. Qed.

Section Stable.
Context (m : gmap bytes bytes) (c : TxnCommand) (Hro : records_ok ns m) (Hc : cmd_ok c) (Hd : disciplined m c).
Context (key : bytes) (T : Timestamp) (r : option bytes) (Hkey : key_ok key) (Hans : answered m key T r).

Let m' : gmap bytes bytes := txn_step ns mark desc m c.
Let He : effect ns mark m c (txn_ops ns mark desc m c) := applyTxnTo_effect ns mark desc m c Hro (ck_key _ Hc).

Ltac after_step H := change (foldl spec_op m (txn_ops ns mark desc m c)) with m' in H.

(** Commits after the step: the old ones, and new ones above [T]. *)
Lemma real_new t st :
  real ns m' key t st → real ns m key t st ∨ (ts_lt T t ∧ ts_lt st t ∧ wall_ok st).
Proof using Hro Hc Hd Hkey Hans.
  intros [Ht Hw]. destruct (write_step ns mark m c _ Hc He key t Hkey Ht) as [Hs|[(-> & -> & Hcom & _ & Hn)|(_ & _ & _ & Hn)]].
  - left. split; [done|]. unfold write_of in *. by rewrite <- Hs.
  - after_step Hn. rewrite Hn in Hw. injection Hw as <-. destruct (proj1 Hd Hcom) as [Hlt [Hh|Hsame]].
    + right. split; [|split; [done|apply Hc]]. unfold holds in Hh. destruct (lock_of _ _ _) as [l|] eqn:El; [|done].
      bool_hyps. subst. eapply ts_le_lt; [|exact Hlt]. rewrite <- Hh. by apply (an_lock _ _ _ _ Hans).
    + left. by split.
  - after_step Hn. rewrite Hn in Hw. done.
Qed.

(** Commits at or below [T] survive the step. *)
Lemma real_kept t st : real ns m key t st → ts_le t T → real ns m' key t st.
Proof using Hro Hc Hd Hkey Hans.
  intros Hr Hle. pose proof Hr as [Ht Hw]. split; [done|].
  destruct (write_step ns mark m c _ Hc He key t Hkey Ht) as [Hs|[(-> & -> & Hcom & _ & Hn)|(-> & -> & Hrb & _)]].
  - unfold write_of in *. after_step Hs. by rewrite Hs.
  - destruct (proj1 Hd Hcom) as [Hlt [Hh|Hsame]]; [|by rewrite Hsame in Hw; rewrite <- Hw].
    exfalso. unfold holds in Hh. destruct (lock_of _ _ _) as [l|] eqn:El; [|done]. bool_hyps.
    apply (an_lock _ _ _ _ Hans) in El. rewrite Hh in El. apply (ts_lt_not_le _ _ (ts_le_lt _ _ _ El Hlt) Hle).
  - exfalso. by destruct (proj2 Hd Hrb _ _ Hr).
Qed.

Lemma data_kept t st : real ns m key t st → m' !! enc ns (KData key st) = m !! enc ns (KData key st).
Proof using Hro Hc Hd Hkey Hans.
  intros Hr. destruct (an_order _ _ _ _ Hans _ _ Hr) as [Hlt Hst].
  destruct (data_step ns mark m c _ Hc He key st Hkey Hst) as [Hs|(-> & -> & [(_ & Hcan)|Hrb])]; [done| |].
  - exfalso. destruct Hcan as (_ & _ & _ & Hno & _). destruct Hr as [Ht Hw].
    apply (ts_lt_not_le _ _ Hlt), Hno; [done|]. unfold write_of in Hw. cbn [s_ns plain]. by destruct (m !! _).
  - exfalso. by destruct (proj2 Hd Hrb _ _ Hr).
Qed.

Lemma answered_step : answered m' key T r.
Proof using Hro Hc Hd Hkey Hans.
  split.
  - pose proof data_kept as Hdata. pose proof real_kept as Hkept. pose proof real_new as Hnew.
    destruct (an_view _ _ _ _ Hans) as [t st v (R & L & N) Hv|N].
    + apply (view_some _ _ _ _ t st); [|by rewrite (Hdata t)]. split; [by apply Hkept|]. split; [done|].
      intros t' st' [R'|[Hgt _]]%Hnew L'; [by eapply N|]. by destruct (ts_lt_not_le _ _ Hgt).
    + apply view_none. intros t st [R|[Hgt _]]%Hnew; [by eapply N|]. by apply ts_lt_not_le.
  - destruct (an_mark _ _ _ _ Hans) as (u & Hu & Hle & Hm).
    destruct (mark_step ns mark m c _ Hc He key u Hkey Hu Hm) as (u' & Hu' & Hle' & Hm').
    exists u'. split_and!; [done|by eapply ts_le_trans|done].
  - intros l Hl. destruct (lock_step ns mark m c _ Hc He key Hkey) as [Hs|[(-> & _ & Hcan & Hn)|(_ & _ & _ & Hn)]].
    + apply (an_lock _ _ _ _ Hans). by rewrite <- Hs.
    + after_step Hn. rewrite Hn in Hl. injection Hl as <-. cbn [l_StartTS].
      destruct (an_mark _ _ _ _ Hans) as (u & Hu & Hle & Hm). eapply ts_le_trans; [exact Hle|].
      destruct Hcan as (_ & _ & _ & _ & Hno). by apply Hno.
    + after_step Hn. by rewrite Hn in Hl.
  - intros t st [R|(_ & ? & ?)]%real_new; [by eapply an_order|done].
Qed.
End Stable.

Lemma step_records m c : cmd_ok c → records_ok ns m → records_ok ns (txn_step ns mark desc m c).
Proof. intros Hc Hro. apply (records_step ns mark m c); [done|by apply applyTxnTo_effect; [|apply Hc]|done]. Qed.

Lemma run_records cs m : Forall cmd_ok cs → records_ok ns m → records_ok ns (txn_run m cs).
Proof.
  intros Hcs. unfold txn_run. revert m. induction Hcs as [|c cs Hc _ IH]; intros m Hro; [done|]. cbn [foldl].
  by apply IH, step_records.
Qed.

Lemma disciplined_cmds cs m : disciplined_run m cs → Forall cmd_ok cs.
Proof. revert m. induction cs as [|c cs IH]; intros m; [constructor|]. intros (Hc & _ & Hr). constructor; eauto. Qed.

Lemma answered_run key T r cs m :
  key_ok key → records_ok ns m → answered m key T r → disciplined_run m cs → answered (txn_run m cs) key T r.
Proof.
  intros Hkey. unfold txn_run. revert m. induction cs as [|c cs IH]; intros m Hro Hans; [done|].
  intros (Hc & Hd & Hrun). cbn [foldl]. apply IH; [| |done].
  - by apply step_records.
  - by apply answered_step.
Qed.

(** A read command leaves a mark at or above its timestamp, and nothing else. *)
Lemma read_leaves_mark m c :
  records_ok ns m → cmd_ok c → tc_Op c = OpTxnGet → Timestamp_IsSet (tc_ReadTS c) = true →
  let m' := txn_step ns mark desc m c in
  ∃ u, wall_ok u ∧ ts_le (tc_ReadTS c) u ∧ is_Some (m' !! enc ns (KRead (tc_Key c) u)).
Proof.
  intros Hro Hc Hop Hset. unfold txn_step, txn_ops, applyTxnTo. rewrite Hop.
  destruct (NoteReadInto_eq m (map_wf m) (tc_Key c) (tc_ReadTS c) [] (plain ns mark) Hset (ro_reads _ _ Hro) (ck_key _ Hc))
    as (r & s' & Hr & _ & ->). cbn [fst app s_ns plain contents Map_laws] in *.
  assert (Hself : ∀ m0 : gmap bytes bytes, is_Some (<[enc ns (KRead (tc_Key c) (tc_ReadTS c)) := []]> m0 !! enc ns (KRead (tc_Key c) (tc_ReadTS c))))
    by (intros m0; rewrite lookup_insert_eq; by eexists).
  destruct r as [[u v]|].
  - destruct (LessEq (tc_ReadTS c) u) eqn:El.
    + apply LessEq_spec in El. destruct Hr as (Hu & _ & Hm & _). exists u. split_and!; [done|done|]. by exists v.
    + exists (tc_ReadTS c). split_and!; [apply Hc|by right|]. apply Hself.
  - exists (tc_ReadTS c). split_and!; [apply Hc|by right|]. apply Hself.
Qed.

(** Commits are above their starts. *)
Definition ordered (m : gmap bytes bytes) (key : bytes) : Prop := ∀ t st, real ns m key t st → ts_lt st t ∧ wall_ok st.

Lemma read_answered m c ceiling r s :
  s_ns s = ns → records_ok ns m → ordered m (tc_Key c) → cmd_ok c → tc_Op c = OpTxnGet →
  fst (GetTxn m (tc_Key c) (tc_ReadTS c) ceiling s) = Ok r →
  answered (txn_step ns mark desc m c) (tc_Key c) (tc_ReadTS c) r.
Proof.
  intros Hn Hro Hord Hc Hop Hg.
  pose proof (GetTxn_answer m (tc_Key c) (tc_ReadTS c) ceiling s (map_wf m)) as Ha. rewrite Hn, Hg in Ha.
  specialize (Ha (ro_writes _ _ Hro) (ck_key _ Hc)). cbn [contents Map_laws] in Ha.
  inversion Ha as [| | |res Hset Hgt Hlock Hres Heq]; subst res. destruct Hres as [Hview _]. clear Ha.
  assert (He : effect ns mark m c (txn_ops ns mark desc m c)) by (apply applyTxnTo_effect; [done|apply Hc]).
  assert (Hnc : ¬ commits_key ns m c) by (intros [?|[? _]]; congruence).
  assert (Hnr : ¬ rolls_back_key ns m c) by (intros [?|[? _]]; congruence).
  assert (Hreal : ∀ t st, real ns (txn_step ns mark desc m c) (tc_Key c) t st ↔ real ns m (tc_Key c) t st).
  { intros t st. unfold real. split; intros [Ht Hw]; (split; [done|]);
      destruct (write_step ns mark m c _ Hc He (tc_Key c) t (ck_key _ Hc) Ht) as [Hs|[(_ & _ & ? & _)|(_ & _ & ? & _)]];
      try done; unfold write_of, txn_step in *; congruence. }
  assert (Hdata : ∀ st, wall_ok st →
            txn_step ns mark desc m c !! enc ns (KData (tc_Key c) st) = m !! enc ns (KData (tc_Key c) st)).
  { intros st Hst. by destruct (data_step ns mark m c _ Hc He (tc_Key c) st (ck_key _ Hc) Hst) as [Hs|(_ & _ & [[? _]|?])];
      [|congruence|]. }
  split.
  - destruct Hview as [t st v (R & L & N) Hv|N].
    + apply (view_some _ _ _ _ t st); [|by rewrite Hdata by (by eapply Hord)].
      split; [by apply Hreal|]. split; [done|]. intros t' st' R'%Hreal. by eapply N.
    + apply view_none. intros t st R%Hreal. by eapply N.
  - by apply read_leaves_mark.
  - intros l Hl. destruct (lock_step ns mark m c _ Hc He (tc_Key c) (ck_key _ Hc)) as [Hs|[(_ & ? & _)|(_ & [?|?] & _)]];
      [|congruence|done|done]. left. apply Hlock. unfold txn_step in Hl. by rewrite <- Hs.
  - intros t st R%Hreal. by apply Hord.
Qed.
End Runs.

(** C23. A snapshot read is stable (the defect the read marks were added for):
    once a transaction has been answered about a key at a timestamp, no later
    sequence of transaction steps, by any number of transactions, changes the
    answer -- every later read of the key at that timestamp that is answered at
    all is answered with the same value.  The steps are those of coordinators that
    commit what they hold and do not roll back what they committed; prewrites and
    reads are unrestricted. *)
Theorem snapshot_stable ns mark desc m c cs ceiling ceiling' s s' r r' :
  s_ns s = ns → s_ns s' = ns → records_ok ns m → ordered ns m (tc_Key c) → cmd_ok c → tc_Op c = OpTxnGet →
  fst (GetTxn m (tc_Key c) (tc_ReadTS c) ceiling s) = Ok r →
  disciplined_run ns mark desc (txn_step ns mark desc m c) cs →
  fst (GetTxn (txn_run ns mark desc (txn_step ns mark desc m c) cs) (tc_Key c) (tc_ReadTS c) ceiling' s') = Ok r' →
  r' = r.
Proof.
  intros Hn Hn' Hro Hord Hc Hop Hg Hrun Hg'.
  pose proof (read_answered ns mark desc m c ceiling r s Hn Hro Hord Hc Hop Hg) as Hans.
  pose proof (step_records ns mark desc m c Hc Hro) as Hro1.
  pose proof (run_records ns mark desc cs _ (disciplined_cmds _ _ _ _ _ Hrun) Hro1) as Hro2.
  pose proof (answered_run ns mark desc _ _ _ cs _ (ck_key _ Hc) Hro1 Hans Hrun) as Hend.
  pose proof (GetTxn_answer (txn_run ns mark desc (txn_step ns mark desc m c) cs) (tc_Key c) (tc_ReadTS c) ceiling' s'
    (map_wf _)) as Ha. rewrite Hn', Hg' in Ha.
  specialize (Ha (ro_writes _ _ Hro2) (ck_key _ Hc)). inversion Ha as [| | |res Hset Hgt Hlock Hres Heq]; subst res.
  destruct Hres as [Hview _].
  eapply snapshot_view_fun; [exact Hview|apply Hend].
Qed.

(** Only its holder's commit or rollback releases a lock, and only a prewrite
    that passed its three guards takes one: across any step, every lock of the
    range is as it was, or was taken on the command's key by a prewrite, or was
    released on the command's key by the transaction that held it. *)
Theorem locks_change_hands ns mark desc m c k :
  records_ok ns m → cmd_ok c → key_ok k →
  let m' := txn_step ns mark desc m c in
  lock_of ns m' k = lock_of ns m k
  ∨ (k = tc_Key c ∧ tc_Op c = OpPrewrite ∧ can_prewrite (plain ns mark) m k (tc_StartTS c)
     ∧ lock_of ns m' k = Some (MkLock (tc_Primary c) (tc_StartTS c) (tc_Deadline c)))
  ∨ (k = tc_Key c ∧ (commits_key ns m c ∨ rolls_back_key ns m c) ∧ holds ns m k (tc_StartTS c) = true
     ∧ lock_of ns m' k = None).
Proof. intros Hro Hc Hk. apply lock_step; [done| |done]. by apply applyTxnTo_effect; [|apply Hc]. Qed.

(** C40. A decision is final: once a transaction's record is in a range whose records
    are well-formed, no sequence of steps with encodable keys and timestamps -- commits,
    rollbacks, resolutions past a deadline -- changes it. *)
Theorem decision_final ns mark desc m cs p t r :
  records_ok ns m → Forall cmd_ok cs → key_ok p → wall_ok t →
  txn_of ns m p t = Some r → txn_of ns (txn_run ns mark desc m cs) p t = Some r.
Proof.
  intros Hro Hcs Hp Ht. unfold txn_run. revert m Hro. induction Hcs as [|c cs Hc _ IH]; intros m Hro Hr; [done|].
  cbn [foldl]. apply IH; [by apply step_records|].
  assert (He : effect ns mark m c (txn_ops ns mark desc m c)) by (apply applyTxnTo_effect; [done|apply Hc]).
  destruct (txn_step_of ns mark m c _ Hc He p t Hp Ht) as [[Hn _]|Hs]; [congruence|]. unfold txn_step. congruence.
Qed.

(** C24. Well-formedness is an invariant of the apply path: whatever steps are
    applied, in whatever order, every commit record and every read mark of the
    range stays the encoding of a user key and a timestamp, and every commit
    record decodes. *)
Theorem records_invariant ns mark desc m cs :
  records_ok ns m → Forall cmd_ok cs → records_ok ns (txn_run ns mark desc m cs).
Proof. intros Hro Hcs. by apply run_records. Qed.

(** ** Witnesses *)

Definition nsR : bytes := rangePrefix 1.
Definition ts10 : Timestamp := MkTimestamp 10 0.

Definition readC : TxnCommand :=
  MkTxnCommand OpTxnGet k0 [] [] zeroTimestamp zeroTimestamp zeroTimestamp TxnPending ts5 1 zeroTimestamp zeroTimestamp.
Definition prewriteC (start : Timestamp) : TxnCommand :=
  MkTxnCommand OpPrewrite k0 val1 k0 start zeroTimestamp ts10 TxnPending zeroTimestamp 2 zeroTimestamp zeroTimestamp.
Definition commitC (start commit : Timestamp) : TxnCommand :=
  MkTxnCommand OpCommitKey k0 [] k0 start commit zeroTimestamp TxnPending zeroTimestamp 3 zeroTimestamp zeroTimestamp.
Definition rollbackC (start : Timestamp) : TxnCommand :=
  MkTxnCommand OpRollbackKey k0 [] k0 start zeroTimestamp zeroTimestamp TxnPending zeroTimestamp 4 zeroTimestamp zeroTimestamp.
Definition decideC (start commit : Timestamp) : TxnCommand :=
  MkTxnCommand OpPutTxnRecord k0 [] k0 start commit zeroTimestamp TxnCommitted zeroTimestamp 5 zeroTimestamp zeroTimestamp.

Definition stepR := txn_step nsR zeroTimestamp FirstRangeDescriptor.

Definition mRead : gmap bytes bytes := stepR ∅ readC.
Definition mLocked : gmap bytes bytes := stepR mRead (prewriteC ts9).


Ltac cmd_ok_tac := split; (by vm_compute) || (split; [split|]; by vm_compute).

Lemma readC_ok : cmd_ok readC.
Proof. cmd_ok_tac. Qed.
Lemma prewriteC_ok : cmd_ok (prewriteC ts9).
Proof. cmd_ok_tac. Qed.
Lemma commitC_ok : cmd_ok (commitC ts9 ts10).
Proof. cmd_ok_tac. Qed.

Lemma empty_records : records_ok nsR ∅.
Proof. split; intros b v Hb; [by rewrite lookup_empty in Hb..|]. intros _ Hs. rewrite lookup_empty in Hs. by destruct Hs. Qed.

Lemma snapshot_stable_witness :
  fst (GetTxn (txn_run nsR zeroTimestamp FirstRangeDescriptor mRead [prewriteC ts9; commitC ts9 ts10])
         k0 ts5 zeroTimestamp (plain nsR zeroTimestamp)) = Ok None
  ∧ (None : option bytes) = None.
Proof.
  assert (Hg : fst (GetTxn (txn_run nsR zeroTimestamp FirstRangeDescriptor mRead [prewriteC ts9; commitC ts9 ts10])
         k0 ts5 zeroTimestamp (plain nsR zeroTimestamp)) = Ok None) by by vm_compute.
  split; [exact Hg|].
  refine (snapshot_stable nsR zeroTimestamp FirstRangeDescriptor ∅ readC [prewriteC ts9; commitC ts9 ts10]
    zeroTimestamp zeroTimestamp (plain nsR zeroTimestamp) (plain nsR zeroTimestamp) None None
    eq_refl eq_refl empty_records _ readC_ok eq_refl _ _ Hg).
  - intros t st [_ Hw]. by vm_compute in Hw.
  - by vm_compute.
  - cbn [disciplined_run]. split; [exact prewriteC_ok|]. split; [split; intros [?|[? _]]; discriminate|].
    split; [exact commitC_ok|]. split; [|done]. split; [|intros [?|[? _]]; discriminate].
    intros _. split; [left; by vm_compute|]. left. by vm_compute.
Defined.

Lemma locks_change_hands_witness :
  let m' := txn_step nsR zeroTimestamp FirstRangeDescriptor mLocked (commitC ts9 ts10) in
  lock_of nsR m' k0 = None
  ∧ (lock_of nsR m' k0 = lock_of nsR mLocked k0 ∨ lock_of nsR m' k0 = None ∨ tc_Op (commitC ts9 ts10) = OpPrewrite).
Proof.
  split; [by vm_compute|].
  destruct (locks_change_hands nsR zeroTimestamp FirstRangeDescriptor mLocked (commitC ts9 ts10) k0)
    as [H|[(_ & H & _)|(_ & _ & _ & H)]]; [|exact commitC_ok|by vm_compute|by left|by right; right|by right; left].
  apply step_records; [exact prewriteC_ok|]. apply step_records; [exact readC_ok|]. exact empty_records.
Defined.

Lemma decision_final_witness :
  txn_of nsR (txn_run nsR zeroTimestamp FirstRangeDescriptor (stepR ∅ (decideC ts9 ts10)) [rollbackC ts9; decideC ts9 ts9]) k0 ts9
  = Some (MkTxnRecord TxnCommitted ts9 ts10).
Proof.
  apply (decision_final nsR zeroTimestamp FirstRangeDescriptor (stepR ∅ (decideC ts9 ts10)) [rollbackC ts9; decideC ts9 ts9] k0 ts9).
  - apply step_records; [cmd_ok_tac|exact empty_records].
  - repeat constructor; by vm_compute.
  - by vm_compute.
  - split; [split|]; by vm_compute.
  - by vm_compute.
Defined.

Lemma records_invariant_witness : records_ok nsR (txn_run nsR zeroTimestamp FirstRangeDescriptor ∅ [readC; prewriteC ts9]).
Proof.
  apply (records_invariant nsR zeroTimestamp FirstRangeDescriptor ∅ [readC; prewriteC ts9]);
    [exact empty_records|constructor; [exact readC_ok|constructor; [exact prewriteC_ok|constructor]]].
Defined.

(** ** Two behaviours worth knowing *)

Definition entryOf (data : bytes) : Entry := MkEntry EntryNormal 1 1 (MkProposalID 1 1) data.
Definition initR : RM := rm_init FirstRangeDescriptor zeroTimestamp [].
Definition txnE (c : TxnCommand) : Entry := entryOf (encodeTxnCommand c).
Definition ts6 : Timestamp := MkTimestamp 6 0.
Definition ts20 : Timestamp := MkTimestamp 20 0.

(** Collection counts versions, not commits: an uncommitted version that is
    newer keeps its place and the committed one below it is dropped.  When the
    newer transaction is rolled back, a read that the mark allows finds a commit
    record whose value is gone, where without the collection it finds the value. *)
Theorem gc_drops_committed_value :
  let before := [txnE (prewriteC ts5); txnE (commitC ts5 ts6); txnE (prewriteC ts9)] in
  let gc := entryOf (encodeCmd opGC [] [] ts10) in
  let back := txnE (rollbackC ts9) in
  let read st := fst (GetTxn (rm_kv st) k0 ts20 zeroTimestamp (rm_store st)) in
  read (rm_apply (before ++ [back]) initR) = Ok (Some val1)
  ∧ read (rm_apply (before ++ [gc; back]) initR) = Err (ErrMissingVersion k0 ts6 ts5).
Proof. split; by vm_compute. Qed.

(** A rollback tombstone does not bar a later prewrite at the same start: the
    conflict test is strict, so a prewrite redelivered after its rollback takes
    the lock again and stages its value again. *)
Theorem tombstone_admits_prewrite :
  let m := stepR (stepR ∅ (rollbackC ts5)) (prewriteC ts5) in
  write_of nsR m k0 ts5 = Some (ts5, true)
  ∧ lock_of nsR m k0 = Some (MkLock k0 ts5 ts10)
  ∧ m !! enc nsR (KData k0 ts5) = Some val1.
Proof. split_and!; by vm_compute. Qed.
