(* ===== verification/CheckTxn.v ===== *)
(** * The oracles over answers and final states (raftcheck/oracles.go, second half)

    MVCC read correctness, transaction atomicity, the Percolator invariants, bank
    conservation, snapshot isolation, the uncertainty envelope, resolution authority
    and the two read-index oracles.  Maps keyed by printed strings are modelled with
    the printing, so that the theorems cover what the keys can confuse.  The models of
    a log that the harness supplies are parameters. *)

From Stdlib Require Import Lia ZArith.
From stdpp Require Import base tactics numbers option countable list sets gmap.
From S2P Require Import Prelude Bytes RaftTypes Hlc CheckLedger CheckOracles.

(** ** Printed keys *)

Definition digit (d : Z) : byte := z2b (48 + d).
Fixpoint digits (fuel : nat) (n : Z) : bytes :=
  match fuel with
  | O => []
  | S fuel => if n <? 10 then [digit n] else digits fuel (n / 10) ++ [digit (n mod 10)]
  end.
(** [%d] of a 64-bit integer: at most twenty digits. *)
Definition decimal (z : Z) : bytes := if z <? 0 then Byte.x2d :: digits 20 (- z) else digits 20 z.

Definition Timestamp_String (t : Timestamp) : bytes := decimal (Wall t) ++ Byte.x2e :: decimal (Logical t).
(** [key + "@" + t.String()] *)
Definition keyAt (key : bytes) (t : Timestamp) : bytes := key ++ Byte.x40 :: Timestamp_String t.
Definition txnDecisionKey (primary : bytes) (startTS : Timestamp) : bytes := keyAt primary startTS.
(** [a.String() + "->" + b.String()] *)
Definition arrow (a b : Timestamp) : bytes := Timestamp_String a ++ [Byte.x2d; Byte.x3e] ++ Timestamp_String b.

(** ** Verdicts *)

Inductive TxnViolation :=
| UnjustifiedRefusal (range : Z) (index : Index)
| AnsweredCollected (range : Z) (index : Index)
| WrongVersion (range : Z) (index : Index)
| UndecidedCommitted (id : Z) (key : bytes)
| RolledBackCommitted (id : Z) (key : bytes)
| CommittedApart (id : Z) (key : bytes)
| ClockBelowVersion (range : Z) (key : bytes)
| ClockBelowCommit (range : Z) (key : bytes)
| CommittedAndLocked (key : bytes)
| OrphanedLock (range : Z) (key primary : bytes)
| UnauthorisedCommit (range : Z) (key : bytes)
| DeadVersion (range : Z) (key : bytes)
| OrphanedVersion (range : Z) (key : bytes)
| UncollectedVersions (range : Z) (key : bytes) (count : Z)
| PartialAudit (accounts : Z)
| TotalMoved (total : Z)
| LockAbove (key : bytes)
| LockWithoutPrimary (key : bytes)
| SnapshotMoved (key : bytes)
| CeilingTooHigh (key : bytes)
| RestartedBelow (key : bytes)
| RestartedAbove (key : bytes)
| RestartNotAbove (key : bytes)
| RolledBackByNobody (range : Z) (key : bytes)
| RolledBackUnexpired (range : Z) (key : bytes)
| ReadTooEarly (range : Z) (key : bytes)
| ReadNotOwned (range : Z) (key : bytes)
| ReadNotTheLog (range : Z) (key : bytes)
| ReadBelowWrite (range : Z) (key : bytes) (index written : Index).

(** ** MVCC read correctness *)

Record ReadExpectation := MkReadExpectation {
  re_Index : Index; re_Key : bytes; re_At : Timestamp; re_Value : bytes; re_Found : bool; re_Refused : bool;
}.

Definition expectationOf (es : list ReadExpectation) : gmap Z ReadExpectation := foldl (λ m e, <[re_Index e := e]> m) ∅ es.

Definition judgeRead (got : ReadRecord) (exp : ReadExpectation) : option TxnViolation :=
  if rr_Refused got && negb (re_Refused exp) then Some (UnjustifiedRefusal (rr_Range got) (rr_Index got))
  else if negb (rr_Refused got) && re_Refused exp then Some (AnsweredCollected (rr_Range got) (rr_Index got))
  else if rr_Refused got then None
  else if negb (Bool.eqb (rr_Found got) (re_Found exp)) || negb (bool_decide (rr_Value got = re_Value exp))
  then Some (WrongVersion (rr_Range got) (rr_Index got))
  else None.

Definition MVCCReadCorrectness_OnStep (reads : bytes → list Entry → list ReadExpectation) (l : Ledger) (b : base)
    : option TxnViolation * base :=
  let '(go, b) := stale l b in
  if negb go then (None, b)
  else
    let want : gmap Z (gmap Z ReadExpectation) :=
      foldl (λ m rl, <[rl_id rl := expectationOf (reads (rl_base rl) (Committed rl))]> m) ∅ (lg_ranges l) in
    (firstSome (λ got,
       if rr_OffLog got then None
       else match want !! rr_Range got ≫= (λ m, m !! rr_Index got) with Some exp => judgeRead got exp | None => None end) (lg_reads l), b).

(** ** Transaction atomicity *)

Record CommitFact := MkCommitFact { cf_Key : bytes; cf_StartTS : Timestamp; cf_CommitTS : Timestamp; cf_Rollback : bool }.

Section Atomicity.
Context (facts : bytes → list Entry → list CommitFact * gmap bytes CommitFact).

Definition gatherFacts (rs : list rangeLedger) : gmap bytes (list CommitFact) * gmap bytes CommitFact :=
  foldl (λ acc rl,
    let '(commits, dec) := facts (rl_base rl) (Committed rl) in
    (foldl (λ m c, <[cf_Key c := default [] (m !! cf_Key c) ++ [c]]> m) (fst acc) commits, dec ∪ snd acc)) (∅, ∅) rs.

(** The commits of a transaction's keys, its own and not rolled back. *)
Definition judgeKeys (byKey : gmap bytes (list CommitFact)) (t : TxnRecord) (bad : bytes → CommitFact → option TxnViolation) : option TxnViolation :=
  firstSome (λ k,
    firstSome (λ c, if negb (bool_decide (cf_StartTS c = tr_StartTS t)) || cf_Rollback c then None else bad k c) (default [] (byKey !! k)))
    (tr_Keys t).

Definition judgeTxn (byKey : gmap bytes (list CommitFact)) (decided : gmap bytes CommitFact) (t : TxnRecord) : option TxnViolation :=
  match decided !! txnDecisionKey (tr_Primary t) (tr_StartTS t) with
  | None => judgeKeys byKey t (λ k _, Some (UndecidedCommitted (tr_ID t) k))
  | Some d =>
      if cf_Rollback d then judgeKeys byKey t (λ k _, Some (RolledBackCommitted (tr_ID t) k))
      else judgeKeys byKey t (λ k c, if bool_decide (cf_CommitTS c = cf_CommitTS d) then None else Some (CommittedApart (tr_ID t) k))
  end.

Definition TransactionAtomicity_OnStep (l : Ledger) (b : base) : option TxnViolation * base :=
  let '(go, b) := stale l b in
  if negb go then (None, b)
  else let '(byKey, decided) := gatherFacts (lg_ranges l) in (firstSome (judgeTxn byKey decided) (lg_txns l), b).
End Atomicity.

(** ** Percolator invariants *)

Record RecoveredLock := MkRecLock { rk_Key : bytes; rk_Primary : bytes; rk_StartTS : Timestamp; rk_Deadline : Timestamp }.
Record RecoveredVersion := MkRecVersion { rv_Key : bytes; rv_At : Timestamp }.
Record RecoveredState := MkRecovered {
  rs_Range : Z; rs_Start : bytes; rs_End : bytes; rs_GCMark : Timestamp; rs_Locks : list RecoveredLock; rs_Writes : list CommitFact;
  rs_Decided : list CommitFact; rs_Versions : list RecoveredVersion; rs_Clock : Timestamp;
}.

Definition coversKey (states : list RecoveredState) (key : bytes) : bool :=
  existsb (λ st, negb (bytes_ltb key (rs_Start st)) && (bool_decide (rs_End st = []) || bytes_ltb key (rs_End st))) states.

Definition clockInvariant (st : RecoveredState) : option TxnViolation :=
  if negb (Timestamp_IsSet (rs_Clock st)) then None
  else match firstSome (λ v, if Less (rs_Clock st) (rv_At v) then Some (ClockBelowVersion (rs_Range st) (rv_Key v)) else None) (rs_Versions st) with
  | Some v => Some v
  | None => firstSome (λ w, if Less (rs_Clock st) (cf_CommitTS w) then Some (ClockBelowCommit (rs_Range st) (cf_Key w)) else None) (rs_Writes st)
  end.

(** The later of two locks on a key is the one a map keeps. *)
Definition lockedAt (ls : list RecoveredLock) : gmap bytes Timestamp := foldl (λ m l, <[rk_Key l := rk_StartTS l]> m) ∅ ls.

(** The versions at or below the collection mark, counted by key. *)
Fixpoint belowMark (st : RecoveredState) (vs : list RecoveredVersion) (below : gmap bytes Z) : option TxnViolation :=
  match vs with
  | [] => None
  | v :: vs =>
      if LessEq (rv_At v) (rs_GCMark st) then
        let n := default 0 (below !! rv_Key v) + 1 in
        if n >? 1 then Some (UncollectedVersions (rs_Range st) (rv_Key v) n) else belowMark st vs (<[rv_Key v := n]> below)
      else belowMark st vs below
  end.

(** The first of several checks to object. *)
Fixpoint firstOf {V : Type} (vs : list (option V)) : option V :=
  match vs with [] => None | Some v :: _ => Some v | None :: vs => firstOf vs end.

Definition stateInvariants (states : list RecoveredState) (committedAt : gset bytes) (st : RecoveredState) : option TxnViolation :=
  let locked := lockedAt (rs_Locks st) in
  let rolledBack : gset bytes := list_to_set ((λ w, keyAt (cf_Key w) (cf_StartTS w)) <$> filter (λ w, cf_Rollback w = true) (rs_Writes st)) in
  let accounted : gset bytes :=
    list_to_set (((λ w, keyAt (cf_Key w) (cf_StartTS w)) <$> rs_Writes st) ++ ((λ l, keyAt (rk_Key l) (rk_StartTS l)) <$> rs_Locks st)) in
  let transactional : gset bytes := list_to_set ((cf_Key <$> rs_Writes st) ++ (rk_Key <$> rs_Locks st)) in
  firstOf [
    firstSome (λ w, if negb (cf_Rollback w) && bool_decide (locked !! cf_Key w = Some (cf_StartTS w)) then Some (CommittedAndLocked (cf_Key w)) else None)
      (rs_Writes st);
    firstSome (λ l, if coversKey states (rk_Primary l) then None else Some (OrphanedLock (rs_Range st) (rk_Key l) (rk_Primary l))) (rs_Locks st);
    firstSome (λ w, if cf_Rollback w || bool_decide (arrow (cf_StartTS w) (cf_CommitTS w) ∈ committedAt) then None
                    else Some (UnauthorisedCommit (rs_Range st) (cf_Key w))) (rs_Writes st);
    firstSome (λ v, if bool_decide (keyAt (rv_Key v) (rv_At v) ∈ rolledBack) then Some (DeadVersion (rs_Range st) (rv_Key v)) else None)
      (rs_Versions st);
    firstSome (λ v, if negb (bool_decide (rv_Key v ∈ transactional)) || bool_decide (keyAt (rv_Key v) (rv_At v) ∈ accounted) then None
                    else Some (OrphanedVersion (rs_Range st) (rv_Key v))) (rs_Versions st);
    belowMark st (rs_Versions st) ∅].

Definition decidedAll (states : list RecoveredState) : gmap bytes CommitFact :=
  foldl (λ m d, <[txnDecisionKey (cf_Key d) (cf_StartTS d) := d]> m) ∅ (states ≫= rs_Decided).
Definition committedAll (states : list RecoveredState) : gset bytes :=
  list_to_set ((λ kd, arrow (cf_StartTS kd.2) (cf_CommitTS kd.2)) <$> filter (λ kd, cf_Rollback kd.2 = false) (map_to_list (decidedAll states))).

Definition PercolatorInvariants_Check (states : list RecoveredState) : option TxnViolation :=
  firstOf [firstSome clockInvariant states; firstSome (stateInvariants states (committedAll states)) states].

(** ** Bank conservation *)

Definition BankConservation_Check (accounts : Z) (l : Ledger) : option TxnViolation :=
  firstSome (λ a,
    if negb (ar_Accounts a =? accounts) then Some (PartialAudit (ar_Accounts a))
    else if negb (ar_Total a =? 0) then Some (TotalMoved (ar_Total a))
    else None) (lg_audits l).

(** ** Snapshot isolation *)

(** The reads in order, with the settled answers so far and how many were compared. *)
Fixpoint siReads (rs : list TxnReadRecord) (seen : gmap bytes TxnReadRecord) (compared : Z) : option TxnViolation * Z :=
  match rs with
  | [] => (None, compared)
  | r :: rs =>
      if xr_Locked r then
        if Less (xr_At r) (xr_LockStartTS r) then (Some (LockAbove (xr_Key r)), compared)
        else if bool_decide (xr_LockPrimary r = []) then (Some (LockWithoutPrimary (xr_Key r)), compared)
        else siReads rs seen compared
      else if xr_Uncertain r || xr_Refused r then siReads rs seen compared
      else
        let k := keyAt (xr_Key r) (xr_At r) in
        match seen !! k with
        | None => siReads rs (<[k := r]> seen) compared
        | Some prev =>
            if Bool.eqb (xr_Found prev) (xr_Found r) && bool_decide (xr_Value prev = xr_Value r) then siReads rs seen (compared + 1)
            else (Some (SnapshotMoved (xr_Key r)), compared + 1)
        end
  end.
Definition SnapshotIsolation_Check (l : Ledger) (compared : Z) : option TxnViolation * Z := siReads (lg_txnReads l) ∅ compared.

(** ** Uncertainty envelope *)

Definition envelope (maxOffset : Z) (r : TxnReadRecord) : option TxnViolation :=
  let top := MkTimestamp (i64 (Wall (xr_At r) + maxOffset)) 0 in
  if Timestamp_IsSet (xr_Ceiling r) && Less top (xr_Ceiling r) then Some (CeilingTooHigh (xr_Key r))
  else if negb (xr_Uncertain r) then None
  else
    let top := if Timestamp_IsSet (xr_Ceiling r) then xr_Ceiling r else top in
    if negb (Less (xr_At r) (xr_CommitTS r)) then Some (RestartedBelow (xr_Key r))
    else if Less top (xr_CommitTS r) then Some (RestartedAbove (xr_Key r))
    else if negb (Less (xr_CommitTS r) (xr_RestartAt r)) then Some (RestartNotAbove (xr_Key r))
    else None.
Definition UncertaintyEnvelope_Check (maxOffset : Z) (l : Ledger) : option TxnViolation := firstSome (envelope maxOffset) (lg_txnReads l).

(** ** Resolution authority *)

Record ResolveFact := MkResolveFact { rf_Primary : bytes; rf_StartTS : Timestamp; rf_Deadline : Timestamp; rf_ExpireAt : Timestamp }.
Record ProposedRollback := MkProposedRollback { pb_Primary : bytes; pb_StartTS : Timestamp }.

Section Resolution.
Context (cmds : list Entry → list ResolveFact * list ProposedRollback).

Definition resolves (rs : list rangeLedger) : list ResolveFact := rs ≫= λ rl, fst (cmds (Committed rl)).
Definition proposals (rs : list rangeLedger) : list ProposedRollback := rs ≫= λ rl, snd (cmds (Committed rl)).

Definition authorised (rs : list rangeLedger) : gset bytes :=
  list_to_set ((λ r, txnDecisionKey (rf_Primary r) (rf_StartTS r)) <$> filter (λ r, Less (rf_Deadline r) (rf_ExpireAt r) = true) (resolves rs)).
Definition attempted (rs : list rangeLedger) : gset bytes :=
  list_to_set ((λ r, txnDecisionKey (rf_Primary r) (rf_StartTS r)) <$> resolves rs).
Definition proposed (rs : list rangeLedger) : gset bytes :=
  list_to_set ((λ p, txnDecisionKey (pb_Primary p) (pb_StartTS p)) <$> proposals rs).

Fixpoint judgeDecided (rs : list rangeLedger) (ds : list (Z * CommitFact)) (declarations : Z) : option TxnViolation * Z :=
  match ds with
  | [] => (None, declarations)
  | (range, d) :: ds =>
      let k := txnDecisionKey (cf_Key d) (cf_StartTS d) in
      if negb (cf_Rollback d) || bool_decide (k ∈ proposed rs) then judgeDecided rs ds declarations
      else if bool_decide (k ∈ authorised rs) then judgeDecided rs ds (declarations + 1)
      else if bool_decide (k ∈ attempted rs) then (Some (RolledBackUnexpired range (cf_Key d)), declarations + 1)
      else (Some (RolledBackByNobody range (cf_Key d)), declarations)
  end.
Definition ResolutionAuthority_Check (l : option Ledger) (recovered : list RecoveredState) (declarations : Z) : option TxnViolation * Z :=
  judgeDecided (Ranges l) (recovered ≫= λ st, (rs_Range st,.) <$> rs_Decided st) declarations.
End Resolution.

(** ** Read index *)

(** [valueAt range upto key ts]: what the log holds, whether it was found, whether the
    range owned the key; [None] when the harness has no prefix to replay. *)
Section ReadIndex.
Context (valueAt : option (Z → Index → bytes → Timestamp → option (bytes * bool * bool))).

Fixpoint agreeReads (rs : list ReadRecord) (compared : Z) : option TxnViolation * Z :=
  match rs with
  | [] => (None, compared)
  | r :: rs =>
      if negb (rr_OffLog r) || rr_Refused r then agreeReads rs compared
      else match valueAt with
      | None => (None, compared)
      | Some valueAt =>
          if rr_AppliedAt r <? rr_Index r then (Some (ReadTooEarly (rr_Range r) (rr_Key r)), compared)
          else match valueAt (rr_Range r) (rr_AppliedAt r) (rr_Key r) zeroTimestamp with
          | None => agreeReads rs compared
          | Some (want, found, owned) =>
              if negb owned then (Some (ReadNotOwned (rr_Range r) (rr_Key r)), compared + 1)
              else if negb (Bool.eqb found (rr_Found r)) || (found && negb (bool_decide (want = rr_Value r)))
              then (Some (ReadNotTheLog (rr_Range r) (rr_Key r)), compared + 1)
              else agreeReads rs (compared + 1)
          end
      end
  end.
Definition ReadIndexAgreement_Check (l : Ledger) (compared : Z) : option TxnViolation * Z := agreeReads (lg_reads l) compared.
End ReadIndex.

(** The writes acknowledged in a read's range before it was issued, compared one by one. *)
Fixpoint arrivalWrites (r : ReadRecord) (ws : list WriteRecord) (compared : Z) : option TxnViolation * Z :=
  match ws with
  | [] => (None, compared)
  | w :: ws =>
      if negb (wr_Range w =? rr_Range r) || (wr_AckedAt w >=? rr_IssuedAt r) then arrivalWrites r ws compared
      else if wr_Index w >? rr_Index r then (Some (ReadBelowWrite (rr_Range r) (rr_Key r) (rr_Index r) (wr_Index w)), compared + 1)
      else arrivalWrites r ws (compared + 1)
  end.
Fixpoint arrivalReads (ws : list WriteRecord) (rs : list ReadRecord) (compared : Z) : option TxnViolation * Z :=
  match rs with
  | [] => (None, compared)
  | r :: rs =>
      if negb (rr_OffLog r) || rr_Refused r || (rr_IssuedAt r =? 0) then arrivalReads ws rs compared
      else match arrivalWrites r ws compared with (Some v, c) => (Some v, c) | (None, c) => arrivalReads ws rs c end
  end.
Definition ReadIndexAtArrival_Check (l : Ledger) (compared : Z) : option TxnViolation * Z := arrivalReads (lg_writes l) (lg_reads l) compared.

(** ** Printing is faithful *)

Definition undigits (b : bytes) : Z := foldl (λ a d, a * 10 + (b2z d - 48)) 0 b.

Lemma b2z_digit d : 0 ≤ d < 10 → b2z (digit d) = 48 + d.
Proof. intros H. unfold digit. rewrite b2z_z2b. apply Z.mod_small. lia. Qed.

Lemma digits_spec fuel n :
  0 ≤ n < 10 ^ Z.of_nat fuel → undigits (digits fuel n) = n ∧ Forall (λ b, 48 ≤ b2z b ≤ 57) (digits fuel n).
Proof.
  revert n. induction fuel as [|fuel IH]; intros n Hn; [cbn in *; split; [lia|constructor]|]. cbn [digits]. destruct (Z.ltb_spec n 10).
  - split; [unfold undigits; cbn [foldl]; rewrite b2z_digit by lia; lia|]. apply Forall_singleton. rewrite b2z_digit by lia. lia.
  - pose proof (Z.div_mod n 10 ltac:(lia)). pose proof (Z.mod_pos_bound n 10 ltac:(lia)). destruct (IH (n / 10)) as [IH1 IH2].
    { rewrite Nat2Z.inj_succ, Z.pow_succ_r in Hn by lia. split; [apply Z.div_pos; lia|apply Z.div_lt_upper_bound; lia]. }
    split; [|apply Forall_app; split; [done|]; apply Forall_singleton; rewrite b2z_digit by lia; lia].
    unfold undigits in *. rewrite foldl_app, IH1. cbn [foldl]. rewrite b2z_digit by lia. lia.
Qed.

Lemma separators : b2z Byte.x2d = 45 ∧ b2z Byte.x2e = 46 ∧ b2z Byte.x40 = 64.
Proof. done. Qed.

(** A printed integer has digits, and a sign in front at most. *)
Lemma decimal_chars z : is_i64 z → ∀ b, b ∈ decimal z → b = Byte.x2d ∨ 48 ≤ b2z b ≤ 57.
Proof.
  unfold is_i64, decimal. intros Hz b. destruct (Z.ltb_spec z 0).
  - destruct (digits_spec 20 (- z)) as [_ Hf]; [lia|]. rewrite Forall_forall in Hf. intros [->|Hb]%elem_of_cons; [by left|right; exact (Hf b Hb)].
  - destruct (digits_spec 20 z) as [_ Hf]; [lia|]. rewrite Forall_forall in Hf. intros Hb. right. exact (Hf b Hb).
Qed.

Lemma decimal_inj a b : is_i64 a → is_i64 b → decimal a = decimal b → a = b.
Proof.
  unfold is_i64, decimal. intros Ha Hb. destruct (Z.ltb_spec a 0), (Z.ltb_spec b 0); intros H'.
  - pose proof (f_equal (drop 1) H') as Hd. change (digits 20 (- a) = digits 20 (- b)) in Hd. clear H'. rename Hd into H'. destruct (digits_spec 20 (- a)) as [E1 _], (digits_spec 20 (- b)) as [E2 _]; [lia..|]. rewrite H' in E1. lia.
  - exfalso. destruct (digits_spec 20 b) as [_ Hf]; [lia|]. rewrite <- H' in Hf. apply Forall_inv in Hf. cbv beta in Hf. pose proof separators. lia.
  - exfalso. destruct (digits_spec 20 a) as [_ Hf]; [lia|]. rewrite H' in Hf. apply Forall_inv in Hf. cbv beta in Hf. pose proof separators. lia.
  - destruct (digits_spec 20 a) as [E1 _], (digits_spec 20 b) as [E2 _]; [lia..|]. rewrite H' in E1. lia.
Qed.

(** A separator that one side of it cannot contain. *)
Lemma split_first {A} (c : A) xs ys xs' ys' : c ∉ xs → c ∉ xs' → xs ++ c :: ys = xs' ++ c :: ys' → xs = xs' ∧ ys = ys'.
Proof.
  revert xs'. induction xs as [|x xs IH]; intros [|x' xs'] H1 H2 He; cbn [app] in He.
  - injection He as He. done.
  - injection He as Hc _. exfalso. apply H2. rewrite Hc. left.
  - injection He as Hc _. exfalso. apply H1. rewrite Hc. left.
  - injection He as Hx He. rewrite not_elem_of_cons in H1, H2. destruct (IH xs') as [-> ->]; [apply H1|apply H2|done|by rewrite Hx].
Qed.
Lemma split_last {A} (c : A) xs ys xs' ys' : c ∉ ys → c ∉ ys' → xs ++ c :: ys = xs' ++ c :: ys' → xs = xs' ∧ ys = ys'.
Proof.
  intros H1 H2 He. apply (f_equal (@rev A)) in He. rewrite !rev_app_distr in He. cbn [rev] in He. rewrite <- !app_assoc in He. cbn [app] in He.
  apply split_first in He as [E1 E2]; [|rewrite in_rev_elem; done..].
  apply (f_equal (@rev A)) in E1, E2. rewrite !rev_involutive in E1, E2. done.
Qed.

Lemma String_inj t u : ts_ok t → ts_ok u → Timestamp_String t = Timestamp_String u → t = u.
Proof.
  intros [T1 T2] [U1 U2] He. unfold is_u32 in *. apply split_first in He as [E1 E2].
  - destruct t, u. cbn in *. f_equal; apply decimal_inj; try done; unfold is_i64; lia.
  - intros [?|H]%(decimal_chars _ T1); [done|]. pose proof separators. lia.
  - intros [?|H]%(decimal_chars _ U1); [done|]. pose proof separators. lia.
Qed.

Lemma String_no_at t : ts_ok t → Byte.x40 ∉ Timestamp_String t.
Proof.
  intros [T1 T2] H. unfold Timestamp_String in H. unfold is_u32 in T2. assert (is_i64 (Logical t)) by (unfold is_i64; lia).
  rewrite elem_of_app, elem_of_cons in H. destruct H as [[?|Hd]%decimal_chars|[?|[?|Hd]%decimal_chars]]; try done; pose proof separators; lia.
Qed.

(** Whatever the key contains, it and the timestamp can be read back. *)
Lemma keyAt_inj k t k' t' : ts_ok t → ts_ok t' → keyAt k t = keyAt k' t' → k = k' ∧ t = t'.
Proof. intros Ht Ht' [-> Hs]%split_last; [|by apply String_no_at..]. split; [done|by apply String_inj]. Qed.

(** ** Snapshot isolation *)

Definition settled (r : TxnReadRecord) : Prop := xr_Locked r = false ∧ xr_Uncertain r = false ∧ xr_Refused r = false.
(** A blocked read names a lock it could have seen. *)
Definition blockedOK (r : TxnReadRecord) : Prop := xr_Locked r = true → Less (xr_At r) (xr_LockStartTS r) = false ∧ xr_LockPrimary r ≠ [].
Definition sameAnswer (r s : TxnReadRecord) : Prop := xr_Found r = xr_Found s ∧ xr_Value r = xr_Value s.

Definition stableReads (rs : list TxnReadRecord) : Prop :=
  Forall blockedOK rs ∧ ∀ r s, r ∈ rs → s ∈ rs → settled r → settled s → xr_Key r = xr_Key s → xr_At r = xr_At s → sameAnswer r s.

Lemma siReads_spec done_ rs seen c :
  Forall (λ r, ts_ok (xr_At r)) (done_ ++ rs) → stableReads done_ →
  (∀ k r, seen !! k = Some r → r ∈ done_ ∧ settled r ∧ k = keyAt (xr_Key r) (xr_At r)) →
  (∀ r, r ∈ done_ → settled r → is_Some (seen !! keyAt (xr_Key r) (xr_At r))) →
  fst (siReads rs seen c) = None ↔ stableReads (done_ ++ rs).
Proof.
  revert done_ seen c. induction rs as [|r rs IH]; intros done_ seen c Hts [Hb Hst] Hin Hall; cbn [siReads]; [by rewrite app_nil_r|].
  assert (Hr : ts_ok (xr_At r)) by (apply Forall_app in Hts as [_ Hts]; by apply Forall_inv in Hts).
  assert (Hmid : done_ ++ r :: rs = (done_ ++ [r]) ++ rs) by (by rewrite <- app_assoc).
  assert (Hbr : stableReads (done_ ++ r :: rs) → blockedOK r) by (intros [H _]; apply Forall_app in H as [_ H]; by apply Forall_inv in H).
  assert (Hnext : ∀ seen' c', blockedOK r →
    (settled r → ∀ s, s ∈ done_ → settled s → xr_Key s = xr_Key r → xr_At s = xr_At r → sameAnswer s r) →
    (∀ k x, seen' !! k = Some x → x ∈ done_ ++ [r] ∧ settled x ∧ k = keyAt (xr_Key x) (xr_At x)) →
    (∀ x, x ∈ done_ ++ [r] → settled x → is_Some (seen' !! keyAt (xr_Key x) (xr_At x))) →
    fst (siReads rs seen' c') = None ↔ stableReads (done_ ++ r :: rs)).
  { intros seen' c' Hbo Hsame H1 H2. rewrite Hmid in Hts |- *. apply IH; [done| |done|done]. split; [by apply Forall_app; split; [|apply Forall_singleton]|].
    intros x y Hx Hy Sx Sy Hk Ha. rewrite !elem_of_app, !list_elem_of_singleton in Hx, Hy.
    destruct Hx as [Hx| ->], Hy as [Hy| ->]; [by apply Hst|by apply Hsame| |done].
    destruct (Hsame Sx y Hy Sy) as [F V]; [done|done|split; congruence]. }
  assert (Hskip : ¬ settled r → blockedOK r → fst (siReads rs seen c) = None ↔ stableReads (done_ ++ r :: rs)).
  { intros Hns Hbo. apply Hnext; [done|done| |].
    - intros k x Hx. destruct (Hin k x Hx) as (? & ? & ?). split; [apply elem_of_app; by left|done].
    - intros x [Hx|Hx%list_elem_of_singleton]%elem_of_app Sx; [by apply Hall|]. by subst x. }
  destruct (xr_Locked r) eqn:El.
  - destruct (Less (xr_At r) (xr_LockStartTS r)) eqn:E1; [cbn; split; [done|]; intros H%Hbr; destruct (H El); congruence|].
    case_bool_decide as E2; [cbn; split; [done|]; intros H%Hbr; destruct (H El); congruence|].
    apply Hskip; [intros (? & _); congruence|by intros _].
  - assert (Hbo : blockedOK r) by (intros ?; congruence).
    destruct (xr_Uncertain r) eqn:Eu; [apply Hskip; [intros (_ & ? & _); congruence|done]|].
    destruct (xr_Refused r) eqn:Er; cbn [orb]; [apply Hskip; [intros (_ & _ & ?); congruence|done]|].
    assert (Sr : settled r) by done. destruct (seen !! keyAt (xr_Key r) (xr_At r)) as [prev|] eqn:Es.
    + destruct (Hin _ _ Es) as (Hp & Sp & Hk). destruct (keyAt_inj _ _ _ _ Hr (proj1 (Forall_forall _ _) Hts prev (proj2 (elem_of_app _ _ _) (or_introl Hp))) Hk) as [Ek Ea].
      destruct (Bool.eqb (xr_Found prev) (xr_Found r) && bool_decide (xr_Value prev = xr_Value r)) eqn:Eq.
      * apply andb_true_iff in Eq as [Ef%eqb_prop Ev%bool_decide_eq_true]. apply Hnext; [done| | |].
        -- intros _ s Hs Ss Hks Has. destruct (Hst s prev Hs Hp Ss Sp) as [F V]; [congruence|congruence|]. split; congruence.
        -- intros k x Hx. destruct (Hin k x Hx) as (? & ? & ?). split; [apply elem_of_app; by left|done].
        -- intros x [Hx|Hx%list_elem_of_singleton]%elem_of_app Sx; [by apply Hall|]. subst x. rewrite Es. done.
      * cbn. split; [done|]. intros [_ Hall']. destruct (Hall' prev r) as [F V]; [apply elem_of_app; by left|apply elem_of_app; right; left|done|done|done|done|].
        rewrite F, V, Bool.eqb_reflx, bool_decide_eq_true_2 in Eq by done. done.
    + apply Hnext; [done| | |].
      * intros _ s Hs Ss Hks Has. destruct (Hall s Hs Ss) as [x Hx]. rewrite Hks, Has in Hx. congruence.
      * intros k x [[<- <-]|[Hne Hx]]%lookup_insert_Some; [split; [apply elem_of_app; right; left|done]|]. destruct (Hin k x Hx) as (? & ? & ?). split; [apply elem_of_app; by left|done].
      * intros x [Hx|Hx%list_elem_of_singleton]%elem_of_app Sx.
        -- destruct (decide (keyAt (xr_Key r) (xr_At r) = keyAt (xr_Key x) (xr_At x))) as [<-|]; [by rewrite lookup_insert_eq|].
           rewrite lookup_insert_ne by done. by apply Hall.
        -- subst x. by rewrite lookup_insert_eq.
Qed.

(** The snapshot isolation oracle: over any recorded answers at valid timestamps, it
    is silent exactly when every blocked read names a lock at or below its own timestamp
    with a primary, and any two settled answers to one question (the same key at the same
    timestamp) are the same answer; no two questions are confused by the printing of
    their keys. *)
Theorem snapshot_isolation_exact l c :
  Forall (λ r, ts_ok (xr_At r)) (lg_txnReads l) → fst (SnapshotIsolation_Check l c) = None ↔ stableReads (lg_txnReads l).
Proof.
  intros H. unfold SnapshotIsolation_Check. apply (siReads_spec [] (lg_txnReads l) ∅ c); [done| | |].
  - split; [constructor|]. by intros ? ? ?%elem_of_nil.
  - intros k r. by rewrite lookup_empty.
  - by intros r ?%elem_of_nil.
Qed.

Definition aRead (k : bytes) (found : bool) (v : bytes) : TxnReadRecord :=
  MkTxnRead 1 0 1 k (MkTimestamp 5 0) (MkTimestamp 5 0) v found false [] zeroTimestamp false zeroTimestamp zeroTimestamp zeroTimestamp false 0.
Definition readLedger : Ledger := RecordTxnRead (aRead [Byte.x61] true [Byte.x62]) (RecordTxnRead (aRead [Byte.x61] true [Byte.x62]) (NewLedger 1)).

Lemma snapshot_isolation_exact_witness : fst (SnapshotIsolation_Check readLedger 0) = None ↔ stableReads (lg_txnReads readLedger).
Proof.
  apply (snapshot_isolation_exact readLedger 0). repeat (apply Forall_cons; split; [split; vm_compute; split; (discriminate || reflexivity)|]). constructor.
Defined.
