(* ===== verification/StoreRange.v ===== *)
(** * Ranges and splits (store/range.go, store/machine.go, and [maybeSplit] of
    store/node.go)

    How a range proposes a split, what the two halves own, how the records of the
    range are divided between them, and how a machine mints range identifiers and
    finds the replica that serves a key. *)

From Stdlib Require Import Lia ZArith.
From stdpp Require Import base tactics numbers option gmap list.
From S2P Require Import Prelude Bytes ConfChange RaftTypes Hlc Engine KvEncoding EngineIface KvStore KvTxn EngineMap StoreCodec StoreReplay.

(** ** Proposing *)

(** [nextRangeID] of a machine whose counter is [next], in a cluster of [nodes]. *)
Definition nextRangeID (nodes next : Z) : Z * Z := (next, add64 next nodes).

(** The counter a machine starts with ([newMachine]). *)
Definition firstRangeID (ordinal : Z) : Z := u64 (2 + ordinal).

(** The two halves [maybeSplit] proposes; [append([]byte(nil), x...)] of an empty
    slice is [nil]. *)
Definition nilIfEmpty (b : bytes) : option bytes := match b with [] => None | _ => Some b end.

Definition proposedSplit (desc : RangeDescriptor) (key : bytes) (id : Z) : SplitSpec :=
  let left := Clone desc in
  let left := MkDesc (d_ID left) (d_Start left) (nilIfEmpty key) (add64 (d_Epoch left) 1) in
  let right := MkDesc id key (nilIfEmpty (default [] (d_End desc))) 1 in
  MkSplit key left right.

(** [maybeSplit]: the split to propose, with the machine's next identifier; the
    proposal itself is raft's. *)
Definition maybeSplit {E} `{EngineReads E} (threshold : Z) (splitPending isLeader : bool) (nodes next : Z)
    (db : E) (s : Store) (desc : RangeDescriptor) : option (SplitSpec * Z) :=
  if (threshold =? 0) || splitPending || negb isLeader then None
  else match Keys db s with
  | Err _ => None
  | Ok keys =>
      if Z.of_nat (length keys) <? threshold then None
      else match splitKeyFor keys with
      | None => None
      | Some key => let '(id, next) := nextRangeID nodes next in Some (proposedSplit desc key id, next)
      end
  end.

(** ** Applying *)

(** The division of the records in [applySplit]; [None] is the panic on a record
    neither half covers. *)
Fixpoint divide (spec : SplitSpec) (s : Store) (recs : list KvRecord) : option (list KvRecord * list KvRecord) :=
  match recs with
  | [] => Some ([], [])
  | rec :: recs =>
      match UserKeyOf (rec_Key rec) s with
      | None => divide spec s recs
      | Some u =>
          if Contains (sp_Right spec) u then
            '(l, r) ← divide spec s recs;
            Some (l, reNamespace rec (s_ns s) (rangePrefix (d_ID (sp_Right spec))) :: r)
          else if Contains (sp_Left spec) u then
            '(l, r) ← divide spec s recs; Some (rec :: l, r)
          else None
      end
  end.

Definition maxVersionTimestamp (ns : bytes) (rs : list KvRecord) : Timestamp :=
  foldl (λ hi rec, match TimestampOf ns (rec_Key rec) with
                   | Some ts => if Less hi ts then ts else hi
                   | None => hi
                   end) zeroTimestamp rs.

(** ** Routing on a machine *)

(** The replicas of a machine, by descriptor, sorted by range. *)
Definition replicaFor (ds : list RangeDescriptor) (key : bytes) : option RangeDescriptor :=
  list_find (λ d, Contains d key = true) ds ≫= λ '(_, d), Some d.

Definition replicaOf (ds : list RangeDescriptor) (id : Z) : option RangeDescriptor :=
  list_find (λ d, d_ID d = id) ds ≫= λ '(_, d), Some d.

(** The insertion loop of [addReplica]: the new replica moves down past every one
    with a greater range. *)
Fixpoint insertDown (r : RangeDescriptor) (rev_ds : list RangeDescriptor) : list RangeDescriptor :=
  match rev_ds with
  | [] => [r]
  | d :: ds => if d_ID r <? d_ID d then d :: insertDown r ds else r :: d :: ds
  end.
Definition addReplica (ds : list RangeDescriptor) (r : RangeDescriptor) : list RangeDescriptor :=
  rev (insertDown r (rev ds)).

(** A request routed under a stale descriptor ([Node.onClient]). *)
Definition staleRoute (reqRange reqEpoch : Z) (d : RangeDescriptor) : bool :=
  negb (reqEpoch =? 0) && (negb (reqRange =? d_ID d) || (reqEpoch <? d_Epoch d)).

(** ** The two halves *)

Lemma Contains_spec d k :
  Contains d k = true ↔ bytes_le (d_Start d) k ∧ match d_End d with Some e => bytes_lt k e | None => True end.
Proof.
  unfold Contains. destruct (bytes_ltb k (d_Start d)) eqn:E.
  - split; [done|]. intros [Hle _]. apply bytes_le_not_lt in Hle. done.
  - apply not_true_iff_false in E. fold (bytes_lt k (d_Start d)) in E. rewrite <- bytes_le_not_lt in E.
    destruct (d_End d); tauto.
Qed.

(** A descriptor of the system: it does not end at the empty key. *)
Definition desc_wf (d : RangeDescriptor) : Prop := d_End d ≠ Some [].

Lemma nilIfEmpty_default o : o ≠ Some [] → nilIfEmpty (default [] o) = o.
Proof. destruct o as [[|b e]|]; [done|done|done]. Qed.

Lemma split_partitions_eq desc key id k :
  desc_wf desc → key ≠ [] → Contains desc key = true → is_u64 (d_Epoch desc) →
  let spec := proposedSplit desc key id in
  Contains desc k = xorb (Contains (sp_Left spec) k) (Contains (sp_Right spec) k)
  ∧ Contains (sp_Left spec) k && Contains (sp_Right spec) k = false
  ∧ splitApplies spec desc = true ∧ splitApplies spec (sp_Left spec) = false.
Proof.
  intros Hwf Hne Hin He. unfold proposedSplit, Clone. cbv zeta. cbn [sp_Left sp_Right d_ID d_Start d_End d_Epoch].
  rewrite nilIfEmpty_default by done.
  assert (nilIfEmpty key = Some key) as -> by (by destruct key).
  apply Contains_spec in Hin as [Hlo Hhi]. split; [|split].
  - apply eq_bool_prop_intro. rewrite !Is_true_true.
    destruct (decide (bytes_lt k key)) as [Hlt|Hge].
    + assert (Hr : Contains (MkDesc id key (d_End desc) 1) k = false).
      { apply not_true_iff_false. rewrite Contains_spec. cbn. intros [Hle _]. apply bytes_le_not_lt in Hle. done. }
      rewrite Hr, xorb_false_r, !Contains_spec. cbn. split; [by intros [? _]|]. intros [? _]. split; [done|].
      destruct (d_End desc); [by eapply bytes_lt_trans|done].
    + assert (Hl : Contains (MkDesc (d_ID desc) (d_Start desc) (Some key) (add64 (d_Epoch desc) 1)) k = false).
      { apply not_true_iff_false. rewrite Contains_spec. cbn. by intros [_ ?]. }
      rewrite Hl, xorb_false_l, !Contains_spec. cbn. apply bytes_le_not_lt in Hge. split; [by intros [_ ?]|].
      intros [_ ?]. split; [|done]. by eapply bytes_le_trans.
  - apply andb_false_iff. destruct (decide (bytes_lt k key)) as [Hlt|Hge]; [right|left];
      apply not_true_iff_false; rewrite Contains_spec; cbn; [|by intros [_ ?]].
    intros [Hle _]. apply bytes_le_not_lt in Hle. done.
  - unfold splitApplies, bytes_eqb. cbn [sp_Left sp_Right d_Epoch d_Start d_End].
    rewrite Z.eqb_refl, !bool_decide_eq_true_2 by done. split; [done|].
    destruct (Z.eqb_spec (add64 (d_Epoch desc) 1) (add64 (add64 (d_Epoch desc) 1) 1)) as [Heq|]; [|done].
    exfalso. unfold add64, u64, is_u64 in *. rewrite Zplus_mod_idemp_l in Heq.
    assert (Hd : ((d_Epoch desc + 1 + 1) - (d_Epoch desc + 1)) mod 2 ^ 64 = 0)
      by (rewrite Zminus_mod, <- Heq, Z.sub_diag; done).
    replace (d_Epoch desc + 1 + 1 - (d_Epoch desc + 1)) with 1 in Hd by lia. done.
Qed.

(** A proposed split divides the range: when the cut is a key of the range,
    every key the range owns is owned by exactly one half and the halves own
    nothing else; and the split applies to the descriptor it was computed from
    and to no descriptor of the range after it. *)
Theorem split_partitions desc key id k :
  desc_wf desc → key ≠ [] → Contains desc key = true → is_u64 (d_Epoch desc) →
  let spec := proposedSplit desc key id in
  Contains desc k = xorb (Contains (sp_Left spec) k) (Contains (sp_Right spec) k)
  ∧ Contains (sp_Left spec) k && Contains (sp_Right spec) k = false
  ∧ splitApplies spec desc = true ∧ splitApplies spec (sp_Left spec) = false.
Proof. apply split_partitions_eq. Qed.

(** ** The key space stays tiled *)

Lemma insertDown_perm r ds : insertDown r ds ≡ₚ r :: ds.
Proof.
  induction ds as [|d ds IH]; cbn; [done|]. destruct (_ <? _); [|done]. rewrite IH. apply Permutation_swap.
Qed.

Lemma addReplica_perm ds r : addReplica ds r ≡ₚ r :: ds.
Proof. unfold addReplica. rewrite <- Permutation_rev, insertDown_perm. f_equiv. symmetry. apply Permutation_rev. Qed.

(** The replicas of a machine that started with the first range and applied
    splits, each cutting one of its ranges at a key of that range. *)
Inductive tiling : list RangeDescriptor → Prop :=
| tiling_first : tiling [FirstRangeDescriptor]
| tiling_split ds1 d ds2 key id :
    tiling (ds1 ++ d :: ds2) → key ≠ [] → Contains d key = true →
    tiling (addReplica (ds1 ++ sp_Left (proposedSplit d key id) :: ds2) (sp_Right (proposedSplit d key id))).

Definition owners (ds : list RangeDescriptor) (k : bytes) : list RangeDescriptor := filter (λ d, Contains d k = true) ds.

Lemma proposedSplit_wf d key id :
  is_u64 (d_Epoch d) →
  Forall (λ d, desc_wf d ∧ is_u64 (d_Epoch d)) [sp_Left (proposedSplit d key id); sp_Right (proposedSplit d key id)].
Proof.
  intros He. unfold proposedSplit, desc_wf, nilIfEmpty. repeat constructor; cbn; try done; try apply add64_range.
  - by destruct key.
  - by destruct (default [] (d_End d)).
Qed.

Lemma owners_app ds1 ds2 k : owners (ds1 ++ ds2) k = owners ds1 k ++ owners ds2 k.
Proof. apply filter_app. Qed.

Lemma owners_cons d ds k : length (owners (d :: ds) k) = ((if Contains d k then 1 else 0) + length (owners ds k))%nat.
Proof. unfold owners. rewrite filter_cons. destruct (Contains d k); destruct (decide _); done. Qed.

Lemma tiling_inv ds :
  tiling ds → Forall (λ d, desc_wf d ∧ is_u64 (d_Epoch d)) ds ∧ ∀ k, length (owners ds k) = 1%nat.
Proof.
  induction 1 as [|ds1 d ds2 key id _ [Hwf Hone] Hne Hin].
  { split; [by repeat constructor|]. intros k. unfold owners. rewrite filter_cons, decide_True; [done|].
    apply Contains_spec. split; [|done]. cbn. by destruct k. }
  apply Forall_app in Hwf as [Hwf1 Hwf2]. apply Forall_cons in Hwf2 as [[Hd He] Hwf2].
  pose proof (proposedSplit_wf d key id He) as Hs. apply Forall_cons in Hs as [Hl Hr].
  apply Forall_cons in Hr as [Hr _]. split.
  - rewrite addReplica_perm. constructor; [done|]. apply Forall_app. split; [done|]. by constructor.
  - intros k. specialize (Hone k). rewrite owners_app, length_app, owners_cons in Hone. unfold owners at 1.
    rewrite addReplica_perm. fold (owners (sp_Right (proposedSplit d key id) :: ds1 ++ sp_Left (proposedSplit d key id) :: ds2) k).
    rewrite owners_cons, owners_app, length_app, owners_cons.
    destruct (split_partitions_eq d key id k Hd Hne Hin He) as (Hx & Hdis & _). rewrite Hx in Hone.
    destruct (Contains (sp_Left _) k), (Contains (sp_Right _) k); cbn in *; lia || done.
Qed.

(** C29. The key space is tiled: however many splits a machine has applied, every
    key is served by exactly one of its ranges, the one [replicaFor] finds. *)
Theorem keyspace_tiled ds k :
  tiling ds →
  ∃ d, replicaFor ds k = Some d ∧ Contains d k = true ∧ owners ds k = [d].
Proof.
  intros Ht. destruct (tiling_inv ds Ht) as [_ Hone]. specialize (Hone k).
  destruct (owners ds k) as [|d [|]] eqn:Eo; [done| |done]. exists d.
  assert (Hd : d ∈ owners ds k) by (rewrite Eo; left). apply list_elem_of_filter in Hd as [Hc Hin].
  split_and!; [|done|done]. unfold replicaFor.
  destruct (list_find (λ d, Contains d k = true) ds) as [[i d']|] eqn:Ef; cbn.
  - apply list_find_Some in Ef as (Hi & Hc' & _). apply list_elem_of_lookup_2 in Hi.
    assert (Hd' : d' ∈ owners ds k) by by apply list_elem_of_filter. rewrite Eo in Hd'.
    by apply list_elem_of_singleton in Hd' as ->.
  - apply list_find_None in Ef. rewrite Forall_forall in Ef. by destruct (Ef d Hin).
Qed.

(** ** Identifiers *)

(** The [n]-th identifier a machine mints. *)
Fixpoint minted (nodes : Z) (n : nat) (next : Z) : Z :=
  match n with
  | O => fst (nextRangeID nodes next)
  | S n => minted nodes n (snd (nextRangeID nodes next))
  end.

Lemma minted_eq nodes n next :
  0 ≤ nodes → 0 ≤ next → next + Z.of_nat n * nodes < 2 ^ 64 → minted nodes n next = next + Z.of_nat n * nodes.
Proof.
  revert next. induction n as [|n IH]; intros next Hn H0 Hlt; cbn [minted nextRangeID fst snd]; [lia|].
  rewrite add64_small by nia. rewrite IH by nia. nia.
Qed.

(** Two machines never mint the same range identifier, and no machine mints
    one twice, as long as the counters have not wrapped. *)
Theorem minted_ids_unique nodes i j a b :
  0 ≤ i < nodes → 0 ≤ j < nodes → 2 + i + Z.of_nat a * nodes < 2 ^ 64 → 2 + j + Z.of_nat b * nodes < 2 ^ 64 →
  minted nodes a (firstRangeID i) = minted nodes b (firstRangeID j) → i = j ∧ a = b.
Proof.
  intros Hi Hj Ha Hb. unfold firstRangeID. rewrite !u64_small by (unfold is_u64; nia). rewrite !minted_eq by lia.
  intros He. assert (Hm : (i + Z.of_nat a * nodes) mod nodes = (j + Z.of_nat b * nodes) mod nodes) by (f_equal; lia).
  rewrite !Z_mod_plus_full, !Z.mod_small in Hm by done. subst j. split; [done|].
  apply Nat2Z.inj, (Z.mul_reg_r _ _ nodes); lia.
Qed.

(** ** The records of a split *)

(** Every record of the namespace is the encoding of one of the five kinds. *)
Definition keys_ok (ns : bytes) (m : gmap bytes bytes) : Prop :=
  ∀ k, is_Some (m !! k) → in_ns ns k → ∃ rk, rkey_ok rk ∧ k = enc ns rk.

(** A record's engine key below its namespace. *)
Definition rkey_tail (rk : rkey) : bytes :=
  rkey_kind rk :: be_put lenBytes (u32 (Z.of_nat (length (rkey_key rk)))) ++ rkey_key rk ++ rkey_rest rk.

Lemma enc_tail ns rk : enc ns rk = ns ++ rkey_tail rk.
Proof. rewrite enc_meta. unfold metaKey. by rewrite <- !app_assoc. Qed.

Lemma UserKeyOf_enc rk s : key_ok (rkey_key rk) → UserKeyOf (enc (s_ns s) rk) s = Some (rkey_key rk).
Proof.
  intros Hk. unfold UserKeyOf.
  assert (Ho : owns (enc (s_ns s) rk) s = true) by (apply in_ns_owns, in_ns_enc). rewrite Ho. cbn [negb].
  destruct (enc_kind (s_ns s) rk) as [rest Hr]. rewrite Hr at 1.
  rewrite lookup_app_r, Nat.sub_diag by lia. cbn [lookup list_lookup mbind option_bind].
  rewrite enc_meta.
  assert (Ht : takeMetaKey (s_ns s) (rkey_kind rk) (metaKey (s_ns s) (rkey_kind rk) (rkey_key rk) ++ rkey_rest rk)
               = Some (rkey_key rk, rkey_rest rk)) by (by apply takeMetaKey_spec).
  by rewrite Ht.
Qed.

Lemma reNamespace_enc ns ns' rk v : reNamespace (MkRecord (enc ns rk) v) ns ns' = MkRecord (enc ns' rk) v.
Proof.
  unfold reNamespace. cbn [rec_Key rec_Value]. rewrite !enc_tail, length_app.
  destruct (Nat.ltb_spec (length ns + length (rkey_tail rk)) (length ns)); [lia|]. by rewrite drop_app_length.
Qed.

(** Records as encodings of logical records. *)
Definition recs_of (ns : bytes) (xs : list (rkey * bytes)) : list KvRecord := (λ x, MkRecord (enc ns (fst x)) (snd x)) <$> xs.

(** The division, when each record falls in a half: the left half keeps its
    records, the right half takes the others under its own namespace. *)
Lemma divide_eq spec s xs :
  Forall (λ x, rkey_ok (fst x) ∧ Contains (sp_Right spec) (rkey_key (fst x)) || Contains (sp_Left spec) (rkey_key (fst x)) = true) xs →
  divide spec s (recs_of (s_ns s) xs)
  = Some (recs_of (s_ns s) (filter (λ x, Contains (sp_Right spec) (rkey_key (fst x)) = false) xs),
          recs_of (rangePrefix (d_ID (sp_Right spec))) (filter (λ x, Contains (sp_Right spec) (rkey_key (fst x)) = true) xs)).
Proof.
  induction 1 as [|[rk v] xs [Hrk Hin] _ IH]; [done|]. unfold recs_of in *. cbn [fmap list_fmap divide rec_Key fst snd].
  rewrite UserKeyOf_enc by apply Hrk. rewrite !filter_cons. cbn [fst snd] in *.
  destruct (Contains (sp_Right spec) (rkey_key rk)) eqn:Er; rewrite IH; cbn [mbind option_bind].
  - rewrite decide_False, decide_True by done. rewrite reNamespace_enc. done.
  - cbn [orb] in Hin. rewrite Hin, decide_True, decide_False by done. done.
Qed.

Lemma recs_sorted ns ns' xs :
  sorted_entries ((λ x, (enc ns (fst x), snd x)) <$> xs) → sorted_entries ((λ x : rkey * bytes, (enc ns' (fst x), snd x)) <$> xs).
Proof.
  unfold sorted_entries. rewrite <- !list_fmap_compose. induction xs as [|x xs IH]; [constructor|]. cbn.
  intros Hs. inversion_clear Hs as [|? ? Hs' Hx]. constructor; [by apply IH|].
  rewrite Forall_fmap in *. eapply Forall_impl; [exact Hx|]. intros y. cbn. unfold bytes_lt.
  rewrite !bytes_ltb_lt, !enc_tail, !bytes_cmp_app. done.
Qed.

(** The records of a well-formed range, in key order, as logical records. *)
Lemma Records_logical (ns : bytes) (mark : Timestamp) (m : gmap bytes bytes) :
  keys_ok ns m →
  ∃ xs, Records m (plain ns mark) = Ok (recs_of ns xs) ∧ Forall (λ x, rkey_ok (fst x)) xs
    ∧ sorted_entries ((λ x, (enc ns (fst x), snd x)) <$> xs)
    ∧ ∀ rk v, rkey_ok rk → (rk, v) ∈ xs ↔ m !! enc ns rk = Some v.
Proof.
  intros Hok. destruct (Records_entries m (plain ns mark) (map_wf m)) as (es & He & Hs & Hm).
  assert (Hx : ∃ xs, es = (λ x, (enc ns (fst x), snd x)) <$> xs ∧ Forall (λ x : rkey * bytes, rkey_ok (fst x)) xs).
  { assert (Hall : Forall (λ e : entry, ∃ rk, rkey_ok rk ∧ fst e = enc ns rk) es).
    { apply Forall_forall. intros [k v] Hin. apply emap_lookup in Hin; [|done]. rewrite Hm in Hin.
      destruct (owns k (plain ns mark)) eqn:Eo; [|done]. apply (in_ns_owns k (plain ns mark)) in Eo.
      destruct (Hok k) as (rk & Hrk & ->); [by exists v|done|]. by exists rk. }
    clear -Hall. induction Hall as [|[k v] es (rk & Hrk & Hk) _ (xs & -> & Hxs)]; [by exists []|].
    cbn [fst] in Hk. subst k. exists ((rk, v) :: xs). split; [done|]. by constructor. }
  destruct Hx as (xs & -> & Hxs). exists xs. split_and!; [|done|done|].
  - rewrite He. f_equal. unfold recs_of. rewrite <- list_fmap_compose. done.
  - intros rk v Hrk. assert (Ho : owns (enc ns rk) (plain ns mark) = true)
      by (apply (in_ns_owns _ (plain ns mark)), in_ns_enc).
    specialize (Hm (enc ns rk)). rewrite Ho in Hm. cbn [contents Map_laws] in Hm. rewrite <- Hm, emap_lookup by done.
    rewrite list_elem_of_fmap. split; [intros Hin; by exists (rk, v)|]. intros ([rk' v'] & [= He' ->] & Hin).
    cbn [fst] in He'. rewrite Forall_forall in Hxs. apply enc_inj in He' as ->; [done|done|]. exact (Hxs _ Hin).
Qed.

Lemma logical_elem ns xs rk v :
  Forall (λ x : rkey * bytes, rkey_ok (fst x)) xs → rkey_ok rk →
  (enc ns rk, v) ∈ ((λ x, (enc ns (fst x), snd x)) <$> xs) ↔ (rk, v) ∈ xs.
Proof.
  intros Hxs Hrk. rewrite list_elem_of_fmap. split; [|intros Hin; by exists (rk, v)].
  intros ([rk' v'] & [= He ->] & Hin). cbn [fst] in He. rewrite Forall_forall in Hxs.
  apply enc_inj in He as ->; [done|done|]. exact (Hxs _ Hin).
Qed.

(** Ingesting logical records. *)
Lemma ingest_logical ns s mark xs m0 rk v :
  s_ns s = ns → sorted_entries ((λ x, (enc ns (fst x), snd x)) <$> xs) →
  Forall (λ x, rkey_ok (fst x)) xs → rkey_ok rk →
  foldl spec_op m0 (fst (IngestRecordsInto (recs_of ns xs) mark NewBatch s)) !! enc ns rk = Some v ↔ (rk, v) ∈ xs.
Proof.
  intros Hn Hs Hxs Hrk.
  assert (Hr : recs_of ns xs = recordOf <$> ((λ x, (enc ns (fst x), snd x)) <$> xs))
    by (unfold recs_of; by rewrite <- list_fmap_compose).
  rewrite Hr. pose proof (ingest_lookup _ mark m0 s (enc ns rk) Hs) as Hl.
  destruct (IngestRecordsInto _ _ _ _) as [b s']. cbn [fst]. destruct Hl as (_ & _ & _ & ->).
  assert (Ho : owns (enc ns rk) s = true) by (apply in_ns_owns; rewrite Hn; apply in_ns_enc). rewrite Ho.
  rewrite <- (logical_elem ns xs rk v), <- emap_lookup by done. by destruct (emap _ !! _).
Qed.

Lemma filter_Forall {A} (Q P : A → Prop) `{∀ x, Decision (P x)} xs : Forall Q xs → Forall Q (filter P xs).
Proof. rewrite !Forall_forall. intros Hq x [_ Hx]%list_elem_of_filter. by apply Hq. Qed.

(** C28. A split loses nothing and leaks nothing: the left range keeps exactly the
    records -- versions, locks, commit records, transaction records and read
    marks -- of the keys it still owns, the right range is born with exactly those
    of the keys it takes, under its own namespace, and no record falls between. *)
Theorem split_moves_records (ns : bytes) (mark : Timestamp) (m mr : gmap bytes bytes) spec :
  keys_ok ns m →
  (∀ rk, rkey_ok rk → is_Some (m !! enc ns rk) →
     xorb (Contains (sp_Left spec) (rkey_key rk)) (Contains (sp_Right spec) (rkey_key rk)) = true) →
  let nsr := rangePrefix (d_ID (sp_Right spec)) in
  ∃ recs l r, Records m (plain ns mark) = Ok recs ∧ divide spec (plain ns mark) recs = Some (l, r)
    ∧ (let m' := foldl spec_op m (fst (IngestRecordsInto l mark NewBatch (plain ns mark))) in
       ∀ rk, rkey_ok rk → m' !! enc ns rk = if Contains (sp_Left spec) (rkey_key rk) then m !! enc ns rk else None)
    ∧ (let m' := foldl spec_op mr (fst (IngestRecordsInto r mark NewBatch (plain nsr mark))) in
       ∀ rk, rkey_ok rk → m' !! enc nsr rk = if Contains (sp_Right spec) (rkey_key rk) then m !! enc ns rk else None).
Proof.
  intros Hok Hx nsr. destruct (Records_logical ns mark m Hok) as (xs & Hr & Hxs & Hs & Hin).
  assert (Hhalf : ∀ x, x ∈ xs → xorb (Contains (sp_Left spec) (rkey_key (fst x))) (Contains (sp_Right spec) (rkey_key (fst x))) = true).
  { intros [rk v] He. rewrite Forall_forall in Hxs. specialize (Hxs _ He). cbn [fst] in *. apply Hx; [done|].
    apply Hin in He; [by exists v|done]. }
  pose proof (divide_eq spec (plain ns mark) xs) as Hdiv. cbn [s_ns plain] in Hdiv.
  eexists _, _, _. split; [exact Hr|]. split.
  { apply Hdiv. apply Forall_forall. intros x He. rewrite Forall_forall in Hxs. split; [by apply Hxs|].
    specialize (Hhalf x He). destruct (Contains (sp_Right spec) _); [done|]. by rewrite xorb_false_r in Hhalf. }
  assert (Hsub : ∀ (P : rkey * bytes → Prop) `{∀ x, Decision (P x)} ns', 
    sorted_entries ((λ x, (enc ns' (fst x), snd x)) <$> filter P xs) ∧ Forall (λ x, rkey_ok (fst x)) (filter P xs)).
  { intros P HP ns'. split; [|by apply filter_Forall]. apply (recs_sorted ns). clear -Hs HP.
    induction xs as [|x xs IH]; [constructor|]. rewrite filter_cons. cbn [fmap list_fmap] in Hs.
    apply sorted_cons in Hs as [Hx Hs]. destruct (decide (P x)); [|by apply IH]. cbn [fmap list_fmap].
    apply sorted_cons. split; [|by apply IH]. rewrite Forall_fmap in *. by apply filter_Forall. }
  split; cbv zeta; intros rk Hrk; apply option_eq; intros v.
  - destruct (Hsub (λ x, Contains (sp_Right spec) (rkey_key (fst x)) = false) _ ns) as [Hsl Hfl].
    rewrite (ingest_logical ns (plain ns mark)) by done. rewrite list_elem_of_filter. cbn [fst].
    destruct (Contains (sp_Left spec) (rkey_key rk)) eqn:El.
    + rewrite Hin by done. split; [by intros [_ ?]|]. intros Hv. split; [|done].
      specialize (Hhalf (rk, v) (proj2 (Hin rk v Hrk) Hv)). cbn [fst] in Hhalf. rewrite El in Hhalf. by destruct (Contains (sp_Right spec) _).
    + split; [|done]. intros [Hno He]. specialize (Hhalf _ He). cbn [fst] in Hhalf. by rewrite El, Hno in Hhalf.
  - destruct (Hsub (λ x, Contains (sp_Right spec) (rkey_key (fst x)) = true) _ nsr) as [Hsl Hfl].
    subst nsr. rewrite (ingest_logical (rangePrefix _) (plain (rangePrefix _) mark)) by done.
    rewrite list_elem_of_filter. cbn [fst].
    destruct (Contains (sp_Right spec) (rkey_key rk)) eqn:El.
    + rewrite Hin by done. tauto.
    + split; [by intros [? _]|done].
Qed.

(** ** The cut *)

Definition kB : bytes := [Byte.x62].
Definition kAA : bytes := [Byte.x61; Byte.x61].
Definition ns1 : bytes := rangePrefix 1.
Definition s1 : Store := plain ns1 zeroTimestamp.
Definition twoKeys (ns : bytes) : gmap bytes bytes := <[EncodeKey ns kB ts5 := val1]> (<[EncodeKey ns kAA ts5 := val1]> ∅).
Definition mTwo : gmap bytes bytes := twoKeys ns1.

(** The median is taken in the order of the engine, which puts shorter keys
    first, while an extent is an interval of the byte order: with the keys "b" and
    "aa" the cut is "aa", the least of them, so the left half is left without a key.
    The right half holds the same keys and is cut at the same place, which is now
    its own start: the next left half owns no key at all. *)
Theorem split_can_leave_left_empty :
  Keys mTwo s1 = Ok [kB; kAA] ∧ bytes_lt kAA kB
  ∧ ∃ spec spec', maybeSplit 2 false true 3 2 mTwo s1 FirstRangeDescriptor = Some (spec, 5)
    ∧ Contains (sp_Left spec) kB = false ∧ Contains (sp_Left spec) kAA = false
    ∧ maybeSplit 2 false true 3 5 (twoKeys (rangePrefix 2)) (plain (rangePrefix 2) zeroTimestamp) (sp_Right spec)
      = Some (spec', 8)
    ∧ ∀ k, Contains (sp_Left spec') k = false.
Proof.
  split; [by vm_compute|]. split; [by vm_compute|].
  exists (proposedSplit FirstRangeDescriptor kAA 2), (proposedSplit (sp_Right (proposedSplit FirstRangeDescriptor kAA 2)) kAA 5).
  split; [by vm_compute|]. split; [by vm_compute|]. split; [by vm_compute|]. split; [by vm_compute|].
  intros k. apply not_true_iff_false. rewrite Contains_spec. cbn. intros [Hle Hlt]. apply bytes_le_not_lt in Hle. done.
Qed.

(** ** Witnesses *)

Lemma split_partitions_witness :
  let spec := proposedSplit FirstRangeDescriptor kB 2 in
  Contains FirstRangeDescriptor kAA = xorb (Contains (sp_Left spec) kAA) (Contains (sp_Right spec) kAA)
  ∧ Contains (sp_Left spec) kAA && Contains (sp_Right spec) kAA = false
  ∧ splitApplies spec FirstRangeDescriptor = true ∧ splitApplies spec (sp_Left spec) = false.
Proof. by apply (split_partitions FirstRangeDescriptor kB 2 kAA). Defined.

Lemma tiling_two : tiling (addReplica [sp_Left (proposedSplit FirstRangeDescriptor kB 2)] (sp_Right (proposedSplit FirstRangeDescriptor kB 2))).
Proof. by apply (tiling_split [] FirstRangeDescriptor [] kB 2 tiling_first). Qed.

Lemma keyspace_tiled_witness :
  ∃ d, replicaFor (addReplica [sp_Left (proposedSplit FirstRangeDescriptor kB 2)] (sp_Right (proposedSplit FirstRangeDescriptor kB 2))) kAA
       = Some d ∧ Contains d kAA = true.
Proof. destruct (keyspace_tiled _ kAA tiling_two) as (d & H1 & H2 & _). exact (ex_intro _ d (conj H1 H2)). Defined.

Lemma minted_ids_unique_witness : 2 = 2 ∧ 4%nat = 4%nat.
Proof. by apply (minted_ids_unique 3 2 2 4 4). Defined.

Lemma mTwo_keys : keys_ok ns1 mTwo.
Proof.
  intros k [v Hv] _. unfold mTwo, twoKeys in Hv. rewrite !lookup_insert_Some, lookup_empty in Hv.
  destruct Hv as [[<- _]|[_ [[<- _]|[_ Hv]]]]; [..|done].
  - exists (KData kB ts5). split; [split; by vm_compute|done].
  - exists (KData kAA ts5). split; [split; by vm_compute|done].
Qed.

Lemma split_moves_records_witness :
  ∃ recs l r, Records mTwo s1 = Ok recs
    ∧ divide (proposedSplit FirstRangeDescriptor kB 2) s1 recs = Some (l, r).
Proof.
  destruct (split_moves_records ns1 zeroTimestamp mTwo ∅ (proposedSplit FirstRangeDescriptor kB 2) mTwo_keys)
    as (recs & l & r & H1 & H2 & _).
  - intros rk Hrk [v Hv]. unfold mTwo, twoKeys in Hv. rewrite !lookup_insert_Some, lookup_empty in Hv.
    destruct Hv as [[He _]|[_ [[He _]|[_ Hv]]]]; [| |done].
    + change (EncodeKey ns1 kB ts5) with (enc ns1 (KData kB ts5)) in He. apply enc_inj in He as <-; [by vm_compute| |done].
      split; by vm_compute.
    + change (EncodeKey ns1 kAA ts5) with (enc ns1 (KData kAA ts5)) in He. apply enc_inj in He as <-; [by vm_compute| |done].
      split; by vm_compute.
  - exact (ex_intro _ recs (ex_intro _ l (ex_intro _ r (conj H1 H2)))).
Defined.
