(* ===== verification/StoreNode.v ===== *)
(** * A machine and its replicas (store/node.go, store/machine.go, store/txnapply.go, store/engine.go)

    The driver: one engine, one crash boundary, a replica of every range that
    lives on the machine, and for each replica the loop that persists, sends,
    applies and acknowledges what its raft node hands over.  It composes the
    models of the raft node, the reference engine, the MVCC store, the hybrid
    clock and the codecs.

    What the driver does to the outside (the transport, the scheduler, the
    history, the ledger, the coordinator's callback) is the list [m_out] of
    outputs, in the order of the calls.  What it reads from the outside is part
    of the configuration: the physical clock and the election jitter are
    functions of how often they were asked.  A Go panic is [None]. *)

From Stdlib Require Import Lia ZArith.
From stdpp Require Import base tactics numbers option gmap list.
From S2P Require Import Prelude Bytes ConfChange RaftTypes Raft Hlc Engine KvEncoding EngineIface KvStore KvTxn StoreCodec StoreReplay StoreRange.

(** ** The engine with the sequence its applies returned (store/engine.go) *)

Record tracked := MkTracked { t_Engine : DB; t_visible : Z }.

Definition tracked_Apply (b : Batch) (sync : bool) (t : tracked) : option (result EngineError Z * tracked) :=
  '(res, db) ← Apply (Some b) sync (t_Engine t);
  Some (res, MkTracked db (match res with Ok seq => seq | Err _ => t_visible t end)).

Definition tracked_Crash (t : tracked) : tracked :=
  let db := Crash (t_Engine t) in MkTracked db (DurableSeq db).

Definition visibleSeq (t : tracked) : Z := t_visible t.

(** ** Incarnations (sim/epoch.go) *)

Record EpochGuard := MkEpochGuard { g_current : Z; g_dropped : Z }.
Definition NewEpochGuard : EpochGuard := MkEpochGuard 1 0.
Definition Epoch_Advance (g : EpochGuard) : EpochGuard := MkEpochGuard (add64 (g_current g) 1) (g_dropped g).
Definition Epoch_Accept (e : Z) (g : EpochGuard) : bool * EpochGuard :=
  if (e =? g_current g) && negb (e =? 0) then (true, g)
  else (false, MkEpochGuard (g_current g) (g_dropped g + 1)).

(** ** Configuration *)

Record NodeConfig := MkNodeConfig {
  nc_ID : NodeID;
  nc_Peers : list NodeID;
  nc_Ordinal : Z;
  nc_Election : Z;
  nc_Heartbeat : Z;
  nc_SyncLatency : Z;
  nc_Transport : bool;                    (* supplied? *)
  nc_Ledger : bool;                       (* supplied? *)
  nc_Unobserved : bool;
  nc_OnTxnApplied : bool;                 (* supplied? *)
  nc_Learners : list NodeID;
  nc_PromotionLag : Index;
  nc_Nodes : Z;
  nc_SplitThreshold : Z;
  nc_GCRetention : Z;
  nc_GCUnthrottled : bool;
  nc_PreVote : bool;
  nc_ReadIndex : bool;
  nc_SnapshotThreshold : Index;
  nc_ElectionJitter : option (nat → Z);   (* the answer to the n-th call *)
  nc_Wall : nat → Z;                      (* the n-th reading of the physical clock *)
  nc_MaxOffset : Z;                       (* the bound the clock advertises *)
}.

Definition raftConfig (cfg : NodeConfig) : Config :=
  MkConfig (nc_ID cfg) (nc_Peers cfg) (nc_Election cfg) (nc_Heartbeat cfg) (nc_Learners cfg)
    (nc_PromotionLag cfg) (nc_PreVote cfg).

Inductive StoreError :=
| ErrNoTransport
| ErrNoLedger
| ErrUnobservedLedger
| ErrNoSyncLatency
| ErrRaft (e : RaftError)
| ErrKv (e : KvError)
| ErrClock (e : HlcError)
| ErrHasState
| ErrEmptyEngine.

Definition checkLedger (cfg : NodeConfig) : option StoreError :=
  if negb (nc_Ledger cfg) && negb (nc_Unobserved cfg) then Some ErrNoLedger
  else if nc_Ledger cfg && nc_Unobserved cfg then Some ErrUnobservedLedger
  else None.

(** ** Requests, results and outputs *)

Record Request := MkRequest {
  q_Client : Z;
  q_Seq : Z;
  q_Op : bytes;
  q_Key : bytes;
  q_Value : bytes;
  q_HistIdx : Z;
  q_AnyReplica : bool;
  q_ReadTS : Timestamp;
  q_Txn : option TxnCommand;
  q_Range : Z;
  q_Epoch : Z;
}.

Record TxnResult := MkTxnResult {
  x_Value : bytes;
  x_Found : bool;
  x_Locked : bool;
  x_LockPrimary : bytes;
  x_LockStartTS : Timestamp;
  x_LockDeadline : Timestamp;
  x_Decided : bool;
  x_Rollback : bool;
  x_Uncertain : bool;
  x_CommitTS : Timestamp;
  x_RestartAt : Timestamp;
  x_Refused : bool;
  x_Ceiling : Timestamp;
  x_Rejected : bool;
}.

#[global] Instance TxnResult_eta : Eta TxnResult := λ x,
  MkTxnResult (x_Value x) (x_Found x) (x_Locked x) (x_LockPrimary x) (x_LockStartTS x) (x_LockDeadline x)
    (x_Decided x) (x_Rollback x) (x_Uncertain x) (x_CommitTS x) (x_RestartAt x) (x_Refused x) (x_Ceiling x)
    (x_Rejected x).
#[global] Instance upd_x_Locked : Field x_Locked := ltac:(derive_field).
#[global] Instance upd_x_LockPrimary : Field x_LockPrimary := ltac:(derive_field).
#[global] Instance upd_x_LockStartTS : Field x_LockStartTS := ltac:(derive_field).
#[global] Instance upd_x_LockDeadline : Field x_LockDeadline := ltac:(derive_field).
#[global] Instance upd_x_Decided : Field x_Decided := ltac:(derive_field).
#[global] Instance upd_x_Rollback : Field x_Rollback := ltac:(derive_field).
#[global] Instance upd_x_Uncertain : Field x_Uncertain := ltac:(derive_field).
#[global] Instance upd_x_CommitTS : Field x_CommitTS := ltac:(derive_field).
#[global] Instance upd_x_RestartAt : Field x_RestartAt := ltac:(derive_field).
#[global] Instance upd_x_Refused : Field x_Refused := ltac:(derive_field).
#[global] Instance upd_x_Rejected : Field x_Rejected := ltac:(derive_field).

Definition noResult : TxnResult :=
  MkTxnResult [] false false [] zeroTimestamp zeroTimestamp false false false zeroTimestamp zeroTimestamp false
    zeroTimestamp false.

(** A read as the ledger is told of it. *)
Record ReadRecord := MkReadRecord {
  rr_Range : Z; rr_Node : Z; rr_Index : Index; rr_Key : bytes; rr_At : Timestamp; rr_IssuedAt : Z;
  rr_Value : bytes; rr_Found : bool; rr_Refused : bool; rr_When : Z; rr_OffLog : bool; rr_AppliedAt : Index;
}.

Inductive LedgerCall :=
| RecordSent (rng ordinal : Z) (m : Message) (at_ : Z)
| RecordReceived (rng ordinal : Z) (m : Message) (at_ : Z)
| RecordSnapshot (rng ordinal : Z) (index : Index) (term : Term) (digest : Z) (taken : bool) (at_ : Z)
| RecordApplied (rng ordinal : Z) (es : list Entry) (at_ : Z)
| RecordDurable (rng ordinal : Z) (hs : HardState) (snap : SnapshotMeta) (log : list Entry) (at_ : Z)
| RecordRangeBase (rng : Z) (data conf : bytes)
| RecordRead (r : ReadRecord)
| RecordWrite (rng ordinal : Z) (index : Index) (key : bytes) (at_ : Z)
| RecordTxnRead (rng ordinal : Z) (index : Index) (c : TxnCommand) (r : TxnResult) (at_ : Z).

Inductive Out :=
| OSend (from to : Z) (body : bytes)                  (* Transport.Send *)
| ODurable (when_ ordinal epoch seq : Z)              (* Scheduler.At, a sync completion *)
| OClient (when_ ordinal : Z) (req : Request)         (* Scheduler.At, a request again *)
| OEnd (histIdx at_ : Z) (ok : bool) (value : bytes)  (* History.End *)
| OTxnApplied (c : TxnCommand) (r : TxnResult) (at_ : Z)
| OLedger (call : LedgerCall).

(** ** Replicas *)

(** The numbers a replica reports about itself; nothing it does depends on one. *)
Inductive Counter :=
| crossChecks | adoptions | crossChecksDeclined | snapshotsTaken | snapshotsApplied | transfersAsked
| confProposed | confRefused | lagRefused | confRecoveries | confCrossChecks | splitsProposed | staleSplits
| noopsApplied | noopReachedArm | noopAnswered | readsServed | followerReads | readsOutOfExtent | outOfExtent
| writesRefused | readsRefused | gcProposed | gcApplied | versionsCollected | writeConflicts | prewriteBlocked
| txnCommitted | txnRolledBack | txnRaceLost | txnRefused | resolveWaits | resolveAlreadyDecided
| resolveDeclaredDead | resolveNoLock | envelopeRefusals.
#[global] Instance Counter_eq_dec : EqDecision Counter.
Proof. solve_decision. Defined.

Record pendingWrite := MkPendingWrite {
  w_seq : Z;
  w_mark : PersistMark;
  w_hs : option HardState;
  w_entries : list Entry;
  w_snapMark : PersistMark;
  w_snap : option SnapshotMeta;
  w_snapVersions : list KvRecord;
  w_snapMarkTS : Timestamp;
  w_clearAllLog : bool;
  w_clearBelow : Index;
  w_clearAbove : Index;
}.

Record pendingRead := MkPendingRead {
  pr_ctx : bytes;
  pr_histIdx : Z;
  pr_key : bytes;
  pr_issuedAt : Z;
  pr_anyReplica : bool;
  pr_index : Index;
  pr_viaFollower : bool;
}.

Record clientOp := MkClientOp {
  co_id : ProposalID;
  co_histIdx : Z;
  co_value : bytes;
  co_op : bytes;
  co_key : bytes;
  co_readTS : Timestamp;
}.

Record Replica := MkReplica {
  rep_rng : Z;
  rep_desc : RangeDescriptor;
  rep_raft : Raft;
  rep_pending : list pendingWrite;
  rep_durHS : HardState;
  rep_durLog : list Entry;
  rep_durSnap : SnapshotMeta;
  rep_durRecorded : bool;
  rep_ackedSeq : Z;
  rep_writtenLast : Index;
  rep_mvcc : Store;
  rep_hlc : Clock;
  rep_confErr : option RaftError;
  rep_splitPending : bool;
  rep_gcPending : bool;
  rep_propSeq : Z;
  rep_inflight : list clientOp;
  rep_applied : Index;
  rep_readSeq : Z;
  rep_pendingReads : list pendingRead;
  rep_down : bool;
  rep_stats : Counter → Z;
}.

#[global] Instance Replica_eta : Eta Replica := λ n,
  MkReplica (rep_rng n) (rep_desc n) (rep_raft n) (rep_pending n) (rep_durHS n) (rep_durLog n) (rep_durSnap n)
    (rep_durRecorded n) (rep_ackedSeq n) (rep_writtenLast n) (rep_mvcc n) (rep_hlc n) (rep_confErr n)
    (rep_splitPending n) (rep_gcPending n) (rep_propSeq n) (rep_inflight n) (rep_applied n) (rep_readSeq n)
    (rep_pendingReads n) (rep_down n) (rep_stats n).
#[global] Instance upd_rep_desc : Field rep_desc := ltac:(derive_field).
#[global] Instance upd_rep_raft : Field rep_raft := ltac:(derive_field).
#[global] Instance upd_rep_pending : Field rep_pending := ltac:(derive_field).
#[global] Instance upd_rep_durHS : Field rep_durHS := ltac:(derive_field).
#[global] Instance upd_rep_durLog : Field rep_durLog := ltac:(derive_field).
#[global] Instance upd_rep_durSnap : Field rep_durSnap := ltac:(derive_field).
#[global] Instance upd_rep_durRecorded : Field rep_durRecorded := ltac:(derive_field).
#[global] Instance upd_rep_ackedSeq : Field rep_ackedSeq := ltac:(derive_field).
#[global] Instance upd_rep_writtenLast : Field rep_writtenLast := ltac:(derive_field).
#[global] Instance upd_rep_mvcc : Field rep_mvcc := ltac:(derive_field).
#[global] Instance upd_rep_hlc : Field rep_hlc := ltac:(derive_field).
#[global] Instance upd_rep_confErr : Field rep_confErr := ltac:(derive_field).
#[global] Instance upd_rep_splitPending : Field rep_splitPending := ltac:(derive_field).
#[global] Instance upd_rep_gcPending : Field rep_gcPending := ltac:(derive_field).
#[global] Instance upd_rep_propSeq : Field rep_propSeq := ltac:(derive_field).
#[global] Instance upd_rep_inflight : Field rep_inflight := ltac:(derive_field).
#[global] Instance upd_rep_applied : Field rep_applied := ltac:(derive_field).
#[global] Instance upd_rep_readSeq : Field rep_readSeq := ltac:(derive_field).
#[global] Instance upd_rep_pendingReads : Field rep_pendingReads := ltac:(derive_field).
#[global] Instance upd_rep_down : Field rep_down := ltac:(derive_field).
#[global] Instance upd_rep_stats : Field rep_stats := ltac:(derive_field).

(** The machine, with what it has read from and done to the outside. *)
Record Node := MkNode {
  m_db : tracked;
  m_epoch : EpochGuard;
  m_replicas : list Replica;
  m_nextRange : Z;
  m_down : bool;
  m_staleEpochs : Z;
  m_splits : Z;
  m_reads : nat;       (* readings taken of the physical clock *)
  m_draws : nat;       (* calls of the election jitter *)
  m_out : list Out;
}.

#[global] Instance Node_eta : Eta Node := λ m,
  MkNode (m_db m) (m_epoch m) (m_replicas m) (m_nextRange m) (m_down m) (m_staleEpochs m) (m_splits m) (m_reads m)
    (m_draws m) (m_out m).
#[global] Instance upd_m_db : Field m_db := ltac:(derive_field).
#[global] Instance upd_m_epoch : Field m_epoch := ltac:(derive_field).
#[global] Instance upd_m_replicas : Field m_replicas := ltac:(derive_field).
#[global] Instance upd_m_nextRange : Field m_nextRange := ltac:(derive_field).
#[global] Instance upd_m_down : Field m_down := ltac:(derive_field).
#[global] Instance upd_m_staleEpochs : Field m_staleEpochs := ltac:(derive_field).
#[global] Instance upd_m_splits : Field m_splits := ltac:(derive_field).
#[global] Instance upd_m_reads : Field m_reads := ltac:(derive_field).
#[global] Instance upd_m_draws : Field m_draws := ltac:(derive_field).
#[global] Instance upd_m_out : Field m_out := ltac:(derive_field).

(** ** The driver's effects

    A method of a replica changes the replica and the machine it is on, and may
    panic. *)

Definition Drv (A : Type) : Type := Replica → Node → option (A * Replica * Node).

#[global] Instance Drv_ret : MRet Drv := λ A a n m, Some (a, n, m).
#[global] Instance Drv_bind : MBind Drv := λ A B f x n m,
  match x n m with Some (a, n, m) => f a n m | None => None end.

Definition panic {A} : Drv A := λ _ _, None.
Definition theReplica : Drv Replica := λ n m, Some (n, n, m).
Definition theNode : Drv Node := λ n m, Some (m, n, m).
Definition modR (f : Replica → Replica) : Drv () := λ n m, Some ((), f n, m).
Definition modM (f : Node → Node) : Drv () := λ n m, Some ((), n, f m).
Definition emit (o : Out) : Drv () := modM (λ m, m <| m_out := m_out m ++ [o] |>).
Definition when (c : bool) (x : Drv ()) : Drv () := if c then x else mret ().
Definition tally (c : Counter) (k : Z) : Drv () :=
  modR (λ n, n <| rep_stats := λ c', if decide (c' = c) then rep_stats n c' + k else rep_stats n c' |>).
Definition bump (c : Counter) : Drv () := tally c 1.

(** A loop over a list. *)
Fixpoint forEach {A} (xs : list A) (body : A → Drv ()) : Drv () :=
  match xs with
  | [] => mret ()
  | x :: xs => _ ← body x; forEach xs body
  end.

(** A call of the raft node: one that returns, one that may panic, one that may
    refuse. *)
Definition onRaft (f : Raft → Raft) : Drv () := modR (λ n, n <| rep_raft := f (rep_raft n) |>).
Definition onRaftP (f : Raft → option Raft) : Drv () := λ n m,
  match f (rep_raft n) with Some r => Some ((), n <| rep_raft := r |>, m) | None => None end.
Definition onRaftE (f : Raft → outcome) : Drv (option RaftError) := λ n m,
  match f (rep_raft n) with Some (err, r) => Some (err, n <| rep_raft := r |>, m) | None => None end.

Section Driver.
Context (cfg : NodeConfig).

(** ** Clocks *)

Definition physNow : Drv Z := λ n m, Some (nc_Wall cfg (m_reads m), n, m <| m_reads := S (m_reads m) |>).

Definition hlcNow : Drv Timestamp :=
  w ← physNow;
  n ← theReplica;
  let '(t, c) := Now w (rep_hlc n) in
  _ ← modR (λ n, n <| rep_hlc := c |>);
  mret t.

(** [hlc.Update], counting a refusal. *)
Definition hlcUpdate (ts : Timestamp) : Drv () :=
  w ← physNow;
  n ← theReplica;
  let '(err, c) := Update w (nc_MaxOffset cfg) ts (rep_hlc n) in
  _ ← modR (λ n, n <| rep_hlc := c |>);
  when (bool_decide (is_Some err)) (bump envelopeRefusals).

Definition seedClockAtLeast (ts : Timestamp) : Drv () :=
  if negb (Timestamp_IsSet ts) then mret () else hlcUpdate ts.

(** ** Writing to the engine *)

Definition apply (b : Batch) (sync : bool) : Drv (result EngineError Z) := λ n m,
  match tracked_Apply b sync (m_db m) with
  | Some (res, db) => Some (res, n, m <| m_db := db |>)
  | None => None
  end.

(** [flushApply]; the batch it leaves is returned. *)
Definition flushApply (b : Batch) : Drv Batch :=
  if Batch_Empty b then mret b
  else
    res ← apply b false;
    match res with Ok _ => mret [] | Err _ => panic end.

(** The schedule of a sync completion. *)
Definition scheduleDurable (at_ seq : Z) : Drv () :=
  m ← theNode;
  emit (ODurable (i64 (at_ + nc_SyncLatency cfg)) (nc_Ordinal cfg) (g_current (m_epoch m)) seq).

(** A method of the replica's store, over the machine's engine. *)
Definition onStore {A} (f : DB → Store → A * Store) : Drv A := λ n m,
  let '(a, s) := f (t_Engine (m_db m)) (rep_mvcc n) in Some (a, n <| rep_mvcc := s |>, m).

Definition versions_ : Drv (list KvRecord) :=
  vs ← onStore (λ db s, (Records db s, s));
  match vs with Ok vs => mret vs | Err _ => panic end.

Definition ingest (rs : list KvRecord) (mark : Timestamp) : Drv () :=
  b ← onStore (λ _, IngestRecordsInto rs mark NewBatch);
  res ← apply b false;
  n ← theReplica;
  match res with
  | Err _ => panic
  | Ok _ => seedClockAtLeast (maxVersionTimestamp (s_ns (rep_mvcc n)) rs)
  end.

(** ** Transaction steps (store/txnapply.go) *)

Definition declareDead (b : Batch) (primary : bytes) (startTS : Timestamp) : Drv Batch :=
  '(res, b) ← onStore (λ db s, (PutTxnInto db primary (MkTxnRecord TxnRolledBack startTS zeroTimestamp) b s, s));
  _ ← bump (match res with
            | Ok _ => txnRolledBack
            | Err (ErrTxnAlreadyDecided _) => txnRaceLost
            | Err _ => txnRefused
            end);
  mret b.

(** The effect the driver shares with the replay. *)
Definition applyShared (b : Batch) (c : TxnCommand) : Drv Batch :=
  n ← theReplica;
  onStore (λ db s, applyTxnTo db c (rep_desc n) b s).

Definition applyTxn (b : Batch) (c : TxnCommand) : Drv (TxnResult * Batch) :=
  let rejected := noResult <| x_Rejected := true |> in
  match tc_Op c with
  | OpPrewrite =>
      '(res, b) ← onStore (λ db s, PrewriteInto db (tc_Key c) (MkLock (tc_Primary c) (tc_StartTS c) (tc_Deadline c))
                                     (tc_Value c) b s);
      match res with
      | Ok _ => mret (noResult, b)
      | Err (ErrWriteConflict _ _ _) => _ ← bump writeConflicts; mret (rejected, b)
      | Err (ErrKeyIsLocked _ _) => _ ← bump prewriteBlocked; mret (rejected, b)
      | Err _ => _ ← bump txnRefused; mret (rejected, b)
      end
  | OpPutTxnRecord =>
      '(res, b) ← onStore (λ db s,
        (PutTxnInto db (tc_Key c) (MkTxnRecord (tc_Status c) (tc_StartTS c) (tc_CommitTS c)) b s, s));
      match res with
      | Ok _ => _ ← bump (if bool_decide (tc_Status c = TxnCommitted) then txnCommitted else txnRolledBack);
                mret (noResult, b)
      | Err (ErrTxnAlreadyDecided _) => _ ← bump txnRaceLost; mret (rejected, b)
      | Err _ => _ ← bump txnRefused; mret (rejected, b)
      end
  | OpResolveStatus =>
      rec ← onStore (λ db s, (Store_Txn db (tc_Key c) (tc_StartTS c) s, s));
      '(res, b) ← match rec with
        | Err _ => _ ← bump txnRefused; mret (noResult, b)
        | Ok (Some rec) =>
            _ ← bump resolveAlreadyDecided;
            mret (noResult <| x_Decided := true |> <| x_Rollback := negb (bool_decide (r_Status rec = TxnCommitted)) |>
                    <| x_CommitTS := r_CommitTS rec |>, b)
        | Ok None =>
            if LessEq (tc_ExpireAt c) (tc_Deadline c) then _ ← bump resolveWaits; mret (noResult, b)
            else
              b ← declareDead b (tc_Key c) (tc_StartTS c);
              _ ← bump resolveDeclaredDead;
              mret (noResult <| x_Decided := true |> <| x_Rollback := true |>, b)
        end;
      b ← applyShared b c;
      mret (res, b)
  | OpApplyResolution =>
      n ← theReplica;
      let before := s_rollForwards (rep_mvcc n) + s_rollBacks (rep_mvcc n) in
      b ← applyShared b c;
      n ← theReplica;
      _ ← when (s_rollForwards (rep_mvcc n) + s_rollBacks (rep_mvcc n) =? before) (bump resolveNoLock);
      mret (noResult, b)
  | _ => b ← applyShared b c; mret (noResult, b)
  end.

(** ** Answering clients *)

Definition opTxn : bytes := [Byte.x74; Byte.x78; Byte.x6e].

(** The loops of [answerAt], [answerTxn] and [rerouteAt] over the operations in
    flight, which keep the ones of other proposals. *)
Definition mineOp (e : Entry) (c : clientOp) : bool := bool_decide (co_id c = e_ID e).

Definition answerOne (e : Entry) (op key : bytes) (readTS : Timestamp) (at_ : Z) (c : clientOp) : Drv () :=
  let finish (val : bytes) : Drv () :=
    _ ← when (0 <=? co_histIdx c) (emit (OEnd (co_histIdx c) at_ true val));
    when (bool_decide (op = opPut))
      (n ← theReplica; emit (OLedger (RecordWrite (rep_rng n) (nc_Ordinal cfg) (e_Index e) key at_))) in
  if bool_decide (op = opGet) then
    res ← onStore (λ db, ReadAt db key readTS);
    n ← theReplica;
    let v := match res with Ok (Some v) => v | _ => [] end in
    _ ← emit (OLedger (RecordRead (MkReadRecord (rep_rng n) (nc_Ordinal cfg) (e_Index e) key readTS 0 v
                         (match res with Ok (Some _) => true | _ => false end)
                         (match res with Err _ => true | _ => false end) at_ false 0)));
    match res with
    | Err _ =>
        _ ← bump readsRefused;
        when (0 <=? co_histIdx c) (emit (OEnd (co_histIdx c) at_ false []))
    | Ok _ => finish v
    end
  else finish [].

(** The walk keeps the operations of other entries; [n.inflight] itself is
    replaced after it. *)
Definition answerAt (e : Entry) (op key : bytes) (readTS : Timestamp) (at_ : Z) : Drv () :=
  if pid_Zero (e_ID e) then mret ()
  else
    n ← theReplica;
    _ ← forEach (filter (λ c, mineOp e c = true) (rep_inflight n)) (answerOne e op key readTS at_);
    modR (λ n, n <| rep_inflight := filter (λ c, mineOp e c = false) (rep_inflight n) |>).

Definition readTxn (c : TxnCommand) (e : Entry) (at_ : Z) : Drv TxnResult :=
  let ceiling := if Timestamp_IsSet (tc_MaxTS c) then tc_MaxTS c
                 else UncertaintyCeiling (tc_ReadTS c) (nc_MaxOffset cfg) in
  r ← onStore (λ db, GetTxn db (tc_Key c) (tc_ReadTS c) ceiling);
  let res := MkTxnResult (match r with Ok (Some v) => v | _ => [] end) (match r with Ok (Some _) => true | _ => false end)
               false [] zeroTimestamp zeroTimestamp false false false zeroTimestamp zeroTimestamp false ceiling false in
  res ← match r with
    | Err (LockedError _ l) =>
        mret (res <| x_Locked := true |> <| x_LockPrimary := l_Primary l |> <| x_LockStartTS := l_StartTS l |>
                <| x_LockDeadline := l_Deadline l |>)
    | Err (UncertaintyError _ _ commit) =>
        mret (res <| x_Uncertain := true |> <| x_CommitTS := commit |> <| x_RestartAt := RestartAt commit |>)
    | Err _ => _ ← bump readsRefused; mret (res <| x_Refused := true |>)
    | Ok _ => mret res
    end;
  n ← theReplica;
  _ ← emit (OLedger (RecordTxnRead (rep_rng n) (nc_Ordinal cfg) (e_Index e) c res at_));
  mret res.

Definition answerTxn (e : Entry) (c : TxnCommand) (res : TxnResult) (at_ : Z) : Drv () :=
  if pid_Zero (e_ID e) || negb (nc_OnTxnApplied cfg) then mret ()
  else
    n ← theReplica;
    let found := existsb (mineOp e) (rep_inflight n) in
    _ ← modR (λ n, n <| rep_inflight := filter (λ c, mineOp e c = false) (rep_inflight n) |>);
    if negb found then mret ()
    else
      res ← (if bool_decide (tc_Op c = OpTxnGet) then readTxn c e at_ else mret res);
      emit (OTxnApplied c res at_).

Definition staleRetryDelay : Z := 10000000.

Definition rerouteAt (e : Entry) (op key value : bytes) (at_ : Z) : Drv () :=
  _ ← bump outOfExtent;
  if pid_Zero (e_ID e) then mret ()
  else
    n ← theReplica;
    _ ← forEach (filter (λ c, mineOp e c = true) (rep_inflight n)) (λ c,
          emit (OClient (i64 (at_ + staleRetryDelay)) (nc_Ordinal cfg)
                  (MkRequest 0 0 op key value (co_histIdx c) false (co_readTS c) None 0 0)));
    modR (λ n, n <| rep_inflight := filter (λ c, mineOp e c = false) (rep_inflight n) |>).

Definition rerouteReadAt (q : pendingRead) (at_ : Z) : Drv () :=
  _ ← bump readsOutOfExtent;
  emit (OClient (i64 (at_ + staleRetryDelay)) (nc_Ordinal cfg)
          (MkRequest 0 0 opGet (pr_key q) [] (pr_histIdx q) (pr_anyReplica q) zeroTimestamp None 0 0)).

(** ** Birth of replicas *)

Definition jitter : Drv () :=
  match nc_ElectionJitter cfg with
  | None => mret ()
  | Some f =>
      m ← theNode;
      _ ← modM (λ m, m <| m_draws := S (m_draws m) |>);
      onRaft (SetElectionTimeout (f (m_draws m)))
  end.

(** A replica before its raft node, its store and its clock exist. *)
Definition bareReplica (d : RangeDescriptor) (r : Raft) (s : Store) (h : Clock) : Replica :=
  MkReplica (d_ID d) (Clone d) r [] (MkHardState 0 0) [] (MkSnapshotMeta 0 0 (MkConfiguration [] [])) false 0 0 s h
    None false false 0 [] 0 0 [] false (λ _, 0).

(** [newReplicaFor], with the [newReplica] it starts from: the election timeout
    is drawn before the store and the clock are made. *)
Definition newReplicaFor (d : RangeDescriptor) (m : Node) : result StoreError Replica * Node :=
  if negb (nc_Transport cfg) then (Err ErrNoTransport, m)
  else match checkLedger cfg with
  | Some e => (Err e, m)
  | None =>
      if nc_SyncLatency cfg <=? 0 then (Err ErrNoSyncLatency, m)
      else match Raft.New (raftConfig cfg) with
      | Err e => (Err (ErrRaft e), m)
      | Ok r =>
          let '(r, m) := match nc_ElectionJitter cfg with
                         | None => (r, m)
                         | Some f => (SetElectionTimeout (f (m_draws m)) r, m <| m_draws := S (m_draws m) |>)
                         end in
          match NewStore true (rangePrefix (d_ID d)) with
          | Err e => (Err (ErrKv e), m)
          | Ok s =>
              match Hlc.New true (u32 (nc_Ordinal cfg)) with
              | Err e => (Err (ErrClock e), m)
              | Ok h => (Ok (bareReplica d r s h), m)
              end
          end
      end
  end.

(** The range a replica serves never changes, so looking one up by range is
    looking it up by identity. *)
Definition hosts (m : Node) (id : Z) : bool := existsb (λ r, rep_rng r =? id) (m_replicas m).

Fixpoint insertReplica (r : Replica) (rev_rs : list Replica) : list Replica :=
  match rev_rs with
  | [] => [r]
  | x :: rs => if rep_rng x >? rep_rng r then x :: insertReplica r rs else r :: x :: rs
  end.
Definition Node_addReplica (r : Replica) (m : Node) : Node :=
  m <| m_replicas := rev (insertReplica r (rev (m_replicas m))) |>.

Definition adoptSnapshot (meta : SnapshotMeta) (vs : list KvRecord) (mark : Timestamp) : Drv () :=
  match Restore (raftConfig cfg) (MkHardState 0 0) meta [] with
  | Err _ => panic
  | Ok r =>
      _ ← modR (λ n, n <| rep_raft := r |>);
      _ ← ingest vs mark;
      _ ← modR (λ n, (if sm_Index meta >? rep_applied n then n <| rep_applied := sm_Index meta |> else n)
                     <| rep_durSnap := meta |>);
      jitter
  end.

(** Run a method of another replica. *)
Definition onReplica {A} (r : Replica) (x : Drv A) : Drv (A * Replica) := λ n m,
  match x r m with Some (a, r, m) => Some ((a, r), n, m) | None => None end.

Definition applySplit (spec : SplitSpec) (index : Index) (at_ : Z) : Drv () :=
  left ← theReplica;
  if negb (splitApplies spec (rep_desc left)) then bump staleSplits
  else
    vs ← versions_;
    match divide spec (rep_mvcc left) vs with
    | None => panic
    | Some (leftKept, rightVs) =>
        let mark := GCMark (rep_mvcc left) in
        _ ← ingest leftKept mark;
        _ ← modR (λ n, n <| rep_desc := Clone (sp_Left spec) |>);
        m ← theNode;
        if hosts m (d_ID (sp_Right spec)) then mret ()
        else
          match newReplicaFor (sp_Right spec) m with
          | (Err _, _) => panic
          | (Ok r, m) =>
              _ ← modM (λ _, m);
              '(_, r) ← onReplica r (ingest rightVs mark);
              left ← theReplica;
              match ConfigurationAt index (rep_raft left) with
              | Err _ => panic
              | Ok conf =>
                  let snapMeta := MkSnapshotMeta 0 0 conf in
                  let data := encodeMachine (sp_Right spec) mark rightVs in
                  let b := Batch_Set (keyDescOf (d_ID (sp_Right spec))) (encodeDesc (sp_Right spec)) NewBatch in
                  let b := Batch_Set (keySnapshotOf (d_ID (sp_Right spec))) (encodeSnapshot snapMeta data) b in
                  res ← apply b true;
                  r ← match res with
                      | Ok seq => _ ← scheduleDurable at_ seq; mret (r <| rep_durSnap := snapMeta |>)
                      | Err _ => mret r
                      end;
                  _ ← emit (OLedger (RecordRangeBase (d_ID (sp_Right spec)) data (EncodeConfiguration conf)));
                  '(_, r) ← onReplica r (adoptSnapshot snapMeta rightVs mark);
                  _ ← modM (Node_addReplica r);
                  modM (λ m, m <| m_splits := m_splits m + 1 |>)
              end
          end
    end.

(** ** Applying committed entries *)

(** The end of the loop's body: answer the client, or send it elsewhere. *)
Definition finishEntry (e : Entry) (noop owned : bool) (op k v : bytes) (cmdTS : Timestamp) (at_ : Z) (mb : Batch)
    : Drv Batch :=
  if owned then
    mb ← (if bool_decide (op = opGet) then flushApply mb else mret mb);
    n ← theReplica;
    let before := length (rep_inflight n) in
    _ ← answerAt e op k cmdTS at_;
    n ← theReplica;
    _ ← when (noop && negb (length (rep_inflight n) =? before)%nat) (bump noopAnswered);
    mret mb
  else _ ← rerouteAt e op k v at_; mret mb.

Definition applyEntry (at_ : Z) (e : Entry) (mb : Batch) : Drv Batch :=
  let noop := (length (e_Data e) =? 0)%nat && pid_Zero (e_ID e) in
  _ ← when noop (bump noopsApplied);
  if isTxnCommand (e_Data e) then
    _ ← when noop (bump noopReachedArm);
    match decodeTxnCommand (e_Data e) with
    | None => finishEntry e noop true [] [] [] zeroTimestamp at_ mb
    | Some c =>
        n ← theReplica;
        let owned := Contains (rep_desc n) (tc_Key c) in
        mb ← (if owned then
                mb ← flushApply mb;
                '(res, mb) ← applyTxn mb c;
                mb ← flushApply mb;
                _ ← answerTxn e c res at_;
                mret mb
              else mret mb);
        finishEntry e noop owned opTxn (tc_Key c) [] zeroTimestamp at_ mb
    end
  else if isSplitCommand (e_Data e) then
    _ ← when noop (bump noopReachedArm);
    mb ← flushApply mb;
    _ ← match decodeSplitCommand (e_Data e) with
        | Some spec =>
            _ ← applySplit spec (e_Index e) at_;
            modR (λ n, n <| rep_splitPending := false |>)
        | None => mret ()
        end;
    finishEntry e noop true [] [] [] zeroTimestamp at_ mb
  else if negb (length (e_Data e) =? 0)%nat then
    _ ← when noop (bump noopReachedArm);
    let '(op, k, v, cmdTS) := decodeCmd (e_Data e) in
    if bool_decide (op = opGC) then
      mb ← flushApply mb;
      _ ← modR (λ n, n <| rep_gcPending := false |>);
      '(res, b) ← onStore (λ db, AdvanceGCInto db cmdTS NewBatch);
      _ ← match res with
          | Ok removed =>
              _ ← flushApply b;
              _ ← bump gcApplied;
              tally versionsCollected removed
          | Err _ => mret ()
          end;
      _ ← answerAt e [] [] cmdTS at_;
      mret mb
    else
      n ← theReplica;
      let owned := Contains (rep_desc n) k in
      if owned && bool_decide (op = opPut) then
        '(res, b) ← onStore (λ _, PutInto k cmdTS v mb);
        match res with
        | Ok _ => finishEntry e noop true op k v cmdTS at_ b
        | Err _ => _ ← bump writesRefused; finishEntry e noop false op k v cmdTS at_ b
        end
      else finishEntry e noop owned op k v cmdTS at_ mb
  else finishEntry e noop true [] [] [] zeroTimestamp at_ mb.

(** The loop over a Ready's committed entries, sharing one batch. *)
Fixpoint applyEntries (at_ : Z) (es : list Entry) (mb : Batch) : Drv Batch :=
  match es with
  | [] => mret mb
  | e :: es => mb ← applyEntry at_ e mb; applyEntries at_ es mb
  end.

(** ** Proposals the driver makes itself *)

(** [n.propSeq++] and the identifier made of it. *)
Definition nextProposal : Drv ProposalID :=
  _ ← modR (λ n, n <| rep_propSeq := add64 (rep_propSeq n) 1 |>);
  n ← theReplica;
  mret (MkProposalID (nc_ID cfg) (rep_propSeq n)).

Definition Replica_IsLeader (n : Replica) : bool := negb (rep_down n) && bool_decide (r_role (rep_raft n) = RoleLeader).

Definition maybeGC : Drv () :=
  n ← theReplica;
  if (nc_GCRetention cfg =? 0) || rep_gcPending n || negb (Replica_IsLeader n) then mret ()
  else
    now ← hlcNow;
    let to := MkTimestamp (i64 (Wall now - nc_GCRetention cfg)) 0 in
    if negb (Timestamp_IsSet to) then mret ()
    else if negb (nc_GCUnthrottled cfg)
            && negb (i64 (Wall (GCMark (rep_mvcc n)) + Z.quot (nc_GCRetention cfg) 4) <? Wall to) then mret ()
    else
      id ← nextProposal;
      err ← onRaftE (Propose id (encodeCmd opGC [] [] to));
      match err with
      | None => _ ← bump gcProposed; modR (λ n, n <| rep_gcPending := true |>)
      | Some _ => mret ()
      end.

(** [maybeSplit], whose choice is [StoreRange.maybeSplit]. *)
Definition Replica_maybeSplit : Drv () :=
  n ← theReplica;
  m ← theNode;
  match maybeSplit (nc_SplitThreshold cfg) (rep_splitPending n) (Replica_IsLeader n) (nc_Nodes cfg) (m_nextRange m)
          (t_Engine (m_db m)) (rep_mvcc n) (rep_desc n) with
  | None => mret ()
  | Some (spec, next) =>
      _ ← modM (λ m, m <| m_nextRange := next |>);
      id ← nextProposal;
      err ← onRaftE (Propose id (encodeSplitCommand spec));
      match err with
      | Some _ => mret ()
      | None => _ ← modR (λ n, n <| rep_splitPending := true |>); bump splitsProposed
      end
  end.

(** FNV-1a. *)
Definition digest (b : bytes) : Z :=
  foldl (λ h c, u64 (Z.lxor h (Z.of_N (Byte.to_N c)) * 1099511628211)) 14695981039346656037 b.

(** The write that records a snapshot and cuts the log below it. *)
Definition snapshotBatch (rng : Z) (meta : SnapshotMeta) (data : bytes) : Batch :=
  let b := Batch_Set (keySnapshotOf rng) (encodeSnapshot meta data) NewBatch in
  Batch_DeleteRange (Some (logPrefixOf rng)) (Some (logKeyOf rng (add64 (sm_Index meta) 1))) b.

Definition maybeSnapshot (at_ : Z) : Drv () :=
  n ← theReplica;
  let applied := r_appliedIdx (rep_raft n) in
  if nc_SnapshotThreshold cfg =? 0 then mret ()
  else if applied <? add64 (r_snapIndex (rep_raft n)) (nc_SnapshotThreshold cfg) then mret ()
  else
    let '(res, r) := Compact applied (rep_raft n) in
    _ ← modR (λ n, n <| rep_raft := r |>);
    match res with
    | Err _ => mret ()
    | Ok (term, conf) =>
        let meta := MkSnapshotMeta applied term conf in
        vs ← versions_;
        let data := encodeMachine (rep_desc n) (GCMark (rep_mvcc n)) vs in
        res ← apply (snapshotBatch (rep_rng n) meta data) true;
        match res with
        | Err _ => mret ()
        | Ok seq =>
            _ ← modR (λ n, n <| rep_pending := rep_pending n ++
                             [MkPendingWrite seq 0 None [] 0 (Some meta) [] zeroTimestamp false applied 0] |>);
            _ ← scheduleDurable at_ seq;
            _ ← bump snapshotsTaken;
            emit (OLedger (RecordSnapshot (rep_rng n) (nc_Ordinal cfg) applied term (digest data) true at_))
        end
    end.

(** ** Reads off the log *)

(** The first pending read with the context takes the index. *)
Fixpoint setIndex (st : ReadState) (qs : list pendingRead) : list pendingRead :=
  match qs with
  | [] => []
  | q :: qs =>
      if bytes_eqb (pr_ctx q) (rs_Ctx st)
      then MkPendingRead (pr_ctx q) (pr_histIdx q) (pr_key q) (pr_issuedAt q) (pr_anyReplica q) (rs_Index st)
             (pr_viaFollower q) :: qs
      else q :: setIndex st qs
  end.
Definition takeReadStates (states : list ReadState) : Drv () :=
  modR (λ n, n <| rep_pendingReads := foldl (λ qs st, setIndex st qs) (rep_pendingReads n) states |>).

Definition readWaits (applied : Index) (q : pendingRead) : bool := (pr_index q =? 0) || (applied <? pr_index q).

Definition serveRead (at_ : Z) (q : pendingRead) : Drv () :=
  n ← theReplica;
  if negb (Contains (rep_desc n) (pr_key q)) then rerouteReadAt q at_
  else
    _ ← bump readsServed;
    _ ← when (pr_viaFollower q) (bump followerReads);
    res ← onStore (λ db, ReadLatest db (pr_key q));
    let v := match res with Ok (Some v) => v | _ => [] end in
    _ ← emit (OLedger (RecordRead (MkReadRecord (rep_rng n) (nc_Ordinal cfg) (pr_index q) (pr_key q) zeroTimestamp
                         (pr_issuedAt q) v (match res with Ok (Some _) => true | _ => false end)
                         (match res with Err _ => true | _ => false end) at_ true (rep_applied n))));
    match res with
    | Err _ =>
        _ ← bump readsRefused;
        when (0 <=? pr_histIdx q) (emit (OEnd (pr_histIdx q) at_ false []))
    | Ok _ => when (0 <=? pr_histIdx q) (emit (OEnd (pr_histIdx q) at_ true v))
    end.

Definition serveReadyReads (at_ : Z) : Drv () :=
  n ← theReplica;
  _ ← forEach (filter (λ q, readWaits (rep_applied n) q = false) (rep_pendingReads n)) (serveRead at_);
  modR (λ n', n' <| rep_pendingReads := filter (λ q, readWaits (rep_applied n) q = true) (rep_pendingReads n) |>).

(** ** Draining a Ready *)

Fixpoint ordinalFrom (i : Z) (ps : list NodeID) (id : NodeID) : Z :=
  match ps with
  | [] => 0
  | p :: ps => if p =? id then i else ordinalFrom (i + 1) ps id
  end.
Definition ordinalOf (id : NodeID) : Z := ordinalFrom 0 (nc_Peers cfg) id.

Definition storedSnapshot : Drv (option (SnapshotMeta * bytes)) :=
  n ← theReplica;
  m ← theNode;
  mret (match Get (keySnapshotOf (rep_rng n)) (t_Engine (m_db m)) with Err _ => None | Ok v => decodeSnapshot v end).

Definition sendMessage (msg : Message) (at_ : Z) : Drv () :=
  n ← theReplica;
  _ ← emit (OLedger (RecordSent (rep_rng n) (nc_Ordinal cfg) msg at_));
  now ← hlcNow;
  emit (OSend (nc_Ordinal cfg) (ordinalOf (m_To msg)) (putRange (rep_rng n) now (encodeMessage msg))).

(** The write that replaces a range's snapshot and log. *)
Definition installBatch (rng : Z) (meta : SnapshotMeta) (data : bytes) : Batch :=
  let sb := Batch_Set (keySnapshotOf rng) (encodeSnapshot meta data) NewBatch in
  Batch_DeleteRange (Some (logPrefixOf rng)) (Some (logUpperOf rng)) sb.

(** Step 0: a snapshot install, its own batch on its own stream. *)
Definition installSnapshot (at_ : Z) (snapMark : PersistMark) (sn : RaftTypes.Snapshot) : Drv () :=
  match decodeMachine (sn_Data sn) with
  | Some (Some (desc, mark, vs)) =>
      let meta := MkSnapshotMeta (sn_Index sn) (sn_Term sn) (sn_Conf sn) in
      n ← theReplica;
      res ← apply (installBatch (rep_rng n) meta (sn_Data sn)) true;
      _ ← match res with
          | Ok seq =>
              _ ← modR (λ n, n <| rep_pending := rep_pending n ++
                               [MkPendingWrite seq 0 None [] snapMark (Some meta) vs mark true 0 0] |>);
              scheduleDurable at_ seq
          | Err _ => mret ()
          end;
      _ ← modR (λ n, n <| rep_writtenLast := sm_Index meta |>);
      _ ← ingest vs mark;
      _ ← modR (λ n, n <| rep_desc := desc |>);
      n ← theReplica;
      _ ← (if sm_Index meta >? rep_applied n then
             _ ← modR (λ n, n <| rep_applied := sm_Index meta |>);
             onRaft (AckApplied (sm_Index meta))
           else mret ());
      _ ← bump snapshotsApplied;
      emit (OLedger (RecordSnapshot (rep_rng n) (nc_Ordinal cfg) (sm_Index meta) (sm_Term meta) (digest (sn_Data sn))
                       false at_))
  | _ => panic
  end.

(** Step 1: the hard state and the entries, one batch under one mark. *)
Definition persistBatch (n : Replica) (hs : option HardState) (es : list Entry) : Batch * Index * Index :=
  let b := match hs with
           | Some hs => Batch_Set (keyHardStateOf (rep_rng n)) (encodeHardState hs) NewBatch
           | None => NewBatch
           end in
  match head es, last es with
  | Some e0, Some el =>
      let last_ := e_Index el in
      let clear := e_Index e0 <=? rep_writtenLast n in
      let b := if clear
               then Batch_DeleteRange (Some (logKeyOf (rep_rng n) (add64 last_ 1))) (Some (logUpperOf (rep_rng n))) b
               else b in
      (foldl (λ b e, Batch_Set (logKeyOf (rep_rng n) (e_Index e)) (encodeEntry e) b) b es,
       if clear then last_ else 0, last_)
  | _, _ => (b, 0, rep_writtenLast n)
  end.

Definition persist (at_ : Z) (mark : PersistMark) (hs : option HardState) (es : list Entry) : Drv () :=
  n ← theReplica;
  let '(b, clearAbove, written) := persistBatch n hs es in
  _ ← modR (λ n, n <| rep_writtenLast := written |>);
  res ← apply b true;
  match res with
  | Ok seq =>
      _ ← modR (λ n, n <| rep_pending := rep_pending n ++
                       [MkPendingWrite seq mark hs es 0 None [] zeroTimestamp false 0 clearAbove] |>);
      scheduleDurable at_ seq
  | Err _ => mret ()
  end.

Definition snapshotMessage (n : Replica) (to : NodeID) (meta : SnapshotMeta) (data : bytes) : Message :=
  MkMessage MsgSnap (nc_ID cfg) to (r_term (rep_raft n)) 0 0 false false 0 0 [] 0 0 0 (sm_Index meta) (sm_Term meta)
    data (EncodeConfiguration (sm_Conf meta)) [] 0.

Definition drainOnce (at_ : Z) : Drv () :=
  n ← theReplica;
  match Ready_ (rep_raft n) with
  | None => panic
  | Some (rd, r) =>
      _ ← modR (λ n, n <| rep_raft := r |>);
      _ ← match rd_Snapshot rd with Some sn => installSnapshot at_ (rd_SnapMark rd) sn | None => mret () end;
      let wroteMark := bool_decide (is_Some (rd_HardState rd)) || negb (bool_decide (rd_Entries rd = [])) in
      _ ← when wroteMark (persist at_ (rd_Mark rd) (rd_HardState rd) (rd_Entries rd));
      _ ← forEach (rd_SnapshotTo rd) (λ to,
            st ← storedSnapshot;
            match st with
            | None => mret ()
            | Some (meta, data) => n ← theReplica; sendMessage (snapshotMessage n to meta data) at_
            end);
      _ ← forEach (rd_Messages rd) (λ msg, sendMessage msg at_);
      _ ← when (negb (rd_Mark rd =? 0) && negb wroteMark) panic;
      _ ← match last (rd_Committed rd) with
          | None => mret ()
          | Some el =>
              mb ← applyEntries at_ (rd_Committed rd) NewBatch;
              _ ← flushApply mb;
              _ ← maybeGC;
              n ← theReplica;
              _ ← emit (OLedger (RecordApplied (rep_rng n) (nc_Ordinal cfg) (rd_Committed rd) at_));
              _ ← modR (λ n, n <| rep_applied := e_Index el |>);
              _ ← onRaft (AckApplied (e_Index el));
              _ ← maybeSnapshot at_;
              Replica_maybeSplit
          end;
      _ ← takeReadStates (rd_ReadStates rd);
      serveReadyReads at_
  end.

(** The loop of [drain]; the answer is whether it ended. *)
Fixpoint drainLoop (fuel : nat) (at_ : Z) : Drv bool :=
  n ← theReplica;
  if negb (HasReady (rep_raft n)) then mret true
  else match fuel with
  | O => mret false
  | S fuel => _ ← drainOnce at_; drainLoop fuel at_
  end.

Definition drainFuel : nat := 3.

Definition drain (at_ : Z) : Drv bool :=
  fin ← drainLoop drainFuel at_;
  _ ← modR (λ n, match rep_confErr n with
                 | None => n <| rep_confErr := AssertConfConsistent (rep_raft n) |>
                 | Some _ => n
                 end);
  mret fin.

(** ** Durability *)

(** Writing at a position of the durable log: an index below its start is a
    panic, one past its end appends. *)
Definition foldEntry (base : Index) (log : list Entry) (e : Entry) : option (list Entry) :=
  let p := i64 (u64 (e_Index e - base - 1)) in
  if p <? Z.of_nat (length log) then
    if p <? 0 then None else Some (<[Z.to_nat p := e]> log)
  else Some (log ++ [e]).

Definition fold_ (w : pendingWrite) (n : Replica) : option Replica :=
  let n := n <| rep_durRecorded := true |> in
  let n := match w_hs w with Some hs => n <| rep_durHS := hs |> | None => n end in
  let n := match w_snap w with Some meta => n <| rep_durSnap := meta |> | None => n end in
  let n := if w_clearAllLog w then n <| rep_durLog := [] |> else n in
  let n := if 0 <? w_clearBelow w
           then n <| rep_durLog := filter (λ e, e_Index e > w_clearBelow w) (rep_durLog n) |> else n in
  log ← foldM (foldEntry (sm_Index (rep_durSnap n))) (rep_durLog n) (w_entries w);
  let n := n <| rep_durLog := log |> in
  if 0 <? w_clearAbove w then
    let keep := i64 (u64 (w_clearAbove w - sm_Index (rep_durSnap n))) in
    Some (if (0 <=? keep) && (keep <? Z.of_nat (length log)) then n <| rep_durLog := take (Z.to_nat keep) log |> else n)
  else Some n.

Record recovered := MkRecovered {
  st_hs : HardState;
  st_snap : SnapshotMeta;
  st_entries : list Entry;
  st_versions : list KvRecord;
  st_mark : Timestamp;
  st_desc : option RangeDescriptor;
}.

(** The read-back itself; an undecodable machine count is a panic. *)
Definition readBack (rng : Z) (db : DB) : option recovered :=
  let hs := match Get (keyHardStateOf rng) db with Ok v => decodeHardState v | Err _ => MkHardState 0 0 end in
  let none := (MkSnapshotMeta 0 0 (MkConfiguration [] []), None) in
  '(snap, mach) ← match Get (keySnapshotOf rng) db with
    | Err _ => Some none
    | Ok v =>
        match decodeSnapshot v with
        | None => Some none
        | Some (meta, data) => d ← decodeMachine data; Some (meta, d)
        end
    end;
  let entries := omap (λ x, decodeEntry (snd x))
                   (fst (eng_scan (Some (logPrefixOf rng)) (Some (logUpperOf rng)) db)) in
  Some (match mach with
        | Some (desc, mark, vs) => MkRecovered hs snap entries vs mark (Some desc)
        | None => MkRecovered hs snap entries [] zeroTimestamp None
        end).

Definition readDurable : Drv recovered := λ n m,
  if negb (visibleSeq (m_db m) =? DurableSeq (t_Engine (m_db m))) then None
  else st ← readBack (rep_rng n) (t_Engine (m_db m)); Some (st, n, m).

Definition sameEntry (a b : Entry) : bool :=
  (e_Index a =? e_Index b) && (e_Term a =? e_Term b) && bool_decide (e_ID a = e_ID b) && bytes_eqb (e_Data a) (e_Data b).

Definition sameDurableState (hs : HardState) (snap : SnapshotMeta) (log : list Entry) (got : recovered) : bool :=
  bool_decide (hs = st_hs got)
  && (sm_Index snap =? sm_Index (st_snap got)) && (sm_Term snap =? sm_Term (st_snap got))
  && Configuration_Equal (sm_Conf snap) (sm_Conf (st_snap got))
  && (length log =? length (st_entries got))%nat
  && forallb (λ x, sameEntry (fst x) (snd x)) (zip log (st_entries got)).

(** The walk over the writes in flight: those at or below the sequence are folded
    and give the highest marks. *)
Fixpoint foldDone (seq : Z) (ws : list pendingWrite) (acc : PersistMark * PersistMark * list pendingWrite) (n : Replica)
    : option (PersistMark * PersistMark * list pendingWrite * Replica) :=
  let '(mark, snapMark, kept) := acc in
  match ws with
  | [] => Some (acc, n)
  | w :: ws =>
      if w_seq w <=? seq then
        n ← fold_ w n;
        foldDone seq ws (Z.max mark (w_mark w), Z.max snapMark (w_snapMark w), kept) n
      else foldDone seq ws (mark, snapMark, kept ++ [w]) n
  end.

Definition onDurable (seq at_ : Z) : Drv () :=
  n ← theReplica;
  match foldDone seq (rep_pending n) (0, 0, []) n with
  | None => panic
  | Some (mark, snapMark, kept, n) =>
      let n := n <| rep_pending := kept |> in
      let n := if seq >? rep_ackedSeq n then n <| rep_ackedSeq := seq |> else n in
      let mark := match kept with
                  | w :: _ => if negb (w_mark w =? 0) && (w_mark w <=? mark) then w_mark w - 1 else mark
                  | [] => mark
                  end in
      _ ← modR (λ _, n);
      m ← theNode;
      let durable := DurableSeq (t_Engine (m_db m)) in
      _ ← (if (visibleSeq (m_db m) =? durable) && (rep_ackedSeq n =? durable) && (length kept =? 0)%nat then
             _ ← bump crossChecks;
             st ← readDurable;
             if sameDurableState (rep_durHS n) (rep_durSnap n) (rep_durLog n) st then mret () else panic
           else bump crossChecksDeclined);
      _ ← emit (OLedger (RecordDurable (rep_rng n) (nc_Ordinal cfg) (rep_durHS n) (rep_durSnap n) (rep_durLog n) at_));
      _ ← when (negb (mark =? 0)) (onRaftP (AckPersisted mark));
      when (negb (snapMark =? 0)) (onRaft (AckSnapshot snapMark))
  end.

(** ** Crash and recovery *)

Definition lastLogIndex (es : list Entry) : Index := match last es with Some e => e_Index e | None => 0 end.

(** What the driver has written, taken from the durable record. *)
Definition writtenFrom (n : Replica) : Index :=
  let s := sm_Index (rep_durSnap n) in
  let l := lastLogIndex (rep_durLog n) in if l >? s then l else s.

Definition onCrash (n : Replica) : Replica :=
  let n := n <| rep_down := true |> <| rep_inflight := [] |> <| rep_pending := [] |> in
  n <| rep_writtenLast := writtenFrom n |>.

Definition readRecovered : Drv recovered :=
  _ ← modR (λ n, n <| rep_pending := [] |> <| rep_inflight := [] |>);
  readDurable.

Definition derivedConf (st : recovered) : option Configuration :=
  if bool_decide (Voters (sm_Conf (st_snap st)) = []) then None
  else Some (foldl (λ conf e,
         match e_Type e with
         | EntryConfChange => match ApplyConfEntry conf (e_Data e) with Ok next => next | Err _ => conf end
         | _ => conf
         end) (sm_Conf (st_snap st)) (st_entries st)).

Definition restartFrom (st : recovered) : Drv () :=
  n ← theReplica;
  _ ← (if rep_durRecorded n then
         _ ← bump crossChecks;
         if sameDurableState (rep_durHS n) (rep_durSnap n) (rep_durLog n) st then mret () else panic
       else
         _ ← bump adoptions;
         modR (λ n, n <| rep_durHS := st_hs st |> <| rep_durSnap := st_snap st |> <| rep_durLog := st_entries st |>
                      <| rep_durRecorded := true |>));
  match Restore (raftConfig cfg) (st_hs st) (st_snap st) (st_entries st) with
  | Err _ => panic
  | Ok r =>
      _ ← modR (λ n, n <| rep_raft := r |>);
      _ ← when (existsb (λ e, bool_decide (e_Type e = EntryConfChange)) (st_entries st)) (bump confRecoveries);
      _ ← match derivedConf st with
          | Some want => _ ← bump confCrossChecks; if Configuration_Equal (r_conf r) want then mret () else panic
          | None => mret ()
          end;
      _ ← ingest (st_versions st) (st_mark st);
      _ ← modR (λ n, if sm_Index (st_snap st) >? rep_applied n then n <| rep_applied := sm_Index (st_snap st) |> else n);
      _ ← match st_desc st with
          | Some desc => modR (λ n, n <| rep_desc := desc |>)
          | None => n ← theReplica;
                    if rep_rng n =? FirstRange then modR (λ n, n <| rep_desc := FirstRangeDescriptor |>) else panic
          end;
      _ ← modR (λ n, n <| rep_down := false |> <| rep_writtenLast := writtenFrom n |>);
      jitter
  end.

Definition Replica_AssertQuiescent (n : Replica) : option RaftError :=
  if rep_down n then None
  else match rep_confErr n with
  | Some e => Some e
  | None => if (0 <? length (rep_pending n))%nat then None else AssertQuiescent (rep_raft n)
  end.

(** ** Clients and the harness *)

Definition plainRead (req : Request) : bool :=
  nc_ReadIndex cfg && bool_decide (q_Op req = opGet) && negb (Timestamp_IsSet (q_ReadTS req))
  && match q_Txn req with None => true | Some _ => false end.

Definition Replica_onClient (req : Request) (arrivedAt : Z) : Drv () :=
  n ← theReplica;
  let leads := bool_decide (r_role (rep_raft n) = RoleLeader) in
  let followerRead := q_AnyReplica req && plainRead req in
  if negb leads && negb followerRead then mret ()
  else match q_Txn req with
  | Some c =>
      id ← nextProposal;
      err ← onRaftE (Propose id (encodeTxnCommand c));
      match err with
      | Some _ => mret ()
      | None => modR (λ n, n <| rep_inflight := rep_inflight n ++
                           [MkClientOp id (q_HistIdx req) (q_Value req) (q_Op req) (q_Key req) zeroTimestamp] |>)
      end
  | None =>
      now ← hlcNow;
      let at_ := if Timestamp_IsSet (q_ReadTS req) && bool_decide (q_Op req = opGet) then q_ReadTS req else now in
      if plainRead req then
        _ ← modR (λ n, n <| rep_readSeq := add64 (rep_readSeq n) 1 |>);
        n ← theReplica;
        let ctx := encodeReadCtx (nc_ID cfg) (rep_readSeq n) in
        err ← onRaftE (ReadIndex ctx);
        match err with
        | Some _ => mret ()
        | None =>
            modR (λ n, n <| rep_pendingReads := rep_pendingReads n ++
                          [MkPendingRead ctx (q_HistIdx req) (q_Key req) arrivedAt (q_AnyReplica req) 0
                             (negb (bool_decide (r_role (rep_raft n) = RoleLeader)))] |>)
        end
      else
        id ← nextProposal;
        err ← onRaftE (Propose id (encodeCmd (q_Op req) (q_Key req) (q_Value req) at_));
        match err with
        | Some _ => mret ()
        | None => modR (λ n, n <| rep_inflight := rep_inflight n ++
                             [MkClientOp id (q_HistIdx req) (q_Value req) (q_Op req) (q_Key req) (q_ReadTS req)] |>)
        end
  end.

Definition proposeConf (ch : ConfChangeSingle) : Drv bool :=
  id ← nextProposal;
  err ← onRaftE (ProposeConfChange id (MkConfChangeV2 [ch] ConfChangeSimple));
  match err with
  | Some e =>
      _ ← bump confRefused;
      _ ← when (match e with ErrLearnerLagging => true | _ => false end) (bump lagRefused);
      mret false
  | None => _ ← bump confProposed; mret true
  end.

Definition Replica_RequestTransfer (target : NodeID) : Drv bool :=
  n ← theReplica;
  if negb (Replica_IsLeader n) || (target =? nc_ID cfg) then mret false
  else _ ← onRaftP (TransferLeadership target); _ ← bump transfersAsked; mret true.

Definition Replica_RequestConfChange (target : NodeID) : Drv () :=
  n ← theReplica;
  if negb (Replica_IsLeader n) || (target =? nc_ID cfg) then mret ()
  else
    let conf := r_conf (rep_raft n) in
    let kind := if IsLearner conf target then ConfChangeAddVoter
                else if IsVoter conf target then ConfChangeRemoveNode else ConfChangeAddLearner in
    _ ← proposeConf (MkConfChangeSingle kind target); mret ().

Definition Replica_RequestMove (from to : NodeID) (begin : bool) : Drv bool :=
  n ← theReplica;
  if negb (Replica_IsLeader n) || (from =? to) then mret false
  else
    let conf := r_conf (rep_raft n) in
    if begin then
      if IsVoter conf to || IsLearner conf to || negb (IsVoter conf from) || (length (Voters conf) <? 2)%nat
      then mret false
      else proposeConf (MkConfChangeSingle ConfChangeAddLearner to)
    else if negb (IsVoter conf from) && negb (IsLearner conf from) then mret false
    else if negb (IsVoter conf to) && negb (IsLearner conf to) then proposeConf (MkConfChangeSingle ConfChangeAddLearner to)
    else if IsLearner conf to then proposeConf (MkConfChangeSingle ConfChangeAddVoter to)
    else if from =? nc_ID cfg then
      match head (filter (λ v, v ≠ from) (Voters conf)) with
      | Some v => _ ← Replica_RequestTransfer v; mret true
      | None => mret false
      end
    else proposeConf (MkConfChangeSingle ConfChangeRemoveNode from).

(** ** The machine *)

Definition getReplica (id : Z) (m : Node) : option Replica := head (filter (λ r, rep_rng r = id) (m_replicas m)).
Definition putReplica (n : Replica) (m : Node) : Node :=
  m <| m_replicas := (λ r, if rep_rng r =? rep_rng n then n else r) <$> m_replicas m |>.

(** Run a method of the replica of a range. *)
Definition withReplica {A} (n : Replica) (x : Drv A) (m : Node) : option (A * Node) :=
  match x n m with Some (a, n, m) => Some (a, putReplica n m) | None => None end.

Definition newMachine (db : DB) : result StoreError Node :=
  if negb (nc_Transport cfg) then Err ErrNoTransport
  else match checkLedger cfg with
  | Some e => Err e
  | None =>
      if nc_SyncLatency cfg <=? 0 then Err ErrNoSyncLatency
      else Ok (MkNode (MkTracked db 0) NewEpochGuard [] (firstRangeID (nc_Ordinal cfg)) false 0 0 0 0 [])
  end.

Definition engineHasState (m : Node) : bool := fst (First (fst (NewIter None None (t_Engine (m_db m))))).

Definition store_initialConf : Configuration :=
  foldl (λ c p, if containsNode (nc_Learners cfg) p then MkConfiguration (Voters c) (Learners c ++ [p])
                else MkConfiguration (Voters c ++ [p]) (Learners c)) (MkConfiguration [] []) (nc_Peers cfg).

(** [New] over an engine the configuration supplies. *)
Definition Node_New (db : DB) : result StoreError Node :=
  match newMachine db with
  | Err e => Err e
  | Ok m =>
      if engineHasState m then Err ErrHasState
      else match newReplicaFor FirstRangeDescriptor m with
      | (Err e, _) => Err e
      | (Ok r, m) =>
          Ok (m <| m_replicas := [r] |>
                <| m_out := m_out m ++ [OLedger (RecordRangeBase FirstRange
                              (encodeMachine FirstRangeDescriptor zeroTimestamp []) (EncodeConfiguration store_initialConf))] |>)
      end
  end.

Definition readDescriptors (m : Node) : list RangeDescriptor :=
  let es := fst (eng_scan (Some [Byte.x72; Byte.x2f]) (Some [Byte.x72; Byte.x30]) (t_Engine (m_db m))) in
  let out := omap (λ x, if (length (fst x) <? 15)%nat
                           || negb (bytes_eqb (drop 10 (fst x)) [Byte.x2f; Byte.x64; Byte.x65; Byte.x73; Byte.x63])
                        then None else decodeDesc (snd x)) es in
  if hasRange out FirstRange then out else FirstRangeDescriptor :: out.

(** The first loop of [Recover]: every range on disk, with its replica. *)
Fixpoint rebuild (ds : list RangeDescriptor) (kept : list Replica) (m : Node) : option (list Replica * Node) :=
  match ds with
  | [] => Some (kept, m)
  | d :: ds =>
      match getReplica (d_ID d) m with
      | Some r => rebuild ds (kept ++ [r <| rep_desc := d |>]) m
      | None =>
          match newReplicaFor d m with
          | (Err _, _) => None
          | (Ok r, m) => rebuild ds (kept ++ [r <| rep_desc := d |>]) m
          end
      end
  end.

(** Visit the replicas by position. *)
Fixpoint readAll (ps : list nat) (m : Node) : option (list recovered * Node) :=
  match ps with
  | [] => Some ([], m)
  | i :: ps =>
      n ← m_replicas m !! i;
      '(st, m) ← withReplica n readRecovered m;
      '(sts, m) ← readAll ps m;
      Some (st :: sts, m)
  end.
Fixpoint restartAll (i : nat) (sts : list recovered) (m : Node) : option Node :=
  match sts with
  | [] => Some m
  | st :: sts =>
      n ← m_replicas m !! i;
      '(_, m) ← withReplica n (restartFrom st) m;
      restartAll (S i) sts m
  end.

Definition Recover (m : Node) : option Node :=
  '(kept, m) ← rebuild (readDescriptors m) [] m;
  let m := foldl (λ m r, Node_addReplica r m) (m <| m_replicas := [] |>) kept in
  let m := m <| m_down := false |> in
  '(sts, m) ← readAll (seq 0 (length (m_replicas m))) m;
  restartAll 0 sts m.

Definition Node_Open (db : DB) : option (result StoreError Node) :=
  match newMachine db with
  | Err e => Some (Err e)
  | Ok m => if negb (engineHasState m) then Some (Err ErrEmptyEngine) else m ← Recover m; Some (Ok m)
  end.

Definition Node_crash (m : Node) : Node :=
  m <| m_epoch := Epoch_Advance (m_epoch m) |> <| m_db := tracked_Crash (m_db m) |> <| m_down := true |>
    <| m_replicas := onCrash <$> m_replicas m |>.

Definition Node_restart (m : Node) : option Node :=
  let m := if m_down m then m else Node_crash m in
  Recover (m <| m_epoch := Epoch_Advance (m_epoch m) |>).

(** [drainAll] walks by position: a split may add a replica under it.  Running out
    of fuel is [None]. *)
Fixpoint drainFrom (fuel i : nat) (at_ : Z) (m : Node) : option Node :=
  match fuel with
  | O => None
  | S fuel =>
      match m_replicas m !! i with
      | None => Some m
      | Some n => '(_, m) ← withReplica n (drain at_) m; drainFrom fuel (S i) at_ m
      end
  end.

Definition Node_onClient (req : Request) (at_ : Z) (m : Node) : option Node :=
  match head (filter (λ r, Contains (rep_desc r) (q_Key req) = true) (m_replicas m)) with
  | None => Some m
  | Some r =>
      if negb (q_Epoch req =? 0) && (negb (q_Range req =? rep_rng r) || (q_Epoch req <? d_Epoch (rep_desc r))) then
        let next := MkRequest (q_Client req) (q_Seq req) (q_Op req) (q_Key req) (q_Value req) (q_HistIdx req)
                      (q_AnyReplica req) (q_ReadTS req) (q_Txn req) (rep_rng r) (d_Epoch (rep_desc r)) in
        Some (m <| m_staleEpochs := m_staleEpochs m + 1 |>
                <| m_out := m_out m ++ [OClient (i64 (at_ + staleRetryDelay)) (nc_Ordinal cfg) next] |>)
      else '(_, m) ← withReplica r (Replica_onClient req at_) m; Some m
  end.

Inductive Event :=
| KindTick
| KindDeliver (body : bytes)               (* the body of a decoded envelope *)
| KindDurable (epoch seq : Z)
| KindClient (req : Request)
| KindCrash
| KindRestart
| KindAction.

(** Over the replicas in order, a method of each. *)
Fixpoint eachReplica (ids : list Z) (x : Drv ()) (m : Node) : option Node :=
  match ids with
  | [] => Some m
  | id :: ids => n ← getReplica id m; '(_, m) ← withReplica n x m; eachReplica ids x m
  end.

Definition deliver (body : bytes) (at_ : Z) (m : Node) : option Node :=
  match takeRange body with
  | None => Some m
  | Some (id, senderTS, body) =>
      match decodeMessage body, getReplica id m with
      | Some msg, Some n =>
          '(_, m) ← withReplica n (
            _ ← hlcUpdate senderTS;
            _ ← emit (OLedger (RecordReceived id (nc_Ordinal cfg) msg at_));
            _ ← onRaftE (Step msg);
            mret ()) m;
          Some m
      | _, _ => Some m
      end
  end.

(** [Handle]; [fuel] bounds the walk of [drainAll].  A frame that was dropped
    returns before the drain, as the source does. *)
Definition Handle (fuel : nat) (ev : Event) (at_ : Z) (m : Node) : option Node :=
  let drainAll (m : Node) := if m_down m then Some m else drainFrom fuel 0 at_ m in
  let ids := rep_rng <$> m_replicas m in
  match ev with
  | KindCrash => Some (Node_crash m)
  | KindRestart => Node_restart m
  | KindAction => drainAll m
  | KindTick => if m_down m then Some m else m ← eachReplica ids (onRaftP Tick) m; drainAll m
  | KindDeliver body =>
      if m_down m then Some m
      else match takeRange body with
      | Some (id, _, rest) =>
          match decodeMessage rest, getReplica id m with
          | Some _, Some _ => m ← deliver body at_ m; drainAll m
          | _, _ => Some m
          end
      | None => Some m
      end
  | KindDurable epoch seq =>
      if m_down m then Some m
      else
        let '(ok, g) := Epoch_Accept epoch (m_epoch m) in
        let m := m <| m_epoch := g |> in
        if negb ok then Some m
        else
          '(db, _) ← AdvanceDurable seq (t_Engine (m_db m));
          m ← eachReplica ids (onDurable seq at_) (m <| m_db := MkTracked db (t_visible (m_db m)) |>);
          drainAll m
  | KindClient req => if m_down m then Some m else m ← Node_onClient req at_ m; drainAll m
  end.

Definition leaderReplica (m : Node) : option Replica := head (filter (λ r, Replica_IsLeader r = true) (m_replicas m)).

Definition Node_Now (m : Node) : option (Timestamp * Node) :=
  match m_replicas m with
  | n :: _ => if m_down m then None else withReplica n hlcNow m
  | [] => None
  end.

Definition Node_NowAbove (lb : Timestamp) (m : Node) : option (Timestamp * Node) :=
  match m_replicas m with
  | n :: _ => if m_down m then None
              else withReplica n (_ ← when (Timestamp_IsSet lb) (hlcUpdate lb); hlcNow) m
  | [] => None
  end.
End Driver.
