(* ===== verification/CheckStore.v ===== *)
(** * The store under its oracles

    What a replica tells the ledger, and what the oracles make of the reads a range
    answers: the driver's ledger calls as facts of the ledger ([tell]), the record of
    a snapshot read ([Replica.readTxn]), and the theorem that no history of the
    transaction steps of one range makes the snapshot isolation oracle or the
    uncertainty oracle speak. *)

From Stdlib Require Import Lia ZArith.
From stdpp Require Import base tactics numbers option gmap list.
From S2P Require Import Prelude Bytes ConfChange RaftTypes Hlc CheckLedger CheckOracles Engine KvEncoding EngineIface KvStore KvTxn EngineMap StoreCodec CheckTxn StoreReplay StoreTxn StoreRange StoreNode.

(** ** What a replica tells the ledger *)

(** The record of a read, from the result the client is given. *)
Definition readRecord (rng node : Z) (index : Index) (c : TxnCommand) (res : TxnResult) (at_ : Z) : TxnReadRecord :=
  MkTxnRead rng (Z.to_nat node) index (tc_Key c) (tc_ReadTS c) (tc_StartTS c) (x_Value res) (x_Found res)
    (x_Locked res) (x_LockPrimary res) (x_LockStartTS res) (x_Uncertain res) (x_CommitTS res) (x_RestartAt res)
    (x_Ceiling res) (x_Refused res) at_.

Definition tell (call : LedgerCall) (l : Ledger) : option Ledger :=
  match call with
  | RecordSent rng node m at_ => CheckLedger.RecordSent rng (Z.to_nat node) m at_ l
  | RecordReceived rng node m at_ => CheckLedger.RecordReceived rng (Z.to_nat node) m at_ l
  | RecordSnapshot rng node index term digest taken at_ =>
      CheckLedger.RecordSnapshot rng (Z.to_nat node) (MkSnapRec index term digest taken) at_ l
  | RecordApplied rng node es at_ => CheckLedger.RecordApplied rng (Z.to_nat node) es at_ l
  | RecordDurable rng node hs snap log at_ => CheckLedger.RecordDurable rng (Z.to_nat node) (MkDurable hs snap log) at_ l
  | RecordRangeBase rng data conf => CheckLedger.RecordRangeBase rng data conf l
  | RecordRead r =>
      Some (CheckLedger.RecordRead
        (CheckLedger.MkReadRecord (rr_Range r) (Z.to_nat (rr_Node r)) (rr_Index r) (rr_Key r) (rr_At r) (rr_Value r) (rr_Found r)
           (rr_Refused r) (rr_AppliedAt r) (rr_IssuedAt r) (rr_OffLog r) (rr_When r)) l)
  | RecordWrite rng node index key at_ => Some (CheckLedger.RecordWrite (MkWriteRecord rng (Z.to_nat node) index key at_) l)
  | RecordTxnRead rng node index c res at_ => Some (CheckLedger.RecordTxnRead (readRecord rng node index c res at_) l)
  end.

(** The ledger after the outputs of a driver. *)
Definition tellAll (outs : list Out) (l : Ledger) : option Ledger :=
  foldl (λ l o, match o with OLedger call => l ← l; tell call l | _ => l end) (Some l) outs.

(** ** A snapshot read as the client and the ledger see it *)

Definition ceilingOf (maxOffset : Z) (c : TxnCommand) : Timestamp :=
  if Timestamp_IsSet (tc_MaxTS c) then tc_MaxTS c else UncertaintyCeiling (tc_ReadTS c) maxOffset.

Definition readResult (ceiling : Timestamp) (r : result KvError (option bytes)) : TxnResult :=
  let res := MkTxnResult (match r with Ok (Some v) => v | _ => [] end) (match r with Ok (Some _) => true | _ => false end)
               false [] zeroTimestamp zeroTimestamp false false false zeroTimestamp zeroTimestamp false ceiling false in
  match r with
  | Err (LockedError _ l) =>
      res <| x_Locked := true |> <| x_LockPrimary := l_Primary l |> <| x_LockStartTS := l_StartTS l |> <| x_LockDeadline := l_Deadline l |>
  | Err (UncertaintyError _ _ commit) => res <| x_Uncertain := true |> <| x_CommitTS := commit |> <| x_RestartAt := RestartAt commit |>
  | Err _ => res <| x_Refused := true |>
  | Ok _ => res
  end.

(** The driver gives the client that result, and tells the ledger that and no more. *)
Lemma readTxn_tells cfg c e at_ n m :
  let r := fst (GetTxn (t_Engine (m_db m)) (tc_Key c) (tc_ReadTS c) (ceilingOf (nc_MaxOffset cfg) c) (rep_mvcc n)) in
  let res := readResult (ceilingOf (nc_MaxOffset cfg) c) r in
  ∃ n', readTxn cfg c e at_ n m
        = Some (res, n', m <| m_out := m_out m ++ [OLedger (RecordTxnRead (rep_rng n) (nc_Ordinal cfg) (e_Index e) c res at_)] |>).
Proof.
  cbv zeta. unfold readTxn, ceilingOf, onStore, mbind, Drv_bind.
  set (ceil := if Timestamp_IsSet (tc_MaxTS c) then _ else _). cbv beta zeta.
  destruct (GetTxn (t_Engine (m_db m)) (tc_Key c) (tc_ReadTS c) ceil (rep_mvcc n)) as [r s]. cbn [fst].
  destruct r as [[v|]|[]]; eexists; reflexivity.
Qed.

(** ** The reads of a range

    The transaction steps a range's log holds, each with the replica that answers its
    client, if one does, and the time: a read is answered in the state its own entry
    produced. *)

Definition step : Type := TxnCommand * option (Z * Z).

Section Reads.
Context (ns : bytes) (mark : Timestamp) (desc : RangeDescriptor) (rng maxOffset : Z).

Definition answerOf (m : gmap bytes bytes) (c : TxnCommand) : TxnResult :=
  readResult (ceilingOf maxOffset c) (fst (GetTxn m (tc_Key c) (tc_ReadTS c) (ceilingOf maxOffset c) (plain ns mark))).

Fixpoint recordedReads (m : gmap bytes bytes) (index : Z) (ss : list step) : list TxnReadRecord :=
  match ss with
  | [] => []
  | (c, who) :: ss =>
      let m' := txn_step ns mark desc m c in
      match who with
      | Some (node, at_) =>
          if bool_decide (tc_Op c = OpTxnGet) then [readRecord rng node index c (answerOf m' c) at_] else []
      | None => []
      end ++ recordedReads m' (index + 1) ss
  end.

(** What coordinators promise of the commands they send: a prewrite names its primary,
    and the ceiling a read carries is one the bound allows at its timestamp. *)
Record asked (c : TxnCommand) : Prop := MkAsked {
  ask_primary : tc_Op c = OpPrewrite → tc_Primary c ≠ [];
  ask_room : tc_Op c = OpTxnGet → i64 (Wall (tc_ReadTS c) + maxOffset) < 2 ^ 63 - 1;
  ask_ceiling : tc_Op c = OpTxnGet → Timestamp_IsSet (tc_MaxTS c) = true → ts_le (tc_MaxTS c) (UncertaintyCeiling (tc_ReadTS c) maxOffset);
}.

(** What every state of a run has. *)
Record state_ok (m : gmap bytes bytes) : Prop := MkStateOk {
  so_records : records_ok ns m;
  so_ordered : ∀ k, key_ok k → ordered ns m k;
  so_locks : ∀ k l, key_ok k → lock_of ns m k = Some l → l_Primary l ≠ [];
}.

Lemma state_ok_step m c :
  state_ok m → cmd_ok c → disciplined ns m c → asked c → state_ok (txn_step ns mark desc m c).
Proof.
  intros [Hro Hord Hl] Hc Hd Ha.
  assert (He : effect ns mark m c (txn_ops ns mark desc m c)) by (apply applyTxnTo_effect; [done|apply Hc]).
  split; [by apply step_records| |].
  - intros k Hk t st [Ht Hw].
    destruct (write_step ns mark m c _ Hc He k t Hk Ht) as [Hs|[(-> & -> & Hcom & _ & Hn)|(_ & _ & _ & Hn)]].
    + apply (Hord k Hk). split; [done|]. unfold write_of in *. by rewrite <- Hs.
    + change (foldl spec_op m _) with (txn_step ns mark desc m c) in Hn. rewrite Hn in Hw. injection Hw as <-.
      split; [by apply (proj1 Hd Hcom)|apply Hc].
    + change (foldl spec_op m _) with (txn_step ns mark desc m c) in Hn. by rewrite Hn in Hw.
  - intros k l Hk El. change (lock_of ns (foldl spec_op m (txn_ops ns mark desc m c)) k = Some l) in El.
    destruct (lock_step ns mark m c _ Hc He k Hk) as [Hs|[(_ & Hop & _ & Hn)|(_ & _ & _ & Hn)]]; rewrite ?Hs, ?Hn in El.
    + by eapply Hl.
    + injection El as <-. cbn. by apply (ask_primary _ Ha).
    + done.
Qed.

(** A restart on a commit inside the interval passes the envelope. *)
Lemma envelope_uncertain c r commit :
  asked c → tc_Op c = OpTxnGet → ts_ok commit → xr_At r = tc_ReadTS c → xr_Ceiling r = ceilingOf maxOffset c →
  xr_CommitTS r = commit → xr_RestartAt r = RestartAt commit →
  ts_lt (tc_ReadTS c) commit → ts_le commit (ceilingOf maxOffset c) → envelope maxOffset r = None.
Proof.
  intros Ha Hop Hok Ra Rc Rm Rr Hlt Hle. unfold envelope. rewrite Ra, Rc, Rm, Rr. fold (UncertaintyCeiling (tc_ReadTS c) maxOffset).
  assert (Htop : ts_le (ceilingOf maxOffset c) (UncertaintyCeiling (tc_ReadTS c) maxOffset)).
  { unfold ceilingOf. destruct (Timestamp_IsSet (tc_MaxTS c)) eqn:E; [by apply (ask_ceiling _ Ha)|by right]. }
  assert (Hno : ∀ a b, ts_le a b → Less b a = false).
  { intros a b H. apply not_true_iff_false. rewrite Less_spec. intros H'. by apply (ts_lt_not_le _ _ H'). }
  assert (Hlim : Wall commit < 2 ^ 63 - 1).
  { pose proof (ask_room _ Ha Hop) as Hroom. pose proof (ts_le_trans _ _ _ Hle Htop) as H. unfold UncertaintyCeiling, ts_le, ts_lt in H. cbn [Wall Logical] in H.
    destruct H as [H|H]; [lia|]. rewrite H. exact Hroom. }
  rewrite (Hno _ _ Htop), andb_false_r. destruct (xr_Uncertain r); [|done]. cbn [negb].
  rewrite (proj2 (Less_spec _ _) Hlt). cbn [negb].
  replace (Less (if Timestamp_IsSet _ then _ else _) commit) with false.
  - unfold RestartAt. by rewrite (proj2 (Less_spec _ _) (proj1 (Next_succ _ Hok Hlim))).
  - symmetry. destruct (Timestamp_IsSet _); apply Hno; [done|by eapply ts_le_trans].
Qed.

(** What the record of a read says, from what the store answered. *)
Lemma answerOf_spec m c rng' node index at_ :
  state_ok m → cmd_ok c → asked c → tc_Op c = OpTxnGet →
  let r := readRecord rng' node index c (answerOf m c) at_ in
  blockedOK r ∧ envelope maxOffset r = None
  ∧ (settled r → Timestamp_IsSet (tc_ReadTS c) = true
      ∧ (∀ l, lock_of ns m (tc_Key c) = Some l → ts_lt (tc_ReadTS c) (l_StartTS l))
      ∧ ∃ v, snapshot_view ns m (tc_Key c) (tc_ReadTS c) v ∧ xr_Found r = bool_decide (is_Some v) ∧ xr_Value r = default [] v).
Proof.
  intros Hm Hc Ha Hop. cbv zeta. unfold answerOf.
  pose proof (GetTxn_answer m (tc_Key c) (tc_ReadTS c) (ceilingOf maxOffset c) (plain ns mark) (map_wf m) (ro_writes _ _ (so_records _ Hm)) (ck_key _ Hc)) as Hg.
  cbn [contents Map_laws s_ns plain] in Hg.
  assert (Hceil : Less (UncertaintyCeiling (tc_ReadTS c) maxOffset) (ceilingOf maxOffset c) = false).
  { apply not_true_iff_false. rewrite Less_spec. unfold ceilingOf. destruct (Timestamp_IsSet (tc_MaxTS c)) eqn:E.
    - intros Hlt. by apply (ts_lt_not_le _ _ Hlt), (ask_ceiling _ Ha).
    - apply irreflexivity, _. }
  assert (Hplain : ∀ r, xr_At r = tc_ReadTS c → xr_Ceiling r = ceilingOf maxOffset c → xr_Uncertain r = false → envelope maxOffset r = None).
  { intros r Ra Rc Ru. unfold envelope. rewrite Ra, Rc, Ru. fold (UncertaintyCeiling (tc_ReadTS c) maxOffset). rewrite Hceil, andb_false_r. done. }
  inversion Hg as [Hs Heq|Hs Hle Heq|l Hs Hlt Hl Hle Heq|res Hs Hlt Hl Hres Heq]; cbn [readResult].
  - split_and!; [by intros ?|by apply Hplain|by intros (_ & _ & ?)].
  - split_and!; [by intros ?|by apply Hplain|by intros (_ & _ & ?)].
  - split_and!; [|by apply Hplain|by intros (? & _)]. intros _. cbn. split; [|by eapply (so_locks _ Hm); [apply Hc|]].
    apply not_true_iff_false. rewrite Less_spec. intros Hlt'. by apply (ts_lt_not_le _ _ Hlt').
  - destruct (fst (GetTxn _ _ _ _ _)) as [v|err] eqn:Ev; rewrite ?Ev; subst res.
    + destruct Hres as [Hview _]. split_and!; [by destruct v|by apply Hplain; destruct v|].
      intros _. split_and!; [done|done|]. exists v. by destruct v.
    + destruct err; try done; cbn [readResult].
      * split_and!; [by intros ?|by apply Hplain|by intros (_ & _ & ?)].
      * destruct Hres as (-> & -> & Hlt1 & Hle1 & (st & Hreal) & _). split_and!; [by intros ?| |by intros (_ & ? & _)].
        by eapply (envelope_uncertain c); [..|done|done]; [done|done|apply Hreal|done..].
Qed.

(** A settled answer stays the answer. *)
Lemma recorded_stable ss m index key T v :
  state_ok m → key_ok key → answered ns m key T v → disciplined_run ns mark desc m (fst <$> ss) → Forall (λ s, asked (fst s)) ss →
  ∀ r, r ∈ recordedReads m index ss → settled r → xr_Key r = key → xr_At r = T →
  xr_Found r = bool_decide (is_Some v) ∧ xr_Value r = default [] v.
Proof.
  revert m index. induction ss as [|[c who] ss IH]; intros m index Hm Hk Hans Hrun Hask r Hr; [by apply elem_of_nil in Hr|].
  destruct Hrun as (Hc & Hd & Hrun). apply Forall_cons in Hask as [Ha Hask]. cbn [fst] in Ha.
  pose proof (state_ok_step m c Hm Hc Hd Ha) as Hm'. pose proof (answered_step ns mark desc m c (so_records _ Hm) Hc Hd key T v Hk Hans) as Hans'.
  cbn [recordedReads] in Hr. apply elem_of_app in Hr as [Hr|Hr]; [|by eapply IH].
  destruct who as [[node at_]|]; [|by apply elem_of_nil in Hr]. case_bool_decide as Hop; [|by apply elem_of_nil in Hr].
  apply list_elem_of_singleton in Hr. subst r. intros Hs Ek Et. cbn in Ek, Et.
  destruct (answerOf_spec _ c rng node index at_ Hm' Hc Ha Hop) as (_ & _ & Hset). destruct (Hset Hs) as (_ & _ & v' & Hv & Hf & Hval).
  rewrite Ek, Et in Hv. rewrite (snapshot_view_fun _ _ _ _ _ _ Hv (an_view _ _ _ _ _ Hans')) in Hf, Hval. done.
Qed.

Lemma recorded_ok ss m index :
  state_ok m → disciplined_run ns mark desc m (fst <$> ss) → Forall (λ s, asked (fst s)) ss →
  let rs := recordedReads m index ss in
  stableReads rs ∧ Forall (λ r, envelope maxOffset r = None ∧ ts_ok (xr_At r)) rs.
Proof.
  revert m index. induction ss as [|[c who] ss IH]; intros m index Hm Hrun Hask; cbv zeta.
  { split; [split; [constructor|by intros ? ? ?%elem_of_nil]|constructor]. }
  destruct Hrun as (Hc & Hd & Hrun). apply Forall_cons in Hask as [Ha Hask]. cbn [fst] in Ha.
  pose proof (state_ok_step m c Hm Hc Hd Ha) as Hm'. destruct (IH _ (index + 1) Hm' Hrun Hask) as [[Hb Hst] He]. cbn [recordedReads].
  destruct who as [[node at_]|]; [|done]. case_bool_decide as Hop; [|done]. cbn [app].
  destruct (answerOf_spec _ c rng node index at_ Hm' Hc Ha Hop) as (Hb0 & He0 & Hset).
  set (r0 := readRecord _ _ _ _ _ _) in *.
  assert (H0 : settled r0 → ∀ r, r ∈ recordedReads (txn_step ns mark desc m c) (index + 1) ss → settled r → xr_Key r0 = xr_Key r → xr_At r0 = xr_At r → sameAnswer r0 r).
  { intros S0 r Hr Sr Ek Ea. destruct (Hset S0) as (Hts & Hl & v & Hv & Hf & Hval).
    destruct (recorded_stable ss (txn_step ns mark desc m c) (index + 1) (tc_Key c) (tc_ReadTS c) v) with (r := r) as [F V]; try done; [apply Hc| |by split; congruence].
    split; [done|by apply read_leaves_mark; [apply Hm|..]|intros l El; left; by apply Hl|by apply (so_ordered _ Hm'), Hc]. }
  split; [|by constructor; [split; [done|apply Hc]|]]. split; [by constructor|].
  intros r s Hr Hs Sr Ss Ek Ea. apply elem_of_cons in Hr as [->|Hr], Hs as [->|Hs]; [done|by apply H0| |by apply Hst].
  destruct (H0 Ss r Hr Sr) as [F V]; [done|done|by split].
Qed.
End Reads.

(** ** The whole ledger *)

(** The history of one range: its steps from the empty state. *)
Record history := MkHistory { h_ns : bytes; h_mark : Timestamp; h_desc : RangeDescriptor; h_steps : list step }.

Definition history_reads (maxOffset : Z) (h : history) : list TxnReadRecord :=
  recordedReads (h_ns h) (h_mark h) (h_desc h) (d_ID (h_desc h)) maxOffset ∅ 1 (h_steps h).

Record history_ok (maxOffset : Z) (h : history) : Prop := MkHistoryOk {
  ho_run : disciplined_run (h_ns h) (h_mark h) (h_desc h) ∅ (fst <$> h_steps h);
  ho_asked : Forall (λ s, asked maxOffset (fst s)) (h_steps h);
  ho_owned : Forall (λ s, Contains (h_desc h) (tc_Key (fst s)) = true) (h_steps h);
}.

Lemma state_ok_empty ns : state_ok ns ∅.
Proof.
  split; [split; intros b v Hb; [by rewrite lookup_empty in Hb..|]; intros _ Hs; rewrite lookup_empty in Hs; by destruct Hs| |].
  - intros k _ t st [_ Hw]. unfold write_of in Hw. by rewrite lookup_empty in Hw.
  - intros k l _ Hl. unfold lock_of in Hl. by rewrite lookup_empty in Hl.
Qed.

Lemma recorded_keys ns mark desc rng maxOffset ss m index r :
  r ∈ recordedReads ns mark desc rng maxOffset m index ss → ∃ s, s ∈ ss ∧ xr_Key r = tc_Key (fst s).
Proof.
  revert m index. induction ss as [|[c who] ss IH]; intros m index Hr; [by apply elem_of_nil in Hr|].
  cbn [recordedReads] in Hr. apply elem_of_app in Hr as [Hr|Hr].
  - exists (c, who). split; [left|]. destruct who as [[node at_]|]; [|by apply elem_of_nil in Hr]. case_bool_decide; [|by apply elem_of_nil in Hr].
    apply list_elem_of_singleton in Hr. by subst r.
  - destruct (IH _ _ Hr) as (s & Hs & E). exists s. split; [by right|done].
Qed.

(** C14. The store keeps its oracles quiet: take ranges that tile the keys, and for each
    any sequence of transaction steps - prewrites, commits, rollbacks, resolutions and
    reads of any transactions, in any order, the commits and rollbacks being those of
    coordinators that commit what they hold and do not roll back what they committed.
    However the answers the ranges give are interleaved in the ledger, the snapshot
    isolation oracle and the uncertainty oracle find nothing: a blocked read names a lock
    below it with a primary, one question never gets two answers, and a restart is for
    a commit inside the interval and to a timestamp above it. *)
Theorem store_passes_oracles maxOffset hs l compared :
  Forall (history_ok maxOffset) hs →
  (∀ i j h h' k, hs !! i = Some h → hs !! j = Some h' → Contains (h_desc h) k = true → Contains (h_desc h') k = true → i = j) →
  lg_txnReads l ≡ₚ hs ≫= history_reads maxOffset →
  fst (SnapshotIsolation_Check l compared) = None ∧ UncertaintyEnvelope_Check maxOffset l = None.
Proof.
  intros Hok Htile Hp. rewrite Forall_forall in Hok.
  assert (Hall : ∀ h, h ∈ hs → stableReads (history_reads maxOffset h) ∧ Forall (λ r, envelope maxOffset r = None ∧ ts_ok (xr_At r)) (history_reads maxOffset h)).
  { intros h Hh. destruct (Hok h Hh) as [Hrun Hask _]. by apply recorded_ok; [apply state_ok_empty|..]. }
  assert (Hin : ∀ r, r ∈ lg_txnReads l → ∃ i h, hs !! i = Some h ∧ r ∈ history_reads maxOffset h).
  { intros r Hr. rewrite Hp in Hr. apply list_elem_of_bind in Hr as (h & Hr & Hh). apply list_elem_of_lookup in Hh as [i Hi]. eauto. }
  assert (Hmem : ∀ r, r ∈ lg_txnReads l → blockedOK r ∧ envelope maxOffset r = None ∧ ts_ok (xr_At r)).
  { intros r (i & h & Hi & Hr)%Hin. destruct (Hall h) as [[Hb _] He]; [by eapply list_elem_of_lookup_2|]. rewrite Forall_forall in Hb, He. split; [by apply Hb|by apply He]. }
  split; [|apply firstSome_None; intros r Hr; by apply Hmem].
  unfold SnapshotIsolation_Check. apply (siReads_spec [] (lg_txnReads l) ∅ compared).
  - cbn [app]. apply Forall_forall. intros r Hr. by apply Hmem.
  - split; [constructor|]. by intros ? ? ?%elem_of_nil.
  - intros k r. by rewrite lookup_empty.
  - by intros r ?%elem_of_nil.
  - cbn [app]. split; [apply Forall_forall; intros r Hr; by apply Hmem|].
    intros r s Hr Hs Sr Ss Ek Ea. destruct (Hin r Hr) as (i & h & Hi & Hr'), (Hin s Hs) as (j & h' & Hj & Hs').
    assert (i = j) as ->.
    { destruct (recorded_keys _ _ _ _ _ _ _ _ _ Hr') as (x & Hx & Ex), (recorded_keys _ _ _ _ _ _ _ _ _ Hs') as (y & Hy & Ey).
      apply (Htile i j h h' (xr_Key r)); [done|done|rewrite Ex|rewrite Ek, Ey].
      - destruct (Hok h (list_elem_of_lookup_2 _ _ _ Hi)) as [_ _ Ho]. rewrite Forall_forall in Ho. by apply Ho.
      - destruct (Hok h' (list_elem_of_lookup_2 _ _ _ Hj)) as [_ _ Ho]. rewrite Forall_forall in Ho. by apply Ho. }
    rewrite Hi in Hj. injection Hj as <-. destruct (Hall h (list_elem_of_lookup_2 _ _ _ Hi)) as [[_ Hst] _]. by apply Hst.
Qed.

(** A read, a prewrite above it, its commit, and the read again. *)
Definition oneHistory : history :=
  MkHistory nsR zeroTimestamp FirstRangeDescriptor
    [(readC, Some (0, 1)); (prewriteC ts9, None); (commitC ts9 ts10, None); (readC, Some (1, 2))].
Definition oneLedger : Ledger :=
  foldl (λ l r, CheckLedger.RecordTxnRead r l) (NewLedger 2) (history_reads 0 oneHistory).

Lemma store_passes_oracles_witness :
  SnapshotIsolation_Check oneLedger 0 = (None, 1)
  ∧ fst (SnapshotIsolation_Check oneLedger 0) = None ∧ UncertaintyEnvelope_Check 0 oneLedger = None.
Proof.
  split; [by vm_compute|]. apply (store_passes_oracles 0 [oneHistory] oneLedger 0).
  - apply Forall_singleton. split.
    + cbn [fmap list_fmap fst oneHistory h_steps disciplined_run h_ns h_mark h_desc]. split; [exact readC_ok|]. split; [split; intros [?|[? _]]; discriminate|].
      split; [exact prewriteC_ok|]. split; [split; intros [?|[? _]]; discriminate|].
      split; [exact commitC_ok|]. split; [split; [|intros [?|[? _]]; discriminate]|].
      * intros _. split; [left; by vm_compute|]. left. by vm_compute.
      * split; [exact readC_ok|]. split; [split; intros [?|[? _]]; discriminate|done].
    + repeat (apply Forall_cons; split; [split; vm_compute; (discriminate || reflexivity)|]). constructor.
    + repeat (apply Forall_cons; split; [by vm_compute|]). constructor.
  - intros [|i] [|j] h h' k Hi Hj _ _; [done|discriminate..].
  - vm_compute. reflexivity.
Defined.
