(* ===== verification/BankCoord.v ===== *)
(** * The transaction coordinator

    src/sim/hunt/bank.go: the client that moves money between accounts with two-phase
    commits over the store, and audits them.  A transfer takes its snapshot, prewrites
    both accounts, writes its record on the primary and commits its keys; locks it meets
    are resolved, uncertain commits restart it.  [applied] is the handler of an answer.
    The coordinator asks nodes for timestamps through [TimeSource]; what it schedules,
    sends and is given is appended to [co_out].  A panic is [None]. *)

From Stdlib Require Import Lia ZArith.
From stdpp Require Import base tactics numbers option gmap list.
From S2P Require Import Prelude Bytes ConfChange RaftTypes Hlc SimQueue SimLoop SimTransport CheckLedger CheckOracles Engine KvEncoding EngineIface KvStore KvTxn EngineMap StoreCodec CheckTxn StoreReplay StoreTxn StoreRange StoreNode.

(** ** Accounts and balances *)

(** [fmt.Sprintf("a%02d", i)] *)
Definition account (i : Z) : bytes :=
  Byte.x61 :: (if (0 <=? i) && (i <? 10) then Byte.x30 :: decimal i else decimal i).

(** [strconv.Itoa(v) + "@" + strconv.Itoa(txn)] *)
Definition balance (v txn : Z) : bytes := decimal v ++ Byte.x40 :: decimal txn.

(** [strconv.Atoi]: a sign, digits, and a value of 64 bits. *)
Definition isDigit (b : byte) : bool := (48 <=? b2z b) && (b2z b <=? 57).
Definition Atoi (s : bytes) : option Z :=
  let '(neg, ds) := match s with
                    | c :: ds => if bool_decide (c = Byte.x2d) then (true, ds) else if bool_decide (c = Byte.x2b) then (false, ds) else (false, s)
                    | [] => (false, s)
                    end in
  match ds with
  | [] => None
  | _ => if forallb isDigit ds then
           let v := if neg then - undigits ds else undigits ds in
           if (- 2 ^ 63 <=? v) && (v <? 2 ^ 63) then Some v else None
         else None
  end.

(** [strings.Cut(s, "@")]: what is before and after the first. *)
Fixpoint cutAt (s : bytes) : option (bytes * bytes) :=
  match s with
  | [] => None
  | c :: s => if bool_decide (c = Byte.x40) then Some ([], s)
              else '(a, b) ← cutAt s; Some (c :: a, b)
  end.

Definition parseBalance (s : bytes) : option (Z * Z) :=
  '(amt, who) ← cutAt s;
  v ← Atoi amt;
  w ← Atoi who;
  Some (v, w).

(** ** Constants *)

Definition DefaultTTL : Z := 500 * 1000000.
Definition maxRestarts : Z := 3.
Definition maxResolves : Z := 6.
Definition maxAuditResolves : Z := 16.
Definition maxAuditRestarts : Z := 8.
Definition auditPoll : Z := 400 * 1000000.
Definition auditPolls : nat := 6.
Definition secondPassDelay : Z := 600 * 1000000.
Definition auditLookback : Z := 2 * DefaultTTL.
Definition resolveBackoff : Z := DefaultTTL / 2.

Definition Wall_Add (w d : Z) : Z := i64 (w + d).

(** ** State *)

Inductive txnPhase := phaseRead | phasePrewrite | phasePrimaryRecord | phaseCommitKeys | phaseAbort | phaseDone | phaseAbandoned.
#[global] Instance txnPhase_eq_dec : EqDecision txnPhase.
Proof. solve_decision. Defined.

(** The source's [node] is never set. *)
Record transfer := MkTransfer {
  tf_id : Z;
  tf_origin : Z;
  tf_startTS : Timestamp;
  tf_commitTS : Timestamp;
  tf_primary : bytes;
  tf_keys : list bytes;
  tf_from : bytes;
  tf_to : bytes;
  tf_amount : Z;
  tf_ceiling : Timestamp;
  tf_ts : Z;
  tf_blocked : gmap bytes bytes;
  tf_read : gmap bytes Z;
  tf_values : gmap bytes bytes;
  tf_phase : txnPhase;
  tf_ack : gset bytes;
  tf_restarts : Z;
  tf_resolves : gmap bytes Z;
}.
#[global] Instance transfer_eta : Eta transfer := λ t,
  MkTransfer (tf_id t) (tf_origin t) (tf_startTS t) (tf_commitTS t) (tf_primary t) (tf_keys t) (tf_from t) (tf_to t) (tf_amount t)
    (tf_ceiling t) (tf_ts t) (tf_blocked t) (tf_read t) (tf_values t) (tf_phase t) (tf_ack t) (tf_restarts t) (tf_resolves t).
#[global] Instance upd_tf_startTS : Field tf_startTS := ltac:(derive_field).
#[global] Instance upd_tf_commitTS : Field tf_commitTS := ltac:(derive_field).
#[global] Instance upd_tf_ceiling : Field tf_ceiling := ltac:(derive_field).
#[global] Instance upd_tf_blocked : Field tf_blocked := ltac:(derive_field).
#[global] Instance upd_tf_read : Field tf_read := ltac:(derive_field).
#[global] Instance upd_tf_values : Field tf_values := ltac:(derive_field).
#[global] Instance upd_tf_phase : Field tf_phase := ltac:(derive_field).
#[global] Instance upd_tf_ack : Field tf_ack := ltac:(derive_field).
#[global] Instance upd_tf_restarts : Field tf_restarts := ltac:(derive_field).
#[global] Instance upd_tf_resolves : Field tf_resolves := ltac:(derive_field).

Record audit := MkAuditState {
  au_id : Z;
  au_origin : Z;
  au_readTS : Timestamp;
  au_seen : gmap bytes Z;
  au_need : Z;
  au_ceiling : Timestamp;
  au_resolves : gmap bytes Z;
  au_restarts : Z;
  au_done : bool;
  au_blocked : gmap bytes bytes;
}.
#[global] Instance audit_eta : Eta audit := λ a,
  MkAuditState (au_id a) (au_origin a) (au_readTS a) (au_seen a) (au_need a) (au_ceiling a) (au_resolves a) (au_restarts a) (au_done a) (au_blocked a).
#[global] Instance upd_au_seen : Field au_seen := ltac:(derive_field).
#[global] Instance upd_au_resolves : Field au_resolves := ltac:(derive_field).
#[global] Instance upd_au_done : Field au_done := ltac:(derive_field).
#[global] Instance upd_au_blocked : Field au_blocked := ltac:(derive_field).

(** The counters the exit run asserts. *)
Inductive counter :=
| c_started | c_committed | c_abandoned | c_reads | c_readerResolves | c_restarts | c_refusedReads | c_unparseable
| c_auditsStarted | c_auditsComplete | c_auditsLocked | c_auditsUncertain | c_auditsRetried | c_identityCollisions | c_secondPass
| c_foreignTagStarts | c_staleRestarts | c_staleIncarnation | c_resolveWaited | c_resolvedForward | c_resolvedBack | c_aborted | c_lostToResolver.
#[global] Instance counter_eq_dec : EqDecision counter.
Proof. solve_decision. Defined.

(** What the harness schedules for later: the closures of [schedule] and [pollAudit]. *)
Inductive action :=
| ABegin (id from to amount : Z)
| AAbandon (id : Z)
| AAudit (id at_ : Z)
| APoll (origin when_ : Z).

(** A command offered to every node at a time, an action scheduled, a timestamp given by
    a node (the node asked and the one that answered). *)
Inductive output :=
| OSend (at_ : Z) (c : TxnCommand)
| ODo (at_ : Z) (a : action)
| OMint (asked answered : Z) (ts : Timestamp).

(** What a node's clock offers a client. *)
Class TimeSource (D : Type) := {
  drv_Now : D → option (Timestamp * D);
  drv_NowAbove : Timestamp → D → option (Timestamp * D);
}.

#[global] Instance TxnCommand_eta : Eta TxnCommand := λ c,
  MkTxnCommand (tc_Op c) (tc_Key c) (tc_Value c) (tc_Primary c) (tc_StartTS c) (tc_CommitTS c) (tc_Deadline c) (tc_Status c)
    (tc_ReadTS c) (tc_Origin c) (tc_ExpireAt c) (tc_MaxTS c).
#[global] Instance upd_tc_Value : Field tc_Value := ltac:(derive_field).
#[global] Instance upd_tc_Primary : Field tc_Primary := ltac:(derive_field).
#[global] Instance upd_tc_StartTS : Field tc_StartTS := ltac:(derive_field).
#[global] Instance upd_tc_CommitTS : Field tc_CommitTS := ltac:(derive_field).
#[global] Instance upd_tc_Deadline : Field tc_Deadline := ltac:(derive_field).
#[global] Instance upd_tc_Status : Field tc_Status := ltac:(derive_field).
#[global] Instance upd_tc_ReadTS : Field tc_ReadTS := ltac:(derive_field).
#[global] Instance upd_tc_Origin : Field tc_Origin := ltac:(derive_field).
#[global] Instance upd_tc_ExpireAt : Field tc_ExpireAt := ltac:(derive_field).
#[global] Instance upd_tc_MaxTS : Field tc_MaxTS := ltac:(derive_field).

Definition command (op : TxnOp) (key : bytes) : TxnCommand :=
  MkTxnCommand op key [] [] zeroTimestamp zeroTimestamp zeroTimestamp TxnPending zeroTimestamp 0 zeroTimestamp zeroTimestamp.

Section Coordinator.
Context {D : Type} `{TimeSource D}.

(** The source's [hist] is not used. *)
Record coordinator := MkCoordinator {
  co_drivers : list D;
  co_nodes : nat;
  co_ledger : Ledger;
  co_live : gmap Z transfer;
  co_deadline : Z;
  co_nextOrigin : Z;
  co_identities : gset bytes;
  co_accounts : nat;
  co_count : nat;
  co_audits : gmap Z audit;
  co_stats : counter → Z;
  co_out : list output;
}.
#[global] Instance coordinator_eta : Eta coordinator := λ c,
  MkCoordinator (co_drivers c) (co_nodes c) (co_ledger c) (co_live c) (co_deadline c) (co_nextOrigin c) (co_identities c)
    (co_accounts c) (co_count c) (co_audits c) (co_stats c) (co_out c).
#[global] Instance upd_co_drivers : Field co_drivers := ltac:(derive_field).
#[global] Instance upd_co_ledger : Field co_ledger := ltac:(derive_field).
#[global] Instance upd_co_live : Field co_live := ltac:(derive_field).
#[global] Instance upd_co_nextOrigin : Field co_nextOrigin := ltac:(derive_field).
#[global] Instance upd_co_identities : Field co_identities := ltac:(derive_field).
#[global] Instance upd_co_audits : Field co_audits := ltac:(derive_field).
#[global] Instance upd_co_stats : Field co_stats := ltac:(derive_field).
#[global] Instance upd_co_out : Field co_out := ltac:(derive_field).

Implicit Types c : coordinator.
Implicit Types t : transfer.
Implicit Types a : audit.

Definition newCoordinator (drivers : list D) (nodes : nat) (l : Ledger) (accounts transfers : nat) : coordinator :=
  MkCoordinator drivers nodes l ∅ (4 * 1000000000) 0 ∅ accounts transfers ∅ (λ _, 0) [].

Definition count (k : counter) c : coordinator :=
  c <| co_stats := λ k', if decide (k = k') then co_stats c k' + 1 else co_stats c k' |>.
Definition out (o : output) c : coordinator := c <| co_out := co_out c ++ [o] |>.
(** A transfer or an audit the coordinator points to has been changed. *)
Definition putT t c : coordinator := c <| co_live := <[tf_origin t := t]> (co_live c) |>.
Definition putA a c : coordinator := c <| co_audits := <[au_origin a := a]> (co_audits c) |>.
Definition tellL (f : Ledger → Ledger) c : coordinator := c <| co_ledger := f (co_ledger c) |>.

(** ** Timestamps *)

(** The first node that answers, from [i] on; [None] is the source's false. *)
Fixpoint mintFrom (ask : D → option (Timestamp * D)) (i : Z) (k : nat) (tries : nat) c : option (Timestamp * Z * coordinator) :=
  match tries with
  | O => None
  | S tries =>
      let n := (i + Z.of_nat k) mod Z.of_nat (length (co_drivers c)) in
      match co_drivers c !! Z.to_nat n ≫= ask with
      | Some (ts, d) => Some (ts, n, out (OMint i n ts) (c <| co_drivers := <[Z.to_nat n := d]> (co_drivers c) |>))
      | None => mintFrom ask i (S k) tries c
      end
  end.
Definition nowFrom (i : Z) c : option (Timestamp * Z * coordinator) := mintFrom drv_Now i 0 (length (co_drivers c)) c.
Definition nowAboveFrom (i : Z) (lb : Timestamp) c : option (Timestamp * Z * coordinator) :=
  mintFrom (drv_NowAbove lb) i 0 (length (co_drivers c)) c.

Definition checkStartTag t (node : Z) c : coordinator := if negb (NodeOf (tf_startTS t) =? u32 node) then count c_foreignTagStarts c else c.

(** ** Sending *)

Definition send t (cmd : TxnCommand) (at_ : Z) c : coordinator :=
  out (OSend at_ (cmd <| tc_ReadTS := tf_startTS t |> <| tc_Origin := tf_origin t |>)) c.
Definition broadcast (cmd : TxnCommand) (at_ : Z) c : coordinator := out (OSend at_ cmd) c.

(** The events a send is: one request, offered to every node. *)
Definition offered (nodes : nat) (at_ : Z) (cmd : TxnCommand) : list (request Request) :=
  (λ i, MkReq at_ SimQueue.KindClient (Z.of_nat i)
          (Some (MkRequest 0 0 opTxn (tc_Key cmd) [] (-1) false zeroTimestamp (Some cmd) FirstRange 1))) <$> seq 0 nodes.

Definition readAt t (key : bytes) (at_ : Z) c : coordinator :=
  send t (command OpTxnGet key <| tc_StartTS := tf_startTS t |> <| tc_ReadTS := tf_startTS t |> <| tc_MaxTS := tf_ceiling t |>) at_
    (count c_reads c).
Definition readAll t (at_ : Z) c : coordinator := foldl (λ c k, readAt t k at_ c) c (tf_keys t).

(** ** A transfer's life *)

Definition begin_ t (at_ : Z) c : coordinator :=
  let key := Timestamp_String (tf_startTS t) in
  let c := if bool_decide (key ∈ co_identities c) then count c_identityCollisions c
           else c <| co_identities := {[key]} ∪ co_identities c |> in
  let t := t <| tf_phase := phaseRead |> <| tf_read := ∅ |> in
  let c := count c_started (putT t c) in
  let c := tellL (RecordTxnBegin (MkTxnRec (tf_id t) (tf_startTS t) zeroTimestamp (tf_primary t) (tf_keys t) at_ 0 false 0)) c in
  readAll t at_ c.

Definition abandon t c : coordinator :=
  if bool_decide (tf_phase t = phaseDone) || bool_decide (tf_phase t = phaseAbandoned) then c
  else count c_abandoned (c <| co_live := delete (tf_origin t) (co_live c) |>).

Definition abort t (at_ : Z) c : coordinator :=
  if bool_decide (tf_phase t = phaseDone) || bool_decide (tf_phase t = phaseAbandoned) || bool_decide (tf_phase t = phaseAbort) then c
  else
    let t := t <| tf_phase := phaseAbort |> in
    send t (command OpPutTxnRecord (tf_primary t) <| tc_Status := TxnRolledBack |> <| tc_StartTS := tf_startTS t |>) at_
      (putT t (count c_aborted c)).

Definition prewrite t (at_ : Z) c : option coordinator :=
  if negb (forallb (λ k, bool_decide (is_Some (tf_read t !! k))) (tf_keys t)) then None
  else
    let rd k := default 0 (tf_read t !! k) in
    let t := t <| tf_values := <[tf_from t := balance (i64 (rd (tf_from t) - tf_amount t)) (tf_id t)]> (tf_values t) |> in
    let t := t <| tf_values := <[tf_to t := balance (i64 (rd (tf_to t) + tf_amount t)) (tf_id t)]> (tf_values t) |> in
    let t := t <| tf_phase := phasePrewrite |> <| tf_ack := ∅ |> in
    Some (foldl (λ c k,
      send t (command OpPrewrite k <| tc_Value := default [] (tf_values t !! k) |> <| tc_Primary := tf_primary t |>
                <| tc_StartTS := tf_startTS t |> <| tc_Deadline := MkTimestamp (Wall_Add (Wall (tf_startTS t)) DefaultTTL) 0 |>) at_ c)
      (putT t c) (tf_keys t)).

Definition restartAbove t (ts : Timestamp) (at_ : Z) c : coordinator :=
  match nowAboveFrom (tf_ts t) ts c with
  | None => abandon t c
  | Some (minted, node, c) =>
      let t := t <| tf_restarts := tf_restarts t + 1 |> <| tf_startTS := minted |> in
      let c := count c_restarts c in
      let c := tellL (RecordTxnRestart (MkTxnRestart (tf_id t) minted at_)) c in
      let c := checkStartTag t node c in
      let c := if negb (Less ts (tf_startTS t)) then count c_staleRestarts c else c in
      let t := t <| tf_resolves := ∅ |> <| tf_blocked := ∅ |> <| tf_phase := phaseRead |> <| tf_read := ∅ |> in
      readAll t at_ (putT t c)
  end.

(** The loops that send a rollback or a commit of every key. *)
Definition rollbackKeys t (at_ : Z) c : coordinator :=
  foldl (λ c k, send t (command OpRollbackKey k <| tc_StartTS := tf_startTS t |>) at_ c) c (tf_keys t).
Definition commitKeys t (at_ : Z) c : coordinator :=
  foldl (λ c k, send t (command OpCommitKey k <| tc_StartTS := tf_startTS t |> <| tc_CommitTS := tf_commitTS t |>) at_ c) c (tf_keys t).

(** The key of the [blocked] maps. *)
Definition lockName (primary : bytes) (start : Timestamp) : bytes := primary ++ Timestamp_String start.

(** *** The cases of [applied] *)

(** A read answered with a value, or none. *)
Definition readValue (r : TxnResult) : option Z :=
  if x_Found r then fst <$> parseBalance (x_Value r) else Some 0.

Definition onRead t (cmd : TxnCommand) (r : TxnResult) (at_ : Z) c : option coordinator :=
  if negb (bool_decide (tc_ReadTS cmd = tf_startTS t)) then Some (count c_staleIncarnation c)
  else
    let t := if negb (Timestamp_IsSet (tf_ceiling t)) && Timestamp_IsSet (x_Ceiling r) then t <| tf_ceiling := x_Ceiling r |> else t in
    let c := putT t c in
    if x_Locked r then
      if default 0 (tf_resolves t !! tc_Key cmd) >=? maxResolves then Some (abandon t c)
      else
        let t := t <| tf_resolves := <[tc_Key cmd := default 0 (tf_resolves t !! tc_Key cmd) + 1]> (tf_resolves t) |> in
        let c := count c_readerResolves (putT t c) in
        match nowFrom (tf_ts t) c with
        | None => Some (abandon t c)
        | Some (ts, _, c) =>
            let t := t <| tf_blocked := <[lockName (x_LockPrimary r) (x_LockStartTS r) := tc_Key cmd]> (tf_blocked t) |> in
            Some (send t (command OpResolveStatus (x_LockPrimary r) <| tc_StartTS := x_LockStartTS r |> <| tc_Deadline := x_LockDeadline r |>
                            <| tc_ReadTS := tf_startTS t |> <| tc_ExpireAt := ts |>) at_ (putT t c))
        end
    else if x_Uncertain r then
      if tf_restarts t >=? maxRestarts then Some (abandon t c) else Some (restartAbove t (x_RestartAt r) at_ c)
    else if x_Refused r then Some (abandon t (count c_refusedReads c))
    else match readValue r with
         | None => Some (abandon t (count c_unparseable c))
         | Some v =>
             let t := t <| tf_read := <[tc_Key cmd := v]> (tf_read t) |> in
             let c := putT t c in
             if (size (tf_read t) <? length (tf_keys t))%nat then Some c else prewrite t at_ c
         end.

Definition onStatus t (cmd : TxnCommand) (r : TxnResult) (at_ : Z) c : coordinator :=
  match tf_blocked t !! lockName (tc_Key cmd) (tc_StartTS cmd) with
  | None => c
  | Some blocked =>
      if negb (x_Decided r) then readAt t blocked (i64 (at_ + resolveBackoff)) (count c_resolveWaited c)
      else
        let st := if x_Rollback r then TxnRolledBack else TxnCommitted in
        let c := count (if x_Rollback r then c_resolvedBack else c_resolvedForward) c in
        send t (command OpApplyResolution blocked <| tc_StartTS := tc_StartTS cmd |> <| tc_CommitTS := x_CommitTS r |> <| tc_Status := st |>) at_ c
  end.

Definition onPrewrite t (cmd : TxnCommand) (r : TxnResult) (at_ : Z) c : coordinator :=
  if x_Rejected r then abort t at_ c
  else
    let t := t <| tf_ack := {[tc_Key cmd]} ∪ tf_ack t |> in
    let c := putT t c in
    if (size (tf_ack t) <? length (tf_keys t))%nat then c
    else match nowFrom (tf_ts t) c with
         | None => abandon t c
         | Some (ts, _, c) =>
             let t := t <| tf_commitTS := ts |> <| tf_phase := phasePrimaryRecord |> in
             send t (command OpPutTxnRecord (tf_primary t) <| tc_Status := TxnCommitted |> <| tc_StartTS := tf_startTS t |>
                       <| tc_CommitTS := tf_commitTS t |>) at_ (putT t c)
         end.

Definition onRecord t (r : TxnResult) (at_ : Z) c : coordinator :=
  let t := t <| tf_ack := ∅ |> in
  if x_Rejected r then
    let t := t <| tf_phase := phaseAbort |> in
    rollbackKeys t at_ (putT t (count c_lostToResolver c))
  else
    let c := tellL (RecordTxnCommit (MkTxnCommit (tf_id t) (tf_commitTS t) at_)) (count c_committed c) in
    let t := t <| tf_phase := phaseCommitKeys |> in
    commitKeys t at_ (putT t c).

(** A key committed or rolled back; the last one ends the transfer. *)
Definition onKey t (cmd : TxnCommand) c : coordinator :=
  let t := t <| tf_ack := {[tc_Key cmd]} ∪ tf_ack t |> in
  if (size (tf_ack t) =? length (tf_keys t))%nat then c <| co_live := delete (tf_origin t) (co_live c) |> else putT t c.

(** ** Audits *)

Definition auditRead a (key : bytes) (at_ : Z) c : coordinator :=
  broadcast (command OpTxnGet key <| tc_ReadTS := au_readTS a |> <| tc_MaxTS := au_ceiling a |> <| tc_Origin := au_origin a |>) at_
    (count c_reads c).
Definition accountsOf c : list bytes := (λ i, account (Z.of_nat i)) <$> seq 0 (co_accounts c).

Definition pollAudit a (at_ : Z) c : coordinator :=
  foldl (λ c round, out (ODo (i64 (at_ + Z.of_nat round * auditPoll)) (APoll (au_origin a) (i64 (at_ + Z.of_nat round * auditPoll)))) c)
    c (seq 1 auditPolls).

(** The closure [pollAudit] schedules. *)
Definition poll (origin when_ : Z) c : coordinator :=
  match co_audits c !! origin with
  | None => c
  | Some a =>
      if au_done a then c
      else foldl (λ c k, if bool_decide (is_Some (au_seen a !! k)) then c else auditRead a k when_ (count c_auditsRetried c))
             c (accountsOf c)
  end.

Definition beginAudit (id at_ : Z) c : coordinator :=
  match nowFrom id c with
  | None => c
  | Some (now, _, c) =>
      let readTS := MkTimestamp (Wall_Add (Wall now) (- auditLookback)) 0 in
      let c := c <| co_nextOrigin := add64 (co_nextOrigin c) 1 |> in
      let a := MkAuditState id (co_nextOrigin c) readTS ∅ (Z.of_nat (co_accounts c)) readTS ∅ 0 false ∅ in
      let c := count c_auditsStarted (putA a c) in
      let c := foldl (λ c k, auditRead a k at_ c) c (accountsOf c) in
      pollAudit a at_ c
  end.

Definition total (seen : gmap bytes Z) : Z := map_fold (λ _ v s, i64 (s + v)) 0 seen.

Definition auditValue a (cmd : TxnCommand) (r : TxnResult) (at_ : Z) c : coordinator :=
  match readValue r with
  | None => putA (a <| au_done := true |>) (count c_unparseable c)
  | Some v =>
      if bool_decide (is_Some (au_seen a !! tc_Key cmd)) then c
      else
        let a := a <| au_seen := <[tc_Key cmd := v]> (au_seen a) |> in
        let c := putA a c in
        if Z.of_nat (size (au_seen a)) <? au_need a then c
        else
          let a := a <| au_done := true |> in
          let c := count c_auditsComplete (putA a c) in
          let c := tellL (RecordAudit (MkAudit (au_readTS a) (total (au_seen a)) (Z.of_nat (size (au_seen a))) at_)) c in
          foldl (λ c k, broadcast (command OpTxnGet k <| tc_ReadTS := au_readTS a |> <| tc_MaxTS := au_ceiling a |>)
                          (i64 (at_ + secondPassDelay)) (count c_secondPass c)) c (accountsOf c)
  end.

Definition auditGet a (cmd : TxnCommand) (r : TxnResult) (at_ : Z) c : coordinator :=
  if x_Locked r then
    let c := count c_auditsLocked c in
    if default 0 (au_resolves a !! tc_Key cmd) >=? maxAuditResolves then putA (a <| au_done := true |>) c
    else
      let a := a <| au_resolves := <[tc_Key cmd := default 0 (au_resolves a !! tc_Key cmd) + 1]> (au_resolves a) |> in
      let c := count c_readerResolves (putA a c) in
      match nowFrom (au_id a) c with
      | None => putA (a <| au_done := true |>) c
      | Some (ts, _, c) =>
          let a := a <| au_blocked := <[lockName (x_LockPrimary r) (x_LockStartTS r) := tc_Key cmd]> (au_blocked a) |> in
          broadcast (command OpResolveStatus (x_LockPrimary r) <| tc_StartTS := x_LockStartTS r |> <| tc_Deadline := x_LockDeadline r |>
                       <| tc_ReadTS := au_readTS a |> <| tc_ExpireAt := ts |> <| tc_Origin := au_origin a |>) at_ (putA a c)
      end
  else if x_Uncertain r then
    let a := a <| au_done := true |> in
    let c := putA a (count c_auditsUncertain c) in
    if au_restarts a >=? maxAuditRestarts then c
    else match nowAboveFrom (au_id a) (x_RestartAt r) c with
         | None => c
         | Some (restartTS, _, c) =>
             let c := c <| co_nextOrigin := add64 (co_nextOrigin c) 1 |> in
             let b := MkAuditState (au_id a) (co_nextOrigin c) restartTS ∅ (Z.of_nat (co_accounts c)) (au_ceiling a) ∅
                        (au_restarts a + 1) false ∅ in
             let c := count c_auditsStarted (putA b c) in
             foldl (λ c k, auditRead b k at_ c) c (accountsOf c)
         end
  else if x_Refused r then putA (a <| au_done := true |>) (count c_refusedReads c)
  else auditValue a cmd r at_ c.

Definition auditApplied (cmd : TxnCommand) (r : TxnResult) (at_ : Z) c : coordinator :=
  match co_audits c !! tc_Origin cmd with
  | None => c
  | Some a =>
      if au_done a then c
      else match tc_Op cmd with
           | OpResolveStatus =>
               let key := default [] (au_blocked a !! lockName (tc_Key cmd) (tc_StartTS cmd)) in
               if negb (x_Decided r) then auditRead a key (i64 (at_ + resolveBackoff)) (count c_resolveWaited c)
               else
                 let st := if x_Rollback r then TxnRolledBack else TxnCommitted in
                 let c := count (if x_Rollback r then c_resolvedBack else c_resolvedForward) c in
                 broadcast (command OpApplyResolution key <| tc_StartTS := tc_StartTS cmd |> <| tc_CommitTS := x_CommitTS r |>
                              <| tc_Status := st |> <| tc_ReadTS := au_readTS a |> <| tc_Origin := au_origin a |>) at_ c
           | OpApplyResolution => auditRead a (tc_Key cmd) at_ c
           | OpTxnGet => auditGet a cmd r at_ c
           | _ => c
           end
  end.

(** ** The handler of an answer *)

Definition applied (cmd : TxnCommand) (r : TxnResult) (at_ : Z) c : option coordinator :=
  match co_live c !! tc_Origin cmd with
  | None => Some (auditApplied cmd r at_ c)
  | Some t =>
      match tc_Op cmd, tf_phase t with
      | OpTxnGet, phaseRead => onRead t cmd r at_ c
      | OpResolveStatus, phaseRead => Some (onStatus t cmd r at_ c)
      | OpApplyResolution, phaseRead => Some (readAt t (tc_Key cmd) at_ c)
      | OpPrewrite, phasePrewrite => Some (onPrewrite t cmd r at_ c)
      | OpPutTxnRecord, phaseAbort => let t := t <| tf_ack := ∅ |> in Some (rollbackKeys t at_ (putT t c))
      | OpRollbackKey, phaseAbort => Some (onKey t cmd c)
      | OpPutTxnRecord, phasePrimaryRecord => Some (onRecord t r at_ c)
      | OpCommitKey, phaseCommitKeys => Some (onKey t cmd c)
      | _, _ => Some c
      end
  end.

(** ** What the harness schedules *)

Definition beginTransfer (id from to amount now : Z) c : coordinator :=
  match nowFrom id c with
  | None => c
  | Some (startTS, tsNode, c) =>
      let c := c <| co_nextOrigin := add64 (co_nextOrigin c) 1 |> in
      let t := MkTransfer id (co_nextOrigin c) startTS zeroTimestamp (account from) [account from; account to] (account from) (account to)
                 amount zeroTimestamp id ∅ ∅ ∅ phaseRead ∅ 0 ∅ in
      begin_ t now (checkStartTag t tsNode c)
  end.

(** The live transfer with this number. *)
Definition byID (id : Z) c : option transfer := head (filter (λ t, tf_id t = id) (snd <$> map_to_list (co_live c))).

Definition perform (x : action) (now : Z) c : coordinator :=
  match x with
  | ABegin id from to amount => beginTransfer id from to amount now c
  | AAbandon id => match byID id c with Some t => abandon t c | None => c end
  | AAudit id at_ => beginAudit id at_ c
  | APoll origin when_ => poll origin when_ c
  end.

(** [schedule], from the plan's key and the run's length; a draw from an empty range
    panics. *)
Definition scheduleTransfer (key : Key) (span : Z) c (i : nat) : option (list output) :=
  let n := Z.of_nat i in
  d ← Key_Uint64N key 20 n 0 0 (u64 (Z.quot (i64 (span * 8)) 10));
  from ← Key_Uint64N key 21 n 0 0 (Z.of_nat (co_accounts c));
  to ← Key_Uint64N key 22 n 0 0 (Z.of_nat (co_accounts c));
  let to := if to =? from then (to + 1) mod Z.of_nat (co_accounts c) else to in
  amount ← Key_Uint64N key 23 n 0 0 20;
  let at_ := i64 (Z.quot span 10 + i64 d) in
  Some [ODo at_ (ABegin n from to (amount + 1)); ODo (i64 (at_ + co_deadline c)) (AAbandon n)].
Definition scheduleAudit (key : Key) (span : Z) (i : nat) : option (list output) :=
  d ← Key_Uint64N key 24 (Z.of_nat i) 0 0 (u64 (Z.quot (i64 (span * 11)) 20));
  let at_ := i64 (Z.quot span 5 + i64 d) in
  Some [ODo at_ (AAudit (Z.of_nat i) at_)].
Definition schedule (key : Key) (span : Z) c : option coordinator :=
  ts ← mapM (scheduleTransfer key span c) (seq 0 (co_count c));
  xs ← mapM (scheduleAudit key span) (seq 0 16);
  Some (c <| co_out := co_out c ++ concat ts ++ concat xs |>).
End Coordinator.
Arguments coordinator : clear implicits.

(** The machines of the store are such sources. *)
Definition Node_TimeSource (cfg : NodeConfig) : TimeSource Node := {|
  drv_Now := λ m, Node_Now cfg m;
  drv_NowAbove := λ lb m, Node_NowAbove cfg lb m;
|}.
