(* ===== verification/SimPlan.v ===== *)
(** * Plans

    src/sim/plan, plan.go and materialize.go: the description of a run that a seed is
    turned into -- links, clocks and holds, timed faults and rules, client operations,
    floors -- what makes one legal ([Plan_Validate]), and the generator ([Materialize]).
    Strings are their bytes.  A struct with one member is that member, so the members of
    Network, Faults, Workload and Assert are members of [Plan].  The renderings to and
    from JSON are the standard library's.

    The generator draws from named streams of [Rng]; a draw is a [Gen], which takes the
    fuel of the rejection loop.  [Materialize_legal] shows that enough fuel exists for
    every seed and that what comes out is legal. *)

From Stdlib Require Import Lia ZArith String.
From stdpp Require Import base tactics numbers option gmap list sorting.
From S2P Require Import Prelude Bytes ClockTimeline SimTransport Rng CheckTxn.

Abbreviation str := list_byte_of_string.

(** ** The plan *)

Definition SchemaVersion : Z := 1.
Definition GeneratorVersion : Z := 1.
Definition defaultEpochNS : Z := 1600000000000000000.

Record Provenance := MkProvenance { pv_Seed : Z; pv_GitSHA : bytes; pv_GeneratorVersion : Z; pv_Note : bytes }.
Record PlanConfig := MkPlanConfig { pc_Nodes : Z; pc_DurationNS : Z; pc_TickIntervalNS : Z; pc_MaxOffsetNS : Z; pc_MaxSteps : Z }.
Record Keys := MkKeys { ks_Net : bytes; ks_EngineSync : bytes; ks_ClockJit : bytes; ks_Raft : bytes }.
Record PlanLink := MkPlanLink {
  ln_From : Z; ln_To : Z; ln_DropPerMille : Z; ln_DupPerMille : Z; ln_LatMinNS : Z; ln_LatMaxNS : Z; ln_TailPerMille : Z; ln_TailMaxNS : Z;
}.
(** Segments and steps have the members of the clock's own. *)
Record NodeClock := MkNodeClock { nc_Node : Z; nc_Skew : list Segment; nc_Steps : list WallStep; nc_Boots : list Z }.
Record PlanHold := MkPlanHold {
  ph_A : Z; ph_B : Z; ph_AtPPB : Z; ph_FromNS : Z; ph_ToNS : Z; ph_RampNS : Z; ph_Realize : bytes; ph_Envelope : bool;
}.
Record FaultEntry := MkFault { fe_AtNS : Z; fe_Action : bytes; fe_Node : Z; fe_From : Z; fe_To : Z }.
Record Rule := MkRule { ru_On : bytes; ru_AfterNS : Z; ru_Action : bytes; ru_Node : Z; ru_From : Z; ru_To : Z; ru_Times : Z }.
Record PlanOp := MkPlanOp { po_AtNS : Z; po_Client : Z; po_Seq : Z; po_Kind : bytes; po_Key : bytes; po_Value : bytes }.

Record Plan := MkPlan {
  pn_SchemaVersion : Z;
  pn_Provenance : Provenance;
  pn_Config : PlanConfig;
  pn_Keys : Keys;
  pn_Links : list PlanLink;
  pn_EpochNS : Z;
  pn_Clocks : list NodeClock;
  pn_Holds : list PlanHold;
  pn_Entries : list FaultEntry;
  pn_Rules : list Rule;
  pn_Ops : list PlanOp;
  pn_MinFires : gmap bytes Z;
}.
#[global] Instance Plan_eta : Eta Plan := λ p,
  MkPlan (pn_SchemaVersion p) (pn_Provenance p) (pn_Config p) (pn_Keys p) (pn_Links p) (pn_EpochNS p) (pn_Clocks p) (pn_Holds p)
    (pn_Entries p) (pn_Rules p) (pn_Ops p) (pn_MinFires p).
#[global] Instance upd_pn_Links : Field pn_Links := ltac:(derive_field).
#[global] Instance upd_pn_Clocks : Field pn_Clocks := ltac:(derive_field).
#[global] Instance upd_pn_Holds : Field pn_Holds := ltac:(derive_field).
#[global] Instance upd_pn_Entries : Field pn_Entries := ltac:(derive_field).
#[global] Instance upd_pn_Ops : Field pn_Ops := ltac:(derive_field).
#[global] Instance upd_pn_MinFires : Field pn_MinFires := ltac:(derive_field).
#[global] Instance PlanOp_eta : Eta PlanOp := λ o, MkPlanOp (po_AtNS o) (po_Client o) (po_Seq o) (po_Kind o) (po_Key o) (po_Value o).
#[global] Instance upd_po_Seq : Field po_Seq := ltac:(derive_field).

(** ** Legality *)

Inductive PlanError :=
| errSchemaVersion | errPlanNodes | errPlanTick | errPlanEpoch
| errKeyEmpty (name : bytes) | errKey (name : bytes)
| errClockNode (n : Z)
| errRealize (i : nat) | errHoldNode (i : nat) | errHoldWindow (i : nat) | errHoldLate (i : nat) | errHoldDrift (i : nat) | errTwoHolds (n : Z)
| errHoldRamp (i : nat) | errHoldEarly (i : nat)
| errEntryAction (i : nat) | errRuleAction (i : nat) | errRuleTrigger (i : nat)
| errGenerated (e : PlanError).

Definition knownAction (a : bytes) : bool :=
  bool_decide (a ∈ str <$> ["crash"; "restart"; "cut"; "heal"; "cut_both"; "heal_both"; "promote"; "conf"; "rebalance"]%string).

(** The nodes the schedules give free drift. *)
Definition drifts (nc : NodeClock) : bool := existsb (λ seg, negb (sg_SlopePPB seg =? 0)) (nc_Skew nc).
Fixpoint driftOf (nodes : Z) (drift : list bool) (ncs : list NodeClock) : result PlanError (list bool) :=
  match ncs with
  | [] => Ok drift
  | nc :: ncs =>
      if (nc_Node nc <? 0) || (nodes <=? nc_Node nc) then Err (errClockNode (nc_Node nc))
      else driftOf nodes (if drifts nc then <[Z.to_nat (nc_Node nc) := true]> drift else drift) ncs
  end.

Fixpoint holdsLegal (c : PlanConfig) (drift held : list bool) (i : nat) (hs : list PlanHold) : option PlanError :=
  match hs with
  | [] => None
  | h :: hs =>
      if negb (bool_decide (ph_Realize h = str "step")) && negb (bool_decide (ph_Realize h = str "slew")) then Some (errRealize i)
      else if (ph_B h <? 0) || (pc_Nodes c <=? ph_B h) then Some (errHoldNode i)
      else if ph_ToNS h <=? ph_FromNS h then Some (errHoldWindow i)
      else if pc_DurationNS c <=? ph_FromNS h then Some (errHoldLate i)
      else if default false (drift !! Z.to_nat (ph_B h)) then Some (errHoldDrift i)
      else if default false (held !! Z.to_nat (ph_B h)) then Some (errTwoHolds (ph_B h))
      else
        if bool_decide (ph_Realize h = str "slew") && (ph_RampNS h <=? 0) then Some (errHoldRamp i)
        else if bool_decide (ph_Realize h = str "slew") && (ph_FromNS h <? ph_RampNS h) then Some (errHoldEarly i)
        else holdsLegal c drift (<[Z.to_nat (ph_B h) := true]> held) (S i) hs
  end.
Definition validateHolds (p : Plan) : option PlanError :=
  let none := replicate (Z.to_nat (pc_Nodes (pn_Config p))) false in
  match driftOf (pc_Nodes (pn_Config p)) none (pn_Clocks p) with
  | Err e => Some e
  | Ok drift => holdsLegal (pn_Config p) drift none 0 (pn_Holds p)
  end.

Fixpoint firstSome {A B : Type} (f : nat → A → option B) (i : nat) (xs : list A) : option B :=
  match xs with [] => None | x :: xs => match f i x with Some e => Some e | None => firstSome f (S i) xs end end.
Definition keyError (k : bytes * bytes) : option PlanError :=
  if bool_decide (snd k = []) then Some (errKeyEmpty (fst k))
  else match ParseKey (snd k) with None => Some (errKey (fst k)) | Some _ => None end.
Definition entryError (i : nat) (e : FaultEntry) : option PlanError := if negb (knownAction (fe_Action e)) then Some (errEntryAction i) else None.
Definition ruleError (i : nat) (r : Rule) : option PlanError :=
  if negb (knownAction (ru_Action r)) then Some (errRuleAction i)
  else if bool_decide (ru_On r = []) then Some (errRuleTrigger i) else None.

Definition Plan_Validate (p : Plan) : option PlanError :=
  if negb (pn_SchemaVersion p =? SchemaVersion) then Some errSchemaVersion
  else if pc_Nodes (pn_Config p) <=? 0 then Some errPlanNodes
  else if pc_TickIntervalNS (pn_Config p) <=? 0 then Some errPlanTick
  else if pn_EpochNS p =? 0 then Some errPlanEpoch
  else match firstSome (λ _, keyError) 0
         [(str "net", ks_Net (pn_Keys p)); (str "engine_sync", ks_EngineSync (pn_Keys p)); (str "clock", ks_ClockJit (pn_Keys p)); (str "raft", ks_Raft (pn_Keys p))] with
  | Some e => Some e
  | None =>
      match validateHolds p with
      | Some e => Some e
      | None => match firstSome entryError 0 (pn_Entries p) with Some e => Some e | None => firstSome ruleError 0 (pn_Rules p) end
      end
  end.

(** Twice the slowest ordinary latency. *)
Definition ReplicationRTT (p : Plan) : Z := i64 (2 * foldl (λ worst l, if worst <? ln_LatMaxNS l then ln_LatMaxNS l else worst) 0 (pn_Links p)).

Definition realization (s : bytes) : Realization :=
  if bool_decide (s = str "step") then StepHold else if bool_decide (s = str "slew") then SlewHold else RealizeUnset.

(** ** The generator *)

Record GenConfig := MkGenConfig {
  gc_Nodes : Z; gc_Duration : Z; gc_TickInterval : Z; gc_MaxOffset : Z; gc_MaxSteps : Z;
  gc_Crashes : Z; gc_Partitions : Z; gc_Holds : Z; gc_ClientOps : Z; gc_EnvelopeExceeded : bool;
}.
Definition DefaultGenConfig : GenConfig := MkGenConfig 3 30000000000 10000000 500000000 2000000 2 2 1 40 false.

(** Code that draws from one stream; [None] is a panic, or fuel run out. *)
Definition Gen (A : Type) : Type := nat → PCG → option (A * PCG).
#[global] Instance Gen_ret : MRet Gen := λ A a f p, Some (a, p).
#[global] Instance Gen_bind : MBind Gen := λ A B k g f p, match g f p with Some (a, p) => k a f p | None => None end.
Definition draw (n : Z) : Gen Z := λ f p, IntN f n p.
Definition panic {A : Type} : Gen A := λ f p, None.
Fixpoint foldG {A S : Type} (g : S → A → Gen S) (s : S) (xs : list A) : Gen S :=
  match xs with [] => mret s | x :: xs => s ← g s x; foldG g s xs end.

(** A slice at an index; out of range it panics. *)
Definition nth {A : Type} (l : list A) (i : Z) : option A := if i <? 0 then None else l !! Z.to_nat i.

Definition second : Z := 1000000000.

Definition genLink (from to : Z) : Gen PlanLink :=
  drop ← draw 30; dup ← draw 6; lmin ← draw 400; lmax ← draw 6; tail ← draw 10; tmax ← draw 120;
  mret (MkPlanLink from to (u64 drop) (u64 dup) (i64 ((100 + lmin) * 1000)) (i64 ((1 + lmax) * 1000000)) (u64 tail) (i64 ((20 + tmax) * 1000000))).
Definition genNetwork (cfg : GenConfig) (p : Plan) : Gen Plan :=
  p ← foldG (λ p from,
        foldG (λ p to,
          if from =? to then mret p
          else l ← genLink from to; mret (p <| pn_Links := pn_Links p ++ [l] |>)) p (seqZ 0 (gc_Nodes cfg))) p (seqZ 0 (gc_Nodes cfg));
  mret (p <| pn_MinFires := <[str "sent" := 1]> (pn_MinFires p) |>).

(** A node and another one. *)
Definition genPair (nodes : Z) : Gen (Z * Z) :=
  a ← draw nodes; d ← draw (i64 (nodes - 1)); mret (a, Z.rem (i64 (a + 1 + d)) nodes).

Definition genHold (cfg : GenConfig) (st : list bool * Plan) (i : Z) : Gen (list bool * Plan) :=
  let '(held, p) := st in
  if gc_Nodes cfg <? 2 then mret (held, p)
  else
    '(a, b) ← genPair (gc_Nodes cfg);
    match nth held b with
    | None => panic
    | Some true => mret (held, p)
    | Some false =>
        let '(realize, ramp) := if Z.rem i 2 =? 1 then (str "step", 0) else (str "slew", 2 * second) in
        w ← draw (2 * second);
        let width := i64 (second + w) in
        o ← draw (Z.quot (pc_DurationNS (pn_Config p)) 2);
        let from := i64 (ramp + o) in
        let '(target, envelope) := if gc_EnvelopeExceeded cfg then (150 * (ppb / 100), true) else (90 * (ppb / 100), false) in
        mret (<[Z.to_nat b := true]> held, p <| pn_Holds := pn_Holds p ++ [MkPlanHold a b target from (i64 (from + width)) ramp realize envelope] |>)
    end.
Definition genClock (held : list bool) (p : Plan) (n : Z) : Gen Plan :=
  match nth held n with
  | None => panic
  | Some true => mret (p <| pn_Clocks := pn_Clocks p ++ [MkNodeClock n [] [] []] |>)
  | Some false =>
      r ← draw 401;
      mret (p <| pn_Clocks := pn_Clocks p ++ [MkNodeClock n [MkSegment 0 0 (i64 ((r - 200) * 1000))] [] []] |>)
  end.
Definition genClocks (cfg : GenConfig) (p : Plan) : Gen Plan :=
  '(held, p) ← foldG (genHold cfg) (replicate (Z.to_nat (gc_Nodes cfg)) false, p) (seqZ 0 (gc_Holds cfg));
  foldG (genClock held) p (seqZ 0 (gc_Nodes cfg)).

(** [sortEntries] and [sortOps]: the sorted prefix is kept with its last element first,
    and the next element sinks into it. *)
Section Sort.
Context {A : Type} (atNS : A → Z).
Fixpoint sink (x : A) (rs : list A) : list A :=
  match rs with
  | [] => [x]
  | y :: rs' => if atNS x <? atNS y then y :: sink x rs' else x :: rs
  end.
Definition sortAt (es : list A) : list A := reverse (foldl (λ rs x, sink x rs) [] es).
End Sort.

Definition bump (name : bytes) (m : gmap bytes Z) : gmap bytes Z := <[name := add64 (default 0 (m !! name)) 1]> m.
Definition genCrash (cfg : GenConfig) (p : Plan) (_ : Z) : Gen Plan :=
  let dur := pc_DurationNS (pn_Config p) in
  n ← draw (gc_Nodes cfg);
  at_ ← draw dur;
  let span := i64 (dur - at_ - 1) in
  let span := if 2 * second <? span then 2 * second else span in
  down ← (if 1 <? span then d ← draw span; mret (i64 (1 + d)) else mret 1 : Gen Z);
  mret (p <| pn_Entries := pn_Entries p ++ [MkFault at_ (str "crash") n 0 0; MkFault (i64 (at_ + down)) (str "restart") n 0 0] |>
          <| pn_MinFires := bump (str "restart") (bump (str "crash") (pn_MinFires p)) |>).
Definition genPartition (cfg : GenConfig) (st : gset (Z * Z) * Plan) (i : Z) : Gen (gset (Z * Z) * Plan) :=
  let '(cutLinks, p) := st in
  if gc_Nodes cfg <? 2 then mret (cutLinks, p)
  else
    '(a, b) ← genPair (gc_Nodes cfg);
    at_ ← draw (pc_DurationNS (pn_Config p));
    width ← draw (3 * second);
    let '(cut, heal) := if Z.rem i 2 =? 0 then (str "cut_both", str "heal_both") else (str "cut", str "heal") in
    let cutLinks := {[(a, b)]} ∪ cutLinks in
    let cutLinks := if bool_decide (cut = str "cut_both") then {[(b, a)]} ∪ cutLinks else cutLinks in
    mret (cutLinks, p <| pn_Entries := pn_Entries p ++ [MkFault at_ cut 0 a b; MkFault (i64 (at_ + width)) heal 0 a b] |>).
Definition genFaults (cfg : GenConfig) (p : Plan) : Gen Plan :=
  p ← foldG (genCrash cfg) p (seqZ 0 (gc_Crashes cfg));
  '(cutLinks, p) ← foldG (genPartition cfg) (∅, p) (seqZ 0 (gc_Partitions cfg));
  let p := if (0 <? size cutLinks)%nat then p <| pn_MinFires := <[str "partition" := u64 (Z.of_nat (size cutLinks))]> (pn_MinFires p) |> else p in
  mret (p <| pn_Entries := sortAt fe_AtNS (pn_Entries p) |>).

Definition genOp (p : Plan) (_ : Z) : Gen Plan :=
  k ← draw 2; at_ ← draw (pc_DurationNS (pn_Config p)); c ← draw 3; key ← draw 8; v ← draw 100;
  mret (p <| pn_Ops := pn_Ops p ++ [MkPlanOp at_ c 0 (if k =? 0 then str "get" else str "put")
    (str "k" ++ (if key <? 10 then str "0" ++ decimal key else decimal key)) (str "v" ++ decimal v)] |>).
Fixpoint number (next : gmap Z Z) (ops : list PlanOp) : list PlanOp :=
  match ops with
  | [] => []
  | o :: ops =>
      let n := add64 (default 0 (next !! po_Client o)) 1 in
      o <| po_Seq := n |> :: number (<[po_Client o := n]> next) ops
  end.
Definition genWorkload (cfg : GenConfig) (p : Plan) : Gen Plan :=
  p ← foldG genOp p (seqZ 0 (gc_ClientOps cfg));
  mret (p <| pn_Ops := number ∅ (sortAt po_AtNS (pn_Ops p)) |>).

(** The first [Derive] of a name. *)
Definition subStream (root : PCG) (name : string) : PCG := NewFromKey (DeriveKey root (str name)).
Definition onStream {A B : Type} (root : PCG) (name : string) (g : A → Gen B) (fuel : nat) (a : A) : option B :=
  fst <$> g a fuel (subStream root name).
Definition Materialize (fuel : nat) (seed : Z) (cfg : GenConfig) : option (result PlanError Plan) :=
  if gc_Nodes cfg <=? 0 then Some (Err errPlanNodes)
  else
    let root := New seed in
    let key name := Key_String (DeriveKey root (str name)) in
    let p := MkPlan SchemaVersion (MkProvenance seed [] GeneratorVersion [])
               (MkPlanConfig (gc_Nodes cfg) (gc_Duration cfg) (gc_TickInterval cfg) (gc_MaxOffset cfg) (gc_MaxSteps cfg))
               (MkKeys (key "net"%string) (key "engine_sync"%string) (key "clock"%string) (key "raft"%string))
               [] defaultEpochNS [] [] [] [] [] ∅ in
    p ← onStream root "gen.net" (genNetwork cfg) fuel p;
    p ← onStream root "gen.clock" (genClocks cfg) fuel p;
    p ← onStream root "gen.fault" (genFaults cfg) fuel p;
    p ← onStream root "gen.workload" (genWorkload cfg) fuel p;
    Some (match Plan_Validate p with Some e => Err (errGenerated e) | None => Ok p end).

(** ** The corpus

    Two plans of the repository, seeds/TOY-001 whole and the clocks of seeds/BUG-007. *)

Definition toyConfig : GenConfig := MkGenConfig 3 5000000000 10000000 500000000 2000000 1 1 0 30 false.
Definition toy001 : Plan :=
  MkPlan 1 (MkProvenance 103 [] 1 []) (MkPlanConfig 3 5000000000 10000000 500000000 2000000)
    (MkKeys (str "68be94c9059dcd1383da76f42fc3d24e") (str "eaffe24f30974e2424ca9cd12dc2dad7") (str "6dcbf6afd97fdd4689d91e630caacda4") (str "eae88160c9750814bafa454af8cf8b2a"))
    [MkPlanLink 0 1 0 0 358000 2000000 2 97000000;
     MkPlanLink 0 2 23 2 323000 3000000 3 98000000;
     MkPlanLink 1 0 27 3 367000 2000000 9 113000000;
     MkPlanLink 1 2 12 1 466000 2000000 8 122000000;
     MkPlanLink 2 0 13 3 165000 4000000 8 92000000;
     MkPlanLink 2 1 28 3 254000 5000000 8 76000000]
    1600000000000000000
    [MkNodeClock 0 [MkSegment 0 0 10000] [] [];
     MkNodeClock 1 [MkSegment 0 0 (-8000)] [] [];
     MkNodeClock 2 [MkSegment 0 0 22000] [] []] []
    [MkFault 2282062705 (str "cut_both") 0 1 0;
     MkFault 4513518377 (str "heal_both") 0 1 0;
     MkFault 4887991709 (str "crash") 2 0 0;
     MkFault 4958032072 (str "restart") 2 0 0] []
    [MkPlanOp 9945179 1 1 (str "put") (str "k03") (str "v57");
     MkPlanOp 14736175 0 1 (str "get") (str "k03") (str "v10");
     MkPlanOp 218477279 1 2 (str "get") (str "k00") (str "v40");
     MkPlanOp 423802604 0 2 (str "put") (str "k04") (str "v7");
     MkPlanOp 519878382 0 3 (str "get") (str "k05") (str "v43");
     MkPlanOp 619862080 0 4 (str "put") (str "k07") (str "v30");
     MkPlanOp 952998444 1 3 (str "get") (str "k06") (str "v60");
     MkPlanOp 1027264553 0 5 (str "put") (str "k05") (str "v64");
     MkPlanOp 1322041262 0 6 (str "put") (str "k04") (str "v44");
     MkPlanOp 1392340353 2 1 (str "get") (str "k07") (str "v12");
     MkPlanOp 1761028068 2 2 (str "put") (str "k05") (str "v49");
     MkPlanOp 1923025446 0 7 (str "put") (str "k05") (str "v35");
     MkPlanOp 2028490455 0 8 (str "get") (str "k01") (str "v43");
     MkPlanOp 2213695742 1 4 (str "get") (str "k01") (str "v24");
     MkPlanOp 2294547181 1 5 (str "get") (str "k02") (str "v32");
     MkPlanOp 2363637947 2 3 (str "put") (str "k05") (str "v28");
     MkPlanOp 2971440735 0 9 (str "get") (str "k03") (str "v61");
     MkPlanOp 2997491539 0 10 (str "get") (str "k06") (str "v52");
     MkPlanOp 3005197163 2 4 (str "get") (str "k04") (str "v13");
     MkPlanOp 3222508946 0 11 (str "put") (str "k01") (str "v57");
     MkPlanOp 3265861702 2 5 (str "put") (str "k02") (str "v42");
     MkPlanOp 3268171065 0 12 (str "get") (str "k07") (str "v37");
     MkPlanOp 3396737513 2 6 (str "get") (str "k03") (str "v10");
     MkPlanOp 3425835998 2 7 (str "get") (str "k03") (str "v45");
     MkPlanOp 3881555905 2 8 (str "get") (str "k07") (str "v44");
     MkPlanOp 3948416869 0 13 (str "put") (str "k07") (str "v92");
     MkPlanOp 3991713199 1 6 (str "put") (str "k07") (str "v30");
     MkPlanOp 4288739086 1 7 (str "get") (str "k05") (str "v57");
     MkPlanOp 4384271187 1 8 (str "get") (str "k01") (str "v56");
     MkPlanOp 4645603024 0 14 (str "put") (str "k07") (str "v30")]
    (<[str "crash" := 1]> (<[str "partition" := 2]> (<[str "restart" := 1]> (<[str "sent" := 1]> ∅)))).
Example corpus_toy001 : Materialize 4 103 toyConfig = Some (Ok toy001).
Proof. by vm_compute. Qed.

Definition raftConfig : GenConfig := MkGenConfig 4 14000000000 10000000 500000000 2000000 8 7 2 70 false.
Definition holds007 : list PlanHold := [MkPlanHold 1 2 900000000 8229938366 9401845838 2000000000 (str "slew") false;
   MkPlanHold 3 1 900000000 2730270258 4817410055 0 (str "step") false].
Definition clocks007 : list NodeClock := [MkNodeClock 0 [MkSegment 0 0 (-124000)] [] [];
   MkNodeClock 1 [] [] [];
   MkNodeClock 2 [] [] [];
   MkNodeClock 3 [MkSegment 0 0 74000] [] []].
Example corpus_bug007 : (λ r, match r with Ok p => (pn_Holds p, pn_Clocks p) | Err _ => ([],[]) end) <$> Materialize 4 1 raftConfig = Some (holds007, clocks007).
Proof. by vm_compute. Qed.

(** ** Code that draws, judged by what it gives

    [gives g Q]: from any stream, with any fuel above some amount, [g] ends, with the
    same result and the same stream whatever the fuel, and the result is in [Q]. *)
Definition gives {A} (g : Gen A) (Q : A → Prop) : Prop :=
  ∀ p, pcg_wf p → ∃ fuel a p', (∀ f, (fuel ≤ f)%nat → g f p = Some (a, p')) ∧ Q a ∧ pcg_wf p'.

Lemma gives_ret {A} (a : A) (Q : A → Prop) : Q a → gives (mret a) Q.
Proof. intros HQ p Hp. by exists O, a, p. Qed.
Lemma gives_bind {A B} (g : Gen A) (k : A → Gen B) (R : A → Prop) (Q : B → Prop) :
  gives g R → (∀ a, R a → gives (k a) Q) → gives (g ≫= k) Q.
Proof.
  intros Hg Hk p Hp. destruct (Hg p Hp) as (f1 & a & p1 & H1 & Ha & Hp1). destruct (Hk a Ha p1 Hp1) as (f2 & b & p2 & H2 & Hb & Hp2).
  exists (Nat.max f1 f2), b, p2. split_and!; [|done..]. intros f Hf. unfold mbind, Gen_bind. rewrite H1 by lia. apply H2. lia.
Qed.
Lemma gives_weaken {A} (g : Gen A) (Q R : A → Prop) : gives g Q → (∀ a, Q a → R a) → gives g R.
Proof. intros Hg HQ p Hp. destruct (Hg p Hp) as (f & a & p' & ? & ? & ?). exists f, a, p'. auto. Qed.
Lemma gives_draw n : 0 < n < 2 ^ 63 → gives (draw n) (λ v, 0 ≤ v < n).
Proof.
  intros Hn p Hp. destruct (draw_ends n ltac:(lia) p Hp) as (fuel & v & p' & Hf & Hv & Hp'). exists fuel, v, p'. split_and!; [|lia..|done].
  intros f Hle. unfold draw, IntN. destruct (Z.leb_spec n 0); [lia|]. rewrite u64_small by (unfold is_u64; lia). by apply Hf.
Qed.
(** A loop: [I done s] after the elements [done]. *)
Lemma gives_fold {A S} (I : list A → S → Prop) (g : S → A → Gen S) xs s :
  I [] s → (∀ done x s, (∃ rest, xs = done ++ x :: rest) → I done s → gives (g s x) (I (done ++ [x]))) → gives (foldG g s xs) (I xs).
Proof.
  intros H0 Hstep. assert (Hgen : ∀ rest done s, xs = done ++ rest → I done s → gives (foldG g s rest) (I xs)).
  { induction rest as [|x rest IH]; intros done s' Hx HI; [rewrite app_nil_r in Hx; subst; by apply gives_ret|].
    eapply gives_bind; [apply Hstep; [by exists rest|exact HI]|]. intros s1 H1. apply (IH (done ++ [x]) s1); [by rewrite <- app_assoc|done]. }
  by apply (Hgen xs []).
Qed.
Ltac drawing := eapply gives_bind; [first [apply gives_draw; unfold second in *; lia|eassumption]|]; cbv beta.

(** ** Configurations a seed can be turned into a plan against

    With a hold to place, the run has to last four seconds: a slew opens up to two
    seconds and half the run after its start ([short_run_refused]). *)
Record gen_ok (cfg : GenConfig) : Prop := MkGenOk {
  go_nodes : 0 < gc_Nodes cfg ≤ 2 ^ 31;
  go_tick : 0 < gc_TickInterval cfg;
  go_dur : 0 < gc_Duration cfg ≤ 2 ^ 57;
  go_holds : 0 < gc_Holds cfg → 4 * second ≤ gc_Duration cfg;
  go_crashes : gc_Crashes cfg < 2 ^ 63;
  go_ops : gc_ClientOps cfg < 2 ^ 63;
}.

Definition link_ok (l : PlanLink) : Prop :=
  0 ≤ ln_DropPerMille l < 30 ∧ 0 ≤ ln_DupPerMille l < 6 ∧ 100000 ≤ ln_LatMinNS l < 500000 ∧ 1000000 ≤ ln_LatMaxNS l ≤ 6000000
  ∧ 0 ≤ ln_TailPerMille l < 10 ∧ 20000000 ≤ ln_TailMaxNS l < 140000000.
Definition ends (l : PlanLink) : Z * Z := (ln_From l, ln_To l).
Definition targets (nodes from : Z) : list (Z * Z) := (λ to, (from, to)) <$> filter (λ to, from ≠ to) (seqZ 0 nodes).

Lemma genLink_gives from to : gives (genLink from to) (λ l, link_ok l ∧ ends l = (from, to)).
Proof.
  unfold genLink. drawing. intros a Ha. drawing. intros b Hb. drawing. intros c Hc. drawing. intros d Hd. drawing. intros e He. drawing. intros f Hf.
  apply gives_ret. unfold link_ok, ends. cbn. rewrite !u64_small, !i64_small by (unfold is_u64, is_i64; lia). split; [lia|done].
Qed.

Lemma genNetwork_gives cfg p :
  gives (genNetwork cfg p) (λ p', ∃ ls, p' = p <| pn_Links := pn_Links p ++ ls |> <| pn_MinFires := <[str "sent" := 1]> (pn_MinFires p) |>
    ∧ Forall link_ok ls ∧ ends <$> ls = seqZ 0 (gc_Nodes cfg) ≫= targets (gc_Nodes cfg)).
Proof.
  unfold genNetwork.
  set (I q (es : list (Z * Z)) (p' : Plan) := ∃ ls, p' = q <| pn_Links := pn_Links q ++ ls |> ∧ Forall link_ok ls ∧ ends <$> ls = es).
  assert (Happ : ∀ q es p1 es' p2, I q es p1 → I p1 es' p2 → I q (es ++ es') p2).
  { intros q es p1 es' p2 (l1 & -> & F1 & E1) (l2 & -> & F2 & E2). exists (l1 ++ l2). split_and!; [by cbn; rewrite app_assoc|by apply Forall_app|by rewrite fmap_app, E1, E2]. }
  assert (Hnil : ∀ q, I q [] q) by (intros q; exists []; split_and!; [by destruct q; cbn; rewrite app_nil_r|done..]).
  eapply gives_bind; [apply (gives_fold (λ froms p', I p (froms ≫= targets (gc_Nodes cfg)) p'))|].
  - apply Hnil.
  - intros done from p1 _ H1. eapply gives_weaken;
      [apply (gives_fold (λ tos p', I p1 ((λ to, (from, to)) <$> filter (λ to, from ≠ to) tos) p'))|].
    + apply Hnil.
    + intros tos to p2 _ H2. rewrite filter_app, filter_cons, filter_nil, fmap_app. destruct (Z.eqb_spec from to) as [->|Hne].
      * rewrite decide_False by (intros []; done). apply gives_ret. rewrite app_nil_r. exact H2.
      * rewrite decide_True by done. eapply gives_bind; [apply genLink_gives|]. intros l [Hl He]. apply gives_ret. eapply Happ; [exact H2|].
        exists [l]. split_and!; [done|by apply Forall_singleton|by cbn; rewrite He].
    + intros p2 H2. rewrite bind_app, bind_singleton. eapply Happ; [exact H1|exact H2].
  - intros p1 (ls & -> & Hf & He). apply gives_ret. exists ls. split_and!; [by destruct p|done..].
Qed.

Lemma genPair_gives nodes : 2 ≤ nodes ≤ 2 ^ 31 → gives (genPair nodes) (λ ab, 0 ≤ fst ab < nodes ∧ 0 ≤ snd ab < nodes ∧ fst ab ≠ snd ab).
Proof.
  intros Hn. unfold genPair. drawing. intros a Ha. rewrite (i64_small (nodes - 1)) by (unfold is_i64; lia). drawing. intros d Hd. apply gives_ret. cbn.
  rewrite i64_small by (unfold is_i64; lia). rewrite Z.rem_mod_nonneg by lia. split; [done|]. split; [apply Z.mod_pos_bound; lia|].
  intros He. pose proof (Z.div_mod (a + 1 + d) nodes ltac:(lia)) as Hd'. rewrite <- He in Hd'.
  assert ((a + 1 + d) / nodes < 2) by (apply Z.div_lt_upper_bound; lia). assert (0 ≤ (a + 1 + d) / nodes) by (apply Z.div_pos; lia).
  assert ((a + 1 + d) / nodes = 0 ∨ (a + 1 + d) / nodes = 1) as [Hq|Hq] by lia; rewrite Hq in Hd'; lia.
Qed.

Definition targetPPB (cfg : GenConfig) : Z := if gc_EnvelopeExceeded cfg then 1500000000 else 900000000.
Record hold_ok (cfg : GenConfig) (h : PlanHold) : Prop := MkHoldOk {
  hk_a : 0 ≤ ph_A h < gc_Nodes cfg;
  hk_b : 0 ≤ ph_B h < gc_Nodes cfg;
  hk_ab : ph_A h ≠ ph_B h;
  hk_ppb : ph_AtPPB h = targetPPB cfg;
  hk_env : ph_Envelope h = gc_EnvelopeExceeded cfg;
  hk_kind : ph_Realize h = str "slew" ∧ ph_RampNS h = 2 * second ∨ ph_Realize h = str "step" ∧ ph_RampNS h = 0;
  hk_from : ph_RampNS h ≤ ph_FromNS h < ph_RampNS h + gc_Duration cfg ÷ 2;
  hk_to : ph_FromNS h + second ≤ ph_ToNS h < ph_FromNS h + 3 * second;
}.
(** The holds of a plan under construction, and the nodes marked. *)
Record holds_made (cfg : GenConfig) (p : Plan) (held : list bool) (hs : list PlanHold) (p' : Plan) : Prop := MkHoldsMade {
  hm_plan : p' = p <| pn_Holds := pn_Holds p ++ hs |>;
  hm_ok : Forall (hold_ok cfg) hs;
  hm_len : Z.of_nat (length held) = gc_Nodes cfg;
  hm_once : NoDup (ph_B <$> hs);
  hm_held : ∀ n, 0 ≤ n → held !! Z.to_nat n = Some true ↔ n ∈ ph_B <$> hs;
}.

Lemma nth_lookup {A} (l : list A) i : 0 ≤ i → nth l i = l !! Z.to_nat i.
Proof. intros Hi. unfold nth. destruct (Z.ltb_spec i 0); [lia|done]. Qed.
Lemma nth_some {A} (l : list A) i : 0 ≤ i < Z.of_nat (length l) → ∃ x, nth l i = Some x ∧ l !! Z.to_nat i = Some x.
Proof. intros Hi. rewrite nth_lookup by lia. destruct (lookup_lt_is_Some_2 l (Z.to_nat i) ltac:(lia)) as [x ->]. by exists x. Qed.

Lemma genHold_gives cfg p held hs p' i :
  gen_ok cfg → 4 * second ≤ gc_Duration cfg → pc_DurationNS (pn_Config p) = gc_Duration cfg → holds_made cfg p held hs p' →
  gives (genHold cfg (held, p') i) (λ st, ∃ hs, holds_made cfg p (fst st) hs (snd st)).
Proof.
  intros Hc Hd Hdur Hm. pose proof (go_nodes cfg Hc). pose proof (go_dur cfg Hc) as Hbig. unfold genHold. destruct (Z.ltb_spec (gc_Nodes cfg) 2); [by apply gives_ret; exists hs|].
  eapply gives_bind; [apply genPair_gives; lia|]. intros [a b] (Ha & Hb & Hab). cbn [fst snd] in *.
  assert (Hl := hm_len _ _ _ _ _ Hm). destruct (nth_some held b ltac:(lia)) as (x & -> & Hx). destruct x; [by apply gives_ret; exists hs|].
  assert (Hfresh : b ∉ ph_B <$> hs) by (rewrite <- (hm_held _ _ _ _ _ Hm) by lia; rewrite Hx; done).
  assert (Hdp : pc_DurationNS (pn_Config p') = gc_Duration cfg) by (by rewrite (hm_plan _ _ _ _ _ Hm)). rewrite Hdp.
  assert (Hq : second ≤ gc_Duration cfg ÷ 2 < 2 ^ 57) by (unfold second in *; rewrite Z.quot_div_nonneg by lia; split; [apply Z.div_le_lower_bound; lia|apply Z.div_lt_upper_bound; lia]).
  assert (Hmade : ∀ realize ramp target env w o, (realize = str "slew" ∧ ramp = 2 * second ∨ realize = str "step" ∧ ramp = 0) → target = targetPPB cfg → env = gc_EnvelopeExceeded cfg →
    0 ≤ w < 2 * second → 0 ≤ o < gc_Duration cfg ÷ 2 →
    holds_made cfg p (<[Z.to_nat b := true]> held) (hs ++ [MkPlanHold a b target (i64 (ramp + o)) (i64 (i64 (ramp + o) + i64 (second + w))) ramp realize env])
      (p' <| pn_Holds := pn_Holds p' ++ [MkPlanHold a b target (i64 (ramp + o)) (i64 (i64 (ramp + o) + i64 (second + w))) ramp realize env] |>)).
  { intros realize ramp target env w o Hk -> -> Hw Ho. destruct Hm as [-> Hok Hlen Hno Hheld].
    assert (0 ≤ ramp ≤ 2 * second) by (destruct Hk as [[_ ->]|[_ ->]]; unfold second; lia).
    rewrite (i64_small (ramp + o)), (i64_small (second + w)) by (unfold is_i64, second in *; lia). rewrite (i64_small (ramp + o + _)) by (unfold is_i64, second in *; lia).
    split.
    - by cbn; rewrite app_assoc.
    - apply Forall_app. split; [done|]. apply Forall_singleton. split; cbn; try done; lia.
    - by rewrite length_insert.
    - rewrite fmap_app. apply NoDup_app. split_and!; [done| |apply NoDup_singleton]. intros y Hy ->%list_elem_of_singleton. done.
    - intros n Hn. rewrite fmap_app, elem_of_app. cbn. rewrite list_elem_of_singleton. destruct (decide (n = b)) as [->|Hne].
      + rewrite list_lookup_insert_eq by lia. split; [by right|done].
      + rewrite list_lookup_insert_ne by lia. rewrite Hheld by done. split; [by left|intros [?|?]; done]. }
  destruct (if Z.rem i 2 =? 1 then _ else _) as [realize ramp] eqn:Er.
  assert (Hk : realize = str "slew" ∧ ramp = 2 * second ∨ realize = str "step" ∧ ramp = 0) by (destruct (Z.rem i 2 =? 1); injection Er as <- <-; auto).
  drawing. intros w Hw. drawing. intros o Ho.
  destruct (if gc_EnvelopeExceeded cfg then _ else _) as [target env] eqn:Et.
  assert (target = targetPPB cfg ∧ env = gc_EnvelopeExceeded cfg) as [Ht He] by (unfold targetPPB; destruct (gc_EnvelopeExceeded cfg); by injection Et as <- <-).
  apply gives_ret. cbn [fst snd]. eexists. by apply Hmade.
Qed.

(** A node under a hold keeps time by the hold alone; another drifts. *)
Definition clock_ok (hs : list PlanHold) (nc : NodeClock) : Prop :=
  nc_Steps nc = [] ∧ nc_Boots nc = []
  ∧ (nc_Node nc ∈ ph_B <$> hs ∧ nc_Skew nc = []
     ∨ nc_Node nc ∉ ph_B <$> hs ∧ ∃ slope, nc_Skew nc = [MkSegment 0 0 slope] ∧ -200000 ≤ slope ≤ 200000).

Lemma genClocks_gives cfg p :
  gen_ok cfg → pc_DurationNS (pn_Config p) = gc_Duration cfg → pn_Holds p = [] →
  gives (genClocks cfg p) (λ p', ∃ hs cs, p' = p <| pn_Holds := hs |> <| pn_Clocks := pn_Clocks p ++ cs |>
    ∧ Forall (hold_ok cfg) hs ∧ NoDup (ph_B <$> hs) ∧ (gc_Holds cfg ≤ 0 → hs = [])
    ∧ Forall (clock_ok hs) cs ∧ nc_Node <$> cs = seqZ 0 (gc_Nodes cfg)).
Proof.
  intros Hc Hdur Hh0. pose proof (go_nodes cfg Hc). unfold genClocks.
  eapply gives_bind; [apply (gives_fold (λ done st, ∃ hs, holds_made cfg p (fst st) hs (snd st) ∧ (done = [] → hs = [])))|].
  - exists []. split; [|done]. split; cbn [fst snd]; [by destruct p; cbn in *; subst|done|rewrite length_replicate; lia|constructor|].
    intros n Hn. cbn. rewrite lookup_replicate, elem_of_nil. split; [intros [? ?]; done|done].
  - intros done x [held p'] [rest Hx] (hs & Hm & _). eapply gives_weaken; [eapply genHold_gives; try done|].
    + destruct (decide (0 < gc_Holds cfg)); [by apply go_holds|]. rewrite seqZ_nil in Hx by lia. by destruct done.
    + intros st [hs' Hm']. exists hs'. split; [done|]. by destruct done.
  - intros [held p'] (hs & Hm & Hnil). cbn [fst snd] in Hm. destruct Hm as [-> Hok Hlen Hno Hheld]. rewrite Hh0, app_nil_l.
    eapply gives_weaken; [apply (gives_fold (λ done p', ∃ cs, p' = p <| pn_Holds := hs |> <| pn_Clocks := pn_Clocks p ++ cs |> ∧ Forall (clock_ok hs) cs ∧ nc_Node <$> cs = done))|].
    + exists []. split_and!; [by destruct p; cbn; rewrite app_nil_r|done..].
    + intros done n p' [rest Hx] (cs & -> & Hcs & <-). assert (Hn : n ∈ seqZ 0 (gc_Nodes cfg)) by (rewrite Hx, elem_of_app, elem_of_cons; auto). apply elem_of_seqZ in Hn.
      unfold genClock. destruct (nth_some held n ltac:(lia)) as (x & -> & Hl). destruct x.
      * apply gives_ret. exists (cs ++ [MkNodeClock n [] [] []]). split_and!; [by cbn; rewrite app_assoc| |by rewrite fmap_app].
        apply Forall_app. split; [done|]. apply Forall_singleton. split_and!; [done..|]. left. split; [|done]. cbn. apply Hheld; [lia|done].
      * drawing. intros r Hr. apply gives_ret. exists (cs ++ [MkNodeClock n [MkSegment 0 0 (i64 ((r - 200) * 1000))] [] []]).
        split_and!; [by cbn; rewrite app_assoc| |by rewrite fmap_app]. apply Forall_app. split; [done|]. apply Forall_singleton. split_and!; [done..|]. right.
        split; [cbn; rewrite <- Hheld by lia; rewrite Hl; done|]. eexists. split; [done|]. rewrite i64_small by (unfold is_i64; lia). lia.
    + intros p' (cs & -> & Hcs & Hn). exists hs, cs. split_and!; try done. intros Hz. apply Hnil. by rewrite seqZ_nil by lia.
Qed.

(** *** Such holds and clocks are legal *)

Lemma driftOf_ok nodes drift ncs :
  Forall (λ nc, 0 ≤ nc_Node nc < nodes) ncs →
  ∃ d, driftOf nodes drift ncs = Ok d ∧ ∀ i, d !! i = Some true → drift !! i = Some true ∨ ∃ nc, nc ∈ ncs ∧ drifts nc = true ∧ Z.to_nat (nc_Node nc) = i.
Proof.
  intros Hf. revert drift. induction Hf as [|nc ncs Hn _ IH]; intros drift; [by exists drift; split; [|auto]|]. cbn [driftOf].
  destruct (Z.ltb_spec (nc_Node nc) 0); [lia|]. destruct (Z.leb_spec nodes (nc_Node nc)); [lia|]. cbn [orb].
  destruct (IH (if drifts nc then <[Z.to_nat (nc_Node nc) := true]> drift else drift)) as (d & -> & Hd). exists d. split; [done|]. intros i Hi.
  destruct (Hd i Hi) as [Hl|(nc' & ? & ? & ?)]; [|right; exists nc'; set_solver]. destruct (drifts nc) eqn:Edr; [|by left].
  destruct (decide (Z.to_nat (nc_Node nc) = i)) as [He|Hne]; [right; exists nc; set_solver|]. rewrite list_lookup_insert_ne in Hl by done. by left.
Qed.

Definition hold_legal (c : PlanConfig) (drift : list bool) (h : PlanHold) : Prop :=
  (ph_Realize h = str "slew" ∧ 0 < ph_RampNS h ≤ ph_FromNS h ∨ ph_Realize h = str "step") ∧ 0 ≤ ph_B h < pc_Nodes c ∧ ph_FromNS h < ph_ToNS h
  ∧ ph_FromNS h < pc_DurationNS c ∧ drift !! Z.to_nat (ph_B h) ≠ Some true.
Lemma holdsLegal_ok c drift held i hs :
  Forall (hold_legal c drift) hs → NoDup (ph_B <$> hs) → (∀ h, h ∈ hs → held !! Z.to_nat (ph_B h) ≠ Some true) → holdsLegal c drift held i hs = None.
Proof.
  intros Hf. revert held i. induction Hf as [|h hs (Hr & Hb & Hw & Hd & Hdr) Hall IH]; intros held i Hno Hheld; [done|]. cbn [holdsLegal].
  apply NoDup_cons in Hno as [Hin Hno]. assert (Hh := Hheld h ltac:(set_solver)).
  destruct (Z.ltb_spec (ph_B h) 0); [lia|]. destruct (Z.leb_spec (pc_Nodes c) (ph_B h)); [lia|]. destruct (Z.leb_spec (ph_ToNS h) (ph_FromNS h)); [lia|].
  destruct (Z.leb_spec (pc_DurationNS c) (ph_FromNS h)); [lia|]. cbn [orb].
  assert (default false (drift !! Z.to_nat (ph_B h)) = false) as -> by (by destruct (drift !! _) as [[]|]).
  assert (default false (held !! Z.to_nat (ph_B h)) = false) as -> by (by destruct (held !! _) as [[]|]).
  assert (Hrest : holdsLegal c drift (<[Z.to_nat (ph_B h) := true]> held) (S i) hs = None).
  { apply IH; [done|]. intros h' Hh'. destruct (decide (Z.to_nat (ph_B h) = Z.to_nat (ph_B h'))) as [He|Hne].
    - rewrite Forall_forall in Hall. destruct (Hall h' Hh') as (_ & ? & _). destruct Hin. replace (ph_B h) with (ph_B h') by lia. by apply list_elem_of_fmap_2.
    - rewrite list_lookup_insert_ne by done. apply Hheld. set_solver. }
  destruct Hr as [[-> ?]| ->].
  - destruct (Z.leb_spec (ph_RampNS h) 0); [lia|]. destruct (Z.ltb_spec (ph_FromNS h) (ph_RampNS h)); [lia|]. exact Hrest.
  - exact Hrest.
Qed.

Lemma made_holds_legal cfg p :
  gen_ok cfg → pc_Nodes (pn_Config p) = gc_Nodes cfg → pc_DurationNS (pn_Config p) = gc_Duration cfg →
  Forall (hold_ok cfg) (pn_Holds p) → NoDup (ph_B <$> pn_Holds p) → (gc_Holds cfg ≤ 0 → pn_Holds p = []) →
  Forall (clock_ok (pn_Holds p)) (pn_Clocks p) → nc_Node <$> pn_Clocks p = seqZ 0 (gc_Nodes cfg) → validateHolds p = None.
Proof.
  intros Hc Hn Hd Hh Hno Hnil Hcl Hnodes. unfold validateHolds. rewrite Hn.
  assert (Hrange : Forall (λ nc, 0 ≤ nc_Node nc < gc_Nodes cfg) (pn_Clocks p)).
  { apply Forall_forall. intros nc Hin. assert (Hz : nc_Node nc ∈ seqZ 0 (gc_Nodes cfg)) by (rewrite <- Hnodes; by apply list_elem_of_fmap_2). apply elem_of_seqZ in Hz. lia. }
  destruct (driftOf_ok (gc_Nodes cfg) (replicate (Z.to_nat (gc_Nodes cfg)) false) _ Hrange) as (d & -> & Hdr).
  assert (Hfalse : ∀ i, replicate (Z.to_nat (gc_Nodes cfg)) false !! i ≠ Some true) by (intros i He; rewrite lookup_replicate in He; by destruct He).
  apply holdsLegal_ok; [|done|by intros h _]. apply Forall_forall. intros h Hin.
  assert (Hok : hold_ok cfg h) by (rewrite Forall_forall in Hh; auto). assert (Hlong : 4 * second ≤ gc_Duration cfg).
  { apply go_holds; [done|]. destruct (decide (0 < gc_Holds cfg)); [done|]. rewrite Hnil in Hin by lia. by apply elem_of_nil in Hin. }
  destruct Hok as [_ Hb _ _ _ Hk Hf Ht]. unfold hold_legal. rewrite Hn, Hd.
  assert (gc_Duration cfg ÷ 2 ≤ gc_Duration cfg - 2 * second) by (unfold second in *; rewrite Z.quot_div_nonneg by lia; pose proof (Z.div_mod (gc_Duration cfg) 2 ltac:(lia)); pose proof (Z.mod_pos_bound (gc_Duration cfg) 2 ltac:(lia)); lia).
  split_and!; unfold second in *; try lia.
  - destruct Hk as [[? Hr]|[? Hr]]; [left|by right]. split; [done|lia].
  - intros He. destruct (Hdr _ He) as [Hl|(nc & Hnc & Hdrift & Heq)]; [by destruct (Hfalse _ Hl)|].
    rewrite !Forall_forall in Hcl, Hrange. assert (nc_Node nc = ph_B h) as Hsame by (pose proof (Hrange nc Hnc); lia).
    destruct (Hcl nc Hnc) as (_ & _ & [[_ Hs]|[Hnin _]]); [unfold drifts in Hdrift; by rewrite Hs in Hdrift|]. destruct Hnin. rewrite Hsame. by apply list_elem_of_fmap_2.
Qed.

(** ** Sorting *)

Section Sorted.
Context {A : Type} (atNS : A → Z).
Let later (x y : A) : Prop := atNS y ≤ atNS x.
Lemma sink_perm x rs : sink atNS x rs ≡ₚ x :: rs.
Proof using. induction rs as [|y rs IH]; cbn; [done|]. destruct (atNS x <? atNS y); [|done]. rewrite IH. by apply Permutation_swap. Qed.
Lemma sink_sorted x rs : Sorted later rs → Sorted later (sink atNS x rs).
Proof using.
  induction rs as [|y rs IH]; intros Hs; [by repeat constructor|]. cbn. destruct (Z.ltb_spec (atNS x) (atNS y)); [|by constructor; [|constructor]].
  inversion Hs as [|? ? Hs' Hhd]; subst. constructor; [by apply IH|]. destruct rs as [|z rs]; cbn; [constructor; unfold later; lia|].
  inversion Hhd; subst. destruct (atNS x <? atNS z); constructor; unfold later in *; lia.
Qed.
Lemma sortAt_perm es : sortAt atNS es ≡ₚ es.
Proof using.
  unfold sortAt. rewrite reverse_Permutation. assert (Hg : ∀ rs, foldl (λ rs x, sink atNS x rs) rs es ≡ₚ es ++ rs); [|by rewrite Hg, app_nil_r].
  induction es as [|x es IH]; intros rs; [done|]. cbn. rewrite IH, sink_perm. by rewrite Permutation_middle.
Qed.
Lemma sortAt_sorted es : StronglySorted (λ x y, atNS x ≤ atNS y) (sortAt atNS es).
Proof using.
  assert (Hg : Sorted later (foldl (λ rs x, sink atNS x rs) [] es)).
  { assert (Hi : ∀ rs, Sorted later rs → Sorted later (foldl (λ rs x, sink atNS x rs) rs es)); [|apply Hi; constructor].
    induction es as [|x es IH]; intros rs Hr; [done|]. cbn. by apply IH, sink_sorted. }
  apply Sorted_StronglySorted in Hg; [|intros x y z; unfold later; lia]. unfold sortAt. induction Hg as [|x rs Hg IH Hall]; [constructor|].
  rewrite reverse_cons. apply StronglySorted_app. split_and!; [|done|repeat constructor]. intros y z Hy ->%list_elem_of_singleton. rewrite elem_of_reverse in Hy.
  rewrite Forall_forall in Hall. exact (Hall y Hy).
Qed.
End Sorted.

(** ** Faults *)

Record outage := MkOutage { ou_node : Z; ou_at : Z; ou_until : Z }.
Definition outageEntries (o : outage) : list FaultEntry :=
  [MkFault (ou_at o) (str "crash") (ou_node o) 0 0; MkFault (ou_until o) (str "restart") (ou_node o) 0 0].
Definition outage_ok (cfg : GenConfig) (o : outage) : Prop :=
  0 ≤ ou_node o < gc_Nodes cfg ∧ 0 ≤ ou_at o < gc_Duration cfg ∧ ou_at o < ou_until o ≤ gc_Duration cfg.
Record partition := MkPartition { pa_both : bool; pa_from : Z; pa_to : Z; pa_at : Z; pa_until : Z }.
Definition partitionEntries (q : partition) : list FaultEntry :=
  [MkFault (pa_at q) (if pa_both q then str "cut_both" else str "cut") 0 (pa_from q) (pa_to q);
   MkFault (pa_until q) (if pa_both q then str "heal_both" else str "heal") 0 (pa_from q) (pa_to q)].
Definition partition_ok (cfg : GenConfig) (q : partition) : Prop :=
  0 ≤ pa_from q < gc_Nodes cfg ∧ 0 ≤ pa_to q < gc_Nodes cfg ∧ pa_from q ≠ pa_to q ∧ 0 ≤ pa_at q < gc_Duration cfg ∧ pa_at q ≤ pa_until q < pa_at q + 3 * second.
(** The directed links a partition cuts. *)
Definition cuts (q : partition) : list (Z * Z) := (pa_from q, pa_to q) :: if pa_both q then [(pa_to q, pa_from q)] else [].
(** The floors a plan with so many outages asks for. *)
Definition outageFloors (n : nat) (m : gmap bytes Z) : gmap bytes Z :=
  match n with O => m | _ => <[str "restart" := Z.of_nat n]> (<[str "crash" := Z.of_nat n]> m) end.
Definition cutFloor (links : gset (Z * Z)) (m : gmap bytes Z) : gmap bytes Z :=
  if (0 <? size links)%nat then <[str "partition" := u64 (Z.of_nat (size links))]> m else m.

Lemma outageFloors_S n m :
  m !! str "crash" = None → m !! str "restart" = None → Z.of_nat n + 1 < 2 ^ 64 →
  bump (str "restart") (bump (str "crash") (outageFloors n m)) = outageFloors (S n) m.
Proof.
  intros Hc Hr Hn. unfold bump. assert (Hne : str "restart" ≠ str "crash") by done. rewrite lookup_insert_ne by done.
  assert (Hl : ∀ w, w = str "crash" ∨ w = str "restart" → default 0 (outageFloors n m !! w) = Z.of_nat n).
  { intros w Hw. destruct n as [|n]; cbn [outageFloors]; [by destruct Hw as [-> | ->]; rewrite ?Hc, ?Hr|].
    destruct Hw as [-> | ->]; [rewrite lookup_insert_ne by done|]; by rewrite lookup_insert_eq. }
  rewrite !Hl by auto. rewrite add64_small by lia. replace (Z.of_nat n + 1) with (Z.of_nat (S n)) by lia.
  destruct n as [|n]; cbn [outageFloors]; [done|].
  apply map_eq. intros w. rewrite !lookup_insert. by repeat case_decide.
Qed.

Lemma genCrash_gives cfg p os p' x :
  gen_ok cfg → pc_DurationNS (pn_Config p) = gc_Duration cfg → pn_MinFires p !! str "crash" = None → pn_MinFires p !! str "restart" = None → Z.of_nat (length os) + 1 < 2 ^ 64 →
  p' = p <| pn_Entries := pn_Entries p ++ (os ≫= outageEntries) |> <| pn_MinFires := outageFloors (length os) (pn_MinFires p) |> →
  gives (genCrash cfg p' x) (λ p'', ∃ o, outage_ok cfg o
    ∧ p'' = p <| pn_Entries := pn_Entries p ++ ((os ++ [o]) ≫= outageEntries) |> <| pn_MinFires := outageFloors (length (os ++ [o])) (pn_MinFires p) |>).
Proof.
  intros Hc Hdur H1 H2 Hlen ->. unfold genCrash. change (pn_Config (p <| pn_Entries := _ |> <| pn_MinFires := _ |>)) with (pn_Config p). rewrite Hdur.
  destruct Hc as [Hnodes _ Hd _ _ _]. drawing. intros n Hn. drawing. intros at_ Hat. rewrite (i64_small (gc_Duration cfg - at_ - 1)) by (unfold is_i64; lia).
  set (span := if 2 * second <? gc_Duration cfg - at_ - 1 then 2 * second else gc_Duration cfg - at_ - 1).
  assert (Hspan : span ≤ gc_Duration cfg - at_ - 1 ∧ span ≤ 2 * second) by (unfold span; destruct (Z.ltb_spec (2 * second) (gc_Duration cfg - at_ - 1)); lia).
  eapply (gives_bind _ _ (λ down, 1 ≤ down ≤ Z.max 1 span)).
  - destruct (Z.ltb_spec 1 span); [|apply gives_ret; lia]. drawing. intros d Hd'. apply gives_ret.
    rewrite i64_small by (unfold is_i64, second in *; lia). lia.
  - intros down Hdown. apply gives_ret. exists (MkOutage n at_ (at_ + down)). split; [unfold outage_ok; cbn; lia|].
    rewrite i64_small by (unfold is_i64; lia). rewrite bind_app, bind_singleton, length_app, Nat.add_1_r, <- outageFloors_S by (done || lia).
    cbn. by rewrite <- app_assoc.
Qed.

Lemma genPartition_gives cfg p links qs p' i :
  gen_ok cfg → pc_DurationNS (pn_Config p) = gc_Duration cfg → links = list_to_set (qs ≫= cuts) →
  p' = p <| pn_Entries := pn_Entries p ++ (qs ≫= partitionEntries) |> → Forall (partition_ok cfg) qs →
  gives (genPartition cfg (links, p') i) (λ st, ∃ qs, Forall (partition_ok cfg) qs ∧ fst st = list_to_set (qs ≫= cuts)
    ∧ snd st = p <| pn_Entries := pn_Entries p ++ (qs ≫= partitionEntries) |>).
Proof.
  intros Hc Hdur -> -> Hqs. unfold genPartition. destruct (Z.ltb_spec (gc_Nodes cfg) 2); [by apply gives_ret; exists qs|].
  change (pn_Config (p <| pn_Entries := _ |>)) with (pn_Config p). rewrite Hdur. destruct Hc as [Hnodes _ Hd _ _ _].
  eapply gives_bind; [apply genPair_gives; lia|]. intros [a b] (Ha & Hb & Hab). cbn [fst snd] in *. drawing. intros at_ Hat. drawing. intros w Hw.
  assert (Hdone : ∀ both, ∃ qs', Forall (partition_ok cfg) qs'
    ∧ (if (both : bool) then {[(b, a)]} ∪ ({[(a, b)]} ∪ list_to_set (qs ≫= cuts)) else {[(a, b)]} ∪ list_to_set (qs ≫= cuts) : gset (Z * Z)) = list_to_set (qs' ≫= cuts)
    ∧ p <| pn_Entries := (pn_Entries p ++ (qs ≫= partitionEntries)) ++ [MkFault at_ (if both then str "cut_both" else str "cut") 0 a b; MkFault (i64 (at_ + w)) (if both then str "heal_both" else str "heal") 0 a b] |>
      = p <| pn_Entries := pn_Entries p ++ (qs' ≫= partitionEntries) |>).
  { intros both. exists (qs ++ [MkPartition both a b at_ (at_ + w)]). rewrite i64_small by (unfold is_i64, second in *; lia). split_and!.
    - apply Forall_app. split; [done|]. apply Forall_singleton. unfold partition_ok. cbn. lia.
    - rewrite bind_app, bind_singleton, list_to_set_app_L. change (cuts (MkPartition both a b at_ (at_ + w))) with ((a, b) :: if both then [(b, a)] else []). destruct both; set_solver.
    - by rewrite bind_app, bind_singleton, app_assoc. }
  destruct (Z.rem i 2 =? 0); apply gives_ret; cbn [fst snd]; [destruct (Hdone true) as (qs' & ? & ? & ?)|destruct (Hdone false) as (qs' & ? & ? & ?)]; by exists qs'.
Qed.

Lemma genFaults_gives cfg p :
  gen_ok cfg → pc_DurationNS (pn_Config p) = gc_Duration cfg → pn_Entries p = [] → pn_MinFires p !! str "crash" = None → pn_MinFires p !! str "restart" = None →
  gives (genFaults cfg p) (λ p', ∃ os qs, Forall (outage_ok cfg) os ∧ length os = Z.to_nat (gc_Crashes cfg) ∧ Forall (partition_ok cfg) qs
    ∧ p' = p <| pn_Entries := sortAt fe_AtNS ((os ≫= outageEntries) ++ (qs ≫= partitionEntries)) |>
             <| pn_MinFires := cutFloor (list_to_set (qs ≫= cuts)) (outageFloors (length os) (pn_MinFires p)) |>).
Proof.
  intros Hc Hdur He H1 H2. pose proof (go_crashes cfg Hc). unfold genFaults.
  eapply gives_bind; [apply (gives_fold (λ done p', ∃ os, length os = length done ∧ Forall (outage_ok cfg) os
    ∧ p' = p <| pn_Entries := pn_Entries p ++ (os ≫= outageEntries) |> <| pn_MinFires := outageFloors (length os) (pn_MinFires p) |>))|].
  - exists []. split_and!; [done..|]. destruct p; cbn in *. by rewrite app_nil_r.
  - intros done x p' [rest Hx] (os & Hl & Hos & Hp'). assert (Hlen := f_equal length Hx). rewrite length_seqZ, length_app in Hlen. cbn in Hlen.
    eapply gives_weaken; [eapply genCrash_gives; try done; lia|]. intros p'' (o & Ho & ->). exists (os ++ [o]). split_and!; [rewrite !length_app; cbn; lia| |done].
    apply Forall_app. split; [done|by apply Forall_singleton].
  - intros p1 (os & Hl & Hos & Hp1). rewrite length_seqZ in Hl.
    eapply gives_bind; [apply (gives_fold (λ _ st, ∃ qs, Forall (partition_ok cfg) qs ∧ fst st = list_to_set (qs ≫= cuts) ∧ snd st = p1 <| pn_Entries := pn_Entries p1 ++ (qs ≫= partitionEntries) |>))|].
    + exists []. split_and!; [done..|]. cbn [snd]. destruct p1; cbn. by rewrite app_nil_r.
    + intros _ i [links p'] _ (qs & Hqs & Hf & Hs). cbn [fst snd] in Hf, Hs. eapply genPartition_gives; try done. by rewrite Hp1.
    + intros [links p'] (qs & Hqs & Hf & Hs). cbn [fst snd] in Hf, Hs. apply gives_ret. exists os, qs. split_and!; [done|done|done|]. subst.
      unfold cutFloor. rewrite He. destruct (0 <? _)%nat; reflexivity.
Qed.

(** ** Client operations *)

Definition op_ok (cfg : GenConfig) (o : PlanOp) : Prop := 0 ≤ po_AtNS o < gc_Duration cfg ∧ 0 ≤ po_Client o < 3.
Definition seqsOf (c : Z) (ops : list PlanOp) : list Z := po_Seq <$> filter (λ o, po_Client o = c) ops.

Lemma number_spec next ops :
  (∀ c, 0 ≤ default 0 (next !! c)) → (∀ c, default 0 (next !! c) + Z.of_nat (length ops) < 2 ^ 64) →
  (po_AtNS <$> number next ops = po_AtNS <$> ops) ∧ (po_Client <$> number next ops = po_Client <$> ops)
  ∧ ∀ c, ∃ n, seqsOf c (number next ops) = seqZ (default 0 (next !! c) + 1) n.
Proof.
  revert next. induction ops as [|o ops IH]; intros next H0 Hb; [split_and!; [done..|]; intros c; by exists 0|]. cbn [number].
  assert (Hn : add64 (default 0 (next !! po_Client o)) 1 = default 0 (next !! po_Client o) + 1).
  { apply add64_small. specialize (H0 (po_Client o)). specialize (Hb (po_Client o)). cbn in Hb. lia. }
  rewrite Hn. set (next' := <[po_Client o := default 0 (next !! po_Client o) + 1]> next).
  assert (Hnext : ∀ c, default 0 (next' !! c) = default 0 (next !! c) + if decide (po_Client o = c) then 1 else 0).
  { intros c. unfold next'. rewrite lookup_insert. case_decide as Hcase; [subst; cbn; lia|lia]. }
  destruct (IH next') as (Ha & Hcl & Hs).
  { intros c. rewrite Hnext. specialize (H0 c). case_decide; lia. }
  { intros c. rewrite Hnext. specialize (Hb c). cbn in Hb. case_decide; lia. }
  split_and!; [cbn; by rewrite Ha|cbn; by rewrite Hcl|]. intros c. destruct (Hs c) as [n Hsn]. rewrite Hnext in Hsn.
  unfold seqsOf in *. rewrite filter_cons. cbn [po_Client]. change (po_Client (o <| po_Seq := _ |>)) with (po_Client o).
  revert Hsn. destruct (decide (po_Client o = c)) as [He|Hne]; intros Hsn.
  - cbn [fmap list_fmap]. rewrite Hsn. change (po_Seq (o <| po_Seq := ?x |>)) with x. rewrite He. assert (0 ≤ n ∨ n < 0) as [Hn'|Hn'] by lia.
    + exists (Z.succ n). rewrite (seqZ_cons _ (Z.succ n)) by lia. by rewrite Z.pred_succ.
    + exists 1. rewrite seqZ_nil by lia. reflexivity.
  - exists n. rewrite Hsn. f_equal. lia.
Qed.

Lemma genWorkload_gives cfg p :
  gen_ok cfg → pc_DurationNS (pn_Config p) = gc_Duration cfg → pn_Ops p = [] →
  gives (genWorkload cfg p) (λ p', ∃ ops, p' = p <| pn_Ops := ops |> ∧ length ops = Z.to_nat (gc_ClientOps cfg) ∧ Forall (op_ok cfg) ops
    ∧ StronglySorted Z.le (po_AtNS <$> ops) ∧ ∀ c, ∃ n, seqsOf c ops = seqZ 1 n).
Proof.
  intros Hc Hdur He. pose proof (go_ops cfg Hc). pose proof (go_dur cfg Hc). unfold genWorkload.
  eapply gives_bind; [apply (gives_fold (λ done p', ∃ ops, p' = p <| pn_Ops := ops |> ∧ length ops = length done ∧ Forall (op_ok cfg) ops))|].
  - exists []. split_and!; [by destruct p; cbn in *; subst|done..].
  - intros done x p' _ (ops & -> & Hl & Hops). unfold genOp. change (pn_Config (p <| pn_Ops := _ |>)) with (pn_Config p). rewrite Hdur.
    drawing. intros k Hk. drawing. intros at_ Hat. drawing. intros c Hcl. drawing. intros key Hkey. drawing. intros v Hv. apply gives_ret. eexists. split; [reflexivity|].
    split; [cbn; rewrite !length_app; cbn; lia|]. cbn. apply Forall_app. split; [done|]. by apply Forall_singleton.
  - intros p' (ops & -> & Hl & Hops). rewrite length_seqZ in Hl. apply gives_ret. exists (number ∅ (sortAt po_AtNS ops)). split; [by destruct p|].
    assert (Hlen : length (sortAt po_AtNS ops) = length ops) by (by rewrite sortAt_perm).
    destruct (number_spec ∅ (sortAt po_AtNS ops)) as (Ha & Hcl & Hs); [intros c; by rewrite lookup_empty|intros c; rewrite lookup_empty, Hlen; cbn; lia|].
    assert (Hf : Forall (op_ok cfg) (sortAt po_AtNS ops)) by (by rewrite sortAt_perm). split_and!.
    + rewrite <- (length_fmap po_AtNS), Ha, length_fmap. lia.
    + assert (Hz : Forall (λ ac, 0 ≤ fst ac < gc_Duration cfg ∧ 0 ≤ snd ac < 3) (zip (po_AtNS <$> sortAt po_AtNS ops) (po_Client <$> sortAt po_AtNS ops))).
      { clear -Hf. induction Hf; cbn; constructor; done. }
      rewrite <- Ha, <- Hcl in Hz. clear -Hz. induction (number ∅ _) as [|o l IH]; constructor; [|apply IH]; by inversion Hz.
    + rewrite Ha. pose proof (sortAt_sorted po_AtNS ops) as Hss. clear -Hss. induction Hss as [|o l Hs IH Hall]; cbn; constructor; [done|]. by apply Forall_fmap.
    + intros c. destruct (Hs c) as [n ->]. rewrite lookup_empty. by exists n.
Qed.

(** ** Materialized plans *)

Record materialized (cfg : GenConfig) (p : Plan) : Prop := MkMaterialized {
  mt_valid : Plan_Validate p = None;
  mt_config : pn_Config p = MkPlanConfig (gc_Nodes cfg) (gc_Duration cfg) (gc_TickInterval cfg) (gc_MaxOffset cfg) (gc_MaxSteps cfg);
  mt_epoch : pn_EpochNS p = defaultEpochNS;
  mt_rules : pn_Rules p = [];
  (* one link for every ordered pair of nodes *)
  mt_links : Forall link_ok (pn_Links p) ∧ ends <$> pn_Links p = seqZ 0 (gc_Nodes cfg) ≫= targets (gc_Nodes cfg);
  (* one hold to a node, no drift under a hold *)
  mt_holds : Forall (hold_ok cfg) (pn_Holds p) ∧ NoDup (ph_B <$> pn_Holds p) ∧ (gc_Holds cfg ≤ 0 → pn_Holds p = []);
  mt_clocks : Forall (clock_ok (pn_Holds p)) (pn_Clocks p) ∧ nc_Node <$> pn_Clocks p = seqZ 0 (gc_Nodes cfg);
  (* as many outages as asked for, each with its restart inside the run, in time order,
     and floors that count them and the distinct links cut *)
  mt_faults : StronglySorted (λ e f, fe_AtNS e ≤ fe_AtNS f) (pn_Entries p)
    ∧ ∃ os qs, Forall (outage_ok cfg) os ∧ length os = Z.to_nat (gc_Crashes cfg) ∧ Forall (partition_ok cfg) qs
        ∧ pn_Entries p ≡ₚ (os ≫= outageEntries) ++ (qs ≫= partitionEntries)
        ∧ pn_MinFires p = cutFloor (list_to_set (qs ≫= cuts)) (outageFloors (length os) {[str "sent" := 1]});
  (* as many operations as asked for, in time order, each client numbering its own from one *)
  mt_ops : length (pn_Ops p) = Z.to_nat (gc_ClientOps cfg) ∧ Forall (op_ok cfg) (pn_Ops p) ∧ StronglySorted Z.le (po_AtNS <$> pn_Ops p)
    ∧ ∀ c, ∃ n, seqsOf c (pn_Ops p) = seqZ 1 n;
}.

Lemma subStream_Derive root k name : root = NewFromKey k → ∃ s, Derive [] (str name) (family k) = Some ([str name], s) ∧ s !! [str name] = Some (subStream root name).
Proof. intros ->. unfold Derive, family. rewrite lookup_singleton_eq. cbn [mbind option_bind app]. rewrite lookup_singleton_ne by done. eexists. split; [done|]. by rewrite lookup_insert_eq. Qed.
Lemma New_key_wf seed name : word seed → key_wf (DeriveKey (New seed) name).
Proof.
  intros Hs. apply deriveKey_wf. unfold New. rewrite NewFromKey_key. split; cbn; apply mix_range; [apply lxor_range; [done|by vm_compute]|done].
Qed.
Lemma onStream_gives {A B} seed name (g : A → Gen B) a Q :
  word seed → gives (g a) Q → ∃ fuel b, (∀ f, (fuel ≤ f)%nat → onStream (New seed) name g f a = Some b) ∧ Q b.
Proof.
  intros Hs Hg. destruct (Hg (subStream (New seed) name)) as (fuel & b & p' & Hf & HQ & _).
  { by apply NewFromKey_wf, New_key_wf. }
  exists fuel, b. split; [|done]. intros f Hle. unfold onStream. by rewrite Hf.
Qed.
Lemma keyError_none k n : key_wf k → keyError (n, Key_String k) = None.
Proof.
  intros Hk. unfold keyError. cbn [fst snd]. pose proof (ParseKey_String k Hk) as Hp. destruct (Key_String k) eqn:E; [by vm_compute in Hp|]. rewrite bool_decide_false by done. by rewrite Hp.
Qed.
Lemma firstSome_none {A B} (f : nat → A → option B) i xs : (∀ j x, x ∈ xs → f j x = None) → firstSome f i xs = None.
Proof. revert i. induction xs as [|x xs IH]; intros i Hx; [done|]. cbn. rewrite Hx by set_solver. apply IH. set_solver. Qed.

Lemma Materialize_made seed cfg :
  word seed → gen_ok cfg → ∃ fuel p, (∀ f, (fuel ≤ f)%nat → Materialize f seed cfg = Some (Ok p)) ∧ materialized cfg p.
Proof.
  intros Hs Hc. pose proof (go_nodes cfg Hc). pose proof (go_tick cfg Hc).
  set (key name := Key_String (DeriveKey (New seed) (str name))).
  set (p0 := MkPlan SchemaVersion (MkProvenance seed [] GeneratorVersion [])
               (MkPlanConfig (gc_Nodes cfg) (gc_Duration cfg) (gc_TickInterval cfg) (gc_MaxOffset cfg) (gc_MaxSteps cfg))
               (MkKeys (key "net"%string) (key "engine_sync"%string) (key "clock"%string) (key "raft"%string)) [] defaultEpochNS [] [] [] [] [] ∅).
  destruct (onStream_gives seed "gen.net" (genNetwork cfg) p0 _ Hs (genNetwork_gives cfg p0)) as (f1 & p1 & R1 & ls & Hp1 & Hls & Hends).
  destruct (onStream_gives seed "gen.clock" (genClocks cfg) p1 _ Hs (genClocks_gives cfg p1 Hc ltac:(by subst) ltac:(by subst)))
    as (f2 & p2 & R2 & hs & cs & Hp2 & Hhs & Hno & Hnil & Hcs & Hnodes).
  destruct (onStream_gives seed "gen.fault" (genFaults cfg) p2 _ Hs (genFaults_gives cfg p2 Hc ltac:(by subst) ltac:(by subst) ltac:(by subst) ltac:(by subst)))
    as (f3 & p3 & R3 & os & qs & Hos & Hlos & Hqs & Hp3).
  destruct (onStream_gives seed "gen.workload" (genWorkload cfg) p3 _ Hs (genWorkload_gives cfg p3 Hc ltac:(by subst) ltac:(by subst)))
    as (f4 & p4 & R4 & ops & Hp4 & Hops).
  assert (Hperm := sortAt_perm fe_AtNS ((os ≫= outageEntries) ++ (qs ≫= partitionEntries))).
  assert (Hv : Plan_Validate p4 = None).
  { unfold Plan_Validate. assert (Hh : validateHolds p4 = None) by (apply (made_holds_legal cfg); subst; done).
    rewrite Hh. subst. cbn -[keyError str ParseKey firstSome]. destruct (Z.leb_spec (gc_Nodes cfg) 0); [lia|]. destruct (Z.leb_spec (gc_TickInterval cfg) 0); [lia|].
    rewrite firstSome_none.
    - rewrite firstSome_none; [done|]. intros j e He. unfold entryError. rewrite Hperm in He. apply elem_of_app in He as [He|He]; apply list_elem_of_bind in He as (x & Hx & _);
        [|unfold partitionEntries in Hx; destruct (pa_both x)]; repeat (apply elem_of_cons in Hx as [->|Hx]); try done; by apply elem_of_nil in Hx.
    - intros _ [n k] Hx. assert (Hk : ∃ name, k = key name) by (repeat (apply elem_of_cons in Hx as [[= -> ->]|Hx]; [eauto|]); by apply elem_of_nil in Hx).
      destruct Hk as [name ->]. by apply keyError_none, New_key_wf. }
  exists (f1 + f2 + f3 + f4)%nat, p4. split.
  - intros f Hf. unfold Materialize. destruct (Z.leb_spec (gc_Nodes cfg) 0); [lia|]. fold p0. rewrite R1 by lia. cbn [mbind option_bind].
    rewrite R2 by lia. cbn [mbind option_bind]. rewrite R3 by lia. cbn [mbind option_bind]. rewrite R4 by lia. cbn [mbind option_bind]. by rewrite Hv.
  - split; [done|subst..]; try done. cbn. split; [apply sortAt_sorted|]. exists os, qs. done.
Qed.

(** C38. The generator always delivers.  For every seed and every configuration with
    between one and 2^31 nodes, a positive tick, a positive duration of at most 2^57 ns
    (over four years) and, when holds are asked for, of at least four seconds, and counts
    of crashes and of operations below 2^63, there is an amount of fuel from which on [Materialize] returns one and the
    same plan, [Validate] accepts it, and it is what was asked for: one link per ordered
    pair of nodes, at most one hold to a node and none on a drifting one, as many crashes
    as asked for with every restart inside the run, floors that count exactly the crashes
    and the distinct links cut, everything in time order, and each client's operations
    numbered 1, 2, 3, ... in the order they are issued. *)
Theorem Materialize_legal seed cfg :
  word seed → gen_ok cfg → ∃ fuel p, (∀ f, (fuel ≤ f)%nat → Materialize f seed cfg = Some (Ok p)) ∧ materialized cfg p.
Proof. apply Materialize_made. Qed.

Lemma DefaultGenConfig_ok : gen_ok DefaultGenConfig.
Proof. split; cbn; unfold second; lia. Qed.
Lemma Materialize_legal_witness : ∃ fuel p, Materialize fuel 103 DefaultGenConfig = Some (Ok p) ∧ materialized DefaultGenConfig p.
Proof.
  assert (Hs : word 103) by (unfold word; lia). destruct (Materialize_legal 103 DefaultGenConfig Hs DefaultGenConfig_ok) as (fuel & p & Hf & Hm).
  exact (ex_intro _ fuel (ex_intro _ p (conj (Hf fuel (le_n fuel)) Hm))).
Defined.

(** A run of three seconds with a hold: the hold may open after the end, and then the
    generator's own check refuses the plan. *)
Definition shortRun : GenConfig := MkGenConfig 3 3000000000 10000000 500000000 2000000 0 0 1 0 false.
Example short_run_refused : Materialize 4 1 shortRun = Some (Err (errGenerated (errHoldLate 0))).
Proof. by vm_compute. Qed.
