(* ===== verification/SimBuild.v ===== *)
(** * From a plan to a run

    src/sim/plan/build.go and src/sim/counters.go: a plan's clocks with their holds
    compiled in, the loop, the network and the counters it becomes ([Build]), its timed
    faults as events of the loop, and the rules that fire on a condition ([Trigger]).
    The generator that panics on every draw, and the census of assertions, have no effect
    on a run and are left out.

    [Build_ready] shows that a materialized plan always builds, with its faults in the
    queue; [rules_fire_alone] that every rule has a budget of its own;
    [Counters_Check_exact] what a run must have done to pass its floors. *)

From Stdlib Require Import Lia ZArith String.
From stdpp Require Import base tactics numbers option gmap list sorting.
From S2P Require Import Prelude Bytes ClockTimeline SimQueue SimLoop SimTransport Rng CheckTxn SimPlan.

(** ** Counters

    An injector is its number, from one. *)
Definition injectorNames : list bytes :=
  str <$> ["sent"; "deliver"; "drop"; "duplicate"; "tail-latency"; "reorder"; "partition"; "partition-drop"; "crash"; "restart"; "pause";
           "sync-loss"; "unsynced-lost"; "clock-drift"; "clock-step"; "clock-hold"]%string.
Definition numInjectors : Z := 17.
Definition InjectorByName (s : bytes) : option Z := i ← list_find (λ n, n = s) injectorNames; Some (Z.of_nat (fst i) + 1).

Record Counters := MkCounters { ct_fired : gmap Z Z; ct_minFires : gmap Z Z }.
Definition NewCounters : Counters := MkCounters ∅ ∅.
Definition Count (c : Counters) (i : Z) : Z := if numInjectors <=? i then 0 else default 0 (ct_fired c !! i).
Definition Counters_Add (i n : Z) (c : Counters) : Counters :=
  if numInjectors <=? i then c else MkCounters (<[i := add64 (default 0 (ct_fired c !! i)) n]> (ct_fired c)) (ct_minFires c).
Definition Fire (i : Z) (c : Counters) : Counters := Counters_Add i 1 c.
Definition Require_ (i n : Z) (c : Counters) : Counters := MkCounters (ct_fired c) (<[i := if n =? 0 then 1 else n]> (ct_minFires c)).
Record Shortfall := MkShortfall { sf_Injector : Z; sf_Want : Z; sf_Got : Z }.
Definition Counters_Check (c : Counters) : list Shortfall :=
  omap (λ i, want ← ct_minFires c !! i; if Count c i <? want then Some (MkShortfall i want (Count c i)) else None)
    (merge_sort Z.le (elements (dom (ct_minFires c)))).

(** ** Clocks *)

Inductive BuildError :=
| errPlan (e : PlanError) | errNodeCount | errScheduleNode (n : Z) | errBuildHoldNode (i : nat) | errHold (i : nat) (e : ClockError)
| errClock (i : nat) (e : ClockError) | errNetKey | errLoop (e : LoopError) | errInjector (name : bytes).

Definition layClock (tl : Timeline) (nc : NodeClock) : Timeline :=
  MkTimeline (match nc_Skew nc with [] => tl_Skew tl | skew => skew end) (tl_Steps tl ++ nc_Steps nc) (tl_Boots tl ++ nc_Boots nc) (tl_Epoch tl).
Fixpoint layClocks (tls : list Timeline) (ncs : list NodeClock) : result BuildError (list Timeline) :=
  match ncs with
  | [] => Ok tls
  | nc :: ncs =>
      match nth tls (nc_Node nc) with
      | None => Err (errScheduleNode (nc_Node nc))
      | Some tl => layClocks (<[Z.to_nat (nc_Node nc) := layClock tl nc]> tls) ncs
      end
  end.
Definition clockHold (h : PlanHold) : Hold :=
  MkHold (ph_A h) (ph_B h) (ph_AtPPB h) (ph_FromNS h) (ph_ToNS h) (ph_RampNS h) (realization (ph_Realize h)) (ph_Envelope h).
Fixpoint layHolds (maxOffset : Z) (i : nat) (tls : list Timeline) (hs : list PlanHold) : option (result BuildError (list Timeline)) :=
  match hs with
  | [] => Some (Ok tls)
  | h :: hs =>
      match nth tls (ph_B h) with
      | None => Some (Err (errBuildHoldNode i))
      | Some tl =>
          r ← Compile (clockHold h) tl maxOffset;
          match r with
          | Err e => Some (Err (errHold i e))
          | Ok (out, _) => layHolds maxOffset (S i) (<[Z.to_nat (ph_B h) := out]> tls) hs
          end
      end
  end.
Fixpoint newSims (maxOffset : Z) (i : nat) (tls : list Timeline) : option (result BuildError (list Sim)) :=
  match tls with
  | [] => Some (Ok [])
  | tl :: tls =>
      c ← NewSim tl maxOffset;
      match c with
      | Err e => Some (Err (errClock i e))
      | Ok c => rest ← newSims maxOffset (S i) tls; Some (match rest with Err e => Err e | Ok cs => Ok (c :: cs) end)
      end
  end.
Definition buildClocks (p : Plan) : option (result BuildError (list Sim)) :=
  let maxOffset := pc_MaxOffsetNS (pn_Config p) in
  match layClocks (replicate (Z.to_nat (pc_Nodes (pn_Config p))) (MkTimeline [MkSegment 0 0 0] [] [] (pn_EpochNS p))) (pn_Clocks p) with
  | Err e => Some (Err e)
  | Ok tls => r ← layHolds maxOffset 0 tls (pn_Holds p); match r with Err e => Some (Err e) | Ok tls => newSims maxOffset 0 tls end
  end.

(** ** Runs *)

(** What [schedule] gives the loop to do. *)
Inductive planAction :=
| ActCut (from to : Z) | ActHeal (from to : Z) | ActCutBoth (from to : Z) | ActHealBoth (from to : Z)
| ActConf (node : Z) | ActRebalance (from to : Z) | ActPromote (node : Z).
(** The link actions, when they fire; the others call the run's hooks. *)
Definition linkAction (a : planAction) (t : SimTransport) : SimTransport * list Injector :=
  match a with
  | ActCut from to => Cut from to t
  | ActHeal from to => (Heal from to t, [])
  | ActCutBoth from to => CutBoth from to t
  | ActHealBoth from to => (HealBoth from to t, [])
  | ActConf _ | ActRebalance _ _ | ActPromote _ => (t, [])
  end.

Section Build.
Context {P W V : Type} (doing : planAction → P).
Abbreviation RunLoop := (@Loop P W V).
Abbreviation RunCode := (@LoopConfig P W V).

Record Run := MkRun { rn_Loop : RunLoop; rn_Transport : SimTransport; rn_Counters : Counters; rn_Clocks : list Sim; rn_plan : Plan; rn_fired : list Z }.

Definition schedule (when : Z) (action : bytes) (node from to : Z) (l : RunLoop) : option RunLoop :=
  if bool_decide (action = str "crash") then Loop_Crash when node l
  else if bool_decide (action = str "restart") then Loop_Restart when node l
  else if bool_decide (action = str "cut") then Do when (doing (ActCut from to)) l
  else if bool_decide (action = str "heal") then Do when (doing (ActHeal from to)) l
  else if bool_decide (action = str "cut_both") then Do when (doing (ActCutBoth from to)) l
  else if bool_decide (action = str "heal_both") then Do when (doing (ActHealBoth from to)) l
  else if bool_decide (action = str "conf") then Do when (doing (ActConf node)) l
  else if bool_decide (action = str "rebalance") then Do when (doing (ActRebalance from to)) l
  else if bool_decide (action = str "promote") then Do when (doing (ActPromote node)) l
  else Some l.

Definition loopConfig (p : Plan) (code : RunCode) : RunCode :=
  MkLoopConfig (pc_TickIntervalNS (pn_Config p)) (pc_DurationNS (pn_Config p)) (pc_MaxSteps (pn_Config p)) (lc_handle code) (lc_act code) (lc_oracles code).
Fixpoint requireAll (m : gmap bytes Z) (names : list bytes) (c : Counters) : result BuildError Counters :=
  match names with
  | [] => Ok c
  | name :: names =>
      match InjectorByName name with
      | None => Err (errInjector name)
      | Some inj => requireAll m names (Require_ inj (default 0 (m !! name)) c)
      end
  end.
Definition layLink (t : SimTransport) (l : PlanLink) : SimTransport :=
  SetLink (ln_From l) (ln_To l) (MkLink (ln_DropPerMille l) (ln_DupPerMille l) (ln_LatMinNS l) (ln_LatMaxNS l) (ln_TailPerMille l) (ln_TailMaxNS l)) t.

(** [code] is what the nodes and the actions do, and the oracles; [nodes] is how many
    nodes there are. *)
Definition Build (p : Plan) (nodes : nat) (code : RunCode) (w : W) : option (result BuildError Run) :=
  match Plan_Validate p with
  | Some e => Some (Err (errPlan e))
  | None =>
      if negb (Z.of_nat nodes =? pc_Nodes (pn_Config p)) then Some (Err errNodeCount)
      else
        clocks ← buildClocks p;
        match clocks with
        | Err e => Some (Err e)
        | Ok clocks =>
            match ParseKey (ks_Net (pn_Keys p)) with
            | None => Some (Err errNetKey)
            | Some netKey =>
                loop ← NewLoop (loopConfig p code) nodes clocks w;
                match loop with
                | Err e => Some (Err (errLoop e))
                | Ok loop =>
                    match requireAll (pn_MinFires p) (merge_sort bytes_le (elements (dom (pn_MinFires p)))) NewCounters with
                    | Err e => Some (Err e)
                    | Ok counts =>
                        let tr := foldl layLink (NewSimTransport netKey) (pn_Links p) in
                        loop ← foldM (λ l e, schedule (fe_AtNS e) (fe_Action e) (fe_Node e) (fe_From e) (fe_To e) l) loop (pn_Entries p);
                        Some (Ok (MkRun loop tr counts clocks p (replicate (length (pn_Rules p)) 0)))
                    end
                end
            end
        end
  end.

Definition fireRule (condition : bytes) (r : Run) (ir : nat * Rule) : option Run :=
  let '(i, rule) := ir in
  if negb (bool_decide (ru_On rule = condition)) then Some r
  else
    n ← rn_fired r !! i;
    if (0 <? ru_Times rule) && (ru_Times rule <=? n) then Some r
    else
      l ← schedule (i64 (lo_now (rn_Loop r) + ru_AfterNS rule)) (ru_Action rule) (ru_Node rule) (ru_From rule) (ru_To rule) (rn_Loop r);
      Some (MkRun l (rn_Transport r) (rn_Counters r) (rn_Clocks r) (rn_plan r) (<[i := i64 (n + 1)]> (rn_fired r))).
Definition Trigger (condition : bytes) (r : Run) : option Run := foldM (fireRule condition) r (imap pair (pn_Rules (rn_plan r))).
End Build.

(** ** Holds compile on a flat clock *)

(** What the holds of a plan need to compile: an offset a slew reaches at a whole rate. *)
Record build_ok (cfg : GenConfig) : Prop := MkBuildOk {
  bo_gen : gen_ok cfg;
  bo_offset : 0 ≤ gc_MaxOffset cfg ≤ 600000000;
  bo_whole : (20 | gc_MaxOffset cfg);
  bo_tick : gc_TickInterval cfg ≤ horizon;
}.
Definition flat : Timeline := MkTimeline [MkSegment 0 0 0] [] [] defaultEpochNS.
(** A timeline the loop can tick by. *)
Record ticking (tl : Timeline) : Prop := MkTicking {
  tk_sane : sane tl; tk_steady : Forall steady (tl_Skew tl); tk_boots : tl_Boots tl = [];
}.

Lemma offsetIn_exact s t d :
  seg_sane s → - ppb < sg_SlopePPB s → 0 ≤ sg_Start s ≤ t → t ≤ horizon → sg_SlopePPB s * (t - sg_Start s) = d * ppb → offsetIn s t = Some (sg_Off s + d).
Proof. intros Hs H1 H2 H3 Hd. rewrite offsetIn_eq by done. unfold offZ. rewrite Hd, Z.quot_mul by done. done. Qed.

Lemma validateSkew_first i s ss : - ppb < sg_SlopePPB s → validateSkew i None (s :: ss) = validateSkew (S i) (Some s) ss.
Proof. intros H. cbn [validateSkew]. by rewrite (proj2 (Z.leb_gt _ _)). Qed.
Lemma validateSkew_next i p s ss :
  - ppb < sg_SlopePPB s → sg_Start p < sg_Start s → offsetIn p (sg_Start s) = Some (sg_Off s) → validateSkew i (Some p) (s :: ss) = validateSkew (S i) (Some s) ss.
Proof. intros H1 H2 H3. cbn [validateSkew]. rewrite !(proj2 (Z.leb_gt _ _)) by done. rewrite H3. cbn. by rewrite Z.eqb_refl. Qed.

(** The segments of a slew that reaches [2 * k] in two seconds. *)
Definition slewed (start from to k : Z) : list Segment :=
  [MkSegment start 0 k; MkSegment from (2 * k) 0; MkSegment to (2 * k) (- k); MkSegment (to + 2 * second) 0 0].
Lemma slewed_ticking pre start from to k :
  (pre = [] ∧ start = 0 ∨ pre = [MkSegment 0 0 0] ∧ 0 < start) → from = start + 2 * second → from < to → to + 2 * second ≤ horizon → 0 ≤ k ≤ 450000000 →
  ticking (MkTimeline (pre ++ slewed start from to k) [] [] defaultEpochNS).
Proof.
  intros Hpre -> Hft Hto Hk. unfold second, horizon in *.
  assert (Hoff : ∀ st off sl t d, 0 ≤ st ≤ t → t ≤ 2 ^ 58 → Z.abs off ≤ 900000000 → -500000000 ≤ sl ≤ 500000000 → sl * (t - st) = d * ppb → offsetIn (MkSegment st off sl) t = Some (off + d)).
  { intros st off sl t d H1 H2 H3 H4 H5. apply (offsetIn_exact (MkSegment st off sl)); cbn [sg_Start sg_Off sg_SlopePPB]; unfold seg_sane, is_i64, horizon, ppb in *; cbn; lia. }
  assert (Htail : ∀ i, validateSkew i (Some (MkSegment start 0 k)) (drop 1 (slewed start (start + 2 * 1000000000) to k)) = Some None).
  { intros i. unfold slewed, second. cbn [drop].
    rewrite validateSkew_next; cbn [sg_Start sg_Off sg_SlopePPB]; [|unfold ppb; lia|lia|rewrite (Hoff _ _ _ _ (2 * k)) by (unfold ppb; lia); f_equal; lia].
    rewrite validateSkew_next; cbn [sg_Start sg_Off sg_SlopePPB]; [|unfold ppb; lia|lia|rewrite (Hoff _ _ _ _ 0) by (unfold ppb; lia); f_equal; lia].
    rewrite validateSkew_next; cbn [sg_Start sg_Off sg_SlopePPB]; [done|unfold ppb; lia|lia|rewrite (Hoff _ _ _ _ (- (2 * k))) by (unfold ppb; lia); f_equal; lia]. }
  split; [split; [|cbn [tl_Skew]|by vm_compute|by vm_compute]| |done].
  - unfold Validate. cbn [tl_Skew tl_Epoch tl_Steps tl_Boots]. destruct Hpre as [[-> ->]|[-> Hs]]; cbn [app] in *; unfold slewed in Htail; cbn [drop] in Htail.
    + unfold slewed. rewrite validateSkew_first by (cbn; unfold ppb; lia). by rewrite Htail.
    + rewrite validateSkew_first by (cbn; unfold ppb; lia). unfold slewed. rewrite validateSkew_next; cbn [sg_Start sg_Off sg_SlopePPB]; [|unfold ppb; lia|lia|by rewrite (Hoff _ _ _ _ 0) by (unfold ppb; lia)].
      by rewrite Htail.
  - unfold seg_sane, is_i64, horizon, ppb. destruct Hpre as [[-> ->]|[-> ?]]; repeat (apply Forall_cons; split); cbn; try apply Forall_nil; try done; unfold second; lia.
  - unfold steady. cbn [tl_Skew]. destruct Hpre as [[-> ->]|[-> ?]]; repeat (apply Forall_cons; split); cbn; try apply Forall_nil; lia.
Qed.

(** A step at each end of a hold. *)
Lemma stepped_ticking from to target :
  0 ≤ from < to → to ≤ horizon → 0 ≤ target ≤ 900000000 → ticking (MkTimeline [MkSegment 0 0 0] [MkWallStep from target; MkWallStep to (- target)] [] defaultEpochNS).
Proof.
  intros H1 H2 Ht. split; [split; [|by repeat constructor; vm_compute| |by vm_compute]|by repeat constructor; vm_compute|done].
  - unfold Validate. cbn [tl_Skew tl_Epoch tl_Steps tl_Boots fmap list_fmap ws_At unsorted]. rewrite validateSkew_first by done. cbn. by rewrite (proj2 (Z.ltb_ge _ _)) by lia.
  - cbn. unfold horizon. lia.
Qed.

Lemma Compile_flat cfg h :
  build_ok cfg → 4 * second ≤ gc_Duration cfg → hold_ok cfg h → ∃ tl r, Compile (clockHold h) flat (gc_MaxOffset cfg) = Some (Ok (tl, r)) ∧ ticking tl.
Proof.
  intros [[_ _ Hdur _ _ _] Hoff [q Hq] _] Hlong [_ _ _ Hppb _ Hk Hfrom Hto].
  assert (Hhalf : gc_Duration cfg ÷ 2 ≤ 2 ^ 56) by (rewrite Z.quot_div_nonneg by lia; apply Z.div_le_upper_bound; lia).
  assert (Htarget : ∃ k, 0 ≤ k ≤ 450000000 ∧ mulDiv (gc_MaxOffset cfg) (ph_AtPPB h) ppb = Some (2 * k)).
  { rewrite Hppb. exists (if gc_EnvelopeExceeded cfg then 15 * q else 9 * q). unfold targetPPB.
    destruct (gc_EnvelopeExceeded cfg); (split; [lia|]); (rewrite mulDiv_exact; [|unfold is_i64, ppb; lia..|unfold ppb; lia]); f_equal.
    - replace (_ * 1500000000) with (2 * (15 * q) * ppb) by (unfold ppb; lia). by rewrite Z.quot_mul.
    - replace (_ * 900000000) with (2 * (9 * q) * ppb) by (unfold ppb; lia). by rewrite Z.quot_mul. }
  destruct Htarget as (k & Hkb & Htarget). unfold second in *. unfold Compile, clockHold. cbn [h_Realize h_From h_To h_Ramp h_AtPPB]. rewrite Htarget.
  assert (Hramp : 0 ≤ ph_RampNS h ≤ 2000000000) by (destruct Hk as [[_ ->]|[_ ->]]; lia).
  rewrite (i64_small (ph_FromNS h - ph_RampNS h)), (i64_small (ph_ToNS h + ph_RampNS h)) by (unfold is_i64; lia).
  assert (Hbase : baseOffsetFor flat (ph_FromNS h - ph_RampNS h) (ph_ToNS h + ph_RampNS h) = Some (Ok 0)).
  { unfold baseOffsetFor, flat. cbn [tl_Skew forceIn sg_Start]. rewrite (proj2 (Z.leb_le _ _)) by lia. cbn [sg_SlopePPB Z.eqb negb tl_Steps List.find].
    rewrite (offsetIn_exact (MkSegment 0 0 0) _ 0); cbn [sg_Start sg_Off sg_SlopePPB]; [done|by repeat split; vm_compute|done|lia|unfold horizon; lia|lia]. }
  rewrite Z.geb_leb, (proj2 (Z.leb_gt _ _)) by lia. rewrite (proj2 (Z.ltb_ge (ph_RampNS h) 0)), (proj2 (Z.ltb_ge (_ - _) 0)) by lia. rewrite Hbase. cbn [mbind option_bind].
  assert (Hdone : ∀ tl r, ticking tl → ∃ tl' r', validated tl r = Some (Ok (tl', r')) ∧ ticking tl').
  { intros tl r Ht. exists tl, r. split; [|done]. unfold validated. by rewrite (sn_valid _ (tk_sane _ Ht)). }
  destruct Hk as [[Hr Hra]|[Hr Hra]]; rewrite Hr, Hra in *.
  - change (realization (str "slew")) with SlewHold. rewrite (proj2 (Z.leb_gt (2 * 1000000000) 0)) by lia. rewrite bool_decide_false by done. rewrite bool_decide_false by done.
    unfold abs64. rewrite (proj2 (Z.ltb_ge (2 * k) 0)), Z.geb_leb, (proj2 (Z.leb_gt (2 * 1000000000) (2 * k))) by lia.
    rewrite mulDiv_exact; [|unfold is_i64, ppb; lia..|unfold ppb; lia]. replace (2 * k * ppb) with (k * (2 * 1000000000)) by (unfold ppb; lia). rewrite Z.quot_mul by lia. cbn [mbind option_bind].
    rewrite !Z.add_0_l, !i64_small by (unfold is_i64; lia). apply Hdone. unfold flat, dropTied. cbn [tl_Skew tl_Steps tl_Boots tl_Epoch last sg_Start removelast].
    apply (slewed_ticking _ (ph_FromNS h - 2 * 1000000000) (ph_FromNS h) (ph_ToNS h) k); unfold second, horizon; try lia.
    destruct (Z.eqb_spec 0 (ph_FromNS h - 2 * 1000000000)); [left; split; [done|lia]|right; split; [done|lia]].
  - change (realization (str "step")) with StepHold. rewrite bool_decide_false by done. rewrite bool_decide_true by done.
    rewrite i64_small by (unfold is_i64; lia). apply Hdone. unfold flat. cbn [tl_Skew tl_Steps tl_Boots tl_Epoch insertStep ws_At]. rewrite (proj2 (Z.leb_le _ _)) by lia.
    apply stepped_ticking; unfold horizon; lia.
Qed.

(** ** The clocks of a materialized plan *)

Lemma layClocks_ok tls ncs :
  Forall (λ nc, 0 ≤ nc_Node nc < Z.of_nat (length tls)) ncs → NoDup (nc_Node <$> ncs) →
  ∃ tls', layClocks tls ncs = Ok tls' ∧ length tls' = length tls
    ∧ (∀ nc tl, nc ∈ ncs → tls !! Z.to_nat (nc_Node nc) = Some tl → tls' !! Z.to_nat (nc_Node nc) = Some (layClock tl nc))
    ∧ ∀ i, (∀ nc, nc ∈ ncs → Z.to_nat (nc_Node nc) ≠ i) → tls' !! i = tls !! i.
Proof.
  revert tls. induction ncs as [|nc ncs IH]; intros tls Hr Hn.
  { exists tls. split_and!; try done. by intros ? ? ?%elem_of_nil. }
  apply Forall_cons in Hr as [Hnc Hr]. apply NoDup_cons in Hn as [Hin Hn]. cbn [layClocks]. destruct (nth_some tls (nc_Node nc) Hnc) as (tl & -> & Hl).
  assert (Hne : ∀ nc', nc' ∈ ncs → Z.to_nat (nc_Node nc') ≠ Z.to_nat (nc_Node nc)).
  { intros nc' Hnc' He. rewrite Forall_forall in Hr. specialize (Hr nc' Hnc'). apply Hin. replace (nc_Node nc) with (nc_Node nc') by lia. by apply list_elem_of_fmap_2. }
  destruct (IH (<[Z.to_nat (nc_Node nc) := layClock tl nc]> tls)) as (tls' & -> & Hlen & H1 & H2); [by rewrite length_insert|done|]. rewrite length_insert in Hlen. exists tls'. split_and!; [done|done| |].
  - intros nc' tl' [->|Hnc']%elem_of_cons Htl'.
    + rewrite H2 by done. rewrite Hl in Htl'. injection Htl' as <-. by rewrite list_lookup_insert_eq by lia.
    + apply H1; [done|]. by rewrite list_lookup_insert_ne by (intros He; by apply (Hne nc')).
  - intros i Hi. rewrite H2 by (intros nc' Hnc'; apply Hi; by right). apply list_lookup_insert_ne. apply Hi. by left.
Qed.

Lemma layHolds_ok cfg i tls hs :
  build_ok cfg → (hs ≠ [] → 4 * second ≤ gc_Duration cfg) → Z.of_nat (length tls) = gc_Nodes cfg → Forall (hold_ok cfg) hs → NoDup (ph_B <$> hs) →
  (∀ h, h ∈ hs → tls !! Z.to_nat (ph_B h) = Some flat) → (∀ j tl, tls !! j = Some tl → ticking tl) →
  ∃ tls', layHolds (gc_MaxOffset cfg) i tls hs = Some (Ok tls') ∧ length tls' = length tls ∧ ∀ j tl, tls' !! j = Some tl → ticking tl.
Proof.
  intros Hc Hlong. revert i tls. induction hs as [|h hs IH]; intros i tls Hlen Hf Hn Hflat Htick; [by exists tls|].
  apply Forall_cons in Hf as [Hh Hf]. apply NoDup_cons in Hn as [Hin Hn]. cbn [layHolds]. pose proof (hk_b _ _ Hh) as Hb.
  rewrite nth_lookup, Hflat by (lia || left). destruct (Compile_flat cfg h Hc (Hlong ltac:(done)) Hh) as (tl & r & -> & Ht). cbn [mbind option_bind].
  destruct (IH (λ _, Hlong ltac:(done)) (S i) (<[Z.to_nat (ph_B h) := tl]> tls)) as (tls' & -> & Hl' & Ht'); [by rewrite length_insert|done|done| | |].
  - intros h' Hh'. rewrite list_lookup_insert_ne; [apply Hflat; by right|]. intros He. rewrite Forall_forall in Hf. pose proof (hk_b _ _ (Hf h' Hh')).
    apply Hin. replace (ph_B h) with (ph_B h') by lia. by apply list_elem_of_fmap_2.
  - intros j tl' Hj. rewrite list_lookup_insert_Some in Hj. destruct Hj as [(_ & <- & _)|[_ Hj]]; [done|by eapply Htick].
  - exists tls'. rewrite length_insert in Hl'. done.
Qed.

Lemma newSims_ok off i tls : 0 ≤ off → Forall ticking tls → newSims off i tls = Some (Ok ((λ tl, MkSim tl 0 off) <$> tls)).
Proof.
  intros Ho Hf. revert i. induction Hf as [|tl tls Ht _ IH]; intros i; [done|]. cbn [newSims]. unfold NewSim. rewrite (sn_valid _ (tk_sane _ Ht)). cbn [mbind option_bind].
  rewrite (proj2 (Z.ltb_ge _ _)) by done. rewrite IH. done.
Qed.

Lemma flat_ticking : ticking flat.
Proof. split; [split|..]; by repeat constructor; vm_compute. Qed.
Lemma drifting_ticking slope : -200000 ≤ slope ≤ 200000 → ticking (MkTimeline [MkSegment 0 0 slope] [] [] defaultEpochNS).
Proof.
  intros Hs. split; [split; [| |by vm_compute|by vm_compute]|repeat constructor; unfold steady; cbn; lia|done].
  - unfold Validate. cbn [tl_Skew tl_Epoch tl_Steps tl_Boots]. by rewrite validateSkew_first by (cbn; unfold ppb; lia).
  - repeat constructor; unfold seg_sane, is_i64, horizon, ppb; cbn; lia.
Qed.

Lemma buildClocks_ok cfg p :
  build_ok cfg → materialized cfg p →
  ∃ tls, buildClocks p = Some (Ok ((λ tl, MkSim tl 0 (gc_MaxOffset cfg)) <$> tls)) ∧ Z.of_nat (length tls) = gc_Nodes cfg ∧ Forall ticking tls.
Proof.
  intros Hc Hm. destruct (bo_gen _ Hc) as [Hnodes _ _ _ _ _]. destruct (mt_clocks _ _ Hm) as [Hcl Hns]. destruct (mt_holds _ _ Hm) as (Hho & Hnd & Hnil).
  unfold buildClocks. rewrite (mt_config _ _ Hm), (mt_epoch _ _ Hm). cbn [pc_Nodes pc_MaxOffsetNS]. change (MkTimeline [MkSegment 0 0 0] [] [] defaultEpochNS) with flat.
  set (N := Z.to_nat (gc_Nodes cfg)).
  assert (Hrange : ∀ nc, nc ∈ pn_Clocks p → 0 ≤ nc_Node nc < gc_Nodes cfg).
  { intros nc Hin. assert (Hz : nc_Node nc ∈ seqZ 0 (gc_Nodes cfg)) by (rewrite <- Hns; by apply list_elem_of_fmap_2). apply elem_of_seqZ in Hz. lia. }
  assert (Hflat : ∀ n, 0 ≤ n < gc_Nodes cfg → replicate N flat !! Z.to_nat n = Some flat) by (intros n Hn; apply lookup_replicate_2; lia).
  destruct (layClocks_ok (replicate N flat) (pn_Clocks p)) as (tls & -> & Hlen & H1 & _).
  { apply Forall_forall. intros nc Hin. rewrite length_replicate. specialize (Hrange nc Hin). lia. } { rewrite Hns. apply NoDup_seqZ. }
  rewrite length_replicate in Hlen. rewrite Forall_forall in Hcl.
  assert (Hof : ∀ n, 0 ≤ n < gc_Nodes cfg → ∃ nc, nc ∈ pn_Clocks p ∧ nc_Node nc = n ∧ tls !! Z.to_nat n = Some (layClock flat nc)).
  { intros n Hn. assert (Hz : n ∈ nc_Node <$> pn_Clocks p) by (rewrite Hns; apply elem_of_seqZ; lia). apply list_elem_of_fmap in Hz as (nc & -> & Hin). exists nc. split_and!; [done|done|]. apply H1; [done|]. by apply Hflat. }
  assert (Hlay : ∀ nc, nc ∈ pn_Clocks p → ticking (layClock flat nc) ∧ (nc_Node nc ∈ ph_B <$> pn_Holds p → layClock flat nc = flat)).
  { intros nc Hin. destruct (Hcl nc Hin) as (Hst & Hbo & Hsk). unfold layClock. rewrite Hst, Hbo. destruct Hsk as [[Hh ->]|[Hh (sl & -> & Hsl)]]; cbn [app].
    - split; [exact flat_ticking|done].
    - split; [by apply drifting_ticking|done]. }
  destruct (layHolds_ok cfg 0 tls (pn_Holds p)) as (tls' & -> & Hl' & Ht'); try done.
  - intros Hne. apply go_holds; [apply Hc|]. destruct (decide (0 < gc_Holds cfg)); [done|]. destruct Hne. apply Hnil. lia.
  - lia.
  - intros h Hh. rewrite Forall_forall in Hho. destruct (Hof (ph_B h) (hk_b _ _ (Hho h Hh))) as (nc & Hin & Hn & ->). f_equal. apply Hlay; [done|]. rewrite Hn. by apply list_elem_of_fmap_2.
  - intros j tl Hj. pose proof (lookup_lt_Some _ _ _ Hj). destruct (Hof (Z.of_nat j) ltac:(lia)) as (nc & Hin & _ & Hl). rewrite Nat2Z.id, Hj in Hl. injection Hl as ->. by apply Hlay.
  - cbn [mbind option_bind]. assert (Hall : Forall ticking tls') by (apply Forall_lookup; exact Ht'). rewrite newSims_ok by (apply Hc || done). exists tls'. split_and!; [done|lia|done].
Qed.

(** ** The loop *)

Section Ready.
Context {P W V : Type} (doing : planAction → P).
Abbreviation RunLoop := (@Loop P W V).

(** An event without its number. *)
Definition outline (e : SimEvent P) : Z * Kind * Z * option P := (ev_At e, ev_Kind e, ev_Node e, ev_Payload e).
(** A loop that has not begun. *)
Record waiting (nodes : nat) (clocks : list Sim) (q : list (Z * Kind * Z * option P)) (l : RunLoop) : Prop := MkWaiting {
  wa_now : lo_now l = 0; wa_down : lo_down l = replicate nodes false; wa_clocks : lo_clocks l = clocks; wa_q : outline <$> lo_q l ≡ₚ q;
}.

Lemma At_waiting nodes clocks q (l : RunLoop) r :
  waiting nodes clocks q l → 0 ≤ rq_At r → 0 ≤ rq_Node r < Z.of_nat nodes →
  ∃ l', At r l = Some l' ∧ waiting nodes clocks ((rq_At r, rq_Kind r, rq_Node r, rq_Payload r) :: q) l'.
Proof using.
  intros [W1 W2 W3 W4] Ha Hn. unfold At. rewrite W1, W2, length_replicate. rewrite (proj2 (Z.ltb_ge _ _)), (proj2 (Z.leb_le _ _)), (proj2 (Z.ltb_lt _ _)) by lia. cbn [andb negb].
  eexists. split; [reflexivity|]. split; try done. cbn. rewrite push_perm. cbn. by rewrite W4.
Qed.

Lemma ticks_waiting (cfg : LoopConfig) nodes tls off (l : RunLoop) js q :
  waiting nodes ((λ tl, MkSim tl 0 off) <$> tls) q l → length tls = nodes → Forall ticking tls → 0 < lc_TickInterval cfg ≤ horizon → (∀ i, i ∈ js → (i < nodes)%nat) →
  ∃ l' ats, foldM (λ l i, scheduleTick cfg (Z.of_nat i) l) l js = Some l' ∧ length ats = length js ∧ Forall (λ a, 0 < a) ats
    ∧ waiting nodes ((λ tl, MkSim tl 0 off) <$> tls) (zip_with (λ i a, (a, KindTick, Z.of_nat i, None)) js ats ++ q) l'.
Proof using.
  intros Hw Hlen Ht Hiv. revert l q Hw. induction js as [|i js IH]; intros l q Hw Hi; [by exists l, []|]. cbn [foldM].
  destruct (lookup_lt_is_Some_2 tls i) as [tl Htl]; [rewrite Hlen; apply Hi; by left|]. assert (Htk : ticking tl) by (rewrite Forall_lookup in Ht; by eapply Ht).
  destruct (NextTick_later tl 0 (lc_TickInterval cfg)) as (at_ & k & Hnext & Hat); [apply Htk|apply Htk|by rewrite (tk_boots _ Htk)|done|unfold horizon; lia|].
  unfold scheduleTick at 2. rewrite (wa_clocks _ _ _ _ Hw), Nat2Z.id, list_lookup_fmap, Htl. cbn [fmap option_fmap option_map mbind option_bind]. unfold Sim_NextTick. cbn [si_tl si_now].
  rewrite Hnext. cbn [mbind option_bind]. destruct (At_waiting nodes _ q l (MkReq at_ KindTick (Z.of_nat i) None) Hw) as (l1 & -> & Hw1); [cbn; lia|cbn; specialize (Hi i ltac:(left)); lia|].
  cbn [mbind option_bind]. destruct (IH l1 _ Hw1) as (l' & ats & -> & Hl & Hpos & Hw'); [intros j Hj; apply Hi; by right|].
  exists l', (at_ :: ats). split_and!; [done|cbn; by rewrite Hl|by constructor|]. destruct Hw' as [A B C Dq]. split; try done. cbn [zip_with]. rewrite Dq. cbn. by rewrite <- Permutation_middle.
Qed.

Lemma NewLoop_waiting (cfg : LoopConfig) nodes tls off w :
  (0 < nodes)%nat → length tls = nodes → Forall ticking tls → 0 < lc_TickInterval cfg ≤ horizon →
  ∃ l ats, NewLoop cfg nodes ((λ tl, MkSim tl 0 off) <$> tls) w = Some (Ok l) ∧ length ats = nodes ∧ Forall (λ a, 0 < a) ats
    ∧ waiting nodes ((λ tl, MkSim tl 0 off) <$> tls) (zip_with (λ i a, (a, KindTick, Z.of_nat i, None)) (seq 0 nodes) ats) l.
Proof using.
  intros Hn Hlen Ht Hiv. unfold NewLoop. rewrite length_fmap, Hlen, Nat.eqb_refl. rewrite (proj2 (Nat.eqb_neq _ _)), (proj2 (Z.leb_gt _ _)) by lia. cbn [negb].
  replace (AssertUniformMaxOffset _) with true.
  2:{ symmetry. unfold AssertUniformMaxOffset. destruct tls as [|tl tls]; [done|]. cbn. apply forallb_forall. intros o Ho%base.list_elem_of_In.
      rewrite <- list_fmap_compose in Ho. apply list_elem_of_fmap in Ho as (? & -> & _). apply Z.eqb_refl. }
  cbn [negb]. set (l0 := MkLoop _ _ _ _ _ _ _ _ _ _).
  destruct (ticks_waiting cfg nodes tls off l0 (seq 0 nodes) []) as (l & ats & -> & Hl & Hpos & Hw); try done.
  - intros i Hi%elem_of_seq. lia.
  - rewrite app_nil_r in Hw. rewrite length_seq in Hl. by exists l, ats.
Qed.

(** The event a timed fault of a materialized plan becomes. *)
Definition planned (e : FaultEntry) : Z * Kind * Z * option P :=
  if bool_decide (fe_Action e = str "crash") then (fe_AtNS e, KindCrash, fe_Node e, None)
  else if bool_decide (fe_Action e = str "restart") then (fe_AtNS e, KindRestart, fe_Node e, None)
  else (fe_AtNS e, KindAction, 0,
        Some (doing (if bool_decide (fe_Action e = str "cut") then ActCut (fe_From e) (fe_To e)
                     else if bool_decide (fe_Action e = str "heal") then ActHeal (fe_From e) (fe_To e)
                     else if bool_decide (fe_Action e = str "cut_both") then ActCutBoth (fe_From e) (fe_To e)
                     else ActHealBoth (fe_From e) (fe_To e)))).
Definition fault_ok (nodes : nat) (e : FaultEntry) : Prop :=
  0 ≤ fe_AtNS e ∧ 0 ≤ fe_Node e < Z.of_nat nodes ∧ fe_Action e ∈ str <$> ["crash"; "restart"; "cut"; "heal"; "cut_both"; "heal_both"]%string.

Lemma faults_ok cfg p : gen_ok cfg → materialized cfg p → Forall (fault_ok (Z.to_nat (gc_Nodes cfg))) (pn_Entries p).
Proof using.
  intros Hc Hm. pose proof (go_nodes _ Hc). destruct (mt_faults _ _ Hm) as (_ & os & qs & Ho & _ & Hq & Hperm & _). rewrite Hperm. rewrite Forall_forall in Ho. rewrite Forall_forall in Hq.
  apply Forall_forall. intros e [He|He]%elem_of_app; apply list_elem_of_bind in He as (x & Hx & Hin).
  - destruct (Ho x Hin) as (H1 & H2 & H3). repeat (apply elem_of_cons in Hx as [->|Hx]); [split_and!; cbn [fe_AtNS fe_Node fe_Action]; [lia|lia|lia|cbn; set_solver]..|by apply elem_of_nil in Hx].
  - destruct (Hq x Hin) as (H1 & H2 & _ & H3 & H4). repeat (apply elem_of_cons in Hx as [->|Hx]);
      [split_and!; cbn [fe_AtNS fe_Node fe_Action]; [lia|lia|lia|destruct (pa_both x); cbn; set_solver]..|by apply elem_of_nil in Hx].
Qed.

Lemma schedule_waiting nodes clocks q (l : RunLoop) e :
  waiting nodes clocks q l → fault_ok nodes e →
  ∃ l', schedule doing (fe_AtNS e) (fe_Action e) (fe_Node e) (fe_From e) (fe_To e) l = Some l' ∧ waiting nodes clocks (planned e :: q) l'.
Proof using.
  intros Hw (Ha & Hn & Hin). unfold schedule, planned, Loop_Crash, Loop_Restart, Do. cbn [fmap list_fmap] in Hin.
  repeat (apply elem_of_cons in Hin as [->|Hin]); [repeat first [rewrite bool_decide_true by done | rewrite bool_decide_false by done]; by apply At_waiting; cbn; try lia..|by apply elem_of_nil in Hin].
Qed.

Lemma entries_waiting nodes clocks q (l : RunLoop) es :
  waiting nodes clocks q l → Forall (fault_ok nodes) es →
  ∃ l', foldM (λ l e, schedule doing (fe_AtNS e) (fe_Action e) (fe_Node e) (fe_From e) (fe_To e) l) l es = Some l' ∧ waiting nodes clocks (q ++ (planned <$> es)) l'.
Proof using.
  intros Hw Hf. revert l q Hw. induction Hf as [|e es He _ IH]; intros l q Hw; [exists l; by rewrite app_nil_r|].
  destruct (schedule_waiting nodes clocks q l e Hw He) as (l1 & Hs & Hw1). cbn [foldM]. rewrite Hs. cbn [mbind option_bind].
  destruct (IH l1 _ Hw1) as (l' & Hl' & [A B C D]). exists l'. split; [done|]. split; try done. rewrite D. cbn. by rewrite <- Permutation_middle.
Qed.
End Ready.

(** ** Links and floors *)

Definition linkParams (l : PlanLink) : LinkParams := MkLink (ln_DropPerMille l) (ln_DupPerMille l) (ln_LatMinNS l) (ln_LatMaxNS l) (ln_TailPerMille l) (ln_TailMaxNS l).
Lemma layLinks_ok ls t :
  NoDup (ends <$> ls) →
  (∀ l, l ∈ ls → tp_links (foldl layLink t ls) !! ends l = Some (linkParams l)) ∧ (∀ k, k ∉ ends <$> ls → tp_links (foldl layLink t ls) !! k = tp_links t !! k)
  ∧ foldl layLink t ls = t <| tp_links := tp_links (foldl layLink t ls) |>.
Proof.
  revert t. induction ls as [|l ls IH]; intros t Hn; [split_and!; [by intros ? ?%elem_of_nil|done|by destruct t]|].
  cbn [fmap list_fmap] in Hn. apply NoDup_cons in Hn as [Hin Hn]. destruct (IH (layLink t l) Hn) as (H1 & H2 & H3). cbn [foldl]. split_and!.
  - intros l' [->|Hl']%elem_of_cons; [|by apply H1]. rewrite H2 by done. apply lookup_insert_eq.
  - intros k Hk. cbn [fmap list_fmap] in Hk. apply not_elem_of_cons in Hk as [Hk1 Hk2]. rewrite H2 by done. by apply lookup_insert_ne.
  - rewrite H3 at 1. done.
Qed.
Lemma pairs_once n : NoDup (seqZ 0 n ≫= targets n).
Proof.
  apply NoDup_bind; [|intros x _; unfold targets; apply NoDup_fmap_2; [by intros ? ? [= ->]|apply NoDup_filter, NoDup_seqZ]|apply NoDup_seqZ].
  intros x1 x2 [a b] _ _ H1 H2. unfold targets in *. apply list_elem_of_fmap in H1 as (? & [= -> ->] & _). by apply list_elem_of_fmap in H2 as (? & [= -> _] & _).
Qed.

Lemma InjectorByName_inj n1 n2 i : InjectorByName n1 = Some i → InjectorByName n2 = Some i → n1 = n2.
Proof.
  unfold InjectorByName. intros H1 H2. destruct (list_find _ injectorNames) as [[i1 s1]|] eqn:E1 in H1; [|done]. destruct (list_find _ injectorNames) as [[i2 s2]|] eqn:E2 in H2; [|done].
  cbn in H1, H2. apply list_find_Some in E1 as (L1 & <- & _), E2 as (L2 & <- & _). simplify_eq. replace i2 with i1 in L2 by lia. congruence.
Qed.
Lemma requireAll_ok m names c :
  NoDup names → Forall (λ n, is_Some (InjectorByName n)) names →
  ∃ c', requireAll m names c = Ok c' ∧ ct_fired c' = ct_fired c
    ∧ (∀ n i, n ∈ names → InjectorByName n = Some i → ct_minFires c' !! i = Some (if default 0 (m !! n) =? 0 then 1 else default 0 (m !! n)))
    ∧ ∀ i, (∀ n, n ∈ names → InjectorByName n ≠ Some i) → ct_minFires c' !! i = ct_minFires c !! i.
Proof.
  intros Hn Hf. revert c Hn. induction Hf as [|n names [j Hj] _ IH]; intros c Hn; [exists c; split_and!; try done; by intros ? ? ?%elem_of_nil|].
  apply NoDup_cons in Hn as [Hin Hn]. cbn [requireAll]. rewrite Hj. destruct (IH (Require_ j (default 0 (m !! n)) c) Hn) as (c' & -> & H1 & H2 & H3). exists c'. split_and!; [done|done| |].
  - intros n' i [->|Hn']%elem_of_cons Hi; [|by apply H2]. rewrite Hj in Hi. injection Hi as <-. rewrite H3; [apply lookup_insert_eq|].
    intros n' Hn' He. apply Hin. by rewrite (InjectorByName_inj n n' j Hj He).
  - intros i Hi. rewrite H3 by (intros n' Hn'; apply Hi; by right). apply lookup_insert_ne. intros ->. by apply (Hi n); [left|].
Qed.
Lemma floors_known cfg p n : materialized cfg p → n ∈ dom (pn_MinFires p) → is_Some (InjectorByName n).
Proof.
  intros Hm Hin. destruct (mt_faults _ _ Hm) as (_ & os & qs & _ & _ & _ & _ & Hf). rewrite Hf in Hin.
  assert (Hone : n = str "partition" ∨ n = str "restart" ∨ n = str "crash" ∨ n = str "sent").
  { unfold cutFloor, outageFloors in Hin. destruct (0 <? _)%nat, (length os); set_solver. }
  destruct Hone as [->|[->|[->| ->]]]; by vm_compute; eexists.
Qed.

(** ** Runs of materialized plans *)

Lemma net_key_parses p : Plan_Validate p = None → ∃ k, ParseKey (ks_Net (pn_Keys p)) = Some k.
Proof.
  unfold Plan_Validate. intros H. do 4 (destruct (_ : bool) in H; [done|]). cbn [firstSome] in H. unfold keyError at 1 in H. cbn [fst snd] in H.
  destruct (bool_decide _) in H; [done|]. destruct (ParseKey _) as [k|] eqn:E in H; [by exists k|done].
Qed.


Lemma DefaultGenConfig_build : build_ok DefaultGenConfig.
Proof. split; [exact DefaultGenConfig_ok|cbn; lia|by exists 25000000|by vm_compute]. Qed.
Definition idle : @LoopConfig planAction unit unit := MkLoopConfig 0 0 0 (λ ev now w, Some (w, [])) (λ a now w, Some (w, [])) [].

(** ** Rules *)

Section Rules.
Context {P W V : Type} (doing : planAction → P).

(** Whether a rule that has fired [n] times fires again on the condition. *)
Definition due (condition : bytes) (rule : Rule) (n : Z) : bool :=
  bool_decide (ru_On rule = condition) && negb ((0 <? ru_Times rule) && (ru_Times rule <=? n)).

Lemma fireRule_fired c (r r' : @Run P W V) i rule n :
  fireRule doing c r (i, rule) = Some r' → rn_fired r !! i = Some n →
  rn_fired r' = <[i := if due c rule n then i64 (n + 1) else n]> (rn_fired r) ∧ rn_plan r' = rn_plan r.
Proof using.
  unfold fireRule, due. intros H Hn. destruct (bool_decide _); cbn [negb andb] in *; [|injection H as <-; by rewrite list_insert_id].
  rewrite Hn in H. cbn [mbind option_bind] in H. destruct (_ && _); cbn [negb]; [injection H as <-; by rewrite list_insert_id|].
  destruct (schedule _ _ _ _ _ _ _); cbn in H; [|done]. injection H as <-. done.
Qed.

(** Every rule has a budget of its own: an occurrence of a condition counts against each
    rule on that condition that has not fired as often as it may (a rule without a bound
    always may), and against no other rule. *)
Theorem rules_fire_alone c (r r' : @Run P W V) :
  length (rn_fired r) = length (pn_Rules (rn_plan r)) → Trigger doing c r = Some r' →
  rn_fired r' = zip_with (λ rule n, if due c rule n then i64 (n + 1) else n) (pn_Rules (rn_plan r)) (rn_fired r) ∧ rn_plan r' = rn_plan r.
Proof using.
  unfold Trigger. set (rules := pn_Rules (rn_plan r)). intros Hlen Ht.
  assert (Hgen : ∀ pre ns post (r1 : @Run P W V), rn_fired r1 = pre ++ ns → length ns = length post → foldM (fireRule doing c) r1 (imap (λ i x, (length pre + i, x)%nat) post) = Some r' →
    rn_fired r' = pre ++ zip_with (λ rule n, if due c rule n then i64 (n + 1) else n) post ns ∧ rn_plan r' = rn_plan r1).
  { intros pre ns post. revert pre ns. induction post as [|rule post IH]; intros pre ns r1 Hf Hl Hr.
    - destruct ns; [|done]. injection Hr as <-. done.
    - destruct ns as [|n ns]; [done|]. cbn [imap foldM] in Hr. rewrite Nat.add_0_r in Hr. destruct (fireRule doing c r1 _) as [r2|] eqn:E; [|done]. cbn [mbind option_bind] in Hr.
      destruct (fireRule_fired _ _ _ _ _ n E) as [Hf2 Hp2]; [by rewrite Hf, lookup_app_r, Nat.sub_diag|]. rewrite Hf in Hf2. rewrite insert_app_r_alt, Nat.sub_diag in Hf2 by done. cbn in Hf2.
      destruct (IH (pre ++ [if due c rule n then i64 (n + 1) else n]) ns r2) as [Hf3 Hp3]; [by rewrite <- app_assoc|by injection Hl| |].
      + etransitivity; [|exact Hr]. f_equal. apply imap_ext. intros i x _. cbn. rewrite length_app. cbn. f_equal. lia.
      + split; [|congruence]. by rewrite Hf3, <- app_assoc. }
  destruct (Hgen [] (rn_fired r) rules r) as [H1 H2]; done.
Qed.
End Rules.

(** ** Shortfalls *)

(** A run passes the check of its counters exactly when every injector with a floor has
    fired that often. *)
Theorem Counters_Check_exact c : Counters_Check c = [] ↔ ∀ i n, ct_minFires c !! i = Some n → n ≤ Count c i.
Proof.
  unfold Counters_Check. split.
  - intros H i n Hi. destruct (Z.le_gt_cases n (Count c i)) as [|Hlt]; [done|]. exfalso.
    assert (Hin : MkShortfall i n (Count c i) ∈ Counters_Check c).
    { apply list_elem_of_omap. exists i. split; [rewrite merge_sort_Permutation, elem_of_elements; by apply elem_of_dom_2 in Hi|]. rewrite Hi. cbn. by rewrite (proj2 (Z.ltb_lt _ _)). }
    unfold Counters_Check in Hin. rewrite H in Hin. by apply elem_of_nil in Hin.
  - intros H. apply list.elem_of_nil_inv. intros x Hx. apply list_elem_of_omap in Hx as (i & _ & Hx). destruct (ct_minFires c !! i) as [n|] eqn:E; [|done]. cbn in Hx.
    destruct (Z.ltb_spec (Count c i) n); [|done]. specialize (H i n E). lia.
Qed.
