(* ===== verification/StoreDriver.v ===== *)
(** * The driver applies what the abstract machine says

    The apply loop of a replica (store/node.go, [drain]) shares an engine with the
    other ranges of the machine, batches the writes of a Ready, flushes when a
    command has to read, answers clients in between and creates a sibling when
    the range splits.  None of that shows in the state: its extent, its mark and
    its records are those of the abstract machine of [StoreReplay], so they do not
    depend on how the log was cut into Readies. *)

From Stdlib Require Import Lia ZArith.
From stdpp Require Import base tactics numbers option gmap list.
From S2P Require Import Prelude Bytes ConfChange RaftTypes Raft Hlc Engine KvEncoding EngineIface KvStore KvTxn EngineMap StoreCodec StoreReplay StoreTxn StoreRange StoreNode.

(** ** Steps that leave the state machine alone *)

(** What the state machine of a replica is made of. *)
Record Core := MkCore { c_rng : Z; c_desc : RangeDescriptor; c_ns : bytes; c_mark : Timestamp; c_raft : Raft; c_db : tracked;
                        c_replicas : list Replica }.

Definition core (n : Replica) (m : Node) : Core :=
  MkCore (rep_rng n) (rep_desc n) (s_ns (rep_mvcc n)) (s_gcMark (rep_mvcc n)) (rep_raft n) (m_db m) (m_replicas m).

(** A step that returns and changes nothing of it. *)
Definition quiet {A} (x : Drv A) : Prop :=
  ∀ n m, ∃ a n' m', x n m = Some (a, n', m') ∧ core n' m' = core n m.

Lemma quiet_ret {A} (a : A) : quiet (mret a).
Proof. intros n m. by eexists _, _, _. Qed.
Lemma quiet_bind {A B} (x : Drv A) (f : A → Drv B) : quiet x → (∀ a, quiet (f a)) → quiet (x ≫= f).
Proof.
  intros Hx Hf n m. destruct (Hx n m) as (a & n1 & m1 & H1 & Hc1). destruct (Hf a n1 m1) as (b & n2 & m2 & H2 & Hc2).
  exists b, n2, m2. split; [|congruence]. unfold mbind, Drv_bind. by rewrite H1.
Qed.
Lemma quiet_replica : quiet theReplica.
Proof. intros n m. by eexists _, _, _. Qed.
Lemma quiet_node : quiet theNode.
Proof. intros n m. by eexists _, _, _. Qed.
Lemma quiet_modR f :
  (∀ n, rep_rng (f n) = rep_rng n ∧ rep_desc (f n) = rep_desc n ∧ rep_mvcc (f n) = rep_mvcc n ∧ rep_raft (f n) = rep_raft n) →
  quiet (modR f).
Proof. intros Hf n m. eexists _, _, _. split; [done|]. destruct (Hf n) as (H1 & H2 & H3 & H4). unfold core. congruence. Qed.
Lemma quiet_modM f : (∀ m, m_db (f m) = m_db m ∧ m_replicas (f m) = m_replicas m) → quiet (modM f).
Proof. intros Hf n m. eexists _, _, _. split; [done|]. unfold core. destruct (Hf m) as [-> ->]. done. Qed.
Lemma quiet_emit o : quiet (emit o).
Proof. by apply quiet_modM. Qed.
Lemma quiet_tally c k : quiet (tally c k).
Proof. by apply quiet_modR. Qed.
Lemma quiet_bump c : quiet (bump c).
Proof. apply quiet_tally. Qed.
Lemma quiet_when c x : quiet x → quiet (when c x).
Proof. destruct c; [done|]. intros _. apply quiet_ret. Qed.
Lemma quiet_forEach {A} (xs : list A) body : (∀ x, quiet (body x)) → quiet (forEach xs body).
Proof. intros Hb. induction xs as [|x xs IH]; [apply quiet_ret|]. cbn [forEach]. by apply quiet_bind. Qed.
Lemma quiet_onStore {A} (f : DB → Store → A * Store) : (∀ db s, counters_only s (snd (f db s))) → quiet (onStore f).
Proof.
  intros Hf n m. unfold onStore. specialize (Hf (t_Engine (m_db m)) (rep_mvcc n)). destruct (f _ _) as [a s].
  destruct Hf as [Hn Hm]. eexists _, _, _. split; [done|]. unfold core. cbn [rep_rng rep_desc rep_mvcc rep_raft].
  cbn in Hn, Hm. by rewrite <- Hn, <- Hm.
Qed.

(** Follow the code of a step that only answers or counts. *)
Ltac quiet_step :=
  repeat first
    [ apply quiet_ret | apply quiet_replica | apply quiet_node | apply quiet_emit | apply quiet_bump | apply quiet_tally
    | apply quiet_when
    | apply quiet_forEach; intros
    | by apply quiet_modR | by apply quiet_modM
    | apply quiet_bind; [|intros]
    | match goal with |- quiet (match ?x with _ => _ end) => destruct x end ].

Section Quiet.
Context (cfg : NodeConfig).

Lemma ReadAt_counters (db : DB) key t s : counters_only s (snd (ReadAt db key t s)).
Proof.
  unfold ReadAt. cbv zeta. destruct (negb _); [done|]. destruct (LessEq _ _); [done|].
  destruct (eng_seek _ _ _ _) as [[[]|] []]; cbn; repeat case_match; done.
Qed.
Lemma ReadLatest_counters (db : DB) key s : counters_only s (snd (ReadLatest db key s)).
Proof. unfold ReadLatest. cbv zeta. destruct (eng_seek _ _ _ _) as [[[]|] []]; cbn; repeat case_match; done. Qed.
Lemma getTxn_loop_counters (db : DB) key t c err es s : counters_only s (snd (getTxn_loop db key t c err es s)).
Proof.
  induction es as [|[k v] es IH]; cbn [getTxn_loop]; [done|].
  destruct (DecodeWriteKey _ _) as [[? ?]|]; [|done]. destruct (negb _); [done|].
  destruct (decodeWrite v) as [[? rb]|]; [|done]. destruct (Less _ _); [by destruct (_ && _)|].
  destruct rb; [done|]. by destruct (eng_get _ _) as [?|[]].
Qed.
Lemma GetTxn_counters (db : DB) key t c s : counters_only s (snd (GetTxn db key t c s)).
Proof.
  unfold GetTxn. cbv zeta. destruct (negb _); [done|]. destruct (LessEq _ _); [done|].
  destruct (Store_Lock _ _ _) as [lk|]; [|done]. destruct (match lk with Some _ => _ | None => _ end); [done|].
  destruct (eng_scan _ _ _) as [es err].
  destruct (getTxn_loop_counters db key t c err es (s <| s_reads := s_reads s + 1 |>)) as [Hn Hm]. by split.
Qed.

Lemma quiet_answerAt e op key t at_ : quiet (answerAt cfg e op key t at_).
Proof.
  unfold answerAt, answerOne. quiet_step. apply quiet_onStore. intros. apply ReadAt_counters.
Qed.
Lemma quiet_answerTxn e c res at_ : quiet (answerTxn cfg e c res at_).
Proof. unfold answerTxn, readTxn. quiet_step. apply quiet_onStore. intros. apply GetTxn_counters. Qed.
Lemma quiet_rerouteAt e op k v at_ : quiet (rerouteAt cfg e op k v at_).
Proof. unfold rerouteAt. quiet_step. Qed.
Lemma quiet_hlcUpdate ts : quiet (hlcUpdate cfg ts).
Proof.
  intros n m. unfold hlcUpdate, physNow, mbind, Drv_bind, theReplica. cbn [rep_hlc].
  destruct (Update _ _ _ _) as [err c]. destruct (bool_decide (is_Some err)); by eexists _, _, _.
Qed.
Lemma quiet_seed ts : quiet (seedClockAtLeast cfg ts).
Proof. unfold seedClockAtLeast. destruct (negb _); [apply quiet_ret|apply quiet_hlcUpdate]. Qed.
End Quiet.

(** ** The records of one range among those of a machine *)

(** The keys an operation can change. *)
Definition touched (o : Op) (k : bytes) : Prop :=
  match o with
  | OpSet k' _ | OpDelete k' => k' = k
  | OpDeleteRange lo hi => InRange k lo hi = true
  | OpUnknown _ => False
  end.

Lemma untouched (m : gmap bytes bytes) o k : ¬ touched o k → spec_op m o !! k = m !! k.
Proof.
  destruct o; cbn; intros Ht; [by rewrite lookup_insert_ne|by rewrite lookup_delete_ne| |done].
  apply not_true_iff_false in Ht. destruct (m !! k) as [v|] eqn:Em.
  - by apply map_lookup_filter_Some.
  - apply map_lookup_filter_None. by left.
Qed.

Lemma ok_touched ns o k : ok_op ns o → touched o k → in_ns ns k.
Proof. destruct o; cbn; [by intros ? <-|by intros ? <-| |done]. intros Hin Hk. by apply Hin. Qed.

(** What an operation does at a key depends on that key alone. *)
Lemma spec_op_local (m m' : gmap bytes bytes) o k : m !! k = m' !! k → spec_op m o !! k = spec_op m' o !! k.
Proof.
  intros He. destruct o as [k' v|k'|lo hi|]; cbn; [| | |done].
  - destruct (decide (k' = k)) as [->|]; [by rewrite !lookup_insert_eq|by rewrite !lookup_insert_ne].
  - destruct (decide (k' = k)) as [->|]; [by rewrite !lookup_delete_eq|by rewrite !lookup_delete_ne].
  - by rewrite !map_lookup_filter, He.
Qed.

Section Mine.
Context (ns : bytes).

Lemma mine_at (m : gmap bytes bytes) k : in_ns ns k → mine ns m !! k = m !! k.
Proof.
  intros Hk. rewrite (mine_lookup ns m k (plain ns zeroTimestamp)) by done.
  by rewrite (proj1 (in_ns_owns k (plain ns zeroTimestamp))).
Qed.
Lemma mine_out (m : gmap bytes bytes) k : ¬ in_ns ns k → mine ns m !! k = None.
Proof.
  intros Hk. rewrite (mine_lookup ns m k (plain ns zeroTimestamp)) by done.
  destruct (owns k _) eqn:Eo; [|done]. by apply (in_ns_owns k (plain ns zeroTimestamp)) in Eo.
Qed.

Lemma in_ns_dec k : {in_ns ns k} + {¬ in_ns ns k}.
Proof.
  destruct (owns k (plain ns zeroTimestamp)) eqn:Eo; [left|right].
  - by apply (in_ns_owns k (plain ns zeroTimestamp)).
  - intros Hi. apply (in_ns_owns k (plain ns zeroTimestamp)) in Hi. congruence.
Qed.

Lemma mine_ext (m m' : gmap bytes bytes) : (∀ k, in_ns ns k → m !! k = m' !! k) → mine ns m = mine ns m'.
Proof.
  intros He. apply map_eq. intros k. destruct (in_ns_dec k); [by rewrite !mine_at, He|by rewrite !mine_out].
Qed.

(** The range's own operations act on its records alone ... *)
Lemma mine_ops (m : gmap bytes bytes) b : ok_ops ns b → mine ns (foldl spec_op m b) = foldl spec_op (mine ns m) b.
Proof.
  intros Hb. revert m. induction Hb as [|o b Ho _ IH]; intros m; [done|]. cbn [foldl]. rewrite IH. f_equal.
  apply map_eq. intros k. destruct (in_ns_dec k) as [Hk|Hk].
  - rewrite mine_at by done. apply spec_op_local. by rewrite mine_at.
  - rewrite mine_out, untouched, mine_out; [done|done| |done]. intros Ht. by apply Hk, (ok_touched ns o).
Qed.

(** ... and operations that stay outside leave them. *)
Lemma mine_foreign (m : gmap bytes bytes) b :
  Forall (λ o, ∀ k, touched o k → ¬ in_ns ns k) b → mine ns (foldl spec_op m b) = mine ns m.
Proof.
  intros Hb. revert m. induction Hb as [|o b Ho _ IH]; intros m; [done|]. cbn [foldl]. rewrite IH.
  apply mine_ext. intros k Hk. apply untouched. intros Ht. by apply (Ho k).
Qed.

Lemma mine_mine (m : gmap bytes bytes) : mine ns (mine ns m) = mine ns m.
Proof. apply mine_ext. intros k Hk. by apply mine_at. Qed.
End Mine.

(** Namespaces of different ranges share no key, and neither does a range's
    namespace with the keys its raft node and its descriptor are kept under. *)
Lemma in_ns_range id id' k :
  is_u64 id → is_u64 id' → in_ns (rangePrefix id) k → in_ns (rangePrefix id') k → id = id'.
Proof.
  intros Hi Hi' (kind & _ & r & ->) (kind' & _ & r' & He). rewrite <- !app_assoc in He.
  by apply rangePrefix_inj in He as [-> _].
Qed.

Lemma meta_not_in_ns id id' rest :
  is_u64 id → is_u64 id' → ¬ in_ns (rangePrefix id) (rangePrefix id' ++ Byte.x2f :: rest).
Proof.
  intros Hi Hi' (kind & Hk & r & He). rewrite <- app_assoc in He. apply rangePrefix_inj in He as [_ [= He _]]; [|done|done].
  subst kind. unfold kinds in Hk. repeat (apply elem_of_cons in Hk as [Hk|Hk]; [done|]). by apply elem_of_nil in Hk.
Qed.

(** ... so what one range stages leaves every other range's records alone. *)
Lemma ok_foreign id id' b m :
  is_u64 id → is_u64 id' → id ≠ id' → ok_ops (rangePrefix id) b →
  mine (rangePrefix id') (foldl spec_op m b) = mine (rangePrefix id') m.
Proof.
  intros Hi Hi' Hne Hb. apply mine_foreign. apply (Forall_impl _ _ _ Hb). intros o Ho k Ht Hk.
  apply Hne. apply (in_ns_range id id' k); [done|done|by apply (ok_touched _ o)|done].
Qed.

(** ** The state machine of a replica *)

(** The extent, the mark and the range's records, with a staged batch landed. *)
Definition state_of (n : Replica) (m : Node) (mb : Batch) : RM :=
  MkRM (s_ns (rep_mvcc n)) (rep_desc n) (s_gcMark (rep_mvcc n))
    (mine (s_ns (rep_mvcc n)) (foldl spec_op (contents (t_Engine (m_db m))) mb)).

(** A replica of the machine that started as [m0] is at [st], with [mb] staged;
    its raft node is [r0], and the other ranges [m0] hosted are as they were. *)
Record Rel (r0 : Raft) (m0 : Node) (n : Replica) (m : Node) (mb : Batch) (st : RM) : Prop := MkRel {
  rl_wf : eng_wf (t_Engine (m_db m));
  rl_ok : ok_ops (rm_ns st) mb;
  rl_st : state_of n m mb = st;
  rl_ns : rm_ns st = rangePrefix (rep_rng n);
  rl_rng : is_u64 (rep_rng n);
  rl_raft : rep_raft n = r0;
  rl_host : hosts m0 (rep_rng n) = true;
  rl_mono id : hosts m0 id = true → hosts m id = true;
  rl_others id : is_u64 id → hosts m0 id = true → id ≠ rep_rng n →
    mine (rangePrefix id) (contents (t_Engine (m_db m))) = mine (rangePrefix id) (contents (t_Engine (m_db m0)));
}.

Section Refine.
Context (cfg : NodeConfig) (r0 : Raft) (m0 : Node).

Local Abbreviation Rel_ := (Rel r0 m0).

Lemma Rel_core n m n' m' mb st : core n' m' = core n m → Rel_ n m mb st → Rel_ n' m' mb st.
Proof.
  intros He [H1 H2 H3 H4 H5 H6 H7 H8 H9]. injection He as Hr Hd Hn Hm Hra Hdb Hrs.
  split; rewrite ?Hr, ?Hra, ?Hdb; try done.
  - rewrite <- H3. unfold state_of. by rewrite Hd, Hn, Hm, Hdb.
  - intros id Hid. unfold hosts in *. rewrite Hrs. by apply H8.
Qed.

(** Quiet steps keep the relation. *)
Lemma Rel_quiet {A} (x : Drv A) n m mb st :
  quiet x → Rel_ n m mb st → ∃ a n' m', x n m = Some (a, n', m') ∧ Rel_ n' m' mb st.
Proof.
  intros Hq HR. destruct (Hq n m) as (a & n' & m' & He & Hc). exists a, n', m'. split; [done|].
  by apply (Rel_core n m).
Qed.

Lemma bind_eq {A B} (x : Drv A) (f : A → Drv B) n m a n' m' :
  x n m = Some (a, n', m') → (x ≫= f) n m = f a n' m'.
Proof. intros He. unfold mbind, Drv_bind. by rewrite He. Qed.

(** Writing the staged batch. *)
Lemma apply_rel n m mb sync st :
  Rel_ n m mb st →
  ∃ q m', apply mb sync n m = Some (Ok q, n, m') ∧ Rel_ n m' [] st ∧ m_replicas m' = m_replicas m.
Proof.
  intros [H1 H2 H3 H4 H5 H6 H7 H8 H9]. unfold apply, tracked_Apply.
  destruct (Apply_law (t_Engine (m_db m)) mb H1 (ok_known _ _ H2)) as (q & db & Ha & Hw & Hc).
  assert (Ha' : Apply (Some mb) sync (t_Engine (m_db m)) = Some (Ok q, db)) by exact Ha.
  rewrite Ha'. cbn [mbind option_bind]. set (m' := m <| m_db := MkTracked db q |>).
  assert (Hdb : t_Engine (m_db m') = db) by done. exists q, m'. split; [done|]. split; [|done].
  split; rewrite ?Hdb; try done.
  - apply ok_nil.
  - rewrite <- H3. unfold state_of. rewrite Hdb. cbn [foldl]. by rewrite Hc.
  - intros id Hid Hh Hne. rewrite <- H9, Hc by done. rewrite H4 in H2. by apply (ok_foreign (rep_rng n)).
Qed.

Lemma flush_rel n m mb st :
  Rel_ n m mb st → ∃ m', flushApply mb n m = Some ([], n, m') ∧ Rel_ n m' [] st ∧ m_replicas m' = m_replicas m.
Proof.
  intros HR. unfold flushApply. destruct mb as [|o mb]; [by exists m|]. cbn [Batch_Empty].
  destruct (apply_rel n m (o :: mb) false st HR) as (q & m' & He & HR' & Hm). exists m'. split; [|done].
  by rewrite (bind_eq _ _ _ _ _ _ _ He).
Qed.

(** Staging: a store operation that changes counters only. *)
Lemma stage_rel {A} (f : DB → Store → A * Batch * Store) n m mb st kv' :
  Rel_ n m mb st →
  (∃ a b s, f (t_Engine (m_db m)) (rep_mvcc n) = (a, b, s) ∧ counters_only (rep_mvcc n) s ∧ ok_ops (rm_ns st) b
     ∧ mine (rm_ns st) (foldl spec_op (contents (t_Engine (m_db m))) b) = kv') →
  ∃ a b n', onStore f n m = Some ((a, b), n', m) ∧ Rel_ n' m b (MkRM (rm_ns st) (rm_desc st) (rm_mark st) kv')
    ∧ rep_inflight n' = rep_inflight n.
Proof.
  intros [H1 H2 H3 H4 H5 H6 H7 H8 H9] (a & b & s & He & [Hn Hm] & Hok & Hkv). unfold onStore. rewrite He.
  set (n' := n <| rep_mvcc := s |>). assert (Hs : rep_mvcc n' = s) by done. assert (Hd : rep_desc n' = rep_desc n) by done.
  exists a, b, n'. split; [reflexivity|]. split; [|done]. split; try done.
  subst st. unfold state_of in *. cbn [rm_ns rm_desc rm_mark] in *. rewrite Hs, Hd, Hn, Hm. by rewrite Hkv.
Qed.

(** ** Transaction steps *)

Lemma put_twice (m : gmap bytes bytes) k v : foldl spec_op m [OpSet k v; OpSet k v] = foldl spec_op m [OpSet k v].
Proof.
  cbn. apply map_eq. intros k'. destruct (decide (k = k')) as [->|]; [by rewrite !lookup_insert_eq|by rewrite !lookup_insert_ne].
Qed.

Local Ltac txn_case :=
  cbn [fst snd]; intros Hn Hm Hok;
  (eexists _, _, _; split_and!; [reflexivity|unfold core; cbn; by rewrite ?Hn, ?Hm|done|done]).

Lemma resolve_eq (db : DB) c desc b s :
  tc_Op c = OpResolveStatus →
  applyTxnTo db c desc b s
  = (match Store_Txn db (tc_Key c) (tc_StartTS c) s with
     | Ok None => if LessEq (tc_ExpireAt c) (tc_Deadline c) then b
                  else snd (PutTxnInto db (tc_Key c) (MkTxnRecord TxnRolledBack (tc_StartTS c) zeroTimestamp) b s)
     | _ => b
     end, s).
Proof.
  intros Eo. unfold applyTxnTo. rewrite Eo. cbv zeta. unfold ResolveLock. cbn [negb l_Primary l_StartTS l_Deadline].
  destruct (Store_Txn db (tc_Key c) (tc_StartTS c) s) as [[rec|]|] eqn:Et; [by destruct (bool_decide _)| |done].
  destruct (LessEq _ _); [done|]. by destruct (PutTxnInto _ _ _ _ _).
Qed.

(** The second half of a status resolution, after the counters have moved. *)
Lemma resolve_shared c n n1 m b1 (res : TxnResult) :
  rep_mvcc n1 = rep_mvcc n → rep_desc n1 = rep_desc n → core n1 m = core n m → tc_Op c = OpResolveStatus →
  (applyShared b1 c ≫= λ b, mret (res, b)) n1 m
  = Some ((res, match Store_Txn (t_Engine (m_db m)) (tc_Key c) (tc_StartTS c) (rep_mvcc n) with
                | Ok None => if LessEq (tc_ExpireAt c) (tc_Deadline c) then b1
                             else snd (PutTxnInto (t_Engine (m_db m)) (tc_Key c)
                                         (MkTxnRecord TxnRolledBack (tc_StartTS c) zeroTimestamp) b1 (rep_mvcc n))
                | _ => b1
                end), n1 <| rep_mvcc := rep_mvcc n |>, m).
Proof.
  intros Hs Hd Hc Eo. unfold applyShared, onStore, mbind, Drv_bind, theReplica. rewrite Hd, Hs, (resolve_eq _ _ _ _ _ Eo). done.
Qed.

(** Staging the same record again changes nothing. *)
Lemma puttxn_twice (db : DB) key rec s :
  let once := snd (PutTxnInto db key rec [] s) in
  let twice := snd (PutTxnInto db key rec once s) in
  ok_ops (s_ns s) twice ∧ ∀ kv, foldl spec_op kv twice = foldl spec_op kv once.
Proof.
  assert (Hok : ∀ b, ok_ops (s_ns s) b → ok_ops (s_ns s) (snd (PutTxnInto db key rec b s))).
  { intros b Hb. destruct (puttxn_stages db key rec b s s) as (_ & _ & Hok); [done|]. specialize (Hok Hb).
    by destruct (PutTxnInto _ _ _ _ _). }
  intros once twice. split; [by apply Hok, Hok, ok_nil|]. intros kv. unfold twice, once, PutTxnInto.
  destruct (negb _); [done|]. destruct (_ && _); [done|]. destruct (Store_Txn _ _ _ _) as [[]|]; [done| |done]. apply put_twice.
Qed.

Lemma declareDead_eq b key start n m :
  ∃ n', declareDead b key start n m
        = Some (snd (PutTxnInto (t_Engine (m_db m)) key (MkTxnRecord TxnRolledBack start zeroTimestamp) b (rep_mvcc n)), n', m)
    ∧ rep_mvcc n' = rep_mvcc n ∧ core n' m = core n m.
Proof.
  unfold declareDead. erewrite bind_eq by reflexivity.
  destruct (PutTxnInto (t_Engine (m_db m)) key _ b (rep_mvcc n)) as [pr pb]. cbv beta iota.
  erewrite bind_eq by reflexivity. cbn [snd]. by eexists.
Qed.

Lemma applyTxn_resolve c n m :
  tc_Op c = OpResolveStatus →
  let db := t_Engine (m_db m) in
  ∃ res b n', applyTxn [] c n m = Some ((res, b), n', m) ∧ core n' m = core n m ∧ ok_ops (s_ns (rep_mvcc n)) b
    ∧ ∀ kv, foldl spec_op kv b = foldl spec_op kv (fst (applyTxnTo db c (rep_desc n) [] (rep_mvcc n))).
Proof.
  intros Eo db. rewrite (resolve_eq _ _ _ _ _ Eo). unfold applyTxn. rewrite Eo. cbn [fst].
  erewrite bind_eq by reflexivity. fold db.
  destruct (Store_Txn db (tc_Key c) (tc_StartTS c) (rep_mvcc n)) as [[rec|]|] eqn:Et.
  - erewrite bind_eq by reflexivity. cbv beta iota. erewrite (resolve_shared c n) by done. fold db. rewrite Et.
    eexists _, _, _. by split_and!; [..|apply ok_nil|].
  - destruct (LessEq _ _) eqn:El.
    + erewrite bind_eq by reflexivity. cbv beta iota. erewrite (resolve_shared c n) by done. fold db. rewrite Et, El.
      eexists _, _, _. by split_and!; [..|apply ok_nil|].
    + set (rec := MkTxnRecord TxnRolledBack (tc_StartTS c) zeroTimestamp).
      destruct (declareDead_eq [] (tc_Key c) (tc_StartTS c) (n <| rep_mvcc := rep_mvcc n |>) m) as (n1 & Hd & Hs1 & Hc1).
      erewrite bind_eq by (erewrite bind_eq by exact Hd; erewrite bind_eq by reflexivity; reflexivity). cbv beta iota.
      erewrite (resolve_shared c n) by (exact Hs1 || exact Eo || (injection Hc1 as ? ? ? ? ?; unfold core; cbn; congruence)). fold db. rewrite Et, El.
      eexists _, _, _. split; [reflexivity|]. split; [injection Hc1 as ? ? ? ? ?; unfold core; cbn; congruence|].
      apply puttxn_twice.
  - erewrite bind_eq by reflexivity. cbv beta iota. erewrite (resolve_shared c n) by done. fold db. rewrite Et.
    eexists _, _, _. by split_and!; [..|apply ok_nil|].
Qed.

(** What the driver stages for a step has the effect of what the replay stages:
    a status resolution that declares its transaction dead stages the same record
    twice. *)
Lemma applyTxn_eq c n m :
  let db := t_Engine (m_db m) in
  ∃ res b n', applyTxn [] c n m = Some ((res, b), n', m) ∧ core n' m = core n m ∧ ok_ops (s_ns (rep_mvcc n)) b
    ∧ ∀ kv, foldl spec_op kv b = foldl spec_op kv (fst (applyTxnTo db c (rep_desc n) [] (rep_mvcc n))).
Proof.
  intros db. destruct (decide (tc_Op c = OpResolveStatus)) as [Er|Er]; [by apply applyTxn_resolve|].
  destruct (applyTxnTo_stages db c (rep_desc n) [] (rep_mvcc n) _ (counters_plain _)) as (_ & [Hn Hm] & Hok).
  specialize (Hok (ok_nil _)). revert Hn Hm Hok. unfold applyTxn, applyTxnTo.
  destruct (tc_Op c) eqn:Eo; unfold applyShared, applyTxnTo, mbind, Drv_bind, onStore, theReplica; rewrite ?Eo; fold db.
  - destruct (PrewriteInto db _ _ _ [] _) as [[[|[]] b] s]; txn_case.
  - destruct (CommitInto db _ _ _ [] _) as [[res b] s]. txn_case.
  - destruct (RollbackInto db _ _ [] _) as [[res b] s]. txn_case.
  - destruct (PutTxnInto db _ _ [] _) as [[|[]] b]; try destruct (bool_decide _); txn_case.
  - destruct (NoteReadInto db _ _ [] _) as [[res b] s]. txn_case.
  - done.
  - destruct (Store_Lock db (tc_Key c) (rep_mvcc n)) as [[l|]|]; [destruct (negb _)| |].
    + unfold when. destruct (_ =? _); txn_case.
    + cbv zeta. destruct (ApplyResolutionInto db _ _ _ _ [] _) as [[res b] s]. unfold when. cbn [rep_mvcc].
      destruct (_ =? _); txn_case.
    + unfold when. destruct (_ =? _); txn_case.
    + unfold when. destruct (_ =? _); txn_case.
  - txn_case.
Qed.

(** A range's reads do not see the other ranges of the engine. *)
Lemma agree_shared n m mb st : Rel_ n m mb st → agree (rm_ns st) (t_Engine (m_db m)) (mine (rm_ns st) (contents (t_Engine (m_db m)))).
Proof.
  intros HR. apply (agree_of (t_Engine (m_db m)) (rl_wf _ _ _ _ _ _ HR)); [apply map_wf|].
  intros k Hk. cbn [contents Map_laws]. by rewrite mine_at.
Qed.

Lemma Rel_kv n m st : Rel_ n m [] st → rm_kv st = mine (rm_ns st) (contents (t_Engine (m_db m))).
Proof. intros HR. rewrite <- (rl_st _ _ _ _ _ _ HR). done. Qed.

Lemma Rel_store n m mb st : Rel_ n m mb st → s_ns (rep_mvcc n) = rm_ns st ∧ s_gcMark (rep_mvcc n) = rm_mark st ∧ rep_desc n = rm_desc st.
Proof. intros HR. by rewrite <- (rl_st _ _ _ _ _ _ HR). Qed.

(** A transaction step on a flushed replica. *)
Lemma txn_rel c n m st :
  Rel_ n m [] st →
  ∃ res b n', applyTxn [] c n m = Some ((res, b), n', m)
    ∧ Rel_ n' m b (MkRM (rm_ns st) (rm_desc st) (rm_mark st)
                     (foldl spec_op (rm_kv st) (fst (applyTxnTo (rm_kv st) c (rm_desc st) [] (rm_store st))))).
Proof.
  intros HR. destruct (applyTxn_eq c n m) as (res & b & n' & Ha & Hc & Hok & Hops). exists res, b, n'. split; [done|].
  destruct (Rel_store _ _ _ _ HR) as (Hns & Hmk & Hd). pose proof (Rel_kv _ _ _ HR) as Hkv.
  assert (HR' : Rel_ n' m [] st) by by apply (Rel_core n m).
  assert (Hbatch : fst (applyTxnTo (t_Engine (m_db m)) c (rep_desc n) [] (rep_mvcc n))
                   = fst (applyTxnTo (rm_kv st) c (rm_desc st) [] (rm_store st))).
  { rewrite (applyTxnTo_agree _ (rm_kv st)), Hd by (rewrite Hns, Hkv; by eapply agree_shared).
    apply (applyTxnTo_stages (rm_kv st) c (rm_desc st) [] (rep_mvcc n) (rm_store st)).
    split; cbn; congruence. }
  rewrite Hns in Hok. destruct HR' as [G1 G2 G3 G4 G5 G6 G7 G8 G9]. split; try done.
  rewrite <- G3. unfold state_of. cbn [rm_ns rm_desc rm_mark rm_kv foldl].
  rewrite mine_ops by (injection Hc as ? ? Hn' ? ? ; rewrite Hn', Hns; done).
  f_equal. rewrite Hops, Hbatch. rewrite <- G3. done.
Qed.

(** A put. *)
Lemma put_rel k t v n m mb st :
  Rel_ n m mb st →
  ∃ res b n', onStore (λ _, PutInto k t v mb) n m = Some ((res, b), n', m)
    ∧ Rel_ n' m b (let '(_, b, _) := PutInto k t v [] (rm_store st) in
                   MkRM (rm_ns st) (rm_desc st) (rm_mark st) (foldl spec_op (rm_kv st) b)).
Proof.
  intros HR. destruct (Rel_store _ _ _ _ HR) as (Hns & Hmk & Hd).
  destruct (put_stages k t v mb (rep_mvcc n) (rep_mvcc n)) as (_ & Hc & Hok); [done|].
  edestruct (stage_rel (λ _, PutInto k t v mb) n m mb st (rm_kv (let '(_, b, _) := PutInto k t v [] (rm_store st) in
                   MkRM (rm_ns st) (rm_desc st) (rm_mark st) (foldl spec_op (rm_kv st) b))) HR) as (res & b & n' & He & HR' & _).
  - destruct (PutInto k t v mb (rep_mvcc n)) as [[a b] s] eqn:Ep. exists a, b, s. cbn [fst snd] in *. split; [done|].
    split; [done|]. rewrite Hns in Hok. specialize (Hok (rl_ok _ _ _ _ _ _ HR)). split; [done|].
    rewrite mine_ops by done.
    assert (Hkv : rm_kv st = foldl spec_op (mine (rm_ns st) (contents (t_Engine (m_db m)))) mb).
    { rewrite <- mine_ops by apply (rl_ok _ _ _ _ _ _ HR). by rewrite <- (rl_st _ _ _ _ _ _ HR). }
    revert Ep. unfold PutInto. rewrite Hmk, Hns. cbn [rm_store plain s_gcMark s_ns].
    destruct (negb _); [by intros [= _ <- _]|]. destruct (LessEq _ _); [by intros [= _ <- _]|].
    intros [= _ <- _]. unfold Batch_Set. cbn [rm_kv app]. by rewrite foldl_app, Hkv.
  - exists res, b, n'. split; [done|]. by destruct (PutInto k t v [] (rm_store st)) as [[? ?] ?].
Qed.

(** A collection on a flushed replica. *)
Lemma gc_rel t n m st :
  Rel_ n m [] st →
  ∃ res b n', onStore (λ db, AdvanceGCInto db t NewBatch) n m = Some ((res, b), n', m)
    ∧ Rel_ n' m (match res with Ok _ => b | Err _ => [] end)
        (let '(_, b, s) := AdvanceGCInto (rm_kv st) t [] (rm_store st) in
         MkRM (rm_ns st) (rm_desc st) (s_gcMark s) (foldl spec_op (rm_kv st) b)).
Proof.
  intros HR. destruct (Rel_store _ _ _ _ HR) as (Hns & Hmk & Hd). pose proof (Rel_kv _ _ _ HR) as Hkv.
  unfold onStore. rewrite (AdvanceGC_agree _ (rm_kv st)) by (rewrite Hns, Hkv; by eapply agree_shared).
  destruct (gc_stages (rm_kv st) t [] (rep_mvcc n) (rm_store st)) as (He & [Hn Hg] & Hns' & Hkn); [split; cbn; congruence|].
  pose proof (gc_refused (rm_kv st) t (rep_mvcc n)) as Herr. unfold NewBatch.
  destruct (AdvanceGCInto (rm_kv st) t [] (rep_mvcc n)) as [[res b] s].
  destruct (AdvanceGCInto (rm_kv st) t [] (rm_store st)) as [[res0 b0] s0]. cbn [fst snd] in *. injection He as <- <-.
  set (n' := n <| rep_mvcc := s |>). assert (Hs : rep_mvcc n' = s) by done. assert (Hd' : rep_desc n' = rep_desc n) by done.
  exists res, b, n'. split; [done|]. rewrite Hns in Hkn. specialize (Hkn (ok_nil _)).
  assert (Hb : match res with Ok _ => b | Err _ => [] end = b).
  { destruct res; [done|]. by destruct (Herr _ _ _ eq_refl) as [-> _]. }
  rewrite Hb. destruct HR as [G1 G2 G3 G4 G5 G6 G7 G8 G9]. split; try done.
  unfold state_of. rewrite Hs, Hd', Hns', Hns, Hg, Hd. cbn [rm_ns]. by rewrite mine_ops, <- Hkv.
Qed.

(** ** Answers *)

Lemma finish_rel e noop owned op k v t at_ n m mb st :
  Rel_ n m mb st →
  ∃ mb' n' m', finishEntry cfg e noop owned op k v t at_ mb n m = Some (mb', n', m') ∧ Rel_ n' m' mb' st.
Proof.
  intros HR. unfold finishEntry. destruct owned.
  - assert (∃ mb' m', (if bool_decide (op = opGet) then flushApply mb else mret mb) n m = Some (mb', n, m') ∧ Rel_ n m' mb' st)
      as (mb' & m1 & H1 & HR1).
    { destruct (bool_decide _); [|by exists mb, m]. destruct (flush_rel n m mb st HR) as (m' & ? & ? & _). by exists [], m'. }
    erewrite bind_eq by exact H1. erewrite bind_eq by reflexivity.
    destruct (Rel_quiet (answerAt cfg e op k t at_) n m1 mb' st (quiet_answerAt _ _ _ _ _ _) HR1) as (a & n2 & m2 & H2 & HR2).
    erewrite bind_eq by exact H2. erewrite bind_eq by reflexivity.
    match goal with |- context [when ?c (bump noopAnswered)] =>
      destruct (Rel_quiet (when c (bump noopAnswered)) n2 m2 mb' st) as (a3 & n3 & m3 & H3 & HR3);
        [apply quiet_when, quiet_bump|done|] end.
    erewrite bind_eq by exact H3. by exists mb', n3, m3.
  - destruct (Rel_quiet (rerouteAt cfg e op k v at_) n m mb st (quiet_rerouteAt _ _ _ _ _ _) HR) as (a & n2 & m2 & H2 & HR2).
    erewrite bind_eq by exact H2. by exists mb, n2, m2.
Qed.

(** ** Splits *)

(** The configuration of a machine that can host ranges at all. *)
Record cfg_ok : Prop := MkCfgOk {
  ck_transport : nc_Transport cfg = true;
  ck_ledger : checkLedger cfg = None;
  ck_sync : 0 < nc_SyncLatency cfg;
  ck_raft : ∃ r, Raft.New (raftConfig cfg) = Ok r;
  ck_ordinal : u32 (nc_Ordinal cfg) ≤ MaxNodeID;
}.

(** A split as leaders propose it: the right half starts where the left ends. *)
Record split_wf (spec : SplitSpec) : Prop := MkSplitWf {
  sw_cut : d_End (sp_Left spec) = Some (d_Start (sp_Right spec));
  sw_key : d_Start (sp_Right spec) ≠ [];
  sw_right : desc_wf (sp_Right spec);
  sw_id : is_u64 (d_ID (sp_Right spec));
}.

Lemma split_disjoint spec u :
  split_wf spec → Contains (sp_Right spec) u = true → Contains (sp_Left spec) u = false.
Proof.
  intros [Hc _ _ _] [Hlo _]%Contains_spec. apply not_true_iff_false. rewrite Contains_spec, Hc. intros [_ Hlt].
  apply bytes_le_not_lt in Hlo. done.
Qed.

Lemma split_covers spec desc u :
  split_wf spec → splitApplies spec desc = true → Contains desc u = true →
  Contains (sp_Right spec) u || Contains (sp_Left spec) u = true.
Proof.
  intros [Hc Hk Hr _] Ha [Hlo Hhi]%Contains_spec. unfold splitApplies, bytes_eqb in Ha. bool_hyps.
  destruct (decide (bytes_lt u (d_Start (sp_Right spec)))) as [Hlt|Hge]; apply orb_true_iff; [right|left]; apply Contains_spec.
  - rewrite Hc. split; [congruence|done].
  - apply bytes_le_not_lt in Hge. split; [done|]. unfold desc_wf in Hr.
    destruct (d_End (sp_Right spec)) as [e|] eqn:Er; [|done].
    match goal with H : default [] _ = default [] _ |- _ => rename H into He end.
    destruct (d_End desc) as [e'|]; cbv [default from_option id] in He; congruence.
Qed.

Lemma reNamespace_in ns ns' rec : in_ns ns (rec_Key rec) → in_ns ns' (rec_Key (reNamespace rec ns ns')).
Proof.
  intros (kind & Hk & r & He). exists kind. split; [done|]. unfold reNamespace. rewrite He, !length_app.
  destruct (Nat.ltb_spec (length ns + length [kind] + length r) (length ns)); [lia|]. cbn [rec_Key].
  rewrite <- app_assoc, drop_app_length. exists r. by rewrite <- app_assoc.
Qed.

(** Every record falls in one of the halves. *)
Lemma divide_ok spec s recs :
  split_wf spec →
  Forall (λ rec, in_ns (s_ns s) (rec_Key rec)
            ∧ ∀ u, UserKeyOf (rec_Key rec) s = Some u → Contains (sp_Right spec) u || Contains (sp_Left spec) u = true) recs →
  ∃ r, divide spec s recs = Some (keptBy (sp_Left spec) s recs, r)
    ∧ Forall (λ rec, in_ns (rangePrefix (d_ID (sp_Right spec))) (rec_Key rec)) r.
Proof.
  intros Hw. induction 1 as [|rec recs [Hin Hu] _ (r & IH & Hr)]; [by exists []|]. cbn [divide]. unfold keptBy. rewrite filter_cons.
  destruct (UserKeyOf (rec_Key rec) s) as [u|]; [|exists r; by rewrite decide_False].
  specialize (Hu u eq_refl). destruct (Contains (sp_Right spec) u) eqn:Er.
  - rewrite IH. cbn [mbind option_bind]. rewrite (split_disjoint spec u) by done. rewrite decide_False by done.
    eexists. split; [reflexivity|]. constructor; [|done]. by apply reNamespace_in.
  - cbn [orb] in Hu. rewrite Hu, decide_True, IH by done. cbn [mbind option_bind]. by exists r.
Qed.

(** A write that touches no range the machine hosted. *)
Lemma foreign_rel x n m b sync st :
  Rel_ n m [] st → known_ops b →
  (∀ id, is_u64 id → hosts m0 id = true → Forall (λ o, ∀ k, touched o k → ¬ in_ns (rangePrefix id) k) b) →
  ∃ q m', apply b sync x m = Some (Ok q, x, m') ∧ Rel_ n m' [] st ∧ m_replicas m' = m_replicas m.
Proof.
  intros [H1 H2 H3 H4 H5 H6 H7 H8 H9] Hk Hf. unfold apply, tracked_Apply.
  destruct (Apply_law (t_Engine (m_db m)) b H1 Hk) as (q & db & Ha & Hw & Hc).
  assert (Ha' : Apply (Some b) sync (t_Engine (m_db m)) = Some (Ok q, db)) by exact Ha.
  rewrite Ha'. cbn [mbind option_bind]. set (m' := m <| m_db := MkTracked db q |>).
  assert (Hdb : t_Engine (m_db m') = db) by done. exists q, m'. split; [done|]. split; [|done].
  split; rewrite ?Hdb; try done.
  - rewrite <- H3. unfold state_of. rewrite Hdb, Hc. cbn [foldl]. f_equal. apply mine_foreign.
    rewrite <- H3 in H4. cbn [rm_ns state_of] in H4. rewrite H4. by apply Hf.
  - intros id Hid Hh Hne. rewrite <- H9, Hc by done. apply mine_foreign. by apply Hf.
Qed.

(** Filling a range the machine did not host. *)
Lemma ingest_foreign id x n m rs mark st :
  Rel_ n m [] st → s_ns (rep_mvcc x) = rangePrefix id → is_u64 id → hosts m0 id = false →
  Forall (λ rec, in_ns (rangePrefix id) (rec_Key rec)) rs →
  ∃ x' m', ingest cfg rs mark x m = Some ((), x', m') ∧ Rel_ n m' [] st ∧ m_replicas m' = m_replicas m
    ∧ s_ns (rep_mvcc x') = rangePrefix id ∧ rep_rng x' = rep_rng x.
Proof.
  intros HR Hns Hid Hno Hrs. unfold ingest.
  set (s := snd (IngestRecordsInto rs mark NewBatch (rep_mvcc x))).
  set (b := fst (IngestRecordsInto rs mark NewBatch (rep_mvcc x))).
  assert (Hok : ok_ops (rangePrefix id) b) by (rewrite <- Hns; apply ingest_ok; by rewrite Hns).
  erewrite bind_eq by reflexivity. fold b.
  destruct (foreign_rel (x <| rep_mvcc := s |>) n m b false st HR (ok_known _ _ Hok)) as (q & m1 & H1 & HR1 & Hm1).
  { intros id' Hid' Hh. apply (Forall_impl _ _ _ Hok). intros o Ho k Ht Hk.
    assert (id = id') as <- by (eapply in_ns_range; [done|done|by eapply ok_touched|done]). congruence. }
  erewrite bind_eq by exact H1. erewrite bind_eq by reflexivity. cbn [rep_mvcc].
  match goal with |- context [seedClockAtLeast cfg ?t] => destruct (quiet_seed cfg t (x <| rep_mvcc := s |>) m1) as (u & x2 & m2 & H2 & Hc2) end.
  destruct u. exists x2, m2. injection Hc2 as Hr Hd Hn Hmk Hra Hdb Hrs2. split; [exact H2|]. split_and!.
  - apply (Rel_core n m1); [|done]. unfold core. by rewrite Hdb, Hrs2.
  - by rewrite Hrs2.
  - rewrite Hn. exact Hns.
  - exact Hr.
Qed.

(** Replacing the range's own records. *)
Lemma ingest_own es mark n m st :
  Rel_ n m [] st → sorted_entries es → Forall (λ x, in_ns (rm_ns st) (fst x)) es →
  ∃ n' m', ingest cfg (recordOf <$> es) mark n m = Some ((), n', m')
    ∧ Rel_ n' m' [] (MkRM (rm_ns st) (rm_desc st) mark (emap es)) ∧ m_replicas m' = m_replicas m
    ∧ rep_inflight n' = rep_inflight n.
Proof.
  intros HR Hs Hin. destruct (Rel_store _ _ _ _ HR) as (Hns & Hmk & Hd). unfold ingest.
  pose proof (λ k, ingest_lookup es mark (contents (t_Engine (m_db m))) (rep_mvcc n) k Hs) as Hing.
  assert (Hok : ok_ops (rm_ns st) (fst (IngestRecordsInto (recordOf <$> es) mark NewBatch (rep_mvcc n)))).
  { rewrite <- Hns. apply ingest_ok. rewrite Hns. by apply Forall_fmap. }
  destruct (IngestRecordsInto (recordOf <$> es) mark NewBatch (rep_mvcc n)) as [b s] eqn:Ei. cbn [fst] in Hok.
  set (n1 := n <| rep_mvcc := s |>). assert (Hs1 : rep_mvcc n1 = s) by done. assert (Hd1 : rep_desc n1 = rep_desc n) by done.
  assert (H0 : onStore (λ _, IngestRecordsInto (recordOf <$> es) mark NewBatch) n m = Some (b, n1, m))
    by (unfold onStore; by rewrite Ei).
  erewrite bind_eq by exact H0. destruct (Hing []) as (Hg & Hn & _).
  assert (HR1 : Rel_ n1 m b (MkRM (rm_ns st) (rm_desc st) mark (emap es))).
  { destruct HR as [G1 G2 G3 G4 G5 G6 G7 G8 G9]. split; try done. unfold state_of. rewrite Hs1, Hd1, Hg, Hn, Hns, Hd. f_equal.
    apply map_eq. intros k. destruct (in_ns_dec (rm_ns st) k) as [Hk|Hk].
    - rewrite mine_at by done. destruct (Hing k) as (_ & _ & _ & ->).
      assert (Ho : owns k (rep_mvcc n) = true) by (apply in_ns_owns; by rewrite Hns). rewrite Ho. by destruct (emap es !! k).
    - rewrite mine_out by done. destruct (emap es !! k) as [v|] eqn:Ek; [|done]. apply emap_lookup in Ek; [|done].
      rewrite Forall_forall in Hin. by destruct (Hk (Hin _ Ek)). }
  destruct (apply_rel n1 m b false _ HR1) as (q & m2 & H2 & HR2 & Hm2).
  erewrite bind_eq by exact H2. erewrite bind_eq by reflexivity.
  match goal with |- context [seedClockAtLeast cfg ?t] =>
    destruct (Rel_quiet (seedClockAtLeast cfg t) n1 m2 [] _ (quiet_seed _ _) HR2) as (u & n3 & m3 & H3 & HR3);
    destruct (quiet_seed cfg t n1 m2) as (u' & n3' & m3' & H3' & Hc3) end.
  rewrite H3 in H3'. injection H3' as <- <- <-. destruct u. exists n3, m3. injection Hc3 as _ _ _ _ _ _ Hrs.
  split_and!; [done|done|by rewrite Hrs|]. revert H3. unfold seedClockAtLeast, hlcUpdate, physNow, mbind, Drv_bind, theReplica.
  destruct (negb _); [by intros [= <- <-]|]. cbn [rep_hlc]. destruct (Update _ _ _ _) as [err c].
  destruct (bool_decide _); by intros [= <- <-].
Qed.

(** A new replica of a range the machine does not host. *)
Lemma newReplicaFor_ok d m :
  cfg_ok →
  ∃ r m', newReplicaFor cfg d m = (Ok r, m') ∧ rep_rng r = d_ID d ∧ s_ns (rep_mvcc r) = rangePrefix (d_ID d)
    ∧ m_db m' = m_db m ∧ m_replicas m' = m_replicas m.
Proof.
  intros [Ht Hl Hs [r Hr] Ho]. unfold newReplicaFor. rewrite Ht, Hl, Hr. cbn [negb].
  destruct (Z.leb_spec (nc_SyncLatency cfg) 0); [lia|].
  destruct (nc_ElectionJitter cfg); cbn [NewStore]; unfold Hlc.New; cbn [negb];
    (destruct (Z.gtb_spec (u32 (nc_Ordinal cfg)) MaxNodeID); [lia|]); by eexists _, _.
Qed.

Lemma Restore_birth conf : cfg_ok → ∃ r, Restore (raftConfig cfg) (MkHardState 0 0) (MkSnapshotMeta 0 0 conf) [] = Ok r.
Proof. intros [_ _ _ [r Hr] _]. unfold Restore. rewrite Hr. cbn [gapless negb]. by eexists. Qed.

Lemma hosts_add r m id : hosts m id = true → hosts (Node_addReplica r m) id = true.
Proof.
  unfold hosts, Node_addReplica. cbn. rewrite !existsb_exists. intros (x & Hx & He). exists x. split; [|done].
  apply in_rev. rewrite rev_involutive. apply in_rev in Hx. clear He. induction (rev (m_replicas m)) as [|y ys IH]; [done|].
  cbn. destruct (_ >? _); [|by right]. destruct Hx as [->|Hx]; [by left|right; by apply IH].
Qed.

Lemma jitter_core x m : ∃ x' m', jitter cfg x m = Some ((), x', m') ∧ m_db m' = m_db m ∧ m_replicas m' = m_replicas m.
Proof. unfold jitter. destruct (nc_ElectionJitter cfg); by eexists _, _. Qed.

(** The right half is born without disturbing any hosted range. *)
Lemma adopt_foreign id x n m rs mark conf st :
  cfg_ok → Rel_ n m [] st → s_ns (rep_mvcc x) = rangePrefix id → is_u64 id → hosts m0 id = false →
  Forall (λ rec, in_ns (rangePrefix id) (rec_Key rec)) rs →
  ∃ x' m', adoptSnapshot cfg (MkSnapshotMeta 0 0 conf) rs mark x m = Some ((), x', m') ∧ Rel_ n m' [] st.
Proof.
  intros Hcfg HR Hns Hid Hno Hrs. unfold adoptSnapshot. destruct (Restore_birth conf Hcfg) as [r ->].
  erewrite bind_eq by reflexivity. set (x0 := update_field _ x).
  destruct (ingest_foreign id x0 n m rs mark st HR Hns Hid Hno Hrs) as (x1 & m1 & H1 & HR1 & Hm1 & _).
  erewrite bind_eq by exact H1. erewrite bind_eq by reflexivity.
  match goal with |- context [jitter cfg ?y m1] => destruct (jitter_core y m1) as (x2 & m2 & H2 & Hdb & Hrs2) end.
  exists x2, m2. split; [done|]. apply (Rel_core n m1); [|done]. unfold core. by rewrite Hdb, Hrs2.
Qed.

(** Every record of the range is of a key its extent covers. *)
Definition covered (st : RM) : Prop :=
  ∀ k u, is_Some (rm_kv st !! k) → UserKeyOf k (rm_store st) = Some u → Contains (rm_desc st) u = true.

Lemma UserKeyOf_ns s s' k : s_ns s = s_ns s' → UserKeyOf k s = UserKeyOf k s'.
Proof. intros Hn. unfold UserKeyOf, owns. by rewrite Hn. Qed.

Lemma owns_ns s s' k : s_ns s = s_ns s' → owns k s = owns k s'.
Proof. intros Hn. unfold owns. by rewrite Hn. Qed.

Lemma keptBy_ns left s s' recs : s_ns s = s_ns s' → keptBy left s recs = keptBy left s' recs.
Proof.
  intros Hn. unfold keptBy. apply list_filter_iff. intros rec. by rewrite (UserKeyOf_ns s s').
Qed.

(** The records a split works on, and what it keeps of them. *)
Lemma split_records spec n m st :
  Rel_ n m [] st → split_wf spec → covered st → splitApplies spec (rm_desc st) = true →
  ∃ es kept r, Records (t_Engine (m_db m)) (rep_mvcc n) = Ok es
    ∧ divide spec (rep_mvcc n) es = Some (recordOf <$> kept, r)
    ∧ sorted_entries kept ∧ Forall (λ x, in_ns (rm_ns st) (fst x)) kept
    ∧ emap kept = filter (λ x : entry, stays (sp_Left spec) (rm_store st) (fst x) = true) (rm_kv st)
    ∧ Forall (λ rec, in_ns (rangePrefix (d_ID (sp_Right spec))) (rec_Key rec)) r.
Proof.
  intros HR Hw Hcov Ha. destruct (Rel_store _ _ _ _ HR) as (Hns & _ & _). pose proof (Rel_kv _ _ _ HR) as Hkv.
  destruct (Records_entries (t_Engine (m_db m)) (rep_mvcc n) (rl_wf _ _ _ _ _ _ HR)) as (es & He & Hs & Hm).
  assert (Hm' : ∀ k, emap es !! k = if owns k (rm_store st) then rm_kv st !! k else None).
  { intros k. rewrite Hm, Hkv, (owns_ns (rep_mvcc n) (rm_store st)) by done.
    destruct (owns k (rm_store st)) eqn:Eo; [|done]. rewrite mine_at; [done|]. by apply (in_ns_owns k (rm_store st)). }
  assert (Hin : ∀ x, x ∈ es → in_ns (rm_ns st) (fst x) ∧ is_Some (rm_kv st !! fst x)).
  { intros [k v] Hx. apply emap_lookup in Hx; [|done]. rewrite Hm' in Hx. cbn [fst].
    destruct (owns k (rm_store st)) eqn:Eo; [|done]. split; [by apply (in_ns_owns k (rm_store st))|by exists v]. }
  destruct (stays_filter (sp_Left spec) (rm_store st) (rm_kv st) es Hs Hm') as (Hkept & Hsk & Hlook). cbv zeta in *.
  match type of Hsk with sorted_entries ?kept => set (ks := kept) in * end.
  destruct (divide_ok spec (rep_mvcc n) (recordOf <$> es) Hw) as (r & Hd & Hr).
  { apply Forall_fmap, Forall_forall. intros x Hx. destruct (Hin x Hx) as [Hi Hsome]. cbn [recordOf rec_Key compose].
    rewrite Hns. split; [done|]. intros u Hu. apply (split_covers spec (rm_desc st)); [done|done|].
    apply (Hcov (fst x)); [done|]. by rewrite <- (UserKeyOf_ns (rep_mvcc n)). }
  exists (recordOf <$> es), ks, r. rewrite Hd, (keptBy_ns _ _ (rm_store st)), Hkept by done. split_and!; try done.
  - apply filter_Forall, Forall_forall. intros x Hx. by apply Hin.
  - apply map_eq. intros k. rewrite <- Hlook. destruct (emap ks !! k) as [v|]; [done|].
    destruct (owns k (rm_store st)) eqn:Eo; [done|]. rewrite Hkv, mine_out; [done|].
    intros Hk. apply (in_ns_owns k (rm_store st)) in Hk. congruence.
Qed.

Lemma Clone_wf spec : split_wf spec → Clone (sp_Left spec) = sp_Left spec.
Proof.
  intros [Hc Hk _ _]. unfold Clone. rewrite Hc. destruct (sp_Left spec) as [id st en ep], (d_Start (sp_Right spec)); [done|].
  cbn in *. by subst en.
Qed.

Lemma quiet_schedule at_ seq : quiet (scheduleDurable cfg at_ seq).
Proof. unfold scheduleDurable. quiet_step. Qed.

(** The birth of the right half on a machine that does not host it. *)
Lemma birth_rel spec index at_ n m st rs mark :
  cfg_ok → split_wf spec → Rel_ n m [] st → (∃ conf, ConfigurationAt index r0 = Ok conf) →
  hosts m (d_ID (sp_Right spec)) = false →
  Forall (λ rec, in_ns (rangePrefix (d_ID (sp_Right spec))) (rec_Key rec)) rs →
  ∃ n' m', (match newReplicaFor cfg (sp_Right spec) m with
     | (Err _, _) => panic
     | (Ok r, m) =>
         _ ← modM (λ _, m);
         '(_, r) ← onReplica r (ingest cfg rs mark);
         left ← theReplica;
         match ConfigurationAt index (rep_raft left) with
         | Err _ => panic
         | Ok conf =>
             let snapMeta := MkSnapshotMeta 0 0 conf in
             let data := encodeMachine (sp_Right spec) mark rs in
             let b := Batch_Set (keyDescOf (d_ID (sp_Right spec))) (encodeDesc (sp_Right spec)) NewBatch in
             let b := Batch_Set (keySnapshotOf (d_ID (sp_Right spec))) (encodeSnapshot snapMeta data) b in
             res ← apply b true;
             r ← match res with
                 | Ok seq => _ ← scheduleDurable cfg at_ seq; mret (r <| rep_durSnap := snapMeta |>)
                 | Err _ => mret r
                 end;
             _ ← emit (OLedger (RecordRangeBase (d_ID (sp_Right spec)) data (EncodeConfiguration conf)));
             '(_, r) ← onReplica r (adoptSnapshot cfg snapMeta rs mark);
             _ ← modM (Node_addReplica r);
             modM (λ m, m <| m_splits := m_splits m + 1 |>)
         end
     end : Drv ()) n m = Some ((), n', m') ∧ Rel_ n' m' [] st.
Proof.
  intros Hcfg Hw HR [conf Hconf] Hno Hrs. set (id := d_ID (sp_Right spec)) in *.
  assert (Hno0 : hosts m0 id = false).
  { destruct (hosts m0 id) eqn:Eh; [|done]. rewrite (rl_mono _ _ _ _ _ _ HR id Eh) in Hno. done. }
  destruct (newReplicaFor_ok (sp_Right spec) m Hcfg) as (r & m1 & -> & Hrng & Hrns & Hdb1 & Hrs1).
  assert (HR1 : Rel_ n m1 [] st) by (apply (Rel_core n m); [unfold core; by rewrite Hdb1, Hrs1|done]).
  erewrite bind_eq by reflexivity.
  destruct (ingest_foreign id r n m1 rs mark st HR1 Hrns (sw_id _ Hw) Hno0 Hrs) as (r2 & m2 & H2 & HR2 & Hm2 & Hns2 & Hrng2).
  erewrite bind_eq by (unfold onReplica; rewrite H2; reflexivity). cbv beta iota.
  erewrite bind_eq by reflexivity. rewrite (rl_raft _ _ _ _ _ _ HR2), Hconf. cbv zeta.
  match goal with |- context [apply ?b true] =>
    destruct (foreign_rel n n m2 b true st HR2) as (q & m3 & H3 & HR3 & Hm3) end.
  { by repeat constructor. }
  { intros id' Hid' _. unfold Batch_Set, NewBatch. cbn [app].
    apply Forall_cons; split; [|apply Forall_cons; split; [|apply Forall_nil_2]];
      intros k Hk; cbn [touched] in Hk; subst k; apply (meta_not_in_ns _ _ _ Hid' (sw_id _ Hw)). }
  erewrite bind_eq by exact H3.
  destruct (Rel_quiet (scheduleDurable cfg at_ q) n m3 [] st (quiet_schedule _ _) HR3) as (u & n4 & m4 & H4 & HR4).
  erewrite bind_eq by (erewrite bind_eq by exact H4; reflexivity). erewrite bind_eq by reflexivity.
  set (m5 := m4 <| m_out := _ |>). assert (HR5 : Rel_ n4 m5 [] st) by by apply (Rel_core n4 m4).
  set (r3 := update_field _ r2).
  destruct (adopt_foreign id r3 n4 m5 rs mark conf st Hcfg HR5 Hns2 (sw_id _ Hw) Hno0 Hrs) as (r6 & m6 & H6 & HR6).
  erewrite bind_eq by (unfold onReplica; rewrite H6; reflexivity). cbv beta iota.
  eexists n4, _. split; [reflexivity|]. destruct HR6 as [G1 G2 G3 G4 G5 G6 G7 G8 G9]. split; try done.
  intros id' Hid'. apply (hosts_add r6 m6). by apply G8.
Qed.

Lemma split_rel spec index at_ n m st :
  cfg_ok → split_wf spec → Rel_ n m [] st → (∃ conf, ConfigurationAt index r0 = Ok conf) → covered st →
  ∃ n' m', applySplit cfg spec index at_ n m = Some ((), n', m')
    ∧ Rel_ n' m' [] (if splitApplies spec (rm_desc st)
        then MkRM (rm_ns st) (sp_Left spec) (rm_mark st)
               (filter (λ x : entry, stays (sp_Left spec) (rm_store st) (fst x) = true) (rm_kv st))
        else st).
Proof.
  intros Hcfg Hw HR Hconf Hcov. destruct (Rel_store _ _ _ _ HR) as (Hns & Hmk & Hd). unfold applySplit.
  erewrite bind_eq by reflexivity. rewrite Hd. destruct (splitApplies spec (rm_desc st)) eqn:Ea; cbn [negb].
  2: { destruct (Rel_quiet (bump staleSplits) n m [] st (quiet_bump _) HR) as (u & n' & m' & H1 & HR1). destruct u. by exists n', m'. }
  destruct (split_records spec n m st HR Hw Hcov Ea) as (es & kept & r & He & Hdiv & Hs & Hin & Hkv & Hr).
  erewrite bind_eq by (unfold versions_; erewrite bind_eq by (unfold onStore; reflexivity); rewrite He; reflexivity).
  rewrite Hdiv. cbv zeta. unfold GCMark. rewrite Hmk.
  set (n1 := n <| rep_mvcc := rep_mvcc n |>). assert (HR1 : Rel_ n1 m [] st) by by apply (Rel_core n m).
  destruct (ingest_own kept (rm_mark st) n1 m st HR1 Hs Hin) as (n2 & m2 & H2 & HR2 & Hm2 & _).
  erewrite bind_eq by exact H2. erewrite bind_eq by reflexivity. erewrite bind_eq by reflexivity.
  rewrite Clone_wf by done. set (n3 := n2 <| rep_desc := sp_Left spec |>).
  assert (HR3 : Rel_ n3 m2 [] (MkRM (rm_ns st) (sp_Left spec) (rm_mark st) (emap kept))).
  { destruct (Rel_store _ _ _ _ HR2) as (Hn2 & Hk2 & _). destruct HR2 as [G1 G2 G3 G4 G5 G6 G7 G8 G9]. split; try done.
    injection G3 as _ _ _ G3. unfold state_of. change (rep_mvcc n3) with (rep_mvcc n2). change (rep_desc n3) with (sp_Left spec).
    rewrite Hn2, Hk2, <- G3, Hn2. done. }
  rewrite Hkv in HR3. destruct (hosts m2 (d_ID (sp_Right spec))) eqn:Eh; [by exists n3, m2|].
  by apply birth_rel.
Qed.

(** ** The extent covers the records *)

Lemma decodeCmd_key d op k v t : decodeCmd d = (op, k, v, t) → k = [] ∨ key_ok k.
Proof.
  unfold decodeCmd. destruct (takeBytes d) as [[o b]|]; [|intros [= _ <- _ _]; by left]. cbn [mbind option_bind].
  destruct (takeBytes b) as [[k' b']|] eqn:Ek; [|intros [= _ <- _ _]; by left]. cbn [mbind option_bind].
  apply takeBytes_some in Ek as [Hk _].
  destruct (takeBytes b') as [[v' b'']|]; [|intros [= _ <- _ _]; by left]. cbn [mbind option_bind].
  destruct (takeTS64 b'') as [[? ?]|]; intros [= _ <- _ _]; [by right|by left].
Qed.

Lemma decodeTxn_key d c : decodeTxnCommand d = Some c → key_ok (tc_Key c).
Proof.
  unfold decodeTxnCommand. destruct (_ || _); [done|]. destruct d as [|? [|op [|st b]]]; try done.
  destruct (takeU64 b) as [[? b1]|]; [|done]. cbn [mbind option_bind].
  destruct (takeBytes b1) as [[k b2]|] eqn:Ek; [|done]. cbn [mbind option_bind]. apply takeBytes_some in Ek as [Hk _].
  repeat match goal with |- context [mbind _ ?x] => destruct x as [[? ?]|]; [|done]; cbn [mbind option_bind] end.
  by intros [= <-].
Qed.

Lemma key_ok_nil : key_ok [].
Proof. unfold key_ok. done. Qed.

(** A write of a record of one key. *)
Definition of_key (ns key : bytes) (o : Op) : Prop :=
  match o with OpSet k _ => ∃ rk, rkey_key rk = key ∧ k = enc ns rk | _ => True end.

Lemma of_key_set ns key k v b :
  (∃ rk, rkey_key rk = key ∧ k = enc ns rk) → Forall (of_key ns key) b → Forall (of_key ns key) (Batch_Set k v b).
Proof. intros Hk Hb. apply Forall_app. split; [done|]. by constructor. Qed.
Lemma of_key_delete ns key k b : Forall (of_key ns key) b → Forall (of_key ns key) (Batch_Delete k b).
Proof. intros Hb. apply Forall_app. split; [done|]. by constructor. Qed.
Lemma of_key_lock ns key : ∃ rk, rkey_key rk = key ∧ LockKey ns key = enc ns rk.
Proof. by exists (KLock key). Qed.
Lemma of_key_write ns key t : ∃ rk, rkey_key rk = key ∧ WriteKey ns key t = enc ns rk.
Proof. by exists (KWrite key t). Qed.
Lemma of_key_txn ns key t : ∃ rk, rkey_key rk = key ∧ TxnKey ns key t = enc ns rk.
Proof. by exists (KTxn key t). Qed.
Lemma of_key_read ns key t : ∃ rk, rkey_key rk = key ∧ ReadMarkKey ns key t = enc ns rk.
Proof. by exists (KRead key t). Qed.
Lemma of_key_data ns key t : ∃ rk, rkey_key rk = key ∧ EncodeKey ns key t = enc ns rk.
Proof. by exists (KData key t). Qed.
Hint Resolve of_key_set of_key_delete of_key_lock of_key_write of_key_txn of_key_read of_key_data : rift.

Section OfKey.
Context (kv : gmap bytes bytes).

Lemma release_of_key key t b s :
  Forall (of_key (s_ns s) key) b →
  Forall (of_key (s_ns s) key) (snd (fst (releaseLockOf kv key t b s))) ∧ s_ns (snd (releaseLockOf kv key t b s)) = s_ns s.
Proof. intros Hb. unfold releaseLockOf. split_code; cbn [fst snd]; split; auto with rift. Qed.

Lemma commit_of_key key t u s : Forall (of_key (s_ns s) key) (snd (fst (CommitInto kv key t u [] s))).
Proof.
  unfold CommitInto. destruct (_ || _); [constructor|]. destruct (Less _ _); [constructor|]. cbv zeta.
  pose proof (release_of_key key t (Batch_Set (WriteKey (s_ns s) key u) (encodeWrite t false) []) s) as H1.
  destruct (releaseLockOf _ _ _ _ _) as [[[] ?] ?]; apply H1; auto with rift.
Qed.
Lemma rollback_of_key key t s : Forall (of_key (s_ns s) key) (snd (fst (RollbackInto kv key t [] s))).
Proof.
  unfold RollbackInto. destruct (negb _); [constructor|]. cbv zeta.
  pose proof (release_of_key key t (Batch_Set (WriteKey (s_ns s) key t) (encodeWrite t true) []) s) as H1.
  destruct (releaseLockOf _ _ _ _ _) as [[[] ?] ?]; cbn [fst snd] in *; destruct H1 as [H1 _]; auto with rift.
Qed.
Lemma puttxn_of_key key r s : Forall (of_key (s_ns s) key) (snd (PutTxnInto kv key r [] s)).
Proof. unfold PutTxnInto. split_code; cbn [snd]; auto with rift. Qed.

Lemma txn_of_key c desc s : Forall (of_key (s_ns s) (tc_Key c)) (fst (applyTxnTo kv c desc [] s)).
Proof.
  unfold applyTxnTo. destruct (tc_Op c); [..|constructor].
  - unfold PrewriteInto, refuseIfReadAbove. split_code; simplify_eq; cbn [fst snd]; auto with rift.
  - pose proof (commit_of_key (tc_Key c) (tc_StartTS c) (tc_CommitTS c) s) as H. by destruct (CommitInto _ _ _ _ _ _) as [[? ?] ?].
  - pose proof (rollback_of_key (tc_Key c) (tc_StartTS c) s) as H. by destruct (RollbackInto _ _ _ _ _) as [[? ?] ?].
  - pose proof (puttxn_of_key (tc_Key c) (MkTxnRecord (tc_Status c) (tc_StartTS c) (tc_CommitTS c)) s) as H.
    by destruct (PutTxnInto _ _ _ _ _).
  - unfold NoteReadInto. split_code; simplify_eq; cbn [fst snd]; auto with rift.
  - cbv zeta. destruct (ResolveLock _ _ _ _ _) as [[[] ?]|]; try constructor.
    destruct (Store_Txn _ _ _ _) as [[]|]; try constructor.
    pose proof (puttxn_of_key (tc_Key c) (MkTxnRecord TxnRolledBack (tc_StartTS c) zeroTimestamp) s) as H.
    by destruct (PutTxnInto _ _ _ _ _).
  - destruct (Store_Lock _ _ _) as [[l|]|]; try constructor. destruct (negb _); [constructor|]. cbv zeta.
    destruct (bool_decide _); cbn [ApplyResolutionInto].
    + pose proof (rollback_of_key (tc_Key c) (l_StartTS l) (s <| s_rollBacks := s_rollBacks s + 1 |>)) as H.
      by destruct (RollbackInto _ _ _ _ _) as [[? ?] ?].
    + pose proof (commit_of_key (tc_Key c) (l_StartTS l) (tc_CommitTS c) (s <| s_rollForwards := s_rollForwards s + 1 |>)) as H.
      by destruct (CommitInto _ _ _ _ _ _) as [[? ?] ?].
Qed.
End OfKey.

(** Writes of covered keys keep the records covered. *)
Lemma covered_ops st b mark :
  covered st →
  Forall (λ o, match o with
               | OpSet k _ => ∀ u, UserKeyOf k (rm_store st) = Some u → Contains (rm_desc st) u = true
               | _ => True
               end) b →
  covered (MkRM (rm_ns st) (rm_desc st) mark (foldl spec_op (rm_kv st) b)).
Proof.
  intros Hc Hb. unfold covered in *. cbn [rm_kv rm_desc].
  change (∀ k u, is_Some (foldl spec_op (rm_kv st) b !! k) → UserKeyOf k (rm_store st) = Some u → Contains (rm_desc st) u = true).
  revert Hc. generalize (rm_kv st). induction Hb as [|o b Ho _ IH]; intros kv Hc; [done|]. cbn [foldl]. apply IH.
  intros k u Hk Hu. destruct o as [k' v|k'|lo hi|]; cbn in Hk.
  - destruct (decide (k' = k)) as [->|Hne]; [by apply Ho|]. rewrite lookup_insert_ne in Hk by done. by apply (Hc k).
  - destruct (decide (k' = k)) as [->|Hne]; [by rewrite lookup_delete_eq in Hk; destruct Hk|].
    rewrite lookup_delete_ne in Hk by done. by apply (Hc k).
  - destruct Hk as [v Hk]. apply map_lookup_filter_Some in Hk as [Hk _]. by apply (Hc k); [exists v|].
  - by apply (Hc k).
Qed.

Lemma covered_key st key b mark :
  covered st → key_ok key → Contains (rm_desc st) key = true → Forall (of_key (rm_ns st) key) b →
  covered (MkRM (rm_ns st) (rm_desc st) mark (foldl spec_op (rm_kv st) b)).
Proof.
  intros Hc Hk Hin Hb. apply covered_ops; [done|]. apply (Forall_impl _ _ _ Hb). intros [k' v| | |] Ho; [|done..].
  destruct Ho as (rk & <- & ->). intros u Hu.
  assert (He : UserKeyOf (enc (rm_ns st) rk) (rm_store st) = Some (rkey_key rk)) by by apply (UserKeyOf_enc rk (rm_store st)).
  rewrite He in Hu. by injection Hu as <-.
Qed.

Lemma covered_step st e : covered st → covered (rm_step st e).
Proof.
  intros Hc. unfold rm_step. destruct st as [ns desc mark kv] eqn:Est. rewrite <- Est in *.
  assert (Hst : rm_ns st = ns ∧ rm_desc st = desc ∧ rm_mark st = mark ∧ rm_kv st = kv) by by rewrite Est.
  destruct Hst as (Hn & Hd & Hm & Hkv). destruct (_ =? 0)%nat; [done|]. destruct (isTxnCommand (e_Data e)).
  { destruct (decodeTxnCommand (e_Data e)) as [c|] eqn:Ec; [|done]. destruct (Contains desc (tc_Key c)) eqn:Ei; [|done].
    rewrite <- Hn, <- Hd, <- Hkv. apply (covered_key st (tc_Key c)); [done|by eapply decodeTxn_key|by rewrite Hd|].
    exact (txn_of_key (rm_kv st) c (rm_desc st) (rm_store st)). }
  destruct (isSplitCommand (e_Data e)).
  { destruct (decodeSplitCommand (e_Data e)) as [spec|]; [|done]. destruct (splitApplies spec desc); [|done].
    intros k u [v Hk] Hu. cbn [rm_kv rm_desc] in *. apply map_lookup_filter_Some in Hk as [_ Hs]. cbn [fst] in Hs.
    unfold stays in Hs. assert (Hu' : UserKeyOf k (rm_store st) = Some u) by (rewrite <- Hu; by apply UserKeyOf_ns).
    rewrite Hu' in Hs. assert (Ho : owns k (rm_store st) = true).
    { unfold UserKeyOf in Hu'. by destruct (owns k (rm_store st)). }
    by rewrite Ho in Hs. }
  destruct (decodeCmd (e_Data e)) as [[[op k] v] t] eqn:Ed. destruct (bool_decide (op = opGC)).
  { destruct (AdvanceGCInto kv t [] (rm_store st)) as [[res b] s] eqn:Eg. rewrite <- Hn, <- Hd, <- Hkv. apply covered_ops; [done|].
    revert Eg. unfold AdvanceGCInto. destruct (negb _); [intros [= _ <- _]; constructor|]. destruct (LessEq _ _); [intros [= _ <- _]; constructor|].
    cbv zeta. destruct (eng_scan _ _ kv) as [es err]. destruct (gcStep_fold (s_ns (rm_store st)) t es (MkGc [] false [] 0)) as [Hb _].
    assert (Hf : Forall (λ o, match o with OpSet k _ => ∀ u, UserKeyOf k (rm_store st) = Some u → Contains (rm_desc st) u = true | _ => True end)
                   (gc_batch (foldl (gcStep (s_ns (rm_store st)) t) (MkGc [] false [] 0) es)))
      by (rewrite Hb; cbn [app gc_batch]; apply Forall_fmap, Forall_forall; done).
    destruct err; by intros [= _ <- _]. }
  destruct (bool_decide (op = opPut) && Contains desc k) eqn:Ei; [|done]. apply andb_true_iff in Ei as [_ Ei].
  destruct (PutInto k t v [] (rm_store st)) as [[res b] s] eqn:Ep. rewrite <- Hn, <- Hd, <- Hkv.
  apply (covered_key st k); [done| |by rewrite Hd|].
  { destruct (decodeCmd_key _ _ _ _ _ Ed) as [->|]; [apply key_ok_nil|done]. }
  revert Ep. unfold PutInto. destruct (negb _); [intros [= _ <- _]; constructor|]. destruct (LessEq _ _); [intros [= _ <- _]; constructor|].
  intros [= _ <- _]. apply of_key_set; [apply of_key_data|constructor].
Qed.

(** ** One entry, then all of them *)

(** Splits in the log are splits leaders propose, at a position whose
    configuration the raft node can state. *)
Definition entry_fit (e : Entry) : Prop :=
  ∀ spec, decodeSplitCommand (e_Data e) = Some spec → split_wf spec ∧ ∃ conf, ConfigurationAt (e_Index e) r0 = Ok conf.

Lemma rm_step_eq st e :
  rm_step st e =
  if (length (e_Data e) =? 0)%nat then st
  else if isTxnCommand (e_Data e) then
    match decodeTxnCommand (e_Data e) with
    | Some c => if Contains (rm_desc st) (tc_Key c)
                then MkRM (rm_ns st) (rm_desc st) (rm_mark st)
                       (foldl spec_op (rm_kv st) (fst (applyTxnTo (rm_kv st) c (rm_desc st) [] (rm_store st))))
                else st
    | None => st
    end
  else if isSplitCommand (e_Data e) then
    match decodeSplitCommand (e_Data e) with
    | Some spec => if splitApplies spec (rm_desc st)
                   then MkRM (rm_ns st) (sp_Left spec) (rm_mark st)
                          (filter (λ x : entry, stays (sp_Left spec) (rm_store st) (fst x) = true) (rm_kv st))
                   else st
    | None => st
    end
  else
    let '(op, k, v, at_) := decodeCmd (e_Data e) in
    if bool_decide (op = opGC) then
      let '(_, b, s') := AdvanceGCInto (rm_kv st) at_ [] (rm_store st) in
      MkRM (rm_ns st) (rm_desc st) (s_gcMark s') (foldl spec_op (rm_kv st) b)
    else if bool_decide (op = opPut) && Contains (rm_desc st) k then
      let '(_, b, _) := PutInto k at_ v [] (rm_store st) in
      MkRM (rm_ns st) (rm_desc st) (rm_mark st) (foldl spec_op (rm_kv st) b)
    else st.
Proof. by destruct st. Qed.

Lemma when_rel c x n m mb st :
  quiet x → Rel_ n m mb st → ∃ n' m', when c x n m = Some ((), n', m') ∧ Rel_ n' m' mb st.
Proof.
  intros Hq HR. destruct (Rel_quiet (when c x) n m mb st (quiet_when _ _ Hq) HR) as ([] & n' & m' & ? & ?). by exists n', m'.
Qed.

Lemma applyEntry_rel at_ e n m mb st :
  cfg_ok → entry_fit e → covered st → Rel_ n m mb st →
  ∃ mb' n' m', applyEntry cfg at_ e mb n m = Some (mb', n', m') ∧ Rel_ n' m' mb' (rm_step st e).
Proof.
  intros Hcfg Hfit Hcov HR. rewrite rm_step_eq. unfold applyEntry.
  destruct (when_rel ((length (e_Data e) =? 0)%nat && pid_Zero (e_ID e)) (bump noopsApplied) n m mb st (quiet_bump _) HR)
    as (n1 & m1 & H1 & HR1).
  erewrite bind_eq by exact H1. clear H1 HR n m. set (noop := _ && _).
  destruct (isTxnCommand (e_Data e)) eqn:Etxn.
  { destruct (when_rel noop (bump noopReachedArm) n1 m1 mb st (quiet_bump _) HR1) as (n2 & m2 & H2 & HR2).
    erewrite bind_eq by exact H2. assert (Hlen : (length (e_Data e) =? 0)%nat = false) by (by destruct (e_Data e)). rewrite Hlen.
    destruct (decodeTxnCommand (e_Data e)) as [c|]; [|by apply finish_rel].
    erewrite bind_eq by reflexivity. destruct (Rel_store _ _ _ _ HR2) as (_ & _ & ->).
    destruct (Contains (rm_desc st) (tc_Key c)); [|erewrite bind_eq by reflexivity; by apply finish_rel].
    destruct (flush_rel n2 m2 mb st HR2) as (m3 & H3 & HR3 & _).
    destruct (txn_rel c n2 m3 st HR3) as (res & b & n4 & H4 & HR4).
    destruct (flush_rel n4 m3 b _ HR4) as (m5 & H5 & HR5 & _).
    destruct (Rel_quiet (answerTxn cfg e c res at_) n4 m5 [] _ (quiet_answerTxn _ _ _ _ _) HR5) as (u & n6 & m6 & H6 & HR6).
    erewrite bind_eq by (erewrite bind_eq by exact H3; erewrite bind_eq by exact H4; cbv beta iota;
                         erewrite bind_eq by exact H5; erewrite bind_eq by exact H6; reflexivity).
    by apply finish_rel. }
  destruct (isSplitCommand (e_Data e)) eqn:Esplit.
  { destruct (when_rel noop (bump noopReachedArm) n1 m1 mb st (quiet_bump _) HR1) as (n2 & m2 & H2 & HR2).
    erewrite bind_eq by exact H2. assert (Hlen : (length (e_Data e) =? 0)%nat = false) by (by destruct (e_Data e)). rewrite Hlen.
    destruct (flush_rel n2 m2 mb st HR2) as (m3 & H3 & HR3 & _). erewrite bind_eq by exact H3.
    destruct (decodeSplitCommand (e_Data e)) as [spec|] eqn:Ed; [|erewrite bind_eq by reflexivity; by apply finish_rel].
    destruct (Hfit spec Ed) as [Hw Hconf].
    destruct (split_rel spec (e_Index e) at_ n2 m3 st Hcfg Hw HR3 Hconf Hcov) as (n4 & m4 & H4 & HR4).
    erewrite bind_eq by (erewrite bind_eq by exact H4; reflexivity).
    set (n5 := n4 <| rep_splitPending := false |>). apply (finish_rel _ _ _ _ _ _ _ _ n5). by apply (Rel_core n4 m4). }
  destruct (length (e_Data e) =? 0)%nat eqn:Elen; cbn [negb].
  { by apply finish_rel. }
  destruct (when_rel noop (bump noopReachedArm) n1 m1 mb st (quiet_bump _) HR1) as (n2 & m2 & H2 & HR2).
  erewrite bind_eq by exact H2. destruct (decodeCmd (e_Data e)) as [[[op k] v] t].
  destruct (bool_decide (op = opGC)).
  { destruct (flush_rel n2 m2 mb st HR2) as (m3 & H3 & HR3 & _). erewrite bind_eq by exact H3. erewrite bind_eq by reflexivity.
    set (n3 := n2 <| rep_gcPending := false |>). assert (HR4 : Rel_ n3 m3 [] st) by by apply (Rel_core n2 m3).
    destruct (gc_rel t n3 m3 st HR4) as (res & b & n5 & H5 & HR5). erewrite bind_eq by exact H5. cbv beta iota.
    assert (∃ n6 m6, (match res with
               | Ok removed => _ ← flushApply b; _ ← bump gcApplied; tally versionsCollected removed
               | Err _ => mret ()
               end : Drv ()) n5 m3 = Some ((), n6, m6)
             ∧ Rel_ n6 m6 [] (let '(_, b, s') := AdvanceGCInto (rm_kv st) t [] (rm_store st) in
                              MkRM (rm_ns st) (rm_desc st) (s_gcMark s') (foldl spec_op (rm_kv st) b))) as (n6 & m6 & H6 & HR6).
    { destruct res as [z|err]; [|by exists n5, m3]. destruct (flush_rel n5 m3 b _ HR5) as (m6 & H6 & HR6 & _).
      erewrite bind_eq by exact H6. eexists _, m6. split; [reflexivity|]. by apply (Rel_core n5 m6). }
    erewrite bind_eq by exact H6.
    destruct (Rel_quiet (answerAt cfg e [] [] t at_) n6 m6 [] _ (quiet_answerAt _ _ _ _ _ _) HR6) as (u & n7 & m7 & H7 & HR7).
    erewrite bind_eq by exact H7. by exists [], n7, m7. }
  erewrite bind_eq by reflexivity. destruct (Rel_store _ _ _ _ HR2) as (_ & _ & ->). rewrite andb_comm.
  destruct (bool_decide (op = opPut) && Contains (rm_desc st) k); [|by apply finish_rel].
  destruct (put_rel k t v n2 m2 mb st HR2) as (res & b & n3 & H3 & HR3). erewrite bind_eq by exact H3. cbv beta iota.
  destruct res as [[]|err]; [by apply finish_rel|]. erewrite bind_eq by reflexivity.
  apply finish_rel. by apply (Rel_core n3 m2).
Qed.

Lemma applyEntries_rel at_ es n m mb st :
  cfg_ok → Forall entry_fit es → covered st → Rel_ n m mb st →
  ∃ mb' n' m', applyEntries cfg at_ es mb n m = Some (mb', n', m') ∧ Rel_ n' m' mb' (rm_apply es st) ∧ covered (rm_apply es st).
Proof.
  intros Hcfg Hes. revert n m mb st. induction Hes as [|e es He _ IH]; intros n m mb st Hcov HR; [by exists mb, n, m|].
  cbn [applyEntries]. destruct (applyEntry_rel at_ e n m mb st Hcfg He Hcov HR) as (mb1 & n1 & m1 & H1 & HR1).
  erewrite bind_eq by exact H1. apply IH; [by apply covered_step|done].
Qed.
End Refine.

(** ** What the driver does *)

(** A replica of a range, on the machine that hosts it. *)
Record replica_ok (n : Replica) (m : Node) : Prop := MkReplicaOk {
  rk_engine : eng_wf (t_Engine (m_db m));
  rk_ns : s_ns (rep_mvcc n) = rangePrefix (rep_rng n);
  rk_rng : is_u64 (rep_rng n);
  rk_host : hosts m (rep_rng n) = true;
}.

(** The apply step of one Ready, and of a sequence of them. *)
Definition applyReady (cfg : NodeConfig) (at_ : Z) (es : list Entry) : Drv () :=
  mb ← applyEntries cfg at_ es NewBatch; _ ← flushApply mb; mret ().
Definition applyReadies (cfg : NodeConfig) (at_ : Z) (ess : list (list Entry)) : Drv () :=
  forEach ess (applyReady cfg at_).

Lemma Rel_start n m : replica_ok n m → Rel (rep_raft n) m n m [] (state_of n m []).
Proof. intros [H1 H2 H3 H4]. split; try done. apply ok_nil. Qed.

Lemma state_owned n m mb : rm_owned (state_of n m mb).
Proof.
  intros k [v Hk]. cbn [state_of rm_kv rm_ns] in *. destruct (in_ns_dec (s_ns (rep_mvcc n)) k) as [|Hn]; [done|].
  by rewrite mine_out in Hk.
Qed.

Lemma state_records n m : eng_wf (t_Engine (m_db m)) → Records (t_Engine (m_db m)) (rep_mvcc n) = Ok (rm_records (state_of n m [])).
Proof.
  intros Hwf. rewrite (Records_agree _ (mine (s_ns (rep_mvcc n)) (contents (t_Engine (m_db m))))); [done|].
  apply (agree_of (t_Engine (m_db m)) Hwf); [apply map_wf|]. intros k Hk. cbn [contents Map_laws]. by rewrite mine_at.
Qed.

Lemma readies_rel cfg r0 m0 at_ ess n m st :
  cfg_ok cfg → Forall (Forall (entry_fit r0)) ess → covered st → Rel r0 m0 n m [] st →
  ∃ n' m', applyReadies cfg at_ ess n m = Some ((), n', m') ∧ Rel r0 m0 n' m' [] (rm_apply (concat ess) st)
    ∧ covered (rm_apply (concat ess) st).
Proof.
  intros Hcfg Hess. revert n m st. induction Hess as [|es ess Hes _ IH]; intros n m st Hcov HR; [by exists n, m|].
  unfold applyReadies. cbn [forEach].
  destruct (applyEntries_rel cfg r0 m0 at_ es n m [] st Hcfg Hes Hcov HR) as (mb & n1 & m1 & H1 & HR1 & Hcov1).
  destruct (flush_rel r0 m0 n1 m1 mb _ HR1) as (m2 & H2 & HR2 & _).
  erewrite bind_eq by (unfold applyReady; erewrite bind_eq by exact H1; erewrite bind_eq by exact H2; reflexivity).
  destruct (IH n1 m2 _ Hcov1 HR2) as (n3 & m3 & H3 & HR3 & Hcov3). exists n3, m3. split; [exact H3|].
  cbn [concat]. unfold rm_apply in *. by rewrite foldl_app.
Qed.

(** C18. The driver refines the abstract state machine.  A replica that applies the
    committed entries of any sequence of Readies -- batching the writes of each,
    flushing where a command has to read, answering and rerouting clients in
    between, and creating the right half of every split -- never panics, and its
    extent, mark and records end exactly where applying the entries one by one
    puts the abstract machine.  So they are a function of the log, and not of how
    many entries happened to arrive together.  The records stay inside the extent,
    the raft node is untouched, and no other range of the machine changes. *)
Theorem driver_refines cfg at_ ess n m :
  cfg_ok cfg → replica_ok n m → Forall (Forall (entry_fit (rep_raft n))) ess → covered (state_of n m []) →
  ∃ n' m', applyReadies cfg at_ ess n m = Some ((), n', m')
    ∧ state_of n' m' [] = rm_apply (concat ess) (state_of n m [])
    ∧ covered (state_of n' m' []) ∧ rep_raft n' = rep_raft n
    ∧ ∀ id, is_u64 id → hosts m id = true → id ≠ rep_rng n →
        mine (rangePrefix id) (contents (t_Engine (m_db m'))) = mine (rangePrefix id) (contents (t_Engine (m_db m))).
Proof.
  intros Hcfg Hok Hess Hcov.
  destruct (readies_rel cfg (rep_raft n) m at_ ess n m _ Hcfg Hess Hcov (Rel_start n m Hok)) as (n' & m' & H1 & HR & Hc).
  exists n', m'. rewrite (rl_st _ _ _ _ _ _ HR). split_and!; [done|done|done|apply HR|].
  intros id Hid Hh Hne. apply (rl_others _ _ _ _ _ _ HR); [done|done|]. intros ->. apply Hne.
  assert (Hns : rangePrefix (rep_rng n') = rangePrefix (rep_rng n)).
  { rewrite <- (rl_ns _ _ _ _ _ _ HR). rewrite <- (rk_ns _ _ Hok).
    by rewrite (proj2 (rm_apply_owned (concat ess) _ (state_owned n m []))). }
  apply (f_equal (λ x, x ++ [])) in Hns. apply rangePrefix_inj in Hns as [-> _]; [done|exact (rl_rng _ _ _ _ _ _ HR)|apply Hok].
Qed.

(** C19. A replica and the replay of its log agree, byte for byte: from the range's
    birth payload, whatever Readies the entries arrived in, the payload of a
    snapshot the replica takes is the encoding of what [ReplayMachine] computes
    from the same payload and the same entries. *)
Theorem driver_matches_replay cfg at_ ess n m base desc mark recs :
  cfg_ok cfg → replica_ok n m → Forall (Forall (entry_fit (rep_raft n))) ess → covered (state_of n m []) →
  decodeMachine base = Some (Some (desc, mark, recs)) → state_of n m [] = rm_init desc mark recs →
  ∃ n' m' out, applyReadies cfg at_ ess n m = Some ((), n', m')
    ∧ ReplayMachine base (concat ess) = Some (Some (rep_desc n', GCMark (rep_mvcc n'), Some out))
    ∧ Records (t_Engine (m_db m')) (rep_mvcc n') = Ok out.
Proof.
  intros Hcfg Hok Hess Hcov Hd Hst.
  destruct (readies_rel cfg (rep_raft n) m at_ ess n m _ Hcfg Hess Hcov (Rel_start n m Hok)) as (n' & m' & H1 & HR & _).
  exists n', m', (rm_records (rm_apply (concat ess) (state_of n m []))). split; [done|]. split.
  - rewrite (ReplayMachine_eq _ _ _ _ _ Hd), <- Hst, <- (rl_st _ _ _ _ _ _ HR). done.
  - rewrite state_records by apply HR. by rewrite (rl_st _ _ _ _ _ _ HR).
Qed.

(** ** A machine at work *)

(** A cluster of one node, which leads and has proposed three puts. *)
Definition cfg1 : NodeConfig :=
  MkNodeConfig 1 [1] 0 10 1 5 true true false true [] 0 1 2 0 false false true 3 None (λ n, 1000 + Z.of_nat n) 500.

Definition putReq (k v : bytes) (h : Z) : Request := MkRequest 0 0 opPut k v h false zeroTimestamp None 0 0.
Definition getReq (k : bytes) (h : Z) : Request := MkRequest 0 0 opGet k [] h false zeroTimestamp None 0 0.

Definition newNode (cfg : NodeConfig) : option Node := match Node_New cfg Engine.New with Ok m => Some m | Err _ => None end.

(** Handle events at instant 0, and the completion of every write so far. *)
Definition handleAll (cfg : NodeConfig) (evs : list Event) (m : option Node) : option Node :=
  foldl (λ m e, m ← m; Handle cfg 10 e 0 m) m evs.
Definition syncAll (cfg : NodeConfig) (m : option Node) : option Node :=
  m ← m; Handle cfg 10 (KindDurable (g_current (m_epoch m)) (visibleSeq (m_db m))) 0 m.

Definition kC : bytes := [Byte.x63].
Definition elected : option Node := syncAll cfg1 (syncAll cfg1 (handleAll cfg1 (replicate 10 KindTick) (newNode cfg1))).
Definition proposed : option Node :=
  handleAll cfg1 [KindClient (putReq k0 val1 7); KindClient (putReq kB val1 8); KindClient (putReq kC val1 9)] elected.
Definition mP : Node := default (MkNode (MkTracked Engine.New 0) NewEpochGuard [] 0 false 0 0 0 0 []) proposed.
Definition nP : Replica := default (bareReplica FirstRangeDescriptor (freshRaft (raftConfig cfg1) (MkConfiguration [] []))
                                      (plain [] zeroTimestamp) clock1) (head (m_replicas mP)).

(** The puts, and a split of the range between them. *)
Definition splitP : Entry :=
  MkEntry EntryNormal 1 4 (MkProposalID 1 9) (encodeSplitCommand (proposedSplit FirstRangeDescriptor kB 2)).
Definition readiesP : list (list Entry) := [r_log (rep_raft nP); [splitP; splitP]].

Lemma cfg1_ok : cfg_ok cfg1.
Proof. split; [done|done|done|by eexists|by vm_compute]. Qed.

Lemma nP_ok : replica_ok nP mP.
Proof.
  split; [|by vm_compute|by vm_compute|by vm_compute]. split; [|by vm_compute].
  unfold sorted_entries. vm_compute. by repeat constructor.
Qed.

Lemma nP_empty : state_of nP mP [] = rm_init FirstRangeDescriptor zeroTimestamp [].
Proof. vm_compute. reflexivity. Qed.

Lemma nP_covered : covered (state_of nP mP []).
Proof.
  intros k u [v Hk]. rewrite nP_empty in Hk. exfalso. revert Hk.
  assert (He : rm_kv (rm_init FirstRangeDescriptor zeroTimestamp []) = ∅) by (vm_compute; reflexivity). rewrite He, lookup_empty. discriminate.
Qed.

Lemma readiesP_fit : Forall (Forall (entry_fit (rep_raft nP))) readiesP.
Proof.
  assert (Hsplit : entry_fit (rep_raft nP) splitP).
  { intros spec Hs. vm_compute in Hs. injection Hs as <-. split; [by split|]. exists (MkConfiguration [1] []).
    vm_compute. reflexivity. }
  apply Forall_cons. split; [|apply Forall_singleton, Forall_cons; split; [exact Hsplit|by apply Forall_singleton]].
  assert (Hf : forallb (λ e, negb (isSplitCommand (e_Data e))) (r_log (rep_raft nP)) = true) by (vm_compute; reflexivity).
  apply Forall_forall. intros e He spec Hs. rewrite forallb_forall in Hf. apply list_elem_of_In, Hf in He.
  unfold decodeSplitCommand in Hs. by destruct (isSplitCommand (e_Data e)).
Qed.

Lemma driver_refines_witness :
  ∃ n' m', applyReadies cfg1 0 readiesP nP mP = Some ((), n', m')
    ∧ state_of n' m' [] = rm_apply (concat readiesP) (state_of nP mP []).
Proof.
  destruct (driver_refines cfg1 0 readiesP nP mP cfg1_ok nP_ok readiesP_fit nP_covered) as (n' & m' & H1 & H2 & _).
  exact (ex_intro _ n' (ex_intro _ m' (conj H1 H2))).
Defined.

Lemma driver_matches_replay_witness :
  ∃ n' m' out, applyReadies cfg1 0 readiesP nP mP = Some ((), n', m')
    ∧ ReplayMachine (encodeMachine FirstRangeDescriptor zeroTimestamp []) (concat readiesP)
      = Some (Some (rep_desc n', GCMark (rep_mvcc n'), Some out)).
Proof.
  destruct (driver_matches_replay cfg1 0 readiesP nP mP (encodeMachine FirstRangeDescriptor zeroTimestamp [])
              FirstRangeDescriptor zeroTimestamp [] cfg1_ok nP_ok readiesP_fit nP_covered eq_refl nP_empty)
    as (n' & m' & out & H1 & H2 & _).
  exact (ex_intro _ n' (ex_intro _ m' (ex_intro _ out (conj H1 H2)))).
Defined.

(** The split moved the greater keys to the new range. *)
Example splitP_applied :
  match applyReadies cfg1 0 readiesP nP mP with
  | Some (_, n', m') => (d_End (rep_desc n'), length (rm_records (state_of n' m' [])), rep_rng <$> m_replicas m', m_splits m')
  | None => (None, 0%nat, [], 0)
  end = (Some kB, 1%nat, [1; 2], 1).
Proof. vm_compute. reflexivity. Qed.
