(* ===== verification/BankSystem.v ===== *)
(** * The coordinator over the store

    The whole of a bank run: the coordinator of [BankCoord], commands on their way to the
    ranges, the ranges' state machines, answers on their way back.  Commands may be lost,
    delayed and reordered, and so may answers; a command is applied at most once, because
    one leader proposes it.  [smove] is one event of such a run. *)

From Stdlib Require Import Lia ZArith.
From stdpp Require Import base tactics numbers option gmap list.
From S2P Require Import Prelude Bytes ConfChange RaftTypes Hlc SimQueue SimLoop SimTransport CheckLedger CheckOracles Engine KvEncoding EngineIface KvStore KvTxn EngineMap StoreCodec CheckTxn StoreReplay StoreTxn StoreRange StoreNode CheckStore BankCoord StoreDriver.

(** ** What a step answers *)

(** The result the driver gives of a step other than a read, from the state before it. *)
Definition stepResult {E : Type} `{EngineReads E} (db : E) (s : Store) (c : TxnCommand) : TxnResult :=
  let rejected := noResult <| x_Rejected := true |> in
  match tc_Op c with
  | OpPrewrite =>
      match PrewriteInto db (tc_Key c) (MkLock (tc_Primary c) (tc_StartTS c) (tc_Deadline c)) (tc_Value c) [] s with
      | (Ok _, _, _) => noResult
      | (Err _, _, _) => rejected
      end
  | OpPutTxnRecord =>
      match PutTxnInto db (tc_Key c) (MkTxnRecord (tc_Status c) (tc_StartTS c) (tc_CommitTS c)) [] s with
      | (Ok _, _) => noResult
      | (Err _, _) => rejected
      end
  | OpResolveStatus =>
      match Store_Txn db (tc_Key c) (tc_StartTS c) s with
      | Err _ => noResult
      | Ok (Some rec) =>
          noResult <| x_Decided := true |> <| x_Rollback := negb (bool_decide (r_Status rec = TxnCommitted)) |> <| x_CommitTS := r_CommitTS rec |>
      | Ok None => if LessEq (tc_ExpireAt c) (tc_Deadline c) then noResult else noResult <| x_Decided := true |> <| x_Rollback := true |>
      end
  | _ => noResult
  end.

(** The driver of the store answers so. *)
Lemma applyTxn_result c n m :
  ∃ b n', applyTxn [] c n m = Some ((stepResult (t_Engine (m_db m)) (rep_mvcc n) c, b), n', m).
Proof.
  unfold applyTxn, stepResult. destruct (tc_Op c) eqn:Eo;
    [unfold applyShared, applyTxnTo, mbind, Drv_bind, onStore, theReplica; rewrite ?Eo..| | |].
  - destruct (PrewriteInto _ _ _ _ [] _) as [[[|[]] b'] s]; by eexists _, _.
  - destruct (CommitInto _ _ _ _ [] _) as [[? ?] ?]. by eexists _, _.
  - destruct (RollbackInto _ _ _ [] _) as [[? ?] ?]. by eexists _, _.
  - destruct (PutTxnInto _ _ _ [] _) as [[|[]] b']; by eexists _, _.
  - destruct (NoteReadInto _ _ _ [] _) as [[? ?] ?]. by eexists _, _.
  - erewrite bind_eq by reflexivity. destruct (Store_Txn _ _ _ (rep_mvcc n)) as [[rec|]|] eqn:Et.
    + erewrite bind_eq by reflexivity. cbv beta iota. erewrite (resolve_shared c n) by done. by eexists _, _.
    + destruct (LessEq _ _) eqn:El.
      * erewrite bind_eq by reflexivity. cbv beta iota. erewrite (resolve_shared c n) by done. by eexists _, _.
      * destruct (declareDead_eq [] (tc_Key c) (tc_StartTS c) (n <| rep_mvcc := rep_mvcc n |>) m) as (n1 & Hd & Hs1 & Hc1).
        erewrite bind_eq by (erewrite bind_eq by exact Hd; erewrite bind_eq by reflexivity; reflexivity). cbv beta iota.
        erewrite (resolve_shared c n) by (exact Hs1 || exact Eo || (injection Hc1 as ? ? ? ? ?; unfold core; cbn; congruence)).
        by eexists _, _.
    + erewrite bind_eq by reflexivity. cbv beta iota. erewrite (resolve_shared c n) by done. by eexists _, _.
  - unfold applyShared, mbind, Drv_bind, onStore, theReplica. destruct (applyTxnTo _ _ _ _ _) as [? ?]. unfold when.
    destruct (_ =? _); by eexists _, _.
  - unfold applyShared, mbind, Drv_bind, onStore, theReplica. destruct (applyTxnTo _ _ _ _ _) as [? ?]. by eexists _, _.
Qed.

(** ** Steps of one range *)

Section Range.
Context (ns : bytes) (mark : Timestamp) (desc : RangeDescriptor) (m : gmap bytes bytes) (c : TxnCommand).
Context (Hro : records_ok ns m) (Hc : cmd_ok c) (Hset : Timestamp_IsSet (tc_StartTS c) = true).
Let m' : gmap bytes bytes := txn_step ns mark desc m c.
Let res : TxnResult := stepResult m (plain ns mark) c.

Lemma decided_at r :
  status_ok (r_Status r) → r_StartTS r = tc_StartTS c → ts_ok (r_CommitTS r) →
  txn_of ns (foldl spec_op m [OpSet (enc ns (KTxn (tc_Key c) (tc_StartTS c))) (encodeTxn r)]) (tc_Key c) (tc_StartTS c) = Some r.
Proof using Hc.
  intros Hst Hs Hok. change (txn_of ns ?x (tc_Key c) (tc_StartTS c)) with (x !! enc ns (KTxn (tc_Key c) (tc_StartTS c)) ≫= decodeTxn).
  change (foldl spec_op m ?o !! ?k) with (after ns m o (KTxn (tc_Key c) (tc_StartTS c))).
  rewrite (after_decide ns m c Hc) by (apply (rk_ok_stamp c Hc); [auto|apply Hc]). rewrite decide_True by done. cbn [mbind option_bind].
  apply decodeTxn_encodeTxn. split; [done|]. split; [rewrite Hs; apply Hc|done].
Qed.

Lemma put_step :
  tc_Op c = OpPutTxnRecord → (tc_Status c = TxnCommitted ∨ tc_Status c = TxnRolledBack) →
  (tc_Status c = TxnCommitted → Timestamp_IsSet (tc_CommitTS c) = true) →
  match txn_of ns m (tc_Key c) (tc_StartTS c) with
  | Some _ => m' = m ∧ x_Rejected res = true
  | None => txn_of ns m' (tc_Key c) (tc_StartTS c) = Some (MkTxnRecord (tc_Status c) (tc_StartTS c) (tc_CommitTS c)) ∧ x_Rejected res = false
  end.
Proof using Hro Hc Hset.
  intros Hop Hst Hcs. unfold m', res, txn_step, txn_ops, applyTxnTo, stepResult. rewrite Hop.
  rewrite (PutTxnInto_eq m (map_wf m)) by done. cbn [contents Map_laws s_ns plain r_StartTS].
  destruct (txn_of ns m (tc_Key c) (tc_StartTS c)) eqn:Et; [done|]. split; [|done]. cbn [fst app].
  apply decided_at; [cbn; by destruct Hst as [->| ->]|done|apply Hc].
Qed.

Lemma status_step :
  tc_Op c = OpResolveStatus →
  match txn_of ns m (tc_Key c) (tc_StartTS c) with
  | Some r => m' = m ∧ x_Decided res = true ∧ x_Rollback res = negb (bool_decide (r_Status r = TxnCommitted)) ∧ x_CommitTS res = r_CommitTS r
  | None => m' = m ∧ x_Decided res = false
      ∨ x_Decided res = true ∧ x_Rollback res = true
        ∧ txn_of ns m' (tc_Key c) (tc_StartTS c) = Some (MkTxnRecord TxnRolledBack (tc_StartTS c) zeroTimestamp)
  end.
Proof using Hro Hc Hset.
  intros Hop. unfold m', res, txn_step, txn_ops, applyTxnTo, stepResult. rewrite Hop. cbv zeta. unfold ResolveLock. cbn [negb l_Primary l_StartTS l_Deadline].
  rewrite (Store_Txn_eq m) by apply map_wf. cbn [contents Map_laws s_ns plain].
  destruct (txn_of ns m (tc_Key c) (tc_StartTS c)) as [r|] eqn:Et; [by destruct (bool_decide _)|].
  destruct (LessEq _ _); [by left|right]. split; [done|]. split; [done|].
  rewrite (PutTxnInto_eq m (map_wf m)) by done. cbn [contents Map_laws s_ns plain r_StartTS]. rewrite Et. cbn [fst app].
  by apply decided_at.
Qed.

Lemma prewrite_step :
  tc_Op c = OpPrewrite → x_Rejected res = false →
  can_prewrite (plain ns mark) m (tc_Key c) (tc_StartTS c)
  ∧ lock_of ns m' (tc_Key c) = Some (MkLock (tc_Primary c) (tc_StartTS c) (tc_Deadline c))
  ∧ m' !! enc ns (KData (tc_Key c) (tc_StartTS c)) = Some (tc_Value c).
Proof using Hro Hc Hset.
  intros Hop Hr. unfold m', res, txn_step, txn_ops, applyTxnTo, stepResult in *. rewrite Hop in *.
  destruct (PrewriteInto_eq m (map_wf m) (tc_Key c) (MkLock (tc_Primary c) (tc_StartTS c) (tc_Deadline c)) (tc_Value c) [] (plain ns mark))
    as (s' & _ & [[Hcan He]|[_ [e He]]]); [done|apply Hc| |]; rewrite He in *; [|done]. cbn [fst app s_ns plain] in *.
  split; [done|]. split.
  - change (lock_of ns ?x ?k) with (x !! enc ns (KLock k) ≫= decodeLock). change (foldl spec_op m ?o !! _) with (after ns m o (KLock (tc_Key c))).
    rewrite (after_prewrite ns m c Hc) by apply (rk_ok_lock c Hc). rewrite decide_False, decide_True by done. cbn [mbind option_bind].
    apply decodeLock_encodeLock. destruct Hc as [? ? [? _] _ [? _] _]. by split_and!.
  - change (foldl spec_op m ?o !! _) with (after ns m o (KData (tc_Key c) (tc_StartTS c))).
    rewrite (after_prewrite ns m c Hc) by (apply (rk_ok_stamp c Hc); [auto|apply Hc]). by rewrite decide_True.
Qed.
End Range.

(** ** A run *)

Section System.
Context {D : Type} `{TimeSource D}.
(** The ranges, with their collection marks, and the bound on clock offsets. *)
Context (rngs : list (RangeDescriptor * Timestamp)) (maxOffset : Z).

Definition nsOf (d : RangeDescriptor) : bytes := rangePrefix (d_ID d).
(** The range that owns a key. *)
Definition home (k : bytes) : option nat := fst <$> list_find (λ d, Contains (fst d) k = true) rngs.

Record sys := MkSys {
  sy_c : coordinator D;
  sy_sent : list TxnCommand;                    (* every command the coordinator has sent *)
  sy_pend : list TxnCommand;                    (* those not applied *)
  sy_ans : list (TxnCommand * TxnResult);       (* answers not yet heard *)
  sy_maps : list (gmap bytes bytes);            (* the ranges' records *)
  sy_hist : list (list TxnCommand);             (* and the steps they have applied *)
  sy_mints : list (Z * Z * Timestamp);          (* timestamps given: the node asked, the one that answered *)
}.
#[global] Instance sys_eta : Eta sys := λ y, MkSys (sy_c y) (sy_sent y) (sy_pend y) (sy_ans y) (sy_maps y) (sy_hist y) (sy_mints y).
#[global] Instance upd_sy_c : Field sy_c := ltac:(derive_field).
#[global] Instance upd_sy_sent : Field sy_sent := ltac:(derive_field).
#[global] Instance upd_sy_pend : Field sy_pend := ltac:(derive_field).
#[global] Instance upd_sy_ans : Field sy_ans := ltac:(derive_field).
#[global] Instance upd_sy_maps : Field sy_maps := ltac:(derive_field).
#[global] Instance upd_sy_hist : Field sy_hist := ltac:(derive_field).
#[global] Instance upd_sy_mints : Field sy_mints := ltac:(derive_field).

Definition sends (os : list output) : list TxnCommand := omap (λ o, match o with OSend _ c => Some c | _ => None end) os.
Definition mints (os : list output) : list (Z * Z * Timestamp) := omap (λ o, match o with OMint a n ts => Some (a, n, ts) | _ => None end) os.

(** The coordinator after an event, and what it put out. *)
Definition absorb (c : coordinator D) (y : sys) : sys :=
  y <| sy_c := c <| co_out := [] |> |> <| sy_sent := sy_sent y ++ sends (co_out c) |> <| sy_pend := sy_pend y ++ sends (co_out c) |>
    <| sy_mints := sy_mints y ++ mints (co_out c) |>.

(** A range applies a command. *)
Definition answerTo (d : RangeDescriptor) (mark : Timestamp) (m : gmap bytes bytes) (c : TxnCommand) : TxnResult :=
  if bool_decide (tc_Op c = OpTxnGet) then answerOf (nsOf d) mark maxOffset (txn_step (nsOf d) mark d m c) c
  else stepResult m (plain (nsOf d) mark) c.
Definition applyAt (i : nat) (c : TxnCommand) (y : sys) : sys :=
  match rngs !! i, sy_maps y !! i, sy_hist y !! i with
  | Some (d, mark), Some m, Some h =>
      y <| sy_maps := <[i := txn_step (nsOf d) mark d m c]> (sy_maps y) |> <| sy_hist := <[i := h ++ [c]]> (sy_hist y) |>
        <| sy_ans := sy_ans y ++ [(c, answerTo d mark m c)] |>
  | _, _, _ => y
  end.

(** The events: a pending command reaches its range, an answer reaches the coordinator,
    the harness acts, the machines behind the clocks do something. *)
Inductive move :=
| MApply (i : nat)
| MAnswer (i : nat) (at_ : Z)
| MAct (x : action) (now : Z)
| MDrivers (ds : list D).

(** A panic of the coordinator is [None]. *)
Definition smove (mv : move) (y : sys) : option sys :=
  match mv with
  | MApply i =>
      Some match sy_pend y !! i with
           | Some c => match home (tc_Key c) with
                       | Some r => applyAt r c (y <| sy_pend := delete i (sy_pend y) |>)
                       | None => y
                       end
           | None => y
           end
  | MAnswer i at_ =>
      match sy_ans y !! i with
      | Some (c, r) => c' ← applied c r at_ (sy_c y); Some (absorb c' (y <| sy_ans := delete i (sy_ans y) |>))
      | None => Some y
      end
  | MAct x now => Some (absorb (perform x now (sy_c y)) y)
  | MDrivers ds => Some (y <| sy_c := sy_c y <| co_drivers := ds |> |>)
  end.
Definition srun (ms : list move) (y : sys) : option sys := foldM (λ y mv, smove mv y) y ms.

Definition start (drivers : list D) (l : Ledger) (nodes accounts transfers : nat) : sys :=
  MkSys (newCoordinator drivers nodes l accounts transfers) [] [] [] (replicate (length rngs) ∅) (replicate (length rngs) []) [].
End System.
