(* ===== verification/BankInv.v ===== *)
(** * The store under a bank run

    The ranges of [BankSystem] seen as one store, what is known of a command and of an
    answer ([cmdFact], [ansFact]), the invariant of the store ([storeOk]), and that one
    application of a command a coordinator may send keeps all of it ([storeOk_step],
    [ansFact_new], [ghostOk_kept]) and is disciplined ([applied_disciplined]). *)

From Stdlib Require Import Lia ZArith.
From stdpp Require Import base tactics numbers option gmap list.
From S2P Require Import Prelude Bytes ConfChange RaftTypes Hlc SimQueue SimLoop SimTransport CheckLedger CheckOracles Engine KvEncoding EngineIface KvStore KvTxn EngineMap StoreCodec CheckTxn StoreReplay StoreTxn StoreRange StoreNode CheckStore BankCoord StoreDriver BankSystem.

Section View.
Context {D : Type} `{TimeSource D}.
Context (rngs : list (RangeDescriptor * Timestamp)) (maxOffset : Z).
Abbreviation sys := (sys (D := D)).
Implicit Types y : sys.

(** ** The ranges as one store *)

(** The namespace, mark and records a key lives in. *)
Definition placeOf (maps : list (gmap bytes bytes)) (k : bytes) : option (bytes * gmap bytes bytes) :=
  i ← home rngs k; '(d, _) ← rngs !! i; m ← maps !! i; Some (nsOf d, m).

Abbreviation maps := (list (gmap bytes bytes)).
Implicit Types w : maps.

Definition lockY w k : option Lock := '(ns, m) ← placeOf w k; lock_of ns m k.
Definition txnY w p s : option TxnRecord := '(ns, m) ← placeOf w p; txn_of ns m p s.
Definition dataY w k s : option bytes := '(ns, m) ← placeOf w k; m !! enc ns (KData k s).
Definition realY w k t st : Prop := ∃ ns m, placeOf w k = Some (ns, m) ∧ real ns m k t st.
Definition answeredY w k T v : Prop := ∃ ns m, placeOf w k = Some (ns, m) ∧ answered ns m k T v.
Definition holdsY w k s : Prop := ∃ l, lockY w k = Some l ∧ l_StartTS l = s.
#[global] Instance holdsY_dec w k s : Decision (holdsY w k s).
Proof.
  destruct (lockY w k) as [l|] eqn:E; [|right; by intros (? & ? & _); congruence].
  destruct (decide (l_StartTS l = s)); [left; by exists l|right; intros (? & ? & ?); congruence].
Defined.

Definition commitsY w (c : TxnCommand) : Prop :=
  tc_Op c = OpCommitKey ∨ tc_Op c = OpApplyResolution ∧ tc_Status c ≠ TxnRolledBack ∧ holdsY w (tc_Key c) (tc_StartTS c).
Definition rollsY w (c : TxnCommand) : Prop :=
  tc_Op c = OpRollbackKey ∨ tc_Op c = OpApplyResolution ∧ tc_Status c = TxnRolledBack ∧ holdsY w (tc_Key c) (tc_StartTS c).

(** What a range's records are like. *)
Definition mapOk (ns : bytes) (m : gmap bytes bytes) : Prop := records_ok ns m ∧ ∀ k, key_ok k → ordered ns m k.
Definition mapsOk w : Prop := ∀ k ns m, placeOf w k = Some (ns, m) → mapOk ns m.

(** One command applied to the range that owns its key. *)
Definition stepW (c : TxnCommand) w : maps :=
  match home rngs (tc_Key c) with
  | Some i => match rngs !! i, w !! i with
              | Some (d, mark), Some m => <[i := txn_step (nsOf d) mark d m c]> w
              | _, _ => w
              end
  | None => w
  end.

Definition markOf (k : bytes) : Timestamp := default zeroTimestamp (i ← home rngs k; snd <$> rngs !! i).
Definition descOf (k : bytes) : RangeDescriptor := default FirstRangeDescriptor (i ← home rngs k; fst <$> rngs !! i).

Definition disciplinedY w (c : TxnCommand) : Prop :=
  (commitsY w c → ts_lt (tc_StartTS c) (tc_CommitTS c)
     ∧ (holdsY w (tc_Key c) (tc_StartTS c) ∨ realY w (tc_Key c) (tc_CommitTS c) (tc_StartTS c)))
  ∧ (rollsY w c → ∀ t st, realY w (tc_Key c) t st → t ≠ tc_StartTS c ∧ st ≠ tc_StartTS c).

Lemma holdsY_at w k ns m s : placeOf w k = Some (ns, m) → holdsY w k s ↔ holds ns m k s = true.
Proof.
  intros Hp. unfold holdsY, lockY, holds. rewrite Hp. cbn. destruct (lock_of ns m k) as [l|].
  - split; [intros (l' & [= <-] & ->); by apply bool_decide_eq_true|intros Hb; bool_hyps; eauto].
  - split; [by intros (? & ? & _)|done].
Qed.
Lemma realY_at w k ns m t st : placeOf w k = Some (ns, m) → realY w k t st ↔ real ns m k t st.
Proof. intros Hp. split; [by intros (ns' & m' & Hp' & Hr); simplify_eq|]. intros Hr. by exists ns, m. Qed.

Lemma realY_fun w k t st st' : realY w k t st → realY w k t st' → st = st'.
Proof. intros (n1 & m1 & P1 & _ & W1) (n2 & m2 & P2 & _ & W2). rewrite P1 in P2. injection P2 as <- <-. congruence. Qed.

(** The place of a key before and after. *)
Lemma placeOf_step c w k ns m :
  placeOf w k = Some (ns, m) →
  (home rngs k ≠ home rngs (tc_Key c) ∧ placeOf (stepW c w) k = Some (ns, m))
  ∨ (home rngs k = home rngs (tc_Key c) ∧ placeOf w (tc_Key c) = Some (ns, m)
     ∧ placeOf (stepW c w) k = Some (ns, txn_step ns (markOf (tc_Key c)) (descOf (tc_Key c)) m c)
     ∧ placeOf (stepW c w) (tc_Key c) = Some (ns, txn_step ns (markOf (tc_Key c)) (descOf (tc_Key c)) m c)).
Proof.
  unfold placeOf, stepW, markOf, descOf. destruct (home rngs k) as [i|] eqn:Hk; cbn; [|done].
  destruct (rngs !! i) as [[d mk]|] eqn:Hd; cbn; [|done]. destruct (w !! i) as [m0|] eqn:Hm; cbn; [|done]. intros [= <- <-].
  destruct (decide (home rngs (tc_Key c) = Some i)) as [Hc|Hc]; rewrite ?Hc; cbn.
  - right. rewrite Hd, Hm. cbn. rewrite list_lookup_insert_eq by (by eapply lookup_lt_Some). done.
  - left. split; [congruence|]. destruct (home rngs (tc_Key c)) as [j|]; [|by rewrite Hm].
    destruct (rngs !! j) as [[d' mk']|]; [|by rewrite Hm]. destruct (w !! j); [|by rewrite Hm].
    rewrite list_lookup_insert_ne by congruence. by rewrite Hm.
Qed.
Lemma placeOf_step_inv c w k ns m : placeOf (stepW c w) k = Some (ns, m) → ∃ m0, placeOf w k = Some (ns, m0).
Proof.
  unfold placeOf, stepW. destruct (home rngs k) as [i|] eqn:Hk; cbn; [|done].
  destruct (rngs !! i) as [[d mk]|] eqn:Hd; cbn; [|done]. destruct (w !! i) as [m0|] eqn:Hm; cbn.
  - intros He. exists m0. destruct ((match home rngs (tc_Key c) with Some _ => _ | None => _ end) !! i); [|done]. by injection He as <- _.
  - destruct (home rngs (tc_Key c)) as [j|]; [|by rewrite Hm]. destruct (rngs !! j) as [[d' mk']|]; [|by rewrite Hm].
    destruct (w !! j) eqn:Hj; [|by rewrite Hm]. rewrite list_lookup_insert_ne by congruence. by rewrite Hm.
Qed.

Section Step.
Context w (c : TxnCommand) (Hw : mapsOk w) (Hc : cmd_ok c).

Lemma commitsY_at ns m : placeOf w (tc_Key c) = Some (ns, m) → commits_key ns m c ↔ commitsY w c.
Proof.
  intros Hp. unfold commits_key, commitsY. assert (He : holdsY w (tc_Key c) (tc_StartTS c) ↔ ∃ l, lock_of ns m (tc_Key c) = Some l ∧ l_StartTS l = tc_StartTS c).
  { unfold holdsY, lockY. by rewrite Hp. } by rewrite He.
Qed.
Lemma rollsY_at ns m : placeOf w (tc_Key c) = Some (ns, m) → rolls_back_key ns m c ↔ rollsY w c.
Proof.
  intros Hp. unfold rolls_back_key, rollsY. assert (He : holdsY w (tc_Key c) (tc_StartTS c) ↔ ∃ l, lock_of ns m (tc_Key c) = Some l ∧ l_StartTS l = tc_StartTS c).
  { unfold holdsY, lockY. by rewrite Hp. } by rewrite He.
Qed.

Lemma disciplinedY_at ns m : placeOf w (tc_Key c) = Some (ns, m) → disciplinedY w c → disciplined ns m c.
Proof.
  intros Hp [H1 H2]. split.
  - intros Hk%(commitsY_at _ _ Hp). destruct (H1 Hk) as [Hlt Hor]. split; [done|]. destruct Hor as [Hh|Hr]; [left; by eapply holdsY_at|right].
    by apply (realY_at _ _ _ _ _ _ Hp) in Hr as [_ ?].
  - intros Hk%(rollsY_at _ _ Hp) t st Hr. apply (H2 Hk). by apply (realY_at _ _ _ _ _ _ Hp).
Qed.

Lemma effect_at ns m :
  placeOf w (tc_Key c) = Some (ns, m) →
  effect ns (markOf (tc_Key c)) m c (txn_ops ns (markOf (tc_Key c)) (descOf (tc_Key c)) m c).
Proof. intros Hp. apply applyTxnTo_effect; [by eapply Hw|apply Hc]. Qed.

Let w' := stepW c w.

(** Lift a fact about one range's step: the key lives elsewhere and nothing changed, or
    here and the range stepped. *)
Ltac lift k :=
  destruct (placeOf w k) as [[ns m]|] eqn:Hp;
  [destruct (placeOf_step c w k ns m Hp) as [[Hne Hp']|(Hh & Hpc & Hp' & Hpc')]
  |assert (Hp' : placeOf (stepW c w) k = None) by
     (destruct (placeOf (stepW c w) k) as [[? ?]|] eqn:E; [|done]; apply placeOf_step_inv in E as [? ?]; congruence)].

Lemma lockY_step k :
  key_ok k →
  lockY w' k = lockY w k
  ∨ (k = tc_Key c ∧ tc_Op c = OpPrewrite ∧ lockY w k = None ∧ (∀ t st, realY w k t st → ts_le t (tc_StartTS c))
     ∧ lockY w' k = Some (MkLock (tc_Primary c) (tc_StartTS c) (tc_Deadline c)))
  ∨ (k = tc_Key c ∧ (commitsY w c ∨ rollsY w c) ∧ holdsY w k (tc_StartTS c) ∧ lockY w' k = None).
Proof using Hw Hc.
  intros Hk. unfold w'. lift k; [left; unfold lockY; by rewrite Hp, Hp'| |left; unfold lockY; by rewrite Hp, Hp'].
  unfold lockY at 1 2 4 5. rewrite Hp, Hp'. cbn.
  destruct (lock_step ns _ m c _ Hc (effect_at ns m Hpc) k Hk) as [Hs|[(-> & Hop & Hcan & Hs)|(-> & Hcr & Hh' & Hs)]].
  - by left.
  - right; left. split_and!; [done|done| | |done].
    + unfold lockY. rewrite Hp. by destruct Hcan as (_ & _ & ? & _).
    + intros t st Hr. apply (realY_at _ _ _ _ _ _ Hp) in Hr as [Ht Hwr]. destruct Hcan as (_ & _ & _ & Hno & _). apply Hno; [done|].
      unfold write_of in Hwr. cbn. by destruct (m !! _).
  - right; right. split_and!; [done| |by eapply holdsY_at|done]. destruct Hcr as [?|?]; [left; by eapply commitsY_at|right; by eapply rollsY_at].
Qed.

Lemma txnY_step p s :
  key_ok p → wall_ok s → (txnY w p s = None ∧ p = tc_Key c ∧ s = tc_StartTS c) ∨ txnY w' p s = txnY w p s.
Proof using Hw Hc.
  intros Hk Hs. unfold w'. lift p; [right; unfold txnY; by rewrite Hp, Hp'| |right; unfold txnY; by rewrite Hp, Hp'].
  unfold txnY. rewrite Hp, Hp'. cbn. by apply (txn_step_of ns _ m c _ Hc (effect_at ns m Hpc)).
Qed.

Lemma txnY_new p s r :
  key_ok p → wall_ok s → txnY w p s = None → txnY w' p s = Some r →
  p = tc_Key c ∧ s = tc_StartTS c ∧ ∃ r', decides c r' ∧ Some r = decodeTxn (encodeTxn r').
Proof using Hw Hc.
  intros Hk Hs. unfold w'. lift p; unfold txnY; rewrite Hp, Hp'; cbn; [congruence| |done]. intros Hn Hr.
  destruct (txn_new ns _ m c _ Hc (effect_at ns m Hpc) p s Hk Hs Hn) as (-> & -> & r' & Hd & He); [by exists r|].
  split; [done|]. split; [done|]. exists r'. split; [done|]. etrans; [symmetry; exact Hr|exact He].
Qed.

Lemma realY_step k t st :
  key_ok k → realY w' k t st →
  realY w k t st ∨ (k = tc_Key c ∧ t = tc_CommitTS c ∧ st = tc_StartTS c ∧ commitsY w c).
Proof using Hw Hc.
  intros Hk (ns' & m' & Hp'' & Ht & Hwr). unfold w' in *. lift k; simplify_eq; [left; eexists _, _; split; [eassumption|by split]|].
  destruct (write_step _ _ _ c _ Hc (effect_at _ _ Hpc) k t Hk Ht) as [Hs|[(-> & -> & Hcom & _ & Hn)|(_ & _ & _ & Hn)]]; unfold txn_step in Hwr.
  - left. eexists _, _. split; [done|]. split; [done|]. unfold write_of in *. by rewrite <- Hs.
  - right. rewrite Hn in Hwr. injection Hwr as <-. split_and!; [done..|by eapply commitsY_at].
  - by rewrite Hn in Hwr.
Qed.

Lemma realY_kept k t st :
  key_ok k → realY w k t st →
  realY w' k t st ∨ (k = tc_Key c ∧ t = tc_CommitTS c ∧ commitsY w c ∧ realY w' k t (tc_StartTS c))
  ∨ (k = tc_Key c ∧ t = tc_StartTS c ∧ rollsY w c).
Proof using Hw Hc.
  intros Hk (ns' & m' & Hp'' & Ht & Hwr). unfold w'. lift k; simplify_eq; [left; eexists _, _; split; [eassumption|by split]|].
  destruct (write_step _ _ _ c _ Hc (effect_at _ _ Hpc) k t Hk Ht) as [Hs|[(-> & -> & Hcom & _ & Hn)|(-> & -> & Hrb & _)]].
  - left. eexists _, _. split; [done|]. split; [done|]. unfold write_of in *. unfold txn_step. by rewrite Hs.
  - right; left. split_and!; [done..|by eapply commitsY_at|]. eexists _, _. split; [done|]. by split.
  - right; right. split_and!; [done..|by eapply rollsY_at].
Qed.

Lemma dataY_step k t :
  key_ok k → wall_ok t →
  dataY w' k t = dataY w k t
  ∨ (k = tc_Key c ∧ t = tc_StartTS c
     ∧ (tc_Op c = OpPrewrite ∧ lockY w k = None ∧ (∀ t' st, realY w k t' st → ts_le t' t) ∨ rollsY w c)).
Proof using Hw Hc.
  intros Hk Ht. unfold w'. lift k; [left; unfold dataY; by rewrite Hp, Hp'| |left; unfold dataY; by rewrite Hp, Hp'].
  unfold dataY, lockY. rewrite Hp, Hp'. cbn.
  destruct (data_step ns _ m c _ Hc (effect_at ns m Hpc) k t Hk Ht) as [Hs|(-> & -> & [[Hop Hcan]|Hrb])]; [by left| |].
  - right. split_and!; [done..|]. left. destruct Hcan as (_ & _ & Hl & Hno & _). split_and!; [done..|].
    intros t' st Hr. apply (realY_at _ _ _ _ _ _ Hp) in Hr as [Ht' Hwr]. apply Hno; [done|]. unfold write_of in Hwr. cbn. by destruct (m !! _).
  - right. split_and!; [done..|]. right. by eapply rollsY_at.
Qed.

(** The four things a step can do to locks, commits and values. *)
Definition sameLocks (but : bytes → Prop) : Prop := ∀ k, key_ok k → ¬ but k → lockY w' k = lockY w k.
Definition sameReals : Prop := ∀ k t st, key_ok k → realY w' k t st ↔ realY w k t st.
Definition sameData : Prop := ∀ k t, key_ok k → wall_ok t → dataY w' k t = dataY w k t.

Inductive outcome : Prop :=
| oc_none : sameLocks (λ _, False) → sameReals → sameData → outcome
| oc_prewrite :
    tc_Op c = OpPrewrite → lockY w (tc_Key c) = None → (∀ t st, realY w (tc_Key c) t st → ts_le t (tc_StartTS c)) →
    lockY w' (tc_Key c) = Some (MkLock (tc_Primary c) (tc_StartTS c) (tc_Deadline c)) → sameLocks (λ k, k = tc_Key c) →
    sameReals → dataY w' (tc_Key c) (tc_StartTS c) = Some (tc_Value c) →
    (∀ k t, key_ok k → wall_ok t → ¬ (k = tc_Key c ∧ t = tc_StartTS c) → dataY w' k t = dataY w k t) → outcome
| oc_commit :
    commitsY w c → (holdsY w (tc_Key c) (tc_StartTS c) → lockY w' (tc_Key c) = None) →
    sameLocks (λ k, k = tc_Key c ∧ holdsY w k (tc_StartTS c)) →
    realY w' (tc_Key c) (tc_CommitTS c) (tc_StartTS c) →
    (∀ k t st, key_ok k → ¬ (k = tc_Key c ∧ t = tc_CommitTS c) → realY w' k t st ↔ realY w k t st) → sameData → outcome
| oc_rollback :
    rollsY w c → (holdsY w (tc_Key c) (tc_StartTS c) → lockY w' (tc_Key c) = None) →
    sameLocks (λ k, k = tc_Key c ∧ holdsY w k (tc_StartTS c)) →
    (∀ k t st, key_ok k → realY w' k t st ↔ realY w k t st ∧ ¬ (k = tc_Key c ∧ t = tc_StartTS c)) →
    (∀ k t, key_ok k → wall_ok t → ¬ (k = tc_Key c ∧ t = tc_StartTS c) → dataY w' k t = dataY w k t) → outcome.

Section Outcome.
Context (ns : bytes) (m : gmap bytes bytes) (Hpc : placeOf w (tc_Key c) = Some (ns, m)).
Let ops := txn_ops ns (markOf (tc_Key c)) (descOf (tc_Key c)) m c.
Let Hpc' : placeOf w' (tc_Key c) = Some (ns, foldl spec_op m ops).
Proof.
  destruct (placeOf_step c w _ _ _ Hpc) as [[? _]|(_ & Hp & _ & Hp')]; [done|]. exact Hp'.
Qed.

(** A record elsewhere is unchanged, and one here is what the batch makes it. *)
Lemma placed k :
  (∃ ns0 m0, placeOf w k = Some (ns0, m0) ∧ placeOf w' k = Some (ns0, m0) ∧ k ≠ tc_Key c)
  ∨ (placeOf w k = Some (ns, m) ∧ placeOf w' k = Some (ns, foldl spec_op m ops))
  ∨ (placeOf w k = None ∧ placeOf w' k = None ∧ k ≠ tc_Key c).
Proof using Hpc.
  destruct (placeOf w k) as [[ns0 m0]|] eqn:Hp.
  - destruct (placeOf_step c w k ns0 m0 Hp) as [[Hne Hp']|(Hh & Hp2 & Hp' & _)].
    + left. exists ns0, m0. split_and!; [done..|congruence].
    + right; left. rewrite Hpc in Hp2. injection Hp2 as -> ->. done.
  - right; right. split_and!; [done| |congruence].
    destruct (placeOf w' k) as [[? ?]|] eqn:E; [|done]. apply placeOf_step_inv in E as [? ?]. congruence.
Qed.

Lemma lockY_by k : after ns m ops (KLock k) = m !! enc ns (KLock k) → lockY w' k = lockY w k.
Proof using Hpc.
  intros He. unfold lockY. destruct (placed k) as [(ns0 & m0 & -> & -> & _)|[[-> ->]|(-> & -> & _)]]; [done| |done]. cbn.
  unfold lock_of. unfold after in He. by rewrite He.
Qed.
Lemma lockY_here : lockY w' (tc_Key c) = after ns m ops (KLock (tc_Key c)) ≫= decodeLock.
Proof using Hpc. unfold lockY. by rewrite Hpc'. Qed.
Lemma realY_by k t st : (wall_ok t → after ns m ops (KWrite k t) = m !! enc ns (KWrite k t)) → realY w' k t st ↔ realY w k t st.
Proof using Hpc.
  intros He. unfold realY. destruct (placed k) as [(ns0 & m0 & -> & -> & _)|[[-> ->]|(-> & -> & _)]]; [done| |done].
  split; intros (? & ? & [= <- <-] & Ht & Hwr); eexists _, _; (split; [done|]); (split; [done|]); unfold write_of, after in *;
    specialize (He Ht); by rewrite He in * || by rewrite <- He in *.
Qed.
Lemma realY_here t st : realY w' (tc_Key c) t st ↔ wall_ok t ∧ (after ns m ops (KWrite (tc_Key c) t) ≫= decodeWrite) = Some (st, false).
Proof using Hpc.
  split; [intros (? & ? & Hp & Ht & Hwr); rewrite Hpc' in Hp; by injection Hp as <- <-|]. intros [Ht Hwr]. eexists _, _. by split; [exact Hpc'|].
Qed.
Lemma dataY_by k t : after ns m ops (KData k t) = m !! enc ns (KData k t) → dataY w' k t = dataY w k t.
Proof using Hpc.
  intros He. unfold dataY. destruct (placed k) as [(ns0 & m0 & -> & -> & _)|[[-> ->]|(-> & -> & _)]]; [done| |done]. exact He.
Qed.
Lemma dataY_here t : dataY w' (tc_Key c) t = after ns m ops (KData (tc_Key c) t).
Proof using Hpc. unfold dataY. by rewrite Hpc'. Qed.

Lemma rkl k : key_ok k → rkey_ok (KLock k).
Proof using. by split. Qed.
Lemma rkw k t : key_ok k → wall_ok t → rkey_ok (KWrite k t).
Proof using. by intros ? []; split. Qed.
Lemma rkd k t : key_ok k → wall_ok t → rkey_ok (KData k t).
Proof using. by intros ? []; split. Qed.

Lemma stepW_outcome : outcome.
Proof using Hw Hc Hpc.
  pose proof (effect_at ns m Hpc) as He. pose proof lockY_by as Lb. pose proof lockY_here as Lh. pose proof realY_by as Rb.
  pose proof realY_here as Rh. pose proof dataY_by as Db. pose proof dataY_here as Dh. fold ops in He. clearbody ops. clear Hpc'.
  pose proof (ck_key _ Hc) as Hkey.
  destruct He as [|Hop Hcan|Hcom Hle|Hrb|r Hnone Hst|r Hop Hnew Hlt].
  - apply oc_none; [intros k _ _; by apply Lb|intros k t st _; by apply Rb|intros k t _ _; by apply Db].
  - apply oc_prewrite; [done|unfold lockY; rewrite Hpc; by destruct Hcan as (_ & _ & ? & _)| | | | | |].
    + intros t st Hr. apply (realY_at _ _ _ _ _ _ Hpc) in Hr as [Ht Hwr]. destruct Hcan as (_ & _ & _ & Hno & _). apply Hno; [done|].
      unfold write_of in Hwr. cbn. by destruct (m !! _).
    + rewrite Lh, (after_prewrite ns m c Hc) by by apply rkl. rewrite decide_False, decide_True by done. cbn [mbind option_bind].
      apply decodeLock_encodeLock. destruct Hc as [? ? [? _] _ [? _] _]. by split_and!.
    + intros k Hk Hne. apply Lb. rewrite (after_prewrite ns m c Hc) by by apply rkl. rewrite !decide_False by congruence. done.
    + intros k t st Hk. apply Rb. intros Ht. rewrite (after_prewrite ns m c Hc) by by apply rkw. by rewrite !decide_False.
    + rewrite Dh, (after_prewrite ns m c Hc) by (apply rkd; [done|apply Hc]). by rewrite decide_True.
    + intros k t Hk Ht Hne. apply Db. rewrite (after_prewrite ns m c Hc) by by apply rkd. rewrite !decide_False; [done|done|].
      intros [= -> ->]. by apply Hne.
  - apply oc_commit; [by eapply commitsY_at| | | | |].
    + intros Hh%(holdsY_at _ _ _ _ _ Hpc). rewrite Lh, (after_commit ns m c Hc) by by apply rkl. rewrite decide_False, bool_decide_eq_true_2 by done.
      by rewrite Hh.
    + intros k Hk Hne. apply Lb. rewrite (after_commit ns m c Hc) by by apply rkl. rewrite decide_False by done.
      case_bool_decide as E; [injection E as ->|done]. destruct (holds _ _ _ _) eqn:Eh; [|done]. exfalso. apply Hne. split; [done|]. by eapply holdsY_at.
    + apply Rh. split; [apply Hc|]. rewrite (after_commit ns m c Hc) by (apply rkw; [done|apply Hc]). rewrite decide_True by done. cbn [mbind option_bind].
      rewrite decodeWrite_encodeWrite; [done|apply Hc].
    + intros k t st Hk Hne. apply Rb. intros Ht. rewrite (after_commit ns m c Hc) by by apply rkw. rewrite decide_False by (intros [= -> ->]; by apply Hne).
      by rewrite bool_decide_eq_false_2.
    + intros k t Hk Ht. apply Db. rewrite (after_commit ns m c Hc) by by apply rkd. by rewrite decide_False, bool_decide_eq_false_2.
  - apply oc_rollback; [by eapply rollsY_at| | | |].
    + intros Hh%(holdsY_at _ _ _ _ _ Hpc). rewrite Lh, (after_rollback ns m c Hc) by by apply rkl. rewrite !decide_False, bool_decide_eq_true_2 by done.
      by rewrite Hh.
    + intros k Hk Hne. apply Lb. rewrite (after_rollback ns m c Hc) by by apply rkl. rewrite !decide_False by done.
      case_bool_decide as E; [injection E as ->|done]. destruct (holds _ _ _ _) eqn:Eh; [|done]. exfalso. apply Hne. split; [done|]. by eapply holdsY_at.
    + intros k t st Hk. destruct (decide (k = tc_Key c ∧ t = tc_StartTS c)) as [[-> ->]|Hne].
      * split; [|by intros [_ []]]. intros [Ht Hwr]%Rh. rewrite (after_rollback ns m c Hc) in Hwr by by apply rkw.
        rewrite decide_False, decide_True in Hwr by done. cbn [mbind option_bind] in Hwr. rewrite decodeWrite_encodeWrite in Hwr; [done|apply Hc].
      * rewrite Rb; [by split; [|intros []]|]. intros Ht. rewrite (after_rollback ns m c Hc) by by apply rkw.
        rewrite !decide_False; [by rewrite bool_decide_eq_false_2|intros [= -> ->]; by apply Hne|done].
    + intros k t Hk Ht Hne. apply Db. rewrite (after_rollback ns m c Hc) by by apply rkd.
      rewrite !decide_False; [by rewrite bool_decide_eq_false_2|done|intros [= -> ->]; by apply Hne].
  - apply oc_none.
    + intros k Hk _. apply Lb. rewrite (after_decide ns m c Hc) by by apply rkl. by rewrite decide_False.
    + intros k t st Hk. apply Rb. intros Ht. rewrite (after_decide ns m c Hc) by by apply rkw. by rewrite decide_False.
    + intros k t Hk Ht. apply Db. rewrite (after_decide ns m c Hc) by by apply rkd. by rewrite decide_False.
  - apply oc_none.
    + intros k Hk _. apply Lb. rewrite (after_mark ns m c Hc r) by (done || by apply rkl). rewrite !decide_False; [done|by destruct r|done].
    + intros k t st Hk. apply Rb. intros Ht. rewrite (after_mark ns m c Hc r) by (done || by apply rkw). rewrite !decide_False; [done|by destruct r|done].
    + intros k t Hk Ht. apply Db. rewrite (after_mark ns m c Hc r) by (done || by apply rkd). rewrite !decide_False; [done|by destruct r|done].
Qed.
End Outcome.

Context (Hd : disciplinedY w c).

Lemma answeredY_step k T v : key_ok k → answeredY w k T v → answeredY w' k T v.
Proof using Hw Hc Hd.
  intros Hk (ns' & m' & Hp'' & Ha). unfold w'. lift k; simplify_eq; [by eexists _, _|]. eexists _, _. split; [done|].
  apply answered_step; [by eapply Hw|done|by apply disciplinedY_at|done|done].
Qed.

Lemma mapsOk_step : mapsOk w'.
Proof using Hw Hc Hd.
  intros k ns' m' Hp''. unfold w' in Hp''. lift k; simplify_eq; [by eapply Hw|]. destruct (Hw _ _ _ Hp) as [Hro Hord]. split; [by apply step_records|].
  intros k2 Hk2 t st [Ht Hwr].
  destruct (write_step _ _ _ c _ Hc (effect_at _ _ Hpc) k2 t Hk2 Ht) as [Hs|[(-> & -> & Hcom & _ & Hn)|(_ & _ & _ & Hn)]]; unfold txn_step in Hwr.
  - apply (Hord k2 Hk2). split; [done|]. unfold write_of in *. by rewrite <- Hs.
  - rewrite Hn in Hwr. injection Hwr as <-. split; [|apply Hc]. apply Hd. by eapply commitsY_at.
  - by rewrite Hn in Hwr.
Qed.
End Step.

(** ** The ghost state

    The transfers that reached their prewrites, as they were then, and what each was
    asked to do afterwards: commit at a timestamp, or roll back. *)

Record ghost := MkGhost { gh_txns : list transfer; gh_dec : Timestamp → option (option Timestamp) }.
Implicit Types G : ghost.
Implicit Types g : transfer.

Definition recN w g : option TxnRecord := txnY w (tf_primary g) (tf_startTS g).
Definition committedAs w g (C : Timestamp) : Prop := ∃ r, recN w g = Some r ∧ r_Status r = TxnCommitted ∧ r_CommitTS r = C.
Definition rolledBack w g : Prop := ∃ r, recN w g = Some r ∧ r_Status r ≠ TxnCommitted.
Definition pinned w g k : Prop := holdsY w k (tf_startTS g) ∨ is_Some (recN w g).

(** The balance a read gave. *)
Definition amount (v : option bytes) : option Z := match v with Some b => fst <$> parseBalance b | None => Some 0 end.

(** A timestamp a clock of the run gives. *)
Record mint_ok (ts : Timestamp) : Prop := MkMintOk {
  mo_wall : wall_ok ts;
  mo_set : Timestamp_IsSet ts = true;
  mo_room : Wall ts + DefaultTTL < 2 ^ 63;
  mo_past : auditLookback ≤ Wall ts;
}.

Context (accts : list bytes) (Haccts : ∀ k, k ∈ accts → key_ok k).

Record tfOk (t : transfer) : Prop := MkTfOk {
  to_from : tf_from t ∈ accts;
  to_to : tf_to t ∈ accts;
  to_keys : tf_keys t = [tf_from t; tf_to t];
  to_primary : tf_primary t = tf_from t;
  to_id : is_i64 (tf_id t);
  to_start : mint_ok (tf_startTS t);
}.

(** What a transfer prewrites is what it read, moved by its amount. *)
Record readOk w g : Prop := MkReadOk {
  ro_tf : tfOk g;
  ro_ne : tf_from g ≠ tf_to g;
  ro_from : ∃ v a, answeredY w (tf_from g) (tf_startTS g) v ∧ amount v = Some a
              ∧ tf_values g !! tf_from g = Some (balance (i64 (a - tf_amount g)) (tf_id g));
  ro_to : ∃ v a, answeredY w (tf_to g) (tf_startTS g) v ∧ amount v = Some a
            ∧ tf_values g !! tf_to g = Some (balance (i64 (a + tf_amount g)) (tf_id g));
}.

Record ghostOk G w : Prop := MkGhostOk {
  go_txn : ∀ g, g ∈ gh_txns G → readOk w g;
  go_nodup : NoDup (gh_txns G);
  go_start : ∀ g g', g ∈ gh_txns G → g' ∈ gh_txns G → tf_startTS g = tf_startTS g' → g = g';
  go_dec : ∀ S C, gh_dec G S = Some (Some C) → ts_lt S C ∧ mint_ok C;
  go_commit : ∀ S C g, gh_dec G S = Some (Some C) → g ∈ gh_txns G → tf_startTS g ≠ C;
  go_once : ∀ S S' C, gh_dec G S = Some (Some C) → gh_dec G S' = Some (Some C) → S = S';
}.

(** ** What is known of a command, and of an answer *)

Definition ofTxn g (c : TxnCommand) : Prop := tc_StartTS c = tf_startTS g ∧ tc_Origin c = tf_origin g.

Definition opFact G w (c : TxnCommand) : Prop :=
  match tc_Op c with
  | OpResolveStatus => ∃ g, g ∈ gh_txns G ∧ tc_StartTS c = tf_startTS g ∧ tc_Key c = tf_primary g
  | OpApplyResolution =>
      ∃ g r, g ∈ gh_txns G ∧ tc_StartTS c = tf_startTS g ∧ recN w g = Some r ∧ (tc_Status c = TxnRolledBack ↔ r_Status r ≠ TxnCommitted)
        ∧ (r_Status r = TxnCommitted → tc_CommitTS c = r_CommitTS r)
  | OpPrewrite => ∃ g, g ∈ gh_txns G ∧ ofTxn g c ∧ tc_Key c ∈ tf_keys g ∧ tc_Primary c = tf_primary g ∧ tf_values g !! tc_Key c = Some (tc_Value c)
  | OpPutTxnRecord =>
      ∃ g, g ∈ gh_txns G ∧ ofTxn g c ∧ tc_Key c = tf_primary g
        ∧ (tc_Status c = TxnRolledBack ∧ gh_dec G (tc_StartTS c) = Some None
           ∨ tc_Status c = TxnCommitted ∧ gh_dec G (tc_StartTS c) = Some (Some (tc_CommitTS c)) ∧ ∀ k, k ∈ tf_keys g → pinned w g k)
  | OpCommitKey => ∃ g, g ∈ gh_txns G ∧ ofTxn g c ∧ tc_Key c ∈ tf_keys g ∧ committedAs w g (tc_CommitTS c)
  | OpRollbackKey => ∃ g, g ∈ gh_txns G ∧ ofTxn g c ∧ tc_Key c ∈ tf_keys g ∧ rolledBack w g
  | _ => True
  end.
Definition cmdFact G w (c : TxnCommand) : Prop := cmd_ok c ∧ opFact G w c.

Definition ansFact G w (c : TxnCommand) (r : TxnResult) : Prop :=
  match tc_Op c with
  | OpTxnGet =>
      (x_Locked r = true → wall_ok (x_LockDeadline r) ∧ ∃ g, g ∈ gh_txns G ∧ x_LockPrimary r = tf_primary g ∧ x_LockStartTS r = tf_startTS g)
      ∧ (x_Locked r = false → x_Uncertain r = false → x_Refused r = false → ∃ v, answeredY w (tc_Key c) (tc_ReadTS c) v ∧ readValue r = amount v)
  | OpResolveStatus =>
      wall_ok (x_CommitTS r)
      ∧ (x_Decided r = true → ∃ g rec, g ∈ gh_txns G ∧ tc_StartTS c = tf_startTS g ∧ recN w g = Some rec
           ∧ x_Rollback r = negb (bool_decide (r_Status rec = TxnCommitted)) ∧ (r_Status rec = TxnCommitted → x_CommitTS r = r_CommitTS rec))
  | OpPrewrite => x_Rejected r = false → ∀ g, g ∈ gh_txns G → tf_startTS g = tc_StartTS c → pinned w g (tc_Key c)
  | OpPutTxnRecord =>
      ∀ g, g ∈ gh_txns G → tf_startTS g = tc_StartTS c →
        if bool_decide (tc_Status c = TxnCommitted) && negb (x_Rejected r) then committedAs w g (tc_CommitTS c) else rolledBack w g
  | _ => True
  end.

(** The command that commits the transaction at [S]. *)
Definition commitsAt (S : Timestamp) (c : TxnCommand) : Prop :=
  tc_Op c = OpPutTxnRecord ∧ tc_Status c = TxnCommitted ∧ tc_StartTS c = S.
#[global] Instance commitsAt_dec S c : Decision (commitsAt S c).
Proof. unfold commitsAt. apply _. Defined.

(** ** The store *)

Record storeOk G w (pend : list TxnCommand) : Prop := MkStoreOkay {
  sk_maps : mapsOk w;
  sk_lock : ∀ k l, key_ok k → lockY w k = Some l →
    wall_ok (l_Deadline l) ∧ ∃ g, g ∈ gh_txns G ∧ l_StartTS l = tf_startTS g ∧ l_Primary l = tf_primary g ∧ k ∈ tf_keys g
      ∧ (rolledBack w g ∨ dataY w k (l_StartTS l) = tf_values g !! k) ∧ ∀ t st, realY w k t st → ts_le t (l_StartTS l);
  sk_real : ∀ k t st, key_ok k → realY w k t st →
    ∃ g, g ∈ gh_txns G ∧ st = tf_startTS g ∧ k ∈ tf_keys g ∧ committedAs w g t ∧ dataY w k st = tf_values g !! k
      ∧ ∀ t' st', realY w k t' st' → t' = t ∨ ts_le t' st ∨ ts_lt t t';
  sk_commit : ∀ g C, g ∈ gh_txns G → committedAs w g C →
    gh_dec G (tf_startTS g) = Some (Some C) ∧ (∀ c, c ∈ pend → ¬ commitsAt (tf_startTS g) c)
    ∧ ∀ k, k ∈ tf_keys g → holdsY w k (tf_startTS g) ∨ realY w k C (tf_startTS g);
  sk_once : ∀ S, (length (filter (commitsAt S) pend) ≤ 1)%nat;
  sk_rec : ∀ g r, g ∈ gh_txns G → recN w g = Some r → wall_ok (r_CommitTS r);
  sk_recof : ∀ p s r, key_ok p → wall_ok s → txnY w p s = Some r → ∃ g, g ∈ gh_txns G ∧ tf_startTS g = s;
}.

Section Apply.
Context G w (pend : list TxnCommand) (HG : ghostOk G w) (HS : storeOk G w pend).
Context (i : nat) (c : TxnCommand) (Hi : pend !! i = Some c) (Hf : cmdFact G w c).
Let w' := stepW c w.
Let Hw := sk_maps _ _ _ HS.
Let Hc : cmd_ok c := proj1 Hf.

Lemma keys_ok g k : g ∈ gh_txns G → k ∈ tf_keys g → key_ok k ∧ k ∈ accts.
Proof using HG Haccts.
  intros Hg Hk. destruct (ro_tf _ _ (go_txn _ _ HG g Hg)) as [Hfr Hto Hks _ _ _]. rewrite Hks in Hk.
  apply elem_of_cons in Hk as [->|Hk]; [by split; [apply Haccts|]|]. apply list_elem_of_singleton in Hk as ->. by split; [apply Haccts|].
Qed.
Lemma primary_ok g : g ∈ gh_txns G → key_ok (tf_primary g) ∧ wall_ok (tf_startTS g) ∧ Timestamp_IsSet (tf_startTS g) = true.
Proof using HG Haccts.
  intros Hg. destruct (ro_tf _ _ (go_txn _ _ HG g Hg)) as [Hfr _ _ Hp _ Hs]. rewrite Hp. split; [by apply Haccts|]. split; apply Hs.
Qed.

Lemma recN_kept g r : g ∈ gh_txns G → recN w g = Some r → recN w' g = Some r.
Proof using HG HS Hf Haccts.
  intros Hg Hr. destruct (primary_ok g Hg) as (Hk & Hs & _).
  destruct (txnY_step w c Hw Hc (tf_primary g) (tf_startTS g) Hk Hs) as [[Hn _]|He]; unfold recN in *; [congruence|]. unfold w'. by rewrite He.
Qed.

(** Which transaction a commit or a rollback of a key is about, and what was decided. *)
Lemma commits_of : commitsY w c → ∃ g, g ∈ gh_txns G ∧ tc_StartTS c = tf_startTS g ∧ committedAs w g (tc_CommitTS c) ∧ (tc_Key c ∈ tf_keys g ∨ holdsY w (tc_Key c) (tc_StartTS c)).
Proof using Hf.
  pose proof (proj2 Hf) as Ho. unfold opFact in Ho. intros [Hop|(Hop & Hst & Hh)]; rewrite Hop in Ho.
  - destruct Ho as (g & Hg & [Hs _] & Hk & Hcm). eauto 10.
  - destruct Ho as (g & r & Hg & Hs & Hr & Hiff & Hct). exists g. split_and!; [done..| |by right].
    destruct (decide (r_Status r = TxnCommitted)) as [Hcm|Hn]; [|by apply Hiff in Hn]. exists r. split_and!; [done..|symmetry; by apply Hct].
Qed.
Lemma rolls_of : rollsY w c → ∃ g, g ∈ gh_txns G ∧ tc_StartTS c = tf_startTS g ∧ rolledBack w g.
Proof using Hf.
  pose proof (proj2 Hf) as Ho. unfold opFact in Ho. intros [Hop|(Hop & Hst & Hh)]; rewrite Hop in Ho.
  - destruct Ho as (g & Hg & [Hs _] & Hk & Hcm). eauto 10.
  - destruct Ho as (g & r & Hg & Hs & Hr & Hiff & Hct). exists g. split_and!; [done..|]. exists r. split; [done|]. by apply Hiff.
Qed.
Lemma not_both g C : committedAs w g C → rolledBack w g → False.
Proof using. intros (r & Hr & Hs & _) (r' & Hr' & Hn). congruence. Qed.

Lemma applied_disciplined : disciplinedY w c.
Proof using HG HS Hf Haccts.
  split.
  - intros Hcm. destruct (commits_of Hcm) as (g & Hg & Hs & Hca & Hk). destruct (sk_commit _ _ _ HS g _ Hg Hca) as (Hdec & _ & Hall).
    rewrite <- Hs in *. split; [by apply (go_dec _ _ HG)|]. destruct Hk as [Hk|Hh]; [by apply Hall|by left].
  - intros Hrb t st Hr. destruct (rolls_of Hrb) as (g & Hg & Hs & Hrl).
    destruct (sk_real _ _ _ HS _ t st (ck_key _ Hc) Hr) as (g' & Hg' & -> & Hk & Hca & _). rewrite Hs.
    destruct (sk_commit _ _ _ HS g' _ Hg' Hca) as (Hdec & _). split.
    + intros ->. by apply (go_commit _ _ HG _ _ g Hdec Hg).
    + intros He. apply (go_start _ _ HG) in He as ->; [|done|done]. by eapply not_both.
Qed.

(** *** What stays true *)

Lemma holds_kept k g : key_ok k → g ∈ gh_txns G → holdsY w k (tf_startTS g) → holdsY w' k (tf_startTS g) ∨ is_Some (recN w g).
Proof using HG HS Hf Haccts.
  intros Hk Hg Hh. destruct (lockY_step w c Hw Hc k Hk) as [He|[(-> & _ & Hn & _)|(-> & Hcr & Hh' & _)]].
  - left. destruct Hh as (l & Hl & Hs). exists l. by rewrite <- He in Hl.
  - destruct Hh as (l & Hl & _). congruence.
  - right. destruct Hh as (l & Hl & Hs), Hh' as (l' & Hl' & Hs'). assert (tc_StartTS c = tf_startTS g) as Hst by congruence.
    destruct Hcr as [(g' & Hg' & He & (r & Hr & _) & _)%commits_of|(g' & Hg' & He & (r & Hr & _))%rolls_of];
      (assert (g' = g) as -> by (apply (go_start _ _ HG); [done|done|congruence])); by exists r.
Qed.
Lemma pinned_kept g k : g ∈ gh_txns G → k ∈ tf_keys g → pinned w g k → pinned w' g k.
Proof using HG HS Hf Haccts.
  intros Hg Hk [Hh|[r Hr]]; [|right; exists r; by apply recN_kept]. destruct (holds_kept k g) as [?|[r Hr]]; [by eapply keys_ok|done|done|by left|].
  right. exists r. by apply recN_kept.
Qed.
Lemma committed_kept g C : g ∈ gh_txns G → committedAs w g C → committedAs w' g C.
Proof using HG HS Hf Haccts. intros Hg (r & Hr & Hs). exists r. split; [by apply recN_kept|done]. Qed.
Lemma rolled_kept g : g ∈ gh_txns G → rolledBack w g → rolledBack w' g.
Proof using HG HS Hf Haccts. intros Hg (r & Hr & Hs). exists r. split; [by apply recN_kept|done]. Qed.

Lemma opFact_kept d : opFact G w d → opFact G w' d.
Proof using HG HS Hf Haccts.
  unfold opFact. destruct (tc_Op d); [..|done].
  - done.
  - intros (g & Hg & Ho & Hk & Hcm). exists g. split_and!; [done..|by apply committed_kept].
  - intros (g & Hg & Ho & Hk & Hcm). exists g. split_and!; [done..|by apply rolled_kept].
  - intros (g & Hg & Ho & Hk & [?|(Hst & Hdec & Hp)]); exists g; (split_and!; [done..|]); [by left|right].
    split_and!; [done..|]. intros k Hkk. by apply pinned_kept; [| |apply Hp].
  - done.
  - done.
  - intros (g & r & Hg & Hs & Hr & Hrest). exists g, r. split_and!; [done..| |apply Hrest|apply Hrest]. by apply recN_kept.
Qed.
Lemma cmdFact_kept d : cmdFact G w d → cmdFact G w' d.
Proof using HG HS Hf Haccts. intros [? ?]. split; [done|by apply opFact_kept]. Qed.

Lemma answered_kept k T v : key_ok k → answeredY w k T v → answeredY w' k T v.
Proof using HG HS Hf Haccts. intros Hk. apply answeredY_step; [done|done|exact applied_disciplined|done]. Qed.

Lemma ansFact_kept d r : cmdFact G w d → ansFact G w d r → ansFact G w' d r.
Proof using HG HS Hf Haccts.
  intros [Hd Ho]. unfold ansFact, opFact in *. destruct (tc_Op d).
  - intros Ha Hr g Hg Hs. destruct Ho as (g' & Hg' & [Hs' _] & Hk & _). assert (g' = g) as -> by (apply (go_start _ _ HG); [done|done|congruence]).
    by apply pinned_kept; [| |apply Ha].
  - done.
  - done.
  - intros Ha g Hg Hs. specialize (Ha g Hg Hs). destruct (_ && _); [by apply committed_kept|by apply rolled_kept].
  - intros [H1 H2]. split; [done|]. intros Hl Hu Hr. destruct (H2 Hl Hu Hr) as (v & Hv & He). exists v. split; [|done]. apply answered_kept; [apply Hd|done].
  - intros [H0 H1]. split; [done|]. intros Hdd. destruct (H1 Hdd) as (g & rec & Hg & Hs & Hr & Hrest). exists g, rec. split_and!; [done..| |apply Hrest|apply Hrest]. by apply recN_kept.
  - done.
  - done.
Qed.
Lemma readOk_kept g : readOk w g → readOk w' g.
Proof using HG HS Hf Haccts.
  intros [Ht Hn (v & a & Ha & Hr) (v2 & a2 & Ha2 & Hr2)]. split; [done|done| |].
  - exists v, a. split; [|done]. apply answered_kept; [apply Haccts, Ht|done].
  - exists v2, a2. split; [|done]. apply answered_kept; [apply Haccts, Ht|done].
Qed.
Lemma ghostOk_kept : ghostOk G w'.
Proof using HG HS Hf Haccts. destruct HG. split; try done. intros g Hg. apply readOk_kept. auto. Qed.

(** *** The store after the step *)

Context (ns : bytes) (m : gmap bytes bytes) (Hp : placeOf w (tc_Key c) = Some (ns, m)).
Let Ho : outcome w c := stepW_outcome w c Hw Hc ns m Hp.

(** A commit of a key finds the transaction holding it, or already committed there. *)
Lemma commit_held : commitsY w c →
  ∃ g, g ∈ gh_txns G ∧ tc_StartTS c = tf_startTS g ∧ tc_Key c ∈ tf_keys g ∧ committedAs w g (tc_CommitTS c) ∧ ts_lt (tc_StartTS c) (tc_CommitTS c)
    ∧ (realY w (tc_Key c) (tc_CommitTS c) (tc_StartTS c)
       ∨ holdsY w (tc_Key c) (tc_StartTS c) ∧ dataY w (tc_Key c) (tc_StartTS c) = tf_values g !! tc_Key c
         ∧ ∀ t st, realY w (tc_Key c) t st → ts_le t (tc_StartTS c)).
Proof using HG HS Hf Haccts.
  intros Hcm. destruct (commits_of Hcm) as (g & Hg & Hs & Hca & Hk). destruct (proj1 applied_disciplined Hcm) as [Hlt Hor].
  assert (Hheld : holdsY w (tc_Key c) (tc_StartTS c) → tc_Key c ∈ tf_keys g ∧ dataY w (tc_Key c) (tc_StartTS c) = tf_values g !! tc_Key c
    ∧ ∀ t st, realY w (tc_Key c) t st → ts_le t (tc_StartTS c)).
  { intros (l & Hl & Hls). destruct (sk_lock _ _ _ HS _ l (ck_key _ Hc) Hl) as (_ & g' & Hg' & Hs' & _ & Hk' & Hd & Hle).
    assert (g' = g) as -> by (apply (go_start _ _ HG); [done|done|congruence]). rewrite Hls in *. destruct Hd as [Hd|Hd]; [|done].
    by destruct (not_both g (tc_CommitTS c)). }
  exists g. split_and!; [done|done| |done|done|].
  - destruct Hk as [Hk|Hh]; [done|by apply Hheld].
  - destruct Hor as [Hh|Hr]; [right|by left]. by destruct (Hheld Hh) as (_ & ? & ?).
Qed.

Lemma start_wall g : g ∈ gh_txns G → wall_ok (tf_startTS g).
Proof using HG Haccts. intros Hg. by apply primary_ok. Qed.

Lemma real_lt k t st : key_ok k → realY w k t st → ts_lt st t.
Proof using HG HS.
  intros Hk Hr. destruct (sk_real _ _ _ HS k t st Hk Hr) as (g & Hg & -> & _ & Hca & _).
  by apply (go_dec _ _ HG), (sk_commit _ _ _ HS g t Hg Hca).
Qed.

(** The value under a commit is not touched. *)
Lemma data_under k t st : key_ok k → realY w k t st → dataY w' k st = dataY w k st.
Proof using HG HS Hf Haccts.
  intros Hk Hr. destruct (sk_real _ _ _ HS k t st Hk Hr) as (g & Hg & -> & Hkk & Hca & _).
  destruct (dataY_step w c Hw Hc k (tf_startTS g) Hk (start_wall g Hg)) as [?|(-> & Hst & [(_ & _ & Hle)|Hrb])]; [done| |].
  - exfalso. apply (ts_lt_not_le _ _ (real_lt _ _ _ Hk Hr)). by apply (Hle _ _ Hr).
  - destruct (rolls_of Hrb) as (g' & Hg' & Hs' & Hrl). assert (g' = g) as -> by (apply (go_start _ _ HG); [done|done|congruence]).
    by destruct (not_both g t).
Qed.

Lemma lock_after k l : key_ok k → lockY w' k = Some l →
    wall_ok (l_Deadline l) ∧ ∃ g, g ∈ gh_txns G ∧ l_StartTS l = tf_startTS g ∧ l_Primary l = tf_primary g ∧ k ∈ tf_keys g
      ∧ (rolledBack w' g ∨ dataY w' k (l_StartTS l) = tf_values g !! k) ∧ ∀ t st, realY w' k t st → ts_le t (l_StartTS l).
Proof using HG HS Hf Haccts Hp.
  intros Hk Hl. unfold w' in *.
  (* an old lock, with nothing new committed under it *)
  assert (Hold : lockY w k = Some l → (∀ t st, realY w' k t st → realY w k t st) → dataY w' k (l_StartTS l) = dataY w k (l_StartTS l) ∨ rollsY w c ∧ l_StartTS l = tc_StartTS c →
    wall_ok (l_Deadline l) ∧ ∃ g, g ∈ gh_txns G ∧ l_StartTS l = tf_startTS g ∧ l_Primary l = tf_primary g ∧ k ∈ tf_keys g
      ∧ (rolledBack w' g ∨ dataY w' k (l_StartTS l) = tf_values g !! k) ∧ ∀ t st, realY w' k t st → ts_le t (l_StartTS l)).
  { intros Hlo Hr Hdat. destruct (sk_lock _ _ _ HS k l Hk Hlo) as (Hwl & g & Hg & Hs & Hpr & Hkk & Hd & Hle). split; [done|]. exists g.
    split_and!; [done|done|done|done| |intros t st ?; by eapply Hle, Hr]. destruct Hd as [Hd|Hd]; [left; by apply rolled_kept|]. destruct Hdat as [->|[Hrb Hst]]; [by right|left].
    destruct (rolls_of Hrb) as (g' & Hg' & Hs' & Hrl). assert (g' = g) as -> by (apply (go_start _ _ HG); [done|done|congruence]). by apply rolled_kept. }
  assert (Hwl : ∀ l, lockY w k = Some l → wall_ok (l_StartTS l)).
  { intros l0 Hl0. destruct (sk_lock _ _ _ HS k l0 Hk Hl0) as (_ & g & Hg & -> & _). by apply start_wall. }
  destruct Ho as [HL HR HD|Hop Hno Hle Hlk HL HR Hdv HD|Hcm Hrel HL Hnew HR HD|Hrb Hrel HL HR HD].
  - rewrite HL in Hl by (done || intros []). apply Hold; [done|intros t st; by apply HR|left; apply HD; [done|by apply Hwl]].
  - destruct (decide (k = tc_Key c)) as [->|Hne].
    + rewrite Hlk in Hl. injection Hl as <-. cbn [l_Deadline l_StartTS l_Primary]. split; [apply Hc|].
      pose proof (proj2 Hf) as Hof. unfold opFact in Hof. rewrite Hop in Hof. destruct Hof as (g & Hg & [Hs _] & Hkk & Hpr & Hv).
      exists g. split_and!; [done..|right; by rewrite Hdv|]. intros t st Hr%HR; [by eapply Hle|done].
    + rewrite HL in Hl by done. apply Hold; [done|intros t st; by apply HR|left; apply HD; [done|by apply Hwl|intros [? _]; congruence]].
  - destruct (decide (k = tc_Key c ∧ holdsY w k (tc_StartTS c))) as [[-> Hh]|Hne]; [by rewrite Hrel in Hl|].
    rewrite HL in Hl by done. apply Hold; [done| |left; apply HD; [done|by apply Hwl]]. intros t st Hr.
    destruct (decide (k = tc_Key c ∧ t = tc_CommitTS c)) as [[-> ->]|Hn2]; [|by apply HR].
    destruct (commit_held Hcm) as (g & _ & _ & _ & _ & _ & [Hro|[Hh _]]); [|destruct Hne; by split].
    by rewrite (realY_fun _ _ _ _ _ Hr Hnew).
  - destruct (decide (k = tc_Key c ∧ holdsY w k (tc_StartTS c))) as [[-> Hh]|Hne]; [by rewrite Hrel in Hl|].
    rewrite HL in Hl by done. apply Hold; [done|intros t st Hr; by apply HR in Hr as [? _]|].
    destruct (decide (k = tc_Key c ∧ l_StartTS l = tc_StartTS c)) as [[-> He]|Hn2]; [by right|left; apply HD; [done|by apply Hwl|done]].
Qed.

(** Commits after the step: those before it, and the one it makes, which is above every
    other. *)
Lemma real_new_cases k t st : key_ok k → realY w' k t st →
  realY w k t st
  ∨ (k = tc_Key c ∧ t = tc_CommitTS c ∧ st = tc_StartTS c ∧ commitsY w c ∧ dataY w' k st = dataY w k st
     ∧ ∃ g, g ∈ gh_txns G ∧ st = tf_startTS g ∧ k ∈ tf_keys g ∧ committedAs w g t ∧ dataY w k st = tf_values g !! k ∧ ts_lt st t
       ∧ ∀ t' st', realY w k t' st' → ts_le t' st).
Proof using HG HS Hf Haccts Hp.
  intros Hk Hr. unfold w' in *. destruct Ho as [HL HR HD|Hop Hno Hle Hlk HL HR Hdv HD|Hcm Hrel HL Hnew HR HD|Hrb Hrel HL HR HD].
  - left. by apply HR.
  - left. by apply HR.
  - destruct (decide (k = tc_Key c ∧ t = tc_CommitTS c)) as [[-> ->]|Hn2]; [|left; by apply HR].
    rewrite (realY_fun _ _ _ _ _ Hr Hnew). destruct (commit_held Hcm) as (g & Hg & Hs & Hkk & Hca & Hlt & [Hro|(Hh & Hd & Hle)]); [by left|right].
    split_and!; [done..|apply HD; [done|apply Hc]|]. exists g. by split_and!.
  - left. by apply HR in Hr as [? _].
Qed.

Lemma real_after k t st : key_ok k → realY w' k t st →
    ∃ g, g ∈ gh_txns G ∧ st = tf_startTS g ∧ k ∈ tf_keys g ∧ committedAs w' g t ∧ dataY w' k st = tf_values g !! k
      ∧ ∀ t' st', realY w' k t' st' → t' = t ∨ ts_le t' st ∨ ts_lt t t'.
Proof using HG HS Hf Haccts Hp.
  intros Hk Hr. destruct (real_new_cases k t st Hk Hr) as [Hro|(-> & -> & -> & Hcm & Hdk & g & Hg & Hs & Hkk & Hca & Hd & Hlt & Hle)].
  - destruct (sk_real _ _ _ HS k t st Hk Hro) as (g & Hg & Hs & Hkk & Hca & Hd & Hch). exists g.
    split_and!; [done|done|done|by apply committed_kept|by rewrite (data_under k t st)|]. intros t' st' Hr'.
    destruct (real_new_cases k t' st' Hk Hr') as [Ho'|(-> & -> & -> & _ & _ & g' & _ & _ & _ & _ & _ & Hlt & Hle)]; [by eapply Hch|].
    right; right. eapply ts_le_lt; [by eapply Hle|done].
  - exists g. split_and!; [done|done|done|by apply committed_kept|by rewrite Hdk|]. intros t' st' Hr'.
    destruct (real_new_cases _ t' st' Hk Hr') as [Ho'|(_ & -> & _)]; [right; left; by eapply Hle|by left].
Qed.

(** *** The record a decision leaves *)

Lemma set_start : tc_Op c = OpPutTxnRecord ∨ tc_Op c = OpResolveStatus ∨ tc_Op c = OpPrewrite → Timestamp_IsSet (tc_StartTS c) = true.
Proof using HG Hf Haccts.
  pose proof (proj2 Hf) as Hof. unfold opFact in Hof. intros [Hop|[Hop|Hop]]; rewrite Hop in Hof.
  - destruct Hof as (g & Hg & [-> _] & _). by apply primary_ok.
  - destruct Hof as (g & Hg & -> & _). by apply primary_ok.
  - destruct Hof as (g & Hg & [-> _] & _). by apply primary_ok.
Qed.

Lemma txnY_here w0 n0 m0 s0 : placeOf w0 (tc_Key c) = Some (n0, m0) → txnY w0 (tc_Key c) s0 = txn_of n0 m0 (tc_Key c) s0.
Proof using. intros Hp0. unfold txnY. by rewrite Hp0. Qed.

Let Hp' : placeOf w' (tc_Key c) = Some (ns, txn_step ns (markOf (tc_Key c)) (descOf (tc_Key c)) m c).
Proof. destruct (placeOf_step c w _ _ _ Hp) as [[? _]|(_ & _ & _ & Hq)]; [done|]. exact Hq. Qed.
Let res := stepResult m (plain ns (markOf (tc_Key c))) c.

Lemma put_cases : tc_Op c = OpPutTxnRecord →
  ∃ g, g ∈ gh_txns G ∧ tc_StartTS c = tf_startTS g ∧ tc_Key c = tf_primary g
    ∧ ((rolledBack w g ∧ rolledBack w' g ∧ x_Rejected res = true)
       ∨ (recN w g = None ∧ recN w' g = Some (MkTxnRecord (tc_Status c) (tc_StartTS c) (tc_CommitTS c)) ∧ x_Rejected res = false
          ∧ (tc_Status c = TxnRolledBack
             ∨ tc_Status c = TxnCommitted ∧ gh_dec G (tf_startTS g) = Some (Some (tc_CommitTS c)) ∧ ∀ k, k ∈ tf_keys g → holdsY w k (tf_startTS g)))).
Proof using HG HS Hf Haccts Hp Hi.
  intros Hop. pose proof (proj2 Hf) as Hof. unfold opFact in Hof. rewrite Hop in Hof. destruct Hof as (g & Hg & [Hs _] & Hk & Hst).
  exists g. split_and!; [done..|].
  assert (Hcs : tc_Status c = TxnCommitted → Timestamp_IsSet (tc_CommitTS c) = true).
  { destruct Hst as [[-> _]|(_ & Hdec & _)]; [done|]. intros _. by apply (go_dec _ _ HG) in Hdec as [_ []]. }
  assert (Hset : Timestamp_IsSet (tc_StartTS c) = true) by (apply set_start; by left).
  pose proof (put_step ns (markOf (tc_Key c)) (descOf (tc_Key c)) m c (proj1 (Hw _ _ _ Hp)) Hc Hset Hop) as Hput.
  specialize (Hput ltac:(destruct Hst as [[? _]|(? & _)]; auto) Hcs). unfold recN. rewrite <- Hk, <- Hs. rewrite (txnY_here w ns m), (txnY_here w' _ _ _ Hp') by done.
  assert (Hrec : recN w g = txn_of ns m (tc_Key c) (tc_StartTS c)) by (unfold recN; rewrite <- Hk, <- Hs; by apply txnY_here).
  destruct (txn_of ns m (tc_Key c) (tc_StartTS c)) as [r|] eqn:Et.
  - left. destruct Hput as [_ Hrej]. assert (Hrb : rolledBack w g).
    { exists r. split; [done|]. intros Hcm. destruct (sk_commit _ _ _ HS g (r_CommitTS r) Hg) as (Hdec & Hnp & _); [by exists r|].
      destruct Hst as [[_ Hd]|(Hd & _)]; [rewrite Hs in Hd; congruence|]. apply (Hnp c); [by eapply list_elem_of_lookup_2|by split_and!]. }
    split_and!; [done|by apply rolled_kept|done].
  - right. destruct Hput as [Hnew Hrej]. split_and!; [done..|]. destruct Hst as [[? _]|(Hcm & Hdec & Hpin)]; [by left|right]. rewrite Hs in Hdec |- *.
    split_and!; [done..|]. intros k Hkk. destruct (Hpin k Hkk) as [?|[r Hr]]; [done|congruence].
Qed.

(** Where a record appears: a decision of this command. *)
Lemma rec_cases g r : g ∈ gh_txns G → recN w' g = Some r →
  recN w g = Some r
  ∨ recN w g = None ∧ tc_StartTS c = tf_startTS g ∧ wall_ok (r_CommitTS r)
    ∧ (r_Status r ≠ TxnCommitted
       ∨ tc_Op c = OpPutTxnRecord ∧ tc_Status c = TxnCommitted ∧ gh_dec G (tf_startTS g) = Some (Some (r_CommitTS r)) ∧ ∀ k, k ∈ tf_keys g → holdsY w k (tf_startTS g)).
Proof using HG HS Hf Haccts Hp Hi.
  intros Hg Hr. destruct (primary_ok g Hg) as (Hpk & Hpw & _).
  destruct (recN w g) as [r0|] eqn:E0; [left; rewrite (recN_kept g r0 Hg E0) in Hr; congruence|right]. split; [done|].
  destruct (txnY_new w c Hw Hc _ _ r Hpk Hpw E0 Hr) as (Hkey & Hst & r' & [[Hop ->]|[Hop ->]] & Hdec).
  - split; [done|]. destruct (put_cases Hop) as (g' & Hg' & Hs' & _ & Hor). assert (g' = g) as -> by (apply (go_start _ _ HG); [done|done|congruence]).
    destruct Hor as [((r1 & Hr1 & _) & _)|(_ & Hn & _ & Hcs)]; [congruence|]. rewrite Hr in Hn. injection Hn as ->. cbn [r_CommitTS r_Status].
    split; [apply Hc|]. destruct Hcs as [->|(-> & Hd & Hh)]; [by left|right]. by split_and!.
  - rewrite decodeTxn_encodeTxn in Hdec; [|split; [done|split; [apply Hc|by vm_compute]]]. injection Hdec as ->. split; [done|]. split; [by vm_compute|by left].
Qed.

Lemma commit_after g C : g ∈ gh_txns G → committedAs w' g C →
    gh_dec G (tf_startTS g) = Some (Some C) ∧ (∀ d, d ∈ delete i pend → ¬ commitsAt (tf_startTS g) d)
    ∧ ∀ k, k ∈ tf_keys g → holdsY w' k (tf_startTS g) ∨ realY w' k C (tf_startTS g).
Proof using HG HS Hf Haccts Hp Hi.
  intros Hg (r & Hr & Hcm & Hct).
  destruct (rec_cases g r Hg Hr) as [Hro|(Hn & Hst & _ & [?|(Hop & Hsc & Hdec & Hall)])]; [|done|].
  - destruct (sk_commit _ _ _ HS g C Hg) as (Hdec & Hnp & Hall); [by exists r|]. split_and!; [done|intros d Hd; apply Hnp; rewrite (delete_Permutation pend i c Hi); by right|].
    intros k Hk. destruct (keys_ok g k Hg Hk) as [Hkk _]. unfold w'.
    destruct Ho as [HL HR HD|Hop Hno Hle Hlk HL HR Hdv HD|Hcy Hrel HL Hnew HR HD|Hrb Hrel HL HR HD].
    + destruct (Hall k Hk) as [(l & Hl & ?)|?]; [left; exists l; rewrite HL by (done || intros []); done|right; by apply HR].
    + destruct (Hall k Hk) as [(l & Hl & ?)|?]; [left|right; by apply HR]. exists l. rewrite HL; [done|done|]. intros ->. congruence.
    + destruct (commits_of Hcy) as (g' & Hg' & Hs' & Hca' & _).
      assert (Hsame : k = tc_Key c → tc_StartTS c = tf_startTS g → realY (stepW c w) k C (tf_startTS g)).
      { intros -> Hse. assert (g' = g) as -> by (apply (go_start _ _ HG); [done|done|congruence]). destruct Hca' as (r' & Hr' & _ & Hct').
        rewrite <- Hse. replace C with (tc_CommitTS c) by congruence. done. }
      destruct (Hall k Hk) as [(l & Hl & Hls)|Hre].
      * destruct (decide (k = tc_Key c ∧ holdsY w k (tc_StartTS c))) as [[-> (l' & Hl' & Hls')]|Hne]; [right; apply Hsame; congruence|].
        left. exists l. by rewrite HL.
      * right. destruct (decide (k = tc_Key c ∧ C = tc_CommitTS c)) as [[-> ->]|Hne]; [|by apply HR].
        apply Hsame; [done|]. rewrite Hs'. f_equal.
        destruct (sk_commit _ _ _ HS g' _ Hg' Hca') as (Hd' & _). apply (go_start _ _ HG); [done..|]. by eapply (go_once _ _ HG).
    + destruct (rolls_of Hrb) as (g' & Hg' & Hs' & Hrl).
      destruct (Hall k Hk) as [(l & Hl & Hls)|Hre].
      * left. exists l. rewrite HL; [done|done|]. intros [-> (l' & Hl' & Hls')].
        assert (g' = g) as -> by (apply (go_start _ _ HG); [done|done|congruence]). apply (not_both g C); [by exists r|done].
      * right. apply HR; [done|]. split; [done|]. intros [-> ->]. apply (go_commit _ _ HG _ _ g' Hdec Hg'). congruence.
  - subst C. split_and!; [done| |].
    + intros d Hd Hda. assert (Hcc : commitsAt (tf_startTS g) c) by by split_and!. pose proof (sk_once _ _ _ HS (tf_startTS g)) as Hon.
      rewrite (delete_Permutation pend i c Hi) in Hon. rewrite filter_cons_True in Hon by done. cbn [length] in Hon.
      assert (Hin : d ∈ filter (commitsAt (tf_startTS g)) (delete i pend)) by by apply list_elem_of_filter.
      destruct (filter _ (delete i pend)); [by apply elem_of_nil in Hin|cbn in Hon; lia].
    + intros k Hk. left. destruct (holds_kept k g) as [?|[? ?]]; [by eapply keys_ok|done|by apply Hall|done|congruence].
Qed.

Lemma storeOk_step : storeOk G w' (delete i pend).
Proof using HG HS Hf Haccts Hp Hi.
  split.
  - apply mapsOk_step; [done|done|exact applied_disciplined].
  - exact lock_after.
  - exact real_after.
  - exact commit_after.
  - intros S. pose proof (sk_once _ _ _ HS S) as Hon. rewrite (delete_Permutation pend i c Hi) in Hon. rewrite filter_cons in Hon.
    destruct (decide _); cbn [length] in Hon; lia.
  - intros g r Hg Hr. destruct (rec_cases g r Hg Hr) as [Hro|(_ & _ & ? & _)]; [by eapply (sk_rec _ _ _ HS)|done].
  - intros p s r Hpk Hps Hr. destruct (txnY w p s) as [r0|] eqn:E0; [by eapply (sk_recof _ _ _ HS)|].
    destruct (txnY_new w c Hw Hc p s r Hpk Hps E0 Hr) as (_ & -> & r' & [[Hop _]|[Hop _]] & _); pose proof (proj2 Hf) as Hof; unfold opFact in Hof;
      rewrite Hop in Hof; destruct Hof as (g & Hg & Hof); exists g; (split; [done|]); symmetry; apply Hof.
Qed.

(** *** The answer *)

Lemma get_fact : tc_Op c = OpTxnGet →
  ansFact G w' c (answerOf ns (markOf (tc_Key c)) maxOffset (txn_step ns (markOf (tc_Key c)) (descOf (tc_Key c)) m c) c).
Proof using HG HS Hf Haccts Hp Hi.
  intros Hop. unfold ansFact. rewrite Hop. set (m2 := txn_step ns _ _ m c). pose proof storeOk_step as HS'.
  assert (Hm2 : mapOk ns m2) by (apply (sk_maps _ _ _ HS' _ _ _ Hp')). destruct Hm2 as [Hro2 Hord2].
  pose proof (GetTxn_answer m2 (tc_Key c) (tc_ReadTS c) (ceilingOf maxOffset c) (plain ns (markOf (tc_Key c))) (map_wf m2) (ro_writes _ _ Hro2) (ck_key _ Hc)) as Hg.
  cbn [contents Map_laws s_ns plain] in Hg. unfold answerOf.
  inversion Hg as [Hs Heq|Hs Hle Heq|l Hs Hlt Hl Hle Heq|r Hs Hlt Hl Hres Heq]; cbn [readResult].
  - by split; [|].
  - by split; [|].
  - split; [|done]. intros _. assert (Hly : lockY w' (tc_Key c) = Some l) by (unfold lockY; rewrite Hp'; exact Hl).
    destruct (sk_lock _ _ _ HS' _ l (ck_key _ Hc) Hly) as (Hwd & g & Hgg & Hsg & Hpg & _). split; [done|]. exists g. by split_and!.
  - destruct (fst (GetTxn _ _ _ _ _)) as [v|err] eqn:Ev; rewrite ?Ev; subst r.
    + destruct Hres as [Hview _]. split; [by destruct v|]. intros _ _ _. exists v. split; [|by destruct v].
      eexists _, _. split; [exact Hp'|]. split; [done|by apply read_leaves_mark; [apply (Hw _ _ _ Hp)|..]|intros l El; left; by apply Hl|by apply Hord2, Hc].
    + destruct err; try done; cbn [readResult]; by split.
Qed.

Lemma ansFact_new :
  ansFact G w' c (if bool_decide (tc_Op c = OpTxnGet)
                  then answerOf ns (markOf (tc_Key c)) maxOffset (txn_step ns (markOf (tc_Key c)) (descOf (tc_Key c)) m c) c
                  else res).
Proof using HG HS Hf Haccts Hp Hi.
  case_bool_decide as Hget; [by apply get_fact|]. unfold ansFact. destruct (tc_Op c) eqn:Hop; try done.
  - intros Hrej g Hg Hs. assert (Hset : Timestamp_IsSet (tc_StartTS c) = true) by (apply set_start; by right; right).
    destruct (prewrite_step ns (markOf (tc_Key c)) (descOf (tc_Key c)) m c (proj1 (Hw _ _ _ Hp)) Hc Hset Hop Hrej) as (_ & Hl & _).
    left. eexists. split; [unfold lockY; rewrite Hp'; exact Hl|]. done.
  - intros g Hg Hs. destruct (put_cases Hop) as (g' & Hg' & Hs' & Hk & Hor). assert (g' = g) as -> by (apply (go_start _ _ HG); [done|done|congruence]).
    destruct Hor as [(_ & Hrb & ->)|(_ & Hn & -> & Hcs)]; [by rewrite andb_false_r|]. rewrite andb_true_r.
    destruct Hcs as [Hst|[Hst _]]; rewrite Hst in *; [rewrite bool_decide_eq_false_2 by done|rewrite bool_decide_eq_true_2 by done];
      eexists; (split; [exact Hn|]); done.
  - assert (Hset : Timestamp_IsSet (tc_StartTS c) = true) by (apply set_start; by right; left).
    pose proof (proj2 Hf) as Hof. unfold opFact in Hof. rewrite Hop in Hof. destruct Hof as (g & Hg & Hs & Hk).
    pose proof (status_step ns (markOf (tc_Key c)) (descOf (tc_Key c)) m c (proj1 (Hw _ _ _ Hp)) Hc Hset Hop) as Hst. fold res in Hst.
    assert (Hrec : recN w g = txn_of ns m (tc_Key c) (tc_StartTS c)) by (unfold recN; rewrite <- Hk, Hs, <- Hs; by apply txnY_here).
    assert (Hrec' : recN w' g = txn_of ns (txn_step ns (markOf (tc_Key c)) (descOf (tc_Key c)) m c) (tc_Key c) (tc_StartTS c))
      by (unfold recN; rewrite <- Hk, <- Hs; by apply txnY_here).
    destruct (txn_of ns m (tc_Key c) (tc_StartTS c)) as [r|] eqn:Et.
    + destruct Hst as (_ & _ & Hrb & Hct). split; [rewrite Hct; by eapply (sk_rec _ _ _ HS)|]. intros _. exists g, r.
      split_and!; [done|done|by apply recN_kept|done|done].
    + destruct Hst as [[_ Hnd]|(_ & Hrb & Hnew)].
      * split; [|congruence]. unfold res, stepResult. rewrite Hop, (Store_Txn_eq m) by apply map_wf. cbn [contents Map_laws s_ns plain]. rewrite Et.
        destruct (LessEq _ _); by vm_compute.
      * split; [unfold res, stepResult; rewrite Hop, (Store_Txn_eq m) by apply map_wf; cbn [contents Map_laws s_ns plain]; rewrite Et; destruct (LessEq _ _); by vm_compute|].
        intros _. eexists g, _. split_and!; [done|done|by rewrite Hrec'|by rewrite Hrb|done].
Qed.
End Apply.
End View.
