(* ===== verification/BankConserve.v ===== *)
(** * Money is conserved

    In a store that satisfies the invariant of [BankInv], the balances a client is given
    of every account at one timestamp sum to nothing. *)

From Stdlib Require Import Lia ZArith.
From stdpp Require Import base tactics numbers option gmap list.
From S2P Require Import Prelude Bytes ConfChange RaftTypes Hlc SimQueue SimLoop SimTransport CheckLedger CheckOracles Engine KvEncoding EngineIface KvStore KvTxn EngineMap StoreCodec CheckTxn StoreReplay StoreTxn StoreRange StoreNode CheckStore BankCoord StoreDriver BankSystem BankInv.

(** ** Balances round-trip *)

Lemma digits_nonempty fuel n : digits (S fuel) n ≠ [].
Proof. cbn [digits]. destruct (n <? 10); [done|]. by destruct (digits fuel _). Qed.

Lemma forallb_digits ds : Forall (λ b, 48 ≤ b2z b ≤ 57) ds → forallb isDigit ds = true.
Proof.
  induction 1 as [|d ds Hd _ IH]; [done|]. cbn [forallb]. rewrite IH, andb_true_r. unfold isDigit. apply andb_true_iff. split; apply Z.leb_le; lia.
Qed.

Lemma Atoi_decimal z : is_i64 z → Atoi (decimal z) = Some z.
Proof.
  intros Hz. unfold is_i64 in Hz. unfold decimal.
  assert (Hd : ∀ n, 0 ≤ n ≤ 2 ^ 63 → undigits (digits 20 n) = n ∧ Forall (λ b, 48 ≤ b2z b ≤ 57) (digits 20 n)).
  { intros n Hn. apply (digits_spec 20). change (10 ^ Z.of_nat 20) with 100000000000000000000. lia. }
  destruct (Z.ltb_spec z 0) as [Hneg|Hpos].
  - destruct (Hd (- z) ltac:(lia)) as [Hu Hf]. unfold Atoi. rewrite bool_decide_eq_true_2 by done.
    destruct (digits 20 (- z)) as [|d ds] eqn:E; [by apply (digits_nonempty 19 (- z)) in E|]. rewrite (forallb_digits _ Hf), Hu.
    replace (- - z) with z by lia. destruct (Z.leb_spec (- 2 ^ 63) z); [|lia]. by destruct (Z.ltb_spec z (2 ^ 63)); [|lia].
  - destruct (Hd z ltac:(lia)) as [Hu Hf]. destruct (digits 20 z) as [|d ds] eqn:E; [by apply (digits_nonempty 19 z) in E|].
    assert (Hn : ∀ b, b2z b < 48 → d ≠ b) by (intros b Hb ->; apply Forall_inv in Hf; cbv beta in Hf; lia).
    unfold Atoi. rewrite !bool_decide_eq_false_2 by (apply Hn; by vm_compute). rewrite (forallb_digits _ Hf), Hu.
    destruct (Z.leb_spec (- 2 ^ 63) z); [|lia]. by destruct (Z.ltb_spec z (2 ^ 63)); [|lia].
Qed.

Lemma cutAt_app a b : Byte.x40 ∉ a → cutAt (a ++ Byte.x40 :: b) = Some (a, b).
Proof.
  induction a as [|x a IH]; [done|]. intros Hn. cbn [app cutAt]. rewrite bool_decide_eq_false_2 by (intros ->; apply Hn; left).
  rewrite IH; [done|]. intros Hx. apply Hn. by right.
Qed.

(** A balance printed is a balance read. *)
Lemma parseBalance_balance v id : is_i64 v → is_i64 id → parseBalance (balance v id) = Some (v, id).
Proof.
  intros Hv Hid. unfold parseBalance, balance. rewrite cutAt_app; [cbn [mbind option_bind]|].
  - by rewrite !Atoi_decimal.
  - intros Hx. destruct (decimal_chars v Hv _ Hx) as [?|Hr]; [done|]. pose proof separators. lia.
Qed.

(** ** Sums *)

Definition sumZ {A : Type} (f : A → Z) (l : list A) : Z := foldr (λ x s, f x + s) 0 l.

Lemma sumZ_perm {A} (f : A → Z) l l' : l ≡ₚ l' → sumZ f l = sumZ f l'.
Proof. unfold sumZ. induction 1; cbn [foldr] in *; lia. Qed.
Lemma sumZ_ext {A} (f g : A → Z) l : (∀ x, x ∈ l → f x = g x) → sumZ f l = sumZ g l.
Proof.
  induction l as [|x l IH]; [done|]. intros He. unfold sumZ. cbn [foldr]. rewrite (He x) by left. f_equal. apply IH. intros y Hy. apply He. by right.
Qed.
Lemma sumZ_add {A} (f g : A → Z) l : sumZ (λ x, f x + g x) l = sumZ f l + sumZ g l.
Proof. unfold sumZ. induction l as [|x l IH]; [done|]. cbn [foldr]. rewrite IH. lia. Qed.
Lemma sumZ_zero {A} (l : list A) : sumZ (λ _, 0) l = 0.
Proof. by induction l. Qed.
Lemma sumZ_swap {A B} (f : A → B → Z) l l' : sumZ (λ x, sumZ (f x) l') l = sumZ (λ y, sumZ (λ x, f x y) l) l'.
Proof.
  induction l as [|x l IH]; [cbn; by rewrite sumZ_zero|].
  change (sumZ (f x) l' + sumZ (λ x, sumZ (f x) l') l = sumZ (λ y, f x y + sumZ (λ x, f x y) l) l'). by rewrite IH, sumZ_add.
Qed.
Lemma sumZ_filter {A} (P : A → Prop) `{∀ x, Decision (P x)} (f : A → Z) l :
  (∀ x, x ∈ l → ¬ P x → f x = 0) → sumZ f (filter P l) = sumZ f l.
Proof.
  induction l as [|x l IH]; [done|]. intros Hf. rewrite filter_cons. change (sumZ f (x :: l)) with (f x + sumZ f l).
  rewrite <- IH by (intros y Hy; apply Hf; by right). destruct (decide (P x)) as [|Hn]; [done|]. rewrite (Hf x); [lia|left|done].
Qed.
(** A function that is nothing away from one place. *)
Lemma sumZ_single {A} `{EqDecision A} (a : A) (v : Z) l : NoDup l → a ∈ l → sumZ (λ x, if decide (x = a) then v else 0) l = v.
Proof.
  induction 1 as [|x l Hx _ IH]; [by intros ?%elem_of_nil|]. intros [<-|Ha]%elem_of_cons;
    change (sumZ ?f (?y :: ?ys)) with (f y + sumZ f ys); cbv beta.
  - rewrite decide_True by done. rewrite (sumZ_ext _ (λ _, 0)), sumZ_zero; [lia|]. intros y Hy. rewrite decide_False; [done|]. by intros ->.
  - rewrite IH by done. rewrite decide_False; [lia|]. by intros ->.
Qed.

Definition same64 (a b : Z) : Prop := (2 ^ 64 | a - b).
Lemma same64_i64 z : same64 (i64 z) z.
Proof.
  unfold same64, i64. exists (- ((z + 2 ^ 63) / 2 ^ 64)). pose proof (Z.div_mod (z + 2 ^ 63) (2 ^ 64) ltac:(lia)). lia.
Qed.
Lemma same64_add a b x y : same64 a b → same64 x y → same64 (a + x) (b + y).
Proof. intros [p Hp] [q Hq]. exists (p + q). lia. Qed.
Lemma same64_trans a b x : same64 a b → same64 b x → same64 a x.
Proof. intros [p Hp] [q Hq]. exists (p + q). lia. Qed.
Lemma same64_refl a : same64 a a.
Proof. exists 0. lia. Qed.
Lemma same64_zero a : is_i64 a → same64 a 0 → a = 0.
Proof. intros Ha [q Hq]. unfold is_i64 in Ha. nia. Qed.

Lemma same64_sum {A} (f g : A → Z) l : (∀ x, x ∈ l → same64 (f x) (g x)) → same64 (sumZ f l) (sumZ g l).
Proof.
  induction l as [|x l IH]; intros Hs; [apply same64_refl|]. apply same64_add; [apply Hs; left|]. apply IH. intros y Hy. apply Hs. by right.
Qed.

(** ** Accounts over time *)

Section Conserve.
Context (rngs : list (RangeDescriptor * Timestamp)) (accts : list bytes) (Haccts : ∀ k, k ∈ accts → key_ok k) (Hnd : NoDup accts).
Context (G : ghost) (w : list (gmap bytes bytes)) (pend : list TxnCommand).
Context (HG : ghostOk rngs accts G w) (HS : storeOk rngs G w pend).

(** When a transaction committed, as its record says. *)
Definition commitTime (g : transfer) : option Timestamp :=
  r ← recN rngs w g; if decide (r_Status r = TxnCommitted) then Some (r_CommitTS r) else None.
Definition before_ (T : Timestamp) (g : transfer) : Prop := match commitTime g with Some C => LessEq C T = true | None => False end.
#[local] Instance before_dec T g : Decision (before_ T g).
Proof. unfold before_. destruct (commitTime g); apply _. Defined.

Lemma before_iff T g : before_ T g ↔ ∃ C, committedAs rngs w g C ∧ ts_le C T.
Proof.
  unfold before_, commitTime, committedAs. destruct (recN rngs w g) as [r|]; cbn; [|by split; [|intros (? & (? & ? & _) & _)]].
  destruct (decide _) as [Hc|Hn].
  - rewrite LessEq_spec. split; [intros Hle; eauto 10|]. intros (C & (r' & [= <-] & _ & <-) & Hle). done.
  - split; [done|]. intros (C & (r' & [= <-] & ? & _) & _). done.
Qed.

(** What a transfer does to an account. *)
Definition delta (k : bytes) (g : transfer) : Z :=
  (if decide (k = tf_from g) then - tf_amount g else 0) + (if decide (k = tf_to g) then tf_amount g else 0).

Definition on (k : bytes) (T : Timestamp) : list transfer := filter (λ g, k ∈ tf_keys g ∧ before_ T g) (gh_txns G).

(** Where a timestamp has been answered, what was committed by it is written. *)
Lemma on_real k T v g : k ∈ accts → answeredY rngs w k T v → g ∈ on k T → ∃ C, committedAs rngs w g C ∧ ts_le C T ∧ realY rngs w k C (tf_startTS g).
Proof using HG HS Haccts.
  intros Hk (ns & m & Hp & Ha) Hg. apply list_elem_of_filter in Hg as [[Hkk Hb] Hg]. apply before_iff in Hb as (C & Hca & Hle).
  exists C. split_and!; [done..|]. destruct (sk_commit _ _ _ _ HS g C Hg Hca) as (Hdec & _ & Hall). destruct (Hall k Hkk) as [(l & Hl & Hs)|?]; [|done].
  exfalso. unfold lockY in Hl. rewrite Hp in Hl. apply (an_lock _ _ _ _ _ Ha) in Hl. rewrite Hs in Hl.
  apply (go_dec _ _ _ _ HG) in Hdec as [Hlt _]. apply (ts_lt_not_le _ _ Hlt). by eapply ts_le_trans.
Qed.

Lemma committed_fun g C C' : committedAs rngs w g C → committedAs rngs w g C' → C = C'.
Proof using. intros (r & Hr & _ & <-) (r' & Hr' & _ & <-). congruence. Qed.

(** The last commit of an account and those before its transaction began are all of
    them. *)
Lemma on_split k T v C g :
  k ∈ accts → answeredY rngs w k T v → g ∈ gh_txns G → k ∈ tf_keys g → committedAs rngs w g C → ts_le C T →
  (∀ C' st', realY rngs w k C' st' → ts_le C' T → ts_le C' C) → on k T ≡ₚ g :: on k (tf_startTS g).
Proof using HG HS Haccts.
  intros Hk Ha Hg Hkk Hca Hle Hlast. assert (Hlt : ts_lt (tf_startTS g) C) by by apply (go_dec _ _ _ _ HG), (sk_commit _ _ _ _ HS g C Hg Hca).
  assert (HgT : g ∈ on k T) by (apply list_elem_of_filter; split; [split; [done|apply before_iff; eauto]|done]).
  destruct (on_real k T v g Hk Ha HgT) as (C0 & Hca0 & _ & Hreal). rewrite <- (committed_fun g C C0 Hca Hca0) in Hreal. clear C0 Hca0.
  destruct (sk_real _ _ _ _ HS k C _ (Haccts k Hk) Hreal) as (g0 & _ & _ & _ & _ & _ & Hch).
  apply NoDup_Permutation.
  - apply NoDup_filter, HG.
  - constructor; [|apply NoDup_filter, HG]. intros [[_ Hb] _]%list_elem_of_filter. apply before_iff in Hb as (C' & Hca' & Hle').
    rewrite <- (committed_fun g C C') in Hle' by done. by apply (ts_lt_not_le _ _ Hlt).
  - intros g'. rewrite elem_of_cons. split.
    + intros Hg'. destruct (on_real k T v g' Hk Ha Hg') as (C' & Hca' & Hle' & Hreal'). apply list_elem_of_filter in Hg' as [[Hk' _] Hg'].
      destruct (Hch _ _ Hreal') as [->|[Hl|Hl]].
      * left. apply (go_start _ _ _ _ HG); [done..|]. eapply (go_once _ _ _ _ HG); [by apply (sk_commit _ _ _ _ HS g' C Hg' Hca')|by apply (sk_commit _ _ _ _ HS g C Hg Hca)].
      * right. apply list_elem_of_filter. split; [split; [done|apply before_iff; eauto]|done].
      * destruct (ts_lt_not_le _ _ Hl). by eapply Hlast.
    + intros [->|Hg']; [done|]. apply list_elem_of_filter in Hg' as [[Hk' Hb'] Hg']. apply list_elem_of_filter. split; [split; [done|]|done].
      apply before_iff. apply before_iff in Hb' as (C' & Hca' & Hle'). exists C'. split; [done|]. eapply ts_le_trans; [done|]. left. by eapply ts_lt_le_trans.
Qed.

(** The balance of an account is what its transfers did to it. *)
Lemma balance_is_sum n k T v a :
  length (on k T) = n → k ∈ accts → answeredY rngs w k T v → amount v = Some a → same64 a (sumZ (delta k) (on k T)).
Proof using HG HS Haccts.
  revert T v a. induction (lt_wf n) as [n _ IH]. intros T v a Hn Hk Ha Hamt. pose proof Ha as (ns & m & Hp & Hans).
  destruct (an_view _ _ _ _ _ Hans) as [C st b (Hr & Hle & Hlast) Hb|Hnone].
  - assert (Hry : realY rngs w k C st) by by exists ns, m.
    destruct (sk_real _ _ _ _ HS k C st (Haccts k Hk) Hry) as (g & Hg & -> & Hkk & Hca & Hd & _).
    assert (Hsp : on k T ≡ₚ g :: on k (tf_startTS g)).
    { apply (on_split k T (Some b) C); try done. intros C' st' Hr' Hle'. apply (Hlast C' st'); [|done]. by eapply realY_at. }
    rewrite (sumZ_perm _ _ _ Hsp). rewrite Hsp in Hn. cbn [length] in Hn. cbn [sumZ foldr]. fold (sumZ (delta k) (on k (tf_startTS g))).
    assert (Hv : tf_values g !! k = Some b) by (rewrite <- Hd; unfold dataY; by rewrite Hp).
    destruct (go_txn _ _ _ _ HG g Hg) as [Htf Hne (vf & af & Haf & Hvf & Hwf) (vt & at_ & Hat & Hvt & Hwt)].
    assert (Hid : is_i64 (tf_id g)) by apply Htf. rewrite (to_keys _ _ Htf) in Hkk.
    cbn [amount] in Hamt. apply elem_of_cons in Hkk as [->|Hkk]; [|apply list_elem_of_singleton in Hkk as ->].
    + rewrite Hv in Hwf. injection Hwf as ->. rewrite parseBalance_balance in Hamt by (done || apply i64_range). injection Hamt as <-.
      eapply same64_trans; [apply same64_i64|]. unfold delta at 1. rewrite decide_True, decide_False by done.
      replace (af - tf_amount g) with (- tf_amount g + 0 + af) by lia. apply same64_add; [apply same64_refl|].
      eapply IH; [|reflexivity|done|done|done]. lia.
    + rewrite Hv in Hwt. injection Hwt as ->. rewrite parseBalance_balance in Hamt by (done || apply i64_range). injection Hamt as <-.
      eapply same64_trans; [apply same64_i64|]. unfold delta at 1. rewrite decide_False, decide_True by done.
      replace (at_ + tf_amount g) with (0 + tf_amount g + at_) by lia. apply same64_add; [apply same64_refl|].
      eapply IH; [|reflexivity|done|done|done]. lia.
  - injection Hamt as <-. destruct (on k T) as [|g gs] eqn:E; [apply same64_refl|]. exfalso.
    destruct (on_real k T None g Hk Ha) as (C & _ & Hle & Hreal); [rewrite E; left|]. apply (Hnone C (tf_startTS g)); [|done]. by eapply realY_at.
Qed.

Lemma delta_balances g : g ∈ gh_txns G → sumZ (λ k, delta k g) accts = 0.
Proof using HG Hnd.
  intros Hg. destruct (ro_tf _ _ _ _ (go_txn _ _ _ _ HG g Hg)) as [Hf Ht _ _ _ _]. unfold delta. rewrite sumZ_add.
  rewrite !sumZ_single by done. lia.
Qed.

(** The accounts, answered at one timestamp, sum to nothing. *)
Lemma accounts_sum T (vals : bytes → Z) :
  (∀ k, k ∈ accts → ∃ v, answeredY rngs w k T v ∧ amount v = Some (vals k)) → same64 (sumZ vals accts) 0.
Proof using HG HS Haccts Hnd.
  intros Hall. assert (Hsum : same64 (sumZ vals accts) (sumZ (λ k, sumZ (delta k) (filter (before_ T) (gh_txns G))) accts)).
  { apply same64_sum. intros k Hk. destruct (Hall k Hk) as (v & Ha & Hamt). eapply same64_trans; [by eapply balance_is_sum|].
    replace (sumZ (delta k) (filter (before_ T) (gh_txns G))) with (sumZ (delta k) (on k T)); [apply same64_refl|].
    unfold on. rewrite <- (sumZ_filter (λ g, k ∈ tf_keys g) (delta k) (filter (before_ T) _)).
    - by rewrite list_filter_filter.
    - intros g Hg Hnk. apply list_elem_of_filter in Hg as [_ Hg]. destruct (ro_tf _ _ _ _ (go_txn _ _ _ _ HG g Hg)) as [_ _ Hks _ _ _].
      rewrite Hks in Hnk. unfold delta. rewrite !decide_False; [done|intros ->; apply Hnk; right; left|intros ->; apply Hnk; left]. }
  eapply same64_trans; [exact Hsum|]. rewrite sumZ_swap, (sumZ_ext _ (λ _, 0)), sumZ_zero; [apply same64_refl|].
  intros g Hg. apply delta_balances. by apply list_elem_of_filter in Hg as [_ ?].
Qed.
End Conserve.
