(* ===== verification/BankRun.v ===== *)
(** * The coordinator's invariant

    What is true of the coordinator of [BankCoord] between the events of a run ([CI]):
    each transfer under way and the transaction it became, each audit and the answers it
    has seen, whose commands were sent; and the ways its parts may change.  [BankHandle]
    shows that every handler keeps it. *)

From Stdlib Require Import Lia ZArith.
From stdpp Require Import base tactics numbers option gmap list.
From S2P Require Import Prelude Bytes ConfChange RaftTypes Hlc SimQueue SimLoop SimTransport CheckLedger CheckOracles Engine KvEncoding EngineIface KvStore KvTxn EngineMap StoreCodec CheckTxn StoreReplay StoreTxn StoreRange StoreNode CheckStore BankCoord StoreDriver BankSystem BankInv BankConserve.

(** ** The coordinator's invariant *)

Section Run.
Context {D : Type} `{TimeSource D}.
Context (rngs : list (RangeDescriptor * Timestamp)) (maxOffset : Z).
Context (accts : list bytes) (Haccts : ∀ k, k ∈ accts → key_ok k) (Hnd : NoDup accts).
Implicit Types c : coordinator D.
Implicit Types t : transfer.

(** The timestamps of a run: no two are equal, and those given to one number that asks
    increase. *)
Record mintsOk (ms : list (Z * Z * Timestamp)) : Prop := MkMintsOk {
  mk_each : ∀ a n ts, (a, n, ts) ∈ ms → mint_ok ts;
  mk_order : ∀ i j x y, (i < j)%nat → ms !! i = Some x → ms !! j = Some y → snd x ≠ snd y ∧ (fst (fst x) = fst (fst y) → ts_lt (snd x) (snd y));
}.

Lemma mintsOk_prefix ms ms' : mintsOk (ms ++ ms') → mintsOk ms.
Proof.
  intros [H1 H2]. split.
  - intros a n ts Hin. apply (H1 a n). apply elem_of_app. by left.
  - intros i j x y Hij Hx Hy. apply (H2 i j); [done|by apply lookup_app_l_Some|by apply lookup_app_l_Some].
Qed.

Section Event.
(** The store, which an event of the coordinator leaves alone, and what was sent,
    pending, answered and minted before it. *)
Context (w : list (gmap bytes bytes)) (sent0 pend0 : list TxnCommand) (ans : list (TxnCommand * TxnResult)) (ms0 : list (Z * Z * Timestamp)).

Definition sentE c : list TxnCommand := sent0 ++ sends (co_out c).
Definition pendE c : list TxnCommand := pend0 ++ sends (co_out c).
Definition msE c : list (Z * Z * Timestamp) := ms0 ++ mints (co_out c).
Definition stampsE c : list Timestamp := snd <$> msE c.

(** A transfer under way and the ghost transaction it became. *)
Definition frozen (g t : transfer) : Prop :=
  tf_origin g = tf_origin t ∧ tf_startTS g = tf_startTS t ∧ tf_primary g = tf_primary t ∧ tf_keys g = tf_keys t.

Definition phaseOk (G : ghost) (o : Z) t : Prop :=
  match tf_phase t with
  | phaseRead =>
      (∀ g, g ∈ gh_txns G → tf_startTS g ≠ tf_startTS t ∧ tf_origin g ≠ o)
      ∧ (∀ k v, tf_read t !! k = Some v → k ∈ tf_keys t ∧ ∃ rv, answeredY rngs w k (tf_startTS t) rv ∧ amount rv = Some v)
      ∧ (∀ x k, tf_blocked t !! x = Some k → k ∈ tf_keys t)
  | phasePrewrite => ∃ g, g ∈ gh_txns G ∧ frozen g t ∧ gh_dec G (tf_startTS t) = None ∧ ∀ k, k ∈ tf_ack t → k ∈ tf_keys t ∧ pinned rngs w g k
  | phasePrimaryRecord => ∃ g, g ∈ gh_txns G ∧ frozen g t ∧ gh_dec G (tf_startTS t) = Some (Some (tf_commitTS t))
  | phaseCommitKeys => ∃ g, g ∈ gh_txns G ∧ frozen g t
  | phaseAbort => ∃ g, g ∈ gh_txns G ∧ frozen g t ∧ (gh_dec G (tf_startTS t) = Some None ∨ rolledBack rngs w g)
  | phaseDone | phaseAbandoned => False
  end.

Record liveOk (G : ghost) (ms : list (Z * Z * Timestamp)) (o : Z) t : Prop := MkLiveOk {
  lv_origin : tf_origin t = o;
  lv_pos : 0 < o;
  lv_tf : tfOk accts t;
  lv_mint : ∃ n, (tf_ts t, n, tf_startTS t) ∈ ms;
  lv_phase : phaseOk G o t;
}.

Record auditOk (o : Z) (a : audit) : Prop := MkAuditOk {
  ad_origin : au_origin a = o;
  ad_pos : 0 < o;
  ad_need : au_need a = Z.of_nat (length accts);
  ad_read : wall_ok (au_readTS a);
  ad_seen : ∀ k v, au_seen a !! k = Some v → k ∈ accts ∧ ∃ rv, answeredY rngs w k (au_readTS a) rv ∧ amount rv = Some v;
  ad_blocked : ∀ x k, au_blocked a !! x = Some k → k ∈ accts;
}.

(** Whose a command is. *)
Record originOk c (d : TxnCommand) : Prop := MkOriginOk {
  or_bound : tc_Origin d ≤ co_nextOrigin c;
  or_live : ∀ t, co_live c !! tc_Origin d = Some t → tc_Op d = OpTxnGet ∨ tc_Op d = OpApplyResolution → tc_Key d ∈ tf_keys t;
  or_audit : ∀ a, co_audits c !! tc_Origin d = Some a →
    (tc_Op d = OpTxnGet → tc_Key d ∈ accts ∧ tc_ReadTS d = au_readTS a) ∧ (tc_Op d = OpApplyResolution → tc_Key d ∈ accts)
    ∧ (tc_Op d = OpResolveStatus → is_Some (au_blocked a !! lockName (tc_Key d) (tc_StartTS d)));
}.

Definition auditRecOk (x : AuditRecord) : Prop := ar_Total x = 0 ∧ ar_Accounts x = Z.of_nat (length accts).

Record CI (G : ghost) c : Prop := MkCI {
  ci_ghost : ghostOk rngs accts G w;
  ci_store : storeOk rngs G w (pendE c);
  ci_cmd : ∀ d, d ∈ sentE c → cmdFact rngs G w d;
  ci_pend : ∀ d, d ∈ pendE c → d ∈ sentE c;
  ci_ans : ∀ d r, (d, r) ∈ ans → ansFact rngs G w d r ∧ d ∈ sent0;
  ci_live : ∀ o t, co_live c !! o = Some t → liveOk G (msE c) o t ∧ o ≤ co_nextOrigin c;
  ci_uniq : ∀ o o' t t', co_live c !! o = Some t → co_live c !! o' = Some t' → tf_startTS t = tf_startTS t' → o = o';
  ci_audit : ∀ o a, co_audits c !! o = Some a → auditOk o a ∧ o ≤ co_nextOrigin c ∧ co_live c !! o = None;
  ci_origin : ∀ d, d ∈ sentE c → originOk c d;
  ci_gmint : ∀ g, g ∈ gh_txns G → tf_startTS g ∈ stampsE c ∧ tf_origin g ≤ co_nextOrigin c;
  ci_gorigin : ∀ g g', g ∈ gh_txns G → g' ∈ gh_txns G → tf_origin g = tf_origin g' → g = g';
  ci_dec : ∀ S C, gh_dec G S = Some (Some C) → C ∈ stampsE c ∧ ∀ o t, co_live c !! o = Some t → tf_startTS t ≠ C;
  ci_decof : ∀ S x, gh_dec G S = Some x → ∃ g, g ∈ gh_txns G ∧ tf_startTS g = S;
  ci_acc : accountsOf c = accts;
  ci_next : 0 ≤ co_nextOrigin c;
  ci_ledger : Forall auditRecOk (lg_audits (co_ledger c));
}.

(** *** Changes the invariant does not see *)

Record alike c c' : Prop := MkAlike {
  al_live : co_live c' = co_live c;
  al_audits : co_audits c' = co_audits c;
  al_next : co_nextOrigin c' = co_nextOrigin c;
  al_accounts : co_accounts c' = co_accounts c;
  al_ledger : lg_audits (co_ledger c') = lg_audits (co_ledger c);
  al_sends : sends (co_out c') = sends (co_out c);
  al_mints : mints (co_out c') = mints (co_out c);
}.

Lemma CI_alike G c c' : alike c c' → CI G c → CI G c'.
Proof.
  intros [E1 E2 E3 E4 E5 E6 E7] [I1 I2 I3 I4 I5 I6 I7 I8 I9 I10 I11 I12 I13 I14 I15 I16].
  assert (Es : sentE c' = sentE c) by (unfold sentE; by rewrite E6). assert (Ep : pendE c' = pendE c) by (unfold pendE; by rewrite E6).
  assert (Em : msE c' = msE c) by (unfold msE; by rewrite E7). assert (Et : stampsE c' = stampsE c) by (unfold stampsE; by rewrite Em).
  split; rewrite ?Es, ?Ep, ?Em, ?Et, ?E1, ?E2, ?E3, ?E5; try done; [|unfold accountsOf in *; by rewrite E4].
  intros d Hd. destruct (I9 d Hd) as [A B C]. split; rewrite ?E1, ?E2, ?E3; done.
Qed.

Lemma mints_app os os' : mints (os ++ os') = mints os ++ mints os'.
Proof. unfold mints. apply omap_app. Qed.
Lemma sends_app os os' : sends (os ++ os') = sends os ++ sends os'.
Proof. unfold sends. apply omap_app. Qed.

Lemma CI_count G k c : CI G c → CI G (count k c).
Proof. by apply CI_alike. Qed.
Lemma CI_tell G f c : (∀ l, lg_audits (f l) = lg_audits l) → CI G c → CI G (tellL f c).
Proof. intros Hf. apply CI_alike. by split; try done; cbn. Qed.
Lemma CI_do G at_ x c : CI G c → CI G (out (ODo at_ x) c).
Proof. apply CI_alike. split; try done; cbn; by rewrite ?sends_app, ?mints_app, ?app_nil_r. Qed.

(** *** Sending *)

Lemma originOk_same c c' d : co_live c' = co_live c → co_audits c' = co_audits c → co_nextOrigin c' = co_nextOrigin c → originOk c d → originOk c' d.
Proof. intros E1 E2 E3 [A B C]. by split; rewrite ?E1, ?E2, ?E3. Qed.

Lemma storeOk_more G d pend :
  storeOk rngs G w pend →
  (∀ S, commitsAt S d → (∀ d', d' ∈ pend → ¬ commitsAt S d') ∧ ∀ g C, g ∈ gh_txns G → tf_startTS g = S → ¬ committedAs rngs w g C) →
  storeOk rngs G w (pend ++ [d]).
Proof.
  intros [S1 S2 S3 S4 S5 S6 S7] Hc. split; try done.
  - intros g C Hg Hca. destruct (S4 g C Hg Hca) as (A & B & E). split_and!; [done| |done].
    intros d' [Hd| ->%list_elem_of_singleton]%elem_of_app; [by apply B|]. intros Hat. by eapply (proj2 (Hc _ Hat)).
  - intros S. rewrite filter_app, length_app, filter_cons, filter_nil. destruct (decide (commitsAt S d)) as [Hat|]; [|cbn; specialize (S5 S); lia].
    destruct (filter (commitsAt S) pend) as [|d' ds] eqn:E; [done|]. exfalso.
    assert (Hin : d' ∈ filter (commitsAt S) pend) by (rewrite E; left). apply list_elem_of_filter in Hin as [Hd' Hin]. by eapply (proj1 (Hc _ Hat)).
Qed.

Lemma CI_send_any G c at_ d :
  CI G c → cmdFact rngs G w d → originOk c d →
  (∀ S, commitsAt S d → (∀ d', d' ∈ pendE c → ¬ commitsAt S d') ∧ ∀ g C, g ∈ gh_txns G → tf_startTS g = S → ¬ committedAs rngs w g C) →
  CI G (out (OSend at_ d) c).
Proof.
  intros [I1 I2 I3 I4 I5 I6 I7 I8 I9 I10 I11 I12 I13 I14 I15 I16] Hf Ho Hc.
  assert (Es : sentE (out (OSend at_ d) c) = sentE c ++ [d]) by (unfold sentE; cbn; by rewrite sends_app, app_assoc).
  assert (Ep : pendE (out (OSend at_ d) c) = pendE c ++ [d]) by (unfold pendE; cbn; by rewrite sends_app, app_assoc).
  assert (Em : msE (out (OSend at_ d) c) = msE c) by (unfold msE; cbn; by rewrite mints_app, app_nil_r).
  assert (Et : stampsE (out (OSend at_ d) c) = stampsE c) by (unfold stampsE; by rewrite Em).
  split; rewrite ?Es, ?Ep, ?Em, ?Et; try done.
  - by apply storeOk_more.
  - intros d' [Hd| ->%list_elem_of_singleton]%elem_of_app; [by apply I3|done].
  - intros d' [Hd|Hd]%elem_of_app; apply elem_of_app; [left; by apply I4|by right].
  - intros d' [Hd| ->%list_elem_of_singleton]%elem_of_app; apply (originOk_same c); try done. by apply I9.
Qed.
Lemma CI_send G c at_ d :
  CI G c → cmdFact rngs G w d → originOk c d → tc_Op d ≠ OpPutTxnRecord ∨ tc_Status d ≠ TxnCommitted → CI G (out (OSend at_ d) c).
Proof. intros Hc Hf Ho Hn. apply CI_send_any; [done..|]. intros S (? & ? & _). by destruct Hn. Qed.

(** Loops that send: nothing but the output grows. *)
Definition beside c c' : Prop :=
  co_live c' = co_live c ∧ co_audits c' = co_audits c ∧ co_nextOrigin c' = co_nextOrigin c ∧ co_accounts c' = co_accounts c
  ∧ lg_audits (co_ledger c') = lg_audits (co_ledger c).
Definition sending G c c' : Prop := CI G c' ∧ beside c c' ∧ msE c' = msE c.
Lemma sending_refl G c : CI G c → sending G c c.
Proof. intros Hc. split; [done|]. by repeat split. Qed.

Lemma CI_each {A} G (F : coordinator D → A → coordinator D) xs c :
  (∀ c' x, x ∈ xs → sending G c c' → sending G c (F c' x)) → CI G c → sending G c (foldl F c xs).
Proof.
  intros HF Hc. cut (∀ c', sending G c c' → sending G c (foldl F c' xs)); [intros Hcut; by apply Hcut, sending_refl|].
  induction xs as [|x xs IH]; intros c' Hc'; [done|]. cbn [foldl]. apply IH; [intros; apply HF; [by right|done]|]. apply HF; [left|done].
Qed.

Lemma sending_out G c c' at_ d :
  sending G c c' → cmdFact rngs G w d → originOk c d → tc_Op d ≠ OpPutTxnRecord ∨ tc_Status d ≠ TxnCommitted → sending G c (out (OSend at_ d) c').
Proof.
  intros (Hc & (E1 & E2 & E3 & E4 & E5) & E6) Hf Ho Hn. split; [|split; [by repeat split|by rewrite <- E6; unfold msE; cbn; rewrite mints_app, app_nil_r]].
  apply CI_send; [done..| |done]. by apply (originOk_same c).
Qed.
Lemma sending_count G c c' k : sending G c c' → sending G c (count k c').
Proof. intros (Hc & E). by split; [apply CI_count|]. Qed.

(** A loop whose steps take no timestamp takes none. *)
Lemma msE_each {A} (F : coordinator D → A → coordinator D) xs c : (∀ c' x, msE (F c' x) = msE c') → msE (foldl F c xs) = msE c.
Proof. intros HF. revert c. induction xs as [|x xs IH]; intros c; [done|]. cbn [foldl]. by rewrite IH, HF. Qed.

(** *** Minting *)

(** What a new timestamp is: unlike every other the run uses. *)
Record fresh G c (ts : Timestamp) : Prop := MkFresh {
  fr_ok : mint_ok ts;
  fr_live : ∀ o t, co_live c !! o = Some t → tf_startTS t ≠ ts;
  fr_txn : ∀ g, g ∈ gh_txns G → tf_startTS g ≠ ts;
  fr_dec : ∀ S, gh_dec G S ≠ Some (Some ts);
  fr_in : ts ∈ stampsE c;
}.

Lemma mintFrom_spec ask i k tries c ts n c' :
  mintFrom ask i k tries c = Some (ts, n, c') →
  ∃ ds, c' = out (OMint i n ts) (c <| co_drivers := ds |>).
Proof.
  revert k. induction tries as [|tries IH]; intros k; cbn [mintFrom]; [done|]. destruct (_ ≫= ask) as [[ts' d]|].
  - intros [= <- <- <-]. eauto.
  - apply IH.
Qed.

Lemma CI_mint G c ask i k tries ts n c' :
  mintFrom ask i k tries c = Some (ts, n, c') → mintsOk (msE c') → CI G c →
  CI G c' ∧ beside c c' ∧ fresh G c' ts ∧ msE c' = msE c ++ [(i, n, ts)]
  ∧ ∀ t n0, (tf_ts t, n0, tf_startTS t) ∈ msE c → i = tf_ts t → ts_lt (tf_startTS t) ts.
Proof.
  intros Hm Hok Hc. destruct (mintFrom_spec _ _ _ _ _ _ _ _ Hm) as [ds ->]. set (c1 := out _ _) in *.
  assert (Em : msE c1 = msE c ++ [(i, n, ts)]) by (unfold msE, c1; cbn; by rewrite mints_app, app_assoc).
  rewrite Em in Hok. pose proof (mk_each _ Hok i n ts ltac:(apply elem_of_app; right; left)) as Hmo.
  assert (Hnew : ∀ x, x ∈ msE c → snd x ≠ ts ∧ (fst (fst x) = i → ts_lt (snd x) ts)).
  { intros x Hx. apply list_elem_of_lookup in Hx as [j Hj]. pose proof (lookup_lt_Some _ _ _ Hj) as Hl.
    apply (mk_order _ Hok j (length (msE c)) x (i, n, ts)); [done|by apply lookup_app_l_Some|by apply list_lookup_middle]. }
  assert (Hst : ∀ u, u ∈ stampsE c → u ≠ ts) by (intros u (x & -> & Hx)%list_elem_of_fmap; by apply Hnew).
  destruct Hc as [I1 I2 I3 I4 I5 I6 I7 I8 I9 I10 I11 I12 I13 I14 I15 I16].
  assert (Et : stampsE c1 = stampsE c ++ [ts]) by (unfold stampsE; by rewrite Em, fmap_app).
  assert (Es : sends (co_out c1) = sends (co_out c)) by (unfold c1; cbn; by rewrite sends_app, app_nil_r).
  assert (Es' : sentE c1 = sentE c) by (unfold sentE; by rewrite Es). assert (Ep : pendE c1 = pendE c) by (unfold pendE; by rewrite Es).
  assert (Hin : ∀ u, u ∈ stampsE c → u ∈ stampsE c1) by (intros u Hu; rewrite Et; apply elem_of_app; by left).
  split_and!.
  - split; rewrite ?Es', ?Ep; try done.
    + intros o t Ht. destruct (I6 o t Ht) as [[A B C (a & E) F] Hb]. split; [|done]. split; try done. exists a. rewrite Em. apply elem_of_app. by left.
    + intros d Hd. by apply (originOk_same c), I9.
    + intros g Hg. destruct (I10 g Hg). auto.
    + intros S C HS. destruct (I12 S C HS). auto.
  - by repeat split.
  - split; [done| | | |rewrite Et; apply elem_of_app; right; left].
    + intros o t Ht. apply Hst. destruct (I6 o t Ht) as [[_ _ _ (a & E) _] _]. apply list_elem_of_fmap. by eexists (_, _, _).
    + intros g Hg. apply Hst. by apply I10.
    + intros S HS. destruct (I12 S ts HS) as [Hi _]. by apply (Hst _ Hi).
  - done.
  - intros t n0 Ha ->. destruct (Hnew _ Ha) as [_ Hlt]. by apply Hlt.
Qed.

(** *** Transfers and audits *)

Lemma CI_putT G c t :
  CI G c → liveOk G (msE c) (tf_origin t) t → tf_origin t ≤ co_nextOrigin c → co_audits c !! tf_origin t = None →
  (∀ o t', o ≠ tf_origin t → co_live c !! o = Some t' → tf_startTS t' ≠ tf_startTS t) →
  (∀ S C, gh_dec G S = Some (Some C) → tf_startTS t ≠ C) →
  (∀ d, d ∈ sentE c → tc_Origin d = tf_origin t → tc_Op d = OpTxnGet ∨ tc_Op d = OpApplyResolution → tc_Key d ∈ tf_keys t) →
  CI G (putT t c).
Proof.
  intros [I1 I2 I3 I4 I5 I6 I7 I8 I9 I10 I11 I12 I13 I14 I15 I16] Ht Hb Ha Hst Hdec Hkeys.
  assert (Hl : ∀ o t', co_live (putT t c) !! o = Some t' → o = tf_origin t ∧ t' = t ∨ o ≠ tf_origin t ∧ co_live c !! o = Some t').
  { intros o t'. cbn. rewrite lookup_insert_Some. intros [[<- <-]|[? ?]]; [by left|right]. auto. }
  split; try done.
  - intros o t' [[-> ->]|[_ Ho]]%Hl; [done|]. by apply I6.
  - intros o o' t1 t2 [[-> ->]|[Hn H1]]%Hl [[-> ->]|[Hn' H2]]%Hl He; [done| | |by eapply I7].
    + by destruct (Hst _ _ Hn' H2).
    + by destruct (Hst _ _ Hn H1).
  - intros o a Ho. destruct (I8 o a Ho) as (A & B & C). split_and!; [done..|]. cbn. rewrite lookup_insert_None. split; [done|].
    intros <-. cbn in Ho. congruence.
  - intros d Hd. destruct (I9 d Hd) as [A B C]. split; [done| |done]. intros t' [[Ho ->]|[_ Ho]]%Hl; [by apply Hkeys|by apply B].
  - intros S C HS. destruct (I12 S C HS) as [A B]. split; [done|]. intros o t' [[-> ->]|[_ Ho]]%Hl; [by eapply Hdec|by eapply B].
Qed.

(** A transfer that keeps its start and its keys. *)
Lemma CI_reput G c t0 t :
  CI G c → co_live c !! tf_origin t = Some t0 → tf_startTS t = tf_startTS t0 → tf_keys t = tf_keys t0 → liveOk G (msE c) (tf_origin t) t →
  CI G (putT t c).
Proof.
  intros Hc H0 Hs Hk Hl. destruct (ci_live _ _ Hc _ _ H0) as [_ Hb]. apply CI_putT; [done..| | | |].
  - destruct (co_audits c !! tf_origin t) as [a|] eqn:E; [|done]. destruct (ci_audit _ _ Hc _ _ E) as (_ & _ & ?). congruence.
  - intros o t' Hn Ht' He. apply Hn. eapply (ci_uniq _ _ Hc); [done|exact H0|congruence].
  - intros S C HS. rewrite Hs. by eapply (proj2 (ci_dec _ _ Hc S C HS)).
  - intros d Hd Ho Hop. rewrite Hk. apply (or_live _ _ (ci_origin _ _ Hc d Hd)); [by rewrite Ho|done].
Qed.

Lemma CI_drop G c o : CI G c → CI G (c <| co_live := delete o (co_live c) |>).
Proof.
  intros [I1 I2 I3 I4 I5 I6 I7 I8 I9 I10 I11 I12 I13 I14 I15 I16].
  assert (Hl : ∀ o' t', delete o (co_live c) !! o' = Some t' → co_live c !! o' = Some t') by (intros o' t' Ho; by apply lookup_delete_Some in Ho as [_ ?]).
  split; try done; cbn [co_live co_audits co_nextOrigin] in *.
  - intros o' t' Ho%Hl. by apply I6.
  - intros o1 o2 t1 t2 H1%Hl H2%Hl. by eapply I7.
  - intros o' a Ho. destruct (I8 o' a Ho) as (A & B & C). split_and!; [done..|]. cbn. apply lookup_delete_None. by right.
  - intros d Hd. destruct (I9 d Hd) as [A B C]. split; [done| |done]. intros t' Ho%Hl. by apply B.
  - intros S C HS. destruct (I12 S C HS) as [A B]. split; [done|]. intros o' t' Ho%Hl. by eapply B.
Qed.
Lemma CI_abandon G c t : CI G c → CI G (abandon t c).
Proof. intros Hc. unfold abandon. destruct (_ || _); [done|]. by apply CI_count, CI_drop. Qed.

Lemma CI_putA G c a :
  CI G c → auditOk (au_origin a) a → au_origin a ≤ co_nextOrigin c → co_live c !! au_origin a = None →
  (∀ d, d ∈ sentE c → tc_Origin d = au_origin a →
     (tc_Op d = OpTxnGet → tc_Key d ∈ accts ∧ tc_ReadTS d = au_readTS a) ∧ (tc_Op d = OpApplyResolution → tc_Key d ∈ accts)
     ∧ (tc_Op d = OpResolveStatus → is_Some (au_blocked a !! lockName (tc_Key d) (tc_StartTS d)))) →
  CI G (putA a c).
Proof.
  intros [I1 I2 I3 I4 I5 I6 I7 I8 I9 I10 I11 I12 I13 I14 I15 I16] Ha Hb Hn Hd.
  assert (Hl : ∀ o a', co_audits (putA a c) !! o = Some a' → o = au_origin a ∧ a' = a ∨ o ≠ au_origin a ∧ co_audits c !! o = Some a').
  { intros o a'. cbn. rewrite lookup_insert_Some. intros [[<- <-]|[? ?]]; [by left|right]. auto. }
  split; try done.
  - intros o a' [[-> ->]|[_ Ho]]%Hl; [by split_and!|]. by apply I8.
  - intros d Hs. destruct (I9 d Hs) as [A B C]. split; [done|done|]. intros a' [[Ho ->]|[_ Ho]]%Hl; [by apply Hd|by apply C].
Qed.
(** An audit that keeps its timestamp and forgets no lock. *)
Lemma CI_reputA G c a0 a :
  CI G c → co_audits c !! au_origin a = Some a0 → au_readTS a = au_readTS a0 → (∀ x, is_Some (au_blocked a0 !! x) → is_Some (au_blocked a !! x)) →
  auditOk (au_origin a) a → CI G (putA a c).
Proof.
  intros Hc H0 Hr Hbl Ha. destruct (ci_audit _ _ Hc _ _ H0) as (_ & Hb & Hn). apply CI_putA; [done..|].
  intros d Hd Ho. rewrite <- Ho in H0. destruct (or_audit _ _ (ci_origin _ _ Hc d Hd) _ H0) as (A & B & C). rewrite Hr. split_and!; auto.
Qed.

(** A new number. *)
Lemma CI_next G c : CI G c → co_nextOrigin c + 1 < 2 ^ 64 →
  let c' := c <| co_nextOrigin := add64 (co_nextOrigin c) 1 |> in
  CI G c' ∧ 0 < co_nextOrigin c' ∧ co_live c' !! co_nextOrigin c' = None ∧ co_audits c' !! co_nextOrigin c' = None
  ∧ (∀ g, g ∈ gh_txns G → tf_origin g ≠ co_nextOrigin c') ∧ ∀ d, d ∈ sentE c' → tc_Origin d ≠ co_nextOrigin c'.
Proof.
  intros Hc Hr c'. pose proof Hc as [I1 I2 I3 I4 I5 I6 I7 I8 I9 I10 I11 I12 I13 I14 I15 I16].
  assert (En : co_nextOrigin c' = co_nextOrigin c + 1) by (unfold c'; cbn; apply add64_small; lia).
  assert (CI G c').
  { split; try done; rewrite ?En; try lia.
    - intros o t Ht. destruct (I6 o t Ht). split; [done|lia].
    - intros o a Ho. destruct (I8 o a Ho) as (A & B & C). split_and!; [done|lia|done].
    - intros d Hd. destruct (I9 d Hd) as [A B C]. split; [rewrite En; lia|done|done].
    - intros g Hg. destruct (I10 g Hg). split; [done|lia]. }
  rewrite En. split_and!; [done|lia| | | |].
  - destruct (co_live c' !! _) as [t|] eqn:E; [|done]. apply I6 in E. lia.
  - destruct (co_audits c' !! _) as [a|] eqn:E; [|done]. apply I8 in E. lia.
  - intros g Hg. apply I10 in Hg. lia.
  - intros d Hd. apply I9 in Hd as [? _ _]. lia.
Qed.

(** *** The ghost grows *)

Definition extends (G G' : ghost) : Prop :=
  (∀ g, g ∈ gh_txns G → g ∈ gh_txns G') ∧ ∀ S x, gh_dec G S = Some x → gh_dec G' S = Some x.

Lemma cmdFact_ext G G' d : extends G G' → cmdFact rngs G w d → cmdFact rngs G' w d.
Proof.
  intros [Hg Hd] [Hc Ho]. split; [done|]. unfold opFact in *. destruct (tc_Op d); try done.
  - destruct Ho as (g & A & B). exists g. auto.
  - destruct Ho as (g & A & B). exists g. auto.
  - destruct Ho as (g & A & B). exists g. auto.
  - destruct Ho as (g & A & B & C & E). exists g. split_and!; [by apply Hg|done..|]. destruct E as [[? ?]|(? & ? & ?)]; [left|right]; auto.
  - destruct Ho as (g & A & B). exists g. auto.
  - destruct Ho as (g & r & A & B). exists g, r. auto.
Qed.
Lemma ansFact_ext G G' d r : extends G G' → ghostOk rngs accts G' w → cmdFact rngs G w d → ansFact rngs G w d r → ansFact rngs G' w d r.
Proof.
  intros [Hg Hd] HG' [_ Ho]. unfold ansFact, opFact in *. destruct (tc_Op d); try done.
  - intros Ha Hr g Hgg Hs. destruct Ho as (g0 & Hg0 & [Hs0 _] & _). assert (g = g0) as -> by (apply (go_start _ _ _ _ HG'); [done|by apply Hg|congruence]). by apply Ha.
  - intros Ha g Hgg Hs. destruct Ho as (g0 & Hg0 & [Hs0 _] & _). assert (g = g0) as -> by (apply (go_start _ _ _ _ HG'); [done|by apply Hg|congruence]). by apply Ha.
  - intros [A B]. split; [|done]. intros Hl. destruct (A Hl) as (C & g & Hgg & E). split; [done|]. exists g. auto.
  - intros [A B]. split; [done|]. intros Hl. destruct (B Hl) as (g & rec & Hgg & E). exists g, rec. auto.
Qed.
Lemma storeOk_ext G G' pend :
  extends G G' → storeOk rngs G w pend → (∀ g, g ∈ gh_txns G' → g ∈ gh_txns G ∨ recN rngs w g = None) → storeOk rngs G' w pend.
Proof.
  intros [Hg Hd] [S1 S2 S3 S4 S5 S6 S7] Hn. split; try done.
  - intros k l Hk Hl. destruct (S2 k l Hk Hl) as (A & g & B & C). split; [done|]. exists g. auto.
  - intros k t st Hk Hr. destruct (S3 k t st Hk Hr) as (g & B & C). exists g. auto.
  - intros g C Hgg Hca. destruct (Hn g Hgg) as [Hg0|Hno]; [|destruct Hca as (? & ? & _); congruence]. destruct (S4 g C Hg0 Hca) as (A & B). auto.
  - intros g r Hgg Hr. destruct (Hn g Hgg) as [Hg0|Hno]; [by eapply S6|congruence].
  - intros p s r Hp Hs Hr. destruct (S7 p s r Hp Hs Hr) as (g & A & B). exists g. auto.
Qed.

Lemma CI_extend G G' c :
  CI G c → extends G G' → ghostOk rngs accts G' w → (∀ g, g ∈ gh_txns G' → g ∈ gh_txns G ∨ recN rngs w g = None) →
  (∀ o t, co_live c !! o = Some t → phaseOk G' o t) →
  (∀ g, g ∈ gh_txns G' → tf_startTS g ∈ stampsE c ∧ tf_origin g ≤ co_nextOrigin c) →
  (∀ g g', g ∈ gh_txns G' → g' ∈ gh_txns G' → tf_origin g = tf_origin g' → g = g') →
  (∀ S C, gh_dec G' S = Some (Some C) → C ∈ stampsE c ∧ ∀ o t, co_live c !! o = Some t → tf_startTS t ≠ C) →
  (∀ S x, gh_dec G' S = Some x → ∃ g, g ∈ gh_txns G' ∧ tf_startTS g = S) → CI G' c.
Proof.
  intros [I1 I2 I3 I4 I5 I6 I7 I8 I9 I10 I11 I12 I13 I14 I15 I16] He HG' Hrec Hph Hgm Hgo Hdec Hdo. split; try done.
  - by apply (storeOk_ext G).
  - intros d Hd. by apply (cmdFact_ext G), I3.
  - intros d r Hd. destruct (I5 d r Hd) as [A B]. split; [|done]. apply (ansFact_ext G); try done. apply I3. unfold sentE. apply elem_of_app. by left.
  - intros o t Ht. destruct (I6 o t Ht) as [[A B C E _] Hb]. split; [|done]. split; try done. by apply Hph.
Qed.

(** The live transfers but one. *)
Lemma putT_drop G t c : CI G (putT t (c <| co_live := delete (tf_origin t) (co_live c) |>)) → CI G (putT t c).
Proof. apply CI_alike. split; try done. cbn. by rewrite insert_delete_eq. Qed.

(** A transfer prewrites: it joins the ghost. *)
Lemma CI_addTxn G c t0 t :
  CI G c → co_live c !! tf_origin t = Some t0 → tf_phase t0 = phaseRead → tf_startTS t = tf_startTS t0 → tf_keys t = tf_keys t0 → tf_ts t = tf_ts t0 →
  tf_phase t = phasePrewrite → tf_ack t = ∅ → readOk rngs accts w t → CI (MkGhost (t :: gh_txns G) (gh_dec G)) (putT t c).
Proof.
  intros Hc H0 Hp Hs Hk Hts Hpt Hack Hr. set (G' := MkGhost _ _). set (o := tf_origin t) in *.
  destruct (ci_live _ _ Hc o t0 H0) as [[Ho Hpos Htf (a & Hmint) Hph] Hb]. unfold phaseOk in Hph. rewrite Hp in Hph. destruct Hph as (Hnew & _).
  assert (Hnone : gh_dec G (tf_startTS t) = None).
  { destruct (gh_dec G _) as [x|] eqn:E; [|done]. destruct (ci_decof _ _ Hc _ _ E) as (g & Hg & He). destruct (Hnew g Hg). congruence. }
  assert (Hrec : recN rngs w t = None).
  { destruct (recN rngs w t) as [r|] eqn:E; [|done]. destruct (sk_recof _ _ _ _ (ci_store _ _ Hc) (tf_primary t) (tf_startTS t) r) as (g & Hg & He); [| |exact E|].
    - rewrite (to_primary _ _ (ro_tf _ _ _ _ Hr)). apply Haccts, (to_from _ _ (ro_tf _ _ _ _ Hr)).
    - apply (to_start _ _ (ro_tf _ _ _ _ Hr)).
    - destruct (Hnew g Hg). congruence. }
  apply putT_drop. set (c1 := c <| co_live := _ |>).
  assert (Hlive : ∀ o' t', co_live c1 !! o' = Some t' → o' ≠ o ∧ co_live c !! o' = Some t').
  { intros o' t' Ht'. unfold c1 in Ht'. cbn in Ht'. apply lookup_delete_Some in Ht' as [? ?]. by split. }
  assert (Hother : ∀ o' t', co_live c1 !! o' = Some t' → tf_startTS t' ≠ tf_startTS t).
  { intros o' t' [Hn Ht']%Hlive He. apply Hn. eapply (ci_uniq _ _ Hc); [exact Ht'|exact H0|congruence]. }
  assert (Hin : ∀ g, g ∈ gh_txns G' → g = t ∨ g ∈ gh_txns G) by (intros g Hg; by apply elem_of_cons in Hg).
  assert (Hst : tf_startTS t ∈ stampsE c) by (apply list_elem_of_fmap; exists (tf_ts t0, a, tf_startTS t0); by split; [|]).
  assert (Hc1 : CI G' c1).
  { apply (CI_extend G); [by apply CI_drop|split; [intros g Hg; by right|done]| | | | | | |].
    - pose proof (ci_ghost _ _ Hc) as [E1 E2 E3 E4 E5 E6]. split; try done.
      + intros g [->|Hg]%Hin; [done|by apply E1].
      + constructor; [|done]. intros Hg. destruct (Hnew t Hg) as [? _]. congruence.
      + intros g g' [->|Hg]%Hin [->|Hg']%Hin He; [done| | |by apply E3].
        * destruct (Hnew g' Hg'). congruence.
        * destruct (Hnew g Hg). congruence.
      + intros S C g HS [->|Hg]%Hin; [|by eapply E5]. rewrite Hs. by eapply (proj2 (ci_dec _ _ Hc S C HS)).
    - intros g [->|Hg]%Hin; auto.
    - intros o' t' Ht'. pose proof (Hother o' t' Ht') as Hne. apply Hlive in Ht' as [Hno Ht'].
      destruct (ci_live _ _ Hc _ _ Ht') as [[_ _ _ _ Hph'] _]. unfold phaseOk in *. destruct (tf_phase t'); try done.
      + destruct Hph' as (A & B & C). split_and!; try done. intros g [->|Hg]%Hin; [by split|by apply A].
      + destruct Hph' as (g & A & B). exists g. split; [by right|done].
      + destruct Hph' as (g & A & B). exists g. split; [by right|done].
      + destruct Hph' as (g & A & B). exists g. split; [by right|done].
      + destruct Hph' as (g & A & B). exists g. split; [by right|done].
    - intros g [->|Hg]%Hin; [split; [done|]|by apply (ci_gmint _ _ Hc)]. exact Hb.
    - intros g g' [->|Hg]%Hin [->|Hg']%Hin He; [done| | |by apply (ci_gorigin _ _ Hc)].
      + destruct (Hnew g' Hg') as [_ []]. done.
      + destruct (Hnew g Hg) as [_ []]. done.
    - intros S C HS. destruct (ci_dec _ _ Hc S C HS) as [A B]. split; [done|]. intros o' t' [_ Ht']%Hlive. by eapply B.
    - intros S x HS. destruct (ci_decof _ _ Hc S x HS) as (g & A & B). exists g. split; [by right|done]. }
  apply CI_putT; [done| |done| | | |].
  - split; [done|done|apply Hr| |].
    + exists a. rewrite Hts, Hs. exact Hmint.
    + unfold phaseOk. rewrite Hpt. exists t. split_and!; [by left|by split_and!|done|]. intros k Hkk. rewrite Hack in Hkk. by apply not_elem_of_empty in Hkk.
  - destruct (co_audits c1 !! tf_origin t) as [x|] eqn:E; [|done]. destruct (ci_audit _ _ Hc _ _ E) as (_ & _ & Hno). unfold o in H0. congruence.
  - intros o' t' _ Ht'. by apply (Hother o').
  - intros S C HS. rewrite Hs. by eapply (proj2 (ci_dec _ _ Hc S C HS)).
  - intros d Hd Hdo Hop. rewrite Hk. apply (or_live _ _ (ci_origin _ _ Hc d Hd)); [by rewrite Hdo|done].
Qed.

(** A transfer that has prewritten is told to commit at a new timestamp, or to roll
    back. *)
Lemma CI_decide G c t0 t x :
  CI G c → co_live c !! tf_origin t = Some t0 → tf_phase t0 = phasePrewrite → tf_startTS t = tf_startTS t0 → tf_keys t = tf_keys t0 →
  tf_primary t = tf_primary t0 → tf_ts t = tf_ts t0 → tfOk accts t →
  match x with
  | Some C => fresh G c C ∧ ts_lt (tf_startTS t) C ∧ tf_phase t = phasePrimaryRecord ∧ tf_commitTS t = C
  | None => tf_phase t = phaseAbort
  end →
  CI (MkGhost (gh_txns G) (λ S, if decide (S = tf_startTS t) then Some x else gh_dec G S)) (putT t c).
Proof.
  intros Hc H0 Hp Hs Hk Hpr Hts Htf Hx. set (G' := MkGhost _ _). set (o := tf_origin t) in *.
  destruct (ci_live _ _ Hc o t0 H0) as [[Ho Hpos Htf0 (a & Hmint) Hph] Hb]. unfold phaseOk in Hph. rewrite Hp in Hph.
  destruct Hph as (g0 & Hg0 & (F1 & F2 & F3 & F4) & Hnone & _).
  assert (Hnew : ∀ S C, gh_dec G' S = Some (Some C) → gh_dec G S = Some (Some C) ∨ S = tf_startTS t ∧ x = Some C).
  { intros S C. cbn. destruct (decide (S = tf_startTS t)) as [->|]; [|by left]. intros [= ->]. by right. }
  apply putT_drop. set (c1 := c <| co_live := _ |>).
  assert (Hlive : ∀ o' t', co_live c1 !! o' = Some t' → o' ≠ o ∧ co_live c !! o' = Some t').
  { intros o' t' Ht'. unfold c1 in Ht'. cbn in Ht'. apply lookup_delete_Some in Ht' as [? ?]. by split. }
  assert (Hother : ∀ o' t', co_live c1 !! o' = Some t' → tf_startTS t' ≠ tf_startTS t).
  { intros o' t' [Hn Ht']%Hlive He. apply Hn. eapply (ci_uniq _ _ Hc); [exact Ht'|exact H0|congruence]. }
  assert (Hkeep : ∀ S, S ≠ tf_startTS t → gh_dec G' S = gh_dec G S) by (intros S HS; cbn; by rewrite decide_False).
  assert (Hc1 : CI G' c1).
  { apply (CI_extend G); [by apply CI_drop|split; [done|]| | | | | | |].
    - intros S y HS. cbn. rewrite decide_False; [done|]. intros ->. rewrite Hs in HS. congruence.
    - pose proof (ci_ghost _ _ Hc) as [E1 E2 E3 E4 E5 E6]. split; try done.
      + intros S C [HS|[-> ->]]%Hnew; [by apply E4|]. destruct Hx as (Hf & Hlt & _). split; [done|apply Hf].
      + intros S C g [HS|[-> ->]]%Hnew Hg; [by eapply E5|]. destruct Hx as (Hf & _). by apply (fr_txn _ _ _ Hf).
      + intros S S' C [HS|[-> ->]]%Hnew [HS'|[-> Hx']]%Hnew; [by eapply E6| | |done].
        * subst x. destruct Hx as (Hf & _). by destruct (fr_dec _ _ _ Hf S).
        * destruct Hx as (Hf & _). by destruct (fr_dec _ _ _ Hf S').
    - by left.
    - intros o' t' Ht'. pose proof (Hother o' t' Ht') as Hne. apply Hlive in Ht' as [Hno Ht'].
      destruct (ci_live _ _ Hc _ _ Ht') as [[_ _ _ _ Hph'] _]. unfold phaseOk in *. rewrite (Hkeep (tf_startTS t')) by done. done.
    - apply (ci_gmint _ _ Hc).
    - apply (ci_gorigin _ _ Hc).
    - intros S C [HS|[-> ->]]%Hnew.
      + destruct (ci_dec _ _ Hc S C HS) as [A B]. split; [done|]. intros o' t' [_ Ht']%Hlive. by eapply B.
      + destruct Hx as (Hf & _). split; [apply Hf|]. intros o' t' [_ Ht']%Hlive. by eapply (fr_live _ _ _ Hf).
    - intros S y HS. destruct (decide (S = tf_startTS t)) as [->|Hne]; [exists g0; split; [done|congruence]|].
      rewrite Hkeep in HS by done. by eapply (ci_decof _ _ Hc). }
  assert (Hfro : frozen g0 t).
  { split_and!; [|congruence..]. rewrite F1. exact Ho. }
  apply CI_putT; [done| |done| | | |].
  - split; [done|done|done| |].
    + exists a. rewrite Hts, Hs. exact Hmint.
    + unfold phaseOk. destruct x as [C|].
      * destruct Hx as (_ & _ & -> & <-). exists g0. split_and!; [done..|]. cbn. by rewrite decide_True.
      * rewrite Hx. exists g0. split_and!; [done..|]. left. cbn. by rewrite decide_True.
  - destruct (co_audits c1 !! tf_origin t) as [y|] eqn:E; [|done]. destruct (ci_audit _ _ Hc _ _ E) as (_ & _ & Hno). unfold o in H0. congruence.
  - intros o' t' _ Ht'. by apply (Hother o').
  - intros S C [HS|[-> ->]]%Hnew; [rewrite Hs; by eapply (proj2 (ci_dec _ _ Hc S C HS))|]. destruct Hx as (Hf & _).
    rewrite Hs. by eapply (fr_live _ _ _ Hf).
  - intros d Hd Hdo Hop. rewrite Hk. apply (or_live _ _ (ci_origin _ _ Hc d Hd)); [by rewrite Hdo|done].
Qed.
End Event.
End Run.
