(* ===== verification/BankHandle.v ===== *)
(** * The coordinator keeps its invariant

    Every handler of [BankCoord] keeps the invariant of [BankRun]: the answers to a
    transfer's reads, prewrites, record and keys, those to an audit, and what the harness
    schedules.  None of them panics. *)

From Stdlib Require Import Lia ZArith.
From stdpp Require Import base tactics numbers option gmap list.
From S2P Require Import Prelude Bytes ConfChange RaftTypes Hlc SimQueue SimLoop SimTransport CheckLedger CheckOracles Engine KvEncoding EngineIface KvStore KvTxn EngineMap StoreCodec CheckTxn StoreReplay StoreTxn StoreRange StoreNode CheckStore BankCoord StoreDriver BankSystem BankInv BankConserve BankRun.

Section Handle.
Context {D : Type} `{TimeSource D}.
Context (rngs : list (RangeDescriptor * Timestamp)).
Context (accts : list bytes) (Haccts : ∀ k, k ∈ accts → key_ok k) (Hnd : NoDup accts).
Context (w : list (gmap bytes bytes)) (sent0 pend0 : list TxnCommand) (ans : list (TxnCommand * TxnResult)) (ms0 : list (Z * Z * Timestamp)).
Implicit Types c : coordinator D.
Implicit Types t : transfer.
Implicit Types G : ghost.

Abbreviation CI := (CI rngs accts w sent0 pend0 ans ms0).
Abbreviation sending := (sending rngs accts w sent0 pend0 ans ms0).
Abbreviation msE := (msE (D := D) ms0).
Abbreviation originOk := (originOk (D := D) accts).
Abbreviation phaseOk := (phaseOk rngs w).
Abbreviation tfOk := (tfOk accts).
Abbreviation auditOk := (auditOk rngs accts w).
Abbreviation cmdFact G d := (cmdFact rngs G w d).

(** Nothing put out was a timestamp. *)
Ltac quiet := intros; unfold BankRun.msE; cbn; by rewrite mints_app, app_nil_r.

(** ** Commands *)

Lemma wall_zero : wall_ok zeroTimestamp.
Proof. by vm_compute. Qed.
Lemma key_nil : key_ok [].
Proof. by vm_compute. Qed.
Hint Resolve wall_zero key_nil : core.

Lemma originOk_live G c d t :
  CI G c → co_live c !! tc_Origin d = Some t → (tc_Op d = OpTxnGet ∨ tc_Op d = OpApplyResolution → tc_Key d ∈ tf_keys t) → originOk c d.
Proof.
  intros Hc Ht Hk. split.
  - by apply (ci_live _ _ _ _ _ _ _ _ _ Hc _ _ Ht).
  - intros t' Ht'. by simplify_eq.
  - intros a Ha. destruct (ci_audit _ _ _ _ _ _ _ _ _ Hc _ _ Ha) as (_ & _ & ?). congruence.
Qed.
Lemma originOk_audit G c d a :
  CI G c → co_audits c !! tc_Origin d = Some a → (tc_Op d = OpTxnGet → tc_Key d ∈ accts ∧ tc_ReadTS d = au_readTS a) →
  (tc_Op d = OpApplyResolution → tc_Key d ∈ accts) → (tc_Op d = OpResolveStatus → is_Some (au_blocked a !! lockName (tc_Key d) (tc_StartTS d))) →
  originOk c d.
Proof.
  intros Hc Ha H1 H2 H3. destruct (ci_audit _ _ _ _ _ _ _ _ _ Hc _ _ Ha) as (_ & Hb & Hn). split; [done| |].
  - intros t Ht. congruence.
  - intros a' Ha'. by simplify_eq.
Qed.
Lemma originOk_zero G c d : CI G c → tc_Origin d = 0 → originOk c d.
Proof.
  intros Hc Hd. split; rewrite ?Hd.
  - apply (ci_next _ _ _ _ _ _ _ _ _ Hc).
  - intros t Ht. destruct (ci_live _ _ _ _ _ _ _ _ _ Hc _ _ Ht) as [[_ Hp _ _ _] _]. lia.
  - intros a Ha. destruct (ci_audit _ _ _ _ _ _ _ _ _ Hc _ _ Ha) as ([_ Hp _ _ _ _] & _). lia.
Qed.

(** What every change to a transfer but a restart keeps. *)
Definition core t := (tf_id t, tf_origin t, tf_startTS t, tf_keys t, tf_ts t, (tf_from t, tf_to t, tf_primary t, tf_amount t)).
Lemma tfOk_core t t' : core t' = core t → tfOk t → tfOk t'.
Proof.
  unfold core. intros [= E1 E2 E3 E4 E5 E6 E7 E8] [A1 A2 A3 A4 A5 A6]. split; congruence.
Qed.

Lemma live_facts G c o t : CI G c → co_live c !! o = Some t → tf_origin t = o ∧ 0 < o ∧ o ≤ co_nextOrigin c ∧ tfOk t ∧ phaseOk G o t.
Proof. intros Hc Ht. destruct (ci_live _ _ _ _ _ _ _ _ _ Hc _ _ Ht) as [[A B C _ E] F]. done. Qed.

Lemma CI_upd G c t0 t :
  CI G c → co_live c !! tf_origin t = Some t0 → core t = core t0 → phaseOk G (tf_origin t) t → CI G (putT t c).
Proof.
  intros Hc H0 Hco Hp. destruct (ci_live _ _ _ _ _ _ _ _ _ Hc _ _ H0) as [[A B C E F] Hb]. pose proof Hco as Hco'.
  unfold core in Hco. injection Hco as E1 E2 E3 E4 E5 E6 E7 E8. eapply CI_reput; [done..|]. split; [done|done|by eapply tfOk_core| |done].
  rewrite E5, E3. exact E.
Qed.

Lemma keys_key t k : tfOk t → k ∈ tf_keys t → k ∈ accts.
Proof. intros [A1 A2 -> _ _ _] [->|[->|[]%elem_of_nil]%elem_of_cons]%elem_of_cons; done. Qed.

(** ** Reads *)

Lemma sending_readAt G c c' t t' k at_ :
  sending G c c' → CI G c → co_live c !! tf_origin t = Some t' → tf_keys t' = tf_keys t → tfOk t → k ∈ tf_keys t → sending G c (readAt t k at_ c').
Proof.
  intros Hs Hc Ht Hk Htf Hin. unfold readAt, send. apply sending_out; [by apply sending_count| | |by left].
  - assert (Hw : wall_ok (tf_startTS t)) by apply Htf. split; [|done]. split; cbn; [|done..]. by apply Haccts, (keys_key t).
  - eapply originOk_live; [done|done|]. intros _. by rewrite Hk.
Qed.
Lemma sending_readAll G c t t' at_ :
  CI G c → co_live c !! tf_origin t = Some t' → tf_keys t' = tf_keys t → tfOk t → sending G c (readAll t at_ c).
Proof. intros Hc Ht Hk Htf. apply CI_each; [|done]. intros c' k Hin Hs. by eapply sending_readAt. Qed.

(** A transfer still reading that learns a value, or what blocks it. *)
Lemma CI_reading G c t0 t :
  CI G c → co_live c !! tf_origin t = Some t0 → core t = core t0 → tf_phase t0 = phaseRead → tf_phase t = phaseRead →
  (∀ k v, tf_read t !! k = Some v → tf_read t0 !! k = Some v ∨ k ∈ tf_keys t0 ∧ ∃ rv, answeredY rngs w k (tf_startTS t0) rv ∧ amount rv = Some v) →
  (∀ x k, tf_blocked t !! x = Some k → tf_blocked t0 !! x = Some k ∨ k ∈ tf_keys t0) → CI G (putT t c).
Proof.
  intros Hc H0 Hco Hp0 Hp Hr Hb. eapply CI_upd; [done..|]. destruct (live_facts _ _ _ _ Hc H0) as (_ & _ & _ & _ & Hph).
  unfold BankRun.phaseOk in *. rewrite Hp0 in Hph. rewrite Hp. unfold core in Hco. injection Hco as _ _ E3 E4 _ _ _ _ _. rewrite E3, E4.
  destruct Hph as (A & B & C). split_and!; [done| |].
  - intros k v [Hv|?]%Hr; [by apply B|done].
  - intros x k [Hx|?]%Hb; [by eapply C|done].
Qed.

(** Both accounts read, [prewrite] has what it needs. *)
Lemma both_in {A} (m : gmap bytes A) (x y : bytes) :
  (∀ k v, m !! k = Some v → k ∈ [x; y]) → (2 ≤ size m)%nat → x ≠ y ∧ is_Some (m !! x) ∧ is_Some (m !! y).
Proof.
  intros Hin Hsz. rewrite <- (size_dom m) in Hsz.
  assert (Hsub : ∀ X : gset bytes, (∀ k, k ∈ dom m → k ∈ X) → (2 ≤ size X)%nat).
  { intros X HX. assert (dom m ⊆ X) by set_solver. pose proof (subseteq_size (dom m) X ltac:(done)). lia. }
  assert (Hxy : ∀ k, k ∈ dom m → k = x ∨ k = y).
  { intros k [v Hv]%elem_of_dom. apply Hin in Hv. apply elem_of_cons in Hv as [?|Hv]; [by left|]. apply list_elem_of_singleton in Hv. by right. }
  assert (Hone : ∀ z, (∀ k, k ∈ dom m → k = z) → False).
  { intros z Hz. specialize (Hsub {[z]}). rewrite size_singleton in Hsub. assert (2 ≤ 1)%nat; [|lia]. apply Hsub. intros k Hk. rewrite (Hz k Hk). set_solver. }
  split_and!.
  - intros ->. apply (Hone y). intros k Hk. by destruct (Hxy k Hk).
  - apply elem_of_dom. destruct (decide (x ∈ dom m)) as [|Hn]; [done|]. destruct (Hone y). intros k Hk. destruct (Hxy k Hk) as [->|?]; done.
  - apply elem_of_dom. destruct (decide (y ∈ dom m)) as [|Hn]; [done|]. destruct (Hone x). intros k Hk. destruct (Hxy k Hk) as [?| ->]; done.
Qed.

Lemma prewrite_good G c t at_ :
  CI G c → co_live c !! tf_origin t = Some t → tf_phase t = phaseRead → (length (tf_keys t) ≤ size (tf_read t))%nat →
  ∃ c' G', prewrite t at_ c = Some c' ∧ CI G' c'.
Proof.
  intros Hc Ht Hp Hsz. destruct (live_facts _ _ _ _ Hc Ht) as (_ & _ & _ & Htf & Hph). pose proof Htf as [T1 T2 T3 T4 T5 T6].
  unfold BankRun.phaseOk in Hph. rewrite Hp in Hph. destruct Hph as (_ & Hrd & _). rewrite T3 in Hsz, Hrd.
  destruct (both_in (tf_read t) (tf_from t) (tf_to t)) as (Hne & [vf Hf] & [vt Hto]); [intros k v Hv; by apply (Hrd k v)|done|].
  unfold prewrite. rewrite T3. cbn [forallb]. rewrite !bool_decide_eq_true_2 by (rewrite ?Hf, ?Hto; eauto). cbn [andb negb].
  match goal with |- context [foldl _ (putT ?x c) _] => set (t1 := x) end.
  assert (Hok : readOk rngs accts w t1).
  { split; [by apply (tfOk_core t)|done| |].
    - destruct (Hrd _ _ Hf) as (_ & rv & Ha & Hamt). exists rv, vf. split_and!; [done..|]. cbn. rewrite lookup_insert_ne, lookup_insert_eq by done. by rewrite Hf.
    - destruct (Hrd _ _ Hto) as (_ & rv & Ha & Hamt). exists rv, vt. split_and!; [done..|]. cbn. by rewrite lookup_insert_eq, Hto. }
  eexists _, _. split; [reflexivity|]. set (G' := MkGhost (t1 :: gh_txns G) (gh_dec G)).
  assert (Hc1 : CI G' (putT t1 c)) by by apply (CI_addTxn _ _ Haccts _ _ _ _ _ _ _ t).
  refine (proj1 (CI_each rngs accts w sent0 pend0 ans ms0 G' _ _ _ _ Hc1)).
  intros c' k Hk Hs. change (k ∈ tf_keys t) in Hk. apply sending_out; [done| | |by left].
  - assert (Hka : k ∈ accts) by (by apply (keys_key t)).
    split; [split; cbn; [by apply Haccts| |apply T6|done| |apply T6]|].
    + rewrite T4. by apply Haccts.
    + destruct T6 as [[[Hw1 Hw2] Hw3] _ Hroom _]. unfold Wall_Add. rewrite i64_small; [|unfold is_i64, DefaultTTL in *; lia].
      split; [split; cbn; unfold is_i64, is_u32, DefaultTTL in *; lia|cbn; unfold DefaultTTL; lia].
    + unfold opFact. cbn. exists t1. split_and!; [by left|by split|done|done|].
      change (tf_values t1 !! k = Some (default [] (tf_values t1 !! k))). rewrite T3 in Hk. apply elem_of_cons in Hk as [->|Hk]; [|apply list_elem_of_singleton in Hk as ->].
      * change (tf_from t) with (tf_from t1). by destruct (ro_from _ _ _ _ Hok) as (? & ? & _ & _ & ->).
      * change (tf_to t) with (tf_to t1). by destruct (ro_to _ _ _ _ Hok) as (? & ? & _ & _ & ->).
  - eapply (originOk_live G'); [done|cbn; apply lookup_insert_eq|]. by intros [].
Qed.

(** A restart takes a new timestamp and reads again. *)
Lemma restartAbove_good G c t0 t ts at_ :
  CI G c → co_live c !! tf_origin t = Some t0 → core t = core t0 → tf_phase t0 = phaseRead → mintsOk (msE (restartAbove t ts at_ c)) →
  CI G (restartAbove t ts at_ c).
Proof.
  intros Hc H0 Hco Hp0. destruct (live_facts _ _ _ _ Hc H0) as (Ho & Hpos & Hb & Htf & Hph). unfold restartAbove.
  destruct (nowAboveFrom (tf_ts t) ts c) as [[[minted node] c1]|] eqn:Em; [|intros _; by apply CI_abandon]. intros Hms.
  match goal with |- context [readAll ?x at_ (putT ?x ?y)] => set (t2 := x) in *; set (c2 := y) in * end.
  assert (Emm : co_out c2 = co_out c1) by (unfold c2, checkStartTag; repeat case_match; done).
  assert (Eml : co_live c2 = co_live c1 ∧ co_audits c2 = co_audits c1 ∧ co_nextOrigin c2 = co_nextOrigin c1 ∧ co_accounts c2 = co_accounts c1
    ∧ lg_audits (co_ledger c2) = lg_audits (co_ledger c1)) by (unfold c2, checkStartTag; repeat case_match; done).
  assert (Hmo : msE (readAll t2 at_ (putT t2 c2)) = msE c1).
  { unfold readAll. rewrite (msE_each ms0). - unfold BankRun.msE. cbn. by rewrite Emm. - quiet. }
  rewrite Hmo in Hms. destruct (CI_mint _ _ _ _ _ _ _ _ _ _ _ _ _ _ _ _ Em Hms Hc) as (Hc1 & (E1 & E2 & E3 & E4 & E5) & Hf & Em1 & _).
  destruct Eml as (F1 & F2 & F3 & F4 & F5).
  assert (Hc2 : CI G c2) by (apply (CI_alike _ _ _ _ _ _ _ _ c1); [split; try done; by rewrite Emm|done]).
  unfold core in Hco. injection Hco as C1 C2 C3 C4 C5 C6 C7 C8 C9.
  assert (Htf2 : tfOk t2) by (destruct Htf; split; try (cbn; congruence); apply Hf).
  unfold BankRun.phaseOk in Hph. rewrite Hp0 in Hph. destruct Hph as (Hnew & _).
  assert (Hcp : CI G (putT t2 c2)).
  { apply CI_putT; [done| | | | | |].
    - split; [done|done|done| |].
      + exists node. unfold BankRun.msE. rewrite Emm. fold (BankRun.msE ms0 c1). rewrite Em1. apply elem_of_app. right. left.
      + unfold BankRun.phaseOk. cbn. split_and!; [|by intros ? ? ?%lookup_empty_Some|by intros ? ? ?%lookup_empty_Some].
        intros g Hg. split; [by apply Hf|]. by apply Hnew.
    - rewrite F3, E3. exact Hb.
    - destruct (co_audits c2 !! tf_origin t2) as [a|] eqn:E; [|done]. rewrite F2, E2 in E. destruct (ci_audit _ _ _ _ _ _ _ _ _ Hc _ _ E) as (_ & _ & ?). cbn in *. congruence.
    - intros o t' _ Ht'. rewrite F1 in Ht'. by eapply (fr_live _ _ _ _ Hf).
    - intros S C HS <-. by apply (fr_dec _ _ _ _ Hf S).
    - intros d Hd Hdo Hop. cbn. rewrite C4. apply (or_live _ _ _ (ci_origin _ _ _ _ _ _ _ _ _ Hc2 d Hd)); [rewrite Hdo, F1, E1; exact H0|done]. }
  refine (proj1 (sending_readAll G _ t2 t2 at_ Hcp _ _ Htf2)); [|done]. cbn. apply lookup_insert_eq.
Qed.

(** ** Answers to a transfer *)

Section Answer.
Context G c (cmd : TxnCommand) (r : TxnResult) (at_ : Z) t.
Context (Hc : CI G c) (Hans : (cmd, r) ∈ ans) (Ht : co_live c !! tc_Origin cmd = Some t).

Lemma ans_fact : ansFact rngs G w cmd r ∧ cmdFact G cmd ∧ originOk c cmd.
Proof using Hc Hans.
  destruct (ci_ans _ _ _ _ _ _ _ _ _ Hc _ _ Hans) as [A B].
  assert (Hs : cmd ∈ sentE sent0 c) by (apply elem_of_app; by left). split_and!; [done|by apply Hc|by apply Hc].
Qed.

Lemma onRead_good :
  tc_Op cmd = OpTxnGet → tf_phase t = phaseRead →
  ∃ c', onRead t cmd r at_ c = Some c' ∧ (mintsOk (msE c') → ∃ G', CI G' c').
Proof using Hc Hans Ht Haccts Hnd.
  intros Hop Hph. destruct ans_fact as (Hf & _ & [_ Hor _]). destruct (live_facts _ _ _ _ Hc Ht) as (Ho & _ & _ & Htf & _).
  specialize (Hor t Ht (or_introl Hop)). unfold ansFact in Hf. rewrite Hop in Hf. destruct Hf as [Hlock Hval].
  unfold onRead. case_bool_decide as Hts; cbn [negb]; [|eexists; split; [done|]; intros _; exists G; by apply CI_count].
  set (t1 := if negb _ && _ then _ else t). cbv zeta.
  assert (E1 : core t1 = core t ∧ tf_phase t1 = tf_phase t ∧ tf_read t1 = tf_read t ∧ tf_blocked t1 = tf_blocked t) by (unfold t1; by destruct (_ && _)).
  clearbody t1. destruct E1 as (E1 & E2 & E3 & E4). assert (E5 : tf_origin t1 = tf_origin t) by (unfold core in E1; by injection E1).
  assert (Hc1 : CI G (putT t1 c)).
  { eapply CI_reading; [done|by rewrite E5, Ho|done|done|congruence| |]; rewrite ?E3, ?E4; auto. }
  assert (Hl1 : co_live (putT t1 c) !! tf_origin t1 = Some t1) by apply lookup_insert_eq. rewrite Hph in E2.
  assert (E6 : tf_keys t1 = tf_keys t ∧ tf_startTS t1 = tf_startTS t) by (unfold core in E1; by injection E1).
  set (c1 := putT t1 c) in *. clearbody c1. destruct (x_Locked r).
  { destruct (_ >=? _); [eexists; split; [done|]; intros _; exists G; by apply CI_abandon|].
    set (t2 := t1 <| tf_resolves := _ |>). set (c2 := count c_readerResolves (putT t2 c1)).
    assert (Hc2 : CI G c2) by (apply CI_count; eapply CI_reading; [done|exact Hl1|done|done|done|auto|auto]).
    assert (Hl2 : co_live c2 !! tf_origin t2 = Some t2) by apply lookup_insert_eq. clearbody c2.
    destruct (nowFrom (tf_ts t2) c2) as [[[ts n] c3]|] eqn:Em; [|eexists; split; [done|]; intros _; exists G; by apply CI_abandon].
    eexists. split; [reflexivity|]. intros Hms. set (t3 := t2 <| tf_blocked := _ |>) in *.
    assert (Hmo : ∀ d, msE (send t3 d at_ (putT t3 c3)) = msE c3) by quiet.
    rewrite Hmo in Hms. destruct (CI_mint _ _ _ _ _ _ _ _ _ _ _ _ _ _ _ _ Em Hms Hc2) as (Hc3 & (F1 & _) & _).
    assert (Hc4 : CI G (putT t3 c3)).
    { eapply CI_reading; [done|by rewrite F1|done|done|done|auto|]. intros x k. cbn. rewrite lookup_insert_Some. intros [[_ <-]|[_ ?]]; [right|by left]. by rewrite (proj1 E6). }
    exists G. destruct (Hlock eq_refl) as (Hwd & g & Hg & Hpg & Hsg). destruct (primary_ok _ _ Haccts _ _ (ci_ghost _ _ _ _ _ _ _ _ _ Hc) g Hg) as (P1 & P2 & _).
    apply CI_send; [done| | |by left].
    - split; [split; cbn; rewrite ?Hpg, ?Hsg; try done|unfold opFact; cbn; by exists g]. rewrite (proj2 E6). apply Htf.
    - eapply originOk_live; [done|cbn; apply lookup_insert_eq|]. by intros []. }
  destruct (x_Uncertain r).
  { destruct (_ >=? _); (eexists; split; [reflexivity|]); intros Hms; exists G; [by apply CI_abandon|]. by eapply restartAbove_good. }
  destruct (x_Refused r); [eexists; split; [done|]; intros _; exists G; by apply CI_abandon, CI_count|].
  destruct (Hval eq_refl eq_refl eq_refl) as (v & Ha & Hv). rewrite Hv.
  destruct (amount v) as [z|] eqn:Eam; [|eexists; split; [done|]; intros _; exists G; by apply CI_abandon, CI_count].
  set (t2 := t1 <| tf_read := _ |>).
  assert (Hc2 : CI G (putT t2 c1)).
  { eapply CI_reading; [done|exact Hl1|done|done|done| |auto]. intros k u. cbn. rewrite lookup_insert_Some. intros [[<- <-]|[_ ?]]; [right|by left].
    rewrite (proj1 E6), (proj2 E6), <- Hts. split; [done|]. by exists v. }
  destruct (Nat.ltb_spec (size (tf_read t2)) (length (tf_keys t2))) as [_|Hge]; [eexists; split; [done|]; intros _; by exists G|].
  destruct (prewrite_good G (putT t2 c1) t2 at_) as (c' & G' & E & Hc'); [done|cbn; apply lookup_insert_eq|done|done|].
  exists c'. split; [done|]. intros _. by exists G'.
Qed.

Lemma onStatus_good : tc_Op cmd = OpResolveStatus → tf_phase t = phaseRead → CI G (onStatus t cmd r at_ c).
Proof using Hc Hans Ht Haccts Hnd.
  intros Hop Hph. destruct ans_fact as (Hf & [Hcok _] & _). destruct (live_facts _ _ _ _ Hc Ht) as (Ho & _ & _ & Htf & Hpo).
  unfold ansFact in Hf. rewrite Hop in Hf. destruct Hf as [Hwc Hdec]. unfold BankRun.phaseOk in Hpo. rewrite Hph in Hpo. destruct Hpo as (_ & _ & Hbl).
  unfold onStatus. destruct (tf_blocked t !! _) as [k|] eqn:Eb; [|done]. apply Hbl in Eb. pose proof Ht as Ht'. rewrite <- Ho in Ht'.
  destruct (x_Decided r); cbn [negb].
  - destruct (Hdec eq_refl) as (g & rec & Hg & Hs & Hr & Hrb & Hct). apply CI_send; [by apply CI_count| | |by left].
    + split; [split; cbn; try done; [by apply Haccts, (keys_key t)|apply Hcok|apply Htf]|]. unfold opFact. cbn. exists g, rec.
      split_and!; [done..| |done]. rewrite Hrb. by case_bool_decide.
    + eapply originOk_live; [by apply CI_count|exact Ht'|done].
  - refine (proj1 (sending_readAt G c _ t t k _ _ Hc Ht' eq_refl Htf Eb)). by apply sending_count, sending_refl.
Qed.

(** The transaction a command speaks of is the one the live transfer became. *)
Lemma same_txn g g' : g ∈ gh_txns G → frozen g t → g' ∈ gh_txns G → ofTxn g' cmd → g' = g.
Proof using Hc Ht.
  intros Hg (F1 & _) Hg' [_ Hoo]. destruct (live_facts _ _ _ _ Hc Ht) as (Ho & _).
  apply (ci_gorigin _ _ _ _ _ _ _ _ _ Hc); [done..|]. rewrite F1, Ho. by symmetry.
Qed.

(** The record of a rollback. *)
Lemma abort_good : tf_phase t = phasePrewrite → ∃ G', CI G' (abort t at_ c).
Proof using Hc Ht Haccts.
  intros Hph. destruct (live_facts _ _ _ _ Hc Ht) as (Ho & Hpos & _ & Htf & Hpo). unfold BankRun.phaseOk in Hpo. rewrite Hph in Hpo.
  destruct Hpo as (g & Hg & (F1 & F2 & F3 & F4) & Hdn & _).
  unfold abort. rewrite Hph. cbn [bool_decide orb]. rewrite !bool_decide_eq_false_2 by done. cbn [orb]. set (t1 := t <| tf_phase := phaseAbort |>). pose proof (CI_count _ _ _ _ _ _ _ G c_aborted c Hc) as Hc0.
  assert (Ht0 : co_live (count c_aborted c) !! tf_origin t1 = Some t) by (cbn; by rewrite Ho).
  pose proof (CI_decide _ _ _ _ _ _ _ G _ t t1 None Hc0 Ht0 Hph eq_refl eq_refl eq_refl eq_refl (tfOk_core t t1 eq_refl Htf) eq_refl) as Hc1.
  eexists. apply CI_send; [exact Hc1| | |by right].
  - split; [split; cbn; try done; [rewrite (to_primary _ _ Htf); by apply Haccts, Htf|apply Htf|apply Htf]|]. unfold opFact. cbn. exists g.
    split_and!; [done|by split|by rewrite F3|left]. by rewrite decide_True.
  - eapply originOk_live; [exact Hc1|cbn; apply lookup_insert_eq|]. by intros [].
Qed.

Lemma onPrewrite_good :
  tc_Op cmd = OpPrewrite → tf_phase t = phasePrewrite → mintsOk (msE (onPrewrite t cmd r at_ c)) → ∃ G', CI G' (onPrewrite t cmd r at_ c).
Proof using Hc Hans Ht Haccts Hnd.
  intros Hop Hph. unfold onPrewrite. destruct (x_Rejected r) eqn:Erej; [intros _; by apply abort_good|].
  destruct ans_fact as (Hf & [_ Hcf] & _). destruct (live_facts _ _ _ _ Hc Ht) as (Ho & Hpos & _ & Htf & Hpo).
  unfold ansFact in Hf. rewrite Hop in Hf. unfold opFact in Hcf. rewrite Hop in Hcf. unfold BankRun.phaseOk in Hpo. rewrite Hph in Hpo.
  destruct Hpo as (g & Hg & Hfr & Hdn & Hack). destruct Hcf as (g' & Hg' & Hof & Hk & _). pose proof (same_txn g g' Hg Hfr Hg' Hof). subst g'. clear Hg'.
  specialize (Hf Erej g Hg (eq_sym (proj1 Hof))). pose proof Hfr as (F1 & F2 & F3 & F4).
  set (t1 := t <| tf_ack := _ |>). cbv zeta.
  assert (Hack1 : ∀ k, k ∈ tf_ack t1 → k ∈ tf_keys t1 ∧ pinned rngs w g k).
  { intros k. cbn. rewrite elem_of_union, elem_of_singleton. intros [->|Hkk]; [by rewrite F4 in Hk|by apply Hack]. }
  assert (Hc1 : CI G (putT t1 c)).
  { eapply CI_upd; [done|by rewrite <- Ho in Ht|done|]. unfold BankRun.phaseOk. cbn [t1]. change (tf_phase t1) with (tf_phase t). rewrite Hph. by exists g. }
  assert (Hl1 : co_live (putT t1 c) !! tf_origin t1 = Some t1) by apply lookup_insert_eq. set (c1 := putT t1 c) in *. clearbody c1.
  destruct (Nat.ltb_spec (size (tf_ack t1)) (length (tf_keys t1))) as [_|Hge]; [by exists G|].
  destruct (nowFrom (tf_ts t1) c1) as [[[ts n] c2]|] eqn:Em; [|intros _; exists G; by apply CI_abandon]. set (t2 := t1 <| tf_commitTS := ts |> <| tf_phase := _ |>).
  intros Hms. assert (Hmo : ∀ d, msE (send t2 d at_ (putT t2 c2)) = msE c2) by quiet.
  rewrite Hmo in Hms. destruct (CI_mint _ _ _ _ _ _ _ _ _ _ _ _ _ _ _ _ Em Hms Hc1) as (Hc2 & (L1 & _) & Hfresh & _ & Hlt).
  destruct (ci_live _ _ _ _ _ _ _ _ _ Hc1 _ _ Hl1) as [[_ _ _ (n0 & Hmint) _] _]. specialize (Hlt t1 n0 Hmint eq_refl).
  assert (Hall : ∀ k, k ∈ tf_keys g → pinned rngs w g k).
  { intros k Hkk. apply Hack1. cbn [t1] in Hge. rewrite F4 in Hkk. change (tf_keys t1) with (tf_keys t) in *. rewrite (to_keys _ _ Htf) in Hge, Hkk, Hack1.
    destruct (both_in (gset_to_gmap () (tf_ack t1)) (tf_from t) (tf_to t)) as (_ & [u Hu] & [v Hv]).
    - intros k' []. rewrite lookup_gset_to_gmap_Some. intros [Hin _]. by apply Hack1.
    - rewrite <- size_dom, dom_gset_to_gmap. exact Hge.
    - apply lookup_gset_to_gmap_Some in Hu as [Hu _], Hv as [Hv _]. apply elem_of_cons in Hkk as [->|Hkk]; [done|]. by apply list_elem_of_singleton in Hkk as ->. }
  assert (Hl2 : co_live c2 !! tf_origin t2 = Some t1) by (rewrite L1; exact Hl1).
  pose proof (CI_decide _ _ _ _ _ _ _ G _ t1 t2 (Some ts) Hc2 Hl2 Hph eq_refl eq_refl eq_refl eq_refl (tfOk_core t t2 eq_refl Htf) (conj Hfresh (conj Hlt (conj eq_refl eq_refl)))) as Hc3.
  eexists. apply CI_send_any; [exact Hc3| | |].
  - split; [split; cbn; try done; [rewrite (to_primary _ _ Htf); by apply Haccts, Htf|apply Htf|apply Hfresh|apply Htf]|]. unfold opFact. cbn. exists g.
    split_and!; [done|by split|by rewrite F3|right]. split_and!; [done|by rewrite decide_True|done].
  - eapply originOk_live; [exact Hc3|cbn; apply lookup_insert_eq|]. by intros [].
  - intros S (_ & _ & HS). cbn in HS. subst S. split.
    + intros d Hd (Hdo & Hds & Hdt). destruct (ci_cmd _ _ _ _ _ _ _ _ _ Hc2 d) as [_ Hof']; [by apply Hc2|]. unfold opFact in Hof'. rewrite Hdo in Hof'.
      destruct Hof' as (g' & _ & _ & _ & [[? _]|(_ & Hdd & _)]); [congruence|]. rewrite Hdt in Hdd. congruence.
    + intros g' C Hg'' Hs Hca. destruct (sk_commit _ _ _ _ (ci_store _ _ _ _ _ _ _ _ _ Hc2) g' C Hg'' Hca) as (Hdd & _). rewrite Hs in Hdd. congruence.
Qed.

(** The loops over a transfer's keys, once its record is known. *)
Lemma rollbackKeys_good t1 g c1 :
  CI G c1 → co_live c1 !! tf_origin t1 = Some t1 → g ∈ gh_txns G → frozen g t1 → rolledBack rngs w g → CI G (rollbackKeys t1 at_ c1).
Proof using Haccts.
  intros Hc1 Hl1 Hg (F1 & F2 & F3 & F4) Hrb. destruct (live_facts _ _ _ _ Hc1 Hl1) as (_ & _ & _ & Htf & _).
  refine (proj1 (CI_each rngs accts w sent0 pend0 ans ms0 G _ _ _ _ Hc1)). intros c' k Hk Hs. apply sending_out; [done| | |by left].
  - split; [split; cbn; try done; [by apply Haccts, (keys_key t1)|apply Htf|apply Htf]|]. unfold opFact. cbn. exists g. rewrite F4. by split_and!.
  - eapply originOk_live; [exact Hc1|exact Hl1|]. by intros [].
Qed.
Lemma commitKeys_good t1 g c1 :
  CI G c1 → co_live c1 !! tf_origin t1 = Some t1 → g ∈ gh_txns G → frozen g t1 → committedAs rngs w g (tf_commitTS t1) → CI G (commitKeys t1 at_ c1).
Proof using Haccts.
  intros Hc1 Hl1 Hg (F1 & F2 & F3 & F4) Hca. destruct (live_facts _ _ _ _ Hc1 Hl1) as (_ & _ & _ & Htf & _).
  assert (Hwc : wall_ok (tf_commitTS t1)).
  { destruct Hca as (rec & Hr & _ & <-). by eapply (sk_rec _ _ _ _ (ci_store _ _ _ _ _ _ _ _ _ Hc1)). }
  refine (proj1 (CI_each rngs accts w sent0 pend0 ans ms0 G _ _ _ _ Hc1)). intros c' k Hk Hs. apply sending_out; [done| | |by left].
  - split; [split; cbn; try done; [by apply Haccts, (keys_key t1)|apply Htf|apply Htf]|]. unfold opFact. cbn. exists g. rewrite F4. by split_and!.
  - eapply originOk_live; [exact Hc1|exact Hl1|]. by intros [].
Qed.

(** What the answer to a record tells. *)
Lemma record_told g :
  tc_Op cmd = OpPutTxnRecord → g ∈ gh_txns G → frozen g t →
  (x_Rejected r = true ∨ gh_dec G (tf_startTS t) = Some None → rolledBack rngs w g)
  ∧ ∀ C, x_Rejected r = false → gh_dec G (tf_startTS t) = Some (Some C) → committedAs rngs w g C.
Proof using Hc Hans Ht.
  intros Hop Hg Hfr. destruct ans_fact as (Hf & [_ Hcf] & _). unfold ansFact in Hf. unfold opFact in Hcf. rewrite Hop in Hf, Hcf.
  destruct Hcf as (g' & Hg' & Hof & _ & Hst). pose proof (same_txn g g' Hg Hfr Hg' Hof). subst g'. clear Hg'.
  destruct Hof as [Hs _]. specialize (Hf g Hg (eq_sym Hs)). destruct Hfr as (_ & F2 & _). rewrite Hs, F2 in Hst. split.
  - intros [Hr|Hd].
    + by rewrite Hr, andb_false_r in Hf.
    + destruct Hst as [[Hst _]|(_ & Hd' & _)]; [|congruence]. by rewrite bool_decide_eq_false_2 in Hf by (rewrite Hst; done).
  - intros C Hr Hd. destruct Hst as [[_ ?]|(Hst & Hd' & _)]; [congruence|]. rewrite Hd in Hd'. injection Hd' as ->.
    by rewrite Hr, Hst, bool_decide_eq_true_2 in Hf by done.
Qed.

Lemma onRecord_good : tc_Op cmd = OpPutTxnRecord → tf_phase t = phasePrimaryRecord → CI G (onRecord t r at_ c).
Proof using Hc Hans Ht Haccts.
  intros Hop Hph. destruct (live_facts _ _ _ _ Hc Ht) as (Ho & Hpos & _ & Htf & Hpo). unfold BankRun.phaseOk in Hpo. rewrite Hph in Hpo.
  destruct Hpo as (g & Hg & Hfr & Hdec). destruct (record_told g Hop Hg Hfr) as [Hrb Hcm]. unfold onRecord. destruct (x_Rejected r) eqn:Er.
  - eapply (rollbackKeys_good _ g); [|cbn; apply lookup_insert_eq|done|done|auto].
    eapply CI_upd; [by apply CI_count|cbn; by rewrite Ho|done|]. unfold BankRun.phaseOk. cbn. exists g. split_and!; [done..|right; auto].
  - eapply (commitKeys_good _ g); [|cbn; apply lookup_insert_eq|done|done|by apply Hcm].
    eapply CI_upd; [by apply CI_tell, CI_count|cbn; by rewrite Ho|done|]. unfold BankRun.phaseOk. cbn. by exists g.
Qed.

(** The record of a rollback is in place. *)
Lemma rolled_good : tc_Op cmd = OpPutTxnRecord → tf_phase t = phaseAbort → CI G (rollbackKeys (t <| tf_ack := ∅ |>) at_ (putT (t <| tf_ack := ∅ |>) c)).
Proof using Hc Hans Ht Haccts.
  intros Hop Hph. destruct (live_facts _ _ _ _ Hc Ht) as (Ho & Hpos & _ & Htf & Hpo). unfold BankRun.phaseOk in Hpo. rewrite Hph in Hpo.
  destruct Hpo as (g & Hg & Hfr & Hdec). destruct (record_told g Hop Hg Hfr) as [Hrb _]. assert (Hr : rolledBack rngs w g) by (destruct Hdec; auto).
  eapply (rollbackKeys_good _ g); [|cbn; apply lookup_insert_eq|done|done|done].
  eapply CI_upd; [done|cbn; by rewrite Ho|done|]. unfold BankRun.phaseOk. cbn. rewrite Hph. exists g. split_and!; [done..|by right].
Qed.

Lemma onKey_good : tf_phase t = phaseAbort ∨ tf_phase t = phaseCommitKeys → CI G (onKey t cmd c).
Proof using Hc Ht.
  intros Hph. destruct (live_facts _ _ _ _ Hc Ht) as (Ho & Hpos & _ & Htf & Hpo). unfold onKey. destruct (_ =? _)%nat; [by apply CI_drop|].
  eapply CI_upd; [done|cbn; by rewrite Ho|done|]. unfold BankRun.phaseOk in *. cbn in *. rewrite Ho. by destruct Hph as [Hp|Hp]; rewrite Hp in *.
Qed.

Lemma reread_good : tc_Op cmd = OpApplyResolution → CI G (readAt t (tc_Key cmd) at_ c).
Proof using Hc Hans Ht Haccts Hnd.
  intros Hop. destruct ans_fact as (_ & _ & [_ Hor _]). destruct (live_facts _ _ _ _ Hc Ht) as (Ho & _ & _ & Htf & _).
  pose proof Ht as Ht'. rewrite <- Ho in Ht'. refine (proj1 (sending_readAt G c _ t t _ _ (sending_refl _ _ _ _ _ _ _ _ _ Hc) Hc Ht' eq_refl Htf _)). auto.
Qed.
End Answer.

(** ** Audits *)

Implicit Types a b : audit.

Lemma audit_facts G c o a : CI G c → co_audits c !! o = Some a → auditOk o a ∧ au_origin a = o.
Proof. intros Hc Ha. destruct (ci_audit _ _ _ _ _ _ _ _ _ Hc _ _ Ha) as (Hok & _). split; [done|apply Hok]. Qed.

(** An audit whose record keeps what it has seen and met. *)
Definition acore a := (au_origin a, au_readTS a, au_need a, au_seen a, au_blocked a).
Lemma CI_updA G c a0 a : CI G c → co_audits c !! au_origin a = Some a0 → acore a = acore a0 → CI G (putA a c).
Proof.
  intros Hc H0 Hco. destruct (audit_facts _ _ _ _ Hc H0) as [[A1 A2 A3 A4 A5 A6] _]. unfold acore in Hco. injection Hco as E1 E2 E3 E4 E5.
  eapply CI_reputA; [done|done|done|by rewrite E5|]. split; rewrite ?E2, ?E3, ?E4, ?E5; done.
Qed.

Lemma sending_auditRead G c c' a a' k at_ :
  sending G c c' → CI G c → co_audits c !! au_origin a = Some a' → au_readTS a' = au_readTS a → k ∈ accts → sending G c (auditRead a k at_ c').
Proof.
  intros Hs Hc Ha Hr Hk. destruct (audit_facts _ _ _ _ Hc Ha) as [Hok _]. unfold auditRead, broadcast. apply sending_out; [by apply sending_count| | |by left].
  - split; [|done]. split; cbn; try done; [by apply Haccts|rewrite <- Hr; apply Hok].
  - eapply originOk_audit; [done|exact Ha|by rewrite Hr|done|done].
Qed.

(** The total of a snapshot that saw every account. *)
Lemma total_sum m : same64 (total m) (sumZ snd (map_to_list m)) ∧ is_i64 (total m).
Proof.
  unfold total. rewrite map_fold_foldr. induction (map_to_list m) as [|[k v] l [IH _]]; [by split; [apply same64_refl|by vm_compute]|]. cbn.
  split; [|apply i64_range]. eapply same64_trans; [apply same64_i64|]. rewrite Z.add_comm. by apply same64_add; [apply same64_refl|].
Qed.
Lemma sumZ_fmap {A B} (f : B → Z) (g : A → B) l : sumZ f (g <$> l) = sumZ (f ∘ g) l.
Proof. unfold sumZ. induction l as [|x l IH]; [done|]. cbn. by rewrite IH. Qed.

Lemma audit_total G c (seen : gmap bytes Z) T :
  CI G c → (∀ k v, seen !! k = Some v → k ∈ accts ∧ ∃ rv, answeredY rngs w k T rv ∧ amount rv = Some v) → (length accts ≤ size seen)%nat →
  total seen = 0 ∧ size seen = length accts.
Proof.
  intros Hc Hseen Hsz. assert (Hsub : (map_to_list seen).*1 ⊆+ accts).
  { apply NoDup_submseteq; [apply NoDup_fst_map_to_list|]. intros k ([k' v] & -> & Hin)%list_elem_of_fmap. by apply elem_of_map_to_list, Hseen in Hin as [? _]. }
  assert (Hlen : length (map_to_list seen).*1 = size seen) by (rewrite length_fmap; apply length_map_to_list).
  assert (Hperm : (map_to_list seen).*1 ≡ₚ accts) by (apply submseteq_length_Permutation; [done|by rewrite Hlen]).
  split; [|by rewrite <- Hperm]. destruct (total_sum seen) as [Hs Hi]. apply same64_zero; [done|]. eapply same64_trans; [exact Hs|].
  set (vals := λ k, default 0 (seen !! k)).
  replace (sumZ snd (map_to_list seen)) with (sumZ vals accts).
  - apply (accounts_sum rngs accts Haccts Hnd G w _ (ci_ghost _ _ _ _ _ _ _ _ _ Hc) (ci_store _ _ _ _ _ _ _ _ _ Hc) T).
    intros k Hk. rewrite <- Hperm in Hk. apply list_elem_of_fmap in Hk as ([k' v] & -> & Hin%elem_of_map_to_list).
    unfold vals. cbn. rewrite Hin. by apply (Hseen k' v).
  - rewrite <- (sumZ_perm _ _ _ Hperm), sumZ_fmap. apply sumZ_ext. intros [k v] Hin%elem_of_map_to_list. unfold vals. cbn. by rewrite Hin.
Qed.

Lemma CI_record G c x : CI G c → auditRecOk accts x → CI G (tellL (RecordAudit x) c).
Proof.
  intros [I1 I2 I3 I4 I5 I6 I7 I8 I9 I10 I11 I12 I13 I14 I15 I16] Hx. split; try done.
  - intros d Hd. by apply (originOk_same _ c), I9.
  - cbn. apply Forall_app. split; [done|by constructor].
Qed.

(** A new audit takes a number and reads every account. *)
Lemma newAudit_good G c b at_ :
  CI G c → co_nextOrigin c + 1 < 2 ^ 64 → au_origin b = add64 (co_nextOrigin c) 1 → au_need b = Z.of_nat (co_accounts c) →
  wall_ok (au_readTS b) → au_seen b = ∅ → au_blocked b = ∅ →
  let c1 := count c_auditsStarted (putA b (c <| co_nextOrigin := add64 (co_nextOrigin c) 1 |>)) in
  sending G c1 (foldl (λ c k, auditRead b k at_ c) c1 (accountsOf c1)).
Proof.
  intros Hc Hno Hbo Hneed Hw Hseen Hbl c1. destruct (CI_next _ _ _ _ _ _ _ _ _ Hc Hno) as (Hcn & Hpos & Hl & Ha & _ & Hd). set (c0 := c <| co_nextOrigin := _ |>) in *.
  change (au_origin b = co_nextOrigin c0) in Hbo.
  assert (Hacc : accountsOf c1 = accts) by exact (ci_acc _ _ _ _ _ _ _ _ _ Hc).
  assert (Hlen : Z.of_nat (co_accounts c) = Z.of_nat (length accts)).
  { rewrite <- (ci_acc _ _ _ _ _ _ _ _ _ Hc). unfold accountsOf. by rewrite length_fmap, length_seq. }
  assert (Hc1 : CI G c1).
  { apply CI_count, CI_putA; [exact Hcn| |lia|by rewrite Hbo|].
    - split; [done|by rewrite Hbo|by rewrite Hneed|done|by rewrite Hseen; intros ? ? ?%lookup_empty_Some|by rewrite Hbl; intros ? ? ?%lookup_empty_Some].
    - intros d Hin Hdo. rewrite Hbo in Hdo. by destruct (Hd d Hin). }
  rewrite Hacc. apply CI_each; [|done]. intros c' k Hk Hs. eapply sending_auditRead; [done|done|cbn; apply lookup_insert_eq|done|done].
Qed.

Section AuditAnswer.
Context G c (cmd : TxnCommand) (r : TxnResult) (at_ : Z) a.
Context (Hc : CI G c) (Hans : (cmd, r) ∈ ans) (Ha : co_audits c !! tc_Origin cmd = Some a).

Lemma auditValue_good c1 a1 :
  CI G c1 → co_audits c1 !! au_origin a1 = Some a1 → tc_Key cmd ∈ accts →
  (∃ v, answeredY rngs w (tc_Key cmd) (au_readTS a1) v ∧ readValue r = amount v) → CI G (auditValue a1 cmd r at_ c1).
Proof using Haccts Hnd.
  intros Hc1 Ha1 Hk (v & Hv & Hrv). unfold auditValue. rewrite Hrv. destruct (amount v) as [z|] eqn:Eam; [|eapply CI_updA; [by apply CI_count|exact Ha1|done]].
  case_bool_decide; [done|]. set (a2 := a1 <| au_seen := _ |>). destruct (audit_facts _ _ _ _ Hc1 Ha1) as [[A1 A2 A3 A4 A5 A6] _].
  assert (Hok : auditOk (au_origin a2) a2).
  { split; try done. intros k z'. cbn. rewrite lookup_insert_Some. intros [[<- <-]|[_ ?]]; [|by apply A5]. split; [done|]. by exists v. }
  assert (Hc2 : CI G (putA a2 c1)) by (eapply CI_reputA; [done|exact Ha1|done|done|done]).
  assert (Ha2 : co_audits (putA a2 c1) !! au_origin a2 = Some a2) by apply lookup_insert_eq. set (c2 := putA a2 c1) in *. clearbody c2.
  destruct (Z.ltb_spec (Z.of_nat (size (au_seen a2))) (au_need a2)) as [_|Hge]; [done|].
  assert (Htot : total (au_seen a2) = 0 ∧ size (au_seen a2) = length accts).
  { apply (audit_total G c2 _ (au_readTS a2)); [done|apply Hok|]. rewrite (ad_need _ _ _ _ _ Hok) in Hge. lia. }
  set (a3 := a2 <| au_done := true |>). set (c3 := tellL _ _).
  assert (Hc3 : CI G c3).
  { apply CI_record; [|split; [apply Htot|exact (f_equal Z.of_nat (proj2 Htot))]]. apply CI_count. eapply CI_updA; [done|exact Ha2|done]. }
  replace (accountsOf c3) with accts by (symmetry; apply Hc3).
  refine (proj1 (CI_each rngs accts w sent0 pend0 ans ms0 G _ _ _ _ Hc3)). intros c' k Hin Hs. apply sending_out; [by apply sending_count| | |by left].
  - split; [|done]. split; cbn; try done. by apply Haccts.
  - by eapply originOk_zero.
Qed.

Lemma auditGet_good :
  tc_Op cmd = OpTxnGet → co_nextOrigin c + 1 < 2 ^ 64 → mintsOk (msE (auditGet a cmd r at_ c)) → CI G (auditGet a cmd r at_ c).
Proof using Hc Hans Ha Haccts Hnd.
  intros Hop Hno. destruct (ans_fact _ _ _ _ Hc Hans) as (Hf & _ & [_ _ Hor]). destruct (audit_facts _ _ _ _ Hc Ha) as [Hok Ho].
  destruct (Hor a Ha) as (Hget & _). destruct (Hget Hop) as [Hk Hrt]. unfold ansFact in Hf. rewrite Hop in Hf. destruct Hf as [Hlock Hval].
  pose proof Ha as Ha'. rewrite <- Ho in Ha'. unfold auditGet. destruct (x_Locked r).
  { destruct (_ >=? _); [intros _; eapply CI_updA; [by apply CI_count|exact Ha'|done]|]. set (a1 := a <| au_resolves := _ |>). set (c1 := count c_readerResolves _).
    assert (Hc1 : CI G c1) by (eapply CI_count, CI_updA; [by apply CI_count|exact Ha'|done]).
    assert (Ha1 : co_audits c1 !! au_origin a1 = Some a1) by apply lookup_insert_eq. clearbody c1.
    destruct (nowFrom (au_id a1) c1) as [[[ts n] c2]|] eqn:Em; [|intros _; eapply CI_updA; [done|exact Ha1|done]]. set (a2 := a1 <| au_blocked := _ |>).
    intros Hms. assert (Hmo : ∀ d, msE (broadcast d at_ (putA a2 c2)) = msE c2) by quiet.
    rewrite Hmo in Hms. destruct (CI_mint _ _ _ _ _ _ _ _ _ _ _ _ _ _ _ _ Em Hms Hc1) as (Hc2 & (_ & L2 & _) & _).
    assert (Ha2 : co_audits c2 !! au_origin a2 = Some a1) by by rewrite L2.
    assert (Hc3 : CI G (putA a2 c2)).
    { eapply CI_reputA; [done|exact Ha2|done| |].
      - intros x [k Hx]. cbn. destruct (decide (lockName (x_LockPrimary r) (x_LockStartTS r) = x)) as [->|]; [rewrite lookup_insert_eq; eauto|].
        rewrite lookup_insert_ne by done. exists k. exact Hx.
      - destruct Hok as [A1 A2 A3 A4 A5 A6]. split; try done; [cbn; by rewrite Ho|]. intros x k. cbn. rewrite lookup_insert_Some. intros [[_ <-]|[_ ?]]; [done|by eapply A6]. }
    destruct (Hlock eq_refl) as (Hwd & g & Hg & Hpg & Hsg). destruct (primary_ok _ _ Haccts _ _ (ci_ghost _ _ _ _ _ _ _ _ _ Hc) g Hg) as (P1 & P2 & _).
    apply CI_send; [done| | |by left].
    - split; [split; cbn; rewrite ?Hpg, ?Hsg; try done; apply Hok|unfold opFact; cbn; by exists g].
    - eapply originOk_audit; [done|cbn; apply lookup_insert_eq|done|done|]. intros _. cbn. rewrite lookup_insert_eq. eauto. }
  destruct (x_Uncertain r).
  { set (a1 := a <| au_done := true |>). set (c1 := putA a1 _). assert (Hc1 : CI G c1) by (eapply CI_updA; [by apply CI_count|exact Ha'|done]).
    destruct (_ >=? _); [done|]. assert (Hn1 : co_nextOrigin c1 = co_nextOrigin c) by done. clearbody c1.
    destruct (nowAboveFrom (au_id a1) (x_RestartAt r) c1) as [[[ts n] c2]|] eqn:Em; [|done]. cbv zeta. set (b := MkAuditState _ _ _ _ _ _ _ _ _ _).
    intros Hms. rewrite (msE_each ms0) in Hms by quiet.
    destruct (CI_mint _ _ _ _ _ _ _ _ _ _ _ _ _ _ _ _ Em Hms Hc1) as (Hc2 & (_ & _ & L3 & _) & Hfr & _).
    apply (newAudit_good G c2 b at_); try done; [by rewrite L3, Hn1|apply Hfr]. }
  destruct (x_Refused r); [intros _; eapply CI_updA; [by apply CI_count|exact Ha'|done]|]. intros _.
  apply auditValue_good; [done|done|done|]. rewrite <- Hrt. auto.
Qed.

Lemma auditApplied_good :
  co_nextOrigin c + 1 < 2 ^ 64 → mintsOk (msE (auditApplied cmd r at_ c)) → CI G (auditApplied cmd r at_ c).
Proof using Hc Hans Ha Haccts Hnd.
  intros Hno. destruct (ans_fact _ _ _ _ Hc Hans) as (Hf & [Hcok _] & [_ _ Hor]). destruct (audit_facts _ _ _ _ Hc Ha) as [Hok Ho].
  destruct (Hor a Ha) as (_ & Happ & Hres). pose proof Ha as Ha'. rewrite <- Ho in Ha'.
  unfold auditApplied. rewrite Ha. destruct (au_done a); [done|]. destruct (tc_Op cmd) eqn:Hop; try done.
  - intros Hms. by apply auditGet_good.
  - intros _. destruct (Hres eq_refl) as [k Hk]. rewrite Hk. cbn [default from_option id]. apply (ad_blocked _ _ _ _ _ Hok) in Hk.
    destruct (x_Decided r) eqn:Ed; cbn [negb].
    + unfold ansFact in Hf. rewrite Hop in Hf. destruct Hf as [Hwc Hdec]. destruct (Hdec Ed) as (g & rec & Hg & Hs & Hr & Hrb & Hct).
      apply CI_send; [by apply CI_count| | |by left].
      * split; [split; cbn; try done; [by apply Haccts|apply Hcok|apply Hok]|]. unfold opFact. cbn. exists g, rec.
        split_and!; [done..| |done]. rewrite Hrb. by case_bool_decide.
      * eapply originOk_audit; [by apply CI_count|exact Ha'|done|done|done].
    + refine (proj1 (sending_auditRead G c _ a a k _ _ Hc Ha' eq_refl Hk)). by apply sending_count, sending_refl.
  - intros _. refine (proj1 (sending_auditRead G c _ a a _ _ (sending_refl _ _ _ _ _ _ _ _ _ Hc) Hc Ha' eq_refl _)). auto.
Qed.
End AuditAnswer.

(** ** The handler of an answer *)

Lemma applied_good G c cmd r at_ :
  CI G c → (cmd, r) ∈ ans → co_nextOrigin c + 1 < 2 ^ 64 → ∃ c', applied cmd r at_ c = Some c' ∧ (mintsOk (msE c') → ∃ G', CI G' c').
Proof.
  intros Hc Hans Hno. unfold applied. destruct (co_live c !! tc_Origin cmd) as [t|] eqn:Ht.
  - destruct (tc_Op cmd) eqn:Hop, (tf_phase t) eqn:Hph;
      try (eexists; split; [reflexivity|]; intros Hms; by exists G); try by eapply onRead_good.
    all: eexists; split; [reflexivity|]; intros Hms.
    + by eapply onPrewrite_good.
    + exists G. eapply onKey_good; [done|done|auto].
    + exists G. eapply onKey_good; [done|done|auto].
    + exists G. by eapply onRecord_good.
    + exists G. by eapply rolled_good.
    + exists G. by eapply onStatus_good.
    + exists G. by eapply reread_good.
  - eexists. split; [reflexivity|]. intros Hms. exists G. destruct (co_audits c !! tc_Origin cmd) as [a|] eqn:Ha; [by eapply auditApplied_good|].
    unfold auditApplied. by rewrite Ha.
Qed.

(** ** What the harness schedules *)

(** A transfer between accounts there are. *)
Definition actionOk (accounts : nat) (x : action) : Prop :=
  match x with
  | ABegin id from to _ => is_i64 id ∧ 0 ≤ from < Z.of_nat accounts ∧ 0 ≤ to < Z.of_nat accounts
  | _ => True
  end.

Lemma account_in G c i : CI G c → 0 ≤ i < Z.of_nat (co_accounts c) → account i ∈ accts.
Proof.
  intros Hc Hi. rewrite <- (ci_acc _ _ _ _ _ _ _ _ _ Hc). unfold accountsOf. apply list_elem_of_fmap. exists (Z.to_nat i).
  split; [by rewrite Z2Nat.id by lia|]. apply elem_of_seq. lia.
Qed.

Lemma poll_good G c origin when_ : CI G c → CI G (poll origin when_ c).
Proof.
  intros Hc. unfold poll. destruct (co_audits c !! origin) as [a|] eqn:Ha; [|done]. destruct (au_done a); [done|].
  destruct (audit_facts _ _ _ _ Hc Ha) as [Hok Ho]. rewrite <- Ho in Ha. rewrite (ci_acc _ _ _ _ _ _ _ _ _ Hc).
  refine (proj1 (CI_each rngs accts w sent0 pend0 ans ms0 G _ _ _ _ Hc)). intros c' k Hk Hs. case_bool_decide; [done|].
  eapply sending_auditRead; [by apply sending_count|done|exact Ha|done|done].
Qed.

Lemma pollAudit_good G c a at_ : CI G c → CI G (pollAudit a at_ c) ∧ msE (pollAudit a at_ c) = msE c.
Proof.
  intros Hc. unfold pollAudit. split; [|apply msE_each; quiet].
  revert c Hc. induction (seq 1 auditPolls) as [|x xs IH]; intros c Hc; [done|]. cbn [foldl]. by apply IH, CI_do.
Qed.

Lemma beginAudit_good G c id at_ :
  CI G c → co_nextOrigin c + 1 < 2 ^ 64 → mintsOk (msE (beginAudit id at_ c)) → CI G (beginAudit id at_ c).
Proof.
  intros Hc Hno. unfold beginAudit. destruct (nowFrom id c) as [[[now n] c1]|] eqn:Em; [|done]. cbv zeta. set (a := MkAuditState _ _ _ _ _ _ _ _ _ _).
  set (c2 := foldl _ _ _). intros Hms. assert (Hm2 : msE c2 = msE c1) by (unfold c2; rewrite (msE_each ms0); [done|quiet]).
  assert (Hmp : msE (pollAudit a at_ c2) = msE c2) by (apply msE_each; quiet).
  rewrite Hmp, Hm2 in Hms. destruct (CI_mint _ _ _ _ _ _ _ _ _ _ _ _ _ _ _ _ Em Hms Hc) as (Hc1 & (_ & _ & L3 & _) & Hfr & _).
  apply pollAudit_good. apply (newAudit_good G c1 a at_); try done; [by rewrite L3|].
  destruct (fr_ok _ _ _ _ Hfr) as [[[W1 W2] W3] _ _ Hpast]. cbn. unfold Wall_Add. rewrite i64_small by (unfold is_i64, auditLookback, DefaultTTL in *; lia).
  split; [split; cbn; [unfold is_i64, auditLookback, DefaultTTL in *; lia|by vm_compute]|cbn; lia].
Qed.

Lemma beginTransfer_good G c id from to amount now :
  CI G c → co_nextOrigin c + 1 < 2 ^ 64 → actionOk (co_accounts c) (ABegin id from to amount) → mintsOk (msE (beginTransfer id from to amount now c)) →
  CI G (beginTransfer id from to amount now c).
Proof.
  intros Hc Hno (Hid & Hfrom & Hto). unfold beginTransfer. destruct (nowFrom id c) as [[[ts n] c1]|] eqn:Em; [|done]. cbv zeta.
  set (t := MkTransfer _ _ _ _ _ _ _ _ _ _ _ _ _ _ _ _ _ _). unfold begin_. change (t <| tf_phase := phaseRead |> <| tf_read := ∅ |>) with t. cbv zeta.
  match goal with |- context [readAll t now (tellL ?f (count c_started (putT t ?y)))] => set (c2 := y); set (F := f) end.
  assert (Emm : co_out c2 = co_out c1) by (unfold c2, checkStartTag; repeat case_match; done).
  assert (Eml : co_live c2 = co_live c1 ∧ co_audits c2 = co_audits c1 ∧ co_nextOrigin c2 = add64 (co_nextOrigin c1) 1 ∧ co_accounts c2 = co_accounts c1
    ∧ lg_audits (co_ledger c2) = lg_audits (co_ledger c1)) by (unfold c2, checkStartTag; repeat case_match; done).
  intros Hms. assert (Hmo : msE (readAll t now (tellL F (count c_started (putT t c2)))) = msE c1).
  { unfold readAll. rewrite (msE_each ms0); [unfold BankRun.msE; cbn; by rewrite Emm|quiet]. }
  rewrite Hmo in Hms. destruct (CI_mint _ _ _ _ _ _ _ _ _ _ _ _ _ _ _ _ Em Hms Hc) as (Hc1 & (E1 & E2 & E3 & E4 & E5) & Hfr & Em1 & _).
  destruct Eml as (F1 & F2 & F3 & F4 & F5). destruct (CI_next _ _ _ _ _ _ _ _ _ Hc1) as (Hcn & Hpos & Hl & Ha & Hg & Hd); [by rewrite E3|].
  assert (Hc2 : CI G c2) by (eapply CI_alike; [|exact Hcn]; split; try done; by rewrite Emm).
  assert (Htf : tfOk t).
  { split; try done; [by apply (account_in G c)|by apply (account_in G c)|apply Hfr]. }
  assert (Hc3 : CI G (tellL F (count c_started (putT t c2)))).
  { apply CI_tell, CI_count, CI_putT; [done|done| | | | | |].
    - split; [done|done|done| |].
      + exists n. unfold BankRun.msE. rewrite Emm. fold (BankRun.msE ms0 c1). rewrite Em1. apply elem_of_app. right. left.
      + unfold BankRun.phaseOk. cbn. split_and!; [|by intros ? ? ?%lookup_empty_Some|by intros ? ? ?%lookup_empty_Some].
        intros g Hgg. split; [by apply Hfr|by apply Hg].
    - rewrite F3. cbn. lia.
    - rewrite F2. exact Ha.
    - intros o t' _ Ht'. rewrite F1 in Ht'. by eapply (fr_live _ _ _ _ Hfr).
    - intros S C HS <-. by apply (fr_dec _ _ _ _ Hfr S).
    - intros d Hin Hdo. unfold sentE in Hin. rewrite Emm in Hin. by destruct (Hd d Hin). }
  refine (proj1 (sending_readAll G _ t t now Hc3 _ eq_refl Htf)). cbn. apply lookup_insert_eq.
Qed.

Lemma perform_good G c x now :
  CI G c → co_nextOrigin c + 1 < 2 ^ 64 → actionOk (co_accounts c) x → mintsOk (msE (perform x now c)) → CI G (perform x now c).
Proof.
  intros Hc Hno Hx. destruct x as [id from to am|id|id at_|origin when_]; cbn [perform].
  - by apply beginTransfer_good.
  - intros _. destruct (byID id c); [by apply CI_abandon|done].
  - by apply beginAudit_good.
  - intros _. by apply poll_good.
Qed.
End Handle.
