(* ===== verification/BankSafe.v ===== *)
(** * A bank run conserves money

    The events of [BankSystem] keep the invariant of [BankRun]; so runs never panic, the
    steps they have the ranges apply are disciplined, and every audit they record sums
    to nothing. *)

From Stdlib Require Import Lia ZArith.
From stdpp Require Import base tactics numbers option gmap list.
From S2P Require Import Prelude Bytes ConfChange RaftTypes Hlc SimQueue SimLoop SimTransport CheckLedger CheckOracles Engine KvEncoding EngineIface KvStore KvTxn EngineMap StoreCodec CheckTxn StoreReplay StoreTxn StoreRange StoreNode CheckStore BankCoord StoreDriver BankSystem BankInv BankConserve BankRun BankHandle.

(** ** Accounts *)

Lemma digits_length fuel n : (length (digits fuel n) ≤ fuel)%nat.
Proof.
  revert n. induction fuel as [|fuel IH]; intros n; [done|]. cbn [digits]. destruct (n <? 10); [cbn; lia|]. rewrite length_app. cbn [length].
  specialize (IH (n / 10)). lia.
Qed.
Lemma account_key i : key_ok (account i).
Proof.
  assert (Hd : (length (decimal i) ≤ 21)%nat).
  { unfold decimal. destruct (i <? 0); cbn [length]; [pose proof (digits_length 20 (- i))|pose proof (digits_length 20 i)]; lia. }
  unfold key_ok, account. destruct (_ && _); cbn [length]; lia.
Qed.
Lemma account_inj i j : 0 ≤ i < 2 ^ 63 → 0 ≤ j < 2 ^ 63 → account i = account j → i = j.
Proof.
  intros Hi Hj He. assert (Hu : ∀ x, 0 ≤ x < 2 ^ 63 → undigits (drop 1 (account x)) = x).
  { intros x Hx. destruct (digits_spec 20 x) as [Hd _]; [change (10 ^ Z.of_nat 20) with 100000000000000000000; lia|].
    unfold account. unfold decimal. destruct (Z.ltb_spec x 0); [lia|]. by destruct (_ && _). }
  rewrite <- (Hu i Hi), <- (Hu j Hj). by rewrite He.
Qed.

Definition accountNames (n : nat) : list bytes := (λ i, account (Z.of_nat i)) <$> seq 0 n.
Lemma accountNames_key n k : k ∈ accountNames n → key_ok k.
Proof. intros (i & -> & _)%list_elem_of_fmap. apply account_key. Qed.
Lemma accountNames_nodup n : Z.of_nat n < 2 ^ 63 → NoDup (accountNames n).
Proof.
  intros Hn. unfold accountNames. apply NoDup_fmap_2_strong; [|apply NoDup_seq]. intros i j Hi%elem_of_seq Hj%elem_of_seq He.
  apply account_inj in He; lia.
Qed.

(** ** Numbers are taken one at a time *)

Section Numbers.
Context {D : Type} `{TimeSource D}.
Implicit Types c : coordinator D.

Lemma next_each {A} (F : coordinator D → A → coordinator D) xs c :
  (∀ c' x, co_nextOrigin (F c' x) = co_nextOrigin c') → co_nextOrigin (foldl F c xs) = co_nextOrigin c.
Proof. intros HF. revert c. induction xs as [|x xs IH]; intros c; [done|]. cbn [foldl]. by rewrite IH, HF. Qed.
Lemma next_mint ask i k tries c ts n c' : mintFrom ask i k tries c = Some (ts, n, c') → co_nextOrigin c' = co_nextOrigin c.
Proof. intros Hm. destruct (mintFrom_spec _ _ _ _ _ _ _ _ Hm) as [ds ->]. done. Qed.

Definition oneMore (x y : Z) : Prop := y = x ∨ y = add64 x 1.

Lemma next_abandon t c : co_nextOrigin (abandon t c) = co_nextOrigin c.
Proof. unfold abandon. by destruct (_ || _). Qed.
Lemma next_readAll t at_ c : co_nextOrigin (readAll t at_ c) = co_nextOrigin c.
Proof. by apply next_each. Qed.
Lemma next_tag t n c : co_nextOrigin (checkStartTag t n c) = co_nextOrigin c.
Proof. unfold checkStartTag. by destruct (negb _). Qed.
Lemma next_prewrite t at_ c c' : prewrite t at_ c = Some c' → co_nextOrigin c' = co_nextOrigin c.
Proof. unfold prewrite. destruct (negb _); [done|]. intros [= <-]. by rewrite next_each. Qed.

Lemma next_restart t ts at_ c : co_nextOrigin (restartAbove t ts at_ c) = co_nextOrigin c.
Proof.
  unfold restartAbove. destruct (nowAboveFrom _ _ _) as [[[u n] c1]|] eqn:Em; [|by rewrite next_abandon]. apply next_mint in Em. cbv zeta.
  rewrite next_readAll. cbn. destruct (negb _); cbn; rewrite next_tag; exact Em.
Qed.

Lemma next_onRead t cmd r at_ c c' : onRead t cmd r at_ c = Some c' → co_nextOrigin c' = co_nextOrigin c.
Proof.
  unfold onRead. destruct (negb _); [by intros [= <-]|]. set (t1 := if negb _ && _ then _ else t). clearbody t1. cbv zeta.
  destruct (x_Locked r); [|destruct (x_Uncertain r); [|destruct (x_Refused r); [|destruct (readValue r)]]].
  - destruct (_ >=? _); [intros [= <-]; by rewrite next_abandon|]. destruct (nowFrom _ _) as [[[ts n] c1]|] eqn:Em; intros [= <-].
    + apply next_mint in Em. cbn in *. done.
    + by rewrite next_abandon.
  - destruct (_ >=? _); intros [= <-]; [by rewrite next_abandon|by rewrite next_restart].
  - intros [= <-]. by rewrite next_abandon.
  - destruct (_ <? _)%nat; [by intros [= <-]|]. intros Hp. by apply next_prewrite in Hp.
  - intros [= <-]. by rewrite next_abandon.
Qed.
Lemma next_auditValue a cmd r at_ c : co_nextOrigin (auditValue a cmd r at_ c) = co_nextOrigin c.
Proof.
  unfold auditValue. destruct (readValue r) as [v|]; [|done]. destruct (bool_decide _); [done|]. cbv zeta. destruct (_ <? _); [done|].
  by rewrite next_each.
Qed.
Lemma next_auditGet a cmd r at_ c : oneMore (co_nextOrigin c) (co_nextOrigin (auditGet a cmd r at_ c)).
Proof.
  unfold auditGet, oneMore. destruct (x_Locked r); [|destruct (x_Uncertain r); [|destruct (x_Refused r)]].
  - left. destruct (_ >=? _); [done|]. destruct (nowFrom _ _) as [[[ts n] c1]|] eqn:Em; [|done]. apply next_mint in Em. exact Em.
  - destruct (_ >=? _); [by left|]. destruct (nowAboveFrom _ _ _) as [[[ts n] c1]|] eqn:Em; [|by left]. right. apply next_mint in Em.
    cbv zeta. rewrite next_each by done. cbn in *. by rewrite Em.
  - by left.
  - left. apply next_auditValue.
Qed.
Lemma next_applied cmd r at_ c c' : applied cmd r at_ c = Some c' → oneMore (co_nextOrigin c) (co_nextOrigin c').
Proof.
  unfold applied, oneMore. destruct (co_live c !! tc_Origin cmd) as [t|].
  - intros He. left. destruct (tc_Op cmd), (tf_phase t); try (by apply next_onRead in He); injection He as <-; try done.
    + unfold onPrewrite, abort. destruct (x_Rejected r); [by destruct (_ || _)|]. cbv zeta. destruct (_ <? _)%nat; [done|].
      destruct (nowFrom _ _) as [[[ts n] c1]|] eqn:Em; [apply next_mint in Em; exact Em|by rewrite next_abandon].
    + unfold onKey. cbv zeta. by destruct (_ =? _)%nat.
    + unfold onKey. cbv zeta. by destruct (_ =? _)%nat.
    + unfold onRecord, rollbackKeys, commitKeys. cbv zeta. destruct (x_Rejected r); by rewrite next_each.
    + unfold rollbackKeys. by rewrite next_each.
    + unfold onStatus. destruct (_ !! _); [|done]. by destruct (negb _).
  - intros [= <-]. unfold auditApplied. destruct (co_audits c !! _) as [a|]; [|by left]. destruct (au_done a); [by left|].
    destruct (tc_Op cmd); try by left.
    + apply next_auditGet.
    + left. cbv zeta. by destruct (negb _).
Qed.
Lemma next_perform x now c : oneMore (co_nextOrigin c) (co_nextOrigin (perform x now c)).
Proof.
  unfold oneMore. destruct x as [id from to am|id|id at_|origin when_]; cbn [perform].
  - unfold beginTransfer. destruct (nowFrom _ _) as [[[ts n] c1]|] eqn:Em; [|by left]. right. apply next_mint in Em. unfold begin_. cbv zeta.
    rewrite next_readAll. cbn. destruct (bool_decide _); cbn; rewrite next_tag; cbn; by rewrite Em.
  - left. destruct (byID _ _); [by rewrite next_abandon|done].
  - unfold beginAudit. destruct (nowFrom _ _) as [[[ts n] c1]|] eqn:Em; [|by left]. right. apply next_mint in Em. cbv zeta. unfold pollAudit.
    rewrite !next_each by done. cbn. by rewrite Em.
  - left. unfold poll. destruct (_ !! _) as [a|]; [|done]. destruct (au_done a); [done|]. apply next_each. intros c' k. by destruct (bool_decide _).
Qed.
End Numbers.

(** ** A command is applied *)

Section Apply.
Context {D : Type} `{TimeSource D}.
Context (rngs : list (RangeDescriptor * Timestamp)) (maxOffset : Z).
Context (accts : list bytes) (Haccts : ∀ k, k ∈ accts → key_ok k).
Context (w : list (gmap bytes bytes)) (sent pend : list TxnCommand) (ans : list (TxnCommand * TxnResult)) (ms : list (Z * Z * Timestamp)).
Context G (c : coordinator D) (Hc : CI rngs accts w sent pend ans ms G c) (Hout : co_out c = []).
Context (i : nat) (d : TxnCommand) (Hi : pend !! i = Some d).

Let HG := ci_ghost _ _ _ _ _ _ _ _ _ Hc.
Lemma quiet_sent : sentE sent c = sent ∧ pendE pend c = pend ∧ msE ms c = ms.
Proof. unfold sentE, pendE, msE. rewrite Hout. cbn. by rewrite !app_nil_r. Qed.
Let HS : storeOk rngs G w pend.
Proof. pose proof (ci_store _ _ _ _ _ _ _ _ _ Hc) as Hs. by rewrite (proj1 (proj2 quiet_sent)) in Hs. Qed.
Lemma pend_fact : d ∈ sent ∧ cmdFact rngs G w d.
Proof.
  destruct quiet_sent as (E1 & E2 & _). assert (Hd : d ∈ sentE sent c).
  { apply (ci_pend _ _ _ _ _ _ _ _ _ Hc). rewrite E2. by eapply list_elem_of_lookup_2. }
  split; [by rewrite E1 in Hd|]. by apply (ci_cmd _ _ _ _ _ _ _ _ _ Hc).
Qed.
Let Hf := proj2 pend_fact.
Let w' := stepW rngs d w.

Lemma kept_answered k T v : k ∈ accts → answeredY rngs w k T v → answeredY rngs w' k T v.
Proof. intros Hk. by apply (answered_kept rngs accts Haccts G w pend HG HS d Hf), Haccts. Qed.

Lemma kept_phase o t : tfOk accts t → phaseOk rngs w G o t → phaseOk rngs w' G o t.
Proof.
  intros Htf. assert (Hrk : ∀ g, g ∈ gh_txns G → rolledBack rngs w g → rolledBack rngs w' g) by (intros g; by apply (rolled_kept rngs accts Haccts G w pend HG HS d Hf)).
  unfold phaseOk. destruct (tf_phase t); try done.
  - intros (A & B & C). split_and!; [done| |done]. intros k v Hv. destruct (B k v Hv) as (Hk & rv & Ha & Hm). split; [done|].
    exists rv. split; [|done]. apply kept_answered; [|done]. by apply (keys_key accts t).
  - intros (g & A & B & E & F). exists g. split_and!; [done..|]. intros k Hk. destruct (F k Hk) as [Hk' Hp]. split; [done|].
    apply (pinned_kept rngs accts Haccts G w pend HG HS d Hf); [done| |done]. by rewrite (proj2 (proj2 (proj2 B))).
  - intros (g & A & B & E). exists g. split_and!; [done..|]. destruct E; [by left|right; auto].
Qed.

Context (ns : bytes) (m : gmap bytes bytes) (Hp : placeOf rngs w (tc_Key d) = Some (ns, m)).
Lemma CI_apply :
  CI rngs accts w' sent (delete i pend)
    (ans ++ [(d, if bool_decide (tc_Op d = OpTxnGet)
                 then answerOf ns (markOf rngs (tc_Key d)) maxOffset (txn_step ns (markOf rngs (tc_Key d)) (descOf rngs (tc_Key d)) m d) d
                 else stepResult m (plain ns (markOf rngs (tc_Key d))) d)]) ms G c.
Proof.
  destruct quiet_sent as (E1 & E2 & E3). pose proof HG as HG0. pose proof HS as HS0. pose proof Hf as Hf0.
  assert (E4 : pendE (delete i pend) c = delete i pend) by (unfold pendE; rewrite Hout; apply app_nil_r).
  pose proof Hc as [I1 I2 I3 I4 I5 I6 I7 I8 I9 I10 I11 I12 I13 I14 I15 I16]. rewrite E1 in *. rewrite E2 in *. split; rewrite ?E1, ?E4; try done.
  - by apply (ghostOk_kept rngs accts Haccts G w pend HG HS d Hf).
  - by apply (storeOk_step rngs accts Haccts G w pend HG HS i d Hi Hf ns m Hp).
  - intros d' Hd'. apply (cmdFact_kept rngs accts Haccts G w pend HG HS d Hf). auto.
  - intros d' Hd'. apply I4. rewrite (delete_Permutation pend i d Hi). by right.
  - intros d' r' [Hd'|Hd']%elem_of_app.
    + destruct (I5 d' r' Hd') as [A B]. split; [|done]. apply (ansFact_kept rngs accts Haccts G w pend HG HS d Hf); [|done]. auto.
    + apply list_elem_of_singleton in Hd' as [= -> ->]. split; [|apply pend_fact].
      by apply (ansFact_new rngs maxOffset accts Haccts G w pend HG HS i d Hi Hf ns m Hp).
  - intros o t Ht. destruct (I6 o t Ht) as [[A B C E F] Hb]. split; [|done]. split; try done. by apply kept_phase.
  - intros o a Ha. destruct (I8 o a Ha) as ([A B C E F Q] & Hb). split; [|done]. split; try done.
    intros k v Hv. destruct (F k v Hv) as (Hk & rv & Hr & Hm). split; [done|]. exists rv. split; [|done]. by apply kept_answered.
Qed.
End Apply.

(** ** Runs *)

Section Safe.
Context {D : Type} `{TimeSource D}.
Context (rngs : list (RangeDescriptor * Timestamp)) (maxOffset : Z) (accounts : nat) (Hacc : Z.of_nat accounts < 2 ^ 63).
Abbreviation sys := (sys (D := D)).
Implicit Types y : sys.
Let accts := accountNames accounts.

(** Every range's records are what its steps make them, and the steps are disciplined. *)
Definition historyOk y : Prop :=
  ∀ i d mark m h, rngs !! i = Some (d, mark) → sy_maps y !! i = Some m → sy_hist y !! i = Some h →
    m = txn_run (nsOf d) mark d ∅ h ∧ disciplined_run (nsOf d) mark d ∅ h.

Record sysOk y : Prop := MkSysOk {
  sy_inv : ∃ G, CI rngs accts (sy_maps y) (sy_sent y) (sy_pend y) (sy_ans y) (sy_mints y) G (sy_c y);
  sy_quiet : co_out (sy_c y) = [];
  sy_nmaps : length (sy_maps y) = length rngs;
  sy_nhist : length (sy_hist y) = length rngs;
  sy_runs : historyOk y;
}.

Definition moveOk (mv : move (D := D)) : Prop := match mv with MAct x _ => actionOk accounts x | _ => True end.

Lemma disciplined_snoc ns mark desc m cs c :
  disciplined_run ns mark desc m cs → cmd_ok c → disciplined ns (txn_run ns mark desc m cs) c → disciplined_run ns mark desc m (cs ++ [c]).
Proof. revert m. induction cs as [|x cs IH]; intros m; [by intros _ ? ?|]. intros (Hx & Hd & Hr) Hc Hdc. cbn. split_and!; [done..|]. by apply IH. Qed.

(** What the coordinator put out becomes what was sent. *)
Lemma CI_absorb G w sent pend ans ans' ms (c : coordinator D) :
  CI rngs accts w sent pend ans ms G c → (∀ x, x ∈ ans' → x ∈ ans) →
  CI rngs accts w (sent ++ sends (co_out c)) (pend ++ sends (co_out c)) ans' (ms ++ mints (co_out c)) G (c <| co_out := [] |>).
Proof.
  intros [I1 I2 I3 I4 I5 I6 I7 I8 I9 I10 I11 I12 I13 I14 I15 I16] Hans. set (c' := c <| co_out := [] |>).
  assert (E1 : sentE (sent ++ sends (co_out c)) c' = sentE sent c) by (unfold sentE, c'; cbn; by rewrite app_nil_r).
  assert (E2 : pendE (pend ++ sends (co_out c)) c' = pendE pend c) by (unfold pendE, c'; cbn; by rewrite app_nil_r).
  assert (E3 : msE (ms ++ mints (co_out c)) c' = msE ms c) by (unfold msE, c'; cbn; by rewrite app_nil_r).
  assert (E4 : stampsE (ms ++ mints (co_out c)) c' = stampsE ms c) by (unfold stampsE; by rewrite E3).
  split; rewrite ?E1, ?E2, ?E3, ?E4; try done.
  - intros d r Hd%Hans. destruct (I5 d r Hd) as [A B]. split; [done|]. apply elem_of_app. by left.
  - intros d Hd. by apply (originOk_same _ c), I9.
Qed.
Lemma CI_drivers G w sent pend ans ms (c : coordinator D) ds :
  CI rngs accts w sent pend ans ms G c → CI rngs accts w sent pend ans ms G (c <| co_drivers := ds |>).
Proof. by apply CI_alike. Qed.

Lemma apply_ok y i d :
  sysOk y → sy_pend y !! i = Some d → ∀ r, home rngs (tc_Key d) = Some r → sysOk (applyAt rngs maxOffset r d (y <| sy_pend := delete i (sy_pend y) |>)).
Proof.
  intros [[G HC] Hq Hm Hh Hr] Hi r Hhome. unfold home in Hhome. destruct (list_find _ rngs) as [[r' [desc mark]]|] eqn:El; [|done]. injection Hhome as ->.
  assert (Hhome : home rngs (tc_Key d) = Some r) by (unfold home; by rewrite El). apply list_find_Some in El as (Hrng & Hcon & _).
  pose proof (lookup_lt_Some _ _ _ Hrng) as Hlt. destruct (lookup_lt_is_Some_2 (sy_maps y) r ltac:(lia)) as [m Em]. destruct (lookup_lt_is_Some_2 (sy_hist y) r ltac:(lia)) as [h Eh].
  assert (Hp : placeOf rngs (sy_maps y) (tc_Key d) = Some (nsOf desc, m)) by (unfold placeOf; rewrite Hhome; cbn; rewrite Hrng; cbn; by rewrite Em).
  pose proof (CI_apply rngs maxOffset accts (accountNames_key accounts) _ _ _ _ _ G _ HC Hq i d Hi _ _ Hp) as HC'.
  assert (Emk : markOf rngs (tc_Key d) = mark) by (unfold markOf; rewrite Hhome; cbn; by rewrite Hrng).
  assert (Eds : descOf rngs (tc_Key d) = desc) by (unfold descOf; rewrite Hhome; cbn; by rewrite Hrng).
  assert (Est : stepW rngs d (sy_maps y) = <[r := txn_step (nsOf desc) mark desc m d]> (sy_maps y)) by (unfold stepW; by rewrite Hhome, Hrng, Em).
  rewrite Emk, Eds, Est in HC'. unfold applyAt. rewrite Hrng. cbn. rewrite Em, Eh.
  split; cbn; [by exists G|done|by rewrite length_insert|by rewrite length_insert|].
  intros j d' mark' m' h' Hj Hm' Hh'. cbn in Hm', Hh'. destruct (decide (j = r)) as [->|Hne].
  - rewrite list_lookup_insert_eq in Hm' by lia. rewrite list_lookup_insert_eq in Hh' by lia. rewrite Hrng in Hj. injection Hj as <- <-. injection Hm' as <-. injection Hh' as <-.
    destruct (Hr r desc mark m h Hrng Em Eh) as [-> Hd]. split; [unfold txn_run; by rewrite foldl_app|].
    destruct (pend_fact rngs accts _ _ _ _ _ G _ HC Hq i d Hi) as [_ Hf]. apply disciplined_snoc; [done|apply Hf|].
    apply (disciplinedY_at rngs (sy_maps y)); [done|].
    apply (applied_disciplined rngs accts (accountNames_key accounts) G (sy_maps y) _ (ci_ghost _ _ _ _ _ _ _ _ _ HC) (ci_store _ _ _ _ _ _ _ _ _ HC) d Hf).
  - rewrite list_lookup_insert_ne in Hm' by done. rewrite list_lookup_insert_ne in Hh' by done. by eapply Hr.
Qed.

Lemma absorb_ok y G c ans :
  CI rngs accts (sy_maps y) (sy_sent y) (sy_pend y) (sy_ans y) (sy_mints y) G c → sysOk y → (∀ x, x ∈ ans → x ∈ sy_ans y) →
  sysOk (absorb c (y <| sy_ans := ans |>)).
Proof. intros HC [_ Hq Hm Hh Hr] Hans. split; [|done..]. exists G. by apply (CI_absorb G _ _ _ (sy_ans y)). Qed.

(** An event of a run keeps the invariant, and does not panic. *)
Lemma smove_ok y mv :
  sysOk y → moveOk mv → co_nextOrigin (sy_c y) + 1 < 2 ^ 64 →
  ∃ y', smove rngs maxOffset mv y = Some y' ∧ sy_mints y `prefix_of` sy_mints y' ∧ oneMore (co_nextOrigin (sy_c y)) (co_nextOrigin (sy_c y'))
    ∧ (mintsOk (sy_mints y') → sysOk y').
Proof.
  intros Hy Hmv Hno. pose proof Hy as [[G HC] Hq Hm Hh Hr]. destruct mv as [i|i at_|x now|ds]; cbn [smove].
  - eexists. split; [reflexivity|]. destruct (sy_pend y !! i) as [d|] eqn:Hi; [|by split_and!; [|left|]].
    destruct (home rngs (tc_Key d)) as [r|] eqn:Hhome; [|by split_and!; [|left|]]. split_and!; [| |intros _; by apply apply_ok].
    + unfold applyAt. by repeat case_match.
    + left. unfold applyAt. by repeat case_match.
  - destruct (sy_ans y !! i) as [[d r]|] eqn:Hi; [|by eexists; split_and!; [done| |left|]].
    destruct (applied_good rngs accts (accountNames_key accounts) (accountNames_nodup accounts Hacc) _ _ _ _ _ G (sy_c y) d r at_ HC) as (c' & Ea & Hc'); [by eapply list_elem_of_lookup_2|done|].
    rewrite Ea. cbn [mbind option_bind]. eexists. split; [reflexivity|]. split_and!.
    + by apply prefix_app_r.
    + by apply next_applied in Ea.
    + intros Hms. destruct (Hc' Hms) as [G' HC']. eapply absorb_ok; [exact HC'|done|]. intros z Hz. rewrite (delete_Permutation _ _ _ Hi). by right.
  - eexists. split; [reflexivity|]. split_and!; [by apply prefix_app_r|apply next_perform|]. intros Hms.
    assert (Ha : co_accounts (sy_c y) = accounts).
    { pose proof (f_equal length (ci_acc _ _ _ _ _ _ _ _ _ HC)) as E. unfold accountsOf, accts, accountNames in E. by rewrite !length_fmap, !length_seq in E. }
    pose proof (absorb_ok y G (perform x now (sy_c y)) (sy_ans y)) as Hab. apply Hab; [|done|done].
    apply perform_good; [apply accountNames_key|done|done|by rewrite Ha|done].
  - eexists. split; [reflexivity|]. split_and!; [done|by left|]. intros _. split; try done. exists G. by apply CI_drivers.
Qed.

Lemma smove_mints y mv y' : smove rngs maxOffset mv y = Some y' → sy_mints y `prefix_of` sy_mints y'.
Proof.
  destruct mv as [i|i at_|x now|ds]; cbn [smove].
  - intros [= <-]. destruct (sy_pend y !! i); [|done]. destruct (home _ _); [|done]. unfold applyAt. by repeat case_match.
  - destruct (sy_ans y !! i) as [[d r]|]; [|by intros [= <-]]. destruct (applied _ _ _ _) as [c'|]; [|done]. intros [= <-]. by apply prefix_app_r.
  - intros [= <-]. by apply prefix_app_r.
  - by intros [= <-].
Qed.

Lemma srun_ok ms y0 y :
  sysOk y0 → Forall moveOk ms → srun rngs maxOffset ms y0 = Some y → mintsOk (sy_mints y) →
  co_nextOrigin (sy_c y0) + Z.of_nat (length ms) + 1 < 2 ^ 64 → sysOk y ∧ co_nextOrigin (sy_c y) ≤ co_nextOrigin (sy_c y0) + Z.of_nat (length ms).
Proof.
  intros Hy0. revert y. induction ms as [|mv ms IH] using rev_ind; intros y Hmv Hrun Hms Hn; [injection Hrun as <-; split; [done|cbn; lia]|].
  apply Forall_app in Hmv as [Hmv [Hx _]%Forall_cons]. unfold srun in Hrun. rewrite foldM_app in Hrun. fold (srun rngs maxOffset ms y0) in Hrun.
  destruct (srun rngs maxOffset ms y0) as [y1|] eqn:E1; [|done]. cbn in Hrun. destruct (smove rngs maxOffset mv y1) as [y2|] eqn:E2; [|done]. injection Hrun as ->.
  rewrite length_app in Hn. cbn [length] in Hn. pose proof (smove_mints _ _ _ E2) as [l El].
  destruct (IH y1 Hmv eq_refl) as [Hy1 Hb]; [eapply mintsOk_prefix; by rewrite <- El|lia|].
  destruct (smove_ok y1 mv Hy1 Hx) as (y' & E2' & _ & Hone & Hok); [lia|]. rewrite E2 in E2'. injection E2' as <-. split; [by apply Hok|].
  rewrite length_app. cbn [length]. destruct Hy1 as [[G HC] _ _ _ _]. pose proof (ci_next _ _ _ _ _ _ _ _ _ HC).
  destruct Hone as [->| ->]; [lia|]. rewrite add64_small by lia. lia.
Qed.

(** ** The beginning *)

Definition begin (drivers : list D) (l : Ledger) (nodes transfers : nat) : sys := start rngs drivers l nodes accounts transfers.

Lemma placeOf_empty k ns m : placeOf rngs (replicate (length rngs) ∅) k = Some (ns, m) → m = ∅.
Proof.
  unfold placeOf. destruct (home rngs k) as [i|]; [|done]. cbn. destruct (rngs !! i) as [[d mk]|]; [|done]. cbn.
  destruct (replicate _ _ !! i) as [m0|] eqn:E; [|done]. apply lookup_replicate_1 in E as [-> _]. by intros [= _ <-].
Qed.

Lemma begin_ok drivers l nodes transfers : lg_audits l = [] → sysOk (begin drivers l nodes transfers).
Proof.
  intros Hl. set (w := replicate (length rngs) ∅ : list (gmap bytes bytes)).
  assert (Hlock : ∀ k, lockY rngs w k = None).
  { intros k. unfold lockY. destruct (placeOf rngs w k) as [[ns m]|] eqn:E; [|done]. apply placeOf_empty in E as ->. cbn. unfold lock_of. by rewrite lookup_empty. }
  assert (Hreal : ∀ k t st, ¬ realY rngs w k t st).
  { intros k t st (ns & m & ->%placeOf_empty & _ & Hw). unfold write_of in Hw. by rewrite lookup_empty in Hw. }
  split; [|done|by cbn; rewrite length_replicate|by cbn; rewrite length_replicate|].
  - exists (MkGhost [] (λ _, None)). split; cbn; try done; try (by intros ? ?%elem_of_nil); try (by intros ? ? ?%elem_of_nil); try (by intros ? ? ? ?%elem_of_nil);
      try (by intros ? ? ?%lookup_empty_Some).
    + split; cbn; try done; try (by intros ? ?%elem_of_nil); [constructor|by intros ? ? ?%elem_of_nil].
    + split; cbn; try done; try (by intros ? ? ?%elem_of_nil).
      * intros k ns m ->%placeOf_empty. destruct (state_ok_empty ns) as [A B _]. by split.
      * intros k l0 _ Hk. by rewrite Hlock in Hk.
      * intros k t st _ Hk. by apply Hreal in Hk.
      * intros _. lia.
      * intros p s r _ _. unfold txnY. destruct (placeOf rngs _ p) as [[ns m]|] eqn:E; [|done]. apply placeOf_empty in E as ->. cbn. unfold txn_of. by rewrite lookup_empty.
    + by rewrite Hl.
  - intros i d mark m h _ Hm Hh. cbn in Hm, Hh. apply lookup_replicate_1 in Hm as [-> _]. apply lookup_replicate_1 in Hh as [-> _]. done.
Qed.

(** ** What the events of a run may do *)

Lemma reached_ok drivers l nodes transfers (ms : list (move (D := D))) y :
  lg_audits l = [] → Forall moveOk ms → Z.of_nat (length ms) + 1 < 2 ^ 64 →
  srun rngs maxOffset ms (begin drivers l nodes transfers) = Some y → mintsOk (sy_mints y) → sysOk y ∧ co_nextOrigin (sy_c y) + 1 < 2 ^ 64.
Proof using Hacc.
  intros Hl Hms Hlen Hrun Hmints. destruct (srun_ok ms _ y (begin_ok drivers l nodes transfers Hl) Hms Hrun Hmints) as [Hy Hb]; [cbn; lia|]. split; [done|]. cbn in Hb. lia.
Qed.

(** C3. Money is conserved.  Transfers between existing accounts (fewer than 2^63 of
    them), restarts, rollbacks, resolutions by readers and
    audits run against the transaction steps of a fixed set of ranges that begin empty,
    with commands and answers lost, delayed and reordered at will, for fewer than 2^64
    events.  As long as the timestamps the nodes give
    out are all different and those asked for under one number increase ([mintsOk]; a node
    that answers for another that is down can break the second, see [commit_below_start]),
    no event makes the coordinator panic, and the bank conservation oracle finds nothing,
    so every audit it recorded read every account and their balances sum to nothing. *)
Theorem bank_conserves drivers l nodes transfers (ms : list (move (D := D))) y :
  lg_audits l = [] → Forall moveOk ms → Z.of_nat (length ms) + 1 < 2 ^ 64 →
  srun rngs maxOffset ms (begin drivers l nodes transfers) = Some y → mintsOk (sy_mints y) →
  BankConservation_Check (Z.of_nat accounts) (co_ledger (sy_c y)) = None ∧ ∀ mv, moveOk mv → is_Some (smove rngs maxOffset mv y).
Proof using Hacc.
  intros Hl Hms Hlen Hrun Hmints. destruct (reached_ok drivers l nodes transfers ms y Hl Hms Hlen Hrun Hmints) as [Hy Hn]. split.
  - destruct Hy as [[G HC] _ _ _ _]. apply firstSome_None. intros a Ha. pose proof (ci_ledger _ _ _ _ _ _ _ _ _ HC) as Hf. rewrite Forall_forall in Hf.
    destruct (Hf a Ha) as [-> ->]. unfold accts, accountNames. by rewrite length_fmap, length_seq, Z.eqb_refl.
  - intros mv Hmv. destruct (smove_ok y mv Hy Hmv Hn) as (y' & -> & _). eauto.
Qed.

(** C22. The coordinator is disciplined, in a run like that of money conservation -- a
    fixed set of ranges that begin empty, transfers between existing accounts, fewer than
    2^64 events -- whose timestamps are all different and increase for one number that
    asks ([mintsOk]).  Every range's records are what the
    steps it applied make of nothing, and each of those steps commits a key only where
    the transaction holds it or has committed it, above its start, and rolls back only
    what it has not committed: the condition under which snapshots are stable and the
    oracles of the store are silent.  Without the condition on timestamps a commit can be
    below its start ([commit_below_start]). *)
Theorem coordinator_disciplined drivers l nodes transfers (ms : list (move (D := D))) y :
  lg_audits l = [] → Forall moveOk ms → Z.of_nat (length ms) + 1 < 2 ^ 64 →
  srun rngs maxOffset ms (begin drivers l nodes transfers) = Some y → mintsOk (sy_mints y) → historyOk y.
Proof using Hacc. intros Hl Hms Hlen Hrun Hmints. by destruct (reached_ok drivers l nodes transfers ms y Hl Hms Hlen Hrun Hmints) as [[_ _ _ _ Hr] _]. Qed.
End Safe.

(** ** A run *)

(** Clocks that count: a node's number, its time, whether it answers. *)
Record clockwork := MkClockwork { cw_node : Z; cw_wall : Z; cw_up : bool }.
#[global] Instance clockwork_time : TimeSource clockwork := {|
  drv_Now := λ d, if cw_up d then Some (MkTimestamp (cw_wall d) (cw_node d), MkClockwork (cw_node d) (cw_wall d + 1) true) else None;
  drv_NowAbove := λ lb d, if cw_up d then let w := Z.max (cw_wall d) (Wall lb + 1) in Some (MkTimestamp w (cw_node d), MkClockwork (cw_node d) (w + 1) true) else None;
|}.

Definition clocksAt (w : Z) : list clockwork := [MkClockwork 0 w true; MkClockwork 1 w true].
Definition wholeRange : list (RangeDescriptor * Timestamp) := [(FirstRangeDescriptor, zeroTimestamp)].
(** A transfer to its end, and an audit that reads after it. *)
Definition fewMoves : list (move (D := clockwork)) :=
  [MAct (ABegin 0 0 1 5) 10; MApply 0; MApply 0; MAnswer 1 20; MAnswer 0 20;
   MApply 1; MApply 0; MAnswer 0 30; MAnswer 0 30; MApply 0; MAnswer 0 40; MApply 0; MApply 0; MAnswer 0 50; MAnswer 0 50;
   MDrivers (clocksAt 5000000000); MAct (AAudit 1 60) 60; MApply 0; MApply 0; MAnswer 0 70; MAnswer 0 70].
Definition fewStart := begin wholeRange 2 (clocksAt 2000000000) (NewLedger 2) 2 1.
Definition fewEnd := default fewStart (srun wholeRange 0 fewMoves fewStart).

(** [mintsOk] as a test. *)
Definition mintOkb (ts : Timestamp) : bool :=
  (auditLookback <=? Wall ts) && (Wall ts + DefaultTTL <? 2 ^ 63) && (0 <=? Logical ts) && (Logical ts <? 2 ^ 32).
Fixpoint mintsOkb (ms : list (Z * Z * Timestamp)) : bool :=
  match ms with
  | [] => true
  | x :: ms =>
      mintOkb (snd x)
      && forallb (λ y, negb (bool_decide (snd x = snd y)) && (negb (fst (fst x) =? fst (fst y)) || Less (snd x) (snd y))) ms
      && mintsOkb ms
  end.
Lemma mintOkb_ok ts : mintOkb ts = true → mint_ok ts.
Proof.
  unfold mintOkb. intros [[[H1 H2]%andb_true_iff H3]%andb_true_iff H4]%andb_true_iff.
  apply Z.leb_le in H1, H3. apply Z.ltb_lt in H2, H4. unfold auditLookback, DefaultTTL in *.
  split; [split; [split; unfold is_i64, is_u32; lia|lia]| |unfold DefaultTTL; lia|unfold auditLookback, DefaultTTL; lia].
  unfold Timestamp_IsSet. destruct (Z.eqb_spec (Wall ts) 0); [lia|done].
Qed.
Lemma mintsOkb_ok ms : mintsOkb ms = true → mintsOk ms.
Proof.
  induction ms as [|x ms IH]; [intros _; split; [by intros ? ? ? ?%elem_of_nil|done]|]. cbn [mintsOkb].
  intros [[Hx Hall]%andb_true_iff Hr]%andb_true_iff. destruct (IH Hr) as [I1 I2]. rewrite forallb_forall in Hall. split.
  - intros a n ts [<-|Hin]%elem_of_cons; [by apply mintOkb_ok|by eapply I1].
  - intros [|i] [|j] u v Hij Hu Hv; [lia| |lia|apply (I2 i j); [lia|done|done]]. injection Hu as <-.
    specialize (Hall v). rewrite <- list_elem_of_In in Hall. specialize (Hall (list_elem_of_lookup_2 ms j v Hv)).
    apply andb_true_iff in Hall as [Hne Hlt]. split; [intros He; by rewrite bool_decide_eq_true_2 in Hne|]. intros He.
    rewrite He, Z.eqb_refl in Hlt. by apply Less_spec.
Qed.

Lemma ends_in {A} (x : A) (o : option A) : (match o with Some _ => true | None => false end) = true → o = Some (default x o).
Proof. by destruct o. Qed.
Lemma fewRun_ends : srun wholeRange 0 fewMoves (begin wholeRange 2 (clocksAt 2000000000) (NewLedger 2) 2 1) = Some fewEnd.
Proof. apply ends_in. by vm_compute. Qed.
Lemma fewEnd_mints : mintsOk (sy_mints fewEnd).
Proof. apply mintsOkb_ok. by vm_compute. Qed.
Lemma fewMoves_ok : Forall (moveOk 2) fewMoves.
Proof. repeat (apply Forall_cons; split; [cbn; unfold is_i64; lia|]). constructor. Qed.

Lemma bank_conserves_witness :
  length (lg_audits (co_ledger (sy_c fewEnd))) = 1%nat ∧ co_stats (sy_c fewEnd) c_committed = 1
  ∧ BankConservation_Check 2 (co_ledger (sy_c fewEnd)) = None ∧ is_Some (smove wholeRange 0 (MAct (ABegin 2 1 0 3) 80) fewEnd).
Proof.
  split; [by vm_compute|]. split; [by vm_compute|].
  destruct (bank_conserves wholeRange 0 2 eq_refl (clocksAt 2000000000) (NewLedger 2) 2 1 fewMoves fewEnd eq_refl fewMoves_ok eq_refl fewRun_ends fewEnd_mints) as [H1 H2].
  split; [exact H1|]. apply H2. cbn. unfold is_i64. lia.
Defined.

Lemma first_of {A} (x : A) (l : list A) : (length l =? 0)%nat = false → l !! 0%nat = Some (hd x l).
Proof. by destruct l. Qed.

Lemma coordinator_disciplined_witness :
  length (hd [] (sy_hist fewEnd)) = 9%nat
  ∧ disciplined_run (nsOf FirstRangeDescriptor) zeroTimestamp FirstRangeDescriptor ∅ (hd [] (sy_hist fewEnd)).
Proof.
  split; [by vm_compute|].
  refine (proj2 (coordinator_disciplined wholeRange 0 2 eq_refl (clocksAt 2000000000) (NewLedger 2) 2 1 fewMoves fewEnd eq_refl fewMoves_ok eq_refl fewRun_ends fewEnd_mints
    0%nat FirstRangeDescriptor zeroTimestamp (hd ∅ (sy_maps fewEnd)) (hd [] (sy_hist fewEnd)) eq_refl _ _)); apply first_of; by vm_compute.
Defined.

(** ** A commit below its start

    The commit timestamp is asked of the nodes with no lower bound.  A transfer whose
    start was given by another node than the one that answers now may commit below it:
    its record says committed, the ledger is told so, and every key refuses, its locks
    standing with nothing left to do. *)
Definition belowMoves : list (move (D := clockwork)) :=
  [MDrivers [MkClockwork 0 3000000000 true; MkClockwork 1 2000000000 false]; MAct (ABegin 1 0 1 5) 10; MApply 0; MApply 0; MAnswer 0 20; MAnswer 0 20;
   MDrivers [MkClockwork 0 3000000000 true; MkClockwork 1 2000000000 true];
   MApply 0; MApply 0; MAnswer 0 30; MAnswer 0 30; MApply 0; MAnswer 0 40; MApply 0; MApply 0; MAnswer 0 50; MAnswer 0 50].
Definition belowEnd := default fewStart (srun wholeRange 0 belowMoves fewStart).

Lemma commit_below_start :
  co_stats (sy_c belowEnd) c_committed = 1 ∧ map_to_list (co_live (sy_c belowEnd)) = [] ∧ sy_pend belowEnd = [] ∧ sy_ans belowEnd = []
  ∧ (λ i, l_StartTS <$> lockY wholeRange (sy_maps belowEnd) (account i)) <$> [0; 1] = [Some (MkTimestamp 3000000000 0); Some (MkTimestamp 3000000000 0)]
  ∧ snd <$> sy_mints belowEnd = [MkTimestamp 3000000000 0; MkTimestamp 2000000000 1].
Proof. by vm_compute. Qed.
