(* ===== verification/StoreDrain.v ===== *)
(** * Draining ends

    [drain] (store/node.go) loops while the Raft node has something to hand over,
    and its own body can give it more: a collection or a split is proposed while
    the entries of a Ready are applied.  Those proposals are made only when
    something was committed, and nothing commits inside the loop, so the loop ends
    after its second iteration. *)

From Stdlib Require Import Lia ZArith.
From stdpp Require Import base tactics numbers option gmap list.
From S2P Require Import Prelude Bytes ConfChange RaftTypes Raft RaftInv RaftOps RaftReach RaftSnap RaftExamples Hlc Engine KvEncoding EngineIface KvStore KvTxn StoreCodec StoreReplay StoreTxn StoreRange StoreNode.

(** ** Steps that leave the Raft node alone *)

Definition still {A} (x : Drv A) : Prop :=
  ∀ n m a n' m', x n m = Some (a, n', m') → rep_raft n' = rep_raft n.

Lemma still_ret {A} (a : A) : still (mret a).
Proof. by intros n m ? ? ? [= _ <- _]. Qed.
Lemma still_bind {A B} (x : Drv A) (f : A → Drv B) : still x → (∀ a, still (f a)) → still (x ≫= f).
Proof.
  intros Hx Hf n m b n' m'. unfold mbind, Drv_bind. destruct (x n m) as [[[a n1] m1]|] eqn:Ex; [|done].
  intros H. apply Hf in H. by rewrite H, (Hx _ _ _ _ _ Ex).
Qed.
Lemma still_panic {A} : still (@panic A).
Proof. done. Qed.
Lemma still_replica : still theReplica.
Proof. by intros n m ? ? ? [= _ <- _]. Qed.
Lemma still_node : still theNode.
Proof. by intros n m ? ? ? [= _ <- _]. Qed.
Lemma still_modR f : (∀ n, rep_raft (f n) = rep_raft n) → still (modR f).
Proof. by intros Hf n m ? ? ? [= _ <- _]. Qed.
Lemma still_modM f : still (modM f).
Proof. by intros n m ? ? ? [= _ <- _]. Qed.
Lemma still_when c x : still x → still (when c x).
Proof. destruct c; [done|]. intros _. apply still_ret. Qed.
Lemma still_forEach {A} (xs : list A) body : (∀ x, still (body x)) → still (forEach xs body).
Proof. intros Hb. induction xs as [|x xs IH]; [apply still_ret|]. cbn [forEach]. by apply still_bind. Qed.
Lemma still_onStore {A} (f : DB → Store → A * Store) : still (onStore f).
Proof. intros n m a n' m'. unfold onStore. destruct (f _ _). by intros [= _ <- _]. Qed.
Lemma still_onReplica {A} r (x : Drv A) : still (onReplica r x).
Proof. intros n m a n' m'. unfold onReplica. destruct (x r m) as [[[? ?] ?]|]; [|done]. by intros [= _ <- _]. Qed.
Lemma still_apply b sync : still (apply b sync).
Proof. intros n m a n' m'. unfold apply. destruct (tracked_Apply _ _ _) as [[? ?]|]; [|done]. by intros [= _ <- _]. Qed.
Lemma still_physNow cfg : still (physNow cfg).
Proof. by intros n m a n' m' [= _ <- _]. Qed.

(** Follow the code of a step that never touches the Raft node. *)
Ltac still_step :=
  repeat first
    [ apply still_ret | apply still_panic | apply still_replica | apply still_node | apply still_modM | apply still_apply
    | apply still_onStore | apply still_onReplica | apply still_physNow
    | apply still_when | apply still_forEach; intros
    | progress autounfold with still
    | by apply still_modR
    | apply still_bind; [|intros]
    | match goal with |- still (match ?x with _ => _ end) => destruct x end ].

Create HintDb still.
#[export] Hint Unfold emit bump tally hlcNow hlcUpdate seedClockAtLeast flushApply scheduleDurable versions_ ingest declareDead
  applyShared answerOne answerAt readTxn answerTxn rerouteAt rerouteReadAt serveRead serveReadyReads takeReadStates
  storedSnapshot sendMessage nextProposal persist : still.

Section Still.
Context (cfg : NodeConfig) (at_ : Z).

Lemma still_applyTxn b c : still (applyTxn b c).
Proof. unfold applyTxn. still_step. Qed.
Lemma still_applySplit spec i : still (applySplit cfg spec i at_).
Proof. unfold applySplit. still_step. Qed.
Lemma still_finishEntry e noop owned op k v t mb : still (finishEntry cfg e noop owned op k v t at_ mb).
Proof. unfold finishEntry. still_step. Qed.
Lemma still_applyEntry e mb : still (applyEntry cfg at_ e mb).
Proof.
  unfold applyEntry. repeat first [apply still_finishEntry | apply still_applyTxn | apply still_applySplit | progress still_step].
Qed.
Lemma still_applyEntries es mb : still (applyEntries cfg at_ es mb).
Proof.
  revert mb. induction es as [|e es IH]; intros mb; cbn [applyEntries]; [apply still_ret|].
  apply still_bind; [apply still_applyEntry|done].
Qed.
Lemma still_persist mark hs es : still (persist cfg at_ mark hs es).
Proof. still_step. Qed.
Lemma still_sendMessage msg : still (sendMessage cfg msg at_).
Proof. still_step. Qed.
Lemma still_takeReadStates rs : still (takeReadStates rs).
Proof. still_step. Qed.
Lemma still_serveReadyReads : still (serveReadyReads cfg at_).
Proof. still_step. Qed.
End Still.

(** ** What the loop does to the Raft node *)

(** Room for [k] more proposals. *)
Record fits (k : Z) (r : Raft) : Prop := MkFits {
  ft_inv : inv r;
  ft_last : lastIndex r + k + 1 < 2 ^ 64;
  ft_mark : r_nextMark r + k + 1 < 2 ^ 64;
}.

Lemma fits_good k r : 0 ≤ k → fits k r → good r.
Proof. intros Hk []. split; [done|]. left. lia. Qed.
Lemma fits_less k k' r : k' ≤ k → fits k r → fits k' r.
Proof. intros Hk []. split; [done|lia|lia]. Qed.

(** The indices the loop condition compares, and the snapshot it waits for. *)
Definition marks (r : Raft) : Index * Index * option RaftTypes.Snapshot := (r_commitIndex r, r_appliedIdx r, r_pendingSnap r).

Lemma dirty_nextMark r b : r_nextMark r = b → 0 ≤ b → b + 1 < 2 ^ 64 → r_nextMark (dirty r) ≤ b + 1.
Proof. intros <- H0 Hb. unfold dirty. case_test; cbn [r_nextMark update_field]; [cbn; rewrite add64_small; lia|lia]. Qed.

(** A proposal appends one entry and moves no index. *)
Lemma Propose_marks k id data r e r' :
  0 ≤ k → fits (k + 1) r → Propose id data r = Some (e, r') → fits k r' ∧ marks r' = marks r.
Proof.
  intros Hk Hf. assert (Hf' : fits k r) by (apply (fits_less (k + 1)); [lia|done]).
  unfold Propose, refused, done_with. do 3 (case_test; [by intros [= _ <-]|]).
  set (en := MkEntry _ _ _ _ _).
  assert (Hg : good r) by (apply (fits_good (k + 1)); [lia|done]). destruct Hf as [_ HL HM].
  destruct (kept_append en r Hg) as (r1 & Ea & [[Hi _] _] & _ & HL1 & Hc1); [lia|done|].
  rewrite Ea. cbn [mbind option_bind].
  assert (Hs1 : r_pendingSnap r1 = r_pendingSnap r ∧ r_appliedIdx r1 = r_appliedIdx r ∧ r_nextMark r1 ≤ r_nextMark r + 1).
  { revert Ea. unfold appendEntries. cbn [foldM]. destruct (appendOne r en) as [r0|] eqn:Ec; [|done]. cbn [mbind option_bind].
    intros [= <-]. revert Ec. unfold appendOne. destruct (negb _); [done|]. intros [= <-].
    split_and!; [unfold dirty; by case_test..|]. pose proof Hg as [[_ _ [[] _ _ _]] _].
    apply dirty_nextMark; [done|lia|lia]. }
  destruct Hs1 as (Hs1 & Ha1 & Hm1).
  destruct (broadcastAppend r1) as [r2|] eqn:Eb; [|done]. intros [= _ <-].
  pose proof (core_broadcastAppend _ _ Eb) as Hcore. pose proof (broadcastAppend_waits _ _ Hs1 _ Eb) as Hs2.
  pose proof (inv_core _ _ Hcore Hi) as Hi2. unfold core in Hcore.
  injection Hcore as Hlog Hsn _ _ _ _ _ _ _ _ Hc2 Ha2 _ _ _ _ Hn2 _ _ _ _.
  split; [|unfold marks; congruence]. split; [done|rewrite (lastIndex_ext r1 r2) by done; lia|lia].
Qed.

Lemma Compact_marks k i r res r' : fits k r → Compact i r = (res, r') → fits k r' ∧ marks r' = marks r.
Proof.
  intros [Hi HL HM] H. pose proof (keptInv_Compact _ _ _ _ Hi H) as [Hi' _].
  assert (Hfr : marks r' = marks r ∧ r_nextMark r' = r_nextMark r).
  { revert H. unfold Compact. do 3 (case_test; [by intros [= _ <-]|]).
    destruct (at_ r i); [|by intros [= _ <-]]. destruct (pos r i); [|by intros [= _ <-]].
    destruct (ConfigurationAt i r); [|by intros [= _ <-]]. intros [= _ <-]. unfold recomputeConf. by destruct (replayConf _ _ _). }
  destruct Hfr as [Hm Hn]. split; [|done]. split; [done| |lia].
  destruct (decide (r_snapIndex r < i)) as [Hs|Hs].
  - destruct res as [[t c]|].
    + apply Compact_cuts in H as (_ & _ & _ & _ & _ & _ & _ & _ & _ & -> & _); done.
    + revert H. unfold Compact. do 3 (case_test; [by intros [= _ <-]|]).
      destruct (at_ r i); [|by intros [= _ <-]]. destruct (pos r i); [|by intros [= _ <-]].
      destruct (ConfigurationAt i r); [done|by intros [= _ <-]].
  - revert H. unfold Compact. case_test; [by intros [= _ <-]|lia].
Qed.

(** A Ready leaves nothing to hand over and moves no index. *)
Lemma Ready_marks k r rd r' :
  0 ≤ k → fits k r → Ready_ r = Some (rd, r') →
  fits k r' ∧ marks r' = (r_commitIndex r, r_appliedIdx r, None)
  ∧ rd_Snapshot rd = r_pendingSnap r
  ∧ rd_Committed rd = drop (Z.to_nat (r_appliedIdx r - r_snapIndex r)) (upto r (r_commitIndex r))
  ∧ (r_appliedIdx r = r_commitIndex r → HasReady r' = false).
Proof.
  intros Hk [Hi HL HM] H. destruct (Ready_drains r Hi) as (rd0 & r0 & H0 & Hi0 & _ & _ & _ & Hc & _ & _ & Hd & Hh); [lia|].
  rewrite H in H0. injection H0 as <- <-. rewrite (Ready_unfold r Hi) in H by lia. injection H as <- <-.
  assert (Hfr : r_commitIndex (afterReady r) = r_commitIndex r ∧ r_appliedIdx (afterReady r) = r_appliedIdx r
                ∧ lastIndex (afterReady r) = lastIndex r ∧ r_nextMark (afterReady r) = r_nextMark r).
  { unfold afterReady. repeat case_test; try done. unfold closeEmptyMark. by rewrite Z.eqb_refl. }
  destruct Hfr as (F1 & F2 & F3 & F4).
  set (r1 := _ <| r_hardStateDirty := false |>) in *.
  assert (HL1 : lastIndex r1 = lastIndex (afterReady r)) by done.
  split_and!; try done; [split; [done|lia|by change (r_nextMark r1) with (r_nextMark (afterReady r)); lia]| |].
  { trans (r_commitIndex (afterReady r), r_appliedIdx (afterReady r), @None RaftTypes.Snapshot); [done|congruence]. }
  intros He. unfold HasReady. rewrite Hd, Hh. change (r_msgs r1) with (@nil Message). change (r_snapTo r1) with (@nil NodeID).
  change (r_pendingSnap r1) with (@None RaftTypes.Snapshot). change (r_appliedIdx r1) with (r_appliedIdx (afterReady r)).
  change (r_commitIndex r1) with (r_commitIndex (afterReady r)). rewrite F1, F2, He, !Z.ltb_irrefl. done.
Qed.

(** ** The loop *)

(** What a step makes of the Raft node, when it returns. *)
Definition tri {A} (P : Raft → Prop) (x : Drv A) (Q : Raft → Prop) : Prop :=
  ∀ n m a n' m', P (rep_raft n) → x n m = Some (a, n', m') → Q (rep_raft n').

Lemma tri_still {A} P (x : Drv A) : still x → tri P x P.
Proof. intros Hx n m a n' m' HP H. by rewrite (Hx _ _ _ _ _ H). Qed.
Lemma tri_weaken {A} (P P' : Raft → Prop) (x : Drv A) Q : (∀ r, P r → P' r) → tri P' x Q → tri P x Q.
Proof. intros Hw Hx n m a n' m' HP H. eapply Hx; [by apply Hw|done]. Qed.
Lemma tri_bind {A B} P Q R (x : Drv A) (f : A → Drv B) : tri P x Q → (∀ a, tri Q (f a) R) → tri P (x ≫= f) R.
Proof.
  intros Hx Hf n m b n' m' HP. unfold mbind, Drv_bind. destruct (x n m) as [[[a n1] m1]|] eqn:Ex; [|done].
  intros H. eapply Hf; [|done]. by eapply Hx.
Qed.
Lemma tri_still_bind {A B} P R (x : Drv A) (f : A → Drv B) : still x → (∀ a, tri P (f a) R) → tri P (x ≫= f) R.
Proof. intros Hx. apply tri_bind. by apply tri_still. Qed.
Lemma tri_modR P Q f : (∀ n, P (rep_raft n) → Q (rep_raft (f n))) → tri P (modR f) Q.
Proof. intros Hf n m a n' m' HP [= _ <- _]. by apply Hf. Qed.
Lemma tri_replica {A} P (f : Replica → Drv A) Q :
  (∀ n, P (rep_raft n) → tri (λ r, r = rep_raft n) (f n) Q) → tri P (theReplica ≫= f) Q.
Proof. intros Hf n m a n' m' HP H. by eapply (Hf n HP n m). Qed.
Lemma tri_propose P Q id data :
  (∀ r e r', P r → Propose id data r = Some (e, r') → Q r') → tri P (onRaftE (Propose id data)) Q.
Proof.
  intros Hf n m a n' m' HP. unfold onRaftE. destruct (Propose id data (rep_raft n)) as [[e r']|] eqn:Ep; [|done].
  intros [= _ <- _]. by eapply Hf.
Qed.

(** Nothing pending, the commit index where it was, and applied at least [lo]. *)
Record on (k : Z) (c lo : Index) (r : Raft) : Prop := MkOn {
  on_fits : fits k r;
  on_commit : r_commitIndex r = c;
  on_snap : r_pendingSnap r = None;
  on_applied : lo ≤ r_appliedIdx r;
}.

Lemma on_marks k c lo k' r r' : on k c lo r → fits k' r' → marks r' = marks r → on k' c lo r'.
Proof. intros [] Hf [= Hc Ha Hs]. split; [done|congruence|congruence|lia]. Qed.
Lemma on_less k k' c lo r : k' ≤ k → on k c lo r → on k' c lo r.
Proof. intros Hk []. split; [by eapply fits_less|done..]. Qed.
Lemma on_AckApplied k c lo i r : i ≤ c → on k c lo r → on k c (Z.max lo i) (AckApplied i r).
Proof.
  intros Hi [[Hinv ? ?] Hc Hs Ha]. destruct (keptInv_AckApplied i r Hinv) as [Hi' _]; [lia|].
  revert Hi'. unfold AckApplied. rewrite Z.gtb_ltb. case_test; intros Hi'.
  - split; [by split|done|done|cbn; lia].
  - split; [by split|done|done|lia].
Qed.

Section Loop.
Context (cfg : NodeConfig) (at_ : Z).

Lemma tri_proposal {A} k c lo id data (f : option RaftError → Drv A) :
  0 ≤ k → (∀ e, still (f e)) → tri (on (k + 1) c lo) (onRaftE (Propose id data) ≫= f) (on k c lo).
Proof.
  intros Hk Hf. apply (tri_bind _ (on k c lo)); [|intros; by apply tri_still].
  apply tri_propose. intros r e r' Hon Hp. destruct (Propose_marks k _ _ _ _ _ Hk (on_fits _ _ _ _ Hon) Hp).
  by eapply on_marks.
Qed.

Lemma tri_skip {A} k c lo (x : Drv A) : 0 ≤ k → still x → tri (on (k + 1) c lo) x (on k c lo).
Proof. intros Hk Hx. apply (tri_weaken _ (on k c lo)); [intros r; apply on_less; lia|by apply tri_still]. Qed.

Lemma tri_maybeGC k c lo : 0 ≤ k → tri (on (k + 1) c lo) (maybeGC cfg) (on k c lo).
Proof.
  intros Hk. unfold maybeGC. apply tri_still_bind; [still_step|]. intros n.
  destruct (_ || _); [apply tri_skip; [done|still_step]|]. apply tri_still_bind; [still_step|]. intros now.
  destruct (negb _); [apply tri_skip; [done|still_step]|]. destruct (_ && _); [apply tri_skip; [done|still_step]|].
  apply tri_still_bind; [still_step|]. intros id. apply tri_proposal; [done|]. intros []; still_step.
Qed.

Lemma tri_maybeSplit k c lo : 0 ≤ k → tri (on (k + 1) c lo) (Replica_maybeSplit cfg) (on k c lo).
Proof.
  intros Hk. unfold Replica_maybeSplit. do 2 (apply tri_still_bind; [still_step|]; intros ?).
  destruct (maybeSplit _ _ _ _ _ _ _ _) as [[spec next]|]; [|apply tri_skip; [done|still_step]].
  do 2 (apply tri_still_bind; [still_step|]; intros ?). apply tri_proposal; [done|]. intros []; still_step.
Qed.

Lemma tri_maybeSnapshot k c lo : tri (on k c lo) (maybeSnapshot cfg at_) (on k c lo).
Proof.
  unfold maybeSnapshot. apply tri_replica. intros n Hon.
  assert (Hw : ∀ r, r = rep_raft n → on k c lo r) by (by intros ? ->).
  destruct (_ =? 0); [by eapply tri_weaken, tri_still; [|still_step]|].
  destruct (_ <? _); [by eapply tri_weaken, tri_still; [|still_step]|].
  destruct (Compact _ _) as [res r'] eqn:Ec.
  destruct (Compact_marks k _ _ _ _ (on_fits _ _ _ _ Hon) Ec) as [Hf Hm].
  apply (tri_bind _ (on k c lo)); [|intros; apply tri_still; destruct res as [[t cf]|]; still_step].
  apply tri_modR. intros n' _. by eapply on_marks.
Qed.

Lemma tri_installSnapshot k c lo mark sn :
  sn_Index sn ≤ c → tri (on k c lo) (installSnapshot cfg at_ mark sn) (on k c lo).
Proof.
  intros Hs. unfold installSnapshot. destruct (decodeMachine _) as [[[[desc mk] vs]|]|]; [|by intros ? ?..].
  do 7 (apply tri_still_bind; [still_step|]; intros ?).
  apply (tri_bind _ (on k c lo)); [|intros; apply tri_still; still_step].
  destruct (_ >? _); [|by apply tri_still, still_ret]. apply tri_still_bind; [still_step|]. intros _.
  apply tri_modR. intros n Hon. destruct (on_AckApplied k c lo (sn_Index sn) (rep_raft n) Hs Hon) as [? ? ? Ha].
  split; [done|done|done|]. cbn in Ha |- *. lia.
Qed.
End Loop.

(** The committed entries of a Ready end at the commit index; there are none
    exactly when everything committed is applied. *)
Lemma committed_last r (es := drop (Z.to_nat (r_appliedIdx r - r_snapIndex r)) (upto r (r_commitIndex r))) :
  inv r → match last es with
          | Some e => e_Index e = r_commitIndex r
          | None => r_appliedIdx r = r_commitIndex r
          end.
Proof.
  intros [[] _ _]. rewrite lastIndex_length in ls_commit by done.
  assert (Hlen : length es = Z.to_nat (r_commitIndex r - r_appliedIdx r))
    by (unfold es, upto; rewrite length_drop, length_take; lia).
  assert (Hok : log_ok (r_appliedIdx r) es).
  { unfold es, upto. replace (r_appliedIdx r) with (r_snapIndex r + Z.of_nat (Z.to_nat (r_appliedIdx r - r_snapIndex r))) at 1 by lia.
    by apply log_ok_drop, log_ok_take. }
  destruct (last es) as [e|] eqn:El.
  - rewrite last_lookup in El. apply lookup_lt_Some in El as Hlt. apply Hok in El. rewrite El, Hlen. lia.
  - apply last_None in El. rewrite El in Hlen. cbn in Hlen. lia.
Qed.

Section Drain.
Context (cfg : NodeConfig) (at_ : Z).

(** One iteration applies everything committed, and what it proposes commits
    nothing. *)
Lemma tri_drainOnce k r0 :
  0 ≤ k → fits (k + 2) r0 → snap_fits r0 →
  tri (λ r, r = r0) (drainOnce cfg at_) (on k (r_commitIndex r0) (r_commitIndex r0)).
Proof.
  intros Hk Hf Hs. unfold drainOnce. apply tri_replica. intros n Hn.
  destruct (Ready_ (rep_raft n)) as [[rd r1]|] eqn:Er; [|by intros ? ?].
  rewrite Hn in Er. set (c := r_commitIndex r0). set (a := r_appliedIdx r0).
  destruct (Ready_marks (k + 2) r0 rd r1 ltac:(lia) Hf Er) as (Hf1 & [= Hc1 Ha1 Hs1] & Hsn & Hcm & _).
  apply (tri_bind _ (on (k + 2) c a)); [apply tri_modR; intros n' _; by split; [..|cbn; lia]|intros _].
  apply (tri_bind _ (on (k + 2) c a)).
  { rewrite Hsn. destruct (r_pendingSnap r0) eqn:Ep; [|by apply tri_still, still_ret].
    by apply tri_installSnapshot, Hs. }
  intros _. do 4 (apply tri_still_bind; [still_step|]; intros _).
  apply (tri_bind _ (on k c c)); [|intros; apply tri_still_bind; [still_step|intros; apply tri_still; still_step]].
  pose proof (committed_last r0 (ft_inv _ _ Hf)) as Hlast. rewrite <- Hcm in Hlast.
  destruct (last (rd_Committed rd)) as [el|].
  - apply tri_still_bind; [apply still_applyEntries|]. intros mb. apply tri_still_bind; [still_step|]. intros _.
    apply (tri_bind _ (on (k + 1) c a)); [replace (k + 2) with (k + 1 + 1) by lia; apply tri_maybeGC; lia|]. intros _.
    do 3 (apply tri_still_bind; [still_step|]; intros ?).
    apply (tri_bind _ (on (k + 1) c c)).
    { apply tri_modR. intros n' Hon. destruct (on_AckApplied (k + 1) c a (e_Index el) (rep_raft n')) as [? ? ? Ha]; [lia|done|].
      split; [done|done|done|]. cbn in Ha |- *. lia. }
    intros _. apply (tri_bind _ (on (k + 1) c c)); [apply tri_maybeSnapshot|]. intros _. by apply tri_maybeSplit.
  - apply (tri_weaken _ (on k c c)); [|by apply tri_still, still_ret].
    intros r Hon. apply (on_less (k + 2)); [lia|]. destruct Hon. split; [done|done|done|]. unfold a in *. lia.
Qed.

(** An iteration that starts with nothing to apply leaves nothing to do. *)
Lemma tri_drainOnce_last r0 :
  fits 0 r0 → r_pendingSnap r0 = None → r_appliedIdx r0 = r_commitIndex r0 →
  tri (λ r, r = r0) (drainOnce cfg at_) (λ r, HasReady r = false).
Proof.
  intros Hf Hs Ha. unfold drainOnce. apply tri_replica. intros n Hn.
  destruct (Ready_ (rep_raft n)) as [[rd r1]|] eqn:Er; [|by intros ? ?]. rewrite Hn in Er.
  destruct (Ready_marks 0 r0 rd r1 ltac:(lia) Hf Er) as (_ & _ & Hsn & Hcm & HR). specialize (HR Ha).
  pose proof (committed_last r0 (ft_inv _ _ Hf)) as Hlast. rewrite <- Hcm in Hlast.
  assert (Hnil : rd_Committed rd = []).
  { rewrite Hcm. unfold upto. rewrite Ha. apply drop_ge. rewrite length_take. lia. }
  rewrite Hsn, Hs, Hnil. cbn [last].
  apply (tri_bind _ (λ r, HasReady r = false)); [by apply tri_modR|intros _].
  repeat (apply tri_still_bind; [still_step|]; intros _). apply tri_still. still_step.
Qed.

Lemma drainLoop_ready fuel n m : HasReady (rep_raft n) = false → drainLoop cfg fuel at_ n m = Some (true, n, m).
Proof. intros H. destruct fuel; cbn [drainLoop]; unfold mbind, Drv_bind, theReplica; by rewrite H. Qed.

Lemma drainLoop_S fuel n m :
  HasReady (rep_raft n) = true →
  drainLoop cfg (S fuel) at_ n m = match drainOnce cfg at_ n m with
                                   | Some (_, n', m') => drainLoop cfg fuel at_ n' m'
                                   | None => None
                                   end.
Proof. intros H. cbn [drainLoop]. unfold mbind, Drv_bind, theReplica. by rewrite H. Qed.

(** Two iterations are enough, and more fuel changes nothing. *)
Lemma drainLoop_ends fuel n m :
  fits 2 (rep_raft n) → snap_fits (rep_raft n) → (2 ≤ fuel)%nat →
  drainLoop cfg fuel at_ n m = drainLoop cfg 2 at_ n m
  ∧ ∀ fin n' m', drainLoop cfg 2 at_ n m = Some (fin, n', m') → fin = true ∧ HasReady (rep_raft n') = false.
Proof.
  intros Hf Hs Hfuel. destruct fuel as [|[|fuel]]; [lia|lia|]. destruct (HasReady (rep_raft n)) eqn:R1.
  2:{ rewrite !drainLoop_ready by done. split; [done|]. by intros ? ? ? [= <- <- _]. }
  rewrite !drainLoop_S by done. destruct (drainOnce cfg at_ n m) as [[[[] n1] m1]|] eqn:D1; [|done].
  pose proof (tri_drainOnce 0 (rep_raft n) ltac:(lia) Hf Hs _ _ _ _ _ eq_refl D1) as [Hf1 Hc1 Hs1 Ha1].
  destruct (HasReady (rep_raft n1)) eqn:R2; [|rewrite !drainLoop_ready by done; split; [done|by intros ? ? ? [= <- <- _]]].
  rewrite !drainLoop_S by done. destruct (drainOnce cfg at_ n1 m1) as [[[[] n2] m2]|] eqn:D2; [|done].
  assert (r_appliedIdx (rep_raft n1) = r_commitIndex (rep_raft n1)) by (pose proof Hf1 as [[[] _ _] _ _]; lia).
  assert (HR : HasReady (rep_raft n2) = false) by (by eapply (tri_drainOnce_last (rep_raft n1))).
  rewrite !drainLoop_ready by done. split; [done|]. by intros ? ? ? [= <- <- _].
Qed.
End Drain.

(** Room below the end of the log and mark counters for what one drain proposes. *)
Definition drain_room (r : Raft) : Prop := lastIndex r + 3 < 2 ^ 64 ∧ r_nextMark r + 3 < 2 ^ 64.

(** C21. Draining ends: unless something panics, a replica whose Raft node is
    reachable (and is not within three of the end of the 64-bit log and mark
    counters) has nothing left to hand over after the loop, which runs its body at
    most twice -- so the bound the model puts on the loop is never what ends it --
    although the body itself proposes collections and splits. *)
Theorem drain_terminates cfg at_ n m fin n' m' :
  reachable (rep_raft n) → drain_room (rep_raft n) →
  drain cfg at_ n m = Some (fin, n', m') →
  fin = true ∧ HasReady (rep_raft n') = false
  ∧ ∀ fuel, (2 ≤ fuel)%nat → drainLoop cfg fuel at_ n m = drainLoop cfg drainFuel at_ n m.
Proof.
  intros Hr [HL HM] Hd. assert (Hf : fits 2 (rep_raft n)) by (split; [by apply reachable_inv_lemma|lia|lia]).
  pose proof (reachable_fits _ Hr) as Hs.
  assert (Heq : ∀ fuel, (2 ≤ fuel)%nat → drainLoop cfg fuel at_ n m = drainLoop cfg 2 at_ n m)
    by (intros; by apply drainLoop_ends).
  destruct (drainLoop_ends cfg at_ 2 n m Hf Hs) as [_ Hend]; [lia|].
  revert Hd. unfold drain, mbind, Drv_bind. rewrite (Heq drainFuel) by (unfold drainFuel; lia).
  destruct (drainLoop cfg 2 at_ n m) as [[[f n1] m1]|] eqn:El; [|done].
  destruct (Hend _ _ _ eq_refl) as [-> HR]. cbn. intros [= <- <- _]. split; [done|]. split.
  - by destruct (rep_confErr n1).
  - intros fuel Hfu. rewrite Heq by done. by rewrite <- El.
Qed.

(** ** A drain that runs twice *)

(** A leader of one whose first entry has just committed, on a machine that
    collects: applying the entry proposes a collection. *)
Definition cfgD : NodeConfig :=
  MkNodeConfig 1 [1] 0 10 1 5 true true false true [] 0 1 0 100 true false true 0 None (λ n, 1000 + Z.of_nat n) 500.
Definition raftD : Raft :=
  default (built (raftConfig cfgD)) (rscript (built (raftConfig cfgD)) [OpCampaign; OpReady; OpAckPersisted 1]).
Definition mD : Node := MkNode (MkTracked Engine.New 0) NewEpochGuard [] 0 false 0 0 0 0 [].
Definition nD : Replica :=
  bareReplica FirstRangeDescriptor raftD (plain (rangePrefix FirstRange) zeroTimestamp) clock1.

Lemma raftD_reachable : reachable raftD.
Proof.
  apply (rscript_reach (built (raftConfig cfgD)) [OpCampaign; OpReady; OpAckPersisted 1]); [|by vm_compute].
  by apply (reach_new (raftConfig cfgD)).
Qed.

Example drainD_twice :
  match drain cfgD 0 nD mD with Some (fin, n', _) => (fin, lastIndex (rep_raft n'), rep_stats n' gcProposed) | None => (false, 0, 0) end
  = (true, 2, 1).
Proof. vm_compute. reflexivity. Qed.

Lemma drain_terminates_witness :
  ∃ n' m', drain cfgD 0 nD mD = Some (true, n', m') ∧ HasReady (rep_raft n') = false.
Proof.
  destruct (drain cfgD 0 nD mD) as [[[fin n'] m']|] eqn:Ed; [|exfalso; vm_compute in Ed; discriminate].
  destruct (drain_terminates cfgD 0 nD mD fin n' m' raftD_reachable (conj eq_refl eq_refl) Ed) as (H1 & H2 & _).
  exists n', m'. split; [rewrite <- H1; exact eq_refl|exact H2].
Defined.
