(* ===== verification/StoreDurable.v ===== *)
(** * What a replica has made durable is what it reads back

    A replica keeps a record of the state its completed writes have made durable
    ([durHS], [durSnap], [durLog], folded in by [fold]) and, at every
    acknowledgement and every restart, compares it with what the engine holds.
    The record and the engine are written independently: one is a slice updated
    by position, the other a batch of keyed writes and range deletions.  This
    file shows that each of the three writes of store/node.go takes the two from
    agreement to agreement, so the comparison cannot fail. *)

From Stdlib Require Import Lia ZArith.
From stdpp Require Import base tactics numbers option gmap list.
From S2P Require Import Prelude Bytes ConfChange RaftTypes Raft RaftInv Hlc Engine KvEncoding EngineIface KvStore KvTxn EngineMap StoreCodec StoreReplay StoreTxn StoreRange StoreNode StoreDriver.

(** ** The keys of a log *)

Lemma logKey_prefix rng j : logPrefixOf rng `prefix_of` logKeyOf rng j.
Proof. by eexists. Qed.

Lemma logRange_in rng k : InRange k (Some (logPrefixOf rng)) (Some (logUpperOf rng)) = true ↔ logPrefixOf rng `prefix_of` k.
Proof. rewrite <- logUpper_prefixEnd. apply prefixEnd_in. Qed.

Lemma logKey_ltb rng i j : is_u64 i → is_u64 j → bytes_ltb (logKeyOf rng i) (logKeyOf rng j) = (i <? j).
Proof.
  intros Hi Hj. apply eq_true_iff_eq. rewrite bytes_ltb_lt. unfold logKeyOf.
  rewrite bytes_cmp_app, bytes_cmp_be_put by (change (256 ^ Z.of_nat 8) with (2 ^ 64); unfold is_u64 in *; lia).
  by rewrite Z.ltb_lt, Z.compare_lt_iff.
Qed.

Lemma logKey_inj rng i j : is_u64 i → is_u64 j → logKeyOf rng i = logKeyOf rng j → i = j.
Proof.
  intros Hi Hj He. pose proof (logKey_ltb rng i j Hi Hj) as H1. pose proof (logKey_ltb rng j i Hj Hi) as H2.
  rewrite He in H1, H2. destruct (bytes_ltb _ _) eqn:E; [|lia]. by apply bytes_lt_irrefl in E.
Qed.

(** Cutting the log above an index, and below one. *)
Lemma above_in rng i j :
  is_u64 i → is_u64 j → InRange (logKeyOf rng j) (Some (logKeyOf rng i)) (Some (logUpperOf rng)) = (i <=? j).
Proof.
  intros Hi Hj. pose proof (proj2 (logRange_in rng (logKeyOf rng j)) (logKey_prefix rng j)) as Hr.
  unfold InRange in *. apply andb_true_iff in Hr as [_ Hr]. rewrite Hr, andb_true_r, logKey_ltb by done. lia.
Qed.
Lemma below_in rng i j :
  is_u64 i → is_u64 j → InRange (logKeyOf rng j) (Some (logPrefixOf rng)) (Some (logKeyOf rng i)) = (j <? i).
Proof.
  intros Hi Hj. pose proof (proj2 (logRange_in rng (logKeyOf rng j)) (logKey_prefix rng j)) as Hr.
  unfold InRange in *. apply andb_true_iff in Hr as [Hr _]. by rewrite Hr, logKey_ltb.
Qed.

(** A range of keys between two keys of a log holds only keys of the log. *)
Lemma log_bounds rng k lo hi :
  logPrefixOf rng `prefix_of` lo → bytes_le hi (logUpperOf rng) →
  InRange k (Some lo) (Some hi) = true → logPrefixOf rng `prefix_of` k.
Proof.
  intros Hlo Hhi Hin. apply logRange_in. unfold InRange in *. apply andb_true_iff in Hin as [H1 H2].
  apply logRange_in in Hlo. unfold InRange in Hlo. apply andb_true_iff in Hlo as [H3 _].
  apply negb_true_iff, not_true_iff_false in H1, H3. apply andb_true_iff.
  split; [|by eapply bytes_lt_le_trans].
  apply negb_true_iff, not_true_iff_false. apply bytes_le_not_lt. apply bytes_le_not_lt in H1, H3.
  by eapply bytes_le_trans.
Qed.

(** The hard state and the snapshot are not keys of the log. *)
Lemma hs_not_log rng : ¬ logPrefixOf rng `prefix_of` keyHardStateOf rng.
Proof. intros [k Hk]. unfold logPrefixOf, keyHardStateOf in Hk. rewrite <- app_assoc in Hk. by apply app_inv_head in Hk. Qed.
Lemma snap_not_log rng : ¬ logPrefixOf rng `prefix_of` keySnapshotOf rng.
Proof. intros [k Hk]. unfold logPrefixOf, keySnapshotOf in Hk. rewrite <- app_assoc in Hk. by apply app_inv_head in Hk. Qed.
Lemma hs_not_snap rng : keyHardStateOf rng ≠ keySnapshotOf rng.
Proof. unfold keyHardStateOf, keySnapshotOf. intros H. by apply app_inv_head in H. Qed.

(** ** The image of a record in the engine *)

Record Disk := MkDisk { dk_hs : HardState; dk_snap : SnapshotMeta; dk_log : list Entry }.
Definition disk (n : Replica) : Disk := MkDisk (rep_durHS n) (rep_durSnap n) (rep_durLog n).

Definition noMeta : SnapshotMeta := MkSnapshotMeta 0 0 (MkConfiguration [] []).

(** The last index the record reaches. *)
Definition reach (d : Disk) : Index := sm_Index (dk_snap d) + Z.of_nat (length (dk_log d)).

Definition entryAt (d : Disk) (j : Index) : option Entry :=
  if sm_Index (dk_snap d) <? j then dk_log d !! Z.to_nat (j - sm_Index (dk_snap d) - 1) else None.

(** Indices fit the [int] the record is indexed with. *)
Record disk_ok (d : Disk) : Prop := MkDiskOk {
  do_snap : 0 ≤ sm_Index (dk_snap d);
  do_reach : reach d < 2 ^ 63;
  do_log : log_ok (sm_Index (dk_snap d)) (dk_log d);
  do_entries : Forall entry_ok (dk_log d);
}.

Record Image (rng : Z) (kv : gmap bytes bytes) (d : Disk) : Prop := MkImage {
  im_ok : disk_ok d;
  im_hs : match kv !! keyHardStateOf rng with
          | Some v => v = encodeHardState (dk_hs d) ∧ hs_ok (dk_hs d)
          | None => dk_hs d = MkHardState 0 0
          end;
  im_snap : match kv !! keySnapshotOf rng with
            | Some v => ∃ desc mark rs, v = encodeSnapshot (dk_snap d) (encodeMachine desc mark rs)
                          ∧ meta_ok (dk_snap d) ∧ machine_ok desc mark rs ∧ key_ok (encodeMachine desc mark rs)
            | None => dk_snap d = noMeta
            end;
  im_log : ∀ j, is_u64 j → kv !! logKeyOf rng j = encodeEntry <$> entryAt d j;
  im_only : ∀ k v, logPrefixOf rng `prefix_of` k → kv !! k = Some v → ∃ j, is_u64 j ∧ k = logKeyOf rng j;
}.

Lemma small_u64 x : 0 ≤ x < 2 ^ 63 → is_u64 x.
Proof. unfold is_u64. lia. Qed.

Lemma entryAt_index d j e : disk_ok d → entryAt d j = Some e → e_Index e = j.
Proof.
  intros Hd. unfold entryAt. case_test; [|done]. intros He. apply (do_log _ Hd) in He. lia.
Qed.

Lemma entryAt_elem d e : disk_ok d → e ∈ dk_log d ↔ entryAt d (e_Index e) = Some e ∧ is_u64 (e_Index e).
Proof.
  intros Hd. pose proof Hd as [H0 Hr Hl He]. split.
  - intros (i & Hi)%list_elem_of_lookup_1. apply Hl in Hi as Hx. pose proof (lookup_lt_Some _ _ _ Hi).
    unfold entryAt, reach in *. case_test; [|lia]. split; [|apply small_u64; lia].
    rewrite <- Hi. f_equal. lia.
  - intros [Ha _]. unfold entryAt in Ha. case_test_in Ha; [|done]. by eapply list_elem_of_lookup_2.
Qed.

(** The scan of the log gives the entries in order. *)
Lemma log_sorted rng d : disk_ok d → sorted_entries ((λ e, (logKeyOf rng (e_Index e), encodeEntry e)) <$> dk_log d).
Proof.
  intros [H0 Hr Hl _]. unfold reach in Hr. revert Hl H0 Hr. generalize (sm_Index (dk_snap d)). generalize (dk_log d).
  induction l as [|e es IH]; intros s Hl H0 Hr; cbn; [constructor|]. apply sorted_cons.
  assert (He : e_Index e = s + 1) by (specialize (Hl 0%nat e eq_refl); lia).
  assert (Hes : log_ok (s + 1) es) by (intros k x Hx; apply (Hl (S k)) in Hx; lia).
  split; [|apply (IH (s + 1) Hes); cbn [length] in Hr; lia]. apply Forall_forall. intros x Hx.
  apply list_elem_of_fmap in Hx as (y & -> & Hy). apply list_elem_of_lookup_1 in Hy as (i & Hi).
  pose proof (lookup_lt_Some _ _ _ Hi). apply Hes in Hi. cbn [length fst] in *.
  change (bytes_ltb (logKeyOf rng (e_Index e)) (logKeyOf rng (e_Index y)) = true).
  rewrite logKey_ltb by (apply small_u64; lia). lia.
Qed.

Lemma log_scan {E} `{EngineLaws E} rng (db : E) d :
  eng_wf db → Image rng (contents db) d →
  eng_scan (Some (logPrefixOf rng)) (Some (logUpperOf rng)) db
  = ((λ e, (logKeyOf rng (e_Index e), encodeEntry e)) <$> dk_log d, None).
Proof.
  intros Hwf [Hok _ _ Hl Ho]. destruct (eng_scan_law db (Some (logPrefixOf rng)) (Some (logUpperOf rng)) Hwf) as (es & -> & Hs & Hin).
  f_equal. apply sorted_unique; [done|by apply log_sorted|]. intros [k v]. rewrite Hin, logRange_in, list_elem_of_fmap. split.
  - intros [Hk Hp]. destruct (Ho k v Hp Hk) as (j & Hj & ->). rewrite Hl in Hk by done.
    apply fmap_Some in Hk as (e & He & ->). pose proof (entryAt_index _ _ _ Hok He) as <-.
    exists e. split; [done|]. by apply entryAt_elem.
  - intros (e & [= -> ->] & He). apply entryAt_elem in He as [He Hj]; [|done]. rewrite Hl, He by done.
    split; [done|apply logKey_prefix].
Qed.

Lemma decode_log rng d :
  disk_ok d → omap (λ x, decodeEntry (snd x)) ((λ e, (logKeyOf rng (e_Index e), encodeEntry e)) <$> dk_log d) = dk_log d.
Proof.
  intros [_ _ _ He]. induction He as [|e es He Hes IH]; [done|].
  cbn [fmap list_fmap omap list_omap snd]. rewrite decodeEntry_encode by done. f_equal. apply IH.
Qed.

Lemma readBack_image rng (db : DB) d :
  eng_wf db → Image rng (contents db) d →
  ∃ st, readBack rng db = Some st ∧ st_hs st = dk_hs d ∧ st_snap st = dk_snap d ∧ st_entries st = dk_log d.
Proof.
  intros Hwf Him. pose proof Him as [Hok Hhs Hsn _ _]. unfold readBack. rewrite (log_scan rng db d Hwf Him). cbn [fst].
  rewrite decode_log by done. change Get with (eng_get (E := DB)). rewrite !eng_get_law by done.
  assert (Hh : match (match contents db !! keyHardStateOf rng with Some v => Ok v | None => Err ErrNotFound end) with
               | Ok v => decodeHardState v | Err _ => MkHardState 0 0 end = dk_hs d).
  { destruct (contents db !! keyHardStateOf rng); [|done]. destruct Hhs as [-> ?]. by apply decodeHardState_encode. }
  rewrite Hh. destruct (contents db !! keySnapshotOf rng) as [v|].
  - destruct Hsn as (desc & mark & rs & -> & Hm & Hmc & Hl). rewrite decodeSnapshot_encode by done.
    cbn [mbind option_bind]. rewrite decodeMachine_encode by done. cbn [mbind option_bind]. by eexists.
  - cbn [mbind option_bind]. eexists. split; [done|]. cbn. by rewrite Hsn.
Qed.

(** ** What a write does to the image *)

(** The keys a record is made of. *)
Definition raftKey (rng : Z) (k : bytes) : Prop :=
  k = keyHardStateOf rng ∨ k = keySnapshotOf rng ∨ logPrefixOf rng `prefix_of` k.

Lemma image_same (rng : Z) (kv kv' : gmap bytes bytes) d :
  (∀ k, raftKey rng k → kv' !! k = kv !! k) → Image rng kv d → Image rng kv' d.
Proof.
  intros He [H1 H2 H3 H4 H5]. split; [done| | | |].
  - rewrite He by by left. done.
  - rewrite He by by right; left. done.
  - intros j Hj. rewrite He; [by apply H4|]. right; right. apply logKey_prefix.
  - intros k v Hk. rewrite He by by right; right. by apply H5.
Qed.

(** Batches of other ranges and of the state machine. *)
Definition spares (rng : Z) (b : Batch) : Prop := Forall (λ o, ∀ k, raftKey rng k → ¬ touched o k) b.

Lemma image_spares (rng : Z) (kv : gmap bytes bytes) b d : spares rng b → Image rng kv d → Image rng (foldl spec_op kv b) d.
Proof.
  intros Hb. revert kv. induction Hb as [|o b Ho Hb IH]; intros kv Him; [done|]. cbn [foldl].
  apply IH. eapply image_same; [|done]. intros k Hk. apply untouched. by apply Ho.
Qed.

Lemma image_hs (rng : Z) (kv : gmap bytes bytes) d hs :
  hs_ok hs → Image rng kv d →
  Image rng (spec_op kv (OpSet (keyHardStateOf rng) (encodeHardState hs))) (MkDisk hs (dk_snap d) (dk_log d)).
Proof.
  intros Hh [[] H2 H3 H4 H5]. cbn [spec_op]. split; [by split| | | |].
  - by rewrite lookup_insert_eq.
  - rewrite lookup_insert_ne by apply hs_not_snap. done.
  - intros j Hj. rewrite lookup_insert_ne; [by apply H4|]. intros He. apply (hs_not_log rng). rewrite He. apply logKey_prefix.
  - intros k v Hk. rewrite lookup_insert_ne; [by apply H5|]. intros He. apply (hs_not_log rng). by rewrite He.
Qed.

(** Replacing the record's log, when the engine's keys follow. *)
Lemma image_log (rng : Z) (kv kv' : gmap bytes bytes) d log' :
  let d' := MkDisk (dk_hs d) (dk_snap d) log' in
  Image rng kv d → disk_ok d' →
  (∀ k, ¬ logPrefixOf rng `prefix_of` k → kv' !! k = kv !! k) →
  (∀ j, is_u64 j → kv' !! logKeyOf rng j = encodeEntry <$> entryAt d' j) →
  (∀ k v, logPrefixOf rng `prefix_of` k → kv' !! k = Some v → ∃ j, is_u64 j ∧ k = logKeyOf rng j) →
  Image rng kv' d'.
Proof.
  intros d' [H1 H2 H3 H4 H5] Hok He Hl Ho. split; [done| | |done|done].
  - rewrite He by apply hs_not_log. done.
  - rewrite He by apply snap_not_log. done.
Qed.

(** Writing a run of entries, key by key. *)
Definition setOp (rng : Z) (e : Entry) : Op := OpSet (logKeyOf rng (e_Index e)) (encodeEntry e).

Lemma sets_batch rng b es : foldl (λ b e, Batch_Set (logKeyOf rng (e_Index e)) (encodeEntry e) b) b es = b ++ (setOp rng <$> es).
Proof.
  revert b. induction es as [|e es IH]; intros b; cbn; [by rewrite app_nil_r|]. rewrite IH. unfold Batch_Set. by rewrite <- app_assoc.
Qed.

Lemma run_lookup (rng s : Z) (es : list Entry) (kv : gmap bytes bytes) (j : Z) :
  log_ok s es → 0 ≤ s → s + Z.of_nat (length es) < 2 ^ 63 → is_u64 j →
  foldl spec_op kv (setOp rng <$> es) !! logKeyOf rng j
  = if bool_decide (s < j ≤ s + Z.of_nat (length es)) then encodeEntry <$> es !! Z.to_nat (j - s - 1) else kv !! logKeyOf rng j.
Proof.
  revert s kv. induction es as [|e es IH]; intros s kv Hl H0 Hb Hj; cbn [fmap list_fmap foldl length] in *.
  { case_bool_decide; [lia|done]. }
  assert (He : e_Index e = s + 1) by (specialize (Hl 0%nat e eq_refl); lia).
  rewrite (IH (s + 1)); [|by intros k x Hx; apply (Hl (S k)) in Hx; lia|lia|lia|done].
  unfold setOp. cbn [spec_op]. destruct (decide (j = s + 1)) as [->|Hne].
  - rewrite He, lookup_insert_eq. do 2 (case_bool_decide; try lia). by replace (s + 1 - s - 1) with 0 by lia.
  - rewrite lookup_insert_ne by (intros Hk; apply logKey_inj in Hk; [lia|apply small_u64; lia|done]).
    do 2 (case_bool_decide; try lia); [|done].
    by replace (Z.to_nat (j - s - 1)) with (S (Z.to_nat (j - (s + 1) - 1))) by lia.
Qed.

Lemma run_other (rng : Z) (es : list Entry) (kv : gmap bytes bytes) (k : bytes) :
  ¬ logPrefixOf rng `prefix_of` k → foldl spec_op kv (setOp rng <$> es) !! k = kv !! k.
Proof.
  intros Hk. revert kv. induction es as [|e es IH]; intros kv; [done|]. cbn [fmap list_fmap foldl]. rewrite IH.
  apply untouched. cbn. intros <-. apply Hk, logKey_prefix.
Qed.

Lemma run_only (rng : Z) (es : list Entry) (kv : gmap bytes bytes) (k v : bytes) :
  Forall entry_ok es → foldl spec_op kv (setOp rng <$> es) !! k = Some v →
  (∃ j, is_u64 j ∧ k = logKeyOf rng j) ∨ kv !! k = Some v.
Proof.
  intros He. revert kv. induction He as [|e es He Hes IH]; intros kv; [by right|]. cbn [fmap list_fmap foldl].
  intros [Hx|Hx]%IH; [by left|]. unfold setOp in Hx. cbn [spec_op] in Hx.
  destruct (decide (k = logKeyOf rng (e_Index e))) as [->|Hk]; [left|right; by rewrite lookup_insert_ne in Hx].
  exists (e_Index e). by destruct He as (_ & _ & ? & _).
Qed.

Lemma range_lookup (kv : gmap bytes bytes) (lo hi : option bytes) (k : bytes) :
  spec_op kv (OpDeleteRange lo hi) !! k = if InRange k lo hi then None else kv !! k.
Proof.
  cbn [spec_op]. destruct (InRange k lo hi) eqn:E.
  - apply map_lookup_filter_None. right. intros v _ Hv. cbn in Hv. congruence.
  - rewrite map_lookup_filter. destruct (kv !! k); [|done]. cbn [mbind option_bind]. by case_guard.
Qed.

(** The cut above the last entry written. *)
Definition cutOp (rng last_ : Z) : Op := OpDeleteRange (Some (logKeyOf rng (add64 last_ 1))) (Some (logUpperOf rng)).

Lemma cut_lookup (rng last_ : Z) (kv : gmap bytes bytes) (j : Z) :
  0 ≤ last_ < 2 ^ 63 → is_u64 j →
  spec_op kv (cutOp rng last_) !! logKeyOf rng j = if last_ <? j then None else kv !! logKeyOf rng j.
Proof.
  intros Hl Hj. unfold cutOp. rewrite range_lookup, add64_small by lia.
  rewrite (above_in rng (last_ + 1) j) by (unfold is_u64 in *; lia).
  destruct (Z.leb_spec (last_ + 1) j), (Z.ltb_spec last_ j); done || lia.
Qed.
Lemma cut_other (rng last_ : Z) (kv : gmap bytes bytes) (k : bytes) :
  ¬ logPrefixOf rng `prefix_of` k → spec_op kv (cutOp rng last_) !! k = kv !! k.
Proof.
  intros Hk. apply untouched. intros Hin. apply Hk. eapply log_bounds; [apply logKey_prefix|apply bytes_le_refl|exact Hin].
Qed.
Lemma cut_only (kv : gmap bytes bytes) (lo hi : option bytes) (k v : bytes) : spec_op kv (OpDeleteRange lo hi) !! k = Some v → kv !! k = Some v.
Proof. cbn [spec_op]. by intros [? _]%map_lookup_filter_Some. Qed.

(** ** The hard state and the entries *)

(** The record after a run of entries that starts above index [s]. *)
Definition placed (d : Disk) (s : Index) (es : list Entry) : Disk :=
  MkDisk (dk_hs d) (dk_snap d) (take (Z.to_nat (s - sm_Index (dk_snap d))) (dk_log d) ++ es).

(** A run that attaches to the record. *)
Record attaches (d : Disk) (s : Index) (es : list Entry) : Prop := MkAttaches {
  at_run : log_ok s es;
  at_entries : Forall entry_ok es;
  at_from : sm_Index (dk_snap d) ≤ s ≤ reach d;
  at_bound : s + Z.of_nat (length es) < 2 ^ 63;
}.

Lemma placed_ok d s es : disk_ok d → attaches d s es → disk_ok (placed d s es) ∧ reach (placed d s es) = s + Z.of_nat (length es).
Proof.
  intros [H0 Hr Hl He] [Hrun Hok Hs Hb]. unfold reach in *. cbn [placed dk_snap dk_log].
  set (p := Z.to_nat (s - sm_Index (dk_snap d))).
  assert (Hp : length (take p (dk_log d)) = p) by (rewrite length_take; lia).
  assert (HL : sm_Index (dk_snap d) + Z.of_nat (length (take p (dk_log d) ++ es)) = s + Z.of_nat (length es))
    by (rewrite length_app, Hp; lia).
  split; [|done]. unfold placed. fold p. split; unfold reach; cbn [dk_snap dk_log]; [done|lia| |].
  - intros i x Hx. destruct (decide (i < p)%nat) as [Hi|Hi].
    + rewrite lookup_app_l in Hx by lia. apply (log_ok_take _ _ p Hl) in Hx. lia.
    + rewrite lookup_app_r in Hx by lia. rewrite Hp in Hx. apply Hrun in Hx. lia.
  - apply Forall_app. split; [by apply Forall_take|done].
Qed.

Lemma placed_entryAt d s es j :
  disk_ok d → attaches d s es →
  entryAt (placed d s es) j
  = if bool_decide (s < j ≤ s + Z.of_nat (length es)) then es !! Z.to_nat (j - s - 1)
    else if s <? j then None else entryAt d j.
Proof.
  intros [H0 Hr Hl He] [Hrun Hok Hs Hb]. unfold entryAt, reach in *. cbn [placed dk_snap dk_log].
  set (p := Z.to_nat (s - sm_Index (dk_snap d))).
  assert (Hp : length (take p (dk_log d)) = p) by (rewrite length_take; lia).
  destruct (Z.ltb_spec (sm_Index (dk_snap d)) j) as [Hj|Hj].
  - case_bool_decide.
    + rewrite lookup_app_r by lia. f_equal. lia.
    + destruct (Z.ltb_spec s j).
      * apply lookup_ge_None. rewrite length_app. lia.
      * rewrite lookup_app_l by lia. apply lookup_take_lt. lia.
  - case_bool_decide; [lia|]. by destruct (Z.ltb_spec s j); [lia|].
Qed.

Lemma persist_image (rng : Z) (kv : gmap bytes bytes) (d : Disk) (s : Index) (es : list Entry) :
  Image rng kv d → attaches d s es →
  let last_ := s + Z.of_nat (length es) in
  Image rng (foldl spec_op kv ((if s <? reach d then [cutOp rng last_] else []) ++ (setOp rng <$> es))) (placed d s es).
Proof.
  intros Him Hat. pose proof Him as [Hok _ _ Hl Ho]. pose proof Hat as [Hrun Hes Hs Hb].
  pose proof Hok as [H0 Hr _ _]. cbv zeta. rewrite foldl_app.
  set (kv1 := foldl spec_op kv (if s <? reach d then _ else _)).
  assert (H1 : ∀ j, is_u64 j → s < j → ¬ j ≤ s + Z.of_nat (length es) → kv1 !! logKeyOf rng j = None).
  { intros j Hj Hsj Hn. unfold kv1. destruct (Z.ltb_spec s (reach d)) as [Hc|Hc]; cbn [foldl].
    - rewrite cut_lookup by (done || lia). case_test; [done|lia].
    - rewrite Hl by done. unfold entryAt, reach in *. case_test; [|done]. by rewrite lookup_ge_None_2 by lia. }
  assert (H2 : ∀ j, is_u64 j → j ≤ s → kv1 !! logKeyOf rng j = kv !! logKeyOf rng j).
  { intros j Hj Hsj. unfold kv1. case_test; [|done]. cbn [foldl]. rewrite cut_lookup by (done || lia). by case_test; [lia|]. }
  apply (image_log rng kv); [done|by apply placed_ok| | |].
  - intros k Hk. rewrite run_other by done. unfold kv1. case_test; [|done]. by apply cut_other.
  - intros j Hj. change (MkDisk _ _ _) with (placed d s es). rewrite (run_lookup rng s) by (done || lia).
    rewrite placed_entryAt by done. case_bool_decide; [done|]. destruct (Z.ltb_spec s j).
    + by rewrite H1 by (done || lia).
    + by rewrite H2, Hl by done.
  - intros k v Hp Hk. apply run_only in Hk as [Hk|Hk]; [done| |done]. revert Hk. unfold kv1.
    case_test; [intros Hk%cut_only|intros Hk]; by eapply Ho.
Qed.

(** The same on the record, which is indexed by position. *)
Lemma foldEntry_run base log s es :
  log_ok base log → log_ok s es → 0 ≤ base ≤ s → s ≤ base + Z.of_nat (length log) →
  base + Z.of_nat (length log) < 2 ^ 63 → s + Z.of_nat (length es) < 2 ^ 63 →
  foldM (foldEntry base) log es
  = Some (take (Z.to_nat (s - base)) log ++ es ++ drop (Z.to_nat (s - base) + length es) log).
Proof.
  intros Hlog. revert s log Hlog. induction es as [|e es IH]; intros s log Hlog Hrun Hb Hs Hl Hn; cbn [foldM length] in *.
  { rewrite Nat.add_0_r. cbn [app]. by rewrite take_drop. }
  assert (He : e_Index e = s + 1) by (specialize (Hrun 0%nat e eq_refl); lia).
  assert (Hrun' : log_ok (s + 1) es) by (intros k x Hx; apply (Hrun (S k)) in Hx; lia).
  set (p := Z.to_nat (s - base)).
  assert (Hfe : foldEntry base log e
                = if s - base <? Z.of_nat (length log) then Some (<[p:=e]> log) else Some (log ++ [e])).
  { unfold foldEntry. rewrite He. replace (s + 1 - base - 1) with (s - base) by lia.
    rewrite i64_u64 by (unfold is_i64; lia). case_test; [|done]. by case_test; [lia|]. }
  rewrite Hfe. clear Hfe.
  assert (Hp : Z.to_nat (s + 1 - base) = S p) by lia.
  destruct (Z.ltb_spec (s - base) (Z.of_nat (length log))) as [Hlt|Hge].
  - cbn [mbind option_bind]. rewrite (IH (s + 1)); rewrite ?length_insert; try lia; [|clear IH|done].
    + rewrite Hp, (take_S_r _ p e) by (apply list_lookup_insert_eq; lia). rewrite take_insert_ge by lia.
      rewrite drop_insert_lt by lia. rewrite <- app_assoc. cbn [app]. by replace (p + S (length es))%nat with (S p + length es)%nat by lia.
    + intros k x. destruct (decide (k = p)) as [->|Hk].
      * rewrite list_lookup_insert_eq by lia. intros [= <-]. lia.
      * rewrite list_lookup_insert_ne by done. apply Hlog.
  - assert (Hpl : p = length log) by lia. cbn [mbind option_bind].
    rewrite (IH (s + 1)); rewrite ?length_app; cbn [length]; try lia; [|clear IH|done].
    + rewrite Hp, Hpl, (take_ge (log ++ [e])) by (rewrite length_app; cbn; lia). rewrite (take_ge log) by lia.
      rewrite !drop_ge by (rewrite ?length_app; cbn; lia). by rewrite <- app_assoc.
    + apply log_ok_snoc; [done|lia].
Qed.

(** ** The writes of a replica *)

(** One write: the hard state and the entries of a Ready, a snapshot received, a
    snapshot taken, or a batch of somebody else's. *)
Inductive Write :=
| WPersist (hs : option HardState) (es : list Entry)
| WInstall (meta : SnapshotMeta) (desc : RangeDescriptor) (mark : Timestamp) (rs : list KvRecord)
| WSnapshot (meta : SnapshotMeta) (desc : RangeDescriptor) (mark : Timestamp) (rs : list KvRecord)
| WOther (b : Batch).

(** The batch goes to the engine, and its completion folds the pending write into
    the record. *)
Definition write1 (w : Write) (n : Replica) (db : DB) : option (Replica * DB) :=
  match w with
  | WPersist hs es =>
      let '(b, clearAbove, written) := persistBatch n hs es in
      n ← fold_ (MkPendingWrite 0 0 hs es 0 None [] zeroTimestamp false 0 clearAbove) n;
      Some (n <| rep_writtenLast := written |>, eng_apply b db)
  | WInstall meta desc mark rs =>
      n' ← fold_ (MkPendingWrite 0 0 None [] 0 (Some meta) rs mark true 0 0) n;
      Some (n' <| rep_writtenLast := sm_Index meta |>,
            eng_apply (installBatch (rep_rng n) meta (encodeMachine desc mark rs)) db)
  | WSnapshot meta desc mark rs =>
      n' ← fold_ (MkPendingWrite 0 0 None [] 0 (Some meta) [] zeroTimestamp false (sm_Index meta) 0) n;
      Some (n', eng_apply (snapshotBatch (rep_rng n) meta (encodeMachine desc mark rs)) db)
  | WOther b => Some (n, eng_apply b db)
  end.

Fixpoint writes (ws : list Write) (n : Replica) (db : DB) : option (Replica * DB) :=
  match ws with
  | [] => Some (n, db)
  | w :: ws => '(n, db) ← write1 w n db; writes ws n db
  end.

Definition stored_ok (meta : SnapshotMeta) (desc : RangeDescriptor) (mark : Timestamp) (rs : list KvRecord) : Prop :=
  meta_ok meta ∧ machine_ok desc mark rs ∧ key_ok (encodeMachine desc mark rs) ∧ 0 ≤ sm_Index meta < 2 ^ 63.

(** What Raft and the other ranges owe: a run of entries attaches to what was
    written before, a snapshot is taken of a prefix of it, and nobody writes the
    keys of another range's record. *)
Definition write_fits (w : Write) (n : Replica) : Prop :=
  match w with
  | WPersist hs es => from_option hs_ok True hs ∧ from_option (λ e, attaches (disk n) (e_Index e - 1) es) True (head es)
  | WInstall meta desc mark rs => stored_ok meta desc mark rs
  | WSnapshot meta desc mark rs =>
      stored_ok meta desc mark rs ∧ sm_Index (rep_durSnap n) < sm_Index meta ≤ reach (disk n)
  | WOther b => spares (rep_rng n) b ∧ Forall (λ o, known_op o = true) b
  end.

Fixpoint writes_fit (ws : list Write) (n : Replica) (db : DB) : Prop :=
  match ws with
  | [] => True
  | w :: ws => write_fits w n ∧ ∀ n' db', write1 w n db = Some (n', db') → writes_fit ws n' db'
  end.

(** The record and the engine agree, and the driver knows how far it wrote. *)
Record recorded (n : Replica) (db : DB) : Prop := MkRecorded {
  rc_wf : eng_wf db;
  rc_image : Image (rep_rng n) (contents db) (disk n);
  rc_written : rep_writtenLast n = reach (disk n);
}.

(** *** The record's side *)

Lemma fold_entries n hs es s clear :
  disk_ok (disk n) → attaches (disk n) s es → es ≠ [] → clear = (s <? reach (disk n)) →
  fold_ (MkPendingWrite 0 0 hs es 0 None [] zeroTimestamp false 0 (if clear then s + Z.of_nat (length es) else 0)) n
  = Some (n <| rep_durRecorded := true |> <| rep_durHS := default (rep_durHS n) hs |>
            <| rep_durLog := dk_log (placed (disk n) s es) |>).
Proof.
  intros Hok Hat Hne ->. pose proof Hok as [H0 Hr Hl _]. pose proof Hat as [Hrun _ Hs Hb]. unfold reach in *.
  cbn [disk dk_snap dk_log] in *. unfold fold_.
  cbn [w_hs w_snap w_clearAllLog w_clearBelow w_entries w_clearAbove].
  set (n1 := match hs with Some _ => _ | None => _ end).
  assert (Hn1 : n1 = n <| rep_durRecorded := true |> <| rep_durHS := default (rep_durHS n) hs |>) by (unfold n1; destruct hs, n; done).
  clearbody n1. subst n1. rewrite Z.ltb_irrefl. cbv zeta.
  set (n1 := n <| rep_durRecorded := true |> <| rep_durHS := default (rep_durHS n) hs |>).
  change (rep_durSnap n1) with (rep_durSnap n). change (rep_durLog n1) with (rep_durLog n).
  rewrite (foldEntry_run _ _ s) by (done || lia). cbn [mbind option_bind].
  set (p := Z.to_nat (s - sm_Index (rep_durSnap n))).
  assert (Hlen : (0 < length es)%nat) by (destruct es; [done|cbn; lia]).
  unfold placed. cbn [disk dk_log dk_snap]. fold p.
  assert (Hpl : length (take p (rep_durLog n)) = p) by (rewrite length_take; lia).
  destruct (Z.ltb_spec s (sm_Index (rep_durSnap n) + Z.of_nat (length (rep_durLog n)))) as [Hc|Hc].
  - destruct (Z.ltb_spec 0 (s + Z.of_nat (length es))); [|lia].
    change (rep_durSnap (n1 <| rep_durLog := _ |>)) with (rep_durSnap n). rewrite i64_u64 by (unfold is_i64; lia).
    assert (Hk : Z.to_nat (s + Z.of_nat (length es) - sm_Index (rep_durSnap n)) = (p + length es)%nat) by lia.
    rewrite Hk, app_assoc. case_test.
    + rewrite take_app_length' by (rewrite length_app, Hpl; lia). done.
    + rewrite drop_ge, app_nil_r; [done|]. rewrite !length_app, length_drop, Hpl in E.
      apply andb_false_iff in E as [E|E]; bool_hyps; lia.
  - rewrite Z.ltb_irrefl. rewrite drop_ge, app_nil_r by lia. done.
Qed.

(** Cutting the record below an index is dropping a prefix. *)
Lemma filter_drop s log k : log_ok s log → filter (λ e, e_Index e > k) log = drop (Z.to_nat (k - s)) log.
Proof.
  revert s. induction log as [|e es IH]; intros s Hl; [by rewrite drop_nil|].
  assert (He : e_Index e = s + 1) by (specialize (Hl 0%nat e eq_refl); lia).
  assert (Hes : log_ok (s + 1) es) by (intros i x Hx; apply (Hl (S i)) in Hx; lia).
  destruct (decide (s < k)) as [Hk|Hk].
  - rewrite filter_cons_False by lia. rewrite (IH (s + 1)) by done.
    by replace (Z.to_nat (k - s)) with (S (Z.to_nat (k - (s + 1)))) by lia.
  - rewrite filter_cons_True by lia. rewrite (IH (s + 1)) by done.
    by replace (Z.to_nat (k - (s + 1))) with 0%nat by lia; replace (Z.to_nat (k - s)) with 0%nat by lia.
Qed.

(** *** The engine's side *)

Lemma image_snap (rng : Z) (kv : gmap bytes bytes) (d d' : Disk) (v : bytes) (lo hi : bytes) :
  dk_hs d' = dk_hs d → disk_ok d' →
  logPrefixOf rng `prefix_of` lo → bytes_le hi (logUpperOf rng) →
  (∃ desc mark rs, v = encodeSnapshot (dk_snap d') (encodeMachine desc mark rs)
     ∧ meta_ok (dk_snap d') ∧ machine_ok desc mark rs ∧ key_ok (encodeMachine desc mark rs)) →
  (∀ j, is_u64 j → entryAt d' j = if InRange (logKeyOf rng j) (Some lo) (Some hi) then None else entryAt d j) →
  Image rng kv d →
  Image rng (foldl spec_op kv [OpSet (keySnapshotOf rng) v; OpDeleteRange (Some lo) (Some hi)]) d'.
Proof.
  intros Hh Hok Hlo Hhi Hv Hat [_ H2 H3 H4 H5]. cbn [foldl].
  assert (Hout : ∀ k, ¬ logPrefixOf rng `prefix_of` k → InRange k (Some lo) (Some hi) = false).
  { intros k Hk. apply not_true_iff_false. intros Hin. apply Hk. by eapply log_bounds. }
  split; [done| | | |].
  - rewrite range_lookup, Hout by apply hs_not_log. cbn [spec_op].
    rewrite lookup_insert_ne by (intros He; by apply (hs_not_snap rng)). by rewrite Hh.
  - rewrite range_lookup, Hout by apply snap_not_log. cbn [spec_op]. by rewrite lookup_insert_eq.
  - intros j Hj. rewrite range_lookup, Hat by done. destruct (InRange _ _ _); [done|]. cbn [spec_op].
    rewrite lookup_insert_ne; [by apply H4|]. intros He. apply (snap_not_log rng). rewrite He. apply logKey_prefix.
  - intros k x Hp Hk. apply cut_only in Hk. cbn [spec_op] in Hk. rewrite lookup_insert_ne in Hk; [by eapply H5|].
    intros He. apply (snap_not_log rng). by rewrite He.
Qed.

Lemma recorded_apply n db n' (b : Batch) :
  recorded n db → rep_rng n' = rep_rng n → Forall (λ o, known_op o = true) b →
  Image (rep_rng n) (foldl spec_op (contents db) b) (disk n') → rep_writtenLast n' = reach (disk n') →
  recorded n' (eng_apply b db).
Proof.
  intros [Hwf _ _] Hr Hk Him Hw. destruct (eng_apply_law db b Hwf Hk) as [Hwf' Hc]. split; [done| |done]. by rewrite Hc, Hr.
Qed.

Lemma write_install n db meta desc mark rs :
  recorded n db → stored_ok meta desc mark rs →
  ∃ n' db', write1 (WInstall meta desc mark rs) n db = Some (n', db') ∧ recorded n' db' ∧ rep_rng n' = rep_rng n.
Proof.
  intros Hrec (Hm & Hmc & Hkey & Hi). eexists _, _. split; [reflexivity|]. split; [|done].
  apply (recorded_apply n); [done|done|by repeat constructor| |unfold reach; cbn; lia].
  apply image_snap with (d := disk n); [done| | |apply bytes_le_refl| | |apply Hrec].
  - split; unfold reach; cbn; [lia|lia|apply log_ok_nil|constructor].
  - by exists [].
  - by exists desc, mark, rs.
  - intros j Hj. rewrite (proj2 (logRange_in _ _)) by apply logKey_prefix. unfold entryAt. cbn. by case_test.
Qed.

Lemma write_snapshot n db meta desc mark rs :
  recorded n db → stored_ok meta desc mark rs → sm_Index (rep_durSnap n) < sm_Index meta ≤ reach (disk n) →
  ∃ n' db', write1 (WSnapshot meta desc mark rs) n db = Some (n', db') ∧ recorded n' db' ∧ rep_rng n' = rep_rng n.
Proof.
  intros Hrec (Hm & Hmc & Hkey & Hi) Hidx. pose proof Hrec as [_ [[H0 Hr Hl He] _ _ _ _] Hw].
  unfold reach in *. cbn [disk dk_snap dk_log] in *.
  set (log' := drop (Z.to_nat (sm_Index meta - sm_Index (rep_durSnap n))) (rep_durLog n)).
  assert (Hf : fold_ (MkPendingWrite 0 0 None [] 0 (Some meta) [] zeroTimestamp false (sm_Index meta) 0) n
               = Some (n <| rep_durRecorded := true |> <| rep_durSnap := meta |> <| rep_durLog := log' |>)).
  { unfold fold_. cbn [w_hs w_snap w_clearAllLog w_clearBelow w_entries w_clearAbove foldM].
    destruct (Z.ltb_spec 0 (sm_Index meta)); [|lia]. cbn [mbind option_bind]. cbv zeta. rewrite Z.ltb_irrefl. unfold log'.
    by rewrite <- (filter_drop _ _ (sm_Index meta) Hl). }
  assert (Hlen : Z.of_nat (length log') = sm_Index (rep_durSnap n) + Z.of_nat (length (rep_durLog n)) - sm_Index meta)
    by (unfold log'; rewrite length_drop; lia).
  eexists _, _. split; [cbn [write1]; rewrite Hf; reflexivity|]. split; [|done].
  apply (recorded_apply n); [done|done|by repeat constructor| |unfold reach; cbn; lia].
  apply image_snap with (d := disk n); [done| | | | | |apply Hrec].
  - split; unfold reach; cbn [disk dk_snap dk_log]; cbn; [lia|lia| |by apply Forall_drop].
    pose proof (log_ok_drop _ _ (Z.to_nat (sm_Index meta - sm_Index (rep_durSnap n))) Hl) as Hd.
    replace (sm_Index (rep_durSnap n) + Z.of_nat (Z.to_nat (sm_Index meta - sm_Index (rep_durSnap n)))) with (sm_Index meta) in Hd by lia.
    exact Hd.
  - by exists [].
  - apply bytes_le_not_lt. intros Hlt. pose proof (proj2 (logRange_in (rep_rng n) _) (logKey_prefix (rep_rng n) (add64 (sm_Index meta) 1))) as Hin.
    unfold InRange in Hin. apply andb_true_iff in Hin as [_ Hin]. apply (bytes_lt_irrefl (logUpperOf (rep_rng n))).
    by eapply bytes_lt_trans.
  - by exists desc, mark, rs.
  - intros j Hj. rewrite add64_small, below_in by (done || unfold is_u64 in *; lia).
    unfold entryAt. cbn [disk dk_snap dk_log]. cbn. destruct (Z.ltb_spec j (sm_Index meta + 1)), (Z.ltb_spec (sm_Index meta) j); try lia; [done|].
    destruct (Z.ltb_spec (sm_Index (rep_durSnap n)) j); [|lia]. unfold log'. rewrite lookup_drop. f_equal. lia.
Qed.

(** The batch of a Ready: the hard state, the cut, the entries. *)
Definition hsOps (rng : Z) (hs : option HardState) : Batch :=
  match hs with Some h => [OpSet (keyHardStateOf rng) (encodeHardState h)] | None => [] end.

Lemma persistBatch_eq n hs es e0 s :
  head es = Some e0 → e_Index e0 = s + 1 → log_ok s es →
  let last_ := s + Z.of_nat (length es) in
  let clear := s <? rep_writtenLast n in
  persistBatch n hs es
  = (hsOps (rep_rng n) hs ++ (if clear then [cutOp (rep_rng n) last_] else []) ++ (setOp (rep_rng n) <$> es),
     if clear then last_ else 0, last_).
Proof.
  intros Hh He Hrun. cbv zeta. destruct es as [|e es]; [done|]. injection Hh as ->.
  assert (Hlast : ∃ el, last (e0 :: es) = Some el ∧ e_Index el = s + Z.of_nat (length (e0 :: es))).
  { destruct (last (e0 :: es)) as [el|] eqn:El; [|by apply last_None in El]. exists el. split; [done|].
    rewrite last_lookup in El. apply Hrun in El. rewrite El. cbn [length Nat.pred]. lia. }
  destruct Hlast as (el & Hel & Hi). unfold persistBatch. rewrite Hel. cbn [head]. rewrite sets_batch, Hi, He.
  destruct (Z.ltb_spec s (rep_writtenLast n)), (Z.leb_spec (s + 1) (rep_writtenLast n)); try lia;
    unfold Batch_DeleteRange, Batch_Set, NewBatch, hsOps, cutOp; destruct hs; reflexivity.
Qed.

Lemma hs_image (rng : Z) (kv : gmap bytes bytes) (d : Disk) (hs : option HardState) :
  from_option hs_ok True hs → Image rng kv d →
  Image rng (foldl spec_op kv (hsOps rng hs)) (MkDisk (default (dk_hs d) hs) (dk_snap d) (dk_log d)).
Proof. destruct hs as [h|]; cbn [from_option hsOps foldl]; [apply image_hs|]. by destruct d. Qed.

Lemma known_writes rng hs (c : bool) last_ es :
  Forall (λ o, known_op o = true) (hsOps rng hs ++ (if c then [cutOp rng last_] else []) ++ (setOp rng <$> es)).
Proof.
  rewrite !Forall_app. split_and!; [destruct hs; by repeat constructor|destruct c; by repeat constructor|].
  apply Forall_fmap, Forall_true. done.
Qed.

Lemma write_persist n db hs es :
  recorded n db → write_fits (WPersist hs es) n →
  ∃ n' db', write1 (WPersist hs es) n db = Some (n', db') ∧ recorded n' db' ∧ rep_rng n' = rep_rng n.
Proof.
  intros Hrec [Hhs Hes]. pose proof Hrec as [_ Him Hw]. destruct (head es) as [e0|] eqn:Eh.
  - cbn [from_option] in Hes. set (s := e_Index e0 - 1) in *. pose proof (im_ok _ _ _ Him) as Hok.
    destruct (placed_ok _ _ _ Hok Hes) as [_ Hreach].
    cbn [write1]. rewrite (persistBatch_eq n hs es e0 s) by (done || lia || apply Hes).
    rewrite (fold_entries n hs es s) by (done || (by rewrite Hw) || by destruct es). cbn [mbind option_bind].
    eexists _, _. split; [reflexivity|]. split; [|done]. apply (recorded_apply n); [done|done|apply known_writes| |by symmetry].
    rewrite foldl_app, Hw.
    apply (persist_image _ _ (MkDisk (default (rep_durHS n) hs) (rep_durSnap n) (rep_durLog n)) s es); [by apply (hs_image _ _ (disk n))|].
    destruct Hes. by split.
  - destruct es as [|]; [|done]. cbn [write1 persistBatch head last].
    assert (Hf : fold_ (MkPendingWrite 0 0 hs [] 0 None [] zeroTimestamp false 0 0) n
                 = Some (n <| rep_durRecorded := true |> <| rep_durHS := default (rep_durHS n) hs |>)) by (destruct hs, n; done).
    rewrite Hf. cbn [mbind option_bind]. eexists _, _. split; [reflexivity|]. split; [|done].
    apply (recorded_apply n); [done|done|destruct hs; by repeat constructor| |done].
    change (match hs with Some h => _ | None => NewBatch end) with (hsOps (rep_rng n) hs).
    by apply (hs_image _ _ (disk n)).
Qed.

Lemma write_recorded w n db :
  recorded n db → write_fits w n → ∃ n' db', write1 w n db = Some (n', db') ∧ recorded n' db' ∧ rep_rng n' = rep_rng n.
Proof.
  intros Hrec Hw. destruct w as [hs es|meta desc mark rs|meta desc mark rs|b].
  - by apply write_persist.
  - by apply write_install.
  - destruct Hw. by apply write_snapshot.
  - destruct Hw as [Hs Hk]. eexists _, _. split; [reflexivity|]. split; [|done].
    apply (recorded_apply n); [done|done|done| |apply Hrec]. apply image_spares; [done|apply Hrec].
Qed.

Lemma writes_recorded ws n db :
  recorded n db → writes_fit ws n db →
  ∃ n' db', writes ws n db = Some (n', db') ∧ recorded n' db' ∧ rep_rng n' = rep_rng n.
Proof.
  revert n db. induction ws as [|w ws IH]; intros n db Hrec Hfit; [by exists n, db|]. destruct Hfit as [Hw Hws].
  destruct (write_recorded w n db Hrec Hw) as (n1 & db1 & H1 & Hrec1 & Hr1).
  destruct (IH n1 db1 Hrec1 (Hws _ _ H1)) as (n2 & db2 & H2 & Hrec2 & Hr2).
  exists n2, db2. cbn [writes]. rewrite H1. cbn [mbind option_bind]. split_and!; [done|done|congruence].
Qed.

(** The comparison of a record with itself. *)
Lemma same_refl hs snap log st :
  st_hs st = hs → st_snap st = snap → st_entries st = log → sameDurableState hs snap log st = true.
Proof.
  intros <- <- <-. unfold sameDurableState. rewrite bool_decide_true, !Z.eqb_refl, Nat.eqb_refl by done.
  rewrite (proj2 (Configuration_Equal_eq _ _)) by done. cbn [andb].
  apply forallb_forall. intros [a b] Hin. apply list_elem_of_In in Hin.
  assert (a = b) as ->.
  { apply list_elem_of_lookup_1 in Hin as (i & Hi). apply lookup_zip_Some in Hi as [Ha Hb]. cbn in *. congruence. }
  unfold sameEntry. cbn [fst snd]. rewrite !Z.eqb_refl, bool_decide_true by done. cbn [andb]. by apply bool_decide_true.
Qed.

(** C20. The durable record is exact: from agreement, any sequence of a replica's
    writes -- the hard state and entries of a Ready, overwriting a conflicting tail
    or not, snapshots taken and received -- interleaved with writes that are not
    this record's, is folded into the record without a panic, and what the engine
    then reads back is that record.  So the comparison [onDurable] and [restart]
    make never finds a difference, whichever prefix of the writes was durable. *)
Theorem durable_record_exact ws n db :
  recorded n db → writes_fit ws n db →
  ∃ n' db' st, writes ws n db = Some (n', db') ∧ readBack (rep_rng n) db' = Some st
    ∧ st_hs st = rep_durHS n' ∧ st_snap st = rep_durSnap n' ∧ st_entries st = rep_durLog n'
    ∧ sameDurableState (rep_durHS n') (rep_durSnap n') (rep_durLog n') st = true.
Proof.
  intros Hrec Hfit. destruct (writes_recorded ws n db Hrec Hfit) as (n' & db' & H1 & [Hwf Him _] & Hr).
  rewrite Hr in Him. destruct (readBack_image _ _ _ Hwf Him) as (st & H2 & H3 & H4 & H5).
  exists n', db', st. split_and!; try done. by apply same_refl.
Qed.

(** ** A tail rewritten *)

(** Nothing written yet. *)
Lemma recorded_fresh d r s h : recorded (bareReplica d r s h) Engine.New.
Proof.
  split; [|split|done].
  - split; [|done]. unfold sorted_entries. vm_compute. constructor.
  - split; unfold reach; cbn; [lia|lia|apply log_ok_nil|constructor].
  - reflexivity.
  - reflexivity.
  - intros j Hj. change (contents Engine.New) with (∅ : gmap bytes bytes). unfold entryAt. cbn. by destruct (0 <? j).
  - intros k v _. by change (contents Engine.New) with (∅ : gmap bytes bytes).
Qed.

Definition entryW (t i : Z) : Entry := MkEntry EntryNormal t i (MkProposalID 1 i) [].
Definition writesW : list Write :=
  [WPersist (Some (MkHardState 1 1)) [entryW 1 1; entryW 1 2; entryW 1 3]; WPersist (Some (MkHardState 2 0)) [entryW 2 2]].
Definition nW : Replica := bareReplica FirstRangeDescriptor (freshRaft (raftConfig cfg1) (MkConfiguration [1] []))
                             (plain (rangePrefix FirstRange) zeroTimestamp) clock1.

Lemma writesW_fit : writes_fit writesW nW Engine.New.
Proof.
  assert (Hrun : ∀ s es, forallb (λ x, e_Index (snd x) =? s + Z.of_nat (fst x) + 1) (zip (seq 0 (length es)) es) = true → log_ok s es).
  { intros s es Hf k e He. rewrite forallb_forall in Hf. specialize (Hf (k, e)). cbn in Hf. apply Z.eqb_eq, Hf.
    apply list_elem_of_In, (list_elem_of_lookup_2 _ k), lookup_zip_Some. split; [|done]. apply lookup_seq. split; [done|].
    by apply lookup_lt_Some in He. }
  split; [|intros n1 db1 H1; split; [|done]].
  - split; [by codec_ok|]. split; [by apply Hrun|by codec_ok|vm_compute; by split|by vm_compute].
  - assert (Hd : disk n1 = MkDisk (MkHardState 1 1) noMeta [entryW 1 1; entryW 1 2; entryW 1 3]).
    { vm_compute in H1. injection H1 as <- _. reflexivity. }
    split; [by codec_ok|]. cbn [from_option head]. rewrite Hd.
    split; [by apply Hrun|by codec_ok|vm_compute; by split|by vm_compute].
Qed.

Lemma durable_record_exact_witness :
  ∃ n' db' st, writes writesW nW Engine.New = Some (n', db') ∧ readBack FirstRange db' = Some st
    ∧ sameDurableState (rep_durHS n') (rep_durSnap n') (rep_durLog n') st = true.
Proof.
  destruct (durable_record_exact writesW nW Engine.New (recorded_fresh _ _ _ _) writesW_fit)
    as (n' & db' & st & H1 & H2 & _ & _ & _ & H3).
  exact (ex_intro _ n' (ex_intro _ db' (ex_intro _ st (conj H1 (conj H2 H3))))).
Defined.

Example writesW_read :
  match writes writesW nW Engine.New with
  | Some (_, db) => match readBack FirstRange db with Some st => (st_hs st, st_entries st) | None => (MkHardState 0 0, []) end
  | None => (MkHardState 0 0, [])
  end = (MkHardState 2 0, [entryW 1 1; entryW 2 2]).
Proof. vm_compute. reflexivity. Qed.
