(* ===== verification/StoreScenarios.v ===== *)
(** * Machines at work

    Whole machines ([StoreNode.Handle]) driven by an explicit script: ticks,
    completed syncs, client requests, crashes and restarts, and the delivery of any
    message ever sent, in any order.  Two executions show answers the design rules
    out. *)

From Stdlib Require Import Lia ZArith.
From stdpp Require Import base tactics numbers option gmap list.
From S2P Require Import Prelude Bytes ConfChange RaftTypes Raft Hlc Engine KvEncoding EngineIface KvStore KvTxn EngineMap StoreCodec StoreReplay StoreTxn StoreRange StoreNode StoreDriver.

(** ** Scripts *)

(** Three machines that serve reads off the log. *)
Definition cfgN (id : Z) : NodeConfig :=
  MkNodeConfig id [1; 2; 3] (id - 1) 10 1 5 true true false true [] 0 3 0 0 false false true 0 None (λ n, 1000 + Z.of_nat n) 500.

(** [ADeliver i j k]: the [k]-th message machine [i] sent to machine [j]. *)
Inductive Act :=
| ATick (i : nat) | ASync (i : nat) | ADeliver (i j k : nat) | AClient (i : nat) (r : Request) | ACrash (i : nat) | ARestart (i : nat).

Definition sentTo (j : Z) (m : Node) : list bytes :=
  omap (λ o, match o with OSend _ to body => if to =? j then Some body else None | _ => None end) (m_out m).

Definition onMachine (i : nat) (ev : Node → Event) (ms : list Node) : option (list Node) :=
  m ← ms !! i; m' ← Handle (cfgN (Z.of_nat i + 1)) 10 (ev m) 0 m; Some (<[i := m']> ms).

Definition act (ms : list Node) (a : Act) : option (list Node) :=
  match a with
  | ATick i => onMachine i (λ _, KindTick) ms
  | ASync i => onMachine i (λ m, KindDurable (g_current (m_epoch m)) (visibleSeq (m_db m))) ms
  | ADeliver i j k =>
      src ← ms !! i; body ← sentTo (Z.of_nat j) src !! k; onMachine j (λ _, KindDeliver body) ms
  | AClient i r => onMachine i (λ _, KindClient r) ms
  | ACrash i => onMachine i (λ _, KindCrash) ms
  | ARestart i => onMachine i (λ _, KindRestart) ms
  end.

Definition script (acts : list Act) : option (list Node) :=
  ms ← mapM (λ i, newNode (cfgN i)) [1; 2; 3]; foldM act ms acts.

(** The answers given to clients, machine by machine. *)
Definition answers (ms : option (list Node)) : list (list (Z * bool * bytes)) :=
  match ms with
  | None => []
  | Some ms => (λ m, omap (λ o, match o with OEnd h _ ok v => Some (h, ok, v) | _ => None end) (m_out m)) <$> ms
  end.

(** ** A read from the past *)

Definition getAny (k : bytes) (h : Z) : Request := MkRequest 0 0 opGet k [] h true zeroTimestamp None 0 0.

(** Machine 0 leads, and a put is committed, answered and applied on all three.  A
    heartbeat sent before anything was committed, and the request for a vote, are
    still on their way to machine 1. *)
Definition writeActs : list Act :=
  replicate 10 (ATick 0) ++
  [ASync 0; ADeliver 0 2 0; ASync 2; ADeliver 2 0 0;
   ATick 0; ASync 0; ADeliver 0 2 1; ADeliver 0 1 1; ASync 1; ASync 2; ADeliver 2 0 1; ADeliver 1 0 0;
   AClient 0 (putReq k0 val1 7); ASync 0; ATick 0; ADeliver 0 1 3; ADeliver 0 2 3; ASync 1; ASync 2; ADeliver 1 0 1;
   ADeliver 2 0 2; ATick 0; ADeliver 0 1 5; ADeliver 0 2 5].

(** Machine 1 crashes and restarts; the late heartbeat names its leader; it asks
    for a read index, which machines 0 and 2 confirm, and the answer reaches it
    before any new commit index does. *)
Definition readActs : list Act :=
  [ACrash 1; ARestart 1; ADeliver 0 1 2; ASync 1; AClient 1 (getAny k0 8); ASync 1; ADeliver 1 0 4; ASync 0;
   ADeliver 0 2 6; ASync 2; ADeliver 2 0 4; ADeliver 0 1 7; ADeliver 0 1 0; ASync 1].

(** A counterexample to linearizable follower reads: the write of a key is
    answered (7), and a read of the key issued afterwards (8) is answered as
    absent.  The reading machine restarted in between: its state machine went back
    to the last snapshot and its applied index did not, so the confirmed index
    looked applied. *)
Theorem stale_follower_read :
  answers (script writeActs) = [[(7, true, [])]; []; []]
  ∧ answers (script (writeActs ++ readActs)) = [[(7, true, [])]; [(8, true, [])]; []]
  ∧ val1 ≠ [].
Proof. split; [vm_compute; reflexivity|]. split; [vm_compute; reflexivity|discriminate]. Qed.

(** ** A step that is never taken *)

Definition txnReq (c : TxnCommand) (h : Z) : Request := MkRequest 0 0 opTxn (tc_Key c) [] h false zeroTimestamp (Some c) 0 0.
Definition prewriteC : TxnCommand :=
  MkTxnCommand OpPrewrite kC val1 kC ts5 zeroTimestamp ts9 TxnPending zeroTimestamp 0 zeroTimestamp zeroTimestamp.

Definition syncs (m : option Node) : option Node := syncAll cfg1 (syncAll cfg1 m).
Definition elect (m : option Node) : option Node := syncs (handleAll cfg1 (replicate 10 KindTick) m).

(** The prewrite enters the log behind a split that moves its key away.  (A
    coordinator's steps have no place in the history: their index is -1.) *)
Definition rerouted : option Node := syncs (handleAll cfg1 [KindClient (txnReq prewriteC (-1))] (syncAll cfg1 proposed)).

(** The requests the machine put back on the schedule, and the same machine once
    it has handled them, every range having a leader. *)
Definition reissued (m : option Node) : list Request :=
  match m with Some m => omap (λ o, match o with OClient _ _ r => Some r | _ => None end) (m_out m) | None => [] end.
Definition retried : option Node := syncs (handleAll cfg1 (KindClient <$> reissued rerouted) (elect (elect rerouted))).

Definition stepAnswers (m : option Node) : list Out :=
  match m with
  | Some m => filter (λ o, match o with OTxnApplied _ _ _ => true | OEnd h _ _ _ => h =? -1 | _ => false end = true) (m_out m)
  | None => []
  end.
Definition locksOn (k : bytes) (m : option Node) : list (result KvError (option Lock)) :=
  match m with Some m => (λ n, Store_Lock (t_Engine (m_db m)) k (rep_mvcc n)) <$> m_replicas m | None => [] end.

(** A counterexample to rerouting: a transaction step applied outside the
    range's extent is reissued without its transaction; the range that owns the key
    applies a command that does nothing, the coordinator is never told, and no
    range holds the lock. *)
Theorem rerouted_step_lost :
  map q_Txn (reissued rerouted) = [None]
  ∧ stepAnswers retried = []
  ∧ locksOn kC retried = [Ok None; Ok None; Ok None].
Proof. split_and!; vm_compute; reflexivity. Qed.
